(* ===== verification/_CoqProject ===== *)
-Q . S2P
Prelude.v
Core.v
Utf8.v
TurnId.v
IsoTime.v
Sse.v
Json.v
OrderedJson.v
Schema.v
Glob.v
Rules.v
Config.v
Approval.v
Hooks.v
AuditRows.v
Paths.v
FileText.v
Mutation.v
Anchored.v
Workspace.v
PathLocks.v
Admission.v
Dispatch.v
FileTools.v
Provider.v
ProtocolRequest.v
ProtocolResponse.v
SseDecoders.v
ProtocolTransport.v
Context.v
Prompt.v
Scheduler.v
Observer.v
Loop.v
StatementCache.v
Pool.v
AsyncChannel.v
TaskGroup.v
Channel.v
Delivery.v
Adapters.v
TeamBoard.v
Background.v
BackgroundInvariant.v
BackgroundSteps.v
BackgroundShutdown.v
BackgroundService.v
Sqlite.v
SessionRepository.v
SessionStore.v
AuditStore.v
Migrations.v
TimeOrder.v
Longterm.v
LongtermStore.v
MemoryTools.v
AgentSession.v
