(* ===== verification/Prelude.v ===== *)
(** * orangutan-agent: a verification development

    The program is a multi-platform agent in C++: a host hands a user's message to an
    agent loop, the loop asks a model provider, dispatches the tools the model calls,
    stores the conversation and answers; agents can start further agents.  This library
    models its own logic as Rocq functions and step relations, and proves what each part
    promises.  Paths are those of the repository: [src/oran-*/] and [include/oran/*/].

    ** Parts, files and source

    Core values ([oran-core], [oran-io], [oran-http]):
    - [Prelude]: errors and [core::Result] with its monad notations ([let?], [fail?]),
      bytes, w-bit arithmetic, shared tactics and lemmas;
    - [Core] (enum_names.hpp, error.cpp, content.cpp, message.cpp), [Utf8] (str.cpp),
      [TurnId] (turn_id.cpp), [IsoTime] (time.cpp);
    - [Json], [OrderedJson]: the values of the two JSON libraries, and the library as the
      typeclass [JsonLibrary] with its laws;
    - [Sse] (sse_parser.hpp); [FileText] (io/file.cpp); [Mutation], [Anchored]
      (directory_authority.cpp, fingerprint.cpp).

    Configuration and permissions ([oran-config], [oran-permission], [oran-hook]): [Glob],
    [Rules] (rule_set.cpp, defaults.cpp, bootstrap/permissions.cpp), [Config] (config.cpp: the
    whole reader, from the text of a file to the configuration), [Approval] (approval*.cpp), [Hooks] (bus.cpp),
    [AuditRows] (audit.cpp, audit_metadata.cpp, input_redaction.cpp).

    Tools ([oran-tool]): [Schema] (schema_validation.cpp), [Paths] (the lexical paths of the
    standard library), [Workspace] (workspace.cpp), [PathLocks] (path-locks.cpp), [Admission]
    (parse_input.cpp, path_resolution.cpp), [Dispatch] (registry.cpp, approval_resolution.cpp,
    output.cpp), [FileTools] (file_read.cpp, file_write.cpp, file_edit.cpp).

    Providers ([oran-provider]): [Provider] (execution.cpp), [ProtocolRequest],
    [ProtocolResponse], [SseDecoders] (the two stream decoders), [ProtocolTransport].

    The agent ([oran-agent], [oran-prompt]): [Context] (context.cpp), [Prompt] (catalog.cpp,
    render.cpp), [Scheduler] (scheduler.cpp), [Observer] (turn_observer.cpp), [Loop] (loop.cpp).

    Storage ([oran-storage], [oran-memory]): [StatementCache], [Pool]; [Sqlite] (the
    transactions of sqlite.cpp, and a program logic for what is built on them),
    [SessionRepository] (session_repository.cpp, session_import.cpp), [SessionStore]
    (memory/session.cpp), [AuditStore] (audit_repository.cpp, trace_repository.cpp,
    storage_audit_sink.cpp), [Migrations] (migrations.cpp); long-term memory: [TimeOrder] (the
    order of timestamp texts), [Longterm] (longterm.cpp, recall.cpp, recall_index.cpp and the
    text of recall_render.cpp), [LongtermStore] (longterm_fts5.cpp, longterm_index.cpp,
    longterm-import.cpp), [MemoryTools] (the tools that remember, recall and forget, their
    hooks, the JSON renderings and the recall of a prompt).

    Concurrency and hosts: [AsyncChannel] (async/channel.hpp), [TaskGroup] (task_group.cpp);
    [Channel] (channel/protocol.cpp), [Delivery] (dispatcher.cpp), [Adapters]
    (telegram.cpp, feishu.cpp, qq.cpp: messages of the platforms in, requests out); [TeamBoard] (teams' data,
    messages and output), [Background] (background_tasks.cpp, agent-team.cpp,
    team-scheduling.cpp) with its proofs in [BackgroundInvariant], [BackgroundSteps],
    [BackgroundShutdown] and [BackgroundService]; [AgentSession] (agent_session.cpp,
    child-agents.cpp: creation, prompts, completions, the inbox, children).

    ** How the parts interact

    [Loop] takes its host as a parameter whose answers depend on the log of everything it was
    asked; the answers it needs are the interfaces that [Provider], [Scheduler], [SessionStore]
    and [Observer] implement.  [Scheduler] interleaves the calls of a batch; a call is
    [Dispatch], which consults [Rules], [Approval], [Hooks], [AuditRows], [Admission] and, for
    files, [FileTools], [Workspace], [Mutation] and [FileText].  [AuditStore] is the audit sink
    that dispatch writes to.  [ProtocolTransport] is a backend of [Provider] and uses the
    request encoder and both kinds of decoder.  [SessionStore] runs on [SessionRepository],
    and it, [AuditStore] and [Migrations] on [Sqlite].  [Longterm] is written against the
    interface [Backend] with its laws; [LongtermStore] implements it on [Sqlite]; [MemoryTools]
    calls either from the handlers of its tools, between the [Hooks] of a write.  The rules
    that [Config] reads are the ones [Rules] compiles; the events that [Adapters] decodes are
    the ones [Delivery] answers, through an adapter of the same file.  [AgentSession]
    is what runs a turn of [Loop] for a host: its history and inbox are that turn's, its options
    come from [Config], its rules are those of [Rules], and what a turn adds is committed to
    [SessionStore] or kept in memory.  [Background]
    runs its children in the groups of [TaskGroup], which signal through [AsyncChannel].

    ** How the code is rendered

    A function that can fail returns [Result]; where an exception can leave it, [Exc].  A
    method that changes its object returns the new object.  Code of a strand between two
    suspensions is one function, and a step relation interleaves such functions, so that
    theorems about reachable states hold for every schedule.  Sizes and machine integers are
    [Z], with [wrap_u] and [wrap_s] where the code wraps.  Effects that matter are recorded in
    order: system calls ([Mutation.M]), calls of sinks, audit rows, messages sent, the log of
    a turn.  A SQL statement is the function on tables its text denotes, and every call into
    SQLite can fail.

    ** What the theorems show

    - Safety of tools: what runs was authorised by the rules, the parent's policy, the hooks and
      an approval of that very call where one is asked for, and recorded first (a tool that is
      registered outside the permission system is only recorded: [Dispatch.execution_*],
      [Dispatch.dispatch_audits_once]); paths stay in the workspace's grants, for roots that are
      absolute or begin with a directory that exists ([Workspace.resolve_*_contained],
      [Admission]); every opening of a file is beneath its authority, flags and descriptors
      included ([Anchored.open_file_confined]); writes and edits are atomic ([Mutation.write_text_atomic], [FileTools.file_edit_atomic]);
      locks exclude and lose no wakeup ([PathLocks]); audit rows hide what they redact.
    - Configuration: strict mode accepts exactly what lenient mode reads without a warning, what
      is read is in bounds, its permission rules compile, the bytes of a file are bounded, and
      references to the environment are replaced once and never inside what replaces them
      ([Config]).
    - Turns: every call of a batch is answered, transcripts are well formed, requests fit the
      budget, checkpoints can be resumed, histories are loaded page by page to exactly the
      stored messages behind the checkpoint ([Loop], [Context]).
    - Sessions: a prompt refines a contract (one at a time, committed as a whole or not at all,
      messages acknowledged last), a conversation can always go on, claimed completions are
      settled as their turn was, and a child keeps its parent's policy and cannot delegate
      ([AgentSession]).
    - Providers: schedules of attempts, stream decoders that agree with body decoders on the
      events Anthropic sends, whatever their other members, responses
      that can be sent back, credentials confined to their base URL.
    - Storage: appends as a whole or not at all, no lost update, exact readers and import,
      conversations and contexts that survive a round trip, an audit log that only grows,
      migrations applied exactly once by any number of processes; leases that exclude.
    - Long-term memory: the full-text index follows the notes whatever is written (their tags in
      the order the engine aggregates them), a note that is remembered is read back, a recall
      returns notes of its scope as they stood when it selected them, whatever other calls do
      before it writes their read times ([Longterm.recall_amid]), import
      copies a scope, the paged index covers its scope within its budget, and a query reaches
      the full-text engine as quoted plain words ([Longterm], [LongtermStore]).  Its tools write
      only what the hooks let through, and show untrusted observers no text ([MemoryTools]).
    - Concurrency: pools, channels and groups that lose nothing and never stall; batches that
      return, for each call, what the history says its own dispatch ended with, and whose
      cancellation names exactly the calls the history has not seen reported ([Scheduler]).
    - Teams: bounds, boards that follow jobs, explicit acceptance, life cycles, shutdown that
      returns.  Delivery refines the protocol of an event and sends a part at most once.
      What the adapters decode is a valid message of a person, replies go back to its chat, and
      different replies are different requests ([Adapters]).

    A theorem with hypotheses has a witness in the [Demo] module at the end of its file, which
    applies it to concrete inputs.

    ** Bounds and fuel

    Loops that are not structural take fuel, and a theorem shows it suffices: the size of a
    schema ([Schema.validate_fuel]), [|pattern| * |text|] steps of the glob matcher, one unit
    per byte and one more for reading files ([FileText]), the messages still to load for the
    pages of a history ([Loop.load_history_complete], and the page loop of
    [SessionRepository]), the entries of a scope for the walk over its index
    ([Longterm.index_walk]), one per byte for splitting texts ([Channel]), replacing references to the
    environment ([Config]) and erasing mentions ([Adapters]).  Everywhere else
    recursion is structural.

    ** Parameters

    Code that is not part of the repository is an argument of what uses it, with the documented
    behaviour that is relied on as named hypotheses: libsodium's hashes and MACs, RE2,
    [nlohmann::json]'s reader and writer (which fails only on text that is not UTF-8), SQLite's faults, clock, skipped row ids and JSON
    functions (which may aggregate in any order), the file
    system and system calls, host callbacks (hooks, sinks, tools, approvals), asio's executors
    and timers as the order of steps, the HTTP transport, the environment and secret lookup,
    random identifiers, conversions of floating-point numbers that the language leaves
    undefined, what SQLite's full-text engine matches and how it ranks, and the other
    processes that migrate a database.

    ** Not modelled

    libcurl's client (oran-http/client.cpp), the thread and timer wrappers (oran-async/runtime.cpp,
    sleep.cpp), SQLite's C binding apart from transactions, the backups of long-term
    memory, the tools that only forward to a host service, the platforms' HTTP and webhook
    endpoints and the applications, the typing status of a delivery and reply renderers that
    throw, the assembly of the runtime in oran-bootstrap, private directories,
    benchmarks and tests.
    Destructors that only free memory, logging and metrics are left out throughout; the clock,
    where the code reads it, is an argument. *)
From Stdlib Require Export ZArith Lia Ascii.
From Stdlib Require Floats.SpecFloat.
From stdpp Require Export base tactics gmap strings pretty numbers list.
Export list_basics.list.
#[global] Open Scope list_scope.

(** ** Result values *)

(** [core::ErrorKind] (include/oran/core/error.hpp). *)
Inductive ErrorKind :=
  | ek_ok | ek_cancelled | ek_invalid_argument | ek_not_found
  | ek_permission_denied | ek_capability_not_granted | ek_config | ek_auth
  | ek_io | ek_network | ek_rate_limit | ek_upstream | ek_parsing | ek_timeout
  | ek_conflict | ek_not_modified | ek_storage | ek_hook_timeout
  | ek_hook_failed | ek_mailbox_overflowed | ek_internal.

#[global] Instance ErrorKind_eq_dec : EqDecision ErrorKind.
Proof. solve_decision. Defined.

(** [core::Error]: kind, message, ordered context entries, retry delay in ms. *)
Record Error := mkError {
  err_kind : ErrorKind;
  err_message : string;
  err_context : list (string * string);
  err_retry_after : option Z }.

#[global] Instance Error_eq_dec : EqDecision Error.
Proof. solve_decision. Defined.

(** [core::Result<T>] is [std::expected<T, Error>]. *)
Inductive Result (A : Type) := Ok (a : A) | Err (e : Error).
Arguments Ok {A} a.
Arguments Err {A} e.

#[global] Instance Result_eq_dec `{EqDecision A} : EqDecision (Result A).
Proof. solve_decision. Defined.

Definition result_bind {A B} (r : Result A) (f : A -> Result B) : Result B :=
  match r with Ok a => f a | Err e => Err e end.

Definition is_ok {A} (r : Result A) : bool :=
  match r with Ok _ => true | Err _ => false end.

(** The early return [if (!r) return std::unexpected(r.error())]. *)
Declare Scope oran_scope.
Delimit Scope oran_scope with oran.
Notation "'let?' x := r 'in' k" :=
  (result_bind r (fun x => k))
  (at level 10, x pattern, r at level 100, k at level 200) : oran_scope.
(** The guard [if (c) return std::unexpected(e);]. *)
Notation "'fail?' c 'with' e ; k" :=
  (if c then Err e else k)
  (at level 10, c at level 100, e at level 100, k at level 200) : oran_scope.
#[global] Open Scope oran_scope.

Lemma result_bind_ok {A B} (r : Result A) (f : A -> Result B) b :
  result_bind r f = Ok b <-> exists a, r = Ok a /\ f a = Ok b.
Proof. destruct r; simpl; split; intros; destruct_or?; destruct_and?; naive_solver. Qed.

Lemma result_bind_err {A B} (r : Result A) (f : A -> Result B) e :
  result_bind r f = Err e <-> r = Err e \/ exists a, r = Ok a /\ f a = Err e.
Proof. destruct r; simpl; split; intros; destruct_or?; destruct_and?; naive_solver. Qed.

(** ** Bytes and text

    A [std::string] is a Rocq [string], a sequence of 8-bit characters; the
    algorithms that index it run on its list of characters. *)
Abbreviation bytes := (list ascii).

Definition lit (s : string) : bytes := String.list_ascii_of_string s.
Definition str (b : bytes) : string := String.string_of_list_ascii b.

(** The unsigned value of a byte. *)
Definition code (c : ascii) : Z := Z.of_N (N_of_ascii c).
(** [static_cast<char>(n)] / [static_cast<std::byte>(n)]: the low eight bits. *)
Definition byte_of (z : Z) : ascii := ascii_of_N (Z.to_N (z mod 256)).

Lemma code_range c : (0 <= code c < 256)%Z.
Proof. destruct c as [[] [] [] [] [] [] [] []]; vm_compute; split; congruence. Qed.

Lemma code_byte_of z : code (byte_of z) = (z mod 256)%Z.
Proof.
  unfold code, byte_of.
  pose proof (Z.mod_pos_bound z 256 ltac:(lia)).
  rewrite N_ascii_embedding; [lia|].
  apply N2Z.inj_lt. rewrite Z2N.id by lia. simpl. lia.
Qed.

Lemma byte_of_code c : byte_of (code c) = c.
Proof. destruct c as [[] [] [] [] [] [] [] []]; vm_compute; reflexivity. Qed.

Lemma code_inj c1 c2 : code c1 = code c2 -> c1 = c2.
Proof. intros H. rewrite <- (byte_of_code c1), <- (byte_of_code c2). by f_equal. Qed.

Lemma lit_str b : lit (str b) = b.
Proof. apply String.list_ascii_of_string_of_list_ascii. Qed.

Lemma str_lit s : str (lit s) = s.
Proof. apply String.string_of_list_ascii_of_string. Qed.

Lemma lit_inj s1 s2 : lit s1 = lit s2 -> s1 = s2.
Proof. intros H. rewrite <- (str_lit s1), <- (str_lit s2). by f_equal. Qed.

Lemma str_app b1 b2 : str (b1 ++ b2) = (str b1 +:+ str b2)%string.
Proof. induction b1 as [|c b1 IH]; simpl; [done|]. unfold str in *. simpl. by rewrite IH. Qed.

Lemma lit_app s1 s2 : lit (s1 +:+ s2) = lit s1 ++ lit s2.
Proof. induction s1 as [|c s1 IH]; simpl; [done|]. unfold lit in *. simpl. by rewrite IH. Qed.

Lemma lit_length s : length (lit s) = String.length s.
Proof. induction s as [|c s IH]; simpl; [done|]. unfold lit in *. simpl. by f_equal. Qed.

Lemma append_assoc (a b c : string) : ((a +:+ b) +:+ c = a +:+ b +:+ c)%string.
Proof. apply lit_inj. by rewrite !lit_app, app_assoc. Qed.
Lemma append_empty (a : string) : (a +:+ "" = a)%string.
Proof. apply lit_inj. rewrite lit_app. apply app_nil_r. Qed.

(** [s.starts_with(p)]. *)
Fixpoint starts_with (p s : bytes) : bool :=
  match p, s with
  | [], _ => true
  | x :: p, y :: s => Ascii.eqb x y && starts_with p s
  | _ :: _, [] => false
  end.

(** [s.find(p)]: the first position where [p] occurs. *)
Fixpoint find_sub (p s : bytes) : option nat :=
  if starts_with p s then Some 0%nat
  else match s with
       | [] => None
       | _ :: s => S <$> find_sub p s
       end.

Lemma starts_with_app p s : starts_with p (p ++ s) = true.
Proof. induction p as [|x p IH]; simpl; [done|]. by rewrite Ascii.eqb_refl. Qed.

Lemma starts_with_prefix p s : starts_with p s = true -> s = p ++ drop (length p) s.
Proof.
  revert s. induction p as [|x p IH]; intros [|y s]; simpl; try done.
  intros [->%Ascii.eqb_eq H]%andb_true_iff. f_equal. by apply IH.
Qed.

Lemma find_sub_prefix p s k : find_sub p s = Some k -> starts_with p (drop k s) = true.
Proof.
  revert k. induction s as [|y s IH]; intros k; simpl; destruct (starts_with p _) eqn:E;
    try by intros [= <-].
  destruct (find_sub p s) as [j|]; [|done]. intros [= <-]. simpl. by apply IH.
Qed.

Lemma starts_with_spec needle s : starts_with needle s = true <-> exists rest, s = needle ++ rest.
Proof.
  revert s. induction needle as [|c needle IH]; intros s; [by split; [exists s|]|].
  destruct s as [|d s]; [by split; [|intros [? ?]]|]. cbn [starts_with]. rewrite andb_true_iff, Ascii.eqb_eq, IH. split.
  - intros [-> [rest ->]]. by exists rest.
  - intros [rest [= -> ->]]. split; [done|by exists rest].
Qed.

Lemma find_sub_spec needle s :
  match find_sub needle s with
  | Some p => starts_with needle (drop p s) = true /\ (p <= length s)%nat /\ forall i, (i < p)%nat -> starts_with needle (drop i s) = false
  | None => forall i, starts_with needle (drop i s) = false
  end.
Proof.
  induction s as [|c s IH]; cbn [find_sub]; (destruct (starts_with needle _) eqn:E; [split_and!; [done|cbn; lia|lia]|]).
  - intros i. by rewrite drop_nil.
  - destruct (find_sub needle s) as [p|]; cbn.
    + destruct IH as (H1 & H2 & H3). split_and!; [done|lia|]. intros [|i] Hi; [done|]. apply H3. lia.
    + intros [|i]; [done|apply IH].
Qed.

(** ** Machine integers *)
Definition wrap_u (w : Z) (z : Z) : Z := (z mod 2 ^ w)%Z.
Definition wrap_s (w : Z) (z : Z) : Z :=
  ((z + 2 ^ (w - 1)) mod 2 ^ w - 2 ^ (w - 1))%Z.
Definition fits_s (w : Z) (z : Z) : Prop := (- 2 ^ (w - 1) <= z < 2 ^ (w - 1))%Z.
Definition fits_u (w : Z) (z : Z) : Prop := (0 <= z < 2 ^ w)%Z.

Lemma wrap_u_id w z : fits_u w z -> wrap_u w z = z.
Proof. intros H. by apply Z.mod_small. Qed.

Lemma wrap_s_id w z : (0 < w)%Z -> fits_s w z -> wrap_s w z = z.
Proof.
  intros Hw [H1 H2]. unfold wrap_s. rewrite Z.mod_small; [lia|].
  replace (2 ^ w)%Z with (2 * 2 ^ (w - 1))%Z; [lia|].
  rewrite <- Z.pow_succ_r by lia. f_equal. lia.
Qed.

(** The [n] low bytes of an integer, least significant first. *)
Fixpoint le_bytes (n : nat) (value : Z) : bytes :=
  match n with
  | O => []
  | S n' => byte_of (Z.land value 0xff) :: le_bytes n' (Z.shiftr value 8)
  end.

Lemma le_bytes_length n v : length (le_bytes n v) = n.
Proof. revert v. induction n; simpl; intros; [done|by f_equal]. Qed.

Lemma le_bytes_inj n v w :
  le_bytes n v = le_bytes n w -> (v mod 2 ^ (8 * Z.of_nat n) = w mod 2 ^ (8 * Z.of_nat n))%Z.
Proof.
  revert v w. induction n as [|n IH]; intros v w; [intros _; by rewrite !Z.mod_1_r|].
  intros H. cbn [le_bytes] in H. injection H as Hb Hr.
  apply IH in Hr. apply (f_equal code) in Hb. rewrite !code_byte_of in Hb.
  change 0xff%Z with (Z.ones 8) in Hb. rewrite !Z.land_ones in Hb by lia.
  rewrite !Z.shiftr_div_pow2 in Hr by lia.
  replace (8 * Z.of_nat (S n))%Z with (8 + 8 * Z.of_nat n)%Z by lia.
  rewrite Z.pow_add_r by lia. change (2 ^ 8)%Z with 256%Z in *.
  rewrite !Z.rem_mul_r by lia. rewrite !Z.mod_mod in Hb by lia. lia.
Qed.

(** [double]: binary64. *)
Definition double : Type := SpecFloat.spec_float.
#[global] Instance double_eq_dec : EqDecision double.
Proof. unfold double. solve_decision. Defined.

Definition double_zero : double := SpecFloat.S754_zero false.
Definition double_one : double := SpecFloat.S754_finite false 4503599627370496 (-52).
Definition is_finite (d : double) : bool :=
  match d with SpecFloat.S754_zero _ | SpecFloat.S754_finite _ _ _ => true | _ => false end.

(** ** Automation *)
Create HintDb oran discriminated.
Create Rewrite HintDb oran_rw.
#[export] Hint Constants Opaque : oran.
#[export] Hint Resolve code_range : oran.
#[export] Hint Rewrite lit_str str_lit code_byte_of byte_of_code : oran_rw.

(** Split a hypothesis that says a chain of binds and guards succeeded. *)
Ltac ok_inv :=
  repeat match goal with
  | H : result_bind _ _ = Ok _ |- _ =>
      apply result_bind_ok in H as (? & ? & H)
  | H : (if ?c then Err _ else _) = Ok _ |- _ =>
      let E := fresh "E" in destruct c eqn:E; [discriminate H|]
  | H : Err _ = Ok _ |- _ => discriminate H
  | H : Ok _ = Ok _ |- _ => injection H as H
  end.

(** Turn boolean tests into propositions. *)
Ltac bool_prop :=
  repeat match goal with
  | H : (_ <? _)%Z = true |- _ => apply Z.ltb_lt in H
  | H : (_ <? _)%Z = false |- _ => apply Z.ltb_ge in H
  | H : _ && _ = true |- _ => apply andb_true_iff in H as [? ?]
  | H : (_ <=? _)%Z = true |- _ => apply Z.leb_le in H
  | H : (_ <=? _)%Z = false |- _ => apply Z.leb_gt in H
  | H : _ || _ = false |- _ => apply orb_false_iff in H as [? ?]
  | H : (_ =? _)%Z = true |- _ => apply Z.eqb_eq in H
  | H : (_ =? _)%Z = false |- _ => apply Z.eqb_neq in H
  | H : negb _ = false |- _ => apply negb_false_iff in H
  | H : bool_decide _ = true |- _ => apply bool_decide_eq_true in H
  | H : negb _ = true |- _ => apply negb_true_iff in H
  | H : bool_decide _ = false |- _ => apply bool_decide_eq_false in H
  end.

(** ** Decimal numbers *)
Definition digit (c : ascii) : Prop := (48 <= code c <= 57)%Z.

Lemma digit_char x : digit (pretty_N_char x).
Proof. unfold digit, pretty_N_char. repeat case_match; vm_compute; split; discriminate. Qed.

Lemma pretty_digits (n : nat) : Forall digit (lit (pretty n)).
Proof.
  assert (H : forall x s, Forall digit (lit s) -> Forall digit (lit (pretty_N_go x s))).
  { intros x. induction (N.lt_wf_0 x) as [x _ IH]. intros s Hs.
    destruct (decide (x = 0)%N) as [->|]; [by rewrite pretty_N_go_0|].
    rewrite pretty_N_go_step by lia. apply IH; [apply N.div_lt; lia|]. constructor; [apply digit_char|done]. }
  unfold pretty, pretty_nat, pretty, pretty_N. case_decide; [repeat constructor; vm_compute; discriminate|].
  apply H. constructor.
Qed.

(** A run of digits ends where the colon is. *)
Lemma digits_colon a b r s :
  Forall digit a -> Forall digit b -> a ++ ":"%char :: r = b ++ ":"%char :: s -> a = b /\ r = s.
Proof.
  assert (Hc : ~ digit ":"%char) by (unfold digit; vm_compute; intros [_ H]; by apply H).
  intros Ha. revert b. induction Ha as [|x a Hx Ha IH]; intros b Hb H.
  - destruct Hb as [|y b Hy Hb]; [by injection H|]. injection H as <- _. done.
  - destruct Hb as [|y b Hy Hb]; [injection H as -> _; done|].
    injection H as <- H. destruct (IH b Hb H) as [-> ->]. done.
Qed.

Lemma colon s : lit (String ":" s) = ":"%char :: lit s. Proof. done. Qed.

Lemma number_colon_inj (n m : nat) r s :
  lit (pretty n) ++ ":"%char :: r = lit (pretty m) ++ ":"%char :: s -> n = m /\ r = s.
Proof.
  intros H. apply digits_colon in H as [H ->]; [|apply pretty_digits..]. split; [|done].
  by apply lit_inj, (inj pretty) in H.
Qed.
