(* ===== verification/Core.v ===== *)
(** * oran-core: enumerations, errors, content and messages

    Models [include/oran/core/enum_names.hpp], [src/oran-core/error.cpp],
    [src/oran-core/content.cpp], [src/oran-core/message.cpp] and
    [src/oran-core/tool_def.cpp].  The reflection-driven helpers of
    [enum_names.hpp] become operations over a typeclass [Enum] that lists an
    enumeration's identifiers in declaration order; [EnumLaws] states what the
    wire spelling relies on, and every enumeration of the program is an
    instance. *)
From S2P Require Import Prelude.

(** ** Reflected enumerations *)
Module EnumNames.

(** [meta_detail::strip_keyword_suffix]. *)
Definition strip_keyword_suffix (name : string) : string :=
  match last (lit name) with
  | Some c => if decide (c = "_"%char) then str (removelast (lit name)) else name
  | None => name
  end.

(** [std::meta::enumerators_of(^^E)] with [identifier_of] each enumerator. *)
Class Enum (E : Type) `{EqDecision E} := { enumerators : list (E * string) }.

Section Ops.
Context {E : Type} `{Enum E}.

Definition enum_name (value : E) : string :=
  fold_left (fun result p =>
    if decide (value = fst p) then strip_keyword_suffix (snd p) else result)
    enumerators "unknown"%string.

Definition parse_enum (text : string) : option E :=
  fold_left (fun result p =>
    if decide (text = strip_keyword_suffix (snd p)) then Some (fst p) else result)
    enumerators None.

Definition enum_values : list E := map fst enumerators.
End Ops.

(** What the wire spelling of an enumeration relies on. *)
Class EnumLaws (E : Type) `{Enum E} := {
  enum_complete : forall e : E, e ∈ enum_values (E := E);
  enum_values_nodup : NoDup (enum_values (E := E));
  enum_names_nodup :
    NoDup (map (fun p => strip_keyword_suffix (snd p)) (enumerators (E := E))) }.

Section Laws.
Context {E : Type} `{EnumLaws E}.

(** A left fold that overwrites on a key match returns the last match; with
    distinct keys that is the only one. *)
Lemma fold_last_match {K V A} `{EqDecision K} (key : A -> K) (val : A -> V)
    (l : list A) (k : K) (d : V) :
  NoDup (map key l) ->
  forall x, x ∈ l -> key x = k ->
  fold_left (fun r a => if decide (k = key a) then val a else r) l d = val x.
Proof.
  revert d. induction l as [|a l IH]; intros d Hnd x Hx Hk; simpl in *;
    [by apply not_elem_of_nil in Hx|].
  apply NoDup_cons in Hnd as [Hnot Hnd]. apply elem_of_cons in Hx as [->|Hx].
  - rewrite decide_True by done.
    assert (Hskip : forall d', fold_left (fun r b =>
        if decide (k = key b) then val b else r) l d' = d'); [|apply Hskip].
    clear IH Hnd. induction l as [|b l IH]; intros d'; simpl; [done|].
    rewrite decide_False.
    + apply IH. intros Hin. apply Hnot. set_solver.
    + intros ->. apply Hnot. simpl. rewrite Hk. set_solver.
  - by apply IH.
Qed.

Lemma fold_no_match {K V A} `{EqDecision K} (key : A -> K) (val : A -> V)
    (l : list A) (k : K) (d v : V) :
  fold_left (fun r a => if decide (k = key a) then val a else r) l d = v ->
  v = d \/ exists x, x ∈ l /\ key x = k /\ val x = v.
Proof.
  revert d. induction l as [|a l IH]; intros d Hf; simpl in *; [by left|].
  apply IH in Hf as [->|(x & Hx & ? & ?)]; [|right; exists x; set_solver].
  case_decide; [right; exists a; set_solver|by left].
Qed.

Lemma enum_name_spec e i :
  (e, i) ∈ enumerators (E := E) -> enum_name e = strip_keyword_suffix i.
Proof.
  intros Hin. by apply (fold_last_match fst (fun a => strip_keyword_suffix (snd a))
    enumerators e _ enum_values_nodup (e, i)).
Qed.

Lemma parse_enum_spec e i :
  (e, i) ∈ enumerators (E := E) -> parse_enum (strip_keyword_suffix i) = Some e.
Proof.
  intros Hin. by apply (fold_last_match (fun a => strip_keyword_suffix (snd a))
    (fun a => Some (fst a)) enumerators _ None enum_names_nodup (e, i)).
Qed.

Lemma enumerator_of e : exists i, (e, i) ∈ enumerators (E := E).
Proof.
  pose proof (enum_complete e) as Hin. unfold enum_values in Hin.
  apply list_elem_of_fmap in Hin as ([e' i] & -> & Hin). by exists i.
Qed.

Lemma parse_enum_name e : parse_enum (enum_name e) = Some e.
Proof.
  destruct (enumerator_of e) as [i Hi].
  rewrite (enum_name_spec e i Hi). by apply parse_enum_spec.
Qed.

Lemma parse_enum_sound text e : parse_enum text = Some e -> enum_name e = text.
Proof.
  intros Hp.
  destruct (fold_no_match (fun a => strip_keyword_suffix (snd a))
    (fun a => Some (fst a)) enumerators text None _ Hp)
    as [?|([e' i] & Hin & Hk & [= ->])]; [done|].
  by rewrite (enum_name_spec e i Hin).
Qed.
End Laws.

(** Discharge the laws of a concrete enumeration by evaluation. *)
Ltac solve_enum_laws :=
  split; [intros []; vm_compute; repeat (constructor || apply list_elem_of_here
                                          || apply list_elem_of_further)
         | apply (bool_decide_unpack _); vm_compute; exact I
         | apply (bool_decide_unpack _); vm_compute; exact I ].
End EnumNames.
Export (hints) EnumNames.
Import EnumNames.

#[export] Instance Enum_ErrorKind : Enum ErrorKind := {
  enumerators := [
    (ek_ok, "ok"); (ek_cancelled, "cancelled");
    (ek_invalid_argument, "invalid_argument"); (ek_not_found, "not_found");
    (ek_permission_denied, "permission_denied");
    (ek_capability_not_granted, "capability_not_granted");
    (ek_config, "config"); (ek_auth, "auth"); (ek_io, "io");
    (ek_network, "network"); (ek_rate_limit, "rate_limit");
    (ek_upstream, "upstream"); (ek_parsing, "parsing"); (ek_timeout, "timeout");
    (ek_conflict, "conflict"); (ek_not_modified, "not_modified");
    (ek_storage, "storage"); (ek_hook_timeout, "hook_timeout");
    (ek_hook_failed, "hook_failed");
    (ek_mailbox_overflowed, "mailbox_overflowed"); (ek_internal, "internal")]%string }.

#[export] Instance EnumLaws_ErrorKind : EnumLaws ErrorKind.
Proof. solve_enum_laws. Qed.

(** ** Vocabulary *)
(** [core::Capability]. *)
Inductive Capability :=
  | read_file | write_file | edit_file | delete_path | list_directory
  | egress_http | egress_websocket | spawn_subprocess | signal_subprocess
  | external_mcp | runtime_loader.
#[export] Instance Capability_eq_dec : EqDecision Capability.
Proof. solve_decision. Defined.
#[export] Instance Enum_Capability : Enum Capability := {
  enumerators := [
    (read_file, "read_file"); (write_file, "write_file"); (edit_file, "edit_file");
    (delete_path, "delete_path"); (list_directory, "list_directory");
    (egress_http, "egress_http"); (egress_websocket, "egress_websocket");
    (spawn_subprocess, "spawn_subprocess"); (signal_subprocess, "signal_subprocess");
    (external_mcp, "external_mcp"); (runtime_loader, "runtime_loader")]%string }.
#[export] Instance EnumLaws_Capability : EnumLaws Capability.
Proof. solve_enum_laws. Qed.

(** [core::Role]. *)
Inductive Role := role_user | role_assistant | role_system | role_tool.
#[export] Instance Role_eq_dec : EqDecision Role.
Proof. solve_decision. Defined.
#[export] Instance Enum_Role : Enum Role := {
  enumerators := [(role_user, "user"); (role_assistant, "assistant");
                  (role_system, "system"); (role_tool, "tool")]%string }.
#[export] Instance EnumLaws_Role : EnumLaws Role.
Proof. solve_enum_laws. Qed.

(** [core::StopReason]. *)
Inductive StopReason :=
  | end_turn | max_tokens | tool_use | stop_sequence | sr_cancelled | sr_error.
#[export] Instance StopReason_eq_dec : EqDecision StopReason.
Proof. solve_decision. Defined.
#[export] Instance Enum_StopReason : Enum StopReason := {
  enumerators := [(end_turn, "end_turn"); (max_tokens, "max_tokens");
                  (tool_use, "tool_use"); (stop_sequence, "stop_sequence");
                  (sr_cancelled, "cancelled"); (sr_error, "error")]%string }.
#[export] Instance EnumLaws_StopReason : EnumLaws StopReason.
Proof. solve_enum_laws. Qed.

(** ** Errors *)
Module Errors.
(** The converting constructor [Error(kind, message)]. *)
Definition mk (k : ErrorKind) (m : string) : Error := mkError k m [] None.

(** [Error::with(key, value)]. *)
Definition with_ctx (e : Error) (key value : string) : Error :=
  mkError (err_kind e) (err_message e) (err_context e ++ [(key, value)])
          (err_retry_after e).
(** [Error::with_retry_after(d)]. *)
Definition with_retry_after (e : Error) (d : Z) : Error :=
  mkError (err_kind e) (err_message e) (err_context e) (Some d).

(** [Error::retryable]. *)
Definition retryable (e : Error) : bool :=
  match err_kind e with
  | ek_network | ek_rate_limit | ek_timeout | ek_upstream => true
  | _ => false
  end.

Definition cancelled : Error := mk ek_cancelled "cancelled".
Definition invalid_argument := mk ek_invalid_argument.
Definition not_found := mk ek_not_found.
Definition permission_denied := mk ek_permission_denied.
Definition config := mk ek_config.
Definition io := mk ek_io.
Definition network := mk ek_network.
Definition rate_limit := mk ek_rate_limit.
Definition upstream := mk ek_upstream.
Definition parsing := mk ek_parsing.
Definition not_modified := mk ek_not_modified.
Definition storage := mk ek_storage.
Definition internal := mk ek_internal.
(** [Error::timeout(elapsed)]; the elapsed milliseconds are printed in decimal. *)
Definition timeout (elapsed_ms : Z) : Error :=
  with_ctx (mk ek_timeout "operation timed out") "elapsed_ms" (pretty elapsed_ms).

(** The first context entry under a key. *)
Definition ctx_find (e : Error) (key : string) : option string :=
  snd <$> List.find (fun p => bool_decide (fst p = key)) (err_context e).

(** [with] only appends: kind, message and earlier entries stay. *)
Lemma with_ctx_find e k v k' :
  ctx_find (with_ctx e k v) k' =
    match ctx_find e k' with
    | Some w => Some w
    | None => if decide (k = k') then Some v else None
    end.
Proof.
  unfold ctx_find, with_ctx. simpl. induction (err_context e) as [|p l IH]; simpl.
  - case_bool_decide; case_decide; simplify_eq/=; done.
  - case_bool_decide; [done|apply IH].
Qed.
End Errors.

(** ** Content blocks and messages *)
(** [core::Content]: one constructor per alternative of the variant. *)
Inductive Content :=
  | TextContent (text : string)
  | ThinkingContent (thinking : string) (signature : option string)
  | ToolUseContent (id name input_json : string)
  | ToolResultContent (tool_use_id output : string) (data_json : option string)
                      (is_error : bool)
  | ImageContent (media_type data_base64 : string).
#[export] Instance Content_eq_dec : EqDecision Content.
Proof. solve_decision. Defined.

Definition holds_text (c : Content) : bool :=
  match c with TextContent _ => true | _ => false end.
Definition holds_thinking (c : Content) : bool :=
  match c with ThinkingContent _ _ => true | _ => false end.
Definition holds_tool_use (c : Content) : bool :=
  match c with ToolUseContent _ _ _ => true | _ => false end.
Definition holds_tool_result (c : Content) : bool :=
  match c with ToolResultContent _ _ _ _ => true | _ => false end.
Definition text_view (c : Content) : option string :=
  match c with TextContent t => Some t | _ => None end.

(** [core::Message]; [created_at] in nanoseconds since the epoch. *)
Record Message := mkMessage {
  msg_role : Role;
  msg_blocks : list Content;
  msg_created_at : option Z }.
#[export] Instance Message_eq_dec : EqDecision Message.
Proof. solve_decision. Defined.

Definition user_text (t : string) : Message := mkMessage role_user [TextContent t] None.
Definition assistant_text (t : string) : Message :=
  mkMessage role_assistant [TextContent t] None.

(** [core::ToolDef]. *)
Record ToolDef := mkToolDef {
  td_name : string;
  td_description : string;
  td_input_schema_json : string;
  td_required_capabilities : list Capability }.
#[export] Instance ToolDef_eq_dec : EqDecision ToolDef.
Proof. solve_decision. Defined.

(** ** Theorems *)

(** for every enumeration whose wire spellings are distinct, parsing is the
    exact inverse of spelling: a text parses to a value iff it is that value's
    name, so nothing else (the ["unknown"] fallback included) parses. *)
Theorem parse_enum_spec_iff {E} `{EnumLaws E} (text : string) (e : E) :
  parse_enum text = Some e <-> enum_name e = text.
Proof. split; [apply parse_enum_sound|intros <-; apply parse_enum_name]. Qed.

Lemma parse_enum_spec_iff_witness :
  parse_enum "spawn_subprocess" = Some spawn_subprocess <->
  enum_name spawn_subprocess = "spawn_subprocess"%string.
Proof. exact (parse_enum_spec_iff "spawn_subprocess" spawn_subprocess). Defined.

(** Only the four transient kinds are retryable, and attaching context or a
    delay never changes that. *)
Lemma retryable_spec e :
  Errors.retryable e = true <->
  err_kind e = ek_network \/ err_kind e = ek_rate_limit \/
  err_kind e = ek_timeout \/ err_kind e = ek_upstream.
Proof. unfold Errors.retryable. destruct (err_kind e); naive_solver. Qed.
