(* ===== verification/Utf8.v ===== *)
(** * oran-core: UTF-8 boundary helpers

    Models [src/oran-core/str.cpp].  The pointer [p] of the loops is the list
    of bytes still to read.  The abstract specification is RFC 3629's encoder
    [encode] from Unicode scalar values to bytes: the validator accepts exactly
    the concatenations of encodings, the counter counts them, and truncation
    returns the longest prefix of whole encodings that fits. *)
From S2P Require Import Prelude.
#[local] Open Scope Z_scope.

(** ** The code *)
(** [lead_length]: the sequence length a lead byte announces, 0 if invalid. *)
Definition lead_length (b : Z) : nat :=
  if b <? 0x80 then 1
  else if b <? 0xC2 then 0
  else if b <? 0xE0 then 2
  else if b <? 0xF0 then 3
  else if b <? 0xF5 then 4
  else 0.

(** [first_continuation_range]: the [ContRange] of the byte after a lead. *)
Definition first_continuation_range (lead : Z) : Z * Z :=
  if lead =? 0xE0 then (0xA0, 0xBF)
  else if lead =? 0xED then (0x80, 0x9F)
  else if lead =? 0xF0 then (0x90, 0xBF)
  else if lead =? 0xF4 then (0x80, 0x8F)
  else (0x80, 0xBF).

Definition in_range (b : Z) (r : Z * Z) : bool := (fst r <=? b) && (b <=? snd r).

(** One iteration's checks on the bytes from [p] to [end]: the length to
    advance by, or [None] where the loops reject. *)
Definition sequence (rest : bytes) : option nat :=
  match rest with
  | [] => None
  | lead :: conts =>
      let length := lead_length (code lead) in
      if (length =? 0)%nat then None
      else if (List.length rest <? length)%nat then None
      else if (2 <=? length)%nat then
        match conts with
        | c1 :: more =>
            if negb (in_range (code c1) (first_continuation_range (code lead))) then None
            else if forallb (fun c => in_range (code c) (0x80, 0xBF)) (take (length - 2) more)
            then Some length else None
        | [] => None
        end
      else Some length
  end.

(** The while loops; the fuel is the number of bytes, and every iteration that
    continues advances by at least one. *)
Fixpoint is_valid_utf8_loop (fuel : nat) (rest : bytes) : bool :=
  match rest, fuel with
  | [], _ => true
  | _, O => false
  | _, S fuel' =>
      match sequence rest with
      | Some length => is_valid_utf8_loop fuel' (drop length rest)
      | None => false
      end
  end.
Definition is_valid_utf8 (text : bytes) : bool :=
  is_valid_utf8_loop (length text) text.

Fixpoint count_code_points_loop (fuel : nat) (rest : bytes) (count : nat) : option nat :=
  match rest, fuel with
  | [], _ => Some count
  | _, O => None
  | _, S fuel' =>
      match sequence rest with
      | Some length => count_code_points_loop fuel' (drop length rest) (S count)
      | None => None
      end
  end.
Definition count_code_points (text : bytes) : option nat :=
  count_code_points_loop (length text) text 0.

(** [truncate_to_code_point]: the loop over [i]; [boundary] always equals [i]
    when the loop is left. *)
Fixpoint truncate_loop (fuel : nat) (text : bytes) (max_bytes i : nat) : nat :=
  match fuel with
  | O => i
  | S fuel' =>
      match text !! i with
      | None => i
      | Some b =>
          let length := lead_length (code b) in
          let step := if (length =? 0)%nat then 1%nat else length in
          if (max_bytes <? i + step)%nat then i
          else if (List.length text <? i + step)%nat then i
          else truncate_loop fuel' text max_bytes (i + step)
      end
  end.
Definition truncate_to_code_point (text : bytes) (max_bytes : nat) : bytes :=
  if (length text <=? max_bytes)%nat then text
  else take (truncate_loop (length text) text max_bytes 0) text.

(** ** RFC 3629 *)
(** A Unicode scalar value: a code point that is not a surrogate. *)
Definition scalar (cp : Z) : Prop := 0 <= cp <= 0x10FFFF /\ ~ (0xD800 <= cp <= 0xDFFF).

Definition encode (cp : Z) : bytes :=
  if cp <? 0x80 then [byte_of cp]
  else if cp <? 0x800 then [byte_of (0xC0 + cp / 64); byte_of (0x80 + cp mod 64)]
  else if cp <? 0x10000 then
    [byte_of (0xE0 + cp / 4096); byte_of (0x80 + cp / 64 mod 64); byte_of (0x80 + cp mod 64)]
  else
    [byte_of (0xF0 + cp / 262144); byte_of (0x80 + cp / 4096 mod 64);
     byte_of (0x80 + cp / 64 mod 64); byte_of (0x80 + cp mod 64)].

Definition encode_all (cps : list Z) : bytes := concat (map encode cps).

(** ** One sequence *)
Lemma in_range_spec b lo hi : in_range b (lo, hi) = true <-> lo <= b <= hi.
Proof. unfold in_range; simpl. rewrite andb_true_iff, !Z.leb_le. lia. Qed.

Ltac byte_eq := apply code_inj; rewrite code_byte_of; Z.to_euclidean_division_equations; lia.

Ltac split_tests :=
  repeat match goal with
  | H : context [if (?a <? ?b) then _ else _] |- _ => destruct (Z.ltb_spec a b)
  | |- context [if (?a <? ?b) then _ else _] => destruct (Z.ltb_spec a b)
  | H : context [if (?a =? ?b) then _ else _] |- _ => destruct (Z.eqb_spec a b)
  | |- context [if (?a =? ?b) then _ else _] => destruct (Z.eqb_spec a b)
  end.

(** The byte shapes the checks accept, one per announced length. *)
Definition cont (c : ascii) : Prop := 0x80 <= code c <= 0xBF.
Inductive shape : bytes -> Prop :=
  | shape1 b : code b < 0x80 -> shape [b]
  | shape2 b c1 : 0xC2 <= code b < 0xE0 -> cont c1 -> shape [b; c1]
  | shape3 b c1 c2 : 0xE0 <= code b < 0xF0 ->
      in_range (code c1) (first_continuation_range (code b)) = true ->
      cont c2 -> shape [b; c1; c2]
  | shape4 b c1 c2 c3 : 0xF0 <= code b < 0xF5 ->
      in_range (code c1) (first_continuation_range (code b)) = true ->
      cont c2 -> cont c3 -> shape [b; c1; c2; c3].

Lemma shape_length s : shape s -> (1 <= length s <= 4)%nat.
Proof. destruct 1; simpl; lia. Qed.

Lemma cont_spec c : in_range (code c) (0x80, 0xBF) = true <-> cont c.
Proof. apply in_range_spec. Qed.

Lemma first_continuation_range_2 b :
  0xC2 <= b < 0xE0 -> first_continuation_range b = (0x80, 0xBF).
Proof. intros ?. unfold first_continuation_range. split_tests; done || lia. Qed.

Lemma shape_sequence s rest : shape s -> sequence (s ++ rest) = Some (length s).
Proof.
  intros [b Hb|b c1 Hb Hc|b c1 c2 Hb Hr Hc|b c1 c2 c3 Hb Hr Hc Hd];
    pose proof (code_range b); simpl; unfold lead_length; split_tests; try lia; simpl.
  - done.
  - by rewrite first_continuation_range_2, (proj2 (cont_spec c1)) by done.
  - by rewrite Hr, (proj2 (cont_spec c2)) by done.
  - by rewrite Hr, (proj2 (cont_spec c2)), (proj2 (cont_spec c3)) by done.
Qed.

Lemma sequence_shape rest n :
  sequence rest = Some n -> exists s rest', rest = s ++ rest' /\ length s = n /\ shape s.
Proof.
  destruct rest as [|b more]; [done|]. pose proof (code_range b).
  unfold sequence. destruct (lead_length (code b)) as [|m] eqn:Hl; [done|].
  change ((S m =? 0)%nat) with false. cbv iota.
  destruct (Nat.ltb_spec (length (b :: more)) (S m)) as [|Hlen]; [done|].
  unfold lead_length in Hl. simpl in Hlen.
  split_tests; try discriminate Hl; injection Hl as <-; simpl.
  - intros [= <-]. exists [b], more. repeat split. by constructor.
  - destruct more as [|c1 more]; [done|].
    destruct (in_range _ _) eqn:Hr; [|done]. intros [= <-].
    exists [b; c1], more. repeat split. constructor; [lia|].
    rewrite first_continuation_range_2 in Hr by lia. by apply cont_spec.
  - destruct more as [|c1 [|c2 more]]; simpl in *; [done|lia|].
    destruct (in_range (code c1) _) eqn:Hr; [|done].
    destruct (in_range (code c2) _) eqn:Hc; [|done]. intros [= <-].
    exists [b; c1; c2], more. repeat split. constructor; [lia|done|by apply cont_spec].
  - destruct more as [|c1 [|c2 [|c3 more]]]; simpl in *; [done|lia|lia|].
    destruct (in_range (code c1) _) eqn:Hr; [|done].
    destruct (in_range (code c2) _) eqn:Hc; [|done].
    destruct (in_range (code c3) _) eqn:Hd; [|done]. intros [= <-].
    exists [b; c1; c2; c3], more. repeat split.
    constructor; [lia|done|by apply cont_spec|by apply cont_spec].
Qed.

(** The shapes are the encodings of the scalar values. *)
Lemma code_byte_id z : 0 <= z < 256 -> code (byte_of z) = z.
Proof. intros. rewrite code_byte_of. by apply Z.mod_small. Qed.

Ltac div_lia := Z.to_euclidean_division_equations; lia.

Lemma encode_shape cp : scalar cp -> shape (encode cp).
Proof.
  intros [Hr Hs]. unfold encode. split_tests; constructor; unfold cont;
    rewrite ?code_byte_id by div_lia; try div_lia;
    unfold first_continuation_range; split_tests; apply in_range_spec; div_lia.
Qed.

(** The lead byte of an encoding announces the encoding's length. *)
Lemma encode_lead cp :
  scalar cp -> exists lead conts, encode cp = lead :: conts /\
    lead_length (code lead) = length (encode cp).
Proof.
  intros Hs%encode_shape. destruct Hs as [b|b|b|b]; eexists _, _; (split; [done|]);
    pose proof (code_range b); unfold lead_length; split_tests; done || lia.
Qed.

Lemma shape_encode s : shape s -> exists cp, scalar cp /\ s = encode cp.
Proof.
  intros [b Hb|b c1 Hb Hc|b c1 c2 Hb Hr Hc|b c1 c2 c3 Hb Hr Hc Hd]; unfold cont in *;
    pose proof (code_range b); 
    try (unfold first_continuation_range in Hr;
         assert (0x80 <= code c1 <= 0xBF) by (split_tests; apply in_range_spec in Hr; lia)).
  - exists (code b). split; [unfold scalar; lia|].
    unfold encode. split_tests; try lia. f_equal. by rewrite byte_of_code.
  - exists ((code b - 0xC0) * 64 + (code c1 - 0x80)). split; [unfold scalar; lia|].
    unfold encode. split_tests; try lia. repeat f_equal; byte_eq.
  - exists ((code b - 0xE0) * 4096 + (code c1 - 0x80) * 64 + (code c2 - 0x80)).
    split_tests; apply in_range_spec in Hr; (split; [unfold scalar; lia|]);
    unfold encode; split_tests; try lia; repeat f_equal; byte_eq.
  - exists ((code b - 0xF0) * 262144 + (code c1 - 0x80) * 4096 + (code c2 - 0x80) * 64
            + (code c3 - 0x80)).
    split_tests; try lia; apply in_range_spec in Hr; (split; [unfold scalar; lia|]);
    unfold encode; split_tests; try lia; repeat f_equal; byte_eq.
Qed.

#[local] Arguments sequence : simpl never.

Lemma sequence_iff rest n :
  sequence rest = Some n <->
  exists cp rest', scalar cp /\ rest = encode cp ++ rest' /\ length (encode cp) = n.
Proof.
  split.
  - intros (s & rest' & -> & <- & Hs)%sequence_shape.
    apply shape_encode in Hs as (cp & ? & ->). by exists cp, rest'.
  - intros (cp & rest' & Hs & -> & <-). by apply shape_sequence, encode_shape.
Qed.

Lemma encode_length cp : scalar cp -> (1 <= length (encode cp) <= 4)%nat.
Proof. intros. by apply shape_length, encode_shape. Qed.

Lemma encode_all_cons cp cps : encode_all (cp :: cps) = encode cp ++ encode_all cps.
Proof. done. Qed.

Lemma encode_all_app a b : encode_all (a ++ b) = encode_all a ++ encode_all b.
Proof. unfold encode_all. by rewrite map_app, concat_app. Qed.

(** Both loops in one statement: they differ only in what they return. *)
Lemma count_loop_spec fuel rest count n :
  (length rest <= fuel)%nat ->
  count_code_points_loop fuel rest count = Some n <->
  exists cps, Forall scalar cps /\ rest = encode_all cps /\ n = (count + length cps)%nat.
Proof.
  revert rest count. induction fuel as [|fuel IH]; intros rest count Hlen.
  { destruct rest; simpl in *; [|lia]. split.
    - intros [= <-]. exists []. repeat split; [constructor|simpl; lia].
    - intros (cps & Hs & He & ->). destruct Hs as [|cp cps Hcp]; [simpl; f_equal; lia|].
      apply encode_length in Hcp. rewrite encode_all_cons in He.
      destruct (encode cp); simpl in *; [lia|done]. }
  destruct rest as [|b more].
  { split.
    - intros [= <-]. exists []. repeat split; [constructor|simpl; lia].
    - intros (cps & Hs & He & ->). destruct Hs as [|cp cps Hcp]; [simpl; f_equal; lia|].
      apply encode_length in Hcp. rewrite encode_all_cons in He.
      destruct (encode cp); simpl in *; [lia|done]. }
  cbn [count_code_points_loop]. split.
  - destruct (sequence (b :: more)) as [len|] eqn:Hseq; [|done].
    apply sequence_iff in Hseq as (cp & rest' & Hcp & He & <-).
    pose proof (encode_length cp Hcp). rewrite He, length_app in Hlen.
    rewrite He, drop_app_length, IH by lia.
    intros (cps & Hs & -> & ->). exists (cp :: cps).
    repeat split; [by constructor|simpl; lia].
  - intros (cps & Hs & He & ->). destruct Hs as [|cp cps Hcp Hs]; [done|].
    rewrite He, encode_all_cons. pose proof (encode_length cp Hcp).
    rewrite (proj2 (sequence_iff _ (length (encode cp)))) by eauto.
    rewrite drop_app_length. apply IH; [|exists cps; repeat split; simpl; lia || done].
    rewrite He, encode_all_cons, length_app in Hlen. lia.
Qed.

Lemma valid_loop_count fuel rest count :
  is_valid_utf8_loop fuel rest = true <-> is_Some (count_code_points_loop fuel rest count).
Proof.
  revert rest count. induction fuel as [|fuel IH]; intros [|b more] count; simpl;
    [by split; eauto|by split; [|intros []]|by split; eauto|].
  destruct (sequence (b :: more)) as [len|]; [apply IH|by split; [|intros []]].
Qed.

(** ** Theorems *)

Lemma valid_encoded text :
  is_valid_utf8 text = true <-> exists cps, Forall scalar cps /\ text = encode_all cps.
Proof.
  unfold is_valid_utf8. rewrite (valid_loop_count _ _ 0). split.
  - intros [n Hn]. apply count_loop_spec in Hn as (cps & ? & ? & _); eauto.
  - intros (cps & ? & ?). eexists. apply count_loop_spec; eauto.
Qed.

(** the validator accepts exactly the byte strings that are a sequence of
    RFC 3629 encodings of Unicode scalar values. *)
Theorem is_valid_utf8_spec text :
  is_valid_utf8 text = true <-> exists cps, Forall scalar cps /\ text = encode_all cps.
Proof. apply valid_encoded. Qed.

(** the counter answers exactly on valid text, with its number of code points. *)
Theorem count_code_points_spec text n :
  count_code_points text = Some n <->
  exists cps, Forall scalar cps /\ text = encode_all cps /\ n = length cps.
Proof. unfold count_code_points. by rewrite count_loop_spec. Qed.

(** The number of leading code points of [cps] whose encodings fit in a budget. *)
Fixpoint fitting (budget : nat) (cps : list Z) : nat :=
  match cps with
  | [] => 0
  | cp :: more =>
      if (length (encode cp) <=? budget)%nat
      then S (fitting (budget - length (encode cp)) more) else 0
  end.

Lemma truncate_loop_spec cps fuel pre max :
  Forall scalar cps -> (length cps <= fuel)%nat -> (length (encode_all pre) <= max)%nat ->
  truncate_loop fuel (encode_all (pre ++ cps)) max (length (encode_all pre)) =
  length (encode_all (pre ++ take (fitting (max - length (encode_all pre)) cps) cps)).
Proof.
  revert fuel pre. induction cps as [|cp cps IH]; intros fuel pre Hs Hf Hmax.
  { rewrite take_nil, app_nil_r. destruct fuel; simpl; [done|].
    by rewrite lookup_ge_None_2. }
  apply Forall_cons in Hs as [Hcp Hs]. destruct fuel as [|fuel]; simpl in Hf; [lia|].
  destruct (encode_lead cp Hcp) as (lead & conts & He & Hl).
  pose proof (encode_length cp Hcp) as Hlen.
  cbn [truncate_loop]. rewrite encode_all_app, encode_all_cons.
  rewrite lookup_app_r, Nat.sub_diag by lia. rewrite He at 1. cbn [app lookup list_lookup].
  rewrite Hl. destruct (Nat.eqb_spec (length (encode cp)) 0) as [|_]; [lia|].
  cbn [fitting]. rewrite !length_app.
  destruct (Nat.leb_spec (length (encode cp)) (max - length (encode_all pre))) as [Hle|Hgt].
  - rewrite (proj2 (Nat.ltb_ge _ _)) by lia. rewrite (proj2 (Nat.ltb_ge _ _)) by lia.
    rewrite <- length_app, <- encode_all_cons, <- encode_all_app.
    replace (encode_all pre ++ encode cp) with (encode_all (pre ++ [cp]))
      by (by rewrite encode_all_app, encode_all_cons, app_nil_r).
    replace (pre ++ cp :: cps) with ((pre ++ [cp]) ++ cps) by by rewrite <- app_assoc.
    assert (Hpre : length (encode_all (pre ++ [cp])) =
      (length (encode_all pre) + length (encode cp))%nat)
      by (rewrite encode_all_app, length_app; unfold encode_all at 2; simpl;
          rewrite app_nil_r; done).
    rewrite IH by (done || lia). cbn [take]. rewrite Hpre, <- app_assoc. simpl.
    by rewrite Nat.sub_add_distr.
  - rewrite (proj2 (Nat.ltb_lt _ _)) by lia. simpl. by rewrite app_nil_r.
Qed.

Lemma fitting_le budget cps : (fitting budget cps <= length cps)%nat.
Proof.
  revert budget. induction cps as [|cp cps IH]; intros budget; simpl; [lia|].
  destruct (_ <=? _)%nat; [|lia]. specialize (IH (budget - length (encode cp))%nat). lia.
Qed.

Lemma fitting_fits budget cps :
  (length (encode_all (take (fitting budget cps) cps)) <= budget)%nat.
Proof.
  revert budget. induction cps as [|cp cps IH]; intros budget; simpl; [lia|].
  destruct (Nat.leb_spec (length (encode cp)) budget); simpl; [|lia].
  rewrite encode_all_cons, length_app.
  specialize (IH (budget - length (encode cp))%nat). lia.
Qed.

Lemma fitting_maximal budget cps j :
  (length (encode_all (take j cps)) <= budget)%nat ->
  (length (take j cps) <= fitting budget cps)%nat.
Proof.
  revert budget j. induction cps as [|cp cps IH]; intros budget [|j]; simpl; [lia..|].
  rewrite encode_all_cons, length_app. intros Hle.
  rewrite (proj2 (Nat.leb_le _ _)) by lia. apply le_n_S, IH. lia.
Qed.

Lemma encode_all_length cps : Forall scalar cps -> (length cps <= length (encode_all cps))%nat.
Proof.
  induction 1 as [|cp cps Hcp _ IH]; simpl; [lia|].
  rewrite encode_all_cons, length_app. apply encode_length in Hcp. lia.
Qed.

(** Whatever the bytes, the result is a prefix within the bound. *)
Lemma truncate_loop_le fuel text max i :
  (i <= max)%nat -> (truncate_loop fuel text max i <= max)%nat.
Proof.
  revert i. induction fuel as [|fuel IH]; intros i Hi; cbn [truncate_loop]; [done|].
  destruct (text !! i); [|done]. destruct (Nat.ltb_spec max (i + (if
    (lead_length (code a) =? 0)%nat then 1 else lead_length (code a)))); [done|].
  destruct (_ <? _)%nat; [done|]. by apply IH.
Qed.

Lemma truncate_longest cps max :
  Forall scalar cps ->
  exists k, truncate_to_code_point (encode_all cps) max = encode_all (take k cps) /\
    (length (encode_all (take k cps)) <= max)%nat /\
    forall j, (length (encode_all (take j cps)) <= max)%nat ->
      (length (take j cps) <= length (take k cps))%nat.
Proof.
  intros Hs. unfold truncate_to_code_point. destruct (Nat.leb_spec (length (encode_all cps)) max).
  - exists (length cps). rewrite take_ge by done. repeat split; [done|].
    intros j _. rewrite length_take. lia.
  - exists (fitting max cps). pose proof (encode_all_length cps Hs).
    pose proof (truncate_loop_spec cps (length (encode_all cps)) [] max Hs ltac:(lia)) as Ht.
    simpl in Ht. rewrite Ht, Nat.sub_0_r by lia. repeat split.
    + pose proof (encode_all_app (take (fitting max cps) cps) (drop (fitting max cps) cps)) as E.
      rewrite take_drop in E. by rewrite E, take_app_length.
    + apply fitting_fits.
    + intros j Hj%fitting_maximal. rewrite (length_take_le cps (fitting max cps)); [done|].
      apply fitting_le.
Qed.

(** With room for the longest encoding, truncation makes progress. *)
Lemma truncate_progress limit cp cps :
  (4 <= limit)%nat -> scalar cp -> Forall scalar cps ->
  exists k, (0 < k)%nat /\ truncate_to_code_point (encode_all (cp :: cps)) limit = encode_all (take k (cp :: cps)).
Proof.
  intros Hlimit Hcp Hcps. destruct (truncate_longest (cp :: cps) limit) as (k & Hk & _ & Hmax); [by constructor|].
  exists k. split; [|done]. specialize (Hmax 1%nat). cbn [firstn] in Hmax.
  assert (Hlen : (length (encode_all [cp]) <= limit)%nat).
  { rewrite encode_all_cons, length_app. cbn. pose proof (encode_length cp Hcp). lia. }
  specialize (Hmax Hlen). destruct k; [|lia]. cbn in Hmax. lia.
Qed.

(** Truncation never cuts a code point. *)
Lemma truncate_valid text max :
  is_valid_utf8 text = true -> is_valid_utf8 (truncate_to_code_point text max) = true.
Proof.
  intros (cps & Hs & ->)%valid_encoded. apply valid_encoded.
  destruct (truncate_longest cps max Hs) as (k & -> & _). exists (take k cps).
  split; [by apply Forall_take|done].
Qed.

(** on valid text, truncation keeps the longest prefix of whole code points
    that fits in the byte budget. *)
Theorem truncate_to_code_point_spec cps max :
  Forall scalar cps ->
  exists k, truncate_to_code_point (encode_all cps) max = encode_all (take k cps) /\
    (length (encode_all (take k cps)) <= max)%nat /\
    forall j, (length (encode_all (take j cps)) <= max)%nat ->
      (length (take j cps) <= length (take k cps))%nat.
Proof. apply truncate_longest. Qed.

(** on any bytes, truncation returns a prefix within the budget. *)
Theorem truncate_to_code_point_bound text max :
  (length (truncate_to_code_point text max) <= max)%nat /\
  truncate_to_code_point text max `prefix_of` text.
Proof.
  unfold truncate_to_code_point. destruct (Nat.leb_spec (length text) max); [by split|].
  split; [|apply prefix_take]. rewrite length_take.
  pose proof (truncate_loop_le (length text) text max 0 ltac:(lia)). lia.
Qed.

(** Three letters of 1, 2 and 1 bytes: a budget of two bytes stops before the second. *)
Definition three_letters : list Z := [104; 233; 108].
Lemma truncate_to_code_point_spec_witness :
  truncate_to_code_point (encode_all three_letters) 2 = [byte_of 104] /\
  exists k, truncate_to_code_point (encode_all three_letters) 2 =
      encode_all (take k three_letters) /\
    (length (encode_all (take k three_letters)) <= 2)%nat /\
    forall j, (length (encode_all (take j three_letters)) <= 2)%nat ->
      (length (take j three_letters) <= length (take k three_letters))%nat.
Proof.
  split; [reflexivity|]. apply truncate_to_code_point_spec.
  repeat constructor; unfold scalar; lia.
Defined.
