(* ===== verification/TurnId.v ===== *)
(** * oran-core: turn identifiers

    Models [include/oran/core/turn_id.hpp], [src/oran-core/turn_id.cpp] and the
    digest spelling [to_hex] of [src/oran-permission/audit.cpp].  A [TurnId] is
    its sixteen bytes; entropy, the process counter and the clock are arguments
    of [generate_turn_id]. *)
From S2P Require Import Prelude Core.
#[local] Open Scope Z_scope.

Abbreviation TurnId := bytes (only parsing).
Definition turn_id_size : nat := 16.
Definition zero_turn_id : TurnId := replicate turn_id_size (byte_of 0).

Definition is_zero_turn_id (id : TurnId) : bool :=
  forallb (fun b => code b =? 0) id.

(** The digit table of both spellings, [DIGITS] and [kHexDigits]. *)
Definition hex_digits : bytes := lit "0123456789abcdef".

(** [string_view::find(char)]: the index of the first match. *)
Fixpoint find_char (s : bytes) (c : ascii) : option nat :=
  match s with
  | [] => None
  | d :: s' => if decide (d = c) then Some 0%nat else S <$> find_char s' c
  end.

Definition turn_id_error : Error :=
  Errors.invalid_argument "turn id must contain 32 lowercase hexadecimal characters".

(** The loop of [parse_turn_id_hex] from index [i] with [n] bytes to go. *)
Fixpoint parse_loop (n i : nat) (text : bytes) : Result bytes :=
  match n with
  | O => Ok []
  | S n' =>
      match find_char hex_digits (nth (i * 2) text zero),
            find_char hex_digits (nth (i * 2 + 1) text zero) with
      | Some high, Some low =>
          let? rest := parse_loop n' (S i) text in
          Ok (byte_of (Z.lor (Z.shiftl (Z.of_nat high) 4) (Z.of_nat low)) :: rest)
      | _, _ => Err turn_id_error
      end
  end.

Definition parse_turn_id_hex (text : bytes) : Result TurnId :=
  if negb (length text =? turn_id_size * 2)%nat then Err turn_id_error
  else parse_loop turn_id_size 0 text.

(** Two digits per byte, high nibble first: [format_turn_id_hex], and [to_hex]
    for a digest. *)
Definition hex_byte (b : ascii) : bytes :=
  [nth (Z.to_nat (Z.shiftr (code b) 4)) hex_digits zero;
   nth (Z.to_nat (Z.land (code b) 0x0f)) hex_digits zero].
Definition format_turn_id_hex (id : TurnId) : bytes := concat (map hex_byte id).

(** [nibble_to_hex] and [to_hex] of the audit sink compute the digit instead. *)
Definition nibble_to_hex (nibble : Z) : ascii :=
  byte_of (if nibble <? 10 then 48 + nibble else 97 + (nibble - 10)).
Definition to_hex (input_hash : bytes) : bytes :=
  concat (map (fun b => [nibble_to_hex (Z.shiftr (code b) 4);
                         nibble_to_hex (Z.land (code b) 0x0F)]) input_hash).

(** [write_u64_be]: eight bytes from [offset], most significant first. *)
Fixpoint write_u64_be_loop (n : nat) (id : TurnId) (offset index : nat) (value : Z) : TurnId :=
  match n with
  | O => id
  | S n' =>
      let shift := Z.of_nat ((7 - index) * 8) in
      write_u64_be_loop n'
        (<[(offset + index)%nat := byte_of (Z.land (Z.shiftr value shift) 0xff)]> id)
        offset (S index) value
  end.
Definition write_u64_be (id : TurnId) (offset : nat) (value : Z) : TurnId :=
  write_u64_be_loop 8 id offset 0 value.

(** [std::rotl] on [uint64_t]. *)
Definition rotl64 (x : Z) (s : Z) : Z :=
  Z.lor (wrap_u 64 (Z.shiftl x s)) (Z.shiftr x (64 - s)).

Definition update_byte (id : TurnId) (i : nat) (f : Z -> Z) : TurnId :=
  match id !! i with Some b => <[i := byte_of (f (code b))]> id | None => id end.

(** [generate_turn_id]: [random_hi] and [random_lo] are the two 32-bit draws of
    [std::random_device], [sequence] the process-wide counter before the call and
    [timestamp] the clock's nanoseconds.  The result is the identifier and the
    counter after the call.  A throwing entropy source is the [Err] of
    [generate_turn_id_entropy]. *)
Definition generate_turn_id (random_hi random_lo sequence timestamp : Z) : TurnId * Z :=
  let entropy := Z.lor (wrap_u 64 (Z.shiftl random_hi 32)) random_lo in
  let counter := wrap_u 64 (wrap_u 64 sequence + 1) in
  let id := write_u64_be zero_turn_id 0 (Z.lxor entropy (rotl64 timestamp 17)) in
  let id := write_u64_be id 8 (Z.lxor (Z.lxor counter (rotl64 entropy 31)) timestamp) in
  let id := update_byte id 6 (fun b => Z.lor (Z.land b 0x0f) 0x40) in
  let id := update_byte id 8 (fun b => Z.lor (Z.land b 0x3f) 0x80) in
  let id := if is_zero_turn_id id then <[15%nat := byte_of 1]> id else id in
  (id, wrap_u 64 (sequence + 1)).

Definition generate_turn_id_entropy (draw : string + (Z * Z)) (sequence timestamp : Z)
    : Result TurnId * Z :=
  match draw with
  | inl what =>
      (Err (Errors.with_ctx (Errors.internal "failed to generate turn id") "reason" what),
       sequence)
  | inr (random_hi, random_lo) =>
      let '(id, sequence') := generate_turn_id random_hi random_lo sequence timestamp in
      (Ok id, sequence')
  end.

(** ** Lemmas *)
(** A statement about every byte, checked on the 256 of them. *)
Definition all_bytes : list ascii := map (fun n => byte_of (Z.of_nat n)) (seq 0 256).

Lemma all_bytes_complete c : c ∈ all_bytes.
Proof.
  unfold all_bytes. apply list_elem_of_fmap. exists (Z.to_nat (code c)).
  pose proof (code_range c). rewrite Z2Nat.id, byte_of_code by lia.
  split; [done|]. apply elem_of_seq. lia.
Qed.

Lemma byte_cases (P : ascii -> bool) : forallb P all_bytes = true -> forall c, P c = true.
Proof. intros H c. rewrite forallb_forall in H. apply H, list_elem_of_In, all_bytes_complete. Qed.

Definition hex_pair (b1 b2 : ascii) : option ascii :=
  match find_char hex_digits b1, find_char hex_digits b2 with
  | Some high, Some low =>
      Some (byte_of (Z.lor (Z.shiftl (Z.of_nat high) 4) (Z.of_nat low)))
  | _, _ => None
  end.

Lemma hex_pair_format b :
  exists d1 d2, hex_byte b = [d1; d2] /\ hex_pair d1 d2 = Some b.
Proof.
  exists (nth (Z.to_nat (Z.shiftr (code b) 4)) hex_digits zero),
    (nth (Z.to_nat (Z.land (code b) 0x0f)) hex_digits zero).
  split; [done|].
  apply (bool_decide_eq_true_1 _). revert b.
  apply (byte_cases (fun b => bool_decide (hex_pair _ _ = Some b))). by vm_compute.
Qed.

Lemma hex_pair_sound d1 d2 b : hex_pair d1 d2 = Some b -> hex_byte b = [d1; d2].
Proof.
  intros H.
  assert (Hall : forallb (fun d1 => forallb (fun d2 =>
    match hex_pair d1 d2 with
    | Some b => bool_decide (hex_byte b = [d1; d2]) | None => true end) all_bytes)
    (filter (fun d => is_Some (find_char hex_digits d)) all_bytes) = true) by by vm_compute.
  rewrite forallb_forall in Hall.
  assert (Hd : is_Some (find_char hex_digits d1))
    by (unfold hex_pair in H; destruct (find_char hex_digits d1); [eauto|done]).
  specialize (Hall d1). rewrite <- list_elem_of_In, list_elem_of_filter in Hall.
  specialize (Hall (conj Hd (all_bytes_complete d1))).
  apply (byte_cases _) with (c := d2) in Hall. rewrite H in Hall.
  by apply bool_decide_eq_true in Hall.
Qed.

Lemma parse_loop_ok n i text id :
  (length text = (i + n) * 2)%nat ->
  parse_loop n i text = Ok id <->
  length id = n /\ drop (i * 2) text = format_turn_id_hex id.
Proof.
  revert i id. induction n as [|n IH]; intros i id Hlen; cbn [parse_loop].
  { rewrite drop_ge by lia. split; [intros [= <-]; done|].
    intros [->%length_zero_iff_nil _]. done. }
  assert (exists d1 d2, drop (i * 2) text = d1 :: d2 :: drop (S i * 2) text /\
      nth (i * 2) text zero = d1 /\ nth (i * 2 + 1) text zero = d2) as (d1 & d2 & Hd & -> & ->).
  { destruct (lookup_lt_is_Some_2 text (i * 2)%nat ltac:(lia)) as [d1 H1].
    destruct (lookup_lt_is_Some_2 text (i * 2 + 1)%nat ltac:(lia)) as [d2 H2].
    exists d1, d2. rewrite !nth_lookup, H1, H2. split; [|done].
    rewrite (drop_S text d1 (i * 2)) by done.
    replace (i * 2 + 1)%nat with (S (i * 2)) in H2 by lia.
    rewrite (drop_S text d2 (S (i * 2))) by done.
    by replace (S i * 2)%nat with (S (S (i * 2))) by lia. }
  rewrite Hd. split.
  - destruct (find_char hex_digits d1) as [high|] eqn:H1; [|done].
    destruct (find_char hex_digits d2) as [low|] eqn:H2; [|done].
    intros (rest & Hrest & [= <-])%result_bind_ok.
    apply IH in Hrest as [<- Hrest]; [|lia]. split; [done|].
    cbn [format_turn_id_hex map concat]. rewrite Hrest.
    erewrite hex_pair_sound; [done|]. unfold hex_pair. by rewrite H1, H2.
  - intros [Hl He]. destruct id as [|b id]; [done|]. injection Hl as Hl.
    destruct (hex_pair_format b) as (e1 & e2 & Hb & Hp).
    cbn [format_turn_id_hex map concat] in He. rewrite Hb in He.
    injection He as -> -> He. unfold hex_pair in Hp.
    destruct (find_char hex_digits e1) as [high|]; [|done].
    destruct (find_char hex_digits e2) as [low|]; [|done]. injection Hp as Hp.
    apply result_bind_ok. exists id. split; [|by rewrite <- Hp].
    apply IH; [lia|]. done.
Qed.

Lemma format_turn_id_hex_length id :
  (length (format_turn_id_hex id) = 2 * length id)%nat.
Proof. induction id; simpl in *; [done|]. unfold format_turn_id_hex in *. simpl. lia. Qed.

(** the parser accepts exactly the canonical spellings. *)
Theorem parse_turn_id_hex_spec text id :
  parse_turn_id_hex text = Ok id <->
  length id = turn_id_size /\ text = format_turn_id_hex id.
Proof.
  unfold parse_turn_id_hex.
  destruct (Nat.eqb_spec (length text) (turn_id_size * 2)) as [Hlen|Hlen]; simpl negb; cbv iota.
  - by rewrite parse_loop_ok.
  - split; [done|]. intros [Hl ->]. rewrite format_turn_id_hex_length, Hl in Hlen. lia.
Qed.

(** the two digit tables agree, so an audit digest and a turn identifier are
    spelled alike. *)
Theorem to_hex_format h : to_hex h = format_turn_id_hex h.
Proof.
  unfold to_hex, format_turn_id_hex. f_equal. apply map_ext. intros b.
  apply (bool_decide_eq_true_1 _). revert b.
  apply (byte_cases (fun b => bool_decide ([_; _] = hex_byte b))). by vm_compute.
Qed.

Lemma write_loop_length n id offset index value :
  length (write_u64_be_loop n id offset index value) = length id.
Proof.
  revert id index. induction n as [|n IH]; intros id index; simpl; [done|].
  by rewrite IH, length_insert.
Qed.

Lemma update_byte_length id i f : length (update_byte id i f) = length id.
Proof. unfold update_byte. destruct (id !! i); [apply length_insert|done]. Qed.

Lemma update_byte_lookup id i f b :
  id !! i = Some b -> update_byte id i f !! i = Some (byte_of (f (code b))).
Proof.
  intros H. unfold update_byte. rewrite H. apply list_lookup_insert_eq.
  by eapply lookup_lt_Some.
Qed.

Lemma update_byte_lookup_ne id i j f : i <> j -> update_byte id i f !! j = id !! j.
Proof. intros H. unfold update_byte. destruct (id !! i); [by apply list_lookup_insert_ne|done]. Qed.

Lemma version_bits b : Z.land (code (byte_of (Z.lor (Z.land (code b) 0x0f) 0x40))) 0xf0 = 0x40.
Proof.
  apply Z.eqb_eq. revert b. apply (byte_cases (fun b => _ =? _)). by vm_compute.
Qed.
Lemma variant_bits b : Z.land (code (byte_of (Z.lor (Z.land (code b) 0x3f) 0x80))) 0xc0 = 0x80.
Proof.
  apply Z.eqb_eq. revert b. apply (byte_cases (fun b => _ =? _)). by vm_compute.
Qed.

(** A UUIDv4-shaped identifier. *)
Definition uuid4_shaped (id : TurnId) : Prop :=
  length id = turn_id_size /\
  (exists b, id !! 6%nat = Some b /\ Z.land (code b) 0xf0 = 0x40) /\
  (exists b, id !! 8%nat = Some b /\ Z.land (code b) 0xc0 = 0x80).

Lemma uuid4_nonzero id : uuid4_shaped id -> is_zero_turn_id id = false.
Proof.
  intros (_ & (b & Hb & Hv) & _). unfold is_zero_turn_id.
  apply not_true_iff_false. rewrite forallb_forall. intros H.
  specialize (H b (proj1 (list_elem_of_In _ _) (list_elem_of_lookup_2 _ _ _ Hb))).
  apply Z.eqb_eq in H. by rewrite H in Hv.
Qed.

(** a generated identifier is non-zero, UUIDv4-shaped and survives its
    spelling, whatever the entropy, the clock and the counter are; so the
    fallback for an all-zero identifier is never taken. *)
Theorem generate_turn_id_shape random_hi random_lo sequence timestamp :
  let '(id, sequence') := generate_turn_id random_hi random_lo sequence timestamp in
  uuid4_shaped id /\ is_zero_turn_id id = false /\
  parse_turn_id_hex (format_turn_id_hex id) = Ok id /\
  sequence' = wrap_u 64 (sequence + 1).
Proof.
  unfold generate_turn_id.
  set (id1 := write_u64_be (write_u64_be _ 0 _) 8 _).
  assert (Hl : length id1 = turn_id_size)
    by (unfold id1, write_u64_be; by rewrite !write_loop_length).
  destruct (lookup_lt_is_Some_2 id1 6 ltac:(rewrite Hl; unfold turn_id_size; lia)) as [b6 H6].
  destruct (lookup_lt_is_Some_2 id1 8 ltac:(rewrite Hl; unfold turn_id_size; lia)) as [b8 H8].
  assert (Hs : uuid4_shaped (update_byte (update_byte id1 6 (fun b => Z.lor (Z.land b 0x0f) 0x40))
                                         8 (fun b => Z.lor (Z.land b 0x3f) 0x80))).
  { split; [by rewrite !update_byte_length|]. split.
    - eexists. rewrite update_byte_lookup_ne by done.
      split; [by rewrite (update_byte_lookup _ _ _ b6)|apply (version_bits b6)].
    - eexists. split; [|apply (variant_bits b8)].
      by rewrite (update_byte_lookup _ _ _ b8) by by rewrite update_byte_lookup_ne. }
  rewrite (uuid4_nonzero _ Hs). split; [done|]. split; [by apply uuid4_nonzero|].
  split; [|done]. apply parse_turn_id_hex_spec. by destruct Hs.
Qed.
