(* ===== verification/IsoTime.v ===== *)
(** * oran-core: absolute time and its ISO 8601 spelling

    Models [include/oran/core/time.hpp] and [src/oran-core/time.cpp].  A [Time]
    is a count of nanoseconds since the epoch, as [system_clock] has it; the
    calendar of [std::chrono] is the proleptic Gregorian calendar, with the
    civil-from-days algorithms of the standard library written out. *)
From S2P Require Import Prelude Core.
#[local] Open Scope Z_scope.

(** ** The calendar of [std::chrono] *)
Definition is_leap (y : Z) : bool :=
  (y mod 4 =? 0) && (negb (y mod 100 =? 0) || (y mod 400 =? 0)).

Definition last_day (y m : Z) : Z :=
  if m =? 2 then (if is_leap y then 29 else 28)
  else if (m =? 4) || (m =? 6) || (m =? 9) || (m =? 11) then 30 else 31.

(** [year_month_day::ok]; the year is in the range of [std::chrono::year]. *)
Definition ymd_ok (y m d : Z) : bool :=
  (1 <=? m) && (m <=? 12) && (1 <=? d) && (d <=? last_day y m).

(** [sys_days{year_month_day}]. *)
Definition days_from_civil (y m d : Z) : Z :=
  let y' := if m <=? 2 then y - 1 else y in
  let era := y' / 400 in
  let yoe := y' - era * 400 in
  let mp := if 2 <? m then m - 3 else m + 9 in
  let doy := (153 * mp + 2) / 5 + d - 1 in
  let doe := yoe * 365 + yoe / 4 - yoe / 100 + doy in
  era * 146097 + doe - 719468.

(** [year_month_day{sys_days}]. *)
Definition civil_from_days (z : Z) : Z * Z * Z :=
  let z := z + 719468 in
  let era := z / 146097 in
  let doe := z - era * 146097 in
  let yoe := (doe - doe / 1460 + doe / 36524 - doe / 146096) / 365 in
  let doy := doe - (365 * yoe + yoe / 4 - yoe / 100) in
  let mp := (5 * doy + 2) / 153 in
  let d := doy - (153 * mp + 2) / 5 + 1 in
  let m := if mp <? 10 then mp + 3 else mp - 9 in
  ((if m <=? 2 then yoe + era * 400 + 1 else yoe + era * 400), m, d).

Definition ms_per_day : Z := 86400000.
Definition ns_per_ms : Z := 1000000.

(** The converting construction of a nanosecond [time_point] from a count of
    milliseconds: a 64-bit product.  Where it does not fit the C++ behaviour is
    undefined; the model keeps the low 64 bits. *)
Definition time_of_ms (ms : Z) : Z := wrap_s 64 (ms * ns_per_ms).

(** ** Fields *)
Definition digit (n : Z) : ascii := byte_of (48 + n).

(** ["{:0w}"] of a value of at most [w] digits. *)
Fixpoint pad (w : nat) (n : Z) : bytes :=
  match w with
  | O => []
  | S w' => pad w' (n / 10) ++ [digit (n mod 10)]
  end.

Definition all_digits (s : bytes) : bool :=
  forallb (fun c => negb ((code c <? 48) || (57 <? code c))) s.

Definition parse_fixed_width (s : bytes) : Z :=
  fold_left (fun value c => value * 10 + (code c - 48)) s 0.

(** ** [format_iso8601_utc] *)
Definition format_iso8601_utc (t : Z) : bytes :=
  let tp_ms := t / ns_per_ms in
  let day_point := tp_ms / ms_per_day in
  let '(y, month, day) := civil_from_days day_point in
  let tod := tp_ms - day_point * ms_per_day in
  let year := if y <? 0 then 0 else if 9999 <? y then 9999 else y in
  pad 4 year ++ lit "-" ++ pad 2 month ++ lit "-" ++ pad 2 day ++ lit "T" ++
  pad 2 (tod / 3600000) ++ lit ":" ++ pad 2 (tod / 60000 mod 60) ++ lit ":" ++
  pad 2 (tod / 1000 mod 60) ++ lit "." ++ pad 3 (tod mod 1000) ++ lit "Z".

(** ** [parse_iso8601_utc] *)
Definition parse_error (message : string) (input : bytes) : Error :=
  Errors.with_ctx (Errors.parsing message) "input" (str input).

Definition range_error (field message : string) (input : bytes) (value : Z) : Error :=
  Errors.with_ctx (parse_error message input) field (pretty value).

Definition substr (s : bytes) (pos n : nat) : bytes := take n (drop pos s).
Definition at_is (s : bytes) (i : nat) (c : ascii) : bool :=
  bool_decide (nth i s zero = c).

(** The fractional field: [ms_value]. *)
Definition parse_fraction (input : bytes) : Result Z :=
  let n := length input in
  if (20 <? n)%nat then
    if negb (at_is input 19 "."%char)
    then Err (parse_error "iso8601: missing fractional separator" input)
    else
      let frac_len := (n - 21)%nat in
      let frac := substr input 20 frac_len in
      if negb (all_digits frac)
      then Err (parse_error "iso8601: non-digit fraction" input)
      else Ok (parse_fixed_width frac * nth frac_len [0; 100; 10; 1] 0)
  else Ok 0.

(** Every check up to the calendar, and the instant in milliseconds. *)
Definition parse_iso8601_ms (input : bytes) : Result Z :=
  let n := length input in
  if (n =? 0)%nat then Err (Errors.invalid_argument "empty iso8601 timestamp")
  else if negb (n =? 20)%nat && negb (n =? 22)%nat && negb (n =? 23)%nat && negb (n =? 24)%nat
  then Err (range_error "length" "iso8601: unexpected length" input (Z.of_nat n))
  else if negb (at_is input 4 "-"%char) || negb (at_is input 7 "-"%char) ||
          negb (at_is input 10 "T"%char) || negb (at_is input 13 ":"%char) ||
          negb (at_is input 16 ":"%char) || negb (at_is input (n - 1) "Z"%char)
  then Err (parse_error "iso8601: bad separators" input)
  else
    let year_str := substr input 0 4 in
    let month_str := substr input 5 2 in
    let day_str := substr input 8 2 in
    let hour_str := substr input 11 2 in
    let minute_str := substr input 14 2 in
    let second_str := substr input 17 2 in
    if negb (all_digits year_str) || negb (all_digits month_str) ||
       negb (all_digits day_str) || negb (all_digits hour_str) ||
       negb (all_digits minute_str) || negb (all_digits second_str)
    then Err (parse_error "iso8601: non-digit field" input)
    else
      let? ms_value := parse_fraction input in
      let year_value := parse_fixed_width year_str in
      let month_value := parse_fixed_width month_str in
      let day_value := parse_fixed_width day_str in
      let hour_value := parse_fixed_width hour_str in
      let minute_value := parse_fixed_width minute_str in
      let second_value := parse_fixed_width second_str in
      if (month_value <? 1) || (12 <? month_value)
      then Err (range_error "month" "iso8601: month out of range" input month_value)
      else if (day_value <? 1) || (31 <? day_value)
      then Err (range_error "day" "iso8601: day out of range" input day_value)
      else if 23 <? hour_value
      then Err (range_error "hour" "iso8601: hour out of range" input hour_value)
      else if 59 <? minute_value
      then Err (range_error "minute" "iso8601: minute out of range" input minute_value)
      else if 59 <? second_value
      then Err (range_error "second" "iso8601: second out of range" input second_value)
      else if negb (ymd_ok year_value month_value day_value)
      then Err (parse_error "iso8601: invalid calendar date" input)
      else
        Ok (days_from_civil year_value month_value day_value * ms_per_day +
            hour_value * 3600000 + minute_value * 60000 + second_value * 1000 + ms_value).

Definition parse_iso8601_utc (input : bytes) : Result Z :=
  let? ms := parse_iso8601_ms input in Ok (time_of_ms ms).

Example format_epoch : str (format_iso8601_utc 0) = "1970-01-01T00:00:00.000Z"%string.
Proof. reflexivity. Qed.
Example parse_leap : parse_iso8601_utc (lit "2024-02-29T12:00:00.5Z") =
  Ok 1709208000500000000.
Proof. reflexivity. Qed.

(** ** The calendar is a bijection *)
Lemma leap_day yoe era :
  0 <= yoe <= 399 ->
  is_leap (yoe + era * 400 + 1) = ((yoe + 1) mod 4 =? 0) &&
    (negb ((yoe + 1) mod 100 =? 0) || (yoe =? 399)).
Proof.
  intros H. unfold is_leap. apply eq_bool_prop_intro.
  rewrite !Is_true_true, !andb_true_iff, !orb_true_iff, !negb_true_iff, !Z.eqb_eq, !Z.eqb_neq.
  Z.to_euclidean_division_equations. lia.
Qed.

(** The position of a day in its era of 400 March-based years. *)
Definition era_year (doe : Z) : Z := (doe - doe / 1460 + doe / 36524 - doe / 146096) / 365.

Lemma era_year_spec doe :
  0 <= doe < 146097 ->
  let yoe := era_year doe in
  let doy := doe - (365 * yoe + yoe / 4 - yoe / 100) in
  0 <= yoe <= 399 /\ 0 <= doy <= 365 /\
  (doy = 365 -> (yoe + 1) mod 4 = 0 /\ ((yoe + 1) mod 100 <> 0 \/ yoe = 399)).
Proof. intros H. cbv zeta. unfold era_year. Z.to_euclidean_division_equations. lia. Qed.

(** The position of a day in its March-based year. *)
Lemma march_month doy :
  0 <= doy <= 365 ->
  let mp := (5 * doy + 2) / 153 in
  0 <= mp <= 11 /\ (153 * mp + 2) / 5 <= doy < (153 * (mp + 1) + 2) / 5.
Proof. intros H. cbv zeta. Z.to_euclidean_division_equations. lia. Qed.

Definition month_of_march (mp : Z) : Z := if mp <? 10 then mp + 3 else mp - 9.
Definition year_of_march (era yoe mp : Z) : Z :=
  if month_of_march mp <=? 2 then yoe + era * 400 + 1 else yoe + era * 400.

Lemma days_from_march era yoe mp d :
  0 <= yoe <= 399 -> 0 <= mp <= 11 ->
  days_from_civil (year_of_march era yoe mp) (month_of_march mp) d =
  era * 146097 + (yoe * 365 + yoe / 4 - yoe / 100 + ((153 * mp + 2) / 5 + d - 1)) - 719468.
Proof.
  intros Hy Hm.
  assert (He : (yoe + era * 400) / 400 = era) by (Z.to_euclidean_division_equations; lia).
  unfold days_from_civil, year_of_march, month_of_march. destruct (Z.ltb_spec mp 10).
  - rewrite (proj2 (Z.leb_gt _ _)), (proj2 (Z.ltb_lt _ _)) by lia.
    rewrite He, Z.add_simpl_r, Z.add_simpl_r. lia.
  - rewrite (proj2 (Z.leb_le _ _)), (proj2 (Z.ltb_ge _ _)) by lia.
    rewrite (Z.add_simpl_r (yoe + era * 400)), He, Z.add_simpl_r, Z.sub_simpl_r. lia.
Qed.

(** The length of a March-based month; February takes what the year has left. *)
Lemma last_day_march era yoe mp :
  0 <= yoe <= 399 -> 0 <= mp <= 11 ->
  1 <= month_of_march mp <= 12 /\
  last_day (year_of_march era yoe mp) (month_of_march mp) =
    if mp =? 11
    then if ((yoe + 1) mod 4 =? 0) && (negb ((yoe + 1) mod 100 =? 0) || (yoe =? 399))
         then 29 else 28
    else (153 * (mp + 1) + 2) / 5 - (153 * mp + 2) / 5.
Proof.
  intros Hy Hm.
  assert (mp = 0 \/ mp = 1 \/ mp = 2 \/ mp = 3 \/ mp = 4 \/ mp = 5 \/
    mp = 6 \/ mp = 7 \/ mp = 8 \/ mp = 9 \/ mp = 10 \/ mp = 11) as Hc by lia.
  repeat destruct Hc as [->|Hc]; try subst mp;
    (split; [vm_compute; split; congruence|]); try reflexivity.
  unfold last_day, year_of_march, month_of_march. simpl. by rewrite leap_day.
Qed.

Lemma civil_from_days_ok z :
  let '(y, m, d) := civil_from_days z in
  ymd_ok y m d = true /\ days_from_civil y m d = z.
Proof.
  unfold civil_from_days.
  set (era := (z + 719468) / 146097). set (doe := z + 719468 - era * 146097).
  assert (Hdoe : 0 <= doe < 146097) by (subst doe era; Z.to_euclidean_division_equations; lia).
  fold (era_year doe). pose proof (era_year_spec doe Hdoe) as Hy. cbv zeta in Hy.
  set (yoe := era_year doe) in *. set (doy := doe - _) in *.
  destruct Hy as (Hyoe & Hdoy & Hleap).
  pose proof (march_month doy Hdoy) as Hm. cbv zeta in Hm.
  set (mp := (5 * doy + 2) / 153) in *. destruct Hm as [Hmp Hd].
  fold (month_of_march mp). fold (year_of_march era yoe mp).
  destruct (last_day_march era yoe mp Hyoe Hmp) as [Hmo Hlast]. split.
  - unfold ymd_ok. rewrite Hlast, !andb_true_iff, !Z.leb_le.
    destruct (Z.eqb_spec mp 11) as [E|]; [|lia]. rewrite E in *.
    repeat split; try lia.
    destruct (Z.eqb_spec ((yoe + 1) mod 4) 0), (Z.eqb_spec ((yoe + 1) mod 100) 0),
      (Z.eqb_spec yoe 399); simpl; change ((153 * 11 + 2) / 5) with 337; lia.
  - rewrite days_from_march by done. unfold doy, doe. lia.
Qed.

Lemma civil_march y m :
  1 <= m <= 12 ->
  exists era yoe mp, 0 <= yoe <= 399 /\ 0 <= mp <= 11 /\
    y = year_of_march era yoe mp /\ m = month_of_march mp.
Proof.
  intros Hm. unfold year_of_march, month_of_march. destruct (Z.leb_spec m 2).
  - exists ((y - 1) / 400), ((y - 1) mod 400), (m + 9).
    rewrite (proj2 (Z.ltb_ge _ _)) by lia.
    rewrite Z.add_simpl_r, (proj2 (Z.leb_le _ _)) by lia.
    Z.to_euclidean_division_equations; lia.
  - exists (y / 400), (y mod 400), (m - 3).
    rewrite (proj2 (Z.ltb_lt _ _)) by lia.
    rewrite Z.sub_add, (proj2 (Z.leb_gt _ _)) by lia.
    Z.to_euclidean_division_equations; lia.
Qed.

Lemma era_year_day yoe doy :
  0 <= yoe <= 399 -> 0 <= doy <= 365 ->
  (doy = 365 -> (yoe + 1) mod 4 = 0 /\ ((yoe + 1) mod 100 <> 0 \/ yoe = 399)) ->
  era_year (yoe * 365 + yoe / 4 - yoe / 100 + doy) = yoe.
Proof. intros. unfold era_year. Z.to_euclidean_division_equations. lia. Qed.

Lemma days_from_civil_inv y m d :
  ymd_ok y m d = true -> civil_from_days (days_from_civil y m d) = (y, m, d).
Proof.
  unfold ymd_ok. rewrite !andb_true_iff, !Z.leb_le. intros [[[Hm1 Hm2] Hd1] Hd2].
  destruct (civil_march y m ltac:(lia)) as (era & yoe & mp & Hy & Hmp & -> & ->).
  destruct (last_day_march era yoe mp Hy Hmp) as [_ Hlast]. rewrite Hlast in Hd2.
  set (doy := (153 * mp + 2) / 5 + d - 1).
  assert (Hdoy : 0 <= doy <= 365 /\ (5 * doy + 2) / 153 = mp /\
    (doy = 365 -> (yoe + 1) mod 4 = 0 /\ ((yoe + 1) mod 100 <> 0 \/ yoe = 399))).
  { subst doy. destruct (Z.eqb_spec mp 11) as [->|].
    - change ((153 * 11 + 2) / 5) with 337 in *. revert Hd2.
      destruct (Z.eqb_spec ((yoe + 1) mod 4) 0), (Z.eqb_spec ((yoe + 1) mod 100) 0),
        (Z.eqb_spec yoe 399); simpl; intros; Z.to_euclidean_division_equations; lia.
    - assert (Hb : (153 * mp + 2) / 5 <= (153 * mp + 2) / 5 + d - 1 < (153 * (mp + 1) + 2) / 5)
        by lia. revert Hb. generalize ((153 * mp + 2) / 5 + d - 1). intros doy Hb.
      clear Hd1 Hd2 Hlast. assert (0 <= doy <= 336) by (Z.to_euclidean_division_equations; lia).
      split; [lia|]. split; [|lia]. Z.to_euclidean_division_equations; lia. }
  destruct Hdoy as (Hdoy & Hmp' & Hleap).
  rewrite days_from_march by done. unfold civil_from_days. fold doy.
  set (doe := yoe * 365 + yoe / 4 - yoe / 100 + doy).
  assert (Hdoe : 0 <= doe < 146097) by (subst doe; Z.to_euclidean_division_equations; lia).
  replace (era * 146097 + doe - 719468 + 719468) with (doe + era * 146097) by lia.
  assert (Hera : (doe + era * 146097) / 146097 = era)
    by (Z.to_euclidean_division_equations; lia).
  cbv zeta. rewrite Hera, Z.add_simpl_r. fold (era_year doe).
  assert (Hey : era_year doe = yoe) by by apply era_year_day. rewrite Hey.
  replace (doe - (365 * yoe + yoe / 4 - yoe / 100)) with doy by (unfold doe; lia).
  rewrite Hmp'.
  fold (month_of_march mp). fold (year_of_march era yoe mp).
  f_equal. unfold doy. lia.
Qed.

(** ** Decimal fields *)
Lemma code_digit n : 0 <= n <= 9 -> code (digit n) = 48 + n.
Proof. intros. unfold digit. rewrite code_byte_of. apply Z.mod_small. lia. Qed.

Lemma pad_length w n : length (pad w n) = w.
Proof. revert n. induction w as [|w IH]; intros n; simpl; [done|]. rewrite length_app, IH. simpl. lia. Qed.

Lemma all_digits_app a b : all_digits (a ++ b) = all_digits a && all_digits b.
Proof. apply forallb_app. Qed.

Lemma all_digits_pad w n : all_digits (pad w n) = true.
Proof.
  revert n. induction w as [|w IH]; intros n; simpl; [done|].
  rewrite all_digits_app, IH. simpl. pose proof (Z.mod_pos_bound n 10 ltac:(lia)).
  rewrite code_digit by lia. rewrite !(proj2 (Z.ltb_ge _ _)) by lia. done.
Qed.

Lemma parse_snoc s c : parse_fixed_width (s ++ [c]) = parse_fixed_width s * 10 + (code c - 48).
Proof. unfold parse_fixed_width. by rewrite fold_left_app. Qed.

Lemma parse_pad w n : 0 <= n < 10 ^ Z.of_nat w -> parse_fixed_width (pad w n) = n.
Proof.
  revert n. induction w as [|w IH]; intros n Hn.
  { change (10 ^ Z.of_nat 0) with 1 in Hn. change (0 = n). lia. }
  rewrite Nat2Z.inj_succ, Z.pow_succ_r in Hn by lia. cbn [pad].
  pose proof (Z.mod_pos_bound n 10 ltac:(lia)).
  rewrite parse_snoc, code_digit by lia.
  rewrite IH by (generalize dependent (10 ^ Z.of_nat w); intros;
                 Z.to_euclidean_division_equations; lia).
  Z.to_euclidean_division_equations; lia.
Qed.

Lemma parse_bounds s : all_digits s = true -> 0 <= parse_fixed_width s < 10 ^ Z.of_nat (length s).
Proof.
  induction s as [|c s IH] using rev_ind; [by vm_compute|].
  rewrite all_digits_app, parse_snoc, length_app, andb_true_iff. intros [Hs Hc].
  specialize (IH Hs). simpl in Hc. rewrite andb_true_r in Hc. bool_prop.
  rewrite Nat.add_1_r, Nat2Z.inj_succ, Z.pow_succ_r by lia. lia.
Qed.

Lemma pad_parse s : all_digits s = true -> pad (length s) (parse_fixed_width s) = s.
Proof.
  induction s as [|c s IH] using rev_ind; [done|].
  rewrite all_digits_app, parse_snoc, length_app, andb_true_iff. intros [Hs Hc].
  simpl in Hc. rewrite andb_true_r in Hc. bool_prop.
  rewrite Nat.add_1_r. cbn [pad].
  replace ((parse_fixed_width s * 10 + (code c - 48)) / 10) with (parse_fixed_width s)
    by (Z.to_euclidean_division_equations; lia).
  rewrite IH by done. do 2 f_equal. unfold digit.
  rewrite <- (byte_of_code c). f_equal. rewrite byte_of_code.
  Z.to_euclidean_division_equations; lia.
Qed.

(** ** The canonical spelling *)
(** A 24-byte timestamp from its seven fields. *)
Definition canonical (y mo d h mi s f : bytes) : bytes :=
  y ++ lit "-" ++ mo ++ lit "-" ++ d ++ lit "T" ++ h ++ lit ":" ++ mi ++ lit ":" ++
  s ++ lit "." ++ f ++ lit "Z".

#[local] Arguments all_digits : simpl never.
#[local] Arguments parse_fixed_width : simpl never.

Lemma parse_canonical y mo d h mi s f :
  length y = 4%nat -> length mo = 2%nat -> length d = 2%nat -> length h = 2%nat ->
  length mi = 2%nat -> length s = 2%nat -> length f = 3%nat ->
  all_digits y = true -> all_digits mo = true -> all_digits d = true ->
  all_digits h = true -> all_digits mi = true -> all_digits s = true ->
  all_digits f = true ->
  parse_fixed_width h <= 23 -> parse_fixed_width mi <= 59 -> parse_fixed_width s <= 59 ->
  ymd_ok (parse_fixed_width y) (parse_fixed_width mo) (parse_fixed_width d) = true ->
  parse_iso8601_ms (canonical y mo d h mi s f) =
  Ok (days_from_civil (parse_fixed_width y) (parse_fixed_width mo) (parse_fixed_width d) *
        ms_per_day + parse_fixed_width h * 3600000 + parse_fixed_width mi * 60000 +
        parse_fixed_width s * 1000 + parse_fixed_width f).
Proof.
  intros Hy Hmo Hd Hh Hmi Hs Hf. 
  destruct y as [|y1 [|y2 [|y3 [|y4 [|]]]]]; try discriminate Hy.
  destruct mo as [|mo1 [|mo2 [|]]]; try discriminate Hmo.
  destruct d as [|d1 [|d2 [|]]]; try discriminate Hd.
  destruct h as [|h1 [|h2 [|]]]; try discriminate Hh.
  destruct mi as [|mi1 [|mi2 [|]]]; try discriminate Hmi.
  destruct s as [|s1 [|s2 [|]]]; try discriminate Hs.
  destruct f as [|f1 [|f2 [|f3 [|]]]]; try discriminate Hf.
  intros Ay Amo Ad Ah Ami As Af Bh Bmi Bs Hok.
  unfold parse_iso8601_ms, parse_fraction.
  change (length (canonical _ _ _ _ _ _ _)) with 24%nat.
  simpl Nat.eqb. cbv iota. simpl negb. cbv iota. simpl andb. cbv iota.
  simpl Nat.sub. 
  cbn [canonical lit app String.list_ascii_of_string at_is nth substr take drop].
  simpl orb. cbv iota.
  rewrite Ay, Amo, Ad, Ah, Ami, As, Af. simpl negb. simpl orb. cbv iota.
  simpl Nat.ltb. cbv iota. cbn [result_bind].
  assert (Hok' := Hok). unfold ymd_ok in Hok'. bool_prop.
  assert (last_day (parse_fixed_width [y1; y2; y3; y4]) (parse_fixed_width [mo1; mo2]) <= 31)
    by (unfold last_day; repeat case_match; lia).
  change (20 <? 24)%nat with true. cbv iota. unfold result_bind.
  assert (Hge : forall a b, b <= a -> (a <? b) = false) by (intros; by apply Z.ltb_ge).
  rewrite !Hge by lia. simpl orb. cbv iota. rewrite Hok.
  simpl negb. cbv iota. f_equal. lia.
Qed.

Lemma format_canonical t :
  fits_s 64 t ->
  exists y m d tod, let day := t / ns_per_ms / ms_per_day in
    civil_from_days day = (y, m, d) /\ 0 <= y <= 9999 /\
    tod = t / ns_per_ms - day * ms_per_day /\ 0 <= tod < ms_per_day /\
    format_iso8601_utc t =
      canonical (pad 4 y) (pad 2 m) (pad 2 d) (pad 2 (tod / 3600000))
        (pad 2 (tod / 60000 mod 60)) (pad 2 (tod / 1000 mod 60)) (pad 3 (tod mod 1000)).
Proof.
  intros [Hl Hu]. unfold format_iso8601_utc. cbv zeta.
  set (day := t / ns_per_ms / ms_per_day).
  assert (Hday : -106752 <= day <= 106751)
    by (subst day; unfold ns_per_ms, ms_per_day; Z.to_euclidean_division_equations; lia).
  destruct (civil_from_days day) as [[y m] d] eqn:Hc. exists y, m, d.
  exists (t / ns_per_ms - day * ms_per_day).
  assert (Hy : 0 <= y <= 9999).
  { unfold civil_from_days in Hc. injection Hc as Hy _ _.
    set (doe := day + 719468 - (day + 719468) / 146097 * 146097) in *.
    assert (Hdoe : 0 <= doe < 146097) by (subst doe; Z.to_euclidean_division_equations; lia).
    assert (0 <= (day + 719468) / 146097 <= 6) by (Z.to_euclidean_division_equations; lia).
    fold (era_year doe) in Hy. pose proof (era_year_spec doe Hdoe) as [He _].
    destruct (_ <=? 2) in Hy; lia. }
  repeat split; try lia.
  - subst day. unfold ns_per_ms, ms_per_day. Z.to_euclidean_division_equations; lia.
  - subst day. unfold ns_per_ms, ms_per_day. Z.to_euclidean_division_equations; lia.
  - by rewrite (proj2 (Z.ltb_ge y 0)), (proj2 (Z.ltb_ge 9999 y)) by lia.
Qed.

(** ** Theorems *)

(** for every representable [Time], parsing its spelling gives the time back
    to the millisecond.  (The clamp of the year never applies: a 64-bit count of
    nanoseconds stays between the years 1677 and 2262.) *)
Theorem parse_format t :
  fits_s 64 t -> parse_iso8601_ms (format_iso8601_utc t) = Ok (t / ns_per_ms).
Proof.
  intros Ht. destruct (format_canonical t Ht) as (y & m & d & tod & Hc & Hy & Htod & Hb & ->).
  pose proof (civil_from_days_ok (t / ns_per_ms / ms_per_day)) as Hok. rewrite Hc in Hok.
  destruct Hok as [Hok Hinv]. assert (Hok' := Hok). unfold ymd_ok in Hok'. bool_prop.
  assert (last_day y m <= 31) by (unfold last_day; repeat case_match; lia).
  unfold ms_per_day in Hb.
  assert (0 <= tod / 3600000 <= 23 /\ 0 <= tod / 60000 mod 60 <= 59 /\
          0 <= tod / 1000 mod 60 <= 59 /\ 0 <= tod mod 1000 <= 999)
    by (Z.to_euclidean_division_equations; lia).
  rewrite parse_canonical; rewrite ?pad_length, ?all_digits_pad, ?parse_pad by (simpl; lia);
    try done; try lia.
  rewrite Hinv. f_equal.
  assert (tod / 3600000 * 3600000 + tod / 60000 mod 60 * 60000 + tod / 1000 mod 60 * 1000 +
          tod mod 1000 = tod) by (Z.to_euclidean_division_equations; lia).
  lia.
Qed.

Lemma parse_format_witness :
  fits_s 64 1752919384123456789 /\
  parse_iso8601_ms (format_iso8601_utc 1752919384123456789) =
    Ok (1752919384123456789 / ns_per_ms).
Proof.
  assert (H : fits_s 64 1752919384123456789) by (vm_compute; split; congruence).
  split; [exact H|exact (parse_format _ H)].
Defined.

(** The same through [Time]: what is lost is below the millisecond.  The second
    hypothesis only excludes the first 0.8 ms of the representable range. *)
Corollary parse_format_utc t :
  fits_s 64 t -> fits_s 64 (t / ns_per_ms * ns_per_ms) ->
  parse_iso8601_utc (format_iso8601_utc t) = Ok (t / ns_per_ms * ns_per_ms).
Proof.
  intros Ht Hms. unfold parse_iso8601_utc. rewrite parse_format by done. simpl.
  unfold time_of_ms. by rewrite wrap_s_id.
Qed.

(** What a successful parse of 24 bytes has checked. *)
Lemma parse_iso8601_ms_inv input ms :
  parse_iso8601_ms input = Ok ms -> length input = 24%nat ->
  exists y mo d h mi s f,
    input = canonical y mo d h mi s f /\
    length y = 4%nat /\ length mo = 2%nat /\ length d = 2%nat /\ length h = 2%nat /\
    length mi = 2%nat /\ length s = 2%nat /\ length f = 3%nat /\
    all_digits y = true /\ all_digits mo = true /\ all_digits d = true /\
    all_digits h = true /\ all_digits mi = true /\ all_digits s = true /\
    all_digits f = true /\
    parse_fixed_width h <= 23 /\ parse_fixed_width mi <= 59 /\ parse_fixed_width s <= 59 /\
    ymd_ok (parse_fixed_width y) (parse_fixed_width mo) (parse_fixed_width d) = true.
Proof.
  intros H Hlen.
  do 24 (destruct input as [|? input]; [discriminate Hlen|]). destruct input; [|discriminate Hlen].
  clear Hlen. unfold parse_iso8601_ms, parse_fraction in H. cbv zeta in H.
  unfold at_is, substr in H. cbn [length nth take drop Nat.sub] in H.
  simpl Nat.eqb in H. simpl Nat.ltb in H. simpl andb in H. cbv iota in H.
  ok_inv. match goal with H : context [(20 <? 24)%nat] |- _ =>
    change (20 <? 24)%nat with true in H; cbv iota in H; rename H into Hfrac end.
  ok_inv. bool_prop. subst.
  eexists [_; _; _; _], [_; _], [_; _], [_; _], [_; _], [_; _], [_; _; _].
  split; [reflexivity|]. repeat split; done.
Qed.

(** conversely, a 24-byte text the parser accepts is the spelling of the
    instant it denotes, wherever that instant is representable. *)
Theorem format_parse input ms :
  parse_iso8601_ms input = Ok ms -> length input = 24%nat -> fits_s 64 (ms * ns_per_ms) ->
  format_iso8601_utc (ms * ns_per_ms) = input.
Proof.
  intros Hp Hlen Hfit. assert (Hp' := Hp).
  apply parse_iso8601_ms_inv in Hp as (y & mo & d & h & mi & s & f & -> & Hy & Hmo & Hd & Hh &
    Hmi & Hs & Hf & Ay & Amo & Ad & Ah & Ami & As & Af & Bh & Bmi & Bs & Hok); [|done].
  rewrite parse_canonical in Hp' by done. injection Hp' as Hms.
  destruct (format_canonical _ Hfit) as (y' & m' & d' & tod & Hc & _ & Htod & _ & ->).
  pose proof (parse_bounds h Ah) as Ph. pose proof (parse_bounds mi Ami) as Pmi.
  pose proof (parse_bounds s As) as Ps. pose proof (parse_bounds f Af) as Pf.
  rewrite Hf in Pf. simpl in Pf. unfold ns_per_ms in *. rewrite Z.div_mul in * by lia.
  set (day := days_from_civil _ _ _) in *.
  assert (Hday : ms / ms_per_day = day)
    by (unfold ms_per_day in *; Z.to_euclidean_division_equations; lia).
  rewrite Hday in *. unfold day in Hc. rewrite days_from_civil_inv in Hc by done.
  injection Hc as <- <- <-.
  replace (tod / 3600000) with (parse_fixed_width h) by (Z.to_euclidean_division_equations; lia).
  replace (tod / 60000 mod 60) with (parse_fixed_width mi)
    by (Z.to_euclidean_division_equations; lia).
  replace (tod / 1000 mod 60) with (parse_fixed_width s)
    by (Z.to_euclidean_division_equations; lia).
  replace (tod mod 1000) with (parse_fixed_width f) by (Z.to_euclidean_division_equations; lia).
  pose proof (pad_parse y Ay) as Ey. pose proof (pad_parse mo Amo) as Emo.
  pose proof (pad_parse d Ad) as Ed. pose proof (pad_parse h Ah) as Eh.
  pose proof (pad_parse mi Ami) as Emi. pose proof (pad_parse s As) as Es.
  pose proof (pad_parse f Af) as Ef. congruence.
Qed.

Lemma format_parse_witness :
  format_iso8601_utc (1709208000500 * ns_per_ms) = lit "2024-02-29T12:00:00.500Z".
Proof.
  apply (format_parse (lit "2024-02-29T12:00:00.500Z") 1709208000500);
    [vm_compute; reflexivity|reflexivity|vm_compute; split; congruence].
Defined.

(** the parser accepts a timestamp whose instant no [Time] can hold, and the
    time it returns denotes another instant. *)
Theorem parse_accepts_unrepresentable :
  let input := lit "9999-12-31T23:59:59Z" in
  (exists ms, parse_iso8601_ms input = Ok ms /\ ~ fits_s 64 (ms * ns_per_ms)) /\
  (exists t, parse_iso8601_utc input = Ok t /\
    str (format_iso8601_utc t) = "1816-03-30T05:56:07.066Z"%string).
Proof.
  split.
  - eexists. split; [vm_compute; reflexivity|]. unfold fits_s. vm_compute. intros [_ H]. discriminate H.
  - eexists. split; [vm_compute; reflexivity|]. vm_compute. reflexivity.
Qed.
