(* ===== verification/Sse.v ===== *)
(** * oran-http: the incremental Server-Sent Events parser

    Models [SseParser] of [src/oran-http/_impl/sse_parser.hpp]: its state as a
    record, [feed] as a fold of the per-byte step, and the calls of [on_event] as
    the list of events a step emits.  The specification is a reference parser of
    whole lines: feeding is independent of how the transport cuts the stream, and
    a serialized event is read back. *)
From S2P Require Import Prelude.

(** [SseParserOptions]. *)
Record SseParserOptions := mkOptions { max_line_bytes : nat; max_event_bytes : nat }.
Definition default_options : SseParserOptions := mkOptions (64 * 1024) (16 * 1024 * 1024).

(** [SseEvent]. *)
Record SseEvent := mkEvent { ev_event : bytes; ev_data : bytes }.

(** [SseParser]'s members. *)
Record SseParser := mkParser {
  sse_exceeded : bool;
  sse_pending_line : bytes;
  sse_event_type : bytes;
  sse_data : bytes }.
Definition sse_init : SseParser := mkParser false [] [] [].

Definition newline : ascii := "010"%char.
Definition carriage_return : ascii := "013"%char.

(** [string_view::find] of a character, as the text before it and after it. *)
Fixpoint split_at_char (c : ascii) (s : bytes) : option (bytes * bytes) :=
  match s with
  | [] => None
  | d :: s' =>
      if decide (d = c) then Some ([], s')
      else (fun p => (d :: fst p, snd p)) <$> split_at_char c s'
  end.

Definition strip_leading_space (value : bytes) : bytes :=
  match value with
  | c :: value' => if decide (c = " "%char) then value' else value
  | [] => value
  end.

(** [field] and [value] of a line that is not a comment. *)
Definition split_field (line : bytes) : bytes * bytes :=
  match split_at_char ":"%char line with
  | Some (field, value) => (field, strip_leading_space value)
  | None => (line, [])
  end.

Section Parser.
Context (options : SseParserOptions).

Definition consume_field (p : SseParser) (line : bytes) : SseParser :=
  if sse_exceeded p then p
  else if decide (head line = Some ":"%char) then p
  else
    let '(field, value) := split_field line in
    if decide (field = lit "event") then
      mkParser (sse_exceeded p) (sse_pending_line p) value (sse_data p)
    else if decide (field = lit "data") then
      if max_event_bytes options <? length (sse_data p) + length value + 1
      then mkParser true (sse_pending_line p) (sse_event_type p) (sse_data p)
      else mkParser (sse_exceeded p) (sse_pending_line p) (sse_event_type p)
             (sse_data p ++ value ++ [newline])
    else p.

Definition dispatch (p : SseParser) : SseParser * list SseEvent :=
  if sse_exceeded p then (p, [])
  else if decide (sse_data p = []) then
    (mkParser (sse_exceeded p) (sse_pending_line p) [] (sse_data p), [])
  else
    let data := if decide (last (sse_data p) = Some newline)
                then removelast (sse_data p) else sse_data p in
    let event := if decide (sse_event_type p = []) then lit "message"
                 else sse_event_type p in
    (mkParser (sse_exceeded p) (sse_pending_line p) [] [], [mkEvent event data]).

(** The view of the pending line without its carriage return. *)
Definition trim_cr (line : bytes) : bytes :=
  if decide (last line = Some carriage_return) then removelast line else line.

(** What a newline does with the pending line. *)
Definition end_line (p : SseParser) : SseParser * list SseEvent :=
  let line := trim_cr (sse_pending_line p) in
  let '(p', events) :=
    match line with
    | [] => dispatch p
    | _ => (consume_field p line, [])
    end in
  (mkParser (sse_exceeded p') [] (sse_event_type p') (sse_data p'), events).

(** The loop.  [exceeded_] is tested on entry, and on the return that latches it
    inside the loop; a latch set by [consume_field] lets the loop run on. *)
Fixpoint feed_loop (p : SseParser) (chunk : bytes) : SseParser * list SseEvent :=
  match chunk with
  | [] => (p, [])
  | byte :: chunk' =>
      if decide (byte = newline) then
        let '(p', e1) := end_line p in
        let '(p'', e2) := feed_loop p' chunk' in (p'', e1 ++ e2)
      else if length (sse_pending_line p) <? max_line_bytes options
      then feed_loop (mkParser (sse_exceeded p) (sse_pending_line p ++ [byte])
             (sse_event_type p) (sse_data p)) chunk'
      else (mkParser true (sse_pending_line p) (sse_event_type p) (sse_data p), [])
  end.

Definition feed (p : SseParser) (chunk : bytes) : SseParser * list SseEvent :=
  if sse_exceeded p then (p, []) else feed_loop p chunk.

(** The transport's write callbacks, in order. *)
Fixpoint feed_all (p : SseParser) (chunks : list bytes) : SseParser * list SseEvent :=
  match chunks with
  | [] => (p, [])
  | chunk :: chunks' =>
      let '(p', e1) := feed p chunk in
      let '(p'', e2) := feed_all p' chunks' in (p'', e1 ++ e2)
  end.
End Parser.

(** ** Equivalence of parsers

    Once [exceeded] is latched nothing is reported any more, so the buffers of two
    exceeded parsers are not compared. *)
#[export] Instance sse_equiv : Equiv SseParser := fun p q =>
  sse_exceeded p = sse_exceeded q /\ (sse_exceeded p = false -> p = q).

#[export] Instance sse_equiv_equivalence : Equivalence (≡@{SseParser}).
Proof.
  split.
  - intros p. by split.
  - intros p q [He Hp]. split; [done|]. intros Hq. symmetry. apply Hp. congruence.
  - intros p q r [He Hp] [Hf Hq]. split; [congruence|]. intros H.
    rewrite Hp by done. apply Hq. congruence.
Qed.

Section Proofs.
Context (options : SseParserOptions).
#[local] Abbreviation feed := (feed options).
#[local] Abbreviation feed_loop := (feed_loop options).
#[local] Abbreviation feed_all := (feed_all options).
#[local] Abbreviation end_line := (end_line options).

Lemma end_line_exceeded p :
  sse_exceeded p = true -> exists p', end_line p = (p', []) /\ sse_exceeded p' = true.
Proof.
  intros H. unfold Sse.end_line, dispatch, consume_field. rewrite H.
  destruct (trim_cr (sse_pending_line p)); eauto.
Qed.

Lemma feed_loop_exceeded p chunk :
  sse_exceeded p = true -> exists p', feed_loop p chunk = (p', []) /\ sse_exceeded p' = true.
Proof.
  revert p. induction chunk as [|byte chunk IH]; intros p H; cbn [Sse.feed_loop]; [eauto|].
  case_decide.
  - destruct (end_line_exceeded p H) as (p' & -> & H').
    destruct (IH p' H') as (p'' & -> & H''). eauto.
  - destruct (_ <? _); [by apply IH|eauto].
Qed.

(** Cutting a chunk: the loop on the whole agrees with the loops on the parts. *)
Lemma feed_loop_app a : forall p b,
  let '(p1, e1) := feed_loop p a in
  let '(p2, e2) := feed p1 b in
  let '(q, e) := feed_loop p (a ++ b) in
  q ≡ p2 /\ e = e1 ++ e2.
Proof.
  induction a as [|byte a IH]; intros p b.
  - cbn [Sse.feed_loop app]. unfold Sse.feed. destruct (sse_exceeded p) eqn:Hx.
    + destruct (feed_loop_exceeded p b Hx) as (q & -> & Hq). simpl.
      split; [|done]. split; [congruence|]. rewrite Hq. done.
    + destruct (feed_loop p b). done.
  - cbn [Sse.feed_loop app]. case_decide.
    + destruct (end_line p) as [p' e0].
      specialize (IH p' b). destruct (feed_loop p' a) as [p1 e1].
      destruct (feed p1 b) as [p2 e2]. destruct (feed_loop p' (a ++ b)) as [q e].
      destruct IH as [Hq ->]. split; [done|]. by rewrite app_assoc.
    + destruct (_ <? _).
      * apply IH.
      * unfold Sse.feed. simpl. done.
Qed.

#[export] Instance feed_proper chunk :
  Proper (equiv ==> fun r1 r2 => r1.1 ≡ r2.1 /\ r1.2 = r2.2) (fun p => feed p chunk).
Proof.
  intros p q [He Hp]. destruct (sse_exceeded p) eqn:Hx.
  - unfold Sse.feed. rewrite Hx, <- He. simpl. split; [|done]. split; congruence.
  - by rewrite Hp.
Qed.

Lemma feed_all_proper chunks : forall p q,
  p ≡ q -> (feed_all p chunks).1 ≡ (feed_all q chunks).1 /\
           (feed_all p chunks).2 = (feed_all q chunks).2.
Proof.
  induction chunks as [|chunk chunks IH]; intros p q Hpq; cbn [Sse.feed_all]; [done|].
  pose proof (feed_proper chunk p q Hpq) as [H1 H2].
  destruct (feed p chunk) as [p' e1], (feed q chunk) as [q' e1']. simpl in *. subst.
  specialize (IH p' q' H1). destruct (feed_all p' chunks), (feed_all q' chunks).
  simpl in *. destruct IH as [? ->]. done.
Qed.
End Proofs.

(** chunk boundaries are transparent: however the transport cuts a stream,
    the parser reports the same events in the same order and, unless a bound was
    exceeded, ends in the same state. *)
Theorem feed_chunks options chunks :
  (feed_all options sse_init chunks).1 ≡ (feed options sse_init (concat chunks)).1 /\
  (feed_all options sse_init chunks).2 = (feed options sse_init (concat chunks)).2.
Proof.
  generalize sse_init. induction chunks as [|chunk chunks IH]; intros p; cbn [feed_all concat].
  { unfold feed. by destruct (sse_exceeded p). }
  destruct (feed options p chunk) as [p' e1] eqn:Hf. unfold feed in Hf |- *.
  destruct (sse_exceeded p) eqn:Hx.
  { injection Hf as <- <-. specialize (IH p). unfold feed in IH. rewrite Hx in IH.
    destruct (feed_all options p chunks) as [p'' e2]. simpl in *. destruct IH as [? ->]. done. }
  pose proof (feed_loop_app options chunk p (concat chunks)) as Happ. rewrite Hf in Happ.
  specialize (IH p'). destruct (feed_all options p' chunks) as [p'' e2].
  destruct (feed options p' (concat chunks)) as [p2 e2'].
  destruct (feed_loop options p (chunk ++ concat chunks)) as [q e].
  simpl in *. destruct IH as [IH ->], Happ as [Happ ->]. split; [|done].
  by rewrite IH, Happ.
Qed.

(** ** Bounded buffers *)
Definition within (options : SseParserOptions) (p : SseParser) : Prop :=
  length (sse_pending_line p) <= max_line_bytes options /\
  length (sse_data p) <= max_event_bytes options.

Lemma removelast_length {A} (l : list A) : length (removelast l) <= length l.
Proof. induction l as [|x [|y l] IH]; simpl in *; lia. Qed.

Lemma end_line_within options p p' events :
  within options p -> end_line options p = (p', events) ->
  within options p' /\ sse_pending_line p' = [] /\
  Forall (fun ev => length (ev_data ev) <= max_event_bytes options) events.
Proof.
  intros [Hl Hd] H. unfold end_line in H.
  destruct (trim_cr (sse_pending_line p)) as [|c line].
  - unfold dispatch in H. destruct (sse_exceeded p); [|case_decide as Hdata];
      simplify_eq/=; unfold within; simpl; repeat split; try lia; try by constructor.
    constructor; [|by constructor]. simpl. case_decide; [|lia].
    pose proof (removelast_length (sse_data p)). lia.
  - simplify_eq/=. unfold within, consume_field; simpl. split; [|by split].
    split; [lia|]. destruct (sse_exceeded p); [lia|]. case_decide; [lia|].
    destruct (split_field (c :: line)) as [field value].
    repeat case_decide; simpl; try lia.
    destruct (Nat.ltb_spec (max_event_bytes options) (length (sse_data p) + length value + 1));
      simpl; [lia|]. rewrite !length_app. simpl. lia.
Qed.

Lemma feed_loop_within options chunk : forall p p' events,
  within options p -> feed_loop options p chunk = (p', events) ->
  within options p' /\
  Forall (fun ev => length (ev_data ev) <= max_event_bytes options) events.
Proof.
  induction chunk as [|byte chunk IH]; intros p p' events Hw H; cbn [feed_loop] in H.
  { simplify_eq. by split; [|constructor]. }
  case_decide.
  - destruct (end_line options p) as [q e1] eqn:He.
    apply end_line_within in He as (Hq & _ & He1); [|done].
    destruct (feed_loop options q chunk) as [q' e2] eqn:Hf. apply IH in Hf as [? ?]; [|done].
    simplify_eq. split; [done|]. by apply Forall_app.
  - destruct Hw as [Hl Hd]. destruct (Nat.ltb_spec (length (sse_pending_line p)) (max_line_bytes options)).
    + apply IH in H; [done|]. split; simpl; [rewrite length_app; simpl; lia|done].
    + simplify_eq. split; [by split|by constructor].
Qed.

(** whatever bytes arrive, the line and event buffers stay within the bounds
    and no reported event is larger than the event bound. *)
Theorem feed_all_bounded options chunks :
  within options (feed_all options sse_init chunks).1 /\
  Forall (fun ev => length (ev_data ev) <= max_event_bytes options)
    (feed_all options sse_init chunks).2.
Proof.
  assert (Hi : within options sse_init) by (split; simpl; lia).
  revert Hi. generalize sse_init. induction chunks as [|chunk chunks IH]; intros p Hp; simpl.
  { by split; [|constructor]. }
  destruct (feed options p chunk) as [p' e1] eqn:Hf.
  assert (within options p' /\
    Forall (fun ev => length (ev_data ev) <= max_event_bytes options) e1) as [Hp' He1].
  { unfold feed in Hf. destruct (sse_exceeded p); [|by eapply feed_loop_within].
    simplify_eq. by split; [|constructor]. }
  specialize (IH p' Hp'). destruct (feed_all options p' chunks) as [q e2]. simpl in *.
  destruct IH as [? ?]. split; [done|]. by apply Forall_app.
Qed.

(** ** Reading back a serialized event *)
Definition encode_line (field value : bytes) : bytes := field ++ lit ": " ++ value ++ [newline].
(** An event with its type and the lines of its data, as a server writes it. *)
Definition encode_event (event : bytes) (lines : list bytes) : bytes :=
  encode_line (lit "event") event ++
  concat (map (encode_line (lit "data")) lines) ++ [newline].

(** The lines joined by newlines, as the parser reports them. *)
Definition joined (lines : list bytes) : bytes :=
  removelast (concat (map (fun l => l ++ [newline]) lines)).

(** A field value that can be written on one line. *)
Definition plain (max : nat) (value : bytes) : Prop :=
  newline ∉ value /\ last value <> Some carriage_return /\ length value + 7 <= max.

#[export] Instance plain_dec max value : Decision (plain max value).
Proof. unfold plain. apply _. Defined.

Lemma feed_loop_line options line : forall pre ty d rest,
  newline ∉ line -> length (pre ++ line) <= max_line_bytes options ->
  feed_loop options (mkParser false pre ty d) (line ++ newline :: rest) =
  let '(p', e1) := end_line options (mkParser false (pre ++ line) ty d) in
  let '(p'', e2) := feed_loop options p' rest in (p'', e1 ++ e2).
Proof.
  induction line as [|c line IH]; intros pre ty d rest Hn Hl; cbn [feed_loop app].
  - rewrite decide_True by done. by rewrite app_nil_r.
  - rewrite not_elem_of_cons in Hn. destruct Hn as [Hc Hn].
    rewrite decide_False by done. rewrite length_app in Hl. simpl in Hl.
    rewrite (proj2 (Nat.ltb_lt _ _)) by (simpl; lia). simpl sse_pending_line.
    rewrite IH by (done || (rewrite !length_app; simpl; lia)). by rewrite <- app_assoc.
Qed.

Lemma last_app_some {A} (l1 l2 : list A) x : last l2 = Some x -> last (l1 ++ l2) = Some x.
Proof. intros H. by rewrite last_app, H. Qed.

(** One encoded field is one call of [consume_field] on its name and value. *)
Lemma feed_loop_field options field value ty d rest :
  field = lit "event" \/ field = lit "data" ->
  plain (max_line_bytes options) value ->
  feed_loop options (mkParser false [] ty d) (encode_line field value ++ rest) =
  feed_loop options
    (if decide (field = lit "event") then mkParser false [] value d
     else if max_event_bytes options <? length d + length value + 1
     then mkParser true [] ty d else mkParser false [] ty (d ++ value ++ [newline])) rest.
Proof.
  intros Hf (Hn & Hcr & Hl).
  assert (Hline : encode_line field value ++ rest =
    (field ++ lit ": " ++ value) ++ newline :: rest)
    by (unfold encode_line; by rewrite <- !app_assoc).
  rewrite Hline, feed_loop_line; cycle 1.
  { assert (newline ∉ lit ": " /\ newline ∉ lit "event" /\ newline ∉ lit "data")
      as (H1 & H2 & H3) by (repeat split; apply (bool_decide_unpack _); by vm_compute).
    rewrite !elem_of_app. destruct Hf as [->| ->]; tauto. }
  { rewrite !length_app. destruct Hf as [->| ->]; simpl; lia. }
  unfold end_line. rewrite app_nil_l. cbn [sse_pending_line].
  assert (Ht : trim_cr (field ++ lit ": " ++ value) = field ++ lit ": " ++ value).
  { unfold trim_cr. rewrite decide_False; [done|]. rewrite !last_app.
    destruct (last value); [done|]. simpl. by intros [=]. }
  rewrite Ht.
  assert (Hs : split_field (field ++ lit ": " ++ value) = (field, value))
    by (destruct Hf as [->| ->]; reflexivity).
  assert (Hc : consume_field options (mkParser false (field ++ lit ": " ++ value) ty d)
      (field ++ lit ": " ++ value) =
    (if decide (field = lit "event")
     then mkParser false (field ++ lit ": " ++ value) value d
     else if max_event_bytes options <? length d + length value + 1
     then mkParser true (field ++ lit ": " ++ value) ty d
     else mkParser false (field ++ lit ": " ++ value) ty (d ++ value ++ [newline]))).
  { unfold consume_field. rewrite Hs. destruct Hf as [->| ->]; reflexivity. }
  rewrite Hc. destruct (field ++ lit ": " ++ value) eqn:E;
    [destruct Hf as [->| ->]; discriminate E|].
  case_decide; [|destruct (_ <? _)]; simpl;
    by match goal with |- context [feed_loop options ?q rest] => destruct (feed_loop options q rest) end.
Qed.

Lemma feed_loop_data options ty lines : forall d rest,
  Forall (plain (max_line_bytes options)) lines ->
  length (d ++ concat (map (fun l => l ++ [newline]) lines)) <= max_event_bytes options ->
  feed_loop options (mkParser false [] ty d)
    (concat (map (encode_line (lit "data")) lines) ++ rest) =
  feed_loop options
    (mkParser false [] ty (d ++ concat (map (fun l => l ++ [newline]) lines))) rest.
Proof.
  induction lines as [|line lines IH]; intros d rest Hp Hl.
  { by rewrite app_nil_r. }
  apply Forall_cons in Hp as [Hline Hp]. cbn [map concat] in *. rewrite <- app_assoc.
  rewrite feed_loop_field by (done || by right). rewrite decide_False by done.
  rewrite !length_app in Hl. simpl in Hl.
  rewrite (proj2 (Nat.ltb_ge _ _)) by lia.
  rewrite IH; [by rewrite <- !app_assoc|done|].
  rewrite !length_app. simpl. lia.
Qed.

(** an event whose type and data lines are plain text within the bounds is
    read back exactly, and the parser is left as it started. *)
Theorem feed_encode_event options event lines :
  event <> [] -> lines <> [] ->
  plain (max_line_bytes options) event -> Forall (plain (max_line_bytes options)) lines ->
  length (concat (map (fun l => l ++ [newline]) lines)) <= max_event_bytes options ->
  feed options sse_init (encode_event event lines) =
    (sse_init, [mkEvent event (joined lines)]).
Proof.
  intros He Hlines Hpe Hpl Hbound. unfold feed, encode_event. simpl sse_exceeded. cbv iota.
  unfold sse_init at 1. rewrite feed_loop_field by (done || by left).
  rewrite decide_True by done. rewrite feed_loop_data by done.
  cbn [app feed_loop]. rewrite decide_True by done. unfold end_line, dispatch. simpl.
  destruct lines as [|line lines]; [done|]. clear Hlines.
  set (data := concat _).
  assert (Hlast : last data = Some newline).
  { unfold data. clear. revert line. induction lines as [|l lines IH]; intros line; simpl.
    - by rewrite app_nil_r, last_snoc.
    - apply last_app_some. apply IH. }
  rewrite (decide_False (P := data = [])) by (intros Hd; by rewrite Hd in Hlast).
  rewrite (decide_True (P := last data = Some newline)) by done.
  by rewrite (decide_False (P := event = [])) by done.
Qed.

Definition small_options : SseParserOptions := mkOptions 64 64.

Lemma feed_encode_event_witness :
  feed small_options sse_init
    (encode_event (lit "content_block_delta") [lit "{type:"; lit " text}"]) =
  (sse_init, [mkEvent (lit "content_block_delta") (joined [lit "{type:"; lit " text}"])]).
Proof.
  apply (feed_encode_event small_options); try done;
    apply (bool_decide_unpack _); vm_compute; exact I.
Defined.
