(* ===== verification/Json.v ===== *)
(** * JSON values

    The values of [nlohmann::json] as the program uses them.  An object is the
    association list of its entries in key order (the library keeps a
    [std::map]); a floating-point number is its binary64 bit pattern, which the
    program never computes with.  The library's reader and writer are not part
    of the repository: the components that call them take them as parameters
    of the types given here. *)
From S2P Require Import Prelude.

#[warnings="-register-all"]
Inductive json :=
  | JNull
  | JBool (b : bool)
  | JInt (z : Z)
  | JFloat (bits : Z)
  | JString (s : string)
  | JArray (l : list json)
  | JObject (m : list (string * json)).

(** What [json::parse] does: a value, a [json::exception] with its [what()],
    or another [std::exception]. *)
Inductive ParseOutcome :=
  | Parsed (v : json)
  | ParseFailed (what : string)
  | ParseThrew (what : string).

Definition JsonReader := string -> ParseOutcome.
Definition JsonWriter := json -> string.

(** ** Kinds and access *)
Definition is_object (j : json) : bool := match j with JObject _ => true | _ => false end.
Definition is_array (j : json) : bool := match j with JArray _ => true | _ => false end.
Definition is_string (j : json) : bool := match j with JString _ => true | _ => false end.
Definition is_boolean (j : json) : bool := match j with JBool _ => true | _ => false end.
Definition is_number (j : json) : bool :=
  match j with JInt _ | JFloat _ => true | _ => false end.
Definition is_null (j : json) : bool := match j with JNull => true | _ => false end.

(** [value.empty()]: null and the empty containers. *)
Definition jempty (j : json) : bool :=
  match j with
  | JNull => true
  | JArray l => match l with [] => true | _ => false end
  | JObject m => match m with [] => true | _ => false end
  | _ => false
  end.

Fixpoint assoc {A} (k : string) (m : list (string * A)) : option A :=
  match m with
  | [] => None
  | (k', v) :: m => if decide (k = k') then Some v else assoc k m
  end.

(** [it = value.find(key)] on an object; [end()] on any other kind. *)
Definition jfind (j : json) (k : string) : option json :=
  match j with JObject m => assoc k m | _ => None end.

Definition jcontains (j : json) (k : string) : bool :=
  match jfind j k with Some _ => true | None => false end.

(** [std::string::compare] of two keys, by unsigned byte. *)
Fixpoint bytes_lt (a b : bytes) : bool :=
  match a, b with
  | [], [] => false
  | [], _ :: _ => true
  | _ :: _, [] => false
  | x :: a, y :: b =>
      if (code x <? code y)%Z then true
      else if (code y <? code x)%Z then false else bytes_lt a b
  end.

(** [value[key] = v]: insertion into the ordered map. *)
Fixpoint assoc_set {A} (k : string) (v : A) (m : list (string * A)) : list (string * A) :=
  match m with
  | [] => [(k, v)]
  | (k', v') :: m' =>
      if decide (k = k') then (k, v) :: m'
      else if bytes_lt (lit k) (lit k') then (k, v) :: m
      else (k', v') :: assoc_set k v m'
  end.

Definition jset (j : json) (k : string) (v : json) : json :=
  match j with JObject m => JObject (assoc_set k v m) | _ => j end.

(** The initializer list [{{k1, v1}, ...}] of an object. *)
Definition jobject (l : list (string * json)) : json :=
  fold_left (fun j p => jset j (fst p) (snd p)) l (JObject []).

(** ** Numbers *)
(** The [double] of a bit pattern. *)
Definition double_of_bits (bits : Z) : double :=
  let s := Z.testbit bits 63 in
  let e := Z.land (Z.shiftr bits 52) 2047 in
  let f := Z.land bits (2 ^ 52 - 1) in
  let finite m e := match m with Z.pos m => SpecFloat.S754_finite s m e | _ => SpecFloat.S754_zero s end in
  if (e =? 2047)%Z then if (f =? 0)%Z then SpecFloat.S754_infinity s else SpecFloat.S754_nan
  else if (e =? 0)%Z then finite f (-1074)%Z
  else finite (f + 2 ^ 52)%Z (e - 1075)%Z.

(** Its value without the fraction. *)
Definition truncated (d : double) : Z :=
  match d with
  | SpecFloat.S754_finite s m e =>
      let v := if (0 <=? e)%Z then (Z.pos m * 2 ^ e)%Z else (Z.pos m / 2 ^ (- e))%Z in
      if s then (- v)%Z else v
  | _ => 0%Z
  end.

(** ** Induction and size *)
Section Induction.
Variable P : json -> Prop.
Hypothesis Hnull : P JNull.
Hypothesis Hbool : forall b, P (JBool b).
Hypothesis Hint : forall z, P (JInt z).
Hypothesis Hfloat : forall z, P (JFloat z).
Hypothesis Hstring : forall s, P (JString s).
Hypothesis Harray : forall l, Forall P l -> P (JArray l).
Hypothesis Hobject : forall m, Forall (fun p => P (snd p)) m -> P (JObject m).

(** Induction through the nested lists. *)
Definition json_rect_nested : forall j, P j :=
  fix go j := match j with
  | JNull => Hnull
  | JBool b => Hbool b
  | JInt z => Hint z
  | JFloat z => Hfloat z
  | JString s => Hstring s
  | JArray l => Harray l ((fix each l := match l return Forall P l with
      | [] => Forall_nil_2 _
      | x :: l => Forall_cons_2 _ _ _ (go x) (each l) end) l)
  | JObject m => Hobject m ((fix each m := match m return Forall (fun p => P (snd p)) m with
      | [] => Forall_nil_2 _
      | p :: m => Forall_cons_2 _ p _ (go (snd p)) (each m) end) m)
  end.
End Induction.

Fixpoint json_size (j : json) : nat :=
  match j with
  | JArray l => S (list_sum (map json_size l))
  | JObject m => S (list_sum (map (fun p => json_size (snd p)) m))
  | _ => 1
  end.

Lemma json_size_pos j : 0 < json_size j.
Proof. destruct j; simpl; lia. Qed.

Lemma assoc_in {A} k (m : list (string * A)) v : assoc k m = Some v -> In (k, v) m.
Proof.
  induction m as [|[k' v'] m IH]; simpl; [discriminate|].
  case_decide; intros H'; simplify_eq/=; auto.
Qed.

Lemma assoc_none {A} k (m : list (string * A)) :
  assoc k m = None <-> forall v, ~ In (k, v) m.
Proof.
  induction m as [|[k' v'] m IH]; simpl; [split; naive_solver|].
  case_decide; split; intros H'.
  - discriminate.
  - exfalso. apply (H' v'). left. congruence.
  - intros v [?|Hin]; [congruence|]. by apply IH in Hin.
  - apply IH. intros v Hin. apply (H' v). auto.
Qed.

(** [operator[]] followed by a lookup. *)
Lemma assoc_set_spec {A} k (v : A) m k' :
  assoc k' (assoc_set k v m) = if decide (k' = k) then Some v else assoc k' m.
Proof.
  induction m as [|[k0 v0] m IH]; simpl; [done|].
  repeat (case_decide || case_match || simpl); simplify_eq; rewrite ?IH; repeat case_decide; congruence.
Qed.

Lemma jset_find m k v k' :
  jfind (jset (JObject m) k v) k' = if decide (k' = k) then Some v else jfind (JObject m) k'.
Proof. apply assoc_set_spec. Qed.

Lemma size_in m p : In p m -> json_size (snd p) < json_size (JObject m).
Proof.
  simpl. induction m as [|q m IH]; simpl; [done|].
  intros [->|Hin]; [lia|]. specialize (IH Hin). lia.
Qed.

(** A value stored in an object is smaller than the object. *)
Lemma jfind_size j k v : jfind j k = Some v -> json_size v < json_size j.
Proof.
  destruct j; try discriminate. intros H. apply assoc_in in H. by apply (size_in _ (k, v)).
Qed.
#[export] Hint Resolve jfind_size json_size_pos : oran.
