(* ===== verification/OrderedJson.v ===== *)
(** * JSON documents of the provider protocols

    The provider components use [nlohmann::ordered_json]: an object keeps its
    entries in the order in which they were first inserted.  The library's reader
    and writer are the operations of the typeclass [JsonLibrary]; [JsonLibraryLaws]
    states what their documentation promises and the protocol code relies on.
    Both can raise exceptions, so operations that call them return [Exc]: an
    [expected], or nothing when an exception leaves the function. *)
From stdpp Require Import countable.
From S2P Require Import Prelude.
From S2P Require Import Json.

(** ** Ordered objects *)
(** [object[key] = v] of [ordered_map]: overwrite in place, or append. *)
Fixpoint ordered_set (k : string) (v : json) (m : list (string * json)) : list (string * json) :=
  match m with
  | [] => [(k, v)]
  | (k', v') :: m => if decide (k = k') then (k, v) :: m else (k', v') :: ordered_set k v m
  end.

(** [body[key] = v] on an object. *)
Definition oset (j : json) (k : string) (v : json) : json :=
  match j with JObject m => JObject (ordered_set k v m) | _ => j end.

(** The [member] helper of the protocol sources: the entry of an object, or null. *)
Definition member (object : json) (key : string) : option json := jfind object key.

(** [string_or_empty] of the stream decoders. *)
Definition string_or_empty (object : json) (key : string) : string :=
  match member object key with Some (JString s) => s | _ => ""%string end.

Lemma ordered_set_spec k v m k' :
  assoc k' (ordered_set k v m) = if decide (k' = k) then Some v else assoc k' m.
Proof.
  induction m as [|[k0 v0] m IH]; simpl; [done|].
  repeat (case_decide || simpl); simplify_eq; rewrite ?IH; repeat case_decide; congruence.
Qed.

Lemma oset_member m k v k' :
  member (oset (JObject m) k v) k' = if decide (k' = k) then Some v else member (JObject m) k'.
Proof. apply ordered_set_spec. Qed.

(** A new key is appended, and the other entries keep their order. *)
Lemma ordered_set_new k v m : assoc k m = None -> ordered_set k v m = m ++ [(k, v)].
Proof.
  induction m as [|[k0 v0] m IH]; simpl; [done|]. case_decide; [done|]. intros Hk. by rewrite IH.
Qed.

Lemma ordered_set_keys k v m :
  map fst (ordered_set k v m) =
    if decide (assoc k m = None) then map fst m ++ [k] else map fst m.
Proof.
  induction m as [|[k0 v0] m IH]; simpl; [done|].
  destruct (decide (k = k0)) as [->|]; simpl; [done|]. rewrite IH. by case_decide.
Qed.

(** ** Documents *)
(** A value that the reader can produce: distinct keys, integers that fit 64 bits
    and finite numbers. *)
Fixpoint representable (j : json) : bool :=
  match j with
  | JInt z => (- 2 ^ 63 <=? z)%Z && (z <? 2 ^ 64)%Z
  | JFloat bits => negb (Z.eqb (Z.land (Z.shiftr bits 52) 2047) 2047)
  | JArray l => forallb representable l
  | JObject m => bool_decide (NoDup (map fst m)) && forallb (fun p => representable (snd p)) m
  | _ => true
  end.

Lemma representable_member j k v :
  representable j = true -> member j k = Some v -> representable v = true.
Proof.
  destruct j as [| | | | | |m]; try discriminate. simpl. intros [_ H]%andb_true_iff Hm.
  apply assoc_in in Hm. rewrite forallb_forall in H. apply (H _ Hm).
Qed.

Lemma representable_element l v : representable (JArray l) = true -> In v l -> representable v = true.
Proof. simpl. rewrite forallb_forall. auto. Qed.
#[export] Hint Resolve representable_member representable_element : oran.

(** The values that occur inside a value. *)
Inductive part (v : json) : json -> Prop :=
  | part_self : part v v
  | part_element l x : In x l -> part v x -> part v (JArray l)
  | part_member m k x : In (k, x) m -> part v x -> part v (JObject m).

Lemma member_part j k v w : member j k = Some v -> part w v -> part w j.
Proof.
  destruct j as [| | | | | |m]; try discriminate. intros Hm. apply assoc_in in Hm.
  by econstructor.
Qed.
Lemma part_representable v j : part v j -> representable j = true -> representable v = true.
Proof.
  induction 1 as [|l x Hin _ IH|m k x Hin _ IH]; [done|..].
  - intros Hr. apply IH. by apply (representable_element l).
  - simpl. intros [_ Hr]%andb_true_iff. apply IH. rewrite forallb_forall in Hr. apply (Hr _ Hin).
Qed.
Lemma part_trans a b c : part a b -> part b c -> part a c.
Proof. intros Ha. induction 1; eauto using part_element, part_member. Qed.
#[export] Hint Constructors part : oran.
#[export] Hint Resolve member_part : oran.

(** What [json::parse] does: a value, a [parse_error] or [type_error] with its
    [what()], or an exception of another class (a number out of range, no memory). *)
Inductive Document := Doc (v : json) | Malformed (what : string) | DocThrew.

(** The reader and the writer; the writer raises on text that is not UTF-8. *)
Class JsonLibrary := { json_parse : string -> Document; json_dump : json -> option string }.

Class JsonLibraryLaws `{JsonLibrary} := {
  parse_dump : forall j s, representable j = true -> json_dump j = Some s -> json_parse s = Doc j;
  parse_representable : forall s j, json_parse s = Doc j -> representable j = true;
  parse_dumps : forall s j v, json_parse s = Doc j -> part v j -> is_Some (json_dump v) }.

(** ** Operations that may raise *)
Definition Exc (A : Type) := option (Result A).
Definition exc_bind {A B} (x : Exc A) (f : A -> Exc B) : Exc B :=
  match x with
  | Some (Ok a) => f a
  | Some (Err e) => Some (Err e)
  | None => None
  end.
Definition raise {A} : Exc A := None.
Notation "'let%' x := r 'in' k" :=
  (exc_bind r (fun x => k))
  (at level 10, x pattern, r at level 100, k at level 200) : oran_scope.

(** [std::unexpected(std::move(r).error().with(...))]. *)
Definition map_error {A} (f : Error -> Error) (x : Exc A) : Exc A :=
  match x with Some (Err e) => Some (Err (f e)) | _ => x end.

Lemma exc_bind_ok {A B} (x : Exc A) (f : A -> Exc B) b :
  exc_bind x f = Some (Ok b) <-> exists a, x = Some (Ok a) /\ f a = Some (Ok b).
Proof. destruct x as [[a|e]|]; simpl; split; naive_solver. Qed.

Lemma map_error_ok {A} f (x : Exc A) a : map_error f x = Some (Ok a) <-> x = Some (Ok a).
Proof. destruct x as [[?|?]|]; simpl; split; naive_solver. Qed.

(** A loop that appends the encoding of each element, stopping at the first failure. *)
Fixpoint exc_map {A B} (f : A -> Exc B) (l : list A) : Exc (list B) :=
  match l with
  | [] => Some (Ok [])
  | x :: l => let% y := f x in let% ys := exc_map f l in Some (Ok (y :: ys))
  end.

Lemma exc_map_ok {A B} (f : A -> Exc B) l ys :
  exc_map f l = Some (Ok ys) <-> Forall2 (fun x y => f x = Some (Ok y)) l ys.
Proof.
  revert ys. induction l as [|x l IH]; intros ys; simpl.
  - split; [intros [= <-]; constructor|]. by inversion 1.
  - rewrite exc_bind_ok. split.
    + intros (y & Hy & Hl). apply exc_bind_ok in Hl as (ys' & Hl & [= <-]).
      constructor; [done|]. by apply IH.
    + inversion 1 as [|? y ? ys' Hy Hl]; subst. exists y. split; [done|].
      apply IH in Hl. by rewrite Hl.
Qed.

(** ** A library of documents

    An instance of the interface: a document is the decimal number of its value
    under an encoding, and the empty object also reads from [{}]. *)
Module Sample.
Local Abbreviation tree := (gen_tree (bool + (Z + (Z + string)))).

Fixpoint to_tree (j : json) : tree :=
  match j with
  | JNull => GenNode 0 []
  | JBool b => GenLeaf (inl b)
  | JInt z => GenLeaf (inr (inl z))
  | JFloat z => GenLeaf (inr (inr (inl z)))
  | JString s => GenLeaf (inr (inr (inr s)))
  | JArray l => GenNode 1 (map to_tree l)
  | JObject m => GenNode 2 (map (fun p => GenNode 3 [GenLeaf (inr (inr (inr (fst p)))); to_tree (snd p)]) m)
  end.

Fixpoint from_tree (t : tree) : json :=
  match t with
  | GenLeaf (inl b) => JBool b
  | GenLeaf (inr (inl z)) => JInt z
  | GenLeaf (inr (inr (inl z))) => JFloat z
  | GenLeaf (inr (inr (inr s))) => JString s
  | GenNode 1 l => JArray (map from_tree l)
  | GenNode 2 l => JObject (map (fun t => match t with
      | GenNode _ [GenLeaf (inr (inr (inr k))); v] => (k, from_tree v)
      | _ => (""%string, JNull) end) l)
  | GenNode _ _ => JNull
  end.

Lemma from_to_tree j : from_tree (to_tree j) = j.
Proof.
  induction j as [| | | | |l IH|m IH] using json_rect_nested; simpl; try done; f_equal;
    rewrite map_map; induction IH as [|x l Hx _ IHl]; simpl; try done.
  - by rewrite Hx, IHl.
  - rewrite Hx, IHl. by destruct x.
Qed.

#[export] Instance json_eq_dec : EqDecision json.
Proof.
  intros a b. destruct (decide (to_tree a = to_tree b)) as [H|H]; [left|right].
  - by rewrite <- (from_to_tree a), H, from_to_tree.
  - by intros ->.
Defined.
#[export] Instance json_countable : Countable json :=
  inj_countable' to_tree from_tree from_to_tree.

(** The digits of a positive number, least significant first. *)
Fixpoint digits_of (p : positive) : string :=
  match p with
  | xH => "."
  | xO p => String "0" (digits_of p)
  | xI p => String "1" (digits_of p)
  end.
Fixpoint number_of (s : string) : option positive :=
  match s with
  | String "." EmptyString => Some xH
  | String "0" s => xO <$> number_of s
  | String "1" s => xI <$> number_of s
  | _ => None
  end.
Lemma number_of_digits p : number_of (digits_of p) = Some p.
Proof. induction p as [p IH|p IH|]; simpl; [by rewrite IH..|done]. Qed.

#[export] Instance sample_library : JsonLibrary := {
  json_parse s :=
    if decide (s = "{}"%string) then Doc (JObject [])
    else match number_of s with
         | Some p =>
             match decode p with
             | Some j => if representable j then Doc j else DocThrew
             | None => Malformed "number"
             end
         | None => Malformed "digit"
         end;
  json_dump j := Some (digits_of (encode j)) }.

#[export] Instance sample_laws : JsonLibraryLaws.
Proof.
  split.
  - intros j s Hr [= <-]. simpl. rewrite decide_False by (by destruct (encode j)).
    by rewrite number_of_digits, decode_encode, Hr.
  - intros s j. simpl. case_decide; [by intros [= <-]|].
    destruct (number_of s); [|done]. destruct (decode p) as [j'|]; [|done].
    destruct (representable j') eqn:Hr; [|done]. by intros [= <-].
  - intros. by eexists.
Qed.

(** The text of a document. *)
Definition text (j : json) : string := default ""%string (json_dump j).
End Sample.

(** ** Failures *)
Lemma exc_bind_err {A B} (x : Exc A) (f : A -> Exc B) e :
  exc_bind x f = Some (Err e) <-> x = Some (Err e) \/ exists a, x = Some (Ok a) /\ f a = Some (Err e).
Proof. destruct x as [[a|e']|]; simpl; split; naive_solver. Qed.

(** Every error of an operation satisfies [P]. *)
Definition fails_with {A} (P : Error -> Prop) (x : Exc A) : Prop :=
  match x with Some (Err e) => P e | _ => True end.

Lemma fails_bind {A B} P (x : Exc A) (f : A -> Exc B) :
  fails_with P x -> (forall a, fails_with P (f a)) -> fails_with P (exc_bind x f).
Proof. destruct x as [[a|e]|]; simpl; auto. Qed.

Lemma fails_map {A} (P : Error -> Prop) f (x : Exc A) :
  fails_with P x -> (forall e, P e -> P (f e)) -> fails_with P (map_error f x).
Proof. destruct x as [[a|e]|]; simpl; auto. Qed.

Lemma fails_exc_map {A B} P (f : A -> Exc B) l :
  (forall a, fails_with P (f a)) -> fails_with P (exc_map f l).
Proof.
  intros Hf. induction l as [|x l IH]; simpl; [done|].
  apply fails_bind; [done|]. intros y. apply fails_bind; [done|]. done.
Qed.
#[export] Hint Resolve fails_bind fails_map fails_exc_map : oran.
