(* ===== verification/Schema.v ===== *)
(** * Tool input-schema checks

    [validate_input_schema] (src/oran-tool/schema_validation.cpp) is the gate
    every tool passes before it enters a registry.  The recursion on the schema
    is a fuelled function; [validate_fuel] shows that the size of the schema is
    enough fuel, and [SchemaOk] is the declarative description of the schemas
    the walk accepts. *)
From S2P Require Import Prelude Core Json.

Definition kJsonSchemaTypes : list string :=
  ["array"; "boolean"; "integer"; "null"; "number"; "object"; "string"]%string.

Definition schema_error (message tool path : string) : Error :=
  Errors.with_ctx (Errors.with_ctx (Errors.invalid_argument message) "tool" tool)
    "schema_path" path.

Definition child_path (base child : string) : string :=
  if bool_decide (base = ""%string) || bool_decide (base = "$"%string)
  then "$." +:+ child
  else base +:+ "." +:+ child.

Definition element_path (base : string) (index : nat) : string :=
  base +:+ "[" +:+ pretty index +:+ "]".

Definition is_known_schema_type (value : string) : bool :=
  bool_decide (value ∈ kJsonSchemaTypes).

(** One entry of a [type] array. *)
Definition type_entry (tool path : string) (i : nat) (v : json) : Result unit :=
  let item_path := element_path path i in
  match v with
  | JString type =>
      fail? negb (is_known_schema_type type) with
        Errors.with_ctx (schema_error "tool input_schema_json has an unknown JSON Schema type"
                           tool item_path) "value" type;
      Ok tt
  | _ => Err (schema_error "tool input_schema_json `type` array entries must be strings"
                tool item_path)
  end.

(** [for (std::size_t i = 0; i < value.size(); ++i)] with early return. *)
Fixpoint each_indexed (f : nat -> json -> Result unit) (i : nat) (l : list json) : Result unit :=
  match l with
  | [] => Ok tt
  | v :: l => let? _ := f i v in each_indexed f (S i) l
  end.

Definition validate_schema_type (value : json) (tool path : string) : Result unit :=
  match value with
  | JString type =>
      fail? negb (is_known_schema_type type) with
        Errors.with_ctx (schema_error "tool input_schema_json has an unknown JSON Schema type"
                           tool path) "value" type;
      Ok tt
  | JArray ((_ :: _) as l) => each_indexed (type_entry tool path) 0 l
  | _ => Err (schema_error
        "tool input_schema_json `type` must be a string or a non-empty string array" tool path)
  end.

(** One entry of [required]. *)
Definition required_entry (properties : option json) (tool path : string)
    (i : nat) (v : json) : Result unit :=
  let item_path := element_path path i in
  match v with
  | JString name =>
      fail? bool_decide (name = ""%string) with
        schema_error "tool input_schema_json `required` entries must be non-empty" tool item_path;
      fail? match properties with
            | Some p => is_object p && negb (jcontains p name)
            | None => false
            end with
        Errors.with_ctx (schema_error
          "tool input_schema_json `required` entry is not declared in `properties`" tool item_path)
          "property" name;
      Ok tt
  | _ => Err (schema_error "tool input_schema_json `required` entries must be strings"
                tool item_path)
  end.

Definition validate_required (required : json) (properties : option json)
    (tool path : string) : Result unit :=
  match required with
  | JArray l => each_indexed (required_entry properties tool path) 0 l
  | _ => Err (schema_error "tool input_schema_json `required` must be an array" tool path)
  end.

(** The body of the loop of [validate_properties], on the entries left. *)
Fixpoint properties_loop (node : json -> string -> Result unit) (tool path : string)
    (m : list (string * json)) : Result unit :=
  match m with
  | [] => Ok tt
  | (name, property_schema) :: m =>
      fail? bool_decide (name = ""%string) with
        schema_error "tool input_schema_json property names must be non-empty" tool
          (child_path path name);
      let? _ := node property_schema (child_path path name) in
      properties_loop node tool path m
  end.

Definition validate_properties (node : json -> string -> Result unit) (properties : json)
    (tool path : string) : Result unit :=
  match properties with
  | JObject m => properties_loop node tool path m
  | _ => Err (schema_error "tool input_schema_json `properties` must be an object" tool path)
  end.

(** A keyword check: [schema.find(key)], and the check of the value found. *)
Definition on_key (schema : json) (key : string) (f : json -> Result unit) : Result unit :=
  match jfind schema key with Some v => f v | None => Ok tt end.

Definition validate_enum (tool path : string) (v : json) : Result unit :=
  fail? negb (is_array v) || jempty v with
    schema_error "tool input_schema_json `enum` must be a non-empty array" tool path;
  Ok tt.

Definition validate_bound (tool path : string) (v : json) : Result unit :=
  fail? negb (is_number v) with
    schema_error "tool input_schema_json numeric bounds must be numbers" tool path;
  Ok tt.

Fixpoint validate_schema_node (fuel : nat) (tool : string) (schema : json) (path : string)
    : Result unit :=
  match fuel with
  | 0 => Err (Errors.internal "out of fuel")
  | S fuel =>
    let node := validate_schema_node fuel tool in
    if is_boolean schema then Ok tt else
    fail? negb (is_object schema) with
      schema_error "tool input_schema_json nodes must be JSON objects or booleans" tool path;
    let? _ := on_key schema "type" (fun v => validate_schema_type v tool (child_path path "type")) in
    let? _ := on_key schema "properties" (fun v =>
                validate_properties node v tool (child_path path "properties")) in
    let? _ := on_key schema "required" (fun v =>
                validate_required v (jfind schema "properties") tool (child_path path "required")) in
    let? _ := on_key schema "additionalProperties" (fun v =>
                if is_boolean v then Ok tt else node v (child_path path "additionalProperties")) in
    let? _ := on_key schema "enum" (validate_enum tool (child_path path "enum")) in
    let? _ := on_key schema "minimum" (validate_bound tool (child_path path "minimum")) in
    on_key schema "maximum" (validate_bound tool (child_path path "maximum"))
  end.

(** [detail::validate_input_schema]. *)
Definition validate_input_schema (parse : JsonReader) (tool schema_json : string) : Result unit :=
  let at_root m := Errors.with_ctx (Errors.with_ctx (Errors.invalid_argument m) "tool" tool)
                     "schema_path" "$" in
  fail? bool_decide (schema_json = ""%string) with
    at_root "tool input_schema_json must not be empty"%string;
  match parse schema_json with
  | ParseFailed what =>
      Err (Errors.with_ctx (at_root "tool input_schema_json is not valid JSON"%string) "detail" what)
  | ParseThrew what =>
      Err (Errors.with_ctx (at_root "tool input_schema_json validation failed"%string) "detail" what)
  | Parsed parsed =>
      fail? negb (is_object parsed) with
        schema_error "tool input_schema_json must be a JSON Schema object" tool "$";
      validate_schema_node (json_size parsed) tool parsed "$"
  end.

(** ** What the walk accepts *)
Definition TypeOk (v : json) : Prop :=
  (exists t, v = JString t /\ t ∈ kJsonSchemaTypes) \/
  (exists l, v = JArray l /\ l <> [] /\
             Forall (fun x => exists t, x = JString t /\ t ∈ kJsonSchemaTypes) l).

Definition RequiredOk (schema v : json) : Prop :=
  exists l, v = JArray l /\
    Forall (fun x => exists name, x = JString name /\ name <> ""%string /\
              forall m, jfind schema "properties" = Some (JObject m) ->
                        exists p, assoc name m = Some p) l.

(** A schema node: [true]/[false], or an object whose known keywords are
    well-formed and whose sub-schemas are nodes again. *)
Inductive SchemaOk : json -> Prop :=
  | ok_boolean b : SchemaOk (JBool b)
  | ok_object m :
      (forall v, assoc "type" m = Some v -> TypeOk v) ->
      (forall v, assoc "properties" m = Some v -> exists props, v = JObject props /\
         forall p, In p props -> fst p <> ""%string /\ SchemaOk (snd p)) ->
      (forall v, assoc "required" m = Some v -> RequiredOk (JObject m) v) ->
      (forall v, assoc "additionalProperties" m = Some v -> SchemaOk v) ->
      (forall v, assoc "enum" m = Some v -> exists l, v = JArray l /\ l <> []) ->
      (forall v, assoc "minimum" m = Some v -> is_number v = true) ->
      (forall v, assoc "maximum" m = Some v -> is_number v = true) ->
      SchemaOk (JObject m).

(** ** Lemmas *)
Lemma guard_ok (c : bool) (e : Error) (k : Result unit) :
  (if c then Err e else k) = Ok tt <-> c = false /\ k = Ok tt.
Proof. destruct c; naive_solver. Qed.

Lemma bind_unit_ok (r k : Result unit) :
  result_bind r (fun _ => k) = Ok tt <-> r = Ok tt /\ k = Ok tt.
Proof. destruct r as [[]|]; simpl; naive_solver. Qed.

Lemma each_indexed_ok f i l :
  (forall j k v, f j v = Ok tt <-> f k v = Ok tt) ->
  each_indexed f i l = Ok tt <-> Forall (fun v => f 0 v = Ok tt) l.
Proof.
  intros Hf. revert i. induction l as [|v l IH]; intros i; simpl; [naive_solver|].
  rewrite bind_unit_ok, Forall_cons, IH, (Hf i 0). done.
Qed.

Lemma on_key_ok schema key f :
  on_key schema key f = Ok tt <-> forall v, jfind schema key = Some v -> f v = Ok tt.
Proof. unfold on_key. destruct (jfind schema key); naive_solver. Qed.

Lemma known_type_true t : is_known_schema_type t = true <-> t ∈ kJsonSchemaTypes.
Proof. apply bool_decide_eq_true. Qed.

Lemma type_entry_ok tool path i v :
  type_entry tool path i v = Ok tt <-> exists t, v = JString t /\ t ∈ kJsonSchemaTypes.
Proof.
  unfold type_entry. destruct v; try naive_solver.
  rewrite guard_ok, negb_false_iff, known_type_true. naive_solver.
Qed.

Lemma validate_schema_type_ok tool path v :
  validate_schema_type v tool path = Ok tt <-> TypeOk v.
Proof.
  unfold validate_schema_type, TypeOk. destruct v as [| | | |s|l|]; try naive_solver.
  - rewrite guard_ok, negb_false_iff, known_type_true. naive_solver.
  - destruct l as [|x l]; [naive_solver|].
    rewrite each_indexed_ok by (intros; by rewrite !type_entry_ok).
    setoid_rewrite type_entry_ok. naive_solver.
Qed.

Lemma required_entry_ok schema tool path i v :
  required_entry (jfind schema "properties") tool path i v = Ok tt <->
  exists name, v = JString name /\ name <> ""%string /\
    forall m, jfind schema "properties" = Some (JObject m) -> exists p, assoc name m = Some p.
Proof.
  unfold required_entry. destruct v as [| | | |name| |]; try naive_solver.
  rewrite !guard_ok, bool_decide_eq_false. unfold jcontains.
  destruct (jfind schema "properties") as [[]|]; simpl; try naive_solver.
  rewrite negb_false_iff.
  split.
  - intros (? & H & _). exists name. split_and!; [done|done|].
    intros ? [= <-]. destruct (assoc name m); [eauto|done].
  - intros (? & [= <-] & ? & H). destruct (H m eq_refl) as [p ->]. done.
Qed.

Lemma validate_required_ok schema tool path v :
  validate_required v (jfind schema "properties") tool path = Ok tt <-> RequiredOk schema v.
Proof.
  unfold validate_required, RequiredOk. destruct v as [| | | | |l|]; try naive_solver.
  rewrite each_indexed_ok by (intros; by rewrite !required_entry_ok).
  setoid_rewrite required_entry_ok. naive_solver.
Qed.

Lemma properties_loop_ok node tool path m :
  properties_loop node tool path m = Ok tt <->
  forall p, In p m -> fst p <> ""%string /\ node (snd p) (child_path path (fst p)) = Ok tt.
Proof.
  induction m as [|[name s] m IH]; simpl; [naive_solver|].
  rewrite guard_ok, bool_decide_eq_false, bind_unit_ok, IH.
  split; [|intros H; split_and!; naive_solver].
  intros (? & ? & H) p [<-|Hp]; [done|by apply H].
Qed.

Lemma validate_enum_ok tool path v :
  validate_enum tool path v = Ok tt <-> exists l, v = JArray l /\ l <> [].
Proof.
  unfold validate_enum. rewrite guard_ok, orb_false_iff, negb_false_iff.
  destruct v as [| | | | |[]|]; naive_solver.
Qed.

Lemma validate_bound_ok tool path v :
  validate_bound tool path v = Ok tt <-> is_number v = true.
Proof. unfold validate_bound. rewrite guard_ok, negb_false_iff. naive_solver. Qed.

(** With enough fuel the walk accepts exactly the well-formed schemas. *)
Lemma validate_schema_node_ok fuel tool schema path :
  json_size schema <= fuel ->
  validate_schema_node fuel tool schema path = Ok tt <-> SchemaOk schema.
Proof.
  revert schema path. induction fuel as [|fuel IH]; intros schema path Hf.
  { pose proof (json_size_pos schema). lia. }
  cbn [validate_schema_node].
  destruct (is_boolean schema) eqn:Hb.
  { destruct schema; try discriminate. split; [constructor|done]. }
  rewrite guard_ok, negb_false_iff, !bind_unit_ok, !on_key_ok.
  setoid_rewrite validate_schema_type_ok. setoid_rewrite validate_required_ok.
  setoid_rewrite validate_enum_ok. setoid_rewrite validate_bound_ok.
  split.
  - intros (Ho & Ht & Hp & Hr & Ha & He & Hmin & Hmax).
    destruct schema as [| | | | | |m]; try discriminate. constructor; try done.
    + intros v Hv. specialize (Hp v Hv). destruct v as [| | | | | |props]; try discriminate.
      exists props. split; [done|]. intros p Hin.
      apply properties_loop_ok with (p := p) in Hp as [? Hp]; [|done]. split; [done|].
      apply IH in Hp; [done|]. apply size_in in Hin.
      pose proof (jfind_size (JObject m) _ _ Hv). lia.
    + intros v Hv. specialize (Ha v Hv). pose proof (jfind_size (JObject m) _ _ Hv).
      destruct (is_boolean v) eqn:Eb; [destruct v; try discriminate; constructor|].
      eapply IH; [lia|exact Ha].
  - intros H. inversion H as [b|m Ht Hp Hr Ha He Hmin Hmax]; subst; [discriminate|].
    split_and!; try done.
    + intros v Hv. destruct (Hp v Hv) as (props & -> & Hprops).
      apply properties_loop_ok. intros p Hin. destruct (Hprops p Hin). split; [done|].
      apply IH; [|done]. apply size_in in Hin.
      pose proof (jfind_size (JObject m) _ _ Hv). lia.
    + intros v Hv. pose proof (jfind_size (JObject m) _ _ Hv).
      destruct (is_boolean v); [done|]. apply IH; [lia|by apply Ha].
Qed.

(** ** Theorems *)

(** a schema text is accepted iff it is not empty and the reader gives a
    JSON object all of whose (nested) schema keywords are well-formed; the walk
    always terminates within the size of the schema. *)
Theorem validate_input_schema_spec parse tool text :
  validate_input_schema parse tool text = Ok tt <->
  text <> ""%string /\
  exists m, parse text = Parsed (JObject m) /\ SchemaOk (JObject m).
Proof.
  unfold validate_input_schema. rewrite guard_ok, bool_decide_eq_false.
  destruct (parse text) as [v| |]; try naive_solver.
  rewrite guard_ok, negb_false_iff, validate_schema_node_ok by lia.
  split; [|naive_solver]. intros (? & Hv & ?). destruct v; try discriminate. eauto.
Qed.
