(* ===== verification/Glob.v ===== *)
(** * oran-permission: the tool-name glob matcher

    Models [glob_match] of [src/oran-permission/rule_set.cpp], the iterative
    two-pointer matcher that backtracks to the last star only, and proves it
    equivalent to the recursive definition of the pattern language, with the fuel
    that the documented worst case [|pattern| * |text|] stands for. *)
From S2P Require Import Prelude.

Definition star : ascii := "*"%char.

(** ** The code *)
(** The while loop over [pi], [ti], [star] and [match]; the final loop over the
    trailing stars is [skip_stars]. *)
Fixpoint skip_stars (pattern : bytes) : bytes :=
  match pattern with
  | c :: pattern' => if decide (c = star) then skip_stars pattern' else pattern
  | [] => []
  end.

Fixpoint glob_loop (fuel : nat) (pattern text : bytes) (pi ti : nat)
    (star_at : option nat) (matched : nat) : option bool :=
  match fuel with
  | O => None
  | S fuel' =>
      match text !! ti with
      | None => Some (bool_decide (skip_stars (drop pi pattern) = []))
      | Some c =>
          if decide (pattern !! pi = Some star) then
            glob_loop fuel' pattern text (S pi) ti (Some pi) ti
          else if decide (pattern !! pi = Some c) then
            glob_loop fuel' pattern text (S pi) (S ti) star_at matched
          else
            match star_at with
            | Some s => glob_loop fuel' pattern text (S s) (S matched) (Some s) (S matched)
            | None => Some false
            end
      end
  end.

Definition glob_fuel (pattern text : bytes) : nat := S (length text) * S (length pattern).

Definition glob_match (pattern text : bytes) : option bool :=
  glob_loop (glob_fuel pattern text) pattern text 0 0 None 0.

(** ** The pattern language *)
(** [*] matches any byte sequence, every other byte itself. *)
Fixpoint glob (pattern text : bytes) : bool :=
  match pattern with
  | [] => match text with [] => true | _ => false end
  | c :: pattern' =>
      if decide (c = star) then
        (fix try (t : bytes) : bool :=
           glob pattern' t || match t with [] => false | _ :: t' => try t' end) text
      else
        match text with
        | d :: text' => bool_decide (c = d) && glob pattern' text'
        | [] => false
        end
  end.

Lemma glob_star p t :
  glob (star :: p) t = true <-> exists j, glob p (drop j t) = true.
Proof.
  cbn [glob]. rewrite decide_True by done. split.
  - induction t as [|c t IH]; rewrite orb_true_iff; intros [H|H]; try done.
    + by exists 0.
    + by exists 0.
    + destruct (IH H) as [j Hj]. by exists (S j).
  - intros [j Hj]. revert j Hj. induction t as [|c t IH]; intros j Hj; rewrite orb_true_iff.
    + left. by rewrite drop_nil in Hj.
    + destruct j as [|j]; [by left|right]. by apply (IH j).
Qed.

Lemma glob_literal c p t :
  c <> star -> glob (c :: p) t = true <-> exists t', t = c :: t' /\ glob p t' = true.
Proof.
  intros Hc. cbn [glob]. rewrite decide_False by done. destruct t as [|d t].
  - split; [done|]. intros (? & ? & _). done.
  - rewrite andb_true_iff, bool_decide_eq_true. naive_solver.
Qed.

(** Literal segments: no star. *)
Definition literal (seg : bytes) : Prop := star ∉ seg.

Lemma glob_segment seg p t :
  literal seg -> glob (seg ++ p) t = true <-> exists t', t = seg ++ t' /\ glob p t' = true.
Proof.
  unfold literal. revert t. induction seg as [|c seg IH]; intros t Hs; simpl app.
  - split; [eauto|]. by intros (? & -> & ?).
  - rewrite not_elem_of_cons in Hs. destruct Hs as [Hc Hs].
    rewrite glob_literal by done. setoid_rewrite IH; [|done]. naive_solver.
Qed.

(** A star absorbs more text. *)
Lemma glob_star_suffix p t1 t2 : glob (star :: p) t2 = true -> glob (star :: p) (t1 ++ t2) = true.
Proof.
  rewrite !glob_star. intros [j Hj]. exists (length t1 + j).
  rewrite drop_app_ge by lia. by replace (length t1 + j - length t1) with j by lia.
Qed.

(** The greedy step: when a star is followed by a literal segment and another
    star, the leftmost occurrence of the segment is enough. *)
Lemma glob_greedy seg q t :
  literal seg -> glob (star :: seg ++ star :: q) (seg ++ t) = glob (star :: q) t.
Proof.
  intros Hs. apply eq_bool_prop_intro. rewrite !Is_true_true. split.
  - rewrite glob_star. intros [j Hj]. apply glob_segment in Hj as (t' & Ht & Hj); [|done].
    apply (f_equal (drop (length seg))) in Ht.
    rewrite drop_app_length, drop_drop, drop_app_ge in Ht by lia. subst t'.
    rewrite <- (take_drop (j + length seg - length seg) t). by apply glob_star_suffix.
  - intros Ht. apply glob_star. exists 0. apply glob_segment; [done|]. eauto.
Qed.

Lemma tail_drop_1 {A} (l : list A) : tail l = drop 1 l.
Proof. by destruct l as [|? []]. Qed.

(** Skipping a first position where the segment and what follows cannot match. *)
Lemma glob_star_skip p t : glob p t = false -> glob (star :: p) t = glob (star :: p) (tail t).
Proof.
  intros Hf. apply eq_bool_prop_intro. rewrite !Is_true_true, !glob_star. split.
  - intros [[|j] Hj]; [by rewrite drop_0, Hf in Hj|]. exists j.
    by destruct t; [destruct j|].
  - intros [j Hj]. destruct t as [|c t]; [by exists j|]. by exists (S j).
Qed.

Lemma glob_end p : glob p [] = bool_decide (skip_stars p = []).
Proof.
  induction p as [|c p IH]; [done|]. cbn [skip_stars]. case_decide as Hc.
  - rewrite <- IH. subst. apply eq_bool_prop_intro. rewrite !Is_true_true, glob_star.
    split; [intros [j Hj]; by rewrite drop_nil in Hj|]. by exists 0.
  - cbn [glob]. rewrite decide_False by done. by rewrite bool_decide_eq_false_2.
Qed.

(** ** The loop decides the language *)
Section Loop.
Context (pattern text : bytes).

(** What a loop state says: what is left to decide, and how the text read since
    the last star (or since the start) was consumed. *)
Definition pending (pi ti : nat) (star_at : option nat) (matched : nat) : bool :=
  match star_at with
  | None => glob (drop pi pattern) (drop ti text)
  | Some s => glob (drop s pattern) (drop matched text)
  end.

Definition consistent (pi ti : nat) (star_at : option nat) (matched : nat) : Prop :=
  pi <= length pattern /\ ti <= length text /\
  match star_at with
  | None => matched = 0
  | Some s => exists seg, literal seg /\ matched <= ti /\
      drop s pattern = star :: seg ++ drop pi pattern /\
      drop matched text = seg ++ drop ti text
  end.

Definition loop_measure (pi matched : nat) : nat :=
  (length text - matched) * S (length pattern) + (length pattern - pi).

Lemma consistent_start s :
  s < length pattern -> pattern !! s = Some star ->
  drop s pattern = star :: drop (S s) pattern.
Proof. intros _ Hs. by apply drop_S. Qed.

(** Neither a star nor the next character: the state's segment fails here. *)
Lemma glob_stuck pi ti c :
  text !! ti = Some c -> pattern !! pi <> Some star -> pattern !! pi <> Some c ->
  glob (drop pi pattern) (drop ti text) = false.
Proof.
  intros Ht Hs Hc. rewrite (drop_S text c ti Ht).
  destruct (pattern !! pi) as [d|] eqn:Hd.
  - rewrite (drop_S pattern d pi Hd). cbn [glob]. rewrite decide_False by congruence.
    by rewrite bool_decide_eq_false_2 by congruence.
  - by rewrite (drop_ge pattern) by by apply lookup_ge_None.
Qed.

Lemma glob_loop_correct fuel pi ti star_at matched :
  consistent pi ti star_at matched -> loop_measure pi matched < fuel ->
  glob_loop fuel pattern text pi ti star_at matched = Some (pending pi ti star_at matched).
Proof.
  revert pi ti star_at matched.
  induction fuel as [|fuel IH]; intros pi ti star_at matched (Hpi & Hti & Hst) Hf; [lia|].
  cbn [glob_loop]. unfold loop_measure in Hf.
  destruct (text !! ti) as [c|] eqn:Hc.
  - pose proof (lookup_lt_Some _ _ _ Hc) as Hlt.
    destruct (decide (pattern !! pi = Some star)) as [Hs|Hs].
    { pose proof (lookup_lt_Some _ _ _ Hs). rewrite IH; cycle 1.
      - repeat split; [lia..|]. exists []. repeat split; [by apply not_elem_of_nil|lia|].
        by apply drop_S.
      - unfold loop_measure. destruct star_at as [s|]; [destruct Hst as (? & _ & ? & _)|subst]; nia.
      - f_equal. unfold pending. destruct star_at as [s|]; [|done].
        destruct Hst as (seg & Hseg & _ & -> & ->). rewrite (drop_S pattern star pi Hs).
        by rewrite glob_greedy. }
    destruct (decide (pattern !! pi = Some c)) as [Hp|Hp].
    { pose proof (lookup_lt_Some _ _ _ Hp).
      assert (c <> star) by congruence. rewrite IH; cycle 1.
      - repeat split; [lia..|]. destruct star_at as [s|]; [|done].
        destruct Hst as (seg & Hseg & ? & Hd1 & Hd2). exists (seg ++ [c]).
        unfold literal in *. rewrite Hd1, Hd2, (drop_S pattern c pi Hp), (drop_S text c ti Hc).
        rewrite <- !app_assoc. repeat split; [set_solver|lia].
      - unfold loop_measure. nia.
      - f_equal. unfold pending. destruct star_at as [s|]; [done|].
        rewrite (drop_S pattern c pi Hp), (drop_S text c ti Hc).
        cbn [glob]. rewrite decide_False by done. by rewrite bool_decide_eq_true_2. }
    destruct star_at as [s|].
    { destruct Hst as (seg & Hseg & ? & Hd1 & Hd2).
      assert (Hs' : pattern !! s = Some star /\ drop (S s) pattern = seg ++ drop pi pattern).
      { destruct (pattern !! s) as [d|] eqn:Hd.
        - rewrite (drop_S pattern d s Hd) in Hd1. injection Hd1 as -> ->. done.
        - apply lookup_ge_None in Hd. rewrite drop_ge in Hd1 by done. done. }
      destruct Hs' as [Hs' Hseg'].
      pose proof (lookup_lt_Some _ _ _ Hs') as Hslt. rewrite IH; cycle 1.
      - repeat split; [lia..|]. exists []. repeat split; [by apply not_elem_of_nil|lia|].
        by apply drop_S.
      - unfold loop_measure. nia.
      - f_equal. unfold pending. rewrite (drop_S pattern star s Hs').
        rewrite (glob_star_skip _ (drop matched text)).
        + by rewrite tail_drop_1, drop_drop, Nat.add_1_r.
        + apply not_true_iff_false. rewrite Hseg', Hd2.
          intros (t' & Ht & Hg)%glob_segment; [|done]. simplify_list_eq.
          by rewrite (glob_stuck pi ti c) in Hg. }
    f_equal. unfold pending. by rewrite (glob_stuck pi ti c).
  - apply lookup_ge_None in Hc. f_equal. unfold pending. destruct star_at as [s|].
    + destruct Hst as (seg & Hseg & _ & -> & ->). rewrite (drop_ge text) by done.
      rewrite <- glob_end, app_nil_r. apply eq_bool_prop_intro.
      rewrite !Is_true_true, glob_star. split.
      * intros Hg. exists 0. apply glob_segment; [done|]. exists []. by rewrite app_nil_r.
      * intros [j Hj]. apply glob_segment in Hj as (t' & Ht & Hg); [|done].
        apply (f_equal length) in Ht as Hlen. rewrite length_drop, length_app in Hlen.
        destruct t'; [done|simpl in Hlen; lia].
    + rewrite (drop_ge text) by done. by rewrite glob_end.
Qed.
End Loop.

Lemma glob_match_true pattern text :
  glob_match pattern text = Some (glob pattern text).
Proof.
  unfold glob_match. rewrite glob_loop_correct; [done| |].
  - repeat split; lia.
  - unfold loop_measure, glob_fuel. lia.
Qed.

(** the loop always terminates within the fuel, and its answer is membership
    in the pattern language. *)
Theorem glob_match_correct pattern text :
  glob_match pattern text = Some (glob pattern text).
Proof. apply glob_match_true. Qed.
