(* ===== verification/Rules.v ===== *)
(** * oran-permission: rules and decisions

    Models [include/oran/permission/rule_set.hpp],
    [src/oran-permission/rule_set.cpp], [src/oran-permission/defaults.cpp] and the
    composition of configured rules in [src/oran-bootstrap/permissions.cpp].
    RE2 is not code of the repository: [InputPattern::matches] is the section
    variable [partial_match], a decision on the pattern's source and the input. *)
From S2P Require Import Prelude Core Glob.
Import EnumNames.

(** ** Data *)
Inductive Verdict := v_allow | v_deny | v_ask.
#[export] Instance Verdict_eq_dec : EqDecision Verdict.
Proof. solve_decision. Defined.
#[export] Instance Enum_Verdict : Enum Verdict := {
  enumerators := [(v_allow, "allow"); (v_deny, "deny"); (v_ask, "ask")]%string }.
#[export] Instance EnumLaws_Verdict : EnumLaws Verdict.
Proof. solve_enum_laws. Qed.

Inductive Mode := strict | default_ | permissive | sandboxed.
#[export] Instance Mode_eq_dec : EqDecision Mode.
Proof. solve_decision. Defined.
#[export] Instance Enum_Mode : Enum Mode := {
  enumerators := [(strict, "strict"); (default_, "default_");
                  (permissive, "permissive"); (sandboxed, "sandboxed")]%string }.
#[export] Instance EnumLaws_Mode : EnumLaws Mode.
Proof. solve_enum_laws. Qed.

(** [Rule]; an [InputPattern] is known by its source text, and the lifetime is in
    seconds. *)
Record Rule := mkRule {
  rule_verdict : Verdict;
  rule_tool_pattern : string;
  rule_capability : option Capability;
  rule_input_pattern : option string;
  rule_replay_max : Z;
  rule_approval_ttl : Z }.
#[export] Instance Rule_eq_dec : EqDecision Rule.
Proof. solve_decision. Defined.

Definition default_replay_max : Z := 8.
Definition default_approval_ttl : Z := 3600.

Record Decision_ := mkDecision {
  dec_verdict : Verdict;
  dec_reason : string;
  dec_replay_max : Z;
  dec_approval_ttl : Z }.
#[export] Instance Decision__eq_dec : EqDecision Decision_.
Proof. solve_decision. Defined.

Definition mode_default_verdict (mode : Mode) : Verdict :=
  match mode with
  | strict | sandboxed => v_deny
  | default_ => v_ask
  | permissive => v_allow
  end.

(** A double quote, which [format_reason] puts around an input pattern. *)
Definition dquote : string := String (ascii_of_nat 34) EmptyString.

Definition format_reason (index : nat) (rule : Rule) : string :=
  ("rule #" +:+ pretty index +:+ " (" +:+ enum_name (rule_verdict rule) +:+ ": " +:+
   rule_tool_pattern rule +:+
   match rule_capability rule with
   | Some c => " capability=" +:+ enum_name c | None => "" end +:+
   match rule_input_pattern rule with
   | Some p => " input=~" +:+ dquote +:+ p +:+ dquote | None => "" end +:+ ")")%string.

Definition tool_matches (rule : Rule) (tool_name : string) : bool :=
  bool_decide (glob_match (lit (rule_tool_pattern rule)) (lit tool_name) = Some true).

(** [intersect]: deny dominates, then ask with the smaller limits. *)
Definition intersect (left right : Decision_) : Decision_ :=
  if decide (dec_verdict left = v_deny) then left
  else if decide (dec_verdict right = v_deny) then right
  else if decide (dec_verdict right = v_ask) then
    if decide (dec_verdict left = v_ask) then
      mkDecision (dec_verdict left) (dec_reason left)
        (Z.min (dec_replay_max left) (dec_replay_max right))
        (Z.min (dec_approval_ttl left) (dec_approval_ttl right))
    else right
  else left.

Section Evaluation.
Context (partial_match : string -> string -> bool).

(** The predicate of [find_if] for one verdict. *)
Definition rule_matches (verdict : Verdict) (tool_name input : string)
    (capability : option Capability) (rule : Rule) : bool :=
  bool_decide (rule_verdict rule = verdict) && tool_matches rule tool_name &&
  match rule_capability rule with
  | None => true | Some c => bool_decide (capability = Some c) end &&
  match rule_input_pattern rule with
  | None => true | Some p => partial_match p input end.

(** [std::ranges::find_if], with the position of the match. *)
Fixpoint find_rule (f : Rule -> bool) (rules : list Rule) (i : nat) : option (nat * Rule) :=
  match rules with
  | [] => None
  | r :: rules' => if f r then Some (i, r) else find_rule f rules' (S i)
  end.

Fixpoint try_verdicts (verdicts : list Verdict) (rules : list Rule)
    (tool_name input : string) (capability : option Capability) (mode : Mode) : Decision_ :=
  match verdicts with
  | verdict :: verdicts' =>
      match find_rule (rule_matches verdict tool_name input capability) rules 0 with
      | Some (i, match_) =>
          mkDecision verdict (format_reason i match_) (rule_replay_max match_)
            (rule_approval_ttl match_)
      | None => try_verdicts verdicts' rules tool_name input capability mode
      end
  | [] =>
      mkDecision (mode_default_verdict mode)
        ("default by mode=" +:+ enum_name mode) default_replay_max default_approval_ttl
  end.

Definition evaluate_requirement (rules : list Rule) (tool_name input : string)
    (capability : option Capability) (mode : Mode) : Decision_ :=
  try_verdicts [v_deny; v_allow; v_ask] rules tool_name input capability mode.

(** The loop over the remaining required capabilities. *)
Fixpoint evaluate_more (rules : list Rule) (tool_name input : string)
    (capabilities : list Capability) (mode : Mode) (combined : Decision_) : Decision_ :=
  match capabilities with
  | [] => combined
  | capability :: capabilities' =>
      if decide (dec_verdict combined = v_deny) then combined
      else evaluate_more rules tool_name input capabilities' mode
             (intersect combined
                (evaluate_requirement rules tool_name input (Some capability) mode))
  end.

Definition evaluate (rules : list Rule) (tool_name input : string)
    (required_capabilities : list Capability) (mode : Mode) : Decision_ :=
  match required_capabilities with
  | [] => evaluate_requirement rules tool_name input None mode
  | front :: rest =>
      evaluate_more rules tool_name input rest mode
        (evaluate_requirement rules tool_name input (Some front) mode)
  end.
End Evaluation.

(** ** [default_rules] *)
Definition baseline_rule (verdict : Verdict) (capability : Capability) : Rule :=
  mkRule verdict "*" (Some capability) None default_replay_max default_approval_ttl.
Definition allow := baseline_rule v_allow.
Definition ask := baseline_rule v_ask.
Definition deny := baseline_rule v_deny.

Definition default_baseline : list Rule :=
  [deny runtime_loader; deny delete_path; allow read_file; ask write_file; ask edit_file;
   ask spawn_subprocess; ask egress_http].
Definition permissive_baseline : list Rule := [deny runtime_loader; deny delete_path].
Definition sandboxed_baseline : list Rule := [allow read_file].

Definition default_rules (mode : Mode) : list Rule :=
  match mode with
  | strict => []
  | default_ => default_baseline
  | permissive => permissive_baseline
  | sandboxed => sandboxed_baseline
  end.

(** ** [materialize_permissions] *)
(** [config::PermissionRuleConfig]; its verdict is an enumeration of its own with
    the spellings of [Verdict]. *)
Record PermissionRuleConfig := mkRuleConfig {
  rc_verdict : string;
  rc_tool_pattern : string;
  rc_capability : option Capability;
  rc_input_pattern : option string;
  rc_replay_max : option Z;
  rc_approval_ttl_seconds : option Z }.

Section Materialize.
(** [InputPattern::compile]: [None] for a pattern RE2 rejects, with its message. *)
Context (compile_error : string -> option string).

Definition compile (pattern : string) : Result string :=
  match compile_error pattern with
  | Some message =>
      Err (Errors.with_ctx (Errors.invalid_argument "invalid regex") "regex_error" message)
  | None => Ok pattern
  end.

Fixpoint materialize_loop (rules : list Rule) (global : list PermissionRuleConfig)
    : Result (list Rule) :=
  match global with
  | [] => Ok rules
  | rule :: global' =>
      let? input_pattern :=
        match rc_input_pattern rule with
        | Some p => let? compiled := compile p in Ok (Some compiled)
        | None => Ok None
        end in
      let verdict := default v_deny (parse_enum (rc_verdict rule)) in
      materialize_loop
        (rules ++ [mkRule verdict (rc_tool_pattern rule) (rc_capability rule) input_pattern
           (default default_replay_max (rc_replay_max rule))
           (default default_approval_ttl (rc_approval_ttl_seconds rule))])
        global'
  end.

Definition materialize_permissions (mode : Mode) (global : list PermissionRuleConfig)
    : Result (list Rule) := materialize_loop (default_rules mode) global.
End Materialize.

(** ** Intersection is the meet of authorities *)
Definition rank (v : Verdict) : nat :=
  match v with v_allow => 0 | v_ask => 1 | v_deny => 2 end.

Lemma rank_inj v w : rank v = rank w -> v = w.
Proof. by destruct v, w. Qed.

Lemma intersect_rank l r :
  rank (dec_verdict (intersect l r)) = max (rank (dec_verdict l)) (rank (dec_verdict r)).
Proof.
  unfold intersect. destruct l as [[] ? ? ?], r as [[] ? ? ?]; reflexivity.
Qed.

(** The limits of an asked decision; the other verdicts carry none. *)
Definition ask_bound (d : Decision_) (n t : Z) : Prop :=
  dec_verdict d = v_ask -> (n <= dec_replay_max d)%Z /\ (t <= dec_approval_ttl d)%Z.

Lemma intersect_bound l r n t :
  dec_verdict (intersect l r) <> v_deny ->
  ask_bound (intersect l r) n t <-> ask_bound l n t /\ ask_bound r n t.
Proof.
  unfold intersect, ask_bound. destruct l as [[] ? ? ?], r as [[] ? ? ?]; simpl; intros; try done;
    split; intros; try split; naive_solver lia.
Qed.

Section Theory.
Context (partial_match : string -> string -> bool).
#[local] Abbreviation matches := (rule_matches partial_match).
#[local] Abbreviation requirement := (evaluate_requirement partial_match).

Lemma find_rule_spec f rules i :
  match find_rule f rules i with
  | Some (_, r) => r ∈ rules /\ f r = true
  | None => existsb f rules = false
  end.
Proof.
  revert i. induction rules as [|r rules IH]; intros i; simpl; [done|].
  destruct (f r) eqn:Hf; [split; [set_solver|done]|].
  specialize (IH (S i)). destruct (find_rule f rules (S i)) as [[? ?]|]; [|done].
  destruct IH. split; [set_solver|done].
Qed.

Lemma find_rule_is_some f rules i :
  existsb f rules = match find_rule f rules i with Some _ => true | None => false end.
Proof.
  revert i. induction rules as [|r rules IH]; intros i; simpl; [done|].
  by destruct (f r); [|apply IH].
Qed.

(** Which verdict one requirement gets: deny, allow and ask in this order, then
    the mode. *)
Lemma requirement_verdict rules tool input cap mode :
  dec_verdict (requirement rules tool input cap mode) =
    if existsb (matches v_deny tool input cap) rules then v_deny
    else if existsb (matches v_allow tool input cap) rules then v_allow
    else if existsb (matches v_ask tool input cap) rules then v_ask
    else mode_default_verdict mode.
Proof.
  unfold evaluate_requirement. cbn [try_verdicts].
  rewrite !(find_rule_is_some _ rules 0).
  by repeat match goal with |- context [match find_rule ?f ?l ?i with _ => _ end] =>
    destruct (find_rule f l i) as [[? ?]|] end.
Qed.

Lemma existsb_perm {A} (f : A -> bool) l1 l2 : l1 ≡ₚ l2 -> existsb f l1 = existsb f l2.
Proof.
  intros Hp. apply eq_bool_prop_intro. rewrite !Is_true_true, !existsb_exists.
  setoid_rewrite <- list_elem_of_In. by setoid_rewrite Hp.
Qed.

Lemma rank_le v : rank v <= 2.
Proof. destruct v; simpl; lia. Qed.

Lemma foldr_max_top {A} (f : A -> nat) (l : list A) :
  (forall a, f a <= 2) -> foldr (fun a => max (f a)) 2 l = 2.
Proof. intros Hf. induction l as [|a l IH]; simpl; [done|]. specialize (Hf a). lia. Qed.

Lemma evaluate_more_rank rules tool input caps mode combined :
  rank (dec_verdict (evaluate_more partial_match rules tool input caps mode combined)) =
  foldr (fun c => max (rank (dec_verdict (requirement rules tool input (Some c) mode))))
    (rank (dec_verdict combined)) caps.
Proof.
  revert combined. induction caps as [|c caps IH]; intros combined; cbn [evaluate_more foldr]; [done|].
  case_decide as Hd.
  - rewrite Hd. change (rank v_deny) with 2.
    rewrite (foldr_max_top (fun c => rank (dec_verdict (requirement rules tool input (Some c) mode))))
      by (intros; apply rank_le).
    pose proof (rank_le (dec_verdict (requirement rules tool input (Some c) mode))). lia.
  - rewrite IH, intersect_rank. clear.
    induction caps as [|c' caps IH]; simpl; [lia|]. rewrite IH. lia.
Qed.

(** The requirements of a call: one per capability, or the tool alone. *)
Definition requirements (caps : list Capability) : list (option Capability) :=
  match caps with [] => [None] | _ => map Some caps end.

Lemma evaluate_rank rules tool input caps mode :
  rank (dec_verdict (evaluate partial_match rules tool input caps mode)) =
  foldr (fun c => max (rank (dec_verdict (requirement rules tool input c mode)))) 0
    (requirements caps).
Proof.
  unfold evaluate, requirements. destruct caps as [|c caps]; [simpl; lia|].
  rewrite evaluate_more_rank. simpl. generalize (rank (dec_verdict (requirement rules tool input (Some c) mode))).
  induction caps as [|c' caps IH]; intros n; simpl; [lia|]. rewrite IH. lia.
Qed.

Lemma foldr_max_ge {A} (f : A -> nat) (l : list A) x : x ∈ l -> f x <= foldr (fun a => max (f a)) 0 l.
Proof. induction 1; simpl; lia. Qed.

Lemma foldr_permutation_max {A} (f : A -> nat) (l1 l2 : list A) :
  l1 ≡ₚ l2 -> foldr (fun a => max (f a)) 0 l1 = foldr (fun a => max (f a)) 0 l2.
Proof. induction 1; simpl; lia. Qed.

Lemma foldr_max_attained {A} (f : A -> nat) (l : list A) :
  l <> [] -> exists x, x ∈ l /\ f x = foldr (fun a => max (f a)) 0 l.
Proof.
  induction l as [|a l IH]; [done|]. intros _. destruct l as [|b l].
  - exists a. split; [set_solver|simpl; lia].
  - destruct (IH ltac:(done)) as (x & Hx & Hf). simpl in *.
    destruct (decide (f a <= max (f b) (foldr (fun a => max (f a)) 0 l))).
    + exists x. split; [set_solver|lia].
    + exists a. split; [set_solver|lia].
Qed.

Lemma requirements_nonempty caps : requirements caps <> [].
Proof. by destruct caps. Qed.
End Theory.

Lemma evaluate_deny_iff partial_match rules tool input caps mode :
  dec_verdict (evaluate partial_match rules tool input caps mode) = v_deny <->
  exists c, c ∈ requirements caps /\
    dec_verdict (evaluate_requirement partial_match rules tool input c mode) = v_deny.
Proof.
  set (f := fun c => rank (dec_verdict (evaluate_requirement partial_match rules tool input c mode))).
  assert (Hr : rank (dec_verdict (evaluate partial_match rules tool input caps mode)) =
    foldr (fun c => max (f c)) 0 (requirements caps)) by apply evaluate_rank.
  split.
  - intros Hd. destruct (foldr_max_attained f _ (requirements_nonempty caps)) as (c & Hc & Hf).
    exists c. split; [done|]. apply rank_inj. change (f c = rank v_deny). by rewrite Hf, <- Hr, Hd.
  - intros (c & Hc & Hv). pose proof (foldr_max_ge f _ c Hc) as Hge. rewrite <- Hr in Hge.
    unfold f in Hge. rewrite Hv in Hge. apply rank_inj.
    destruct (dec_verdict (evaluate _ _ _ _ _ _)); simpl in *; lia.
Qed.

Lemma deny_rule_wins_aux partial_match rules r tool input caps mode :
  r ∈ rules -> rule_verdict r = v_deny -> tool_matches r tool = true ->
  match rule_input_pattern r with None => True | Some p => partial_match p input = true end ->
  match rule_capability r with None => True | Some c => c ∈ caps end ->
  dec_verdict (evaluate partial_match rules tool input caps mode) = v_deny.
Proof.
  intros Hr Hv Ht Hi Hc. apply evaluate_deny_iff.
  assert (exists c, c ∈ requirements caps /\
    rule_matches partial_match v_deny tool input c r = true) as (c & Hcr & Hm).
  { unfold rule_matches. rewrite bool_decide_eq_true_2, Ht by done.
    assert (Hin : match rule_input_pattern r with None => true | Some p => partial_match p input end = true)
      by (clear -Hi; by destruct (rule_input_pattern r)).
    rewrite Hin. clear Hin. destruct (rule_capability r) as [c|].
    - exists (Some c). split.
      + unfold requirements. destruct caps; [by apply not_elem_of_nil in Hc|].
        by apply list_elem_of_fmap_2.
      + by rewrite bool_decide_eq_true_2.
    - destruct (requirements caps) as [|c l] eqn:E; [by apply requirements_nonempty in E|].
      exists c. split; [set_solver|done]. }
  exists c. split; [done|]. rewrite requirement_verdict.
  assert (existsb (rule_matches partial_match v_deny tool input c) rules = true) as ->; [|done].
  apply existsb_exists. exists r. by rewrite <- list_elem_of_In.
Qed.

Lemma tool_matches_any r tool : rule_tool_pattern r = "*"%string -> tool_matches r tool = true.
Proof.
  intros Hr. unfold tool_matches. rewrite Hr, glob_match_true.
  apply bool_decide_eq_true. f_equal. apply glob_star. exists (length (lit tool)).
  by rewrite drop_ge.
Qed.

(** ** Theorems *)

(** a call is denied iff some required capability is denied, and allowed iff
    every required capability is allowed; otherwise it is asked. *)
Theorem evaluate_verdict partial_match rules tool input caps mode :
  let verdict_of c := dec_verdict (evaluate_requirement partial_match rules tool input c mode) in
  let d := evaluate partial_match rules tool input caps mode in
  (dec_verdict d = v_deny <-> exists c, c ∈ requirements caps /\ verdict_of c = v_deny) /\
  (dec_verdict d = v_allow <-> forall c, c ∈ requirements caps -> verdict_of c = v_allow).
Proof.
  intros verdict_of d. split; [apply evaluate_deny_iff|].
  pose proof (evaluate_rank partial_match rules tool input caps mode) as Hr.
  set (f := fun c => rank (verdict_of c)). change (rank (dec_verdict d) =
    foldr (fun c => max (f c)) 0 (requirements caps)) in Hr. split.
  - intros Hd c Hc. pose proof (foldr_max_ge f _ c Hc) as Hge. rewrite <- Hr, Hd in Hge.
    apply rank_inj. unfold f in Hge. simpl in *. lia.
  - intros Hall. destruct (foldr_max_attained f _ (requirements_nonempty caps)) as (c & Hc & Hf).
    apply rank_inj. rewrite Hr, <- Hf. unfold f. by rewrite Hall.
Qed.

(** the order in which rules and capabilities are listed never changes the
    verdict (it only selects which rule the reason names). *)
Theorem evaluate_order_independent partial_match rules rules' tool input caps caps' mode :
  rules ≡ₚ rules' -> caps ≡ₚ caps' ->
  dec_verdict (evaluate partial_match rules tool input caps mode) =
  dec_verdict (evaluate partial_match rules' tool input caps' mode).
Proof.
  intros Hr Hc. apply rank_inj. rewrite !evaluate_rank.
  assert (Hreq : requirements caps ≡ₚ requirements caps').
  { unfold requirements. destruct caps as [|c caps].
    - apply Permutation_nil_l in Hc as <-. done.
    - destruct caps' as [|c' caps']; [by apply Permutation_nil_r in Hc|].
      by apply Permutation_map. }
  assert (Hverdict : forall c,
    dec_verdict (evaluate_requirement partial_match rules tool input c mode) =
    dec_verdict (evaluate_requirement partial_match rules' tool input c mode)).
  { intros c. by rewrite !requirement_verdict, !(existsb_perm _ rules rules') by done. }
  rewrite (foldr_permutation_max _ _ _ Hreq). clear Hreq.
  induction (requirements caps') as [|c l IH]; simpl; [done|]. by rewrite IH, Hverdict.
Qed.

Lemma evaluate_order_independent_witness :
  dec_verdict (evaluate (fun _ _ => false) [allow read_file; deny delete_path] "FileRead" ""
    [read_file; delete_path] strict) =
  dec_verdict (evaluate (fun _ _ => false) [deny delete_path; allow read_file] "FileRead" ""
    [delete_path; read_file] strict).
Proof.
  apply (evaluate_order_independent (fun _ _ => false)); apply Permutation_swap.
Defined.

(** a deny rule that matches the tool and input, for no particular capability or
    for one the call requires, denies the call whatever the other rules say. *)
Theorem deny_rule_wins partial_match rules r tool input caps mode :
  r ∈ rules -> rule_verdict r = v_deny -> tool_matches r tool = true ->
  match rule_input_pattern r with None => True | Some p => partial_match p input = true end ->
  match rule_capability r with None => True | Some c => c ∈ caps end ->
  dec_verdict (evaluate partial_match rules tool input caps mode) = v_deny.
Proof. apply deny_rule_wins_aux. Qed.

Lemma deny_rule_wins_witness :
  dec_verdict (evaluate (fun _ _ => true)
    [allow egress_http; mkRule v_deny "Shell*" None (Some "^rm ") 8 3600] "ShellExec" "rm -rf /"
    [egress_http] permissive) = v_deny.
Proof.
  apply (deny_rule_wins (fun _ _ => true) _ (mkRule v_deny "Shell*" None (Some "^rm ") 8 3600));
    [set_solver|reflexivity|vm_compute; reflexivity|reflexivity|exact I].
Defined.

(** an asked call carries, as its replay budget and lifetime, exactly the
    smallest ones among the capabilities that ask. *)
Theorem evaluate_ask_limits partial_match rules tool input caps mode n t :
  let d := evaluate partial_match rules tool input caps mode in
  dec_verdict d = v_ask ->
  (n <= dec_replay_max d /\ t <= dec_approval_ttl d)%Z <->
  forall c, c ∈ requirements caps ->
    ask_bound (evaluate_requirement partial_match rules tool input c mode) n t.
Proof.
  intros d Hd.
  assert (Hmore : forall cs combined,
    let e := evaluate_more partial_match rules tool input cs mode combined in
    dec_verdict e <> v_deny ->
    ask_bound e n t <-> ask_bound combined n t /\ forall c, c ∈ cs ->
      ask_bound (evaluate_requirement partial_match rules tool input (Some c) mode) n t).
  { induction cs as [|c cs IH]; intros combined; cbv zeta; cbn [evaluate_more].
    - intros He. split; [|by intros [? _]]. intros ?. split; [done|]. by intros c ?%not_elem_of_nil.
    - case_decide as Hc; [done|]. intros He. rewrite IH by done.
      setoid_rewrite elem_of_cons. rewrite intersect_bound; [naive_solver|].
      intros Hi. apply He. clear -Hi. destruct cs; cbn [evaluate_more]; [done|].
      by rewrite decide_True. }
  assert (Hask : (n <= dec_replay_max d /\ t <= dec_approval_ttl d)%Z <-> ask_bound d n t)
    by (unfold ask_bound; rewrite Hd; naive_solver).
  rewrite Hask. unfold d, evaluate, requirements in *. destruct caps as [|c caps].
  - setoid_rewrite list_elem_of_singleton. naive_solver.
  - rewrite Hmore by congruence. cbn [map]. setoid_rewrite elem_of_cons.
    setoid_rewrite list_elem_of_fmap. naive_solver.
Qed.

Lemma evaluate_ask_limits_witness :
  let d := evaluate (fun _ _ => false)
    [mkRule v_ask "File*" (Some write_file) None 3 600; mkRule v_ask "*" None None 5 60]
    "FileWrite" "" [write_file; read_file] strict in
  (3 <= dec_replay_max d /\ 60 <= dec_approval_ttl d)%Z <->
  forall c, c ∈ requirements [write_file; read_file] ->
    ask_bound (evaluate_requirement (fun _ _ => false)
      [mkRule v_ask "File*" (Some write_file) None 3 600; mkRule v_ask "*" None None 5 60]
      "FileWrite" "" c strict) 3 60.
Proof. apply evaluate_ask_limits. vm_compute. reflexivity. Defined.

(** ** Configured rules extend the baseline *)
Section Configured.
Context (compile_error : string -> option string).

Lemma materialize_loop_prefix global : forall rules rules',
  materialize_loop compile_error rules global = Ok rules' -> rules `prefix_of` rules'.
Proof.
  induction global as [|rule global IH]; intros rules rules' H; cbn [materialize_loop] in H.
  - by injection H as ->.
  - apply result_bind_ok in H as (ip & _ & H). apply IH in H.
    etrans; [by eexists|exact H].
Qed.
End Configured.

(** no configuration can lift the baseline's denials: in the default and the
    permissive mode, a call that requires loading runtime code or deleting a path is
    denied whatever rules are configured on top. *)
Theorem baseline_denials_final compile_error partial_match mode global rules tool input caps cap :
  materialize_permissions compile_error mode global = Ok rules ->
  mode = default_ \/ mode = permissive ->
  cap = runtime_loader \/ cap = delete_path -> cap ∈ caps ->
  dec_verdict (evaluate partial_match rules tool input caps mode) = v_deny.
Proof.
  intros Hm Hmode Hcap Hin. unfold materialize_permissions in Hm.
  apply materialize_loop_prefix in Hm as [extra ->].
  apply (deny_rule_wins_aux partial_match _ (deny cap)); try done.
  - destruct Hmode as [-> | ->], Hcap as [-> | ->]; set_solver.
  - by apply tool_matches_any.
Qed.

Lemma baseline_denials_final_witness :
  dec_verdict (evaluate (fun _ _ => true)
    (permissive_baseline ++ [mkRule v_allow "*" (Some delete_path) None 8 3600])
    "FileDelete" "" [delete_path] permissive) = v_deny.
Proof.
  apply (baseline_denials_final (fun _ => None) _ _
    [mkRuleConfig "allow" "*" (Some delete_path) None None None]) with (cap := delete_path);
    [reflexivity|by right|by right|set_solver].
Defined.
