(* ===== verification/Config.v ===== *)
(** * oran-config

    Models [include/oran/config/config.hpp] and [src/oran-config/config.cpp]: the typed
    configuration, the reader of JSON objects that keeps the first failure and reports the
    keys nothing claimed, the expansion of environment references, and the loading of a
    file.  The reader [Fields] is a state monad [Read]; the state of the whole parse that the
    readers of a document share, strictness and warnings, is part of it.  The JSON parser,
    RE2, the environment and the file system are parameters. *)
From S2P Require Import Prelude.
From S2P Require Import Core.
From S2P Require Import Json.
From S2P Require Import Rules.
Import EnumNames.

(** ** Data *)
Record ConfigWarning := mkWarning { warning_path : string; warning_message : string }.
Record ToolOutputRuntimeConfig := mkToolOutput { max_text_bytes : Z; max_data_bytes : Z }.
Record ToolSchedulerRuntimeConfig := mkToolScheduler { max_parallel_tools : Z; per_call_timeout_ms : Z }.
Record PromptActiveToolsConfig := mkActiveTools { use_defaults : bool; tool_names : list string }.
Record PromptRuntimeConfig := mkPromptRuntime { active_tools : PromptActiveToolsConfig }.
Record StreamRuntimeConfig := mkStream { max_bytes : Z }.
Record RuntimeConfig := mkRuntime {
  workers : Z; request_timeout_ms : Z; tool_output : ToolOutputRuntimeConfig;
  tool_scheduler : ToolSchedulerRuntimeConfig; prompt : PromptRuntimeConfig; stream : StreamRuntimeConfig }.
Record ProviderPricingConfig := mkPricing {
  input_per_million_usd : option double; output_per_million_usd : option double;
  cache_creation_per_million_usd : option double; cache_read_per_million_usd : option double }.
Record PromptCacheConfig := mkCache { cache_enabled : bool; min_prefix_bytes : Z }.
Record ProfileConfig := mkProfile {
  profile_name : string; provider : string; protocol : option string; model : string;
  base_url : string; api_key_env : string; pricing : ProviderPricingConfig;
  thinking_budget : option Z; cache : option PromptCacheConfig }.
Record RouteConfig := mkRoute {
  route_name : string; primary_profile : string; fallback_profiles : list string }.
Record TraceConfig := mkTrace { trace_enabled : bool }.
Record HooksConfig := mkHooks { timeout_ms : Z }.
Record LongtermMemoryRecallConfig := mkRecall {
  recall_enabled : bool; recall_limit : Z; recall_kinds : list string }.
Record LongtermMemoryConfig := mkLongterm { recall : LongtermMemoryRecallConfig }.
Record MemoryConfig := mkMemory { longterm : LongtermMemoryConfig }.
Record WorkspacePermissionsConfig := mkWorkspace {
  extra_read_roots : list string; extra_write_roots : list string }.
Record PermissionsConfig := mkPermissions {
  rules : list PermissionRuleConfig; workspace : WorkspacePermissionsConfig }.
Record LoadOptions := mkLoadOptions { strict_unknown_fields : bool; max_file_bytes : Z }.
Record Config := mkConfig {
  strict_config : bool; runtime : RuntimeConfig; profiles : list ProfileConfig;
  routes : list RouteConfig; trace : TraceConfig; hooks : HooksConfig; memory : MemoryConfig;
  permissions : PermissionsConfig; config_warnings : list ConfigWarning }.

(** The default member initializers. *)
Definition default_runtime : RuntimeConfig :=
  mkRuntime 4 600000 (mkToolOutput (256 * 1024) (1024 * 1024)) (mkToolScheduler 4 60000)
    (mkPromptRuntime (mkActiveTools true [])) (mkStream (16 * 1024 * 1024)).
Definition default_pricing : ProviderPricingConfig := mkPricing None None None None.
Definition default_recall : LongtermMemoryRecallConfig := mkRecall true 20 [].
Definition default_config : Config :=
  mkConfig false default_runtime [] [] (mkTrace true) (mkHooks 2000)
    (mkMemory (mkLongterm default_recall)) (mkPermissions [] (mkWorkspace [] [])) [].
Definition named_profile (name : string) : ProfileConfig :=
  mkProfile name "" None "" "" "" default_pricing None None.
Definition named_route (name : string) : RouteConfig := mkRoute name "" [].
Definition default_cache : PromptCacheConfig := mkCache true 0.
Definition default_options : LoadOptions := mkLoadOptions false (16 * 1024 * 1024).

Definition kMaxInteger : Z := 2 ^ 63 - 1.

(** ** What the environment answers *)
(** The parser of the JSON library: a value, or an exception of one of the caught classes. *)
Inductive Document := Root (v : json) | ParseError (what : string) | JsonError (what : string) | Threw (what : string).
(** What the file system answers to the calls, in their order: [exists], [file_size], opening
    and reading; a call may also raise. *)
Inductive Io A := Answer (a : A) | FilesystemError (what : string) | StandardError (what : string).
Arguments Answer {A} a.
Arguments FilesystemError {A} what.
Arguments StandardError {A} what.
Record FileSystem := mkFileSystem {
  fs_exists : string -> Io (bool * option string);
  fs_file_size : string -> Io (string + Z);
  fs_open : string -> Io bool;
  fs_read : string -> Io (string * bool) }.

(** ** Paths and errors *)
Definition config_error (message path : string) : Error :=
  Errors.with_ctx (Errors.config message) "path" path.
Definition child_path (base child : string) : string :=
  (if bool_decide (base = "") || bool_decide (base = "$") then "$." +:+ child
   else base +:+ "." +:+ child)%string.
Definition element_path (base : string) (index : nat) : string :=
  (base +:+ "[" +:+ pretty index +:+ "]")%string.

(** ** Environment references *)
(** [std::isalnum] in the C locale. *)
Definition is_alnum (ch : ascii) : bool :=
  let c := code ch in ((48 <=? c) && (c <=? 57) || (65 <=? c) && (c <=? 90) || (97 <=? c) && (c <=? 122))%Z.
Definition valid_env_name (name : bytes) : bool :=
  negb (bool_decide (name = [])) && forallb (fun ch => is_alnum ch || Ascii.eqb ch "_") name.

Section Environment.
(** [std::getenv]. *)
Context (getenv : string -> option string).

(** What stands between the braces: a name, or a name and a default. *)
Definition reference_value (expr : bytes) (path : string) : Result bytes :=
  let marker := find_sub (lit ":-") expr in
  let has_default := match marker with Some _ => true | None => false end in
  let name := match marker with Some k => take k expr | None => expr end in
  let fallback := match marker with Some k => drop (k + 2) expr | None => [] end in
  fail? negb (valid_env_name name)
    with Errors.with_ctx (config_error "invalid environment variable name" path) "name" (str name);
  match getenv (str name) with
  | Some v =>
      if negb (bool_decide (v = ""%string)) || negb has_default then Ok (lit v)
      else Ok fallback
  | None =>
      if has_default then Ok fallback
      else Err (Errors.with_ctx (config_error "missing environment variable" path) "name" (str name))
  end.

(** The loop, on the input from the cursor on. *)
Fixpoint expand_loop (fuel : nat) (input output : bytes) (path : string) : Result bytes :=
  match fuel, input with
  | O, _ | _, [] => Ok output
  | S fuel, _ =>
      match find_sub (lit "${") input with
      | None => Ok (output ++ input)
      | Some start =>
          let after := drop (start + 2) input in
          match find_sub (lit "}") after with
          | None => Err (config_error "unterminated environment substitution" path)
          | Some end_ =>
              let? v := reference_value (take end_ after) path in
              expand_loop fuel (drop (S end_) after) (output ++ take start input ++ v) path
          end
      end
  end.

(** Every round moves the cursor on, so one unit of fuel per byte is enough. *)
Definition expand_env_string (input path : string) : Result string :=
  let? out := expand_loop (String.length input) (lit input) [] path in Ok (str out).
End Environment.

(** ** Numbers *)
Definition integer_value (value : json) (path : string) (min max : Z) : Result Z :=
  match value with
  | JInt parsed =>
      fail? (kMaxInteger <? parsed)%Z with config_error "integer is out of range" path;
      fail? (parsed <? min)%Z with
        config_error (if (min =? 1)%Z then "expected positive integer" else "expected non-negative integer") path;
      fail? (max <? parsed)%Z with
        Errors.with_ctx (config_error "integer is out of range" path) "max" (pretty max);
      Ok parsed
  | _ => Err (config_error "expected integer" path)
  end.

(** [value.get<double>()] of a number: an integer is rounded to nearest. *)
Definition number_of (value : json) : option double :=
  match value with
  | JInt z => Some (SpecFloat.binary_normalize 53 1024 z 0 false)
  | JFloat bits => Some (double_of_bits bits)
  | _ => None
  end.
Definition price_value (value : json) (path : string) : Result (option double) :=
  match number_of value with
  | None => Err (config_error "expected number" path)
  | Some parsed =>
      fail? negb (is_finite parsed) || SpecFloat.SFltb parsed double_zero
        with config_error "expected non-negative finite number" path;
      Ok (Some parsed)
  end.

(** ** [Fields]: the view of one JSON object *)
Record Fields := mkFields {
  value : json; path : string; strict : bool; warnings : list ConfigWarning;
  known : list string; error : option Error }.

Definition ok (f : Fields) : bool := match error f with None => true | Some _ => false end.
Definition path_of (f : Fields) (key : string) : string := child_path (path f) key.

(** [fail]: the first failure is kept. *)
Definition fail (e : Error) (f : Fields) : Fields :=
  if ok f then mkFields (value f) (path f) (strict f) (warnings f) (known f) (Some e) else f.

(** The constructor. *)
Definition open_fields (v : json) (p : string) (strict : bool) (w : list ConfigWarning) : Fields :=
  let f := mkFields v p strict w [] None in
  if is_object v then f else fail (config_error "expected object" p) f.

Definition Read (A : Type) : Type := Fields -> Fields * A.
Definition ret {A} (a : A) : Read A := fun f => (f, a).
Definition read_bind {A B} (m : Read A) (k : A -> Read B) : Read B := fun f => let '(f, a) := m f in k a f.
Notation "'read!' x := m 'in' k" := (read_bind m (fun x => k))
  (at level 10, x pattern, m at level 100, k at level 200) : oran_scope.
Definition modify (g : Fields -> Fields) : Read unit := fun f => (g f, tt).

Definition claim (key : string) (f : Fields) : Fields :=
  mkFields (value f) (path f) (strict f) (warnings f) (known f ++ [key]) (error f).
Definition with_warnings (w : list ConfigWarning) (f : Fields) : Fields :=
  mkFields (value f) (path f) (strict f) w (known f) (error f).
Definition with_strict (b : bool) (f : Fields) : Fields :=
  mkFields (value f) (path f) b (warnings f) (known f) (error f).

Definition take_key (key : string) : Read (option json) := fun f =>
  if ok f then (claim key f, jfind (value f) key) else (f, None).

(** [field]; [parse] returns the new value of what its lambda assigns. *)
Definition field {A} (key : string) (parse : json -> string -> Result A) (out : A) : Read A :=
  read! v := take_key key in
  match v with
  | None => ret out
  | Some v => fun f =>
      match parse v (path_of f key) with Ok a => (f, a) | Err e => (fail e f, out) end
  end.

Definition require (key : string) : Read unit := modify (fun f =>
  if ok f && negb (jcontains (value f) key) then fail (config_error "missing required field" (path_of f key)) f
  else f).

Definition boolean_value (v : json) (p : string) : Result bool :=
  match v with JBool b => Ok b | _ => Err (config_error "expected boolean" p) end.
Definition boolean (key : string) (out : bool) : Read bool := field key boolean_value out.
Definition integer (key : string) (out min max : Z) : Read Z :=
  field key (fun v p => integer_value v p min max) out.
(** The optional integers, cast to their width. *)
Definition optional_integer (cast : Z -> Z) (key : string) (out : option Z) (min max : Z) : Read (option Z) :=
  field key (fun v p => let? parsed := integer_value v p min max in Ok (Some (cast parsed))) out.
Definition price (key : string) (out : option double) : Read (option double) := field key price_value out.

Definition unknown (f : Fields) (key : string) : bool := negb (bool_decide (key ∈ known f)).
Definition members (v : json) : list (string * json) := match v with JObject m => m | _ => [] end.

(** The keys no read claimed: an error when strict, else a warning each. *)
Fixpoint finish_loop (keys : list string) (f : Fields) : Fields * Result unit :=
  match keys with
  | [] => (f, Ok tt)
  | key :: keys =>
      if unknown f key then
        if strict f then (f, Err (config_error "unknown config field" (path_of f key)))
        else finish_loop keys
               (with_warnings (warnings f ++ [mkWarning (path_of f key) "unknown config field"]) f)
      else finish_loop keys f
  end.
Definition finish (f : Fields) : Fields * Result unit :=
  match error f with
  | Some e => (f, Err e)
  | None => finish_loop (map fst (members (value f))) f
  end.

(** [nested]: a view of its own that shares the state of the parse. *)
Definition nested {A} (v : json) (p : string) (out : A) (parse : A -> Read A) : Read A := fun f =>
  let child := open_fields v p (strict f) (warnings f) in
  let '(child, out) := if ok child then parse out child else (child, out) in
  let '(child, finished) := finish child in
  let f := with_warnings (warnings child) f in
  (match finished with Ok _ => f | Err e => fail e f end, out).

Definition object {A} (key : string) (out : A) (parse : A -> Read A) : Read A :=
  read! v := take_key key in
  match v with
  | None => ret out
  | Some v => fun f => nested v (path_of f key) out parse f
  end.

Fixpoint entries_loop {A} (p : string) (named : string -> A) (parse : A -> Read A)
    (l : list (string * json)) (out : list A) : Read (list A) :=
  match l with
  | [] => ret out
  | (name, v) :: l =>
      read! entry := nested v (child_path p name) (named name) parse in
      fun f => if ok f then entries_loop p named parse l (out ++ [entry]) f else (f, out)
  end.
Definition entries {A} (key : string) (named : string -> A) (parse : A -> Read A) (out : list A) : Read (list A) :=
  read! map := take_key key in
  match map with
  | None => ret out
  | Some map => fun f =>
      if is_object map then entries_loop (path_of f key) named parse (members map) out f
      else (fail (config_error "expected object" (path_of f key)) f, out)
  end.

(** ** Texts *)
Section Texts.
Context (getenv : string -> option string).

Definition string_value (v : json) (p : string) (non_empty : bool) : Result string :=
  match v with
  | JString s =>
      let? expanded := expand_env_string getenv s p in
      fail? non_empty && bool_decide (expanded = ""%string) with config_error "expected non-empty string" p;
      Ok expanded
  | _ => Err (config_error "expected string" p)
  end.
Fixpoint string_items (l : list json) (i : nat) (p : string) (non_empty : bool) : Result (list string) :=
  match l with
  | [] => Ok []
  | v :: l =>
      let? item := string_value v (element_path p i) non_empty in
      let? items := string_items l (S i) p non_empty in Ok (item :: items)
  end.
Definition string_array (v : json) (p : string) (non_empty : bool) : Result (list string) :=
  match v with
  | JArray l => string_items l 0 p non_empty
  | _ => Err (config_error "expected array" p)
  end.

Definition string_ (key : string) (out : string) (non_empty : bool) : Read string :=
  field key (fun v p => string_value v p non_empty) out.
Definition optional_string (key : string) (out : option string) (non_empty : bool) : Read (option string) :=
  field key (fun v p => let? parsed := string_value v p non_empty in Ok (Some parsed)) out.
Definition required_string (key : string) (out : string) (non_empty : bool) : Read string :=
  read! _ := require key in string_ key out non_empty.
Definition strings (key : string) (out : list string) (non_empty : bool) : Read (list string) :=
  field key (fun v p => string_array v p non_empty) out.

(** ** The sections of a document *)
Definition parse_tool_output (out : ToolOutputRuntimeConfig) : Read ToolOutputRuntimeConfig :=
  read! text := integer "max_text_bytes" (max_text_bytes out) 1 kMaxInteger in
  read! data := integer "max_data_bytes" (max_data_bytes out) 1 kMaxInteger in
  ret (mkToolOutput text data).

Definition parse_tool_scheduler (out : ToolSchedulerRuntimeConfig) : Read ToolSchedulerRuntimeConfig :=
  read! tools := integer "max_parallel_tools" (max_parallel_tools out) 1 kMaxInteger in
  read! timeout := integer "per_call_timeout_ms" (per_call_timeout_ms out) 1 kMaxInteger in
  ret (mkToolScheduler tools timeout).

(** The text holds quotation marks, which are spelled by their code. *)
Definition quoted_defaults : string :=
  ("expected " +:+ str [ascii_of_nat 34] +:+ "defaults" +:+ str [ascii_of_nat 34] +:+ " or array of tool names")%string.
Fixpoint tool_name_items (l : list json) (i : nat) (p : string) : Result (list string) :=
  match l with
  | [] => Ok []
  | JString s :: l =>
      fail? bool_decide (s = ""%string) with config_error "expected non-empty string" (element_path p i);
      let? names := tool_name_items l (S i) p in Ok (s :: names)
  | _ :: _ => Err (config_error "expected non-empty string" (element_path p i))
  end.
Definition active_tools_value (out : PromptActiveToolsConfig) (v : json) (p : string)
    : Result PromptActiveToolsConfig :=
  match v with
  | JString s =>
      fail? negb (bool_decide (s = "defaults"%string)) with Errors.with_ctx (config_error quoted_defaults p) "value" s;
      Ok out
  | JArray l => let? names := tool_name_items l 0 p in Ok (mkActiveTools false names)
  | _ => Err (config_error quoted_defaults p)
  end.
Definition parse_prompt (out : PromptRuntimeConfig) : Read PromptRuntimeConfig :=
  read! tools := field "active_tools" (active_tools_value (active_tools out)) (active_tools out) in
  ret (mkPromptRuntime tools).

Definition parse_stream (out : StreamRuntimeConfig) : Read StreamRuntimeConfig :=
  read! n := integer "max_bytes" (max_bytes out) 1 kMaxInteger in ret (mkStream n).

Definition parse_runtime (out : RuntimeConfig) : Read RuntimeConfig :=
  read! w := integer "workers" (workers out) 1 kMaxInteger in
  read! t := integer "request_timeout_ms" (request_timeout_ms out) 1 kMaxInteger in
  read! o := object "tool_output" (tool_output out) parse_tool_output in
  read! s := object "tool_scheduler" (tool_scheduler out) parse_tool_scheduler in
  read! p := object "prompt" (prompt out) parse_prompt in
  read! m := object "stream" (stream out) parse_stream in
  ret (mkRuntime w t o s p m).

Definition parse_trace (out : TraceConfig) : Read TraceConfig :=
  read! b := boolean "enabled" (trace_enabled out) in ret (mkTrace b).
Definition parse_hooks (out : HooksConfig) : Read HooksConfig :=
  read! t := integer "timeout_ms" (timeout_ms out) 1 kMaxInteger in ret (mkHooks t).

(** The loop over the kinds: one that occurs before its place fails. *)
Fixpoint check_kinds (before kinds : list string) (p : string) (f : Fields) : Fields :=
  match kinds with
  | [] => f
  | kind :: kinds =>
      let f := if bool_decide (kind ∈ before)
        then fail (config_error "long-term memory recall kind must be unique" (element_path p (length before))) f
        else f in
      check_kinds (before ++ [kind]) kinds p f
  end.
Definition check_recall (kinds : list string) (f : Fields) : Fields :=
  if negb (ok f) || negb (jcontains (value f) "kinds") then f
  else
    let p := path_of f "kinds" in
    let f := if bool_decide (kinds = [])
      then fail (config_error "long-term memory recall kinds must not be empty" p) f else f in
    check_kinds [] kinds p f.
Definition parse_recall (out : LongtermMemoryRecallConfig) : Read LongtermMemoryRecallConfig :=
  read! b := boolean "enabled" (recall_enabled out) in
  read! n := integer "limit" (recall_limit out) 1 20 in
  read! k := strings "kinds" (recall_kinds out) true in
  read! _ := modify (check_recall k) in
  ret (mkRecall b n k).
Definition parse_longterm (out : LongtermMemoryConfig) : Read LongtermMemoryConfig :=
  read! r := object "recall" (recall out) parse_recall in ret (mkLongterm r).
Definition parse_memory (out : MemoryConfig) : Read MemoryConfig :=
  read! l := object "longterm" (longterm out) parse_longterm in ret (mkMemory l).

Definition parse_cache (_ : option PromptCacheConfig) : Read (option PromptCacheConfig) :=
  read! b := boolean "enabled" (cache_enabled default_cache) in
  read! n := integer "min_prefix_bytes" (min_prefix_bytes default_cache) 0 kMaxInteger in
  ret (Some (mkCache b n)).

Definition parse_pricing (out : ProviderPricingConfig) : Read ProviderPricingConfig :=
  read! i := price "input_per_million_usd" (input_per_million_usd out) in
  read! o := price "output_per_million_usd" (output_per_million_usd out) in
  read! c := price "cache_creation_per_million_usd" (cache_creation_per_million_usd out) in
  read! r := price "cache_read_per_million_usd" (cache_read_per_million_usd out) in
  ret (mkPricing i o c r).

Definition max_uint32 : Z := 2 ^ 32 - 1.
Definition parse_profile (out : ProfileConfig) : Read ProfileConfig :=
  read! p := required_string "provider" (provider out) false in
  read! w := optional_string "protocol" (protocol out) true in
  read! m := required_string "model" (model out) false in
  read! u := required_string "base_url" (base_url out) false in
  read! k := required_string "api_key_env" (api_key_env out) false in
  read! c := object "pricing" (pricing out) parse_pricing in
  read! t := optional_integer (wrap_u 32) "thinking_budget" (thinking_budget out) 1 max_uint32 in
  read! h := object "cache" (cache out) parse_cache in
  ret (mkProfile (profile_name out) p w m u k c t h).

Definition parse_route (out : RouteConfig) : Read RouteConfig :=
  read! p := required_string "primary" (primary_profile out) false in
  read! l := strings "fallbacks" (fallback_profiles out) false in
  ret (mkRoute (route_name out) p l).

Definition parse_workspace (out : WorkspacePermissionsConfig) : Read WorkspacePermissionsConfig :=
  read! r := strings "extra_read_roots" (extra_read_roots out) false in
  read! w := strings "extra_write_roots" (extra_write_roots out) false in
  ret (mkWorkspace r w).

Definition capability_value (v : json) (p : string) : Result (option Capability) :=
  match v with
  | JString text =>
      match parse_enum text with
      | Some c => Ok (Some c)
      | None => Err (Errors.with_ctx (config_error "unknown capability spelling" p) "capability" text)
      end
  | _ => Err (config_error "expected string" p)
  end.

(** ** Permission rules *)
Section Rules.
(** What RE2 says of a pattern it does not accept. *)
Context (compile_error : string -> option string).

Definition check_pattern (pattern : option string) (f : Fields) : Fields :=
  match pattern with
  | Some p =>
      if ok f then
        match compile_error p with
        | Some message =>
            fail (Errors.with_ctx (config_error "invalid input_pattern regex" (path_of f "input_pattern"))
                   "regex_error" message) f
        | None => f
        end
      else f
  | None => f
  end.

Definition parse_rule (out : PermissionRuleConfig) : Read PermissionRuleConfig :=
  read! t := required_string "tool_pattern" (rc_tool_pattern out) true in
  read! c := field "capability" capability_value (rc_capability out) in
  read! i := optional_string "input_pattern" (rc_input_pattern out) true in
  read! _ := modify (check_pattern i) in
  read! n := optional_integer (wrap_u 32) "replay_max" (rc_replay_max out) 0 max_uint32 in
  read! s := optional_integer (fun z => z) "approval_ttl_seconds" (rc_approval_ttl_seconds out) 0 kMaxInteger in
  ret (mkRuleConfig (rc_verdict out) t c i n s).

Definition empty_rule (verdict : Verdict) : PermissionRuleConfig :=
  mkRuleConfig (enum_name verdict) "" None None None None.

(** The rules of one key, while nothing failed. *)
Fixpoint rules_loop (verdict : Verdict) (l : list json) (i : nat) (p : string) (out : list PermissionRuleConfig)
    : Read (list PermissionRuleConfig) :=
  match l with
  | [] => ret out
  | v :: l => fun f =>
      if ok f then
        (read! rule := nested v (element_path p i) (empty_rule verdict) parse_rule in
         rules_loop verdict l (S i) p (out ++ [rule])) f
      else (f, out)
  end.

(** The keys in document order; [PermissionVerdict] has the spellings of [Verdict]. *)
Fixpoint verdicts_loop (keys : list string) (out : list PermissionRuleConfig) : Read (list PermissionRuleConfig) :=
  match keys with
  | [] => ret out
  | key :: keys =>
      match parse_enum (E := Verdict) key with
      | None => verdicts_loop keys out
      | Some verdict =>
          read! found := take_key key in
          match found with
          | None => ret out
          | Some (JArray l) => fun f =>
              (read! out := rules_loop verdict l 0 (path_of f key) out in verdicts_loop keys out) f
          | Some _ => fun f => (fail (config_error "expected array" (path_of f key)) f, out)
          end
      end
  end.

Definition parse_permissions (out : PermissionsConfig) : Read PermissionsConfig :=
  read! w := object "workspace" (workspace out) parse_workspace in
  fun f =>
    (read! r := verdicts_loop (map fst (members (value f))) (rules out) in
     ret (mkPermissions r w)) f.

(** ** [Config::parse] *)
(** What follows [strict_config] at the root. *)
Definition parse_sections (strict_config : bool) : Read Config :=
  read! run := object "runtime" (runtime default_config) parse_runtime in
  read! pro := entries "profiles" named_profile parse_profile (profiles default_config) in
  read! rou := entries "routes" named_route parse_route (routes default_config) in
  read! tra := object "trace" (trace default_config) parse_trace in
  read! hoo := object "hooks" (hooks default_config) parse_hooks in
  read! mem := object "memory" (memory default_config) parse_memory in
  read! per := object "permissions" (permissions default_config) parse_permissions in
  ret (mkConfig strict_config run pro rou tra hoo mem per []).

Definition parse_root (options : LoadOptions) : Read Config :=
  read! s := boolean "strict_config" (strict_config default_config) in
  read! _ := modify (with_strict (strict_unknown_fields options || s)) in
  parse_sections s.

Definition set_warnings (w : list ConfigWarning) (c : Config) : Config :=
  mkConfig (strict_config c) (runtime c) (profiles c) (routes c) (trace c) (hooks c) (memory c) (permissions c) w.

Definition parse_json (root : json) (options : LoadOptions) : Result Config :=
  let '(f, config) := parse_root options (open_fields root "$" false []) in
  let '(f, finished) := finish f in
  let? _ := finished in Ok (set_warnings (warnings f) config).

Context (read_json : string -> Document).

Definition parse (contents : string) (options : LoadOptions) : Result Config :=
  match read_json contents with
  | Root v => parse_json v options
  | ParseError what => Err (Errors.with_ctx (Errors.config "failed to parse config JSON") "detail" what)
  | JsonError what => Err (Errors.with_ctx (Errors.config "failed to read config JSON") "detail" what)
  | Threw what => Err (Errors.with_ctx (Errors.internal "config parser failed") "detail" what)
  end.

(** ** [Config::load_file] *)
Definition on_answer {A B} (path : string) (x : Io A) (k : A -> Result B) : Result B :=
  match x with
  | Answer a => k a
  | FilesystemError what =>
      Err (Errors.with_ctx (Errors.with_ctx (Errors.io "failed to load config file") "path" path) "detail" what)
  | StandardError what =>
      Err (Errors.with_ctx (Errors.with_ctx (Errors.internal "config file load failed") "path" path) "detail" what)
  end.

Definition load_file (fs : FileSystem) (path : string) (options : LoadOptions) : Result Config :=
  let with_path e := Errors.with_ctx e "path" path in
  fail? bool_decide (path = ""%string) with Errors.invalid_argument "config path is empty";
  on_answer path (fs_exists fs path) (fun '(exists_, ec) =>
    if negb exists_ then
      Err match ec with
          | Some detail => Errors.with_ctx (with_path (Errors.io "failed to check config file")) "detail" detail
          | None => with_path (Errors.not_found "config file not found")
          end
    else on_answer path (fs_file_size fs path) (fun size =>
      match size with
      | inl detail => Err (Errors.with_ctx (with_path (Errors.io "failed to stat config file")) "detail" detail)
      | inr file_size =>
          fail? (max_file_bytes options <? file_size)%Z with
            Errors.with_ctx (Errors.with_ctx (with_path (Errors.invalid_argument "config file exceeds max_bytes"))
              "size" (pretty file_size)) "max_bytes" (pretty (max_file_bytes options));
          on_answer path (fs_open fs path) (fun opened =>
            fail? negb opened with with_path (Errors.io "failed to open config file");
            on_answer path (fs_read fs path) (fun '(contents, bad) =>
              fail? bad with with_path (Errors.io "failed to read config file");
              parse contents options))
      end)).
End Rules.
End Texts.

(** ** Environment references, as a relation

    The text is read once, from left to right; what a reference stands for is put in its
    place and is not looked at again. *)
Section EnvironmentTheory.
Context (getenv : string -> option string) (p : string).

Inductive Expands : bytes -> bytes -> Prop :=
  | expands_plain s : (forall i, starts_with (lit "${") (drop i s) = false) -> Expands s s
  | expands_reference before expr rest v out :
      (forall i, i < length before ->
        starts_with (lit "${") (drop i (before ++ lit "${" ++ expr ++ "}"%char :: rest)) = false) ->
      "}"%char ∉ expr -> reference_value getenv expr p = Ok v -> Expands rest out ->
      Expands (before ++ lit "${" ++ expr ++ "}"%char :: rest) (before ++ v ++ out).

Lemma find_close s :
  match find_sub (lit "}") s with
  | Some k => "}"%char ∉ take k s /\ s = take k s ++ "}"%char :: drop (S k) s
  | None => "}"%char ∉ s
  end.
Proof.
  assert (Hhead : forall l, starts_with (lit "}") l = bool_decide (head l = Some "}"%char)).
  { intros [|c l]; [done|]. change (starts_with (lit "}") (c :: l)) with (Ascii.eqb "}" c && true).
    rewrite andb_true_r. destruct (Ascii.eqb_spec "}" c) as [<-|]; [done|]. symmetry. apply bool_decide_eq_false.
    cbn. congruence. }
  assert (Hnot : forall l, (forall i, i < length l -> starts_with (lit "}") (drop i l) = false) -> "}"%char ∉ l).
  { intros l Hl [i Hi]%list_elem_of_lookup. pose proof (lookup_lt_Some _ _ _ Hi) as Hlt.
    specialize (Hl i Hlt). rewrite Hhead in Hl. bool_prop. rewrite (drop_S _ _ _ Hi) in Hl. done. }
  pose proof (find_sub_spec (lit "}") s) as H. destruct (find_sub (lit "}") s) as [k|]; [|by apply Hnot; intros i _].
  destruct H as (Hm & Hk & Hfirst). rewrite Hhead in Hm. bool_prop. split.
  - apply Hnot. intros i Hi. rewrite length_take in Hi. specialize (Hfirst i ltac:(lia)). rewrite Hhead in *.
    bool_prop. apply bool_decide_eq_false. intros E. apply Hfirst.
    destruct (drop i (take k s)) eqn:Ed; [done|]. cbn in E. simplify_eq. apply (f_equal (lookup 0)) in Ed. cbn in Ed.
    rewrite lookup_drop, Nat.add_0_r, lookup_take_lt in Ed by lia. by rewrite (drop_S _ _ _ Ed).
  - rewrite <- (take_drop k s) at 1. f_equal. destruct (drop k s) as [|c l] eqn:E; [done|]. cbn in Hm. simplify_eq.
    f_equal. by replace (S k) with (k + 1) by lia; rewrite <- drop_drop, E.
Qed.

(** The first occurrence is where a text was put behind one that holds none. *)
Lemma find_sub_here needle before rest :
  (forall i, i < length before -> starts_with needle (drop i (before ++ needle ++ rest)) = false) ->
  find_sub needle (before ++ needle ++ rest) = Some (length before).
Proof.
  intros Hb. pose proof (find_sub_spec needle (before ++ needle ++ rest)) as H.
  assert (Hm : starts_with needle (drop (length before) (before ++ needle ++ rest)) = true)
    by (rewrite drop_app_length; apply starts_with_app).
  destruct (find_sub _ _) as [k|]; [|by rewrite H in Hm]. destruct H as (Hk & _ & Hfirst). f_equal.
  destruct (lt_eq_lt_dec k (length before)) as [[Hlt| ->]|Hlt]; [|done|].
  - by rewrite Hb in Hk.
  - by rewrite Hfirst in Hm.
Qed.

Lemma find_close_here expr rest : "}"%char ∉ expr -> find_sub (lit "}") (expr ++ "}"%char :: rest) = Some (length expr).
Proof.
  intros He. apply (find_sub_here (lit "}") expr rest). intros i Hi.
  destruct (lookup_lt_is_Some_2 expr i Hi) as [c Hc].
  rewrite (drop_S (expr ++ _) c i) by (by apply lookup_app_l_Some).
  change (Ascii.eqb "}" c && true = false). rewrite andb_true_r. apply Ascii.eqb_neq. intros <-.
  apply He. by eapply list_elem_of_lookup_2.
Qed.

(** One round of the loop, on a text that holds a reference. *)
Lemma expand_loop_reference fuel before expr rest output :
  (forall i, i < length before ->
    starts_with (lit "${") (drop i (before ++ lit "${" ++ expr ++ "}"%char :: rest)) = false) ->
  "}"%char ∉ expr ->
  expand_loop getenv (S fuel) (before ++ lit "${" ++ expr ++ "}"%char :: rest) output p =
    let? v := reference_value getenv expr p in expand_loop getenv fuel rest (output ++ before ++ v) p.
Proof.
  intros Hb He. set (text := before ++ _). assert (Hne : text <> []) by (by destruct before).
  assert (Hs : find_sub (lit "${") text = Some (length before)) by (by apply find_sub_here).
  cbn [expand_loop]. destruct text as [|c l] eqn:Et; [done|]. rewrite <- Et in *. rewrite Hs.
  assert (Ha : drop (length before + 2) text = expr ++ "}"%char :: rest)
    by (unfold text; by rewrite <- drop_drop, drop_app_length).
  rewrite Ha, find_close_here by done. rewrite take_app_length.
  replace (drop (S (length expr)) (expr ++ "}"%char :: rest)) with rest
    by (replace (S (length expr)) with (length expr + 1) by lia; by rewrite <- drop_drop, drop_app_length).
  unfold text. by rewrite take_app_length.
Qed.

(** Every text is plain, or has a first reference, or one that does not end. *)
Lemma reference_cases text :
  (forall i, starts_with (lit "${") (drop i text) = false) \/
  exists before after, text = before ++ lit "${" ++ after /\
    (forall i, i < length before -> starts_with (lit "${") (drop i text) = false) /\
    ("}"%char ∉ after \/ exists expr rest, after = expr ++ "}"%char :: rest /\ "}"%char ∉ expr).
Proof.
  pose proof (find_sub_spec (lit "${") text) as H. destruct (find_sub (lit "${") text) as [k|]; [right|by left].
  destruct H as (Hm & Hk & Hfirst). apply starts_with_spec in Hm as [after Ha].
  exists (take k text), after. split_and!.
  - by rewrite <- Ha, take_drop.
  - intros i Hi. apply Hfirst. rewrite length_take in Hi. lia.
  - pose proof (find_close after) as Hc. destruct (find_sub (lit "}") after) as [e|]; [|by left].
    right. destruct Hc as [Hn He]. eauto.
Qed.

(** What a text with a first reference expands to. *)
Lemma expands_reference_inv before expr rest v :
  (forall i, i < length before ->
    starts_with (lit "${") (drop i (before ++ lit "${" ++ expr ++ "}"%char :: rest)) = false) ->
  "}"%char ∉ expr -> Expands (before ++ lit "${" ++ expr ++ "}"%char :: rest) v ->
  exists w o, reference_value getenv expr p = Ok w /\ Expands rest o /\ v = before ++ w ++ o.
Proof.
  intros Hb He Hv. inversion Hv as [s Hp|before' expr' rest' w o Hb' He' Hr Ho Ht]; subst.
  { specialize (Hp (length before)). by rewrite drop_app_length, starts_with_app in Hp. }
  change (before' ++ lit "${" ++ expr' ++ "}"%char :: rest' = before ++ lit "${" ++ expr ++ "}"%char :: rest) in Ht.
  pose proof (find_sub_here _ _ _ Hb') as E1. rewrite Ht, find_sub_here in E1 by done. injection E1 as E1.
  apply app_inj_1 in Ht as [-> Ht]; [|done]. injection Ht as Ht.
  pose proof (find_close_here _ rest' He') as E2. rewrite Ht, find_close_here in E2 by done. injection E2 as E2.
  apply app_inj_1 in Ht as [-> Ht]; [|done]. injection Ht as ->. eauto.
Qed.

(** A text with a reference that does not end expands to nothing. *)
Lemma open_reference before after :
  (forall i, i < length before -> starts_with (lit "${") (drop i (before ++ lit "${" ++ after)) = false) ->
  "}"%char ∉ after ->
  (forall v, ~ Expands (before ++ lit "${" ++ after) v) /\
  forall fuel output, expand_loop getenv (S fuel) (before ++ lit "${" ++ after) output p =
    Err (config_error "unterminated environment substitution" p).
Proof.
  intros Hb Hn. split.
  - intros v Hv. inversion Hv as [s Hp|before' expr rest w o Hb' He Hr Ho Ht]; subst.
    + specialize (Hp (length before)). by rewrite drop_app_length, starts_with_app in Hp.
    + change (before' ++ lit "${" ++ expr ++ "}"%char :: rest = before ++ lit "${" ++ after) in Ht.
      pose proof (find_sub_here _ _ _ Hb') as E. rewrite Ht, find_sub_here in E by done. injection E as E.
      apply app_inj_1 in Ht as [_ Ht]; [|done]. injection Ht as <-. apply Hn. set_solver.
  - intros fuel output. pose proof (find_sub_here _ _ _ Hb) as Hs. cbn [expand_loop].
    destruct (before ++ _) as [|c l] eqn:Et; [by destruct before|]. rewrite Hs, <- Et, <- drop_drop, drop_app_length.
    change (drop 2 (lit "${" ++ after)) with after. pose proof (find_close after) as Hc.
    destruct (find_sub (lit "}") after); [|done]. destruct Hc as [_ Hc]. exfalso. apply Hn. rewrite Hc. set_solver.
Qed.

Lemma plain_text fuel text output v :
  (forall i, starts_with (lit "${") (drop i text) = false) ->
  expand_loop getenv (S fuel) text output p = Ok (output ++ text) /\ (Expands text v <-> v = text).
Proof.
  intros Hp. split.
  - pose proof (find_sub_spec (lit "${") text) as H. cbn [expand_loop]. destruct text; [by rewrite app_nil_r|].
    destruct (find_sub _ _) as [k|]; [|done]. destruct H as [H _]. by rewrite Hp in H.
  - split; [|by intros ->; constructor]. intros Hv. inversion Hv as [|before]; subst; [done|].
    specialize (Hp (length before)). by rewrite drop_app_length, starts_with_app in Hp.
Qed.

(** The loop appends to its output what the text expands to. *)
Lemma expand_loop_spec fuel : forall text output out,
  length text <= fuel ->
  expand_loop getenv fuel text output p = Ok out <-> exists v, out = output ++ v /\ Expands text v.
Proof.
  induction fuel as [|fuel IH]; intros text output out Hf.
  { destruct text; [|cbn in Hf; lia]. destruct (plain_text 0 [] output (drop (length output) out)) as [E H];
      [by intros i; rewrite drop_nil|].
    change (expand_loop getenv 0 [] output p) with (expand_loop getenv 1 [] output p). rewrite E. split.
    - intros [= <-]. exists []. split; [done|]. rewrite drop_app_length in H. by apply H.
    - intros (v & -> & Hv). rewrite drop_app_length in H. by apply H in Hv as ->. }
  destruct (reference_cases text) as [Hp|(before & after & -> & Hb & Hc)].
  - destruct (plain_text fuel text output text Hp) as [-> Ht]. split; [intros [= <-]; exists text; naive_solver|].
    intros (v & -> & Hv). f_equal. f_equal. symmetry. by apply (plain_text 0 text [] v Hp).
  - destruct Hc as [Hn|(expr & rest & -> & He)].
    { destruct (open_reference before after Hb Hn) as [Hno ->]. split; [done|]. intros (v & _ & Hv). by apply Hno in Hv. }
    rewrite expand_loop_reference by done.
    assert (Hr : length rest <= fuel) by (repeat (rewrite length_app in Hf; cbn in Hf); lia). split.
    + intros H. ok_inv. apply IH in H as (v & -> & Hv); [|done]. rewrite <- !app_assoc. eexists; split; [done|].
      by constructor.
    + intros (v & -> & Hv). apply expands_reference_inv in Hv as (w & o & -> & Ho & ->); [|done..]. cbn.
      apply IH; [done|]. exists o. by rewrite <- !app_assoc.
Qed.
End EnvironmentTheory.

(** ** Strictness only decides what unknown keys do

    [Plain] readers do not look at the state of the parse; [Uniform] ones use it only to
    report unknown keys: as long as nothing is reported, a strict and a lenient run agree. *)
Class Plain {A} (m : Read A) : Prop := {
  plain_strict : forall f b, m (with_strict b f) = (with_strict b (m f).1, (m f).2);
  plain_kept : forall f, strict (m f).1 = strict f /\ value (m f).1 = value f /\ warnings (m f).1 = warnings f;
  plain_sticky : forall f, ok f = false -> ok (m f).1 = false }.

Class Uniform {A} (m : Read A) : Prop := {
  uniform_kept : forall f, strict (m f).1 = strict f /\ value (m f).1 = value f;
  uniform_sticky : forall f, ok f = false -> ok (m f).1 = false;
  uniform_grows : forall f, warnings f `prefix_of` warnings (m f).1;
  uniform_quiet : forall f, strict f = true -> warnings (m f).1 = warnings f;
  uniform_lenient : forall f, strict f = true -> ok (m f).1 = true ->
    m (with_strict false f) = (with_strict false (m f).1, (m f).2);
  uniform_strict : forall f, strict f = false -> ok (m f).1 = true -> warnings (m f).1 = warnings f ->
    m (with_strict true f) = (with_strict true (m f).1, (m f).2) }.

#[export] Instance plain_uniform {A} (m : Read A) : Plain m -> Uniform m.
Proof.
  intros [H1 H2 H3]. split; intros f; destruct (H2 f) as (Hs & Hv & Hw); auto.
  by rewrite Hw.
Qed.

Lemma with_strict_self f : with_strict (strict f) f = f.
Proof. by destruct f. Qed.

#[export] Instance ret_plain {A} (a : A) : Plain (ret a).
Proof. by split. Qed.

#[export] Instance bind_plain {A B} (m : Read A) (k : A -> Read B) :
  Plain m -> (forall a, Plain (k a)) -> Plain (read_bind m k).
Proof.
  intros [H1 H2 H3] Hk. unfold read_bind. split; intros f.
  - intros b. rewrite H1. destruct (m f) as [g a]; cbn. apply Hk.
  - destruct (H2 f) as (Hs & Hv & Hw). destruct (m f) as [g a]; cbn in *.
    destruct (plain_kept (m := k a) g) as (-> & -> & ->). done.
  - intros Hf. specialize (H3 f Hf). destruct (m f) as [g a]. by apply Hk.
Qed.

#[export] Instance bind_uniform {A B} (m : Read A) (k : A -> Read B) :
  Uniform m -> (forall a, Uniform (k a)) -> Uniform (read_bind m k).
Proof.
  intros [H1 H2 H3 H4 H5 H6] Hk. unfold read_bind. split; intros f.
  - destruct (H1 f) as [Hs Hv]. destruct (m f) as [g a]; cbn in *.
    by destruct (uniform_kept (m := k a) g) as [-> ->].
  - intros Hf. specialize (H2 f Hf). destruct (m f) as [g a]. by apply Hk.
  - specialize (H3 f). destruct (m f) as [g a]; cbn in *. etrans; [done|apply Hk].
  - intros Hf. specialize (H4 f Hf). destruct (H1 f) as [Hs _]. destruct (m f) as [g a]; cbn in *.
    rewrite (uniform_quiet (m := k a) g); congruence.
  - intros Hf Ho. destruct (H1 f) as [Hs _]. specialize (H5 f Hf). destruct (m f) as [g a]; cbn in *.
    rewrite H5; [apply Hk; congruence|]. destruct (ok g) eqn:Eg; [done|]. by rewrite (uniform_sticky (m := k a) g) in Ho.
  - intros Hf Ho Hw. destruct (H1 f) as [Hs _]. specialize (H6 f Hf). specialize (H3 f). destruct (m f) as [g a]; cbn in *.
    pose proof (uniform_grows (m := k a) g) as Hg. rewrite Hw in Hg.
    assert (E : warnings g = warnings f) by (by apply (anti_symm prefix)).
    rewrite H6; [apply Hk; congruence| |done]. destruct (ok g) eqn:Eg; [done|].
    by rewrite (uniform_sticky (m := k a) g) in Ho.
Qed.

(** What a reader that looks at its view first is, it is for every view. *)
Lemma fail_ok e f : ok (fail e f) = false.
Proof. unfold fail. destruct (ok f) eqn:E; [done|]. by rewrite E. Qed.
Lemma fail_with_strict e b f : fail e (with_strict b f) = with_strict b (fail e f).
Proof. unfold fail, ok. by destruct f as [? ? ? ? ? []]. Qed.
Lemma fail_kept e f :
  strict (fail e f) = strict f /\ value (fail e f) = value f /\ warnings (fail e f) = warnings f.
Proof. unfold fail. by destruct (ok f). Qed.

#[export] Instance take_key_plain key : Plain (take_key key).
Proof. unfold take_key. split; intros f; [intros b| |]; unfold ok; destruct f as [? ? ? ? ? []]; cbn; done. Qed.

#[export] Instance field_plain {A} key (parse : json -> string -> Result A) out : Plain (field key parse out).
Proof.
  unfold field. apply bind_plain; [apply _|]. intros [v|]; [|apply _]. split; intros f.
  - intros b. change (path_of (with_strict b f) key) with (path_of f key).
    destruct (parse v _); [done|]. by rewrite fail_with_strict.
  - destruct (parse v _); [done|]. apply fail_kept.
  - intros Hf. destruct (parse v _); [done|]. apply fail_ok.
Qed.

(** Steps that only may fail. *)
Definition failing (g : Fields -> Fields) : Prop := forall f,
  (forall b, g (with_strict b f) = with_strict b (g f)) /\
  (strict (g f) = strict f /\ value (g f) = value f /\ warnings (g f) = warnings f) /\
  (ok f = false -> ok (g f) = false).

Lemma failing_plain g : failing g -> Plain (modify g).
Proof.
  intros H. unfold modify. split; intros f; destruct (H f) as (H1 & H2 & H3); [|done..].
  intros b. cbn. by rewrite H1.
Qed.
Lemma failing_id : failing (fun f => f).
Proof. done. Qed.
Lemma failing_compose g h : failing g -> failing h -> failing (fun f => h (g f)).
Proof.
  intros Hg Hh f. destruct (Hg f) as (G1 & (G2 & G3 & G4) & G5), (Hh (g f)) as (H1 & (H2 & H3 & H4) & H5).
  split_and!; [intros b; by rewrite G1|congruence..|auto].
Qed.
Lemma failing_if (c : Fields -> bool) g h : (forall b f, c (with_strict b f) = c f) ->
  failing g -> failing h -> failing (fun f => if c f then g f else h f).
Proof.
  intros Hc Hg Hh f. destruct (Hg f) as (G1 & G2 & G3), (Hh f) as (H1 & H2 & H3).
  split_and!; [intros b; rewrite Hc|..]; destruct (c f); naive_solver.
Qed.
Lemma failing_fail (e : Fields -> Error) : (forall b f, e (with_strict b f) = e f) ->
  failing (fun f => fail (e f) f).
Proof.
  intros He f. split_and!; [intros b; rewrite He; apply fail_with_strict|apply fail_kept..|intros _; apply fail_ok].
Qed.

#[export] Instance require_plain key : Plain (require key).
Proof. apply failing_plain, failing_if; [done|by apply failing_fail|apply failing_id]. Qed.

Lemma check_kinds_failing kinds p : forall before, failing (check_kinds before kinds p).
Proof.
  induction kinds as [|k kinds IH]; intros before; [apply failing_id|]. cbn [check_kinds].
  apply (failing_compose (fun f => if bool_decide (k ∈ before)
    then fail (config_error "long-term memory recall kind must be unique" (element_path p (length before))) f
    else f)); [|apply IH].
  apply (failing_if (fun _ => bool_decide (k ∈ before))); [done|by apply (failing_fail (fun _ => _))|apply failing_id].
Qed.
#[export] Instance check_recall_plain kinds : Plain (modify (check_recall kinds)).
Proof.
  apply failing_plain. intros f. unfold check_recall.
  assert (H : failing (fun g => check_kinds [] kinds (path_of f "kinds")
    (if bool_decide (kinds = [])
     then fail (config_error "long-term memory recall kinds must not be empty" (path_of f "kinds")) g else g))).
  { apply (failing_compose (fun g => if bool_decide (kinds = [])
      then fail (config_error "long-term memory recall kinds must not be empty" (path_of f "kinds")) g else g));
      [|apply check_kinds_failing].
    apply (failing_if (fun _ => bool_decide (kinds = []))); [done|by apply (failing_fail (fun _ => _))|apply failing_id]. }
  destruct (H f) as (H1 & H2 & H3). split_and!.
  - intros b. change (ok (with_strict b f)) with (ok f). change (value (with_strict b f)) with (value f).
    destruct (_ || _); [done|]. apply H1.
  - destruct (_ || _); [done|]. apply H2.
  - destruct (_ || _); [done|]. apply H2.
  - destruct (_ || _); [done|]. apply H2.
  - intros Hf. by rewrite Hf.
Qed.
#[export] Instance check_pattern_plain compile_error pattern : Plain (modify (check_pattern compile_error pattern)).
Proof.
  apply failing_plain. destruct pattern as [p|]; [|apply failing_id]. unfold check_pattern.
  apply failing_if; [done| |apply failing_id]. destruct (compile_error p); [by apply failing_fail|apply failing_id].
Qed.

(** ** Objects and lists of objects *)
Lemma finish_loop_kept keys : forall f,
  let '(g, r) := finish_loop keys f in
  strict g = strict f /\ ok g = ok f /\ warnings f `prefix_of` warnings g /\
  (strict f = true -> g = f /\ (r = Ok tt -> finish_loop keys (with_strict false f) = (with_strict false f, Ok tt))) /\
  (strict f = false -> r = Ok tt /\
    (warnings g = warnings f -> finish_loop keys (with_strict true f) = (with_strict true g, Ok tt))).
Proof.
  induction keys as [|key keys IH]; intros f; cbn [finish_loop].
  { split_and!; try done; by intros. }
  change (unknown (with_strict true f) key) with (unknown f key).
  change (unknown (with_strict false f) key) with (unknown f key).
  destruct (unknown f key) eqn:Eu; [|apply IH]. destruct (strict f) eqn:Es.
  { split_and!; [done..|intros _; split; [done|by intros [=]]|done]. }
  specialize (IH (with_warnings (warnings f ++ [mkWarning (path_of f key) "unknown config field"]) f)).
  destruct (finish_loop keys _) as [g r]. destruct IH as (H1 & H2 & H3 & _ & H5). cbn in *.
  assert (Hlt : length (warnings f) < length (warnings g)).
  { apply prefix_length in H3. rewrite length_app in H3. cbn in H3. lia. }
  split_and!; [congruence|done|etrans; [by eexists|done]|done|]. intros _. destruct (H5 Es) as [-> _].
  split; [done|]. intros Hw. rewrite Hw in Hlt. lia.
Qed.

(** [finish] is uniform but for its result, which says whether a strict run fails. *)
Lemma finish_kept f :
  let '(g, r) := finish f in
  strict g = strict f /\ value g = value f /\ warnings f `prefix_of` warnings g /\
  (strict f = true -> warnings g = warnings f /\
    (r = Ok tt -> finish (with_strict false f) = (with_strict false g, Ok tt))) /\
  (strict f = false -> r = Ok tt -> warnings g = warnings f ->
    finish (with_strict true f) = (with_strict true g, Ok tt)).
Proof.
  unfold finish. change (error (with_strict true f)) with (error f).
  change (error (with_strict false f)) with (error f). destruct (error f); [by split_and!|].
  change (value (with_strict true f)) with (value f). change (value (with_strict false f)) with (value f).
  pose proof (finish_loop_kept (map fst (members (value f))) f) as H.
  assert (Hv : value (finish_loop (map fst (members (value f))) f).1 = value f).
  { clear H. generalize (map fst (members (value f))). intros keys. revert f. induction keys as [|k keys IH]; intros f; [done|].
    cbn [finish_loop]. destruct (unknown f k); [|apply IH]. destruct (strict f); [done|]. by rewrite IH. }
  destruct (finish_loop _ f) as [g r]. destruct H as (H1 & _ & H2 & H3 & H4). cbn in Hv. split_and!; [done..| |].
  - intros Hs. destruct (H3 Hs) as [-> H]. split; [done|exact H].
  - intros Hs _ Hw. by apply H4.
Qed.

Lemma open_fields_strict v p b w : open_fields v p b w = with_strict b (open_fields v p false w).
Proof. unfold open_fields. by destruct (is_object v). Qed.

Lemma open_fields_kept v p b w :
  strict (open_fields v p b w) = b /\ warnings (open_fields v p b w) = w /\ value (open_fields v p b w) = v.
Proof. unfold open_fields. by destruct (is_object v). Qed.

(** What a nested view returns to its parent: its result, and how it ended. *)
Definition visit {A} (v : json) (p : string) (out : A) (parse : A -> Read A) (b : bool) (w : list ConfigWarning)
    : Fields * Result unit * A :=
  let child := open_fields v p b w in
  let '(child, out) := if ok child then parse out child else (child, out) in (finish child, out).

Lemma nested_visit {A} v p (out : A) parse f :
  nested v p out parse f =
    let '(child, finished, out) := visit v p out parse (strict f) (warnings f) in
    (match finished with Ok _ => with_warnings (warnings child) f
     | Err e => fail e (with_warnings (warnings child) f) end, out).
Proof.
  unfold nested, visit. destruct (if ok _ then _ else _) as [child out']. by destruct (finish child) as [g r].
Qed.

Lemma visit_uniform {A} v p (out : A) parse `{Hu : forall a, Uniform (parse a)} b w :
  let '(g, r, a) := visit v p out parse b w in
  w `prefix_of` warnings g /\
  (b = true -> warnings g = w /\ (r = Ok tt -> visit v p out parse false w = (with_strict false g, Ok tt, a))) /\
  (b = false -> r = Ok tt -> warnings g = w -> visit v p out parse true w = (with_strict true g, Ok tt, a)).
Proof.
  unfold visit. destruct (open_fields_kept v p b w) as (Hs & Hw & _).
  assert (Hc : forall c, open_fields v p c w = with_strict c (open_fields v p b w)).
  { intros c. rewrite (open_fields_strict v p c), (open_fields_strict v p b). done. }
  set (child := open_fields v p b w) in *. rewrite (Hc true), (Hc false).
  change (ok (with_strict true child)) with (ok child). change (ok (with_strict false child)) with (ok child).
  destruct (ok child) eqn:Ek.
  - destruct (Hu out) as [H1 H2 H3 H4 H5 H6]. specialize (H1 child). specialize (H3 child).
    specialize (H4 child). specialize (H5 child). specialize (H6 child).
    destruct (parse out child) as [mid a]. cbn in *. destruct H1 as [H1 _]. pose proof (finish_kept mid) as Hf.
    destruct (finish mid) as [g r] eqn:Eg. destruct Hf as (F1 & _ & F2 & F3 & F4).
    assert (Hok : r = Ok tt -> ok mid = true).
    { intros ->. unfold finish in Eg. unfold ok. by destruct (error mid). }
    split_and!.
    + rewrite <- Hw. by etrans.
    + intros ->. destruct F3 as [F3 F5]; [congruence|]. rewrite H4 in F3 by done. split; [congruence|].
      intros Hr. rewrite H5 by auto. by rewrite (F5 Hr).
    + intros -> Hr Hg. assert (Ew : warnings mid = w).
      { apply (anti_symm prefix); [by rewrite <- Hg|by rewrite <- Hw]. }
      rewrite H6 by (congruence || auto). rewrite F4; [done|congruence|done|congruence].
  - unfold finish. change (error (with_strict true child)) with (error child).
    change (error (with_strict false child)) with (error child). unfold ok in Ek. destruct (error child); [|done].
    split_and!; [by rewrite Hw|by intros _|by intros _].
Qed.

Lemma with_strict_warnings b w f : with_strict b (with_warnings w f) = with_warnings w (with_strict b f).
Proof. done. Qed.

#[export] Instance nested_uniform {A} v p (out : A) parse :
  (forall a, Uniform (parse a)) -> Uniform (nested v p out parse).
Proof.
  intros Hu. pose proof (visit_uniform v p out parse) as Hv.
  assert (Hend : forall (r : Result unit) g f, ok (match r with Ok _ => with_warnings g f | Err e => fail e (with_warnings g f) end) = true ->
    r = Ok tt /\ ok f = true).
  { intros [[]|e] g f H; [done|]. by rewrite fail_ok in H. }
  assert (Hk : forall (r : Result unit) g f, let x := match r with Ok _ => with_warnings g f | Err e => fail e (with_warnings g f) end in
    strict x = strict f /\ value x = value f /\ warnings x = g).
  { intros [[]|e] g f; [done|]. apply (fail_kept e (with_warnings g f)). }
  split; intros f; rewrite nested_visit; specialize (Hv (strict f) (warnings f));
    destruct (visit v p out parse (strict f) (warnings f)) as [[g r] a]; destruct Hv as (V1 & V2 & V3);
    destruct (Hk r (warnings g) f) as (K1 & K2 & K3); cbn [fst snd] in *.
  - done.
  - intros Hf. destruct r; [done|]. apply fail_ok.
  - by rewrite K3.
  - intros Hs. rewrite K3. by apply V2.
  - intros Hs Ho. apply Hend in Ho as [-> Ho]. rewrite nested_visit. cbn [strict warnings with_strict].
    destruct (V2 Hs) as [_ ->]; done.
  - intros Hs Ho Hw. rewrite K3 in Hw. apply Hend in Ho as [-> Ho]. rewrite nested_visit. cbn [strict warnings with_strict].
    rewrite V3 by done. done.
Qed.

(** A reader that looks at its view to choose how it goes on. *)
Lemma uniform_view {A} (m : Fields -> Read A) :
  (forall g, Uniform (m g)) -> (forall g b, m (with_strict b g) = m g) -> Uniform (fun f => m f f).
Proof.
  intros Hm Hs. split; intros f; destruct (Hm f) as [H1 H2 H3 H4 H5 H6]; auto; rewrite ?Hs; auto.
Qed.

#[export] Instance object_uniform {A} key (out : A) parse :
  (forall a, Uniform (parse a)) -> Uniform (object key out parse).
Proof.
  intros Hu. unfold object. apply bind_uniform; [apply _|]. intros [v|]; [|apply _].
  apply (uniform_view (fun f => nested v (path_of f key) out parse)); [intros; apply _|done].
Qed.

Lemma guarded_uniform {A} (m : Read A) (out : A) : Uniform m -> Uniform (fun f => if ok f then m f else (f, out)).
Proof.
  intros [H1 H2 H3 H4 H5 H6]. split; intros f; change (ok (with_strict true f)) with (ok f);
    change (ok (with_strict false f)) with (ok f); destruct (ok f) eqn:E; cbn in *; try by auto.
Qed.

#[export] Instance entries_loop_uniform {A} p (named : string -> A) parse l :
  (forall a, Uniform (parse a)) -> forall out, Uniform (entries_loop p named parse l out).
Proof.
  intros Hu. induction l as [|[name v] l IH]; intros out; cbn [entries_loop]; [apply _|].
  apply bind_uniform; [apply _|]. intros entry. apply guarded_uniform, IH.
Qed.

Lemma fails_plain {A} (e : Fields -> Error) (out : A) : (forall b f, e (with_strict b f) = e f) ->
  Plain (fun f => (fail (e f) f, out)).
Proof.
  intros He. split; intros f; [intros b; by rewrite He, fail_with_strict|apply fail_kept|intros _; apply fail_ok].
Qed.

#[export] Instance entries_uniform {A} key (named : string -> A) parse out :
  (forall a, Uniform (parse a)) -> Uniform (entries key named parse out).
Proof.
  intros Hu. unfold entries. apply bind_uniform; [apply _|]. intros [m|]; [|apply _]. destruct (is_object m).
  - apply (uniform_view (fun f => entries_loop (path_of f key) named parse (members m) out)); [intros; apply _|done].
  - apply plain_uniform, (fails_plain (fun f => config_error "expected object" (path_of f key))); done.
Qed.

Section SectionsTheory.
Context (getenv : string -> option string) (compile_error : string -> option string).

#[export] Instance required_string_plain key out b : Plain (required_string getenv key out b).
Proof. apply bind_plain; [apply _|]. intros _. apply field_plain. Qed.

#[local] Ltac uniform := unfold integer, boolean, price, optional_integer, optional_string, strings;
  repeat (apply bind_uniform; [apply _|intros ?]); apply _.

#[export] Instance parse_tool_output_uniform o : Uniform (parse_tool_output o).
Proof. unfold parse_tool_output. uniform. Qed.
#[export] Instance parse_tool_scheduler_uniform o : Uniform (parse_tool_scheduler o).
Proof. unfold parse_tool_scheduler. uniform. Qed.
#[export] Instance parse_prompt_uniform o : Uniform (parse_prompt o).
Proof. unfold parse_prompt. uniform. Qed.
#[export] Instance parse_stream_uniform o : Uniform (parse_stream o).
Proof. unfold parse_stream. uniform. Qed.
#[export] Instance parse_runtime_uniform o : Uniform (parse_runtime o).
Proof. unfold parse_runtime. uniform. Qed.
#[export] Instance parse_trace_uniform o : Uniform (parse_trace o).
Proof. unfold parse_trace. uniform. Qed.
#[export] Instance parse_hooks_uniform o : Uniform (parse_hooks o).
Proof. unfold parse_hooks. uniform. Qed.
#[export] Instance parse_recall_uniform o : Uniform (parse_recall getenv o).
Proof. unfold parse_recall. uniform. Qed.
#[export] Instance parse_longterm_uniform o : Uniform (parse_longterm getenv o).
Proof. unfold parse_longterm. uniform. Qed.
#[export] Instance parse_memory_uniform o : Uniform (parse_memory getenv o).
Proof. unfold parse_memory. uniform. Qed.
#[export] Instance parse_cache_uniform o : Uniform (parse_cache o).
Proof. unfold parse_cache. uniform. Qed.
#[export] Instance parse_pricing_uniform o : Uniform (parse_pricing o).
Proof. unfold parse_pricing. uniform. Qed.
#[export] Instance parse_profile_uniform o : Uniform (parse_profile getenv o).
Proof. unfold parse_profile. uniform. Qed.
#[export] Instance parse_route_uniform o : Uniform (parse_route getenv o).
Proof. unfold parse_route. uniform. Qed.
#[export] Instance parse_workspace_uniform o : Uniform (parse_workspace getenv o).
Proof. unfold parse_workspace. uniform. Qed.
#[export] Instance parse_rule_uniform o : Uniform (parse_rule getenv compile_error o).
Proof. unfold parse_rule. uniform. Qed.

#[export] Instance rules_loop_uniform verdict l p : forall i out,
  Uniform (rules_loop getenv compile_error verdict l i p out).
Proof.
  induction l as [|v l IH]; intros i out; cbn [rules_loop]; [apply _|].
  apply guarded_uniform, bind_uniform; [apply _|]. intros rule. apply IH.
Qed.

#[export] Instance verdicts_loop_uniform keys : forall out,
  Uniform (verdicts_loop getenv compile_error keys out).
Proof.
  induction keys as [|key keys IH]; intros out; cbn [verdicts_loop]; [apply _|].
  destruct (parse_enum key) as [verdict|]; [|apply IH]. apply bind_uniform; [apply _|].
  intros [v|]; [|apply _].
  assert (Hbad : Uniform (fun f => (fail (config_error "expected array" (path_of f key)) f, out)))
    by (apply plain_uniform, (fails_plain (fun f => config_error "expected array" (path_of f key))); done).
  destruct v as [| | | | |l|]; try apply Hbad.
  apply (uniform_view (fun f => read! out := rules_loop getenv compile_error verdict l 0 (path_of f key) out in
    verdicts_loop getenv compile_error keys out)); [|done].
  intros g. apply bind_uniform; [apply _|apply IH].
Qed.

#[export] Instance parse_permissions_uniform o : Uniform (parse_permissions getenv compile_error o).
Proof.
  unfold parse_permissions. apply bind_uniform; [apply _|]. intros w.
  apply (uniform_view (fun f => read! r := verdicts_loop getenv compile_error (map fst (members (value f))) (rules o) in
    ret (mkPermissions r w))); [|done].
  intros g. uniform.
Qed.

#[export] Instance parse_sections_uniform b : Uniform (parse_sections getenv compile_error b).
Proof. unfold parse_sections. uniform. Qed.

(** ** The whole document *)
Definition complete {A} (m : Read A) (f : Fields) : Result (list ConfigWarning * A) :=
  let '(f, a) := m f in
  let '(f, finished) := finish f in
  let? _ := finished in Ok (warnings f, a).

(** A strict run succeeds exactly when a lenient one does without a new warning. *)
Lemma complete_strict {A} (m : Read A) `{!Uniform m} f w a : strict f = false ->
  complete m (with_strict true f) = Ok (w, a) <-> complete m f = Ok (w, a) /\ w = warnings f.
Proof.
  intros Hs. unfold complete.
  assert (Hend : forall g h r, finish g = (h, r) -> r = Ok tt -> ok g = true).
  { intros g h r E ->. unfold finish in E. unfold ok. by destruct (error g). }
  split.
  - pose proof (uniform_lenient (m := m) (with_strict true f) eq_refl) as Hl.
    pose proof (uniform_quiet (m := m) (with_strict true f) eq_refl) as Hq.
    pose proof (uniform_kept (m := m) (with_strict true f)) as [Hk _].
    destruct (m (with_strict true f)) as [g b]. cbn [fst snd] in *. pose proof (finish_kept g) as Hf.
    destruct (finish g) as [h r] eqn:Eg. destruct Hf as (_ & _ & _ & F & _). destruct (F Hk) as [F1 F2].
    intros H. ok_inv. destruct x. simplify_eq. specialize (Hl (Hend _ _ _ Eg eq_refl)).
    change (with_strict false (with_strict true f)) with (with_strict false f) in Hl.
    rewrite <- Hs, with_strict_self, Hs in Hl. rewrite Hl. cbv beta iota. rewrite (F2 eq_refl). cbn. split; [done|]. rewrite F1, Hq. done.
  - pose proof (uniform_strict (m := m) f Hs) as Hl. pose proof (uniform_grows (m := m) f) as Hg.
    pose proof (uniform_kept (m := m) f) as [Hk _]. destruct (m f) as [g b]. cbn [fst snd] in *.
    pose proof (finish_kept g) as Hf. destruct (finish g) as [h r] eqn:Eg. destruct Hf as (_ & _ & F1 & _ & F2).
    intros [H Hw]. ok_inv. destruct x. simplify_eq.
    assert (Ew : warnings g = warnings f) by (apply (anti_symm prefix); [by rewrite <- Hw|done]).
    rewrite Hl by eauto. cbv beta iota. rewrite F2 by congruence. done.
Qed.

Lemma parse_json_complete root :
  exists f s, strict f = false /\ warnings f = [] /\ value f = root /\ forall options,
    parse_json getenv compile_error root options =
      let? (w, c) := complete (parse_sections getenv compile_error s) (with_strict (strict_unknown_fields options || s) f)
      in Ok (set_warnings w c).
Proof.
  set (f0 := open_fields root "$" false []).
  destruct (open_fields_kept root "$" false []) as (Hs & Hw & Hv). fold f0 in Hs, Hw, Hv.
  pose proof (plain_kept (m := boolean "strict_config" false) f0) as (Ks & Kv & Kw).
  destruct (boolean "strict_config" false f0) as [f s] eqn:E. cbn [fst] in *. exists f, s.
  split_and!; [congruence..|]. intros options. unfold parse_json, parse_root, complete, read_bind, modify.
  change (strict_config default_config) with false. fold f0. rewrite E.
  destruct (parse_sections getenv compile_error s _) as [g c]. by destruct (finish g) as [h [[]|e]].
Qed.
End SectionsTheory.

(** ** What a reader that succeeds has read *)
Definition yields {A} (m : Read A) (Q : A -> Prop) : Prop := forall f, ok (m f).1 = true -> Q (m f).2.

Lemma yields_ret {A} (a : A) (Q : A -> Prop) : Q a -> yields (ret a) Q.
Proof. intros H f _. exact H. Qed.
Lemma yields_true {A} (m : Read A) : yields m (fun _ => True).
Proof. done. Qed.
Lemma yields_weaken {A} (m : Read A) (P Q : A -> Prop) : yields m P -> (forall a, P a -> Q a) -> yields m Q.
Proof. intros Hm HQ f Ho. auto. Qed.
Lemma yields_bind {A B} (m : Read A) (k : A -> Read B) `{!forall a, Uniform (k a)} (P : A -> Prop) (Q : B -> Prop) :
  yields m P -> (forall a, P a -> yields (k a) Q) -> yields (read_bind m k) Q.
Proof.
  intros Hm Hk f. unfold read_bind. specialize (Hm f). destruct (m f) as [g a]. cbn in *. intros Ho.
  apply Hk; [|done]. apply Hm. destruct (ok g) eqn:Eg; [done|]. by rewrite (uniform_sticky (m := k a) g Eg) in Ho.
Qed.

Lemma yields_after {A B} (m : Read A) (k : A -> Read B) (Q : B -> Prop) :
  (forall a, yields (k a) Q) -> yields (read_bind m k) Q.
Proof. intros H f. unfold read_bind. destruct (m f) as [g a]. apply H. Qed.
Lemma yields_view {A} (m : Fields -> Read A) (Q : A -> Prop) : (forall g, yields (m g) Q) -> yields (fun f => m f f) Q.
Proof. intros H f. apply H. Qed.

Lemma yields_field {A} key (parse : json -> string -> Result A) out (Q : A -> Prop) :
  Q out -> (forall v p a, parse v p = Ok a -> Q a) -> yields (field key parse out) Q.
Proof.
  intros Ho Hp f. unfold field, read_bind. destruct (take_key key f) as [g [v|]]; cbn; [|done].
  destruct (parse v _) as [a|e] eqn:E; cbn; [intros _; by eapply Hp|]. by rewrite fail_ok.
Qed.

Lemma yields_nested {A} v p (out : A) parse (Q : A -> Prop) :
  (forall a, Uniform (parse a)) -> yields (parse out) Q -> yields (nested v p out parse) Q.
Proof.
  intros Hu Hp f. rewrite nested_visit. unfold visit. destruct (ok (open_fields v p (strict f) (warnings f))) eqn:Ek.
  - specialize (Hp (open_fields v p (strict f) (warnings f))). destruct (parse out _) as [child a]. cbn in *.
    unfold finish. unfold ok in Hp. destruct (error child) as [e|]; [cbn; by rewrite fail_ok|].
    destruct (finish_loop _ _) as [g r]. cbn. intros _. by apply Hp.
  - unfold finish. unfold ok in Ek. destruct (error _); [cbn; by rewrite fail_ok|done].
Qed.

Lemma yields_object {A} key (out : A) parse (Q : A -> Prop) :
  (forall a, Uniform (parse a)) -> Q out -> yields (parse out) Q -> yields (object key out parse) Q.
Proof.
  intros Hu Ho Hp f. unfold object, read_bind. destruct (take_key key f) as [g [v|]]; [|done]. by apply yields_nested.
Qed.

Lemma yields_guarded {A} (m : Read A) (out : A) (Q : A -> Prop) :
  yields m Q -> yields (fun f => if ok f then m f else (f, out)) Q.
Proof. intros Hm f. specialize (Hm f). destruct (ok f) eqn:E; [done|]. cbn. by rewrite E. Qed.

(** The entries of an object, in their order and under their names. *)
Lemma yields_entries_loop {A} p (named : string -> A) parse (name_of : A -> string) (Q : A -> Prop) l :
  (forall a, Uniform (parse a)) ->
  (forall n, yields (parse (named n)) (fun a => Q a /\ name_of a = n)) ->
  forall out, Forall Q out ->
  yields (entries_loop p named parse l out)
    (fun r => Forall Q r /\ map name_of r = map name_of out ++ map fst l).
Proof.
  intros Hu Hp. induction l as [|[n v] l IH]; intros out Ho; cbn [entries_loop].
  - apply yields_ret. by rewrite app_nil_r.
  - assert (forall a, Uniform (fun f => if ok f then entries_loop p named parse l (out ++ [a]) f else (f, out)))
      by (intros a; apply guarded_uniform, _).
    apply (yields_bind _ _ (fun a => Q a /\ name_of a = n)); [by apply yields_nested|]. intros a [Ha <-].
    apply yields_guarded. eapply yields_weaken; [apply IH, Forall_app; by split; [|constructor]|].
    cbn. intros r [Hr Hm]. split; [done|]. by rewrite Hm, map_app, <- app_assoc.
Qed.

(** ** Well-formed configurations *)
Definition between (min max z : Z) : Prop := (min <= z <= max)%Z.
Definition positive : Z -> Prop := between 1 kMaxInteger.
Definition each {A} (P : A -> Prop) (o : option A) : Prop := match o with Some a => P a | None => True end.

Definition wf_runtime (r : RuntimeConfig) : Prop :=
  positive (workers r) /\ positive (request_timeout_ms r) /\
  positive (max_text_bytes (tool_output r)) /\ positive (max_data_bytes (tool_output r)) /\
  positive (max_parallel_tools (tool_scheduler r)) /\ positive (per_call_timeout_ms (tool_scheduler r)) /\
  Forall (fun n => n <> ""%string) (tool_names (active_tools (prompt r))) /\ positive (max_bytes (stream r)).
Definition wf_price (p : double) : Prop := is_finite p = true /\ SpecFloat.SFltb p double_zero = false.
Definition wf_pricing (p : ProviderPricingConfig) : Prop :=
  each wf_price (input_per_million_usd p) /\ each wf_price (output_per_million_usd p) /\
  each wf_price (cache_creation_per_million_usd p) /\ each wf_price (cache_read_per_million_usd p).
Definition wf_profile (p : ProfileConfig) : Prop :=
  protocol p <> Some ""%string /\ wf_pricing (pricing p) /\ each (between 1 max_uint32) (thinking_budget p) /\
  each (fun c => between 0 kMaxInteger (min_prefix_bytes c)) (cache p).
Definition wf_recall (r : LongtermMemoryRecallConfig) : Prop :=
  between 1 20 (recall_limit r) /\ NoDup (recall_kinds r) /\ Forall (fun k => k <> ""%string) (recall_kinds r).
Definition wf_rule (compile_error : string -> option string) (r : PermissionRuleConfig) : Prop :=
  is_Some (parse_enum (E := Verdict) (rc_verdict r)) /\ rc_tool_pattern r <> ""%string /\
  each (fun p => p <> ""%string /\ compile_error p = None) (rc_input_pattern r) /\
  each (between 0 max_uint32) (rc_replay_max r) /\ each (between 0 kMaxInteger) (rc_approval_ttl_seconds r).
Definition well_formed (compile_error : string -> option string) (c : Config) : Prop :=
  wf_runtime (runtime c) /\ Forall wf_profile (profiles c) /\ positive (timeout_ms (hooks c)) /\
  wf_recall (recall (longterm (memory c))) /\ Forall (wf_rule compile_error) (rules (permissions c)).

Section WellFormed.
Context (getenv : string -> option string) (compile_error : string -> option string).

Lemma integer_value_ok v p min max z : integer_value v p min max = Ok z -> between min max z.
Proof. unfold integer_value. destruct v; try done. intros H. ok_inv. bool_prop. unfold between. lia. Qed.

Lemma yields_integer key out min max : between min max out -> yields (integer key out min max) (between min max).
Proof. intros H. apply yields_field; [done|]. intros v p z. apply integer_value_ok. Qed.

Lemma yields_optional_integer cast key min max :
  (forall z, between min max z -> cast z = z) ->
  yields (optional_integer cast key None min max) (each (between min max)).
Proof.
  intros Hc. apply yields_field; [done|]. intros v p o H. ok_inv. subst. apply integer_value_ok in H0.
  cbn. by rewrite Hc.
Qed.

Lemma yields_price key : yields (price key None) (each wf_price).
Proof.
  apply yields_field; [done|]. intros v p o. unfold price_value. destruct (number_of v) as [d|]; [|done].
  intros H. ok_inv. subst. bool_prop. by split.
Qed.

Lemma string_value_ok v p s : string_value getenv v p true = Ok s -> s <> ""%string.
Proof. unfold string_value. destruct v; try done. intros H. ok_inv. subst. cbn [andb] in *. by bool_prop. Qed.

Lemma string_items_ok l p : forall i r, string_items getenv l i p true = Ok r -> Forall (fun s => s <> ""%string) r.
Proof.
  induction l as [|v l IH]; intros i r H; cbn in H; ok_inv; subst; [constructor|]. constructor; [|by eapply IH].
  by eapply string_value_ok.
Qed.

Lemma yields_strings key : yields (strings getenv key [] true) (Forall (fun s => s <> ""%string)).
Proof.
  apply yields_field; [constructor|]. intros v p r. unfold string_array. destruct v; try done. apply string_items_ok.
Qed.

Lemma yields_optional_string key : yields (optional_string getenv key None true) (each (fun s => s <> ""%string)).
Proof. apply yields_field; [done|]. intros v p o H. ok_inv. subst. by eapply string_value_ok. Qed.

(** A required text is there, so it is the one that was read. *)
Lemma yields_required_string key : yields (required_string getenv key "" true) (fun s => s <> ""%string).
Proof.
  intros f. unfold required_string, read_bind, require, modify, string_, field, read_bind, take_key.
  destruct (ok f && negb (jcontains (value f) key)) eqn:E; cbn.
  { rewrite fail_ok. cbn. by rewrite fail_ok. }
  destruct (ok f) eqn:Eo; cbn; [|by rewrite Eo]. unfold jcontains in E.
  destruct (jfind (value f) key) as [v|]; [|done]. destruct (string_value _ _ _ _) as [s|] eqn:Es; cbn; [|by rewrite fail_ok].
  intros _. by eapply string_value_ok.
Qed.

Lemma tool_name_items_ok l p : forall i r, tool_name_items l i p = Ok r -> Forall (fun s => s <> ""%string) r.
Proof.
  induction l as [|v l IH]; intros i r H; cbn in H; [ok_inv; subst; constructor|]. destruct v; try done.
  ok_inv. subst. bool_prop. constructor; [done|by eapply IH].
Qed.

#[local] Ltac bounded := vm_compute; repeat split; intros [=].
#[local] Ltac yields_int := apply yields_integer; bounded.
#[local] Ltac yields_step P := apply (yields_bind _ _ P); [|intros ? ?].

Lemma yields_runtime : yields (parse_runtime default_runtime) wf_runtime.
Proof.
  unfold parse_runtime. yields_step positive; [yields_int|]. yields_step positive; [yields_int|].
  yields_step (fun o => positive (max_text_bytes o) /\ positive (max_data_bytes o)).
  { apply yields_object; [apply _|split; bounded|]. unfold parse_tool_output. yields_step positive; [yields_int|].
    yields_step positive; [yields_int|]. by apply yields_ret. }
  yields_step (fun o => positive (max_parallel_tools o) /\ positive (per_call_timeout_ms o)).
  { apply yields_object; [apply _|split; bounded|]. unfold parse_tool_scheduler. yields_step positive; [yields_int|].
    yields_step positive; [yields_int|]. by apply yields_ret. }
  yields_step (fun o => Forall (fun n => n <> ""%string) (tool_names (active_tools o))).
  { apply yields_object; [apply _|constructor|]. unfold parse_prompt.
    yields_step (fun o => Forall (fun n => n <> ""%string) (tool_names o)); [|by apply yields_ret].
    apply yields_field; [constructor|]. intros v p o. unfold active_tools_value. destruct v; try done.
    - intros Hv. ok_inv. subst. constructor.
    - intros Hv. ok_inv. subst. by eapply tool_name_items_ok. }
  yields_step (fun o => positive (max_bytes o)).
  { apply yields_object; [apply _|bounded|]. unfold parse_stream. yields_step positive; [yields_int|]. by apply yields_ret. }
  apply yields_ret. unfold wf_runtime. naive_solver.
Qed.

Lemma yields_pricing : yields (parse_pricing default_pricing) wf_pricing.
Proof.
  unfold parse_pricing. do 4 (yields_step (each wf_price); [apply yields_price|]). by apply yields_ret.
Qed.

Lemma yields_profile n : yields (parse_profile getenv (named_profile n)) (fun p => wf_profile p /\ profile_name p = n).
Proof.
  unfold parse_profile. yields_step (fun _ : string => True); [apply yields_true|].
  yields_step (each (fun s => s <> ""%string)); [apply yields_optional_string|].
  do 3 (yields_step (fun _ : string => True); [apply yields_true|]).
  yields_step wf_pricing; [apply yields_object; [apply _|done|apply yields_pricing]|].
  yields_step (each (between 1 max_uint32)).
  { apply yields_optional_integer. intros z Hz. apply wrap_u_id. unfold between, max_uint32, fits_u in *. lia. }
  yields_step (each (fun c => between 0 kMaxInteger (min_prefix_bytes c))).
  { apply yields_object; [apply _|done|]. unfold parse_cache. yields_step (fun _ : bool => True); [apply yields_true|].
    yields_step (between 0 kMaxInteger); [yields_int|]. by apply yields_ret. }
  apply yields_ret. split; [|done]. split_and!; cbn; [|done..]. intros ->. done.
Qed.

(** The kinds that pass the check are distinct. *)
Lemma check_kinds_distinct kinds p : forall before f,
  NoDup before -> ok (check_kinds before kinds p f) = true -> NoDup (before ++ kinds).
Proof.
  induction kinds as [|k kinds IH]; intros before f Hb Ho; [by rewrite app_nil_r|]. cbn [check_kinds] in Ho.
  rewrite (cons_middle k before kinds), app_assoc. eapply IH; [|exact Ho]. apply NoDup_app. split_and!; [done| |repeat constructor; set_solver].
  intros x Hx Hk. apply list_elem_of_singleton in Hk as ->. rewrite bool_decide_true in Ho by done.
  pose proof (fail_ok (config_error "long-term memory recall kind must be unique" (element_path p (length before))) f) as Hf.
  destruct (check_kinds_failing kinds p (before ++ [k])
    (fail (config_error "long-term memory recall kind must be unique" (element_path p (length before))) f)) as (_ & _ & Hs).
  rewrite Hs in Ho; done.
Qed.

Lemma yields_recall : yields (parse_recall getenv default_recall) wf_recall.
Proof.
  unfold parse_recall. yields_step (fun _ : bool => True); [apply yields_true|].
  yields_step (between 1 20); [yields_int|]. intros f. pose proof (yields_strings "kinds" f) as Hk.
  revert Hk. unfold read_bind, modify, strings, field, read_bind, take_key.
  destruct (ok f) eqn:Eo; cbn [fst snd]; [|intros _; cbn; unfold check_recall; rewrite Eo; cbn; by rewrite Eo].
  destruct (jfind (value f) "kinds") as [v|] eqn:Ef; cbn [fst snd].
  - destruct (string_array _ _ _ _) as [k|e]; cbn [fst snd ret]; intros Hk Ho.
    + split_and!; [done| |]; cbn.
      * unfold check_recall, jcontains in Ho. cbn [value claim ok] in Ho. rewrite Ef in Ho.
        change (ok (claim "kinds" f)) with (ok f) in Ho. rewrite Eo in Ho. cbn [negb orb] in Ho.
        by apply check_kinds_distinct in Ho; [|constructor].
      * apply Hk. change (ok (claim "kinds" f)) with (ok f). done.
    + exfalso. unfold check_recall in Ho. rewrite fail_ok in Ho. cbn [negb orb] in Ho. by rewrite fail_ok in Ho.
  - intros _ _. split_and!; [done|constructor..].
Qed.

Lemma yields_rule verdict :
  yields (parse_rule getenv compile_error (empty_rule verdict)) (wf_rule compile_error).
Proof.
  unfold parse_rule. yields_step (fun s => s <> ""%string); [apply yields_required_string|].
  yields_step (fun _ : option Capability => True); [apply yields_true|].
  yields_step (each (fun s => s <> ""%string)); [apply yields_optional_string|].
  yields_step (fun _ : unit => each (fun p => compile_error p = None) a1).
  { intros f. destruct a1 as [p|]; [|done]. cbn. destruct (ok f) eqn:Eo; [|by rewrite Eo].
    destruct (compile_error p); [|done]. by rewrite fail_ok. }
  yields_step (each (between 0 max_uint32)).
  { apply yields_optional_integer. intros z Hz. apply wrap_u_id. unfold between, max_uint32, fits_u in *. lia. }
  yields_step (each (between 0 kMaxInteger)); [by apply yields_optional_integer|]. apply yields_ret.
  split_and!; [|done| |done..].
  - change (is_Some (parse_enum (E := Verdict) (enum_name verdict))). rewrite parse_enum_name. by eexists.
  - destruct a1; [by split|done].
Qed.

Lemma yields_rules_loop verdict l p : forall i out, Forall (wf_rule compile_error) out ->
  yields (rules_loop getenv compile_error verdict l i p out) (Forall (wf_rule compile_error)).
Proof.
  induction l as [|v l IH]; intros i out Ho; cbn [rules_loop]; [by apply yields_ret|].
  apply yields_guarded. yields_step (wf_rule compile_error); [apply yields_nested; [apply _|apply yields_rule]|].
  apply IH, Forall_app. by split; [|constructor].
Qed.

Lemma yields_verdicts_loop keys : forall out, Forall (wf_rule compile_error) out ->
  yields (verdicts_loop getenv compile_error keys out) (Forall (wf_rule compile_error)).
Proof.
  induction keys as [|key keys IH]; intros out Ho; cbn [verdicts_loop]; [by apply yields_ret|].
  destruct (parse_enum key) as [verdict|]; [|by apply IH]. intros f. unfold read_bind.
  destruct (take_key key f) as [g [v|]]; [|done].
  destruct v as [| | | | |l|]; cbn; try (by rewrite fail_ok).
  apply (yields_bind (rules_loop getenv compile_error verdict l 0 (path_of g key) out)
    (verdicts_loop getenv compile_error keys) (Forall (wf_rule compile_error))); [by apply yields_rules_loop|].
  intros a Ha. by apply IH.
Qed.

(** The names that an object of the document gives to its entries. *)
Definition keys_of (root : json) (key : string) : list string :=
  match jfind root key with Some v => map fst (members v) | None => [] end.

(** As [yields], of a view of a given object. *)
Definition yields_in {A} (root : json) (m : Read A) (Q : A -> Prop) : Prop :=
  forall f, value f = root -> ok (m f).1 = true -> Q (m f).2.

Lemma yields_everywhere {A} root (m : Read A) Q : yields m Q -> yields_in root m Q.
Proof. intros H f _. apply H. Qed.

Lemma yields_in_bind {A B} root (m : Read A) (k : A -> Read B) `{!Uniform m} `{!forall a, Uniform (k a)}
    (P : A -> Prop) (Q : B -> Prop) :
  yields_in root m P -> (forall a, P a -> yields_in root (k a) Q) -> yields_in root (read_bind m k) Q.
Proof.
  intros Hm Hk f Hv. unfold read_bind. specialize (Hm f Hv). destruct (uniform_kept (m := m) f) as [_ Hg].
  destruct (m f) as [g a]. cbn in *. intros Ho.
  apply Hk; [|congruence|done]. apply Hm. destruct (ok g) eqn:Eg; [done|].
  by rewrite (uniform_sticky (m := k a) g Eg) in Ho.
Qed.

Lemma yields_in_entries {A} root key (named : string -> A) parse (name_of : A -> string) (Q : A -> Prop) :
  (forall a, Uniform (parse a)) -> (forall n, yields (parse (named n)) (fun a => Q a /\ name_of a = n)) ->
  yields_in root (entries key named parse []) (fun r => Forall Q r /\ map name_of r = keys_of root key).
Proof.
  intros Hu Hp f <-. unfold entries, read_bind, take_key, keys_of. destruct (ok f) eqn:Eo; cbn; [|by rewrite Eo].
  destruct (jfind (value f) key) as [m|]; cbn; [|by split]. destruct (is_object m); [|cbn; by rewrite fail_ok].
  apply (yields_entries_loop _ named parse name_of Q); [done..|constructor].
Qed.

#[local] Ltac yields_in_step P := apply (yields_in_bind _ _ _ P); [|intros ? ?].

Lemma yields_sections root b :
  yields_in root (parse_sections getenv compile_error b) (fun c =>
    well_formed compile_error c /\ map profile_name (profiles c) = keys_of root "profiles" /\
    map route_name (routes c) = keys_of root "routes").
Proof.
  unfold parse_sections. yields_in_step wf_runtime.
  { apply yields_everywhere, yields_object; [apply _| |apply yields_runtime]. split_and!; try bounded; constructor. }
  yields_in_step (fun l => Forall wf_profile l /\ map profile_name l = keys_of root "profiles").
  { apply yields_in_entries; [apply _|apply yields_profile]. }
  yields_in_step (fun l => Forall (fun _ => True) l /\ map route_name l = keys_of root "routes").
  { apply yields_in_entries; [apply _|]. intros n. unfold parse_route.
    do 2 (apply (yields_bind _ _ (fun _ => True)); [apply yields_true|intros ? _]). by apply yields_ret. }
  yields_in_step (fun _ : TraceConfig => True); [done|].
  yields_in_step (fun h => positive (timeout_ms h)).
  { apply yields_everywhere, yields_object; [apply _|bounded|]. unfold parse_hooks. yields_step positive; [yields_int|].
    by apply yields_ret. }
  yields_in_step (fun m => wf_recall (recall (longterm m))).
  { assert (wf_recall default_recall) by (split_and!; [bounded|constructor..]).
    apply yields_everywhere, yields_object; [apply _|done|]. unfold parse_memory.
    yields_step (fun l => wf_recall (recall l)); [|by apply yields_ret]. apply yields_object; [apply _|done|].
    unfold parse_longterm. yields_step wf_recall; [|by apply yields_ret]. apply yields_object; [apply _|done|apply yields_recall]. }
  yields_in_step (fun p => Forall (wf_rule compile_error) (rules p)).
  { apply yields_everywhere, yields_object; [apply _|constructor|]. unfold parse_permissions.
    apply yields_after. intros w.
    apply (yields_view (fun f => read! r := verdicts_loop getenv compile_error (map fst (members (value f))) [] in
      ret (mkPermissions r w))). intros g.
    yields_step (Forall (wf_rule compile_error)); [by apply yields_verdicts_loop|]. by apply yields_ret. }
  apply yields_everywhere, yields_ret. unfold well_formed. naive_solver.
Qed.

Lemma parse_json_well_formed root options c :
  parse_json getenv compile_error root options = Ok c ->
  well_formed compile_error c /\ map profile_name (profiles c) = keys_of root "profiles" /\
  map route_name (routes c) = keys_of root "routes".
Proof.
  destruct (parse_json_complete getenv compile_error root) as (f & s & _ & _ & Hv & ->). intros H. apply result_bind_ok in H as ([w d] & H0 & [= <-]). unfold complete in H0.
  pose proof (yields_sections root s (with_strict (strict_unknown_fields options || s) f) Hv) as Hs.
  destruct (parse_sections _ _ _ _) as [g e]. cbn in Hs. destruct (finish g) as [h r] eqn:Eg. ok_inv. destruct x. simplify_eq.
  assert (Ho : ok g = true) by (unfold finish in Eg; unfold ok; by destruct (error g)). by apply Hs in Ho.
Qed.
End WellFormed.

(** ** The theorems *)
Section Theorems.
Context (getenv : string -> option string) (compile_error : string -> option string) (read_json : string -> Document).

(** what a text with environment references expands to is determined by the references from left to right: the
    text between them is kept, each is replaced by its value or its default, and what was put in is not expanded
    again; every other text is refused. *)
Theorem expand_env_string_spec (input path out : string) :
  expand_env_string getenv input path = Ok out <-> Expands getenv path (lit input) (lit out).
Proof.
  unfold expand_env_string. rewrite result_bind_ok. split.
  - intros (v & H & [= <-]). apply expand_loop_spec in H as (w & -> & Hw); [|by rewrite lit_length]. by rewrite lit_str.
  - intros H. exists (lit out). rewrite str_lit. split; [|done].
    apply expand_loop_spec; [by rewrite lit_length|]. by exists (lit out).
Qed.

(** C32: strict mode accepts exactly the documents that lenient mode reads without a warning, and reads the same
    configuration from them: strictness changes nothing but the treatment of unknown keys, at every depth. *)
Theorem strict_mode_exact (contents : string) (max_bytes : Z) (c : Config) :
  parse getenv compile_error read_json contents (mkLoadOptions true max_bytes) = Ok c <->
  parse getenv compile_error read_json contents (mkLoadOptions false max_bytes) = Ok c /\ config_warnings c = [].
Proof.
  unfold parse. destruct (read_json contents) as [root| | |]; try by (split; [|intros [? _]]).
  destruct (parse_json_complete getenv compile_error root) as (f & s & Hs & Hw & _ & H). rewrite !H. cbn [strict_unknown_fields orb].
  clear H. assert (Hu : forall w d, complete (parse_sections getenv compile_error s) (with_strict true f) = Ok (w, d) -> w = []).
  { intros w d E. apply complete_strict in E as [_ ->]; [done|apply _|done]. }
  destruct s.
  - rewrite !result_bind_ok. split; [|tauto]. intros ([w d] & E & Hc). split; [by exists (w, d)|].
    apply Hu in E as ->. by injection Hc as <-.
  - assert (Ef : with_strict false f = f) by (rewrite <- Hs; apply with_strict_self). rewrite Ef, !result_bind_ok. split.
    + intros ([w d] & E & [= <-]). pose proof (Hu _ _ E) as ->. apply complete_strict in E as [E _]; [|apply _|done].
      split; [by exists ([], d)|done].
    + intros [([w d] & E & [= <-]) Hn]. cbn in Hn. subst w. exists ([], d). split; [|done].
      by apply complete_strict; [apply _|done|].
Qed.

(** a configuration that is read is well formed: every number is within the bounds of its field after narrowing,
    every price finite and not negative, the recalled kinds distinct, every rule has a verdict, a tool pattern and
    only an input pattern that compiles, and profiles and routes carry the names of the document in its order. *)
Theorem parse_well_formed (contents : string) (options : LoadOptions) (root : json) (c : Config) :
  read_json contents = Root root -> parse getenv compile_error read_json contents options = Ok c ->
  well_formed compile_error c /\ map profile_name (profiles c) = keys_of root "profiles" /\
  map route_name (routes c) = keys_of root "routes".
Proof. unfold parse. intros ->. apply parse_json_well_formed. Qed.

(** the permission rules of a configuration that was read always materialize, in every mode: the patterns that
    were validated when the file was read are those that are compiled. *)
Theorem parsed_rules_materialize (contents : string) (options : LoadOptions) (mode : Mode) (c : Config) :
  parse getenv compile_error read_json contents options = Ok c ->
  exists l, materialize_permissions compile_error mode (rules (permissions c)) = Ok (default_rules mode ++ l) /\
    length l = length (rules (permissions c)).
Proof.
  unfold parse. destruct (read_json contents) as [root| | |]; try done. intros H.
  apply parse_json_well_formed in H as [(_ & _ & _ & _ & Hr) _]. unfold materialize_permissions.
  generalize (default_rules mode). induction Hr as [|r l (_ & _ & Hp & _) _ IH]; intros d; cbn.
  { exists []. by rewrite app_nil_r. }
  assert (E : exists i, match rc_input_pattern r with
    | Some p => let? compiled := compile compile_error p in Ok (Some compiled) | None => Ok None end = Ok i).
  { destruct (rc_input_pattern r) as [p|]; [|by eexists]. destruct Hp as [_ Hp]. unfold compile. rewrite Hp. by eexists. }
  destruct E as [i ->]. cbn. edestruct IH as (k & -> & Hk). rewrite <- app_assoc. eexists. split; [done|]. cbn. by f_equal.
Qed.

(** a file is parsed only when it exists and its size is within the limit; every failure of the file system is an
    error that names the path. *)
Theorem load_file_bounded (fs : FileSystem) (path : string) (options : LoadOptions) (c : Config) :
  load_file getenv compile_error read_json fs path options = Ok c ->
  path <> ""%string /\ (exists ec, fs_exists fs path = Answer (true, ec)) /\
  (exists size, fs_file_size fs path = Answer (inr size) /\ (size <= max_file_bytes options)%Z) /\
  exists contents, fs_read fs path = Answer (contents, false) /\
    parse getenv compile_error read_json contents options = Ok c.
Proof.
  unfold load_file. intros H. ok_inv. bool_prop.
  destruct (fs_exists fs path) as [[[] ec]| |]; cbn in H; try done.
  destruct (fs_file_size fs path) as [[?|size]| |]; cbn in H; try done. ok_inv. bool_prop.
  destruct (fs_open fs path) as [[]| |]; cbn in H; try done.
  destruct (fs_read fs path) as [[contents []]| |]; cbn in H; try done. naive_solver.
Qed.
End Theorems.

Module Demo.
Local Open Scope string_scope.
Definition getenv (name : string) : option string := if bool_decide (name = "HOST") then Some "${HOME}" else None.
Definition compile_error (pattern : string) : option string :=
  if bool_decide (pattern = "(") then Some "missing )" else None.
Definition profile : json := JObject
  [("provider", JString "openai"); ("model", JString "m"); ("base_url", JString "https://${HOST}:${PORT:-443}");
   ("api_key_env", JString "KEY"); ("pricing", JObject [("input_per_million_usd", JFloat 0x3FF4000000000000)]);
   ("thinking_budget", JInt 1024)].
Definition rule : json := JObject [("tool_pattern", JString "File*"); ("input_pattern", JString "^a"); ("replay_max", JInt 3)].
Definition document (extra : list (string * json)) : json := JObject
  ([("runtime", JObject [("workers", JInt 2)]); ("profiles", JObject [("main", profile)]);
    ("memory", JObject [("longterm", JObject [("recall", JObject [("kinds", JArray [JString "note"; JString "fact"])])])]);
    ("permissions", JObject [("ask", JArray [rule])])] ++ extra).
Definition read_json (text : string) : Document :=
  if bool_decide (text = "") then ParseError "empty"
  else Root (document (if bool_decide (text = "more") then [("colour", JNull)] else [])).
Definition options (strict : bool) := mkLoadOptions strict 100.
Definition read (text : string) (strict : bool) : Result Config := parse getenv compile_error read_json text (options strict).
Definition config : Config := match read "more" false with Ok c => c | Err _ => default_config end.

(** The value of [HOST] holds a reference, which stays as it is. *)
Example host_expanded : map base_url (profiles config) = ["https://${HOME}:443"].
Proof. vm_compute. reflexivity. Qed.
Example unknown_key :
  config_warnings config = [mkWarning "$.colour" "unknown config field"] /\
  read "more" true = Err (config_error "unknown config field" "$.colour").
Proof. vm_compute. done. Qed.

Lemma config_read : parse getenv compile_error read_json "more" (options false) = Ok config.
Proof. vm_compute. reflexivity. Qed.

Lemma parse_well_formed_witness : workers (runtime config) = 2%Z /\ map profile_name (profiles config) = ["main"].
Proof.
  split; [vm_compute; reflexivity|].
  exact (proj1 (proj2 (parse_well_formed getenv compile_error read_json "more" (options false)
    (document [("colour", JNull)]) config eq_refl config_read))).
Defined.

Lemma parsed_rules_materialize_witness :
  exists l, materialize_permissions compile_error default_ (rules (permissions config)) = Ok (default_rules default_ ++ l)%list /\
    length l = length (rules (permissions config)).
Proof. exact (parsed_rules_materialize getenv compile_error read_json "more" (options false) default_ config config_read). Defined.

Definition disk : FileSystem := mkFileSystem
  (fun path => Answer (bool_decide (path = "config.json"), None)) (fun _ => Answer (inr 80%Z)) (fun _ => Answer true)
  (fun _ => Answer ("more", false)).
Lemma load_file_bounded_witness :
  load_file getenv compile_error read_json disk "config.json" (options false) = Ok config /\
  exists size, fs_file_size disk "config.json" = Answer (inr size) /\ (size <= 100)%Z.
Proof.
  assert (H : load_file getenv compile_error read_json disk "config.json" (options false) = Ok config)
    by (vm_compute; reflexivity).
  split; [exact H|]. exact (proj1 (proj2 (proj2
    (load_file_bounded getenv compile_error read_json disk "config.json" (options false) config H)))).
Defined.
End Demo.
