(* ===== verification/Approval.v ===== *)
(** * oran-permission: signed approvals and the replay window

    Models [src/oran-permission/approval_secret.cpp], [approval.cpp] and
    [approval_broker.cpp].  libsodium is not code of the repository: SHA-256, the
    keyed MAC and the random nonce are arguments; the only facts used about them
    are the digest sizes.  Times are nanoseconds since the epoch. *)
From S2P Require Import Prelude Core TurnId.
#[local] Open Scope Z_scope.

(** ** Tokens *)
Record ApprovalToken := mkToken {
  tok_tool_name : string;
  tok_identity : string;
  tok_input_hash : bytes;
  tok_nonce : bytes;
  tok_expires_at : Z;
  tok_mac : bytes }.
#[export] Instance ApprovalToken_eq_dec : EqDecision ApprovalToken.
Proof. solve_decision. Defined.

Definition ns_per_s : Z := 1000000000.

(** [append_le_u32] and [append_le_i64]: little-endian bytes. *)
Definition append_le_u32 (out : bytes) (value : Z) : bytes := out ++ le_bytes 4 (wrap_u 32 value).
Definition append_le_i64 (out : bytes) (value : Z) : bytes := out ++ le_bytes 8 (wrap_u 64 value).

(** [duration_cast<milliseconds>] truncates towards zero. *)
Definition to_unix_millis (t : Z) : Z := Z.quot t 1000000.

Definition append_string_view (out : bytes) (sv : string) : bytes :=
  append_le_u32 out (Z.of_nat (String.length sv)) ++ lit sv.

Definition kDomainSeparator : bytes := lit "oran-approval-v1".
Definition kFormatVersion : ascii := byte_of 0x01.

(** [ApprovalAuthority::canonical_bytes]. *)
Definition canonical_bytes (tool_name identity : string) (input_hash nonce : bytes)
    (expires_at : Z) : bytes :=
  let buf := kDomainSeparator ++ [kFormatVersion] in
  let buf := append_string_view buf tool_name in
  let buf := append_string_view buf identity in
  let buf := buf ++ input_hash ++ nonce in
  append_le_i64 buf (to_unix_millis expires_at).

Definition denied (what reason : string) : Error :=
  Errors.with_ctx (Errors.permission_denied what) "reason" reason.
Definition token_denied := denied "approval token rejected".
Definition broker_denied := denied "approval broker rejected check".

(** [ApprovalSecret::macs_equal]: equal sizes, then [sodium_memcmp]. *)
Definition macs_equal (a b : bytes) : bool :=
  if negb (length a =? length b)%nat then false
  else if (length a =? 0)%nat then true
  else bool_decide (a = b).

(** [ApprovalSecret::from_bytes]. *)
Definition key_bytes : nat := 32.
Definition from_bytes (b : bytes) : Result bytes :=
  if negb (length b =? key_bytes)%nat
  then Err (Errors.with_ctx (Errors.with_ctx
         (Errors.invalid_argument "ApprovalSecret key must be exactly 32 bytes")
         "expected" (pretty key_bytes)) "actual" (pretty (length b)))
  else Ok b.

(** ** The broker's state *)
(** [ApprovalBroker::Key] (tool, identity, input hash), [Entry] and the members. *)
Abbreviation Key := (string * string * bytes)%type.
Definition key_identity (k : Key) : string := snd (fst k).
Record Entry := mkEntry { ent_expires_at : Z; ent_remaining_uses : Z; ent_sequence : Z }.
Record Broker := mkBroker { grants : gmap Key Entry; next_sequence : Z }.

Record ApprovalGrant := mkGrant {
  g_tool_name : string; g_input : string; g_identity : string; g_ttl : Z; g_replay_max : Z }.

Definition max_grants_per_identity : nat := 64.

(** [reap_expired], with the number of removed entries. *)
Definition reap_expired (b : Broker) (now : Z) : Broker * nat :=
  let kept := filter (fun kv : Key * Entry => ~ (ent_expires_at kv.2 <= now)) (grants b) in
  (mkBroker kept (next_sequence b), (size (grants b) - size kept)%nat).

(** The loop of [enforce_identity_ceiling] over the map: the number of other grants
    of the identity and the oldest of them. *)
Definition ceiling_step (identity : string) (new_key : Key)
    (acc : nat * option (Key * Entry)) (kv : Key * Entry) : nat * option (Key * Entry) :=
  if bool_decide (key_identity kv.1 <> identity) || bool_decide (kv.1 = new_key) then acc
  else
    (S acc.1,
     match acc.2 with
     | None => Some kv
     | Some oldest =>
         if ent_sequence kv.2 <? ent_sequence oldest.2 then Some kv else Some oldest
     end).

Definition enforce_identity_ceiling (b : Broker) (identity : string) (new_key : Key) : Broker :=
  let '(live_for_identity, oldest) :=
    fold_left (ceiling_step identity new_key) (map_to_list (grants b)) (0%nat, None) in
  match oldest with
  | Some (k, _) =>
      if (max_grants_per_identity <=? live_for_identity)%nat
      then mkBroker (delete k (grants b)) (next_sequence b) else b
  | None => b
  end.

Section Authority.
Context (sha256 : bytes -> bytes) (hmac : bytes -> bytes -> bytes).

Definition input_hash (input : string) : bytes := sha256 (lit input).

(** [ApprovalAuthority::issue]; [nonce] is what [randombytes_buf] wrote. *)
Definition issue (secret nonce : bytes) (g : ApprovalGrant) (now : Z) : ApprovalToken :=
  let hash := input_hash (g_input g) in
  let expires_at := wrap_s 64 (now + wrap_s 64 (g_ttl g * ns_per_s)) in
  mkToken (g_tool_name g) (g_identity g) hash nonce expires_at
    (hmac secret (canonical_bytes (g_tool_name g) (g_identity g) hash nonce expires_at)).

(** [ApprovalAuthority::verify]. *)
Definition verify (secret : bytes) (token : ApprovalToken)
    (tool_name input identity : string) (now : Z) : Result unit :=
  if tok_expires_at token <=? now then Err (token_denied "expired")
  else if negb (bool_decide (tok_tool_name token = tool_name))
  then Err (token_denied "tool_mismatch")
  else if negb (bool_decide (tok_identity token = identity))
  then Err (token_denied "identity_mismatch")
  else if negb (macs_equal (input_hash input) (tok_input_hash token))
  then Err (token_denied "input_mismatch")
  else
    let buf := canonical_bytes (tok_tool_name token) (tok_identity token)
                 (tok_input_hash token) (tok_nonce token) (tok_expires_at token) in
    if negb (macs_equal (hmac secret buf) (tok_mac token))
    then Err (token_denied "mac_mismatch")
    else Ok tt.

(** [ApprovalBroker::approve]. *)
Definition approve (secret nonce : bytes) (b : Broker) (grant : ApprovalGrant) (now : Z)
    : ApprovalToken * Broker :=
  let token := issue secret nonce grant now in
  let key := (tok_tool_name token, tok_identity token, tok_input_hash token) in
  let b := (reap_expired b now).1 in
  let b := enforce_identity_ceiling b (tok_identity token) key in
  (token,
   mkBroker
     (<[key := mkEntry (tok_expires_at token) (g_replay_max grant) (next_sequence b)]> (grants b))
     (wrap_u 64 (next_sequence b + 1))).

(** [ApprovalBroker::check]. *)
Definition check (secret : bytes) (b : Broker) (token : ApprovalToken)
    (tool_name input identity : string) (now : Z) : Result unit * Broker :=
  match verify secret token tool_name input identity now with
  | Err e => (Err e, b)
  | Ok _ =>
      let probe := (tool_name, identity, input_hash input) in
      match grants b !! probe with
      | None => (Err (broker_denied "no_grant"), b)
      | Some entry =>
          if ent_remaining_uses entry =? 0
          then (Err (broker_denied "replay_exhausted"), b)
          else
            (Ok tt,
             mkBroker (<[probe := mkEntry (ent_expires_at entry)
                          (ent_remaining_uses entry - 1) (ent_sequence entry)]> (grants b))
               (next_sequence b))
      end
  end.
End Authority.

Definition outstanding_grants (b : Broker) : nat := size (grants b).
Definition broker_init : Broker := mkBroker ∅ 0.

(** ** The signed bytes are unambiguous *)
Lemma app_inj_length {A} (a b a' b' : list A) :
  length a = length a' -> a ++ b = a' ++ b' -> a = a' /\ b = b'.
Proof. intros. by apply app_inj_1. Qed.

(** A length-prefixed string followed by anything splits in one way. *)
Definition view (s : string) : bytes :=
  le_bytes 4 (wrap_u 32 (Z.of_nat (String.length s))) ++ lit s.

Lemma append_string_view_eq out s : append_string_view out s = out ++ view s.
Proof. unfold append_string_view, append_le_u32, view. by rewrite <- app_assoc. Qed.

Lemma view_inj s s' rest rest' :
  fits_u 32 (Z.of_nat (String.length s)) -> fits_u 32 (Z.of_nat (String.length s')) ->
  view s ++ rest = view s' ++ rest' -> s = s' /\ rest = rest'.
Proof.
  unfold view. intros Hs Hs' H. rewrite <- !app_assoc in H.
  apply app_inj_length in H as [Hl H]; [|by rewrite !le_bytes_length].
  rewrite !wrap_u_id in Hl by done. apply le_bytes_inj in Hl.
  change (8 * Z.of_nat 4) with 32 in Hl.
  unfold fits_u in *. rewrite !Z.mod_small in Hl by lia.
  apply app_inj_length in H as [H ?]; [|rewrite !lit_length; lia].
  split; [by apply lit_inj|done].
Qed.

Lemma millis_inj t t' :
  fits_s 64 t -> fits_s 64 t' ->
  wrap_u 64 (wrap_u 64 (to_unix_millis t)) = wrap_u 64 (wrap_u 64 (to_unix_millis t')) ->
  to_unix_millis t = to_unix_millis t'.
Proof.
  unfold fits_s, wrap_u, to_unix_millis. change (2 ^ (64 - 1)) with 9223372036854775808.
  change (2 ^ 64) with 18446744073709551616. intros ? ? H.
  rewrite !Z.mod_mod in H by lia. Z.to_euclidean_division_equations. lia.
Qed.

(** ** Verification *)
Lemma macs_equal_true a b : macs_equal a b = true <-> a = b.
Proof.
  unfold macs_equal. destruct (Nat.eqb_spec (length a) (length b)) as [Hl|Hl]; simpl.
  - destruct (Nat.eqb_spec (length a) 0) as [H0|].
    + split; [intros _|done]. destruct a, b; done.
    + by rewrite bool_decide_eq_true.
  - split; [done|]. by intros ->.
Qed.

Section AuthorityTheory.
Context (sha256 : bytes -> bytes) (hmac : bytes -> bytes -> bytes) (secret : bytes).

Lemma verify_ok token tool input identity now :
  verify sha256 hmac secret token tool input identity now = Ok tt <->
  now < tok_expires_at token /\ tok_tool_name token = tool /\ tok_identity token = identity /\
  input_hash sha256 input = tok_input_hash token /\
  hmac secret (canonical_bytes tool identity (input_hash sha256 input) (tok_nonce token)
                 (tok_expires_at token)) = tok_mac token.
Proof.
  unfold verify. destruct (Z.leb_spec (tok_expires_at token) now); [split; [done|lia]|].
  destruct (bool_decide (tok_tool_name token = tool)) eqn:E1; simpl;
    apply bool_decide_eq_true in E1 || apply bool_decide_eq_false in E1; [|naive_solver].
  destruct (bool_decide (tok_identity token = identity)) eqn:E2; simpl;
    apply bool_decide_eq_true in E2 || apply bool_decide_eq_false in E2; [|naive_solver].
  destruct (macs_equal (input_hash sha256 input) _) eqn:E3; simpl.
  2:{ split; [done|]. intros (_ & _ & _ & Hh & _). apply macs_equal_true in Hh. congruence. }
  apply macs_equal_true in E3.
  destruct (macs_equal (hmac secret _) _) eqn:E4; simpl.
  - apply macs_equal_true in E4. subst. rewrite <- E3 in E4. split; [|done]. done.
  - split; [done|]. intros (_ & <- & <- & Hh & Hm). rewrite Hh in Hm.
    apply macs_equal_true in Hm. congruence.
Qed.

Lemma issue_fields nonce g now :
  let t := issue sha256 hmac secret nonce g now in
  tok_tool_name t = g_tool_name g /\ tok_identity t = g_identity g /\
  tok_input_hash t = input_hash sha256 (g_input g).
Proof. done. Qed.

Lemma issue_verify nonce g now now' :
  now' < tok_expires_at (issue sha256 hmac secret nonce g now) ->
  verify sha256 hmac secret (issue sha256 hmac secret nonce g now)
    (g_tool_name g) (g_input g) (g_identity g) now' = Ok tt.
Proof. intros H. by apply verify_ok. Qed.
End AuthorityTheory.

(** ** The ceiling on an identity's grants *)
Abbreviation of_identity identity := (fun kv : Key * Entry => key_identity kv.1 = identity).
Abbreviation other_of identity k :=
  (fun kv : Key * Entry => key_identity kv.1 = identity /\ kv.1 <> k).

Definition count_identity (identity : string) (m : gmap Key Entry) : nat :=
  size (filter (of_identity identity) m).

Definition ceiling_ok (b : Broker) : Prop :=
  forall identity, (count_identity identity (grants b) <= max_grants_per_identity)%nat.

Lemma size_filter_list (P : Key * Entry -> Prop) `{!forall x, Decision (P x)}
    (m : gmap Key Entry) :
  size (filter P m) = length (filter P (map_to_list m)).
Proof.
  rewrite <- length_map_to_list, map_filter_alt, map_to_list_to_map; [done|].
  apply NoDup_fmap_fst; [|apply NoDup_filter, NoDup_map_to_list].
  intros k e1 e2 [_ H1]%list_elem_of_filter [_ H2]%list_elem_of_filter.
  apply elem_of_map_to_list in H1, H2. congruence.
Qed.

Lemma filter_size_le (P Q : Key * Entry -> Prop)
    `{!forall x, Decision (P x)} `{!forall x, Decision (Q x)} (m : gmap Key Entry) :
  (forall kv, P kv -> Q kv) -> (size (filter P m) <= size (filter Q m))%nat.
Proof.
  intros HPQ. apply (map_subseteq_size (M := gmap Key)). apply map_filter_subseteq_ext.
  intros i x _. apply HPQ.
Qed.

Lemma filter_size_mono (P : Key * Entry -> Prop) `{!forall x, Decision (P x)}
    (m1 m2 : gmap Key Entry) :
  m1 ⊆ m2 -> (size (filter P m1) <= size (filter P m2))%nat.
Proof. intros Hsub. by apply (map_subseteq_size (M := gmap Key)), map_filter_subseteq_mono. Qed.

Lemma ceiling_fold identity k (l : list (Key * Entry)) : forall n o,
  let r := fold_left (ceiling_step identity k) l (n, o) in
  r.1 = (n + length (filter (other_of identity k) l))%nat /\
  match r.2 with
  | Some kv =>
      (o = Some kv \/ kv ∈ filter (other_of identity k) l) /\
      (forall kv', kv' ∈ filter (other_of identity k) l ->
         ent_sequence kv.2 <= ent_sequence kv'.2) /\
      (forall kv', o = Some kv' -> ent_sequence kv.2 <= ent_sequence kv'.2)
  | None => o = None /\ filter (other_of identity k) l = []
  end.
Proof.
  induction l as [|kv l IH]; intros n o; cbn [fold_left].
  { simpl. split; [lia|]. destruct o as [kv|]; [|done]. split; [by left|]. split.
    - intros kv' Hin. by apply not_elem_of_nil in Hin.
    - intros kv' Hkv. injection Hkv as <-. lia. }
  destruct (decide (other_of identity k kv)) as [Hp|Hp].
  - rewrite filter_cons_True by done. destruct Hp as [Hp1 Hp2].
    assert (Hstep : ceiling_step identity k (n, o) kv =
      (S n, match o with
            | None => Some kv
            | Some oldest =>
                if ent_sequence kv.2 <? ent_sequence oldest.2 then Some kv else Some oldest
            end)).
    { unfold ceiling_step. by rewrite !bool_decide_eq_false_2 by tauto. }
    rewrite Hstep.
    match goal with |- context [fold_left _ l (?a, ?b)] => specialize (IH a b) end.
    simpl in IH |- *. destruct IH as [-> IH]. split; [simpl; lia|].
    set (r := fold_left _ _ _) in *. destruct r.2 as [m|]; 
      [|exfalso; destruct IH as [IH _]; destruct o as [o|]; [destruct (_ <? _) in IH|]; done].
    destruct IH as (H1 & H2 & H3). destruct o as [o|].
    + destruct (Z.ltb_spec (ent_sequence kv.2) (ent_sequence o.2)) as [Hlt|Hge];
        specialize (H3 _ eq_refl); repeat split.
      * right. set_solver.
      * intros kv' [->|Hin]%elem_of_cons; [done|by apply H2].
      * intros ? [= <-]. lia.
      * set_solver.
      * intros kv' [->|Hin]%elem_of_cons; [lia|by apply H2].
      * intros ? [= <-]. lia.
    + specialize (H3 _ eq_refl). repeat split; [right; set_solver| |done].
      intros kv' [->|Hin]%elem_of_cons; [done|by apply H2].
  - rewrite filter_cons_False by done.
    assert (Hskip : bool_decide (key_identity kv.1 <> identity) || bool_decide (kv.1 = k) = true).
    { apply orb_true_iff. rewrite !bool_decide_eq_true.
      destruct (decide (key_identity kv.1 = identity)), (decide (kv.1 = k)); tauto. }
    assert (Hstep : ceiling_step identity k (n, o) kv = (n, o))
      by (unfold ceiling_step; by rewrite Hskip).
    rewrite Hstep. apply IH.
Qed.

(** What enforcing the ceiling does: nothing below it, else the oldest of the
    identity's other grants is evicted. *)
Lemma enforce_spec b (identity : string) (k : Key) :
  let others := filter (other_of identity k) (grants b) in
  let b' := enforce_identity_ceiling b identity k in
  next_sequence b' = next_sequence b /\
  ((size others < max_grants_per_identity)%nat -> b' = b) /\
  ((max_grants_per_identity <= size others)%nat ->
    exists k' e', others !! k' = Some e' /\ grants b' = delete k' (grants b) /\
      forall k'' e'', others !! k'' = Some e'' -> ent_sequence e' <= ent_sequence e'').
Proof.
  cbv zeta. rewrite size_filter_list. unfold enforce_identity_ceiling.
  pose proof (ceiling_fold identity k (map_to_list (grants b)) 0 None) as Hf. cbv zeta in Hf.
  destruct (fold_left _ _ _) as [live oldest]. simpl in Hf. destruct Hf as [-> Ho].
  destruct oldest as [[k' e']|].
  - destruct Ho as ([?|Hin] & Hmin & _); [done|].
    apply list_elem_of_filter in Hin as [Hp Hin%elem_of_map_to_list].
    destruct (Nat.leb_spec max_grants_per_identity
      (length (filter (other_of identity k) (map_to_list (grants b))))).
    + repeat split; [lia|]. intros _. exists k', e'. split; [by apply map_lookup_filter_Some|].
      split; [done|]. intros k'' e'' [Hk'' Hp'']%map_lookup_filter_Some.
      apply (Hmin (k'', e'')). apply list_elem_of_filter. split; [done|].
      by apply elem_of_map_to_list.
    + repeat split; lia.
  - destruct Ho as [_ ->]. simpl. repeat split. unfold max_grants_per_identity. lia.
Qed.

Lemma others_delete (identity : string) (k : Key) (m : gmap Key Entry) :
  key_identity k = identity ->
  filter (other_of identity k) m = delete k (filter (of_identity identity) m).
Proof.
  intros Hk. apply map_eq. intros i. apply option_eq. intros x.
  rewrite map_lookup_filter_Some, lookup_delete_Some, map_lookup_filter_Some. naive_solver.
Qed.

Lemma ceiling_insert b (identity : string) (k : Key) e :
  key_identity k = identity ->
  (size (filter (other_of identity k) (grants b)) < max_grants_per_identity)%nat ->
  (forall i, i <> identity -> (count_identity i (grants b) <= max_grants_per_identity)%nat) ->
  forall n, ceiling_ok (mkBroker (<[k := e]> (grants b)) n).
Proof.
  intros Hk Hlt Hothers n i. simpl. unfold count_identity.
  destruct (decide (i = identity)) as [->|Hi].
  - rewrite map_filter_insert_True by done. rewrite map_size_insert.
    rewrite others_delete, map_size_delete in Hlt by done.
    destruct (filter (of_identity identity) (grants b) !! k); simpl in *; lia.
  - rewrite map_filter_insert_not by (simpl; congruence). by apply Hothers.
Qed.

(** ** The broker as a state machine *)
Section BrokerTheory.
Context (sha256 : bytes -> bytes) (hmac : bytes -> bytes -> bytes) (secret : bytes).

(** The operations that change the broker, with any arguments. *)
Inductive broker_step (b : Broker) : Broker -> Prop :=
  | step_approve nonce grant now :
      broker_step b (approve sha256 hmac secret nonce b grant now).2
  | step_check token tool input identity now :
      broker_step b (check sha256 hmac secret b token tool input identity now).2
  | step_reap now : broker_step b (reap_expired b now).1.

Lemma ceiling_mono b b' :
  grants b' ⊆ grants b -> ceiling_ok b -> ceiling_ok b'.
Proof.
  intros Hsub Hb identity. specialize (Hb identity). unfold count_identity in *.
  pose proof (filter_size_mono (of_identity identity) _ _ Hsub). lia.
Qed.

Lemma reap_subseteq b now : grants (reap_expired b now).1 ⊆ grants b.
Proof. apply map_filter_subseteq. Qed.

Lemma enforce_subseteq b (identity : string) (k : Key) :
  grants (enforce_identity_ceiling b identity k) ⊆ grants b.
Proof.
  destruct (enforce_spec b identity k) as (_ & Hlt & Hge). cbv zeta in *.
  destruct (decide (size (filter (other_of identity k) (grants b)) < max_grants_per_identity)%nat)
    as [H|H].
  - by rewrite (Hlt H).
  - destruct (Hge ltac:(lia)) as (k' & e' & _ & -> & _). apply delete_subseteq.
Qed.

(** After enforcing, the identity has room for the new grant. *)
Lemma enforce_room b (identity : string) (k : Key) :
  ceiling_ok b -> key_identity k = identity ->
  (size (filter (other_of identity k) (grants (enforce_identity_ceiling b identity k)))
    < max_grants_per_identity)%nat.
Proof.
  intros Hb Hk. destruct (enforce_spec b identity k) as (_ & Hlt & Hge). cbv zeta in *.
  destruct (decide (size (filter (other_of identity k) (grants b)) < max_grants_per_identity)%nat)
    as [H|H]; [by rewrite (Hlt H)|].
  destruct (Hge ltac:(lia)) as (k' & e' & Hk' & -> & _).
  assert (size (filter (other_of identity k) (grants b)) <= max_grants_per_identity)%nat.
  { etrans; [|apply (Hb identity)]. apply filter_size_le. tauto. }
  rewrite map_filter_delete, map_size_delete, Hk'. unfold max_grants_per_identity in *. lia.
Qed.

Lemma approve_ceiling nonce b grant now :
  ceiling_ok b -> ceiling_ok (approve sha256 hmac secret nonce b grant now).2.
Proof.
  intros Hb. unfold approve. cbn [snd].
  set (t := issue _ _ _ _ _ _). set (key := (_, _, _)).
  set (b1 := (reap_expired b now).1). set (b2 := enforce_identity_ceiling b1 _ _).
  assert (Hb1 : ceiling_ok b1) by (eapply ceiling_mono; [apply reap_subseteq|done]).
  assert (Hb2 : ceiling_ok b2) by (eapply ceiling_mono; [apply enforce_subseteq|done]).
  apply (ceiling_insert b2 (tok_identity t)); [done|by apply enforce_room|].
  intros i _. apply Hb2.
Qed.

Lemma check_ceiling b token tool input identity now :
  ceiling_ok b -> ceiling_ok (check sha256 hmac secret b token tool input identity now).2.
Proof.
  intros Hb. unfold check. destruct (verify _ _ _ _ _ _ _ _); [|done].
  destruct (grants b !! _) as [e|] eqn:Hk; [|done]. destruct (_ =? 0); [done|].
  intros i. simpl. unfold count_identity. specialize (Hb i). unfold count_identity in Hb.
  rewrite map_filter_insert. case_decide as Hi; simpl in Hi.
  - rewrite map_size_insert.
    assert (filter (of_identity i) (grants b) !! (tool, identity, input_hash sha256 input) = Some e)
      as -> by by apply map_lookup_filter_Some. done.
  - etrans; [|exact Hb]. apply filter_size_mono, delete_subseteq.
Qed.
End BrokerTheory.

(** ** Theorems *)

(** the signed bytes determine the grant: two tokens with the same canonical
    bytes agree on tool, identity, input digest, nonce and expiry millisecond. *)
Theorem canonical_bytes_inj tool tool' identity identity' hash hash' nonce nonce' exp exp' :
  fits_u 32 (Z.of_nat (String.length tool)) -> fits_u 32 (Z.of_nat (String.length tool')) ->
  fits_u 32 (Z.of_nat (String.length identity)) -> fits_u 32 (Z.of_nat (String.length identity')) ->
  length hash = length hash' -> length nonce = length nonce' ->
  fits_s 64 exp -> fits_s 64 exp' ->
  canonical_bytes tool identity hash nonce exp = canonical_bytes tool' identity' hash' nonce' exp' ->
  tool = tool' /\ identity = identity' /\ hash = hash' /\ nonce = nonce' /\
  to_unix_millis exp = to_unix_millis exp'.
Proof.
  intros H1 H2 H3 H4 Hh Hn He He'. unfold canonical_bytes, append_le_i64. cbv zeta.
  rewrite !append_string_view_eq, <- !app_assoc. intros H.
  apply app_inv_head in H. apply app_inv_head in H.
  apply view_inj in H as [-> H]; [|done..]. apply view_inj in H as [-> H]; [|done..].
  apply app_inj_length in H as [-> H]; [|done]. apply app_inj_length in H as [-> H]; [|done].
  repeat split. apply le_bytes_inj in H. by apply millis_inj.
Qed.

Lemma canonical_bytes_inj_witness :
  let tool := "FileWrite"%string in
  tool = tool /\ "s1"%string = "s1"%string /\ lit "0123" = lit "0123" /\ lit "n" = lit "n" /\
  to_unix_millis 5000000 = to_unix_millis 5999999.
Proof.
  apply (canonical_bytes_inj "FileWrite" "FileWrite" "s1" "s1" (lit "0123") (lit "0123")
    (lit "n") (lit "n") 5000000 5999999);
    try reflexivity; vm_compute; split; congruence.
Defined.

(** a check succeeds exactly when the token is unexpired, was issued for this
    tool, identity and input under this secret, and a grant with uses left is on
    record; it then spends one use of that grant and touches nothing else.  A
    failing check leaves the broker as it was. *)
Theorem check_spec sha256 hmac secret b token tool input identity now r b' :
  check sha256 hmac secret b token tool input identity now = (r, b') ->
  (r = Ok tt <->
     verify sha256 hmac secret token tool input identity now = Ok tt /\
     exists e, grants b !! (tool, identity, input_hash sha256 input) = Some e /\
       ent_remaining_uses e <> 0) /\
  (r <> Ok tt -> b' = b) /\
  (r = Ok tt ->
     next_sequence b' = next_sequence b /\
     forall k, grants b' !! k =
       if decide (k = (tool, identity, input_hash sha256 input))
       then (fun e => mkEntry (ent_expires_at e) (ent_remaining_uses e - 1) (ent_sequence e))
              <$> grants b !! k
       else grants b !! k).
Proof.
  unfold check. destruct (verify _ _ _ _ _ _ _ _) as [[]|e].
  2:{ intros [= <- <-]. split; [|done]. split; [done|]. by intros [? _]. }
  destruct (grants b !! _) as [e|] eqn:Hk.
  2:{ intros [= <- <-]. split; [|done]. split; [done|]. intros (_ & e & ? & _). done. }
  destruct (Z.eqb_spec (ent_remaining_uses e) 0) as [H0|H0].
  { intros [= <- <-]. split; [|done]. split; [done|]. intros (_ & e' & [= <-] & ?). done. }
  intros [= <- <-]. repeat split; [by eauto|done|]. intros k. simpl. case_decide as Hd.
  - subst. by rewrite lookup_insert_eq, Hk.
  - by rewrite lookup_insert_ne.
Qed.

(** in every state the broker can reach, no identity holds more than the
    ceiling's number of grants. *)
Theorem broker_ceiling sha256 hmac secret b :
  rtc (broker_step sha256 hmac secret) broker_init b -> ceiling_ok b.
Proof.
  intros Hr. assert (Hi : ceiling_ok broker_init).
  { intros i. unfold count_identity. simpl. rewrite map_filter_empty, map_size_empty.
    unfold max_grants_per_identity. lia. }
  revert Hi. induction Hr as [b|b b1 b2 Hs _ IH]; intros Hb; [done|]. apply IH.
  destruct Hs; [by apply approve_ceiling|by apply check_ceiling|].
  eapply ceiling_mono; [apply reap_subseteq|done].
Qed.

(** ** The replay window *)
Section Replay.
Context (sha256 : bytes -> bytes) (hmac : bytes -> bytes -> bytes) (secret : bytes).

(** The token presented for its own call at each of the given times. *)
Fixpoint present (b : Broker) (token : ApprovalToken) (tool input identity : string)
    (times : list Z) : list (Result unit) * Broker :=
  match times with
  | [] => ([], b)
  | now :: times' =>
      let '(r, b') := check sha256 hmac secret b token tool input identity now in
      let '(rs, b'') := present b' token tool input identity times' in (r :: rs, b'')
  end.

Lemma present_spec token tool input identity times : forall b e,
  Forall (fun now => verify sha256 hmac secret token tool input identity now = Ok tt) times ->
  grants b !! (tool, identity, input_hash sha256 input) = Some e ->
  0 <= ent_remaining_uses e ->
  (present b token tool input identity times).1 =
    replicate (Z.to_nat (ent_remaining_uses e) `min` length times) (Ok tt) ++
    replicate (length times - Z.to_nat (ent_remaining_uses e))
      (Err (broker_denied "replay_exhausted")).
Proof.
  induction times as [|now times IH]; intros b e Hv He Hpos; cbn [present].
  { by rewrite Nat.min_0_r. }
  apply Forall_cons in Hv as [Hnow Hv]. unfold check. rewrite Hnow, He.
  destruct (Z.eqb_spec (ent_remaining_uses e) 0) as [H0|H0].
  - specialize (IH b e Hv He Hpos). destruct (present b _ _ _ _ times) as [rs b''].
    simpl in IH. simpl fst. rewrite IH, H0. simpl. by rewrite Nat.sub_0_r.
  - set (b1 := mkBroker _ _).
    specialize (IH b1 (mkEntry (ent_expires_at e) (ent_remaining_uses e - 1) (ent_sequence e))
      Hv ltac:(apply lookup_insert_eq) ltac:(simpl; lia)).
    destruct (present b1 _ _ _ _ times) as [rs b'']. simpl in IH |- *. rewrite IH.
    replace (Z.to_nat (ent_remaining_uses e)) with (S (Z.to_nat (ent_remaining_uses e - 1)))
      by lia. done.
Qed.
End Replay.

(** an approval is worth exactly its replay budget: presented for its own call
    before it expires, its token is accepted [replay_max] times, and every later
    presentation is refused as exhausted. *)
Theorem approve_budget sha256 hmac secret nonce b grant now times :
  0 <= g_replay_max grant ->
  let '(token, b') := approve sha256 hmac secret nonce b grant now in
  Forall (fun t => t < tok_expires_at token) times ->
  (present sha256 hmac secret b' token (g_tool_name grant) (g_input grant) (g_identity grant)
     times).1 =
    replicate (Z.to_nat (g_replay_max grant) `min` length times) (Ok tt) ++
    replicate (length times - Z.to_nat (g_replay_max grant))
      (Err (broker_denied "replay_exhausted")).
Proof.
  intros Hpos. unfold approve. intros Htimes.
  refine (present_spec sha256 hmac secret _ _ _ _ _ _ (mkEntry _ (g_replay_max grant) _) _ _ _).
  - eapply Forall_impl; [exact Htimes|]. intros t Ht. by apply issue_verify.
  - simpl. apply lookup_insert_eq.
  - done.
Qed.

Section Witnesses.
(** Stand-ins for the digest and the MAC. *)
Definition toy_hash (b : bytes) : bytes := take 32 (b ++ replicate 32 zero).
Definition toy_mac (k b : bytes) : bytes := toy_hash (k ++ rev b).
Definition toy_grant : ApprovalGrant := mkGrant "FileWrite" "{}" "session" 3600 2.
Definition toy_approved := approve toy_hash toy_mac (lit "key") (lit "nonce") broker_init toy_grant 10.

Lemma approve_budget_witness :
  (present toy_hash toy_mac (lit "key") toy_approved.2 toy_approved.1 "FileWrite" "{}" "session"
     [11; 12; 13]).1 = [Ok tt; Ok tt; Err (broker_denied "replay_exhausted")].
Proof.
  refine (approve_budget toy_hash toy_mac (lit "key") (lit "nonce") broker_init toy_grant 10
    [11; 12; 13] _ _); [vm_compute; congruence|].
  repeat constructor.
Defined.

Lemma check_spec_witness :
  exists b', check toy_hash toy_mac (lit "key") toy_approved.2 toy_approved.1 "FileWrite" "{}"
    "session" 11 = (Ok tt, b') /\ next_sequence b' = next_sequence toy_approved.2.
Proof.
  eexists. split; [vm_compute; reflexivity|].
  eapply (check_spec toy_hash toy_mac (lit "key") toy_approved.2 toy_approved.1 "FileWrite" "{}"
    "session" 11 (Ok tt)); vm_compute; reflexivity.
Defined.

Lemma broker_ceiling_witness : ceiling_ok toy_approved.2.
Proof.
  apply (broker_ceiling toy_hash toy_mac (lit "key")). apply rtc_once.
  exact (step_approve toy_hash toy_mac (lit "key") broker_init (lit "nonce") toy_grant 10).
Defined.
End Witnesses.
