(* ===== verification/Hooks.v ===== *)
(** * oran-hook: payloads, sinks and the bus

    Models [include/oran/hook/payload.hpp], [decision.hpp], [sink.hpp] and
    [src/oran-hook/bus.cpp].  A sink's callbacks are host code: a [Sink] carries
    what its [decide] callback does with the payload it is shown, as one of the
    outcomes the bus distinguishes, and whether the armed timer fires first.  A
    publish returns the decision and the calls it made, in order, each with the
    payload the sink was given. *)
From S2P Require Import Prelude Core TurnId.
Import EnumNames.
#[local] Open Scope Z_scope.

(** ** Events and payloads *)
Inductive Event :=
  | channel_action | provider_request | provider_response | provider_error
  | tool_before | tool_after | memory_read_after | memory_write_before
  | memory_write_after | memory_forget | permission_ask_rendered.
#[export] Instance Event_eq_dec : EqDecision Event.
Proof. solve_decision. Defined.
#[export] Instance Event_countable : Countable Event.
Proof.
  refine (inj_countable' (fun e => match e with
    | channel_action => 0%nat | provider_request => 1%nat | provider_response => 2%nat
    | provider_error => 3%nat | tool_before => 4%nat | tool_after => 5%nat
    | memory_read_after => 6%nat | memory_write_before => 7%nat
    | memory_write_after => 8%nat | memory_forget => 9%nat
    | permission_ask_rendered => 10%nat end)
    (fun n => match n with
    | 0%nat => channel_action | 1%nat => provider_request | 2%nat => provider_response
    | 3%nat => provider_error | 4%nat => tool_before | 5%nat => tool_after
    | 6%nat => memory_read_after | 7%nat => memory_write_before
    | 8%nat => memory_write_after | 9%nat => memory_forget
    | _ => permission_ask_rendered end) _).
  by intros [].
Defined.

Definition is_gate (e : Event) : bool :=
  match e with tool_before | permission_ask_rendered | memory_write_before => true | _ => false end.

Record Identity := mkIdentity { who_scope_key : string; who_agent_key : string; who_identity : string }.

Record ToolUsage := mkUsage {
  u_bytes_read : option Z; u_bytes_written : option Z; u_files_touched : option Z;
  u_match_count : option Z; u_cost_estimate : option double; u_wall_time : option Z;
  u_truncated : bool; u_data_dropped : bool }.
Definition no_usage : ToolUsage := mkUsage None None None None None None false false.
#[export] Instance ToolUsage_eq_dec : EqDecision ToolUsage.
Proof. solve_decision. Defined.

Record ToolBeforePayload := mkToolBefore {
  tb_tool_name : string; tb_input_json : string; tb_redacted_input_json : option string;
  tb_who : Identity; tb_started_at : Z }.
Record ToolAfterPayload := mkToolAfter {
  ta_tool_name : string; ta_input_json : string; ta_redacted_input_json : option string;
  ta_who : Identity; ta_succeeded : bool; ta_output_text : string; ta_data_json : option string;
  ta_usage : ToolUsage; ta_error_kind : string; ta_error_message : string;
  ta_started_at : Z; ta_finished_at : Z; ta_duration : Z }.
Record PermissionAskRenderedPayload := mkAsk {
  pa_tool_name : string; pa_input_json : string; pa_redacted_input_json : option string;
  pa_who : Identity; pa_decision_reason : string; pa_replay_max : Z; pa_approval_ttl : Z;
  pa_requested_at : Z; pa_turn_id : option TurnId }.
Record MemoryRecordPayload := mkMemRecord {
  mr_id : string; mr_scope_key : string; mr_kind : string; mr_title : string; mr_body : string;
  mr_created_at : Z; mr_updated_at : Z; mr_last_read_at : Z; mr_importance : double;
  mr_tags : list string; mr_linked_record_ids : list string; mr_shadow : bool }.
Record RedactedMemoryRecordPayload := mkRedactedRecord {
  rr_id : string; rr_scope_key : string; rr_kind : string; rr_title_bytes : Z;
  rr_body_bytes : Z; rr_tag_count : Z; rr_linked_record_count : Z; rr_shadow : bool }.
Record MemoryWritePayload := mkMemWrite {
  mw_who : Identity; mw_record : MemoryRecordPayload;
  mw_redacted_record : option RedactedMemoryRecordPayload;
  mw_started_at : Z; mw_finished_at : Z; mw_duration : Z }.
Record MemoryReadHitPayload := mkMemHit {
  mh_record : MemoryRecordPayload; mh_score : double;
  mh_redacted_record : option RedactedMemoryRecordPayload }.
Record MemoryReadPayload := mkMemRead {
  md_who : Identity; md_source : string; md_query : string; md_redacted_query_bytes : option Z;
  md_limit : Z; md_kinds : list string; md_match_count : Z; md_hits : list MemoryReadHitPayload;
  md_started_at : Z; md_finished_at : Z; md_duration : Z }.
Record MemoryForgetPayload := mkMemForget {
  mf_who : Identity; mf_id : string; mf_scope_key : string;
  mf_started_at : Z; mf_finished_at : Z; mf_duration : Z }.
Record ProviderUsage := mkProviderUsage {
  pu_input_tokens : Z; pu_output_tokens : Z; pu_cache_creation_tokens : Z;
  pu_cache_read_tokens : Z; pu_cost_estimate : option double }.
Record ProviderRequestPayload := mkProviderRequest {
  pr_who : Identity; pr_origin : string; pr_turn_id : option TurnId; pr_iteration : Z;
  pr_route_profile : string; pr_route_model : string; pr_route_protocol : string;
  pr_fallback_count : Z; pr_message_count : Z; pr_tool_count : Z; pr_stream : bool;
  pr_max_tokens : option Z; pr_thinking_budget : option Z; pr_retry_max_attempts : Z;
  pr_retry_initial_backoff : Z; pr_started_at : Z }.
Record ProviderResponsePayload := mkProviderResponse {
  ps_who : Identity; ps_origin : string; ps_turn_id : option TurnId; ps_iteration : Z;
  ps_route_profile : string; ps_route_model : string; ps_route_protocol : string;
  ps_served_profile : string; ps_served_model : string; ps_served_protocol : string;
  ps_stop_reason : string; ps_usage : ProviderUsage;
  ps_started_at : Z; ps_finished_at : Z; ps_duration : Z }.
Record ProviderErrorPayload := mkProviderError {
  pe_who : Identity; pe_origin : string; pe_turn_id : option TurnId; pe_iteration : Z;
  pe_route_profile : string; pe_route_model : string; pe_route_protocol : string;
  pe_error_kind : string; pe_error_message : string; pe_retryable : bool;
  pe_started_at : Z; pe_finished_at : Z; pe_duration : Z }.
Record ChannelActionPayload := mkChannelAction {
  ca_platform : string; ca_account : string; ca_operation : string; ca_allowed : bool }.

(** [Payload], one constructor per alternative of the variant. *)
Inductive Payload :=
  | P_channel (p : ChannelActionPayload)
  | P_tool_before (p : ToolBeforePayload)
  | P_tool_after (p : ToolAfterPayload)
  | P_ask (p : PermissionAskRenderedPayload)
  | P_memory_read (p : MemoryReadPayload)
  | P_memory_write (p : MemoryWritePayload)
  | P_memory_forget (p : MemoryForgetPayload)
  | P_provider_request (p : ProviderRequestPayload)
  | P_provider_response (p : ProviderResponsePayload)
  | P_provider_error (p : ProviderErrorPayload).

(** ** Decisions *)
Inductive HookDecisionKind := proceed | veto | rewrite | require_approval.
#[export] Instance HookDecisionKind_eq_dec : EqDecision HookDecisionKind.
Proof. solve_decision. Defined.
#[export] Instance Enum_HookDecisionKind : Enum HookDecisionKind := {
  enumerators := [(proceed, "proceed"); (veto, "veto"); (rewrite, "rewrite");
                  (require_approval, "require_approval")]%string }.
#[export] Instance EnumLaws_HookDecisionKind : EnumLaws HookDecisionKind.
Proof. solve_enum_laws. Qed.

Record HookDecisionTrace := mkTrace {
  tr_sink_id : string; tr_kind : HookDecisionKind; tr_reason : string; tr_elapsed : option Z }.
#[export] Instance HookDecisionTrace_eq_dec : EqDecision HookDecisionTrace.
Proof. solve_decision. Defined.
Record HookDecision := mkHookDecision {
  hd_kind : HookDecisionKind; hd_reason : string; hd_rewritten_input_json : option string;
  hd_trace : list HookDecisionTrace }.
Definition proceed_decision : HookDecision := mkHookDecision proceed "" None [].

(** ** Redaction *)
Definition clear_memory_text (r : MemoryRecordPayload) : MemoryRecordPayload :=
  mkMemRecord (mr_id r) (mr_scope_key r) (mr_kind r) "" "" (mr_created_at r) (mr_updated_at r)
    (mr_last_read_at r) (mr_importance r) [] [] (mr_shadow r).

Definition redact_hit (h : MemoryReadHitPayload) : MemoryReadHitPayload :=
  match mh_redacted_record h with
  | Some _ => mkMemHit (clear_memory_text (mh_record h)) (mh_score h) (mh_redacted_record h)
  | None => h
  end.

Definition redact_payload (p : Payload) : Payload :=
  match p with
  | P_tool_before b =>
      P_tool_before (mkToolBefore (tb_tool_name b)
        (default (tb_input_json b) (tb_redacted_input_json b)) (tb_redacted_input_json b)
        (tb_who b) (tb_started_at b))
  | P_tool_after a =>
      P_tool_after (mkToolAfter (ta_tool_name a)
        (default (ta_input_json a) (ta_redacted_input_json a)) (ta_redacted_input_json a)
        (ta_who a) (ta_succeeded a) (ta_output_text a) None (ta_usage a) (ta_error_kind a)
        (ta_error_message a) (ta_started_at a) (ta_finished_at a) (ta_duration a))
  | P_ask a =>
      P_ask (mkAsk (pa_tool_name a)
        (default (pa_input_json a) (pa_redacted_input_json a)) (pa_redacted_input_json a)
        (pa_who a) (pa_decision_reason a) (pa_replay_max a) (pa_approval_ttl a)
        (pa_requested_at a) (pa_turn_id a))
  | P_memory_write w =>
      P_memory_write (mkMemWrite (mw_who w)
        match mw_redacted_record w with
        | Some _ => clear_memory_text (mw_record w) | None => mw_record w end
        (mw_redacted_record w) (mw_started_at w) (mw_finished_at w) (mw_duration w))
  | P_memory_read r =>
      P_memory_read (mkMemRead (md_who r) (md_source r)
        match md_redacted_query_bytes r with Some _ => ""%string | None => md_query r end
        (md_redacted_query_bytes r) (md_limit r) (md_kinds r) (md_match_count r)
        (map redact_hit (md_hits r)) (md_started_at r) (md_finished_at r) (md_duration r))
  | _ => p
  end.

(** ** Sinks and the bus *)
(** How a [decide] callback ends: a decision, an error value, a standard exception
    with its text, or another exception. *)
Inductive DecideOutcome :=
  | decided (d : HookDecision)
  | decide_error (e : Error)
  | decide_threw (what : string)
  | decide_threw_other.

(** [Sink]: [sink_decide] is absent for an empty callback; its second component is
    the timer's result when an armed timer completes before the callback. *)
Record Sink := mkSink {
  sink_id : string;
  sink_observe : bool;
  sink_decide : option (Event -> Payload -> DecideOutcome * option (Result unit));
  sink_trusted_local : bool }.

Record BusOptions := mkBusOptions { blocking_timeout : Z; advisory_timeout : Z }.
Definition default_bus_options : BusOptions := mkBusOptions 2000 2000.
Record Bus := mkBus { bindings : gmap Event (list Sink); bus_options : BusOptions }.

(** [Bus::subscribe]: after the sinks already subscribed to each event. *)
Definition subscribe (b : Bus) (sink : Sink) (events : list Event) : Bus :=
  mkBus
    (fold_left (fun m e => <[e := default [] (m !! e) ++ [sink]]> m) events (bindings b))
    (bus_options b).

(** [SharedPayloads::for_sink]. *)
Definition for_sink (payload : Payload) (sink : Sink) : Payload :=
  if sink_trusted_local sink then payload else redact_payload payload.

Definition hook_error_veto (cause sink_id : string) : HookDecision :=
  mkHookDecision veto
    ("hook_error" +:+ (if decide (cause = ""%string) then "" else ": " +:+ cause) +:+
     " [sink=" +:+ sink_id +:+ "]") None [].

(** [call_decide]. *)
Definition call_decide (sink : Sink) (o : DecideOutcome) : HookDecision :=
  match o with
  | decided d => d
  | decide_error e => hook_error_veto (err_message e) (sink_id sink)
  | decide_threw what => hook_error_veto what (sink_id sink)
  | decide_threw_other => hook_error_veto "sink threw non-std exception" (sink_id sink)
  end.

(** [call_decide_within]: the decision with the elapsed time of a timeout. *)
Definition call_decide_within (sink : Sink) (o : DecideOutcome) (timer : option (Result unit))
    (timeout : Z) : Result (HookDecision * option Z) :=
  if timeout <=? 0 then Ok (call_decide sink o, None)
  else
    match timer with
    | None => Ok (call_decide sink o, None)
    | Some (Err e) => Err e
    | Some (Ok _) => Ok (mkHookDecision veto "hook_timeout" None [], Some timeout)
    end.

(** The calls a publish makes: the sink and the payload it was shown. *)
Abbreviation Shown := (list (Sink * Payload)).

Fixpoint blocking_loop (sinks : list Sink) (event : Event) (payload : Payload) (timeout : Z)
    (trace : list HookDecisionTrace) : Result HookDecision * Shown :=
  match sinks with
  | [] => (Ok (mkHookDecision proceed "" None trace), [])
  | sink :: sinks' =>
      match sink_decide sink with
      | None => blocking_loop sinks' event payload timeout trace
      | Some callback =>
          let shown := for_sink payload sink in
          let '(outcome, timer) := callback event shown in
          match call_decide_within sink outcome timer timeout with
          | Err e => (Err e, [(sink, shown)])
          | Ok (decision, elapsed) =>
              let trace := trace ++ [mkTrace (sink_id sink) (hd_kind decision)
                                       (hd_reason decision) elapsed] in
              if decide (hd_kind decision = proceed) then
                let '(r, calls) := blocking_loop sinks' event payload timeout trace in
                (r, (sink, shown) :: calls)
              else
                (Ok (mkHookDecision (hd_kind decision) (hd_reason decision)
                       (hd_rewritten_input_json decision) trace), [(sink, shown)])
          end
      end
  end.

(** [Bus::publish_blocking_impl]. *)
Definition publish_blocking (b : Bus) (event : Event) (payload : Payload)
    : Result HookDecision * Shown :=
  match bindings b !! event with
  | None => (Ok proceed_decision, [])
  | Some sinks =>
      let timeout := if decide (event = permission_ask_rendered) then 0
                     else blocking_timeout (bus_options b) in
      blocking_loop sinks event payload timeout []
  end.

(** [Bus::publish_advisory]: the observations it spawns. [created] says whether the
    task group could be created. *)
Definition publish_advisory (b : Bus) (event : Event) (payload : Payload) (created : bool)
    : Shown :=
  match bindings b !! event with
  | None => []
  | Some sinks =>
      let observers := List.filter sink_observe sinks in
      if created then map (fun s => (s, for_sink payload s)) observers else []
  end.

(** ** Theory *)
Definition deciders (sinks : list Sink) : list Sink :=
  List.filter (fun s => match sink_decide s with Some _ => true | None => false end) sinks.

(** The decision one sink contributes. *)
Definition consult (event : Event) (payload : Payload) (timeout : Z) (s : Sink)
    : Result (HookDecision * option Z) :=
  match sink_decide s with
  | Some callback =>
      let '(o, timer) := callback event (for_sink payload s) in
      call_decide_within s o timer timeout
  | None => Ok (proceed_decision, None)
  end.

Definition trace_row (s : Sink) (d : HookDecision * option Z) : HookDecisionTrace :=
  mkTrace (sink_id s) (hd_kind d.1) (hd_reason d.1) d.2.

Definition proceeds (event : Event) (payload : Payload) (timeout : Z) (s : Sink) : Prop :=
  exists d, consult event payload timeout s = Ok d /\ hd_kind d.1 = proceed.

(** The trace rows of sinks that were consulted without a failure. *)
Definition rows (event : Event) (payload : Payload) (timeout : Z) (sinks : list Sink)
    : list HookDecisionTrace :=
  flat_map (fun s => match consult event payload timeout s with
                     | Ok d => [trace_row s d] | Err _ => [] end) sinks.

Lemma blocking_loop_spec event payload timeout sinks : forall trace,
  let '(r, shown) := blocking_loop sinks event payload timeout trace in
  exists before,
    (before `prefix_of` deciders sinks) /\ Forall (proceeds event payload timeout) before /\
    ((before = deciders sinks /\ shown = map (fun s => (s, for_sink payload s)) before /\
      r = Ok (mkHookDecision proceed "" None (trace ++ rows event payload timeout before))) \/
     exists s rest, deciders sinks = before ++ s :: rest /\
       shown = map (fun s => (s, for_sink payload s)) (before ++ [s]) /\
       match consult event payload timeout s with
       | Err e => r = Err e
       | Ok d => hd_kind d.1 <> proceed /\
           r = Ok (mkHookDecision (hd_kind d.1) (hd_reason d.1) (hd_rewritten_input_json d.1)
                     (trace ++ rows event payload timeout (before ++ [s])))
       end).
Proof.
  induction sinks as [|s sinks IH]; intros trace; cbn [blocking_loop].
  { exists []. split; [done|]. split; [constructor|]. left. simpl. by rewrite app_nil_r. }
  destruct (sink_decide s) as [callback|] eqn:Hs.
  2:{ specialize (IH trace). destruct (blocking_loop sinks event payload timeout trace).
      unfold deciders. cbn [List.filter]. by rewrite Hs. }
  assert (Hd : deciders (s :: sinks) = s :: deciders sinks)
    by (unfold deciders; cbn [List.filter]; by rewrite Hs).
  rewrite Hd. destruct (callback event (for_sink payload s)) as [o timer] eqn:Hcall.
  assert (Hc : consult event payload timeout s = call_decide_within s o timer timeout)
    by (unfold consult; by rewrite Hs, Hcall).
  destruct (call_decide_within s o timer timeout) as [[d elapsed]|e].
  - case_decide as Hp.
    + specialize (IH (trace ++ [mkTrace (sink_id s) (hd_kind d) (hd_reason d) elapsed])).
      destruct (blocking_loop sinks event payload timeout _) as [r calls].
      destruct IH as (before & Hpre & Hall & IH). exists (s :: before).
      split; [by apply prefix_cons|].
      split; [constructor; [by eexists|done]|].
      assert (Hrows : forall l, rows event payload timeout (s :: l) =
        mkTrace (sink_id s) (hd_kind d) (hd_reason d) elapsed :: rows event payload timeout l)
        by (intros l; unfold rows; cbn [flat_map]; by rewrite Hc).
      destruct IH as [(-> & -> & ->)|(s' & rest & Hrest & -> & Hr)].
      * left. rewrite Hrows, <- app_assoc. done.
      * right. exists s', rest. rewrite Hrest. split; [done|]. split; [done|].
        cbn [app]. rewrite Hrows. destruct (consult event payload timeout s') as [d'|]; [|done].
        destruct Hr as [? ->]. split; [done|]. by rewrite <- app_assoc.
    + exists []. split; [apply prefix_nil|]. split; [constructor|]. right.
      exists s, (deciders sinks). rewrite Hc. split; [done|]. split; [done|]. split; [done|].
      unfold rows. simpl. by rewrite Hc.
  - exists []. split; [apply prefix_nil|]. split; [constructor|]. right.
    exists s, (deciders sinks). by rewrite Hc.
Qed.

Definition gate_timeout (b : Bus) (event : Event) : Z :=
  if decide (event = permission_ask_rendered) then 0 else blocking_timeout (bus_options b).

(** ** Theorems *)

(** a gate consults the deciding sinks in subscription order and stops at the
    first that does not proceed; the trace lists exactly the consulted sinks.  The
    publish proceeds only if every deciding sink did. *)
Theorem publish_blocking_spec b event payload r shown :
  publish_blocking b event payload = (r, shown) ->
  let all := deciders (default [] (bindings b !! event)) in
  let t := gate_timeout b event in
  (exists n, shown = map (fun s => (s, for_sink payload s)) (take n all)) /\
  forall d, r = Ok d ->
    hd_trace d = rows event payload t (map fst shown) /\
    (hd_kind d = proceed <-> Forall (proceeds event payload t) all) /\
    (hd_kind d <> proceed -> exists s d', last (map fst shown) = Some s /\
       consult event payload t s = Ok d' /\ hd_kind d = hd_kind d'.1 /\
       hd_reason d = hd_reason d'.1 /\
       hd_rewritten_input_json d = hd_rewritten_input_json d'.1).
Proof.
  intros H. cbv zeta. unfold publish_blocking in H.
  destruct (bindings b !! event) as [sinks|]; simpl default.
  2:{ injection H as <- <-. split; [by exists 0%nat|]. intros d [= <-].
      split; [done|]. split; [|done]. split; [constructor|done]. }
  fold (gate_timeout b event) in H.
  pose proof (blocking_loop_spec event payload (gate_timeout b event) sinks []) as Hs.
  rewrite H in Hs. destruct Hs as (before & Hpre & Hall & [(-> & -> & ->)|Hs]).
  - split; [exists (length (deciders sinks)); by rewrite take_ge|]. intros d [= <-]. simpl.
    rewrite map_map, map_id. split; [done|]. split; [|done]. done.
  - destruct Hs as (s & rest & Hd & -> & Hr). split.
    { exists (length (before ++ [s])). rewrite Hd.
      replace (before ++ s :: rest) with ((before ++ [s]) ++ rest) by by rewrite <- app_assoc.
      by rewrite take_app_length. }
    intros d ->. destruct (consult event payload _ s) as [d'|] eqn:Hc; [|done].
    destruct Hr as [Hne [= ->]]. simpl. rewrite map_map, map_id. split; [done|]. split.
    + split; [done|]. rewrite Hd, Forall_app, Forall_cons. intros (_ & (d'' & Hd'' & Hp) & _).
      rewrite Hc in Hd''. by injection Hd'' as <-.
    + intros _. exists s, d'. by rewrite last_snoc.
Qed.

(** gates fail closed: a sink whose callback returns an error, throws, or is
    overtaken by its timer never lets the effect through. *)
Theorem gate_fails_closed event payload timeout s callback o timer :
  sink_decide s = Some callback -> callback event (for_sink payload s) = (o, timer) ->
  (forall d, o <> decided d) \/ (0 < timeout /\ timer <> None) ->
  ~ proceeds event payload timeout s.
Proof.
  intros Hs Hc Hbad (d & Hd & Hp). unfold consult, call_decide_within in Hd. rewrite Hs, Hc in Hd.
  destruct Hbad as [Hno|[Ht Htimer]].
  - destruct (timeout <=? 0); [|destruct timer as [[[]|]|]]; simplify_eq/=;
      destruct o; simplify_eq/=; by eapply Hno.
  - rewrite (proj2 (Z.leb_gt _ _)) in Hd by done. destruct timer as [[[]|]|]; simplify_eq/=.
Qed.

(** What an untrusted sink may learn of a payload. *)
Lemma redact_idempotent p : redact_payload (redact_payload p) = redact_payload p.
Proof.
  destruct p as [p|p|p|p|p|p|p|p|p|p]; simpl; try done; do 2 f_equal.
  - by destruct (tb_redacted_input_json p).
  - by destruct (ta_redacted_input_json p).
  - by destruct (pa_redacted_input_json p).
  - by destruct (md_redacted_query_bytes p).
  - rewrite map_map. apply map_ext. intros h. unfold redact_hit.
    destruct (mh_redacted_record h) eqn:E; simpl; by rewrite ?E.
  - by destruct (mw_redacted_record p).
Qed.

(** untrusted sinks are given redacted payloads only, by gates and by
    observations: two payloads with the same redacted view are indistinguishable to
    every untrusted sink. *)
Theorem untrusted_sinks_see_redacted b event payload payload' s p :
  redact_payload payload = redact_payload payload' -> sink_trusted_local s = false ->
  (s, p) ∈ (publish_blocking b event payload).2 ++ publish_advisory b event payload true ->
  p = redact_payload payload'.
Proof.
  intros Hred Hs Hin.
  assert (Hshown : forall q l, (s, q) ∈ map (fun s => (s, for_sink payload s)) l ->
    q = redact_payload payload').
  { intros q l (s' & [= <- ->] & _)%list_elem_of_fmap. unfold for_sink. by rewrite Hs. }
  apply elem_of_app in Hin as [Hin|Hin].
  - destruct (publish_blocking b event payload) as [r shown] eqn:Hp. unfold publish_blocking in Hp.
    destruct (bindings b !! event) as [sinks|]; simplify_eq/=; [|by apply not_elem_of_nil in Hin].
    pose proof (blocking_loop_spec event payload (gate_timeout b event) sinks []) as Hspec.
    unfold gate_timeout in Hspec. rewrite Hp in Hspec.
    destruct Hspec as (before & _ & _ & [(_ & -> & _)|(s' & rest & _ & -> & _)]); by eapply Hshown.
  - unfold publish_advisory in Hin. destruct (bindings b !! event); [by eapply Hshown|].
    by apply not_elem_of_nil in Hin.
Qed.

Section Witnesses.
Definition quiet_sink : Sink :=
  mkSink "log" true (Some (fun _ _ => (decided proceed_decision, None))) false.
Definition failing_sink : Sink :=
  mkSink "policy" false (Some (fun _ _ => (decide_error (Errors.internal "down"), None))) true.
Definition toy_bus : Bus :=
  subscribe (subscribe (mkBus ∅ default_bus_options) quiet_sink [tool_before])
    failing_sink [tool_before].
Definition toy_payload (input : string) : Payload :=
  P_tool_before (mkToolBefore "FileWrite" input (Some "{hidden}"%string) (mkIdentity "" "" "") 0).

Lemma publish_blocking_spec_witness :
  exists n, (publish_blocking toy_bus tool_before (toy_payload "secret")).2 =
    map (fun s => (s, for_sink (toy_payload "secret") s))
      (take n (deciders (default [] (bindings toy_bus !! tool_before)))).
Proof.
  apply (publish_blocking_spec toy_bus tool_before (toy_payload "secret")
    (publish_blocking toy_bus tool_before (toy_payload "secret")).1).
  apply surjective_pairing.
Defined.

Lemma gate_fails_closed_witness : ~ proceeds tool_before (toy_payload "") 2000 failing_sink.
Proof.
  eapply (gate_fails_closed tool_before (toy_payload "") 2000 failing_sink);
    [reflexivity|reflexivity|left; discriminate].
Defined.

Lemma untrusted_sinks_see_redacted_witness :
  for_sink (toy_payload "secret") quiet_sink = redact_payload (toy_payload "other").
Proof.
  apply (untrusted_sinks_see_redacted toy_bus tool_before (toy_payload "secret")
    (toy_payload "other") quiet_sink); [reflexivity|reflexivity|].
  apply elem_of_app. left. vm_compute. apply list_elem_of_here.
Defined.
End Witnesses.
