(* ===== verification/AuditRows.v ===== *)
(** * oran-permission: audit rows, and the tool layer's metadata

    Models [include/oran/permission/audit.hpp], [src/oran-permission/audit.cpp],
    [src/oran-tool/audit_metadata.cpp] and [src/oran-tool/input_redaction.cpp].
    The JSON reader and writer and SHA-256 are not code of the repository. *)
From S2P Require Import Prelude Core TurnId Json Rules Approval Hooks.
Import EnumNames.
#[local] Open Scope Z_scope.

(** [permission::AuditOutcome]. *)
Inductive AuditOutcome :=
  | ao_allow | ao_deny | ao_ask | ao_approved | ao_rejected | ao_blocked_by_hook | ao_rewritten.
#[export] Instance AuditOutcome_eq_dec : EqDecision AuditOutcome.
Proof. solve_decision. Defined.
#[export] Instance Enum_AuditOutcome : Enum AuditOutcome := {
  enumerators := [(ao_allow, "allow"); (ao_deny, "deny"); (ao_ask, "ask");
                  (ao_approved, "approved"); (ao_rejected, "rejected");
                  (ao_blocked_by_hook, "blocked_by_hook"); (ao_rewritten, "rewritten")]%string }.
#[export] Instance EnumLaws_AuditOutcome : EnumLaws AuditOutcome.
Proof. solve_enum_laws. Qed.

Record AuditEvent := mkEvent {
  ev_event_kind : string; ev_scope_key : string; ev_agent_key : string; ev_tool_name : string;
  ev_identity : string; ev_verdict : Verdict; ev_outcome : AuditOutcome; ev_reason : string;
  ev_input_hash : option bytes; ev_parent_turn_id : option TurnId; ev_metadata_json : string }.
#[export] Instance AuditEvent_eq_dec : EqDecision AuditEvent.
Proof. solve_decision. Defined.

(** [verdict_to_outcome]: through the shared spelling. *)
Definition verdict_to_outcome (v : Verdict) : AuditOutcome :=
  default ao_deny (parse_enum (enum_name v)).

Definition make_audit_event_from_decision (d : Decision_) : AuditEvent :=
  mkEvent "permission_decision" "" "" "" "" (dec_verdict d) (verdict_to_outcome (dec_verdict d))
    (dec_reason d) None None "{}".

(** The sinks: [RecordingAuditSink] appends, [NullAuditSink] drops. *)
Definition recording_record (events : list AuditEvent) (event : AuditEvent)
    : Result unit * list AuditEvent := (Ok tt, events ++ [event]).
Definition null_record (event : AuditEvent) : Result unit := Ok tt.

(** ** Tool names *)
Definition kFileReadName : string := "FileRead".
Definition kFileWriteName : string := "FileWrite".
Definition kFileEditName : string := "FileEdit".
Definition kMemoryRememberName : string := "MemoryRemember".
Definition AGENT_RUN_NAME : string := "AgentRun".
Definition team_tool_names : list string :=
  ["TeamCreate"; "TeamTaskCreate"; "TeamTaskUpdate"; "TeamGet"; "TeamStop"; "TeamMessage";
   "TeamMemberAdd"]%string.
Definition is_team_tool (name : string) : bool := bool_decide (name ∈ team_tool_names).

Section Metadata.
Context (sha256 : bytes -> bytes) (parse : JsonReader) (dump : JsonWriter).

(** [hash_text], [hash_input], [input_hash_hex]. *)
Definition input_hash_hex (input : string) : string := str (to_hex (input_hash sha256 input)).

(** ** Audit metadata *)
Definition parse_metadata_object (metadata_json : string) : json :=
  match parse metadata_json with
  | Parsed (JObject m) => JObject m
  | _ => JObject []
  end.

Definition trace_row_to_json (d : HookDecisionTrace) : json :=
  let row := JObject [] in
  let row := jset row "sink_id" (JString (tr_sink_id d)) in
  let row := jset row "kind" (JString (enum_name (tr_kind d))) in
  let row := jset row "reason" (JString (tr_reason d)) in
  match tr_elapsed d with
  | Some ms => jset row "elapsed_ms" (JInt ms)
  | None => row
  end.
Definition hook_decision_trace_to_json (trace : list HookDecisionTrace) : json :=
  JArray (map trace_row_to_json trace).

Definition set_some (j : json) (key : string) (v : option string) : json :=
  match v with Some s => jset j key (JString s) | None => j end.

Definition with_hook_decision_metadata (metadata_json : string) (trace : list HookDecisionTrace)
    (original_input_hash rewritten_input_hash : option string) : string :=
  let metadata := parse_metadata_object metadata_json in
  let metadata := jset metadata "hook_decisions" (hook_decision_trace_to_json trace) in
  let metadata := set_some metadata "original_input_hash" original_input_hash in
  dump (set_some metadata "rewritten_input_hash" rewritten_input_hash).

Definition with_permission_ask_metadata (metadata_json : string) (trace : list HookDecisionTrace)
    : string :=
  dump (jset (parse_metadata_object metadata_json) "permission_ask_decisions"
          (hook_decision_trace_to_json trace)).

(** ** Redacted inputs *)
Definition base_redacted_input (tool_name input_json : string) : json :=
  let out := JObject [] in
  let out := jset out "kind" (JString "redacted_tool_input") in
  let out := jset out "tool_name" (JString tool_name) in
  let out := jset out "input_hash" (JString (input_hash_hex input_json)) in
  jset out "input_bytes" (JInt (Z.of_nat (String.length input_json))).

Definition add_string_byte_count (out input : json) (field_name output_name : string) : json :=
  match jfind input field_name with
  | Some (JString s) => jset out output_name (JInt (Z.of_nat (String.length s)))
  | _ => out
  end.

Definition fill_file_write_counts (out input : json) : json :=
  let out := jset out "redacted_fields" (JArray [JString "content"]) in
  add_string_byte_count out input "content" "content_bytes".

Definition fill_file_edit_counts (out input : json) : json :=
  let out := jset out "redacted_fields" (JArray [JString "old_string"; JString "new_string"]) in
  let out := add_string_byte_count out input "old_string" "old_string_bytes" in
  add_string_byte_count out input "new_string" "new_string_bytes".

Definition redaction_status (out : json) (status : string) : json :=
  jset out "redaction_status" (JString status).

(** The redacted view, before serialisation. *)
Definition redacted_input_object (tool_name input_json : string) : option json :=
  if negb (bool_decide (tool_name = kFileWriteName)) && negb (bool_decide (tool_name = kFileEditName)) &&
     negb (bool_decide (tool_name = kMemoryRememberName)) &&
     negb (bool_decide (tool_name = AGENT_RUN_NAME)) && negb (is_team_tool tool_name)
  then None
  else
    let out := base_redacted_input tool_name input_json in
    if bool_decide (tool_name = kMemoryRememberName) || bool_decide (tool_name = AGENT_RUN_NAME) ||
       is_team_tool tool_name
    then Some (redaction_status out "ok")
    else
      match parse input_json with
      | ParseFailed _ => Some (redaction_status out "input_json_parse_failed")
      | ParseThrew _ => Some (redaction_status out "input_json_unavailable")
      | Parsed input =>
          if negb (is_object input) then Some (redaction_status out "input_json_not_object")
          else
            Some (redaction_status
              (if bool_decide (tool_name = kFileWriteName)
               then fill_file_write_counts out input else fill_file_edit_counts out input) "ok")
      end.

Definition redacted_hook_input_json (tool_name input_json : string) : option string :=
  dump <$> redacted_input_object tool_name input_json.
End Metadata.

(** ** Theorems *)
Lemma verdict_to_outcome_spec v :
  verdict_to_outcome v = match v with v_allow => ao_allow | v_deny => ao_deny | v_ask => ao_ask end.
Proof. by destruct v. Qed.

(** What a redacted view may depend on besides the tool's name. *)
Definition footprint (sha256 : bytes -> bytes) (parse : JsonReader) (input : string) :=
  (input_hash sha256 input, String.length input,
   match parse input with
   | ParseFailed _ => inl 0
   | ParseThrew _ => inl 1
   | Parsed v =>
       let len f := match jfind v f with Some (JString s) => Some (String.length s) | _ => None end in
       if is_object v then inr (len "content", len "old_string", len "new_string")%string else inl 2
   end).

(** C39: redaction is a non-interference property: the view of a call's input shown to
    untrusted sinks is a function of the input's digest, its length and the lengths of
    the text fields only, so two inputs that agree on those give the same view. *)
Theorem redaction_noninterference sha256 parse dump tool a b :
  footprint sha256 parse a = footprint sha256 parse b ->
  redacted_hook_input_json sha256 parse dump tool a =
  redacted_hook_input_json sha256 parse dump tool b.
Proof.
  unfold footprint, redacted_hook_input_json. intros H. f_equal.
  unfold redacted_input_object.
  match goal with |- context [if ?c then None else _] => destruct c; [done|] end.
  injection H as Hh Hl Hp.
  assert (Hbase : base_redacted_input sha256 tool a = base_redacted_input sha256 tool b)
    by (unfold base_redacted_input, input_hash_hex; by rewrite Hh, Hl).
  rewrite Hbase.
  match goal with |- context [if ?c then Some _ else _] => destruct c; [done|] end.
  destruct (parse a) as [va| |], (parse b) as [vb| |]; try done;
    try (destruct (is_object va); done); try (destruct (is_object vb); done).
  destruct (is_object va), (is_object vb); try done. simpl.
  injection Hp as Hc Ho Hn. f_equal. f_equal.
  assert (Hadd : forall f o out,
    (match jfind va f with Some (JString s) => Some (String.length s) | _ => None end) =
    (match jfind vb f with Some (JString s) => Some (String.length s) | _ => None end) ->
    add_string_byte_count out va f o = add_string_byte_count out vb f o).
  { intros f o out Hf. unfold add_string_byte_count.
    destruct (jfind va f) as [[]|], (jfind vb f) as [[]|]; try done. by injection Hf as ->. }
  unfold fill_file_write_counts, fill_file_edit_counts.
  destruct (bool_decide _); [by apply Hadd|]. by rewrite (Hadd "old_string"%string), (Hadd "new_string"%string).
Qed.

(** Two write inputs with different secrets of the same length. *)
Definition toy_sha (b : bytes) : bytes := [].
Definition toy_parse (s : string) : ParseOutcome :=
  Parsed (JObject [("content", JString s)])%string.
Definition toy_dump (j : json) : string :=
  match jfind j "content_bytes" with Some (JInt z) => pretty z | _ => "-" end.

Lemma redaction_noninterference_witness :
  footprint toy_sha toy_parse "secret-a" = footprint toy_sha toy_parse "secret-b" /\
  redacted_hook_input_json toy_sha toy_parse toy_dump "FileWrite" "secret-a" =
  redacted_hook_input_json toy_sha toy_parse toy_dump "FileWrite" "secret-b".
Proof.
  split; [vm_compute; reflexivity|].
  apply redaction_noninterference. vm_compute. reflexivity.
Defined.
