(* ===== verification/Paths.v ===== *)
(** * Lexical paths

    The part of [std::filesystem::path] the program uses, on POSIX: a path is its
    pathname, decomposed into an optional root directory and its filenames (an
    empty last filename stands for a trailing separator).  Normalisation, joining
    and relative paths follow the standard's algorithms; nothing here touches a
    file system. *)
From S2P Require Import Prelude.
#[local] Open Scope string_scope.
#[local] Open Scope list_scope.

Definition slash : ascii := "/"%char.

(** ** Decomposition *)
Record path := mkPath { p_root : bool; p_names : list string }.

(** The maximal runs between separators, empty ones included. *)
Fixpoint split_slash (s : string) : list string :=
  match s with
  | EmptyString => [""]
  | String c s' =>
      match split_slash s' with
      | h :: t => if Ascii.eqb c slash then "" :: h :: t else String c h :: t
      | [] => []
      end
  end.

Definition is_absolute (s : string) : bool :=
  match s with String c _ => Ascii.eqb c slash | EmptyString => false end.

Definition nonempty (s : string) : bool := match s with EmptyString => false | _ => true end.

Fixpoint ends_with_slash (s : string) : bool :=
  match s with
  | EmptyString => false
  | String c EmptyString => Ascii.eqb c slash
  | String _ s' => ends_with_slash s'
  end.

Definition path_of (s : string) : path :=
  let names := List.filter nonempty (split_slash s) in
  mkPath (is_absolute s)
    (names ++ (if ends_with_slash s && negb (bool_decide (names = [])) then [""] else [])).

Definition path_str (p : path) : string :=
  (if p_root p then "/" else "") +:+ String.concat "/" (p_names p).

(** The elements an iterator visits. *)
Definition elements (p : path) : list string :=
  (if p_root p then ["/"] else []) ++ p_names p.

(** ** Operations *)
(** [operator/]. *)
Definition join (a b : string) : string :=
  if is_absolute b then b
  else if nonempty a && negb (ends_with_slash a) then a +:+ "/" +:+ b
  else a +:+ b.

(** One filename of [lexically_normal]; the kept filenames are in reverse. *)
Definition norm_step (rooted : bool) (kept : list string) (name : string) : list string :=
  if bool_decide (name = "") || bool_decide (name = ".") then kept
  else if bool_decide (name = "..") then
    match kept with
    | [] => if rooted then [] else [".."]
    | k :: kept' => if bool_decide (k = "..") then ".." :: kept else kept'
    end
  else name :: kept.

Definition norm_names (rooted : bool) (names : list string) : list string :=
  rev (fold_left (norm_step rooted) names []).

(** A separator survives at the end when the last filename was dropped. *)
Definition dropped (name : string) : bool :=
  bool_decide (name = "") || bool_decide (name = ".") || bool_decide (name = "..").

Definition normal (p : path) : path :=
  match p_root p, p_names p with
  | false, [] => p
  | rooted, names =>
      let kept := norm_names rooted names in
      let trailing := negb (bool_decide (List.last kept "" = "..")) &&
                      dropped (List.last names "x") in
      mkPath rooted
        (match kept with
         | [] => if rooted then [] else ["."]
         | _ => kept ++ (if trailing then [""] else [])
         end)
  end.

Definition lexically_normal (s : string) : string := path_str (normal (path_of s)).

Fixpoint mismatch (a b : list string) : list string * list string :=
  match a, b with
  | x :: a', y :: b' => if decide (x = y) then mismatch a' b' else (a, b)
  | _, _ => (a, b)
  end.

(** [n]: the filenames of the base left to climb, minus its dot-dots. *)
Definition climb (rest : list string) : Z :=
  fold_left (fun n e =>
    if bool_decide (e = "..") then (n - 1)%Z
    else if bool_decide (e = "") || bool_decide (e = ".") then n else (n + 1)%Z) rest 0%Z.

(** [a.lexically_relative(base)]. *)
Definition lexically_relative (a base : string) : string :=
  let pa := path_of a in let pb := path_of base in
  if negb (Bool.eqb (p_root pa) (p_root pb)) then ""
  else
    let '(ra, rb) := mismatch (elements pa) (elements pb) in
    match ra, rb with
    | [], [] => "."
    | _, _ =>
        let n := climb rb in
        if (n <? 0)%Z then ""
        else if (n =? 0)%Z && bool_decide (ra = [] \/ List.hd "" ra = "") then "."
        else fold_left join ra (fold_left join (repeat ".." (Z.to_nat n)) "")
    end.

Definition parent_path (s : string) : string :=
  let p := path_of s in
  match p_names p with
  | [] => s
  | names => path_str (mkPath (p_root p) (removelast names))
  end.

Definition filename (s : string) : string := List.last (p_names (path_of s)) "".

(** ** Well-formed decompositions *)
Fixpoint slash_free (s : string) : bool :=
  match s with
  | EmptyString => true
  | String c s' => negb (Ascii.eqb c slash) && slash_free s'
  end.

(** Filenames without separators, at most the last of several empty. *)
Definition names_wf (names : list string) : Prop :=
  exists init last_, names = init ++ last_ /\
    Forall (fun n => slash_free n = true /\ n <> "") init /\
    (last_ = [] \/ (last_ = [""] /\ init <> [])).

Lemma split_nonempty s : split_slash s <> [].
Proof. induction s as [|c s IH]; simpl; [done|]. destruct (split_slash s); [done|]. by destruct (Ascii.eqb c slash). Qed.

Lemma split_slash_free s : Forall (fun n => slash_free n = true) (split_slash s).
Proof.
  induction s as [|c s IH]; simpl; [by repeat constructor|].
  destruct (split_slash s) as [|h t]; [constructor|].
  inversion IH; subst. destruct (Ascii.eqb c slash) eqn:E.
  - by repeat constructor.
  - constructor; [|done]. simpl. rewrite E. done.
Qed.

Lemma path_of_wf s : names_wf (p_names (path_of s)).
Proof.
  simpl. eexists _, _. split; [done|]. split.
  - apply Forall_forall. intros x Hx%list_elem_of_In%filter_In. destruct Hx as [Hx He].
    split.
    + pose proof (split_slash_free s) as Hs. rewrite Forall_forall in Hs.
      apply Hs. by apply list_elem_of_In.
    + by intros ->.
  - destruct (ends_with_slash s); [|by left]. simpl. case_bool_decide; [by left|]. by right.
Qed.

Lemma split_cons_free n s :
  slash_free n = true -> split_slash (n +:+ String slash s) = n :: split_slash s.
Proof.
  induction n as [|c n IH]; simpl; intros H.
  - pose proof (split_nonempty s). by destruct (split_slash s).
  - apply andb_true_iff in H as [Hc H]. rewrite IH by done.
    apply negb_true_iff in Hc. by rewrite Hc.
Qed.

Lemma split_free n : slash_free n = true -> split_slash n = [n].
Proof.
  induction n as [|c n IH]; simpl; intros H; [done|].
  apply andb_true_iff in H as [Hc H]. rewrite IH by done.
  apply negb_true_iff in Hc. by rewrite Hc.
Qed.

Lemma split_concat names :
  names <> [] -> Forall (fun n => slash_free n = true) names ->
  split_slash (String.concat "/" names) = names.
Proof.
  induction names as [|n names IH]; [done|]. intros _ H. inversion H; subst.
  destruct names as [|n' names]; [by apply split_free|].
  change (String.concat "/" (n :: n' :: names)) with
    (n +:+ String slash (String.concat "/" (n' :: names))).
  rewrite split_cons_free by done. f_equal. by apply IH.
Qed.

Lemma ends_app a c b : ends_with_slash (a +:+ String c b) = ends_with_slash (String c b).
Proof. induction a as [|x a IH]; [done|]. destruct a; [done|exact IH]. Qed.

Lemma ends_free n : slash_free n = true -> ends_with_slash n = false.
Proof.
  induction n as [|c n IH]; [done|]. intros [Hc H]%andb_true_iff.
  apply negb_true_iff in Hc. specialize (IH H). by destruct n.
Qed.

Lemma ends_concat names n :
  Forall (fun n => slash_free n = true) (names ++ [n]) -> names <> [] ->
  ends_with_slash (String.concat "/" (names ++ [n])) = bool_decide (n = "").
Proof.
  induction names as [|m names IH]; [done|]. intros H _. inversion H as [|? ? Hm H']; subst.
  destruct names as [|m' names].
  - change (String.concat "/" ([m] ++ [n])) with (m +:+ String slash n). rewrite ends_app.
    inversion H' as [|? ? Hn]; subst. destruct n as [|c n]; [done|].
    rewrite bool_decide_eq_false_2 by done. change (ends_with_slash (String c n) = false).
    by apply ends_free.
  - change (String.concat "/" ((m :: m' :: names) ++ [n])) with
      (m +:+ String slash (String.concat "/" ((m' :: names) ++ [n]))).
    rewrite ends_app. specialize (IH H' ltac:(done)). rewrite <- IH.
    destruct (String.concat "/" ((m' :: names) ++ [n])) eqn:E; [|done]. exfalso.
    destruct m' as [|? ?]; simpl in E; destruct names; discriminate.
Qed.

Lemma concat_not_absolute names :
  names_wf names -> is_absolute (String.concat "/" names) = false.
Proof.
  intros (init & last_ & -> & Hi & Hl). destruct init as [|n init].
  - destruct Hl as [->|[_ ?]]; done.
  - inversion Hi as [|? ? [Hn Hne]]; subst. destruct n as [|c n]; [done|]. simpl in Hn.
    apply andb_true_iff in Hn as [Hn _]. apply negb_true_iff in Hn.
    destruct (init ++ last_) eqn:E; simpl; rewrite E; simpl; done.
Qed.

(** Printing a well-formed decomposition and decomposing again gives it back. *)
Lemma names_wf_free names : names_wf names -> Forall (fun n => slash_free n = true) names.
Proof.
  intros (init & last_ & -> & Hi & Hl). apply Forall_app. split.
  - eapply Forall_impl; [exact Hi|]. by intros ? [].
  - destruct Hl as [->|[-> _]]; by repeat constructor.
Qed.

Lemma filter_nonempty init :
  Forall (fun n => slash_free n = true /\ n <> "") init -> List.filter nonempty init = init.
Proof.
  induction 1 as [|n init [_ Hn] _ IH]; [done|]. simpl. rewrite IH. by destruct n.
Qed.

Lemma concat_ends names n :
  names_wf (names ++ [n]) -> ends_with_slash (String.concat "/" (names ++ [n])) = bool_decide (n = "").
Proof.
  intros Hwf. pose proof (names_wf_free _ Hwf) as Hf. destruct names as [|m names].
  - inversion Hf; subst. simpl. destruct n as [|c n].
    + exfalso. destruct Hwf as (init & last_ & E & Hi & Hl).
      destruct Hl as [->|[-> Hne]].
      * rewrite app_nil_r in E. subst. inversion Hi as [|? ? [_ ?]]. done.
      * destruct init as [|x [|y init]]; by simplify_eq/=.
    + rewrite bool_decide_eq_false_2 by done. by apply ends_free.
  - by apply ends_concat.
Qed.

Lemma concat_nonempty names : names_wf names -> names <> [] -> String.concat "/" names <> "".
Proof.
  intros (init & last_ & -> & Hi & Hl) Hne E. destruct init as [|n init].
  - destruct Hl as [->|[_ ?]]; done.
  - inversion Hi as [|? ? [_ Hn]]; subst. destruct n as [|c n]; [done|].
    simpl in E. destruct (init ++ last_); done.
Qed.

Lemma path_of_concat (rooted : bool) names :
  names_wf names ->
  path_of ((if rooted then "/" else "") +:+ String.concat "/" names) = mkPath rooted names.
Proof.
  intros Hwf. unfold path_of.
  assert (Hsplit : List.filter nonempty (split_slash ((if rooted then "/" else "") +:+ String.concat "/" names)) =
            List.filter nonempty names).
  { replace (split_slash ((if rooted then "/" else "") +:+ String.concat "/" names))
      with ((if rooted then [""] else []) ++ split_slash (String.concat "/" names)).
    - destruct names as [|n names]; [by destruct rooted|].
      rewrite split_concat by (done || by apply names_wf_free). by destruct rooted.
    - destruct rooted; [|done]. symmetry. apply (split_cons_free "" (String.concat "/" names)). done. }
  rewrite Hsplit.
  assert (Habs : is_absolute ((if rooted then "/" else "") +:+ String.concat "/" names) = rooted)
    by (destruct rooted; [done|by apply concat_not_absolute]).
  rewrite Habs. f_equal.
  destruct (decide (names = [])) as [->|Hne]; [by rewrite andb_false_r|].
  assert (Hends : ends_with_slash ((if rooted then "/" else "") +:+ String.concat "/" names) =
            ends_with_slash (String.concat "/" names)).
  { destruct rooted; [|done]. pose proof (concat_nonempty names Hwf Hne).
    destruct (String.concat "/" names); [done|]. by rewrite ends_app. }
  rewrite Hends. destruct Hwf as (init & last_ & -> & Hi & Hl).
  rewrite List.filter_app, (filter_nonempty init Hi).
  destruct Hl as [->|[-> Hl]].
  - destruct (exists_last (l := init)) as (i & n & ->); [by destruct init|].
    cbn [List.filter]. rewrite !app_nil_r. rewrite concat_ends.
    + apply Forall_app in Hi as [_ Hi]. inversion Hi as [|? ? [_ Hn]]; subst.
      by rewrite bool_decide_eq_false_2, app_nil_r.
    + exists (i ++ [n]), []. rewrite app_nil_r. by split_and!; [| |left].
  - rewrite concat_ends by (exists init, [""]; by split_and!; [| |right]). simpl.
    rewrite app_nil_r. by rewrite bool_decide_eq_false_2.
Qed.

Lemma path_of_str p : names_wf (p_names p) -> path_of (path_str p) = p.
Proof. destruct p as [r names]. apply path_of_concat. Qed.

(** ** Normal forms *)
Definition proper (n : string) : Prop :=
  slash_free n = true /\ n <> "" /\ n <> "." /\ n <> "..".

Definition proper_names (names : list string) : Prop :=
  exists init last_, names = init ++ last_ /\ Forall proper init /\
    (last_ = [] \/ (last_ = [""] /\ init <> [])).

Lemma proper_wf names : proper_names names -> names_wf names.
Proof.
  intros (init & last_ & -> & Hi & Hl). exists init, last_. split_and!; [done| |done].
  eapply Forall_impl; [exact Hi|]. unfold proper. naive_solver.
Qed.

Lemma norm_step_proper kept n :
  slash_free n = true -> Forall proper kept -> Forall proper (norm_step true kept n).
Proof.
  intros Hn Hk. unfold norm_step.
  destruct (bool_decide (n = "") || bool_decide (n = ".")) eqn:E; [done|]. bool_prop.
  case_bool_decide.
  - destruct kept as [|k kept]; [done|]. inversion Hk as [|? ? (? & ? & ? & ?)]; subst.
    by rewrite bool_decide_eq_false_2.
  - constructor; [by split_and!|done].
Qed.

Lemma norm_names_proper names :
  Forall (fun n => slash_free n = true) names -> Forall proper (norm_names true names).
Proof.
  intros H. apply Forall_rev.
  enough (Hk : forall kept, Forall proper kept -> Forall proper (fold_left (norm_step true) names kept))
    by (apply Hk; constructor).
  induction H as [|n names Hn _ IH]; intros kept Hk; simpl; [done|].
  by apply IH, norm_step_proper.
Qed.

(** An absolute path in normal form has no dot and no dot-dot filenames. *)
Lemma normal_absolute p :
  p_root p = true -> names_wf (p_names p) ->
  p_root (normal p) = true /\ proper_names (p_names (normal p)).
Proof.
  intros Hr Hwf. unfold normal. rewrite Hr. cbn [p_root p_names]. split; [done|].
  pose proof (norm_names_proper _ (names_wf_free _ Hwf)) as Hp.
  destruct (norm_names true (p_names p)) as [|n kept] eqn:E.
  - exists [], []. by split_and!; [| |left].
  - eexists (n :: kept), _. split; [done|]. split; [done|].
    destruct (negb _ && _); [by right|by left].
Qed.

Lemma normal_relative p : p_root p = false -> p_root (normal p) = false.
Proof. intros Hr. unfold normal. rewrite Hr. by destruct (p_names p). Qed.

(** The decomposition of a normalised absolute pathname. *)
Lemma lexically_normal_absolute s :
  is_absolute s = true ->
  exists names, path_of (lexically_normal s) = mkPath true names /\ proper_names names /\
    lexically_normal s = path_str (mkPath true names).
Proof.
  intros Hs. unfold lexically_normal.
  destruct (normal_absolute (path_of s) Hs (path_of_wf s)) as [Hr Hp].
  exists (p_names (normal (path_of s))).
  rewrite path_of_str by by apply proper_wf.
  destruct (normal (path_of s)) as [r names]. simpl in *. by subst.
Qed.

(** Normal forms are stable. *)
Lemma norm_fold_proper (rooted : bool) names kept :
  Forall proper names -> fold_left (norm_step rooted) names kept = rev names ++ kept.
Proof.
  intros H. revert kept. induction H as [|n names (_ & H1 & H2 & H3) _ IH]; intros kept; [done|].
  simpl. rewrite IH. unfold norm_step.
  rewrite !bool_decide_eq_false_2 by done. simpl. by rewrite <- app_assoc.
Qed.

Lemma last_app_one {A} (l : list A) x d : List.last (l ++ [x]) d = x.
Proof. apply List.last_last. Qed.

Lemma normal_proper names :
  proper_names names -> normal (mkPath true names) = mkPath true names.
Proof.
  intros (init & last_ & -> & Hi & Hl). unfold normal. cbn [p_root p_names]. f_equal.
  assert (Hk : norm_names true (init ++ last_) = init).
  { unfold norm_names. rewrite fold_left_app, (norm_fold_proper true init) by done. rewrite app_nil_r.
    destruct Hl as [->|[-> _]]; exact (rev_involutive init). }
  rewrite Hk. destruct init as [|n init]; [by destruct Hl as [->|[_ ?]]|].
  f_equal. destruct (exists_last (l := n :: init)) as (i & x & E); [done|].
  rewrite E in Hi |- *. apply Forall_app in Hi as [_ Hi].
  inversion Hi as [|? ? (_ & H1 & H2 & H3)]; subst. rewrite last_app_one.
  destruct Hl as [->|[-> _]].
  - rewrite app_nil_r, last_app_one. unfold dropped.
    rewrite !bool_decide_eq_false_2 by done. done.
  - rewrite last_app_one. by rewrite bool_decide_eq_false_2.
Qed.

Lemma lexically_normal_idem s :
  is_absolute s = true -> lexically_normal (lexically_normal s) = lexically_normal s.
Proof.
  intros Hs. destruct (lexically_normal_absolute s Hs) as (names & Hp & Hn & He).
  unfold lexically_normal at 1. rewrite Hp, normal_proper by done. done.
Qed.

(** ** Relative paths below a root *)
Lemma mismatch_prefix a b : mismatch (a ++ b) a = (b, []).
Proof. induction a as [|x a IH]; simpl; [by destruct b|]. by rewrite decide_True. Qed.

Lemma concat_snoc names n :
  names <> [] ->
  String.concat "/" (names ++ [n]) = String.concat "/" names +:+ "/" +:+ n.
Proof.
  induction names as [|m names IH]; [done|]. intros _. destruct names as [|m' names]; [done|].
  change (String.concat "/" ((m :: m' :: names) ++ [n])) with
    (m +:+ "/" +:+ String.concat "/" ((m' :: names) ++ [n])).
  rewrite IH by done.
  change (String.concat "/" (m :: m' :: names)) with (m +:+ "/" +:+ String.concat "/" (m' :: names)).
  by rewrite !append_assoc.
Qed.

Lemma proper_init_nonempty init : Forall proper init -> Forall (fun n => slash_free n = true /\ n <> "") init.
Proof. intros H. eapply Forall_impl; [exact H|]. unfold proper. naive_solver. Qed.

Lemma join_snoc names n :
  Forall proper names -> names <> [] -> is_absolute n = false ->
  join (String.concat "/" names) n = String.concat "/" (names ++ [n]).
Proof.
  intros Hp Hne Hn. unfold join. rewrite Hn.
  assert (Hwf : names_wf names).
  { exists names, []. rewrite app_nil_r. split_and!; [done|by apply proper_init_nonempty|by left]. }
  destruct (exists_last (l := names)) as (i & x & ->); [done|].
  pose proof (concat_nonempty _ Hwf Hne) as Hc. rewrite concat_ends by done.
  apply Forall_app in Hp as [_ Hp]. inversion Hp as [|? ? (_ & Hx & _)]; subst.
  rewrite bool_decide_eq_false_2 by done.
  replace (nonempty (String.concat "/" (i ++ [x]))) with true
    by (by destruct (String.concat "/" (i ++ [x]))).
  simpl. by rewrite (concat_snoc (i ++ [x]) n).
Qed.

Lemma free_relative n : slash_free n = true -> is_absolute n = false.
Proof. destruct n as [|c n]; [done|]. simpl. intros [H _]%andb_true_iff. by apply negb_true_iff in H. Qed.

Lemma fold_join_proper names :
  Forall proper names -> fold_left join names "" = String.concat "/" names.
Proof.
  induction names as [|n names IH] using rev_ind; [done|].
  intros [Hp Hn]%Forall_app. rewrite fold_left_app, IH by done. simpl.
  inversion Hn as [|? ? [Hf _]]; subst. pose proof (free_relative n Hf) as Ha.
  destruct names as [|m names]; [unfold join; by rewrite Ha|].
  by apply join_snoc.
Qed.

Lemma fold_join_relative names :
  proper_names names -> fold_left join names "" = String.concat "/" names.
Proof.
  intros (init & last_ & -> & Hi & Hl).
  rewrite fold_left_app, fold_join_proper by done.
  destruct Hl as [->|[-> Hne]]; [by rewrite app_nil_r|]. by apply join_snoc.
Qed.

(** The filenames of a path below a root, relative to it. *)
Lemma proper_suffix a b : proper_names (a ++ b) -> b = [] \/ b = [""] \/ (proper_names b /\ List.hd "" b <> "").
Proof.
  intros (init & last_ & E & Hi & Hl). destruct b as [|x b]; [by left|right].
  apply app_eq_app in E as [l [[-> Hb]|[-> Hb]]].
  - destruct Hl as [->|[-> _]]; [by destruct l|].
    destruct l as [|y l]; [by left; simplify_eq/=|].
    simplify_eq/=. by destruct l.
  - apply Forall_app in Hi as [_ Hi]. destruct l as [|y l].
    + simpl in Hb. destruct Hl as [->|[-> _]]; [done|]. left. by simplify_eq/=.
    + right. simplify_eq/=. inversion Hi as [|? ? (_ & Hx & _)]; subst. split; [|done].
      exists (y :: l), last_. split_and!; [done|done|]. destruct Hl as [->|[-> _]]; [by left|by right].
Qed.

Definition relative_str (rel : list string) : string :=
  if bool_decide (rel = [] \/ rel = [""]) then "." else path_str (mkPath false rel).

Lemma lexically_relative_below a b root rel :
  path_of a = mkPath true (root ++ rel) -> path_of b = mkPath true root ->
  proper_names (root ++ rel) ->
  lexically_relative a b = relative_str rel.
Proof.
  intros Ha Hb Hp. unfold lexically_relative. rewrite Ha, Hb. cbn [p_root Bool.eqb negb].
  unfold elements. cbn [p_root p_names].
  change (["/"] ++ root ++ rel) with ((["/"] ++ root) ++ rel). rewrite mismatch_prefix.
  unfold relative_str. destruct (proper_suffix _ _ Hp) as [->|[->|[Hr Hh]]]; [done|done|].
  destruct rel as [|x rel]; [done|]. simpl in Hh.
  rewrite !bool_decide_eq_false_2; [|intros [|]; simplify_eq/=|intros [|]; simplify_eq/=].
  cbn [climb fold_left Z.ltb Z.eqb Z.compare andb Z.to_nat repeat].
  change (fold_left join (x :: rel) "" = path_str (mkPath false (x :: rel))).
  by rewrite fold_join_relative.
Qed.

(** A relative spelling stays inside the directory it is opened in: it is not
    absolute and has no dot-dot filename. *)
Definition inside (s : string) : Prop :=
  is_absolute s = false /\ ".." ∉ p_names (path_of s).

Lemma relative_str_inside a rel : proper_names (a ++ rel) -> inside (relative_str rel).
Proof.
  intros Hp. unfold relative_str. destruct (proper_suffix _ _ Hp) as [->|[->|[Hr Hh]]].
  - split; [done|]. vm_compute. intros H. by repeat (inversion H; subst; clear H; rename H2 into H).
  - split; [done|]. vm_compute. intros H. by repeat (inversion H; subst; clear H; rename H2 into H).
  - rewrite bool_decide_eq_false_2 by (intros [->| ->]; done).
    pose proof (proper_wf _ Hr) as Hwf. split.
    + apply concat_not_absolute. done.
    + rewrite path_of_str by done. simpl. destruct Hr as (init & last_ & -> & Hi & Hl).
      intros [Hin|Hin]%elem_of_app.
      * rewrite Forall_forall in Hi. by apply Hi in Hin as (_ & _ & _ & ?).
      * destruct Hl as [->|[-> _]]; [by apply not_elem_of_nil in Hin|].
        by apply list_elem_of_singleton in Hin.
Qed.

(** Normalising keeps filenames well-formed and never makes a path absolute. *)
Lemma norm_names_wf rooted names :
  Forall (fun n => slash_free n = true) names ->
  Forall (fun n => slash_free n = true /\ n <> "") (norm_names rooted names).
Proof.
  intros H. apply Forall_rev.
  enough (Hk : forall kept, Forall (fun n => slash_free n = true /\ n <> "") kept ->
    Forall (fun n => slash_free n = true /\ n <> "") (fold_left (norm_step rooted) names kept))
    by (apply Hk; constructor).
  induction H as [|n names Hn _ IH]; intros kept Hk; simpl; [done|]. apply IH.
  unfold norm_step. destruct (bool_decide (n = "") || _) eqn:E; [done|]. bool_prop.
  case_bool_decide; [|by constructor].
  destruct kept as [|k kept]; [destruct rooted; repeat constructor; done|].
  case_bool_decide; [by constructor|]. by inversion Hk.
Qed.

Lemma normal_wf p : names_wf (p_names p) -> names_wf (p_names (normal p)).
Proof.
  intros Hwf. unfold normal. destruct p as [rooted names]. cbn [p_root p_names] in *.
  assert (Hgen : names_wf match norm_names rooted names with
      | [] => if rooted then [] else ["."]
      | _ => norm_names rooted names ++
          (if negb (bool_decide (List.last (norm_names rooted names) "" = "..")) &&
              dropped (List.last names "x") then [""] else [])
      end).
  { pose proof (norm_names_wf rooted _ (names_wf_free _ Hwf)) as Hp.
    destruct (norm_names rooted names) as [|n kept] eqn:E.
    - exists (if rooted then [] else ["."]), []. rewrite app_nil_r.
      split_and!; [done|destruct rooted; repeat constructor; done|by left].
    - eexists (n :: kept), _. split_and!; [done|done|].
      destruct (negb _ && _); [by right|by left]. }
  destruct rooted; [exact Hgen|]. by destruct names.
Qed.

Lemma lexically_normal_relative s :
  is_absolute s = false -> is_absolute (lexically_normal s) = false.
Proof.
  intros Hs. unfold lexically_normal, path_str.
  rewrite normal_relative by done. apply concat_not_absolute, normal_wf, path_of_wf.
Qed.
