(* ===== verification/FileText.v ===== *)
(** * oran-io: reading text files

    Models [include/oran/io/range.hpp], [include/oran/io/fingerprint.hpp] and the
    reading half of [src/oran-io/file.cpp].  Sizes and offsets are [Z]; a file is
    read through [pread], which is given: [pread offset n] is what the system call
    answers once no signal interrupts it.  The loops that read take [fuel], one unit
    per call of [pread]; a call gives at least one byte until the end of the file, so
    one more than the file has bytes is enough, as the theorems show. *)
From S2P Require Import Prelude Core Utf8.
#[local] Open Scope Z_scope.

(** ** Data *)
Record FileFingerprint := mkFingerprint { size_bytes : Z; mtime_ns : Z }.
#[global] Instance fingerprint_eq_dec : EqDecision FileFingerprint. Proof. solve_decision. Defined.

Record LineSpan := mkLines { start_line : Z; line_count : Z }.
Record ByteSpan := mkBytes { offset_bytes : Z; length_bytes : Z }.
Record FileRange := mkRange { r_lines : option LineSpan; r_bytes : option ByteSpan }.
Record ReadTextOptions := mkReadOptions { max_bytes : Z; range : option FileRange }.
Record ReadTextResult := mkResult {
  text : bytes; fingerprint : FileFingerprint; res_start_line : Z; res_end_line : Z;
  returned_bytes : Z; truncated : bool }.
Definition no_fingerprint : FileFingerprint := mkFingerprint 0 0.

Definition size (t : bytes) : Z := Z.of_nat (length t).
Definition newline : ascii := ascii_of_nat 10.
Definition is_newline (c : ascii) : bool := code c =? 10.

(** ** Code points *)
(** [align_to_utf8_boundaries]: the leading continuation bytes, and the end of the last
    whole sequence after them. *)
Fixpoint skip_continuations (buffer : bytes) : nat :=
  match buffer with
  | c :: rest => if Z.land (code c) 192 =? 128 then S (skip_continuations rest) else 0%nat
  | [] => 0%nat
  end.

Definition sequence_length (byte : Z) : option nat :=
  if byte <? 0x80 then Some 1%nat
  else if byte <? 0xC2 then None
  else if byte <? 0xE0 then Some 2%nat
  else if byte <? 0xF0 then Some 3%nat
  else if byte <? 0xF5 then Some 4%nat
  else None.

(** The bytes of the whole sequences at the front of [rest]. *)
Fixpoint whole_sequences (fuel : nat) (rest : bytes) : nat :=
  match fuel, rest with
  | S fuel, c :: _ =>
      match sequence_length (code c) with
      | Some n => if (length rest <? n)%nat then 0%nat else (n + whole_sequences fuel (drop n rest))%nat
      | None => 0%nat
      end
  | _, _ => 0%nat
  end.

Definition align (buffer : bytes) : bytes :=
  let rest := drop (skip_continuations buffer) buffer in take (whole_sequences (length rest) rest) rest.

(** [if (result.truncated && !result.text.empty())]: [align] of no text is no text. *)
Definition align_if (b : bool) (t : bytes) : bytes := if b then align t else t.

(** ** Ranges *)
Definition validate_range (r : FileRange) : Result unit :=
  match r_lines r, r_bytes r with
  | Some _, Some _ | None, None =>
      Err (Errors.invalid_argument "FileRange must specify exactly one of lines or bytes")
  | Some l, None =>
      if (start_line l =? 0) || (line_count l =? 0)
      then Err (Errors.invalid_argument "line range fields must be non-zero") else Ok tt
  | None, Some b =>
      if (offset_bytes b =? 0) || (length_bytes b =? 0)
      then Err (Errors.invalid_argument "byte range fields must be non-zero") else Ok tt
  end.

Definition count_newlines (t : bytes) : Z := Z.of_nat (length (List.filter is_newline t)).
Definition ends_with_newline (t : bytes) : bool := match last t with Some c => is_newline c | None => false end.
Definition count_line_span (t : bytes) : Z :=
  match t with [] => 0 | _ => count_newlines t + (if ends_with_newline t then 0 else 1) end.

Definition chunk_size : Z := 8192.
Definition off_max : Z := 2 ^ 63 - 1.

Section Read.
Context (path : string) (pread : Z -> Z -> Result bytes).

Definition read_chunk (offset n : Z) : Result bytes :=
  fail? off_max <? offset with
    Errors.with_ctx (Errors.invalid_argument "file read offset is too large") "path" path;
  pread offset n.

(** [read_bytes] from [text] on; [None] only when the fuel is too small. *)
Fixpoint read_bytes_loop (fuel : nat) (offset length : Z) (text : bytes) : option (Result bytes) :=
  match fuel with
  | O => None
  | S fuel =>
      if size text <? length then
        match read_chunk (offset + size text) (Z.min chunk_size (length - size text)) with
        | Err e => Some (Err e)
        | Ok [] => Some (Ok text)
        | Ok chunk => read_bytes_loop fuel offset length (text ++ chunk)
        end
      else Some (Ok text)
  end.

Definition read_bytes (fuel : nat) (offset length : Z) : option (Result bytes) :=
  read_bytes_loop fuel offset length [].

Definition map_read {A B} (f : A -> B) (r : option (Result A)) : option (Result B) :=
  match r with Some (Ok x) => Some (Ok (f x)) | Some (Err e) => Some (Err e) | None => None end.

Definition read_whole (fuel : nat) (file_size max_bytes : Z) : option (Result ReadTextResult) :=
  map_read (fun t =>
      let cut := max_bytes <? file_size in
      let t := align_if cut t in
      mkResult t no_fingerprint 1 (count_line_span t) (size t) cut)
    (read_bytes fuel 0 (Z.min file_size max_bytes)).

Definition read_bytes_range (fuel : nat) (b : ByteSpan) (max_bytes : Z) : option (Result ReadTextResult) :=
  map_read (fun t =>
      let cut := (max_bytes <? length_bytes b) && (max_bytes <=? size t) in
      let t := align t in mkResult t no_fingerprint 1 0 (size t) cut)
    (read_bytes fuel (offset_bytes b) (Z.min (length_bytes b) max_bytes)).

(** [read_lines]: its local variables. *)
Record Scan := mkScan { s_text : bytes; s_end : Z; s_cut : bool; s_line : Z; s_emitted : Z }.

Definition scan_start (l : LineSpan) : Scan := mkScan [] (start_line l - 1) false 1 0.

(** The loop over a chunk; [break] leaves the scan as it is. *)
Fixpoint scan_chunk (l : LineSpan) (max_bytes : Z) (chunk : bytes) (s : Scan) : Scan :=
  match chunk with
  | [] => s
  | ch :: rest =>
      let in_range := (start_line l <=? s_line s) && (s_emitted s <? line_count l) in
      if in_range && (max_bytes <=? size (s_text s)) then
        mkScan (s_text s) (s_end s) true (s_line s) (s_emitted s)
      else
        let t := if in_range then s_text s ++ [ch] else s_text s in
        scan_chunk l max_bytes rest
          (if is_newline ch then
             let emitted := if in_range then s_emitted s + 1 else s_emitted s in
             mkScan t (if in_range then start_line l + emitted - 1 else s_end s) (s_cut s) (s_line s + 1) emitted
           else mkScan t (s_end s) (s_cut s) (s_line s) (s_emitted s))
  end.

Fixpoint scan_loop (fuel : nat) (l : LineSpan) (max_bytes offset : Z) (s : Scan) : option (Result Scan) :=
  match fuel with
  | O => None
  | S fuel =>
      if s_emitted s <? line_count l then
        match read_chunk offset chunk_size with
        | Err e => Some (Err e)
        | Ok [] => Some (Ok s)
        | Ok chunk =>
            let s := scan_chunk l max_bytes chunk s in
            if s_cut s then Some (Ok s) else scan_loop fuel l max_bytes (offset + size chunk) s
        end
      else Some (Ok s)
  end.

Definition scan_result (l : LineSpan) (s : Scan) : ReadTextResult :=
  let partial := negb (bool_decide (s_text s = [])) && negb (ends_with_newline (s_text s)) &&
                 (s_emitted s <? line_count l) in
  let end_line := if partial then start_line l + (s_emitted s + 1) - 1 else s_end s in
  let t := align_if (s_cut s) (s_text s) in
  mkResult t no_fingerprint (start_line l) end_line (size t) (s_cut s).

Definition read_lines (fuel : nat) (l : LineSpan) (max_bytes : Z) : option (Result ReadTextResult) :=
  map_read (scan_result l) (scan_loop fuel l max_bytes 0 (scan_start l)).

Definition dispatch_read (fuel : nat) (o : ReadTextOptions) (fp : FileFingerprint) : option (Result ReadTextResult) :=
  match range o with
  | None => read_whole fuel (size_bytes fp) (max_bytes o)
  | Some (mkRange (Some l) _) => read_lines fuel l (max_bytes o)
  | Some (mkRange None (Some b)) => read_bytes_range fuel b (max_bytes o)
  | Some (mkRange None None) => None
  end.
End Read.

(** [read_file]: the fingerprints before and after a read, and again after the second
    read, which finds the file as [pread'] gives it. *)
Definition retry_threshold : Z := 64 * 1024.
Definition changed (path : string) (pre post : FileFingerprint) : Error :=
  Errors.with_ctx (Errors.with_ctx (Errors.with_ctx (Errors.mk ek_conflict "file changed during read") "path" path)
    "size_before" (pretty (size_bytes pre))) "size_after" (pretty (size_bytes post)).
Definition changed_again (path : string) : Error :=
  Errors.with_ctx (Errors.mk ek_conflict "file changed during read (after retry)") "path" path.
Definition set_fingerprint (r : ReadTextResult) (fp : FileFingerprint) : ReadTextResult :=
  mkResult (text r) fp (res_start_line r) (res_end_line r) (returned_bytes r) (truncated r).

Section ReadFile.
Context (path : string) (pread pread' : Z -> Z -> Result bytes) (fuel : nat) (o : ReadTextOptions)
  (pre post post' : Result FileFingerprint).

Definition read_again (before : FileFingerprint) : option (Result ReadTextResult) :=
  match dispatch_read path pread' fuel o before with
  | Some (Ok result) =>
      match post' with
      | Err e => Some (Err e)
      | Ok after =>
          if decide (before = after) then Some (Ok (set_fingerprint result after))
          else Some (Err (changed_again path))
      end
  | other => other
  end.

Definition read_valid_file : option (Result ReadTextResult) :=
  match pre with
  | Err e => Some (Err e)
  | Ok before =>
      match dispatch_read path pread fuel o before with
      | Some (Ok result) =>
          match post with
          | Err e => Some (Err e)
          | Ok after =>
              if decide (before = after) then Some (Ok (set_fingerprint result after))
              else
                let ranged := match range o with Some _ => true | None => false end in
                if ranged || (retry_threshold <=? size_bytes before)
                then Some (Err (changed path before after)) else read_again after
          end
      | other => other
      end
  end.

Definition read_file : option (Result ReadTextResult) :=
  if max_bytes o =? 0 then
    Some (Err (Errors.with_ctx (Errors.invalid_argument "max_bytes must be greater than zero") "path" path))
  else
    match match range o with Some r => validate_range r | None => Ok tt end with
    | Err e => Some (Err (Errors.with_ctx e "path" path))
    | Ok _ => read_valid_file
    end.
End ReadFile.

(** ** Reading a file that does not change *)
(** POSIX [pread] of a regular file: some bytes at the offset, none only at its end. *)
Definition serves (content : bytes) (pread : Z -> Z -> Result bytes) : Prop :=
  forall offset n chunk, 0 <= offset -> 0 < n -> pread offset n = Ok chunk ->
    size chunk <= n /\ chunk `prefix_of` drop (Z.to_nat offset) content /\
    (chunk = [] -> drop (Z.to_nat offset) content = []).

Definition pread_failed (path : string) (pread : Z -> Z -> Result bytes) (limit : Z) (e : Error) : Prop :=
  exists offset n, 0 <= offset <= limit /\ 0 < n /\ read_chunk path pread offset n = Err e.
(** How far a read of a text looks. *)
Definition read_limit (content : bytes) (o : ReadTextOptions) : Z :=
  match range o with Some (mkRange None (Some b)) => Z.max (offset_bytes b) (size content) | _ => size content end.

Lemma size_nonneg t : 0 <= size t. Proof. unfold size. lia. Qed.
Lemma size_app a b : size (a ++ b) = size a + size b.
Proof. unfold size. rewrite length_app. lia. Qed.
Lemma size_nil t : size t = 0 <-> t = [].
Proof. unfold size. destruct t; cbn; [done|]. split; [lia|done]. Qed.

Section Serving.
Context (path : string) (content : bytes) (pread : Z -> Z -> Result bytes) (Hserves : serves content pread).

(** One call of [pread]: an error, the end of the file, or its next bytes. *)
Lemma read_chunk_spec offset n :
  0 <= offset -> 0 < n ->
  (exists e, read_chunk path pread offset n = Err e) \/
  (read_chunk path pread offset n = Ok [] /\ drop (Z.to_nat offset) content = []) \/
  exists chunk, read_chunk path pread offset n = Ok chunk /\ chunk <> [] /\ size chunk <= n /\
    drop (Z.to_nat offset) content = chunk ++ drop (Z.to_nat (offset + size chunk)) content.
Proof.
  intros Ho Hn. unfold read_chunk. destruct (off_max <? offset); [by left; eauto|].
  destruct (pread offset n) as [chunk|e] eqn:E; [right|by left; eauto].
  destruct (Hserves offset n chunk Ho Hn E) as (Hl & (rest & Hp) & Hnil).
  destruct chunk as [|c chunk]; [left; auto|right]. exists (c :: chunk). split_and!; [done|done|done|].
  rewrite Hp. f_equal. rewrite Z2Nat.inj_add by (try done; apply size_nonneg).
  unfold size. rewrite Nat2Z.id, <- drop_drop, Hp. by rewrite drop_app_length.
Qed.

Lemma read_bytes_loop_spec fuel offset len : forall t,
  0 <= offset -> t `prefix_of` drop (Z.to_nat offset) content -> size t <= len ->
  (length (drop (Z.to_nat offset) content) - length t < fuel)%nat ->
  exists r, read_bytes_loop path pread fuel offset len t = Some r /\
    match r with
    | Ok t' => t' = take (Z.to_nat len) (drop (Z.to_nat offset) content)
    | Err e => pread_failed path pread (Z.max offset (size content)) e
    end.
Proof.
  induction fuel as [|fuel IH]; intros t Ho Hp Hlen Hf; [lia|]. cbn [read_bytes_loop].
  destruct Hp as [rest Hp].
  assert (Hend : offset + size t <= Z.max offset (size content)).
  { destruct t as [|c t]; [unfold size; cbn; lia|]. apply (f_equal length) in Hp. rewrite length_drop, length_app in Hp.
    unfold size. cbn [length] in *. lia. }
  rewrite Hp in *. rewrite length_app in Hf.
  destruct (Z.ltb_spec (size t) len) as [Hlt|Hge].
  2:{ eexists. split; [done|]. unfold size in *. rewrite take_app_length'; [done|lia]. }
  destruct (read_chunk_spec (offset + size t) (Z.min chunk_size (len - size t))) as [(e & He)|[[He Hd]|(chunk & He & Hne & Hsz & Hd)]];
    try (pose proof (size_nonneg t); unfold chunk_size; lia).
  - rewrite He. eexists. split; [done|]. eexists _, _. split_and!; [| | |exact He]; pose proof (size_nonneg t); unfold chunk_size; lia.
  - rewrite He. eexists. split; [done|]. rewrite Z2Nat.inj_add in Hd by (try done; apply size_nonneg).
    unfold size in Hd. rewrite Nat2Z.id, <- drop_drop, Hp, drop_app_length in Hd. rewrite Hd, app_nil_r.
    rewrite take_ge; [done|]. unfold size in *. lia.
  - rewrite He. assert (Hrest : rest = chunk ++ drop (length chunk) rest).
    { rewrite !Z2Nat.inj_add in Hd by (try done; try apply size_nonneg; pose proof (size_nonneg t); lia).
      unfold size in Hd. rewrite !Nat2Z.id, <- !drop_drop, Hp, drop_app_length in Hd. exact Hd. }
    destruct chunk as [|c chunk]; [done|]. set (k := c :: chunk) in *.
    apply IH; [done|exists (drop (length k) rest); by rewrite <- app_assoc, <- Hrest| |].
    + rewrite size_app. lia.
    + apply (f_equal length) in Hrest. rewrite !length_app in *. subst k. cbn [length] in *. lia.
Qed.

Lemma read_bytes_spec fuel offset len :
  0 <= offset -> 0 <= len -> (length content < fuel)%nat ->
  exists r, read_bytes path pread fuel offset len = Some r /\
    match r with
    | Ok t => t = take (Z.to_nat len) (drop (Z.to_nat offset) content)
    | Err e => pread_failed path pread (Z.max offset (size content)) e
    end.
Proof.
  intros Ho Hl Hf. apply read_bytes_loop_spec; [done|apply prefix_nil|done|]. rewrite length_drop. cbn. lia.
Qed.
End Serving.

(** ** Lines *)
(** The lines of a text, each with its newline; the last may have none. *)
Fixpoint lines_of (t : bytes) : list bytes :=
  match t with
  | [] => []
  | ch :: rest =>
      if is_newline ch then [ch] :: lines_of rest
      else match lines_of rest with [] => [[ch]] | l :: ls => (ch :: l) :: ls end
  end.

(** The bytes a line range asks for. *)
Definition requested (l : LineSpan) (content : bytes) : bytes :=
  concat (take (Z.to_nat (line_count l)) (drop (Z.to_nat (start_line l - 1)) (lines_of content))).

Section Lines.
Context (l : LineSpan) (max_bytes : Z) (Hmax : 0 < max_bytes).

(** The bytes in range from a position in line [line] with [emitted] lines behind it. *)
Fixpoint window (line emitted : Z) (t : bytes) : bytes :=
  match t with
  | [] => []
  | ch :: rest =>
      let in_range := (start_line l <=? line) && (emitted <? line_count l) in
      let line' := if is_newline ch then line + 1 else line in
      let emitted' := if is_newline ch && in_range then emitted + 1 else emitted in
      if in_range then ch :: window line' emitted' rest else window line' emitted' rest
  end.

Lemma window_lines t : forall line emitted,
  window line emitted t =
    concat (take (Z.to_nat (line_count l - emitted)) (drop (Z.to_nat (start_line l - line)) (lines_of t))).
Proof.
  induction t as [|ch rest IH]; intros line emitted; cbn [window lines_of]; [by rewrite drop_nil, take_nil|].
  destruct (Z.leb_spec (start_line l) line) as [Hs|Hs]; cbn [andb].
  - replace (Z.to_nat (start_line l - line)) with 0%nat by lia.
    destruct (Z.ltb_spec emitted (line_count l)) as [He|He].
    + replace (Z.to_nat (line_count l - emitted)) with (S (Z.to_nat (line_count l - (emitted + 1)))) by lia.
      destruct (is_newline ch) eqn:En; rewrite ?andb_true_r, ?andb_false_l; cbn [andb].
      * rewrite IH. replace (Z.to_nat (start_line l - (line + 1))) with 0%nat by lia. done.
      * rewrite IH. replace (Z.to_nat (start_line l - line)) with 0%nat by lia.
        replace (Z.to_nat (line_count l - emitted)) with (S (Z.to_nat (line_count l - (emitted + 1)))) by lia.
        rewrite !drop_0. destruct (lines_of rest); cbn; by rewrite ?take_nil.
    + rewrite andb_false_r, IH. replace (Z.to_nat (line_count l - emitted)) with 0%nat by lia. done.
  - rewrite andb_false_r, IH. destruct (is_newline ch).
    + replace (Z.to_nat (start_line l - line)) with (S (Z.to_nat (start_line l - (line + 1)))) by lia. done.
    + replace (Z.to_nat (start_line l - line)) with (S (Z.to_nat (start_line l - (line + 1)))) by lia.
      destruct (lines_of rest); [cbn; by rewrite !drop_nil|done].
Qed.

Lemma requested_window content : requested l content = window 1 0 content.
Proof. unfold requested. rewrite window_lines. do 3 f_equal. lia. Qed.

(** *** The scan *)
Definition view (s : Scan) : bytes * Z * bool * Z := (s_text s, s_end s, s_cut s, s_emitted s).

Lemma scan_chunk_app a b : forall s,
  s_cut s = false ->
  scan_chunk l max_bytes (a ++ b) s =
    if s_cut (scan_chunk l max_bytes a s) then scan_chunk l max_bytes a s
    else scan_chunk l max_bytes b (scan_chunk l max_bytes a s).
Proof.
  induction a as [|ch a IH]; intros s Hc; cbn [scan_chunk app]; [by rewrite Hc|].
  destruct (_ && (max_bytes <=? _)); [done|]. apply IH. by destruct (is_newline ch).
Qed.

(** Past the last line of the range nothing changes. *)
Lemma scan_chunk_done t : forall s, line_count l <= s_emitted s -> view (scan_chunk l max_bytes t s) = view s.
Proof.
  induction t as [|ch t IH]; intros s He; [done|]. cbn [scan_chunk].
  replace (s_emitted s <? line_count l) with false by lia. rewrite !andb_false_r. cbn [andb].
  destruct (is_newline ch); rewrite IH by done; done.
Qed.

(** The scan shows as much of the window as fits, and its counters agree with the text. *)
Record Scanned (s : Scan) : Prop := {
  sc_end : s_end s = start_line l + s_emitted s - 1;
  sc_partial : s_text s <> [] -> ends_with_newline (s_text s) = false -> s_emitted s < line_count l;
  sc_lines : s_emitted s = count_newlines (s_text s);
  sc_fits : size (s_text s) <= max_bytes }.

Lemma count_newlines_snoc t ch : count_newlines (t ++ [ch]) = count_newlines t + (if is_newline ch then 1 else 0).
Proof.
  unfold count_newlines. rewrite List.filter_app, length_app. cbn. destruct (is_newline ch); cbn; lia.
Qed.

Lemma ends_snoc t ch : ends_with_newline (t ++ [ch]) = is_newline ch.
Proof. unfold ends_with_newline. by rewrite last_snoc. Qed.

Lemma scan_spec t : forall s,
  Scanned s -> s_cut s = false ->
  let s' := scan_chunk l max_bytes t s in
  Scanned s' /\ s_text s' = take (Z.to_nat max_bytes) (s_text s ++ window (s_line s) (s_emitted s) t) /\
  s_cut s' = (max_bytes <? size (s_text s ++ window (s_line s) (s_emitted s) t)).
Proof.
  induction t as [|ch t IH]; intros s Hs Hc; cbn [scan_chunk window].
  { pose proof (sc_fits _ Hs). rewrite app_nil_r. split_and!; [done| |].
    - rewrite take_ge; [done|]. unfold size in *. lia.
    - rewrite Hc. destruct (Z.ltb_spec max_bytes (size (s_text s))); [lia|done]. }
  destruct (_ && (s_emitted s <? line_count l)) eqn:Er; cbn [andb].
  - destruct (Z.leb_spec max_bytes (size (s_text s))) as [Hge|Hlt].
    + pose proof (sc_fits _ Hs). split_and!; [by destruct Hs| |].
      * cbn. rewrite take_app_length'; [done|]. unfold size in *. lia.
      * cbn. symmetry. apply Z.ltb_lt. rewrite size_app. unfold size in *. cbn [length]. lia.
    + apply andb_prop in Er as [Er1 Er2%Z.ltb_lt].
      destruct (is_newline ch) eqn:En; cbn [andb];
        (match goal with |- context [scan_chunk _ _ _ ?x] => destruct (IH x) as (IH1 & IH2 & IH3) end;
         [|done|]; [destruct Hs; split; cbn; rewrite ?count_newlines_snoc, ?ends_snoc, ?En, ?size_app; unfold size in *; cbn;
                    try lia; intros; try congruence; lia|]; cbn in *; rewrite <- !app_assoc in *; done).
  - rewrite andb_false_r.
    destruct (is_newline ch) eqn:En;
      (match goal with |- context [scan_chunk _ _ _ ?x] => destruct (IH x) as (IH1 & IH2 & IH3) end;
       [by destruct Hs|done|done]).
Qed.
End Lines.

(** ** Whole code points *)
Definition encoded (t : bytes) : Prop := exists cps, Forall scalar cps /\ t = encode_all cps.

Lemma encoded_valid t : encoded t <-> is_valid_utf8 t = true.
Proof. symmetry. apply valid_encoded. Qed.

Lemma encoded_concat ts : Forall encoded ts -> encoded (concat ts).
Proof.
  induction 1 as [|t ts (cps & Hc & ->) _ (cps' & Hc' & IH)]; [by exists []|].
  exists (cps ++ cps'). split; [by apply Forall_app|]. cbn. by rewrite IH, encode_all_app.
Qed.

Lemma continuation_test c : (Z.land (code c) 192 =? 128) = ((128 <=? code c) && (code c <? 192)).
Proof.
  assert (H : forallb (fun n => Bool.eqb (Z.land (Z.of_nat n) 192 =? 128)
    ((128 <=? Z.of_nat n) && (Z.of_nat n <? 192))) (seq 0 256) = true) by (vm_compute; reflexivity).
  rewrite forallb_forall in H. pose proof (code_range c).
  specialize (H (Z.to_nat (code c))). rewrite Z2Nat.id in H by lia. apply Bool.eqb_prop, H, in_seq. lia.
Qed.

(** An encoding is a lead byte that is no continuation and says its length, then continuations. *)
Lemma encode_bytes cp :
  scalar cp -> exists lead conts, encode cp = lead :: conts /\ Forall cont conts /\
    (Z.land (code lead) 192 =? 128) = false /\ sequence_length (code lead) = Some (length (encode cp)) /\
    (is_newline lead = true -> conts = []).
Proof.
  intros Hs%encode_shape. unfold is_newline.
  assert (Hr : forall b c1, in_range (code c1) (first_continuation_range (code b)) = true -> cont c1).
  { intros b c1 Hi. unfold cont, first_continuation_range in *. split_tests; apply in_range_spec in Hi; lia. }
  destruct Hs as [b Hb|b c1 Hb Hc|b c1 c2 Hb Hi Hc|b c1 c2 c3 Hb Hi Hc Hd]; pose proof (code_range b);
    eexists _, _; (split; [reflexivity|]); rewrite continuation_test; unfold sequence_length; split_tests; try lia;
    (split_and!; [rewrite ?Forall_cons; split_and?; eauto| |done|intros ?; try done; lia]);
    destruct (Z.leb_spec 128 (code b)), (Z.ltb_spec (code b) 192); done || lia.
Qed.

Lemma cont_skip c : cont c -> (Z.land (code c) 192 =? 128) = true.
Proof. unfold cont. intros H. rewrite continuation_test. lia. Qed.

Lemma skip_conts a rest : Forall cont a -> skip_continuations (a ++ rest) = (length a + skip_continuations rest)%nat.
Proof. induction 1 as [|c a Hc _ IH]; cbn; [done|]. by rewrite cont_skip, IH. Qed.

Lemma whole_step cp u fuel :
  scalar cp -> whole_sequences (S fuel) (encode cp ++ u) = (length (encode cp) + whole_sequences fuel u)%nat.
Proof.
  intros Hcp. destruct (encode_bytes cp Hcp) as (lead & conts & He & _ & _ & Hlen & _).
  assert (Hd : drop (length (encode cp)) (encode cp ++ u) = u) by apply drop_app_length.
  assert (Hl : (length (encode cp ++ u) <? length (encode cp))%nat = false) by (apply Nat.ltb_ge; rewrite length_app; lia).
  rewrite He in *. cbn [app whole_sequences]. rewrite Hlen. cbn [app] in Hl, Hd. by rewrite Hl, Hd.
Qed.

Lemma whole_short cp m fuel :
  scalar cp -> (m < length (encode cp))%nat -> whole_sequences fuel (take m (encode cp)) = 0%nat.
Proof.
  intros Hcp Hm. destruct (encode_bytes cp Hcp) as (lead & conts & He & _ & _ & Hlen & _).
  destruct fuel; [done|]. destruct m as [|m]; [done|].
  assert (Hl : (length (take (S m) (encode cp)) <? length (encode cp))%nat = true)
    by (apply Nat.ltb_lt; rewrite length_take; lia).
  rewrite He in *. cbn [firstn whole_sequences] in *. by rewrite Hlen, Hl.
Qed.

(** Of a part of an encoding, the whole sequences are the encodings that fit. *)
Lemma whole_sequences_take cps : forall fuel m,
  Forall scalar cps -> (m <= fuel)%nat ->
  exists k, take (whole_sequences fuel (take m (encode_all cps))) (take m (encode_all cps)) = encode_all (take k cps).
Proof.
  induction cps as [|cp cps IH]; intros fuel m Hc Hf.
  { exists 0%nat. change (encode_all []) with (@nil ascii). rewrite !take_nil. by destruct fuel. }
  apply Forall_cons in Hc as [Hcp Hc]. pose proof (encode_length cp Hcp) as Hlen. rewrite encode_all_cons.
  destruct (Nat.lt_ge_cases m (length (encode cp))) as [Hm|Hm].
  - exists 0%nat. rewrite take_app_le by lia. by rewrite whole_short.
  - rewrite take_app_ge by lia. destruct fuel as [|fuel]; [lia|]. rewrite whole_step by done.
    destruct (IH fuel (m - length (encode cp))%nat Hc ltac:(lia)) as (k & Hk). exists (S k).
    rewrite take_app_add'; [|done]. rewrite Hk. done.
Qed.

(** What is left of a cut text is whole code points, even when the cut is at both ends. *)
Lemma align_encoded conts cps n :
  Forall cont conts -> Forall scalar cps -> encoded (align (take n (conts ++ encode_all cps))).
Proof.
  intros Hconts Hc. unfold align. destruct (Nat.le_gt_cases n (length conts)) as [Hn|Hn].
  - rewrite take_app_le by lia. assert (Hk : skip_continuations (take n conts) = length (take n conts)).
    { rewrite <- (app_nil_r (take n conts)) at 1. rewrite skip_conts by by apply Forall_take. cbn. lia. }
    rewrite Hk, drop_ge by lia. by exists [].
  - rewrite take_app_ge by lia. rewrite skip_conts by done. set (m := (n - length conts)%nat).
    assert (Hk : skip_continuations (take m (encode_all cps)) = 0%nat).
    { destruct cps as [|cp cps]; [change (encode_all []) with (@nil ascii); by rewrite take_nil|]. apply Forall_cons in Hc as [Hcp _].
      destruct (encode_bytes cp Hcp) as (lead & cs & He & _ & Hlead & _). rewrite encode_all_cons, He.
      destruct m; [done|]. cbn. by rewrite Hlead. }
    rewrite Hk, Nat.add_0_r, drop_app_length.
    rewrite length_take. destruct (Nat.le_gt_cases m (length (encode_all cps))) as [Hle|Hgt].
    + rewrite Nat.min_l by lia. destruct (whole_sequences_take cps m m Hc (le_n m)) as (k & ->).
      exists (take k cps). split; [by apply Forall_take|done].
    + rewrite (take_ge (encode_all cps)) by lia. rewrite Nat.min_r by lia.
      destruct (whole_sequences_take cps (length (encode_all cps)) (length (encode_all cps)) Hc (le_n _)) as (k & Hk').
      rewrite !firstn_all in Hk'. rewrite Hk'. exists (take k cps). split; [by apply Forall_take|done].
Qed.

(** The bytes from an offset of an encoding: the rest of a code point, then code points. *)
Lemma drop_encoded cps : forall n,
  Forall scalar cps -> exists conts cps', Forall cont conts /\ Forall scalar cps' /\
    drop n (encode_all cps) = conts ++ encode_all cps'.
Proof.
  induction cps as [|cp cps IH]; intros n Hc.
  { exists [], []. change (encode_all []) with (@nil ascii). by rewrite drop_nil. }
  apply Forall_cons in Hc as [Hcp Hc]. destruct n as [|n]; [exists [], (cp :: cps); auto|].
  rewrite encode_all_cons. destruct (Nat.le_gt_cases (length (encode cp)) (S n)) as [Hle|Hgt].
  - rewrite drop_app_ge by lia. by apply IH.
  - rewrite drop_app_le by lia. exists (drop (S n) (encode cp)), cps. split_and!; [|done|done].
    destruct (encode_bytes cp Hcp) as (lead & conts & -> & Hconts & _). cbn. by apply Forall_drop.
Qed.

Lemma drop_encoded_valid content n :
  encoded content -> exists conts cps, Forall cont conts /\ Forall scalar cps /\ drop n content = conts ++ encode_all cps.
Proof. intros (cps & Hc & ->). by apply drop_encoded. Qed.

(** *** The lines of a text *)
Lemma lines_of_app s t :
  s <> [] -> Forall (fun c => is_newline c = false) s ->
  lines_of (s ++ t) = match lines_of t with [] => [s] | l :: ls => (s ++ l) :: ls end.
Proof.
  intros Hne Hs. induction Hs as [|c s Hc Hs IH]; [done|]. cbn. rewrite Hc.
  destruct s as [|c' s]; [cbn; by destruct (lines_of t)|]. rewrite IH by done. by destruct (lines_of t).
Qed.

Lemma lines_of_encoded content : encoded content -> Forall encoded (lines_of content).
Proof.
  intros (cps & Hc & ->). induction Hc as [|cp cps Hcp Hc IH]; [constructor|]. rewrite encode_all_cons.
  assert (Hone : encoded (encode cp)).
  { exists [cp]. split; [by constructor|]. cbn. by rewrite app_nil_r. }
  destruct (encode_bytes cp Hcp) as (lead & conts & He & Hconts & _ & _ & Hnl).
  destruct (is_newline lead) eqn:En.
  - rewrite Hnl in He by done. rewrite He in *. cbn. rewrite En. by constructor.
  - rewrite lines_of_app; [|by rewrite He|].
    + destruct (lines_of (encode_all cps)) as [|l ls]; [by repeat constructor|]. apply Forall_cons in IH as [Hl Hls].
      constructor; [|done]. replace (encode cp ++ l) with (concat [encode cp; l]) by (cbn; by rewrite app_nil_r).
      apply encoded_concat. by repeat constructor.
    + rewrite He. constructor; [done|]. eapply Forall_impl; [exact Hconts|]. unfold cont, is_newline. intros c ?. lia.
Qed.

(** ** What a read returns *)
Section Result.
Context (path : string) (content : bytes) (pread : Z -> Z -> Result bytes) (Hserves : serves content pread).

Lemma scan_loop_spec fuel l max_bytes : forall offset s,
  0 <= offset -> s_cut s = false -> (length (drop (Z.to_nat offset) content) < fuel)%nat ->
  exists r, scan_loop path pread fuel l max_bytes offset s = Some r /\
    match r with
    | Ok s' => view s' = view (scan_chunk l max_bytes (drop (Z.to_nat offset) content) s)
    | Err e => pread_failed path pread (Z.max offset (size content)) e
    end.
Proof.
  induction fuel as [|fuel IH]; intros offset s Ho Hc Hf; [lia|]. cbn [scan_loop].
  destruct (Z.ltb_spec (s_emitted s) (line_count l)) as [He|He].
  2:{ eexists. split; [done|]. by rewrite scan_chunk_done. }
  destruct (read_chunk_spec path content pread Hserves offset chunk_size) as [(e & Hr)|[[Hr Hd]|(chunk & Hr & Hne & _ & Hd)]];
    [done|unfold chunk_size; lia|..]; rewrite Hr.
  - eexists. split; [done|]. exists offset, chunk_size. split_and!; [lia|lia|done|exact Hr].
  - eexists. split; [done|]. by rewrite Hd.
  - rewrite Hd, scan_chunk_app by done. destruct chunk as [|c chunk]; [done|]. set (k := c :: chunk) in *.
    destruct (s_cut (scan_chunk l max_bytes k s)) eqn:Ec; [eexists; split; [done|]; done|].
    assert (Hend : offset + size k <= size content).
    { apply (f_equal length) in Hd. rewrite length_drop, length_app in Hd. unfold size, k in *. cbn [length] in *. lia. }
    replace (Z.max offset (size content)) with (Z.max (offset + size k) (size content)) by (pose proof (size_nonneg k); lia).
    apply IH; [pose proof (size_nonneg k); lia|done|].
    apply (f_equal length) in Hd. rewrite length_app in Hd. subst k. cbn [length] in *. lia.
Qed.

Lemma scan_start_ok l max_bytes : 0 < max_bytes -> Scanned l max_bytes (scan_start l).
Proof. intros H. split; cbn; try done; unfold size; cbn; lia. Qed.

Lemma requested_text_lines l max_bytes s :
  Scanned l max_bytes s -> res_end_line (scan_result l s) = start_line l + count_line_span (s_text s) - 1.
Proof.
  intros Hs. cbn. unfold count_line_span. rewrite (sc_end _ _ _ Hs), (sc_lines _ _ _ Hs).
  destruct (s_text s) as [|c t] eqn:E; [cbn; change (count_newlines []) with 0; lia|]. rewrite bool_decide_eq_false_2 by done. cbn [negb andb].
  destruct (ends_with_newline (c :: t)) eqn:Ee; cbn [negb andb]; [lia|].
  pose proof (sc_partial _ _ _ Hs) as Hp. rewrite E, (sc_lines _ _ _ Hs), E in Hp.
  destruct (Z.ltb_spec (count_newlines (c :: t)) (line_count l)) as [|Hge]; [lia|]. specialize (Hp ltac:(done) Ee). lia.
Qed.

Lemma scan_result_view l s s' : view s = view s' -> scan_result l s = scan_result l s'.
Proof. destruct s, s'. unfold view. cbn. by intros [= -> -> -> ->]. Qed.

(** A line range: the requested lines, as much of them as fits. *)
Lemma read_lines_result fuel l max_bytes :
  0 < max_bytes -> (length content < fuel)%nat ->
  exists r, read_lines path pread fuel l max_bytes = Some r /\
    match r with
    | Ok res =>
        let want := requested l content in
        let shown := take (Z.to_nat max_bytes) want in
        text res = align_if (max_bytes <? size want) shown /\ truncated res = (max_bytes <? size want) /\
        res_start_line res = start_line l /\ res_end_line res = start_line l + count_line_span shown - 1
    | Err e => pread_failed path pread (size content) e
    end.
Proof.
  intros Hm Hf. unfold read_lines.
  destruct (scan_loop_spec fuel l max_bytes 0 (scan_start l)) as (r & -> & Hr); [done|done|by rewrite drop_0|].
  rewrite Z.max_r in Hr by apply size_nonneg.
  destruct r as [s|e]; [|by eexists]. cbn [map_read]. eexists. split; [done|]. rewrite drop_0 in Hr.
  rewrite (scan_result_view l _ _ Hr).
  destruct (scan_spec l max_bytes Hm content (scan_start l)) as (Hs & Ht & Hcut); [by apply scan_start_ok|done|].
  cbn in Ht, Hcut. rewrite requested_window. pose proof (requested_text_lines _ _ _ Hs) as He.
  set (s' := scan_chunk _ _ _ _) in *. rewrite <- Ht, <- Hcut. split_and!; [done|done|done|exact He].
Qed.

Lemma read_whole_result fuel file_size max_bytes :
  0 <= file_size -> 0 < max_bytes -> (length content < fuel)%nat ->
  exists r, read_whole path pread fuel file_size max_bytes = Some r /\
    match r with
    | Ok res =>
        text res = align_if (max_bytes <? file_size) (take (Z.to_nat (Z.min file_size max_bytes)) content) /\
        truncated res = (max_bytes <? file_size)
    | Err e => pread_failed path pread (size content) e
    end.
Proof.
  intros Hs Hm Hf. unfold read_whole.
  destruct (read_bytes_spec path content pread Hserves fuel 0 (Z.min file_size max_bytes)) as (r & -> & Hr); [lia..|].
  rewrite Z.max_r in Hr by apply size_nonneg.
  destruct r as [t|e]; [|by eexists]. cbn [map_read]. eexists. split; [done|]. rewrite drop_0 in Hr. by subst t.
Qed.

Lemma read_bytes_range_result fuel b max_bytes :
  0 <= offset_bytes b -> 0 <= length_bytes b -> 0 < max_bytes -> (length content < fuel)%nat ->
  exists r, read_bytes_range path pread fuel b max_bytes = Some r /\
    match r with
    | Ok res => text res =
        align (take (Z.to_nat (Z.min (length_bytes b) max_bytes)) (drop (Z.to_nat (offset_bytes b)) content))
    | Err e => pread_failed path pread (Z.max (offset_bytes b) (size content)) e
    end.
Proof.
  intros Ho Hl Hm Hf. unfold read_bytes_range.
  destruct (read_bytes_spec path content pread Hserves fuel (offset_bytes b) (Z.min (length_bytes b) max_bytes))
    as (r & -> & Hr); [lia..|].
  destruct r as [t|e]; [|by eexists]. cbn [map_read]. eexists. split; [done|]. by subst t.
Qed.

Lemma align_if_encoded b t n : encoded t -> (b = false -> (length t <= n)%nat) -> encoded (align_if b (take n t)).
Proof.
  intros (cps & Hc & ->) Hn. destruct b; cbn.
  - apply (align_encoded [] cps n); [constructor|done].
  - rewrite take_ge by auto. by exists cps.
Qed.

(** A read of valid text gives valid text, whatever the range and the limit. *)
Lemma dispatch_read_valid fuel o fp :
  is_valid_utf8 content = true -> size_bytes fp = size content -> 0 < max_bytes o -> (length content < fuel)%nat ->
  match range o with Some r => validate_range r = Ok tt | None => True end ->
  match range o with
  | Some r => match r_bytes r with Some b => 0 <= offset_bytes b /\ 0 <= length_bytes b | None => True end
  | None => True end ->
  exists r, dispatch_read path pread fuel o fp = Some r /\
    match r with Ok res => is_valid_utf8 (text res) = true | Err e => pread_failed path pread (read_limit content o) e end.
Proof.
  intros Hv Hsz Hm Hf Hr Hb. apply encoded_valid in Hv. unfold dispatch_read, read_limit.
  destruct (range o) as [[[l|] [b|]]|]; try done.
  - destruct (read_lines_result fuel l (max_bytes o) Hm Hf) as (r & -> & Hres). exists r. split; [done|].
    destruct r as [res|e]; [|done]. destruct Hres as (-> & _). apply encoded_valid.
    apply align_if_encoded; [|unfold size; lia].
    unfold requested. apply encoded_concat, Forall_take, Forall_drop. by apply lines_of_encoded.
  - destruct Hb as [Hb1 Hb2]. destruct (read_bytes_range_result fuel b (max_bytes o)) as (r & -> & Hres); [lia..|]. exists r. split; [done|].
    destruct r as [res|e]; [|done]. rewrite Hres. apply encoded_valid.
    destruct (drop_encoded_valid content (Z.to_nat (offset_bytes b)) Hv) as (conts & cps & ? & ? & ->).
    by apply align_encoded.
  - destruct (read_whole_result fuel (size_bytes fp) (max_bytes o)) as (r & -> & Hres);
      [rewrite Hsz; apply size_nonneg|done|done|]. exists r. split; [done|].
    destruct r as [res|e]; [|done]. destruct Hres as [-> _]. apply encoded_valid. rewrite Hsz.
    apply align_if_encoded; [done|unfold size; lia].
Qed.
End Result.

(** ** The theorems *)
(** reading a line range of a file that does not change ends, and returns exactly the requested lines; when
    they exceed the byte cap, the whole code points of the part that fits, marked as truncated; the end line is
    the last line of which a byte was read. *)
Theorem read_lines_exact (path : string) (content : bytes) (pread : Z -> Z -> Result bytes) (fuel : nat)
    (l : LineSpan) (max_bytes : Z) :
  serves content pread -> 0 < max_bytes -> (length content < fuel)%nat ->
  exists r, read_lines path pread fuel l max_bytes = Some r /\
    match r with
    | Ok res =>
        let want := requested l content in
        let shown := take (Z.to_nat max_bytes) want in
        text res = align_if (max_bytes <? size want) shown /\ truncated res = (max_bytes <? size want) /\
        res_start_line res = start_line l /\ res_end_line res = start_line l + count_line_span shown - 1
    | Err e => pread_failed path pread (size content) e
    end.
Proof. intros Hs. by apply read_lines_result. Qed.

(** a read of a valid UTF-8 file returns valid UTF-8 in every mode: no range and no cap cuts a code point. *)
Theorem read_keeps_code_points (path : string) (content : bytes) (pread : Z -> Z -> Result bytes) (fuel : nat)
    (o : ReadTextOptions) (fp : FileFingerprint) :
  serves content pread -> is_valid_utf8 content = true -> size_bytes fp = size content -> 0 < max_bytes o ->
  (length content < fuel)%nat ->
  match range o with Some r => validate_range r = Ok tt | None => True end ->
  match range o with
  | Some r => match r_bytes r with Some b => 0 <= offset_bytes b /\ 0 <= length_bytes b | None => True end
  | None => True end ->
  exists r, dispatch_read path pread fuel o fp = Some r /\
    match r with Ok res => is_valid_utf8 (text res) = true | Err e => pread_failed path pread (read_limit content o) e end.
Proof. intros Hs. by apply dispatch_read_valid. Qed.

(** the byte offset of a range counts from zero: the bytes returned start right after the first
    [offset_bytes] bytes of the file. *)
Theorem byte_offset_from_zero (path : string) (content : bytes) (pread : Z -> Z -> Result bytes) (fuel : nat)
    (b : ByteSpan) (max_bytes : Z) :
  serves content pread -> 0 <= offset_bytes b -> 0 <= length_bytes b -> 0 < max_bytes -> (length content < fuel)%nat ->
  exists r, read_bytes_range path pread fuel b max_bytes = Some r /\
    match r with
    | Ok res => text res =
        align (take (Z.to_nat (Z.min (length_bytes b) max_bytes)) (drop (Z.to_nat (offset_bytes b)) content))
    | Err e => pread_failed path pread (Z.max (offset_bytes b) (size content)) e
    end.
Proof. intros Hs. by apply read_bytes_range_result. Qed.

(** a read that succeeds carries the fingerprint that the file had both before and after it. *)
Theorem read_file_stable (path : string) (pread pread' : Z -> Z -> Result bytes) (fuel : nat) (o : ReadTextOptions)
    (pre post post' : Result FileFingerprint) (res : ReadTextResult) :
  read_file path pread pread' fuel o pre post post' = Some (Ok res) ->
  (pre = Ok (fingerprint res) /\ post = Ok (fingerprint res)) \/
  (post = Ok (fingerprint res) /\ post' = Ok (fingerprint res) /\ range o = None).
Proof.
  unfold read_file, read_valid_file, read_again. destruct (max_bytes o =? 0); [done|].
  destruct (match range o with Some r => validate_range r | None => Ok tt end); [|done].
  destruct pre as [before|]; [|done]. destruct (dispatch_read _ _ _ _ before) as [[r|]|]; [|done..].
  destruct post as [after|]; [|done]. destruct (decide (before = after)) as [->|]; [intros [= <-]; by left|].
  destruct (range o); [done|]. cbn [orb]. destruct (_ <=? _); [done|].
  destruct (dispatch_read _ _ _ _ after) as [[r'|]|]; [|done..]. destruct post' as [again|]; [|done].
  destruct (decide (after = again)) as [->|]; [|done]. intros [= <-]. by right.
Qed.

Module Demo.
Definition file : bytes := lit "one" ++ [newline] ++ lit "two" ++ [newline] ++ lit "three".
Definition pread (offset n : Z) : Result bytes := Ok (take (Z.to_nat n) (drop (Z.to_nat offset) file)).

Lemma pread_serves : serves file pread.
Proof.
  intros offset n chunk Ho Hn [= <-]. split_and!.
  - unfold size. rewrite length_take. lia.
  - apply prefix_take.
  - destruct (drop _ file); [done|]. replace (Z.to_nat n) with (S (Z.to_nat n - 1)) by lia. done.
Qed.

Definition second_line : LineSpan := mkLines 2 1.
Lemma read_lines_exact_witness :
  exists res, read_lines "f" pread 20 second_line 100 = Some (Ok res) /\ text res = lit "two" ++ [newline].
Proof.
  destruct (read_lines_exact "f" file pread 20 second_line 100 pread_serves) as (r & Hr & Hspec); [lia|vm_compute; lia|].
  assert (Hc : read_lines "f" pread 20 second_line 100 = Some (Ok (mkResult (lit "two" ++ [newline]) no_fingerprint 2 2 4 false)))
    by (vm_compute; reflexivity).
  rewrite Hc in Hr. injection Hr as <-. destruct Hspec as [H _]. eexists. split; [exact Hc|]. refine (eq_trans H _). vm_compute. reflexivity.
Defined.

Definition whole : ReadTextOptions := mkReadOptions 5 None.
Lemma read_keeps_code_points_witness :
  exists r, dispatch_read "f" pread 20 whole (mkFingerprint 13 0) = Some r.
Proof.
  destruct (read_keeps_code_points "f" file pread 20 whole (mkFingerprint 13 0) pread_serves) as (r & Hr & _);
    [vm_compute; reflexivity|vm_compute; reflexivity|vm_compute; reflexivity|vm_compute; lia|exact I|exact I|].
  exists r. exact Hr.
Defined.

Lemma byte_offset_from_zero_witness :
  exists r, read_bytes_range "f" pread 20 (mkBytes 1 2) 100 = Some r.
Proof.
  destruct (byte_offset_from_zero "f" file pread 20 (mkBytes 1 2) 100 pread_serves) as (r & Hr & _);
    [vm_compute; discriminate|vm_compute; discriminate|lia|vm_compute; lia|].
  exists r. exact Hr.
Defined.

Definition fp : FileFingerprint := mkFingerprint 13 7.
Definition read_result : ReadTextResult := mkResult (lit "one" ++ [newline] ++ lit "t") fp 1 2 5 true.
Lemma read_file_stable_witness :
  Ok fp = Ok (fingerprint read_result) /\ Ok fp = Ok (fingerprint read_result).
Proof.
  destruct (read_file_stable "f" pread pread 20 whole (Ok fp) (Ok fp) (Ok fp) read_result) as [H|(_ & _ & _)];
    [vm_compute; reflexivity|exact H|split; reflexivity].
Defined.
End Demo.
