(* ===== verification/Mutation.v ===== *)
(** * oran-io: anchored file mutations

    Models the mutation half of [src/oran-io/directory_authority.cpp]
    ([begin_file_mutation], [FileMutation::open_existing], [FileMutation::write_text])
    and [io::WriteTextOptions].  The file system is everyone's: between two system
    calls other processes may do anything, so each call is answered by [os], any
    function of the calls made so far; a call interrupted by a signal is made again
    and appears once.  A computation maps the trace of the calls before it to its
    result and the trace after it. *)
From S2P Require Import Prelude Core Paths FileText.
Import EnumNames.
#[local] Open Scope Z_scope.

(** ** Data *)
Inductive WriteMode := truncate | append | fail_if_exists.
#[global] Instance write_mode_eq_dec : EqDecision WriteMode. Proof. solve_decision. Defined.
#[export] Instance Enum_WriteMode : Enum WriteMode := {
  enumerators := [(truncate, "truncate"); (append, "append"); (fail_if_exists, "fail_if_exists")]%string }.
#[export] Instance EnumLaws_WriteMode : EnumLaws WriteMode.
Proof. solve_enum_laws. Qed.
Inductive WriteTextDurability := rename_only | fsync_file | fsync_file_and_parent.
#[global] Instance durability_eq_dec : EqDecision WriteTextDurability. Proof. solve_decision. Defined.

Record WriteTextOptions := mkWriteOptions {
  w_mode : WriteMode; w_create_parents : bool; w_atomic : bool; w_durability : WriteTextDurability;
  w_verify : option (FileFingerprint -> Result unit) }.

(** [struct stat], with times as seconds and nanoseconds. *)
Record Stat := mkStat {
  st_dev : Z; st_ino : Z; st_size : Z; st_mtime : Z * Z; st_ctime : Z * Z; st_regular : bool; st_symlink : bool }.

(** [FileMutation::Impl]; [snapshot] is there when the target [existed]. *)
Record FileMutation := mkMutation { m_name : string; m_display : string; m_snapshot : option Stat }.

Definition same_identity (a status : Stat) : bool :=
  (st_dev status =? st_dev a) && (st_ino status =? st_ino a) && (st_size status =? st_size a) &&
  bool_decide (st_mtime status = st_mtime a) && bool_decide (st_ctime status = st_ctime a).

Definition stat_mtime_nanoseconds (s : Stat) : Z :=
  let '(seconds, nanoseconds) := st_mtime s in
  if seconds <? 0 then 0 else wrap_u 64 (seconds * 1000000000 + nanoseconds).
Definition fingerprint_from_stat (s : Stat) : FileFingerprint :=
  mkFingerprint (st_size s) (stat_mtime_nanoseconds s).

(** ** System calls *)
Inductive Call :=
  | open_root
  | open_dir (name : string) | make_dir (name : string) | stat_link (name : string)
  | open_target | stat_target | open_read | stat_read
  | open_append (create : bool) | stat_append
  | create_temp (attempt : nat) | write_temp (data : bytes) | sync_temp | unlink_temp
  | write_append (data : bytes)
  | link_temp | rename_temp | sync_parent
  | open_path (path : string) | stat_path | open_root_path (path : string) | stat_root | stat_link_path (path : string)
  | openat2 (dirfd : Z) (path : string) (flags resolve : Z) | dup_fd (fd : Z)
  | openat (dirfd : Z) (name : string) (flags : Z) | fstat_fd (fd : Z).
#[global] Instance call_eq_dec : EqDecision Call. Proof. solve_decision. Defined.

(** Success with a number, success with a [stat], or [errno]. *)
Inductive Answer := num (n : Z) | stat (s : Stat) | errno (e : Z).
Abbreviation Trace := (list (Call * Answer)).

Definition ENOENT : Z := 2.
Definition EEXIST : Z := 17.
Definition ENOTDIR : Z := 20.
Definition ELOOP : Z := 40.

(** A computation maps the calls made before it to its result and the calls after it. *)
Definition M (A : Type) : Type := Trace -> A * Trace.
Definition ret {A} (x : A) : M A := fun t => (x, t).
Definition bind {A B} (m : M A) (f : A -> M B) : M B := fun t => let '(x, t) := m t in f x t.
Notation "'let*' x := m 'in' k" := (bind m (fun x => k)) (at level 10, x pattern, m at level 100, k at level 200) : oran_scope.
Notation "'let!' x := m 'in' k" :=
  (bind m (fun r => match r with Ok x => k | Err e => ret (Err e) end))
  (at level 10, x pattern, m at level 100, k at level 200) : oran_scope.

Section System.
(** What the system answers, and [std::generic_category().message]. *)
Context (os : Trace -> Call -> Answer) (describe : Z -> string).

Definition sys (c : Call) : M Answer := fun t => let a := os t c in (a, t ++ [(c, a)]).

(** *** Errors *)
Definition path_error (message root relative_path reason : string) : Error :=
  Errors.with_ctx (Errors.with_ctx (Errors.with_ctx (Errors.permission_denied message)
    "root" root) "path" relative_path) "reason" reason.

Definition errno_error (message root relative_path : string) (n : Z) : Error :=
  let with_context e :=
    Errors.with_ctx (Errors.with_ctx (Errors.with_ctx (Errors.with_ctx e "root" root) "path" relative_path)
      "errno" (pretty n)) "detail" (describe n) in
  if n =? 2 then with_context (Errors.not_found message)
  else if (n =? 13) || (n =? 1) then with_context (Errors.permission_denied message)
  else if n =? 40 then path_error message root relative_path "symlink_component"
  else if n =? 18 then path_error message root relative_path "outside_authority"
  else if n =? 11 then
    Errors.with_ctx (Errors.with_ctx (Errors.with_ctx (Errors.mk ek_conflict message)
      "root" root) "path" relative_path) "reason" "path_resolution_raced"
  else if (n =? 36) || (n =? 20) then with_context (Errors.invalid_argument message)
  else with_context (Errors.io message).

Definition stale_mutation_error (message path : string) : Error :=
  Errors.with_ctx (Errors.with_ctx (Errors.mk ek_conflict message) "reason" "stale_fingerprint") "path" path.
Definition not_regular (root path : string) : Error :=
  Errors.with_ctx (Errors.with_ctx (Errors.invalid_argument "anchored path is not a regular file") "root" root) "path" path.

(** A call whose failure ends the operation. *)
Definition or_errno (c : Call) (message root path : string) : M (Result Answer) :=
  let* a := sys c in
  ret (match a with errno n => Err (errno_error message root path n) | _ => Ok a end).
(** [fstat]. *)
Definition fstat (c : Call) (message root path : string) : M (Result Stat) :=
  let! a := or_errno c message root path in
  ret (match a with stat s => Ok s | _ => Err (errno_error message root path 0) end).

Definition require_regular_file (c : Call) (root path : string) : M (Result unit) :=
  let! s := fstat c "failed to inspect anchored file" root path in
  ret (if st_regular s then Ok tt else Err (not_regular root path)).

(** *** Beginning a mutation *)
Definition validate_anchored_path (relative_path : string) : Result unit :=
  if bool_decide (relative_path = ""%string) then Err (Errors.invalid_argument "anchored path must not be empty")
  else if bool_decide (Ascii.zero ∈ lit relative_path) then
    Err (Errors.invalid_argument "anchored path must not contain NUL")
  else if is_absolute relative_path then
    Err (Errors.with_ctx (Errors.invalid_argument "anchored path must be relative") "path" relative_path)
  else if bool_decide (".."%string ∈ elements (path_of relative_path)) then
    Err (path_error "anchored path must not contain parent traversal" "" relative_path "outside_authority")
  else Ok tt.

Definition path_components (relative_path : string) : list string :=
  List.filter (fun c => negb (bool_decide (c = ""%string)) && negb (bool_decide (c = "."%string)))
    (elements (path_of relative_path)).

Section Begin.
Context (root path : string) (create_parents : bool).

(** One parent directory: opened, or made and opened. *)
Definition enter_dir (name : string) : M (Result unit) :=
  let* a := sys (open_dir name) in
  let* a :=
    match a with
    | errno n =>
        if (n =? ENOENT) && create_parents then
          let* made := sys (make_dir name) in
          match made with
          | errno k => if k =? EEXIST then let* a := sys (open_dir name) in ret (Ok a)
                       else ret (Err (errno_error "failed to create anchored parent directory" root path k))
          | _ => let* a := sys (open_dir name) in ret (Ok a)
          end
        else ret (Ok a)
    | _ => ret (Ok a)
    end in
  match a with
  | Err e => ret (Err e)
  | Ok (errno n) =>
      let failed := Err (errno_error "failed to open anchored parent directory" root path n) in
      if (n =? ELOOP) || (n =? ENOTDIR) then
        let* s := sys (stat_link name) in
        match s with
        | stat s => ret (if st_symlink s then
            Err (path_error "anchored mutation parent must not be a symlink" root path "symlink_component") else failed)
        | _ => ret failed
        end
      else ret failed
  | Ok _ => ret (Ok tt)
  end.

Fixpoint enter_dirs (names : list string) : M (Result unit) :=
  match names with
  | [] => ret (Ok tt)
  | name :: names => let! _ := enter_dir name in enter_dirs names
  end.

(** The snapshot of the target, or its absence. *)
Definition snapshot_target : M (Result (option Stat)) :=
  let* a := sys open_target in
  match a with
  | errno n =>
      ret (if n =? ENOENT then Ok None
           else Err (errno_error "failed to inspect anchored mutation target" root path n))
  | _ =>
      let! s := fstat stat_target "failed to snapshot anchored mutation target" root path in
      if st_symlink s then
        ret (Err (path_error "anchored mutation target must not be a symlink" root path "symlink_component"))
      else let! _ := require_regular_file stat_target root path in ret (Ok (Some s))
  end.
End Begin.

(** [DirectoryAuthority::begin_file_mutation] of the authority on [root]. *)
Definition begin_file_mutation (root path : string) (create_parents : bool) : M (Result FileMutation) :=
  match validate_anchored_path path with
  | Err e => ret (Err e)
  | Ok _ =>
      match List.rev (path_components path) with
      | [] => ret (Err (Errors.invalid_argument "mutation target must name a file"))
      | name :: parents =>
          let! _ := or_errno open_root "failed to duplicate directory authority" root path in
          let! _ := enter_dirs root path create_parents (List.rev parents) in
          let! s := snapshot_target root path in
          ret (Ok (mkMutation name (root +:+ "/" +:+ path)%string s))
      end
  end.

(** *** Reading the target *)
(** [FileMutation::open_existing]: the fingerprint of the file it opened. *)
Definition open_existing (m : FileMutation) : M (Result Stat) :=
  match m_snapshot m with
  | None => ret (Err (Errors.with_ctx (Errors.not_found "anchored mutation target does not exist") "path" (m_display m)))
  | Some snapshot =>
      let! _ := or_errno open_read "failed to open mutation target for reading" "" (m_display m) in
      let! s := fstat stat_read "failed to validate mutation read target" "" (m_display m) in
      ret (if same_identity snapshot s then Ok s
           else Err (stale_mutation_error "anchored mutation target changed before read" (m_display m)))
  end.

(** *** Writing *)
(** [write_all]: the system takes some of the rest each time; [fuel] is the number of bytes. *)
Fixpoint write_all (w : bytes -> Call) (fuel : nat) (contents : bytes) (path : string) : M (Result unit) :=
  match fuel, contents with
  | _, [] => ret (Ok tt)
  | O, _ => ret (Err (Errors.internal "unreachable"))
  | S fuel, _ =>
      let! a := or_errno (w contents) "failed to write anchored file" "" path in
      match a with
      | num n =>
          if n <=? 0 then ret (Err (Errors.with_ctx (Errors.io "anchored file write made no progress") "path" path))
          else write_all w fuel (drop (Z.to_nat n) contents) path
      | _ => ret (Err (Errors.with_ctx (Errors.io "anchored file write made no progress") "path" path))
      end
  end.

Section Write.
Context (m : FileMutation) (contents : bytes) (o : WriteTextOptions).
Let display := m_display m.

Fixpoint create_sibling_temp (tries attempt : nat) : M (Result unit) :=
  match tries with
  | O => ret (Err (Errors.with_ctx (Errors.with_ctx (Errors.io "failed to allocate anchored temporary file")
           "path" display) "attempts" "32"))
  | S tries =>
      let* a := sys (create_temp attempt) in
      match a with
      | errno n =>
          if n =? EEXIST then create_sibling_temp tries (S attempt)
          else ret (Err (errno_error "failed to create anchored temporary file" "" display n))
      | _ => ret (Ok tt)
      end
  end.

Definition write_and_sync_temp : M (Result unit) :=
  let! _ := write_all write_temp (length contents) contents display in
  if decide (w_durability o = rename_only) then ret (Ok tt)
  else let! _ := or_errno sync_temp "failed to sync anchored temporary file" "" display in ret (Ok tt).

(** [~SiblingTempFile] of a temporary that was not renamed. *)
Definition discard {A} (r : A) : M A := let* _ := sys unlink_temp in ret r.

Definition write_options_error : option Error :=
  let verify := match w_verify o with Some _ => true | None => false end in
  let existed := match m_snapshot m with Some _ => true | None => false end in
  let is_truncate := bool_decide (w_mode o = truncate) in
  if negb is_truncate && w_atomic o then Some (Errors.invalid_argument "atomic writes require truncate mode")
  else if negb (w_atomic o) && negb (bool_decide (w_durability o = rename_only)) then
    Some (Errors.invalid_argument "write durability requires atomic mode")
  else if verify && (negb is_truncate || negb (w_atomic o)) then
    Some (Errors.invalid_argument "commit verification requires atomic truncate mode")
  else if verify && negb existed then
    Some (Errors.invalid_argument "commit verification requires an existing target")
  else None.

Definition write_append_mode : M (Result unit) :=
  let existed := match m_snapshot m with Some _ => true | None => false end in
  let* a := sys (open_append (negb existed)) in
  match a with
  | errno n =>
      ret (Err (if negb existed && (n =? EEXIST)
                then stale_mutation_error "anchored append target appeared before write" display
                else errno_error "failed to open anchored append target" "" display n))
  | _ =>
      let! _ := require_regular_file stat_append "" display in
      match m_snapshot m with
      | None => write_all write_append (length contents) contents display
      | Some snapshot =>
          let! s := fstat stat_append "failed to validate anchored append target" "" display in
          if same_identity snapshot s then write_all write_append (length contents) contents display
          else ret (Err (stale_mutation_error "anchored append target changed before write" display))
      end
  end.

Definition already_exists : Error := Errors.with_ctx (Errors.mk ek_conflict "file already exists") "path" display.

Definition write_exclusive : M (Result unit) :=
  match m_snapshot m with
  | Some _ => ret (Err already_exists)
  | None =>
      let! _ := create_sibling_temp 32 0 in
      let* w := write_and_sync_temp in
      match w with
      | Err e => discard (Err e)
      | Ok _ =>
          let* a := sys link_temp in
          discard (match a with
                   | errno n => Err (if n =? EEXIST then already_exists
                                     else errno_error "failed to commit anchored exclusive create" "" display n)
                   | _ => Ok tt
                   end)
      end
  end.

(** The checks right before the rename: the target is the one of the snapshot and the
    caller accepts its fingerprint, or it is still absent. *)
Definition check_target : M (Result unit) :=
  let* a := sys open_target in
  match m_snapshot m, a with
  | Some _, errno n =>
      ret (Err (if n =? ENOENT then stale_mutation_error "anchored mutation target changed before commit" display
                else errno_error "failed to reopen anchored mutation target" "" display n))
  | Some snapshot, _ =>
      let! current := fstat stat_target "failed to validate anchored mutation target" "" display in
      ret (if negb (same_identity snapshot current) then
             Err (stale_mutation_error "anchored mutation target changed before commit" display)
           else match w_verify o with Some verify => verify (fingerprint_from_stat current) | None => Ok tt end)
  | None, errno n =>
      ret (if n =? ENOENT then Ok tt
           else Err (errno_error "failed to verify absent anchored mutation target" "" display n))
  | None, _ => ret (Err (stale_mutation_error "anchored mutation target appeared before commit" display))
  end.

Definition write_truncate : M (Result unit) :=
  let! _ := create_sibling_temp 32 0 in
  let* w := write_and_sync_temp in
  match w with
  | Err e => discard (Err e)
  | Ok _ =>
      let* c := check_target in
      match c with
      | Err e => discard (Err e)
      | Ok _ =>
          let* a := sys rename_temp in
          match a with
          | errno n => discard (Err (errno_error "failed to commit anchored write" "" display n))
          | _ =>
              if decide (w_durability o = fsync_file_and_parent) then
                let! _ := or_errno sync_parent "failed to sync anchored parent directory" "" display in ret (Ok tt)
              else ret (Ok tt)
          end
      end
  end.

(** [FileMutation::write_text]. *)
Definition write_text : M (Result unit) :=
  match write_options_error with
  | Some e => ret (Err e)
  | None =>
      match w_mode o with
      | append => write_append_mode
      | fail_if_exists => write_exclusive
      | truncate => write_truncate
      end
  end.
End Write.
End System.

(** ** What the calls did *)
Definition succeeded (a : Answer) : bool := match a with errno _ => false | _ => true end.
(** The bytes the system took: of the temporary file, or of an append to the target. *)
Definition taken (p : Call * Answer) : bytes :=
  match p with (write_temp data, num n) | (write_append data, num n) => take (Z.to_nat n) data | _ => [] end.
Definition temp_contents (t : Trace) : bytes := concat (map taken t).
(** The calls that change what the target's name stands for. *)
Definition replaces (p : Call * Answer) : bool :=
  match p with (rename_temp, a) | (link_temp, a) => succeeded a | (write_append _, _) => true | _ => false end.
(** A temporary that was created and neither removed nor renamed stays behind. *)
Definition leftover (t : Trace) : bool :=
  existsb (fun p => match p with (create_temp _, a) => succeeded a | _ => false end) t &&
  negb (existsb (fun p => match p with (unlink_temp, _) => true | (rename_temp, a) => succeeded a | _ => false end) t).
Definition quiet (t : Trace) : Prop := Forall (fun p => replaces p = false) t.

Section Theory.
Context (os : Trace -> Call -> Answer) (describe : Z -> string).

(** A computation that only adds calls with a property. *)
Definition adds {A} (m : M A) (P : A -> Trace -> Prop) : Prop :=
  forall t, exists r ev, m t = (r, t ++ ev) /\ P r ev.

Lemma adds_ret {A} (x : A) (P : A -> Trace -> Prop) : P x [] -> adds (ret x) P.
Proof. intros H t. exists x, []. by rewrite app_nil_r. Qed.

Lemma adds_sys c (P : Answer -> Trace -> Prop) : (forall a, P a [(c, a)]) -> adds (sys os c) P.
Proof. intros H t. eexists _, _. split; [done|]. apply H. Qed.

Lemma adds_bind {A B} (m : M A) (f : A -> M B) (P : A -> Trace -> Prop) (Q : B -> Trace -> Prop) :
  adds m P -> (forall x ev, P x ev -> adds (f x) (fun y ev' => Q y (ev ++ ev'))) -> adds (bind m f) Q.
Proof.
  intros Hm Hf t. destruct (Hm t) as (x & ev & Hx & HP). destruct (Hf x ev HP (t ++ ev)) as (y & ev' & Hy & HQ).
  exists y, (ev ++ ev'). unfold bind. rewrite Hx, Hy. by rewrite app_assoc.
Qed.

Lemma adds_mono {A} (m : M A) (P Q : A -> Trace -> Prop) : (forall x ev, P x ev -> Q x ev) -> adds m P -> adds m Q.
Proof. intros H Hm t. destruct (Hm t) as (x & ev & ? & ?). eauto. Qed.

(** After [let!]: the error case ends, the other goes on. *)
Lemma adds_try {A B} (m : M (Result A)) (f : A -> M (Result B)) (P : Result A -> Trace -> Prop)
    (Q : Result B -> Trace -> Prop) :
  adds m P -> (forall e ev, P (Err e) ev -> Q (Err e) ev) ->
  (forall x ev, P (Ok x) ev -> adds (f x) (fun y ev' => Q y (ev ++ ev'))) ->
  adds (bind m (fun r => match r with Ok x => f x | Err e => ret (Err e) end)) Q.
Proof.
  intros Hm He Hf. eapply adds_bind; [exact Hm|]. intros [x|e] ev HP; [by apply Hf|].
  apply adds_ret. rewrite app_nil_r. by apply He.
Qed.

(** One call of [or_errno]. *)
Lemma or_errno_spec c message root path :
  adds (or_errno os describe c message root path)
    (fun r ev => exists a, ev = [(c, a)] /\ match r with Ok b => b = a /\ succeeded a = true | Err _ => succeeded a = false end).
Proof.
  apply (adds_bind _ _ (fun a ev => ev = [(c, a)])); [by apply adds_sys|]. intros a ev ->. apply adds_ret.
  exists a. split; [done|]. by destruct a.
Qed.

(** The two ways [write_all] is used. *)
Definition writes (w : bytes -> Call) : Prop := w = write_temp \/ w = write_append.

Lemma taken_writes w d n : writes w -> taken (w d, num n) = take (Z.to_nat n) d.
Proof. by intros [-> | ->]. Qed.

Lemma write_all_spec w fuel path : writes w -> forall contents,
  (length contents <= fuel)%nat ->
  adds (write_all os describe w fuel contents path)
    (fun r ev => Forall (fun p => exists d a, p = (w d, a)) ev /\ (r = Ok tt -> temp_contents ev = contents)).
Proof.
  intros Hw. induction fuel as [|fuel IH]; intros contents Hf.
  { destruct contents; [|cbn in Hf; lia]. apply adds_ret. by split; [constructor|]. }
  destruct contents as [|c l]; [apply adds_ret; by split; [constructor|]|]. set (contents := c :: l) in *.
  cbn [write_all]. eapply adds_try; [apply or_errno_spec| |].
  - intros e ev (a & -> & _). split; [|done]. constructor; [by eexists _, _|constructor].
  - intros a ev (b & -> & <- & _).
    assert (Hone : Forall (fun p => exists d a, p = (w d, a)) [(w contents, a)])
      by (constructor; [by eexists _, _|constructor]).
    destruct a as [n|s|n]; [|apply adds_ret; by split..].
    destruct (Z.leb_spec n 0) as [|Hn]; [apply adds_ret; by split|].
    assert (Hle : (length (drop (Z.to_nat n) contents) <= fuel)%nat).
    { rewrite length_drop. subst contents. cbn [length] in *. lia. }
    eapply adds_mono; [|apply (IH _ Hle)]. intros r ev [Hall Hok]. cbn beta. split.
    + by apply Forall_app.
    + intros ->. unfold temp_contents in *. cbn [app map concat]. rewrite Hok by done.
      rewrite (taken_writes w _ _ Hw). apply take_drop.
Qed.

Lemma create_spec m : forall tries attempt,
  adds (create_sibling_temp os describe m tries attempt)
    (fun r ev => Forall (fun p => exists n a, p = (create_temp n, a)) ev /\
       match r with Ok _ => True | Err _ => Forall (fun p => succeeded (snd p) = false) ev end).
Proof.
  induction tries as [|tries IH]; intros attempt; cbn [create_sibling_temp]; [by apply adds_ret|].
  apply (adds_bind _ _ (fun a ev => ev = [(create_temp attempt, a)])); [by apply adds_sys|]. intros a ev ->.
  assert (Hone : Forall (fun p => exists n a, p = (create_temp n, a)) [(create_temp attempt, a)])
    by (constructor; [by eexists _, _|constructor]).
  destruct a as [n|s|n]; [apply adds_ret; by split..|].
  destruct (n =? EEXIST); [|apply adds_ret; split; [done|by repeat constructor]].
  eapply adds_mono; [|apply IH]. intros r ev [Hall He]. split; [by apply Forall_app|]. destruct r; [done|].
  apply Forall_app. split; [by repeat constructor|done].
Qed.

(** Calls that leave the target alone. *)
Lemma quiet_app a b : quiet a -> quiet b -> quiet (a ++ b).
Proof. unfold quiet. intros. by apply Forall_app. Qed.

Lemma leftover_app_unlink ev a : leftover (ev ++ [(unlink_temp, a)]) = false.
Proof. unfold leftover. rewrite !existsb_app. cbn. by rewrite orb_true_r, andb_false_r. Qed.

Lemma temp_contents_app a b : temp_contents (a ++ b) = temp_contents a ++ temp_contents b.
Proof. unfold temp_contents. by rewrite map_app, concat_app. Qed.

Lemma created_quiet ev :
  Forall (fun p => exists n a, p = (create_temp n, a)) ev -> quiet ev /\ temp_contents ev = [].
Proof.
  intros H. split; [eapply Forall_impl; [exact H|]; by intros p (n & a & ->)|].
  induction H as [|p ev (n & a & ->) _ IH]; [done|]. unfold temp_contents in *. by cbn.
Qed.

Lemma not_created_leftover ev :
  Forall (fun p => exists n a, p = (create_temp n, a)) ev -> Forall (fun p => succeeded (snd p) = false) ev ->
  leftover ev = false.
Proof.
  intros Hc Hf. unfold leftover. replace (existsb _ ev) with false; [done|]. symmetry.
  induction Hc as [|p ev (n & a & ->) _ IH]; [done|]. apply Forall_cons in Hf as [Ha Hf]. cbn in *. by rewrite Ha, IH.
Qed.

Section Truncate.
Context (m : FileMutation) (contents : bytes) (o : WriteTextOptions).

Lemma write_and_sync_spec :
  adds (write_and_sync_temp os describe m contents o)
    (fun r ev => quiet ev /\ (r = Ok tt -> temp_contents ev = contents)).
Proof.
  assert (Hq : forall ev, Forall (fun p => exists d a, p = (write_temp d, a)) ev -> quiet ev)
    by (intros ev H; eapply Forall_impl; [exact H|]; by intros p (d & a & ->)).
  eapply adds_try; [apply write_all_spec; [by left|done]| |].
  - intros e ev [Hall _]. split; [by apply Hq|done].
  - intros [] ev [Hall Hok]. specialize (Hok eq_refl). case_decide.
    + apply adds_ret. rewrite app_nil_r. split; [by apply Hq|done].
    + eapply adds_try; [apply or_errno_spec| |].
      * intros e ev' (a & -> & _). split; [|done]. apply quiet_app; [by apply Hq|by repeat constructor].
      * intros a ev' (b & -> & _). apply adds_ret. rewrite app_nil_r.
        split; [apply quiet_app; [by apply Hq|by repeat constructor]|]. intros _.
        rewrite temp_contents_app, Hok. apply app_nil_r.
Qed.

(** [s] is a state of the target that the write may replace. *)
Definition accepted (snapshot s : Stat) : Prop :=
  same_identity snapshot s = true /\
  match w_verify o with Some verify => verify (fingerprint_from_stat s) = Ok tt | None => True end.
(** What was known of the target right before it was replaced. *)
Definition checked (ev : Trace) : Prop :=
  match m_snapshot m with
  | Some snapshot => exists s, (stat_target, stat s) ∈ ev /\ accepted snapshot s
  | None => (open_target, errno ENOENT) ∈ ev
  end.

Definition Checks (r : Result unit) (ev : Trace) : Prop :=
  quiet ev /\ temp_contents ev = [] /\ (r = Ok tt -> checked ev).

Lemma fstat_spec c message root path :
  adds (fstat os describe c message root path)
    (fun r ev => exists a, ev = [(c, a)] /\ match r with Ok s => a = stat s | Err _ => True end).
Proof.
  eapply adds_try; [apply or_errno_spec|intros e ev (b & -> & _); eauto|].
  intros b ev (b' & -> & <- & _). apply adds_ret. exists b. rewrite app_nil_r. split; [done|]. by destruct b.
Qed.

Lemma checked_app a b : checked b -> checked (a ++ b).
Proof.
  unfold checked. destruct (m_snapshot m) as [snapshot|]; [|intros ?; apply elem_of_app; by right].
  intros (s & ? & ?). exists s. split; [apply elem_of_app; by right|done].
Qed.

Lemma check_stat_spec snapshot message :
  m_snapshot m = Some snapshot ->
  adds (bind (fstat os describe stat_target message "" (m_display m)) (fun r =>
     match r with
     | Ok current =>
         ret (if negb (same_identity snapshot current) then
                Err (stale_mutation_error "anchored mutation target changed before commit" (m_display m))
              else match w_verify o with Some verify => verify (fingerprint_from_stat current) | None => Ok tt end)
     | Err e => ret (Err e)
     end)) Checks.
Proof.
  intros Hm. eapply adds_try; [apply fstat_spec| |].
  - intros e ev (a & -> & _). split_and!; [by repeat constructor|done|done].
  - intros s ev (a & -> & ->). apply adds_ret. split_and!; [by repeat constructor|done|].
    destruct (same_identity snapshot s) eqn:Ei; [|done]. cbn [negb]. intros Hv. unfold checked. rewrite Hm. exists s.
    split; [by apply elem_of_cons; left|]. split; [done|]. by destruct (w_verify o).
Qed.

Lemma check_target_spec : adds (check_target os describe m o) Checks.
Proof.
  apply (adds_bind _ _ (fun a ev => ev = [(open_target, a)])); [by apply adds_sys|]. intros a ev ->.
  assert (Hq : quiet [(open_target, a)]) by (by repeat constructor).
  assert (Hend : forall r, (r = Ok tt -> checked [(open_target, a)]) -> Checks r ([(open_target, a)] ++ []))
    by (intros r Hr; split_and!; [done|done|exact Hr]).
  destruct (m_snapshot m) as [snapshot|] eqn:Em; destruct a as [n|s|n]; try (apply adds_ret, Hend; done).
  1,2: eapply adds_mono; [|by apply check_stat_spec]; intros r ev (? & Hc & Hk); split_and!;
    [by apply quiet_app|done|intros Hr; apply checked_app; auto].
  apply adds_ret, Hend. destruct (Z.eqb_spec n ENOENT) as [->|]; [|done]. intros _. unfold checked. rewrite Em.
  by apply elem_of_cons; left.
Qed.

(** Either the target was left alone and the temporary removed, or the complete contents
    replaced it in one rename, after the checks. *)
Definition Atomic (r : Result unit) (ev : Trace) : Prop :=
  (r <> Ok tt /\ quiet ev /\ leftover ev = false) \/
  exists ev1 a ev2, ev = ev1 ++ (rename_temp, a) :: ev2 /\ succeeded a = true /\ quiet ev1 /\ quiet ev2 /\
    temp_contents ev1 = contents /\ checked ev1 /\ (r = Ok tt \/ w_durability o = fsync_file_and_parent).

Lemma discarded {e : Error} ev :
  quiet ev -> adds (discard os (Err e)) (fun r ev' => Atomic r (ev ++ ev')).
Proof.
  intros Hq. apply (adds_bind _ _ (fun a ev => ev = [(unlink_temp, a)])); [by apply adds_sys|]. intros a ev' ->.
  apply adds_ret. left. rewrite app_nil_r. split_and!; [done|apply quiet_app; [done|by repeat constructor]|apply leftover_app_unlink].
Qed.

Lemma rename_spec ev :
  quiet ev -> temp_contents ev = contents -> checked ev ->
  adds (bind (sys os rename_temp) (fun a =>
      match a with
      | errno n => discard os (Err (errno_error describe "failed to commit anchored write" "" (m_display m) n))
      | _ =>
          if decide (w_durability o = fsync_file_and_parent) then
            bind (or_errno os describe sync_parent "failed to sync anchored parent directory" "" (m_display m))
              (fun r => match r with Ok _ => ret (Ok tt) | Err e => ret (Err e) end)
          else ret (Ok tt)
      end)) (fun r ev' => Atomic r (ev ++ ev')).
Proof.
  intros Hq Ht Hc. apply (adds_bind _ _ (fun a ev => ev = [(rename_temp, a)])); [by apply adds_sys|]. intros a ev' ->.
  assert (Hdone : succeeded a = true -> adds
      (if decide (w_durability o = fsync_file_and_parent) then
         bind (or_errno os describe sync_parent "failed to sync anchored parent directory" "" (m_display m))
           (fun r => match r with Ok _ => ret (Ok tt) | Err e => ret (Err e) end)
       else ret (Ok tt)) (fun r ev' => Atomic r (ev ++ [(rename_temp, a)] ++ ev'))).
  { intros Ha. assert (Hat : forall r ev2, quiet ev2 -> (r = Ok tt \/ w_durability o = fsync_file_and_parent) ->
      Atomic r (ev ++ [(rename_temp, a)] ++ ev2)) by (intros r ev2 H2 Hr; right; exists ev, a, ev2; by split_and!).
    case_decide as Hd; [|apply adds_ret, Hat; [constructor|by left]].
    eapply adds_try; [apply or_errno_spec|intros e ev2 (b & -> & _); apply Hat; [by repeat constructor|by right]|].
    intros b ev2 (b' & -> & _). apply adds_ret. rewrite app_nil_r. apply Hat; [by repeat constructor|by left]. }
  destruct a as [n|s|n]; [by apply Hdone..|].
  eapply adds_mono; [|apply (discarded (ev ++ [(rename_temp, errno n)]))].
  - intros r ev2. cbn beta. by rewrite <- app_assoc.
  - apply quiet_app; [done|by repeat constructor].
Qed.

Lemma write_truncate_spec : adds (write_truncate os describe m contents o) Atomic.
Proof.
  eapply adds_try; [apply create_spec| |].
  - intros e ev [Hc Hf]. left. split_and!; [done|by apply created_quiet|by apply not_created_leftover].
  - intros [] ev [Hc _]. apply created_quiet in Hc as [Hq0 Ht0].
    eapply adds_bind; [apply write_and_sync_spec|]. intros w ev1 [Hq1 Ht1]. destruct w as [[]|e].
    + eapply adds_bind; [apply check_target_spec|]. intros c ev2 (Hq2 & Ht2 & Hck).
      assert (Hq : quiet ((ev ++ ev1) ++ ev2)) by (by repeat apply quiet_app).
      destruct c as [[]|e].
      * eapply adds_mono; [|apply (rename_spec ((ev ++ ev1) ++ ev2))]; [|done| |by apply checked_app, Hck].
        -- intros r ev3. cbn beta. by rewrite <- !app_assoc.
        -- by rewrite !temp_contents_app, Ht0, Ht1, Ht2, app_nil_r.
      * eapply adds_mono; [|by apply (discarded ((ev ++ ev1) ++ ev2))]. intros r ev3. cbn beta. by rewrite <- !app_assoc.
    + eapply adds_mono; [|apply (discarded (ev ++ ev1)); by apply quiet_app]. intros r ev3. cbn beta. by rewrite <- !app_assoc.
Qed.

(** *** The other modes *)
(** Nothing happens to a target that is there; otherwise the complete contents get its name. *)
Definition Exclusive (r : Result unit) (ev : Trace) : Prop :=
  leftover ev = false /\
  ((r <> Ok tt /\ quiet ev) \/
   exists ev1 a ev2, ev = ev1 ++ (link_temp, a) :: ev2 /\ succeeded a = true /\ quiet ev1 /\ quiet ev2 /\
     temp_contents ev1 = contents /\ m_snapshot m = None /\ r = Ok tt).

Lemma write_exclusive_spec : adds (write_exclusive os describe m contents o) Exclusive.
Proof.
  unfold write_exclusive. destruct (m_snapshot m) as [snapshot|] eqn:Em.
  { apply adds_ret. split; [done|left]. by split; [|constructor]. }
  eapply adds_try; [apply create_spec| |].
  - intros e ev [Hc Hf]. split; [by apply not_created_leftover|left]. split; [done|by apply created_quiet].
  - intros [] ev [Hc _]. apply created_quiet in Hc as [Hq0 Ht0].
    eapply adds_bind; [apply write_and_sync_spec|]. intros w ev1 [Hq1 Ht1].
    assert (Hq : quiet (ev ++ ev1)) by by apply quiet_app.
    assert (Hun : forall a, quiet [(unlink_temp, a)]) by (intros a; by repeat constructor).
    destruct w as [[]|e].
    + eapply (adds_bind _ _ (fun a ev => ev = [(link_temp, a)])); [by apply adds_sys|]. intros a ev2 ->.
      eapply (adds_bind _ _ (fun b ev => ev = [(unlink_temp, b)])); [by apply adds_sys|]. intros b ev3 ->.
      apply adds_ret. rewrite app_nil_r, !app_assoc. split; [apply leftover_app_unlink|].
      assert (Hok : succeeded a = true -> exists ev1' a' ev2', ((ev ++ ev1) ++ [(link_temp, a)]) ++ [(unlink_temp, b)] =
          ev1' ++ (link_temp, a') :: ev2' /\ succeeded a' = true /\ quiet ev1' /\ quiet ev2' /\
          temp_contents ev1' = contents /\ m_snapshot m = None /\ Ok tt = Ok tt).
      { intros Ha. exists (ev ++ ev1), a, [(unlink_temp, b)]. split_and!; try done; [by rewrite <- app_assoc|].
        by rewrite temp_contents_app, Ht0, Ht1. }
      destruct a as [n|s|n]; [right; by apply Hok..|left]. split; [done|].
      apply quiet_app; [apply quiet_app; [done|by repeat constructor]|done].
    + eapply (adds_bind _ _ (fun b ev => ev = [(unlink_temp, b)])); [by apply adds_sys|]. intros b ev3 ->.
      apply adds_ret. rewrite app_nil_r, app_assoc. split; [apply leftover_app_unlink|left].
      split; [done|]. by apply quiet_app.
Qed.

(** *** Appending *)
Definition append_call (e : Call * Answer) : Prop := exists d a, e = (write_append d, a).
(** The contents go to the end of the file of the snapshot, or of a file that was just created. *)
Definition Appended (r : Result unit) (ev : Trace) : Prop :=
  exists ev0 ev1, ev = ev0 ++ ev1 /\ quiet ev0 /\ Forall append_call ev1 /\
    (r = Ok tt -> temp_contents ev1 = contents) /\
    (r = Ok tt \/ ev1 <> [] ->
      match m_snapshot m with
      | Some snapshot => exists s, (stat_append, stat s) ∈ ev0 /\ same_identity snapshot s = true
      | None => exists a, (open_append true, a) ∈ ev0 /\ succeeded a = true
      end).

Lemma not_appended {e : Error} ev : quiet ev -> Appended (Err e) ev.
Proof. intros Hq. exists ev, []. rewrite app_nil_r. split_and!; [done|done|constructor|done|by intros []]. Qed.

Lemma append_rest ev0 path :
  quiet ev0 ->
  match m_snapshot m with
  | Some snapshot => exists s, (stat_append, stat s) ∈ ev0 /\ same_identity snapshot s = true
  | None => exists a, (open_append true, a) ∈ ev0 /\ succeeded a = true
  end ->
  adds (write_all os describe write_append (length contents) contents path) (fun r ev => Appended r (ev0 ++ ev)).
Proof.
  intros Hq Hs. eapply adds_mono; [|apply write_all_spec; [by right|done]]. intros r ev [Hall Hok].
  exists ev0, ev. split_and!; [done|done|exact Hall|done|done].
Qed.

Lemma write_append_spec : adds (write_append_mode os describe m contents) Appended.
Proof.
  unfold write_append_mode. set (existed := match m_snapshot m with Some _ => true | None => false end).
  apply (adds_bind _ _ (fun a ev => ev = [(open_append (negb existed), a)])); [by apply adds_sys|]. intros a ev ->.
  assert (Hq : quiet [(open_append (negb existed), a)]) by (by repeat constructor).
  destruct (succeeded a) eqn:Ea; [|destruct a as [n|s|n]; try done; apply adds_ret; rewrite app_nil_r; by apply not_appended].
  assert (Hgo : adds (bind (require_regular_file os describe stat_append "" (m_display m)) (fun r =>
      match r with
      | Ok _ =>
          match m_snapshot m with
          | None => write_all os describe write_append (length contents) contents (m_display m)
          | Some snapshot =>
              bind (fstat os describe stat_append "failed to validate anchored append target" "" (m_display m)) (fun r =>
                match r with
                | Ok s => if same_identity snapshot s then write_all os describe write_append (length contents) contents (m_display m)
                          else ret (Err (stale_mutation_error "anchored append target changed before write" (m_display m)))
                | Err e => ret (Err e)
                end)
          end
      | Err e => ret (Err e)
      end)) (fun r ev => Appended r ([(open_append (negb existed), a)] ++ ev))).
  { eapply adds_try with (P := fun _ ev => quiet ev).
    - eapply adds_try; [apply fstat_spec|intros e ev (b & -> & _); by repeat constructor|].
      intros s ev (b & -> & ->). apply adds_ret. by repeat constructor.
    - intros e ev He. by apply not_appended, quiet_app.
    - intros _ ev He. destruct (m_snapshot m) as [snapshot|] eqn:Em.
      + eapply adds_try; [apply fstat_spec|intros e ev2 (b & -> & _); apply not_appended; repeat apply quiet_app; by repeat constructor|].
        intros s ev2 (b & -> & ->). destruct (same_identity snapshot s) eqn:Es.
        * eapply adds_mono; [|apply (append_rest ([(open_append (negb existed), a)] ++ ev ++ [(stat_append, stat s)]))].
          -- intros r ev3. cbn beta. by rewrite <- !app_assoc.
          -- repeat apply quiet_app; by repeat constructor.
          -- rewrite Em. exists s. split; [|done]. rewrite !elem_of_app. right. right. by apply elem_of_cons; left.
        * apply adds_ret, not_appended. rewrite app_nil_r. repeat apply quiet_app; by repeat constructor.
      + eapply adds_mono; [|apply (append_rest ([(open_append (negb existed), a)] ++ ev))].
        * intros r ev3. cbn beta. by rewrite <- !app_assoc.
        * by apply quiet_app.
        * rewrite Em. exists a. split; [|done]. rewrite elem_of_app. left. by apply elem_of_cons; left. }
  destruct a as [n|s|n]; [exact Hgo..|done].
Qed.
End Truncate.
End Theory.

(** ** The theorems *)
(** C6: a truncating write never leaves a partial target, whatever other processes and the system do: either it
    fails, the target is untouched and the temporary file is gone; or one rename put the complete contents in
    place, right after the target was found to be the snapshotted file (same device, inode, size and times, and
    with a fingerprint the caller accepts) or still absent.  It may then only fail to sync the directory. *)
Theorem write_text_atomic os describe (m : FileMutation) (contents : bytes) (o : WriteTextOptions)
    (t t1 : Trace) (r : Result unit) :
  w_mode o = truncate -> write_text os describe m contents o t = (r, t1) ->
  exists ev, t1 = t ++ ev /\ Atomic m contents o r ev.
Proof.
  intros Hm. unfold write_text. destruct (write_options_error m o) as [e|].
  { intros [= <- <-]. exists []. rewrite app_nil_r. split; [done|]. left. by split_and!; [|constructor|]. }
  rewrite Hm. intros Hw. destruct (write_truncate_spec os describe m contents o t) as (r' & ev & Hr & Ha).
  rewrite Hr in Hw. injection Hw as <- <-. eauto.
Qed.

(** an exclusive write never touches a file that is there: it fails without an effect on the target and
    leaves no temporary behind, or gives the complete contents a name that was free. *)
Theorem write_text_exclusive os describe (m : FileMutation) (contents : bytes) (o : WriteTextOptions)
    (t t1 : Trace) (r : Result unit) :
  w_mode o = fail_if_exists -> write_text os describe m contents o t = (r, t1) ->
  exists ev, t1 = t ++ ev /\ Exclusive m contents r ev.
Proof.
  intros Hm. unfold write_text. destruct (write_options_error m o) as [e|].
  { intros [= <- <-]. exists []. rewrite app_nil_r. split; [done|]. split; [done|left]. by split; [|constructor]. }
  rewrite Hm. intros Hw. destruct (write_exclusive_spec os describe m contents o t) as (r' & ev & Hr & Ha).
  rewrite Hr in Hw. injection Hw as <- <-. eauto.
Qed.

(** an append never writes to another file than the one of the snapshot (same device, inode, size and times) or
    one it created itself; when it succeeds the system took exactly the contents, in order. *)
Theorem write_text_append os describe (m : FileMutation) (contents : bytes) (o : WriteTextOptions)
    (t t1 : Trace) (r : Result unit) :
  w_mode o = append -> write_text os describe m contents o t = (r, t1) ->
  exists ev, t1 = t ++ ev /\ Appended m contents r ev.
Proof.
  intros Hm. unfold write_text. destruct (write_options_error m o) as [e|].
  { intros [= <- <-]. exists []. rewrite app_nil_r. split; [done|]. apply not_appended. constructor. }
  rewrite Hm. intros Hw. destruct (write_append_spec os describe m contents t) as (r' & ev & Hr & Ha).
  rewrite Hr in Hw. injection Hw as <- <-. eauto.
Qed.

Module Demo.
Definition before : Stat := mkStat 1 2 3 (4, 5) (6, 7) true false.
Definition obliging (t : Trace) (c : Call) : Answer :=
  match c with
  | write_temp d | write_append d => num (size d)
  | stat_target | stat_read | stat_append => stat before
  | _ => num 3
  end.
Definition describe (n : Z) : string := "error".
Definition mutation : FileMutation := mkMutation "notes.txt" "/work/notes.txt" (Some before).
Definition replace : WriteTextOptions := mkWriteOptions truncate false true rename_only None.
Definition create : WriteTextOptions := mkWriteOptions fail_if_exists false false rename_only None.

Lemma write_text_atomic_witness :
  exists ev, snd (write_text obliging describe mutation (lit "new") replace []) = [] ++ ev /\
    Atomic mutation (lit "new") replace (Ok tt) ev.
Proof.
  apply (write_text_atomic obliging describe mutation (lit "new") replace [] _ (Ok tt)); vm_compute; reflexivity.
Defined.

Lemma write_text_exclusive_witness :
  exists ev, snd (write_text obliging describe (mkMutation "n" "/n" None) (lit "new") create []) = [] ++ ev /\
    Exclusive (mkMutation "n" "/n" None) (lit "new") (Ok tt) ev.
Proof.
  apply (write_text_exclusive obliging describe (mkMutation "n" "/n" None) (lit "new") create [] _ (Ok tt));
    vm_compute; reflexivity.
Defined.

Definition append_options : WriteTextOptions := mkWriteOptions append false false rename_only None.
Lemma write_text_append_witness :
  exists ev, snd (write_text obliging describe mutation (lit "new") append_options []) = [] ++ ev /\
    Appended mutation (lit "new") (Ok tt) ev.
Proof.
  apply (write_text_append obliging describe mutation (lit "new") append_options [] _ (Ok tt)); vm_compute; reflexivity.
Defined.
End Demo.
