(* ===== verification/Anchored.v ===== *)
(** * oran-io: opening files beneath a directory

    Models the rest of [src/oran-io/directory_authority.cpp] ([ReadOnlyFile::open_trusted],
    [DirectoryAuthority::open_trusted], [open_file], [refers_to_path] and the two ways to
    resolve an anchored path) and [compute_file_fingerprint] of a descriptor, in the monad
    of [Mutation.v].  The calls that resolve an anchored path carry their descriptors and
    flags; a file that was opened is its descriptor and display path. Closing a descriptor
    is not a call of the model. *)
From S2P Require Import Prelude Core Paths FileText Mutation.
#[local] Open Scope Z_scope.

Inductive AnchoredSymlinkPolicy := allow_beneath | reject_all.
#[global] Instance symlink_policy_eq_dec : EqDecision AnchoredSymlinkPolicy. Proof. solve_decision. Defined.
Record AnchoredPath := mkAnchored { a_relative_path : string; a_symlink_policy : AnchoredSymlinkPolicy }.

Definition ENOSYS : Z := 38.
Definition EAGAIN : Z := 11.
Definition kResolutionRaceRetries : nat := 3.

(** The masks of [fcntl.h] and [linux/openat2.h] on Linux. *)
Definition O_RDONLY : Z := 0x0.
Definition O_NOCTTY : Z := 0x100.
Definition O_NONBLOCK : Z := 0x800.
Definition O_DIRECTORY : Z := 0x10000.
Definition O_NOFOLLOW : Z := 0x20000.
Definition O_CLOEXEC : Z := 0x80000.
Definition O_PATH : Z := 0x200000.
Definition RESOLVE_NO_MAGICLINKS : Z := 0x2.
Definition RESOLVE_NO_SYMLINKS : Z := 0x4.
Definition RESOLVE_BENEATH : Z := 0x8.
#[local] Notation "x .| y" := (Z.lor x y) (at level 50, left associativity) : Z_scope.
(** The mask carries the flag. *)
Definition carries_flag (mask flag : Z) : Prop := Z.land mask flag = flag.
Definition invalid_text (s : string) : bool := bool_decide (s = ""%string) || bool_decide (Ascii.zero ∈ lit s).

Section System.
Context (os : Trace -> Call -> Answer) (describe : Z -> string).
Let or_errno := or_errno os describe.
Let fstat := fstat os describe.

(** ** Trusted paths *)
(** [ReadOnlyFile::open_trusted]. *)
Definition open_trusted_file (path : string) : M (Result string) :=
  if invalid_text path then
    ret (Err (Errors.invalid_argument "file path must be non-empty and contain no NUL"))
  else
    let* a := sys os (open_path path) in
    match a with
    | errno n =>
        ret (Err (if n =? ENOTDIR then Errors.with_ctx (Errors.not_found "file path does not exist") "path" path
                  else errno_error describe "failed to open file for reading" "" path n))
    | _ => let! _ := require_regular_file os describe stat_path "" path in ret (Ok path)
    end.

(** [DirectoryAuthority::open_trusted]: the authority is its root's spelling. *)
Definition open_trusted_root (root : string) : M (Result string) :=
  if bool_decide (root = ""%string) then
    ret (Err (Errors.invalid_argument "directory authority root must not be empty"))
  else if bool_decide (Ascii.zero ∈ lit root) then
    ret (Err (Errors.invalid_argument "directory authority root must not contain NUL"))
  else let! _ := or_errno (open_root_path root) "failed to open directory authority" root "." in ret (Ok root).

(** A call that opens: a descriptor, or [errno]. *)
Definition or_fd (c : Call) (message root path : string) : M (Result Z) :=
  let! a := or_errno c message root path in
  ret (match a with num fd => Ok fd | _ => Err (errno_error describe message root path 0) end).

(** ** Resolution beneath an authority *)
(** The authority is the descriptor of its directory and the directory's spelling. *)
Section Beneath.
Context (root_fd : Z) (root : string) (p : AnchoredPath) (final_flags : Z).
Let path := a_relative_path p.

(** One component at a time, never through a symbolic link. *)
Fixpoint fallback_dirs (current : Z) (names : list string) : M (Result Z) :=
  match names with
  | [] => ret (Ok current)
  | name :: names =>
      let flags := O_PATH .| O_DIRECTORY .| O_NOFOLLOW .| O_CLOEXEC in
      let! next := or_fd (openat current name flags) "failed to resolve anchored directory" root path in
      fallback_dirs next names
  end.

Definition openat_fallback : M (Result Z) :=
  let! current := or_fd (dup_fd root_fd) "failed to duplicate directory authority" root path in
  match List.rev (path_components path) with
  | [] => or_fd (openat current "." (final_flags .| O_NOFOLLOW)) "failed to open anchored path" root path
  | name :: parents =>
      let! current := fallback_dirs current (List.rev parents) in
      or_fd (openat current name (final_flags .| O_NOFOLLOW)) "failed to open anchored path" root path
  end.

Definition resolve_how : Z :=
  let resolve := RESOLVE_BENEATH .| RESOLVE_NO_MAGICLINKS in
  if bool_decide (a_symlink_policy p = reject_all) then resolve .| RESOLVE_NO_SYMLINKS else resolve.

(** The loop of [openat2_beneath]; [tries] attempts are left. *)
Fixpoint openat2_beneath (tries : nat) : M (Result Z) :=
  match tries with
  | O => ret (Err (Errors.internal "unreachable anchored path retry state"))
  | S tries =>
      let* a := sys os (openat2 root_fd path final_flags resolve_how) in
      match a with
      | num fd => ret (Ok fd)
      | errno n =>
          if n =? ENOSYS then openat_fallback
          else if negb (n =? EAGAIN) || (tries =? 0)%nat then
            ret (Err (errno_error describe "failed to open anchored path" root path n))
          else openat2_beneath tries
      | stat _ => ret (Err (errno_error describe "failed to open anchored path" root path 0))
      end
  end.

(** [open_beneath], where the system may have [openat2]. *)
Definition open_beneath : M (Result Z) :=
  match validate_anchored_path path with
  | Err e => ret (Err e)
  | Ok _ => openat2_beneath kResolutionRaceRetries
  end.
End Beneath.

(** [DirectoryAuthority::open_file]: the descriptor and its display path. *)
Definition open_file (root_fd : Z) (root : string) (p : AnchoredPath) : M (Result (Z * string)) :=
  let! opened := open_beneath root_fd root p (O_RDONLY .| O_NONBLOCK .| O_CLOEXEC .| O_NOCTTY) in
  let! _ := require_regular_file os describe (fstat_fd opened) root (a_relative_path p) in
  ret (Ok (opened, (root +:+ "/" +:+ a_relative_path p)%string)).

(** [DirectoryAuthority::refers_to_path]. *)
Definition refers_to_path (root path : string) : M (Result bool) :=
  if invalid_text path then ret (Err (Errors.invalid_argument "directory comparison path is invalid"))
  else
    let! authority := fstat stat_root "failed to inspect directory authority" root "." in
    let* a := sys os (stat_link_path path) in
    ret (match a with
         | stat s => Ok ((st_dev authority =? st_dev s) && (st_ino authority =? st_ino s))
         | num _ => Err (errno_error describe "failed to inspect directory comparison path" path "." 0)
         | errno n =>
             if (n =? ENOENT) || (n =? ENOTDIR) then Ok false
             else Err (errno_error describe "failed to inspect directory comparison path" path "." n)
         end).

(** [compute_file_fingerprint] of a descriptor; [c] is its [fstat]. *)
Definition compute_file_fingerprint (c : Call) (display : string) : M (Result FileFingerprint) :=
  let* a := sys os c in
  let failed n := Errors.with_ctx (Errors.with_ctx (Errors.with_ctx
    (Errors.io "failed to inspect file descriptor for fingerprint") "path" display) "errno" (pretty n))
    "detail" (describe n) in
  ret (match a with
       | errno n => Err (failed n)
       | num _ => Err (failed 0)
       | stat s =>
           if st_regular s then Ok (fingerprint_from_stat s)
           else Err (Errors.with_ctx (Errors.io "fingerprint target is not a regular file") "path" display)
       end).
End System.

(** ** Where the calls go *)
(** A computation whose calls all have a property. *)
Definition does {A} (P : Call * Answer -> Prop) (m : M A) : Prop := adds m (fun _ ev => Forall P ev).

Section Does.
Context (P : Call * Answer -> Prop).

Lemma does_ret {A} (x : A) : does P (ret x).
Proof. by apply adds_ret. Qed.

Lemma does_sys os c : (forall a, P (c, a)) -> does P (sys os c).
Proof. intros H. apply adds_sys. intros a. by repeat constructor. Qed.

Lemma does_bind {A B} (m : M A) (f : A -> M B) : does P m -> (forall x, does P (f x)) -> does P (bind m f).
Proof.
  intros Hm Hf. eapply adds_bind; [exact Hm|]. intros x ev He. eapply adds_mono; [|apply Hf].
  intros y ev'. cbn beta. intros. by apply Forall_app.
Qed.

Lemma does_try {A B} (m : M (Result A)) (f : A -> M (Result B)) :
  does P m -> (forall x, does P (f x)) -> does P (bind m (fun r => match r with Ok x => f x | Err e => ret (Err e) end)).
Proof. intros Hm Hf. apply does_bind; [done|]. intros [x|e]; [done|apply does_ret]. Qed.

Lemma does_or_errno os describe c message root path :
  (forall a, P (c, a)) -> does P (or_errno os describe c message root path).
Proof. intros H. apply does_bind; [by apply does_sys|]. intros. apply does_ret. Qed.

Lemma does_fstat os describe c message root path :
  (forall a, P (c, a)) -> does P (fstat os describe c message root path).
Proof. intros H. apply does_try; [by apply does_or_errno|]. intros. apply does_ret. Qed.

Lemma does_regular os describe c root path :
  (forall a, P (c, a)) -> does P (require_regular_file os describe c root path).
Proof. intros H. apply does_try; [by apply does_fstat|]. intros. apply does_ret. Qed.
End Does.
#[export] Hint Resolve does_ret does_sys does_or_errno does_fstat does_regular does_bind does_try : oran.

(** A name that stands for one step down: no separator, not the parent. *)
Definition plain (name : string) : Prop := slash_free name = true /\ name <> ".."%string.
Definition component (name : string) : Prop := plain name /\ name <> ""%string /\ name <> "."%string.

Lemma path_components_plain path :
  validate_anchored_path path = Ok tt ->
  is_absolute path = false /\ (".."%string ∉ elements (path_of path)) /\ Forall component (path_components path).
Proof.
  unfold validate_anchored_path. case_bool_decide; [done|]. case_bool_decide; [done|].
  destruct (is_absolute path) eqn:Ea; [done|]. case_bool_decide as Hd; [done|]. intros _. split_and!; [done..|].
  apply Forall_forall. intros x Hx%list_elem_of_In%filter_In. destruct Hx as [Hx Hn].
  apply andb_true_iff in Hn as [H1%negb_true_iff%bool_decide_eq_false H2%negb_true_iff%bool_decide_eq_false].
  split_and!; [split|done|done].
  - pose proof (names_wf_free _ (path_of_wf path)) as Hw. rewrite Forall_forall in Hw. apply Hw.
    apply list_elem_of_In in Hx. unfold elements in Hx. cbn [path_of p_root] in Hx. by rewrite Ea in Hx.
  - intros ->. by apply Hd, list_elem_of_In.
Qed.

Lemma rev_components path name parents :
  validate_anchored_path path = Ok tt -> List.rev (path_components path) = name :: parents ->
  component name /\ Forall component (List.rev parents).
Proof.
  intros Hv Hr. apply path_components_plain in Hv as (_ & _ & Hc).
  apply (f_equal (@List.rev string)) in Hr. rewrite List.rev_involutive in Hr. rewrite Hr in Hc. cbn in Hc.
  apply Forall_app in Hc as [? Hn]. by inversion Hn.
Qed.

(** ** Runs judged with what came before *)
(** Every event of [ev] is allowed after the events before it and [h]. *)
Fixpoint sound (may : Trace -> Call -> Prop) (h ev : Trace) : Prop :=
  match ev with
  | [] => True
  | e :: ev => may h e.1 /\ sound may (h ++ [e]) ev
  end.

Lemma sound_app may h ev ev' : sound may h (ev ++ ev') <-> sound may h ev /\ sound may (h ++ ev) ev'.
Proof.
  revert h. induction ev as [|e ev IH]; intros h; cbn; [rewrite app_nil_r; tauto|].
  rewrite IH, <- app_assoc. cbn. tauto.
Qed.

Lemma sound_at may ev before c a after :
  sound may [] ev -> ev = before ++ (c, a) :: after -> may before c.
Proof. intros Hs ->. apply sound_app in Hs as [_ Hs]. apply Hs. Qed.

(** Run after the operation's own calls [h], the computation makes allowed calls only
    and ends with a result and a history related by [Q]. *)
Definition continues {A} (may : Trace -> Call -> Prop) (h : Trace) (m : M A) (Q : A -> Trace -> Prop) : Prop :=
  adds m (fun x ev => sound may h ev /\ Q x (h ++ ev)).

Section Continues.
Context (may : Trace -> Call -> Prop) (os : Trace -> Call -> Answer) (describe : Z -> string).

Lemma continues_ret {A} h (x : A) (Q : A -> Trace -> Prop) : Q x h -> continues may h (ret x) Q.
Proof. intros HQ. apply adds_ret. by rewrite app_nil_r. Qed.

Lemma continues_sys h c (Q : Answer -> Trace -> Prop) :
  may h c -> (forall a, Q a (h ++ [(c, a)])) -> continues may h (sys os c) Q.
Proof. intros Hc HQ. apply adds_sys. intros a. split; [by split|done]. Qed.

Lemma continues_bind {A B} h (m : M A) (f : A -> M B) R (Q : B -> Trace -> Prop) :
  continues may h m R -> (forall x h', R x h' -> continues may h' (f x) Q) -> continues may h (bind m f) Q.
Proof.
  intros Hm Hf. eapply adds_bind; [exact Hm|]. intros x ev [Hs HR]. cbn beta in *.
  eapply adds_mono; [|by apply Hf]. intros y ev' [Hs' HQ]. cbn beta in *.
  by rewrite sound_app, app_assoc.
Qed.

Lemma continues_try {A B} h (m : M (Result A)) (f : A -> M (Result B)) R (Q : Result B -> Trace -> Prop) :
  continues may h m R -> (forall e h', R (Err e) h' -> Q (Err e) h') ->
  (forall x h', R (Ok x) h' -> continues may h' (f x) Q) ->
  continues may h (bind m (fun r => match r with Ok x => f x | Err e => ret (Err e) end)) Q.
Proof.
  intros Hm He Hf. eapply continues_bind; [exact Hm|]. intros [x|e] h' HR; [by apply Hf|].
  apply continues_ret. by apply He.
Qed.

(** A call that opens, a call that inspects. *)
Lemma continues_fd h c message root path (Q : Result Z -> Trace -> Prop) :
  may h c -> (forall e h', Q (Err e) h') -> (forall fd, Q (Ok fd) (h ++ [(c, num fd)])) ->
  continues may h (or_fd os describe c message root path) Q.
Proof.
  intros Hc He HQ. eapply continues_try with (R := fun r h' => forall a, r = Ok a -> h' = h ++ [(c, a)]).
  - eapply continues_bind; [apply (continues_sys _ _ (fun a h' => h' = h ++ [(c, a)])); [done|done]|].
    intros a h' ->. apply continues_ret. intros a'. destruct a; by intros [= <-].
  - intros e h' _. apply He.
  - intros a h' Ha. apply continues_ret. rewrite (Ha a eq_refl). destruct a; [apply HQ|apply He..].
Qed.

Lemma continues_regular h c root path (Q : Result unit -> Trace -> Prop) :
  may h c -> (forall e h', Q (Err e) h') ->
  (forall s, st_regular s = true -> Q (Ok tt) (h ++ [(c, stat s)])) ->
  continues may h (require_regular_file os describe c root path) Q.
Proof.
  intros Hc He HQ. eapply continues_try with (R := fun r h' => forall s, r = Ok s -> h' = h ++ [(c, stat s)]).
  - eapply continues_try with (R := fun r h' => forall a, r = Ok a -> h' = h ++ [(c, a)]); [|done|].
    + eapply continues_bind; [apply (continues_sys _ _ (fun a h' => h' = h ++ [(c, a)])); [done|done]|].
      intros a h' ->. apply continues_ret. intros a'. destruct a; by intros [= <-].
    + intros a h' Ha. apply continues_ret. intros s. destruct a; try done. intros [= <-]. by apply Ha.
  - intros e h' _. apply He.
  - intros s h' Hs. apply continues_ret. rewrite (Hs s eq_refl).
    destruct (st_regular s) eqn:Er; [by apply HQ|apply He].
Qed.
End Continues.

(** ** The calls of a read *)
Section Beneath_spec.
Context (root_fd : Z) (p : AnchoredPath).
Let path := a_relative_path p.

(** What [openat2] is asked to enforce. *)
Definition beneath (resolve : Z) : Prop :=
  carries_flag resolve RESOLVE_BENEATH /\ carries_flag resolve RESOLVE_NO_MAGICLINKS /\
  (a_symlink_policy p = reject_all -> carries_flag resolve RESOLVE_NO_SYMLINKS).

(** The descriptor was reached from the authority's own by opening these names one
    after the other, none of them through a symbolic link. *)
Inductive walked : Trace -> Z -> list string -> Prop :=
  | walked_root h fd : walked (h ++ [(dup_fd root_fd, num fd)]) fd []
  | walked_step h dirfd names name flags fd :
      walked h dirfd names -> component name -> carries_flag flags O_NOFOLLOW ->
      walked (h ++ [(openat dirfd name flags, num fd)]) fd (names ++ [name]).

(** The last call opened the anchored path itself. *)
Definition opened (h : Trace) (fd : Z) : Prop :=
  (exists h0 flags resolve, h = h0 ++ [(openat2 root_fd path flags resolve, num fd)] /\ beneath resolve) \/
  walked h fd (path_components path) \/
  (path_components path = [] /\ exists h0 dirfd flags,
     h = h0 ++ [(openat dirfd "." flags, num fd)] /\ walked h0 dirfd [] /\ carries_flag flags O_NOFOLLOW).

(** A call the read may make after its calls [h]. *)
Definition reads_beneath (h : Trace) (c : Call) : Prop :=
  match c with
  | openat2 dirfd q _ resolve =>
      dirfd = root_fd /\ q = path /\ is_absolute q = false /\ (".."%string ∉ elements (path_of q)) /\ beneath resolve
  | dup_fd fd => fd = root_fd
  | openat dirfd name flags =>
      carries_flag flags O_NOFOLLOW /\
      exists names, walked h dirfd names /\
        ((exists rest, path_components path = names ++ name :: rest) \/ (path_components path = [] /\ name = "."%string))
  | fstat_fd fd => opened h fd
  | _ => False
  end.
End Beneath_spec.

Section Open.
Context (os : Trace -> Call -> Answer) (describe : Z -> string) (root_fd : Z) (root : string) (p : AnchoredPath).
Let path := a_relative_path p.
Hypothesis Hvalid : validate_anchored_path path = Ok tt.

Lemma nofollow flags : carries_flag (Z.lor flags O_NOFOLLOW) O_NOFOLLOW.
Proof.
  unfold carries_flag. apply Z.bits_inj'. intros n _. rewrite Z.land_spec, Z.lor_spec.
  by destruct (Z.testbit flags n), (Z.testbit O_NOFOLLOW n).
Qed.

Lemma resolve_how_beneath : beneath p (resolve_how p).
Proof.
  unfold beneath, resolve_how. case_bool_decide as Hp; split_and!; try reflexivity. done.
Qed.

Lemma fallback_dirs_continues done_ names rest h fd :
  path_components path = done_ ++ names ++ rest -> walked root_fd h fd done_ ->
  continues (reads_beneath root_fd p) h (fallback_dirs os describe root p fd names)
    (fun r h' => forall fd', r = Ok fd' -> walked root_fd h' fd' (done_ ++ names)).
Proof.
  revert done_ h fd. induction names as [|name names IH]; intros done_ h fd Hc Hw; cbn [fallback_dirs].
  { apply continues_ret. rewrite app_nil_r. by intros fd' [= <-]. }
  assert (Hn : component name).
  { pose proof (path_components_plain _ Hvalid) as (_ & _ & Hall). fold path in Hall. rewrite Hc in Hall.
    apply Forall_app in Hall as [_ Hall]. by inversion Hall. }
  eapply continues_try with (R := fun r h' => forall fd', r = Ok fd' -> walked root_fd h' fd' (done_ ++ [name])); [|done|].
  - apply continues_fd; [|done|].
    + cbn. split; [reflexivity|]. exists done_. split; [done|]. left. by exists (names ++ rest).
    + intros fd' fd'' [= <-]. by constructor.
  - intros fd' h' Hw'. specialize (IH (done_ ++ [name]) h' fd'). rewrite <- !app_assoc in IH. by apply IH; [|apply Hw'].
Qed.

Lemma openat_fallback_continues final_flags h :
  continues (reads_beneath root_fd p) h (openat_fallback os describe root_fd root p final_flags)
    (fun r h' => forall fd, r = Ok fd -> opened root_fd p h' fd).
Proof.
  unfold openat_fallback.
  eapply continues_try with (R := fun r h' => forall fd, r = Ok fd -> walked root_fd h' fd []); [|done|].
  { apply continues_fd; [done|done|]. intros fd fd' [= <-]. constructor. }
  intros fd h' Hw. specialize (Hw fd eq_refl). fold path.
  destruct (List.rev (path_components path)) as [|name parents] eqn:Er.
  - apply (f_equal (@List.rev string)) in Er. rewrite List.rev_involutive in Er. cbn [List.rev] in Er.
    apply continues_fd; [|done|].
    + cbn. split; [apply nofollow|]. exists []. split; [done|]. by right.
    + intros fd' fd'' [= <-]. right; right. split; [done|]. exists h', fd, (Z.lor final_flags O_NOFOLLOW).
      split_and!; [done|done|apply nofollow].
  - apply rev_components in Er as Hn; [|done]. destruct Hn as [Hn _].
    apply (f_equal (@List.rev string)) in Er. rewrite List.rev_involutive in Er. cbn [List.rev] in Er.
    eapply continues_try; [by apply (fallback_dirs_continues [] (List.rev parents) [name])|done|].
    intros fd' h'' Hw'. specialize (Hw' fd' eq_refl). cbn in Hw'. apply continues_fd; [|done|].
    + cbn. split; [apply nofollow|]. exists (List.rev parents). split; [done|]. left. by exists [].
    + intros fd'' fd3 [= <-]. right; left. fold path. rewrite Er. constructor; [done|done|apply nofollow].
Qed.

Lemma openat2_beneath_continues final_flags tries h :
  continues (reads_beneath root_fd p) h (openat2_beneath os describe root_fd root p final_flags tries)
    (fun r h' => forall fd, r = Ok fd -> opened root_fd p h' fd).
Proof.
  pose proof (path_components_plain _ Hvalid) as (Ha & Hd & _). revert h.
  induction tries as [|tries IH]; intros h; cbn [openat2_beneath]; [by apply continues_ret|].
  eapply continues_bind.
  - apply (continues_sys _ _ _ _ (fun a h' => h' = h ++ [(openat2 root_fd path final_flags (resolve_how p), a)])); [|done].
    cbn. split_and!; [done..|apply resolve_how_beneath].
  - intros [n|s|n] h' ->; [| by apply continues_ret|].
    + apply continues_ret. intros fd [= <-]. left. do 3 eexists. split; [done|]. apply resolve_how_beneath.
    + destruct (n =? ENOSYS); [apply openat_fallback_continues|].
      destruct (negb _ || _); [by apply continues_ret|apply IH].
Qed.
End Open.

Lemma open_file_continues os describe root_fd root (p : AnchoredPath) :
  continues (reads_beneath root_fd p) [] (open_file os describe root_fd root p)
    (fun r ev => forall fd display, r = Ok (fd, display) ->
      display = (root +:+ "/" +:+ a_relative_path p)%string /\
      exists before s, ev = before ++ [(fstat_fd fd, stat s)] /\ opened root_fd p before fd /\ st_regular s = true).
Proof.
  unfold open_file, open_beneath.
  eapply continues_try with (R := fun r h => forall fd, r = Ok fd -> opened root_fd p h fd); [|done|].
  { destruct (validate_anchored_path (a_relative_path p)) as [[]|e] eqn:Hv; [|by apply continues_ret].
    by apply openat2_beneath_continues. }
  intros fd h Hfd. specialize (Hfd fd eq_refl).
  eapply continues_try with (R := fun r h' => r = Ok tt ->
    exists s, h' = h ++ [(fstat_fd fd, stat s)] /\ st_regular s = true); [|done|].
  - apply continues_regular; [done|done|]. intros s Hs _. by exists s.
  - intros [] h' Hs. destruct (Hs eq_refl) as (s & -> & Hreg). apply continues_ret.
    intros fd' display [= <- <-]. split; [done|]. by exists h, s.
Qed.

(** The calls that begin a mutation: one component at a time, and directories are only
    made when asked. *)
Definition begins_beneath (create_parents : bool) (e : Call * Answer) : Prop :=
  match e.1 with
  | open_root | open_target | stat_target => True
  | open_dir name | stat_link name => component name
  | make_dir name => component name /\ create_parents = true
  | _ => False
  end.

Section Begin.
Context (os : Trace -> Call -> Answer) (describe : Z -> string) (root path : string) (create_parents : bool).

Lemma enter_dir_does name : component name -> does (begins_beneath create_parents) (enter_dir os describe root path create_parents name).
Proof.
  intros Hn. unfold enter_dir. apply does_bind; [by apply does_sys|]. intros a. apply does_bind.
  - destruct a as [n|s|n]; [apply does_ret..|]. destruct ((n =? ENOENT) && create_parents) eqn:E; [|apply does_ret].
    apply andb_true_iff in E as [_ Hc]. apply does_bind; [by apply does_sys|].
    intros [k|s|k]; [|  |destruct (k =? EEXIST); [|apply does_ret]];
      (apply does_bind; [by apply does_sys|intros; apply does_ret]).
  - intros [[n|s|n]|e]; [apply does_ret..| |apply does_ret]. destruct (_ || _); [|apply does_ret].
    apply does_bind; [by apply does_sys|]. intros [?|s|?]; apply does_ret.
Qed.

Lemma enter_dirs_does names :
  Forall component names -> does (begins_beneath create_parents) (enter_dirs os describe root path create_parents names).
Proof.
  induction 1 as [|n names Hn]; cbn [enter_dirs]; [apply does_ret|]. apply does_try; [by apply enter_dir_does|done].
Qed.

Lemma snapshot_does : does (begins_beneath create_parents) (snapshot_target os describe root path).
Proof.
  unfold snapshot_target. apply does_bind; [by apply does_sys|]. intros [n|s|n]; [..|apply does_ret].
  all: apply does_try; [by apply does_fstat|]; intros s'; destruct (st_symlink s'); [apply does_ret|];
    apply does_try; [by apply does_regular|]; intros; apply does_ret.
Qed.
End Begin.

(** ** Theorems *)
(** C5: opening a file for reading never leaves the authority's directory, whatever the system answers. Every call it
    makes is one of these: an [openat2] on the authority's descriptor of the relative path, which has no [..], that asks
    for RESOLVE_BENEATH and RESOLVE_NO_MAGICLINKS (and RESOLVE_NO_SYMLINKS when the policy rejects links); a duplicate of
    the authority's descriptor; an opening with O_NOFOLLOW of exactly the next component of the path on a descriptor that
    was walked to from the duplicate through exactly the components before it; an inspection of the descriptor that
    opened the path. The descriptor handed out is the one so opened, and it was found to be a regular file. *)
Theorem open_file_confined os describe (root_fd : Z) (root : string) (p : AnchoredPath) (t t1 : Trace)
    (r : Result (Z * string)) :
  open_file os describe root_fd root p t = (r, t1) ->
  exists ev, t1 = t ++ ev /\
    (forall before c a after, ev = before ++ (c, a) :: after -> reads_beneath root_fd p before c) /\
    (forall fd display, r = Ok (fd, display) ->
      display = (root +:+ "/" +:+ a_relative_path p)%string /\
      exists before s, ev = before ++ [(fstat_fd fd, stat s)] /\ opened root_fd p before fd /\ st_regular s = true).
Proof.
  intros Hr. destruct (open_file_continues os describe root_fd root p t) as (r' & ev & Hm & Hs & HQ).
  rewrite Hr in Hm. injection Hm as <- ->. exists ev. split_and!; [done| |done].
  intros before c a after. by apply sound_at.
Qed.

(** a mutation begins without touching a file and without leaving the authority's directory: every call is on a single
    name that is neither [.] nor [..], a directory is made only when the caller asked for parents, and the name
    the mutation will write is again a single name. *)
Theorem begin_mutation_beneath os describe (root path : string) (create_parents : bool) (t t1 : Trace)
    (r : Result FileMutation) :
  begin_file_mutation os describe root path create_parents t = (r, t1) ->
  exists ev, t1 = t ++ ev /\ Forall (begins_beneath create_parents) ev /\
    (forall m, r = Ok m -> component (m_name m)).
Proof.
  intros Hr. assert (H : adds (begin_file_mutation os describe root path create_parents) (fun r ev =>
    Forall (begins_beneath create_parents) ev /\ (forall m, r = Ok m -> component (m_name m)))).
  { unfold begin_file_mutation. destruct (validate_anchored_path path) as [[]|e] eqn:Hv; [|by apply adds_ret].
    destruct (List.rev (path_components path)) as [|name parents] eqn:Er; [by apply adds_ret|].
    apply rev_components in Er as [Hn Hp]; [|done].
    eapply adds_try; [by apply (does_or_errno (begins_beneath create_parents))|by intros e ev He|]. intros a ev He.
    eapply adds_try; [by apply enter_dirs_does|intros e ev' He'; split; [by apply Forall_app|done]|]. intros u ev' He'.
    cbn beta in He, He'.
    eapply adds_try; [by apply snapshot_does|intros e ev2 He2; split; [cbn beta in He2; rewrite !Forall_app; by split_and!|done]|].
    intros s ev2 He2. cbn beta in He2. apply adds_ret. rewrite app_nil_r. split.
    - rewrite !Forall_app. by split_and!.
    - by intros m [= <-]. }
  destruct (H t) as (r' & ev & Hm & HP). rewrite Hr in Hm. injection Hm as <- ->. eauto.
Qed.

Module Demo.
Definition regular : Stat := mkStat 1 2 3 (4, 5) (6, 7) true false.
(** A system without [openat2]. *)
Definition old_system (t : Trace) (c : Call) : Answer :=
  match c with
  | openat2 _ _ _ _ => errno ENOSYS
  | fstat_fd _ | stat_target => stat regular
  | openat fd _ _ | dup_fd fd => num (fd + 1)
  | _ => num 3
  end.
(** One whose [openat2] is raced once. *)
Definition raced_system (t : Trace) (c : Call) : Answer :=
  match c with
  | openat2 _ _ _ _ => if bool_decide (t = []) then errno EAGAIN else num 9
  | _ => old_system t c
  end.
Definition describe (n : Z) : string := "error".
Definition notes : AnchoredPath := mkAnchored "docs/notes.txt" allow_beneath.

Example raced_run : open_file raced_system describe 3 "/work" notes [] =
  (Ok (9, "/work/docs/notes.txt"%string),
   [(openat2 3 "docs/notes.txt" 0x80900 0xA, errno EAGAIN); (openat2 3 "docs/notes.txt" 0x80900 0xA, num 9);
    (fstat_fd 9, stat regular)]).
Proof. vm_compute. reflexivity. Qed.

Lemma open_file_confined_witness :
  let run := open_file old_system describe 3 "/work" notes [] in
  exists ev, run.2 = [] ++ ev /\
    (forall before c a after, ev = before ++ (c, a) :: after -> reads_beneath 3 notes before c) /\
    (forall fd display, run.1 = Ok (fd, display) ->
      display = ("/work" +:+ "/" +:+ a_relative_path notes)%string /\
      exists before s, ev = before ++ [(fstat_fd fd, stat s)] /\ opened 3 notes before fd /\ st_regular s = true).
Proof. apply (open_file_confined old_system describe 3 "/work" notes []). vm_compute. reflexivity. Defined.

Lemma begin_mutation_beneath_witness :
  exists ev, (begin_file_mutation old_system describe "/work" "docs/notes.txt" true []).2 = [] ++ ev /\
    Forall (begins_beneath true) ev /\
    (forall m, Ok (mkMutation "notes.txt" "/work/docs/notes.txt" (Some regular)) = Ok m -> component (m_name m)).
Proof.
  apply (begin_mutation_beneath old_system describe "/work" "docs/notes.txt" true [] _
    (Ok (mkMutation "notes.txt" "/work/docs/notes.txt" (Some regular)))). vm_compute. reflexivity.
Defined.
End Demo.
