(* ===== verification/Workspace.v ===== *)
(** * oran-tool: the workspace path policy

    Models [src/oran-tool/workspace.cpp] and [include/oran/tool/workspace.hpp].
    The file system is an interface: [FileSystem] holds the operations of
    [std::filesystem] that look at the disk, [DirectoryAuthority] the pinned
    directory handles of [oran-io].  Everything decided from strings is computed
    by the lexical paths of [Paths].  A call sees one snapshot of the disk.
    The canonical path of something that exists is absolute only when the path given is
    absolute or its first element exists; roots that are not spelled so ([anchored_roots])
    can make a relative workspace, as the example [unanchored_root] shows. *)
From S2P Require Import Prelude Core Paths.
#[local] Open Scope string_scope.
#[local] Open Scope list_scope.

(** ** Interfaces *)
Inductive FileType := ft_none | ft_not_found | ft_directory | ft_symlink | ft_other.
#[export] Instance FileType_eq_dec : EqDecision FileType.
Proof. solve_decision. Defined.

(** A [std::error_code]: its message and whether it is [ENOENT]. *)
Record OsError := mkOsError { os_message : string; os_enoent : bool }.

Class FileSystem := {
  weakly_canonical : string -> string + OsError;
  status : string -> FileType * option OsError;
  symlink_status : string -> FileType * option OsError }.

Definition exists_ (t : FileType) : bool :=
  negb (bool_decide (t = ft_none)) && negb (bool_decide (t = ft_not_found)).

(** The spelling is absolute, or its first element exists: then the leading elements
    [weakly_canonical] hands to [canonical] are not empty. *)
Definition anchored_spelling `{FileSystem} (s : string) : bool :=
  is_absolute s ||
  match elements (path_of s) with [] => false | first :: _ => exists_ (status first).1 end.

(** What is used of the documentation of [weakly_canonical]: the result starts with
    [canonical], an absolute path, of the leading elements that exist. A relative
    spelling none of whose leading elements exists stays relative. *)
Class FileSystemLaws `{FileSystem} := {
  canonical_absolute : forall s c, weakly_canonical s = inl c ->
    anchored_spelling s = true -> is_absolute c = true }.

Class DirectoryAuthority (A : Type) := {
  open_trusted : string -> Result A;
  refers_to_path : A -> string -> Result bool;
  open_file_beneath : A -> string -> Result unit }.

(** ** Data *)
Record WorkspaceOptions := mkOptions {
  opt_extra_read_roots : list string; opt_extra_write_roots : list string }.
Record WriteIntent := mkWriteIntent { create_parent_directories : bool }.
Inductive LockDirection := lock_read | lock_write.
#[export] Instance LockDirection_eq_dec : EqDecision LockDirection.
Proof. solve_decision. Defined.

Record ResolvedPath (A : Type) := mkResolved {
  rp_authority : A;
  rp_authority_relative_path : string;
  rp_absolute_path : string;
  rp_relative_path : string;
  rp_symlink_followed : bool;
  rp_created_parents : bool;
  rp_outside_workspace_explicit_override : bool;
  rp_per_call_outside_workspace_override : bool;
  rp_override_root_index : option nat }.
Arguments mkResolved {A}.
Arguments rp_authority {A}.
Arguments rp_authority_relative_path {A}.
Arguments rp_absolute_path {A}.
Arguments rp_relative_path {A}.
Arguments rp_symlink_followed {A}.
Arguments rp_created_parents {A}.
Arguments rp_outside_workspace_explicit_override {A}.
Arguments rp_per_call_outside_workspace_override {A}.
Arguments rp_override_root_index {A}.

Record Workspace (A : Type) := mkWorkspace {
  root : string;
  extra_read_roots : list string;
  extra_write_roots : list string;
  root_authority : A;
  extra_read_authorities : list A;
  extra_write_authorities : list A }.
Arguments mkWorkspace {A}.
Arguments root {A}.
Arguments extra_read_roots {A}.
Arguments extra_write_roots {A}.
Arguments root_authority {A}.
Arguments extra_read_authorities {A}.
Arguments extra_write_authorities {A}.

Record RootMatch := mkMatch { match_root : string; override_index : option nat }.

Definition path_error (message input reason : string) : Error :=
  Errors.with_ctx (Errors.with_ctx (Errors.permission_denied message) "path" input) "reason" reason.

Definition filesystem_error (message path : string) (ec : OsError) : Error :=
  Errors.with_ctx (Errors.with_ctx (Errors.io message) "path" path) "detail" (os_message ec).

(** ** Lexical policy *)
Fixpoint prefix_elements (r c : list string) : bool :=
  match r, c with
  | [], _ => true
  | x :: r, y :: c => bool_decide (y = x) && prefix_elements r c
  | _ :: _, [] => false
  end.

Definition is_under_root (candidate root : string) : bool :=
  prefix_elements (elements (path_of (lexically_normal root)))
    (elements (path_of (lexically_normal candidate))).

Definition join_input (root input : string) : string :=
  if is_absolute input then lexically_normal input else lexically_normal (join root input).

Fixpoint find_extra_root (candidate : string) (extra_roots : list string) (index : nat)
    : option RootMatch :=
  match extra_roots with
  | [] => None
  | r :: rest =>
      if is_under_root candidate r then Some (mkMatch r (Some index))
      else find_extra_root candidate rest (S index)
  end.

Definition find_matching_root (candidate workspace_root : string) (extra_roots : list string)
    : option RootMatch :=
  if is_under_root candidate workspace_root then Some (mkMatch workspace_root None)
  else find_extra_root candidate extra_roots 0.

Definition relative_path (candidate root : string) : string :=
  let relative := lexically_relative (lexically_normal candidate) (lexically_normal root) in
  if bool_decide (relative = "") then "." else relative.

(** [Workspace::lock_key]. *)
Definition lock_key {A} (ws : Workspace A) (path : string) (direction : LockDirection)
    : option string :=
  if bool_decide (path = "") then None
  else
    let candidate := join_input (root ws) path in
    let extra_roots := match direction with
                       | lock_read => extra_read_roots ws | lock_write => extra_write_roots ws end in
    match find_matching_root candidate (root ws) extra_roots with
    | None => None
    | Some _ => Some candidate
    end.

(** [Workspace::display_path]. *)
Definition render (candidate label root : string) : string :=
  let relative := relative_path candidate root in
  if bool_decide (relative = ".") then label else label +:+ "/" +:+ relative.

Fixpoint display_extra (candidate prefix : string) (roots : list string) (index : nat)
    : option string :=
  match roots with
  | [] => None
  | r :: rest =>
      if is_under_root candidate r
      then Some (render candidate ("<" +:+ prefix +:+ "-root-" +:+ pretty index +:+ ">") r)
      else display_extra candidate prefix rest (S index)
  end.

Definition display_path {A} (ws : Workspace A) (absolute_path : string) : string :=
  let candidate := lexically_normal absolute_path in
  if is_under_root candidate (root ws) then render candidate "<workspace>" (root ws)
  else
    match display_extra candidate "read" (extra_read_roots ws) 0 with
    | Some s => s
    | None =>
        match display_extra candidate "write" (extra_write_roots ws) 0 with
        | Some s => s
        | None => absolute_path
        end
    end.

(** ** Resolution *)
Section Resolution.
Context `{FileSystem} {A : Type} `{DirectoryAuthority A}.

Definition canonical_directory (raw context_key : string) : Result string :=
  fail? bool_decide (raw = "") with
    Errors.with_ctx (Errors.invalid_argument "workspace root must not be empty") "field" context_key;
  match weakly_canonical raw with
  | inr ec => Err (Errors.with_ctx (filesystem_error "failed to canonicalize workspace root" raw ec)
                     "field" context_key)
  | inl c =>
      let canonical := lexically_normal c in
      let '(st, ec) := status canonical in
      match ec with
      | Some (mkOsError m false) =>
          Err (Errors.with_ctx
            (filesystem_error "failed to inspect workspace root" canonical (mkOsError m false))
            "field" context_key)
      | _ =>
          fail? negb (exists_ st) with
            Errors.with_ctx (Errors.with_ctx (Errors.not_found "workspace root does not exist")
              "path" canonical) "field" context_key;
          fail? negb (bool_decide (st = ft_directory)) with
            Errors.with_ctx (Errors.with_ctx
              (Errors.invalid_argument "workspace root must be a directory")
              "path" canonical) "field" context_key;
          Ok canonical
      end
  end.

Definition indexed_field (field_name : string) (index : nat) : string :=
  field_name +:+ "[" +:+ pretty index +:+ "]".

Fixpoint canonicalize_extra_roots (roots : list string) (field_name : string) (index : nat)
    : Result (list string) :=
  match roots with
  | [] => Ok []
  | r :: rest =>
      let? canonical := canonical_directory r (indexed_field field_name index) in
      let? out := canonicalize_extra_roots rest field_name (S index) in
      Ok (canonical :: out)
  end.

(** [std::unexpected(std::move(r).error().with(key, value))] on failure. *)
Definition with_error {B} (r : Result B) (key value : string) : Result B :=
  match r with Ok b => Ok b | Err e => Err (Errors.with_ctx e key value) end.

Fixpoint open_root_authorities (roots : list string) (field_name : string) (index : nat)
    : Result (list A) :=
  match roots with
  | [] => Ok []
  | r :: rest =>
      let? authority := with_error (open_trusted r) "field" (indexed_field field_name index) in
      let? out := open_root_authorities rest field_name (S index) in
      Ok (authority :: out)
  end.

(** [Workspace::create]. *)
Definition create (root : string) (options : WorkspaceOptions) : Result (Workspace A) :=
  let? canonical_root := canonical_directory root "workspace" in
  let? read_roots := canonicalize_extra_roots (opt_extra_read_roots options)
                       "permissions.workspace.extra_read_roots" 0 in
  let? write_roots := canonicalize_extra_roots (opt_extra_write_roots options)
                        "permissions.workspace.extra_write_roots" 0 in
  let? root_authority := with_error (open_trusted canonical_root) "field" "workspace" in
  let? read_authorities := open_root_authorities read_roots
                             "permissions.workspace.extra_read_roots" 0 in
  let? write_authorities := open_root_authorities write_roots
                              "permissions.workspace.extra_write_roots" 0 in
  Ok (mkWorkspace canonical_root read_roots write_roots root_authority read_authorities
        write_authorities).

(** The loop of [has_symlink_component] over the parts of the normal form. *)
Fixpoint symlink_loop (current : string) (parts : list string) : bool :=
  match parts with
  | [] => false
  | part :: parts =>
      let current := join current part in
      let '(st, ec) := symlink_status current in
      if (match ec with Some _ => true | None => false end) || negb (exists_ st)
      then symlink_loop current parts
      else if bool_decide (st = ft_symlink) then true
      else symlink_loop current parts
  end.

Definition has_symlink_component (candidate : string) : bool :=
  symlink_loop "" (elements (path_of (lexically_normal candidate))).

(** [authority_for_match]; an index comes from the list of the same roots. *)
Definition authority_for_match (m : RootMatch) (primary : A) (extra : list A) : A :=
  match override_index m with
  | Some i => nth i extra primary
  | None => primary
  end.

Definition build_resolved (candidate : string) (m : RootMatch) (primary : A) (extra : list A)
    (symlink_followed created_parents : bool) : ResolvedPath A :=
  let overridden := match override_index m with Some _ => true | None => false end in
  mkResolved (authority_for_match m primary extra)
    (relative_path candidate (match_root m)) (lexically_normal candidate)
    (relative_path candidate (match_root m)) symlink_followed created_parents
    overridden false (override_index m).

Definition build_per_call_outside_resolved (candidate : string) (symlink_followed : bool)
    : Result (ResolvedPath A) :=
  let '(authority_root, relative) :=
    if bool_decide (parent_path candidate = "") || bool_decide (filename candidate = "")
    then (candidate, ".") else (parent_path candidate, filename candidate) in
  let? authority := open_trusted authority_root in
  Ok (mkResolved authority relative (lexically_normal candidate) "" symlink_followed false
        true true None).

(** An inspection failed for a reason other than a missing file. *)
Definition inspect_failed (st : FileType) (ec : option OsError) : option OsError :=
  match ec with
  | Some e => if bool_decide (st = ft_not_found) then None else Some e
  | None => None
  end.

Definition canonical_existing_path (candidate input action : string) : Result string :=
  let '(st, ec) := symlink_status candidate in
  match inspect_failed st ec with
  | Some e => Err (filesystem_error ("failed to inspect path for " +:+ action) candidate e)
  | None =>
      fail? negb (exists_ st) with
        Errors.with_ctx (Errors.not_found "workspace path does not exist") "path" input;
      match weakly_canonical candidate with
      | inr e => Err (filesystem_error ("failed to canonicalize path for " +:+ action) candidate e)
      | inl c => Ok (lexically_normal c)
      end
  end.

Definition empty_path : Error := Errors.invalid_argument "workspace path must not be empty".

Definition resolve_existing_readable (input root : string) (extra_roots : list string)
    (primary : A) (extra : list A) (action : string) : Result (ResolvedPath A) :=
  fail? bool_decide (input = "") with empty_path;
  let candidate := join_input root input in
  let symlink_followed := has_symlink_component candidate in
  match find_matching_root candidate root extra_roots with
  | None => Err (path_error "path is outside workspace" input "outside_workspace")
  | Some _ =>
      let? canonical := canonical_existing_path candidate input action in
      match find_matching_root canonical root extra_roots with
      | None => Err (path_error
          (if symlink_followed then "path symlink escapes workspace" else "path is outside workspace")
          input (if symlink_followed then "symlink_escape" else "outside_workspace"))
      | Some m => Ok (build_resolved canonical m primary extra symlink_followed false)
      end
  end.

(** [Workspace::resolve_read_outside_workspace]. *)
Definition resolve_read_outside_workspace (ws : Workspace A) (input : string)
    : Result (ResolvedPath A) :=
  fail? bool_decide (input = "") with empty_path;
  let candidate := join_input (root ws) input in
  let symlink_followed := has_symlink_component candidate in
  let? canonical := canonical_existing_path candidate input "read" in
  build_per_call_outside_resolved canonical symlink_followed.

(** The canonical target of a mutating call and whether its parent is missing. *)
Definition mutating_target (candidate : string) (allow_missing_parent : bool) (action : string)
    : Result (string * bool) :=
  let '(st, ec) := symlink_status candidate in
  match inspect_failed st ec with
  | Some e => Err (filesystem_error ("failed to inspect path for " +:+ action) candidate e)
  | None =>
      if exists_ st then
        match weakly_canonical candidate with
        | inr e => Err (filesystem_error ("failed to canonicalize path for " +:+ action) candidate e)
        | inl c => Ok (lexically_normal c, false)
        end
      else
        let parent := parent_path candidate in
        if bool_decide (parent = "") then Ok (lexically_normal candidate, false)
        else
          let '(pst, pec) := symlink_status parent in
          match inspect_failed pst pec with
          | Some e => Err (filesystem_error ("failed to inspect parent for " +:+ action) parent e)
          | None =>
              if exists_ pst then
                match weakly_canonical parent with
                | inr e =>
                    Err (filesystem_error ("failed to canonicalize parent for " +:+ action) parent e)
                | inl c => Ok (lexically_normal (join c (filename candidate)), false)
                end
              else Ok (lexically_normal candidate, allow_missing_parent)
          end
  end.

Definition resolve_mutating (input root : string) (extra_roots : list string)
    (primary : A) (extra : list A) (allow_missing_parent : bool) (action : string)
    : Result (ResolvedPath A) :=
  fail? bool_decide (input = "") with empty_path;
  let candidate := join_input root input in
  fail? has_symlink_component candidate with
    path_error "mutating path resolves through a symlink" input "symlink_target";
  let? target := mutating_target candidate allow_missing_parent action in
  match find_matching_root target.1 root extra_roots with
  | None => Err (path_error "path is outside workspace" input "outside_workspace")
  | Some m => Ok (build_resolved target.1 m primary extra false target.2)
  end.

(** The anchored probe after the pathname pass failed or was skipped. *)
Definition anchored_probe (candidate input : string) (m : RootMatch) (primary : A)
    (extra : list A) : Result (ResolvedPath A) :=
  match open_file_beneath (authority_for_match m primary extra)
          (relative_path candidate (match_root m)) with
  | Ok _ => Ok (build_resolved candidate m primary extra false false)
  | Err e =>
      match Errors.ctx_find e "reason" with
      | Some r =>
          if bool_decide (r = "outside_authority") || bool_decide (r = "symlink_component")
          then Err (path_error "path symlink escapes workspace" input "symlink_escape")
          else Err e
      | None => Err e
      end
  end.

Definition resolve_read_through_authority (input root : string) (extra_roots : list string)
    (primary : A) (extra : list A) : Result (ResolvedPath A) :=
  fail? bool_decide (input = "") with empty_path;
  let candidate := join_input root input in
  match find_matching_root candidate root extra_roots with
  | None => Err (path_error "path is outside workspace" input "outside_workspace")
  | Some m =>
      let? root_still_named :=
        refers_to_path (authority_for_match m primary extra) (match_root m) in
      if root_still_named then
        match resolve_existing_readable input root extra_roots primary extra "read" with
        | Ok r => Ok r
        | Err _ => anchored_probe candidate input m primary extra
        end
      else anchored_probe candidate input m primary extra
  end.

(** [Workspace::resolve_read] and [Workspace::resolve_write]. *)
Definition resolve_read (ws : Workspace A) (path : string) : Result (ResolvedPath A) :=
  resolve_read_through_authority path (root ws) (extra_read_roots ws) (root_authority ws)
    (extra_read_authorities ws).

Definition resolve_write (ws : Workspace A) (path : string) (intent : WriteIntent)
    : Result (ResolvedPath A) :=
  resolve_mutating path (root ws) (extra_write_roots ws) (root_authority ws)
    (extra_write_authorities ws) (create_parent_directories intent) "write".
End Resolution.

(** ** The grants a workspace hands out *)
(** A root is a normalised absolute directory. *)
Definition root_wf (r : string) : Prop :=
  exists names, path_of r = mkPath true names /\ proper_names names /\
    r = path_str (mkPath true names).

Lemma root_wf_normal r : root_wf r -> lexically_normal r = r.
Proof.
  intros (names & Hp & Hn & ->). unfold lexically_normal. by rewrite Hp, normal_proper.
Qed.

Lemma prefix_elements_app r c : prefix_elements r c = true -> exists rel, c = r ++ rel.
Proof.
  revert c. induction r as [|x r IH]; intros c H; [by exists c|].
  destruct c as [|y c]; [done|]. simpl in H. bool_prop. subst.
  destruct (IH c) as [rel ->]; [done|]. by exists rel.
Qed.

(** What lies under a root is absolute and extends the root's filenames. *)
Lemma under_root_names c r names :
  is_under_root c r = true -> root_wf r -> path_of r = mkPath true names ->
  exists rel, path_of (lexically_normal c) = mkPath true (names ++ rel) /\
    proper_names (names ++ rel).
Proof.
  unfold is_under_root. intros H Hr Hn. rewrite (root_wf_normal r Hr), Hn in H.
  apply prefix_elements_app in H as [rel H]. unfold elements in H at 2. simpl in H.
  destruct (is_absolute c) eqn:Hc.
  - destruct (lexically_normal_absolute c Hc) as (cn & Hp & Hpr & _). rewrite Hp in H |- *.
    unfold elements in H. simpl in H. injection H as H. exists rel. by rewrite H in Hpr |- *.
  - pose proof (lexically_normal_relative c Hc) as Hrel. exfalso.
    pose proof (names_wf_free _ (path_of_wf (lexically_normal c))) as Hf.
    unfold elements in H. replace (p_root (path_of (lexically_normal c))) with false in H by done.
    simpl in H. simpl in Hf. rewrite H in Hf. by inversion Hf.
Qed.

(** The directories a direction may reach, each with its pinned handle. *)
Definition grants {A} (ws : Workspace A) (direction : LockDirection) : list (string * A) :=
  (root ws, root_authority ws) ::
  match direction with
  | lock_read => zip (extra_read_roots ws) (extra_read_authorities ws)
  | lock_write => zip (extra_write_roots ws) (extra_write_authorities ws)
  end.

Record ws_wf {A} (ws : Workspace A) : Prop := {
  wf_root : root_wf (root ws);
  wf_read : Forall root_wf (extra_read_roots ws);
  wf_write : Forall root_wf (extra_write_roots ws);
  wf_read_length : length (extra_read_authorities ws) = length (extra_read_roots ws);
  wf_write_length : length (extra_write_authorities ws) = length (extra_write_roots ws) }.

(** A resolved path names a file below a granted root and is executed through the
    handle pinned for that root, along a relative spelling that stays inside. *)
Definition contained {A} (granted : list (string * A)) (r : ResolvedPath A) : Prop :=
  exists root names rel,
    In (root, rp_authority r) granted /\
    path_of root = mkPath true names /\
    path_of (rp_absolute_path r) = mkPath true (names ++ rel) /\
    rp_authority_relative_path r = relative_str rel /\
    inside (rp_authority_relative_path r).

Lemma find_extra_spec c extra i m :
  find_extra_root c extra i = Some m ->
  exists j, extra !! j = Some (match_root m) /\ override_index m = Some (i + j) /\
    is_under_root c (match_root m) = true.
Proof.
  revert i. induction extra as [|r extra IH]; intros i; simpl; [done|].
  destruct (is_under_root c r) eqn:E.
  - intros [= <-]. exists 0. simpl. by rewrite Nat.add_0_r.
  - intros (j & ? & Ho & ?)%IH. exists (S j). split_and!; [done| |done]. rewrite Ho. f_equal. lia.
Qed.

Section Containment.
Context {A : Type} (r0 : string) (extra : list string) (primary : A) (handles : list A).
Hypothesis Hroot : root_wf r0.
Hypothesis Hextra : Forall root_wf extra.
Hypothesis Hlen : length handles = length extra.

(** The root found and the handle selected for it are granted together. *)
Lemma match_granted c m :
  find_matching_root c r0 extra = Some m ->
  In (match_root m, authority_for_match m primary handles) ((r0, primary) :: zip extra handles) /\
  root_wf (match_root m) /\ is_under_root c (match_root m) = true.
Proof.
  unfold find_matching_root. destruct (is_under_root c r0) eqn:E.
  - intros [= <-]. split_and!; [by left|done|done].
  - intros (j & Hj & Ho & Hu)%find_extra_spec. simpl in Ho. split_and!; [|by eapply Forall_lookup_1|done].
    right. unfold authority_for_match. rewrite Ho.
    assert (Hh : exists a, handles !! j = Some a).
    { apply lookup_lt_is_Some_2. rewrite Hlen. by eapply lookup_lt_Some. }
    destruct Hh as [a Ha]. rewrite (nth_lookup_Some _ _ _ _ Ha).
    apply list_elem_of_In, (list_elem_of_lookup_2 _ j). rewrite lookup_zip_with, Hj. simpl. by rewrite Ha.
Qed.

Lemma build_contained c m symlink created :
  find_matching_root c r0 extra = Some m ->
  contained ((r0, primary) :: zip extra handles) (build_resolved c m primary handles symlink created).
Proof.
  intros (Hin & Hwf & Hu)%match_granted.
  destruct Hwf as (names & Hp & Hn & He) eqn:EW.
  destruct (under_root_names c (match_root m) names Hu Hwf Hp) as (rel & Hc & Hpr).
  exists (match_root m), names, rel. cbn [rp_authority rp_absolute_path rp_authority_relative_path build_resolved].
  assert (Hrel : relative_path c (match_root m) = relative_str rel).
  { unfold relative_path. rewrite (root_wf_normal _ Hwf).
    rewrite (lexically_relative_below _ _ names rel Hc Hp Hpr).
    rewrite bool_decide_eq_false_2; [done|]. unfold relative_str. case_bool_decide; [done|].
    destruct (proper_suffix _ _ Hpr) as [->|[->|[Hr Hh]]]; [naive_solver|naive_solver|].
    apply concat_nonempty; [by apply proper_wf|]. naive_solver. }
  rewrite Hrel. split_and!; [done|done|done|done|]. by eapply relative_str_inside.
Qed.
End Containment.

(** ** Creation *)
Section Creation.
Context `{FileSystemLaws} {A : Type} `{DirectoryAuthority A}.

Lemma canonical_directory_wf raw key c :
  anchored_spelling raw = true -> canonical_directory raw key = Ok c -> root_wf c.
Proof.
  unfold canonical_directory. intros Hraw Hc. ok_inv.
  destruct (weakly_canonical raw) as [c0|] eqn:Ew; [|done].
  destruct (status (lexically_normal c0)) as [st ec] eqn:Es.
  assert (Hok : (if negb (exists_ st) then Err (Errors.with_ctx (Errors.with_ctx
            (Errors.not_found "workspace root does not exist") "path" (lexically_normal c0)) "field" key)
          else if negb (bool_decide (st = ft_directory)) then Err (Errors.with_ctx (Errors.with_ctx
              (Errors.invalid_argument "workspace root must be a directory")
              "path" (lexically_normal c0)) "field" key)
          else Ok (lexically_normal c0)) = Ok c)
    by (by destruct ec as [[m []]|]).
  clear Hc. ok_inv. bool_prop. subst.
  assert (Ha : is_absolute c0 = true).
  { by apply (canonical_absolute raw c0 Ew). }
  destruct (lexically_normal_absolute c0 Ha) as (names & Hp & Hn & He).
  rewrite He in Hp |- *. by exists names.
Qed.

Lemma canonicalize_extra_roots_wf roots field i out :
  Forall (fun r => anchored_spelling r = true) roots ->
  canonicalize_extra_roots roots field i = Ok out -> Forall root_wf out.
Proof.
  intros Hroots. revert i out.
  induction Hroots as [|r roots Hr _ IH]; intros i out Hc; simpl in Hc; ok_inv.
  - by subst.
  - subst. constructor; [by eapply canonical_directory_wf|by eapply IH].
Qed.

Lemma open_root_authorities_spec roots field i out :
  open_root_authorities roots field i = Ok out ->
  Forall2 (fun r a => open_trusted r = Ok a) roots out.
Proof.
  revert i out. induction roots as [|r roots IH]; intros i out Hc; simpl in Hc; ok_inv; subst.
  - constructor.
  - constructor; [|by eapply IH]. unfold with_error in *. by destruct (open_trusted r); simplify_eq.
Qed.

(** Every root the caller names is anchored. *)
Definition anchored_roots (raw : string) (options : WorkspaceOptions) : Prop :=
  Forall (fun r => anchored_spelling r = true)
    (raw :: opt_extra_read_roots options ++ opt_extra_write_roots options).

Lemma create_wf raw options ws :
  anchored_roots raw options -> create raw options = Ok ws -> ws_wf ws.
Proof.
  intros [Hraw [Hread Hwrite]%Forall_app]%Forall_cons Hc. unfold create in Hc. ok_inv. subst.
  split; cbn [root extra_read_roots extra_write_roots extra_read_authorities extra_write_authorities].
  - eapply (canonical_directory_wf _ _ _ Hraw); eassumption.
  - eapply (canonicalize_extra_roots_wf _ _ _ _ Hread); eassumption.
  - eapply (canonicalize_extra_roots_wf _ _ _ _ Hwrite); eassumption.
  - symmetry. eapply Forall2_length. by eapply open_root_authorities_spec.
  - symmetry. eapply Forall2_length. by eapply open_root_authorities_spec.
Qed.

(** ** Theorems *)
Lemma read_in_grants raw options ws path r :
  anchored_roots raw options -> create raw options = Ok ws -> resolve_read ws path = Ok r ->
  contained (grants ws lock_read) r.
Proof.
  intros Hraw [Hroot Hread _ Hlen _]%(create_wf _ _ _ Hraw). unfold resolve_read, resolve_read_through_authority.
  intros Hr. ok_inv. destruct (find_matching_root (join_input _ _) _ _) as [m|] eqn:Em; [|done].
  assert (Hprobe : anchored_probe (join_input (root ws) path) path m (root_authority ws)
            (extra_read_authorities ws) = Ok r -> contained (grants ws lock_read) r).
  { unfold anchored_probe. destruct (open_file_beneath _ _) as [|e'].
    - intros [= <-]. by apply build_contained.
    - repeat case_match; done. }
  ok_inv. destruct x; [|by apply Hprobe].
  destruct (resolve_existing_readable _ _ _ _ _ _) as [r'|] eqn:Ee; [|by apply Hprobe].
  injection Hr as <-. unfold resolve_existing_readable in Ee. ok_inv.
  rewrite Em in Ee. ok_inv.
  destruct (find_matching_root x _ _) as [m'|] eqn:Em'; [|done]. injection Ee as <-.
  by apply build_contained.
Qed.

(** a workspace that was created resolves a read only to a file below one of its
    read roots, executed through the handle pinned for that very root along a
    relative spelling that cannot leave it. *)
Theorem resolve_read_contained raw options ws path r :
  anchored_roots raw options -> create raw options = Ok ws -> resolve_read ws path = Ok r ->
  contained (grants ws lock_read) r.
Proof. apply read_in_grants. Qed.

Lemma write_in_grants raw options ws path intent r :
  anchored_roots raw options -> create raw options = Ok ws -> resolve_write ws path intent = Ok r ->
  contained (grants ws lock_write) r /\
  has_symlink_component (join_input (root ws) path) = false /\
  rp_per_call_outside_workspace_override r = false.
Proof.
  intros Hraw [Hroot _ Hwrite _ Hlen]%(create_wf _ _ _ Hraw). unfold resolve_write, resolve_mutating.
  intros Hr. ok_inv. destruct (find_matching_root _ _ _) as [m|] eqn:Em; [|done].
  injection Hr as <-. split_and!; [|done|done]. by apply build_contained.
Qed.

(** C4: in a workspace created from roots that are absolute, or relative with a first
    component that exists, a mutating call resolves only below a write root, through
    that root's handle along a relative spelling that stays inside it, and never when a
    component of the named path is a symbolic link. *)
Theorem resolve_write_contained raw options ws path intent r :
  anchored_roots raw options -> create raw options = Ok ws -> resolve_write ws path intent = Ok r ->
  contained (grants ws lock_write) r /\
  has_symlink_component (join_input (root ws) path) = false /\
  rp_per_call_outside_workspace_override r = false.
Proof. apply write_in_grants. Qed.

(** the per-call escape is always reported as one: a resolution outside the
    workspace names a file that exists and carries the override flags the dispatcher
    turns into an approval request. *)
Lemma resolve_outside_flagged ws path r :
  resolve_read_outside_workspace ws path = Ok r ->
  rp_outside_workspace_explicit_override r = true /\
  rp_per_call_outside_workspace_override r = true /\
  rp_relative_path r = "" /\
  exists_ (symlink_status (join_input (root ws) path)).1 = true.
Proof.
  unfold resolve_read_outside_workspace, build_per_call_outside_resolved, canonical_existing_path.
  intros Hr. ok_inv. destruct (symlink_status _) as [st ec]. destruct (inspect_failed st ec); [done|].
  ok_inv. destruct (if _ || _ then _ else _) as [root rel]. ok_inv. subst.
  split_and!; try done. by apply negb_false_iff.
Qed.

End Creation.

(** ** A concrete disk *)
(** Every path but [missing] exists; [/ws/link] is a link to [/etc], the working
    directory is [/ws]. A relative spelling that starts with [missing] has no leading
    element to canonicalise and is only normalised. *)
Module Disk.
#[export] Instance fs : FileSystem := {
  weakly_canonical s :=
    if bool_decide (s = "/ws/link") then inl "/etc"
    else if is_absolute s then inl s
    else if bool_decide (head (elements (path_of s)) = Some "missing") then inl (lexically_normal s)
    else inl ("/ws/" +:+ s);
  status s := (if bool_decide (s = "missing") then ft_not_found else ft_directory, None);
  symlink_status s := (if bool_decide (s = "/ws/link") then ft_symlink else ft_other, None) }.
#[export] Instance fs_laws : FileSystemLaws.
Proof.
  split. intros s c. unfold anchored_spelling. simpl. case_bool_decide; [by intros [= <-]|].
  destruct (is_absolute s) eqn:E; simpl; [by intros [= <-]|].
  destruct (elements (path_of s)) as [|x l]; simpl; [done|].
  case_bool_decide as Hm; [injection Hm as ->; by rewrite bool_decide_eq_true_2|].
  by intros [= <-].
Qed.
#[export] Instance handles : DirectoryAuthority string := {
  open_trusted s := Ok s;
  refers_to_path _ _ := Ok true;
  open_file_beneath _ _ := Err (Errors.with_ctx (Errors.permission_denied "escape") "reason" "outside_authority") }.
Definition ws : Workspace string := mkWorkspace "/ws" ["/opt"] [] "/ws" ["/opt"] [].
End Disk.
Import Disk.

Example read_escape :
  resolve_read ws "link" = Err (path_error "path symlink escapes workspace" "link" "symlink_escape").
Proof. vm_compute. reflexivity. Qed.
Example read_dotdot :
  resolve_read ws "a/../../etc/passwd" =
  Err (path_error "path is outside workspace" "a/../../etc/passwd" "outside_workspace").
Proof. vm_compute. reflexivity. Qed.
Example key_normalised :
  lock_key ws "src//./x/../main.c" lock_write = Some "/ws/src/main.c".
Proof. vm_compute. reflexivity. Qed.
Example shown : display_path ws "/opt/lib/a.txt" = "<read-root-0>/lib/a.txt".
Proof. vm_compute. reflexivity. Qed.

Lemma resolve_read_contained_witness :
  contained (grants ws lock_read)
    (mkResolved "/opt" "lib/a.txt" "/opt/lib/a.txt" "lib/a.txt" false false true false (Some 0)).
Proof.
  apply (resolve_read_contained "/ws" (mkOptions ["/opt"] []) ws "/opt/lib/a.txt");
    [by repeat constructor|vm_compute; reflexivity..].
Defined.

Lemma resolve_write_contained_witness :
  let r := mkResolved "/ws" "src/main.c" "/ws/src/main.c" "src/main.c" false false false false None in
  contained (grants ws lock_write) r /\
  has_symlink_component (join_input (root ws) "src/main.c") = false /\
  rp_per_call_outside_workspace_override r = false.
Proof.
  apply (resolve_write_contained "/ws" (mkOptions ["/opt"] []) ws "src/main.c" (mkWriteIntent false));
    [by repeat constructor|vm_compute; reflexivity..].
Defined.

(** Without an anchor the root stays relative: the directory exists, so [create]
    accepts it. *)
Example unanchored_root :
  anchored_spelling "missing/../dir" = false /\
  create "missing/../dir" (mkOptions [] []) = Ok (mkWorkspace "dir" [] [] "dir" [] []).
Proof. vm_compute. split; reflexivity. Qed.
