(* ===== verification/PathLocks.v ===== *)
(** * oran-tool: FIFO path locks

    Models [src/oran-tool/path-locks.cpp] and [_impl/path-lock-table.hpp].  The
    table runs on one strand, so its operations interleave only at the single
    suspension point of [acquire]: [acquire_begin] is the code before it,
    [acquire_resume] the code after it.  A waiter's wake channel is named by a
    number; [advance] and [release] return the channels they sent a permit to,
    in order.  The system at the end of the file interleaves any number of
    coroutines through these operations. *)
From S2P Require Import Prelude Core.

Inductive PathLockMode := shared | exclusive.
#[export] Instance PathLockMode_eq_dec : EqDecision PathLockMode.
Proof. solve_decision. Defined.

Record Waiter := mkWaiter { w_mode : PathLockMode; w_wake : nat }.
Record Entry := mkEntry { readers : nat; writer : bool; waiters : list Waiter }.
Abbreviation Table := (gmap string Entry).
Definition fresh_entry : Entry := mkEntry 0 false [].

(** The wake loop of [advance]: what is left of the entry, and the permits sent. *)
Fixpoint advance_loop (rd : nat) (wr : bool) (ws : list Waiter) : Entry * list nat :=
  match ws with
  | [] => (mkEntry rd wr [], [])
  | front :: rest =>
      let can_wake := match w_mode front with
                      | exclusive => (rd =? 0) && negb wr
                      | shared => negb wr
                      end in
      if negb can_wake then (mkEntry rd wr ws, [])
      else match w_mode front with
           | exclusive => (mkEntry rd true rest, [w_wake front])
           | shared =>
               let '(e, sent) := advance_loop (S rd) wr rest in (e, w_wake front :: sent)
           end
  end.

Definition idle (e : Entry) : bool :=
  (readers e =? 0) && negb (writer e) && match waiters e with [] => true | _ => false end.

(** [PathLockTable::advance] on the entry stored under [path]. *)
Definition advance (t : Table) (path : string) (e : Entry) : Table * list nat :=
  let '(e, sent) := advance_loop (readers e) (writer e) (waiters e) in
  ((if idle e then delete path t else <[path := e]> t), sent).

(** [PathLockTable::release]. *)
Definition release (t : Table) (path : string) (mode : PathLockMode) : Table * list nat :=
  match t !! path with
  | None => (t, [])
  | Some entry =>
      advance t path
        match mode with
        | shared => mkEntry (if 0 <? readers entry then readers entry - 1 else readers entry)
                      (writer entry) (waiters entry)
        | exclusive => mkEntry (readers entry) false (waiters entry)
        end
  end.

(** How the first half of [acquire] ends. *)
Inductive Begin := begin_error (e : Error) | begin_guard | begin_wait.

Definition acquire_begin (t : Table) (path : string) (mode : PathLockMode) (wake : nat)
    (cancelled : bool) : Begin * Table :=
  if cancelled then (begin_error Errors.cancelled, t)
  else
    let entry := default fresh_entry (t !! path) in
    let can_take_now :=
      match waiters entry with [] => true | _ => false end && negb (writer entry) &&
      (bool_decide (mode = shared) || (readers entry =? 0)) in
    if can_take_now then
      (begin_guard,
       <[path := match mode with
                 | shared => mkEntry (S (readers entry)) (writer entry) (waiters entry)
                 | exclusive => mkEntry (readers entry) true (waiters entry)
                 end]> t)
    else
      (begin_wait,
       <[path := mkEntry (readers entry) (writer entry)
                   (waiters entry ++ [mkWaiter mode wake])]> t).

(** The second half of [acquire]; [received] is what [wake->receive()] returned and
    [cancelled] the cancellation state seen on resumption. *)
Definition acquire_resume (t : Table) (path : string) (mode : PathLockMode) (wake : nat)
    (received : Result unit) (cancelled : bool) : Result unit * (Table * list nat) :=
  let receive_result := if cancelled then Err Errors.cancelled else received in
  match t !! path with
  | None => (Err (Errors.internal "path_lock_table: entry vanished while waiting"), (t, []))
  | Some entry =>
      match receive_result with
      | Ok _ => (Ok tt, (t, []))
      | Err e =>
          let kept := List.filter (fun w => negb (w_wake w =? wake)) (waiters entry) in
          let erased := length (waiters entry) - length kept in
          (Err e,
           if erased =? 0 then release t path mode
           else advance t path (mkEntry (readers entry) (writer entry) kept))
      end
  end.

(** ** Coroutines sharing the table *)
(** A coroutine waits in a queue, has a permit it has not yet resumed with, or holds
    a guard. *)
Inductive Phase := waiting | reserved | holding.
#[export] Instance Phase_eq_dec : EqDecision Phase.
Proof. solve_decision. Defined.

Record Client := mkClient { cl_path : string; cl_mode : PathLockMode; cl_phase : Phase }.
#[export] Instance Client_eq_dec : EqDecision Client.
Proof. solve_decision. Defined.

Record System := mkSystem { table : Table; clients : gmap nat Client }.

(** The sent permits reach the waiting coroutines. *)
Definition deliver (sent : list nat) (cl : gmap nat Client) : gmap nat Client :=
  fold_left (fun cl i => alter (fun c => mkClient (cl_path c) (cl_mode c) reserved) i cl) sent cl.

Inductive step : System -> System -> Prop :=
  | step_take t cl i path mode t' :
      cl !! i = None ->
      acquire_begin t path mode i false = (begin_guard, t') ->
      step (mkSystem t cl) (mkSystem t' (<[i := mkClient path mode holding]> cl))
  | step_queue t cl i path mode t' :
      cl !! i = None ->
      acquire_begin t path mode i false = (begin_wait, t') ->
      step (mkSystem t cl) (mkSystem t' (<[i := mkClient path mode waiting]> cl))
  | step_cancelled_early t cl i path mode e t' :
      acquire_begin t path mode i true = (begin_error e, t') ->
      step (mkSystem t cl) (mkSystem t' cl)
  | step_resume t cl i path mode t' sent :
      cl !! i = Some (mkClient path mode reserved) ->
      acquire_resume t path mode i (Ok tt) false = (Ok tt, (t', sent)) ->
      step (mkSystem t cl) (mkSystem t' (deliver sent (<[i := mkClient path mode holding]> cl)))
  | step_abandon t cl i path mode phase received e t' sent :
      cl !! i = Some (mkClient path mode phase) -> phase <> holding ->
      (phase = waiting -> exists e, received = Err e) ->
      acquire_resume t path mode i received true = (Err e, (t', sent)) ->
      step (mkSystem t cl) (mkSystem t' (deliver sent (delete i cl)))
  | step_release t cl i path mode t' sent :
      cl !! i = Some (mkClient path mode holding) ->
      release t path mode = (t', sent) ->
      step (mkSystem t cl) (mkSystem t' (deliver sent (delete i cl))).

Inductive reachable : System -> Prop :=
  | reach_start : reachable (mkSystem ∅ ∅)
  | reach_step s s' : reachable s -> step s s' -> reachable s'.

(** ** The invariant *)
(** Coroutine [c] owns a permit of mode [m] on [p]. *)
Definition owns (p : string) (m : PathLockMode) (c : Client) : Prop :=
  cl_path c = p /\ cl_mode c = m /\ cl_phase c <> waiting.
#[export] Instance owns_dec p m c : Decision (owns p m c).
Proof. unfold owns. apply _. Defined.

Definition count (p : string) (m : PathLockMode) (cl : gmap nat Client) : nat :=
  size (filter (fun kv : nat * Client => owns p m kv.2) cl).

Definition blocked (e : Entry) : Prop :=
  match waiters e with
  | [] => True
  | w :: _ => writer e = true \/ (w_mode w = exclusive /\ readers e <> 0)
  end.

(** What an entry says about the coroutines on its path. *)
Record EntryOk (p : string) (e : Entry) (cl : gmap nat Client) : Prop := {
  eo_readers : readers e = count p shared cl;
  eo_writer : count p exclusive cl = if writer e then 1 else 0;
  eo_exclusive : writer e = true -> readers e = 0;
  eo_nodup : NoDup (map w_wake (waiters e));
  eo_queued : forall i m, (In (mkWaiter m i) (waiters e) <-> cl !! i = Some (mkClient p m waiting)) }.

Definition Inv (s : System) : Prop :=
  forall p,
    let e := default fresh_entry (table s !! p) in
    EntryOk p e (clients s) /\ blocked e /\
    forall e', table s !! p = Some e' -> idle e' = false.

(** ** Counting permits *)
Lemma count_insert_fresh p m cl i c :
  cl !! i = None ->
  count p m (<[i := c]> cl) = (if decide (owns p m c) then 1 else 0) + count p m cl.
Proof.
  intros Hi. unfold count. case_decide as Ho.
  - rewrite map_filter_insert_True by done. rewrite map_size_insert_None; [done|].
    apply map_lookup_filter_None. left. done.
  - rewrite map_filter_insert_not' by (try done; naive_solver). done.
Qed.

Lemma count_delete p m cl i c :
  cl !! i = Some c ->
  count p m cl = (if decide (owns p m c) then 1 else 0) + count p m (delete i cl).
Proof.
  intros Hi. rewrite <- (insert_delete_id cl i c Hi) at 1.
  apply count_insert_fresh, lookup_delete_eq.
Qed.

Lemma count_insert p m cl i c0 c :
  cl !! i = Some c0 ->
  (if decide (owns p m c0) then 1 else 0) + count p m (<[i := c]> cl) =
  (if decide (owns p m c) then 1 else 0) + count p m cl.
Proof.
  intros Hi. rewrite <- (insert_delete_eq cl i c).
  rewrite count_insert_fresh by apply lookup_delete_eq.
  rewrite (count_delete p m cl i c0) by done. lia.
Qed.

Lemma count_pos p m cl : 0 < count p m cl -> exists i c, cl !! i = Some c /\ owns p m c.
Proof.
  intros H. unfold count in H.
  destruct (map_choose (filter (fun kv : nat * Client => owns p m kv.2) cl)) as (i & c & Hc).
  { intros E. rewrite E, map_size_empty in H. lia. }
  apply map_lookup_filter_Some in Hc as [? ?]. eauto.
Qed.

Lemma owns_count p m cl i c : cl !! i = Some c -> owns p m c -> 0 < count p m cl.
Proof. intros Hi Ho. rewrite (count_delete p m cl i c Hi). case_decide; [lia|done]. Qed.

(** ** Two client maps that look alike from a path *)
Definition agree (q : string) (cl cl' : gmap nat Client) : Prop :=
  (forall m, count q m cl' = count q m cl) /\
  (forall i m, cl' !! i = Some (mkClient q m waiting) <-> cl !! i = Some (mkClient q m waiting)).

#[export] Instance agree_refl q : Reflexive (agree q).
Proof. intros cl. by split. Qed.
#[export] Instance agree_trans q : Transitive (agree q).
Proof. intros a b c [H1 H2] [H3 H4]. split; intros; [by rewrite H3|by rewrite H4]. Qed.

Lemma agree_entry q e cl cl' : agree q cl cl' -> EntryOk q e cl -> EntryOk q e cl'.
Proof.
  intros [Hc Hq] [H1 H2 H3 H4 H5]. split; rewrite ?Hc; try done.
  intros i m. by rewrite Hq.
Qed.

Definition elsewhere (q : string) (c : Client) : Prop := cl_path c <> q.

Lemma not_owns q m c : elsewhere q c -> ~ owns q m c.
Proof. unfold elsewhere, owns. naive_solver. Qed.

Lemma agree_insert_fresh q cl i c :
  cl !! i = None -> elsewhere q c -> agree q cl (<[i := c]> cl).
Proof.
  intros Hi Hc. split.
  - intros m. rewrite count_insert_fresh by done.
    rewrite decide_False by by apply not_owns. done.
  - intros j m. destruct (decide (i = j)) as [<-|Hne].
    + rewrite lookup_insert_eq, Hi. split; [intros [= ->]|done]. by destruct Hc.
    + by rewrite lookup_insert_ne.
Qed.

Lemma agree_delete q cl i c : cl !! i = Some c -> elsewhere q c -> agree q cl (delete i cl).
Proof.
  intros Hi Hc. split.
  - intros m. rewrite (count_delete q m cl i c) by done.
    rewrite decide_False by by apply not_owns. done.
  - intros j m. destruct (decide (i = j)) as [<-|Hne].
    + rewrite lookup_delete_eq, Hi. split; [done|intros [= ->]]. by destruct Hc.
    + by rewrite lookup_delete_ne.
Qed.

Lemma agree_insert q cl i c0 c :
  cl !! i = Some c0 -> elsewhere q c0 -> elsewhere q c -> agree q cl (<[i := c]> cl).
Proof.
  intros Hi H0 Hc. rewrite <- (insert_delete_eq cl i c).
  etrans; [by eapply agree_delete|].
  apply agree_insert_fresh; [apply lookup_delete_eq|done].
Qed.

(** ** Handing the path onward *)
Definition grant (i : nat) (cl : gmap nat Client) : gmap nat Client :=
  alter (fun c => mkClient (cl_path c) (cl_mode c) reserved) i cl.

Lemma grant_insert i p m cl :
  cl !! i = Some (mkClient p m waiting) -> grant i cl = <[i := mkClient p m reserved]> cl.
Proof.
  intros Hi. unfold grant. apply map_eq. intros j. destruct (decide (i = j)) as [<-|].
  - by rewrite lookup_alter_eq, Hi, lookup_insert_eq.
  - by rewrite lookup_alter_ne, lookup_insert_ne.
Qed.

(** The front waiter becomes an owner: the entry without it is consistent again. *)
Lemma grant_front p rd wr m i rest cl :
  EntryOk p (mkEntry rd wr (mkWaiter m i :: rest)) cl ->
  wr = false -> (m = exclusive -> rd = 0) ->
  EntryOk p (match m with
             | shared => mkEntry (S rd) wr rest
             | exclusive => mkEntry rd true rest end) (grant i cl).
Proof.
  intros [Hr Hw Hx Hn Hq] -> Hm. cbn [readers writer waiters] in *.
  assert (Hi : cl !! i = Some (mkClient p m waiting)) by (apply Hq; by left).
  rewrite (grant_insert i p m) by done.
  assert (Hcount : forall m', count p m' (<[i := mkClient p m reserved]> cl) =
            (if decide (m = m') then 1 else 0) + count p m' cl).
  { intros m'. pose proof (count_insert p m' cl i _ (mkClient p m reserved) Hi) as H.
    rewrite decide_False in H by (unfold owns; simpl; naive_solver).
    unfold owns in H; simpl in H. repeat case_decide; naive_solver. }
  inversion Hn as [|? ? Hnotin Hn']; subst.
  assert (Hqueue : forall j m', In (mkWaiter m' j) rest <->
            <[i := mkClient p m reserved]> cl !! j = Some (mkClient p m' waiting)).
  { intros j m'. destruct (decide (i = j)) as [<-|Hne].
    - rewrite lookup_insert_eq. split; [|done]. intros Hin. destruct Hnotin.
      apply list_elem_of_In. apply (in_map w_wake rest (mkWaiter m' i) Hin).
    - rewrite lookup_insert_ne by done. rewrite <- Hq. simpl. split; [auto|].
      intros [[= _ ?]|]; congruence. }
  destruct m; split; cbn [readers writer waiters]; rewrite ?Hcount; simpl; try done; try lia.
  intros _. by apply Hm.
Qed.

Lemma advance_loop_ok p ws : forall rd wr cl,
  EntryOk p (mkEntry rd wr ws) cl ->
  let '(e, sent) := advance_loop rd wr ws in
  EntryOk p e (deliver sent cl) /\ blocked e /\
  (forall q, q <> p -> agree q cl (deliver sent cl)).
Proof.
  induction ws as [|[m i] ws IH]; intros rd wr cl Hok; cbn [advance_loop w_mode w_wake].
  { by split_and!. }
  assert (Hi : cl !! i = Some (mkClient p m waiting)) by (apply (eo_queued _ _ _ Hok); by left).
  assert (Hother : forall q, q <> p -> agree q cl (grant i cl)).
  { intros q Hne. rewrite (grant_insert i p m) by done. by eapply agree_insert. }
  destruct m; cbn [negb].
  - destruct wr; cbn [negb].
    + split_and!; [done|by left|done].
    + specialize (IH (S rd) false (grant i cl)).
      destruct (advance_loop (S rd) false ws) as [e sent].
      destruct IH as (H1 & H2 & H3); [by apply (grant_front p rd false shared)|].
      split_and!; [done|done|]. intros q Hne. etrans; [by apply Hother|by apply H3].
  - destruct wr; rewrite ?andb_false_r, ?andb_true_r; cbn [negb].
    + split_and!; [done|by left|done].
    + destruct (Nat.eqb_spec rd 0) as [->|Hrd]; cbn [negb].
      * split_and!; [|by destruct ws; [|left]|done].
        by apply (grant_front p 0 false exclusive).
      * split_and!; [done|right; simpl; done|done].
Qed.

Lemma idle_true e : idle e = true -> e = fresh_entry.
Proof.
  destruct e as [rd wr ws]. unfold idle. cbn [readers writer waiters].
  destruct wr, ws; rewrite ?andb_false_r; try done.
  rewrite !andb_true_r. by intros ->%Nat.eqb_eq.
Qed.

(** Installing a consistent entry for one path re-establishes the invariant. *)
Lemma Inv_update t cl p e' cl' :
  Inv (mkSystem t cl) -> EntryOk p e' cl' -> blocked e' ->
  (forall q, q <> p -> agree q cl cl') ->
  Inv (mkSystem (if idle e' then delete p t else <[p := e']> t) cl').
Proof.
  intros HI Hok Hb Hag q. cbn [table clients]. destruct (decide (q = p)) as [->|Hne].
  - destruct (idle e') eqn:Hidle.
    + rewrite lookup_delete_eq. apply idle_true in Hidle as ->. by split_and!.
    + rewrite lookup_insert_eq. split_and!; [done|done|]. by intros ? [= <-].
  - destruct (HI q) as (H1 & H2 & H3). cbn [table clients] in *.
    replace ((if idle e' then delete p t else <[p:=e']> t) !! q) with (t !! q)
      by (destruct (idle e'); by rewrite ?lookup_delete_ne, ?lookup_insert_ne).
    split_and!; [|done|done]. eapply agree_entry; [by apply Hag|done].
Qed.

Lemma advance_ok t cl p e cl' :
  Inv (mkSystem t cl) -> EntryOk p e cl' -> (forall q, q <> p -> agree q cl cl') ->
  let '(t', sent) := advance t p e in Inv (mkSystem t' (deliver sent cl')).
Proof.
  intros HI Hok Hag. unfold advance. destruct e as [rd wr ws]. cbn [readers writer waiters].
  pose proof (advance_loop_ok p ws rd wr cl' Hok) as H.
  destruct (advance_loop rd wr ws) as [e sent]. destruct H as (H1 & H2 & H3).
  eapply Inv_update; [exact HI|done|done|].
  intros q Hne. etrans; [by apply Hag|by apply H3].
Qed.

(** ** Every step keeps the invariant *)
(** The entry of a path some coroutine owns a permit on or waits for exists. *)
Lemma entry_present t cl i c :
  Inv (mkSystem t cl) -> cl !! i = Some c -> exists e, t !! cl_path c = Some e.
Proof.
  intros HI Hi. destruct (HI (cl_path c)) as ([Hr Hw _ _ Hq] & _ & _).
  cbn [table clients] in *. destruct (t !! cl_path c) as [e|]; [by exists e|]. exfalso.
  destruct c as [p m phase]. simpl in *. destruct (decide (phase = waiting)) as [->|Hne].
  - by apply Hq in Hi.
  - assert (Ho : owns p m (mkClient p m phase)) by by split_and!.
    pose proof (owns_count p m cl i _ Hi Ho). destruct m; lia.
Qed.

Lemma release_ok t cl i p m phase :
  Inv (mkSystem t cl) -> cl !! i = Some (mkClient p m phase) -> phase <> waiting ->
  let '(t', sent) := release t p m in Inv (mkSystem t' (deliver sent (delete i cl))).
Proof.
  intros HI Hi Hph. unfold release.
  destruct (entry_present _ _ _ _ HI Hi) as [e He]. simpl in He. rewrite He.
  apply (advance_ok t cl).
  - done.
  - destruct (HI p) as (Hok & _). cbn [table clients] in Hok. rewrite He in Hok. simpl in Hok.
    destruct Hok as [Hr Hw Hx Hn Hq].
    assert (Hd : forall m', count p m' cl = (if decide (m = m') then 1 else 0) + count p m' (delete i cl)).
    { intros m'. rewrite (count_delete p m' cl i _ Hi). unfold owns. simpl.
      repeat case_decide; naive_solver. }
    assert (Hqd : forall j m', In (mkWaiter m' j) (waiters e) <->
              delete i cl !! j = Some (mkClient p m' waiting)).
    { intros j m'. rewrite Hq. destruct (decide (i = j)) as [<-|]; [|by rewrite lookup_delete_ne].
      rewrite Hi, lookup_delete_eq. naive_solver. }
    rewrite Hd in Hr. rewrite Hd in Hw.
    destruct m; split; cbn [readers writer waiters]; try done; simpl in *;
      destruct (writer e); try lia;
      destruct (Nat.ltb_spec 0 (readers e)); try lia; intros; specialize (Hx eq_refl); lia.
  - intros q Hne. eapply agree_delete; [done|]. by intros ?.
Qed.

Lemma filter_queue_in (ws : list Waiter) i m j :
  In (mkWaiter m j) (List.filter (fun w => negb (w_wake w =? i)) ws) <->
  In (mkWaiter m j) ws /\ j <> i.
Proof. rewrite filter_In. simpl. rewrite negb_true_iff, Nat.eqb_neq. done. Qed.

Lemma NoDup_filter_wake (ws : list Waiter) (f : Waiter -> bool) :
  NoDup (map w_wake ws) -> NoDup (map w_wake (List.filter f ws)).
Proof.
  induction ws as [|w ws IH]; simpl; [done|]. intros [Hn Hd]%NoDup_cons.
  destruct (f w); [|by apply IH]. simpl. apply NoDup_cons. split; [|by apply IH].
  intros [w' [? Hin]]%list_elem_of_In%in_map_iff. apply Hn, list_elem_of_In, in_map_iff.
  exists w'. split; [done|]. by apply filter_In in Hin as [? _].
Qed.

Lemma filter_drops {A} (f : A -> bool) (l : list A) x :
  In x l -> f x = false -> length (List.filter f l) < length l.
Proof.
  induction l as [|y l IH]; simpl; [done|]. intros [->|Hin] Hf.
  - rewrite Hf. pose proof (filter_length_le f l). lia.
  - specialize (IH Hin Hf). destruct (f y); simpl; lia.
Qed.

Lemma filter_all {A} (f : A -> bool) (l : list A) :
  (forall x, In x l -> f x = true) -> List.filter f l = l.
Proof.
  induction l as [|y l IH]; simpl; intros H; [done|].
  rewrite (H y) by auto. f_equal. apply IH. auto.
Qed.

Lemma filter_idle_length {A} (f : A -> bool) (l : list A) :
  length l - length (List.filter f l) =? 0 = false <-> List.filter f l <> l.
Proof.
  rewrite Nat.eqb_neq. split.
  - intros H E. rewrite E in H. lia.
  - intros H E. apply H, filter_all. intros x Hin. destruct (f x) eqn:Hf; [done|].
    pose proof (filter_drops f l x Hin Hf). lia.
Qed.

Lemma abandon_ok t cl i p m phase received e t' sent :
  Inv (mkSystem t cl) -> cl !! i = Some (mkClient p m phase) -> phase <> holding ->
  acquire_resume t p m i received true = (Err e, (t', sent)) ->
  Inv (mkSystem t' (deliver sent (delete i cl))).
Proof.
  intros HI Hi Hph. unfold acquire_resume.
  destruct (entry_present _ _ _ _ HI Hi) as [en He]. simpl in He. rewrite He.
  intros H. apply (f_equal snd) in H. simpl in H.
  destruct (HI p) as ([Hr Hw Hx Hn Hq] & _ & _). cbn [table clients] in *.
  rewrite He in Hr, Hw, Hx, Hn, Hq. simpl in *.
  destruct (decide (phase = waiting)) as [->|Hne].
  - assert (Hin : In (mkWaiter m i) (waiters en)) by by apply Hq.
    match type of H with (if ?c then _ else _) = _ => replace c with false in H end.
    2:{ symmetry. apply filter_idle_length. intros E. rewrite <- E in Hin.
        by apply filter_queue_in in Hin as [_ ?]. }
    pose proof (advance_ok t cl p
      (mkEntry (readers en) (writer en)
         (List.filter (fun w => negb (w_wake w =? i)) (waiters en))) (delete i cl) HI) as Hadv.
    rewrite H in Hadv. apply Hadv; clear Hadv.
    + assert (Hd : forall m', count p m' (delete i cl) = count p m' cl).
      { intros m'. rewrite (count_delete p m' cl i _ Hi).
        by rewrite decide_False by (unfold owns; simpl; naive_solver). }
      split; cbn [readers writer waiters]; rewrite ?Hd; try done.
      * by apply NoDup_filter_wake.
      * intros j m'. rewrite filter_queue_in, Hq.
        destruct (decide (i = j)) as [<-|]; [rewrite lookup_delete_eq; naive_solver|].
        rewrite lookup_delete_ne by done. naive_solver.
    + intros q Hq'. eapply agree_delete; [done|]. by intros ?.
  - match type of H with (if ?c then _ else _) = _ => replace c with true in H end.
    2:{ rewrite filter_all; [by rewrite Nat.sub_diag|]. intros [m' j] Hin.
        apply negb_true_iff, Nat.eqb_neq. simpl. intros ->. apply Hq in Hin. naive_solver. }
    pose proof (release_ok t cl i p m phase HI Hi Hne) as Hrel. by rewrite H in Hrel.
Qed.

Lemma take_ok t cl i p m :
  Inv (mkSystem t cl) -> cl !! i = None -> forall t',
  acquire_begin t p m i false = (begin_guard, t') ->
  Inv (mkSystem t' (<[i := mkClient p m holding]> cl)).
Proof.
  intros HI Hi t'. unfold acquire_begin.
  destruct (HI p) as ([Hr Hw Hx Hn Hq] & _ & _). cbn [table clients] in *.
  set (en := default fresh_entry (t !! p)) in *.
  match goal with |- (if ?c then _ else _) = _ -> _ => destruct c eqn:Hc; [|done] end.
  intros [= <-]. destruct en as [rd wr ws]. cbn [readers writer waiters] in *.
  destruct ws; [|done]. destruct wr; [done|]. simpl in Hc.
  assert (Hcount : forall m', count p m' (<[i := mkClient p m holding]> cl) =
            (if decide (m = m') then 1 else 0) + count p m' cl).
  { intros m'. rewrite count_insert_fresh by done. unfold owns. simpl.
    repeat case_decide; naive_solver. }
  set (e' := match m with shared => mkEntry (S rd) false [] | exclusive => mkEntry rd true [] end).
  replace (<[p := e']> t) with (if idle e' then delete p t else <[p := e']> t).
  2:{ unfold e'. destruct m; simpl; [done|]. unfold idle. simpl. by rewrite andb_false_r. }
  eapply Inv_update; [exact HI| | |].
  - assert (Hqueue : forall j m', In (mkWaiter m' j) [] <->
              <[i := mkClient p m holding]> cl !! j = Some (mkClient p m' waiting)).
    { intros j m'. destruct (decide (i = j)) as [<-|Hne].
      - rewrite lookup_insert_eq. split; [done|]. by intros [=].
      - rewrite lookup_insert_ne by done. apply Hq. }
    unfold e'. destruct m; split; cbn [readers writer waiters]; rewrite ?Hcount; simpl; try done; try lia.
    intros _. simpl in Hc. apply Nat.eqb_eq in Hc. lia.
  - unfold e'. by destruct m.
  - intros q Hne. apply agree_insert_fresh; [done|]. by intros ?.
Qed.

Lemma queue_ok t cl i p m :
  Inv (mkSystem t cl) -> cl !! i = None -> forall t',
  acquire_begin t p m i false = (begin_wait, t') ->
  Inv (mkSystem t' (<[i := mkClient p m waiting]> cl)).
Proof.
  intros HI Hi t'. unfold acquire_begin.
  destruct (HI p) as ([Hr Hw Hx Hn Hq] & Hb & _). cbn [table clients] in *.
  set (en := default fresh_entry (t !! p)) in *.
  match goal with |- (if ?c then _ else _) = _ -> _ => destruct c eqn:Hc; [done|] end.
  intros [= <-]. destruct en as [rd wr ws]. cbn [readers writer waiters] in *.
  set (e' := mkEntry rd wr (ws ++ [mkWaiter m i])).
  replace (<[p := e']> t) with (if idle e' then delete p t else <[p := e']> t).
  2:{ unfold idle, e'. simpl. destruct ws; simpl; by rewrite andb_false_r. }
  assert (Hcount : forall m', count p m' (<[i := mkClient p m waiting]> cl) = count p m' cl).
  { intros m'. rewrite count_insert_fresh by done.
    by rewrite decide_False by (unfold owns; simpl; naive_solver). }
  eapply Inv_update; [exact HI| | |].
  - unfold e'. split; cbn [readers writer waiters]; rewrite ?Hcount; try done.
    + rewrite map_app. apply NoDup_app. split_and!; [done| |apply NoDup_singleton].
      intros x [[m' j] [<- Hin]]%list_elem_of_In%in_map_iff Hx'%list_elem_of_singleton.
      apply Hq in Hin. simpl in *. congruence.
    + intros j m'. rewrite in_app_iff, Hq. simpl. destruct (decide (i = j)) as [<-|Hne].
      * rewrite lookup_insert_eq, Hi. naive_solver.
      * rewrite lookup_insert_ne by done. naive_solver.
  - unfold e', blocked in *. cbn [readers writer waiters] in *. destruct ws as [|w ws]; simpl.
    + simpl in Hc. destruct wr; [by left|]. right. simpl in Hc. destruct m; [done|].
      split; [done|]. by apply Nat.eqb_neq.
    + done.
  - intros q Hne. apply agree_insert_fresh; [done|]. by intros ?.
Qed.

Lemma resume_ok t cl i p m t' sent :
  Inv (mkSystem t cl) -> cl !! i = Some (mkClient p m reserved) ->
  acquire_resume t p m i (Ok tt) false = (Ok tt, (t', sent)) ->
  Inv (mkSystem t' (deliver sent (<[i := mkClient p m holding]> cl))).
Proof.
  intros HI Hi. unfold acquire_resume. destruct (t !! p); [|done].
  intros [= <- <-]. simpl. intros q. destruct (HI q) as (H1 & H2 & H3).
  cbn [table clients] in *. split_and!; [|done|done]. eapply agree_entry; [|done]. split.
  - intros m'. pose proof (count_insert q m' cl i _ (mkClient p m holding) Hi) as H.
    unfold owns in H. simpl in H. repeat case_decide; naive_solver.
  - intros j m'. destruct (decide (i = j)) as [<-|]; [|by rewrite lookup_insert_ne].
    rewrite lookup_insert_eq, Hi. naive_solver.
Qed.

Lemma step_inv s s' : Inv s -> step s s' -> Inv s'.
Proof.
  intros HI Hs. destruct Hs.
  - by eapply take_ok.
  - by eapply queue_ok.
  - unfold acquire_begin in H. by simplify_eq.
  - by eapply resume_ok.
  - by eapply abandon_ok.
  - pose proof (release_ok t cl i path mode holding HI H ltac:(done)) as Hr. by rewrite H0 in Hr.
Qed.

Lemma reachable_inv s : reachable s -> Inv s.
Proof.
  induction 1 as [|s s' _ IH Hs]; [|by eapply step_inv].
  intros p. cbn [table clients]. rewrite lookup_empty. simpl. split_and!; [|done|done].
  assert (Hc : forall m, count p m ∅ = 0).
  { intros m. unfold count. by rewrite map_filter_empty, map_size_empty. }
  split; simpl; rewrite ?Hc; try done; constructor.
Qed.

(** ** Theorems *)
Lemma owner_phase i c s :
  clients s !! i = Some c -> cl_phase c <> waiting -> owns (cl_path c) (cl_mode c) c.
Proof. intros. unfold owns. by split_and!. Qed.

(** C8: however coroutines interleave, are cancelled or resume late, an exclusive
    permit on a path (whether its owner already resumed or not) excludes every other
    permit on that path. *)
Theorem lock_exclusion s i j c d :
  reachable s ->
  clients s !! i = Some c -> clients s !! j = Some d -> cl_path c = cl_path d ->
  cl_phase c <> waiting -> cl_phase d <> waiting -> cl_mode c = exclusive -> i = j.
Proof.
  intros Hr Hi Hj Hp Hc Hd Hm. destruct (decide (i = j)) as [|Hne]; [done|]. exfalso.
  destruct (reachable_inv s Hr (cl_path c)) as ([Hrd Hw Hx _ _] & _ & _).
  pose proof (owner_phase i c s Hi Hc) as Ho. rewrite Hm in Ho.
  pose proof (owner_phase j d s Hj Hd) as Ho'. rewrite <- Hp in Ho'.
  pose proof (count_delete (cl_path c) exclusive _ i c Hi) as Hcount.
  rewrite decide_True in Hcount by done.
  destruct (writer _); [|lia]. specialize (Hx eq_refl).
  destruct (cl_mode d).
  - pose proof (owns_count _ _ _ _ _ Hj Ho'). lia.
  - assert (Hj' : delete i (clients s) !! j = Some d) by by rewrite lookup_delete_ne.
    pose proof (owns_count _ _ _ _ _ Hj' Ho'). lia.
Qed.

(** C9: no wakeup is ever lost: while a coroutine waits for a path, some coroutine
    owns a permit on it whose release will serve the queue again; with no owner left
    nobody waits. *)
Theorem no_lost_wakeup s i c :
  reachable s -> clients s !! i = Some c -> cl_phase c = waiting ->
  exists j d, clients s !! j = Some d /\ cl_path d = cl_path c /\ cl_phase d <> waiting.
Proof.
  intros Hr Hi Hw. destruct c as [p m phase]. simpl in *. subst phase.
  destruct (reachable_inv s Hr p) as ([Hrd Hwr _ _ Hq] & Hb & _).
  apply Hq in Hi. unfold blocked in Hb. destruct (waiters _) as [|w ws]; [done|].
  assert (exists m', 0 < count p m' (clients s)) as [m' Hpos].
  { destruct Hb as [Hb|[_ Hb]]; [rewrite Hb in Hwr; exists exclusive|exists shared]; lia. }
  apply count_pos in Hpos as (j & d & Hj & ? & ? & ?). by exists j, d.
Qed.

(** the table keeps an entry exactly for the paths some coroutine waits for or
    owns: a resumed waiter always finds its entry, and an unused path is forgotten. *)
Theorem entries_live s p :
  reachable s ->
  (exists e, table s !! p = Some e) <->
  (exists i c, clients s !! i = Some c /\ cl_path c = p).
Proof.
  intros Hr. pose proof (reachable_inv s Hr) as HI. split.
  - intros [e He]. destruct (HI p) as ([Hrd Hw _ _ Hq] & _ & Hlive).
    rewrite He in *. simpl in *. specialize (Hlive e eq_refl).
    assert (Hpos : forall m, 0 < count p m (clients s) ->
              exists i c, clients s !! i = Some c /\ cl_path c = p).
    { intros m Hm. apply count_pos in Hm as (i & c & Hi & ? & _). eauto. }
    unfold idle in Hlive. destruct (waiters e) as [|[m i] ws].
    + rewrite andb_true_r in Hlive. destruct (writer e).
      * apply (Hpos exclusive). lia.
      * rewrite andb_true_r in Hlive. apply Nat.eqb_neq in Hlive.
        apply (Hpos shared). lia.
    + exists i, (mkClient p m waiting). split; [apply Hq; by left|done].
  - intros (i & c & Hi & <-). destruct s. by eapply entry_present.
Qed.

(** grants are first-in first-out: a newcomer is admitted only when nobody is
    queued, and handing the path onward serves a prefix of the queue. *)
Theorem grants_are_fifo t path mode wake t' rd wr ws :
  (acquire_begin t path mode wake false = (begin_guard, t') ->
   waiters (default fresh_entry (t !! path)) = []) /\
  let '(e, sent) := advance_loop rd wr ws in
  map w_wake ws = sent ++ map w_wake (waiters e).
Proof.
  split.
  - unfold acquire_begin. destruct (waiters (default fresh_entry (t !! path))); [done|].
    by intros [=].
  - revert rd wr. induction ws as [|[m i] ws IH]; intros rd wr; cbn [advance_loop w_mode w_wake]; [done|].
    destruct m.
    + destruct wr; [done|]. cbn [negb]. specialize (IH (S rd) false).
      destruct (advance_loop (S rd) false ws). simpl. by f_equal.
    + destruct (negb _); done.
Qed.

(** A reader holds [p] while a writer queues behind it. *)
Definition demo : System :=
  mkSystem (<["p" := mkEntry 1 false [mkWaiter exclusive 1]]> ∅)
    (<[1 := mkClient "p" exclusive waiting]> (<[0 := mkClient "p" shared holding]> ∅)).

Lemma demo_reachable : reachable demo.
Proof.
  eapply reach_step; [eapply reach_step; [apply reach_start|]|].
  - apply (step_take ∅ ∅ 0 "p" shared (<["p" := mkEntry 1 false []]> ∅)); [done|].
    by vm_compute.
  - apply (step_queue _ _ 1 "p" exclusive); [done|]. by vm_compute.
Qed.

(** After the reader releases, the writer owns the path alone. *)
Definition demo_after : System :=
  mkSystem (<["p" := mkEntry 0 true []]> ∅) (<[1 := mkClient "p" exclusive reserved]> ∅).

Lemma demo_after_reachable : reachable demo_after.
Proof.
  eapply reach_step; [apply demo_reachable|].
  change demo_after with
    (mkSystem (<["p" := mkEntry 0 true []]> ∅)
       (<[1 := mkClient "p" exclusive reserved]> (∅ : gmap nat Client))).
  replace (<[1 := mkClient "p" exclusive reserved]> (∅ : gmap nat Client))
    with (deliver [1] (delete 0 (clients demo))) by by vm_compute.
  eapply (step_release (table demo) (clients demo) 0 "p" shared); [done|]. by vm_compute.
Qed.

Lemma lock_exclusion_witness :
  reachable demo_after /\
  forall j d, clients demo_after !! j = Some d -> cl_path d = "p" -> cl_phase d <> waiting -> 1 = j.
Proof.
  split; [exact demo_after_reachable|]. intros j d Hj Hp Hd.
  exact (lock_exclusion demo_after 1 j (mkClient "p" exclusive reserved) d demo_after_reachable
           eq_refl Hj (eq_sym Hp) ltac:(discriminate) Hd eq_refl).
Defined.

Lemma no_lost_wakeup_witness :
  exists j d, clients demo !! j = Some d /\ cl_path d = "p" /\ cl_phase d <> waiting.
Proof.
  exact (no_lost_wakeup demo 1 (mkClient "p" exclusive waiting) demo_reachable eq_refl eq_refl).
Defined.

Lemma entries_live_witness :
  reachable demo /\
  ((exists e, table demo !! "p" = Some e) <->
   exists i c, clients demo !! i = Some c /\ cl_path c = "p").
Proof. split; [exact demo_reachable|]. exact (entries_live demo "p" demo_reachable). Defined.
