(* ===== verification/Admission.v ===== *)
(** * oran-tool: input parsing and path admission

    Models [src/oran-tool/parse_input.cpp] and [src/oran-tool/path_resolution.cpp]:
    the checks every built-in runs on its JSON input, the choice of the lock a call
    needs, and the resolution of a prepared path request through the workspace. *)
From S2P Require Import Prelude Core Json Rules Paths Workspace Approval TurnId AuditRows.
Import EnumNames.

(** ** [parse_input.cpp] *)
Section Parsing.
Context (parse : JsonReader).

Fixpoint first_unknown (m : list (string * json)) (allowed : list string) : option string :=
  match m with
  | [] => None
  | (key, _) :: m => if bool_decide (key ∈ allowed) then first_unknown m allowed else Some key
  end.

Definition parse_input_object (input_json tool_name : string) (allowed_fields : list string)
    : Result json :=
  match parse input_json with
  | ParseFailed what | ParseThrew what =>
      Err (Errors.with_ctx (Errors.invalid_argument (tool_name +:+ ": input is not valid JSON"))
             "detail" what)
  | Parsed (JObject m) =>
      match allowed_fields with
      | [] => Ok (JObject m)
      | _ =>
          match first_unknown m allowed_fields with
          | Some key => Err (Errors.with_ctx
              (Errors.invalid_argument (tool_name +:+ ": unknown input field")) "field" key)
          | None => Ok (JObject m)
          end
      end
  | Parsed _ => Err (Errors.invalid_argument (tool_name +:+ ": input must be a JSON object"))
  end.

Definition require_string_field (input : json) (tool_name field : string) : Result string :=
  match jfind input field with
  | Some (JString s) => Ok s
  | _ => Err (Errors.invalid_argument
      (tool_name +:+ ": input must include a string `" +:+ field +:+ "` field"))
  end.

Definition nul : ascii := Ascii.zero.

Definition require_path_field (input : json) (tool_name : string) : Result string :=
  let? path := require_string_field input tool_name "path" in
  fail? bool_decide (path = ""%string) || bool_decide (nul ∈ lit path) with
    Errors.invalid_argument (tool_name +:+ ": `path` must be non-empty and contain no NUL bytes");
  Ok path.

(** The reader makes a literal without a sign unsigned and a negative one signed, so
    an integer is its value; one outside 64 bits is read as a float. *)
Definition parse_positive_unsigned (raw : json) (tool_name field : string) : Result Z :=
  let positive := Errors.invalid_argument (tool_name +:+ ": `" +:+ field +:+ "` must be positive") in
  match raw with
  | JInt v =>
      if (v <? 0)%Z then Err (Errors.with_ctx positive "value" (pretty v))
      else if (v =? 0)%Z then Err positive
      else Ok v
  | _ => Err (Errors.invalid_argument
      (tool_name +:+ ": `" +:+ field +:+ "` must be a positive integer"))
  end.

Definition file_limit : Z := 16 * 1024 * 1024.

Definition parse_file_max_bytes (input : json) (tool_name : string) : Result Z :=
  match jfind input "max_bytes" with
  | None => Ok file_limit
  | Some raw =>
      let? value := parse_positive_unsigned raw tool_name "max_bytes" in
      fail? (file_limit <? value)%Z with
        Errors.with_ctx (Errors.with_ctx
          (Errors.invalid_argument (tool_name +:+ ": `max_bytes` must be <= 16777216"))
          "value" (pretty value)) "max_bytes" (pretty file_limit);
      Ok value
  end.

(** ** Locks *)
Definition path_lock_direction (capabilities : list Capability) : option LockDirection :=
  if existsb (fun cap => bool_decide (cap = write_file) || bool_decide (cap = edit_file) ||
                         bool_decide (cap = delete_path)) capabilities
  then Some lock_write
  else if existsb (fun cap => bool_decide (cap = read_file) || bool_decide (cap = list_directory))
            capabilities
  then Some lock_read
  else None.

(** [tool::PathRequest]. *)
Inductive PathIntent := pi_none | pi_read | pi_write.
#[export] Instance PathIntent_eq_dec : EqDecision PathIntent.
Proof. solve_decision. Defined.
Record PathRequest := mkPathRequest {
  req_path : string; req_intent : PathIntent; req_write_intent : WriteIntent;
  req_allow_outside_workspace : bool }.

Definition prepare_lock_path (tool_name input_json : string) : option PathRequest :=
  match parse_input_object input_json tool_name [] with
  | Err _ => None
  | Ok parsed =>
      match require_string_field parsed tool_name "path" with
      | Err _ => None
      | Ok path => Some (mkPathRequest path pi_none (mkWriteIntent false) false)
      end
  end.
End Parsing.

(** ** Resolution *)
(** [tool::ResolvedToolPath]. *)
Record ResolvedToolPath (A : Type) := mkToolPath {
  tp_authority : A; tp_authority_relative_path : string; tp_absolute_path : string;
  tp_relative_path : string; tp_display_path : string; tp_input_path_hash : string;
  tp_workspace_root_hash : string; tp_symlink_followed : bool; tp_created_parents : bool;
  tp_outside_workspace_explicit_override : bool; tp_per_call_outside_workspace_override : bool;
  tp_override_root_index : option nat }.
Arguments mkToolPath {A}.
Arguments tp_authority {A}.
Arguments tp_authority_relative_path {A}.
Arguments tp_absolute_path {A}.
Arguments tp_relative_path {A}.
Arguments tp_display_path {A}.
Arguments tp_input_path_hash {A}.
Arguments tp_workspace_root_hash {A}.
Arguments tp_symlink_followed {A}.
Arguments tp_created_parents {A}.
Arguments tp_outside_workspace_explicit_override {A}.
Arguments tp_per_call_outside_workspace_override {A}.
Arguments tp_override_root_index {A}.

Record PathResolutionReport (A : Type) := mkReport {
  pr_path : option (ResolvedToolPath A); pr_metadata_json : string;
  pr_error : option Error; pr_requires_approval : bool }.
Arguments mkReport {A}.
Arguments pr_path {A}.
Arguments pr_metadata_json {A}.
Arguments pr_error {A}.
Arguments pr_requires_approval {A}.

Definition empty_report {A} : PathResolutionReport A := mkReport None "{}" None false.

Section Resolving.
Context `{FileSystem} {A : Type} `{DirectoryAuthority A}.
Context (sha256 : bytes -> bytes) (dump : JsonWriter).

Definition context_value (e : Error) (key : string) : string :=
  default ""%string (Errors.ctx_find e key).

Definition resolve_request (ws : Workspace A) (request : PathRequest) : Result (ResolvedPath A) :=
  match req_intent request with
  | pi_read => resolve_read ws (req_path request)
  | pi_write => resolve_write ws (req_path request) (req_write_intent request)
  | pi_none => Err (Errors.internal "unknown workspace path intent")
  end.

Definition to_tool_path (ws : Workspace A) (input_path : string) (r : ResolvedPath A)
    : ResolvedToolPath A :=
  mkToolPath (rp_authority r) (rp_authority_relative_path r) (rp_absolute_path r)
    (rp_relative_path r)
    (if rp_per_call_outside_workspace_override r then rp_absolute_path r
     else display_path ws (rp_absolute_path r))
    (input_hash_hex sha256 input_path) (input_hash_hex sha256 (root ws))
    (rp_symlink_followed r) (rp_created_parents r) (rp_outside_workspace_explicit_override r)
    (rp_per_call_outside_workspace_override r) (rp_override_root_index r).

Definition error_kind_name (k : ErrorKind) : string :=
  match k with
  | ek_ok => "ok" | ek_cancelled => "cancelled" | ek_invalid_argument => "invalid_argument"
  | ek_not_found => "not_found" | ek_permission_denied => "permission_denied"
  | ek_capability_not_granted => "capability_not_granted" | ek_config => "config"
  | ek_auth => "auth" | ek_io => "io" | ek_network => "network" | ek_rate_limit => "rate_limit"
  | ek_upstream => "upstream" | ek_parsing => "parsing" | ek_timeout => "timeout"
  | ek_conflict => "conflict" | ek_not_modified => "not_modified" | ek_storage => "storage"
  | ek_hook_timeout => "hook_timeout" | ek_hook_failed => "hook_failed"
  | ek_mailbox_overflowed => "mailbox_overflowed" | ek_internal => "internal"
  end%string.

Definition path_resolution_error_metadata_json (ws : Workspace A) (input_path : string) (e : Error)
    : string :=
  dump (jobject [("path_resolution"%string, jobject [
    ("input_path_hash", JString (input_hash_hex sha256 input_path));
    ("resolved_relative_path", JNull);
    ("workspace_root_hash", JString (input_hash_hex sha256 (root ws)));
    ("resolved_display_path", JNull); ("symlink_followed", JNull); ("created_parents", JNull);
    ("outside_workspace_explicit_override", JNull);
    ("per_call_outside_workspace_override", JNull); ("override_root_index", JNull);
    ("error_kind", JString (error_kind_name (err_kind e)));
    ("error_reason", JString (context_value e "reason"))]%string)]).

Definition path_resolution_metadata_json (p : ResolvedToolPath A) : string :=
  dump (jobject [("path_resolution"%string, jobject [
    ("input_path_hash", JString (tp_input_path_hash p));
    ("resolved_relative_path",
      if tp_per_call_outside_workspace_override p then JNull else JString (tp_relative_path p));
    ("workspace_root_hash", JString (tp_workspace_root_hash p));
    ("resolved_display_path", JString (tp_display_path p));
    ("symlink_followed", JBool (tp_symlink_followed p));
    ("created_parents", JBool (tp_created_parents p));
    ("outside_workspace_explicit_override", JBool (tp_outside_workspace_explicit_override p));
    ("per_call_outside_workspace_override", JBool (tp_per_call_outside_workspace_override p));
    ("override_root_index",
      match tp_override_root_index p with Some i => JInt (Z.of_nat i) | None => JNull end)
    ]%string)]).

(** [resolve_tool_path]. *)
Definition resolve_tool_path (ws : Workspace A) (request : PathRequest) : PathResolutionReport A :=
  if bool_decide (req_intent request = pi_none) then empty_report
  else
    let resolved := resolve_request ws request in
    let '(resolved, requires_approval) :=
      match resolved with
      | Err e =>
          if req_allow_outside_workspace request && bool_decide (req_intent request = pi_read) &&
             (bool_decide (context_value e "reason" = "outside_workspace"%string) ||
              bool_decide (context_value e "reason" = "symlink_escape"%string))
          then
            let outside := resolve_read_outside_workspace ws (req_path request) in
            (outside, is_ok outside)
          else (resolved, false)
      | Ok _ => (resolved, false)
      end in
    match resolved with
    | Err e =>
        mkReport None (path_resolution_error_metadata_json ws (req_path request) e) (Some e) false
    | Ok r =>
        let path := to_tool_path ws (req_path request) r in
        mkReport (Some path) (path_resolution_metadata_json path) None requires_approval
    end.
End Resolving.

(** ** The override flag *)
Section Override.
Context `{FileSystem} {A : Type} `{DirectoryAuthority A}.

Lemma probe_not_override c input m (a : A) extra r :
  anchored_probe c input m a extra = Ok r -> rp_per_call_outside_workspace_override r = false.
Proof.
  unfold anchored_probe. destruct (open_file_beneath _ _); [by intros [= <-]|].
  by repeat case_match.
Qed.

(** Ordinary resolution never reports a per-call override. *)
Lemma resolve_request_not_override (ws : Workspace A) request r :
  resolve_request ws request = Ok r -> rp_per_call_outside_workspace_override r = false.
Proof.
  unfold resolve_request. destruct (req_intent request); [done| |].
  - unfold resolve_read, resolve_read_through_authority. intros Hr. ok_inv.
    destruct (find_matching_root _ _ _); [|done]. ok_inv.
    destruct x; [|by eapply probe_not_override].
    destruct (resolve_existing_readable _ _ _ _ _ _) as [r'|] eqn:Ee; [|by eapply probe_not_override].
    injection Hr as <-. unfold resolve_existing_readable in Ee. ok_inv.
    destruct (find_matching_root _ _ _) in Ee; [|done]. ok_inv.
    destruct (find_matching_root _ _ _) in Ee; [|done]. by injection Ee as <-.
  - unfold resolve_write, resolve_mutating. intros Hr. ok_inv.
    destruct (find_matching_root _ _ _); [|done]. by injection Hr as <-.
Qed.

(** A report's path carries the override exactly when the report asks for approval. *)
Lemma report_override sha256 dump (ws : Workspace A) request p :
  pr_path (resolve_tool_path sha256 dump ws request) = Some p ->
  tp_per_call_outside_workspace_override p =
  pr_requires_approval (resolve_tool_path sha256 dump ws request).
Proof.
  unfold resolve_tool_path. destruct (bool_decide (req_intent request = pi_none)); [done|].
  destruct (resolve_request ws request) as [r|e] eqn:Er.
  - simpl. intros [= <-]. by eapply resolve_request_not_override.
  - match goal with |- context [if ?c then (_, _) else _] => destruct c end; [|done].
    destruct (resolve_read_outside_workspace ws (req_path request)) as [r|] eqn:Eo; [|done].
    simpl. intros [= <-]. unfold resolve_read_outside_workspace, build_per_call_outside_resolved in Eo.
    ok_inv. destruct (if _ || _ then _ else _). ok_inv. by subst.
Qed.
End Override.

(** ** Theorems *)
(** the lock a tool takes covers what it may do: a tool that can change a file
    takes the exclusive one, a tool that only reads the shared one, any other none. *)
Lemma path_lock_direction_spec caps :
  path_lock_direction caps =
  if decide (write_file ∈ caps \/ edit_file ∈ caps \/ delete_path ∈ caps) then Some lock_write
  else if decide (read_file ∈ caps \/ list_directory ∈ caps) then Some lock_read else None.
Proof.
  unfold path_lock_direction.
  destruct (existsb _ caps) eqn:E.
  - apply existsb_exists in E as (c & Hin & Hc). apply list_elem_of_In in Hin.
    rewrite decide_True; [done|]. apply orb_true_iff in Hc as [Hc|Hc]; [apply orb_true_iff in Hc as [Hc|Hc]|];
      bool_prop; subst; auto.
  - rewrite decide_False.
    2:{ intros H. apply not_true_iff_false in E. apply E. apply existsb_exists.
        destruct H as [H|[H|H]]; eexists; (split; [by apply list_elem_of_In|reflexivity]). }
    clear E. destruct (existsb _ caps) eqn:E.
    + apply existsb_exists in E as (c & Hin & Hc). apply list_elem_of_In in Hin.
      rewrite decide_True; [done|]. apply orb_true_iff in Hc as [Hc|Hc]; bool_prop; subst; auto.
    + rewrite decide_False; [done|].
      intros H. apply not_true_iff_false in E. apply E. apply existsb_exists.
      destruct H as [H|H]; eexists; (split; [by apply list_elem_of_In|reflexivity]).
Qed.

(** the path a call may touch was either resolved inside the workspace's grants for
    its direction, or it is a read the request explicitly allowed to leave the
    workspace, and then the report demands an approval. *)
Theorem resolve_tool_path_guarded `{FileSystemLaws} {A : Type} `{DirectoryAuthority A}
    sha256 dump raw options (ws : Workspace A) request p :
  anchored_roots raw options -> create raw options = Ok ws ->
  pr_path (resolve_tool_path sha256 dump ws request) = Some p ->
  let report := resolve_tool_path sha256 dump ws request in
  pr_error report = None /\
  ((pr_requires_approval report = false /\
    exists r, p = to_tool_path sha256 ws (req_path request) r /\
      contained (Workspace.grants ws match req_intent request with pi_write => lock_write | _ => lock_read end) r) \/
   (pr_requires_approval report = true /\ req_intent request = pi_read /\
    req_allow_outside_workspace request = true /\
    tp_per_call_outside_workspace_override p = true)).
Proof.
  intros Hraw Hc Hp. unfold resolve_tool_path in *.
  destruct (bool_decide (req_intent request = pi_none)) eqn:En; [done|]. bool_prop.
  destruct (resolve_request ws request) as [r|e] eqn:Er.
  - simpl in *. injection Hp as <-. split; [done|]. left. split; [done|]. exists r. split; [done|].
    unfold resolve_request in Er. destruct (req_intent request); [done| |].
    + by eapply read_in_grants.
    + by eapply write_in_grants.
  - match type of Hp with context [if ?c then _ else _] => destruct c eqn:Ec end; [|done].
    bool_prop.
    destruct (resolve_read_outside_workspace ws (req_path request)) as [r|] eqn:Eo; [|done].
    simpl in *. injection Hp as <-. split; [done|]. right. split_and!; [done|done|done|].
    simpl. by eapply resolve_outside_flagged.
Qed.

Import Disk.
Definition outside_request : PathRequest :=
  mkPathRequest "/etc/passwd" pi_read (mkWriteIntent false) true.

Lemma resolve_tool_path_guarded_witness :
  let p := mkToolPath "/etc" "passwd" "/etc/passwd" "" "/etc/passwd" "" "" false false true true None in
  let report := resolve_tool_path toy_sha toy_dump Disk.ws outside_request in
  pr_error report = None /\
  ((pr_requires_approval report = false /\
    exists r, p = to_tool_path toy_sha Disk.ws (req_path outside_request) r /\
      contained (Workspace.grants Disk.ws lock_read) r) \/
   (pr_requires_approval report = true /\ pi_read = pi_read /\ true = true /\
    tp_per_call_outside_workspace_override p = true)).
Proof.
  apply (resolve_tool_path_guarded toy_sha toy_dump "/ws" (mkOptions ["/opt"%string] [])
           Disk.ws outside_request); [by repeat constructor|vm_compute; reflexivity..].
Defined.
