(* ===== verification/Dispatch.v ===== *)
(** * oran-tool: the registry and the dispatch pipeline

    Models [src/oran-tool/registry.cpp], [approval_resolution.cpp] and [output.cpp].
    A dispatch is a function of its inputs and of the parties it consults; it
    returns the result, the state it leaves (broker and issued token) and the
    effects it performed, in order.  The parties are the arguments of [Services]:
    the audit sink, the host's bus, the path-lock table's answer, the tool's own
    code, libsodium's primitives, RE2 and the JSON library. *)
From stdpp Require Import sorting.
From S2P Require Import Prelude.
From S2P Require Import Core.
From S2P Require Import TurnId.
From S2P Require Import Utf8.
From S2P Require Import Json.
From S2P Require Import Schema.
From S2P Require Import Rules.
From S2P Require Import Approval.
From S2P Require Import Hooks.
From S2P Require Import AuditRows.
From S2P Require Import Paths.
From S2P Require Import Workspace.
From S2P Require Import PathLocks.
From S2P Require Import Admission.
Import EnumNames.
#[local] Open Scope Z_scope.

(** ** Outputs *)
Record Attachment := mkAttachment {
  at_file_path : string; at_mime_type : string; at_byte_size : option Z;
  at_fingerprint : option string }.
Record Output := mkOutput {
  out_text : string; out_data_json : option string; out_attachments : list Attachment;
  out_usage : ToolUsage; out_is_error : bool }.
Definition text_only (text : string) : Output := mkOutput text None [] no_usage false.

Record OutputCapOptions := mkCaps { max_text_bytes : nat; max_data_bytes : nat }.

Definition set_truncated (u : ToolUsage) : ToolUsage :=
  mkUsage (u_bytes_read u) (u_bytes_written u) (u_files_touched u) (u_match_count u)
    (u_cost_estimate u) (u_wall_time u) true (u_data_dropped u).
Definition set_data_dropped (u : ToolUsage) : ToolUsage :=
  mkUsage (u_bytes_read u) (u_bytes_written u) (u_files_touched u) (u_match_count u)
    (u_cost_estimate u) (u_wall_time u) (u_truncated u) true.

Definition cap_text (max : nat) (o : Output) : Output :=
  if negb (max =? 0)%nat && (max <? String.length (out_text o))%nat
  then mkOutput (str (truncate_to_code_point (lit (out_text o)) max)) (out_data_json o)
         (out_attachments o) (set_truncated (out_usage o)) (out_is_error o)
  else o.
Definition cap_data (max : nat) (o : Output) : Output :=
  match out_data_json o with
  | Some d =>
      if negb (max =? 0)%nat && (max <? String.length d)%nat
      then mkOutput (out_text o) None (out_attachments o) (set_data_dropped (out_usage o))
             (out_is_error o)
      else o
  | None => o
  end.
(** [apply_output_caps]; the report it returns is unused by its caller. *)
Definition apply_output_caps (o : Output) (caps : OutputCapOptions) : Output :=
  cap_data (max_data_bytes caps) (cap_text (max_text_bytes caps) o).

(** ** The context of a call *)
Record DispatchContext (A : Type) := mkContext {
  cx_mode : Mode;
  cx_rules : list Rule;
  cx_parent_policy : option (list Rule * Mode);
  cx_has_broker : bool;
  cx_approval_token : option ApprovalToken;
  cx_has_token_output : bool;
  cx_now : Z;
  cx_bus : option Bus;
  cx_active_tools : option (list string);
  cx_workspace : option (Workspace A);
  cx_has_path_locks : bool;
  cx_resolved_path : option (ResolvedToolPath A);
  cx_output_caps : OutputCapOptions;
  cx_parent_turn_id : option TurnId;
  cx_scope_key : string;
  cx_agent_key : string;
  cx_identity : string }.
Arguments mkContext {A}.
Arguments cx_mode {A}.
Arguments cx_rules {A}.
Arguments cx_parent_policy {A}.
Arguments cx_has_broker {A}.
Arguments cx_approval_token {A}.
Arguments cx_has_token_output {A}.
Arguments cx_now {A}.
Arguments cx_bus {A}.
Arguments cx_active_tools {A}.
Arguments cx_workspace {A}.
Arguments cx_has_path_locks {A}.
Arguments cx_resolved_path {A}.
Arguments cx_output_caps {A}.
Arguments cx_parent_turn_id {A}.
Arguments cx_scope_key {A}.
Arguments cx_agent_key {A}.
Arguments cx_identity {A}.

(** The two assignments dispatch makes to its context. *)
Definition set_resolved_path {A} (c : DispatchContext A) (p : option (ResolvedToolPath A)) :=
  mkContext (cx_mode c) (cx_rules c) (cx_parent_policy c) (cx_has_broker c) (cx_approval_token c)
    (cx_has_token_output c) (cx_now c) (cx_bus c) (cx_active_tools c) (cx_workspace c)
    (cx_has_path_locks c) p (cx_output_caps c) (cx_parent_turn_id c) (cx_scope_key c)
    (cx_agent_key c) (cx_identity c).
Definition set_now {A} (c : DispatchContext A) (now : Z) :=
  mkContext (cx_mode c) (cx_rules c) (cx_parent_policy c) (cx_has_broker c) (cx_approval_token c)
    (cx_has_token_output c) now (cx_bus c) (cx_active_tools c) (cx_workspace c)
    (cx_has_path_locks c) (cx_resolved_path c) (cx_output_caps c) (cx_parent_turn_id c)
    (cx_scope_key c) (cx_agent_key c) (cx_identity c).

(** [DispatchContext::for_now(prototype, thread_approval_token_output)]. *)
Definition for_now {A} (c : DispatchContext A) (thread_output : bool) (now : Z) : DispatchContext A :=
  mkContext (cx_mode c) (cx_rules c) (cx_parent_policy c) (cx_has_broker c) (cx_approval_token c)
    (thread_output && cx_has_token_output c) now (cx_bus c) (cx_active_tools c) (cx_workspace c)
    (cx_has_path_locks c) None (cx_output_caps c) (cx_parent_turn_id c) (cx_scope_key c)
    (cx_agent_key c) (cx_identity c).

(** ** The registry *)
(** The tool's code: what it answers in the context it is run in. *)
Definition Executor (A : Type) := DispatchContext A -> Result Output.
Record PreparedCall (A : Type) := mkPrepared {
  pc_path : option PathRequest; pc_execute : option (Executor A) }.
Arguments mkPrepared {A}.
Arguments pc_path {A}.
Arguments pc_execute {A}.

Inductive DispatchPolicy := permissioned | runtime.
#[export] Instance DispatchPolicy_eq_dec : EqDecision DispatchPolicy.
Proof. solve_decision. Defined.

Definition Preparer (A : Type) := string -> Result (PreparedCall A).
Record RegEntry (A : Type) := mkRegEntry {
  re_def : ToolDef; re_prepare : Preparer A; re_policy : DispatchPolicy; re_index : nat }.
Arguments mkRegEntry {A}.
Arguments re_def {A}.
Arguments re_prepare {A}.
Arguments re_policy {A}.
Arguments re_index {A}.

Record Registry (A : Type) := mkRegistry { entries : gmap string (RegEntry A); next_index : nat }.
Arguments mkRegistry {A}.
Arguments entries {A}.
Arguments next_index {A}.

Definition make_lookup_error (name : string) : Error :=
  Errors.with_ctx (Errors.not_found "tool is not registered") "tool" name.

Section Registration.
Context {A : Type} (parse : JsonReader).

(** [Registry::add_prepared]; an empty callable is [None]. *)
Definition add_prepared (r : Registry A) (def : ToolDef) (prepare : option (Preparer A))
    (policy : DispatchPolicy) : Result (Registry A) :=
  fail? bool_decide (td_name def = ""%string) with
    Errors.invalid_argument "tool definition must have a non-empty name";
  match prepare with
  | None => Err (Errors.with_ctx (Errors.invalid_argument "tool preparer must not be empty")
                   "tool" (td_name def))
  | Some prepare =>
      fail? bool_decide (policy = runtime) &&
            negb (bool_decide (td_required_capabilities def = [])) with
        Errors.invalid_argument "runtime tools cannot declare external capabilities";
      let? _ := validate_input_schema parse (td_name def) (td_input_schema_json def) in
      match entries r !! td_name def with
      | Some _ => Err (Errors.with_ctx (Errors.mk ek_conflict "tool is already registered")
                         "tool" (td_name def))
      | None =>
          Ok (mkRegistry (<[td_name def := mkRegEntry def prepare policy (next_index r)]> (entries r))
                (S (next_index r)))
      end
  end.

(** [Registry::add]: an ordinary handler, wrapped in a preparer that only chooses the
    lock path. *)
Definition add (r : Registry A) (def : ToolDef)
    (handler : option (string -> Executor A)) : Result (Registry A) :=
  match handler with
  | None => Err (Errors.with_ctx (Errors.invalid_argument "tool handler must not be empty")
                   "tool" (td_name def))
  | Some handler =>
      let lockable := match path_lock_direction (td_required_capabilities def) with
                      | Some _ => true | None => false end in
      let prepare := fun input =>
        Ok (mkPrepared (if lockable then prepare_lock_path parse (td_name def) input else None)
              (Some (handler input))) in
      add_prepared r def (Some prepare) permissioned
  end.
End Registration.

Definition remove {A} (r : Registry A) (name : string) : Result (Registry A) :=
  match entries r !! name with
  | None => Err (make_lookup_error name)
  | Some _ => Ok (mkRegistry (delete name (entries r)) (next_index r))
  end.

Definition find {A} (r : Registry A) (name : string) : option ToolDef :=
  re_def <$> entries r !! name.

(** [Registry::catalog]: the definitions sorted by insertion index. *)
Fixpoint insert_by_index {A} (e : RegEntry A) (l : list (RegEntry A)) : list (RegEntry A) :=
  match l with
  | [] => [e]
  | x :: l' => if (re_index e <=? re_index x)%nat then e :: l else x :: insert_by_index e l'
  end.
Definition catalog {A} (r : Registry A) : list ToolDef :=
  map re_def (fold_right insert_by_index [] (map snd (map_to_list (entries r)))).

(** ** Effects and services *)
Inductive Effect :=
  | did_before (input : string)
  | did_lock (key : string) (mode : PathLockMode)
  | did_record (event : AuditEvent) (r : Result unit)
  | did_ask (p : PermissionAskRenderedPayload)
  | did_approve (g : ApprovalGrant)
  | did_check (token : ApprovalToken) (name input identity : string) (now : Z) (r : Result unit)
  | did_execute (input : string)
  | did_after (p : ToolAfterPayload).

Record World := mkWorld {
  wd_broker : Broker; wd_issued : option ApprovalToken; wd_effects : list Effect }.

Definition emit (e : Effect) (w : World) : World :=
  mkWorld (wd_broker w) (wd_issued w) (wd_effects w ++ [e]).

(** The parties a dispatch consults. The audit sink may answer by what happened
    before; [sv_acquire] is the answer of [PathLockTable::acquire] with the time the
    wait took. *)
Record Services := mkServices {
  sv_sha256 : bytes -> bytes;
  sv_hmac : bytes -> bytes -> bytes;
  sv_secret : bytes;
  sv_nonce : bytes;
  sv_partial_match : string -> string -> bool;
  sv_parse : JsonReader;
  sv_dump : JsonWriter;
  sv_record : list Effect -> AuditEvent -> Result unit;
  sv_acquire : string -> PathLockMode -> Result unit * Z;
  sv_started_at : Z;
  sv_finished_at : Z }.

(** ** Approval resolution *)
Inductive ApprovalState := as_pending | as_approved | as_rejected.
#[export] Instance ApprovalState_eq_dec : EqDecision ApprovalState.
Proof. solve_decision. Defined.
Record ApprovalResolution := mkResolution {
  ar_state : ApprovalState; ar_rejection : option Error; ar_audit_reason : option string;
  ar_trace : list HookDecisionTrace }.
Definition pending : ApprovalResolution := mkResolution as_pending None None [].
Definition rejected (e : Error) (audit_reason : string) : ApprovalResolution :=
  mkResolution as_rejected (Some e) (Some audit_reason) [].
Definition with_trace (r : ApprovalResolution) (trace : list HookDecisionTrace) :=
  mkResolution (ar_state r) (ar_rejection r) (ar_audit_reason r) trace.

Record ApprovalRequest := mkRequest {
  rq_tool_name : string; rq_input : string; rq_identity : string; rq_decision : Decision_;
  rq_now : Z; rq_has_broker : bool; rq_token : option ApprovalToken; rq_has_token_output : bool;
  rq_bus : option Bus; rq_payload : PermissionAskRenderedPayload }.

Definition decision_reason (d : HookDecision) (fallback : string) : string :=
  if bool_decide (hd_reason d = ""%string) then fallback else hd_reason d.

Definition broker_reason (e : Error) : string := default ""%string (Errors.ctx_find e "reason").

(** The decision's reason, or the last non-empty one of its trace. *)
Definition operator_reason (d : HookDecision) : string :=
  if negb (bool_decide (hd_reason d = ""%string)) then hd_reason d
  else
    match List.find (fun t => negb (bool_decide (tr_reason t = ""%string))) (rev (hd_trace d)) with
    | Some t => tr_reason t
    | None => ""
    end.

Definition operator_denied_error (reason : string) : Error :=
  let reason := if bool_decide (reason = ""%string) then "permission_ask_veto"%string else reason in
  Errors.with_ctx (Errors.with_ctx (Errors.permission_denied "operator denied approval")
    "reason" "operator_denied") "hook_reason" reason.

Definition unsupported_decision_error (d : HookDecision) : Error :=
  Errors.with_ctx (Errors.with_ctx (Errors.with_ctx
    (Errors.permission_denied "permission approval prompt returned an unsupported decision")
    "reason" "operator_denied") "decision_kind" (enum_name (hd_kind d)))
    "hook_reason" (decision_reason d "unsupported_permission_ask_decision").

Definition missing_operator_reason_error : Error :=
  Errors.with_ctx (Errors.with_ctx (Errors.with_ctx
    (Errors.permission_denied
       "permission approval prompt returned proceed without operator identity")
    "reason" "operator_denied") "decision_kind" (enum_name proceed))
    "hook_reason" "permission_ask_missing_operator_reason".

Definition check_token (s : Services) (q : ApprovalRequest) (token : ApprovalToken) (w : World)
    : ApprovalResolution * World :=
  let '(r, b) := check (sv_sha256 s) (sv_hmac s) (sv_secret s) (wd_broker w) token
                   (rq_tool_name q) (rq_input q) (rq_identity q) (rq_now q) in
  (match r with
   | Ok _ => mkResolution as_approved None None []
   | Err e => rejected e (broker_reason e)
   end,
   emit (did_check token (rq_tool_name q) (rq_input q) (rq_identity q) (rq_now q) r)
     (mkWorld b (wd_issued w) (wd_effects w))).

(** [resolve_ask]. *)
Definition resolve_ask (s : Services) (q : ApprovalRequest) (w : World)
    : ApprovalResolution * World :=
  if negb (rq_has_broker q) then (pending, w)
  else
    match rq_token q with
    | Some token => check_token s q token w
    | None =>
      match rq_bus q with
      | None => (pending, w)
      | Some bus =>
          let w := emit (did_ask (rq_payload q)) w in
          match fst (publish_blocking bus permission_ask_rendered (P_ask (rq_payload q))) with
          | Err e => (rejected e "operator_denied", w)
          | Ok d =>
              let trace := hd_trace d in
              match trace with
              | [] => (pending, w)
              | _ =>
                match hd_kind d with
                | proceed =>
                    if bool_decide (operator_reason d = ""%string) then
                      (with_trace (rejected missing_operator_reason_error "operator_denied") trace, w)
                    else
                      let grant := mkGrant (rq_tool_name q) (rq_input q) (rq_identity q)
                                     (dec_approval_ttl (rq_decision q))
                                     (dec_replay_max (rq_decision q)) in
                      let '(issued, b) := approve (sv_sha256 s) (sv_hmac s) (sv_secret s)
                                            (sv_nonce s) (wd_broker w) grant (rq_now q) in
                      let w := mkWorld b
                                 (if rq_has_token_output q then Some issued else wd_issued w)
                                 (wd_effects w ++ [did_approve grant]) in
                      let '(resolution, w) := check_token s q issued w in
                      (with_trace resolution trace, w)
                | veto =>
                    (with_trace (rejected (operator_denied_error (hd_reason d)) "operator_denied")
                       trace, w)
                | rewrite | require_approval =>
                    (with_trace (rejected (unsupported_decision_error d) "operator_denied") trace, w)
                end
              end
          end
      end
    end.

(** ** Pieces of the pipeline *)
Definition hook_decision_reason := decision_reason.

Definition hook_blocked_decision (reason : string) : Decision_ :=
  mkDecision v_deny reason default_replay_max default_approval_ttl.

Definition hook_veto_error (name reason : string) : Error :=
  Errors.with_ctx (Errors.with_ctx (Errors.with_ctx
    (Errors.permission_denied "tool blocked by hook") "tool" name)
    "reason" "blocked_by_hook") "hook_reason" reason.
Definition hook_rewrite_error (name reason : string) : Error :=
  Errors.with_ctx (Errors.with_ctx (Errors.with_ctx
    (Errors.permission_denied "tool rewrite rejected by hook") "tool" name)
    "reason" "blocked_by_hook") "hook_reason" reason.

Definition require_approval_decision (d : Decision_) (h : HookDecision) : Decision_ :=
  if negb (bool_decide (dec_verdict d = v_allow)) then d
  else mkDecision v_ask (hook_decision_reason h "hook require_approval")
         (dec_replay_max d) (dec_approval_ttl d).

Definition require_workspace_override_approval (d : Decision_) : Decision_ :=
  if negb (bool_decide (dec_verdict d = v_allow)) then d
  else mkDecision v_ask "outside_workspace_override" 1 (dec_approval_ttl d).

Definition has_context (e : Error) (key value : string) : bool :=
  existsb (fun p => bool_decide (fst p = key) && bool_decide (snd p = value)) (err_context e).

Definition error_kind_label (e : Error) : string :=
  if has_context e "reason" "blocked_by_hook" then "blocked_by_hook"
  else error_kind_name (err_kind e).

Section Payloads.
Context {A : Type} (s : Services).

Definition build_event (name input : string) (d : Decision_) (cx : DispatchContext A)
    (metadata_json : string) : AuditEvent :=
  let e := make_audit_event_from_decision d in
  mkEvent (ev_event_kind e) (cx_scope_key cx) (cx_agent_key cx) name (cx_identity cx)
    (ev_verdict e) (ev_outcome e) (ev_reason e) (Some (input_hash (sv_sha256 s) input))
    (cx_parent_turn_id cx) metadata_json.

Definition make_hook_identity (cx : DispatchContext A) : Identity :=
  mkIdentity (cx_scope_key cx) (cx_agent_key cx) (cx_identity cx).

Definition redacted (name input : string) : option string :=
  redacted_hook_input_json (sv_sha256 s) (sv_parse s) (sv_dump s) name input.

Definition build_before_payload (name input : string) (cx : DispatchContext A) (started_at : Z)
    : ToolBeforePayload :=
  mkToolBefore name input (redacted name input) (make_hook_identity cx) started_at.

Definition build_after_payload (name input : string) (cx : DispatchContext A)
    (started_at finished_at : Z) (result : Result Output) : ToolAfterPayload :=
  mkToolAfter name input (redacted name input) (make_hook_identity cx) (is_ok result)
    (match result with Ok o => out_text o | Err _ => "" end)
    (match result with Ok o => out_data_json o | Err _ => None end)
    (match result with Ok o => out_usage o | Err _ => no_usage end)
    (match result with Ok _ => "" | Err e => error_kind_label e end)
    (match result with Ok _ => "" | Err e => err_message e end)
    started_at finished_at (finished_at - started_at).

Definition build_permission_ask_payload (name input : string) (cx : DispatchContext A)
    (d : Decision_) : PermissionAskRenderedPayload :=
  mkAsk name input (redacted name input) (make_hook_identity cx) (dec_reason d)
    (dec_replay_max d) (dec_approval_ttl d) (cx_now cx) (cx_parent_turn_id cx).
End Payloads.

(** What the blocking [tool_before] hook did to the call. *)
Record BeforeOutcome := mkBefore {
  bo_decision : HookDecision; bo_blocked : bool; bo_reason : string;
  bo_rewritten : option string; bo_error : option Error }.
Definition no_before : BeforeOutcome := mkBefore proceed_decision false "" None None.

Definition consume_before (policy : DispatchPolicy) (r : Result HookDecision) : BeforeOutcome :=
  match r with
  | Err e => mkBefore proceed_decision false "" None (Some e)
  | Ok d =>
      match hd_kind d with
      | proceed => mkBefore d false "" None None
      | veto => mkBefore d true (hook_decision_reason d "hook veto") None None
      | rewrite =>
          match hd_rewritten_input_json d with
          | None => mkBefore d true "hook rewrite missing rewritten_input_json" None None
          | Some input => mkBefore d false (hook_decision_reason d "hook rewrite") (Some input) None
          end
      | require_approval =>
          if bool_decide (policy = runtime)
          then mkBefore d true "runtime tools do not support approval escalation" None None
          else mkBefore d false (hook_decision_reason d "hook require_approval") None None
      end
  end.

Definition is_some {T} (o : option T) : bool := match o with Some _ => true | None => false end.

Definition with_hook_facts (s : Services) (input effective : string) (b : BeforeOutcome)
    (metadata : string) : string :=
  let rewrote := is_some (bo_rewritten b) in
  if negb (bo_blocked b) && negb rewrote && bool_decide (hd_trace (bo_decision b) = [])
  then metadata
  else with_hook_decision_metadata (sv_parse s) (sv_dump s) metadata (hd_trace (bo_decision b))
    (if bo_blocked b || rewrote then Some (input_hash_hex (sv_sha256 s) input) else None)
    (if rewrote then Some (input_hash_hex (sv_sha256 s) effective) else None).

(** ** The pipeline *)
Section Pipeline.
Context `{FileSystem} {A : Type} `{DirectoryAuthority A} (s : Services).

(** Publishing [tool_before]. *)
Definition publish_before (name input : string) (policy : DispatchPolicy) (cx : DispatchContext A)
    (w : World) : BeforeOutcome * World :=
  match cx_bus cx with
  | None => (no_before, w)
  | Some bus =>
      let payload := build_before_payload s name input cx (sv_started_at s) in
      (consume_before policy (fst (publish_blocking bus tool_before (P_tool_before payload))),
       emit (did_before input) w)
  end.

(** Preparation of the final input. *)
Definition prepare_call (entry : RegEntry A) (b : BeforeOutcome) (effective : string)
    : Result (PreparedCall A) :=
  if is_some (bo_error b) || bo_blocked b then Ok (mkPrepared None None)
  else
    let? prepared := re_prepare entry effective in
    fail? negb (is_some (pc_execute prepared)) with
      Errors.internal "tool preparation returned no executor";
    fail? is_some (pc_path prepared) && bool_decide (re_policy entry = runtime) with
      Errors.invalid_argument "runtime tools cannot request filesystem authority";
    Ok prepared.

(** The path lock, when the call, the workspace and the tool's capabilities ask for one;
    a wait advances the context's clock. *)
Definition take_lock (entry : RegEntry A) (prepared : Result (PreparedCall A))
    (cx : DispatchContext A) (w : World) : Result unit * DispatchContext A * World :=
  match prepared with
  | Ok (mkPrepared (Some request) _) =>
      match cx_workspace cx, cx_has_path_locks cx,
            path_lock_direction (td_required_capabilities (re_def entry)) with
      | Some ws, true, Some direction =>
          match lock_key ws (req_path request) direction with
          | Some key =>
              let mode := if bool_decide (direction = lock_read) then shared else exclusive in
              let '(r, waited) := sv_acquire s key mode in
              (r, set_now cx (cx_now cx + waited), emit (did_lock key mode) w)
          | None => (Ok tt, cx, w)
          end
      | _, _, _ => (Ok tt, cx, w)
      end
  | _ => (Ok tt, cx, w)
  end.

(** [co_await ctx.audit.record(event)]. *)
Definition record (event : AuditEvent) (w : World) : Result unit * World :=
  let r := sv_record s (wd_effects w) event in (r, emit (did_record event r) w).

(** The verdict on the final input under both policies and the hook's and the
    workspace's escalations. *)
Definition decide_call (entry : RegEntry A) (name effective : string) (b : BeforeOutcome)
    (cx : DispatchContext A) (outside : bool) : Decision_ :=
  let caps := td_required_capabilities (re_def entry) in
  let decision :=
    if bool_decide (re_policy entry = permissioned)
    then evaluate (sv_partial_match s) (cx_rules cx) name effective caps (cx_mode cx)
    else mkDecision v_allow "runtime_tool" default_replay_max default_approval_ttl in
  let decision :=
    match cx_parent_policy cx with
    | Some (rules, mode) =>
        if bool_decide (re_policy entry = permissioned)
        then intersect (evaluate (sv_partial_match s) rules name effective caps mode) decision
        else decision
    | None => decision
    end in
  let decision :=
    if bool_decide (hd_kind (bo_decision b) = require_approval)
    then require_approval_decision decision (bo_decision b) else decision in
  if outside then require_workspace_override_approval decision else decision.

Definition set_outcome (e : AuditEvent) (o : AuditOutcome) : AuditEvent :=
  mkEvent (ev_event_kind e) (ev_scope_key e) (ev_agent_key e) (ev_tool_name e) (ev_identity e)
    (ev_verdict e) o (ev_reason e) (ev_input_hash e) (ev_parent_turn_id e) (ev_metadata_json e).
Definition set_reason (e : AuditEvent) (reason : string) : AuditEvent :=
  mkEvent (ev_event_kind e) (ev_scope_key e) (ev_agent_key e) (ev_tool_name e) (ev_identity e)
    (ev_verdict e) (ev_outcome e) reason (ev_input_hash e) (ev_parent_turn_id e)
    (ev_metadata_json e).
Definition set_metadata (e : AuditEvent) (m : string) : AuditEvent :=
  mkEvent (ev_event_kind e) (ev_scope_key e) (ev_agent_key e) (ev_tool_name e) (ev_identity e)
    (ev_verdict e) (ev_outcome e) (ev_reason e) (ev_input_hash e) (ev_parent_turn_id e) m.

(** What the approval's resolution adds to the audit row. *)
Definition amend_event (e : AuditEvent) (approval : ApprovalResolution) : AuditEvent :=
  let e := match ar_trace approval with
           | [] => e
           | trace => set_metadata e (with_permission_ask_metadata (sv_parse s) (sv_dump s)
                                        (ev_metadata_json e) trace)
           end in
  match ar_state approval with
  | as_approved => set_outcome e ao_approved
  | as_rejected =>
      let e := set_outcome e ao_rejected in
      match ar_audit_reason approval with
      | Some reason => if bool_decide (reason = ""%string) then e else set_reason e reason
      | None => e
      end
  | as_pending => e
  end.

(** The answer of a call that is not run after its row was recorded. *)
Definition refusal (name : string) (decision : Decision_) (approval : ApprovalResolution) : Error :=
  if bool_decide (dec_verdict decision = v_deny) then
    Errors.with_ctx (Errors.with_ctx
      (Errors.permission_denied "tool denied by permission rules") "tool" name)
      "reason" (dec_reason decision)
  else
    match ar_state approval, ar_rejection approval with
    | as_rejected, Some e => Errors.with_ctx e "tool" name
    | _, _ =>
        Errors.with_ctx (Errors.with_ctx (Errors.with_ctx (Errors.with_ctx (Errors.with_ctx
          (Errors.permission_denied "tool requires approval") "tool" name)
          "reason" "approval_required") "decision_reason" (dec_reason decision))
          "replay_max" (pretty (dec_replay_max decision)))
          "approval_ttl_seconds" (pretty (dec_approval_ttl decision))
    end.

(** Admission, authorization and execution of a prepared call. *)
Definition run_prepared (entry : RegEntry A) (name input effective : string) (b : BeforeOutcome)
    (prepared : PreparedCall A) (cx : DispatchContext A) (w : World)
    : Result Output * DispatchContext A * World :=
  let report := match pc_path prepared, cx_workspace cx with
                | Some request, Some ws =>
                    resolve_tool_path (sv_sha256 s) (sv_dump s) ws request
                | _, _ => empty_report
                end in
  let cx := set_resolved_path cx (pr_path report) in
  let decision := decide_call entry name effective b cx (pr_requires_approval report) in
  let event := build_event s name effective decision cx
                 (with_hook_facts s input effective b (pr_metadata_json report)) in
  let event := if is_some (bo_rewritten b) && bool_decide (dec_verdict decision = v_allow)
               then set_outcome event ao_rewritten else event in
  let possible := negb (is_some (pr_error report)) &&
                  bool_decide (dec_verdict decision = v_ask) && cx_has_broker cx in
  let '(approval, w) :=
    if possible then
      resolve_ask s (mkRequest name effective (cx_identity cx) decision (cx_now cx)
        (cx_has_broker cx) (cx_approval_token cx) (cx_has_token_output cx) (cx_bus cx)
        (build_permission_ask_payload s name effective cx decision)) w
    else (pending, w) in
  let event := if possible then amend_event event approval else event in
  let about_to_run := negb (is_some (pr_error report)) &&
    (bool_decide (dec_verdict decision = v_allow) ||
     (bool_decide (dec_verdict decision = v_ask) && bool_decide (ar_state approval = as_approved))) in
  let '(recorded, w) := record event w in
  match recorded with
  | Err e => (Err e, cx, w)
  | Ok _ =>
      match pr_error report with
      | Some e => (Err (Errors.with_ctx e "tool" name), cx, w)
      | None =>
          if about_to_run then
            match pc_execute prepared with
            | Some execute => (execute cx, cx, emit (did_execute effective) w)
            | None => (Err (Errors.internal "tool preparation returned no executor"), cx, w)
            end
          else (Err (refusal name decision approval), cx, w)
      end
  end.

(** The branches after the lock. *)
Definition run_call (entry : RegEntry A) (name input effective : string) (b : BeforeOutcome)
    (prepared : Result (PreparedCall A)) (lock : Result unit) (cx : DispatchContext A) (w : World)
    : Result Output * DispatchContext A * World :=
  match lock with
  | Err e => (Err (Errors.with_ctx e "tool" name), cx, w)
  | Ok _ =>
    match bo_error b with
    | Some e => (Err (Errors.with_ctx e "tool" name), cx, w)
    | None =>
      if bo_blocked b then
        let event := set_outcome
          (build_event s name effective (hook_blocked_decision (bo_reason b)) cx
             (with_hook_facts s input effective b "{}")) ao_blocked_by_hook in
        let '(recorded, w) := record event w in
        (match recorded with
         | Err e => Err e
         | Ok _ => Err (if bool_decide (hd_kind (bo_decision b) = rewrite)
                        then hook_rewrite_error name (bo_reason b)
                        else hook_veto_error name (bo_reason b))
         end, cx, w)
      else
        match prepared with
        | Err e =>
            let event := build_event s name effective
              (mkDecision v_deny (if bool_decide (err_kind e = ek_invalid_argument)
                                  then "invalid_tool_input" else "tool_preparation_failed")
                 default_replay_max default_approval_ttl) cx
              (with_hook_facts s input effective b "{}") in
            let '(recorded, w) := record event w in
            (match recorded with
             | Err e' => Err e'
             | Ok _ => Err (Errors.with_ctx e "tool" name)
             end, cx, w)
        | Ok prepared => run_prepared entry name input effective b prepared cx w
        end
    end
  end.

(** [Registry::dispatch] once the tool is known. *)
Definition dispatch_entry (entry : RegEntry A) (name input : string) (cx : DispatchContext A)
    (w : World) : Result Output * DispatchContext A * World :=
  let '(b, w) := publish_before name input (re_policy entry) cx w in
  let effective := default input (bo_rewritten b) in
  let prepared := prepare_call entry b effective in
  let '(lock, cx, w) := take_lock entry prepared cx w in
  let '(result, cx, w) := run_call entry name input effective b prepared lock cx w in
  let result := match result with
                | Ok o => Ok (apply_output_caps o (cx_output_caps cx))
                | Err e => Err e
                end in
  let w := match cx_bus cx with
           | Some _ => emit (did_after (build_after_payload s name effective cx
                         (sv_started_at s) (sv_finished_at s) result)) w
           | None => w
           end in
  (result, cx, w).

(** [Registry::dispatch]. *)
Definition dispatch (reg : Registry A) (name input : string) (cx : DispatchContext A) (w : World)
    : Result Output * DispatchContext A * World :=
  let cx := set_resolved_path cx None in
  if match cx_active_tools cx with Some tools => negb (bool_decide (name ∈ tools)) | None => false end
  then (Err (Errors.with_ctx (Errors.not_found "tool is not enabled for this turn") "tool" name), cx, w)
  else
    match entries reg !! name with
    | None => (Err (make_lookup_error name), cx, w)
    | Some entry => dispatch_entry entry name input cx w
    end.
End Pipeline.

(** ** Traces *)
Definition is_execute (e : Effect) : bool := match e with did_execute _ => true | _ => false end.
Definition is_record (e : Effect) : bool := match e with did_record _ _ => true | _ => false end.
(** Effects that neither record nor execute. *)
Definition quiet (e : Effect) : Prop := is_execute e = false /\ is_record e = false.

Definition runs (o : AuditOutcome) : Prop := o = ao_allow \/ o = ao_rewritten \/ o = ao_approved.

(** The broker accepted a token that is valid for this tool, this input and this identity
    at this time: fresh, bound to all three and carrying the broker's own MAC. *)
Definition approved (s : Services) (name input identity : string) (now : Z) (l : list Effect) : Prop :=
  exists token, In (did_check token name input identity now (Ok tt)) l /\
    verify (sv_sha256 s) (sv_hmac s) (sv_secret s) token name input identity now = Ok tt.

Lemma approved_app s name i identity now l1 l2 :
  approved s name i identity now l1 \/ approved s name i identity now l2 ->
  approved s name i identity now (l1 ++ l2).
Proof. intros [(t & Hin & Hv)|(t & Hin & Hv)]; exists t; split; try done; apply in_or_app; auto. Qed.

Lemma check_verifies s b token name i identity now b' :
  check (sv_sha256 s) (sv_hmac s) (sv_secret s) b token name i identity now = (Ok tt, b') ->
  verify (sv_sha256 s) (sv_hmac s) (sv_secret s) token name i identity now = Ok tt.
Proof. unfold check. by destruct (verify _ _ _ _ _ _ _ _) as [[]|e]. Qed.

Definition request_approved (s : Services) (q : ApprovalRequest) : list Effect -> Prop :=
  approved s (rq_tool_name q) (rq_input q) (rq_identity q) (rq_now q).

Lemma check_token_effects s q token w a w' :
  check_token s q token w = (a, w') ->
  exists e, wd_effects w' = wd_effects w ++ [e] /\ quiet e /\
    (ar_state a = as_approved -> request_approved s q [e]).
Proof.
  unfold check_token. destruct (check _ _ _ _ _ _ _ _ _) as [r b] eqn:Ec. intros [= <- <-].
  eexists. split_and!; [reflexivity|done|]. destruct r as [[]|]; [|done]. intros _.
  exists token. split; [by left|]. by eapply check_verifies.
Qed.

Lemma resolve_ask_effects s q w a w' :
  resolve_ask s q w = (a, w') ->
  exists asks, wd_effects w' = wd_effects w ++ asks /\ Forall quiet asks /\
    (ar_state a = as_approved -> request_approved s q asks).
Proof.
  assert (Hnone : forall w0 a0, ar_state a0 <> as_approved ->
    exists asks, wd_effects w0 = wd_effects w0 ++ asks /\ Forall quiet asks /\
      (ar_state a0 = as_approved -> request_approved s q asks)).
  { intros w0 a0 Ha. exists []. rewrite app_nil_r. by split_and!. }
  assert (Hask : forall a0, ar_state a0 <> as_approved ->
    exists asks, wd_effects (emit (did_ask (rq_payload q)) w) = wd_effects w ++ asks /\
      Forall quiet asks /\ (ar_state a0 = as_approved -> request_approved s q asks)).
  { intros a0 Ha. exists [did_ask (rq_payload q)]. by split_and!; [|repeat constructor|]. }
  unfold resolve_ask. destruct (rq_has_broker q); cbn [negb]; [|intros [= <- <-]; by apply Hnone].
  destruct (rq_token q) as [token|].
  { intros (e & Hw & Hq & Hr)%check_token_effects. exists [e].
    split_and!; [done|by apply Forall_singleton|done]. }
  destruct (rq_bus q) as [bus|]; [|intros [= <- <-]; by apply Hnone].
  destruct (fst (publish_blocking _ _ _)) as [d|e]; [|intros [= <- <-]; by apply Hask].
  destruct (hd_trace d) as [|tr trace] eqn:Etr; [intros [= <- <-]; by apply Hask|].
  destruct (hd_kind d); try (intros [= <- <-]; by apply Hask).
  destruct (bool_decide _); [intros [= <- <-]; by apply Hask|].
  destruct (approve _ _ _ _ _ _ _) as [issued b].
  destruct (check_token _ _ _ _) as [a0 w0] eqn:Ec. intros [= <- <-].
  apply check_token_effects in Ec as (e & Hw & Hq & Hr). cbn [wd_effects emit] in Hw.
  eexists ([_; _] ++ [e]). split_and!.
  - rewrite Hw, <- !app_assoc. reflexivity.
  - apply Forall_app. split; [by repeat constructor|by apply Forall_singleton].
  - simpl. intros Ha. apply (approved_app _ _ _ _ _ [_; _]). right. by apply Hr.
Qed.

(** Escalations only move towards refusal. *)
Lemma escalate_rank d h :
  (rank (dec_verdict d) <= rank (dec_verdict (require_approval_decision d h)))%nat /\
  (1 <= rank (dec_verdict (require_approval_decision d h)))%nat.
Proof.
  unfold require_approval_decision. destruct d as [[] ? ? ?]; simpl; lia.
Qed.

Lemma outside_rank d :
  (rank (dec_verdict d) <= rank (dec_verdict (require_workspace_override_approval d)))%nat /\
  (1 <= rank (dec_verdict (require_workspace_override_approval d)))%nat.
Proof.
  unfold require_workspace_override_approval. destruct d as [[] ? ? ?]; simpl; lia.
Qed.

Section Authority.
Context `{FileSystem} {A : Type} `{DirectoryAuthority A} (s : Services).

(** The verdicts of the call's own policy and of the inherited one. *)
Definition own_verdict (entry : RegEntry A) (name input : string) (cx : DispatchContext A) : Verdict :=
  dec_verdict (evaluate (sv_partial_match s) (cx_rules cx) name input
    (td_required_capabilities (re_def entry)) (cx_mode cx)).
Definition parent_verdict (entry : RegEntry A) (name input : string) (cx : DispatchContext A)
    : option Verdict :=
  (fun p : list Rule * Mode => dec_verdict (evaluate (sv_partial_match s) p.1 name input
    (td_required_capabilities (re_def entry)) p.2)) <$> cx_parent_policy cx.

Lemma decide_call_rank entry name i b cx outside :
  let d := rank (dec_verdict (decide_call s entry name i b cx outside)) in
  (re_policy entry = permissioned ->
     (rank (own_verdict entry name i cx) <= d)%nat /\
     (forall v, parent_verdict entry name i cx = Some v -> rank v <= d)%nat) /\
  (hd_kind (bo_decision b) = require_approval -> 1 <= d)%nat /\
  (outside = true -> 1 <= d)%nat.
Proof.
  unfold decide_call. set (own := if bool_decide (re_policy entry = permissioned) then _ else _).
  set (both := match cx_parent_policy cx with Some _ => _ | None => _ end).
  set (hooked := if bool_decide (hd_kind _ = _) then _ else both).
  assert (Hboth : re_policy entry = permissioned ->
    (rank (own_verdict entry name i cx) <= rank (dec_verdict both))%nat /\
    (forall v, parent_verdict entry name i cx = Some v -> rank v <= rank (dec_verdict both))%nat).
  { intros Hp. unfold both, own, own_verdict, parent_verdict.
    rewrite !bool_decide_eq_true_2 by done.
    destruct (cx_parent_policy cx) as [[rules mode]|]; simpl.
    - rewrite intersect_rank. split; [lia|]. intros v [= <-]. lia.
    - split; [lia|done]. }
  assert (Hhooked : (rank (dec_verdict both) <= rank (dec_verdict hooked))%nat /\
    (hd_kind (bo_decision b) = require_approval -> 1 <= rank (dec_verdict hooked))%nat).
  { unfold hooked. case_bool_decide; [|naive_solver lia].
    pose proof (escalate_rank both (bo_decision b)). naive_solver lia. }
  pose proof (outside_rank hooked). destruct Hhooked as [Hh1 Hh2].
  destruct outside; (split; [intros Hp; destruct (Hboth Hp) as [Hb1 Hb2]; split;
    [lia|intros v Hv; specialize (Hb2 v Hv); lia]|split; [intros Hk; specialize (Hh2 Hk); lia|]]).
  - intros _. lia.
  - done.
Qed.

(** A row whose outcome lets the call run. *)
Lemma event_outcome name i cx d m :
  dec_verdict d = v_allow -> ev_outcome (build_event s (A := A) name i d cx m) = ao_allow.
Proof. intros Hd. unfold build_event. simpl. by rewrite Hd. Qed.

Lemma amend_approved e a :
  ar_state a = as_approved -> ev_outcome (amend_event s e a) = ao_approved.
Proof. intros Ha. unfold amend_event. rewrite Ha. by destruct (ar_trace a). Qed.

Lemma amend_fields e a :
  ev_tool_name (amend_event s e a) = ev_tool_name e /\
  ev_input_hash (amend_event s e a) = ev_input_hash e.
Proof.
  unfold amend_event. destruct (ar_trace a), (ar_state a), (ar_audit_reason a); simpl;
    try case_bool_decide; done.
Qed.

(** What the branch that may execute the tool does. *)
Lemma run_prepared_trace entry name input i b prepared cx w r cx' w' :
  run_prepared s entry name input i b prepared cx w = (r, cx', w') ->
  exists asks ev recorded tail,
    wd_effects w' = wd_effects w ++ asks ++ did_record ev recorded :: tail /\
    Forall quiet asks /\ (cx_identity cx' = cx_identity cx /\ cx_now cx' = cx_now cx) /\
    (tail = [] \/
     (tail = [did_execute i] /\ recorded = Ok tt /\ runs (ev_outcome ev) /\
      ev_tool_name ev = name /\ ev_input_hash ev = Some (input_hash (sv_sha256 s) i) /\
      exists outside,
      (forall p, cx_resolved_path cx' = Some p -> tp_per_call_outside_workspace_override p = outside) /\
      (pc_path prepared = None -> outside = false) /\
      let d := decide_call s entry name i b (set_resolved_path cx (cx_resolved_path cx')) outside in
      (dec_verdict d = v_allow /\ ev_reason ev = dec_reason d) \/
      (dec_verdict d = v_ask /\ approved s name i (cx_identity cx) (cx_now cx) asks))).
Proof.
  unfold run_prepared.
  set (report := match pc_path prepared with Some _ => _ | None => _ end).
  set (cx1 := set_resolved_path cx (pr_path report)).
  set (d := decide_call s entry name i b cx1 (pr_requires_approval report)).
  set (event := if is_some (bo_rewritten b) && _ then _ else _).
  set (possible := negb (is_some (pr_error report)) && _ && _).
  destruct (if possible then _ else _) as [approval w1] eqn:Ea.
  assert (Hasks : exists asks, wd_effects w1 = wd_effects w ++ asks /\ Forall quiet asks /\
            (ar_state approval = as_approved ->
               possible = true /\ approved s name i (cx_identity cx) (cx_now cx) asks)).
  { destruct possible.
    - apply resolve_ask_effects in Ea as (asks & ? & ? & Ha). exists asks. naive_solver.
    - injection Ea as <- <-. exists []. rewrite app_nil_r. by split_and!. }
  destruct Hasks as (asks & Hw1 & Hq & Happ).
  set (event' := if possible then _ else event).
  destruct (record s event' w1) as [recorded w2] eqn:Erec.
  unfold record in Erec. injection Erec as Hrec Hw2. rewrite Hrec in Hw2. clear Hrec.
  assert (Hfields : ev_tool_name event = name /\
            ev_input_hash event = Some (input_hash (sv_sha256 s) i))
    by (unfold event; by destruct (is_some (bo_rewritten b) && _)).
  assert (Hbase : wd_effects w2 = wd_effects w ++ asks ++ [did_record event' recorded])
    by (subst w2; simpl; by rewrite Hw1, <- app_assoc).
  assert (Hstop : forall r0, (r0, cx1, w2) = (r, cx', w') ->
    exists asks ev recorded tail,
    wd_effects w' = wd_effects w ++ asks ++ did_record ev recorded :: tail /\
    Forall quiet asks /\ (cx_identity cx' = cx_identity cx /\ cx_now cx' = cx_now cx) /\
    tail = []).
  { intros r0 [= <- <- <-]. exists asks, event', recorded, []. by split_and!. }
  intros Hrun.
  destruct recorded as [[]|e]; [|apply Hstop in Hrun; naive_solver].
  destruct (pr_error report) as [e|] eqn:Eerr; [apply Hstop in Hrun; naive_solver|].
  match type of Hrun with context [if ?c then _ else _] => destruct c eqn:Erun end;
    [|apply Hstop in Hrun; naive_solver].
  destruct (pc_execute prepared) as [execute|]; [|apply Hstop in Hrun; naive_solver].
  injection Hrun as <- <- <-. clear Hstop.
  exists asks, event', (Ok tt), [did_execute i]. split_and!; [|done|done|done|].
  { simpl. rewrite Hbase, <- !app_assoc. done. }
  right. simpl in Erun. apply orb_true_iff in Erun. split_and!; [done|done| | | |].
  - destruct Erun as [Hv|Hv]; bool_prop.
    + assert (Hnp : possible = false).
      { unfold possible. rewrite Hv. by rewrite andb_false_r. }
      unfold event'. rewrite Hnp. unfold event. rewrite Hv.
      destruct (is_some (bo_rewritten b)); simpl; [by right; left|left].
      by rewrite Hv.
    + right; right. destruct Happ as [Hpos _]; [done|]. unfold event'. rewrite Hpos.
      by apply amend_approved.
  - unfold event'. destruct possible; [|by destruct Hfields].
    etrans; [apply amend_fields|by destruct Hfields].
  - unfold event'. destruct possible; [|by destruct Hfields].
    etrans; [apply amend_fields|by destruct Hfields].
  - exists (pr_requires_approval report). split.
    { intros p. simpl. unfold report. destruct (pc_path prepared); [|done].
      destruct (cx_workspace cx); [|done]. apply report_override. }
    split; [intros Hpath; unfold report; by rewrite Hpath|].
    fold cx1. fold d.
    destruct Erun as [Hv|Hv]; bool_prop; [left|right; split; [done|by apply Happ]].
    split; [done|]. assert (Hnp : possible = false) by (unfold possible; by rewrite Hv, andb_false_r).
    unfold event'. rewrite Hnp. unfold event. by destruct (is_some (bo_rewritten b) && _).
Qed.

(** ** The trace of a dispatch *)
(** When a call needs an accepted approval to run. *)
Definition needs_approval (entry : RegEntry A) (name i : string) (b : BeforeOutcome)
    (cx : DispatchContext A) (path : option (ResolvedToolPath A)) : Prop :=
  (re_policy entry = permissioned /\
     (own_verdict entry name i cx = v_ask \/ parent_verdict entry name i cx = Some v_ask)) \/
  hd_kind (bo_decision b) = require_approval \/
  (exists p, path = Some p /\ tp_per_call_outside_workspace_override p = true).

(** What a permission policy has to say of a call that runs: nothing denies a
    permissioned tool; a runtime tool answers to no policy, and its row says so. *)
Definition not_denied (entry : RegEntry A) (name i : string) (cx : DispatchContext A)
    (ev : AuditEvent) : Prop :=
  match re_policy entry with
  | permissioned =>
      own_verdict entry name i cx <> v_deny /\ parent_verdict entry name i cx <> Some v_deny
  | runtime => ev_reason ev = "runtime_tool"%string
  end.

(** The hook outcome and the path that a runtime tool may reach its decision with. *)
Definition runtime_plain (entry : RegEntry A) (b : BeforeOutcome) (outside : bool) : Prop :=
  re_policy entry = runtime -> hd_kind (bo_decision b) <> require_approval /\ outside = false.

Lemma decide_call_runtime (entry : RegEntry A) name i b (cx : DispatchContext A) outside :
  re_policy entry = runtime -> hd_kind (bo_decision b) <> require_approval -> outside = false ->
  decide_call s entry name i b cx outside =
  mkDecision v_allow "runtime_tool" default_replay_max default_approval_ttl.
Proof.
  intros Hp Hk ->. unfold decide_call. rewrite Hp. cbn.
  rewrite bool_decide_eq_false_2 by done. by destruct (cx_parent_policy cx) as [[]|].
Qed.

Lemma decided_authorized entry name i b cx path outside (ok : Prop) ev :
  (forall p, path = Some p -> tp_per_call_outside_workspace_override p = outside) ->
  runtime_plain entry b outside ->
  (let d := decide_call s entry name i b cx outside in
   (dec_verdict d = v_allow /\ ev_reason ev = dec_reason d) \/ (dec_verdict d = v_ask /\ ok)) ->
  not_denied entry name i cx ev /\ (needs_approval entry name i b cx path -> ok).
Proof.
  intros Hout Hrt Hd. pose proof (decide_call_rank entry name i b cx outside) as Hrank.
  cbv zeta in Hd, Hrank. destruct Hrank as (Hp & Hk & Ho).
  set (v := dec_verdict (decide_call s entry name i b cx outside)) in *.
  assert (Hv : (rank v <= 1)%nat) by (destruct Hd as [[-> _]|[-> _]]; simpl; lia).
  split.
  - unfold not_denied. destruct (re_policy entry) eqn:Hperm.
    + destruct (Hp eq_refl) as [Hown Hpar]. split.
      * intros E. rewrite E in Hown. simpl in Hown. lia.
      * intros E. specialize (Hpar _ E). simpl in Hpar. lia.
    + destruct (Hrt Hperm) as [Hk' Ho']. unfold v in *.
      rewrite decide_call_runtime in Hd by done. by destruct Hd as [[_ ?]|[? _]].
  - intros Hneed. assert (H1 : (1 <= rank v)%nat).
    { destruct Hneed as [[Hperm Hask]|[Hkind|(p & Hpath & Hov)]].
      - destruct (Hp Hperm) as [Hown Hpar]. destruct Hask as [E|E].
        + rewrite E in Hown. done.
        + by specialize (Hpar _ E).
      - by apply Hk.
      - apply Ho. by rewrite <- (Hout p Hpath). }
    destruct Hd as [[E _]|[_ ?]]; [|done]. rewrite E in H1. simpl in H1. lia.
Qed.

Lemma publish_before_effects name input policy (cx : DispatchContext A) w b w1 :
  publish_before s name input policy cx w = (b, w1) ->
  exists pre, wd_effects w1 = wd_effects w ++ pre /\ Forall quiet pre.
Proof.
  unfold publish_before. destruct (cx_bus cx); intros [= <- <-].
  - exists [did_before input]. split; [done|by repeat constructor].
  - exists []. by rewrite app_nil_r.
Qed.

(** A runtime tool whose hook demands an approval is blocked, and one that asks for a
    path is refused while it is prepared. *)
Lemma publish_before_runtime name input (cx : DispatchContext A) w b w1 :
  publish_before s name input runtime cx w = (b, w1) -> bo_blocked b = false ->
  hd_kind (bo_decision b) <> require_approval.
Proof.
  unfold publish_before. destruct (cx_bus cx); intros [= <- <-]; [|done].
  destruct (fst (publish_blocking _ _ _)) as [d|e]; [|done]. unfold consume_before.
  destruct (hd_kind d) eqn:Ek; cbn; try done; [congruence|].
  destruct (hd_rewritten_input_json d); cbn; [congruence|done].
Qed.

Lemma prepare_call_runtime (entry : RegEntry A) b i prepared :
  prepare_call entry b i = Ok prepared -> re_policy entry = runtime -> pc_path prepared = None.
Proof.
  unfold prepare_call. intros Hp Hr. rewrite Hr in Hp.
  destruct (is_some (bo_error b) || bo_blocked b); [by injection Hp as <-|].
  destruct (re_prepare entry i) as [p|e]; [|done]. cbn in Hp.
  destruct (negb (is_some (pc_execute p))); [done|]. cbn in Hp.
  destruct (pc_path p) eqn:Epath; cbn in Hp; [done|]. by injection Hp as <-.
Qed.

Lemma take_lock_effects (entry : RegEntry A) prepared cx w lock cx1 w1 :
  take_lock s entry prepared cx w = (lock, cx1, w1) ->
  (exists pre, wd_effects w1 = wd_effects w ++ pre /\ Forall quiet pre) /\
  exists now, cx1 = set_now cx now.
Proof.
  assert (Hnone : (Ok tt, cx, w) = (lock, cx1, w1) ->
    (exists pre, wd_effects w1 = wd_effects w ++ pre /\ Forall quiet pre) /\
    exists now, cx1 = set_now cx now).
  { intros [= <- <- <-]. split; [exists []; by rewrite app_nil_r|].
    exists (cx_now cx). by destruct cx. }
  unfold take_lock. destruct prepared as [[[req|] ex]|]; try exact Hnone.
  destruct (cx_workspace cx); [|exact Hnone]. destruct (cx_has_path_locks cx); [|exact Hnone].
  destruct (path_lock_direction (td_required_capabilities (re_def entry))); [|exact Hnone].
  destruct (lock_key _ _ _) as [key|]; [|exact Hnone].
  destruct (sv_acquire s key _) as [r0 waited]. intros [= <- <- <-]. split.
  - eexists [_]. split; [done|]. by repeat constructor.
  - by eexists.
Qed.

(** The two middle phases together. *)
Lemma run_call_trace (entry : RegEntry A) name input i b prepared lock cx w r cx' w' :
  run_call s entry name input i b prepared lock cx w = (r, cx', w') ->
  (re_policy entry = runtime ->
     (bo_blocked b = false -> hd_kind (bo_decision b) <> require_approval) /\
     forall p, prepared = Ok p -> pc_path p = None) ->
  cx_identity cx' = cx_identity cx /\ cx_now cx' = cx_now cx /\
  exists asks core, wd_effects w' = wd_effects w ++ asks ++ core /\ Forall quiet asks /\
    ((core = [] /\ (is_ok lock = false \/ is_some (bo_error b) = true)) \/
     (is_ok lock = true /\ bo_error b = None /\ exists ev recorded, core = [did_record ev recorded]) \/
     (is_ok lock = true /\ bo_error b = None /\ bo_blocked b = false /\
      exists ev, core = [did_record ev (Ok tt); did_execute i] /\ runs (ev_outcome ev) /\
        ev_tool_name ev = name /\ ev_input_hash ev = Some (input_hash (sv_sha256 s) i) /\
        not_denied entry name i cx ev /\
        (needs_approval entry name i b cx (cx_resolved_path cx') ->
           approved s name i (cx_identity cx) (cx_now cx) asks))).
Proof.
  unfold run_call. intros Hrun Hrt. revert Hrun. destruct lock as [[]|e]; cbn [is_ok].
  2:{ intros [= <- <- <-]. do 2 (split; [done|]). exists [], []. rewrite app_nil_r. split_and!; [done|done|]. left. auto. }
  destruct (bo_error b) as [e|] eqn:Eb.
  { intros [= <- <- <-]. do 2 (split; [done|]). exists [], []. rewrite app_nil_r. split_and!; [done|done|]. left. auto. }
  destruct (bo_blocked b) eqn:Ek.
  { intros [= <- <- <-]. do 2 (split; [done|]). exists [], [did_record (set_outcome
      (build_event s name i (hook_blocked_decision (bo_reason b)) cx
         (with_hook_facts s input i b "{}")) ao_blocked_by_hook) (sv_record s (wd_effects w)
      (set_outcome (build_event s name i (hook_blocked_decision (bo_reason b)) cx
         (with_hook_facts s input i b "{}")) ao_blocked_by_hook))].
    split_and!; [done|done|]. right; left. eauto. }
  destruct prepared as [prepared|e].
  - intros Hrun. apply run_prepared_trace in Hrun
      as (asks & ev & recorded & tail & Hw & Hq & [Hid Hnow] & Htail).
    do 2 (split; [done|]). exists asks, (did_record ev recorded :: tail). split_and!; [done|done|].
    destruct Htail as [->|(-> & -> & Hruns & Hn & Hh & outside & Hout & Hplain & Hd)];
      [right; left; eauto|].
    right; right. split_and!; [done..|]. exists ev. split_and!; try done.
    all: apply (decided_authorized entry name i b _ _ outside _ ev Hout) in Hd as [Hden Hneed];
      [done|]; intros Hr; destruct (Hrt Hr) as [Hk Hpath]; auto.
  - cbn [record]. intros [= <- <- <-]. do 2 (split; [done|]). eexists [], [_].
    split_and!; [done|done|]. right; left. eauto.
Qed.

Lemma dispatch_entry_trace (entry : RegEntry A) name input cx w r cx' w' :
  dispatch_entry s entry name input cx w = (r, cx', w') ->
  exists b w1, publish_before s name input (re_policy entry) cx w = (b, w1) /\
  cx_identity cx' = cx_identity cx /\
  let i := default input (bo_rewritten b) in
  let lock := (take_lock s entry (prepare_call entry b i) cx w1).1.1 in
  exists pre core post, wd_effects w' = wd_effects w ++ pre ++ core ++ post /\
    Forall quiet pre /\ Forall quiet post /\
    ((core = [] /\ (is_ok lock = false \/ is_some (bo_error b) = true)) \/
     (is_ok lock = true /\ bo_error b = None /\ exists ev recorded, core = [did_record ev recorded]) \/
     (is_ok lock = true /\ bo_error b = None /\ bo_blocked b = false /\
      exists ev, core = [did_record ev (Ok tt); did_execute i] /\ runs (ev_outcome ev) /\
        ev_tool_name ev = name /\ ev_input_hash ev = Some (input_hash (sv_sha256 s) i) /\
        not_denied entry name i cx ev /\
        (needs_approval entry name i b cx (cx_resolved_path cx') ->
           approved s name i (cx_identity cx) (cx_now cx') pre))).
Proof.
  unfold dispatch_entry. intros Hrun. destruct (publish_before _ _ _ _ _ _) as [b w1] eqn:Eb.
  destruct (publish_before_effects _ _ _ _ _ _ _ Eb) as (pre1 & Hw1 & Hq1).
  exists b, w1. split; [done|]. cbv zeta.
  set (i := default input (bo_rewritten b)) in *.
  destruct (take_lock s entry (prepare_call entry b i) cx w1) as [[lock cx1] w2] eqn:El.
  destruct (take_lock_effects _ _ _ _ _ _ _ El) as [(pre2 & Hw2 & Hq2) [now ->]].
  destruct (run_call s entry name input i b (prepare_call entry b i) lock (set_now cx now) w2)
    as [[res cx2] w3] eqn:Er.
  apply run_call_trace in Er as (Hid & Hnow & asks & core & Hw3 & Hq3 & Hcore).
  2:{ intros Hr. split; [intros Hb; rewrite Hr in Eb; by eapply publish_before_runtime|].
      intros p Hp. by eapply prepare_call_runtime. }
  assert (Hpost : exists post, Forall quiet post /\
    wd_effects match cx_bus cx2 with
      | Some _ => emit (did_after (build_after_payload s name i cx2 (sv_started_at s) (sv_finished_at s)
           match res with Ok o => Ok (apply_output_caps o (cx_output_caps cx2)) | Err e => Err e end)) w3
      | None => w3 end = wd_effects w3 ++ post).
  { destruct (cx_bus cx2); [eexists [_]; split; [|reflexivity]; by repeat constructor|].
    exists []. by rewrite app_nil_r. }
  destruct Hpost as (post & Hqp & Hw4). injection Hrun as <- <- <-. split; [done|].
  exists (pre1 ++ pre2 ++ asks), core, post. split_and!.
  - rewrite Hw4, Hw3, Hw2, Hw1, <- !app_assoc. done.
  - by rewrite !Forall_app.
  - done.
  - cbn [fst]. destruct Hcore as [Hc|[Hc|(? & ? & ? & ev & ? & ? & ? & ? & ? & Hneed)]];
      [by left|by right; left|right; right].
    split_and!; [done..|]. exists ev. split_and!; try done.
    intros Hn. rewrite Hnow. rewrite app_assoc. apply approved_app. right. by apply Hneed.
Qed.
End Authority.

Section Dispatching.
Context `{FileSystem} {A : Type} `{DirectoryAuthority A} (s : Services).

Lemma dispatch_cases (reg : Registry A) name input cx w r cx' w' :
  dispatch s reg name input cx w = (r, cx', w') ->
  (w' = w /\ exists e, r = Err e /\ err_kind e = ek_not_found /\
     (entries reg !! name = None \/ exists tools, cx_active_tools cx = Some tools /\ name ∉ tools)) \/
  exists entry, entries reg !! name = Some entry /\
    (forall tools, cx_active_tools cx = Some tools -> name ∈ tools) /\
    dispatch_entry s entry name input (set_resolved_path cx None) w = (r, cx', w').
Proof.
  unfold dispatch. cbn [cx_active_tools set_resolved_path].
  destruct (match cx_active_tools cx with Some _ => _ | None => _ end) eqn:Ea.
  - intros [= <- <- <-]. left. split; [done|]. eexists. split_and!; [done|done|]. right.
    destruct (cx_active_tools cx) as [tools|]; [|done]. bool_prop. by exists tools.
  - destruct (entries reg !! name) as [entry|] eqn:Ee.
    + intros Hd. right. exists entry. split_and!; [done| |done]. intros tools Ht.
      rewrite Ht in Ea. by bool_prop.
    + intros [= <- <- <-]. left. split; [done|]. eexists. split_and!; [done|done|by left].
Qed.

Lemma quiet_no_execute l i : Forall quiet l -> ~ In (did_execute i) l.
Proof. rewrite List.Forall_forall. intros Hq Hin. by destruct (Hq _ Hin). Qed.

Lemma quiet_records l : Forall quiet l -> List.filter is_record l = [].
Proof. induction 1 as [|e l [_ Hr] _ IH]; [done|]. simpl. by rewrite Hr. Qed.

Lemma quiet_executes l : Forall quiet l -> existsb is_execute l = false.
Proof. induction 1 as [|e l [He _] _ IH]; [done|]. simpl. by rewrite He. Qed.

(** The shape of a dispatch that ran the tool. *)
Lemma executed_shape (reg : Registry A) name input cx w r cx' w' t i :
  dispatch s reg name input cx w = (r, cx', w') ->
  wd_effects w' = wd_effects w ++ t -> In (did_execute i) t ->
  exists entry b w1 pre ev post,
    entries reg !! name = Some entry /\
    (forall tools, cx_active_tools cx = Some tools -> name ∈ tools) /\
    publish_before s name input (re_policy entry) (set_resolved_path cx None) w = (b, w1) /\
    t = pre ++ [did_record ev (Ok tt); did_execute i] ++ post /\
    Forall quiet pre /\ Forall quiet post /\
    bo_error b = None /\ bo_blocked b = false /\ i = default input (bo_rewritten b) /\
    runs (ev_outcome ev) /\ ev_tool_name ev = name /\
    ev_input_hash ev = Some (input_hash (sv_sha256 s) i) /\
    not_denied s entry name i cx ev /\
    (needs_approval s entry name i b cx (cx_resolved_path cx') ->
       approved s name i (cx_identity cx) (cx_now cx') pre).
Proof.
  intros Hd Ht Hin. apply dispatch_cases in Hd as [[-> _]|(entry & He & Hact & Hd)].
  { assert (t = []) as ->; [|done]. apply (f_equal length) in Ht. rewrite length_app in Ht.
    destruct t; [done|]. simpl in Ht. lia. }
  apply dispatch_entry_trace in Hd as (b & w1 & Hb & _ & pre & core & post & Hw & Hq1 & Hq2 & Hcore).
  rewrite Ht in Hw. apply app_inv_head in Hw. subst t.
  apply in_app_or in Hin as [Hin|Hin]; [by apply quiet_no_execute in Hin|].
  apply in_app_or in Hin as [Hin|Hin]; [|by apply quiet_no_execute in Hin].
  destruct Hcore as [[-> _]|[(_ & _ & ev & rec & ->)|(Hl & Hbe & Hbb & ev & -> & Hr & Hn & Hh & Hden & Hneed)]].
  - done.
  - destruct Hin as [|[]]. discriminate.
  - destruct Hin as [|[Hi|[]]]; [discriminate|]. injection Hi as <-.
    exists entry, b, w1, pre, ev, post. split_and!; done.
Qed.

(** ** Theorems *)
(** C1: the tool's own code runs at most once per dispatch, and only right after an
    audit row for this very tool and input was recorded successfully with an outcome
    that lets the call run: no effect without a durable decision. *)
Theorem execution_recorded (reg : Registry A) name input cx w r cx' w' t i :
  dispatch s reg name input cx w = (r, cx', w') ->
  wd_effects w' = wd_effects w ++ t -> In (did_execute i) t ->
  exists before ev after,
    t = before ++ [did_record ev (Ok tt); did_execute i] ++ after /\
    existsb is_execute before = false /\ existsb is_execute after = false /\
    (ev_outcome ev = ao_allow \/ ev_outcome ev = ao_rewritten \/ ev_outcome ev = ao_approved) /\
    ev_tool_name ev = name /\ ev_input_hash ev = Some (input_hash (sv_sha256 s) i).
Proof.
  intros Hd Ht Hin.
  destruct (executed_shape _ _ _ _ _ _ _ _ _ _ Hd Ht Hin)
    as (entry & b & w1 & pre & ev & post & _ & _ & _ & -> & Hq1 & Hq2 & _ & _ & _ & Hr & Hn & Hh & _).
  exists pre, ev, post. split_and!; try done; by apply quiet_executes.
Qed.



(** C10: every dispatch of a known, enabled tool hands the audit sink exactly one row unless it
    stopped before a decision existed (the lock wait failed or the hook could not be
    published), and then it hands over none and runs nothing. *)
Theorem dispatch_audits_once (reg : Registry A) name input cx w r cx' w' t :
  dispatch s reg name input cx w = (r, cx', w') -> wd_effects w' = wd_effects w ++ t ->
  match entries reg !! name with
  | Some entry =>
      if match cx_active_tools cx with Some l => bool_decide (name ∈ l) | None => true end then
        let cx0 := set_resolved_path cx None in
        let '(b, w1) := publish_before s name input (re_policy entry) cx0 w in
        let call := prepare_call entry b (default input (bo_rewritten b)) in
        let lock := (take_lock s entry call cx0 w1).1.1 in
        length (List.filter is_record t) =
          (if is_ok lock && negb (is_some (bo_error b)) then 1 else 0)%nat
      else t = []
  | None => t = []
  end.
Proof.
  intros Hd Ht.
  assert (Hnone : w' = w -> t = []).
  { intros ->. apply (f_equal length) in Ht. rewrite length_app in Ht.
    destruct t; [done|]. simpl in Ht. lia. }
  apply dispatch_cases in Hd as [[-> (e & _ & _ & Hno)]|(entry & He & Hact & Hd)].
  - rewrite Hnone by done. destruct Hno as [->|(tools & -> & Hnin)]; [done|].
    rewrite bool_decide_eq_false_2 by done. by destruct (entries reg !! name).
  - rewrite He. replace (match cx_active_tools cx with Some _ => _ | None => _ end) with true.
    2:{ destruct (cx_active_tools cx) as [tools|]; [|done].
        symmetry. apply bool_decide_eq_true_2. by apply Hact. }
    apply dispatch_entry_trace in Hd as (b & w1 & Hb & _ & pre & core & post & Hw & Hq1 & Hq2 & Hcore).
    cbv zeta. rewrite Hb. rewrite Ht in Hw. apply app_inv_head in Hw. subst t.
    rewrite !List.filter_app, (quiet_records pre), (quiet_records post) by done. simpl.
    rewrite app_nil_r.
    destruct Hcore as [[-> Hno]|[(Hl & Hbe & ev & rec & ->)|(Hl & Hbe & _ & ev & -> & _)]].
    + destruct Hno as [->| ->]; [done|]. by rewrite andb_false_r.
    + by rewrite Hl, Hbe.
    + by rewrite Hl, Hbe.
Qed.
End Dispatching.

(** ** Output caps *)
(** the caps hold on what leaves dispatch: neither channel exceeds its non-zero cap,
    the text is a prefix of the tool's text that never cuts a code point, data is kept
    whole or dropped, and every loss is flagged in the usage record. *)
Theorem apply_output_caps_spec o caps :
  let o' := apply_output_caps o caps in
  (max_text_bytes caps <> 0%nat -> (length (lit (out_text o')) <= max_text_bytes caps)%nat) /\
  (forall d, max_data_bytes caps <> 0%nat -> out_data_json o' = Some d ->
     (String.length d <= max_data_bytes caps)%nat) /\
  lit (out_text o') `prefix_of` lit (out_text o) /\
  (is_valid_utf8 (lit (out_text o)) = true -> is_valid_utf8 (lit (out_text o')) = true) /\
  (out_text o' <> out_text o -> u_truncated (out_usage o') = true) /\
  (out_data_json o' <> out_data_json o ->
     out_data_json o' = None /\ u_data_dropped (out_usage o') = true).
Proof.
  assert (Hdata : forall x, out_text (cap_data (max_data_bytes caps) x) = out_text x /\
    u_truncated (out_usage (cap_data (max_data_bytes caps) x)) = u_truncated (out_usage x) /\
    (forall d, max_data_bytes caps <> 0%nat -> out_data_json (cap_data (max_data_bytes caps) x) = Some d ->
       (String.length d <= max_data_bytes caps)%nat) /\
    (out_data_json (cap_data (max_data_bytes caps) x) <> out_data_json x ->
     out_data_json (cap_data (max_data_bytes caps) x) = None /\
     u_data_dropped (out_usage (cap_data (max_data_bytes caps) x)) = true)).
  { intros x. unfold cap_data. destruct (out_data_json x) as [d|] eqn:Ed; [|by rewrite Ed].
    destruct (negb _ && _) eqn:Ec; simpl; [done|]. rewrite Ed. split_and!; try done.
    intros d' Hne [= <-]. apply andb_false_iff in Ec as [Ec|Ec].
    - by apply negb_false_iff, Nat.eqb_eq in Ec.
    - by apply Nat.ltb_ge in Ec. }
  assert (Htext : let x := cap_text (max_text_bytes caps) o in
    out_data_json x = out_data_json o /\
    (max_text_bytes caps <> 0%nat -> (length (lit (out_text x)) <= max_text_bytes caps)%nat) /\
    lit (out_text x) `prefix_of` lit (out_text o) /\
    (is_valid_utf8 (lit (out_text o)) = true -> is_valid_utf8 (lit (out_text x)) = true) /\
    (out_text x <> out_text o -> u_truncated (out_usage x) = true)).
  { unfold cap_text. destruct (negb _ && _) eqn:Ec; simpl.
    - rewrite lit_str. pose proof (truncate_to_code_point_bound (lit (out_text o)) (max_text_bytes caps)) as [H1 H2].
      split_and!; try done. apply truncate_valid.
    - split_and!; try done. intros Hne. apply andb_false_iff in Ec as [Ec|Ec].
      + by apply negb_false_iff, Nat.eqb_eq in Ec.
      + apply Nat.ltb_ge in Ec. by rewrite lit_length. }
  destruct Htext as (Ht1 & Ht2 & Ht3 & Ht4 & Ht5).
  destruct (Hdata (cap_text (max_text_bytes caps) o)) as (Hd1 & Hd2 & Hd3 & Hd4).
  unfold apply_output_caps. rewrite Hd1, Hd2. rewrite Ht1 in Hd4. by split_and!.
Qed.

(** ** The registry *)
(** Names and insertion indices of a registry agree with its entries. *)
Definition reg_wf {A} (r : Registry A) : Prop :=
  (forall n e, entries r !! n = Some e -> td_name (re_def e) = n /\ (re_index e < next_index r)%nat) /\
  (forall n1 e1 n2 e2, entries r !! n1 = Some e1 -> entries r !! n2 = Some e2 ->
     re_index e1 = re_index e2 -> n1 = n2).

Inductive reg_reachable {A} (parse : JsonReader) : Registry A -> Prop :=
  | rr_empty : reg_reachable parse (mkRegistry ∅ 0)
  | rr_add r def prepare policy r' : reg_reachable parse r ->
      add_prepared parse r def prepare policy = Ok r' -> reg_reachable parse r'
  | rr_remove r name r' : reg_reachable parse r -> remove r name = Ok r' -> reg_reachable parse r'.

Lemma add_prepared_inv {A} parse (r : Registry A) def prepare policy r' :
  add_prepared parse r def prepare policy = Ok r' ->
  exists p, prepare = Some p /\ entries r !! td_name def = None /\
    td_name def <> ""%string /\
    (policy = runtime -> td_required_capabilities def = []) /\
    r' = mkRegistry (<[td_name def := mkRegEntry def p policy (next_index r)]> (entries r))
           (S (next_index r)).
Proof.
  unfold add_prepared. intros Hadd. ok_inv. destruct prepare as [p|]; [|done]. ok_inv.
  subst r'. exists p. bool_prop. split_and!; try done. intros ->.
  match goal with Hc : _ && _ = false |- _ => rewrite bool_decide_eq_true_2 in Hc by done; simpl in Hc end.
  by bool_prop.
Qed.

Lemma reg_reachable_wf {A} parse (r : Registry A) : reg_reachable parse r -> reg_wf r.
Proof.
  induction 1 as [|r def prepare policy r' _ [IH1 IH2] Hadd|r name r' _ [IH1 IH2] Hrem].
  - split; cbn [entries]; intros *; by rewrite lookup_empty.
  - apply add_prepared_inv in Hadd as (p & _ & Hnone & _ & _ & ->). split; cbn [entries next_index].
    + intros n e. rewrite lookup_insert_Some. intros [[<- <-]|[_ Hn]]; simpl; [split; [done|lia]|].
      destruct (IH1 n e Hn). split; [done|lia].
    + intros n1 e1 n2 e2. rewrite !lookup_insert_Some.
      intros [[<- <-]|[? Hn1]] [[<- <-]|[? Hn2]]; simpl; try done.
      * destruct (IH1 _ _ Hn2). lia.
      * destruct (IH1 _ _ Hn1). lia.
      * by apply IH2.
  - unfold remove in Hrem. destruct (entries r !! name); [|done]. injection Hrem as <-.
    split; cbn [entries next_index].
    + intros n e [_ Hn]%lookup_delete_Some. by apply IH1.
    + intros n1 e1 n2 e2 [_ Hn1]%lookup_delete_Some [_ Hn2]%lookup_delete_Some. by apply IH2.
Qed.

Definition older {A} (e1 e2 : RegEntry A) : Prop := (re_index e1 <= re_index e2)%nat.

Lemma insert_by_index_perm {A} (e : RegEntry A) l : insert_by_index e l ≡ₚ e :: l.
Proof.
  induction l as [|x l IH]; simpl; [done|]. destruct (_ <=? _)%nat; [done|].
  rewrite IH. constructor.
Qed.

Lemma insert_by_index_sorted {A} (e : RegEntry A) l :
  StronglySorted older l -> StronglySorted older (insert_by_index e l).
Proof.
  induction 1 as [|x l Hs IH Hx]; simpl; [by repeat constructor|].
  destruct (Nat.leb_spec (re_index e) (re_index x)).
  - constructor; [by constructor|]. constructor; [done|].
    eapply Forall_impl; [exact Hx|]. unfold older. intros y Hy. lia.
  - constructor; [done|]. rewrite insert_by_index_perm. constructor; [unfold older; lia|done].
Qed.

Lemma isort_spec {A} (l : list (RegEntry A)) :
  StronglySorted older (fold_right insert_by_index [] l) /\
  fold_right insert_by_index [] l ≡ₚ l.
Proof.
  induction l as [|e l [IHs IHp]]; simpl; [split; [constructor|done]|].
  split; [by apply insert_by_index_sorted|]. by rewrite insert_by_index_perm, IHp.
Qed.

Lemma catalog_entries {A} (r : Registry A) e :
  e ∈ map snd (map_to_list (entries r)) <-> exists n, entries r !! n = Some e.
Proof.
  rewrite list_elem_of_fmap. split.
  - intros ([n e'] & -> & Hin%elem_of_map_to_list). by exists n.
  - intros [n Hn]. exists (n, e). split; [done|]. by apply elem_of_map_to_list.
Qed.

(** registering a tool appends exactly its definition to the advertised catalog:
    the catalog lists the registered tools in insertion order whatever the hash map's
    iteration order, and a rejected registration changes nothing. *)
Theorem catalog_add {A} parse (r r' : Registry A) def prepare policy :
  reg_reachable parse r -> add_prepared parse r def prepare policy = Ok r' ->
  catalog r' = catalog r ++ [def] /\ find r' (td_name def) = Some def /\
  forall n, n <> td_name def -> find r' n = find r n.
Proof.
  intros Hr Hadd. destruct (reg_reachable_wf _ _ Hr) as [Hwf1 Hwf2].
  apply add_prepared_inv in Hadd as (p & _ & Hnone & _ & _ & ->).
  unfold find. cbn [entries next_index]. split_and!.
  2:{ by rewrite lookup_insert_eq. }
  2:{ intros n Hn. by rewrite lookup_insert_ne. }
  unfold catalog. cbn [entries]. set (e := mkRegEntry def p policy (next_index r)).
  change [def] with (map re_def [e]). rewrite <- map_app. f_equal.
  destruct (isort_spec (map snd (map_to_list (<[td_name def := e]> (entries r))))) as [Hs1 Hp1].
  destruct (isort_spec (map snd (map_to_list (entries r)))) as [Hs2 Hp2].
  assert (Hlt : forall x, x ∈ fold_right insert_by_index [] (map snd (map_to_list (entries r))) ->
            (re_index x < next_index r)%nat).
  { intros x. rewrite Hp2, catalog_entries. intros [n Hn]. by apply Hwf1 in Hn as [_ ?]. }
  eapply StronglySorted_unique_strong; [|exact Hs1| |].
  - intros x1 x2 H1 H2 Ho1 Ho2. unfold older in *.
    rewrite Hp1 in H1. apply (catalog_entries (mkRegistry _ 0)) in H1 as [n1 H1].
    apply elem_of_app in H2 as [H2|H2].
    + pose proof (Hlt _ H2) as Hl2. rewrite Hp2 in H2. apply catalog_entries in H2 as [n2 H2].
      cbn [entries] in H1. apply lookup_insert_Some in H1 as [[_ <-]|[_ H1]]; [simpl in *; lia|].
      assert (n1 = n2) as -> by (apply (Hwf2 n1 x1 n2 x2); [done|done|lia]). congruence.
    + apply list_elem_of_singleton in H2 as ->.
      cbn [entries] in H1. apply lookup_insert_Some in H1 as [[_ <-]|[_ H1]]; [done|].
      apply Hwf1 in H1 as [_ H1]. simpl in *. lia.
  - apply StronglySorted_app_2; [|done|by repeat constructor].
    intros x1 x2 H1 ->%list_elem_of_singleton. specialize (Hlt _ H1). unfold older. simpl. lia.
  - rewrite Hp1, Hp2, map_to_list_insert by done. simpl. apply Permutation_cons_append.
Qed.

(** ** A concrete dispatch *)
(** A tool no rule mentions under the default mode: the hook rewrites its input, the
    mode asks, an operator approves through the bus, and the tool runs. *)
Import Disk.
Module Demo.
Definition echo_def : ToolDef := mkToolDef "Echo" "echoes" "{}" [].
Definition echo (input : string) : Executor string := fun _ => Ok (text_only input).
Definition empty_registry : Registry string := mkRegistry ∅ 0.
Definition registry : Registry string :=
  match add toy_parse empty_registry echo_def (Some echo) with Ok r => r | Err _ => empty_registry end.
Definition rewriter : Sink :=
  mkSink "rewriter" false
    (Some (fun _ _ => (decided (mkHookDecision rewrite "shorter" (Some "hi"%string) []), None))) true.
Definition operator : Sink :=
  mkSink "operator" false
    (Some (fun _ _ => (decided (mkHookDecision proceed "alice" None []), None))) true.
Definition bus : Bus :=
  subscribe (subscribe (mkBus ∅ default_bus_options) rewriter [tool_before]) operator
    [permission_ask_rendered].
Definition services : Services :=
  mkServices (fun b => b) (fun k b => k ++ b) [] [] (fun _ _ => false) toy_parse (fun _ => "{}"%string)
    (fun _ _ => Ok tt) (fun _ _ => (Ok tt, 0)) 10 20.
Definition context : DispatchContext string :=
  mkContext default_ [] None true None true 5 (Some bus) None None true None (mkCaps 0 0) None
    "scope" "agent" "alice".
Definition world : World := mkWorld broker_init None [].
Definition outcome := dispatch services registry "Echo" "hello" context world.
End Demo.
Import Demo.

Example demo_result : outcome.1.1 = Ok (text_only "hi").
Proof. vm_compute. reflexivity. Qed.

Lemma demo_executed : In (did_execute "hi") (wd_effects outcome.2).
Proof. vm_compute. repeat (first [left; reflexivity | right]). Qed.

Lemma demo_run : dispatch services registry "Echo" "hello" context world =
  (outcome.1.1, outcome.1.2, outcome.2).
Proof. vm_compute. reflexivity. Qed.

Lemma execution_recorded_witness :
  exists before ev after,
    wd_effects outcome.2 = before ++ [did_record ev (Ok tt); did_execute "hi"] ++ after /\
    existsb is_execute before = false /\ existsb is_execute after = false /\
    (ev_outcome ev = ao_allow \/ ev_outcome ev = ao_rewritten \/ ev_outcome ev = ao_approved) /\
    ev_tool_name ev = "Echo"%string /\
    ev_input_hash ev = Some (input_hash (sv_sha256 services) "hi").
Proof.
  exact (execution_recorded services registry "Echo" "hello" context world _ _ _
           (wd_effects outcome.2) "hi" demo_run eq_refl demo_executed).
Defined.



Lemma dispatch_audits_once_witness :
  length (List.filter is_record (wd_effects outcome.2)) = 1%nat.
Proof.
  pose proof (dispatch_audits_once services registry "Echo" "hello" context world _ _ _
           (wd_effects outcome.2) demo_run eq_refl) as H.
  vm_compute in H. vm_compute. exact H.
Defined.

Lemma catalog_add_witness :
  catalog registry = catalog empty_registry ++ [echo_def] /\
  find registry "Echo" = Some echo_def /\
  forall n, n <> "Echo"%string -> find registry n = find empty_registry n.
Proof.
  apply (catalog_add toy_parse empty_registry registry echo_def
    (Some (fun input => Ok (mkPrepared None (Some (echo input))))) permissioned).
  - apply rr_empty.
  - vm_compute. reflexivity.
Defined.
