(* ===== verification/FileTools.v ===== *)
(** * oran-tool: reading, writing and editing files

    Models [src/oran-tool/version_token.hpp], [file_edit.cpp], [file_write.cpp] and
    [file_read.cpp]: the parsing of a call's input, and the handlers, which run the
    mutations of [Mutation.v] and the reads of [FileText.v] on the path that dispatch
    resolved.  Sizes are [std::size_t], as [Z] below [2 ^ 64]; positions in a text are
    [nat].  A handler's reads go through a descriptor: what [pread] and [fstat] answer
    on it is given. *)
From S2P Require Import Prelude Core TurnId Json Approval AuditRows Hooks.
From S2P Require Import Paths FileText Mutation Anchored Workspace Admission Dispatch.
Import EnumNames.
#[local] Open Scope Z_scope.

(** ** Version tokens *)
Section Token.
Context (sha256 : bytes -> bytes).

Definition version_token (canonical_path : string) (fp : FileFingerprint) : string :=
  ("v1:" +:+ input_hash_hex sha256 canonical_path +:+ ":" +:+ pretty (size_bytes fp) +:+ ":" +:+
   pretty (mtime_ns fp))%string.

Definition changed_during_write (path expected current_token : string) : Error :=
  Errors.with_ctx (Errors.with_ctx (Errors.with_ctx (Errors.with_ctx (Errors.mk ek_conflict "file changed during write")
    "path" path) "reason" "stale_fingerprint") "expected" expected) "fingerprint" current_token.
Definition expected_version_verifier (path expected : string) (fp : FileFingerprint) : Result unit :=
  let current_token := version_token path fp in
  if decide (current_token = expected) then Ok tt else Err (changed_during_write path expected current_token).
End Token.

(** ** Replacing text *)
(** [std::string_view::find]: the first position from [pos] on where the needle is. *)
Definition find (haystack needle : bytes) (pos : nat) : option nat :=
  Nat.add pos <$> find_sub needle (drop pos haystack).

Fixpoint find_loop (fuel : nat) (haystack needle : bytes) (pos : nat) : list nat :=
  match fuel with
  | O => []
  | S fuel =>
      match find haystack needle pos with
      | None => []
      | Some p => p :: find_loop fuel haystack needle (p + length needle)
      end
  end.
(** Each match moves on by the needle, which is not empty: as many steps as the text is
    long are enough, and one to find no more. *)
Definition find_occurrences (haystack needle : bytes) : list nat :=
  find_loop (S (length haystack)) haystack needle 0.

Definition size_max : Z := 2 ^ 64 - 1.
Definition replacement_size (source_size old_size new_size replacement_count : Z) : Result Z :=
  if new_size <=? old_size then Ok (wrap_u 64 (source_size - wrap_u 64 ((old_size - new_size) * replacement_count)))
  else
    let delta := new_size - old_size in
    let available := size_max - source_size in
    if available / delta <? replacement_count then
      Err (Errors.invalid_argument "FileEdit: replacement output is too large")
    else Ok (wrap_u 64 (source_size + wrap_u 64 (delta * replacement_count))).

Fixpoint apply_loop (source old_string new_string : bytes) (cursor : nat) (positions : list nat) : bytes :=
  match positions with
  | [] => drop cursor source
  | pos :: positions =>
      take (pos - cursor) (drop cursor source) ++ new_string ++
      apply_loop source old_string new_string (pos + length old_string) positions
  end.
Definition apply_replacements (source old_string new_string : bytes) (positions : list nat) : bytes :=
  apply_loop source old_string new_string 0 positions.

(** ** The handlers *)
Record FileEditRequest := mkEditRequest {
  e_old_string : string; e_new_string : string; e_replace_all : bool; e_max_bytes : Z;
  e_expected_version : option string }.
Record FileWriteRequest := mkWriteRequest {
  wr_content : string; wr_options : WriteTextOptions; wr_expected_version : option string }.
Record FileReadRequest := mkReadRequest { rq_path : string; rq_options : ReadTextOptions }.

(** What a descriptor answers to the reads of [read_file]. *)
Record Reading := mkReading {
  rd_pread : Z -> Z -> Result bytes; rd_pread' : Z -> Z -> Result bytes;
  rd_pre : Result FileFingerprint; rd_post : Result FileFingerprint; rd_post' : Result FileFingerprint }.
Definition run_read (rd : Reading) (fuel : nat) (display : string) (o : ReadTextOptions) : option (Result ReadTextResult) :=
  read_file display (rd_pread rd) (rd_pread' rd) fuel o (rd_pre rd) (rd_post rd) (rd_post' rd).

(** [read_text_file_ranged]; there is fuel for a file of any size read. *)
Definition read_text_file_ranged (rd : Reading) (fuel : nat) (display : string) (o : ReadTextOptions) : M (Result ReadTextResult) :=
  ret (default (Err (Errors.internal "unreachable")) (run_read rd fuel display o)).

Definition ctx2 (e : Error) (k1 v1 k2 v2 : string) : Error := Errors.with_ctx (Errors.with_ctx e k1 v1) k2 v2.

(** What the edit makes of the text that was read, and how many matches it replaced. *)
Definition edit_contents (path : string) (q : FileEditRequest) (read : ReadTextResult) : Result (bytes * Z) :=
  fail? truncated read with
    ctx2 (Errors.invalid_argument "file exceeds max_bytes") "path" path "max_bytes" (pretty (e_max_bytes q));
  let contents := text read in
  let old := lit (e_old_string q) in
  let new := lit (e_new_string q) in
  let positions := find_occurrences contents old in
  let applied := Z.of_nat (length positions) in
  fail? applied =? 0 with
    Errors.with_ctx (Errors.not_found "FileEdit: `old_string` does not occur in the file") "path" path;
  fail? (1 <? applied) && negb (e_replace_all q) with
    ctx2 (Errors.mk ek_conflict "FileEdit: `old_string` is not unique; pass `replace_all` to apply to every match")
      "path" path "match_count" (pretty applied);
  match replacement_size (size contents) (size old) (size new) applied with
  | Err e => Err (Errors.with_ctx e "path" path)
  | Ok output_size =>
      fail? e_max_bytes q <? output_size with
        Errors.with_ctx (ctx2 (Errors.invalid_argument "FileEdit: output exceeds max_bytes") "path" path
          "output_bytes" (pretty output_size)) "max_bytes" (pretty (e_max_bytes q));
      Ok (apply_replacements contents old new positions, applied)
  end.

Definition files_usage (read written matches : option Z) (cut : bool) : ToolUsage :=
  mkUsage read written (Some 1) matches None None cut false.

Section Handlers.
Context (os : Trace -> Call -> Answer) (describe : Z -> string) (sha256 : bytes -> bytes) (dump : JsonWriter).
Context {A : Type} (native_handle : A -> Z) (display_root : A -> string) (rd : Reading) (fuel : nat).

(** The check of the expected version before anything is read or written. *)
Definition check_version (tool path expected : string) (pre : Result FileFingerprint) : Result unit :=
  match pre with
  | Err e =>
      Err (Errors.with_ctx (ctx2 (Errors.mk ek_conflict (tool +:+ ": expected_version cannot be verified")%string)
        "path" path "reason" "stale_fingerprint") "detail" (err_message e))
  | Ok fp =>
      let current_token := version_token sha256 path fp in
      if decide (expected = current_token) then Ok tt
      else Err (Errors.with_ctx (Errors.with_ctx
        (ctx2 (Errors.mk ek_conflict (tool +:+ ": file has changed since the expected version")%string)
          "path" path "reason" "stale_fingerprint") "expected" expected) "fingerprint" current_token)
  end.

Definition edit_options (path : string) (expected : option string) : WriteTextOptions :=
  mkWriteOptions truncate false true rename_only (expected_version_verifier sha256 path <$> expected).

Definition edit_output (path : string) (contents replaced : bytes) (applied : Z) : Output :=
  mkOutput ("edited " +:+ path +:+ ": " +:+ pretty applied +:+ " replacement" +:+
            (if (applied =? 1)%Z then "" else "s"))%string None []
    (files_usage (Some (size contents)) (Some (size replaced)) (Some applied) false) false.

Definition file_edit_handler (q : FileEditRequest) (resolved : option (ResolvedToolPath A)) : M (Result Output) :=
  match resolved with
  | None => ret (Err (Errors.internal "FileEdit requires a resolved workspace authority"))
  | Some rp =>
      let path := tp_absolute_path rp in
      let! m := begin_file_mutation os describe (display_root (tp_authority rp)) (tp_authority_relative_path rp) false in
      let! _ := open_existing os describe m in
      let! _ :=
        (match e_expected_version q with
         | None => ret (Ok tt)
         | Some expected =>
             let* pre := compute_file_fingerprint os describe stat_read (m_display m) in
             ret (check_version kFileEditName path expected pre)
         end) in
      let! read := read_text_file_ranged rd fuel (m_display m) (mkReadOptions (e_max_bytes q) None) in
      match edit_contents path q read with
      | Err e => ret (Err e)
      | Ok (replaced, applied) =>
          let! _ := write_text os describe m replaced (edit_options path (e_expected_version q)) in
          ret (Ok (edit_output path (text read) replaced applied))
      end
  end.

(** The fingerprint of the target, if there is one. *)
Definition target_fingerprint (m : FileMutation) : M (Result FileFingerprint) :=
  let! _ := open_existing os describe m in compute_file_fingerprint os describe stat_read (m_display m).

Definition set_verify (o : WriteTextOptions) (path : string) (expected : option string) : WriteTextOptions :=
  match expected with
  | Some expected =>
      if w_atomic o then
        mkWriteOptions (w_mode o) (w_create_parents o) (w_atomic o) (w_durability o)
          (Some (expected_version_verifier sha256 path expected))
      else o
  | None => o
  end.

Definition file_write_handler (q : FileWriteRequest) (resolved : option (ResolvedToolPath A)) : M (Result Output) :=
  match resolved with
  | None => ret (Err (Errors.internal "FileWrite requires a resolved workspace authority"))
  | Some rp =>
      let path := tp_absolute_path rp in
      let o := wr_options q in
      let! m := begin_file_mutation os describe (display_root (tp_authority rp)) (tp_authority_relative_path rp)
                  (w_create_parents o) in
      let! _ :=
        (match wr_expected_version q with
         | None => ret (Ok tt)
         | Some expected =>
             let* pre := target_fingerprint m in ret (check_version kFileWriteName path expected pre)
         end) in
      let contents := lit (wr_content q) in
      let! _ := write_text os describe m contents (set_verify o path (wr_expected_version q)) in
      ret (Ok (mkOutput ("wrote " +:+ pretty (size contents) +:+ " bytes to " +:+ path)%string None []
        (files_usage None (Some (size contents)) None false) false))
  end.

(** *** Reading *)
Definition format_header (path : string) (r : ReadTextResult) (token : string) : string :=
  (path +:+ ":" +:+ pretty (res_start_line r) +:+ "-" +:+ pretty (res_end_line r) +:+ " fingerprint=" +:+ token +:+
   " bytes=" +:+ pretty (returned_bytes r) +:+ (if truncated r then " truncated" else ""))%string.

Definition format_data_json (path : string) (body : bytes) (r : ReadTextResult) (token : string) : string :=
  dump (jobject [("kind", JString "file_read"); ("path", JString path); ("text", JString (str body));
    ("fingerprint", JString token); ("start_line", JInt (res_start_line r)); ("end_line", JInt (res_end_line r));
    ("returned_bytes", JInt (returned_bytes r)); ("truncated", JBool (truncated r))]%string).

(** How a window ends: cut, at the end of the file, or with the line to go on from. *)
Inductive WindowEnd := incomplete | end_of_file | continue_with (offset : Z).
Definition window_end (r : ReadTextResult) (line_count : Z) : WindowEnd :=
  if truncated r then incomplete
  else if res_end_line r <? res_start_line r then end_of_file
  else if res_end_line r - res_start_line r + 1 <? line_count then end_of_file
  else continue_with (res_end_line r + 1).
Definition window_end_text (w : WindowEnd) : string :=
  match w with
  | incomplete => "; incomplete window: retry with a smaller limit or larger max_bytes before editing"
  | end_of_file => "; end of file"
  | continue_with offset => ("; continue with offset=" +:+ pretty offset)%string
  end.

(** [options.range->lines->line_count]; the preparation always sets the lines. *)
Definition requested_count (o : ReadTextOptions) : Z :=
  match range o with Some (mkRange (Some l) _) => line_count l | _ => 0 end.

Definition file_read_handler (q : FileReadRequest) (has_workspace : bool) (resolved : option (ResolvedToolPath A)) : M (Result Output) :=
  let path := match resolved with Some rp => tp_absolute_path rp | None => rq_path q end in
  let! display :=
    (match resolved with
     | Some rp =>
         let! file := open_file os describe (native_handle (tp_authority rp)) (display_root (tp_authority rp))
                        (mkAnchored (tp_authority_relative_path rp) allow_beneath) in
         ret (Ok file.2)
     | None =>
         if has_workspace then
           ret (Err (Errors.internal "FileRead: workspace dispatch did not provide a resolved authority"))
         else open_trusted_file os describe path
     end) in
  let! r := read_text_file_ranged rd fuel display (rq_options q) in
  let token := version_token sha256 path (fingerprint r) in
  let header := (format_header path r token +:+ window_end_text (window_end r (requested_count (rq_options q))))%string in
  ret (Ok (mkOutput (header +:+ str [newline] +:+ str (text r))%string (Some (format_data_json path (text r) r token)) []
    (files_usage (Some (returned_bytes r)) None None (truncated r)) false)).
End Handlers.

(** ** Preparation *)
Section Prepare.
Context (parse : JsonReader).

Definition optional_bool (input : json) (tool field : string) (otherwise : bool) : Result bool :=
  match jfind input field with
  | None => Ok otherwise
  | Some (JBool b) => Ok b
  | Some _ => Err (Errors.invalid_argument (tool +:+ ": `" +:+ field +:+ "` must be a boolean")%string)
  end.
Definition optional_string (input : json) (tool field : string) : Result (option string) :=
  match jfind input field with
  | None => Ok None
  | Some (JString s) => Ok (Some s)
  | Some _ => Err (Errors.invalid_argument (tool +:+ ": `" +:+ field +:+ "` must be a string")%string)
  end.

Definition prepare_file_edit (input_json : string) : Result (PathRequest * FileEditRequest) :=
  let? parsed := parse_input_object parse input_json kFileEditName
    ["path"; "old_string"; "new_string"; "replace_all"; "max_bytes"; "expected_version"]%string in
  let? path := require_path_field parsed kFileEditName in
  let? old_string := require_string_field parsed kFileEditName "old_string" in
  let? new_string := require_string_field parsed kFileEditName "new_string" in
  let? replace_all := optional_bool parsed kFileEditName "replace_all" false in
  let? expected_version := optional_string parsed kFileEditName "expected_version" in
  let? max_bytes := parse_file_max_bytes parsed kFileEditName in
  fail? bool_decide (old_string = ""%string) with
    Errors.invalid_argument "FileEdit: `old_string` must be non-empty";
  fail? bool_decide (old_string = new_string) with
    Errors.invalid_argument "FileEdit: `old_string` and `new_string` are identical";
  Ok (mkPathRequest path pi_write (mkWriteIntent false) false,
      mkEditRequest old_string new_string replace_all max_bytes expected_version).

Definition parse_mode (parsed : json) : Result WriteMode :=
  match jfind parsed "mode" with
  | None => Ok truncate
  | Some (JString mode_text) =>
      match parse_enum mode_text with
      | Some mode => Ok mode
      | None => Err (Errors.with_ctx
          (Errors.invalid_argument "FileWrite: `mode` must be one of truncate|append|fail_if_exists") "value" mode_text)
      end
  | Some _ => Err (Errors.invalid_argument "FileWrite: `mode` must be a string")
  end.

Definition prepare_file_write (input_json : string) : Result (PathRequest * FileWriteRequest) :=
  let? parsed := parse_input_object parse input_json kFileWriteName
    ["path"; "content"; "mode"; "create_parents"; "max_bytes"; "expected_version"]%string in
  let? path := require_path_field parsed kFileWriteName in
  let? content := require_string_field parsed kFileWriteName "content" in
  let? max_bytes := parse_file_max_bytes parsed kFileWriteName in
  let? mode := parse_mode parsed in
  let? create_parents := optional_bool parsed kFileWriteName "create_parents" false in
  let? expected_version := optional_string parsed kFileWriteName "expected_version" in
  let byte_count := size (lit content) in
  fail? max_bytes <? byte_count with
    Errors.with_ctx (ctx2 (Errors.invalid_argument "FileWrite: `content` exceeds max_bytes") "path" path
      "content_bytes" (pretty byte_count)) "max_bytes" (pretty max_bytes);
  Ok (mkPathRequest path pi_write (mkWriteIntent create_parents) false,
      mkWriteRequest content (mkWriteOptions mode create_parents (bool_decide (mode = truncate)) rename_only None)
        expected_version).

(** [parse_options]: the offset, then the limit. *)
Definition parse_options (parsed : json) : Result ReadTextOptions :=
  let? max_bytes := parse_file_max_bytes parsed kFileReadName in
  let? start :=
    match jfind parsed "offset" with
    | None => Ok 1
    | Some raw => parse_positive_unsigned raw kFileReadName "offset"
    end in
  let? count :=
    match jfind parsed "limit" with
    | None => Ok 2000
    | Some raw =>
        let? value := parse_positive_unsigned raw kFileReadName "limit" in
        fail? 2000 <? value with Errors.invalid_argument "FileRead: `limit` must be <= 2000";
        Ok value
    end in
  Ok (mkReadOptions max_bytes (Some (mkRange (Some (mkLines start count)) None))).

Definition prepare_file_read (input_json : string) : Result (PathRequest * FileReadRequest) :=
  let? parsed := parse_input_object parse input_json kFileReadName
    ["path"; "offset"; "limit"; "max_bytes"; "allow_outside_workspace"]%string in
  let? path := require_path_field parsed kFileReadName in
  let? options := parse_options parsed in
  let? allow := optional_bool parsed kFileReadName "allow_outside_workspace" false in
  Ok (mkPathRequest path pi_read (mkWriteIntent false) allow, mkReadRequest path options).

(** The call that dispatch runs; it sees the system after the calls [t]. *)
Definition prepared_call {A Q} (t : Trace) (handler : Q -> DispatchContext A -> M (Result Output))
    (r : Result (PathRequest * Q)) : Result (PreparedCall A) :=
  let? (path, q) := r in
  Ok (mkPrepared (Some path) (Some (fun cx => (handler q cx t).1))).
End Prepare.

(** ** Searching and replacing *)
(** Left to right: the first match of what is left is replaced, and so on behind it. *)
Inductive Replaced (old new : bytes) : nat -> bytes -> bytes -> Prop :=
  | replaced_none s : (forall i, starts_with old (drop i s) = false) -> Replaced old new 0 s s
  | replaced_first before rest out n :
      (forall i, (i < length before)%nat -> starts_with old (drop i (before ++ old ++ rest)) = false) ->
      Replaced old new n rest out -> Replaced old new (S n) (before ++ old ++ rest) (before ++ new ++ out).

Lemma find_loop_replaced old new source : old <> [] -> forall fuel pos,
  (pos <= length source)%nat -> (length source - pos < fuel)%nat ->
  Replaced old new (length (find_loop fuel source old pos)) (drop pos source)
    (apply_loop source old new pos (find_loop fuel source old pos)).
Proof.
  intros Ho. induction fuel as [|fuel IH]; intros pos Hp Hf; [lia|]. cbn [find_loop]. unfold find.
  pose proof (find_sub_spec old (drop pos source)) as Hs. destruct (find_sub old (drop pos source)) as [p|]; [|by constructor].
  destruct Hs as (Hm & Hl & Hfirst). cbn [fmap option_fmap option_map length apply_loop].
  apply starts_with_spec in Hm as [rest Hrest]. rewrite length_drop in Hl.
  assert (Hd : drop pos source = take p (drop pos source) ++ old ++ rest) by (rewrite <- Hrest; by rewrite take_drop).
  replace (pos + p - pos)%nat with p by lia.
  assert (Hr : rest = drop (pos + p + length old) source).
  { rewrite <- drop_drop, <- drop_drop, Hrest, drop_app_length. done. }
  assert (Hlen : (length old <= length source - pos - p)%nat).
  { apply (f_equal length) in Hrest. rewrite !length_drop, length_app in Hrest. lia. }
  assert (0 < length old)%nat by (destruct old; [done|cbn; lia]).
  rewrite Hd at 1. constructor.
  - intros i Hi. rewrite <- Hd. apply Hfirst. rewrite length_take, length_drop in Hi. lia.
  - rewrite Hr. apply IH; lia.
Qed.

Lemma find_occurrences_replaced old new source :
  old <> [] -> Replaced old new (length (find_occurrences source old)) source
    (apply_replacements source old new (find_occurrences source old)).
Proof. intros Ho. apply (find_loop_replaced old new source Ho (S (length source)) 0); lia. Qed.

Lemma replaced_size old new n s out :
  Replaced old new n s out ->
  size out = size s + Z.of_nat n * (size new - size old) /\ Z.of_nat n * size old <= size s.
Proof.
  induction 1 as [s Hs|before rest out n Hb Hr [IH1 IH2]]; [pose proof (size_nonneg s); lia|].
  rewrite !size_app. pose proof (size_nonneg before). lia.
Qed.

Lemma replacement_size_spec s old new n :
  0 <= old -> 0 <= new -> 0 <= n -> n * old <= s -> s <= size_max ->
  match replacement_size s old new n with
  | Ok z => z = s + n * (new - old) /\ 0 <= z <= size_max
  | Err _ => size_max < s + n * (new - old)
  end.
Proof.
  intros Ho Hn Hc Hle Hs. unfold replacement_size, size_max in *. destruct (Z.leb_spec new old) as [Hno|Hno].
  - assert (0 <= (old - new) * n <= s) by nia.
    rewrite (wrap_u_id 64 ((old - new) * n)) by (unfold fits_u; lia). rewrite wrap_u_id by (unfold fits_u; lia). nia.
  - destruct (Z.ltb_spec ((2 ^ 64 - 1 - s) / (new - old)) n) as [Hlt|Hge].
    + apply Z.div_lt_upper_bound in Hlt || (pose proof (Z.mul_succ_div_gt (2 ^ 64 - 1 - s) (new - old) ltac:(lia)); nia).
    + assert (n * (new - old) <= 2 ^ 64 - 1 - s).
      { pose proof (Z.mul_div_le (2 ^ 64 - 1 - s) (new - old) ltac:(lia)). nia. }
      assert (0 <= n * (new - old)) by nia.
      rewrite (wrap_u_id 64 ((new - old) * n)) by (unfold fits_u; lia). rewrite wrap_u_id by (unfold fits_u; lia). lia.
Qed.

(** ** What the handlers do *)
(** A call that neither writes nor replaces. *)
Definition reading (e : Call * Answer) : Prop :=
  match e.1 with write_temp _ | rename_temp | link_temp | write_append _ => False | _ => True end.

Lemma reading_quiet ev : Forall reading ev -> Mutation.quiet ev /\ temp_contents ev = [].
Proof.
  induction 1 as [|[c a] ev Hc _ [IH1 IH2]]; [by split; [constructor|]|]. unfold reading in Hc. cbn in Hc.
  split; [constructor; [by destruct c|done]|]. unfold temp_contents in *. cbn. by destruct c.
Qed.

(** One rename put [contents] in place of the target [s], found and accepted just before. *)
Definition commits (contents : bytes) (s : Stat) (ev : Trace) : Prop :=
  exists ev1 a ev2, ev = ev1 ++ (rename_temp, a) :: ev2 /\ succeeded a = true /\ Mutation.quiet ev1 /\ Mutation.quiet ev2 /\
    temp_contents ev1 = contents /\ (stat_target, stat s) ∈ ev1.

Lemma commits_after contents s ev0 ev : Forall reading ev0 -> commits contents s ev -> commits contents s (ev0 ++ ev).
Proof.
  intros [Hq Ht]%reading_quiet (ev1 & a & ev2 & -> & Ha & H1 & H2 & Hc & Hs). exists (ev0 ++ ev1), a, ev2.
  rewrite temp_contents_app, Ht. split_and!; [by rewrite <- app_assoc|done|by apply quiet_app|done|done|].
  apply elem_of_app. by right.
Qed.

Lemma same_identity_trans a b c : same_identity a b = true -> same_identity a c = true -> same_identity b c = true.
Proof.
  unfold same_identity. intros Hab Hac. bool_prop. repeat (apply andb_true_iff; split);
    repeat apply bool_decide_eq_true_2; try apply Z.eqb_eq; congruence.
Qed.

Section Effects.
Context (os : Trace -> Call -> Answer) (describe : Z -> string) (sha256 : bytes -> bytes).
Context {A : Type} (display_root : A -> string) (rd : Reading) (fuel : nat).

Lemma begin_reading root path create : does reading (begin_file_mutation os describe root path create).
Proof.
  intros t. destruct (begin_file_mutation os describe root path create t) as [r t1] eqn:E.
  assert (H : does (begins_beneath create) (begin_file_mutation os describe root path create)).
  { unfold begin_file_mutation. destruct (validate_anchored_path path) as [[]|] eqn:Hv; [|apply does_ret].
    destruct (List.rev _) as [|name parents] eqn:Er; [apply does_ret|]. apply rev_components in Er as [_ Hp]; [|done].
    apply does_try; [by apply does_or_errno|]. intros _. apply does_try; [by apply enter_dirs_does|]. intros _.
    apply does_try; [apply snapshot_does|]. intros. apply does_ret. }
  destruct (H t) as (r' & ev & Hr & He). rewrite E in Hr. injection Hr as -> ->. exists r', ev. split; [done|].
  eapply Forall_impl; [exact He|]. intros [c a] Hc. unfold begins_beneath, reading in *. by destruct c.
Qed.

(** The file that was opened is the one of the snapshot. *)
Lemma open_existing_spec m :
  adds (open_existing os describe m) (fun r ev => Forall reading ev /\
    forall s, r = Ok s -> (stat_read, stat s) ∈ ev /\ exists snapshot, m_snapshot m = Some snapshot /\ same_identity snapshot s = true).
Proof.
  unfold open_existing. destruct (m_snapshot m) as [snapshot|]; [|by apply adds_ret].
  eapply adds_try; [by apply (does_or_errno reading)|by intros e ev He; split|]. intros a ev He. cbn beta in He.
  eapply adds_try; [apply fstat_spec|intros e ev' (b & -> & _); split; [|done]; apply Forall_app; by repeat constructor|].
  intros s ev' (b & -> & ->). apply adds_ret. rewrite app_nil_r. split; [apply Forall_app; by repeat constructor|].
  intros s'. destruct (same_identity snapshot s) eqn:Es; [|done]. intros [= <-]. split; [|eauto].
  apply elem_of_app. right. by apply elem_of_cons; left.
Qed.

Lemma fingerprint_reading c display : (forall a, reading (c, a)) -> does reading (compute_file_fingerprint os describe c display).
Proof. intros H. apply does_bind; [by apply does_sys|]. intros. apply does_ret. Qed.

(** A truncating write without durability: nothing, or a commit over the snapshot. *)
Lemma write_commits m contents o snapshot :
  w_mode o = truncate -> w_durability o = rename_only -> m_snapshot m = Some snapshot ->
  adds (write_text os describe m contents o) (fun r ev =>
    match r with
    | Ok _ => exists s, commits contents s ev /\ same_identity snapshot s = true /\
        forall verify, w_verify o = Some verify -> verify (fingerprint_from_stat s) = Ok tt
    | Err _ => Mutation.quiet ev
    end).
Proof.
  intros Hm Hd Hs. unfold write_text. destruct (write_options_error m o) as [e|]; [apply adds_ret; constructor|].
  rewrite Hm. eapply adds_mono; [|apply write_truncate_spec]. intros r ev [(Hr & Hq & _)|Hc]; [by destruct r as [[]|]|].
  destruct Hc as (ev1 & a & ev2 & -> & Ha & H1 & H2 & Ht & Hk & Hr). destruct Hr as [->|Hr]; [|by rewrite Hd in Hr].
  unfold checked in Hk. rewrite Hs in Hk. destruct Hk as (s & Hin & Hi & Hv). exists s. split; [by exists ev1, a, ev2|].
  split; [done|]. intros verify Hw. by rewrite Hw in Hv.
Qed.

(** The verifier accepts the files whose token is the expected one. *)
Lemma verifier_spec path expected fp :
  expected_version_verifier sha256 path expected fp = Ok tt <-> version_token sha256 path fp = expected.
Proof. unfold expected_version_verifier. by case_decide. Qed.
End Effects.

(** A nonnegative [Z] is printed in digits. *)
Lemma pretty_nonneg z : 0 <= z -> Forall digit (lit (pretty z)).
Proof.
  intros Hz. destruct z as [|p|p]; [repeat constructor; vm_compute; discriminate| |lia].
  change (pretty (Z.pos p)) with (pretty (N.pos p)). replace (N.pos p) with (N.of_nat (Pos.to_nat p)) by lia.
  apply (pretty_digits (Pos.to_nat p)).
Qed.

Lemma hex_cons b h : to_hex (b :: h) = hex_byte b ++ to_hex h.
Proof.
  unfold to_hex. cbn [map concat]. f_equal. apply (bool_decide_eq_true_1 _). revert b.
  apply (byte_cases (fun b => bool_decide ([_; _] = hex_byte b))). by vm_compute.
Qed.

Lemma to_hex_inj h : forall h' r s, length h = length h' -> to_hex h ++ r = to_hex h' ++ s -> h = h' /\ r = s.
Proof.
  induction h as [|b h IH]; intros [|b' h'] r s Hl; try done. rewrite !hex_cons, <- !app_assoc.
  destruct (hex_pair_format b) as (d1 & d2 & E & Hb), (hex_pair_format b') as (d1' & d2' & E' & Hb').
  rewrite E, E'. cbn. intros [= -> -> H]. apply IH in H as [-> ->]; [|by injection Hl]. split; [|done]. congruence.
Qed.

Section Claims.
Context (os : Trace -> Call -> Answer) (describe : Z -> string) (sha256 : bytes -> bytes) (dump : JsonWriter).
Context {A : Type} (display_root : A -> string) (rd : Reading) (fuel : nat).

(** What an edit leaves behind: nothing on an error, or one rename over the file that was read. *)
Definition EditEffect (q : FileEditRequest) (path : string) (r : Result Output) (ev : Trace) : Prop :=
  match r with
  | Err _ => Mutation.quiet ev
  | Ok out =>
      exists display read replaced applied s0 s,
        run_read rd fuel display (mkReadOptions (e_max_bytes q) None) = Some (Ok read) /\
        edit_contents path q read = Ok (replaced, applied) /\ out = edit_output path (text read) replaced applied /\
        (stat_read, stat s0) ∈ ev /\ same_identity s0 s = true /\ commits replaced s ev /\
        forall expected, e_expected_version q = Some expected ->
          version_token sha256 path (fingerprint_from_stat s) = expected
  end.

Lemma file_edit_effect q (rp : ResolvedToolPath A) :
  adds (file_edit_handler os describe sha256 display_root rd fuel q (Some rp)) (EditEffect q (tp_absolute_path rp)).
Proof.
  cbn [file_edit_handler]. set (path := tp_absolute_path rp).
  eapply adds_try; [apply begin_reading|intros e ev Hev; by apply reading_quiet|]. intros m ev0 H0. cbn beta in H0.
  eapply adds_try; [apply open_existing_spec|intros e ev [H1 _]; apply reading_quiet, Forall_app; by split|].
  intros s0 ev1 [H1 Hs0]. destruct (Hs0 s0 eq_refl) as (Hin & snapshot & Hm & Hi).
  eapply adds_try with (P := fun _ ev => Forall reading ev).
  { destruct (e_expected_version q); [|by apply adds_ret]. apply does_bind; [by apply fingerprint_reading|].
    intros. apply does_ret. }
  { intros e ev2 H2. apply reading_quiet. by rewrite !Forall_app. }
  intros _ ev2 H2. cbn beta in H2.
  assert (Hq : Forall reading ((ev0 ++ ev1) ++ ev2)) by (by rewrite !Forall_app).
  eapply adds_try with (P := fun r ev => ev = [] /\ forall read, r = Ok read ->
    run_read rd fuel (m_display m) (mkReadOptions (e_max_bytes q) None) = Some (Ok read)).
  { apply adds_ret. split; [done|]. intros read. by destruct (run_read _ _ _ _) as [r|]; [intros H; cbn in H; subst r|]. }
  { intros e ev3 [-> _]. by rewrite app_assoc, app_assoc, app_nil_r; apply reading_quiet. }
  intros read ev3 [-> Hrun]. destruct (edit_contents path q read) as [[replaced applied]|e] eqn:Ee; cbn beta iota.
  2: { apply adds_ret. rewrite !app_nil_r, app_assoc. by apply reading_quiet. }
  eapply adds_try; [by apply (write_commits os describe m replaced _ snapshot)|intros e ev4 H4; rewrite !app_assoc, app_nil_r; apply quiet_app; [by apply reading_quiet|exact H4]|].
  intros [] ev4 (s & Hc & Hs & Hv). apply adds_ret. rewrite !app_assoc, !app_nil_r.
  exists (m_display m), read, replaced, applied, s0, s. split_and!; [by apply Hrun|done|done| | | |].
  - rewrite !elem_of_app. tauto.
  - by apply (same_identity_trans snapshot).
  - by apply commits_after.
  - intros expected Hex. apply (verifier_spec sha256). apply Hv. unfold edit_options. cbn [w_verify]. by rewrite Hex.
Qed.

Definition seen_version (path : string) (expected : option string) (s : Stat) : Prop :=
  forall v, expected = Some v -> version_token sha256 path (fingerprint_from_stat s) = v.

(** What a write leaves behind: nothing on an error (an append may have written some of it), else
    exactly the contents. *)
Definition Written (mode : WriteMode) (contents : bytes) (ok : bool) (path : string) (expected : option string)
    (ev : Trace) : Prop :=
  if ok then
    match mode with
    | append => exists ev1 ev2, ev = ev1 ++ ev2 /\ Mutation.quiet ev1 /\ Forall append_call ev2 /\ temp_contents ev2 = contents
    | fail_if_exists => exists ev1 a ev2, ev = ev1 ++ (link_temp, a) :: ev2 /\ succeeded a = true /\
        Mutation.quiet ev1 /\ Mutation.quiet ev2 /\ temp_contents ev1 = contents
    | truncate => exists ev1 a ev2, ev = ev1 ++ (rename_temp, a) :: ev2 /\ succeeded a = true /\
        Mutation.quiet ev1 /\ Mutation.quiet ev2 /\ temp_contents ev1 = contents /\
        ((expected = None /\ (open_target, errno ENOENT) ∈ ev1) \/
         exists s, (stat_target, stat s) ∈ ev1 /\ seen_version path expected s)
    end
  else mode = append \/ Mutation.quiet ev.

Lemma written_after mode contents ok path expected ev0 ev :
  Forall reading ev0 -> Written mode contents ok path expected ev -> Written mode contents ok path expected (ev0 ++ ev).
Proof.
  intros [Hq Ht]%reading_quiet. destruct ok; cbn; [|intros [->|H]; [by left|right; by apply quiet_app]]. destruct mode.
  - intros (ev1 & a & ev2 & -> & Ha & H1 & H2 & Hc & Hs). exists (ev0 ++ ev1), a, ev2.
    rewrite temp_contents_app, Ht. split_and!; [by rewrite <- app_assoc|done|by apply quiet_app|done|done|].
    destruct Hs as [Hs|(s & Hs & Hv)]; [left|right; exists s]; rewrite elem_of_app; tauto.
  - intros (ev1 & ev2 & -> & H1 & H2 & Hc). exists (ev0 ++ ev1), ev2. split_and!; [by rewrite app_assoc|by apply quiet_app|done|done].
  - intros (ev1 & a & ev2 & -> & Ha & H1 & H2 & Hc). exists (ev0 ++ ev1), a, ev2.
    rewrite temp_contents_app, Ht. split_and!; [by rewrite <- app_assoc|done|by apply quiet_app|done|done].
Qed.

(** The options of a prepared write. *)
Definition prepared_options (o : WriteTextOptions) : Prop :=
  w_atomic o = bool_decide (w_mode o = truncate) /\ w_durability o = rename_only /\ w_verify o = None.

Lemma write_text_written m contents o path expected :
  prepared_options o -> (forall v, expected = Some v -> m_snapshot m <> None) ->
  adds (write_text os describe m contents (set_verify sha256 o path expected)) (fun r ev =>
    Written (w_mode o) contents (is_ok r) path expected ev /\
    (is_ok r = true -> w_mode o = fail_if_exists -> m_snapshot m = None)).
Proof.
  intros (Ha & Hd & Hv) Hex. set (o' := set_verify sha256 o path expected).
  assert (Hm : w_mode o' = w_mode o) by (unfold o', set_verify; destruct expected; [by destruct (w_atomic o)|done]).
  assert (Hdur : w_durability o' = rename_only) by (unfold o', set_verify; destruct expected; [by destruct (w_atomic o)|done]).
  unfold write_text. destruct (write_options_error m o') as [e|].
  { apply adds_ret. split; [right; constructor|done]. }
  rewrite Hm. destruct (w_mode o) eqn:Emode.
  - eapply adds_mono; [|apply write_truncate_spec]. intros r ev [(Hr & Hq & _)|Hc].
    { destruct r as [[]|]; [done|]. split; [by right|done]. }
    destruct Hc as (ev1 & a & ev2 & -> & Has & H1 & H2 & Ht & Hk & Hr). destruct Hr as [->|Hr]; [|by rewrite Hdur in Hr].
    split; [|done]. exists ev1, a, ev2. split_and!; [done..|].
    unfold checked in Hk. destruct (m_snapshot m) as [snapshot|]; [right|left; split; [|done]].
    2: { destruct expected as [v|]; [by destruct (Hex v)|done]. }
    destruct Hk as (s & Hin & _ & Hver). exists s. split; [done|]. intros v ->. apply (verifier_spec sha256).
    unfold o', set_verify in Hver. rewrite Ha in Hver. exact Hver.
  - eapply adds_mono; [|apply write_append_spec]. intros r ev (ev0 & ev1 & -> & H0 & H1 & Hc & _).
    split; [|done]. destruct r as [[]|]; [|by left]. exists ev0, ev1. split_and!; [done..|by apply Hc].
  - eapply adds_mono; [|apply write_exclusive_spec]. intros r ev [_ [[Hr Hq]|Hc]].
    { destruct r as [[]|]; [done|]. split; [by right|done]. }
    destruct Hc as (ev1 & a & ev2 & -> & Has & H1 & H2 & Ht & Hn & ->). split; [|done]. by exists ev1, a, ev2.
Qed.

Definition WriteEffect (q : FileWriteRequest) (path : string) (r : Result Output) (ev : Trace) : Prop :=
  Written (w_mode (wr_options q)) (lit (wr_content q)) (is_ok r) path (wr_expected_version q) ev /\
  (is_ok r = true -> forall v, wr_expected_version q = Some v -> w_mode (wr_options q) <> fail_if_exists /\
     exists s, (stat_read, stat s) ∈ ev /\ version_token sha256 path (fingerprint_from_stat s) = v).

(** The check of the expected version finds a target with that version. *)
Lemma checked_version m tool path expected :
  adds (bind (target_fingerprint os describe m) (fun pre => ret (check_version sha256 tool path expected pre))) (fun r ev =>
    Forall reading ev /\ (is_ok r = true -> m_snapshot m <> None /\
      exists s, (stat_read, stat s) ∈ ev /\ version_token sha256 path (fingerprint_from_stat s) = expected)).
Proof.
  eapply adds_bind with (P := fun r ev => Forall reading ev /\ forall fp, r = Ok fp -> m_snapshot m <> None /\
    exists s, (stat_read, stat s) ∈ ev /\ fp = fingerprint_from_stat s).
  - eapply adds_try; [apply open_existing_spec|intros e ev [He _]; by split|]. intros s0 ev [He Hs].
    destruct (Hs s0 eq_refl) as (_ & snapshot & Hm & _).
    apply (adds_bind _ _ (fun a ev => ev = [(stat_read, a)])); [by apply adds_sys|]. intros a ev' ->. apply adds_ret.
    rewrite app_nil_r. split; [apply Forall_app; split; [done|by repeat constructor]|]. intros fp.
    destruct a as [n|s|n]; [done| |done]. destruct (st_regular s); [|done]. intros [= <-]. split; [by rewrite Hm|].
    exists s. split; [|done]. rewrite elem_of_app. right. by apply elem_of_cons; left.
  - intros r ev [He Hf]. apply adds_ret. rewrite app_nil_r. split; [done|]. destruct r as [fp|e]; [|done]. cbn [check_version].
    case_decide as Hv; [|done]. intros _. destruct (Hf fp eq_refl) as (Hm & s & Hin & ->). split; [done|]. exists s.
    by split.
Qed.

Lemma file_write_effect q (rp : ResolvedToolPath A) :
  prepared_options (wr_options q) ->
  adds (file_write_handler os describe sha256 display_root q (Some rp)) (WriteEffect q (tp_absolute_path rp)).
Proof.
  intros Ho. cbn [file_write_handler]. set (path := tp_absolute_path rp).
  assert (Herr : forall (e : Error) ev, Forall reading ev -> WriteEffect q path (Err e) ev)
    by (intros e ev He; split; [right; by apply reading_quiet|done]).
  eapply adds_try; [apply begin_reading|intros e ev; apply Herr|]. intros m ev0 H0. cbn beta in H0.
  eapply adds_try with (P := fun r ev => Forall reading ev /\ (is_ok r = true ->
    forall v, wr_expected_version q = Some v -> m_snapshot m <> None /\
      exists s, (stat_read, stat s) ∈ ev /\ version_token sha256 path (fingerprint_from_stat s) = v)).
  { destruct (wr_expected_version q) as [v|]; [|by apply adds_ret].
    eapply adds_mono; [|apply checked_version]. intros r ev [He Hok]. split; [done|]. intros Hr v' [= <-]. by apply Hok. }
  { intros e ev [He _]. apply Herr, Forall_app. by split. }
  intros [] ev1 [H1 Hver].
  assert (Hq : Forall reading (ev0 ++ ev1)) by (rewrite Forall_app; by split).
  assert (Hseen : forall ev v, wr_expected_version q = Some v ->
      exists s, (stat_read, stat s) ∈ ev0 ++ ev1 ++ ev /\ version_token sha256 path (fingerprint_from_stat s) = v).
  { intros ev v Hv. destruct (Hver eq_refl v Hv) as [_ (s & Hin & Hs)]. exists s. split; [|done]. rewrite !elem_of_app. tauto. }
  eapply adds_try; [apply (write_text_written m _ (wr_options q) path (wr_expected_version q)); [done|]| |].
  - intros v Hv. by apply (Hver eq_refl v).
  - intros e ev2 (Hw & _). rewrite app_assoc. split; [by apply written_after|done].
  - intros [] ev2 (Hw & Hfail). apply adds_ret. rewrite app_nil_r. split; [rewrite app_assoc; by apply written_after|].
    intros _ v Hv. split; [|by apply Hseen]. intros Hf. by apply (Hver eq_refl v Hv), Hfail.
Qed.
End Claims.

(** ** Following the continuation *)
(** A line, whole or the last of its text. *)
Definition whole_line (l : bytes) : Prop := exists x, l = x ++ [newline] /\ Forall (fun c => is_newline c = false) x.
Definition last_line (l : bytes) : Prop := l <> [] /\ (whole_line l \/ Forall (fun c => is_newline c = false) l).
Inductive lines_ok : list bytes -> Prop :=
  | lines_nil : lines_ok []
  | lines_last l : last_line l -> lines_ok [l]
  | lines_cons l ls : whole_line l -> lines_ok ls -> lines_ok (l :: ls).

Lemma newline_code c : is_newline c = true -> c = newline.
Proof. unfold is_newline. intros H%Z.eqb_eq. apply code_inj. by rewrite H. Qed.

Lemma whole_line_last l : whole_line l -> last_line l.
Proof. intros (x & -> & Hx). split; [by destruct x|]. left. by exists x. Qed.

Lemma lines_of_ok t : lines_ok (lines_of t).
Proof.
  induction t as [|c t IH]; cbn [lines_of]; [constructor|]. destruct (is_newline c) eqn:E.
  { constructor; [|done]. exists []. apply newline_code in E as ->. by split. }
  inversion IH as [Hl|l Hl Hls|l ls Hl Hls Heq].
  - constructor. split; [done|right; by repeat constructor].
  - destruct Hl as [Hl [(x & -> & Hx)|Hx]]; constructor; split; try done; [left|right; by constructor].
    exists (c :: x). split; [done|by constructor].
  - destruct Hl as (x & -> & Hx). constructor; [|done]. exists (c :: x). split; [done|by constructor].
Qed.

Lemma lines_ok_drop k : forall ls, lines_ok ls -> lines_ok (drop k ls).
Proof. induction k as [|k IH]; intros ls H; [done|]. destruct H; cbn; [constructor|rewrite drop_nil; constructor|auto]. Qed.

Lemma lines_ok_take k : forall ls, lines_ok ls -> lines_ok (take k ls).
Proof.
  induction k as [|k IH]; intros ls H; [constructor|]. destruct H as [|l Hl|l ls Hl H]; cbn; [constructor| |].
  - rewrite take_nil. by constructor.
  - apply lines_cons; auto.
Qed.

Lemma lines_of_whole l t : whole_line l -> lines_of (l ++ t) = l :: lines_of t.
Proof.
  intros (x & -> & Hx). induction Hx as [|c x Hc Hx IH]; [done|]. cbn [app lines_of]. rewrite Hc. cbn [app] in IH. by rewrite IH.
Qed.

Lemma lines_of_plain l : l <> [] -> Forall (fun c => is_newline c = false) l -> lines_of l = [l].
Proof.
  intros Hn H. induction H as [|c l Hc H IH]; [done|]. cbn [lines_of]. rewrite Hc.
  destruct l as [|d l]; [done|]. by rewrite IH.
Qed.

Lemma lines_of_concat ls : lines_ok ls -> lines_of (concat ls) = ls.
Proof.
  induction 1 as [|l [Hn Hl]|l ls Hl H IH]; [done| |].
  - cbn [concat]. rewrite app_nil_r. destruct Hl as [Hl|Hl]; [|by apply lines_of_plain].
    rewrite <- (app_nil_r l) at 1. by rewrite lines_of_whole.
  - cbn [concat]. by rewrite lines_of_whole, IH.
Qed.

Lemma concat_lines_of t : concat (lines_of t) = t.
Proof.
  induction t as [|c t IH]; [done|]. cbn [lines_of]. destruct (is_newline c); [cbn; by rewrite IH|].
  destruct (lines_of t) as [|l ls]; cbn in *; by rewrite <- IH.
Qed.

Lemma count_lines t : count_line_span t = Z.of_nat (length (lines_of t)).
Proof.
  induction t as [|c t IH]; [done|]. destruct t as [|d t].
  { unfold count_line_span, count_newlines, ends_with_newline. cbn. by destruct (is_newline c). }
  assert (Hs : count_line_span (c :: d :: t) = (if is_newline c then 1 else 0) + count_line_span (d :: t)).
  { unfold count_line_span, count_newlines, ends_with_newline. cbn [List.filter last]. destruct (is_newline c); cbn [length]; lia. }
  rewrite Hs, IH. cbn [lines_of]. destruct (is_newline c); [cbn [length]; lia|].
  assert (lines_of (d :: t) <> []).
  { cbn [lines_of]. destruct (is_newline d); [done|]. by destruct (lines_of t). }
  cbn [lines_of] in *. destruct (if is_newline d then _ else _); [done|]. cbn [length]. lia.
Qed.

(** The caller's loop: windows of [count] lines, each from where the one before said to continue. *)
Section Pages.
Context (path : string) (pread : Z -> Z -> Result bytes) (fuel : nat) (count max_bytes : Z).
Fixpoint read_pages (n : nat) (start : Z) : option bytes :=
  match n with
  | O => None
  | S n =>
      match read_lines path pread fuel (mkLines start count) max_bytes with
      | Some (Ok r) =>
          match window_end r count with
          | incomplete => None
          | end_of_file => Some (text r)
          | continue_with offset => app (text r) <$> read_pages n offset
          end
      | _ => None
      end
  end.

Context (content : bytes) (Hserves : serves content pread).
Context (Hpread : forall offset n, 0 <= offset -> 0 < n -> exists chunk, pread offset n = Ok chunk).
Context (Hfuel : (length content < fuel)%nat) (Hcount : 0 < count) (Hmax : 0 < max_bytes /\ size content <= max_bytes) (Hbig : size content <= off_max).

Lemma concat_part k m : size (concat (take m (drop k (lines_of content)))) <= size content.
Proof.
  rewrite <- (concat_lines_of content) at 2. rewrite <- (take_drop k (lines_of content)) at 2.
  rewrite <- (take_drop m (drop k (lines_of content))) at 2. rewrite !concat_app, !size_app.
  pose proof (size_nonneg (concat (take k (lines_of content)))).
  pose proof (size_nonneg (concat (drop m (drop k (lines_of content))))). lia.
Qed.

(** A window that is not cut is the next [count] lines, and says where the rest begins. *)
Lemma read_window k :
  exists r, read_lines path pread fuel (mkLines (Z.of_nat k + 1) count) max_bytes = Some (Ok r) /\
    let page := take (Z.to_nat count) (drop k (lines_of content)) in
    text r = concat page /\
    window_end r count =
      if Z.of_nat (length page) <? count then end_of_file else continue_with (Z.of_nat k + 1 + count).
Proof.
  destruct Hmax as [Hm Hmax'].
  set (l := mkLines (Z.of_nat k + 1) count). set (page := take (Z.to_nat count) (drop k (lines_of content))).
  destruct (read_lines_result path content pread Hserves fuel l max_bytes Hm Hfuel) as (r & Hr & Hres).
  assert (Hreq : requested l content = concat page).
  { unfold requested, l, page. cbn [line_count start_line]. by replace (Z.to_nat (Z.of_nat k + 1 - 1)) with k by lia. }
  destruct r as [r|e].
  2: { exfalso. destruct Hres as (offset & n & [Ho Hle] & Hn & He). unfold read_chunk in He.
    destruct (Z.ltb_spec off_max offset); [lia|]. destruct (Hpread offset n Ho Hn) as (chunk & Hc). by rewrite Hc in He. }
  exists r. split; [exact Hr|]. cbv zeta in Hres. rewrite Hreq in Hres.
  pose proof (concat_part k (Z.to_nat count)) as Hpart. fold page in Hpart.
  assert (Hcut : (max_bytes <? size (concat page)) = false) by (apply Z.ltb_ge; lia).
  rewrite Hcut in Hres. cbn [align_if] in Hres. rewrite take_ge in Hres by (unfold size in *; lia).
  destruct Hres as (-> & Ht & Hs & He). split; [done|]. unfold window_end. rewrite Ht, Hs, He, count_lines.
  rewrite lines_of_concat by apply lines_ok_take, lines_ok_drop, lines_of_ok. unfold l. cbn [start_line].
  assert (Z.of_nat (length page) <= count) by (unfold page; rewrite length_take; lia).
  destruct (Z.ltb_spec (Z.of_nat (length page)) count) as [Hlt|Hge].
  - destruct (Z.ltb_spec (Z.of_nat k + 1 + Z.of_nat (length page) - 1) (Z.of_nat k + 1)) as [|H1]; [done|].
    destruct (Z.ltb_spec (Z.of_nat k + 1 + Z.of_nat (length page) - 1 - (Z.of_nat k + 1) + 1) count); [done|lia].
  - destruct (Z.ltb_spec (Z.of_nat k + 1 + Z.of_nat (length page) - 1) (Z.of_nat k + 1)) as [|H1]; [lia|].
    destruct (Z.ltb_spec (Z.of_nat k + 1 + Z.of_nat (length page) - 1 - (Z.of_nat k + 1) + 1) count); [lia|]. f_equal. lia.
Qed.

Lemma read_pages_spec n : forall k,
  (length (lines_of content) - k < n)%nat -> read_pages n (Z.of_nat k + 1) = Some (concat (drop k (lines_of content))).
Proof.
  induction n as [|n IH]; intros k Hn; [lia|]. cbn [read_pages]. destruct (read_window k) as (r & -> & Ht & ->).
  rewrite Ht. rewrite length_take, length_drop. destruct (Z.ltb_spec (Z.of_nat (Z.to_nat count `min` (length (lines_of content) - k))) count).
  - f_equal. f_equal. apply take_ge. rewrite length_drop. lia.
  - replace (Z.of_nat k + 1 + count) with (Z.of_nat (k + Z.to_nat count) + 1) by lia. rewrite IH by lia. cbn. f_equal.
    rewrite <- concat_app, <- drop_drop. by rewrite take_drop.
Qed.
End Pages.

(** ** Theorems *)
(** two version tokens are equal only for the same size and the same modification time, and for paths with the same
    digest: a change of either that the file system shows is never missed. *)
Theorem version_token_names sha256 (p q : string) (fp fq : FileFingerprint) :
  (forall x, length (sha256 x) = 32%nat) ->
  0 <= size_bytes fp -> 0 <= mtime_ns fp -> 0 <= size_bytes fq -> 0 <= mtime_ns fq ->
  version_token sha256 p fp = version_token sha256 q fq -> sha256 (lit p) = sha256 (lit q) /\ fp = fq.
Proof.
  intros Hsha H1 H2 H3 H4 H. apply (f_equal lit) in H. unfold version_token, input_hash_hex, input_hash in H.
  rewrite !lit_app in H. cbn [lit String.list_ascii_of_string] in H. injection H as H.
  rewrite !lit_str in H. apply to_hex_inj in H as [Hh H]; [|by rewrite !Hsha]. split; [done|].
  cbn in H. injection H as H. apply digits_colon in H as [Hs H]; [|by apply pretty_nonneg..].
  apply lit_inj, (inj pretty) in Hs. apply lit_inj, (inj pretty) in H. destruct fp, fq. cbn in *. by subst.
Qed.

(** an edit replaces exactly the matches a scan from left to right finds, none overlapping: one match, or all of them
    when asked; it reports their number, and the size it computes beforehand is the size of the result. It fails
    only when the text was cut, nothing matches, the match is ambiguous, or the result would be too large. *)
Theorem edit_contents_spec (path : string) (q : FileEditRequest) (read : ReadTextResult) :
  e_old_string q <> ""%string -> size (text read) <= size_max ->
  exists n out, Replaced (lit (e_old_string q)) (lit (e_new_string q)) n (text read) out /\
    match edit_contents path q read with
    | Ok (replaced, applied) =>
        truncated read = false /\ replaced = out /\ applied = Z.of_nat n /\
        (n = 1%nat \/ (1 < n)%nat /\ e_replace_all q = true) /\ size out <= e_max_bytes q /\ size out <= size_max
    | Err e =>
        truncated read = true \/ (n = 0%nat /\ err_kind e = ek_not_found) \/
        ((1 < n)%nat /\ e_replace_all q = false /\ err_kind e = ek_conflict) \/
        (e_max_bytes q < size out \/ size_max < size out) /\ err_kind e = ek_invalid_argument
    end.
Proof.
  intros Ho Hsz. set (old := lit (e_old_string q)). set (new := lit (e_new_string q)).
  assert (Hold : old <> []) by (intros H; apply Ho, lit_inj; exact H).
  pose proof (find_occurrences_replaced old new (text read) Hold) as Hr.
  set (ps := find_occurrences (text read) old) in *. set (out := apply_replacements (text read) old new ps) in *.
  exists (length ps), out. split; [exact Hr|]. destruct (replaced_size _ _ _ _ _ Hr) as [Hs Hle].
  unfold edit_contents. fold old new ps out. destruct (truncated read) eqn:Et; [by left|].
  destruct (Z.eqb_spec (Z.of_nat (length ps)) 0) as [H0|H0]; [right; left; split; [lia|done]|].
  destruct (_ && _) eqn:Eall.
  { apply andb_true_iff in Eall as [H1%Z.ltb_lt H2%negb_true_iff]. right. right. left. split_and!; [lia|done|done]. }
  pose proof (replacement_size_spec (size (text read)) (size old) (size new) (Z.of_nat (length ps))
    (size_nonneg _) (size_nonneg _) ltac:(lia) Hle Hsz) as Hz.
  destruct (replacement_size _ _ _ _) as [z|e] eqn:Ez.
  - destruct Hz as [-> Hz]. rewrite <- Hs in *. destruct (Z.ltb_spec (e_max_bytes q) (size out)).
    + right. right. right. split; [by left|done].
    + split_and!; try done; [|lia]. apply andb_false_iff in Eall as [H1%Z.ltb_ge|H2%negb_false_iff]; [left; lia|].
      destruct (decide (length ps = 1%nat)); [by left|right; split; [lia|done]].
  - rewrite <- Hs in Hz. right. right. right. split; [by right|].
    clear Eall. unfold replacement_size in Ez. cbv zeta in Ez. by repeat case_match; simplify_eq.
Qed.

(** C7: an edit that fails has not touched any file; an edit that succeeds replaced one file, by one rename, with the edit of
    the text that was read, and the file replaced is the one that was read (same device, inode, size and times)
    and has the version the caller expected, whatever the system and other processes did meanwhile. *)
Theorem file_edit_atomic os describe sha256 {A} (display_root : A -> string) (rd : Reading) (fuel : nat)
    (q : FileEditRequest) (rp : ResolvedToolPath A) (t t1 : Trace) (r : Result Output) :
  file_edit_handler os describe sha256 display_root rd fuel q (Some rp) t = (r, t1) ->
  exists ev, t1 = t ++ ev /\ EditEffect sha256 rd fuel q (tp_absolute_path rp) r ev.
Proof.
  intros Hr. destruct (file_edit_effect os describe sha256 display_root rd fuel q rp t) as (r' & ev & Hm & HP).
  rewrite Hr in Hm. injection Hm as <- ->. eauto.
Qed.

(** a prepared write is exact and guarded: when it succeeds the target's contents are exactly the input's, put
    there by one rename or one link, or appended; with an expected version, a file with that version was found,
    and found again right before the rename. A failed write that does not append left every file alone. *)
Theorem file_write_guarded os describe sha256 parse {A} (display_root : A -> string) (input : string) (p : PathRequest)
    (q : FileWriteRequest) (rp : ResolvedToolPath A) (t t1 : Trace) (r : Result Output) :
  prepare_file_write parse input = Ok (p, q) ->
  file_write_handler os describe sha256 display_root q (Some rp) t = (r, t1) ->
  size (lit (wr_content q)) <= file_limit /\
  exists ev, t1 = t ++ ev /\ WriteEffect sha256 q (tp_absolute_path rp) r ev.
Proof.
  intros Hp Hr. unfold prepare_file_write in Hp. ok_inv.
  match goal with H : parse_file_max_bytes _ _ = Ok ?v |- _ => assert (Hlim : v <= file_limit) end.
  { unfold parse_file_max_bytes in *. destruct (jfind _ "max_bytes"); ok_inv; bool_prop; subst; [done|reflexivity]. }
  bool_prop. subst p q. split; [cbn [wr_content]; lia|].
  assert (Ho : prepared_options (mkWriteOptions x3 x4 (bool_decide (x3 = truncate)) rename_only None)) by done.
  match goal with H : file_write_handler _ _ _ _ ?q _ _ = _ |- _ =>
    destruct (file_write_effect os describe sha256 display_root q rp Ho t) as (r' & ev & Hm & HP) end.
  rewrite Hr in Hm. injection Hm as <- ->. eauto.
Qed.

(** a file that does not change is read completely by following the continuation offsets, whatever the window's number of
    lines: the windows, one after another, are the file, and the last one says that the file ends. *)
Theorem file_read_pages (path : string) (content : bytes) (pread : Z -> Z -> Result bytes) (fuel : nat) (count max_bytes : Z) :
  serves content pread -> (forall offset n, 0 <= offset -> 0 < n -> exists chunk, pread offset n = Ok chunk) ->
  (length content < fuel)%nat -> 0 < count -> 0 < max_bytes -> size content <= max_bytes -> size content <= off_max ->
  read_pages path pread fuel count max_bytes (S (length (lines_of content))) 1 = Some content.
Proof.
  intros Hs Hp Hf Hc Hm Hm' Hb.
  pose proof (read_pages_spec path pread fuel count max_bytes content Hs Hp Hf Hc (conj Hm Hm') Hb
    (S (length (lines_of content))) 0 ltac:(lia)) as H.
  change (Z.of_nat 0 + 1) with 1 in H. by rewrite H, drop_0, concat_lines_of.
Qed.

(** the options of a prepared read are within their documented bounds and always valid for the reader. *)
Theorem prepare_file_read_bounds (parse : JsonReader) (input : string) (p : PathRequest) (q : FileReadRequest) :
  prepare_file_read parse input = Ok (p, q) ->
  req_path p = rq_path q /\ rq_path q <> ""%string /\ req_intent p = pi_read /\
  0 < max_bytes (rq_options q) <= file_limit /\
  exists l, range (rq_options q) = Some (mkRange (Some l) None) /\ 1 <= start_line l /\ 1 <= line_count l <= 2000 /\
    validate_range (mkRange (Some l) None) = Ok tt.
Proof.
  assert (Hpos : forall raw tool field v, parse_positive_unsigned raw tool field = Ok v -> 0 < v).
  { intros raw tool field v. unfold parse_positive_unsigned. destruct raw; try done.
    destruct (Z.ltb_spec z 0), (Z.eqb_spec z 0); try done. intros [= <-]. lia. }
  intros Hp. unfold prepare_file_read in Hp. ok_inv. subst p q. cbn.
  unfold require_path_field in *. ok_inv. subst. apply orb_false_iff in E as [E _]. bool_prop.
  unfold parse_options in *. ok_inv. subst. cbn.
  match goal with H : parse_file_max_bytes _ _ = Ok ?v |- _ => assert (Hlim : 0 < v <= file_limit) end.
  { unfold parse_file_max_bytes in *. destruct (jfind _ "max_bytes"); ok_inv; bool_prop; subst; [|by split].
    split; [by eapply Hpos|lia]. }
  split_and!; try done; try lia. eexists. split; [done|]. cbn.
  match goal with H : match jfind _ "offset" with _ => _ end = Ok ?v |- _ => assert (Hs : 0 < v) end.
  { destruct (jfind _ "offset"); [by eapply Hpos|ok_inv; lia]. }
  match goal with H : match jfind _ "limit" with _ => _ end = Ok ?v |- _ => assert (Hc : 0 < v <= 2000) end.
  { destruct (jfind _ "limit"); ok_inv; bool_prop; subst; [|lia]. split; [by eapply Hpos|lia]. }
  split_and!; try lia. unfold validate_range. cbn. by destruct (Z.eqb_spec x4 0), (Z.eqb_spec x5 0); try lia.
Qed.

(** ** Runs *)
Module Demo.
Definition sha (x : bytes) : bytes := replicate 32 (byte_of (Z.of_nat (length x))).
Definition describe (n : Z) : string := "error".
Definition before : Stat := mkStat 1 2 7 (4, 5) (6, 7) true false.
Definition obliging (t : Trace) (c : Call) : Answer :=
  match c with
  | write_temp d | write_append d => num (size d)
  | stat_target | stat_read | stat_append => stat before
  | _ => num 3
  end.
Definition resolved : ResolvedToolPath string :=
  mkToolPath "/work"%string "a/notes" "/work/a/notes" "a/notes" "a/notes" "" "" false false false false None.
Definition content : bytes := lit "ab ab c".
Definition fp : FileFingerprint := fingerprint_from_stat before.
Definition pread (offset n : Z) : Result bytes := Ok (take (Z.to_nat n) (drop (Z.to_nat offset) content)).
Definition rd : Reading := mkReading pread pread (Ok fp) (Ok fp) (Ok fp).
Definition version : string := version_token sha "/work/a/notes" fp.
Definition edit : FileEditRequest := mkEditRequest "ab" "xyz" true 100 (Some version).
Definition root_of (a : string) : string := a.
Definition edit_run := file_edit_handler obliging describe sha root_of rd 20 edit (Some resolved) [].

Example edit_text : edit_run.1 = Ok (edit_output "/work/a/notes" content (lit "xyz xyz c") 2).
Proof. vm_compute. reflexivity. Qed.

Lemma version_token_names_witness :
  sha (lit "/work/a/notes") = sha (lit "/work/a/notes") /\ fp = fp.
Proof. apply (version_token_names sha "/work/a/notes" "/work/a/notes" fp fp); try reflexivity; vm_compute; discriminate. Defined.

Definition read_result : ReadTextResult := mkResult content fp 1 1 7 false.
Lemma edit_contents_spec_witness :
  exists n out, Replaced (lit "ab") (lit "xyz") n content out /\
    match edit_contents "/work/a/notes" edit read_result with
    | Ok (replaced, applied) =>
        false = false /\ replaced = out /\ applied = Z.of_nat n /\
        (n = 1%nat \/ (1 < n)%nat /\ true = true) /\ size out <= 100 /\ size out <= size_max
    | Err e =>
        false = true \/ (n = 0%nat /\ err_kind e = ek_not_found) \/
        ((1 < n)%nat /\ true = false /\ err_kind e = ek_conflict) \/
        (100 < size out \/ size_max < size out) /\ err_kind e = ek_invalid_argument
    end.
Proof. apply (edit_contents_spec "/work/a/notes" edit read_result); [discriminate|vm_compute; discriminate]. Defined.

Lemma file_edit_atomic_witness :
  exists ev, edit_run.2 = [] ++ ev /\ EditEffect sha rd 20 edit "/work/a/notes" edit_run.1 ev.
Proof. apply (file_edit_atomic obliging describe sha root_of rd 20 edit resolved [] edit_run.2 edit_run.1). vm_compute. reflexivity. Defined.

Definition parse (input : string) : ParseOutcome :=
  Parsed (JObject [("content", JString "new"); ("expected_version", JString version); ("path", JString "a/notes")]%string).
Definition write : FileWriteRequest := mkWriteRequest "new" (mkWriteOptions truncate false true rename_only None) (Some version).
Definition write_run := file_write_handler obliging describe sha root_of write (Some resolved) [].
Lemma file_write_guarded_witness :
  size (lit "new") <= file_limit /\
  exists ev, write_run.2 = [] ++ ev /\ WriteEffect sha write "/work/a/notes" write_run.1 ev.
Proof.
  apply (file_write_guarded obliging describe sha parse root_of "{}" (mkPathRequest "a/notes" pi_write (mkWriteIntent false) false)
    write resolved [] write_run.2 write_run.1); vm_compute; reflexivity.
Defined.

Definition three : bytes := lit "one" ++ [newline] ++ lit "two" ++ [newline] ++ lit "three".
Definition pread_three (offset n : Z) : Result bytes := Ok (take (Z.to_nat n) (drop (Z.to_nat offset) three)).
Lemma file_read_pages_witness : read_pages "/t" pread_three 20 2 100 (S (length (lines_of three))) 1 = Some three.
Proof.
  apply (file_read_pages "/t" three pread_three 20 2 100); try (vm_compute; congruence).
  - intros offset n chunk Ho Hn [= <-]. split_and!.
    + unfold size. rewrite length_take. lia.
    + exists (drop (Z.to_nat n) (drop (Z.to_nat offset) three)). by rewrite take_drop.
    + intros H. destruct (Z.to_nat n) eqn:E; [lia|]. by destruct (drop (Z.to_nat offset) three).
  - intros offset n _ _. by eexists.
  - vm_compute. lia.
Defined.

Definition parse_read (input : string) : ParseOutcome := Parsed (JObject [("limit", JInt 5); ("path", JString "a/notes")]%string).
Definition read_request : FileReadRequest :=
  mkReadRequest "a/notes" (mkReadOptions file_limit (Some (mkRange (Some (mkLines 1 5)) None))).
Lemma prepare_file_read_bounds_witness :
  "a/notes"%string = rq_path read_request /\ rq_path read_request <> ""%string /\ pi_read = pi_read /\
  0 < max_bytes (rq_options read_request) <= file_limit /\
  exists l, range (rq_options read_request) = Some (mkRange (Some l) None) /\ 1 <= start_line l /\ 1 <= line_count l <= 2000 /\
    validate_range (mkRange (Some l) None) = Ok tt.
Proof.
  apply (prepare_file_read_bounds parse_read "{}" (mkPathRequest "a/notes" pi_read (mkWriteIntent false) false) read_request).
  vm_compute. reflexivity.
Defined.
End Demo.
