(* ===== verification/Provider.v ===== *)
(** * oran-provider: requests, routes and the execution of attempts

    Models [include/oran/provider/types.hpp], [system.hpp], [cache.hpp] and
    [src/oran-provider/execution.cpp].  A backend is host code: [Backend] says how
    an attempt ends, given what was attempted before.  [run] returns the outcome and
    the events it caused, in order: the attempts it sent and the pauses it took.
    Token prices are binary64 numbers, computed with the standard's [SpecFloat]. *)
From Stdlib Require Import Floats.SpecFloat.
From S2P Require Import Prelude Core.
Import EnumNames.

(** ** Values *)
Inductive ProtocolKind :=
  | anthropic_messages | openai_chat_completions | openai_responses
  | gemini_generate_content | custom_openai_compatible.
#[export] Instance ProtocolKind_eq_dec : EqDecision ProtocolKind.
Proof. solve_decision. Defined.
#[export] Instance Enum_ProtocolKind : Enum ProtocolKind := {
  enumerators := [(anthropic_messages, "anthropic_messages");
    (openai_chat_completions, "openai_chat_completions"); (openai_responses, "openai_responses");
    (gemini_generate_content, "gemini_generate_content");
    (custom_openai_compatible, "custom_openai_compatible")]%string }.
#[export] Instance EnumLaws_ProtocolKind : EnumLaws ProtocolKind.
Proof. solve_enum_laws. Qed.

(** Arithmetic on [double]. *)
Definition dadd : double -> double -> double := SFadd 53 1024.
Definition dmul : double -> double -> double := SFmul 53 1024.
Definition ddiv : double -> double -> double := SFdiv 53 1024.
(** [static_cast<double>] of an unsigned 64-bit count. *)
Definition double_of (n : Z) : double := binary_normalize 53 1024 n 0 false.

Record Usage := mkUsage {
  us_input_tokens : Z; us_output_tokens : Z; us_cache_creation_tokens : Z;
  us_cache_read_tokens : Z; us_cost_estimate : option double }.
Definition no_usage : Usage := mkUsage 0 0 0 0 None.

Record RetryPolicy := mkRetry { max_attempts : nat; initial_backoff : Z }.

Record PromptCacheHints := mkCacheHints { prefix_hash : Z; prefix_bytes : Z }.
Record PromptCacheOptions := mkCacheOptions { cache_enabled : bool; min_prefix_bytes : Z }.

Record Request := mkRequest {
  rq_messages : list Message; rq_system_prompt : option string; rq_tools : list ToolDef;
  rq_tool_choice : option string; rq_max_tokens : option Z; rq_thinking_budget : option Z;
  rq_stream : bool; rq_cache : option PromptCacheHints; rq_retry : RetryPolicy }.

Record Response := mkResponse {
  rs_blocks : list Content; rs_stop_reason : StopReason; rs_usage : Usage;
  rs_model_used : option string }.

Record ProviderPricing := mkPricing {
  input_per_million_usd : option double; output_per_million_usd : option double;
  cache_creation_per_million_usd : option double; cache_read_per_million_usd : option double }.
Definition pricing_empty (p : ProviderPricing) : bool :=
  match p with mkPricing None None None None => true | _ => false end.

Record ModelTarget := mkTarget {
  mt_profile : string; mt_model : string; mt_protocol : ProtocolKind;
  mt_thinking_budget : option Z; mt_cache : option PromptCacheOptions; mt_pricing : ProviderPricing }.

Record Route := mkRoute { primary : ModelTarget; fallbacks : list ModelTarget }.

(** [execution::Attribution] and [execution::Outcome]. *)
Record Attribution := mkAttribution {
  at_profile : string; at_model : string; at_protocol : ProtocolKind; at_fallback : bool }.
#[export] Instance Attribution_eq_dec : EqDecision Attribution.
Proof. solve_decision. Defined.
Record Outcome := mkOutcome { oc_target : Attribution; oc_response : Result Response }.

(** ** Helpers *)
Definition with_target_context (error : Error) (target : Attribution) (attempt max : nat) : Error :=
  Errors.with_ctx (Errors.with_ctx (Errors.with_ctx (Errors.with_ctx (Errors.with_ctx
    (Errors.with_ctx error "provider_profile" (at_profile target))
    "provider_model" (at_model target))
    "protocol" (enum_name (at_protocol target)))
    "route_role" (if at_fallback target then "fallback" else "primary"))
    "attempt" (pretty attempt)) "max_attempts" (pretty max).

Definition apply_profile_cost_if_missing (usage : Usage) (pricing : ProviderPricing) : Usage :=
  match us_cost_estimate usage with
  | Some _ => usage
  | None =>
      if pricing_empty pricing then usage
      else
        let input := default (double_of 0) (input_per_million_usd pricing) in
        let output := default input (output_per_million_usd pricing) in
        let creation := default input (cache_creation_per_million_usd pricing) in
        let read := default input (cache_read_per_million_usd pricing) in
        let sum :=
          dadd (dadd (dadd (dmul (double_of (us_input_tokens usage)) input)
                           (dmul (double_of (us_output_tokens usage)) output))
                     (dmul (double_of (us_cache_creation_tokens usage)) creation))
               (dmul (double_of (us_cache_read_tokens usage)) read) in
        mkUsage (us_input_tokens usage) (us_output_tokens usage) (us_cache_creation_tokens usage)
          (us_cache_read_tokens usage) (Some (ddiv sum (double_of 1000000)))
  end.

Definition set_thinking (r : Request) (t : option Z) : Request :=
  mkRequest (rq_messages r) (rq_system_prompt r) (rq_tools r) (rq_tool_choice r) (rq_max_tokens r)
    t (rq_stream r) (rq_cache r) (rq_retry r).

Definition apply_fallback_thinking_policy (r : Request) (target : ModelTarget) : Request :=
  match mt_thinking_budget target with
  | Some b => set_thinking r (Some b)
  | None => if bool_decide (mt_protocol target <> anthropic_messages) then set_thinking r None else r
  end.

(** ** The backend and the events of a run *)
(** How [backend.send] ends: a result with whether the sink saw output, or an
    exception ([operation_aborted] apart). *)
Inductive SendOutcome :=
  | answered (r : Result Response) (emitted : bool)
  | threw_aborted
  | threw_other.

Inductive ExecEvent :=
  | sent (target : ModelTarget) (fallback : bool) (attempt : nat) (request : Request)
  | slept (delay : Z).

Record Backend := mkBackend {
  be_send : list ExecEvent -> Request -> ModelTarget -> SendOutcome;
  (** the timer of [async::sleep_for] *)
  be_sleep : list ExecEvent -> Z -> Result unit }.

(** How the attempts on one target end: with the run's result, or exhausted with the
    last error. *)
Inductive TargetEnd := finished (o : Outcome) | exhausted (o : Outcome).

Section Execution.
Context (backend : Backend) (request : Request) (has_sink : bool).

Let max := max_attempts (rq_retry request).

Definition unexpected_failure (attr : Attribution) (attempt : nat) : Outcome :=
  mkOutcome attr (Err (with_target_context
    (Errors.internal "provider execution failed unexpectedly") attr attempt max)).

(** The response's own model name replaces the requested one. *)
Definition served (attr : Attribution) (r : Response) : Attribution :=
  match rs_model_used r with
  | Some m => if bool_decide (m = ""%string) then attr
              else mkAttribution (at_profile attr) m (at_protocol attr) (at_fallback attr)
  | None => attr
  end.

Definition with_cost (r : Response) (pricing : ProviderPricing) : Response :=
  mkResponse (rs_blocks r) (rs_stop_reason r)
    (apply_profile_cost_if_missing (rs_usage r) pricing) (rs_model_used r).

(** The error of a failed attempt, and whether it ends the run. *)
Definition attempt_error (e : Error) (emitted : bool) (attr : Attribution) (attempt : nat) : Error :=
  let error := with_target_context e attr attempt max in
  if emitted && Errors.retryable error
  then Errors.with_ctx (Errors.with_ctx error "retry_skipped" "stream_already_emitted")
         "fallback_skipped" "stream_already_emitted"
  else error.
Definition terminal (e : Error) (emitted : bool) : bool :=
  bool_decide (err_kind e = ek_cancelled) || negb (Errors.retryable e) || emitted.

Definition delay_before_retry (e : Error) : Z :=
  Z.max (default (initial_backoff (rq_retry request)) (err_retry_after e))
        (initial_backoff (rq_retry request)).

(** The inner loop, with the attempts left on the target. *)
Fixpoint attempts (remaining attempt : nat) (target : ModelTarget) (fallback : bool)
    (attr : Attribution) (done : list ExecEvent) : TargetEnd * list ExecEvent :=
  match remaining with
  | 0 => (exhausted (mkOutcome attr (Err (Errors.internal ""))), done)
  | S remaining =>
      let attempt_request :=
        if fallback then apply_fallback_thinking_policy request target else request in
      let done := done ++ [sent target fallback attempt attempt_request] in
      match be_send backend done attempt_request target with
      | threw_aborted =>
          (finished (mkOutcome attr
             (Err (with_target_context Errors.cancelled attr attempt max))), done)
      | threw_other => (finished (unexpected_failure attr attempt), done)
      | answered (Ok r) _ =>
          let r := with_cost r (mt_pricing target) in
          (finished (mkOutcome (served attr r) (Ok r)), done)
      | answered (Err e) seen =>
          let emitted := has_sink && seen in
          let error := attempt_error e emitted attr attempt in
          let outcome := mkOutcome attr (Err error) in
          if terminal e emitted then (finished outcome, done)
          else
            match remaining with
            | 0 => (exhausted outcome, done)
            | S _ =>
                let delay := delay_before_retry error in
                if (0 <? delay)%Z then
                  let done := done ++ [slept delay] in
                  match be_sleep backend done delay with
                  | Err e' =>
                      (finished (mkOutcome attr (Err (with_target_context e' attr attempt max))), done)
                  | Ok _ => attempts remaining (S attempt) target fallback attr done
                  end
                else attempts remaining (S attempt) target fallback attr done
            end
      end
  end.

Definition attribution_of (target : ModelTarget) (fallback : bool) : Attribution :=
  mkAttribution (mt_profile target) (mt_model target) (mt_protocol target) fallback.

(** The loop over the targets. *)
Fixpoint targets (l : list (ModelTarget * bool)) (last : Outcome) (done : list ExecEvent)
    : Outcome * list ExecEvent :=
  match l with
  | [] => (last, done)
  | (target, fallback) :: l =>
      match attempts max 1 target fallback (attribution_of target fallback) done with
      | (finished o, done) => (o, done)
      | (exhausted o, done) => targets l o done
      end
  end.

Definition route_targets (route : Route) : list (ModelTarget * bool) :=
  (primary route, false) :: map (fun t => (t, true)) (fallbacks route).

(** [execution::run]. *)
Definition run (route : Route) : Outcome * list ExecEvent :=
  let initial := attribution_of (primary route) false in
  if max =? 0 then
    (mkOutcome initial (Err (Errors.with_ctx (Errors.invalid_argument
       "provider retry policy requires at least one attempt") "field" "retry.max_attempts")), [])
  else targets (route_targets route)
         (mkOutcome initial (Ok (mkResponse [] end_turn no_usage None))) [].

(** ** The schedule *)
(** Every attempt a run may make, in order. *)
Definition schedule (l : list (ModelTarget * bool)) : list (ModelTarget * bool * nat) :=
  flat_map (fun t => map (fun n => (t, n)) (seq 1 max)) l.

Definition sends (l : list ExecEvent) : list (ModelTarget * bool * nat) :=
  flat_map (fun e => match e with sent t f n _ => [(t, f, n)] | slept _ => [] end) l.

(** How the backend answered the attempt that ended the events [before]. *)
Definition answer_at (before : list ExecEvent) (e : ExecEvent) : option SendOutcome :=
  match e with
  | sent t _ _ r => Some (be_send backend (before ++ [e]) r t)
  | slept _ => None
  end.

(** An answer after which a run goes on: a retryable error with nothing shown. *)
Definition transient (o : SendOutcome) : Prop :=
  exists e seen, o = answered (Err e) seen /\ Errors.retryable e = true /\ has_sink && seen = false.
End Execution.

Section Theory.
Context (backend : Backend) (request : Request) (has_sink : bool).

Lemma terminal_false e emitted :
  terminal e emitted = false -> Errors.retryable e = true /\ emitted = false.
Proof.
  unfold terminal. intros H. apply orb_false_iff in H as [H ->].
  apply orb_false_iff in H as [_ H]. by apply negb_false_iff in H.
Qed.

(** Every attempt of [t] (of [t] but the last one, when [all] is false) was answered
    with a transient error; [before] are the events that precede [t]. *)
Fixpoint all_transient (all : bool) (before t : list ExecEvent) : Prop :=
  match t with
  | [] => True
  | e :: t' =>
      (forall o, answer_at backend before e = Some o -> all = true \/ sends t' <> [] ->
         transient has_sink o) /\
      all_transient all (before ++ [e]) t'
  end.

Lemma all_transient_app all before t1 t2 :
  all_transient true before t1 -> all_transient all (before ++ t1) t2 ->
  all_transient all before (t1 ++ t2).
Proof.
  revert before. induction t1 as [|e t1 IH]; intros before; simpl; [by rewrite app_nil_r|].
  intros [He Ht1] Ht2. split; [intros o Ho _; apply He; auto|].
  apply IH; [done|]. by rewrite <- app_assoc.
Qed.

Lemma all_transient_weaken before t : all_transient true before t -> all_transient false before t.
Proof.
  revert before. induction t as [|e t IH]; intros before; simpl; [done|].
  intros [He Ht]. split; [intros o Ho _; apply He; auto|by apply IH].
Qed.

Lemma sends_app a b : sends (a ++ b) = sends a ++ sends b.
Proof. apply flat_map_app. Qed.

Definition is_exhausted (e : TargetEnd) : bool :=
  match e with exhausted _ => true | finished _ => false end.

Lemma attempts_spec target fallback attr remaining : forall attempt before e after,
  0 < remaining ->
  attempts backend request has_sink remaining attempt target fallback attr before = (e, after) ->
  exists t k, after = before ++ t /\ 0 < k <= remaining /\
    sends t = map (fun n => (target, fallback, n)) (seq attempt k) /\
    (is_exhausted e = true -> k = remaining) /\
    all_transient (is_exhausted e) before t.
Proof.
  induction remaining as [|remaining IH]; intros attempt before e after Hpos; [lia|].
  cbn [attempts]. set (req := if fallback then _ else request).
  set (ev := sent target fallback attempt req).
  assert (Hone : forall o, answer_at backend before ev = Some o ->
    forall e0, (is_exhausted e0 = true -> remaining = 0 /\ transient has_sink o) ->
    exists t k, before ++ [ev] = before ++ t /\ 0 < k <= S remaining /\
      sends t = map (fun n => (target, fallback, n)) (seq attempt k) /\
      (is_exhausted e0 = true -> k = S remaining) /\ all_transient (is_exhausted e0) before t).
  { intros o Ho e0 He0. exists [ev], 1. split_and!; [done|lia|lia|done| |].
    - intros Hx. destruct (He0 Hx) as [-> _]. done.
    - cbn [all_transient]. split; [|done]. intros o' Ho' [Hx|Hx]; [|done]. rewrite Ho in Ho'.
      injection Ho' as <-. by apply He0. }
  assert (Hans : answer_at backend before ev = Some (be_send backend (before ++ [ev]) req target)) by done.
  destruct (be_send backend (before ++ [ev]) req target) as [[r|err] seen| |] eqn:Eans.
  - intros [= <- <-]. by eapply Hone.
  - destruct (terminal err (has_sink && seen)) eqn:Et; [intros [= <- <-]; by eapply Hone|].
    apply terminal_false in Et as [Hret Hem].
    assert (Htr : transient has_sink (answered (Err err) seen)) by (by exists err, seen).
    destruct remaining as [|remaining]; [intros [= <- <-]; by eapply Hone|].
    assert (Hmore : forall pause, sends pause = [] ->
      (forall d, In d pause -> answer_at backend [] d = None) ->
      attempts backend request has_sink (S remaining) (S attempt) target fallback attr
        ((before ++ [ev]) ++ pause) = (e, after) ->
      exists t k, after = before ++ t /\ 0 < k <= S (S remaining) /\
        sends t = map (fun n => (target, fallback, n)) (seq attempt k) /\
        (is_exhausted e = true -> k = S (S remaining)) /\ all_transient (is_exhausted e) before t).
    { intros pause Hp Hd Hrun. apply IH in Hrun as (t & k & -> & Hk & Hs & Hx & Hall); [|lia].
      exists (([ev] ++ pause) ++ t), (S k). split_and!; [by rewrite !app_assoc|lia|lia| | |].
      - rewrite !sends_app, Hp, Hs. done.
      - intros H. rewrite Hx by done. done.
      - apply all_transient_app.
        + cbn [all_transient app]. split; [intros o Ho _; rewrite Hans in Ho; by injection Ho as <-|].
          clear -Hd. generalize (before ++ [ev]). induction pause as [|d pause IHp]; intros b; [done|].
          simpl. split.
          * intros o Ho. specialize (Hd d (or_introl eq_refl)). by destruct d.
          * apply IHp. intros x Hx. apply Hd. by right.
        + by rewrite (app_assoc before [ev] pause). }
    destruct (0 <? _)%Z.
    + destruct (be_sleep _ _ _) as [[]|e'] eqn:Es.
      * apply Hmore; [done|]. intros d [<-|[]]. done.
      * intros [= <- <-]. exists ([ev] ++ [slept (delay_before_retry request
            (attempt_error request err (has_sink && seen) attr attempt))]), 1.
        split_and!; [by rewrite app_assoc|lia|lia|done|done|].
        simpl. split; [intros o Ho [?|?]; done|]. split; [done|done].
    + intros Hrun. apply (Hmore []); [done|by intros ? []|]. by rewrite app_nil_r.
  - intros [= <- <-]. by eapply Hone.
  - intros [= <- <-]. by eapply Hone.
Qed.

Lemma schedule_cons t l :
  schedule request (t :: l) =
  map (fun n => (t, n)) (seq 1 (max_attempts (rq_retry request))) ++ schedule request l.
Proof. done. Qed.

Lemma targets_spec l : forall last before o after,
  max_attempts (rq_retry request) <> 0 ->
  targets backend request has_sink l last before = (o, after) ->
  exists t k, after = before ++ t /\ sends t = take k (schedule request l) /\
    (l <> [] -> 0 < k <= length (schedule request l)) /\ all_transient false before t.
Proof.
  induction l as [|[target fallback] l IH]; intros last before o after Hmax; cbn [targets].
  { intros [= <- <-]. exists [], 0. rewrite app_nil_r. by split_and!. }
  destruct (attempts _ _ _ _ _ _ _ _ _) as [e mid] eqn:Ea.
  apply attempts_spec in Ea as (t & k & -> & Hk & Hs & Hx & Hall); [|lia].
  set (n := max_attempts (rq_retry request)) in *.
  assert (Hfirst : map (fun n => (target, fallback, n)) (seq 1 k) =
    take k (map (fun n => (target, fallback, n)) (seq 1 n))).
  { rewrite <- fmap_take. f_equal. rewrite take_seq. f_equal. lia. }
  assert (Hlen : length (map (fun n => (target, fallback, n)) (seq 1 n)) = n)
    by by rewrite length_map, length_seq.
  destruct e as [o0|o0]; cbn [is_exhausted] in *.
  - intros [= <- <-]. exists t, k. split_and!; [done| | |done].
    + rewrite Hs, Hfirst. rewrite schedule_cons. fold n.
      rewrite take_app_le by lia. done.
    + intros _. rewrite schedule_cons. fold n. rewrite length_app, Hlen. lia.
  - intros Hrun. apply IH in Hrun as (t2 & k2 & -> & Hs2 & _ & Hall2); [|done].
    rewrite (Hx eq_refl) in *. clear Hx Hk.
    exists (t ++ t2), (n + Nat.min k2 (length (schedule request l))). split_and!.
    + by rewrite app_assoc.
    + rewrite sends_app, Hs, Hs2. rewrite schedule_cons. fold n.
      rewrite take_app_ge by (rewrite Hlen; lia). rewrite Hlen. f_equal.
      replace (n + Nat.min k2 (length (schedule request l)) - n)
        with (Nat.min k2 (length (schedule request l))) by lia.
      destruct (Nat.le_gt_cases k2 (length (schedule request l))).
      * by rewrite Nat.min_l.
      * rewrite Nat.min_r by lia. rewrite !take_ge by lia. done.
    + intros _. rewrite schedule_cons. fold n.
      rewrite length_app, Hlen. lia.
    + by apply all_transient_app.
Qed.

(** A successful end is the answer of the last attempt, attributed to its target. *)
Definition succeeded (before after : list ExecEvent) (target : ModelTarget) (fallback : bool)
    (a : Attribution) (r' : Response) : Prop :=
  exists t n req r seen,
    after = before ++ t ++ [sent target fallback n req] /\
    be_send backend after req target = answered (Ok r) seen /\
    r' = with_cost r (mt_pricing target) /\ a = served (attribution_of target fallback) r'.

Lemma attempts_ok target fallback remaining : forall attempt before e after,
  attempts backend request has_sink remaining attempt target fallback
    (attribution_of target fallback) before = (e, after) ->
  match e with
  | finished (mkOutcome a (Ok r')) => succeeded before after target fallback a r'
  | exhausted o => exists err, oc_response o = Err err
  | _ => True
  end.
Proof.
  induction remaining as [|remaining IH]; intros attempt before e after; cbn [attempts].
  { intros [= <- <-]. simpl. eauto. }
  set (req := if fallback then _ else request). set (ev := sent target fallback attempt req).
  destruct (be_send backend (before ++ [ev]) req target) as [[r|err] seen| |] eqn:Eans;
    try (by intros [= <- <-]).
  - intros [= <- <-]. exists [], attempt, req, r, seen. by split_and!.
  - destruct (terminal err (has_sink && seen)); [by intros [= <- <-]|].
    destruct remaining as [|remaining]; [intros [= <- <-]; simpl; eauto|].
    assert (Hmore : forall pause,
      attempts backend request has_sink (S remaining) (S attempt) target fallback
        (attribution_of target fallback) ((before ++ [ev]) ++ pause) = (e, after) ->
      match e with
      | finished (mkOutcome a (Ok r')) => succeeded before after target fallback a r'
      | exhausted o => exists err, oc_response o = Err err
      | _ => True
      end).
    { intros pause Hrun. apply IH in Hrun. destruct e as [[a [r'|]]|]; try done.
      destruct Hrun as (t & n & req' & r & seen' & Hafter & Hrest).
      exists (([ev] ++ pause) ++ t), n, req', r, seen'. split; [|done].
      rewrite Hafter, !app_assoc. done. }
    destruct (0 <? _)%Z; [|intros Hrun; apply (Hmore []); by rewrite app_nil_r].
    destruct (be_sleep _ _ _) as [[]|]; [apply Hmore|by intros [= <- <-]].
Qed.

Lemma targets_ok l : forall last before a r' after,
  (exists err, oc_response last = Err err) \/ l <> [] ->
  targets backend request has_sink l last before = (mkOutcome a (Ok r'), after) ->
  exists target fallback mid, In (target, fallback) l /\
    (exists t, mid = before ++ t) /\ succeeded mid after target fallback a r'.
Proof.
  induction l as [|[target fallback] l IH]; intros last before a r' after Hne; cbn [targets].
  { intros [= -> _]. destruct Hne as [[? H]|]; done. }
  destruct (attempts _ _ _ _ _ _ _ _ _) as [e mid] eqn:Ea.
  pose proof (attempts_ok _ _ _ _ _ _ _ Ea) as Hok.
  assert (Hmid : exists t, mid = before ++ t).
  { destruct (max_attempts (rq_retry request)) eqn:Em.
    - cbn [attempts] in Ea. injection Ea as _ <-. exists []. by rewrite app_nil_r.
    - apply attempts_spec in Ea as (t & k & -> & _); [by exists t|lia]. }
  destruct e as [o0|o0].
  - intros [= -> ->]. exists target, fallback, before. split_and!; [by left| |done].
    exists []. by rewrite app_nil_r.
  - intros Hrun. apply IH in Hrun as (tg & fb & m & Hin & [t ->] & Hs); [|by left].
    destruct Hmid as [t0 ->]. exists tg, fb, ((before ++ t0) ++ t). split_and!; [by right| |done].
    exists (t0 ++ t). by rewrite app_assoc.
Qed.
End Theory.

(** ** Theorems *)
(** a run makes a non-empty prefix of the attempt schedule (every target in route
    order, each at most [max_attempts] times) and goes past an attempt only when it was
    answered with a retryable error before anything was shown to the sink: visible
    output is never replayed and a permanent error is never retried. *)
Theorem run_follows_schedule backend request has_sink route o events :
  max_attempts (rq_retry request) <> 0 ->
  run backend request has_sink route = (o, events) ->
  (exists k, 0 < k <= max_attempts (rq_retry request) * S (length (fallbacks route)) /\
     sends events = take k (schedule request (route_targets route))) /\
  forall before e after answer, events = before ++ e :: after -> sends after <> [] ->
    answer_at backend before e = Some answer -> transient has_sink answer.
Proof.
  intros Hmax. unfold run. destruct (Nat.eqb_spec (max_attempts (rq_retry request)) 0); [done|].
  intros Hrun. apply targets_spec in Hrun as (t & k & -> & Hs & Hk & Hall); [|done].
  cbn [app]. split.
  - exists k. split; [|done]. specialize (Hk ltac:(done)).
    assert (Hlen : forall l, length (schedule request l) = max_attempts (rq_retry request) * length l).
    { induction l as [|x l IH]; simpl; [lia|]. unfold schedule in *. simpl.
      rewrite length_app, length_map, length_seq, IH. lia. }
    rewrite Hlen in Hk. unfold route_targets in Hk. simpl in Hk. rewrite length_map in Hk. lia.
  - intros before e after answer -> Hne Ha. clear Hs.
    assert (Hgen : forall pre b, all_transient backend has_sink false pre (b ++ e :: after) ->
      forall a, answer_at backend (pre ++ b) e = Some a -> transient has_sink a).
    { intros pre b. revert pre. induction b as [|x b IH]; intros pre; simpl.
      - rewrite app_nil_r. intros [He _] a Hea. apply He; [done|by right].
      - intros [_ Hb] a Hea. apply (IH _ Hb). by rewrite <- app_assoc. }
    by eapply (Hgen [] before Hall).
Qed.

(** a successful run returns exactly the answer of its last attempt (with the
    profile's cost estimate where the endpoint gave none), attributed to that very
    target of the route and marked as a fallback exactly when it was one. *)
Theorem run_success_attributed backend request has_sink route a r' events :
  max_attempts (rq_retry request) <> 0 ->
  run backend request has_sink route = (mkOutcome a (Ok r'), events) ->
  exists before target fallback n req r seen,
    events = before ++ [sent target fallback n req] /\
    In (target, fallback) (route_targets route) /\
    be_send backend events req target = answered (Ok r) seen /\
    r' = with_cost r (mt_pricing target) /\
    at_profile a = mt_profile target /\ at_protocol a = mt_protocol target /\
    at_fallback a = fallback.
Proof.
  intros Hmax. unfold run. destruct (Nat.eqb_spec (max_attempts (rq_retry request)) 0); [done|].
  intros Hrun. apply targets_ok in Hrun as (target & fallback & mid & Hin & [t0 ->] & Hs); [|by right].
  destruct Hs as (t & n0 & req & r & seen & -> & Hans & Hr & Ha).
  exists (([] ++ t0) ++ t), target, fallback, n0, req, r, seen. split_and!; try done.
  - by rewrite !app_assoc.
  - subst a. unfold served. destruct (rs_model_used r') as [m|]; [|done]. by destruct (bool_decide _).
  - subst a. unfold served. destruct (rs_model_used r') as [m|]; [|done]. by destruct (bool_decide _).
  - subst a. unfold served. destruct (rs_model_used r') as [m|]; [|done]. by destruct (bool_decide _).
Qed.

(** A route whose primary is overloaded and whose fallback answers. *)
Definition no_pricing : ProviderPricing := mkPricing None None None None.
Definition main_model : ModelTarget :=
  mkTarget "main" "m1" anthropic_messages None None no_pricing.
Definition spare_model : ModelTarget :=
  mkTarget "spare" "m2" openai_responses None None no_pricing.
Definition demo_route : Route := mkRoute main_model [spare_model].
Definition demo_request : Request :=
  mkRequest [] None [] None None (Some 100%Z) true None (mkRetry 2 5).
Definition demo_backend : Backend := mkBackend
  (fun _ _ t => if bool_decide (mt_profile t = "main"%string)
                then answered (Err (Errors.rate_limit "busy")) false
                else answered (Ok (mkResponse [] end_turn no_usage None)) false)
  (fun _ _ => Ok tt).
Definition demo_events : list ExecEvent :=
  [sent main_model false 1 demo_request; slept 5; sent main_model false 2 demo_request;
   sent spare_model true 1 (set_thinking demo_request None)].

Lemma run_follows_schedule_witness :
  (exists k, 0 < k <= 4 /\
     sends demo_events = take k (schedule demo_request (route_targets demo_route))) /\
  forall before e after answer, demo_events = before ++ e :: after -> sends after <> [] ->
    answer_at demo_backend before e = Some answer -> transient true answer.
Proof.
  eapply (run_follows_schedule demo_backend demo_request true demo_route);
    [done|vm_compute; reflexivity].
Defined.

Lemma run_success_attributed_witness :
  exists before target fallback n req r seen,
    demo_events = before ++ [sent target fallback n req] /\
    In (target, fallback) (route_targets demo_route) /\
    be_send demo_backend demo_events req target = answered (Ok r) seen /\
    mkResponse [] end_turn no_usage None = with_cost r (mt_pricing target) /\
    "spare"%string = mt_profile target /\ openai_responses = mt_protocol target /\ true = fallback.
Proof.
  apply (run_success_attributed demo_backend demo_request true demo_route
           (mkAttribution "spare" "m2" openai_responses true));
    [done|vm_compute; reflexivity].
Defined.
