(* ===== verification/ProtocolRequest.v ===== *)
(** * oran-provider: request bytes of the vendor protocols

    Models [src/oran-provider/protocol_request.cpp].  A request is encoded as an
    ordered JSON body, then written.  The specification reads the body back: which
    messages it holds, what text stands before them as instructions, and where the
    prompt-cache marker is. *)
From S2P Require Import Prelude.
From S2P Require Import Core.
From S2P Require Import TurnId.
From S2P Require Import Json.
From S2P Require Import OrderedJson.
From S2P Require Import Provider.
Import EnumNames.

(** [ProtocolRequest]. *)
Record ProtocolRequest := mkProtocolRequest { pr_method : string; pr_path : string; pr_body_json : string }.

Definition nonempty (s : string) : bool := negb (bool_decide (s = ""%string)).

(** ** Helpers *)
(** [options.enabled] and the other conditions of the prompt cache. *)
Definition has_system_prefix (request : Request) : bool :=
  match rq_system_prompt request with Some p => nonempty p | None => false end.

Definition use_prompt_cache (request : Request) (target : ModelTarget) : bool :=
  let options := default (mkCacheOptions true 0) (mt_cache target) in
  match rq_cache request with
  | Some cache =>
      cache_enabled options && (0 <? prefix_bytes cache)%Z &&
      (min_prefix_bytes options <=? prefix_bytes cache)%Z &&
      (has_system_prefix request || negb (bool_decide (rq_tools request = [])))
  | None => false
  end.

Definition protocol_error (message : string) (target : ModelTarget) : Error :=
  Errors.with_ctx (Errors.with_ctx (Errors.with_ctx (Errors.config message)
    "profile" (mt_profile target)) "model" (mt_model target))
    "protocol" (enum_name (mt_protocol target)).

Definition parse_error (message field : string) (target : ModelTarget) : Error :=
  Errors.with_ctx (Errors.with_ctx (Errors.parsing message) "field" field)
    "protocol" (enum_name (mt_protocol target)).

Definition tool_result_text (output : string) (data_json : option string) : string :=
  match data_json with
  | Some data => if nonempty output then output else data
  | None => output
  end.

Definition anthropic_tool_choice (choice : string) : json :=
  if bool_decide (choice = "auto"%string) then JObject [("type"%string, JString "auto")]
  else if bool_decide (choice = "any"%string) then JObject [("type"%string, JString "any")]
  else JObject [("type"%string, JString "tool"); ("name"%string, JString choice)].

Definition openai_tool_choice (choice : string) : json :=
  if bool_decide (choice ∈ ["auto"; "none"; "required"]%string) then JString choice
  else if bool_decide (choice = "any"%string) then JString "required"
  else JObject [("type"%string, JString "function"); ("name"%string, JString choice)].

Definition valid_image (media_type data_base64 : string) : bool :=
  nonempty data_base64 &&
  bool_decide (media_type ∈ ["image/jpeg"; "image/png"; "image/gif"; "image/webp"]%string).

(** The ["\n\n"] between the parts of instructions. *)
Definition blank_line : string := String "010" (String "010" EmptyString).

(** The loop over the blocks of a system message: its text, or a block that is not
    text. *)
Fixpoint system_parts (parts : string) (blocks : list Content) : option string :=
  match blocks with
  | [] => Some parts
  | TextContent t :: blocks =>
      system_parts ((if nonempty parts then parts +:+ blank_line else parts) +:+ t) blocks
  | _ :: _ => None
  end.

Definition ephemeral : json := JObject [("type"%string, JString "ephemeral")].

Section Requests.
Context `{JsonLibrary}.

Definition parse_json_document (text field : string) (target : ModelTarget) : Exc json :=
  match json_parse text with
  | Doc v => Some (Ok v)
  | Malformed what => Some (Err (Errors.with_ctx
      (parse_error "provider protocol field is not valid JSON" field target) "detail" what))
  | DocThrew => raise
  end.

Definition parse_object_document (text field : string) (target : ModelTarget) : Exc json :=
  let% parsed := parse_json_document text field target in
  Some (if is_object parsed then Ok parsed
        else Err (parse_error "provider protocol field must be a JSON object" field target)).

Definition tool_schema_json (tool : ToolDef) (target : ModelTarget) : Exc json :=
  map_error (fun e => Errors.with_ctx e "tool" (td_name tool))
    (parse_object_document (td_input_schema_json tool) "tool.input_schema_json" target).

Definition tool_input_json (id name input_json : string) (target : ModelTarget) : Exc json :=
  map_error (fun e => Errors.with_ctx (Errors.with_ctx e "tool" name) "tool_use_id" id)
    (parse_object_document input_json "tool.input_json" target).

(** ** Anthropic messages *)
Definition anthropic_content_block (content : Content) (role : Role) (target : ModelTarget) : Exc json :=
  match content with
  | TextContent t => Some (Ok (JObject [("type", JString "text"); ("text", JString t)]%string))
  | ImageContent media data =>
      Some (if negb (bool_decide (role = role_user)) || negb (valid_image media data)
            then Err (protocol_error "unsupported or empty image input" target)
            else Ok (JObject [("type", JString "image");
              ("source", JObject [("type", JString "base64"); ("media_type", JString media);
                                  ("data", JString data)])]%string))
  | ThinkingContent thinking signature =>
      let block := JObject [("type", JString "thinking"); ("thinking", JString thinking)]%string in
      Some (Ok (match signature with
                | Some s => oset block "signature" (JString s)
                | None => block
                end))
  | ToolUseContent id name input_json =>
      let% input := tool_input_json id name input_json target in
      Some (Ok (JObject [("type", JString "tool_use"); ("id", JString id);
                         ("name", JString name); ("input", input)]%string))
  | ToolResultContent tool_use_id output data_json is_error =>
      let block := JObject [("type", JString "tool_result"); ("tool_use_id", JString tool_use_id)]%string in
      let block := oset block "content" (JString (tool_result_text output data_json)) in
      Some (Ok (if is_error then oset block "is_error" (JBool true) else block))
  end.

(** Append [parts] to the instructions under [key]: as a block of an array, or to a
    string. *)
Definition append_anthropic_system_text (body : json) (message : Message) (target : ModelTarget)
    : Exc json :=
  match system_parts "" (msg_blocks message) with
  | None => Some (Err (protocol_error "anthropic system messages must contain only text blocks" target))
  | Some parts =>
      if negb (nonempty parts) then Some (Ok body)
      else match member body "system" with
           | Some (JArray l) => Some (Ok (oset body "system" (JArray (l ++
               [JObject [("type", JString "text"); ("text", JString (blank_line +:+ parts))]%string]))))
           | Some (JString s) => Some (Ok (oset body "system" (JString (s +:+ blank_line +:+ parts))))
           | Some _ => raise
           | None => Some (Ok (oset body "system" (JString parts)))
           end
  end.

Definition anthropic_role (role : Role) : string :=
  match role with role_assistant => "assistant" | _ => "user" end.

Definition anthropic_message_json (message : Message) (target : ModelTarget) : Exc json :=
  let% content := exc_map (fun b => anthropic_content_block b (msg_role message) target)
                    (msg_blocks message) in
  Some (if bool_decide (msg_role message = role_system)
        then Err (protocol_error "anthropic system messages must be lifted before encoding" target)
        else Ok (JObject [("role", JString (anthropic_role (msg_role message)));
                          ("content", JArray content)]%string)).

Definition anthropic_tools_json (request : Request) (target : ModelTarget) : Exc (list json) :=
  exc_map (fun tool =>
    let% schema := tool_schema_json tool target in
    Some (Ok (JObject [("name", JString (td_name tool)); ("description", JString (td_description tool));
                       ("input_schema", schema)]%string))) (rq_tools request).

(** The loop over the messages: system text goes to the body, the rest is encoded. *)
Fixpoint anthropic_messages_loop (body : json) (acc : list json) (messages : list Message)
    (target : ModelTarget) : Exc (json * list json) :=
  match messages with
  | [] => Some (Ok (body, acc))
  | message :: messages =>
      if decide (msg_role message = role_system) then
        let% body := append_anthropic_system_text body message target in
        anthropic_messages_loop body acc messages target
      else
        let% encoded := anthropic_message_json message target in
        anthropic_messages_loop body (acc ++ [encoded]) messages target
  end.

(** [tools->back()["cache_control"] = ...]. *)
Fixpoint mark_last (tools : list json) : list json :=
  match tools with
  | [] => []
  | [tool] => [oset tool "cache_control" ephemeral]
  | tool :: tools => tool :: mark_last tools
  end.

Definition anthropic_system (request : Request) (target : ModelTarget) : option json :=
  match rq_system_prompt request with
  | Some prompt =>
      if nonempty prompt then
        Some (if use_prompt_cache request target
              then JArray [JObject [("type", JString "text"); ("text", JString prompt);
                                    ("cache_control", ephemeral)]%string]
              else JString prompt)
      else None
  | None => None
  end.

(** The body before the loop over the messages. *)
Definition anthropic_prefix (request : Request) (target : ModelTarget) (limit : Z) : json :=
  let body := JObject [("model", JString (mt_model target)); ("max_tokens", JInt limit);
                       ("stream", JBool (rq_stream request))]%string in
  let body := match anthropic_system request target with
              | Some v => oset body "system" v
              | None => body
              end in
  let body := oset body "thinking" (match rq_thinking_budget request with
    | Some budget => JObject [("type", JString "enabled"); ("budget_tokens", JInt budget)]%string
    | None => JObject [("type"%string, JString "disabled")]
    end) in
  match rq_tool_choice request with
  | Some choice => oset body "tool_choice" (anthropic_tool_choice choice)
  | None => body
  end.

Definition anthropic_body (request : Request) (target : ModelTarget) : Exc json :=
  if bool_decide (mt_model target = ""%string) then
    Some (Err (protocol_error "provider protocol target model must be non-empty" target))
  else
    match rq_max_tokens request with
    | None => Some (Err (protocol_error "anthropic messages requests require max_tokens" target))
    | Some limit =>
        let% (body, messages) := anthropic_messages_loop (anthropic_prefix request target limit) []
                                   (rq_messages request) target in
        let body := oset body "messages" (JArray messages) in
        let% tools := anthropic_tools_json request target in
        Some (Ok (if bool_decide (tools = []) then body
                  else oset body "tools" (JArray
                    (if use_prompt_cache request target && negb (has_system_prefix request)
                     then mark_last tools else tools))))
    end.

(** [body.dump()] raises on text that is not UTF-8. *)
Definition write_body (path : string) (body : json) : Exc ProtocolRequest :=
  match json_dump body with
  | Some s => Some (Ok (mkProtocolRequest "POST" path s))
  | None => raise
  end.

Definition make_anthropic_request (request : Request) (target : ModelTarget) : Exc ProtocolRequest :=
  let% body := anthropic_body request target in write_body "/v1/messages" body.

(** ** OpenAI responses *)
Definition append_openai_instructions_text (body : json) (message : Message) (target : ModelTarget)
    : Exc json :=
  match system_parts "" (msg_blocks message) with
  | None => Some (Err (protocol_error "openai system messages must contain only text blocks" target))
  | Some parts =>
      if negb (nonempty parts) then Some (Ok body)
      else match member body "instructions" with
           | Some (JString s) => Some (Ok (oset body "instructions" (JString (s +:+ blank_line +:+ parts))))
           | Some _ => raise
           | None => Some (Ok (oset body "instructions" (JString parts)))
           end
  end.

Definition openai_content_type (role : Role) : string :=
  if bool_decide (role = role_assistant) then "output_text" else "input_text".

Definition openai_text_message (role : Role) (text : string) : json :=
  JObject [("role", JString (enum_name role));
           ("content", JArray [JObject [("type", JString (openai_content_type role));
                                        ("text", JString text)]])]%string.

Definition openai_input_item (content : Content) (role : Role) (target : ModelTarget) : Exc json :=
  match content with
  | TextContent t => Some (Ok (openai_text_message role t))
  | ImageContent media data =>
      Some (if negb (bool_decide (role = role_user)) || negb (valid_image media data)
            then Err (protocol_error "unsupported image input" target)
            else Ok (JObject [("role", JString "user");
              ("content", JArray [JObject [("type", JString "input_image");
                 ("image_url", JString ("data:" +:+ media +:+ ";base64," +:+ data))]])]%string))
  | ThinkingContent thinking _ =>
      Some (Ok (JObject [("type", JString "reasoning");
        ("summary", JArray [JObject [("type", JString "summary_text"); ("text", JString thinking)]])]%string))
  | ToolUseContent id name input_json =>
      let% input := tool_input_json id name input_json target in
      match json_dump input with
      | Some arguments => Some (Ok (JObject [("type", JString "function_call"); ("call_id", JString id);
          ("name", JString name); ("arguments", JString arguments)]%string))
      | None => raise
      end
  | ToolResultContent tool_use_id output data_json is_error =>
      let item := JObject [("type", JString "function_call_output"); ("call_id", JString tool_use_id)]%string in
      let item := oset item "output" (JString (tool_result_text output data_json)) in
      Some (Ok (if is_error then oset item "status" (JString "error") else item))
  end.

Definition openai_tools_json (request : Request) (target : ModelTarget) : Exc (list json) :=
  exc_map (fun tool =>
    let% schema := tool_schema_json tool target in
    Some (Ok (JObject [("type", JString "function"); ("name", JString (td_name tool));
                       ("description", JString (td_description tool)); ("parameters", schema)]%string)))
    (rq_tools request).

Fixpoint openai_messages_loop (body : json) (acc : list json) (messages : list Message)
    (target : ModelTarget) : Exc (json * list json) :=
  match messages with
  | [] => Some (Ok (body, acc))
  | message :: messages =>
      if decide (msg_role message = role_system) then
        let% body := append_openai_instructions_text body message target in
        openai_messages_loop body acc messages target
      else
        let% items := exc_map (fun b => openai_input_item b (msg_role message) target)
                        (msg_blocks message) in
        openai_messages_loop body (acc ++ items) messages target
  end.

(** [std::format] of [{:016x}]. *)
Definition hex16 (h : Z) : string := str (to_hex (rev (le_bytes 8 h))).

Definition openai_prefix (request : Request) (target : ModelTarget) : json :=
  let body := JObject [("model", JString (mt_model target)); ("stream", JBool (rq_stream request))]%string in
  let body := match rq_cache request with
              | Some cache =>
                  if use_prompt_cache request target
                  then oset body "prompt_cache_key" (JString ("oran-" +:+ hex16 (prefix_hash cache)))
                  else body
              | None => body
              end in
  let body := match rq_system_prompt request with
              | Some prompt => if nonempty prompt then oset body "instructions" (JString prompt) else body
              | None => body
              end in
  let body := match rq_max_tokens request with
              | Some n => oset body "max_output_tokens" (JInt n)
              | None => body
              end in
  match rq_tool_choice request with
  | Some choice => oset body "tool_choice" (openai_tool_choice choice)
  | None => body
  end.

Definition openai_body (request : Request) (target : ModelTarget) : Exc json :=
  if bool_decide (mt_model target = ""%string) then
    Some (Err (protocol_error "provider protocol target model must be non-empty" target))
  else
    match rq_thinking_budget request with
    | Some _ => Some (Err (protocol_error
        "openai responses requests do not accept token-budget thinking controls" target))
    | None =>
        let% (body, input) := openai_messages_loop (openai_prefix request target) []
                                (rq_messages request) target in
        let body := oset body "input" (JArray input) in
        let% tools := openai_tools_json request target in
        Some (Ok (if bool_decide (tools = []) then body else oset body "tools" (JArray tools)))
    end.

Definition make_openai_responses_request (request : Request) (target : ModelTarget) : Exc ProtocolRequest :=
  let% body := openai_body request target in write_body "/responses" body.

Definition make_protocol_request (request : Request) (target : ModelTarget) : Exc ProtocolRequest :=
  match mt_protocol target with
  | anthropic_messages => make_anthropic_request request target
  | openai_responses => make_openai_responses_request request target
  | _ => Some (Err (protocol_error "provider protocol request serialization is not implemented" target))
  end.
End Requests.

(** ** Specification *)
(** The messages that are not instructions, in order. *)
Definition conversation (messages : list Message) : list Message :=
  filter (fun m => msg_role m <> role_system) messages.

(** The texts that stand before the conversation: the prompt, then each system
    message's text; empty ones are left out. *)
Definition system_sections (messages : list Message) : list string :=
  filter (fun s => nonempty s = true)
    (omap (fun m => if decide (msg_role m = role_system)
                    then system_parts "" (msg_blocks m) else None) messages).
Definition sections (request : Request) : list string :=
  filter (fun s => nonempty s = true) [default ""%string (rq_system_prompt request)] ++
  system_sections (rq_messages request).

(** Sections are separated by a blank line. *)
Definition joined (l : list string) : string :=
  match l with
  | [] => ""
  | s :: l => fold_left (fun acc x => acc +:+ blank_line +:+ x) l s
  end.

(** The text of an instructions field. *)
Fixpoint block_texts (l : list json) : string :=
  match l with
  | [] => ""
  | j :: l => string_or_empty j "text" +:+ block_texts l
  end.
Definition instructions (field : option json) : string :=
  match field with
  | Some (JString s) => s
  | Some (JArray l) => block_texts l
  | _ => ""
  end.

(** Where a cache marker stands in the body. *)
Definition markers_in (key : string) (body : json) : list (string * nat) :=
  match member body key with
  | Some (JArray l) =>
      omap (fun p => if jcontains (snd p) "cache_control" then Some (key, fst p) else None)
        (imap (fun i j => (i, j)) l)
  | _ => []
  end.
Definition cache_markers (body : json) : list (string * nat) :=
  markers_in "system" body ++ markers_in "tools" body.

(** What a request must satisfy to be encoded. *)
Section Accepted.
Context `{JsonLibrary}.
Definition reads_object (text : string) : bool :=
  match json_parse text with Doc v => is_object v | _ => false end.
Definition block_accepted (role : Role) (c : Content) : bool :=
  match c with
  | ToolUseContent _ _ input => reads_object input
  | ImageContent media data => bool_decide (role = role_user) && valid_image media data
  | _ => true
  end.
Definition message_accepted (m : Message) : bool :=
  if decide (msg_role m = role_system) then forallb holds_text (msg_blocks m)
  else forallb (block_accepted (msg_role m)) (msg_blocks m).
Definition anthropic_accepted (request : Request) (target : ModelTarget) : bool :=
  nonempty (mt_model target) && bool_decide (rq_max_tokens request <> None) &&
  forallb message_accepted (rq_messages request) &&
  forallb (fun t => reads_object (td_input_schema_json t)) (rq_tools request).
End Accepted.

(** ** Lifting system messages *)
Lemma system_parts_ok parts blocks :
  is_Some (system_parts parts blocks) <-> forallb holds_text blocks = true.
Proof.
  revert parts. induction blocks as [|b blocks IH]; intros parts; simpl; [split; eauto|].
  destruct b; simpl; try (split; [by intros [? ?]|discriminate]). apply IH.
Qed.

Lemma joined_snoc l s : joined (l ++ [s]) = if decide (l = []) then s else joined l +:+ blank_line +:+ s.
Proof.
  destruct l as [|x l]; [done|]. rewrite decide_False by done. simpl. by rewrite fold_left_app.
Qed.

Lemma nonempty_spec s : nonempty s = true <-> s <> ""%string.
Proof. unfold nonempty. by rewrite negb_true_iff, bool_decide_eq_false. Qed.

Lemma block_texts_app l1 l2 : block_texts (l1 ++ l2) = block_texts l1 +:+ block_texts l2.
Proof.
  induction l1 as [|j l1 IH]; simpl; [done|]. rewrite IH.
  by rewrite append_assoc.
Qed.

(** The body holds the sections read so far under [key]. *)
Definition lifted (key : string) (arrays : bool) (body : json) (secs : list string) : Prop :=
  is_object body = true /\
  match member body key with
  | None => secs = []
  | Some (JString s) => secs <> [] /\ s = joined secs
  | Some (JArray l) => arrays = true /\ secs <> [] /\ block_texts l = joined secs
  | Some _ => False
  end.

(** One step of lifting: the sections grow, the rest of the body stays. *)
Definition same_but (key : string) (body body' : json) : Prop :=
  (forall k, k <> key -> member body' k = member body k) /\
  markers_in key body' = markers_in key body.

Lemma same_but_refl key body : same_but key body body. Proof. by split. Qed.
Lemma same_but_trans key a b c : same_but key a b -> same_but key b c -> same_but key a c.
Proof. intros [H1 H2] [H3 H4]. split; [|congruence]. intros k Hk. rewrite H3, H1; done. Qed.
#[local] Hint Resolve same_but_refl same_but_trans : core.

Lemma member_oset j k v k' :
  is_object j = true -> member (oset j k v) k' = if decide (k' = k) then Some v else member j k'.
Proof. destruct j; try discriminate. intros _. apply oset_member. Qed.
Lemma is_object_oset j k v : is_object (oset j k v) = is_object j.
Proof. by destruct j. Qed.

Lemma lifted_set key arrays body secs v :
  is_object body = true ->
  match v with
  | JString s => secs <> [] /\ s = joined secs
  | JArray l => arrays = true /\ secs <> [] /\ block_texts l = joined secs
  | _ => False
  end -> lifted key arrays (oset body key v) secs.
Proof.
  intros Ho Hv. split; [by rewrite is_object_oset|].
  rewrite member_oset, decide_True by done. by destruct v.
Qed.

(** A step of lifting that leaves the marked blocks alone. *)
Definition appends (key : string) (arrays : bool) (append : json -> Message -> Exc json) : Prop :=
  forall body secs m, lifted key arrays body secs ->
    match system_parts "" (msg_blocks m) with
    | Some parts => exists body', append body m = Some (Ok body') /\
        lifted key arrays body' (secs ++ filter (fun s => nonempty s = true) [parts]) /\
        same_but key body body'
    | None => exists e, append body m = Some (Err e)
    end.

Lemma markers_string key body s v :
  is_object body = true -> member body key = Some (JString s) \/ member body key = None ->
  v = JString s \/ (exists t, v = JString t) -> markers_in key (oset body key v) = markers_in key body.
Proof.
  intros Ho Hm Hv. unfold markers_in. rewrite member_oset, decide_True by done.
  destruct Hv as [->|[t ->]], Hm as [->| ->]; done.
Qed.

Lemma markers_array key body l j :
  is_object body = true -> member body key = Some (JArray l) -> jcontains j "cache_control" = false ->
  markers_in key (oset body key (JArray (l ++ [j]))) = markers_in key body.
Proof.
  intros Ho Hm Hj. unfold markers_in. rewrite member_oset, decide_True, Hm by done.
  rewrite imap_app, omap_app. simpl. by rewrite Hj, app_nil_r.
Qed.

Ltac same_but_set :=
  split; [intros k Hk; rewrite member_oset, decide_False by done; reflexivity|].

Lemma append_anthropic_appends target :
  appends "system" true (fun body m => append_anthropic_system_text body m target).
Proof.
  intros body secs m [Ho Hl]. unfold append_anthropic_system_text.
  destruct (system_parts "" (msg_blocks m)) as [parts|] eqn:Hp; [|by eexists].
  destruct (nonempty parts) eqn:He; simpl; [rewrite filter_cons, decide_True, filter_nil by done|
    rewrite filter_cons, decide_False, filter_nil, app_nil_r by congruence;
    exists body; split_and!; [done|by split|done]].
  destruct (member body "system") as [[| | | |s|l|]|] eqn:Hm; try done.
  - destruct Hl as [Hs ->]. eexists. split; [done|]. split; [apply lifted_set; [done|]|].
    + rewrite joined_snoc, decide_False by done. split; [by destruct secs|done].
    + same_but_set. eapply markers_string; eauto.
  - destruct Hl as (_ & Hs & Hl). eexists. split; [done|]. split; [apply lifted_set; [done|]|].
    + rewrite joined_snoc, decide_False, block_texts_app by done. split_and!; [done|by destruct secs|].
      rewrite Hl. simpl. unfold string_or_empty. simpl. by rewrite append_empty.
    + same_but_set. by apply markers_array.
  - subst secs. eexists. split; [done|]. split; [apply lifted_set; done|].
    same_but_set. eapply (markers_string _ _ parts); eauto.
Qed.

Lemma append_openai_appends target :
  appends "instructions" false (fun body m => append_openai_instructions_text body m target).
Proof.
  intros body secs m [Ho Hl]. unfold append_openai_instructions_text.
  destruct (system_parts "" (msg_blocks m)) as [parts|] eqn:Hp; [|by eexists].
  destruct (nonempty parts) eqn:He; simpl; [rewrite filter_cons, decide_True, filter_nil by done|
    rewrite filter_cons, decide_False, filter_nil, app_nil_r by congruence;
    exists body; split_and!; [done|by split|done]].
  destruct (member body "instructions") as [[| | | |s|l|]|] eqn:Hm; try done.
  - destruct Hl as [Hs ->]. eexists. split; [done|]. split; [apply lifted_set; [done|]|].
    + rewrite joined_snoc, decide_False by done. split; [by destruct secs|done].
    + same_but_set. eapply markers_string; eauto.
  - by destruct Hl.
  - subst secs. eexists. split; [done|]. split; [apply lifted_set; done|].
    same_but_set. eapply (markers_string _ _ parts); eauto.
Qed.

(** Both protocols run the same loop, with their own lifting and encoding. *)
Section Loop.
Context (key : string) (arrays : bool) (append : json -> Message -> Exc json)
  (encode : Message -> Exc (list json)).
Context (Happend : appends key arrays append).

Fixpoint lift_loop (body : json) (acc : list json) (messages : list Message) : Exc (json * list json) :=
  match messages with
  | [] => Some (Ok (body, acc))
  | m :: messages =>
      if decide (msg_role m = role_system) then
        let% body := append body m in lift_loop body acc messages
      else
        let% items := encode m in lift_loop body (acc ++ items) messages
  end.

Lemma lift_loop_ok messages : forall body acc secs body' out,
  lifted key arrays body secs -> lift_loop body acc messages = Some (Ok (body', out)) ->
  (exists items, out = acc ++ concat items /\
     Forall2 (fun m js => encode m = Some (Ok js)) (conversation messages) items) /\
  lifted key arrays body' (secs ++ system_sections messages) /\ same_but key body body'.
Proof.
  induction messages as [|m messages IH]; intros body acc secs body' out Hl; simpl.
  { intros [= <- <-]. split; [exists []; simpl; by rewrite app_nil_r|].
    unfold system_sections. simpl. by rewrite filter_nil, app_nil_r. }
  unfold conversation, system_sections. simpl. case_decide as Hr.
  - intros (b & Hb & Hrest)%exc_bind_ok. pose proof (Happend body secs m Hl) as Ha.
    rewrite filter_cons, decide_False by (intros Hn; by apply Hn).
    destruct (system_parts _ _) as [parts|]; [|destruct Ha as [e Ha]; congruence].
    destruct Ha as (b' & Hb' & Hl' & Hs). assert (b' = b) as -> by congruence.
    destruct (IH _ _ _ _ _ Hl' Hrest) as (Hi & Hl2 & Hs2). split_and!; [done| |eauto].
    revert Hl2. unfold system_sections. by rewrite <- (assoc_L (++)), <- filter_app.
  - intros (items & Hb & Hrest)%exc_bind_ok.
    destruct (IH _ _ _ _ _ Hl Hrest) as ((its & -> & Hi) & Hl2 & Hs2). split_and!; [|done|done].
    exists (items :: its). simpl. rewrite (assoc_L (++)). split; [done|].
    rewrite filter_cons, decide_True by done. by constructor.
Qed.

(** The loop succeeds exactly when every message can be lifted or encoded. *)
Lemma lift_loop_total messages : forall body acc secs,
  lifted key arrays body secs ->
  ((exists r, lift_loop body acc messages = Some (Ok r)) <->
   Forall (fun m => if decide (msg_role m = role_system)
                    then is_Some (system_parts "" (msg_blocks m))
                    else exists js, encode m = Some (Ok js)) messages).
Proof.
  induction messages as [|m messages IH]; intros body acc secs Hl; simpl; [split; eauto|].
  rewrite Forall_cons. case_decide as Hr.
  - pose proof (Happend body secs m Hl) as Ha. destruct (system_parts _ _) as [parts|].
    + destruct Ha as (b' & -> & Hl' & _). simpl. rewrite (IH _ acc _ Hl'). split; [by split; eauto|by intros [_ ?]].
    + destruct Ha as (e & ->). simpl. split; [by intros [? ?]|by intros [[? ?] _]].
  - destruct (encode m) as [[items|e]|]; simpl.
    + rewrite (IH _ (acc ++ items) _ Hl). split; [by split; eauto|by intros [_ ?]].
    + split; [by intros [? ?]|by intros [[? ?] _]].
    + split; [by intros [? ?]|by intros [[? ?] _]].
Qed.
End Loop.

Section Proofs.
Context `{JsonLibrary}.

Lemma anthropic_loop_lift target messages : forall body acc,
  anthropic_messages_loop body acc messages target =
  lift_loop (fun b m => append_anthropic_system_text b m target)
    (fun m => let% j := anthropic_message_json m target in Some (Ok [j])) body acc messages.
Proof.
  induction messages as [|m messages IH]; intros body acc; simpl; [done|]. case_decide.
  - by destruct (append_anthropic_system_text _ _ _) as [[?|?]|]; simpl.
  - by destruct (anthropic_message_json _ _) as [[?|?]|]; simpl.
Qed.

Definition openai_items (m : Message) (target : ModelTarget) : Exc (list json) :=
  exc_map (fun b => openai_input_item b (msg_role m) target) (msg_blocks m).

Lemma openai_loop_lift target messages : forall body acc,
  openai_messages_loop body acc messages target =
  lift_loop (fun b m => append_openai_instructions_text b m target)
    (fun m => openai_items m target) body acc messages.
Proof.
  induction messages as [|m messages IH]; intros body acc; simpl; [done|]. case_decide.
  - by destruct (append_openai_instructions_text _ _ _) as [[?|?]|]; simpl.
  - unfold openai_items. by destruct (exc_map _ _) as [[?|?]|]; simpl.
Qed.

(** Setting a field that is not the instructions. *)
Lemma lifted_other key arrays body secs k v :
  k <> key -> lifted key arrays body secs -> lifted key arrays (oset body k v) secs.
Proof.
  intros Hk [Ho Hl]. split; [by rewrite is_object_oset|].
  by rewrite member_oset, decide_False by done.
Qed.

Lemma prompt_sections request :
  filter (fun s => nonempty s = true) [default ""%string (rq_system_prompt request)] =
  if has_system_prefix request then [default ""%string (rq_system_prompt request)] else [].
Proof.
  unfold has_system_prefix. rewrite filter_cons, filter_nil.
  destruct (rq_system_prompt request) as [p|]; simpl; [|done].
  destruct (nonempty p) eqn:Hp; [by rewrite decide_True|rewrite decide_False; [done|congruence]].
Qed.

Lemma anthropic_prefix_lifted request target limit :
  lifted "system" true (anthropic_prefix request target limit)
    (filter (fun s => nonempty s = true) [default ""%string (rq_system_prompt request)]).
Proof.
  rewrite prompt_sections. unfold anthropic_prefix.
  assert (Hbase : lifted "system" true
    (let body := JObject [("model", JString (mt_model target)); ("max_tokens", JInt limit);
                       ("stream", JBool (rq_stream request))]%string in
     match anthropic_system request target with Some v => oset body "system" v | None => body end)
    (if has_system_prefix request then [default ""%string (rq_system_prompt request)] else [])).
  { unfold anthropic_system, has_system_prefix.
    destruct (rq_system_prompt request) as [p|]; [|by split].
    destruct (nonempty p) eqn:Hp; [|by split]. apply lifted_set; [done|].
    destruct (use_prompt_cache _ _); simpl; [|by split].
    split_and!; [done..|]. unfold string_or_empty. simpl. by rewrite append_empty. }
  destruct (rq_tool_choice request); repeat apply lifted_other; done.
Qed.

Lemma openai_prefix_lifted request target :
  lifted "instructions" false (openai_prefix request target)
    (filter (fun s => nonempty s = true) [default ""%string (rq_system_prompt request)]).
Proof.
  rewrite prompt_sections. unfold openai_prefix.
  set (base := match rq_cache request with Some _ => _ | None => _ end).
  assert (Hb : is_object base = true /\ member base "instructions" = None).
  { unfold base. destruct (rq_cache request); [destruct (use_prompt_cache _ _)|]; done. }
  assert (Hbase : lifted "instructions" false
    (match rq_system_prompt request with
     | Some prompt => if nonempty prompt then oset base "instructions" (JString prompt) else base
     | None => base end)
    (if has_system_prefix request then [default ""%string (rq_system_prompt request)] else [])).
  { unfold has_system_prefix. destruct Hb as [Ho Hm].
    destruct (rq_system_prompt request) as [p|]; [|split; [done|by rewrite Hm]].
    destruct (nonempty p) eqn:Hp; [|split; [done|by rewrite Hm]]. by apply lifted_set. }
  destruct (rq_tool_choice request), (rq_max_tokens request); repeat apply lifted_other; done.
Qed.

Ltac members := repeat (rewrite member_oset by (by rewrite ?is_object_oset); case_decide; try done); try done.

Lemma anthropic_body_inv request target body :
  anthropic_body request target = Some (Ok body) ->
  mt_model target <> ""%string /\ exists limit b messages tools,
    rq_max_tokens request = Some limit /\
    anthropic_messages_loop (anthropic_prefix request target limit) [] (rq_messages request) target =
      Some (Ok (b, messages)) /\
    anthropic_tools_json request target = Some (Ok tools) /\
    body = (let b := oset b "messages" (JArray messages) in
            if bool_decide (tools = []) then b
            else oset b "tools" (JArray (if use_prompt_cache request target && negb (has_system_prefix request)
                                         then mark_last tools else tools))).
Proof.
  unfold anthropic_body. case_bool_decide; [done|]. destruct (rq_max_tokens request) as [limit|]; [|done].
  intros ([b ms] & Hl & Ht)%exc_bind_ok. apply exc_bind_ok in Ht as (tools & Ht & [= <-]).
  split; [done|]. by exists limit, b, ms, tools.
Qed.

Lemma anthropic_lift request target limit b messages :
  anthropic_messages_loop (anthropic_prefix request target limit) [] (rq_messages request) target =
    Some (Ok (b, messages)) ->
  Forall2 (fun m j => anthropic_message_json m target = Some (Ok j))
    (conversation (rq_messages request)) messages /\
  lifted "system" true b (sections request) /\
  same_but "system" (anthropic_prefix request target limit) b.
Proof.
  rewrite anthropic_loop_lift. intros Hl.
  apply (lift_loop_ok _ _ _ _ (append_anthropic_appends target) _ _ _ _ _ _
           (anthropic_prefix_lifted request target limit)) in Hl as ((items & -> & Hi) & Hl & Hs).
  split_and!; [|done..]. simpl. clear Hl Hs. induction Hi as [|m js ms items Hj Hi IH]; [constructor|].
  apply exc_bind_ok in Hj as (j & Hj & [= <-]). simpl. by constructor.
Qed.

Lemma openai_lift request target b input :
  openai_messages_loop (openai_prefix request target) [] (rq_messages request) target = Some (Ok (b, input)) ->
  (exists items, input = concat items /\
     Forall2 (fun m js => openai_items m target = Some (Ok js)) (conversation (rq_messages request)) items) /\
  lifted "instructions" false b (sections request) /\
  same_but "instructions" (openai_prefix request target) b.
Proof.
  rewrite openai_loop_lift. intros Hl.
  by apply (lift_loop_ok _ _ _ _ (append_openai_appends target) _ _ _ _ _ _
           (openai_prefix_lifted request target)) in Hl.
Qed.

Lemma lifted_instructions key arrays body secs :
  lifted key arrays body secs -> instructions (member body key) = joined secs.
Proof.
  intros [_ Hl]. destruct (member body key) as [[| | | |s|l|]|]; try done.
  - by destruct Hl as [_ ->].
  - by destruct Hl as (_ & _ & <-).
  - by subst secs.
Qed.

(** The fields of a body that the loop over the messages does not touch. *)
Lemma anthropic_prefix_fields request target limit :
  let b := anthropic_prefix request target limit in
  is_object b = true /\ member b "model" = Some (JString (mt_model target)) /\
  member b "max_tokens" = Some (JInt limit) /\ member b "stream" = Some (JBool (rq_stream request)) /\
  member b "tool_choice" = anthropic_tool_choice <$> rq_tool_choice request /\
  member b "tools" = None /\ member b "system" = anthropic_system request target.
Proof.
  unfold anthropic_prefix. destruct (anthropic_system request target), (rq_tool_choice request);
    (split_and!; [by rewrite !is_object_oset|members..]).
Qed.

Lemma openai_prefix_fields request target :
  let b := openai_prefix request target in
  is_object b = true /\ member b "model" = Some (JString (mt_model target)) /\
  member b "stream" = Some (JBool (rq_stream request)) /\
  member b "tool_choice" = openai_tool_choice <$> rq_tool_choice request /\
  member b "max_output_tokens" = JInt <$> rq_max_tokens request /\
  member b "prompt_cache_key" =
    (if use_prompt_cache request target
     then (fun c => JString ("oran-" +:+ hex16 (prefix_hash c))) <$> rq_cache request else None) /\
  member b "tools" = None.
Proof.
  unfold openai_prefix.
  set (base := match rq_cache request with Some _ => _ | None => _ end).
  assert (Hb : is_object base = true /\ member base "model" = Some (JString (mt_model target)) /\
    member base "stream" = Some (JBool (rq_stream request)) /\
    member base "tool_choice" = None /\ member base "max_output_tokens" = None /\
    member base "prompt_cache_key" =
    (if use_prompt_cache request target
     then (fun c => JString ("oran-" +:+ hex16 (prefix_hash c))) <$> rq_cache request else None) /\
    member base "tools" = None).
  { unfold base. destruct (rq_cache request) as [c|] eqn:Hc.
    - destruct (use_prompt_cache request target); (split_and!; [done|members..]).
    - unfold use_prompt_cache. rewrite Hc. done. }
  clearbody base. destruct Hb as (Ho & H1 & H2 & H3 & H4 & H5 & H6).
  set (b1 := match rq_system_prompt request with Some _ => _ | None => _ end).
  assert (Hb : is_object b1 = true /\ forall k, k <> "instructions"%string -> member b1 k = member base k).
  { unfold b1. destruct (rq_system_prompt request) as [p|]; [|done]. destruct (nonempty p); [|done].
    split; [by rewrite is_object_oset|]. intros k Hk. by rewrite member_oset, decide_False. }
  clearbody b1. destruct Hb as [Ho1 Hb].
  destruct (rq_max_tokens request), (rq_tool_choice request);
    (split_and!; [by rewrite ?is_object_oset|members; rewrite ?Hb by done; first [assumption|by rewrite ?H3, ?H4]..]).
Qed.

(** A body changes only its instructions, then gains [messages] and [tools]. *)
Lemma markers_other key body k v : k <> key -> is_object body = true ->
  markers_in key (oset body k v) = markers_in key body.
Proof. intros Hk Ho. unfold markers_in. by rewrite member_oset, decide_False by done. Qed.

Lemma same_but_object key a b arrays secs : lifted key arrays b secs -> same_but key a b -> is_object b = true.
Proof. by intros [? _]. Qed.

(** Unmarked tools, and the mark on the last one. *)
Definition plain_tool (target : ModelTarget) (t : ToolDef) (j : json) : Prop :=
  exists schema, tool_schema_json t target = Some (Ok schema) /\
    j = JObject [("name", JString (td_name t)); ("description", JString (td_description t));
                 ("input_schema", schema)]%string.

Lemma anthropic_tools_ok request target tools :
  anthropic_tools_json request target = Some (Ok tools) <->
  Forall2 (plain_tool target) (rq_tools request) tools.
Proof.
  unfold anthropic_tools_json. rewrite exc_map_ok.
  split; intros Hl; refine (Forall2_impl _ _ _ _ Hl _); unfold plain_tool; intros t j.
  - intros (schema & Hs & [= <-])%exc_bind_ok. eauto.
  - intros (schema & Hs & ->). by rewrite Hs.
Qed.

(** Marks of a list of tools, from index [n]. *)
Lemma tool_marks target ts tools n :
  Forall2 (plain_tool target) ts tools ->
  omap (fun p : nat * json => if jcontains (snd p) "cache_control" then Some ("tools"%string, fst p) else None)
    (imap (fun i j => ((n + i)%nat, j)) tools) = [] /\
  omap (fun p : nat * json => if jcontains (snd p) "cache_control" then Some ("tools"%string, fst p) else None)
    (imap (fun i j => ((n + i)%nat, j)) (mark_last tools)) =
    (if decide (tools = []) then [] else [("tools"%string, (n + pred (length tools))%nat)]).
Proof.
  intros Ht. revert n. induction Ht as [|t j ts tools (schema & _ & ->) Ht IH]; intros n; [done|].
  destruct tools as [|j' tools].
  - simpl. by rewrite Nat.add_0_r.
  - change (mark_last (_ :: j' :: tools)) with (JObject [("name", JString (td_name t));
      ("description", JString (td_description t)); ("input_schema", schema)]%string :: mark_last (j' :: tools)).
    destruct (IH (S n)) as [H1 H2]. rewrite decide_False in H2 by done.
    rewrite decide_False by done. revert H1 H2. generalize (mark_last (j' :: tools)) as marked.
    change (pred (length (_ :: j' :: tools))) with (S (pred (length (j' :: tools)))).
    generalize (j' :: tools) as rest. intros rest marked H1 H2. rewrite !imap_cons.
    assert (Hshift : forall l, imap ((fun i j => ((n + i)%nat, j)) ∘ S) l =
      imap (fun i (j : json) => ((S n + i)%nat, j)) l) by (intros; apply imap_ext; intros; simpl; f_equal; lia).
    rewrite !Hshift. split; [exact H1|]. etransitivity; [exact H2|]. do 2 f_equal. lia.
Qed.

(** a request that is encoded for the Anthropic protocol loses nothing: the
    body names the model and the limit, its messages are the encodings of the
    conversation in order, and its system field reads as the prompt followed by the
    text of every system message, separated by blank lines, whether the prompt is a
    cached block or a plain string. *)
Theorem anthropic_request_spec request target pr :
  make_anthropic_request request target = Some (Ok pr) ->
  pr_method pr = "POST"%string /\ pr_path pr = "/v1/messages"%string /\
  exists body limit messages,
    anthropic_body request target = Some (Ok body) /\ json_dump body = Some (pr_body_json pr) /\
    rq_max_tokens request = Some limit /\ mt_model target <> ""%string /\
    member body "model" = Some (JString (mt_model target)) /\
    member body "max_tokens" = Some (JInt limit) /\
    member body "stream" = Some (JBool (rq_stream request)) /\
    member body "messages" = Some (JArray messages) /\
    Forall2 (fun m j => anthropic_message_json m target = Some (Ok j))
      (conversation (rq_messages request)) messages /\
    instructions (member body "system") = joined (sections request).
Proof.
  intros (body & Hbody & Hw)%exc_bind_ok. unfold write_body in Hw.
  destruct (json_dump body) as [text|] eqn:Hd; [injection Hw as <-|done].
  split_and!; [done..|].
  destruct (anthropic_body_inv _ _ _ Hbody) as (Hm & limit & b & messages & tools & Hlim & Hloop & _ & ->).
  destruct (anthropic_lift _ _ _ _ _ Hloop) as (Hmsgs & Hl & [Hs _]).
  destruct (anthropic_prefix_fields request target limit) as (_ & H1 & H2 & H3 & _).
  destruct Hl as [Ho Hl]. exists (if bool_decide (tools = []) then oset b "messages" (JArray messages)
    else oset (oset b "messages" (JArray messages)) "tools" (JArray
      (if use_prompt_cache request target && negb (has_system_prefix request) then mark_last tools else tools))).
  exists limit, messages.
  split_and!; [done..| | | | |done|];
    try (case_bool_decide; members; rewrite Hs by done; assumption).
  case_bool_decide; members; by apply (lifted_instructions "system" true).
Qed.

(** the prompt cache is marked once, at the end of the stable prefix: on the
    system prompt when there is one, else on the last tool; a request that does not
    use the cache carries no marker, and later system messages are never marked. *)
Theorem cache_marker_placed request target body :
  anthropic_body request target = Some (Ok body) ->
  cache_markers body =
    if use_prompt_cache request target
    then if has_system_prefix request then [("system"%string, 0%nat)]
         else [("tools"%string, pred (length (rq_tools request)))]
    else [].
Proof.
  intros Hbody. destruct (anthropic_body_inv _ _ _ Hbody) as (_ & limit & b & messages & tools & _ & Hloop & Ht & ->).
  destruct (anthropic_lift _ _ _ _ _ Hloop) as (_ & [Ho _] & [Hs Hmark]).
  destruct (anthropic_prefix_fields request target limit) as (_ & _ & _ & _ & _ & Htools & Hsys).
  apply anthropic_tools_ok in Ht.
  assert (Hlen : length (rq_tools request) = length tools) by (by eapply Forall2_length).
  assert (Hsystem : markers_in "system" b =
    if use_prompt_cache request target && has_system_prefix request then [("system"%string, 0%nat)] else []).
  { rewrite Hmark. unfold markers_in. rewrite Hsys. unfold anthropic_system, has_system_prefix.
    destruct (rq_system_prompt request) as [p|]; [|by rewrite andb_false_r].
    destruct (nonempty p); [|by rewrite andb_false_r]. by destruct (use_prompt_cache _ _). }
  destruct (tool_marks target _ _ 0 Ht) as [Hplain Hlast].
  assert (Hnone : markers_in "tools" b = []) by (unfold markers_in; by rewrite Hs, Htools).
  unfold cache_markers. simpl. case_bool_decide as Hempty.
  - rewrite !markers_other, Hsystem, Hnone, app_nil_r by done. subst tools.
    destruct (use_prompt_cache request target) eqn:Hc; [|done]. simpl.
    destruct (has_system_prefix request) eqn:Hp; [done|]. exfalso.
    unfold use_prompt_cache in Hc. destruct (rq_cache request); [|done].
    rewrite Hp in Hc. simpl in Hc. destruct (rq_tools request); [|done].
    rewrite andb_false_r in Hc. done.
  - rewrite !markers_other, Hsystem by (rewrite ?is_object_oset; done).
    unfold markers_in at 1. rewrite member_oset, decide_True by (by rewrite ?is_object_oset).
    cbn [Nat.add] in Hplain, Hlast. rewrite decide_False in Hlast by done. rewrite Hlen.
    destruct (use_prompt_cache request target), (has_system_prefix request); cbn [andb negb app];
      rewrite ?Hplain, ?Hlast; done.
Qed.

(** the same for the Responses protocol: the input list is the concatenation of
    the items of every conversation message in order, the instructions read as the
    prompt and the system messages, and the stable prefix is named by the cache key
    exactly when the cache is used. *)
Theorem openai_request_spec request target pr :
  make_openai_responses_request request target = Some (Ok pr) ->
  pr_method pr = "POST"%string /\ pr_path pr = "/responses"%string /\
  rq_thinking_budget request = None /\
  exists body items,
    json_dump body = Some (pr_body_json pr) /\
    member body "model" = Some (JString (mt_model target)) /\
    member body "stream" = Some (JBool (rq_stream request)) /\
    member body "max_output_tokens" = JInt <$> rq_max_tokens request /\
    member body "prompt_cache_key" =
      (if use_prompt_cache request target
       then (fun c => JString ("oran-" +:+ hex16 (prefix_hash c))) <$> rq_cache request else None) /\
    member body "input" = Some (JArray (concat items)) /\
    Forall2 (fun m js => openai_items m target = Some (Ok js)) (conversation (rq_messages request)) items /\
    instructions (member body "instructions") = joined (sections request).
Proof.
  intros (body & Hbody & Hw)%exc_bind_ok. unfold write_body in Hw.
  destruct (json_dump body) as [text|] eqn:Hd; [injection Hw as <-|done].
  unfold openai_body in Hbody. case_bool_decide; [done|].
  destruct (rq_thinking_budget request) eqn:Hth; [done|].
  apply exc_bind_ok in Hbody as ([b input] & Hloop & Ht).
  apply exc_bind_ok in Ht as (tools & _ & [= <-]).
  destruct (openai_lift _ _ _ _ Hloop) as ((items & -> & Hi) & Hl & [Hs _]).
  destruct (openai_prefix_fields request target) as (_ & H1 & H2 & _ & H3 & H4 & _).
  split_and!; [done..|]. destruct Hl as [Ho Hl]. eexists _, items.
  split_and!; [done|..|exact Hi|];
    try (case_bool_decide; members; rewrite Hs by done; assumption).
  case_bool_decide; members; by apply (lifted_instructions "instructions" false).
Qed.

(** ** Which requests are encoded *)
Lemma reads_object_ok input text field target :
  parse_object_document text field target = Some (Ok input) <->
  json_parse text = Doc input /\ is_object input = true.
Proof.
  unfold parse_object_document, parse_json_document.
  destruct (json_parse text) as [v| |]; simpl; [|split; [done|by intros [? _]]..].
  destruct (is_object v) eqn:Ho; split; try (by intros [= <-]); intros [[= <-] ?]; congruence.
Qed.

Lemma object_accepted text field target f :
  reads_object text = true <->
  exists v, map_error f (parse_object_document text field target) = Some (Ok v).
Proof.
  unfold reads_object. split.
  - destruct (json_parse text) as [v| |] eqn:Hp; try done. intros Ho. exists v.
    apply map_error_ok, reads_object_ok. done.
  - intros [v Hv]. apply map_error_ok, reads_object_ok in Hv as [-> Ho]. done.
Qed.

Lemma block_accepted_spec role target c :
  block_accepted role c = true <-> exists j, anthropic_content_block c role target = Some (Ok j).
Proof.
  destruct c as [t|t s|id name input|id out data err|media data]; simpl; try (split; [eauto|done]).
  - unfold tool_input_json. erewrite object_accepted. split.
    + intros [v Hv]. rewrite Hv. simpl. eauto.
    + intros (j & (v & Hv & _)%exc_bind_ok). eauto.
  - destruct (bool_decide (role = role_user)), (valid_image media data); simpl; split; try done; eauto;
      by intros [? [=]].
Qed.

Lemma blocks_accepted_spec role target bs :
  forallb (block_accepted role) bs = true <->
  exists js, exc_map (fun b => anthropic_content_block b role target) bs = Some (Ok js).
Proof.
  induction bs as [|b bs IH]; simpl; [split; eauto|].
  rewrite andb_true_iff, IH, (block_accepted_spec _ target). split.
  - intros [[j Hj] [js Hjs]]. rewrite Hj, Hjs. simpl. eauto.
  - intros [js (j & Hj & (js' & Hjs & _)%exc_bind_ok)%exc_bind_ok]. eauto.
Qed.

Lemma message_accepted_spec target m :
  message_accepted m = true <->
  (if decide (msg_role m = role_system) then is_Some (system_parts "" (msg_blocks m))
   else exists js, (let% j := anthropic_message_json m target in Some (Ok [j])) = Some (Ok js)).
Proof.
  unfold message_accepted. case_decide as Hr; [by rewrite system_parts_ok|].
  rewrite (blocks_accepted_spec _ target). unfold anthropic_message_json.
  rewrite bool_decide_false by done. split.
  - intros [js Hjs]. rewrite Hjs. simpl. eauto.
  - intros [js (j & (js' & Hjs & _)%exc_bind_ok & _)%exc_bind_ok]. eauto.
Qed.

Lemma tools_accepted_spec target ts :
  forallb (fun t => reads_object (td_input_schema_json t)) ts = true <->
  exists tools, Forall2 (plain_tool target) ts tools.
Proof.
  induction ts as [|t ts IH]; simpl; [split; eauto|].
  rewrite andb_true_iff, IH. split.
  - intros [Ho [tools Ht]]. apply (object_accepted _ "tool.input_schema_json" target
      (fun e => Errors.with_ctx e "tool" (td_name t))) in Ho as [v Hv].
    eexists. constructor; [by exists v|done].
  - intros [tools Ht]. inversion Ht as [|? ? ? ? (v & Hv & _) Hr]; subst. split; [|eauto].
    eapply object_accepted. eauto.
Qed.

(** the Anthropic encoder accepts a request exactly when the route names a model,
    the request has a token limit, its system messages hold only text, images are
    valid and sent by the user, and every tool input and tool schema reads as a JSON
    object; nothing else makes it fail. *)
Theorem anthropic_request_accepted request target :
  (exists body, anthropic_body request target = Some (Ok body)) <->
  anthropic_accepted request target = true.
Proof.
  unfold anthropic_accepted. rewrite !andb_true_iff, nonempty_spec, bool_decide_eq_true.
  rewrite (tools_accepted_spec target). split.
  - intros [body Hbody].
    destruct (anthropic_body_inv _ _ _ Hbody) as (Hm & limit & b & ms & tools & Hlim & Hloop & Ht & _).
    rewrite anthropic_loop_lift in Hloop. apply anthropic_tools_ok in Ht.
    assert (Hall : exists r, _ = Some (Ok r)) by (exists (b, ms); exact Hloop).
    apply (lift_loop_total _ _ _ _ (append_anthropic_appends target) _ _ _ _
      (anthropic_prefix_lifted request target limit)) in Hall.
    split_and!; [done|congruence| |eauto].
    apply forallb_forall. intros m Hin. rewrite Forall_forall in Hall.
    apply (message_accepted_spec target), Hall. by apply list_elem_of_In.
  - intros [[[Hm Hlim] Hmsgs] [tools Ht]]. unfold anthropic_body.
    rewrite bool_decide_false by done. destruct (rq_max_tokens request) as [limit|]; [|done].
    apply anthropic_tools_ok in Ht.
    assert (Hall : exists r, anthropic_messages_loop (anthropic_prefix request target limit) []
      (rq_messages request) target = Some (Ok r)).
    { rewrite anthropic_loop_lift.
      apply (lift_loop_total _ _ _ _ (append_anthropic_appends target) _ _ _ _
        (anthropic_prefix_lifted request target limit)).
      rewrite forallb_forall in Hmsgs. apply Forall_forall. intros m Hin.
      apply message_accepted_spec, Hmsgs. by apply list_elem_of_In. }
    destruct Hall as [[b ms] ->]. simpl. rewrite Ht. simpl. eauto.
Qed.

(** What the errors of this layer look like: [config] or [parsing], naming the
    protocol of the target. *)
Definition protocol_failure (target : ModelTarget) (e : Error) : Prop :=
  (err_kind e = ek_config \/ err_kind e = ek_parsing) /\
  Errors.ctx_find e "protocol" = Some (enum_name (mt_protocol target)).

Lemma protocol_failure_with target e k v :
  protocol_failure target e -> protocol_failure target (Errors.with_ctx e k v).
Proof. intros [Hk Hc]. split; [done|]. by rewrite Errors.with_ctx_find, Hc. Qed.
Lemma protocol_error_failure target m : protocol_failure target (protocol_error m target).
Proof. split; [by left|done]. Qed.
Lemma parse_error_failure target m f : protocol_failure target (parse_error m f target).
Proof. split; [by right|done]. Qed.
#[local] Hint Resolve protocol_failure_with protocol_error_failure parse_error_failure : core.

Lemma object_document_failure text field target :
  fails_with (protocol_failure target) (parse_object_document text field target).
Proof.
  unfold parse_object_document, parse_json_document.
  destruct (json_parse text) as [v| |]; simpl; [|by auto|done]. destruct (is_object v); simpl; auto.
Qed.

Lemma tool_input_failure id name input target :
  fails_with (protocol_failure target) (tool_input_json id name input target).
Proof. apply fails_map; [apply object_document_failure|auto]. Qed.
Lemma tool_schema_failure tool target :
  fails_with (protocol_failure target) (tool_schema_json tool target).
Proof. apply fails_map; [apply object_document_failure|auto]. Qed.
#[local] Hint Resolve tool_input_failure tool_schema_failure : core.

Lemma anthropic_block_failure c role target :
  fails_with (protocol_failure target) (anthropic_content_block c role target).
Proof.
  destruct c; simpl; auto.
  - by apply fails_bind.
  - destruct (_ || _); simpl; auto.
Qed.

Lemma openai_item_failure c role target :
  fails_with (protocol_failure target) (openai_input_item c role target).
Proof.
  destruct c; simpl; auto.
  - apply fails_bind; [done|]. intros input. by destruct (json_dump input).
  - destruct (_ || _); simpl; auto.
Qed.

Lemma lift_loop_failure P append encode : (forall b m, fails_with P (append b m)) ->
  (forall m, fails_with P (encode m)) ->
  forall messages body acc, fails_with P (lift_loop append encode body acc messages).
Proof.
  intros Ha He messages. induction messages as [|m messages IH]; intros body acc; simpl; [done|].
  case_decide; apply fails_bind; auto.
Qed.

Lemma anthropic_append_failure b m target :
  fails_with (protocol_failure target) (append_anthropic_system_text b m target).
Proof.
  unfold append_anthropic_system_text. destruct (system_parts _ _) as [s|]; simpl; [|by auto].
  destruct (negb _); simpl; [done|]. by destruct (member b "system") as [[]|].
Qed.
Lemma openai_append_failure b m target :
  fails_with (protocol_failure target) (append_openai_instructions_text b m target).
Proof.
  unfold append_openai_instructions_text. destruct (system_parts _ _) as [s|]; simpl; [|by auto].
  destruct (negb _); simpl; [done|]. by destruct (member b "instructions") as [[]|].
Qed.
#[local] Hint Resolve anthropic_block_failure openai_item_failure anthropic_append_failure
  openai_append_failure : core.

Lemma anthropic_body_failure request target :
  fails_with (protocol_failure target) (anthropic_body request target).
Proof.
  unfold anthropic_body. case_bool_decide; simpl; [by auto|].
  destruct (rq_max_tokens request); simpl; [|by auto]. apply fails_bind.
  - rewrite anthropic_loop_lift. apply lift_loop_failure; [auto|]. intros m.
    apply fails_bind; [|done]. unfold anthropic_message_json.
    apply fails_bind; [by apply fails_exc_map|]. intros js. case_bool_decide; simpl; auto.
  - intros [b ms]. apply fails_bind; [|done]. apply fails_exc_map. intros t. by apply fails_bind.
Qed.

Lemma openai_body_failure request target :
  fails_with (protocol_failure target) (openai_body request target).
Proof.
  unfold openai_body. case_bool_decide; simpl; [by auto|].
  destruct (rq_thinking_budget request); simpl; [by auto|]. apply fails_bind.
  - rewrite openai_loop_lift. apply lift_loop_failure; [auto|]. intros m. by apply fails_exc_map.
  - intros [b ms]. apply fails_bind; [|done]. apply fails_exc_map. intros t. by apply fails_bind.
Qed.

(** whatever the request, an error of the encoders is a configuration or a
    parsing error that names the protocol of the target, so it is never retried. *)
Theorem request_error_kind request target e :
  make_protocol_request request target = Some (Err e) ->
  protocol_failure target e /\ Errors.retryable e = false.
Proof.
  intros He. assert (Hf : protocol_failure target e).
  { enough (Hw : fails_with (protocol_failure target) (make_protocol_request request target))
      by (by rewrite He in Hw).
    unfold make_protocol_request. destruct (mt_protocol target); simpl; auto.
    - apply fails_bind; [apply anthropic_body_failure|]. intros b. unfold write_body. by destruct (json_dump b).
    - apply fails_bind; [apply openai_body_failure|]. intros b. unfold write_body. by destruct (json_dump b). }
  split; [done|]. unfold Errors.retryable. by destruct Hf as [[-> | ->] _].
Qed.
End Proofs.

(** ** A request *)
Module Demo.
Import Sample.
Definition target : ModelTarget :=
  mkTarget "main" "m1" anthropic_messages None None (mkPricing None None None None).
Definition openai_target : ModelTarget :=
  mkTarget "spare" "m2" openai_responses None None (mkPricing None None None None).
Definition messages : list Message :=
  [mkMessage role_system [TextContent "be brief"] None;
   mkMessage role_user [TextContent "hi"] None;
   mkMessage role_assistant [ToolUseContent "t1" "read" (text (JObject [("path"%string, JString "a")]))] None;
   mkMessage role_tool [ToolResultContent "t1" "" (Some "7"%string) true] None].
Definition tools : list ToolDef := [mkToolDef "read" "reads a file" (text (JObject [])) []].
Definition request : Request :=
  mkRequest messages (Some "You help."%string) tools None (Some 100%Z) None true
    (Some (mkCacheHints 255 4096)) (mkRetry 1 0).
Definition encoded (r : Exc ProtocolRequest) : ProtocolRequest :=
  match r with Some (Ok p) => p | _ => mkProtocolRequest "" "" "" end.

Lemma anthropic_request_spec_witness :
  let pr := encoded (make_anthropic_request request target) in
  pr_method pr = "POST"%string /\ pr_path pr = "/v1/messages"%string /\
  exists body limit messages,
    anthropic_body request target = Some (Ok body) /\ json_dump body = Some (pr_body_json pr) /\
    rq_max_tokens request = Some limit /\ mt_model target <> ""%string /\
    member body "model" = Some (JString (mt_model target)) /\
    member body "max_tokens" = Some (JInt limit) /\
    member body "stream" = Some (JBool (rq_stream request)) /\
    member body "messages" = Some (JArray messages) /\
    Forall2 (fun m j => anthropic_message_json m target = Some (Ok j))
      (conversation (rq_messages request)) messages /\
    instructions (member body "system") = joined (sections request).
Proof. apply anthropic_request_spec. vm_compute. reflexivity. Defined.

Lemma cache_marker_placed_witness :
  exists body, anthropic_body request target = Some (Ok body) /\
    cache_markers body = [("system"%string, 0%nat)].
Proof.
  eexists. split; [vm_compute; reflexivity|].
  etransitivity; [apply (cache_marker_placed request target)|]; vm_compute; reflexivity.
Defined.

Lemma openai_request_spec_witness :
  pr_method (encoded (make_openai_responses_request request openai_target)) = "POST"%string.
Proof. apply (openai_request_spec request openai_target). vm_compute. reflexivity. Defined.

Definition unlimited : Request :=
  mkRequest messages None tools None None None true None (mkRetry 1 0).
Lemma request_error_kind_witness :
  let e := protocol_error "anthropic messages requests require max_tokens" target in
  protocol_failure target e /\ Errors.retryable e = false.
Proof. apply (request_error_kind unlimited target). vm_compute. reflexivity. Defined.
End Demo.
