(* ===== verification/ProtocolResponse.v ===== *)
(** * oran-provider: response bodies of the vendor protocols

    Models [src/oran-provider/protocol_response.cpp].  A body is read and checked
    field by field; the first field of the wrong shape ends the decoding with an
    error that names it.  The specification ties the decoder to the encoder of
    [ProtocolRequest]: the blocks of a decoded response can be sent back, and read
    back, unchanged. *)
From S2P Require Import Prelude.
From S2P Require Import Core.
From S2P Require Import Json.
From S2P Require Import OrderedJson.
From S2P Require Import Provider.
From S2P Require Import ProtocolRequest.
Import EnumNames.

(** ** Fields *)
(** The name of a field of an element: [name[index]suffix]. *)
Definition field_at (name : string) (index : nat) (suffix : string) : string :=
  name +:+ "[" +:+ pretty index +:+ "]" +:+ suffix.

Definition required_string (object : json) (key field : string) (target : ModelTarget) : Result string :=
  match member object key with
  | Some (JString s) => Ok s
  | _ => Err (parse_error "provider protocol response field must be a string" field target)
  end.

Definition optional_string (object : json) (key field : string) (target : ModelTarget) : Result string :=
  match member object key with
  | None | Some JNull => Ok ""%string
  | Some (JString s) => Ok s
  | Some _ => Err (parse_error "provider protocol response field must be a string" field target)
  end.

Definition unsigned_integer_value (value : json) (field : string) (target : ModelTarget) : Result Z :=
  match value with
  | JInt z => if (0 <=? z)%Z then Ok z
              else Err (parse_error "provider protocol response field must be a non-negative integer" field target)
  | _ => Err (parse_error "provider protocol response field must be a non-negative integer" field target)
  end.

Definition optional_u64 (object : json) (key field : string) (target : ModelTarget) : Result Z :=
  match member object key with
  | None | Some JNull => Ok 0%Z
  | Some value => unsigned_integer_value value field target
  end.

Definition required_array (object : json) (key field : string) (target : ModelTarget) : Result (list json) :=
  match member object key with
  | Some (JArray l) => Ok l
  | _ => Err (parse_error "provider protocol response field must be an array" field target)
  end.

Definition anthropic_stop_reason (reason : string) : StopReason := default sr_error (parse_enum reason).

(** The empty string stands for a missing one. *)
Definition some_text (s : string) : option string := if nonempty s then Some s else None.

(** ** Usage *)
Definition anthropic_usage (body : json) (target : ModelTarget) : Result Usage :=
  match member body "usage" with
  | None | Some JNull => Ok no_usage
  | Some usage =>
      if negb (is_object usage)
      then Err (parse_error "anthropic usage field must be an object" "usage" target)
      else
        let? input := optional_u64 usage "input_tokens" "usage.input_tokens" target in
        let? output := optional_u64 usage "output_tokens" "usage.output_tokens" target in
        let? cache_creation := optional_u64 usage "cache_creation_input_tokens"
                                 "usage.cache_creation_input_tokens" target in
        let? cache_read := optional_u64 usage "cache_read_input_tokens"
                             "usage.cache_read_input_tokens" target in
        Ok (mkUsage input output cache_creation cache_read None)
  end.

Definition openai_usage (body : json) (target : ModelTarget) : Result Usage :=
  match member body "usage" with
  | None | Some JNull => Ok no_usage
  | Some usage =>
      if negb (is_object usage)
      then Err (parse_error "openai usage field must be an object" "usage" target)
      else
        let? input := optional_u64 usage "input_tokens" "usage.input_tokens" target in
        let? output := optional_u64 usage "output_tokens" "usage.output_tokens" target in
        let? cache_read :=
          match member usage "input_tokens_details" with
          | None | Some JNull => Ok 0%Z
          | Some details =>
              if negb (is_object details)
              then Err (parse_error "openai input token details must be an object"
                          "usage.input_tokens_details" target)
              else optional_u64 details "cached_tokens" "usage.input_tokens_details.cached_tokens" target
          end in
        Ok (mkUsage input output 0 cache_read None)
  end.

Definition openai_status_stop_reason (status : string) (has_tool_use : bool) (body : json) : StopReason :=
  if bool_decide (status = "completed"%string) then (if has_tool_use then tool_use else end_turn)
  else if bool_decide (status = "cancelled"%string) then sr_cancelled
  else if bool_decide (status = "incomplete"%string) then
    match member body "incomplete_details" with
    | Some details =>
        match member details "reason" with
        | Some (JString reason) =>
            if bool_decide (reason = "max_output_tokens"%string) then max_tokens else sr_error
        | _ => sr_error
        end
    | None => sr_error
    end
  else sr_error.

Section Responses.
Context `{JsonLibrary}.

Definition parse_json_object (text field : string) (target : ModelTarget) : Exc json :=
  match json_parse text with
  | Doc parsed =>
      Some (if is_object parsed then Ok parsed
            else Err (parse_error "provider protocol response field must be a JSON object" field target))
  | Malformed what => Some (Err (Errors.with_ctx
      (parse_error "provider protocol response field is not valid JSON" field target) "detail" what))
  | DocThrew => raise
  end.

Definition parse_body_json (text : string) (target : ModelTarget) : Exc json :=
  map_error (fun e => Errors.with_ctx e "scope" "response") (parse_json_object text "body" target).

(** ** Anthropic messages *)
Definition anthropic_content_block (block : json) (index : nat) (target : ModelTarget) : Exc Content :=
  if negb (is_object block) then
    Some (Err (parse_error "anthropic content block must be an object" (field_at "content" index "") target))
  else
    let% type := Some (required_string block "type" (field_at "content" index ".type") target) in
    if bool_decide (type = "text"%string) then
      let% text := Some (required_string block "text" (field_at "content" index ".text") target) in
      Some (Ok (TextContent text))
    else if bool_decide (type = "thinking"%string) then
      let% thinking := Some (required_string block "thinking" (field_at "content" index ".thinking") target) in
      let% signature := Some (optional_string block "signature" (field_at "content" index ".signature") target) in
      Some (Ok (ThinkingContent thinking (some_text signature)))
    else if bool_decide (type = "tool_use"%string) then
      let% id := Some (required_string block "id" (field_at "content" index ".id") target) in
      let% name := Some (required_string block "name" (field_at "content" index ".name") target) in
      match member block "input" with
      | Some input =>
          if is_object input then
            match json_dump input with
            | Some s => Some (Ok (ToolUseContent id name s))
            | None => raise
            end
          else Some (Err (Errors.with_ctx (Errors.with_ctx
                 (parse_error "anthropic tool input must be a JSON object"
                    (field_at "content" index ".input") target) "tool_use_id" id) "tool" name))
      | None => Some (Err (Errors.with_ctx (Errors.with_ctx
                 (parse_error "anthropic tool input must be a JSON object"
                    (field_at "content" index ".input") target) "tool_use_id" id) "tool" name))
      end
    else Some (Err (Errors.with_ctx (parse_error "anthropic content block type is not supported"
           (field_at "content" index ".type") target) "type" type)).

(** The loop over the content, from [index]. *)
Fixpoint anthropic_content (index : nat) (content : list json) (target : ModelTarget) : Exc (list Content) :=
  match content with
  | [] => Some (Ok [])
  | block :: content =>
      let% decoded := anthropic_content_block block index target in
      let% blocks := anthropic_content (S index) content target in
      Some (Ok (decoded :: blocks))
  end.

(** The fields of a body, once it is read. *)
Definition decode_anthropic_body (body : json) (target : ModelTarget) : Exc Response :=
  let% content := Some (required_array body "content" "content" target) in
  let% blocks := anthropic_content 0 content target in
  let% stop_reason := Some (required_string body "stop_reason" "stop_reason" target) in
  let% usage := Some (anthropic_usage body target) in
  let% model := Some (optional_string body "model" "model" target) in
  Some (Ok (mkResponse blocks (anthropic_stop_reason stop_reason) usage (some_text model))).

Definition decode_anthropic_response (body_json : string) (target : ModelTarget) : Exc Response :=
  let% body := parse_body_json body_json target in decode_anthropic_body body target.

(** ** OpenAI responses *)
Fixpoint openai_message_blocks (item_index content_index : nat) (content : list json)
    (blocks : list Content) (target : ModelTarget) : Result (list Content) :=
  match content with
  | [] => Ok blocks
  | block :: content =>
      let at_ := field_at "output" item_index (field_at ".content" content_index "") in
      if negb (is_object block)
      then Err (parse_error "openai message content block must be an object" at_ target)
      else
        let? type := required_string block "type" (at_ +:+ ".type") target in
        if bool_decide (type = "output_text"%string) then
          let? text := required_string block "text" (at_ +:+ ".text") target in
          openai_message_blocks item_index (S content_index) content (blocks ++ [TextContent text]) target
        else Err (Errors.with_ctx (parse_error "openai message content block type is not supported"
                    (at_ +:+ ".type") target) "type" type)
  end.

Definition append_openai_message_content (item : json) (item_index : nat) (blocks : list Content)
    (target : ModelTarget) : Result (list Content) :=
  let? role := optional_string item "role" (field_at "output" item_index ".role") target in
  if nonempty role && negb (bool_decide (role = "assistant"%string))
  then Err (Errors.with_ctx (parse_error "openai response message role is not supported"
              (field_at "output" item_index ".role") target) "role" role)
  else
    let? content := required_array item "content" (field_at "output" item_index ".content") target in
    openai_message_blocks item_index 0 content blocks target.

Fixpoint openai_summary_blocks (item_index index : nat) (summary : list json)
    (blocks : list Content) (target : ModelTarget) : Result (list Content) :=
  match summary with
  | [] => Ok blocks
  | entry :: summary =>
      let at_ := field_at "output" item_index (field_at ".summary" index "") in
      if negb (is_object entry)
      then Err (parse_error "openai reasoning summary entry must be an object" at_ target)
      else
        let? type := required_string entry "type" (at_ +:+ ".type") target in
        if negb (bool_decide (type = "summary_text"%string))
        then openai_summary_blocks item_index (S index) summary blocks target
        else
          let? text := required_string entry "text" (at_ +:+ ".text") target in
          openai_summary_blocks item_index (S index) summary
            (blocks ++ [ThinkingContent text None]) target
  end.

Definition append_openai_reasoning (item : json) (item_index : nat) (blocks : list Content)
    (target : ModelTarget) : Result (list Content) :=
  match member item "summary" with
  | None | Some JNull => Ok blocks
  | Some (JArray summary) => openai_summary_blocks item_index 0 summary blocks target
  | Some _ => Err (parse_error "openai reasoning summary must be an array"
                     (field_at "output" item_index ".summary") target)
  end.

Definition append_openai_function_call (item : json) (item_index : nat) (blocks : list Content)
    (target : ModelTarget) : Exc (list Content) :=
  let% call_id := Some (required_string item "call_id" (field_at "output" item_index ".call_id") target) in
  let% name := Some (required_string item "name" (field_at "output" item_index ".name") target) in
  let% arguments := Some (required_string item "arguments" (field_at "output" item_index ".arguments") target) in
  let% parsed_arguments :=
    map_error (fun e => Errors.with_ctx (Errors.with_ctx e "tool_use_id" call_id) "tool" name)
      (parse_json_object arguments (field_at "output" item_index ".arguments") target) in
  match json_dump parsed_arguments with
  | Some s => Some (Ok (blocks ++ [ToolUseContent call_id name s]))
  | None => raise
  end.

(** The body of the loop over the output, with [has_tool_use]. *)
Definition openai_output_item (item : json) (index : nat) (blocks : list Content) (has_tool_use : bool)
    (target : ModelTarget) : Exc (list Content * bool) :=
  if negb (is_object item) then
    Some (Err (parse_error "openai output item must be an object" (field_at "output" index "") target))
  else
    let% type := Some (required_string item "type" (field_at "output" index ".type") target) in
    if bool_decide (type = "message"%string) then
      let% blocks := Some (append_openai_message_content item index blocks target) in
      Some (Ok (blocks, has_tool_use))
    else if bool_decide (type = "reasoning"%string) then
      let% blocks := Some (append_openai_reasoning item index blocks target) in
      Some (Ok (blocks, has_tool_use))
    else if bool_decide (type = "function_call"%string) then
      let% blocks := append_openai_function_call item index blocks target in
      Some (Ok (blocks, true))
    else Some (Err (Errors.with_ctx (parse_error "openai output item type is not supported"
           (field_at "output" index ".type") target) "type" type)).

Fixpoint openai_output (index : nat) (output : list json) (blocks : list Content) (has_tool_use : bool)
    (target : ModelTarget) : Exc (list Content * bool) :=
  match output with
  | [] => Some (Ok (blocks, has_tool_use))
  | item :: output =>
      let% (blocks, has_tool_use) := openai_output_item item index blocks has_tool_use target in
      openai_output (S index) output blocks has_tool_use target
  end.

Definition decode_openai_body (body : json) (target : ModelTarget) : Exc Response :=
  let% output := Some (required_array body "output" "output" target) in
  let% (blocks, has_tool_use) := openai_output 0 output [] false target in
  let% status := Some (required_string body "status" "status" target) in
  let% usage := Some (openai_usage body target) in
  let% model := Some (optional_string body "model" "model" target) in
  Some (Ok (mkResponse blocks (openai_status_stop_reason status has_tool_use body) usage (some_text model))).

Definition decode_openai_response (body_json : string) (target : ModelTarget) : Exc Response :=
  let% body := parse_body_json body_json target in decode_openai_body body target.

Definition decode_protocol_response (body_json : string) (target : ModelTarget) : Exc Response :=
  match mt_protocol target with
  | anthropic_messages => decode_anthropic_response body_json target
  | openai_responses => decode_openai_response body_json target
  | _ => Some (Err (protocol_error "provider protocol response decoding is not implemented" target))
  end.
End Responses.

(** ** Decoding what the encoder sends *)
Section Replay.
Context `{JsonLibraryLaws}.

(** A block that the encoder and the decoder exchange without loss, for any index. *)
Definition anthropic_stable (c : Content) : Prop :=
  forall target, exists j, ProtocolRequest.anthropic_content_block c role_assistant target = Some (Ok j) /\
    forall index target', anthropic_content_block j index target' = Some (Ok c).

(** The text of an object that was part of a document reads back. *)
Lemma dumped_object_reads body text v s :
  json_parse text = Doc body -> part v body -> is_object v = true -> json_dump v = Some s ->
  json_parse s = Doc v /\ reads_object s = true.
Proof.
  intros Hb Hp Ho Hd. assert (Hs : json_parse s = Doc v).
  { apply parse_dump; [|done]. eapply part_representable; [done|]. by eapply parse_representable. }
  split; [done|]. unfold reads_object. by rewrite Hs.
Qed.

Lemma tool_input_reads id name v s target :
  json_parse s = Doc v -> is_object v = true -> tool_input_json id name s target = Some (Ok v).
Proof. intros Hs Ho. apply map_error_ok, reads_object_ok. done. Qed.

Lemma some_text_id s : match some_text s with Some t => t = s /\ s <> ""%string | None => s = ""%string end.
Proof.
  unfold some_text. destruct (nonempty s) eqn:Hs; [split; [done|by apply nonempty_spec]|].
  unfold nonempty in Hs. by apply negb_false_iff, bool_decide_eq_true in Hs.
Qed.

Lemma required_string_ok object key field target s :
  required_string object key field target = Ok s <-> member object key = Some (JString s).
Proof.
  unfold required_string. destruct (member object key) as [[]|]; split; try done; by intros [= ->].
Qed.

Lemma anthropic_block_stable body text block index target c :
  json_parse text = Doc body -> part block body ->
  anthropic_content_block block index target = Some (Ok c) -> anthropic_stable c.
Proof.
  intros Hb Hp. unfold anthropic_content_block. destruct (is_object block) eqn:Ho; cbn [negb]; [|done].
  intros (type & _ & Hd)%exc_bind_ok.
  case_bool_decide; [|case_bool_decide; [|case_bool_decide; [|done]]].
  - apply exc_bind_ok in Hd as (t & _ & [= <-]). intros target'. eexists. by split.
  - apply exc_bind_ok in Hd as (t & _ & (sig & _ & [= <-])%exc_bind_ok). intros target'. eexists.
    split; [done|]. intros index' target''. pose proof (some_text_id sig) as Hsig.
    destruct (some_text sig) as [s|] eqn:Hs; [|done].
    destruct Hsig as [-> Hne]. unfold anthropic_content_block. simpl.
    by rewrite Hs.
  - apply exc_bind_ok in Hd as (id & _ & (name & _ & Hd)%exc_bind_ok).
    destruct (member block "input") as [v|] eqn:Hv; [|done].
    destruct (is_object v) eqn:Hov; [|done]. destruct (json_dump v) as [s|] eqn:Hs; [|done].
    injection Hd as <-.
    destruct (dumped_object_reads body text v s Hb) as [Hr _]; [|done..|].
    { apply (part_trans _ block); [by eapply member_part; eauto with oran|done]. }
    intros target'. exists (JObject [("type", JString "tool_use"); ("id", JString id);
                         ("name", JString name); ("input", v)]%string).
    split; [simpl; by rewrite (tool_input_reads id name v s)|].
    intros index' target''. unfold anthropic_content_block. simpl. by rewrite Hov, Hs.
Qed.

Lemma anthropic_content_stable body text content : forall index target blocks,
  json_parse text = Doc body -> Forall (fun b => part b body) content ->
  anthropic_content index content target = Some (Ok blocks) -> Forall anthropic_stable blocks.
Proof.
  induction content as [|b content IH]; intros index target blocks Hb Hp; simpl; [by intros [= <-]|].
  intros (c & Hc & (cs & Hcs & [= <-])%exc_bind_ok)%exc_bind_ok.
  inversion Hp as [|? ? Hb1 Hp1]; subst. constructor; [by eapply anthropic_block_stable|by eapply IH].
Qed.

(** The encoder of a message, block by block, and the decoder of a content list. *)
Lemma stable_blocks_replay blocks target : Forall anthropic_stable blocks ->
  exists js, exc_map (fun c => ProtocolRequest.anthropic_content_block c role_assistant target) blocks =
               Some (Ok js) /\
    forall index target', anthropic_content index js target' = Some (Ok blocks).
Proof.
  induction 1 as [|c blocks Hc _ [js [Hjs Hd]]]; [by exists []|].
  destruct (Hc target) as (j & Hj & Hdj). exists (j :: js). simpl. rewrite Hj, Hjs. split; [done|].
  intros index target'. simpl. by rewrite Hdj, Hd.
Qed.

Lemma anthropic_body_parts body_json target r :
  decode_anthropic_response body_json target = Some (Ok r) ->
  exists body content, json_parse body_json = Doc body /\ member body "content" = Some (JArray content) /\
    anthropic_content 0 content target = Some (Ok (rs_blocks r)) /\ decode_anthropic_body body target = Some (Ok r).
Proof.
  intros (body & Hb & Hd)%exc_bind_ok. unfold parse_body_json in Hb. apply map_error_ok in Hb.
  unfold parse_json_object in Hb. destruct (json_parse body_json) as [v| |]; [|done..].
  destruct (is_object v); [injection Hb as ->|done]. exists body.
  pose proof Hd as Hd'. unfold decode_anthropic_body in Hd'.
  apply exc_bind_ok in Hd' as (content & Hm & (blocks & Hc & Hd')%exc_bind_ok).
  unfold required_array in Hm. destruct (member body "content") as [[| | | | |content'|]|]; try done.
  injection Hm as ->. exists content.
  apply exc_bind_ok in Hd' as (? & _ & (? & _ & (? & _ & [= <-])%exc_bind_ok)%exc_bind_ok). done.
Qed.

(** an assistant turn received from the Anthropic protocol can be replayed: its
    blocks are encoded without error, and decoding what is sent gives the same
    blocks, thinking signatures and tool inputs included. *)
Theorem anthropic_turn_replays body_json target r target' :
  decode_anthropic_response body_json target = Some (Ok r) ->
  exists js, exc_map (fun c => ProtocolRequest.anthropic_content_block c role_assistant target')
               (rs_blocks r) = Some (Ok js) /\
    anthropic_content 0 js target' = Some (Ok (rs_blocks r)).
Proof.
  intros Hd. destruct (anthropic_body_parts _ _ _ Hd) as (body & content & Hb & Hm & Hc & _).
  apply (anthropic_content_stable body body_json) in Hc; [|done|].
  - destruct (stable_blocks_replay _ target' Hc) as (js & Hjs & Hdj). by exists js.
  - apply Forall_forall. intros b Hin%list_elem_of_In. eapply member_part; [done|]. eauto with oran.
Qed.

(** What an input item says to the Responses endpoint. *)
Definition openai_says (c : Content) (item : json) : Prop :=
  match c with
  | TextContent t => item = openai_text_message role_assistant t
  | ImageContent _ _ | ToolResultContent _ _ _ _ => False
  | _ => forall index blocks tools target,
      openai_output_item item index blocks tools target = Some (Ok (blocks ++ [c], tools || holds_tool_use c))
  end.
Definition openai_stable (c : Content) : Prop :=
  forall target, exists item, openai_input_item c role_assistant target = Some (Ok item) /\ openai_says c item.

Lemma openai_text_stable t : openai_stable (TextContent t).
Proof. intros target. by eexists. Qed.

Lemma openai_thinking_stable t : openai_stable (ThinkingContent t None).
Proof.
  intros target. eexists. split; [done|]. intros index blocks tools target'.
  unfold openai_output_item. simpl. by rewrite orb_false_r.
Qed.

Lemma openai_tool_stable id name arguments v s :
  json_parse arguments = Doc v -> is_object v = true -> json_dump v = Some s ->
  openai_stable (ToolUseContent id name s).
Proof.
  intros Hp Ho Hs target. assert (Hr : json_parse s = Doc v).
  { apply parse_dump; [|done]. by eapply parse_representable. }
  eexists. split; [simpl; rewrite (tool_input_reads id name v s) by done; simpl; by rewrite Hs|].
  intros index blocks tools target'. unfold openai_output_item. simpl.
  unfold append_openai_function_call. simpl. unfold parse_json_object.
  rewrite Hr, Ho. simpl. by rewrite Hs, orb_true_r.
Qed.

Lemma message_blocks_stable item_index content : forall index blocks target blocks',
  Forall openai_stable blocks ->
  openai_message_blocks item_index index content blocks target = Ok blocks' -> Forall openai_stable blocks'.
Proof.
  induction content as [|b content IH]; intros index blocks target blocks' Hs; simpl; [by intros [= <-]|].
  destruct (is_object b); simpl; [|done]. intros (type & _ & Hd)%result_bind_ok.
  case_bool_decide; [|done]. apply result_bind_ok in Hd as (t & _ & Hd).
  eapply IH; [|exact Hd]. apply Forall_app_2; [done|]. constructor; [apply openai_text_stable|done].
Qed.

Lemma summary_blocks_stable item_index summary : forall index blocks target blocks',
  Forall openai_stable blocks ->
  openai_summary_blocks item_index index summary blocks target = Ok blocks' -> Forall openai_stable blocks'.
Proof.
  induction summary as [|b summary IH]; intros index blocks target blocks' Hs; simpl; [by intros [= <-]|].
  destruct (is_object b); simpl; [|done]. intros (type & _ & Hd)%result_bind_ok.
  case_bool_decide; simpl in Hd; [|by eapply IH].
  apply result_bind_ok in Hd as (t & _ & Hd). eapply IH; [|exact Hd].
  apply Forall_app_2; [done|]. constructor; [apply openai_thinking_stable|done].
Qed.

Lemma openai_item_stable item index blocks tools target blocks' tools' :
  Forall openai_stable blocks ->
  openai_output_item item index blocks tools target = Some (Ok (blocks', tools')) ->
  Forall openai_stable blocks'.
Proof.
  intros Hs. unfold openai_output_item. destruct (is_object item); cbn [negb]; [|done].
  intros (type & _ & Hd)%exc_bind_ok. case_bool_decide; [|case_bool_decide; [|case_bool_decide; [|done]]];
    apply exc_bind_ok in Hd as (b & Hb & [= <- <-]).
  - injection Hb as Hb. unfold append_openai_message_content in Hb.
    apply result_bind_ok in Hb as (role & _ & Hb). destruct (_ && _); [done|].
    apply result_bind_ok in Hb as (content & _ & Hb). by eapply message_blocks_stable.
  - injection Hb as Hb. unfold append_openai_reasoning in Hb.
    destruct (member item "summary") as [[| | | | |summary|]|]; simplify_eq/=; try done.
    by eapply summary_blocks_stable.
  - unfold append_openai_function_call in Hb.
    apply exc_bind_ok in Hb as (id & _ & (name & _ & (args & _ & Hb)%exc_bind_ok)%exc_bind_ok).
    apply exc_bind_ok in Hb as (v & Hv & Hb). apply map_error_ok in Hv. unfold parse_json_object in Hv.
    destruct (json_parse args) as [v'| |] eqn:Hp; [|done..].
    destruct (is_object v') eqn:Ho; [injection Hv as ->|done].
    destruct (json_dump v) as [s|] eqn:Hsd; [injection Hb as <-|done].
    apply Forall_app_2; [done|]. constructor; [by eapply openai_tool_stable|done].
Qed.

Lemma openai_output_stable output : forall index blocks tools target blocks' tools',
  Forall openai_stable blocks ->
  openai_output index output blocks tools target = Some (Ok (blocks', tools')) -> Forall openai_stable blocks'.
Proof.
  induction output as [|item output IH]; intros index blocks tools target blocks' tools' Hs; simpl;
    [by intros [= <- <-]|].
  intros ([b t] & Hb & Hd)%exc_bind_ok. eapply IH; [|exact Hd]. by eapply openai_item_stable.
Qed.

Lemma openai_body_parts body_json target r :
  decode_openai_response body_json target = Some (Ok r) ->
  exists body output has_tool_use status, json_parse body_json = Doc body /\
    decode_openai_body body target = Some (Ok r) /\
    openai_output 0 output [] false target = Some (Ok (rs_blocks r, has_tool_use)) /\
    member body "status" = Some (JString status) /\
    rs_stop_reason r = openai_status_stop_reason status has_tool_use body.
Proof.
  intros (body & Hb & Hd)%exc_bind_ok. unfold parse_body_json in Hb. apply map_error_ok in Hb.
  unfold parse_json_object in Hb. destruct (json_parse body_json) as [v| |]; [|done..].
  destruct (is_object v); [injection Hb as ->|done].
  pose proof Hd as Hd'. unfold decode_openai_body in Hd'.
  apply exc_bind_ok in Hd' as (output & _ & ([blocks tools] & Ho & Hd')%exc_bind_ok).
  apply exc_bind_ok in Hd' as (status & Hst & (? & _ & (? & _ & [= <-])%exc_bind_ok)%exc_bind_ok).
  injection Hst as Hst. apply required_string_ok in Hst. by exists body, output, tools, status.
Qed.

(** an assistant turn received from the Responses protocol can be replayed: every
    block is encoded without error; reasoning and tool calls decode to the same block,
    and text is sent as the assistant's. *)
Theorem openai_turn_replays body_json target r target' :
  decode_openai_response body_json target = Some (Ok r) ->
  exists items, exc_map (fun c => openai_input_item c role_assistant target') (rs_blocks r) =
                  Some (Ok items) /\ Forall2 openai_says (rs_blocks r) items.
Proof.
  intros Hd. destruct (openai_body_parts _ _ _ Hd) as (_ & output & tools & _ & _ & _ & Ho & _).
  apply openai_output_stable in Ho; [|done]. clear Hd. induction Ho as [|c blocks Hc _ [items [Hi Hsays]]];
    [by exists []|].
  destruct (Hc target') as (item & Hitem & Hsay). exists (item :: items). simpl. rewrite Hitem, Hi. simpl.
  split; [done|by constructor].
Qed.

(** ** Well-formed responses *)
(** A block that an endpoint may answer with. *)
Definition block_wf (c : Content) : Prop :=
  match c with
  | TextContent _ => True
  | ThinkingContent _ signature => signature <> Some ""%string
  | ToolUseContent _ _ input => reads_object input = true
  | ToolResultContent _ _ _ _ | ImageContent _ _ => False
  end.

Definition usage_wf (u : Usage) : Prop :=
  fits_u 64 (us_input_tokens u) /\ fits_u 64 (us_output_tokens u) /\
  fits_u 64 (us_cache_creation_tokens u) /\ fits_u 64 (us_cache_read_tokens u) /\
  us_cost_estimate u = None.

Definition response_wf (r : Response) : Prop :=
  Forall block_wf (rs_blocks r) /\ usage_wf (rs_usage r) /\ rs_model_used r <> Some ""%string.

Lemma tool_input_wf id name s target v : tool_input_json id name s target = Some (Ok v) -> reads_object s = true.
Proof.
  intros Hv. apply map_error_ok, reads_object_ok in Hv as [Hp Ho]. unfold reads_object. by rewrite Hp.
Qed.

Lemma anthropic_stable_wf c : anthropic_stable c -> block_wf c.
Proof.
  intros Hc. destruct (Hc (mkTarget "" "" anthropic_messages None None (mkPricing None None None None)))
    as (j & Hj & Hd). specialize (Hd 0 (mkTarget "" "" anthropic_messages None None (mkPricing None None None None))).
  destruct c as [t|t s|id name input|id out data err|media data]; simpl in *; [done|..].
  - intros ->. injection Hj as <-. unfold anthropic_content_block in Hd. by simpl in Hd.
  - apply exc_bind_ok in Hj as (v & Hv & _). by eapply tool_input_wf.
  - injection Hj as <-. destruct err; unfold anthropic_content_block in Hd; by simpl in Hd.
  - done.
Qed.

Lemma openai_stable_wf c : openai_stable c -> block_wf c.
Proof.
  intros Hc. destruct (Hc (mkTarget "" "" openai_responses None None (mkPricing None None None None)))
    as (j & Hj & Hd).
  destruct c as [t|t s|id name input|id out data err|media data]; simpl in *; try done.
  - intros ->. injection Hj as <-. specialize (Hd 0 [] false
      (mkTarget "" "" openai_responses None None (mkPricing None None None None))).
    unfold openai_output_item in Hd. by simpl in Hd.
  - apply exc_bind_ok in Hj as (v & Hv & _). by eapply tool_input_wf.
Qed.

Lemma some_text_nonempty s : some_text s <> Some ""%string.
Proof. pose proof (some_text_id s). destruct (some_text s); [|done]. destruct_and!. congruence. Qed.

(** A count read from an object of a document fits its type. *)
Lemma optional_u64_range object key field target n :
  representable object = true -> optional_u64 object key field target = Ok n -> fits_u 64 n.
Proof.
  intros Hr. unfold optional_u64. destruct (member object key) as [v|] eqn:Hm; [|intros [= <-]; by split].
  pose proof (representable_member _ _ _ Hr Hm) as Hv. unfold unsigned_integer_value.
  destruct v as [|b|z| | | |]; try done; [intros [= <-]; by split|].
  simpl in Hv. destruct (0 <=? z)%Z eqn:Hz; [intros [= <-]|done]. bool_prop. split; lia.
Qed.

Lemma anthropic_usage_range body target u :
  representable body = true -> anthropic_usage body target = Ok u -> usage_wf u.
Proof.
  intros Hr. unfold anthropic_usage. destruct (member body "usage") as [v|] eqn:Hm; [|intros [= <-]; done].
  pose proof (representable_member _ _ _ Hr Hm) as Hv.
  destruct v; simpl; try done; [intros [= <-]; done|]. intros Hu. ok_inv. subst u.
  split_and!; simpl; eauto using optional_u64_range.
Qed.

Lemma openai_usage_range body target u :
  representable body = true -> openai_usage body target = Ok u -> usage_wf u.
Proof.
  intros Hr. unfold openai_usage. destruct (member body "usage") as [v|] eqn:Hm; [|intros [= <-]; done].
  pose proof (representable_member _ _ _ Hr Hm) as Hv.
  destruct v; simpl; try done; [intros [= <-]; done|]. intros Hu. ok_inv. subst u.
  split_and!; simpl; eauto using optional_u64_range; [done|].
  destruct (assoc "input_tokens_details" m) as [d|] eqn:Hd; [|injection H3 as <-; by split].
  pose proof (representable_member (JObject m) _ _ Hv Hd) as Hrd.
  destruct d; try discriminate; [injection H3 as <-; by split|eapply optional_u64_range; [exact Hrd|exact H3]].
Qed.

(** a decoded response is well formed, whatever the endpoint sent: its blocks are
    text, thinking or tool calls, a tool call's input reads as a JSON object, token
    counts fit 64 bits, and an empty signature or model name is never reported. *)
Theorem decoded_response_wf body_json target r :
  decode_protocol_response body_json target = Some (Ok r) -> response_wf r.
Proof.
  unfold decode_protocol_response. destruct (mt_protocol target); try done; intros Hd.
  - destruct (anthropic_body_parts _ _ _ Hd) as (body & content & Hb & Hm & Hc & Hbody).
    split.
    + eapply Forall_impl; [|apply anthropic_stable_wf]. eapply anthropic_content_stable; [done| |done].
      apply Forall_forall. intros b Hin%list_elem_of_In. eapply member_part; [done|]. eauto with oran.
    + unfold decode_anthropic_body in Hbody.
      apply exc_bind_ok in Hbody as (? & _ & (? & _ & (? & _ & Hrest)%exc_bind_ok)%exc_bind_ok).
      apply exc_bind_ok in Hrest as (u & Hu & (m & _ & [= <-])%exc_bind_ok). injection Hu as Hu.
      split; [eapply anthropic_usage_range; [|done]; by eapply parse_representable|apply some_text_nonempty].
  - destruct (openai_body_parts _ _ _ Hd) as (body & output & tools & status & Hb & Hbody & Ho & _).
    split.
    + eapply Forall_impl; [|apply openai_stable_wf]. by eapply openai_output_stable.
    + unfold decode_openai_body in Hbody.
      apply exc_bind_ok in Hbody as (? & _ & ([? ?] & _ & (? & _ & Hrest)%exc_bind_ok)%exc_bind_ok).
      apply exc_bind_ok in Hrest as (u & Hu & (m & _ & [= <-])%exc_bind_ok). injection Hu as Hu.
      split; [eapply openai_usage_range; [|done]; by eapply parse_representable|apply some_text_nonempty].
Qed.

(** ** Stop reasons *)
Lemma message_blocks_tools item_index content : forall index blocks target blocks',
  openai_message_blocks item_index index content blocks target = Ok blocks' ->
  existsb holds_tool_use blocks' = existsb holds_tool_use blocks.
Proof.
  induction content as [|b content IH]; intros index blocks target blocks'; simpl; [by intros [= <-]|].
  destruct (is_object b); simpl; [|done]. intros (type & _ & Hd)%result_bind_ok.
  case_bool_decide; [|done]. apply result_bind_ok in Hd as (t & _ & Hd).
  rewrite (IH _ _ _ _ Hd), existsb_app. simpl. by rewrite orb_false_r.
Qed.

Lemma summary_blocks_tools item_index summary : forall index blocks target blocks',
  openai_summary_blocks item_index index summary blocks target = Ok blocks' ->
  existsb holds_tool_use blocks' = existsb holds_tool_use blocks.
Proof.
  induction summary as [|b summary IH]; intros index blocks target blocks'; simpl; [by intros [= <-]|].
  destruct (is_object b); simpl; [|done]. intros (type & _ & Hd)%result_bind_ok.
  case_bool_decide; simpl in Hd; [|by eapply IH].
  apply result_bind_ok in Hd as (t & _ & Hd). rewrite (IH _ _ _ _ Hd), existsb_app. simpl.
  by rewrite orb_false_r.
Qed.

Lemma openai_item_tools item index blocks tools target blocks' tools' :
  tools = existsb holds_tool_use blocks ->
  openai_output_item item index blocks tools target = Some (Ok (blocks', tools')) ->
  tools' = existsb holds_tool_use blocks'.
Proof.
  intros Ht. unfold openai_output_item. destruct (is_object item); cbn [negb]; [|done].
  intros (type & _ & Hd)%exc_bind_ok. case_bool_decide; [|case_bool_decide; [|case_bool_decide; [|done]]];
    apply exc_bind_ok in Hd as (b & Hb & [= <- <-]).
  - injection Hb as Hb. unfold append_openai_message_content in Hb.
    apply result_bind_ok in Hb as (role & _ & Hb). destruct (_ && _); [done|].
    apply result_bind_ok in Hb as (content & _ & Hb). by rewrite (message_blocks_tools _ _ _ _ _ _ Hb).
  - injection Hb as Hb. unfold append_openai_reasoning in Hb.
    destruct (member item "summary") as [[| | | | |summary|]|]; simplify_eq/=; try done.
    by rewrite (summary_blocks_tools _ _ _ _ _ _ Hb).
  - unfold append_openai_function_call in Hb.
    apply exc_bind_ok in Hb as (id & _ & (name & _ & (args & _ & (v & _ & Hb)%exc_bind_ok)%exc_bind_ok)%exc_bind_ok).
    destruct (json_dump v) as [s|]; [injection Hb as <-|done]. by rewrite existsb_app, orb_comm.
Qed.

Lemma openai_output_tools output : forall index blocks tools target blocks' tools',
  tools = existsb holds_tool_use blocks ->
  openai_output index output blocks tools target = Some (Ok (blocks', tools')) ->
  tools' = existsb holds_tool_use blocks'.
Proof.
  induction output as [|item output IH]; intros index blocks tools target blocks' tools' Hs; simpl;
    [by intros [= <- <-]|].
  intros ([b t] & Hb & Hd)%exc_bind_ok. eapply IH; [|exact Hd]. by eapply openai_item_tools.
Qed.

(** the Responses protocol has no stop reason, so it is derived: the turn stops
    for its tools exactly when the status is completed and the response holds a tool
    call, it ends normally exactly when it is completed without one, and every other
    status is a cancellation, a token limit or an error. *)
Theorem openai_stop_reason_spec body_json target r :
  decode_openai_response body_json target = Some (Ok r) ->
  exists body status, json_parse body_json = Doc body /\ member body "status" = Some (JString status) /\
    (rs_stop_reason r = tool_use <->
       status = "completed"%string /\ existsb holds_tool_use (rs_blocks r) = true) /\
    (rs_stop_reason r = end_turn <->
       status = "completed"%string /\ existsb holds_tool_use (rs_blocks r) = false) /\
    (rs_stop_reason r = sr_cancelled <-> status = "cancelled"%string) /\
    (rs_stop_reason r = max_tokens -> status = "incomplete"%string) /\
    rs_stop_reason r <> stop_sequence.
Proof.
  intros Hd. destruct (openai_body_parts _ _ _ Hd) as (body & output & tools & status & Hb & _ & Ho & Hst & ->).
  apply openai_output_tools in Ho; [|done]. exists body, status. split_and!; [done..| | | | |];
    unfold openai_status_stop_reason; rewrite <- ?Ho;
    repeat (case_bool_decide || case_match); simplify_eq; try done; try naive_solver.
Qed.

(** ** Failures *)
#[local] Hint Resolve protocol_failure_with protocol_error_failure parse_error_failure : core.
#[local] Hint Extern 1 (fails_with _ (exc_bind _ _)) => apply fails_bind : core.
Section Failures.
Context (target : ModelTarget).
#[local] Abbreviation ok_or_failure x := (fails_with (protocol_failure target) x).

Lemma required_string_failure o k f : ok_or_failure (Some (required_string o k f target)).
Proof. unfold required_string. destruct (member o k) as [[]|]; simpl; auto. Qed.
Lemma optional_string_failure o k f : ok_or_failure (Some (optional_string o k f target)).
Proof. unfold optional_string. destruct (member o k) as [[]|]; simpl; auto. Qed.
Lemma required_array_failure o k f : ok_or_failure (Some (required_array o k f target)).
Proof. unfold required_array. destruct (member o k) as [[]|]; simpl; auto. Qed.
Lemma optional_u64_failure o k f : ok_or_failure (Some (optional_u64 o k f target)).
Proof.
  unfold optional_u64, unsigned_integer_value.
  destruct (member o k) as [[]|]; simpl; auto. destruct (_ <=? _)%Z; simpl; auto.
Qed.
Lemma bind_failure {A B} (r : Result A) (f : A -> Result B) :
  ok_or_failure (Some r) -> (forall a, ok_or_failure (Some (f a))) -> ok_or_failure (Some (result_bind r f)).
Proof. intros Hr Hf. destruct r; [apply Hf|exact Hr]. Qed.
#[local] Hint Resolve required_string_failure optional_string_failure required_array_failure
  optional_u64_failure bind_failure : core.

Lemma object_failure text field : ok_or_failure (parse_json_object text field target).
Proof. unfold parse_json_object. destruct (json_parse text) as [v| |]; simpl; auto.
  destruct (is_object v); simpl; auto. Qed.
Lemma body_failure text : ok_or_failure (parse_body_json text target).
Proof. apply fails_map; [apply object_failure|auto]. Qed.
#[local] Hint Resolve object_failure body_failure : core.

Lemma anthropic_usage_failure body : ok_or_failure (Some (anthropic_usage body target)).
Proof.
  unfold anthropic_usage. destruct (member body "usage") as [[]|]; simpl; auto.
  repeat (apply bind_failure; [auto|intros]). done.
Qed.
Lemma openai_usage_failure body : ok_or_failure (Some (openai_usage body target)).
Proof.
  unfold openai_usage. destruct (member body "usage") as [u|]; [|done].
  assert (Hu : ok_or_failure (Some (if negb (is_object u)
    then Err (parse_error "openai usage field must be an object" "usage" target)
    else
        let? input := optional_u64 u "input_tokens" "usage.input_tokens" target in
        let? output := optional_u64 u "output_tokens" "usage.output_tokens" target in
        let? cache_read :=
          match member u "input_tokens_details" with
          | None | Some JNull => Ok 0%Z
          | Some details =>
              if negb (is_object details)
              then Err (parse_error "openai input token details must be an object"
                          "usage.input_tokens_details" target)
              else optional_u64 details "cached_tokens" "usage.input_tokens_details.cached_tokens" target
          end in
        Ok (mkUsage input output 0 cache_read None)))).
  { destruct (negb (is_object u)); simpl; [by auto|].
    apply bind_failure; [auto|intros input]. apply bind_failure; [auto|intros output].
    apply bind_failure; [|done]. destruct (member u "input_tokens_details") as [[]|];
      cbn [negb is_object]; auto; simpl; auto. }
  by destruct u.
Qed.

Lemma anthropic_block_decode_failure b i : ok_or_failure (anthropic_content_block b i target).
Proof.
  unfold anthropic_content_block. destruct (negb (is_object b)); [by simpl; auto|].
  apply fails_bind; [auto|intros type]. repeat case_bool_decide.
  - apply fails_bind; [auto|done].
  - apply fails_bind; [auto|intros t]. apply fails_bind; [auto|done].
  - apply fails_bind; [auto|intros id]. apply fails_bind; [auto|intros name].
    destruct (member b "input") as [v|]; [|by simpl; auto].
    destruct (is_object v); [by destruct (json_dump v)|by simpl; auto].
  - simpl. auto.
Qed.
Lemma anthropic_content_failure l : forall i, ok_or_failure (anthropic_content i l target).
Proof.
  induction l as [|b l IH]; intros i; cbn [anthropic_content]; [done|].
  apply fails_bind; [apply anthropic_block_decode_failure|intros c]. by apply fails_bind.
Qed.
Lemma message_blocks_failure k l : forall i bs, ok_or_failure (Some (openai_message_blocks k i l bs target)).
Proof.
  induction l as [|b l IH]; intros i bs; cbn [openai_message_blocks openai_summary_blocks]; [done|].
  destruct (is_object b); cbn [negb]; [|by simpl; auto].
  apply bind_failure; [auto|intros type]. case_bool_decide; cbn [negb]; [by apply bind_failure; [auto|]|first [apply IH|by simpl; auto]].
Qed.
Lemma summary_blocks_failure k l : forall i bs, ok_or_failure (Some (openai_summary_blocks k i l bs target)).
Proof.
  induction l as [|b l IH]; intros i bs; cbn [openai_message_blocks openai_summary_blocks]; [done|].
  destruct (is_object b); cbn [negb]; [|by simpl; auto].
  apply bind_failure; [auto|intros type]. case_bool_decide; cbn [negb]; [by apply bind_failure; [auto|]|first [apply IH|by simpl; auto]].
Qed.
Lemma output_item_failure item i bs t : ok_or_failure (openai_output_item item i bs t target).
Proof.
  unfold openai_output_item. destruct (is_object item); cbn [negb]; [|by simpl; auto].
  apply fails_bind; [auto|intros type]. repeat case_bool_decide; [apply fails_bind; [|done]..|simpl; auto].
  - unfold append_openai_message_content. apply bind_failure; [auto|intros role].
    destruct (_ && _); [by simpl; auto|]. apply bind_failure; [auto|intros]. apply message_blocks_failure.
  - unfold append_openai_reasoning. destruct (member item "summary") as [[]|]; auto using summary_blocks_failure; simpl; auto.
  - unfold append_openai_function_call. apply fails_bind; [auto|intros id].
    apply fails_bind; [auto|intros name]. apply fails_bind; [auto|intros args].
    apply fails_bind; [apply fails_map; auto|]. intros v. by destruct (json_dump v).
Qed.
Lemma output_failure l : forall i bs t, ok_or_failure (openai_output i l bs t target).
Proof.
  induction l as [|b l IH]; intros i bs t; cbn [openai_output]; [done|].
  apply fails_bind; [apply output_item_failure|]. by intros [? ?].
Qed.
End Failures.

(** whatever the bytes of a body, an error of the decoders is a configuration or a
    parsing error that names the protocol of the target, so it is never retried. *)
Theorem response_error_kind body_json target e :
  decode_protocol_response body_json target = Some (Err e) ->
  protocol_failure target e /\ Errors.retryable e = false.
Proof.
  intros He. assert (Hf : protocol_failure target e).
  { enough (Hw : fails_with (protocol_failure target) (decode_protocol_response body_json target))
      by (by rewrite He in Hw).
    unfold decode_protocol_response. destruct (mt_protocol target); simpl; auto.
    - apply fails_bind; [apply body_failure|intros b]. unfold decode_anthropic_body.
      repeat (apply fails_bind; [auto using required_array_failure, required_string_failure,
        optional_string_failure, anthropic_content_failure, anthropic_usage_failure|intros]). done.
    - apply fails_bind; [apply body_failure|intros b]. unfold decode_openai_body.
      apply fails_bind; [apply required_array_failure|intros l].
      apply fails_bind; [apply output_failure|intros [bs t]].
      repeat (apply fails_bind; [auto using required_string_failure, optional_string_failure,
        openai_usage_failure|intros]). done. }
  split; [done|]. unfold Errors.retryable. by destruct Hf as [[-> | ->] _].
Qed.
End Replay.

(** ** Two responses *)
Module Demo.
Import Sample ProtocolRequest.Demo.
Definition answer : json := JObject [
  ("content", JArray [
     JObject [("type", JString "thinking"); ("thinking", JString "hm"); ("signature", JString "s")];
     JObject [("type", JString "tool_use"); ("id", JString "t1"); ("name", JString "read");
              ("input", JObject [("path", JString "a")])]]);
  ("stop_reason", JString "tool_use");
  ("usage", JObject [("input_tokens", JInt 12); ("output_tokens", JInt 3)]);
  ("model", JString "m1")]%string.
Definition openai_answer : json := JObject [
  ("output", JArray [
     JObject [("type", JString "reasoning");
              ("summary", JArray [JObject [("type", JString "summary_text"); ("text", JString "hm")]])];
     JObject [("type", JString "message");
              ("content", JArray [JObject [("type", JString "output_text"); ("text", JString "hi")]])];
     JObject [("type", JString "function_call"); ("call_id", JString "t1"); ("name", JString "read");
              ("arguments", JString "{}")]]);
  ("status", JString "completed")]%string.
Definition decoded (r : Exc Response) : Response :=
  match r with Some (Ok r) => r | _ => mkResponse [] sr_error no_usage None end.

Lemma anthropic_turn_replays_witness :
  exists js, exc_map (fun c => ProtocolRequest.anthropic_content_block c role_assistant target)
               (rs_blocks (decoded (decode_anthropic_response (text answer) target))) = Some (Ok js) /\
    anthropic_content 0 js target =
      Some (Ok (rs_blocks (decoded (decode_anthropic_response (text answer) target)))).
Proof. apply (anthropic_turn_replays (text answer) target). vm_compute. reflexivity. Defined.

Lemma openai_turn_replays_witness :
  exists items, exc_map (fun c => openai_input_item c role_assistant openai_target)
      (rs_blocks (decoded (decode_openai_response (text openai_answer) openai_target))) = Some (Ok items) /\
    Forall2 openai_says (rs_blocks (decoded (decode_openai_response (text openai_answer) openai_target))) items.
Proof. apply (openai_turn_replays (text openai_answer) openai_target). vm_compute. reflexivity. Defined.

Lemma decoded_response_wf_witness :
  response_wf (decoded (decode_protocol_response (text answer) target)).
Proof. apply (decoded_response_wf (text answer) target). vm_compute. reflexivity. Defined.

Lemma openai_stop_reason_spec_witness :
  exists body status, json_parse (text openai_answer) = Doc body /\ member body "status" = Some (JString status) /\
    (rs_stop_reason (decoded (decode_openai_response (text openai_answer) openai_target)) = tool_use <->
       status = "completed"%string /\ existsb holds_tool_use
         (rs_blocks (decoded (decode_openai_response (text openai_answer) openai_target))) = true).
Proof.
  destruct (openai_stop_reason_spec (text openai_answer) openai_target
    (decoded (decode_openai_response (text openai_answer) openai_target))) as (b & s & H1 & H2 & H3 & _);
    [vm_compute; reflexivity|].
  exists b, s. split; [exact H1|split; [exact H2|exact H3]].
Defined.

Lemma response_error_kind_witness :
  let e := Errors.with_ctx (Errors.with_ctx (parse_error
    "provider protocol response field is not valid JSON" "body" target) "detail" "digit") "scope" "response" in
  protocol_failure target e /\ Errors.retryable e = false.
Proof. apply (response_error_kind "x" target). vm_compute. reflexivity. Defined.
End Demo.
