(* ===== verification/SseDecoders.v ===== *)
(** * oran-provider: incremental decoders of streamed responses

    Models [src/oran-provider/_impl/anthropic_sse_decoder.cpp] and
    [openai_responses_sse_decoder.cpp].  A decoder is a state that consumes one
    event at a time and reports deltas to the sink; the calls on the sink are kept
    in order.  [consume] gives nothing when an exception leaves it.  The Anthropic
    decoder is shown to assemble what the body decoder makes of the equivalent body;
    the Responses decoder, to depend on the terminal event alone. *)
From S2P Require Import Prelude.
From S2P Require Import Core.
From S2P Require Import Json.
From S2P Require Import OrderedJson.
From S2P Require Import Provider.
From S2P Require Import ProtocolRequest.
From S2P Require Import ProtocolResponse.
Import EnumNames.

(** The calls on [EventSink]. *)
Inductive SinkCall :=
  | on_text_delta (delta : string)
  | on_thinking_delta (delta : string)
  | on_tool_start (id name : string)
  | on_tool_delta (id delta : string)
  | on_done (reason : StopReason).
#[export] Instance SinkCall_eq_dec : EqDecision SinkCall.
Proof. solve_decision. Defined.

(** An event of the stream: its name and its data. *)
Definition StreamEvent : Type := string * string.

Definition u64_or_zero (object : json) (key : string) : Z :=
  match member object key with
  | Some (JInt z) => if (0 <=? z)%Z then z else 0
  | _ => 0
  end.

(** [member] when it is an object. *)
Definition object_member (object : json) (key : string) : option json :=
  match member object key with
  | Some (JObject m) => Some (JObject m)
  | _ => None
  end.

Definition of_protocol (e : Error) (target : ModelTarget) : Error :=
  Errors.with_ctx e "protocol" (enum_name (mt_protocol target)).

Section Run.
Context {D : Type} (consume : D -> StreamEvent -> option D).
(** The events of a stream, in order. *)
Fixpoint run_events (d : D) (events : list StreamEvent) : option D :=
  match events with
  | [] => Some d
  | e :: events => match consume d e with Some d => run_events d events | None => None end
  end.

Lemma run_events_app d es1 es2 :
  run_events d (es1 ++ es2) = match run_events d es1 with Some d' => run_events d' es2 | None => None end.
Proof. revert d. induction es1 as [|e es1 IH]; intros d; simpl; [done|]. by destruct (consume d e). Qed.
End Run.

(** ** Anthropic messages *)
Module Anthropic.

Inductive Kind := none | text | thinking | tool_use_block.
#[export] Instance Kind_eq_dec : EqDecision Kind.
Proof. solve_decision. Defined.

Record OpenBlock := mkOpen {
  ob_kind : Kind; ob_text : string; ob_signature : option string;
  ob_tool_id : string; ob_tool_name : string; ob_tool_input : string }.
Definition closed : OpenBlock := mkOpen none "" None "" "" "".

Record Decoder := mkDecoder {
  ad_blocks : list Content; ad_open : OpenBlock; ad_usage : Usage; ad_stop_reason : StopReason;
  ad_model : option string; ad_error : option Error; ad_saw_message_stop : bool;
  ad_calls : list SinkCall }.
Definition start : Decoder := mkDecoder [] closed no_usage end_turn None None false [].

Definition set_open (d : Decoder) (o : OpenBlock) : Decoder :=
  mkDecoder (ad_blocks d) o (ad_usage d) (ad_stop_reason d) (ad_model d) (ad_error d)
    (ad_saw_message_stop d) (ad_calls d).
Definition push_block (d : Decoder) (c : Content) : Decoder :=
  mkDecoder (ad_blocks d ++ [c]) closed (ad_usage d) (ad_stop_reason d) (ad_model d) (ad_error d)
    (ad_saw_message_stop d) (ad_calls d).

Section Decode.
Context `{JsonLibrary} (target : ModelTarget) (has_sink : bool).

Definition fail (d : Decoder) (e : Error) : Decoder :=
  match ad_error d with
  | Some _ => d
  | None => mkDecoder (ad_blocks d) (ad_open d) (ad_usage d) (ad_stop_reason d) (ad_model d) (Some e)
              (ad_saw_message_stop d) (ad_calls d)
  end.

(** [if (sink_ != nullptr) sink_->...]. *)
Definition call (d : Decoder) (c : SinkCall) : Decoder :=
  if has_sink
  then mkDecoder (ad_blocks d) (ad_open d) (ad_usage d) (ad_stop_reason d) (ad_model d) (ad_error d)
         (ad_saw_message_stop d) (ad_calls d ++ [c])
  else d.

Definition finalize_open_block (d : Decoder) : option Decoder :=
  let o := ad_open d in
  match ob_kind o with
  | text => Some (push_block d (TextContent (ob_text o)))
  | thinking => Some (push_block d (ThinkingContent (ob_text o) (ob_signature o)))
  | tool_use_block =>
      let input_text := if nonempty (ob_tool_input o) then ob_tool_input o else "{}"%string in
      match json_parse input_text with
      | Malformed what => Some (fail d (Errors.with_ctx (Errors.with_ctx (Errors.with_ctx
          (of_protocol (Errors.parsing "anthropic tool input json is malformed") target)
          "tool_use_id" (ob_tool_id o)) "tool" (ob_tool_name o)) "detail" what))
      | DocThrew => None
      | Doc input =>
          if is_object input then
            match json_dump input with
            | Some s => Some (push_block d (ToolUseContent (ob_tool_id o) (ob_tool_name o) s))
            | None => None
            end
          else Some (fail d (Errors.with_ctx (Errors.with_ctx
            (of_protocol (Errors.parsing "anthropic tool input must be a JSON object") target)
            "tool_use_id" (ob_tool_id o)) "tool" (ob_tool_name o)))
      end
  | none => Some (set_open d closed)
  end.

Definition message_start (d : Decoder) (payload : json) : Decoder :=
  match object_member payload "message" with
  | None => d
  | Some message =>
      let model := string_or_empty message "model" in
      let usage := match object_member message "usage" with
        | Some u => mkUsage (u64_or_zero u "input_tokens") (u64_or_zero u "output_tokens")
            (u64_or_zero u "cache_creation_input_tokens") (u64_or_zero u "cache_read_input_tokens")
            (us_cost_estimate (ad_usage d))
        | None => ad_usage d
        end in
      mkDecoder (ad_blocks d) (ad_open d) usage (ad_stop_reason d)
        (if nonempty model then Some model else ad_model d) (ad_error d) (ad_saw_message_stop d) (ad_calls d)
  end.

Definition content_block_start (d : Decoder) (payload : json) : Decoder :=
  if negb (bool_decide (ob_kind (ad_open d) = none)) then
    fail d (of_protocol (Errors.parsing
      "anthropic content block started before the previous block stopped") target)
  else
    match object_member payload "content_block" with
    | None => fail d (of_protocol (Errors.parsing
        "anthropic content_block_start is missing content_block") target)
    | Some block =>
        let type := string_or_empty block "type" in
        if bool_decide (type = "text"%string) then set_open d (mkOpen text "" None "" "" "")
        else if bool_decide (type = "thinking"%string) then set_open d (mkOpen thinking "" None "" "" "")
        else if bool_decide (type = "tool_use"%string) then
          let id := string_or_empty block "id" in
          let name := string_or_empty block "name" in
          call (set_open d (mkOpen tool_use_block "" None id name "")) (on_tool_start id name)
        else fail (set_open d closed) (Errors.with_ctx (of_protocol (Errors.parsing
               "anthropic content block type is not supported") target) "type" type)
    end.

Definition content_block_delta (d : Decoder) (payload : json) : Decoder :=
  let o := ad_open d in
  if bool_decide (ob_kind o = none) then
    fail d (of_protocol (Errors.parsing "anthropic content block delta has no open block") target)
  else
    match object_member payload "delta" with
    | None => fail d (of_protocol (Errors.parsing
        "anthropic content_block_delta is missing delta") target)
    | Some delta =>
        let type := string_or_empty delta "type" in
        if bool_decide (type = "text_delta"%string) then
          let t := string_or_empty delta "text" in
          call (set_open d (mkOpen (ob_kind o) (ob_text o +:+ t) (ob_signature o) (ob_tool_id o)
                  (ob_tool_name o) (ob_tool_input o)))
            (if bool_decide (ob_kind o = thinking) then on_thinking_delta t else on_text_delta t)
        else if bool_decide (type = "thinking_delta"%string) then
          let t := string_or_empty delta "thinking" in
          call (set_open d (mkOpen (ob_kind o) (ob_text o +:+ t) (ob_signature o) (ob_tool_id o)
                  (ob_tool_name o) (ob_tool_input o))) (on_thinking_delta t)
        else if bool_decide (type = "signature_delta"%string) then
          set_open d (mkOpen (ob_kind o) (ob_text o)
            (Some (default ""%string (ob_signature o) +:+ string_or_empty delta "signature"))
            (ob_tool_id o) (ob_tool_name o) (ob_tool_input o))
        else if bool_decide (type = "input_json_delta"%string) then
          let partial := string_or_empty delta "partial_json" in
          call (set_open d (mkOpen (ob_kind o) (ob_text o) (ob_signature o) (ob_tool_id o)
                  (ob_tool_name o) (ob_tool_input o +:+ partial))) (on_tool_delta (ob_tool_id o) partial)
        else d
    end.

Definition content_block_stop (d : Decoder) : option Decoder :=
  if bool_decide (ob_kind (ad_open d) = none)
  then Some (fail d (of_protocol (Errors.parsing "anthropic content block stop has no open block") target))
  else finalize_open_block d.

Definition message_delta (d : Decoder) (payload : json) : Decoder :=
  let reason := match object_member payload "delta" with
                | Some delta => string_or_empty delta "stop_reason"
                | None => ""%string
                end in
  let usage := ad_usage d in
  let usage := match object_member payload "usage" with
               | Some u => mkUsage (us_input_tokens usage) (u64_or_zero u "output_tokens")
                   (us_cache_creation_tokens usage) (us_cache_read_tokens usage) (us_cost_estimate usage)
               | None => usage
               end in
  mkDecoder (ad_blocks d) (ad_open d) usage
    (if nonempty reason then anthropic_stop_reason reason else ad_stop_reason d)
    (ad_model d) (ad_error d) (ad_saw_message_stop d) (ad_calls d).

Definition message_stop (d : Decoder) : Decoder :=
  if negb (bool_decide (ob_kind (ad_open d) = none)) then
    fail d (of_protocol (Errors.parsing
      "anthropic message stopped before the content block completed") target)
  else
    call (mkDecoder (ad_blocks d) (ad_open d) (ad_usage d) (ad_stop_reason d) (ad_model d) (ad_error d)
            true (ad_calls d)) (on_done (ad_stop_reason d)).

Definition error_event (d : Decoder) (payload : json) : Decoder :=
  let field k := match member payload "error" with
                 | Some e => string_or_empty e k
                 | None => ""%string
                 end in
  fail d (Errors.with_ctx (Errors.with_ctx
    (of_protocol (Errors.upstream "anthropic stream returned an error event") target)
    "error_type" (field "type"%string)) "error_message" (field "message"%string)).

(** The dispatch on the event's name, once the payload is an object. *)
Definition on_payload (d : Decoder) (event : string) (payload : json) : option Decoder :=
  if bool_decide (event = "message_start"%string) then Some (message_start d payload)
  else if bool_decide (event = "content_block_start"%string) then Some (content_block_start d payload)
  else if bool_decide (event = "content_block_delta"%string) then Some (content_block_delta d payload)
  else if bool_decide (event = "content_block_stop"%string) then content_block_stop d
  else if bool_decide (event = "message_delta"%string) then Some (message_delta d payload)
  else if bool_decide (event = "message_stop"%string) then Some (message_stop d)
  else if bool_decide (event = "error"%string) then Some (error_event d payload)
  else Some d.

Definition consume (d : Decoder) (e : StreamEvent) : option Decoder :=
  let '(event, data) := e in
  match ad_error d with
  | Some _ => Some d
  | None =>
      if bool_decide (event = "ping"%string) then Some d
      else
        match json_parse data with
        | Malformed what => Some (fail d (Errors.with_ctx (Errors.with_ctx
            (of_protocol (Errors.parsing "anthropic stream event is not valid JSON") target)
            "event" event) "detail" what))
        | DocThrew => None
        | Doc payload =>
            if is_object payload then on_payload d event payload
            else Some (fail d (Errors.with_ctx
              (of_protocol (Errors.parsing "anthropic stream event must be a JSON object") target)
              "event" event))
        end
  end.

Definition result (d : Decoder) : Result Response :=
  match ad_error d with
  | Some e => Err e
  | None =>
      if ad_saw_message_stop d
      then Ok (mkResponse (ad_blocks d) (ad_stop_reason d) (ad_usage d) (ad_model d))
      else Err (of_protocol (Errors.parsing "anthropic stream ended before message_stop") target)
  end.
End Decode.
End Anthropic.

(** ** OpenAI responses *)
Module OpenAi.

Record FunctionCallState := mkCall {
  fc_item_id : string; fc_call_id : string; fc_name : string; fc_arguments : string; fc_started : bool }.
Definition no_call : FunctionCallState := mkCall "" "" "" "" false.

Record OpenAiDecoder := mkDecoder {
  od_error : option Error; od_final_response_json : option string;
  od_function_calls : gmap string FunctionCallState; od_calls : list SinkCall }.
Definition openai_start : OpenAiDecoder := mkDecoder None None ∅ [].

Definition failed_response_error (response : json) (target : ModelTarget) : Error :=
  let field k := match object_member response "error" with
                 | Some e => string_or_empty e k
                 | None => ""%string
                 end in
  let classified := if bool_decide (field "code"%string = "rate_limit_exceeded"%string)
                    then Errors.rate_limit "openai responses stream failed"
                    else Errors.upstream "openai responses stream failed" in
  Errors.with_ctx (Errors.with_ctx (of_protocol classified target)
    "error_code" (field "code"%string)) "error_message" (field "message"%string).

Section Decode.
Context `{JsonLibrary} (target : ModelTarget) (has_sink : bool).

Definition openai_fail (d : OpenAiDecoder) (e : Error) : OpenAiDecoder :=
  match od_error d with
  | Some _ => d
  | None => mkDecoder (Some e) (od_final_response_json d) (od_function_calls d) (od_calls d)
  end.

Definition openai_call (d : OpenAiDecoder) (c : SinkCall) : OpenAiDecoder :=
  if has_sink then mkDecoder (od_error d) (od_final_response_json d) (od_function_calls d) (od_calls d ++ [c])
  else d.

Definition set_call (d : OpenAiDecoder) (item_id : string) (s : FunctionCallState) : OpenAiDecoder :=
  mkDecoder (od_error d) (od_final_response_json d) (<[item_id := s]> (od_function_calls d)) (od_calls d).

(** [function_calls_[item_id]]: a new state when there is none. *)
Definition call_state (d : OpenAiDecoder) (item_id : string) : FunctionCallState :=
  default no_call (od_function_calls d !! item_id).

(** The id under which the sink knows a call. *)
Definition call_key (s : FunctionCallState) : string :=
  if nonempty (fc_call_id s) then fc_call_id s else fc_item_id s.

(** Store [s], then announce it once it has a name. *)
Definition maybe_start_tool (d : OpenAiDecoder) (item_id : string) (s : FunctionCallState) : OpenAiDecoder :=
  if negb has_sink || negb (nonempty (fc_name s)) || fc_started s then set_call d item_id s
  else openai_call (set_call d item_id (mkCall (fc_item_id s) (fc_call_id s) (fc_name s) (fc_arguments s) true))
         (on_tool_start (call_key s) (fc_name s)).

Definition output_item_added (d : OpenAiDecoder) (payload : json) : OpenAiDecoder :=
  match object_member payload "item" with
  | None => d
  | Some item =>
      if negb (bool_decide (string_or_empty item "type" = "function_call"%string)) then d
      else
        let item_id := string_or_empty item "id" in
        if negb (nonempty item_id) then d
        else
          let state := call_state d item_id in
          let arguments := string_or_empty item "arguments" in
          maybe_start_tool d item_id
            (mkCall item_id (string_or_empty item "call_id") (string_or_empty item "name")
               (if nonempty arguments then arguments else fc_arguments state) (fc_started state))
  end.

Definition arguments_delta (d : OpenAiDecoder) (payload : json) : OpenAiDecoder :=
  let item_id := string_or_empty payload "item_id" in
  let delta := string_or_empty payload "delta" in
  if negb (nonempty item_id) then d
  else
    let state := call_state d item_id in
    let state := mkCall item_id (fc_call_id state) (fc_name state) (fc_arguments state +:+ delta)
                   (fc_started state) in
    openai_call (set_call d item_id state) (on_tool_delta (call_key state) delta).

Definition arguments_done (d : OpenAiDecoder) (payload : json) : OpenAiDecoder :=
  let item_id := string_or_empty payload "item_id" in
  if negb (nonempty item_id) then d
  else
    let state := call_state d item_id in
    maybe_start_tool d item_id
      (mkCall item_id (fc_call_id state) (string_or_empty payload "name")
         (string_or_empty payload "arguments") (fc_started state)).

Definition terminal_event (d : OpenAiDecoder) (event : string) (payload : json) : option OpenAiDecoder :=
  match object_member payload "response" with
  | None => Some (openai_fail d (Errors.with_ctx (of_protocol (Errors.parsing
      "openai responses terminal stream event is missing response") target) "event" event))
  | Some response =>
      if bool_decide (event = "response.failed"%string)
      then Some (openai_fail d (failed_response_error response target))
      else
        match json_dump response with
        | Some s => Some (mkDecoder (od_error d) (Some s) (od_function_calls d) (od_calls d))
        | None => None
        end
  end.

Definition openai_error_event (d : OpenAiDecoder) (payload : json) : OpenAiDecoder :=
  openai_fail d (Errors.with_ctx (Errors.with_ctx
    (of_protocol (Errors.upstream "openai responses stream returned an error event") target)
    "error_code" (string_or_empty payload "code")) "error_message" (string_or_empty payload "message")).

Definition terminal_name (event : string) : bool :=
  bool_decide (event ∈ ["response.completed"; "response.incomplete"; "response.failed"]%string).

Definition openai_on_payload (d : OpenAiDecoder) (event : string) (payload : json) : option OpenAiDecoder :=
  if bool_decide (event = "response.output_item.added"%string) then Some (output_item_added d payload)
  else if bool_decide (event = "response.output_text.delta"%string) then
    Some (openai_call d (on_text_delta (string_or_empty payload "delta")))
  else if bool_decide (event ∈ ["response.reasoning_summary_text.delta"; "response.reasoning_text.delta"]%string)
  then Some (openai_call d (on_thinking_delta (string_or_empty payload "delta")))
  else if bool_decide (event = "response.function_call_arguments.delta"%string) then
    Some (arguments_delta d payload)
  else if bool_decide (event = "response.function_call_arguments.done"%string) then
    Some (arguments_done d payload)
  else if terminal_name event then terminal_event d event payload
  else if bool_decide (event = "error"%string) then Some (openai_error_event d payload)
  else Some d.

Definition openai_consume (d : OpenAiDecoder) (e : StreamEvent) : option OpenAiDecoder :=
  let '(event, data) := e in
  match od_error d with
  | Some _ => Some d
  | None =>
      match json_parse data with
      | Malformed what => Some (openai_fail d (Errors.with_ctx (Errors.with_ctx
          (of_protocol (Errors.parsing "openai responses stream event is not valid JSON") target)
          "event" event) "detail" what))
      | DocThrew => None
      | Doc payload =>
          if is_object payload then openai_on_payload d event payload
          else Some (openai_fail d (Errors.with_ctx
            (of_protocol (Errors.parsing "openai responses stream event must be a JSON object") target)
            "event" event))
      end
  end.

(** The result, and the calls on the sink it makes. *)
Definition openai_result (d : OpenAiDecoder) : Exc Response * list SinkCall :=
  match od_error d with
  | Some e => (Some (Err e), [])
  | None =>
      match od_final_response_json d with
      | None => (Some (Err (of_protocol (Errors.parsing
          "openai responses stream ended before terminal response event") target)), [])
      | Some final =>
          let decoded := decode_protocol_response final target in
          (decoded, match decoded with
                    | Some (Ok r) => if has_sink then [on_done (rs_stop_reason r)] else []
                    | _ => []
                    end)
      end
  end.
End Decode.
End OpenAi.

(** ** A response as a body and as a stream *)
Module Streaming.
Import Anthropic.

(** A content block, with the pieces in which it is streamed. *)
Inductive Streamed :=
  | streamed_text (parts : list string)
  | streamed_thinking (parts signature : list string)
  | streamed_tool (id name : string) (parts : list string) (input : json).

Record Message := mkMessage {
  sm_blocks : list Streamed; sm_model : string; sm_stop_reason : string;
  sm_input_tokens : Z; sm_output_tokens : Z; sm_cache_creation : Z; sm_cache_read : Z }.

Definition joined_parts (parts : list string) : string := fold_right String.append ""%string parts.

(** What is asked of a payload, which may have any other members. *)
Definition text_at (o : json) (key text : string) : Prop := member o key = Some (JString text).
Definition count_at (o : json) (key : string) (n : Z) : Prop :=
  member o key = Some (JInt n) \/ (member o key = None /\ n = 0%Z).
Definition absent_or (o : json) (key : string) (initial : json) : Prop :=
  member o key = None \/ member o key = Some initial.
Definition object_at (o : json) (key : string) (P : json -> Prop) : Prop :=
  exists members, member o key = Some (JObject members) /\ P (JObject members).

(** A body that gives the message. *)
Definition body_block (b : Streamed) (block : json) : Prop :=
  is_object block = true /\
  match b with
  | streamed_text parts => text_at block "type" "text" /\ text_at block "text" (joined_parts parts)
  | streamed_thinking parts signature =>
      text_at block "type" "thinking" /\ text_at block "thinking" (joined_parts parts) /\
      match signature with
      | [] => member block "signature" = None
      | _ => text_at block "signature" (joined_parts signature)
      end
  | streamed_tool id name _ input =>
      text_at block "type" "tool_use" /\ text_at block "id" id /\ text_at block "name" name /\
      member block "input" = Some input
  end.
Definition body_gives (m : Message) (body : json) : Prop :=
  text_at body "model" (sm_model m) /\ text_at body "stop_reason" (sm_stop_reason m) /\
  (exists blocks, member body "content" = Some (JArray blocks) /\ Forall2 body_block (sm_blocks m) blocks) /\
  object_at body "usage" (fun usage =>
    count_at usage "input_tokens" (sm_input_tokens m) /\ count_at usage "output_tokens" (sm_output_tokens m) /\
    count_at usage "cache_creation_input_tokens" (sm_cache_creation m) /\
    count_at usage "cache_read_input_tokens" (sm_cache_read m)).

(** The events of the stream that gives it: their names and what their payloads say. A
    block starts out empty and is filled by its deltas. *)
Definition EventSpec : Type := string * (json -> Prop).
Definition delta (type key part : string) : EventSpec :=
  ("content_block_delta"%string,
   fun p => object_at p "delta" (fun d => text_at d "type" type /\ text_at d key part)).
Definition block_start (b : Streamed) (p : json) : Prop :=
  object_at p "content_block" (fun block =>
    match b with
    | streamed_text _ => text_at block "type" "text" /\ absent_or block "text" (JString "")
    | streamed_thinking _ _ => text_at block "type" "thinking" /\ absent_or block "thinking" (JString "")
    | streamed_tool id name _ _ =>
        text_at block "type" "tool_use" /\ text_at block "id" id /\ text_at block "name" name /\
        absent_or block "input" (JObject [])
    end).
Definition block_deltas (b : Streamed) : list EventSpec :=
  match b with
  | streamed_text parts => map (delta "text_delta" "text") parts
  | streamed_thinking parts signature =>
      map (delta "thinking_delta" "thinking") parts ++ map (delta "signature_delta" "signature") signature
  | streamed_tool _ _ parts _ => map (delta "input_json_delta" "partial_json") parts
  end.
Definition block_events (b : Streamed) : list EventSpec :=
  [("content_block_start"%string, block_start b)] ++ block_deltas b ++
  [("content_block_stop"%string, fun _ => True)].
Definition message_start_says (m : Message) (p : json) : Prop :=
  object_at p "message" (fun message => text_at message "model" (sm_model m) /\
    object_at message "usage" (fun usage =>
      count_at usage "input_tokens" (sm_input_tokens m) /\
      count_at usage "cache_creation_input_tokens" (sm_cache_creation m) /\
      count_at usage "cache_read_input_tokens" (sm_cache_read m))).
Definition message_delta_says (m : Message) (p : json) : Prop :=
  object_at p "delta" (fun d => text_at d "stop_reason" (sm_stop_reason m)) /\
  object_at p "usage" (fun usage => count_at usage "output_tokens" (sm_output_tokens m)).
Definition stream_events (m : Message) : list EventSpec :=
  [("message_start"%string, message_start_says m)] ++ concat (map block_events (sm_blocks m)) ++
  [("message_delta"%string, message_delta_says m); ("message_stop"%string, fun _ => True)].
Definition meets (e : string * json) (spec : EventSpec) : Prop :=
  fst e = fst spec /\ is_object (snd e) = true /\ snd spec (snd e).

(** What the sink is told. *)
Definition block_calls (b : Streamed) : list SinkCall :=
  match b with
  | streamed_text parts => map on_text_delta parts
  | streamed_thinking parts _ => map on_thinking_delta parts
  | streamed_tool id name parts _ => on_tool_start id name :: map (on_tool_delta id) parts
  end.
Definition stream_calls (m : Message) : list SinkCall :=
  concat (map block_calls (sm_blocks m)) ++ [on_done (anthropic_stop_reason (sm_stop_reason m))].

Section Ok.
Context `{JsonLibrary}.
(** The pieces of a tool input are those of its text, and a signature has one. *)
Definition block_ok (b : Streamed) : Prop :=
  match b with
  | streamed_text _ => True
  | streamed_thinking _ signature => signature <> [] -> joined_parts signature <> ""%string
  | streamed_tool _ _ parts input =>
      json_parse (if nonempty (joined_parts parts) then joined_parts parts else "{}"%string) = Doc input /\
      is_object input = true /\ is_Some (json_dump input)
  end.
Definition message_ok (m : Message) : Prop :=
  Forall block_ok (sm_blocks m) /\ sm_stop_reason m <> ""%string /\
  (0 <= sm_input_tokens m)%Z /\ (0 <= sm_output_tokens m)%Z /\
  (0 <= sm_cache_creation m)%Z /\ (0 <= sm_cache_read m)%Z.

(** Events that say nothing: pings, and events of an unknown name. *)
Definition known_names : list string :=
  ["message_start"; "content_block_start"; "content_block_delta"; "content_block_stop"; "message_delta";
   "message_stop"; "error"]%string.
Definition silent (e : StreamEvent) : bool :=
  bool_decide (fst e = "ping"%string) || (negb (bool_decide (fst e ∈ known_names)) && reads_object (snd e)).

(** Parsed events, and a stream that gives [m], with silent events anywhere. *)
Definition parses (e : StreamEvent) (p : string * json) : Prop := fst e = fst p /\ json_parse (snd e) = Doc (snd p).
Definition carries (m : Message) (stream : list StreamEvent) : Prop :=
  exists events, Forall2 parses (filter (fun e => silent e = false) stream) events /\
    Forall2 meets events (stream_events m).
End Ok.

(** ** The decoder on such a stream *)
Section Proofs.
Context `{JsonLibrary} (target : ModelTarget) (has_sink : bool).
#[local] Abbreviation consume := (Anthropic.consume target has_sink).
#[local] Abbreviation run := (run_events consume).

Lemma silent_consume d e : silent e = true -> consume d e = Some d.
Proof.
  destruct e as [event data]. unfold silent, Anthropic.consume. simpl. intros Hs.
  destruct (ad_error d); [done|]. case_bool_decide; [done|]. simpl in Hs. bool_prop.
  unfold reads_object in *. destruct (json_parse data) as [v| |]; try done.
  destruct (is_object v); [|done]. unfold Anthropic.on_payload.
  rewrite !bool_decide_false by (unfold known_names in *; set_solver). done.
Qed.

Lemma run_silent stream : forall d, run d stream = run d (filter (fun e => silent e = false) stream).
Proof.
  induction stream as [|e stream IH]; intros d; [done|]. rewrite filter_cons.
  destruct (silent e) eqn:Hs.
  - rewrite decide_False by done. simpl. rewrite silent_consume by done. apply IH.
  - rewrite decide_True by done. simpl. destruct (consume d e); [apply IH|done].
Qed.

(** The payloads, one after the other. *)
Fixpoint run_payloads (d : Decoder) (events : list (string * json)) : option Decoder :=
  match events with
  | [] => Some d
  | (event, payload) :: events =>
      match ad_error d with
      | Some _ => run_payloads d events
      | None => match Anthropic.on_payload target has_sink d event payload with
                | Some d => run_payloads d events
                | None => None
                end
      end
  end.

Lemma run_payloads_app es1 : forall d es2,
  run_payloads d (es1 ++ es2) =
    match run_payloads d es1 with Some d' => run_payloads d' es2 | None => None end.
Proof.
  induction es1 as [|[e p] es1 IH]; intros d es2; simpl; [done|].
  destruct (ad_error d); [apply IH|]. by destruct (Anthropic.on_payload target has_sink d e p).
Qed.

Lemma run_parsed stream events : forall d,
  Forall2 parses stream events ->
  Forall (fun p => fst p <> "ping"%string /\ is_object (snd p) = true) events ->
  run d stream = run_payloads d events.
Proof.
  intros d Hs. revert d. induction Hs as [|[e data] [e' p] stream events [He Hp] _ IH]; intros d Ho; [done|].
  inversion Ho as [|? ? [Hping Hobj] Ho']; subst. simpl in *. subst e'.
  destruct (ad_error d); [by apply IH|]. rewrite bool_decide_false, Hp, Hobj by done.
  destruct (Anthropic.on_payload target has_sink d e p); [by apply IH|done].
Qed.

(** What the readers find in such payloads. *)
Lemma text_read o key t : text_at o key t -> string_or_empty o key = t.
Proof. unfold text_at, string_or_empty. by intros ->. Qed.
Lemma count_read o key n : count_at o key n -> (0 <= n)%Z -> u64_or_zero o key = n.
Proof. unfold u64_or_zero. intros [->|[-> ->]] Hn; [|done]. apply Z.leb_le in Hn. by rewrite Hn. Qed.
Lemma object_read o key P : object_at o key P -> exists x, object_member o key = Some x /\ P x.
Proof. intros (members & Hm & HP). exists (JObject members). unfold object_member. by rewrite Hm. Qed.
Lemma text_required o key t field : text_at o key t -> required_string o key field target = Ok t.
Proof. unfold text_at, required_string. by intros ->. Qed.
Lemma text_optional o key t field : text_at o key t -> optional_string o key field target = Ok t.
Proof. unfold text_at, optional_string. by intros ->. Qed.
Lemma count_optional o key n field : count_at o key n -> (0 <= n)%Z -> optional_u64 o key field target = Ok n.
Proof.
  unfold optional_u64, unsigned_integer_value. intros [->|[-> ->]] Hn; [|done]. apply Z.leb_le in Hn. by rewrite Hn.
Qed.

(** The log when there is a sink. *)
Definition told (calls : list SinkCall) : list SinkCall := if has_sink then calls else [].

(** An idle decoder: no error and no open block. *)
Definition idle (blocks : list Content) (usage : Usage) (model : option string) (calls : list SinkCall) : Decoder :=
  mkDecoder blocks closed usage end_turn model None false (told calls).
Definition within (d : Decoder) (o : OpenBlock) (calls : list SinkCall) : Decoder :=
  mkDecoder (ad_blocks d) o (ad_usage d) (ad_stop_reason d) (ad_model d) (ad_error d)
    (ad_saw_message_stop d) (ad_calls d ++ told calls).

Lemma call_within d o calls c : call has_sink (within d o calls) c = within d o (calls ++ [c]).
Proof. unfold call, within, told. destruct has_sink; simpl; [by rewrite (assoc_L (++))|done]. Qed.

Lemma set_open_within d o : set_open d o = within d o [].
Proof. unfold set_open, within, told. destruct has_sink; by rewrite app_nil_r. Qed.
Lemma within_error d o calls : ad_error (within d o calls) = ad_error d. Proof. done. Qed.
Lemma set_open_again d o calls o' : set_open (within d o calls) o' = within d o' calls. Proof. done. Qed.

#[local] Abbreviation kind_text k t sig := (mkOpen k t sig "" "" "").

(** One delta of an open block, and the deltas of one kind. *)
Lemma delta_run d event payload type key part : ad_error d = None -> ob_kind (ad_open d) <> none ->
  meets (event, payload) (delta type key part) ->
  exists x, text_at x "type" type /\ text_at x key part /\ object_member payload "delta" = Some x /\
    Anthropic.on_payload target has_sink d event payload = Some (content_block_delta target has_sink d payload).
Proof.
  intros He Ho ([= ->] & _ & Hp). apply object_read in Hp as (x & Hx & Ht & Hk). exists x. by split_and!.
Qed.

Lemma deltas_run {S} type key (open : S -> OpenBlock) (tell : string -> list SinkCall) (acc : S -> string -> S) :
  (forall t d calls payload x part, object_member payload "delta" = Some x -> text_at x "type" type -> text_at x key part ->
     content_block_delta target has_sink (within d (open t) calls) payload =
       within d (open (acc t part)) (calls ++ tell part)) ->
  (forall t, ob_kind (open t) <> none) ->
  forall parts events d t calls, ad_error d = None -> Forall2 meets events (map (delta type key) parts) ->
  run_payloads (within d (open t) calls) events =
    Some (within d (open (fold_left acc parts t)) (calls ++ concat (map tell parts))).
Proof.
  intros Hstep Hopen parts. induction parts as [|part parts IH]; intros events d t calls He Hm; simpl in Hm.
  { apply Forall2_nil_inv_r in Hm as ->. simpl. by rewrite app_nil_r. }
  apply Forall2_cons_inv_r in Hm as ([event payload] & events' & Hmeets & Hm & ->). cbn [run_payloads]. rewrite within_error, He.
  destruct (delta_run (within d (open t) calls) event payload type key part) as (x & Ht & Hk & Hx & ->); [done|apply Hopen|done|].
  rewrite (Hstep t d calls payload x part Hx Ht Hk). rewrite (IH events' d _ _ He Hm). simpl. by rewrite <- (assoc_L (++)).
Qed.

Lemma fold_append parts : forall t, fold_left String.append parts t = (t +:+ joined_parts parts)%string.
Proof.
  induction parts as [|p parts IH]; intros t; simpl; [by rewrite append_empty|]. by rewrite IH, append_assoc.
Qed.
Lemma concat_singletons {A B} (f : A -> B) l : concat (map (fun x => [f x]) l) = map f l.
Proof. induction l as [|x l IH]; simpl; [done|]. by rewrite IH. Qed.

#[local] Ltac delta_step := unfold content_block_delta; simpl;
  repeat match goal with
  | H : object_member _ "delta" = _ |- _ => rewrite H; clear H
  | H : text_at _ _ _ |- _ => apply text_read in H; rewrite H; clear H
  end; simpl; rewrite ?set_open_again, ?call_within.

Lemma text_deltas parts events d : ad_error d = None -> Forall2 meets events (map (delta "text_delta" "text") parts) ->
  run_payloads (within d (kind_text text "" None) []) events =
    Some (within d (kind_text text (joined_parts parts) None) (map on_text_delta parts)).
Proof.
  intros He Hm. rewrite (deltas_run "text_delta" "text" (fun t => kind_text text t None) (fun p => [on_text_delta p]) String.append) with (parts := parts); [|..|done|done].
  - by rewrite fold_append, concat_singletons.
  - intros t d' calls payload x part Hx Ht Hk. by delta_step.
  - done.
Qed.

Lemma thinking_deltas parts events d : ad_error d = None -> Forall2 meets events (map (delta "thinking_delta" "thinking") parts) ->
  run_payloads (within d (kind_text thinking "" None) []) events =
    Some (within d (kind_text thinking (joined_parts parts) None) (map on_thinking_delta parts)).
Proof.
  intros He Hm. rewrite (deltas_run "thinking_delta" "thinking" (fun t => kind_text thinking t None) (fun p => [on_thinking_delta p]) String.append) with (parts := parts); [|..|done|done].
  - by rewrite fold_append, concat_singletons.
  - intros t d' calls payload x part Hx Ht Hk. by delta_step.
  - done.
Qed.
Lemma signature_deltas t parts events d calls : ad_error d = None ->
  Forall2 meets events (map (delta "signature_delta" "signature") parts) ->
  run_payloads (within d (kind_text thinking t None) calls) events =
    Some (within d (kind_text thinking t (match parts with [] => None | _ => Some (joined_parts parts) end)) calls).
Proof.
  intros He Hm.
  rewrite (deltas_run "signature_delta" "signature" (fun sig => kind_text thinking t sig) (fun _ => [])
    (fun sig p => Some (default ""%string sig +:+ p))) with (parts := parts); [|..|done|done].
  - assert (Hnil : concat (map (fun _ : string => @nil SinkCall) parts) = []) by (clear; by induction parts).
    rewrite Hnil, app_nil_r. do 3 f_equal. assert (Hf : forall ps sig,
      fold_left (fun sig p => Some (default ""%string sig +:+ p)) ps (Some sig) = Some (sig +:+ joined_parts ps)).
    { induction ps as [|p ps IH]; intros sig; simpl; [by rewrite append_empty|]. by rewrite IH, append_assoc. }
    destruct parts as [|p ps]; simpl; [done|]. by rewrite Hf.
  - intros sig d' calls' payload x part Hx Ht Hk. rewrite app_nil_r. by delta_step.
  - done.
Qed.

Lemma input_deltas id name parts events d calls : ad_error d = None ->
  Forall2 meets events (map (delta "input_json_delta" "partial_json") parts) ->
  run_payloads (within d (mkOpen tool_use_block "" None id name "") calls) events =
    Some (within d (mkOpen tool_use_block "" None id name (joined_parts parts)) (calls ++ map (on_tool_delta id) parts)).
Proof.
  intros He Hm. rewrite (deltas_run "input_json_delta" "partial_json" (fun t => mkOpen tool_use_block "" None id name t)
    (fun p => [on_tool_delta id p]) String.append) with (parts := parts); [|..|done|done].
  - by rewrite fold_append, concat_singletons.
  - intros t d' calls' payload x part Hx Ht Hk. by delta_step.
  - done.
Qed.

(** A block opens empty, whatever its first payload holds besides, and its deltas fill it. *)
Definition opened_block (b : Streamed) : OpenBlock :=
  match b with
  | streamed_text parts => kind_text text (joined_parts parts) None
  | streamed_thinking parts signature =>
      kind_text thinking (joined_parts parts) (match signature with [] => None | _ => Some (joined_parts signature) end)
  | streamed_tool id name parts _ => mkOpen tool_use_block "" None id name (joined_parts parts)
  end.

Lemma block_fills d b events : ad_error d = None -> ob_kind (ad_open d) = none ->
  Forall2 meets events ([("content_block_start"%string, block_start b)] ++ block_deltas b) ->
  run_payloads d events = Some (within d (opened_block b) (block_calls b)).
Proof.
  intros He Ho Hm. apply Forall2_cons_inv_r in Hm as ([event payload] & rest & ([= ->] & _ & Hp) & Hm & ->).
  cbn [fst snd] in Hp. apply object_read in Hp as (block & Hblock & Hp). cbn [run_payloads]. rewrite He. unfold Anthropic.on_payload. simpl.
  unfold content_block_start. rewrite bool_decide_true by done. simpl. rewrite Hblock.
  destruct b as [parts|parts sig|id name parts input]; cbn [block_deltas] in Hm.
  - destruct Hp as [Ht _]. rewrite (text_read _ _ _ Ht). simpl. rewrite set_open_within. by apply text_deltas.
  - destruct Hp as [Ht _]. rewrite (text_read _ _ _ Ht). simpl. rewrite set_open_within.
    apply Forall2_app_inv_r in Hm as (es1 & es2 & H1 & H2 & ->).
    rewrite run_payloads_app, (thinking_deltas parts) by done. by apply signature_deltas.
  - destruct Hp as (Ht & Hid & Hname & _). rewrite (text_read _ _ _ Ht), (text_read _ _ _ Hid), (text_read _ _ _ Hname). simpl.
    rewrite set_open_within, call_within. rewrite (input_deltas id name parts) by done. done.
Qed.

(** A whole block is pushed, as the body decoder reads it. *)
Lemma block_run d b block index events : ad_error d = None -> ob_kind (ad_open d) = none -> block_ok b -> body_block b block ->
  Forall2 meets events (block_events b) ->
  exists c, anthropic_content_block block index target = Some (Ok c) /\
    run_payloads d events = Some (push_block (within d closed (block_calls b)) c).
Proof.
  intros He Ho Hb [Hobj Hbody] Hm. unfold block_events in Hm. rewrite app_assoc in Hm.
  apply Forall2_app_inv_r in Hm as (es1 & es2 & H1 & H2 & ->).
  rewrite run_payloads_app, (block_fills d b es1 He Ho H1).
  apply Forall2_cons_inv_r in H2 as ([event payload] & rest & ([= ->] & _ & _) & H2 & ->).
  apply Forall2_nil_inv_r in H2 as ->. cbn [run_payloads]. rewrite within_error, He. unfold Anthropic.on_payload. simpl.
  unfold content_block_stop. unfold anthropic_content_block. rewrite Hobj. simpl.
  destruct b as [parts|parts sig|id name parts input]; simpl; unfold finalize_open_block; simpl.
  - destruct Hbody as [Ht Htext]. rewrite (text_required _ _ _ _ Ht). simpl. rewrite (text_required _ _ _ _ Htext). simpl. eauto.
  - destruct Hbody as (Ht & Htext & Hsig). rewrite (text_required _ _ _ _ Ht). simpl. rewrite (text_required _ _ _ _ Htext). simpl.
    destruct sig as [|p sig].
    + unfold optional_string. rewrite Hsig. simpl. eauto.
    + rewrite (text_optional _ _ _ _ Hsig). unfold some_text. pose proof (Hb ltac:(done)) as Hn. apply nonempty_spec in Hn.
      simpl in *. rewrite Hn. eauto.
  - destruct Hbody as (Ht & Hid & Hname & Hin). destruct Hb as (Hp & Hio & [text Hd]).
    rewrite (text_required _ _ _ _ Ht). simpl. rewrite (text_required _ _ _ _ Hid), (text_required _ _ _ _ Hname). simpl.
    rewrite Hin, Hio, Hd. simpl. rewrite Hp, Hio, Hd. eauto.
Qed.

Lemma blocks_run bs blocks events : forall d index, ad_error d = None -> ob_kind (ad_open d) = none ->
  Forall block_ok bs -> Forall2 body_block bs blocks -> Forall2 meets events (concat (map block_events bs)) ->
  exists cs, anthropic_content index blocks target = Some (Ok cs) /\
    run_payloads d events =
      Some (match bs with
            | [] => d
            | _ => mkDecoder (ad_blocks d ++ cs) closed (ad_usage d) (ad_stop_reason d) (ad_model d) None
                     (ad_saw_message_stop d) (ad_calls d ++ told (concat (map block_calls bs)))
            end).
Proof.
  intros d index He Ho Hb Hbody. revert d index events He Ho Hb.
  induction Hbody as [|b block bs blocks Hb1 Hbs IH]; intros d index events He Ho Hb Hm; cbn [map concat] in Hm.
  { apply Forall2_nil_inv_r in Hm as ->. by exists []. }
  inversion Hb as [|? ? Hok Hb2]; subst. apply Forall2_app_inv_r in Hm as (es1 & es2 & H1 & H2 & ->).
  destruct (block_run d b block index es1 He Ho Hok Hb1 H1) as (c & Hc & Hr).
  destruct (IH (push_block (within d closed (block_calls b)) c) (S index) es2) as (cs & Hcs & Hrs); [done..|].
  exists (c :: cs). simpl. rewrite Hc. simpl. rewrite Hcs. split; [done|].
  rewrite run_payloads_app, Hr, Hrs. destruct bs as [|b' bs'].
  - destruct blocks; [|by inversion Hbs]. simpl in Hcs. injection Hcs as <-. unfold push_block, within. simpl. rewrite He, app_nil_r. done.
  - unfold push_block, within, told. simpl. rewrite <- !(assoc_L (++)). by destruct has_sink.
Qed.

(** A body that gives the message is decoded. *)
Lemma body_decodes m body blocks cs : message_ok m -> body_gives m body ->
  member body "content" = Some (JArray blocks) -> anthropic_content 0 blocks target = Some (Ok cs) ->
  decode_anthropic_body body target =
    Some (Ok (mkResponse cs (anthropic_stop_reason (sm_stop_reason m))
      (mkUsage (sm_input_tokens m) (sm_output_tokens m) (sm_cache_creation m) (sm_cache_read m) None)
      (some_text (sm_model m)))).
Proof.
  intros (_ & _ & H1 & H2 & H3 & H4) (Hmodel & Hstop & _ & (ms & Hu & Hi & Ho & Hcc & Hcr)) Hcontent Hc.
  unfold decode_anthropic_body, required_array. rewrite Hcontent. simpl. rewrite Hc. simpl.
  rewrite (text_required _ _ _ _ Hstop). simpl. unfold anthropic_usage. rewrite Hu. simpl.
  rewrite (count_optional _ _ _ _ Hi H1), (count_optional _ _ _ _ Ho H2). simpl.
  rewrite (count_optional _ _ _ _ Hcc H3), (count_optional _ _ _ _ Hcr H4). simpl.
  by rewrite (text_optional _ _ _ _ Hmodel).
Qed.

Lemma stream_names m : Forall (fun spec : EventSpec => fst spec <> "ping"%string) (stream_events m).
Proof.
  assert (Hd : forall t k l, Forall (fun spec : EventSpec => fst spec <> "ping"%string) (map (delta t k) l))
    by (intros t k l; apply Forall_map, Forall_forall; done).
  unfold stream_events. repeat apply Forall_app_2; [by repeat constructor| |by repeat constructor].
  induction (sm_blocks m) as [|b bs IH]; [constructor|]. simpl. constructor; [done|].
  repeat apply Forall_app_2; [|by repeat constructor|done].
  destruct b; simpl; [apply Hd|apply Forall_app_2; apply Hd|apply Hd].
Qed.
Lemma stream_parsed m events : Forall2 meets events (stream_events m) ->
  Forall (fun p => fst p <> "ping"%string /\ is_object (snd p) = true) events.
Proof.
  pose proof (stream_names m) as Hn. induction 1 as [|e spec events specs (He & Hobj & _) _ IH]; [constructor|].
  inversion Hn; subst. constructor; [|by apply IH]. by rewrite He.
Qed.

(** After the first event: the model and the counts that the body has too. *)
Definition begun (m : Message) (output : Z) : Decoder :=
  mkDecoder [] closed (mkUsage (sm_input_tokens m) output (sm_cache_creation m) (sm_cache_read m) None)
    end_turn (some_text (sm_model m)) None false [].
Lemma message_starts m event payload : message_ok m -> meets (event, payload) ("message_start"%string, message_start_says m) ->
  exists output, Anthropic.on_payload target has_sink Anthropic.start event payload = Some (begun m output).
Proof.
  intros (_ & _ & H1 & _ & H3 & H4) ([= ->] & _ & Hp). cbn [fst snd] in Hp. apply object_read in Hp as (message & Hmsg & Hmodel & Hu).
  apply object_read in Hu as (usage & Hu & Hi & Hcc & Hcr). exists (u64_or_zero usage "output_tokens").
  unfold Anthropic.on_payload. simpl. unfold message_start. rewrite Hmsg, Hu, (text_read _ _ _ Hmodel).
  by rewrite (count_read _ _ _ Hi H1), (count_read _ _ _ Hcc H3), (count_read _ _ _ Hcr H4).
Qed.

(** C34: streaming and not streaming agree.  Whatever else the payloads and the body hold,
    however a response is cut into deltas, and whatever pings and unknown events come
    between them, the Anthropic decoder assembles exactly the response that the body
    decoder reads from a body with the same blocks, model, stop reason and counts, and the
    sink is told every piece of it, in order, and then that it is done. *)
Theorem streaming_agrees m stream body :
  message_ok m -> carries m stream -> body_gives m body ->
  exists d r, run_events (Anthropic.consume target has_sink) Anthropic.start stream = Some d /\
    Anthropic.result target d = Ok r /\
    decode_anthropic_body body target = Some (Ok r) /\
    ad_calls d = told (stream_calls m).
Proof.
  intros Hm (events & Hparsed & Hmeets) Hbody. rewrite run_silent, (run_parsed _ _ _ Hparsed (stream_parsed _ _ Hmeets)).
  pose proof Hm as (Hb & Hstop & _ & H2 & _ & _). pose proof Hbody as (_ & _ & (blocks & Hcontent & Hblocks) & _).
  unfold stream_events in Hmeets. apply Forall2_cons_inv_r in Hmeets as ([e1 p1] & rest1 & Hstart & Hmeets & ->).
  apply Forall2_app_inv_r in Hmeets as (es & final & Hes & Hfinal & ->).
  apply Forall2_cons_inv_r in Hfinal as ([e2 p2] & rest2 & ([= ->] & _ & Hdelta & Husage) & Hfinal & ->).
  apply Forall2_cons_inv_r in Hfinal as ([e3 p3] & rest3 & ([= ->] & _ & _) & Hfinal & ->). apply Forall2_nil_inv_r in Hfinal as ->.
  cbn [fst snd] in Hdelta, Husage. apply object_read in Hdelta as (delta & Hd & Hreason). apply object_read in Husage as (usage & Hu & Hcount).
  destruct (message_starts m e1 p1 Hm Hstart) as [output Hrun1]. cbn [run_payloads]. cbn [Anthropic.start ad_error]. rewrite Hrun1.
  destruct (blocks_run (sm_blocks m) blocks es (begun m output) 0) as (cs & Hcs & Hrun); [done..|].
  rewrite (body_decodes m body blocks cs Hm Hbody Hcontent Hcs).
  assert (Hall : run_payloads (begun m output) es =
    Some (mkDecoder cs closed (ad_usage (begun m output)) end_turn (some_text (sm_model m)) None false
            (told (concat (map block_calls (sm_blocks m)))))).
  { rewrite Hrun. destruct Hblocks; [|done]. simpl in Hcs. injection Hcs as <-. unfold begun, told. by destruct has_sink. }
  rewrite run_payloads_app, Hall. apply nonempty_spec in Hstop. eexists _, _. split; [|split; [|split; [reflexivity|]]].
  - cbn [run_payloads ad_error]. unfold Anthropic.on_payload. simpl. unfold message_delta, message_stop.
    rewrite Hd, Hu, (text_read _ _ _ Hreason), (count_read _ _ _ Hcount H2), Hstop. simpl. reflexivity.
  - unfold Anthropic.result, call. simpl. by destruct has_sink.
  - unfold call, stream_calls, told. simpl. by destruct has_sink.
Qed.
End Proofs.
End Streaming.

(** ** Any stream, Anthropic *)
Module AnthropicFacts.
Import Anthropic.
Section Facts.
Context `{JsonLibraryLaws} (target : ModelTarget) (has_sink : bool).
#[local] Abbreviation consume := (Anthropic.consume target has_sink).
#[local] Abbreviation run := (run_events consume).

(** A streamed block, before the empty signature is told from none. *)
Definition assembled (c : Content) : Prop :=
  match c with
  | TextContent _ | ThinkingContent _ _ => True
  | ToolUseContent _ _ input => reads_object input = true
  | _ => False
  end.
Definition legible (e : StreamEvent) : Prop :=
  fst e = "ping"%string \/ (reads_object (snd e) = true /\ fst e <> "error"%string).
Definition stops (stream : list StreamEvent) : nat :=
  length (filter (fun e => fst e = "content_block_stop"%string) stream).

(** What a decoder without an error says of the events it consumed. *)
Definition accounts (stream : list StreamEvent) (d : Decoder) : Prop :=
  ad_error d = None ->
  Forall legible stream /\ stops stream = length (ad_blocks d) /\ Forall assembled (ad_blocks d) /\
  (ad_saw_message_stop d = true -> "message_stop"%string ∈ map fst stream) /\
  (has_sink = false -> ad_calls d = []).

(** How an event without a failure changes the blocks. *)
Definition grows (event : string) (d d' : Decoder) : Prop :=
  (if decide (event = "content_block_stop"%string)
   then exists c, ad_blocks d' = ad_blocks d ++ [c] /\ assembled c
   else ad_blocks d' = ad_blocks d) /\
  (ad_saw_message_stop d' = true -> ad_saw_message_stop d = true \/ event = "message_stop"%string) /\
  (has_sink = false -> ad_calls d' = ad_calls d).

Lemma fail_error d e : ad_error (fail d e) <> None.
Proof. unfold fail. by destruct (ad_error d) eqn:He; rewrite ?He. Qed.

Lemma call_keeps d c :
  ad_blocks (call has_sink d c) = ad_blocks d /\
  ad_saw_message_stop (call has_sink d c) = ad_saw_message_stop d /\
  (has_sink = false -> ad_calls (call has_sink d c) = ad_calls d).
Proof. unfold call. by destruct has_sink. Qed.

Lemma finalize_grows d d' : ad_error d = None -> ob_kind (ad_open d) <> none ->
  finalize_open_block target d = Some d' -> ad_error d' = None ->
  grows "content_block_stop" d d'.
Proof.
  intros He Hk. unfold finalize_open_block, grows. rewrite decide_True by done.
  destruct (ob_kind (ad_open d)); [done|intros [= <-] _..|].
  - split_and!; simpl; [by eexists|by left|done].
  - split_and!; simpl; [by eexists|by left|done].
  - destruct (json_parse _) as [v| |] eqn:Hp; [|intros [= <-] Hn; by apply fail_error in Hn|done].
    destruct (is_object v) eqn:Ho; [|intros [= <-] Hn; by apply fail_error in Hn].
    destruct (json_dump v) as [s|] eqn:Hs; [intros [= <-] _|done].
    split_and!; simpl; [eexists; split; [done|]|by left|done]. simpl. unfold reads_object.
    by rewrite (parse_dump v s (parse_representable _ _ Hp) Hs).
Qed.

Lemma payload_grows d event payload d' : ad_error d = None ->
  on_payload target has_sink d event payload = Some d' -> ad_error d' = None ->
  event <> "error"%string /\ grows event d d'.
Proof.
  intros He. unfold on_payload.
  case_bool_decide; [subst; intros [= <-] _; split; [done|]|].
  { unfold message_start, grows. destruct (object_member payload "message"); simpl; auto. }
  case_bool_decide; [subst; intros [= <-] Hn; split; [done|]|].
  { unfold content_block_start in *. destruct (negb _); [by apply fail_error in Hn|].
    destruct (object_member payload "content_block") as [b|]; [|by apply fail_error in Hn].
    unfold grows. simpl. repeat case_bool_decide; simpl in *; auto.
    - pose proof (call_keeps (set_open d (mkOpen tool_use_block "" None (string_or_empty b "id")
        (string_or_empty b "name") "")) (on_tool_start (string_or_empty b "id") (string_or_empty b "name")))
        as (K1 & K2 & K3). rewrite K1, K2. auto.
    - by apply fail_error in Hn. }
  case_bool_decide; [subst; intros [= <-] Hn; split; [done|]|].
  { unfold content_block_delta in *. case_bool_decide; [by apply fail_error in Hn|].
    destruct (object_member payload "delta") as [b|]; [|by apply fail_error in Hn].
    unfold grows. simpl. repeat case_bool_decide; simpl in *; auto;
    match goal with |- context [call has_sink ?d ?c] =>
      pose proof (call_keeps d c) as (K1 & K2 & K3); rewrite K1, K2; auto end. }
  case_bool_decide; [subst; intros Hf Hn; split; [done|]|].
  { unfold content_block_stop in Hf. case_bool_decide; [injection Hf as <-; by apply fail_error in Hn|].
    by apply finalize_grows. }
  case_bool_decide; [subst; intros [= <-] Hn; split; [done|]|].
  { unfold message_delta, grows. simpl. auto. }
  case_bool_decide; [subst; intros [= <-] Hn; split; [done|]|].
  { unfold message_stop in *. destruct (negb _); [by apply fail_error in Hn|]. unfold grows.
    match goal with |- context [call has_sink ?d ?c] =>
      pose proof (call_keeps d c) as (K1 & K2 & K3); rewrite K1, K2 end.
    split_and!; [done|by right|exact K3]. }
  case_bool_decide; [subst; intros [= <-] Hn; by apply fail_error in Hn|].
  intros [= <-] _. split; [done|]. unfold grows. rewrite decide_False by done. auto.
Qed.

Lemma stops_snoc stream (e : StreamEvent) :
  stops (stream ++ [e]) =
    if decide (fst e = "content_block_stop"%string) then S (stops stream) else stops stream.
Proof.
  unfold stops. rewrite filter_app, filter_cons, filter_nil, length_app.
  repeat case_decide; simpl; [apply Nat.add_1_r|apply Nat.add_0_r].
Qed.

Lemma consume_accounts stream d e d' :
  accounts stream d -> consume d e = Some d' -> accounts (stream ++ [e]) d'.
Proof.
  destruct e as [event data]. intros Ha. unfold Anthropic.consume.
  destruct (ad_error d) eqn:He; [intros [= <-] Hn; congruence|].
  destruct (Ha He) as (Hl & Hc & Hb & Hs & Hk).
  case_bool_decide as Hping.
  { intros [= <-] _. rewrite stops_snoc, decide_False by (by subst). split_and!; try done.
    - apply Forall_app_2; [done|]. constructor; [by left|done].
    - intros Hm. rewrite map_app. set_solver. }
  destruct (json_parse data) as [v| |] eqn:Hp; [|intros [= <-] Hn; by apply fail_error in Hn|done].
  destruct (is_object v) eqn:Ho; [|intros [= <-] Hn; by apply fail_error in Hn].
  intros Hon Hn. destruct (payload_grows _ _ _ _ He Hon Hn) as (Hne & Hg & Hm & Hcalls).
  assert (Hleg : Forall legible (stream ++ [(event, data)])).
  { apply Forall_app_2; [done|]. constructor; [right|done]. split; [|done]. unfold reads_object. simpl. by rewrite Hp. }
  rewrite map_app. split_and!; [done|..].
  - case_decide as Hst.
    + destruct Hg as (c & -> & _). rewrite stops_snoc, decide_True, length_app by done. simpl. lia.
    + rewrite stops_snoc, decide_False by done. congruence.
  - case_decide as Hst; [|congruence]. destruct Hg as (c & -> & Hc'). by apply Forall_app_2; [|constructor].
  - intros Hsaw. destruct (Hm Hsaw) as [Hold|Hnew]; [specialize (Hs Hold); set_solver|].
    subst. simpl. set_solver.
  - intros Hsk. rewrite Hcalls; auto.
Qed.

Lemma run_accounts stream : forall before d d',
  accounts before d -> run d stream = Some d' -> accounts (before ++ stream) d'.
Proof.
  induction stream as [|e stream IH]; intros before d d' Ha; simpl; [intros [= <-]; by rewrite app_nil_r|].
  destruct (consume d e) as [d1|] eqn:Hc; [|done]. intros Hr.
  replace (before ++ e :: stream) with ((before ++ [e]) ++ stream) by (by rewrite <- (assoc_L (++))).
  eapply IH; [|exact Hr]. by eapply consume_accounts.
Qed.

(** whatever the stream, a response is reported only when [message_stop] came,
    every event before and after it could be read and none was an error; the response
    then holds one block for each block that was stopped, and the input of each of its
    tool calls reads as a JSON object. *)
Theorem streamed_response_accounts stream d r :
  run Anthropic.start stream = Some d -> Anthropic.result target d = Ok r ->
  Forall legible stream /\ "message_stop"%string ∈ map fst stream /\
  stops stream = length (rs_blocks r) /\ Forall assembled (rs_blocks r).
Proof.
  intros Hr Hres. assert (Ha : accounts stream d).
  { apply (run_accounts stream [] Anthropic.start d); [|done]. by intros _. }
  unfold Anthropic.result in Hres. destruct (ad_error d) eqn:He; [done|].
  destruct (ad_saw_message_stop d) eqn:Hs; [injection Hres as <-|done].
  destruct (Ha He) as (Hl & Hc & Hb & Hm & _). auto.
Qed.

(** Once a failure is recorded nothing changes any more. *)
Lemma failed_consume d e ev : ad_error d = Some e -> consume d ev = Some d.
Proof. destruct ev. intros He. unfold Anthropic.consume. by rewrite He. Qed.

Lemma failed_run d e stream : ad_error d = Some e -> run d stream = Some d.
Proof. intros He. induction stream as [|ev stream IH]; simpl; [done|]. by erewrite failed_consume. Qed.

(** the first failure wins: once the decoder has recorded an error, the result is
    that error, whatever comes after. *)
Theorem first_failure_wins stream rest d e :
  run Anthropic.start stream = Some d -> ad_error d = Some e ->
  run Anthropic.start (stream ++ rest) = Some d /\ Anthropic.result target d = Err e.
Proof.
  intros Hr He. rewrite run_events_app, Hr. split; [by eapply failed_run|].
  unfold Anthropic.result. by rewrite He.
Qed.
End Facts.
End AnthropicFacts.

(** ** Any stream, Responses *)
Module OpenAiFacts.
Import OpenAi.
Section Facts.
Context `{JsonLibraryLaws} (target : ModelTarget) (has_sink : bool).
#[local] Abbreviation consume := (openai_consume target has_sink).
#[local] Abbreviation run := (run_events consume).

(** The response that a terminal event carries, and the last one of a stream. *)
Definition terminal_of (e : StreamEvent) : option json :=
  if bool_decide (fst e ∈ ["response.completed"; "response.incomplete"]%string) then
    match json_parse (snd e) with
    | Doc payload => object_member payload "response"
    | _ => None
    end
  else None.
Definition terminal_response (stream : list StreamEvent) : option json := last (omap terminal_of stream).

Definition is_start (c : SinkCall) : Prop := match c with on_tool_start _ _ => True | _ => False end.
#[export] Instance is_start_dec c : Decision (is_start c).
Proof. destruct c; simpl; apply _. Defined.
Definition named (c : SinkCall) : Prop := match c with on_tool_start _ name => name <> ""%string | _ => True end.
Definition started (calls : gmap string FunctionCallState) : nat :=
  size (filter (fun p => fc_started (snd p) = true) calls).

(** The terminal response is kept as its text. *)
Definition keeps_terminal (stream : list StreamEvent) (d : OpenAiDecoder) : Prop :=
  od_error d = None ->
  od_final_response_json d = match terminal_response stream with Some j => json_dump j | None => None end /\
  (forall j, terminal_response stream = Some j ->
     is_object j = true /\ exists s, json_dump j = Some s /\ json_parse s = Doc j).

(** Each state that was announced has one start. *)
Definition starts_once (d : OpenAiDecoder) : Prop :=
  length (filter is_start (od_calls d)) = started (od_function_calls d) /\ Forall named (od_calls d).

Lemma openai_fail_error d e : od_error (openai_fail d e) <> None.
Proof. unfold openai_fail. by destruct (od_error d) eqn:He; rewrite ?He. Qed.

Lemma terminal_snoc stream e :
  terminal_response (stream ++ [e]) =
    match terminal_of e with Some j => Some j | None => terminal_response stream end.
Proof.
  unfold terminal_response. rewrite omap_app. simpl. destruct (terminal_of e); [by rewrite last_snoc|].
  by rewrite app_nil_r.
Qed.

(** The handlers that only touch the calls. *)
Lemma call_final d c : od_final_response_json (openai_call has_sink d c) = od_final_response_json d /\
  od_error (openai_call has_sink d c) = od_error d.
Proof. unfold openai_call. by destruct has_sink. Qed.

Lemma start_final d k s : od_final_response_json (maybe_start_tool has_sink d k s) = od_final_response_json d /\
  od_error (maybe_start_tool has_sink d k s) = od_error d.
Proof. unfold maybe_start_tool. destruct (_ || _); [done|]. apply (call_final (set_call d k _)). Qed.

Lemma added_final d p : od_final_response_json (output_item_added has_sink d p) = od_final_response_json d /\
  od_error (output_item_added has_sink d p) = od_error d.
Proof.
  unfold output_item_added. destruct (object_member p "item"); [|done]. case_match; [done|].
  case_match; [done|]. apply start_final.
Qed.
Lemma delta_final d p : od_final_response_json (arguments_delta has_sink d p) = od_final_response_json d /\
  od_error (arguments_delta has_sink d p) = od_error d.
Proof. unfold arguments_delta. case_match; [done|]. apply (call_final (set_call d _ _)). Qed.
Lemma done_final d p : od_final_response_json (arguments_done has_sink d p) = od_final_response_json d /\
  od_error (arguments_done has_sink d p) = od_error d.
Proof. unfold arguments_done. case_match; [done|]. apply start_final. Qed.

Lemma keeps_same stream d e d' :
  keeps_terminal stream d -> od_error d = None -> terminal_of e = None ->
  od_final_response_json d' = od_final_response_json d /\ od_error d' = od_error d ->
  keeps_terminal (stream ++ [e]) d'.
Proof. intros Hk He Ht [Hf _] _. rewrite terminal_snoc, Ht, Hf. by apply Hk. Qed.

Lemma keeps_fail stream d e : keeps_terminal stream (openai_fail d e).
Proof. intros Hn. by apply openai_fail_error in Hn. Qed.

Lemma terminal_of_other event data :
  event ∉ ["response.completed"; "response.incomplete"]%string -> terminal_of (event, data) = None.
Proof. intros He. unfold terminal_of. by rewrite bool_decide_false. Qed.

Lemma consume_terminal stream d e d' :
  keeps_terminal stream d -> consume d e = Some d' -> keeps_terminal (stream ++ [e]) d'.
Proof.
  destruct e as [event data]. intros Hk. unfold OpenAi.openai_consume.
  destruct (od_error d) eqn:He; [intros [= <-] Hn; congruence|].
  destruct (json_parse data) as [v| |] eqn:Hp; [|intros [= <-]; apply keeps_fail|done].
  destruct (is_object v) eqn:Ho; [|intros [= <-]; apply keeps_fail].
  assert (Hother : forall d1, event ∉ ["response.completed"; "response.incomplete"]%string ->
    od_final_response_json d1 = od_final_response_json d /\ od_error d1 = od_error d -> Some d1 = Some d' ->
    keeps_terminal (stream ++ [(event, data)]) d').
  { intros d1 Hne Hs [= <-]. by apply (keeps_same stream d); [| |apply terminal_of_other|]. }
  unfold openai_on_payload.
  case_bool_decide; [apply Hother; [set_solver|apply added_final]|].
  case_bool_decide; [apply Hother; [set_solver|apply call_final]|].
  case_bool_decide; [apply Hother; [set_solver|apply call_final]|].
  case_bool_decide; [apply Hother; [set_solver|apply delta_final]|].
  case_bool_decide; [apply Hother; [set_solver|apply done_final]|].
  unfold terminal_name. case_bool_decide as Hterm.
  - unfold terminal_event. destruct (object_member v "response") as [j|] eqn:Hj; [|intros [= <-]; apply keeps_fail].
    case_bool_decide; [intros [= <-]; apply keeps_fail|].
    destruct (json_dump j) as [s|] eqn:Hs; [intros [= <-] _|done].
    rewrite terminal_snoc. unfold terminal_of. cbn [fst snd]. rewrite bool_decide_true, Hp, Hj by set_solver.
    split; [done|]. intros j' [= <-]. unfold object_member in Hj.
    destruct (member v "response") as [w|] eqn:Hm; [|done]. destruct w; try done. injection Hj as <-.
    split; [done|]. exists s. split; [done|]. apply parse_dump; [|done].
    eapply representable_member; [by eapply parse_representable|done].
  - case_bool_decide; [intros [= <-]; apply keeps_fail|].
    apply Hother; [set_solver|done].
Qed.

Lemma run_terminal stream : forall before d d',
  keeps_terminal before d -> run d stream = Some d' -> keeps_terminal (before ++ stream) d'.
Proof.
  induction stream as [|e stream IH]; intros before d d' Hk; simpl; [intros [= <-]; by rewrite app_nil_r|].
  destruct (consume d e) as [d1|] eqn:Hc; [|done]. intros Hr.
  replace (before ++ e :: stream) with ((before ++ [e]) ++ stream) by (by rewrite <- (assoc_L (++))).
  eapply IH; [|exact Hr]. by eapply consume_terminal.
Qed.

(** the terminal event is authoritative: unless a failure was recorded, the result
    of a stream is what the body decoder reads from the response of its last terminal
    event, whatever deltas came before it; a stream without one is an error. *)
Theorem openai_stream_authoritative stream d :
  mt_protocol target = openai_responses ->
  run OpenAi.openai_start stream = Some d -> od_error d = None ->
  fst (OpenAi.openai_result target has_sink d) =
    match terminal_response stream with
    | Some j => decode_openai_body j target
    | None => Some (Err (of_protocol (Errors.parsing
        "openai responses stream ended before terminal response event") target))
    end.
Proof.
  intros Ht Hr He. assert (Hk : keeps_terminal stream d).
  { apply (run_terminal stream [] OpenAi.openai_start d); [|done]. by intros _. }
  destruct (Hk He) as [Hf Hj]. unfold OpenAi.openai_result. rewrite He, Hf.
  destruct (terminal_response stream) as [j|]; [|done].
  destruct (Hj j eq_refl) as (Ho & s & Hs & Hp). rewrite Hs. simpl.
  unfold decode_protocol_response. rewrite Ht. unfold decode_openai_response, parse_body_json, parse_json_object.
  by rewrite Hp, Ho.
Qed.

(** ** Announcing function calls *)
Lemma started_insert calls k s :
  started (<[k := s]> calls) =
    started (delete k calls) + (if fc_started s then 1 else 0).
Proof.
  unfold started. rewrite <- insert_delete_eq. rewrite map_filter_insert. simpl.
  destruct (fc_started s).
  - rewrite decide_True by done. rewrite map_size_insert_None; [lia|].
    apply map_lookup_filter_None. left. apply lookup_delete_eq.
  - rewrite decide_False by done. rewrite delete_id; [lia|]. apply lookup_delete_eq.
Qed.

Lemma started_lookup calls k :
  started calls = started (delete k calls) + (if fc_started (default no_call (calls !! k)) then 1 else 0).
Proof.
  destruct (calls !! k) as [s|] eqn:Hk; simpl.
  - rewrite <- (started_insert calls k s). by rewrite insert_id.
  - rewrite delete_id by done. lia.
Qed.

Lemma set_call_starts d k s : starts_once d -> fc_started s = fc_started (call_state d k) ->
  starts_once (set_call d k s).
Proof.
  intros [Hs Hn] Heq. split; [|done]. simpl. rewrite started_insert, Heq, Hs.
  unfold call_state. apply started_lookup.
Qed.

Lemma call_starts d c : starts_once d -> ~ is_start c -> starts_once (openai_call has_sink d c).
Proof.
  intros [Hs Hn] Hc. unfold openai_call. destruct has_sink; [|done]. split; simpl.
  - by rewrite filter_app, filter_cons, decide_False, filter_nil, app_nil_r.
  - apply Forall_app_2; [done|]. constructor; [by destruct c|done].
Qed.

Lemma maybe_start_starts d k s : starts_once d -> fc_started s = fc_started (call_state d k) ->
  starts_once (maybe_start_tool has_sink d k s).
Proof.
  intros Hd Heq. unfold maybe_start_tool. destruct (_ || _) eqn:Hb; [by apply set_call_starts|].
  apply orb_false_iff in Hb as [[Hsk Hnm%negb_false_iff]%orb_false_iff Hst].
  destruct Hd as [Hs Hn]. unfold openai_call. destruct has_sink; [|done]. split; simpl.
  - rewrite filter_app, filter_cons, decide_True, filter_nil, length_app, started_insert by done. simpl.
    rewrite Hs, (started_lookup _ k). fold (call_state d k). rewrite <- Heq, Hst. lia.
  - apply Forall_app_2; [done|]. constructor; [|done]. simpl. by apply nonempty_spec.
Qed.

Lemma fail_starts d e : starts_once d -> starts_once (openai_fail d e).
Proof. intros Hd. unfold openai_fail. by destruct (od_error d). Qed.

Lemma consume_starts d e d' : starts_once d -> consume d e = Some d' -> starts_once d'.
Proof.
  destruct e as [event data]. intros Hd. unfold OpenAi.openai_consume.
  destruct (od_error d); [by intros [= <-]|].
  destruct (json_parse data) as [v| |]; [|intros [= <-]; by apply fail_starts|done].
  destruct (is_object v); [|intros [= <-]; by apply fail_starts]. unfold openai_on_payload.
  repeat (case_bool_decide; [intros [= <-]|]); try done.
  - unfold output_item_added. destruct (object_member v "item"); [|done]. case_match; [done|].
    case_match; [done|]. by apply maybe_start_starts.
  - by apply call_starts; [|auto].
  - by apply call_starts; [|auto].
  - unfold arguments_delta. case_match; [done|]. apply call_starts; [|auto]. by apply set_call_starts.
  - unfold arguments_done. case_match; [done|]. by apply maybe_start_starts.
  - case_match; [|case_bool_decide; [intros [= <-]; by apply fail_starts|by intros [= <-]]].
    unfold terminal_event. destruct (object_member v "response") as [j|]; [|intros [= <-]; by apply fail_starts].
    case_bool_decide; [intros [= <-]; by apply fail_starts|]. by destruct (json_dump j); [intros [= <-]|].
Qed.

(** a function call is announced to the sink at most once, and only with a name,
    however its item, its argument deltas and their end are ordered or repeated. *)
Theorem openai_tool_started_once stream d :
  run OpenAi.openai_start stream = Some d ->
  length (filter is_start (od_calls d)) <= size (od_function_calls d) /\ Forall named (od_calls d).
Proof.
  intros Hr. assert (Hd : starts_once d).
  { assert (H1 : starts_once OpenAi.openai_start) by done. revert Hr H1. generalize OpenAi.openai_start.
    induction stream as [|e stream IH]; intros d0; simpl; [by intros [= <-]|].
    destruct (consume d0 e) as [d1|] eqn:Hc; [|done]. intros Hr Hs. eapply IH; [done|]. by eapply consume_starts. }
  destruct Hd as [-> Hn]. split; [|done]. apply map_subseteq_size, map_filter_subseteq.
Qed.
End Facts.
End OpenAiFacts.

(** ** Streams *)
Module Demo.
Import Sample ProtocolRequest.Demo ProtocolResponse.Demo Streaming.
Import (hints) OpenAiFacts.
(** A turn as the provider streams it: every payload repeats its type, blocks have an
    index and start out with an empty text or input, and no cached tokens are counted. *)
Definition weather : json := JObject [("location"%string, JString "NYC")].
Definition message : Message := mkMessage
  [streamed_thinking ["rea"; "soning"]%string ["sig123"]%string; streamed_text ["Hello"; " world"]%string;
   streamed_tool "toolu_1" "get_weather" [text weather] weather] "claude-test" "tool_use" 10 20 0 0.
Definition typed (type : string) (members : list (string * json)) : json := JObject (("type"%string, JString type) :: members).
Definition block_started (index : Z) (block : json) : string * json :=
  ("content_block_start"%string, typed "content_block_start" [("index", JInt index); ("content_block", block)]%string).
Definition block_changed (index : Z) (type key part : string) : string * json :=
  ("content_block_delta"%string,
   typed "content_block_delta" [("index"%string, JInt index); ("delta"%string, typed type [(key, JString part)])]).
Definition block_stopped (index : Z) : string * json :=
  ("content_block_stop"%string, typed "content_block_stop" [("index"%string, JInt index)]).
Definition message_events : list (string * json) := [
  ("message_start", typed "message_start" [("message", typed "message" [("id", JString "msg_1"); ("role", JString "assistant");
     ("model", JString "claude-test"); ("content", JArray []); ("stop_reason", JNull);
     ("usage", JObject [("input_tokens", JInt 10); ("output_tokens", JInt 1)])])]);
  block_started 0 (typed "thinking" [("thinking", JString "")]);
  block_changed 0 "thinking_delta" "thinking" "rea"; block_changed 0 "thinking_delta" "thinking" "soning";
  block_changed 0 "signature_delta" "signature" "sig123"; block_stopped 0;
  block_started 1 (typed "text" [("text", JString "")]);
  block_changed 1 "text_delta" "text" "Hello"; block_changed 1 "text_delta" "text" " world"; block_stopped 1;
  block_started 2 (typed "tool_use" [("id", JString "toolu_1"); ("name", JString "get_weather"); ("input", JObject [])]);
  block_changed 2 "input_json_delta" "partial_json" (text weather); block_stopped 2;
  ("message_delta", typed "message_delta" [("delta", JObject [("stop_reason", JString "tool_use"); ("stop_sequence", JNull)]);
     ("usage", JObject [("output_tokens", JInt 20)])]);
  ("message_stop", typed "message_stop" [])]%string.
Definition message_body : json := typed "message" [("role", JString "assistant"); ("model", JString "claude-test");
  ("content", JArray [typed "thinking" [("thinking", JString "reasoning"); ("signature", JString "sig123")];
     typed "text" [("text", JString "Hello world")];
     typed "tool_use" [("id", JString "toolu_1"); ("name", JString "get_weather"); ("input", weather)]]);
  ("stop_reason", JString "tool_use");
  ("usage", JObject [("input_tokens", JInt 10); ("output_tokens", JInt 20)])]%string.
Definition event (p : string * json) : StreamEvent := (fst p, text (snd p)).
(** The stream of the message, with a ping first. *)
Definition stream : list StreamEvent := ("ping", "")%string :: map event message_events.
Definition final (d : option Anthropic.Decoder) : Anthropic.Decoder := default Anthropic.start d.
Definition answered (r : Result Response) : Response :=
  match r with Ok r => r | Err _ => mkResponse [] sr_error no_usage None end.

(** Events written by the sample library are parsed again. *)
Lemma carried_events events :
  forallb (fun p => bool_decide (fst p ∈ known_names) && representable (snd p)) events = true ->
  Forall2 parses (filter (fun e => silent e = false) (map event events)) events.
Proof.
  induction events as [|p events IH]; [intros _; apply Forall2_nil_2|].
  cbn [forallb map]. intros [[Hk%bool_decide_eq_true Hr]%andb_true_iff Ho]%andb_true_iff.
  rewrite filter_cons, decide_True.
  - apply Forall2_cons_2; [|by apply IH]. split; [done|]. by apply parse_dump.
  - unfold silent, event. cbn [fst]. apply orb_false_iff. split.
    + apply bool_decide_eq_false. intros He. rewrite He in Hk. unfold known_names in Hk. set_solver.
    + by rewrite bool_decide_true.
Qed.

#[local] Ltac says := repeat match goal with
  | |- True => exact I
  | |- _ /\ _ => split
  | |- object_at _ _ _ => eexists; split; [reflexivity|]
  | |- meets _ _ => split; [reflexivity|split; [reflexivity|]]; cbn [snd delta]
  | |- count_at _ _ _ => first [left; reflexivity | right; split; reflexivity]
  | |- absent_or _ _ _ => right; reflexivity
  | |- text_at _ _ _ => reflexivity
  | |- Forall2 _ _ _ => constructor
  end.
Lemma message_streamed : Forall2 meets message_events (stream_events message).
Proof. unfold stream_events, message, message_events. cbn [sm_blocks map concat app block_events block_deltas].
  unfold block_start, message_start_says, message_delta_says. says. Qed.
Lemma message_bodied : body_gives message message_body.
Proof.
  split; [reflexivity|split; [reflexivity|split]]; [|unfold message; says].
  eexists. split; [reflexivity|]. repeat apply Forall2_cons_2; [..|apply Forall2_nil_2];
    (split; [reflexivity|]); split_and!; reflexivity.
Qed.
Lemma message_is_ok : message_ok message.
Proof.
  split_and!; [|done|vm_compute; discriminate..].
  apply Forall_cons_2; [intros _; vm_compute; discriminate|].
  apply Forall_cons_2; [exact I|]. apply Forall_cons_2; [|apply Forall_nil_2].
  split; [vm_compute; reflexivity|split; [reflexivity|]].
  eexists. cbn [json_dump sample_library]. reflexivity.
Qed.
Lemma message_carried : carries message stream.
Proof.
  exists message_events. split; [|exact message_streamed]. unfold stream. rewrite filter_cons, decide_False by done.
  apply carried_events. vm_compute. reflexivity.
Qed.

Lemma streaming_agrees_witness :
  exists d r, run_events (Anthropic.consume target true) Anthropic.start stream = Some d /\
    Anthropic.result target d = Ok r /\
    decode_anthropic_body message_body target = Some (Ok r) /\
    Anthropic.ad_calls d = told true (stream_calls message).
Proof. exact (streaming_agrees target true message stream message_body message_is_ok message_carried message_bodied). Defined.

Definition done_decoder : Anthropic.Decoder :=
  final (run_events (Anthropic.consume target true) Anthropic.start stream).
Lemma streamed_response_accounts_witness :
  AnthropicFacts.stops stream = length (rs_blocks (answered (Anthropic.result target done_decoder))).
Proof.
  apply (AnthropicFacts.streamed_response_accounts target true stream done_decoder);
    vm_compute; reflexivity.
Defined.

Lemma first_failure_wins_witness :
  let d := final (run_events (Anthropic.consume target true) Anthropic.start
             [("content_block_stop", text (JObject []))]%string) in
  run_events (Anthropic.consume target true) Anthropic.start
    ([("content_block_stop", text (JObject []))]%string ++ stream) = Some d /\
  Anthropic.result target d =
    Err (of_protocol (Errors.parsing "anthropic content block stop has no open block") target).
Proof. apply AnthropicFacts.first_failure_wins; vm_compute; reflexivity. Defined.

Definition openai_stream : list StreamEvent := map event [
  ("response.output_item.added", JObject [("item", JObject [("type", JString "function_call");
     ("id", JString "i1"); ("call_id", JString "t1"); ("name", JString "read")])]);
  ("response.function_call_arguments.delta", JObject [("item_id", JString "i1"); ("delta", JString "{}")]);
  ("response.function_call_arguments.done", JObject [("item_id", JString "i1"); ("name", JString "read")]);
  ("response.completed", JObject [("response", openai_answer)])]%string.
Definition openai_decoder : OpenAi.OpenAiDecoder :=
  default OpenAi.openai_start (run_events (OpenAi.openai_consume openai_target true) OpenAi.openai_start openai_stream).

Lemma openai_stream_authoritative_witness :
  fst (OpenAi.openai_result openai_target true openai_decoder) = decode_openai_body openai_answer openai_target.
Proof.
  etransitivity; [apply (OpenAiFacts.openai_stream_authoritative openai_target true openai_stream);
    vm_compute; reflexivity|]. vm_compute. reflexivity.
Defined.

Lemma openai_tool_started_once_witness :
  length (filter OpenAiFacts.is_start (OpenAi.od_calls openai_decoder)) <=
    size (OpenAi.od_function_calls openai_decoder) /\
  Forall OpenAiFacts.named (OpenAi.od_calls openai_decoder).
Proof. apply (OpenAiFacts.openai_tool_started_once openai_target true openai_stream). vm_compute. reflexivity. Defined.

(** Events are still consumed after [message_stop], so the stop reason that the sink
    was given can differ from the one of the response. *)
Definition late_stop : list StreamEvent := map event [
  ("message_stop", JObject []);
  ("message_delta", JObject [("delta", JObject [("stop_reason", JString "tool_use")])])]%string.
Lemma done_before_last_stop_reason :
  exists d, run_events (Anthropic.consume target true) Anthropic.start late_stop = Some d /\
    Anthropic.ad_calls d = [on_done end_turn] /\
    rs_stop_reason (answered (Anthropic.result target d)) = tool_use.
Proof. eexists. split; [vm_compute; reflexivity|]. split; reflexivity. Qed.

(** A number out of range is not a parse error of the reader, and leaves [consume]. *)
Lemma consume_raises :
  Anthropic.consume target true Anthropic.start
    ("message_stop"%string, text (JObject [("n"%string, JInt (2 ^ 70))])) = None.
Proof. vm_compute. reflexivity. Qed.
End Demo.
