(* ===== verification/ProtocolTransport.v ===== *)
(** * oran-provider: the protocol system over an HTTP transport

    Models [src/oran-provider/protocol_transport.cpp] and
    [include/oran/provider/protocol_transport.hpp].  [make_protocol_system] checks a
    whole route before it reads a credential; [send] serves one attempt on one
    endpoint.  The transport, the environment and the secret lookup are host code:
    what they answer is a parameter, and what they are asked is recorded. *)
From S2P Require Import Prelude.
From S2P Require Import Core.
From S2P Require Import Json.
From S2P Require Import OrderedJson.
From S2P Require Import Provider.
From S2P Require Import ProtocolRequest.
From S2P Require Import ProtocolResponse.
From S2P Require Import SseDecoders.
Import EnumNames.

(** ** Values *)
Record ResolvedProfileTarget := mkProfile {
  rp_target : ModelTarget; rp_base_url : string; rp_api_key_env : string }.
Record RouteProfileResolution := mkResolution {
  rr_primary : ResolvedProfileTarget; rr_fallbacks : list ResolvedProfileTarget }.
Definition resolution_profiles (r : RouteProfileResolution) : list ResolvedProfileTarget :=
  rr_primary r :: rr_fallbacks r.
(** [RouteProfileResolution::route]. *)
Definition route (r : RouteProfileResolution) : Route :=
  mkRoute (rp_target (rr_primary r)) (map rp_target (rr_fallbacks r)).

Record ProtocolHttpRequest := mkHttpRequest {
  hr_method : string; hr_url : string; hr_headers : list (string * string); hr_body_json : string }.
Record ProtocolHttpResponse := mkHttpResponse {
  hs_status_code : Z; hs_headers : list (string * string); hs_body_json : string }.

Record Endpoint := mkEndpoint { ep_target : ModelTarget; ep_base_url : string; ep_api_key : string }.

(** What a [SecretLookup] does, and where keys come from. *)
Inductive SecretOutcome := secret (r : Result string) | secret_threw.
Record KeySource := mkKeySource {
  ks_lookup : option (string -> SecretOutcome);
  ks_getenv : string -> option string }.

(** ** Checking a profile *)
Definition config_error (message : string) (target : ModelTarget) : Error := protocol_error message target.

(** The first empty field of a profile. *)
Definition empty_field (p : ResolvedProfileTarget) : option string :=
  fst <$> List.find (fun f => negb (nonempty (snd f)))
    [("profile", mt_profile (rp_target p)); ("model", mt_model (rp_target p));
     ("base_url", rp_base_url p); ("api_key_env", rp_api_key_env p)]%string.

Definition starts_with (prefix s : string) : bool := String.prefix prefix s.

Definition validate_profile (p : ResolvedProfileTarget) : Result unit :=
  match empty_field p with
  | Some field => Err (Errors.with_ctx (config_error "provider endpoint field must be non-empty" (rp_target p))
                         "field" field)
  | None =>
      if negb (starts_with "http://" (rp_base_url p)) && negb (starts_with "https://" (rp_base_url p)) then
        Err (Errors.with_ctx (Errors.with_ctx
          (config_error "provider endpoint base_url must use http or https" (rp_target p))
          "field" "base_url") "base_url" (rp_base_url p))
      else if negb (bool_decide (mt_protocol (rp_target p) ∈ [anthropic_messages; openai_responses])) then
        Err (config_error "provider transport protocol is not implemented" (rp_target p))
      else Ok tt
  end.

Definition resolve_api_key (p : ResolvedProfileTarget) (source : KeySource) : Result string :=
  let failure m := Errors.with_ctx (Errors.with_ctx (Errors.mk ek_auth m)
                     "profile" (mt_profile (rp_target p))) "api_key_env" (rp_api_key_env p) in
  match ks_lookup source with
  | Some secrets =>
      match secrets (rp_api_key_env p) with
      | secret (Ok key) => if nonempty key then Ok key else Err (failure "provider credential is unavailable"%string)
      | secret (Err _) => Err (failure "provider credential is unavailable"%string)
      | secret_threw => Err (failure "provider credential lookup failed"%string)
      end
  | None =>
      match ks_getenv source (rp_api_key_env p) with
      | None => Err (failure "provider API-key environment variable is not set"%string)
      | Some value => if nonempty value then Ok value
                      else Err (failure "provider API-key environment variable is empty"%string)
      end
  end.

(** ** HTTP *)
Definition ends_with_slash (s : string) : bool := bool_decide (last (lit s) = Some "/"%char).
Definition starts_with_slash (s : string) : bool := bool_decide (head (lit s) = Some "/"%char).

Definition join_url (base_url path : string) : string :=
  let url :=
    if ends_with_slash base_url && starts_with_slash path then str (removelast (lit base_url))
    else if negb (ends_with_slash base_url) && negb (starts_with_slash path) then base_url +:+ "/"
    else base_url in
  url +:+ path.

Definition protocol_headers (e : Endpoint) : list (string * string) :=
  [("content-type", "application/json"); ("accept", "application/json")]%string ++
  match mt_protocol (ep_target e) with
  | anthropic_messages => [("x-api-key", ep_api_key e); ("anthropic-version", "2023-06-01")]%string
  | openai_responses => [("authorization"%string, "Bearer " +:+ ep_api_key e)]
  | _ => []
  end.

Definition http_status_error (response : ProtocolHttpResponse) (target : ModelTarget) : Error :=
  let with_status e :=
    Errors.with_ctx (Errors.with_ctx (Errors.with_ctx (Errors.with_ctx (Errors.with_ctx e
      "provider_profile" (mt_profile target)) "provider_model" (mt_model target))
      "protocol" (enum_name (mt_protocol target)))
      "http_status" (pretty (hs_status_code response)))
      "body_bytes" (pretty (String.length (hs_body_json response))) in
  let status := hs_status_code response in
  if (status =? 401)%Z || (status =? 403)%Z then with_status (Errors.mk ek_auth "provider authentication failed")
  else if (status =? 408)%Z then with_status (Errors.mk ek_timeout "provider request timed out")
  else if (status =? 429)%Z then with_status (Errors.rate_limit "provider rate limited")
  else if (500 <=? status)%Z then with_status (Errors.upstream "provider upstream error")
  else if (400 <=? status)%Z then with_status (Errors.invalid_argument "provider rejected request")
  else with_status (Errors.network "provider transport returned non-success status").

Definition success_status (status : Z) : bool := (200 <=? status)%Z && (status <? 300)%Z.

(** ** The system *)
(** A transport: whether it streams, and what it answers. *)
Record Transport := mkTransport {
  tr_supports_streaming : bool;
  tr_send : ProtocolHttpRequest -> Result ProtocolHttpResponse;
  tr_send_streaming : ProtocolHttpRequest -> list StreamEvent * Result ProtocolHttpResponse }.
(** [ProtocolTransport]'s defaults. *)
Definition body_transport (send : ProtocolHttpRequest -> Result ProtocolHttpResponse) : Transport :=
  mkTransport false send
    (fun _ => ([], Err (Errors.internal "protocol transport does not implement streaming"))).

(** What a send did: the HTTP requests, the calls on the sink, and how it ended
    ([None] when an exception leaves it). *)
Record Sent := mkSent {
  sn_http : list ProtocolHttpRequest; sn_calls : list SinkCall; sn_result : Exc Response }.

(** [RouteProfileResolution]: preflight, then the credentials. *)
Fixpoint preflight (seen : list ResolvedProfileTarget) (profiles : list ResolvedProfileTarget) : Result unit :=
  match profiles with
  | [] => Ok tt
  | p :: profiles =>
      let role := if bool_decide (seen = []) then "primary"%string else "fallback"%string in
      match validate_profile p with
      | Err e => Err (Errors.with_ctx e "role" role)
      | Ok _ =>
          if existsb (fun previous => bool_decide (mt_profile (rp_target previous) = mt_profile (rp_target p))) seen
          then Err (Errors.with_ctx (config_error "provider route contains duplicate profiles" (rp_target p))
                      "role" role)
          else preflight (seen ++ [p]) profiles
      end
  end.

(** The loop over the credentials; the names that were looked up are returned. *)
Fixpoint resolve_endpoints (endpoints : list Endpoint) (profiles : list ResolvedProfileTarget)
    (source : KeySource) : Result (list Endpoint) * list string :=
  match profiles with
  | [] => (Ok endpoints, [])
  | p :: profiles =>
      match resolve_api_key p source with
      | Err e => (Err (Errors.with_ctx e "role" (if bool_decide (length endpoints = 0) then "primary" else "fallback")),
                  [rp_api_key_env p])
      | Ok key =>
          let '(r, asked) := resolve_endpoints
            (endpoints ++ [mkEndpoint (rp_target p) (rp_base_url p) key]) profiles source in
          (r, rp_api_key_env p :: asked)
      end
  end.

Definition make_protocol_system (resolution : RouteProfileResolution) (source : KeySource)
    : Result (list Endpoint) * list string :=
  let profiles := resolution_profiles resolution in
  match preflight [] profiles with
  | Err e => (Err e, [])
  | Ok _ => resolve_endpoints [] profiles source
  end.

Section Send.
Context `{JsonLibrary} (transport : Transport).

Definition with_profile (e : Error) (target : ModelTarget) : Error :=
  Errors.with_ctx (Errors.with_ctx e "provider_profile" (mt_profile target)) "provider_model" (mt_model target).
Definition transport_error (e : Error) (target : ModelTarget) : Error :=
  Errors.with_ctx (with_profile e target) "protocol" (enum_name (mt_protocol target)).

Definition http_request (endpoint : Endpoint) (pr : ProtocolRequest) : ProtocolHttpRequest :=
  mkHttpRequest (pr_method pr) (join_url (ep_base_url endpoint) (pr_path pr)) (protocol_headers endpoint)
    (pr_body_json pr).

Definition set_stream (r : Request) (b : bool) : Request :=
  mkRequest (rq_messages r) (rq_system_prompt r) (rq_tools r) (rq_tool_choice r) (rq_max_tokens r)
    (rq_thinking_budget r) b (rq_cache r) (rq_retry r).

(** The end of a send whose answer arrived: its status, then what was assembled. *)
Definition conclude (http : ProtocolHttpRequest) (calls : list SinkCall)
    (answer : Result ProtocolHttpResponse) (target : ModelTarget)
    (assembled : ProtocolHttpResponse -> Exc Response * list SinkCall) : Sent :=
  match answer with
  | Err e => mkSent [http] calls (Some (Err (transport_error e target)))
  | Ok response =>
      if negb (success_status (hs_status_code response))
      then mkSent [http] calls (Some (Err (http_status_error response target)))
      else
        let '(r, more) := assembled response in
        mkSent [http] (calls ++ more) (map_error (fun e => with_profile e target) r)
  end.

Definition send_stream (request : Request) (target : ModelTarget) (endpoint : Endpoint) (has_sink : bool) : Sent :=
  match make_protocol_request (set_stream request true) target with
  | None => mkSent [] [] raise
  | Some (Err e) => mkSent [] [] (Some (Err e))
  | Some (Ok pr) =>
      let http := http_request endpoint pr in
      let '(events, answer) := tr_send_streaming transport http in
      if bool_decide (mt_protocol target = openai_responses) then
        match run_events (OpenAi.openai_consume target has_sink) OpenAi.openai_start events with
        | None => mkSent [http] [] raise
        | Some d => conclude http (OpenAi.od_calls d) answer target (fun _ => OpenAi.openai_result target has_sink d)
        end
      else
        match run_events (Anthropic.consume target has_sink) Anthropic.start events with
        | None => mkSent [http] [] raise
        | Some d => conclude http (Anthropic.ad_calls d) answer target
                      (fun _ => (Some (Anthropic.result target d), []))
        end
  end.

Definition send_body (request : Request) (target : ModelTarget) (endpoint : Endpoint) (has_sink : bool) : Sent :=
  match make_protocol_request (set_stream request false) target with
  | None => mkSent [] [] raise
  | Some (Err e) => mkSent [] [] (Some (Err e))
  | Some (Ok pr) =>
      let http := http_request endpoint pr in
      conclude http [] (tr_send transport http) target (fun response =>
        let decoded := decode_protocol_response (hs_body_json response) target in
        (decoded, match decoded with
                  | Some (Ok r) => if has_sink then [on_done (rs_stop_reason r)] else []
                  | _ => []
                  end))
  end.

(** [std::ranges::find] by profile name. *)
Definition find_endpoint (endpoints : list Endpoint) (profile : string) : option Endpoint :=
  List.find (fun e => bool_decide (mt_profile (ep_target e) = profile)) endpoints.

(** [ProtocolTransportSystem::send]. *)
Definition send (endpoints : list Endpoint) (request : Request) (target : ModelTarget) (has_sink : bool) : Sent :=
  let refuse e := mkSent [] [] (Some (Err e)) in
  match find_endpoint endpoints (mt_profile target) with
  | None => refuse (config_error "provider endpoint not available for route profile" target)
  | Some endpoint =>
      if negb (bool_decide (mt_model target = mt_model (ep_target endpoint))) then
        refuse (Errors.with_ctx (config_error "provider endpoint route model mismatch" (ep_target endpoint))
                  "route_model" (mt_model target))
      else if negb (bool_decide (mt_protocol target = mt_protocol (ep_target endpoint))) then
        refuse (Errors.with_ctx (config_error "provider endpoint route protocol mismatch" (ep_target endpoint))
                  "route_protocol" (enum_name (mt_protocol target)))
      else if rq_stream request && tr_supports_streaming transport
      then send_stream request target endpoint has_sink
      else send_body request target endpoint has_sink
  end.
End Send.

(** ** The route is checked before any credential is read *)
Definition distinct_profiles (ps : list ResolvedProfileTarget) : Prop :=
  NoDup (map (fun p => mt_profile (rp_target p)) ps).

Lemma preflight_ok ps : forall seen, distinct_profiles seen ->
  preflight seen ps = Ok tt <->
  Forall (fun p => validate_profile p = Ok tt) ps /\ distinct_profiles (seen ++ ps).
Proof.
  induction ps as [|p ps IH]; intros seen Hd; simpl; [rewrite app_nil_r; naive_solver|].
  rewrite Forall_cons. destruct (validate_profile p) as [[]|e]; [|naive_solver].
  destruct (existsb _ seen) eqn:He.
  - split; [done|]. intros [_ Hn]. exfalso. apply existsb_exists in He as (q & Hin & Hq%bool_decide_eq_true).
    unfold distinct_profiles in Hn. rewrite map_app in Hn. apply NoDup_app in Hn as (_ & Hx & _).
    apply (Hx (mt_profile (rp_target p))); [|by left]. rewrite <- Hq.
    apply list_elem_of_fmap. exists q. split; [done|]. by apply list_elem_of_In.
  - assert (Hd' : distinct_profiles (seen ++ [p])).
    { unfold distinct_profiles. rewrite map_app. apply NoDup_app. split_and!; [done| |apply NoDup_singleton].
      intros x (q & -> & Hin)%list_elem_of_fmap Hx%list_elem_of_singleton.
      assert (Ht : existsb (fun previous => bool_decide (mt_profile (rp_target previous) =
        mt_profile (rp_target p))) seen = true); [|congruence].
      apply existsb_exists. exists q. split; [by apply list_elem_of_In|by apply bool_decide_eq_true]. }
    rewrite (IH _ Hd'), <- (assoc_L (++)). simpl. naive_solver.
Qed.

(** An endpoint holds the key of its own profile. *)
Definition endpoint_of (source : KeySource) (p : ResolvedProfileTarget) (e : Endpoint) : Prop :=
  ep_target e = rp_target p /\ ep_base_url e = rp_base_url p /\ resolve_api_key p source = Ok (ep_api_key e).

Lemma resolve_endpoints_spec ps source : forall done r asked,
  resolve_endpoints done ps source = (r, asked) ->
  (exists n, asked = map rp_api_key_env (take n ps)) /\
  forall es, r = Ok es -> exists es', es = done ++ es' /\ Forall2 (endpoint_of source) ps es' /\
    asked = map rp_api_key_env ps.
Proof.
  induction ps as [|p ps IH]; intros done r asked; simpl.
  - intros [= <- <-]. split; [by exists 0|]. intros es [= <-]. exists []. by rewrite app_nil_r.
  - destruct (resolve_api_key p source) as [key|e] eqn:Hk.
    + destruct (resolve_endpoints _ ps source) as [r' asked'] eqn:Hr. intros [= <- <-].
      destruct (IH _ _ _ Hr) as [[n ->] Hes]. split; [by exists (S n)|].
      intros es He. destruct (Hes es He) as (es' & -> & Hf & Ha).
      eexists (_ :: es'). rewrite <- (assoc_L (++)). split; [done|]. split; [|by rewrite Ha].
      by constructor.
    + intros [= <- <-]. split; [by exists 1|done].
Qed.

(** no credential is read unless every profile of the route is valid and no two
    have the same name; the ones that are read are read in route order, and when all
    are found each endpoint holds the key of its own profile. *)
Theorem preflight_before_credentials resolution source r asked :
  make_protocol_system resolution source = (r, asked) ->
  (asked <> [] -> Forall (fun p => validate_profile p = Ok tt) (resolution_profiles resolution) /\
                 distinct_profiles (resolution_profiles resolution)) /\
  (exists n, asked = map rp_api_key_env (take n (resolution_profiles resolution))) /\
  (forall es, r = Ok es -> Forall2 (endpoint_of source) (resolution_profiles resolution) es /\
                          distinct_profiles (resolution_profiles resolution)).
Proof.
  unfold make_protocol_system. destruct (preflight [] _) as [[]|e] eqn:Hp.
  - apply preflight_ok in Hp as [Hv Hd]; [|constructor]. intros Hr.
    destruct (resolve_endpoints_spec _ _ _ _ _ Hr) as [Hn Hes]. split_and!; [done|done|].
    intros es He. destruct (Hes es He) as (es' & -> & Hf & _). done.
  - intros [= <- <-]. split_and!; [done|by exists 0|done].
Qed.

(** ** A credential goes to its own endpoint *)
Section Confined.
Context `{JsonLibrary} (transport : Transport).

Lemma conclude_http http calls answer target k : sn_http (conclude http calls answer target k) = [http].
Proof. unfold conclude. destruct answer; [|done]. case_match; [done|]. by destruct (k a). Qed.

Lemma send_http endpoints request target has_sink h :
  h ∈ sn_http (send transport endpoints request target has_sink) ->
  exists e pr b, find_endpoint endpoints (mt_profile target) = Some e /\
    mt_model target = mt_model (ep_target e) /\ mt_protocol target = mt_protocol (ep_target e) /\
    make_protocol_request (set_stream request b) target = Some (Ok pr) /\ h = http_request e pr.
Proof.
  unfold send. destruct (find_endpoint _ _) as [e|]; simpl; [|set_solver].
  case_bool_decide; simpl; [|set_solver]. case_bool_decide; simpl; [|set_solver].
  case_match.
  - unfold send_stream. destruct (make_protocol_request _ _) as [[pr|]|] eqn:Hp; simpl; [|set_solver..].
    destruct (tr_send_streaming _ _) as [events answer]. case_match; destruct (run_events _ _ _);
      rewrite ?conclude_http; intros Hin%list_elem_of_singleton; eauto 10.
  - unfold send_body. destruct (make_protocol_request _ _) as [[pr|]|] eqn:Hp; simpl; [|set_solver..].
    rewrite conclude_http. intros Hin%list_elem_of_singleton. eauto 10.
Qed.

(** Each send makes at most one HTTP request. *)
Lemma send_once endpoints request target has_sink :
  length (sn_http (send transport endpoints request target has_sink)) <= 1.
Proof.
  unfold send. destruct (find_endpoint _ _) as [e|]; simpl; [|lia].
  case_match; simpl; [lia|]. case_match; simpl; [lia|]. case_match.
  - unfold send_stream. destruct (make_protocol_request _ _) as [[pr|]|]; simpl; [|lia..].
    destruct (tr_send_streaming _ _) as [events answer].
    case_match; destruct (run_events _ _ _); rewrite ?conclude_http; simpl; lia.
  - unfold send_body. destruct (make_protocol_request _ _) as [[pr|]|]; simpl; [|lia..].
    rewrite conclude_http. simpl. lia.
Qed.

(** C35: a credential leaves only for its own endpoint: every HTTP request that a send
    makes goes to the base URL of the one profile the attempt names, and carries the
    key that was resolved for that profile; a send makes at most one. *)
Theorem credential_confined resolution source es asked request target has_sink h :
  make_protocol_system resolution source = (Ok es, asked) ->
  h ∈ sn_http (send transport es request target has_sink) ->
  sn_http (send transport es request target has_sink) = [h] /\
  exists p key pr, p ∈ resolution_profiles resolution /\
    (forall q, q ∈ resolution_profiles resolution -> mt_profile (rp_target q) = mt_profile target -> q = p) /\
    mt_profile (rp_target p) = mt_profile target /\ mt_model (rp_target p) = mt_model target /\
    resolve_api_key p source = Ok key /\
    hr_url h = join_url (rp_base_url p) (pr_path pr) /\
    hr_headers h = protocol_headers (mkEndpoint (rp_target p) (rp_base_url p) key).
Proof.
  intros Hsys Hin. split.
  { pose proof (send_once es request target has_sink) as Hl.
    destruct (sn_http _) as [|x [|y l]]; simpl in *; [set_solver|set_solver|lia]. }
  apply send_http in Hin as (e & pr & b & Hf & Hm & _ & _ & ->).
  assert (Hs : Forall2 (endpoint_of source) (resolution_profiles resolution) es /\
    distinct_profiles (resolution_profiles resolution)).
  { unfold make_protocol_system in Hsys. destruct (preflight [] _) as [[]|] eqn:Hp; [|done].
    apply preflight_ok in Hp as [_ Hd]; [|constructor].
    destruct (resolve_endpoints_spec _ _ _ _ _ Hsys) as [_ Hes].
    by destruct (Hes es eq_refl) as (es' & -> & Hf' & _). }
  destruct Hs as [Hes Hd]. apply List.find_some in Hf as [Hin Hprof%bool_decide_eq_true].
  apply list_elem_of_In in Hin. apply list_elem_of_lookup in Hin as [i Hi].
  destruct (Forall2_lookup_r _ _ _ _ _ Hes Hi) as (p & Hpi & Ht & Hu & Hk).
  exists p, (ep_api_key e), pr. assert (Hpp : p ∈ resolution_profiles resolution) by (by eapply list_elem_of_lookup_2).
  rewrite <- Ht, <- Hu. split_and!; try done.
  intros q Hq Hqp. apply list_elem_of_lookup in Hq as [j Hj].
  assert (Hij : j = i); [|congruence].
  eapply (NoDup_lookup _ _ _ (mt_profile target) Hd); rewrite list_lookup_fmap.
  - rewrite Hj. simpl. by rewrite Hqp.
  - rewrite Hpi. simpl. by rewrite <- Ht, Hprof.
Qed.

(** Two endpoints that differ at most in their key. *)
Definition same_endpoint (e e' : Endpoint) : Prop :=
  ep_target e = ep_target e' /\ ep_base_url e = ep_base_url e'.
(** A transport whose answers do not depend on the headers. *)
Definition header_blind : Prop := forall method url headers headers' body,
  tr_send transport (mkHttpRequest method url headers body) =
    tr_send transport (mkHttpRequest method url headers' body) /\
  tr_send_streaming transport (mkHttpRequest method url headers body) =
    tr_send_streaming transport (mkHttpRequest method url headers' body).

Lemma find_same es es' profile : Forall2 same_endpoint es es' ->
  match find_endpoint es profile, find_endpoint es' profile with
  | Some e, Some e' => same_endpoint e e'
  | None, None => True
  | _, _ => False
  end.
Proof.
  induction 1 as [|e e' es es' [Ht Hu] _ IH]; simpl; [done|]. rewrite <- Ht. by case_bool_decide.
Qed.

Lemma conclude_same h h' calls answer target k :
  sn_calls (conclude h calls answer target k) = sn_calls (conclude h' calls answer target k) /\
  sn_result (conclude h calls answer target k) = sn_result (conclude h' calls answer target k).
Proof. unfold conclude. destruct answer as [a|]; [|done]. case_match; [done|]. by destruct (k a). Qed.

(** credentials never enter diagnostics: with an endpoint that answers without
    looking at the headers, the result of a send, its error included, and the calls
    on the sink are the same for any other keys. *)
Theorem results_hide_credentials es es' request target has_sink :
  header_blind -> Forall2 same_endpoint es es' ->
  sn_result (send transport es request target has_sink) = sn_result (send transport es' request target has_sink) /\
  sn_calls (send transport es request target has_sink) = sn_calls (send transport es' request target has_sink).
Proof.
  intros Hb Hs. unfold send. pose proof (find_same _ _ (mt_profile target) Hs) as Hf.
  destruct (find_endpoint es _) as [e|], (find_endpoint es' _) as [e'|]; try done.
  destruct Hf as [Ht Hu]. rewrite <- Ht. case_match; [done|]. case_match; [done|]. case_match.
  - unfold send_stream. destruct (make_protocol_request _ _) as [[pr|]|]; try done.
    unfold http_request. rewrite <- Hu. destruct (Hb (pr_method pr) (join_url (ep_base_url e) (pr_path pr))
      (protocol_headers e) (protocol_headers e') (pr_body_json pr)) as [_ ->].
    destruct (tr_send_streaming _ _) as [events answer].
    case_match.
    + destruct (run_events _ OpenAi.openai_start _) as [d|]; [|done]. split; apply conclude_same.
    + destruct (run_events _ Anthropic.start _) as [d|]; [|done]. split; apply conclude_same.
  - unfold send_body. destruct (make_protocol_request _ _) as [[pr|]|]; try done.
    unfold http_request. rewrite <- Hu. destruct (Hb (pr_method pr) (join_url (ep_base_url e) (pr_path pr))
      (protocol_headers e) (protocol_headers e') (pr_body_json pr)) as [-> _].
    split; apply conclude_same.
Qed.

(** ** The sink's contract *)
Lemma run_openai_not_done target has_sink stream : forall d d',
  Forall (fun c => forall r, c <> on_done r) (OpenAi.od_calls d) ->
  run_events (OpenAi.openai_consume target has_sink) d stream = Some d' ->
  Forall (fun c => forall r, c <> on_done r) (OpenAi.od_calls d').
Proof.
  assert (Hcall : forall d c, (forall r, c <> on_done r) ->
    Forall (fun c => forall r, c <> on_done r) (OpenAi.od_calls d) ->
    Forall (fun c => forall r, c <> on_done r) (OpenAi.od_calls (OpenAi.openai_call has_sink d c))).
  { intros d c Hc Hd. unfold OpenAi.openai_call. destruct has_sink; [|done]. simpl.
    apply Forall_app_2; [done|]. by constructor. }
  assert (Hfail : forall d e, Forall (fun c => forall r, c <> on_done r) (OpenAi.od_calls d) ->
    Forall (fun c => forall r, c <> on_done r) (OpenAi.od_calls (OpenAi.openai_fail d e))).
  { intros d e Hd. unfold OpenAi.openai_fail. by destruct (OpenAi.od_error d). }
  assert (Hstart : forall d k s, Forall (fun c => forall r, c <> on_done r) (OpenAi.od_calls d) ->
    Forall (fun c => forall r, c <> on_done r) (OpenAi.od_calls (OpenAi.maybe_start_tool has_sink d k s))).
  { intros d k s Hd. unfold OpenAi.maybe_start_tool. case_match; [done|]. by apply Hcall. }
  induction stream as [|[event data] stream IH]; intros d d' Hd; cbn [run_events]; [by intros [= <-]|].
  destruct (OpenAi.openai_consume target has_sink d (event, data)) as [d1|] eqn:Hc; [|done].
  apply IH. revert Hc. unfold OpenAi.openai_consume. destruct (OpenAi.od_error d); [by intros [= <-]|].
  destruct (json_parse data) as [v| |]; [|intros [= <-]; by apply Hfail|done].
  destruct (is_object v); [|intros [= <-]; by apply Hfail]. unfold OpenAi.openai_on_payload.
  repeat (case_bool_decide; [intros [= <-]|]); try by apply Hcall.
  - unfold OpenAi.output_item_added. repeat case_match; auto.
  - unfold OpenAi.arguments_delta. case_match; [done|]. by apply Hcall.
  - unfold OpenAi.arguments_done. case_match; [done|]. by apply Hstart.
  - case_match; [|case_bool_decide; intros [= <-]; auto; by apply Hfail].
    unfold OpenAi.terminal_event. case_match; [|intros [= <-]; by apply Hfail].
    case_bool_decide; [intros [= <-]; by apply Hfail|]. by case_match; [intros [= <-]|].
Qed.

(** on the body path, and on a Responses stream, a send that succeeds tells the
    sink that it is done exactly once, last, with the stop reason of the response it
    returns. *)
Theorem sink_done_last es request target r :
  mt_protocol target = openai_responses \/ rq_stream request && tr_supports_streaming transport = false ->
  sn_result (send transport es request target true) = Some (Ok r) ->
  exists deltas, sn_calls (send transport es request target true) = deltas ++ [on_done (rs_stop_reason r)] /\
    Forall (fun c => forall reason, c <> on_done reason) deltas.
Proof.
  intros Hpath. unfold send. destruct (find_endpoint _ _) as [e|]; [|done].
  case_match; [done|]. case_match; [done|]. case_match.
  - destruct Hpath as [Hopen|]; [|done].
    unfold send_stream. destruct (make_protocol_request _ _) as [[pr|]|]; try done.
    destruct (tr_send_streaming _ _) as [events answer]. rewrite bool_decide_true by done.
    destruct (run_events _ OpenAi.openai_start _) as [d|] eqn:Hr; [|done].
    apply run_openai_not_done in Hr; [|constructor].
    unfold conclude. destruct answer as [a|]; [|done]. case_match; [done|].
    unfold OpenAi.openai_result. destruct (OpenAi.od_error d); [done|].
    destruct (OpenAi.od_final_response_json d) as [s|]; [|done]. simpl.
    destruct (decode_protocol_response s target) as [[r'|]|]; try done. simpl. intros [= <-]. eauto.
  - unfold send_body. destruct (make_protocol_request _ _) as [[pr|]|]; try done.
    unfold conclude. destruct (tr_send _ _) as [a|]; [|done]. case_match; [done|]. simpl.
    destruct (decode_protocol_response _ target) as [[r'|]|]; try done. simpl. intros [= <-].
    exists []. by split.
Qed.
End Confined.

(** ** Statuses and URLs *)
(** an answer whose status is not a success becomes an error that is retried
    exactly for a timeout, a rate limit, a server error or an unexpected status below
    400; it depends on the status and the size of the body, never on its text. *)
Theorem status_error_spec response target :
  (Errors.retryable (http_status_error response target) = true <->
     hs_status_code response = 408%Z \/ hs_status_code response = 429%Z \/
     (500 <= hs_status_code response)%Z \/ (hs_status_code response < 400)%Z) /\
  (err_kind (http_status_error response target) = ek_auth <->
     hs_status_code response = 401%Z \/ hs_status_code response = 403%Z) /\
  forall response', hs_status_code response' = hs_status_code response ->
    String.length (hs_body_json response') = String.length (hs_body_json response) ->
    http_status_error response' target = http_status_error response target.
Proof.
  split_and!.
  - unfold http_status_error. repeat case_match; bool_prop; cbn; split; try done; try lia;
      match goal with H : _ || _ = true |- _ => apply orb_true_iff in H; lia end.
  - unfold http_status_error. repeat case_match; bool_prop; cbn; split; try done; try lia;
      match goal with H : _ || _ = true |- _ => apply orb_true_iff in H; lia end.
  - intros response' Hs Hl. unfold http_status_error. by rewrite Hs, Hl.
Qed.

(** a path that starts with a slash is joined to a base URL with exactly one,
    whether the base ends with it or not. *)
Theorem join_url_one_slash base path :
  ends_with_slash base = false -> starts_with_slash path = true ->
  join_url base path = (base +:+ path)%string /\ join_url (base +:+ "/") path = (base +:+ path)%string.
Proof.
  intros Hb Hp. unfold join_url. rewrite Hb, Hp. split; [done|].
  unfold ends_with_slash. rewrite lit_app. change (lit "/") with ["/"%char]. rewrite last_snoc, bool_decide_true by done. simpl.
  rewrite removelast_last. by rewrite str_lit.
Qed.

(** ** A route of two profiles *)
Module Demo.
Import Sample ProtocolRequest.Demo ProtocolResponse.Demo.
Definition primary_profile : ResolvedProfileTarget :=
  mkProfile target "https://api.main.test/" "MAIN_KEY".
Definition spare_profile : ResolvedProfileTarget :=
  mkProfile openai_target "https://spare.test" "SPARE_KEY".
Definition resolution : RouteProfileResolution := mkResolution primary_profile [spare_profile].
Definition environment : KeySource := mkKeySource None (fun name =>
  if bool_decide (name = "MAIN_KEY"%string) then Some "k1"%string
  else if bool_decide (name = "SPARE_KEY"%string) then Some "k2"%string else None).
Definition endpoints : list Endpoint :=
  [mkEndpoint target "https://api.main.test/" "k1"; mkEndpoint openai_target "https://spare.test" "k2"].
Definition transport : Transport := body_transport (fun h =>
  Ok (mkHttpResponse 200 [] (text (if bool_decide (hr_url h = "https://spare.test/responses"%string)
                                   then openai_answer else answer)))).
Definition the_request : ProtocolHttpRequest :=
  mkHttpRequest "POST" "https://api.main.test/v1/messages"
    [("content-type", "application/json"); ("accept", "application/json"); ("x-api-key", "k1");
     ("anthropic-version", "2023-06-01")]%string
    (pr_body_json (encoded (make_protocol_request (set_stream request false) target))).

Lemma preflight_before_credentials_witness :
  make_protocol_system resolution environment = (Ok endpoints, ["MAIN_KEY"; "SPARE_KEY"]%string) /\
  forall es, Ok endpoints = Ok es -> Forall2 (endpoint_of environment) (resolution_profiles resolution) es /\
    distinct_profiles (resolution_profiles resolution).
Proof.
  split; [vm_compute; reflexivity|].
  apply (preflight_before_credentials resolution environment (Ok endpoints) ["MAIN_KEY"; "SPARE_KEY"]%string).
  vm_compute. reflexivity.
Defined.

Lemma credential_confined_witness :
  sn_http (send transport endpoints request target true) = [the_request].
Proof.
  apply (credential_confined transport resolution environment endpoints ["MAIN_KEY"; "SPARE_KEY"]%string).
  - vm_compute. reflexivity.
  - assert (He : sn_http (send transport endpoints request target true) = [the_request])
      by (vm_compute; reflexivity).
    rewrite He. apply list_elem_of_here.
Defined.

Definition other_endpoints : list Endpoint :=
  [mkEndpoint target "https://api.main.test/" "x1"; mkEndpoint openai_target "https://spare.test" "x2"].
Lemma results_hide_credentials_witness :
  sn_result (send transport endpoints request target true) =
    sn_result (send transport other_endpoints request target true) /\
  sn_calls (send transport endpoints request target true) =
    sn_calls (send transport other_endpoints request target true).
Proof.
  apply results_hide_credentials; [by split|].
  apply Forall2_cons_2; [by split|]. apply Forall2_cons_2; [by split|apply Forall2_nil_2].
Defined.

Lemma sink_done_last_witness :
  let r := decoded (sn_result (send transport endpoints request openai_target true)) in
  exists deltas, sn_calls (send transport endpoints request openai_target true) = deltas ++ [on_done (rs_stop_reason r)] /\
    Forall (fun c => forall reason, c <> on_done reason) deltas.
Proof. apply sink_done_last; [by left|vm_compute; reflexivity]. Defined.

Lemma join_url_one_slash_witness :
  join_url "https://a" "/v1" = "https://a/v1"%string /\ join_url ("https://a" +:+ "/") "/v1" = "https://a/v1"%string.
Proof. apply (join_url_one_slash "https://a" "/v1"); reflexivity. Defined.
End Demo.
