(* ===== verification/Prompt.v ===== *)
(** * The tool catalogue and the rendered prompt prefix

    Models [src/oran-tool/catalog.cpp] and [src/oran-prompt/render.cpp]: the tool
    definitions a turn offers, the system text it sends and the 64-bit FNV-1a
    fingerprints of both.  [std::ranges::sort] is the merge sort of the library; the
    result does not depend on the choice, because equal names are refused. *)
From stdpp Require Import sorting.
From S2P Require Import Prelude Core.
#[local] Open Scope Z_scope.

(** ** Selecting tools *)
Definition catalog_contains (catalog : list ToolDef) (name : string) : bool :=
  existsb (fun d => bool_decide (td_name d = name)) catalog.

Definition active_error (name : string) : Error :=
  Errors.with_ctx (Errors.not_found "active tool is not registered") "tool" name.
Definition duplicate_error (name : string) : Error :=
  Errors.with_ctx (Errors.invalid_argument "tool catalogue contains duplicate names") "tool" name.

(** The first name that the catalogue lacks. *)
Fixpoint missing_name (catalog : list ToolDef) (names : list string) : option string :=
  match names with
  | [] => None
  | n :: names => if catalog_contains catalog n then missing_name catalog names else Some n
  end.

Definition offered (names : option (list string)) (d : ToolDef) : bool :=
  match names with Some ns => bool_decide (td_name d ∈ ns) | None => true end.

(** The order of [std::string], by unsigned bytes. *)
Definition name_le (a b : ToolDef) : Prop := String.le (td_name a) (td_name b).
#[export] Instance name_le_dec : RelDecision name_le.
Proof. unfold name_le. intros a b. apply _. Defined.

(** [std::ranges::adjacent_find] on the names. *)
Fixpoint adjacent_find (l : list ToolDef) : option ToolDef :=
  match l with
  | a :: ((b :: _) as rest) =>
      if bool_decide (td_name a = td_name b) then Some a else adjacent_find rest
  | _ => None
  end.

Definition select_tools (catalog : list ToolDef) (names : option (list string))
    : Result (list ToolDef) :=
  match names ≫= missing_name catalog with
  | Some name => Err (active_error name)
  | None =>
      let selected := merge_sort name_le (List.filter (offered names) catalog) in
      match adjacent_find selected with
      | Some d => Err (duplicate_error (td_name d))
      | None => Ok selected
      end
  end.

(** ** Rendering the prefix *)
Definition FNV_OFFSET : Z := 14695981039346656037.
Definition FNV_PRIME : Z := 1099511628211.

Definition hash_append (hash : Z) (b : bytes) : Z :=
  fold_left (fun h c => wrap_u 64 (Z.lxor h (code c) * FNV_PRIME)) b hash.
Definition hash_append_u64 (hash value : Z) : Z := hash_append hash (le_bytes 8 value).
Definition hash_field (hash : Z) (b : bytes) : Z :=
  hash_append (hash_append_u64 hash (Z.of_nat (length b))) b.
Definition hash_tools (tools : list ToolDef) : Z :=
  fold_left (fun h d =>
    hash_field (hash_field (hash_field h (lit (td_name d))) (lit (td_description d)))
      (lit (td_input_schema_json d)))
    tools (hash_append_u64 FNV_OFFSET (Z.of_nat (length tools))).

Record RenderInputs := mkRenderInputs {
  ri_system_preamble : string; ri_tools : list ToolDef; ri_skills_catalog : string;
  ri_memory_framing : string; ri_per_agent_overlay : string }.
Record RenderedPrompt := mkRendered {
  rd_system_prompt : string; rd_tool_catalog_hash : Z; rd_prefix_hash : Z; rd_prefix_bytes : Z }.

Definition line_feed : string := String (ascii_of_nat 10) EmptyString.
Definition size (s : string) : Z := Z.of_nat (String.length s).

Definition append_section (prompt text : string) : string :=
  if bool_decide (text = "")%string then prompt
  else if bool_decide (prompt = "")%string then text else prompt +:+ line_feed +:+ text.

Definition render_sections (i : RenderInputs) : list string :=
  [ri_system_preamble i; ri_skills_catalog i; ri_memory_framing i; ri_per_agent_overlay i].

Definition render (i : RenderInputs) : RenderedPrompt :=
  let prompt := fold_left append_section (render_sections i) ""%string in
  let catalog_hash := hash_tools (ri_tools i) in
  mkRendered prompt catalog_hash
    (hash_append_u64 (hash_field FNV_OFFSET (lit prompt)) catalog_hash)
    (fold_left (fun n d => n + size (td_name d) + size (td_description d) + size (td_input_schema_json d))
       (ri_tools i) (size prompt)).

(** ** Selection *)
Lemma missing_name_none catalog names :
  missing_name catalog names = None <->
  forall n, n ∈ names -> exists d, d ∈ catalog /\ td_name d = n.
Proof.
  assert (Hc : forall n, catalog_contains catalog n = true <->
            exists d, d ∈ catalog /\ td_name d = n).
  { intros n. unfold catalog_contains. rewrite existsb_exists.
    setoid_rewrite <- list_elem_of_In. by setoid_rewrite bool_decide_eq_true. }
  induction names as [|n names IH]; cbn [missing_name].
  { split; [intros _ n Hn; by apply not_elem_of_nil in Hn|done]. }
  destruct (catalog_contains catalog n) eqn:E.
  - rewrite IH. apply Hc in E. split.
    + intros H m [->|Hm]%elem_of_cons; auto.
    + intros H m Hm. apply H. by apply elem_of_cons; right.
  - split; [done|]. intros H. apply not_true_iff_false in E. exfalso. apply E, Hc, H.
    apply elem_of_cons. by left.
Qed.

Lemma merge_sort_sorted l : Sorted name_le (merge_sort name_le l).
Proof. apply Sorted_merge_sort. intros a b. unfold name_le. apply (total String.le). Qed.

Lemma adjacent_find_nodup l :
  Sorted name_le l -> adjacent_find l = None <-> NoDup (map td_name l).
Proof.
  induction l as [|a [|b l] IH]; intros Hs; cbn [adjacent_find].
  { simpl. split; [constructor|done]. }
  { simpl. split; [|done]. intros _. apply NoDup_singleton. }
  apply Sorted_inv in Hs as [Hs Hab]. apply HdRel_inv in Hab.
  case_bool_decide as E.
  { split; [done|]. cbn [map]. rewrite E. intros [Hn _]%NoDup_cons. exfalso. apply Hn.
    apply elem_of_cons. by left. }
  rewrite (IH Hs). change (map td_name (a :: b :: l)) with (td_name a :: map td_name (b :: l)).
  rewrite NoDup_cons. split; [|by intros [_ ?]]. intros Hn. split; [|done].
  assert (Hall : forall d, d ∈ b :: l -> String.le (td_name b) (td_name d)).
  { assert (Htr : Transitive name_le) by (intros x y z; unfold name_le; apply (transitivity (R := String.le))).
    apply Sorted_StronglySorted in Hs; [|done]. apply StronglySorted_inv in Hs as [_ Hf].
    intros d [->|Hd]%elem_of_cons; [reflexivity|]. by eapply Forall_forall in Hf. }
  intros Hin. apply list_elem_of_fmap in Hin as (d & Hd & Hin).
  apply E. apply (anti_symm String.le); [done|]. rewrite Hd. by apply Hall.
Qed.

(** The selection as a relation: what a successful call returns. *)
Definition selects (catalog : list ToolDef) (names : option (list string)) (s : list ToolDef) : Prop :=
  (forall ns, names = Some ns -> forall n, n ∈ ns -> exists d, d ∈ catalog /\ td_name d = n) /\
  s ≡ₚ List.filter (offered names) catalog /\ Sorted name_le s /\ NoDup (map td_name s).

Lemma selects_unique catalog catalog' names s s' :
  catalog ≡ₚ catalog' -> selects catalog names s -> selects catalog' names s' -> s = s'.
Proof.
  intros Hp (_ & Hs & Hso & Hnd) (_ & Hs' & Hso' & _).
  assert (Hperm : s ≡ₚ s').
  { rewrite Hs, Hs'. clear -Hp. induction Hp; simpl; repeat case_match; eauto using Permutation. }
  assert (Htr : Transitive name_le) by (intros x y z; unfold name_le; apply (transitivity (R := String.le))).
  apply (Sorted_unique_strong name_le); [|done..].
  intros x1 x2 H1 H2 Hle1 Hle2.
  assert (Hname : td_name x1 = td_name x2) by by apply (anti_symm String.le).
  rewrite <- Hperm in H2. apply list_elem_of_lookup in H1 as [i Hi].
  apply list_elem_of_lookup in H2 as [j Hj].
  assert (i = j); [|congruence].
  eapply (NoDup_lookup _ i j (td_name x1) Hnd); rewrite list_lookup_fmap; [by rewrite Hi|].
  rewrite Hj. simpl. by rewrite Hname.
Qed.

Lemma select_tools_iff catalog names s :
  select_tools catalog names = Ok s <-> selects catalog names s.
Proof.
  unfold select_tools.
  set (sorted := merge_sort name_le (List.filter (offered names) catalog)).
  pose proof (merge_sort_sorted (List.filter (offered names) catalog)) as Hsorted. fold sorted in Hsorted.
  assert (Hperm : sorted ≡ₚ List.filter (offered names) catalog) by apply merge_sort_Permutation.
  assert (Hmiss : names ≫= missing_name catalog = None <->
    forall ns, names = Some ns -> forall n, n ∈ ns -> exists d, d ∈ catalog /\ td_name d = n).
  { destruct names as [ns|]; simpl; [|done]. rewrite missing_name_none. naive_solver. }
  destruct (names ≫= missing_name catalog) as [n|].
  { split; [done|]. by intros [H%Hmiss _]. }
  destruct Hmiss as [Hmiss _]. specialize (Hmiss eq_refl).
  assert (Hsel : NoDup (map td_name sorted) -> selects catalog names sorted) by done.
  destruct (adjacent_find sorted) as [d|] eqn:E.
  - split; [done|]. intros (_ & Hp & _ & Hnd). exfalso.
    assert (adjacent_find sorted = None); [|congruence]. apply adjacent_find_nodup; [done|].
    rewrite Hperm, <- Hp. done.
  - apply adjacent_find_nodup in E; [|done]. split; [by intros [= <-]; apply Hsel|].
    intros Hs. f_equal. by apply (selects_unique catalog catalog names); [|apply Hsel|].
Qed.

(** ** The fingerprint's text *)
(** The bytes the fingerprints are taken of. *)
Definition field_bytes (b : bytes) : bytes := le_bytes 8 (Z.of_nat (length b)) ++ b.
Definition tool_bytes (d : ToolDef) : bytes :=
  field_bytes (lit (td_name d)) ++ field_bytes (lit (td_description d)) ++
  field_bytes (lit (td_input_schema_json d)).
Definition catalog_bytes (tools : list ToolDef) : bytes :=
  le_bytes 8 (Z.of_nat (length tools)) ++ concat (map tool_bytes tools).

(** What the model is offered of a tool. *)
Definition declaration (d : ToolDef) : string * string * string :=
  (td_name d, td_description d, td_input_schema_json d).

Lemma hash_append_app h a b : hash_append h (a ++ b) = hash_append (hash_append h a) b.
Proof. apply fold_left_app. Qed.

Lemma hash_field_bytes h b : hash_field h b = hash_append h (field_bytes b).
Proof. unfold hash_field, hash_append_u64, field_bytes. by rewrite hash_append_app. Qed.

Lemma hash_tools_bytes tools : hash_tools tools = hash_append FNV_OFFSET (catalog_bytes tools).
Proof.
  unfold hash_tools, catalog_bytes, hash_append_u64. rewrite hash_append_app.
  generalize (hash_append FNV_OFFSET (le_bytes 8 (Z.of_nat (length tools)))).
  induction tools as [|d tools IH]; intros h; cbn [fold_left map concat]; [done|].
  rewrite IH. unfold tool_bytes. by rewrite !hash_field_bytes, !hash_append_app.
Qed.

Definition representable (b : bytes) : Prop := fits_u 64 (Z.of_nat (length b)).

Lemma size_bytes_inj n m r r' :
  fits_u 64 (Z.of_nat n) -> fits_u 64 (Z.of_nat m) ->
  le_bytes 8 (Z.of_nat n) ++ r = le_bytes 8 (Z.of_nat m) ++ r' -> n = m /\ r = r'.
Proof.
  intros Hn Hm H. apply app_inj_1 in H as [H ->]; [|by rewrite !le_bytes_length].
  split; [|done]. apply le_bytes_inj in H. unfold fits_u in *.
  change (8 * Z.of_nat 8) with 64 in H. rewrite !Z.mod_small in H; lia.
Qed.

Lemma field_bytes_inj a b r r' :
  representable a -> representable b ->
  field_bytes a ++ r = field_bytes b ++ r' -> a = b /\ r = r'.
Proof.
  unfold field_bytes. intros Ha Hb H. rewrite <- !app_assoc in H.
  apply size_bytes_inj in H as [Hl H]; [|done..]. apply app_inj_1 in H; [done|]. lia.
Qed.

Definition representable_tool (d : ToolDef) : Prop :=
  representable (lit (td_name d)) /\ representable (lit (td_description d)) /\
  representable (lit (td_input_schema_json d)).

Lemma catalog_bytes_inj tools tools' :
  Forall representable_tool tools -> Forall representable_tool tools' ->
  fits_u 64 (Z.of_nat (length tools)) -> fits_u 64 (Z.of_nat (length tools')) ->
  catalog_bytes tools = catalog_bytes tools' -> map declaration tools = map declaration tools'.
Proof.
  intros Hf Hf' Hn Hn' H. unfold catalog_bytes in H.
  apply size_bytes_inj in H as [Hl H]; [|done..]. clear Hn Hn'.
  revert tools' Hf' Hl H. induction Hf as [|d tools (Hd1 & Hd2 & Hd3) Hf IH];
    intros [|d' tools'] Hf' Hl H; try done.
  apply Forall_cons in Hf' as [(Hd1' & Hd2' & Hd3') Hf']. cbn [map concat] in H.
  unfold tool_bytes in H. rewrite <- !app_assoc in H.
  apply field_bytes_inj in H as [H1%lit_inj H]; [|done..].
  apply field_bytes_inj in H as [H2%lit_inj H]; [|done..].
  apply field_bytes_inj in H as [H3%lit_inj H]; [|done..].
  cbn [map]. f_equal; [unfold declaration; congruence|]. apply IH; [done|by injection Hl|done].
Qed.

(** ** Theorems *)
(** the selected tools are exactly the offered definitions of the catalogue, in name
    order and without duplicates; a call fails only for an unknown active name or a
    duplicate one, and the order of the catalogue never matters. *)
Theorem select_tools_canonical catalog names s :
  (select_tools catalog names = Ok s <->
     (forall ns, names = Some ns -> forall n, n ∈ ns -> exists d, d ∈ catalog /\ td_name d = n) /\
     s ≡ₚ List.filter (offered names) catalog /\ Sorted name_le s /\ NoDup (map td_name s)) /\
  forall catalog' s', catalog ≡ₚ catalog' ->
    select_tools catalog names = Ok s -> select_tools catalog' names = Ok s' -> s = s'.
Proof.
  split; [apply select_tools_iff|]. intros catalog' s' Hp Hs%select_tools_iff Hs'%select_tools_iff.
  by apply (selects_unique catalog catalog' names).
Qed.

(** the prefix identity covers exactly what the model is sent: both hashes are FNV-1a
    over an encoding that determines the system text and, of every tool in order, the
    name, the description and the schema, and nothing else of a tool enters it. *)
Theorem render_fingerprint i i' :
  rd_tool_catalog_hash (render i) = hash_append FNV_OFFSET (catalog_bytes (ri_tools i)) /\
  rd_prefix_hash (render i) = hash_append FNV_OFFSET
    (field_bytes (lit (rd_system_prompt (render i))) ++ le_bytes 8 (rd_tool_catalog_hash (render i))) /\
  (map declaration (ri_tools i) = map declaration (ri_tools i') ->
     rd_tool_catalog_hash (render i) = rd_tool_catalog_hash (render i')) /\
  (Forall representable_tool (ri_tools i) -> Forall representable_tool (ri_tools i') ->
   fits_u 64 (Z.of_nat (length (ri_tools i))) -> fits_u 64 (Z.of_nat (length (ri_tools i'))) ->
   catalog_bytes (ri_tools i) = catalog_bytes (ri_tools i') ->
   map declaration (ri_tools i) = map declaration (ri_tools i')).
Proof.
  assert (Hh : forall j, rd_tool_catalog_hash (render j) =
            hash_append FNV_OFFSET (catalog_bytes (ri_tools j))) by (intros j; apply hash_tools_bytes).
  split_and!; [apply Hh| | |apply catalog_bytes_inj].
  - unfold render. cbn [rd_prefix_hash rd_system_prompt rd_tool_catalog_hash].
    unfold hash_append_u64. by rewrite hash_append_app, hash_field_bytes.
  - intros Hd. rewrite !Hh. f_equal. unfold catalog_bytes.
    assert (Hl : length (ri_tools i) = length (ri_tools i')).
    { apply (f_equal length) in Hd. by rewrite !length_map in Hd. }
    rewrite Hl. f_equal. f_equal.
    assert (Ht : forall l, map tool_bytes l = map (fun t => field_bytes (lit t.1.1) ++
              field_bytes (lit t.1.2) ++ field_bytes (lit t.2)) (map declaration l)).
    { intros l. by rewrite map_map. }
    by rewrite !Ht, Hd.
Qed.
