(* ===== verification/Scheduler.v ===== *)
(** * oran-agent: the tool scheduler

    Models [include/oran/agent/scheduler.hpp] and [src/oran-agent/scheduler.cpp].  A
    batch is the [BatchState] of the code together with the local variables of
    [run_batch]; [active] is [SharedState::active_contexts], shared by all batches.
    Everything runs on one strand, so the code between two suspensions is one
    operation: [open_batch] up to the first [receive], [on_received] and
    [on_parent_cancelled] after it, [on_drained] and [on_grace_over] in the second
    phase, and [finish_call], the completion handler of a dispatch.  [step]
    interleaves the batches of a scheduler; a prototype context is named by a number,
    its address in the code.  A step is labelled with what it shows (a batch opened on its
    calls, the end of a dispatch, the receipt of a report) and [runs] keeps the labels, so
    the theorems compare what a batch returned with the history that led to it. *)
From Stdlib Require Import Sorted.
From S2P Require Import Prelude Core Dispatch.

(** ** Data *)
Record ToolSchedulerOptions := mkSchedOptions {
  max_parallel_tools : nat; per_call_timeout : Z }.
Record ToolBatchCall := mkCall { tool_use_id : string; call_name : string; call_input : string }.
Definition empty_call : ToolBatchCall := mkCall "" "" "".
Record ToolBatchResult := mkBatchResult {
  br_tool_use_id : string; br_name : string; br_output : Result Output }.

Definition parent_cancelled_error : Error :=
  Errors.with_ctx Errors.cancelled "reason" "parent_cancelled".
Definition timeout_error (tool_name : string) (per_call_timeout : Z) : Error :=
  Errors.with_ctx (Errors.with_ctx (Errors.with_ctx Errors.cancelled "reason" "timeout")
    "tool" tool_name) "per_call_timeout_ms" (pretty per_call_timeout).
Definition dispatch_failed : Error := Errors.internal "tool dispatch failed unexpectedly".

Inductive Phase := draining | cancelling | returned (r : Result (list ToolBatchResult)).

Record BatchState := mkBatch {
  b_context : nat;
  b_calls : list ToolBatchCall;
  b_results : list (option (Result Output));
  b_completion : list nat;
  b_signalled : list bool;
  b_admitted : nat;
  b_reported : list bool;
  b_completed : nat;
  (** the dispatch coroutines that run *)
  b_frames : gset nat;
  b_phase : Phase;
  (** the tools named by [cancellation_lag] audit rows *)
  b_lag : list string }.

(** [active_contexts]. *)
Abbreviation Active := (gmap nat nat).
Definition active_incr (c : nat) (a : Active) : Active := <[c := S (default 0 (a !! c))]> a.
(** [if (--active[c] == 0) active.erase(c)]. *)
Definition active_decr (c : nat) (a : Active) : Active :=
  let n := default 0 (a !! c) - 1 in
  if n =? 0 then delete c a else <[c := n]> a.

(** ** One call *)
(** How [registry.dispatch || sleep_for(timeout)] ends. *)
Inductive Raced :=
  | dispatched (r : Result Output)
  | dispatch_threw (cancelled : bool)
  | timer (r : Result unit).

(** [dispatch]: an exception becomes an error. *)
Definition dispatch_threw_error (cancelled : bool) : Error :=
  if cancelled then parent_cancelled_error else dispatch_failed.

Definition run_call (o : ToolSchedulerOptions) (call : ToolBatchCall) (raced : Raced) : Result Output :=
  match raced with
  | dispatched r => r
  | dispatch_threw cancelled => Err (dispatch_threw_error cancelled)
  | timer (Err _) => Err parent_cancelled_error
  | timer (Ok _) => Err (timeout_error (call_name call) (per_call_timeout o))
  end.

(** The context of a call: a fresh copy of the prototype; only a batch of one may
    write the approval-token slot. *)
Definition set_path_locks {A} (c : DispatchContext A) : DispatchContext A :=
  mkContext (cx_mode c) (cx_rules c) (cx_parent_policy c) (cx_has_broker c) (cx_approval_token c)
    (cx_has_token_output c) (cx_now c) (cx_bus c) (cx_active_tools c) (cx_workspace c)
    true (cx_resolved_path c) (cx_output_caps c) (cx_parent_turn_id c) (cx_scope_key c)
    (cx_agent_key c) (cx_identity c).
Definition call_context {A} (prototype : DispatchContext A) (calls : nat) (now : Z) : DispatchContext A :=
  set_path_locks (for_now prototype (calls =? 1) now).

(** What the completion handler stores: [raced], or an escaped exception. *)
Definition completed_output (o : ToolSchedulerOptions) (call : ToolBatchCall) (raced : option Raced)
    : Result Output :=
  match raced with
  | Some r => run_call o call r
  | None => Err dispatch_failed
  end.

(** ** The batch *)
Section Batch.
Context (o : ToolSchedulerOptions).

Definition set_started (b : BatchState) (frames : gset nat) (admitted : nat) : BatchState :=
  mkBatch (b_context b) (b_calls b) (b_results b) (b_completion b) (b_signalled b) admitted
    (b_reported b) (b_completed b) frames (b_phase b) (b_lag b).

(** [start_call(state, shared, admitted); ++admitted]. *)
Definition start_next (a : Active) (b : BatchState) : Active * BatchState :=
  (active_incr (b_context b) a,
   set_started b ({[b_admitted b]} ∪ b_frames b) (S (b_admitted b))).

Fixpoint start_first (workers : nat) (a : Active) (b : BatchState) : Active * BatchState :=
  match workers with
  | 0 => (a, b)
  | S workers => let '(a, b) := start_next a b in start_first workers a b
  end.

Definition fresh_batch (context : nat) (calls : list ToolBatchCall) : BatchState :=
  let n := length calls in
  mkBatch context calls (replicate n None) [] (replicate n false) 0 (replicate n false) 0 ∅ draining [].

(** [run_batch] up to its first suspension: an immediate result, or a batch. *)
Definition open_batch (has_executor cancelled : bool) (context : nat) (calls : list ToolBatchCall)
    (a : Active) : Result (list ToolBatchResult) + (Active * BatchState) :=
  if negb has_executor || (max_parallel_tools o =? 0) || (per_call_timeout o <=? 0)%Z
  then inl (Err (Errors.invalid_argument "scheduler requires an executor and positive bounds"))
  else match calls with
  | [] => inl (Ok [])
  | _ =>
      if cancelled then inl (Err parent_cancelled_error)
      else inr (start_first (Nat.min (length calls) (max_parallel_tools o)) a (fresh_batch context calls))
  end.

(** The completion handler of call [i]; [try_send] into a channel of the batch's size. *)
Definition finish_call (a : Active) (b : BatchState) (i : nat) (out : Result Output)
    : Active * BatchState :=
  (active_decr (b_context b) a,
   mkBatch (b_context b) (b_calls b) (<[i := Some out]> (b_results b))
     (if length (b_completion b) <? length (b_calls b) then b_completion b ++ [i] else b_completion b)
     (b_signalled b) (b_admitted b) (b_reported b) (b_completed b) (b_frames b ∖ {[i]})
     (b_phase b) (b_lag b)).

(** [reported[i] = true; ++completed] after a [receive]. *)
Definition report (b : BatchState) (i : nat) (completion : list nat) : BatchState :=
  mkBatch (b_context b) (b_calls b) (b_results b) completion (b_signalled b) (b_admitted b)
    (<[i := true]> (b_reported b)) (S (b_completed b)) (b_frames b) (b_phase b) (b_lag b).

(** Phase 2 begins: queued calls are dropped, running ones are signalled. *)
Definition on_parent_cancelled (b : BatchState) : BatchState :=
  let n := length (b_calls b) in
  let k := b_admitted b in
  mkBatch (b_context b) (take k (b_calls b) ++ replicate (n - k) empty_call) (b_results b)
    (b_completion b) (replicate k true ++ drop k (b_signalled b)) k
    (take k (b_reported b) ++ replicate (n - k) true) (b_completed b + (n - k)) (b_frames b)
    cancelling (b_lag b).

(** The results in call order; [None] is the null dereference the code must avoid. *)
Definition ordered (b : BatchState) : option (list ToolBatchResult) :=
  mapM (fun p : ToolBatchCall * option (Result Output) =>
    mkBatchResult (tool_use_id p.1) (call_name p.1) <$> p.2) (zip (b_calls b) (b_results b)).

Definition finish_batch (b : BatchState) (r : Result (list ToolBatchResult)) (lag : list string)
    : BatchState :=
  mkBatch (b_context b) (b_calls b) (b_results b) (b_completion b) (b_signalled b) (b_admitted b)
    (b_reported b) (b_completed b) (b_frames b) (returned r) lag.

(** Phase 1 after a [receive] of [i]; [cancelled] is the state it then observes. *)
Definition on_received (a : Active) (b : BatchState) (i : nat) (rest : list nat) (cancelled : bool)
    : Active * BatchState :=
  let b := report b i rest in
  if cancelled then (a, on_parent_cancelled b)
  else if b_admitted b <? length (b_calls b) then start_next a b else (a, b).

(** The audit rows of the calls that have not reported. *)
Definition laggards (b : BatchState) : list string :=
  omap (fun p : ToolBatchCall * bool => if p.2 then None else Some (call_name p.1))
    (zip (b_calls b) (b_reported b)).
Definition on_grace_over (b : BatchState) : BatchState :=
  finish_batch b (Err parent_cancelled_error) (laggards b).
End Batch.

(** ** The scheduler *)
Record System := mkSystem { active : Active; batches : gmap nat BatchState }.
Definition fresh_system : System := mkSystem ∅ ∅.

(** What a step shows of the batch it moves: that it was opened on its calls, that the
    dispatch of call [i] ended, and how, that the report of call [i] was received. *)
Inductive Label :=
  | batch_opened (k : nat) (calls : list ToolBatchCall)
  | call_ended (k i : nat) (raced : option Raced)
  | call_received (k i : nat)
  | batch_advanced (k : nat).

Section Steps.
Context (o : ToolSchedulerOptions).

Inductive step : System -> Label -> System -> Prop :=
  | step_open a bs k has_executor cancelled context calls a' b :
      bs !! k = None ->
      open_batch o has_executor cancelled context calls a = inr (a', b) ->
      step (mkSystem a bs) (batch_opened k calls) (mkSystem a' (<[k := b]> bs))
  | step_finish a bs k b i call raced a' b' :
      bs !! k = Some b -> i ∈ b_frames b -> b_calls b !! i = Some call ->
      finish_call a b i (completed_output o call raced) = (a', b') ->
      step (mkSystem a bs) (call_ended k i raced) (mkSystem a' (<[k := b']> bs))
  | step_receive a bs k b i rest cancelled a' b' :
      bs !! k = Some b -> b_phase b = draining -> b_completion b = i :: rest ->
      on_received a b i rest cancelled = (a', b') ->
      step (mkSystem a bs) (call_received k i) (mkSystem a' (<[k := b']> bs))
  | step_cancel a bs k b :
      bs !! k = Some b -> b_phase b = draining -> b_completed b < length (b_calls b) ->
      step (mkSystem a bs) (batch_advanced k) (mkSystem a (<[k := on_parent_cancelled b]> bs))
  | step_return a bs k b rs :
      bs !! k = Some b -> b_phase b = draining -> b_completed b = length (b_calls b) ->
      ordered b = Some rs ->
      step (mkSystem a bs) (batch_advanced k) (mkSystem a (<[k := finish_batch b (Ok rs) []]> bs))
  | step_drain a bs k b i rest :
      bs !! k = Some b -> b_phase b = cancelling -> b_completed b < length (b_calls b) ->
      b_completion b = i :: rest ->
      step (mkSystem a bs) (call_received k i) (mkSystem a (<[k := report b i rest]> bs))
  | step_grace a bs k b :
      bs !! k = Some b -> b_phase b = cancelling ->
      step (mkSystem a bs) (batch_advanced k) (mkSystem a (<[k := on_grace_over b]> bs)).

Inductive reachable : System -> Prop :=
  | reach_fresh : reachable fresh_system
  | reach_step s l s' : reachable s -> step s l s' -> reachable s'.

(** The states of an execution with its history. *)
Inductive runs : list Label -> System -> Prop :=
  | runs_fresh : runs [] fresh_system
  | runs_step h s l s' : runs h s -> step s l s' -> runs (h ++ [l]) s'.

(** [wait_idle] returns when the context (every context, if none is named) is idle. *)
Definition wait_idle_done (s : System) (context : option nat) : bool :=
  match context with
  | Some c => negb (bool_decide (is_Some (active s !! c)))
  | None => bool_decide (active s = ∅)
  end.
End Steps.

(** ** The batch invariant *)
Record BatchCore (o : ToolSchedulerOptions) (b : BatchState) : Prop := {
  bi_results_len : length (b_results b) = length (b_calls b);
  bi_reported_len : length (b_reported b) = length (b_calls b);
  bi_signalled_len : length (b_signalled b) = length (b_calls b);
  bi_admitted : b_admitted b <= length (b_calls b);
  bi_bound : size (b_frames b) <= max_parallel_tools o;
  bi_frames : forall i, i ∈ b_frames b ->
    i < b_admitted b /\ b_reported b !! i = Some false /\ i ∉ b_completion b;
  bi_completion : forall i, i ∈ b_completion b -> i < b_admitted b /\ b_reported b !! i = Some false;
  bi_completion_nodup : NoDup (b_completion b);
  bi_accounted : forall i, i < b_admitted b ->
    i ∈ b_frames b \/ i ∈ b_completion b \/ b_reported b !! i = Some true;
  bi_done : forall i, i < b_admitted b -> i ∉ b_frames b ->
    exists call raced, b_calls b !! i = Some call /\
      b_results b !! i = Some (Some (completed_output o call raced));
  bi_queued : forall i, b_admitted b <= i < length (b_calls b) -> b_results b !! i = Some None;
  bi_cancelled : match b_phase b with
    | returned (Ok _) => True
    | draining => forall i, b_admitted b <= i < length (b_calls b) -> b_reported b !! i = Some false
    | cancelling | returned (Err _) =>
        (forall i, b_admitted b <= i < length (b_calls b) -> b_reported b !! i = Some true) /\
        (forall i, i < b_admitted b -> b_signalled b !! i = Some true) end;
  bi_returned : match b_phase b with
    | returned (Ok rs) => b_frames b = ∅ /\ b_completion b = [] /\
        b_admitted b = length (b_calls b) /\ ordered b = Some rs
    | returned (Err e) => e = parent_cancelled_error /\ b_lag b = laggards b
    | _ => True end }.

(** While a batch drains, every admitted call runs, waits in the channel or was
    counted, and a new call is admitted for every one that was. *)
Definition window (o : ToolSchedulerOptions) (b : BatchState) : Prop :=
  size (b_frames b) + length (b_completion b) + b_completed b = b_admitted b /\
  b_admitted b = Nat.min (length (b_calls b)) (b_completed b + max_parallel_tools o).
Record BatchInv (o : ToolSchedulerOptions) (b : BatchState) : Prop := {
  bi_core : BatchCore o b;
  bi_window : b_phase b = draining -> window o b }.

Lemma nodup_below (l : list nat) n : NoDup l -> (forall i, i ∈ l -> i < n) -> length l <= n.
Proof.
  intros Hnd Hl. rewrite <- (length_seq n 0). apply submseteq_length, NoDup_submseteq; [done|].
  intros i Hi%Hl. apply elem_of_seq. lia.
Qed.

Section BatchTheory.
Context (o : ToolSchedulerOptions).

Lemma start_first_spec w : forall a b,
  (start_first w a b).2 =
    set_started b (set_seq (b_admitted b) w ∪ b_frames b) (b_admitted b + w).
Proof.
  induction w as [|w IH]; intros a b; cbn [start_first].
  - destruct b. unfold set_started. simpl. f_equal; [lia|set_solver].
  - unfold start_next at 1. cbn [fst snd]. rewrite IH. unfold set_started. simpl. f_equal; [lia|].
    apply set_eq. intros x. rewrite !elem_of_union, elem_of_singleton. tauto.
Qed.

Lemma start_first_active w : forall a b,
  (start_first w a b).1 = Nat.iter w (active_incr (b_context b)) a.
Proof.
  induction w as [|w IH]; intros a b; cbn [start_first]; [done|].
  unfold start_next. cbn [fst snd]. rewrite IH. simpl. by rewrite <- Nat.iter_swap.
Qed.

Lemma open_inv has_executor cancelled context calls a a' b :
  open_batch o has_executor cancelled context calls a = inr (a', b) ->
  BatchInv o b /\ 0 < max_parallel_tools o.
Proof.
  unfold open_batch. destruct (negb _ || _ || _) eqn:E; [done|]. bool_prop.
  match goal with H : (max_parallel_tools o =? 0) = false |- _ => apply Nat.eqb_neq in H as Hpos end.
  intros Hopen. assert (Hst : start_first (Nat.min (length calls) (max_parallel_tools o)) a
    (fresh_batch context calls) = (a', b)) by (by destruct calls; [|destruct cancelled; simplify_eq]).
  clear Hopen. split; [|lia].
  set (n := length calls) in *. set (w := Nat.min n (max_parallel_tools o)) in *.
  apply (f_equal snd) in Hst. rewrite start_first_spec in Hst. cbn in Hst. subst b.
  assert (Hrep : forall i, i < n -> replicate n false !! i = Some false)
    by (intros i Hi; by apply lookup_replicate_2).
  rewrite (right_id_L ∅ (∪) (set_seq 0 w : gset nat)).
  split; [|intros _; unfold window; cbn; rewrite size_set_seq; lia].
  split; cbn; rewrite ?length_replicate; fold n; try done; try lia.
  - rewrite size_set_seq. lia.
  - intros i Hi%elem_of_set_seq. split_and!; [lia|apply Hrep; lia|by apply not_elem_of_nil].
  - by intros i ?%not_elem_of_nil.
  - constructor.
  - intros i Hi. left. apply elem_of_set_seq. lia.
  - intros i Hi Hn. exfalso. apply Hn. apply elem_of_set_seq. lia.
  - intros i Hi. apply lookup_replicate_2. lia.
  - intros i Hi. apply Hrep. lia.
Qed.

Lemma completion_room b i :
  BatchCore o b -> i ∈ b_frames b -> length (b_completion b) < length (b_calls b).
Proof.
  intros HI Hi. destruct HI. destruct (bi_frames0 i Hi) as (Hia & _ & Hn).
  assert (length (b_completion b ++ [i]) <= length (b_calls b)); [|by rewrite length_app in *; simpl in *; lia].
  apply nodup_below.
  - apply NoDup_app. split_and!; [done| |apply NoDup_singleton].
    intros j Hj ->%list_elem_of_singleton. done.
  - intros j [Hj%bi_completion0| ->%list_elem_of_singleton]%elem_of_app; lia.
Qed.

Lemma ordered_update b b' :
  b_calls b' = b_calls b -> b_results b' = b_results b -> ordered b' = ordered b.
Proof. unfold ordered. by intros -> ->. Qed.
Lemma laggards_update b b' :
  b_calls b' = b_calls b -> b_reported b' = b_reported b -> laggards b' = laggards b.
Proof. unfold laggards. by intros -> ->. Qed.

Lemma finish_inv a b i call raced :
  BatchInv o b -> i ∈ b_frames b -> b_calls b !! i = Some call ->
  BatchInv o (finish_call a b i (completed_output o call raced)).2.
Proof.
  intros [HI Hw] Hi Hc. pose proof (completion_room b i HI Hi) as Hroom.
  unfold finish_call. cbn [snd]. apply Nat.ltb_lt in Hroom as ->.
  destruct HI. destruct (bi_frames0 i Hi) as (Hia & Hir & Hin).
  assert (Hsize : S (size (b_frames b ∖ {[i]})) = size (b_frames b)).
  { rewrite size_difference by set_solver. rewrite size_singleton.
    assert (size {[i]} <= size (b_frames b)) as Hle by (apply subseteq_size; set_solver).
    rewrite size_singleton in Hle. lia. }
  split; [|intros Hd; destruct (Hw Hd); split; cbn; rewrite ?length_app; simpl; lia].
  split; cbn; rewrite ?length_insert; try done; try lia.
  - intros j [Hj Hne]%elem_of_difference. destruct (bi_frames0 j Hj) as (? & ? & Hnj).
    split_and!; [done|done|]. intros [?| ->%list_elem_of_singleton]%elem_of_app; set_solver.
  - intros j [Hj| ->%list_elem_of_singleton]%elem_of_app; auto.
  - apply NoDup_app. split_and!; [done| |apply NoDup_singleton].
    intros j Hj ->%list_elem_of_singleton. done.
  - intros j Hj. destruct (decide (j = i)) as [->|Hne].
    + right. left. apply elem_of_app. right. by apply list_elem_of_singleton.
    + destruct (bi_accounted0 j Hj) as [?|[?|?]]; [left; set_solver|right; left; set_solver|by right; right].
  - intros j Hj Hn. destruct (decide (j = i)) as [->|Hne].
    + exists call, raced. split; [done|]. apply list_lookup_insert_eq. lia.
    + rewrite list_lookup_insert_ne by done. apply bi_done0; [done|set_solver].
  - intros j Hj. rewrite list_lookup_insert_ne by lia. by apply bi_queued0.
  - destruct (b_phase b) as [| |[rs|e]]; try done. destruct bi_returned0 as [Hf _]. set_solver.
Qed.

(** Reporting the head of the channel. *)
Lemma report_core b i rest :
  BatchCore o b -> b_completion b = i :: rest -> b_phase b = draining \/ b_phase b = cancelling ->
  BatchCore o (report b i rest).
Proof.
  intros HI Hc Hph. destruct HI. rewrite Hc in *.
  apply NoDup_cons in bi_completion_nodup0 as [Hir Hnd].
  destruct (bi_completion0 i) as [Hia Hrep]; [set_solver|].
  split; cbn; rewrite ?length_insert; try done.
  - intros j Hj. destruct (bi_frames0 j Hj) as (? & ? & ?). rewrite list_lookup_insert_ne by set_solver.
    split_and!; [done|done|set_solver].
  - intros j Hj. destruct (bi_completion0 j) as [? ?]; [set_solver|].
    rewrite list_lookup_insert_ne; [done|]. by intros ->.
  - intros j Hj. destruct (decide (j = i)) as [->|Hne].
    { right. right. apply list_lookup_insert_eq. lia. }
    rewrite list_lookup_insert_ne by done.
    destruct (bi_accounted0 j Hj) as [?|[Hq|?]]; [by left| |by right; right].
    apply elem_of_cons in Hq as [->|?]; [done|by right; left].
  - destruct Hph as [Hph|Hph]; rewrite Hph in *.
    + intros j Hj. rewrite list_lookup_insert_ne by lia. auto.
    + split; [|apply bi_cancelled0]. intros j Hj. rewrite list_lookup_insert_ne by lia. by apply bi_cancelled0.
  - by destruct Hph as [Hph|Hph]; rewrite Hph in *.
Qed.

Lemma cancel_core b :
  BatchCore o b -> b_phase b = draining -> BatchCore o (on_parent_cancelled b).
Proof.
  intros HI Hph. destruct HI. rewrite Hph in *.
  assert (Hkeep : forall {A} (l : list A) x j, length l = length (b_calls b) -> j < b_admitted b ->
            (take (b_admitted b) l ++ replicate (length (b_calls b) - b_admitted b) x) !! j = l !! j).
  { intros A l x j Hl Hj. rewrite lookup_app_l by (rewrite length_take; lia). by apply lookup_take_lt. }
  assert (Hlen : length (take (b_admitted b) (b_calls b) ++
            replicate (length (b_calls b) - b_admitted b) empty_call) = length (b_calls b))
    by (rewrite length_app, length_take, length_replicate; lia).
  split; cbn [on_parent_cancelled b_calls b_results b_reported b_signalled b_admitted b_frames
    b_completion b_phase b_completed]; rewrite ?Hlen; try done.
  - rewrite length_app, length_take, length_replicate. lia.
  - rewrite length_app, length_drop, length_replicate. lia.
  - intros j Hj. destruct (bi_frames0 j Hj) as (? & ? & ?). by rewrite Hkeep.
  - intros j Hj. destruct (bi_completion0 j Hj) as [? ?]. by rewrite Hkeep.
  - intros j Hj. rewrite Hkeep by done. by apply bi_accounted0.
  - intros j Hj Hn. rewrite Hkeep by done. by apply bi_done0.
  - split; intros j Hj.
    + rewrite lookup_app_r by (rewrite length_take; lia). apply lookup_replicate_2.
      rewrite length_take. lia.
    + rewrite lookup_app_l by (rewrite length_replicate; lia). by apply lookup_replicate_2.
Qed.

Lemma start_core a b :
  BatchCore o b -> b_phase b = draining -> b_admitted b < length (b_calls b) ->
  size (b_frames b) < max_parallel_tools o -> BatchCore o (start_next a b).2.
Proof.
  intros HI Hph Hlt Hsize. destruct HI. rewrite Hph in *.
  assert (Hfresh : b_admitted b ∉ b_frames b) by (intros (? & _)%bi_frames0; lia).
  split; cbn; rewrite ?Hph; try done; try lia.
  - rewrite size_union by set_solver. rewrite size_singleton. lia.
  - intros j [->%elem_of_singleton|Hj]%elem_of_union.
    + split_and!; [lia|apply bi_cancelled0; lia|]. intros (? & _)%bi_completion0. lia.
    + destruct (bi_frames0 j Hj) as (? & ? & ?). split_and!; [lia|done|done].
  - intros j (? & ?)%bi_completion0. split; [lia|done].
  - intros j Hj. destruct (decide (j = b_admitted b)) as [->|Hne]; [left; set_solver|].
    destruct (bi_accounted0 j) as [?|?]; [lia|left; set_solver|by right].
  - intros j Hj Hn. apply bi_done0; [|set_solver].
    destruct (decide (j = b_admitted b)) as [->|Hne]; [set_solver|lia].
  - intros j Hj. apply bi_queued0. lia.
  - intros j Hj. apply bi_cancelled0. lia.
Qed.

Lemma received_inv a b i rest cancelled :
  BatchInv o b -> b_phase b = draining -> b_completion b = i :: rest ->
  BatchInv o (on_received a b i rest cancelled).2.
Proof.
  intros [HI Hw] Hph Hc. destruct (Hw Hph) as [Hsum Hwin]. rewrite Hc in Hsum. simpl in Hsum.
  assert (HR : BatchCore o (report b i rest)) by (apply report_core; auto).
  unfold on_received. destruct cancelled.
  { split; [by apply cancel_core|done]. }
  destruct (b_admitted (report b i rest) <? _) eqn:E; cbn in E.
  - apply Nat.ltb_lt in E. split; [apply start_core; [done..|simpl; lia]|].
    intros _. split; cbn; [|lia]. rewrite size_union, size_singleton; [lia|].
    intros j ->%elem_of_singleton Hj. apply (bi_frames _ _ HI) in Hj as [? _]. lia.
  - apply Nat.ltb_ge in E. split; [done|]. intros _. split; cbn; lia.
Qed.

(** Nothing is outstanding once every call has been counted. *)
Lemma all_done b :
  BatchInv o b -> b_phase b = draining -> b_completed b = length (b_calls b) ->
  b_frames b = ∅ /\ b_completion b = [] /\ b_admitted b = length (b_calls b).
Proof.
  intros [HI Hw] Hph Hn. destruct (Hw Hph) as [Hsum Hwin]. pose proof (bi_admitted _ _ HI).
  split_and!; [apply leibniz_equiv, size_empty_inv; lia| |lia].
  apply length_zero_iff_nil. lia.
Qed.

Lemma return_inv b rs :
  BatchInv o b -> b_phase b = draining -> b_completed b = length (b_calls b) -> ordered b = Some rs ->
  BatchInv o (finish_batch b (Ok rs) []).
Proof.
  intros HI Hph Hn Ho. destruct (all_done b HI Hph Hn) as (Hf & Hc & Ha). destruct HI as [HI Hw].
  split; [|done]. destruct HI. by split.
Qed.

Lemma grace_inv b :
  BatchInv o b -> b_phase b = cancelling -> BatchInv o (on_grace_over b).
Proof. intros [HI _] Hph. destruct HI. rewrite Hph in *. split; [|done]. by split. Qed.

(** The null dereference of [*state->results[i]] cannot happen. *)
Lemma ordered_total b :
  BatchCore o b -> b_frames b = ∅ -> b_admitted b = length (b_calls b) -> exists rs, ordered b = Some rs.
Proof.
  intros HI Hf Ha. destruct HI. destruct (ordered b) as [rs|] eqn:E; [by exists rs|]. exfalso.
  unfold ordered in E. apply mapM_None_1 in E as ([c r] & Hin & Hr)%Exists_exists.
  apply list_elem_of_lookup in Hin as [i Hi]. apply lookup_zip_with_Some in Hi as (c' & r' & [= <- <-] & Hci & Hri).
  apply lookup_lt_Some in Hci as Hlt.
  destruct (bi_done0 i) as (call & raced & _ & Hd); [lia|set_solver|].
  rewrite Hri in Hd. injection Hd as ->. done.
Qed.
End BatchTheory.

(** ** The scheduler invariant *)
(** The frames that hold a context. *)
Definition holds (c : nat) (b : BatchState) : nat :=
  if decide (b_context b = c) then size (b_frames b) else 0.
Definition total (c : nat) (bs : gmap nat BatchState) : nat :=
  sum_list (map (fun p => holds c p.2) (map_to_list bs)).

Lemma total_fresh c bs k b : bs !! k = None -> total c (<[k := b]> bs) = holds c b + total c bs.
Proof. intros Hk. unfold total. by rewrite map_to_list_insert. Qed.

Lemma total_update c bs k b b' :
  bs !! k = Some b -> total c (<[k := b']> bs) + holds c b = total c bs + holds c b'.
Proof.
  intros Hk. rewrite <- (insert_delete_id bs k b Hk) at 2. rewrite <- insert_delete_eq.
  rewrite !total_fresh by apply lookup_delete_eq. lia.
Qed.

Definition counted (n : nat) : option nat := if n =? 0 then None else Some n.

Lemma active_incr_counted a c n c' m :
  a !! c = counted n -> a !! c' = counted m ->
  active_incr c a !! c' = counted (if decide (c = c') then S m else m).
Proof.
  intros Hn Hm. unfold active_incr. case_decide as E.
  - subst c'. rewrite lookup_insert_eq, Hm. unfold counted. by destruct (Nat.eqb_spec m 0) as [->|].
  - by rewrite lookup_insert_ne.
Qed.

Lemma active_decr_counted a c c' m :
  a !! c' = counted m ->
  active_decr c a !! c' = counted (if decide (c = c') then m - 1 else m).
Proof.
  intros Hm. unfold active_decr. case_decide as E.
  - subst c'. rewrite Hm. replace (default 0 (counted m)) with m
      by (unfold counted; by destruct (Nat.eqb_spec m 0) as [->|]).
    unfold counted at 1. destruct (m - 1 =? 0) eqn:E1; [apply lookup_delete_eq|apply lookup_insert_eq].
  - destruct (_ =? 0); [by rewrite lookup_delete_ne|by rewrite lookup_insert_ne].
Qed.

Lemma active_iter_counted a c c' k : forall m,
  (forall c, exists n, a !! c = counted n) -> a !! c' = counted m ->
  Nat.iter k (active_incr c) a !! c' = counted (if decide (c = c') then k + m else m).
Proof.
  intros m Ha Hm. revert c' m Hm. induction k as [|k IH]; intros c' m Hm; simpl.
  - by destruct (decide (c = c')).
  - destruct (Ha c) as [n Hn]. apply IH in Hn. apply IH in Hm.
    rewrite (active_incr_counted _ _ _ _ _ Hn Hm). by destruct (decide (c = c')). 
Qed.

Record SysInv (o : ToolSchedulerOptions) (s : System) : Prop := {
  si_batches : forall k b, batches s !! k = Some b -> BatchInv o b /\ 0 < max_parallel_tools o;
  si_active : forall c, active s !! c = counted (total c (batches s)) }.

Section SystemTheory.
Context (o : ToolSchedulerOptions).

Lemma update_inv a bs k b a' b' :
  SysInv o (mkSystem a bs) -> bs !! k = Some b -> BatchInv o b' ->
  (forall c m, a !! c = counted (m + holds c b) -> a' !! c = counted (m + holds c b')) ->
  SysInv o (mkSystem a' (<[k := b']> bs)).
Proof.
  intros [Hb Ha] Hk Hb' Hact. split; cbn [batches active] in *.
  - intros k2 b2 [[<- <-]|[Hne H2]]%lookup_insert_Some; [|by eapply Hb].
    split; [done|]. by eapply Hb.
  - intros c. pose proof (total_update c bs k b b' Hk) as Ht.
    specialize (Hact c (total c bs - holds c b)).
    assert (Hle : holds c b <= total c bs).
    { rewrite <- (insert_delete_id bs k b Hk). rewrite total_fresh by apply lookup_delete_eq. lia. }
    rewrite Hact; [f_equal; lia|]. rewrite Ha. f_equal. lia.
Qed.

(** A step that keeps the frames and the context of a batch keeps the counts. *)
Lemma update_same_frames a bs k b b' :
  SysInv o (mkSystem a bs) -> bs !! k = Some b -> BatchInv o b' ->
  b_frames b' = b_frames b -> b_context b' = b_context b ->
  SysInv o (mkSystem a (<[k := b']> bs)).
Proof.
  intros HI Hk Hb' Hf Hc. eapply update_inv; [done..|]. intros c m. unfold holds. by rewrite Hf, Hc.
Qed.

Lemma scheduler_step_inv s l s' : SysInv o s -> step o s l s' -> SysInv o s'.
Proof.
  intros HI Hs. destruct Hs as [a bs k he ca c calls a' b Hk Ho|a bs k b i call raced a' b' Hk Hi Hc Hf
    |a bs k b i rest ca a' b' Hk Hph Hc Hr|a bs k b Hk Hph Hlt|a bs k b rs Hk Hph Hn Ho
    |a bs k b i rest Hk Hph Hlt Hc|a bs k b Hk Hph].
  - destruct (open_inv _ _ _ _ _ _ _ _ Ho) as [Hb Hpos]. destruct HI as [Hbs Ha]. split; cbn [batches active] in *.
    + intros k2 b2 [[<- <-]|[Hne H2]]%lookup_insert_Some; [done|by eapply Hbs].
    + intros c2. rewrite total_fresh by done.
      unfold open_batch in Ho. destruct (negb _ || _ || _); [done|].
      assert (Hst : start_first (Nat.min (length calls) (max_parallel_tools o)) a
        (fresh_batch c calls) = (a', b)) by (by destruct calls; [|destruct ca; simplify_eq]).
      pose proof (f_equal fst Hst) as Hfst. pose proof (f_equal snd Hst) as Hsnd.
      rewrite start_first_active in Hfst. rewrite start_first_spec in Hsnd.
      cbn [fst snd fresh_batch b_context] in *. subst a' b.
      rewrite (active_iter_counted a c c2 _ _ (fun c => ex_intro _ _ (Ha c)) (Ha c2)).
      f_equal. unfold holds. cbn. case_decide; [|done].
      rewrite (right_id_L ∅ (∪) (set_seq 0 _ : gset nat)), size_set_seq. lia.
  - destruct (si_batches o _ HI k b Hk) as [Hb _].
    pose proof (finish_inv o a b i call raced Hb Hi Hc) as Hb'. rewrite Hf in Hb'.
    eapply update_inv; [done..|]. intros c m Hm. unfold finish_call in Hf. simplify_eq.
    rewrite (active_decr_counted _ _ _ _ Hm). f_equal. unfold holds. cbn. repeat case_decide; try done.
    rewrite size_difference by set_solver. rewrite size_singleton.
    assert (size {[i]} <= size (b_frames b)) as Hle by (apply subseteq_size; set_solver).
    rewrite size_singleton in Hle. lia.
  - destruct (si_batches o _ HI k b Hk) as [Hb _].
    pose proof (received_inv o a b i rest ca Hb Hph Hc) as Hb'. rewrite Hr in Hb'.
    eapply update_inv; [done..|]. intros c m Hm. unfold on_received in Hr.
    destruct ca; [by simplify_eq|]. destruct (_ <? _); [|by simplify_eq].
    unfold start_next in Hr. simplify_eq. change (b_context (report b i rest)) with (b_context b).
    rewrite (active_incr_counted a (b_context b) (total (b_context b) bs) c _ (si_active o _ HI _) Hm). f_equal.
    unfold holds. cbn. repeat case_decide; try done.
    rewrite size_union, size_singleton; [lia|]. intros j ->%elem_of_singleton Hj.
    apply (bi_frames _ _ (bi_core _ _ Hb)) in Hj as [? _]. lia.
  - destruct (si_batches o _ HI k b Hk) as [[Hb _] _].
    eapply update_same_frames; [done..| |done|done]. split; [by apply cancel_core|done].
  - destruct (si_batches o _ HI k b Hk) as [Hb _].
    eapply update_same_frames; [done..| |done|done]. by apply return_inv.
  - destruct (si_batches o _ HI k b Hk) as [[Hb _] _].
    eapply update_same_frames; [done..| |done|done].
    split; [apply report_core; auto|]. cbn. by rewrite Hph.
  - destruct (si_batches o _ HI k b Hk) as [Hb _].
    eapply update_same_frames; [done..| |done|done]. by apply grace_inv.
Qed.

Lemma scheduler_inv s : reachable o s -> SysInv o s.
Proof.
  induction 1 as [|s l s' _ IH Hs]; [|by eapply scheduler_step_inv]. split; [done|]. intros c. done.
Qed.
End SystemTheory.

(** ** Histories *)
Definition of_batch (l : Label) : nat :=
  match l with batch_opened k _ | call_ended k _ _ | call_received k _ | batch_advanced k => k end.
(** The ends of the dispatch of call [i] of batch [k]. *)
Definition ends (k i : nat) (h : list Label) : list (option Raced) :=
  omap (fun l => match l with
    | call_ended k' i' raced => if decide (k' = k /\ i' = i) then Some raced else None
    | _ => None end) h.

(** The names at the increasing positions of [calls] that satisfy [P]. *)
Definition names_of (calls : list ToolBatchCall) (P : nat -> Prop) (names : list string) : Prop :=
  exists idx, StronglySorted lt idx /\ (forall i, i ∈ idx <-> P i) /\
    Forall2 (fun i name => exists call, calls !! i = Some call /\ name = call_name call) idx names.

Lemma names_ext calls calls' (P P' : nat -> Prop) names :
  (forall i, P i <-> P' i) -> (forall i, P i -> calls !! i = calls' !! i) ->
  names_of calls P names -> names_of calls' P' names.
Proof.
  intros HP Hc (idx & Hs & Hi & Hf). exists idx. split_and!; [done|intros i; by rewrite Hi|].
  apply Forall2_same_length_lookup_2; [by eapply Forall2_length|]. intros j i n Hj Hn.
  destruct (Forall2_lookup_lr _ _ _ _ _ _ Hf Hj Hn) as (c & Hl & ->). exists c. split; [|done].
  rewrite <- Hc; [done|]. apply Hi. by eapply list_elem_of_lookup_2.
Qed.

Lemma omap_names (l : list (ToolBatchCall * bool)) :
  names_of (fst <$> l) (fun i => (snd <$> l) !! i = Some false)
    (omap (fun p : ToolBatchCall * bool => if p.2 then None else Some (call_name p.1)) l).
Proof.
  induction l as [|[c r] l (idx & Hs & Hi & Hf)].
  - exists []. split_and!; [constructor| |constructor]. intros i. split; [by intros ?%elem_of_nil|done].
  - assert (Hf' : Forall2 (fun i name => exists call, (c :: (fst <$> l)) !! i = Some call /\ name = call_name call)
      (S <$> idx) (omap (fun p : ToolBatchCall * bool => if p.2 then None else Some (call_name p.1)) l)) by (by apply Forall2_fmap_l).
    assert (Hs' : StronglySorted lt (S <$> idx)).
    { clear -Hs. induction Hs as [|x xs _ IH Hx]; [constructor|]. constructor; [done|].
      apply Forall_fmap. eapply Forall_impl; [exact Hx|]. simpl. lia. }
    assert (Hi' : forall i, S i ∈ S <$> idx <-> (snd <$> l) !! i = Some false).
    { intros i. rewrite <- Hi, list_elem_of_fmap. split; [by intros (y & [= ->] & ?)|eauto]. }
    assert (H0 : 0 ∉ S <$> idx) by (rewrite list_elem_of_fmap; by intros (y & ? & _)).
    destruct r; cbn [omap list_omap fmap list_fmap fst snd].
    + exists (S <$> idx). split_and!; [done| |done]. intros [|i]; [|by rewrite Hi'].
      split; [by intros ?%H0|done].
    + exists (0 :: (S <$> idx)). split_and!.
      * constructor; [done|]. apply Forall_fmap, Forall_forall. simpl. lia.
      * intros [|i]; rewrite elem_of_cons; [by split; [|left]|]. rewrite Hi'. naive_solver.
      * constructor; [by exists c|done].
Qed.

Lemma laggards_names b :
  length (b_reported b) = length (b_calls b) ->
  names_of (b_calls b) (fun i => b_reported b !! i = Some false) (laggards b).
Proof.
  intros Hl. pose proof (omap_names (zip (b_calls b) (b_reported b))) as H.
  rewrite fst_zip, snd_zip in H by lia. exact H.
Qed.

Lemma history_ends_snoc k i h l : ends k i (h ++ [l]) = ends k i h ++ ends k i [l].
Proof. apply omap_app. Qed.
Lemma ends_one k i l :
  (forall raced, l <> call_ended k i raced) -> ends k i [l] = [].
Proof. destruct l; try done. simpl. intros H. case_decide as E; [|done]. destruct E; subst. by destruct (H raced). Qed.
Lemma ends_skip k i h l :
  (forall raced, l <> call_ended k i raced) -> ends k i (h ++ [l]) = ends k i h.
Proof. intros H. by rewrite history_ends_snoc, (ends_one k i l H), app_nil_r. Qed.
Lemma ends_add k i h raced : ends k i (h ++ [call_ended k i raced]) = ends k i h ++ [raced].
Proof. rewrite history_ends_snoc. simpl. by rewrite decide_True. Qed.
Lemma ends_none k i h : (forall l, l ∈ h -> of_batch l <> k) -> ends k i h = [].
Proof.
  induction h as [|l h IH]; intros H; [done|]. unfold ends in *. cbn [omap list_omap].
  rewrite IH by (intros; apply H; by right). specialize (H l (list_elem_of_here l h)).
  destruct l; try done. case_decide; [|done]. naive_solver.
Qed.
Lemma received_skip k i h l : l <> call_received k i -> call_received k i ∈ h ++ [l] <-> call_received k i ∈ h.
Proof. rewrite elem_of_app, list_elem_of_singleton. naive_solver. Qed.

(** What a history has told of a batch opened on [calls]. *)
Record Told (o : ToolSchedulerOptions) (h : list Label) (k : nat) (calls : list ToolBatchCall)
    (b : BatchState) : Prop := {
  td_length : length (b_calls b) = length calls;
  td_kept : forall i, i < b_admitted b -> b_calls b !! i = calls !! i;
  td_all : match b_phase b with draining | returned (Ok _) => b_calls b = calls | _ => True end;
  td_running : forall i, i ∈ b_frames b \/ b_admitted b <= i -> ends k i h = [];
  td_ended : forall i call, i < b_admitted b -> i ∉ b_frames b -> calls !! i = Some call ->
    exists raced, ends k i h = [raced] /\
      b_results b !! i = Some (Some (completed_output o call raced));
  td_received : forall i, call_received k i ∈ h <-> i < b_admitted b /\ b_reported b !! i = Some true;
  td_lag : match b_phase b with
    | returned (Err _) => names_of calls (fun i => i < b_admitted b /\ call_received k i ∉ h) (b_lag b)
    | _ => True end }.

Section HistoryTheory.
Context (o : ToolSchedulerOptions).

(** A label that neither ends nor reports a call of the batch tells nothing of it. *)
Lemma told_skip h k calls b l :
  (forall i raced, l <> call_ended k i raced) -> (forall i, l <> call_received k i) ->
  Told o h k calls b -> Told o (h ++ [l]) k calls b.
Proof.
  intros He Hr HT. destruct HT. split; try done.
  - intros i Hi. rewrite ends_skip; auto.
  - intros i call. rewrite ends_skip; auto.
  - intros i. rewrite received_skip; auto.
  - destruct (b_phase b) as [| |[|]]; try done. eapply names_ext; [|done|exact td_lag0].
    intros i. by rewrite received_skip.
Qed.

Lemma told_open h k calls has_executor cancelled context a a' b :
  (forall l, l ∈ h -> of_batch l <> k) ->
  open_batch o has_executor cancelled context calls a = inr (a', b) ->
  Told o (h ++ [batch_opened k calls]) k calls b.
Proof.
  intros Hh Ho. unfold open_batch in Ho. destruct (negb _ || _ || _); [done|].
  assert (Hst : start_first (Nat.min (length calls) (max_parallel_tools o)) a
    (fresh_batch context calls) = (a', b)) by (by destruct calls; [|destruct cancelled; simplify_eq]).
  apply (f_equal snd) in Hst. rewrite start_first_spec in Hst. cbn in Hst. subst b.
  apply told_skip; [done..|]. split; cbn; try done.
  - intros i _. by apply ends_none.
  - intros i call Hi Hn. exfalso. apply Hn. rewrite (right_id_L ∅ (∪)), elem_of_set_seq. lia.
  - intros i. rewrite lookup_replicate. split; [|by intros (_ & ? & _)]. intros H. by destruct (Hh _ H).
Qed.

Lemma told_finish h k calls a b i call raced :
  BatchCore o b -> i ∈ b_frames b -> b_calls b !! i = Some call ->
  Told o h k calls b ->
  Told o (h ++ [call_ended k i raced]) k calls (finish_call a b i (completed_output o call raced)).2.
Proof.
  intros HI Hi Hc HT. destruct HT. destruct (bi_frames _ _ HI i Hi) as (Hia & _ & _).
  pose proof (bi_results_len _ _ HI) as Hrl. apply lookup_lt_Some in Hc as Hil.
  split; unfold finish_call; cbn [snd b_calls b_phase b_admitted b_frames b_results b_reported b_lag];
    try done.
  - intros j [[Hj Hne]%elem_of_difference|Hj]; (rewrite ends_skip; [by auto|]); intros r [= ->]; [set_solver|lia].
  - intros j c Hj Hn Hcj. destruct (decide (j = i)) as [->|Hne].
    + exists raced. rewrite ends_add, td_running0 by auto. split; [done|].
      rewrite td_kept0 in Hc by done. assert (c = call) as -> by congruence.
      apply list_lookup_insert_eq. lia.
    + rewrite ends_skip by (by intros r [= ->]). rewrite list_lookup_insert_ne by done.
      apply td_ended0; [done|set_solver|done].
  - intros j. rewrite received_skip; auto.
  - destruct (b_phase b) as [| |[|]]; try done. eapply names_ext; [|done|exact td_lag0].
    intros j. by rewrite received_skip.
Qed.

Lemma told_report h k calls b i rest :
  BatchCore o b -> b_completion b = i :: rest -> b_phase b = draining \/ b_phase b = cancelling ->
  Told o h k calls b -> Told o (h ++ [call_received k i]) k calls (report b i rest).
Proof.
  intros HI Hc Hph HT. destruct HT. destruct (bi_completion _ _ HI i) as [Hia Hrep]; [rewrite Hc; set_solver|].
  apply lookup_lt_Some in Hrep.
  split; cbn [report b_calls b_phase b_admitted b_frames b_results b_reported b_lag]; try done.
  - intros j Hj. rewrite ends_skip; auto.
  - intros j c. rewrite ends_skip; auto.
  - intros j. destruct (decide (j = i)) as [->|Hne].
    + rewrite list_lookup_insert_eq by done. set_solver.
    + rewrite list_lookup_insert_ne by done. rewrite received_skip; [auto|]. by intros [= ->].
  - by destruct Hph as [-> | ->].
Qed.

Lemma told_cancel h k calls b :
  b_phase b = draining -> length (b_reported b) = length (b_calls b) -> b_admitted b <= length (b_calls b) ->
  Told o h k calls b -> Told o h k calls (on_parent_cancelled b).
Proof.
  intros Hph Hrl Hle HT. destruct HT. rewrite Hph in *.
  split; cbn [on_parent_cancelled b_calls b_phase b_admitted b_frames b_results b_reported b_lag]; try done.
  - rewrite length_app, length_take, length_replicate. lia.
  - intros i Hi. rewrite lookup_app_l by (rewrite length_take; lia). rewrite lookup_take_lt by done. auto.
  - intros i. rewrite td_received0. split; intros [Hi Hr]; (split; [done|]); revert Hr;
      rewrite lookup_app_l by (rewrite length_take; lia); by rewrite lookup_take_lt.
Qed.

Lemma told_start h k calls a b :
  b_phase b = draining ->
  (forall i, b_admitted b <= i < length (b_calls b) -> b_reported b !! i = Some false) ->
  b_admitted b < length (b_calls b) ->
  Told o h k calls b -> Told o h k calls (start_next a b).2.
Proof.
  intros Hph Hq Hlt HT. destruct HT. rewrite Hph in *.
  split; cbn [start_next set_started snd b_calls b_phase b_admitted b_frames b_results b_reported b_lag];
    rewrite ?Hph; try done.
  - intros i Hi. by rewrite td_all0.
  - intros i [[->%elem_of_singleton|Hi]%elem_of_union|Hi]; apply td_running0; [right; lia|by left|right; lia].
  - intros i c Hi Hn Hc. apply td_ended0; [|set_solver|done].
    destruct (decide (i = b_admitted b)) as [->|]; [set_solver|lia].
  - intros i. rewrite td_received0. split; intros [Hi Hr]; (split; [|done]); [lia|].
    destruct (decide (i = b_admitted b)) as [->|]; [|lia]. rewrite Hq in Hr by lia. done.
Qed.

(** The audit rows written when the grace window ends name the calls without a report. *)
Lemma told_grace h k calls b :
  BatchCore o b -> b_phase b = cancelling -> Told o h k calls b -> Told o h k calls (on_grace_over b).
Proof.
  intros HI Hph HT. pose proof (laggards_names b (bi_reported_len _ _ HI)) as Hlag.
  pose proof (bi_cancelled _ _ HI) as Hc. rewrite Hph in Hc. destruct Hc as [Hq _].
  destruct HT. split; try done. cbn [on_grace_over finish_batch b_phase b_admitted b_lag].
  assert (HP : forall i, b_reported b !! i = Some false <-> i < b_admitted b /\ call_received k i ∉ h).
  { intros i. rewrite td_received0. split.
    - intros Hf. apply lookup_lt_Some in Hf as Hl. rewrite (bi_reported_len _ _ HI) in Hl.
      destruct (decide (i < b_admitted b)) as [Hi|Hi]; [split; [done|]|].
      + intros [_ Ht]. congruence.
      + rewrite Hq in Hf by lia. done.
    - intros [Hi Hn]. assert (Hl : i < length (b_reported b))
        by (rewrite (bi_reported_len _ _ HI); pose proof (bi_admitted _ _ HI); lia).
      apply lookup_lt_is_Some in Hl as [[] Hr]; [|done]. by destruct Hn. }
  eapply names_ext; [exact HP| |exact Hlag]. intros i [Hi _]%HP. by apply td_kept0.
Qed.

(** Every batch is as its history tells it. *)
Definition history_inv (h : list Label) (s : System) : Prop :=
  (forall k b calls, batches s !! k = Some b -> batch_opened k calls ∈ h -> Told o h k calls b) /\
  (forall l, l ∈ h -> is_Some (batches s !! of_batch l)).

Lemma runs_reachable h s : runs o h s -> reachable o s.
Proof. induction 1; [apply reach_fresh|by eapply reach_step]. Qed.

(** A step tells of its own batch only. *)
Lemma history_update h a a' bs k b l :
  history_inv h (mkSystem a bs) -> of_batch l = k ->
  (forall calls, batch_opened k calls ∈ h ++ [l] -> Told o (h ++ [l]) k calls b) ->
  history_inv (h ++ [l]) (mkSystem a' (<[k := b]> bs)).
Proof.
  intros [HT Hk] Hl Hb. split; cbn [batches] in *.
  - intros k2 b2 calls [[<- <-]|[Hne H2]]%lookup_insert_Some Hin; [by apply Hb|].
    apply told_skip; [naive_solver..|].
    apply HT; [done|]. apply elem_of_app in Hin as [?|<-%list_elem_of_singleton]; [done|by destruct Hne].
  - intros l' [Hin| ->%list_elem_of_singleton]%elem_of_app; [|rewrite Hl, lookup_insert_eq; by eexists].
    destruct (decide (of_batch l' = k)) as [->|Hne]; [rewrite lookup_insert_eq; by eexists|].
    rewrite lookup_insert_ne by done. by apply Hk.
Qed.

(** ... and a batch that is already open keeps the calls it was opened on. *)
Lemma history_advance h a a' bs k b b' l :
  history_inv h (mkSystem a bs) -> of_batch l = k -> (forall calls, l <> batch_opened k calls) ->
  bs !! k = Some b ->
  (forall calls, Told o h k calls b -> Told o (h ++ [l]) k calls b') ->
  history_inv (h ++ [l]) (mkSystem a' (<[k := b']> bs)).
Proof.
  intros HI Hl Hno Hk Hb. eapply history_update; [exact HI|done|]. intros calls [Hin|Hin]%elem_of_app.
  - apply Hb, HI; done.
  - apply list_elem_of_singleton in Hin. by destruct (Hno calls).
Qed.

Lemma history_step h s l s' : SysInv o s -> history_inv h s -> step o s l s' -> history_inv (h ++ [l]) s'.
Proof.
  intros HS HI Hs.
  assert (Hcore : forall k b, batches s !! k = Some b -> BatchCore o b)
    by (intros k b Hk; apply (si_batches o _ HS k b Hk)).
  destruct Hs as [a bs k he ca c calls a' b Hk Ho|a bs k b i call raced a' b' Hk Hi Hc Hf
    |a bs k b i rest ca a' b' Hk Hph Hc Hr|a bs k b Hk Hph Hlt|a bs k b rs Hk Hph Hn Ho
    |a bs k b i rest Hk Hph Hlt Hc|a bs k b Hk Hph]; cbn [batches] in Hcore.
  - assert (Hnew : forall l, l ∈ h -> of_batch l <> k).
    { intros l Hl <-. destruct HI as [_ HI]. destruct (HI l Hl) as [? E]. cbn in E. congruence. }
    eapply history_update; [exact HI|done|].
    intros calls' [Hin|[= ->]%list_elem_of_singleton]%elem_of_app; [by destruct (Hnew _ Hin)|].
    by eapply told_open.
  - specialize (Hcore k b Hk). eapply history_advance; [exact HI|done|done|exact Hk|]. intros calls HT.
    pose proof (told_finish h k calls a b i call raced Hcore Hi Hc HT) as HT'. by rewrite Hf in HT'.
  - specialize (Hcore k b Hk). eapply history_advance; [exact HI|done|done|exact Hk|]. intros calls HT.
    apply (told_report h k calls b i rest Hcore Hc) in HT; [|by left].
    unfold on_received in Hr. pose proof (report_core o b i rest Hcore Hc (or_introl Hph)) as HC.
    destruct ca; [simplify_eq; apply told_cancel; [done|apply HC..|done]|].
    destruct (Nat.ltb_spec (b_admitted (report b i rest)) (length (b_calls (report b i rest)))); [|by simplify_eq].
    replace b' with (start_next a (report b i rest)).2 by (by rewrite Hr).
    apply told_start; [done| |done|done]. pose proof (bi_cancelled _ _ HC) as Hq.
    change (b_phase (report b i rest)) with (b_phase b) in Hq. by rewrite Hph in Hq.
  - specialize (Hcore k b Hk). eapply history_advance; [exact HI|done|done|exact Hk|]. intros calls HT.
    apply told_skip; [done..|]. apply told_cancel; [done|apply Hcore..|done].
  - eapply history_advance; [exact HI|done|done|exact Hk|]. intros calls HT. apply told_skip; [done..|].
    destruct HT. rewrite Hph in *. by split.
  - specialize (Hcore k b Hk). eapply history_advance; [exact HI|done|done|exact Hk|]. intros calls HT.
    apply (told_report h k calls b i rest Hcore Hc) in HT; [done|by right].
  - specialize (Hcore k b Hk). eapply history_advance; [exact HI|done|done|exact Hk|]. intros calls HT.
    apply told_skip; [done..|]. by apply told_grace.
Qed.

Lemma runs_told h s : runs o h s -> history_inv h s.
Proof.
  induction 1 as [|h s l s' Hr IH Hs].
  - split; [by intros k b calls ? ?%not_elem_of_nil|by intros l ?%not_elem_of_nil].
  - eapply history_step; [|exact IH|exact Hs]. by eapply scheduler_inv, runs_reachable.
Qed.

(** What an execution tells of one of its batches, with the batch's own invariant. *)
Lemma told_batch h s k calls b :
  runs o h s -> batch_opened k calls ∈ h -> batches s !! k = Some b -> Told o h k calls b /\ BatchCore o b.
Proof.
  intros Hr Ho Hk. split; [by apply (runs_told h s Hr)|].
  by apply (si_batches o s (scheduler_inv o s (runs_reachable h s Hr)) k b Hk).
Qed.
End HistoryTheory.

(** The results in call order are the stored ones. *)
Lemma ordered_lookup b rs i call out :
  ordered b = Some rs -> b_calls b !! i = Some call -> b_results b !! i = Some (Some out) ->
  rs !! i = Some (mkBatchResult (tool_use_id call) (call_name call) out).
Proof.
  unfold ordered. intros Ho%mapM_Some_1 Hc Hr.
  assert (Hz : zip (b_calls b) (b_results b) !! i = Some (call, Some out))
    by (apply lookup_zip_with_Some; eauto).
  destruct (Forall2_lookup_l _ _ _ _ _ Ho Hz) as (y & Hy & Hyo). rewrite Hy. simpl in Hyo. by simplify_eq.
Qed.

Lemma returned_ordered o b rs :
  BatchCore o b -> b_phase b = returned (Ok rs) ->
  b_frames b = ∅ /\ b_admitted b = length (b_calls b) /\ length rs = length (b_calls b) /\
  ordered b = Some rs.
Proof.
  intros Hb Hph. pose proof (bi_returned _ _ Hb) as Hr. rewrite Hph in Hr.
  destruct Hr as (Hf & _ & Ha & Ho). split_and!; [done|done| |done].
  apply mapM_Some_1, Forall2_length in Ho. rewrite length_zip_with, (bi_results_len _ _ Hb) in Ho. lia.
Qed.

(** What [run_batch] promises its caller: results answer the calls in order. *)
Definition scheduled (o : ToolSchedulerOptions) (calls : list ToolBatchCall)
    (r : Result (list ToolBatchResult)) : Prop :=
  match r with
  | Ok rs => (calls = [] /\ rs = []) \/
      exists s k b, reachable o s /\ batches s !! k = Some b /\
        b_phase b = returned (Ok rs) /\ b_calls b = calls
  | Err _ => True
  end.

Lemma scheduled_in_order o calls rs :
  scheduled o calls (Ok rs) -> map br_tool_use_id rs = map tool_use_id calls.
Proof.
  intros [[-> ->]|(s & k & b & HI%scheduler_inv & Hk & Hph & <-)]; [done|].
  apply (si_batches _ _ HI) in Hk as [[Hb _] _].
  destruct (returned_ordered o b rs Hb Hph) as (Hf & Ha & Hlen & Ho).
  apply list_eq. intros i. rewrite !list_lookup_fmap.
  destruct (b_calls b !! i) as [call|] eqn:Hc.
  - apply lookup_lt_Some in Hc as Hlt.
    destruct (bi_done _ _ Hb i) as (call' & raced & Hc' & Hres); [lia|set_solver|].
    by rewrite (ordered_lookup b rs i call _ Ho Hc Hres).
  - apply lookup_ge_None in Hc. rewrite lookup_ge_None_2 by lia. done.
Qed.

(** ** Theorems *)
(** under any interleaving of batches a batch runs at most [max_parallel_tools]
    dispatches at a time, and its completion channel has room for every report, so
    none is dropped. *)
Theorem scheduler_bounded o s k b :
  reachable o s -> batches s !! k = Some b ->
  size (b_frames b) <= max_parallel_tools o /\
  (forall i, i ∈ b_frames b -> length (b_completion b) < length (b_calls b)).
Proof.
  intros HI%scheduler_inv Hk. apply (si_batches _ _ HI) in Hk as [[Hb _] _].
  split; [apply Hb|]. intros i Hi. by eapply completion_room.
Qed.

(** C36: in every execution a batch that returns results returns one per call it was opened
    on, in call order: the dispatch of each call ended exactly once in the history, its
    result, under the id and the name of the call, is what that end gives, and no dispatch
    of the batch is left running. *)
Theorem batch_results_complete o h s k calls b rs :
  runs o h s -> batch_opened k calls ∈ h -> batches s !! k = Some b -> b_phase b = returned (Ok rs) ->
  b_frames b = ∅ /\ length rs = length calls /\
  forall i call, calls !! i = Some call -> exists raced, ends k i h = [raced] /\
    rs !! i = Some (mkBatchResult (tool_use_id call) (call_name call) (completed_output o call raced)).
Proof.
  intros Hr Hop Hk Hph. destruct (told_batch o h s k calls b Hr Hop Hk) as [HT Hb].
  destruct (returned_ordered o b rs Hb Hph) as (Hf & Ha & Hlen & Ho).
  pose proof (td_all _ _ _ _ _ HT) as Hcalls. rewrite Hph in Hcalls. rewrite <- Hcalls in *.
  split_and!; [done|done|]. intros i call Hc. apply lookup_lt_Some in Hc as Hlt.
  destruct (td_ended _ _ _ _ _ HT i call) as (raced & He & Hres); [lia|set_solver|done|].
  exists raced. split; [done|]. by apply (ordered_lookup b).
Qed.

(** C37: a batch whose parent was cancelled reports [parent_cancelled].  The calls it started
    are those that run or whose dispatch ended, once, in the history, and each was
    signalled; the queued ones never ran; and the audit rows it wrote name, in call order,
    exactly the started calls whose report it had not received. *)
Theorem batch_cancellation o h s k calls b e :
  runs o h s -> batch_opened k calls ∈ h -> batches s !! k = Some b -> b_phase b = returned (Err e) ->
  e = parent_cancelled_error /\
  (forall i, i < b_admitted b <-> i ∈ b_frames b \/ exists raced, ends k i h = [raced]) /\
  (forall i, i < b_admitted b -> b_signalled b !! i = Some true) /\
  (forall i, b_admitted b <= i < length calls ->
    i ∉ b_frames b /\ ends k i h = [] /\ b_results b !! i = Some None) /\
  (forall i, i ∈ b_frames b -> call_received k i ∉ h) /\
  names_of calls (fun i => i < b_admitted b /\ call_received k i ∉ h) (b_lag b).
Proof.
  intros Hr Hop Hk Hph. destruct (told_batch o h s k calls b Hr Hop Hk) as [HT Hb].
  destruct Hb, HT. rewrite Hph in *. destruct bi_returned0 as [-> _], bi_cancelled0 as [Hq Hsig].
  assert (Hfr : forall i, i ∈ b_frames b -> i < b_admitted b) by (by intros i (? & _)%bi_frames0).
  split_and!; try done.
  - intros i. split.
    + intros Hi. destruct (decide (i ∈ b_frames b)) as [?|Hn]; [by left|right].
      destruct (lookup_lt_is_Some_2 calls i) as [call Hc]; [lia|].
      destruct (td_ended0 i call Hi Hn Hc) as (raced & ? & _). by exists raced.
    + intros [Hi|[raced He]]; [by apply Hfr|]. destruct (decide (i < b_admitted b)) as [|Hge]; [done|].
      rewrite td_running0 in He by lia. done.
  - intros i Hi. split_and!; [intros ?%Hfr; lia|apply td_running0; lia|apply bi_queued0; lia].
  - intros i Hi. rewrite td_received0. intros [_ Ht]. apply bi_frames0 in Hi as (_ & Hf & _). congruence.
Qed.

(** no batch waits for ever: one that drains and is not complete has a dispatch
    running or a report to receive, and one that is complete has its results. *)
Theorem batch_progress o s k b :
  reachable o s -> batches s !! k = Some b -> b_phase b = draining ->
  if b_completed b <? length (b_calls b)
  then b_frames b <> ∅ \/ b_completion b <> []
  else exists rs, ordered b = Some rs.
Proof.
  intros HI%scheduler_inv Hk Hph. apply (si_batches _ _ HI) in Hk as [HB Hpos].
  pose proof HB as [Hb Hw]. destruct (Hw Hph) as [Hsum Hwin]. pose proof (bi_admitted _ _ Hb).
  destruct (Nat.ltb_spec (b_completed b) (length (b_calls b))) as [Hlt|Hge].
  - destruct (decide (b_frames b = ∅)) as [Hf|?]; [right|by left]. intros Hc.
    rewrite Hf, Hc, size_empty in Hsum. simpl in Hsum. lia.
  - destruct (all_done o b) as (Hf & _ & Ha); [done|done|lia|]. by eapply ordered_total.
Qed.

(** [wait_idle] returns exactly when no dispatch that borrowed the context still runs,
    whichever batch started it. *)
Theorem wait_idle_sound o s c :
  reachable o s ->
  wait_idle_done s (Some c) = true <->
  forall k b, batches s !! k = Some b -> b_context b = c -> b_frames b = ∅.
Proof.
  intros HI%scheduler_inv. unfold wait_idle_done.
  rewrite negb_true_iff, bool_decide_eq_false, <- eq_None_not_Some, (si_active _ _ HI).
  assert (Ht : counted (total c (batches s)) = None <-> total c (batches s) = 0).
  { unfold counted. by destruct (Nat.eqb_spec (total c (batches s)) 0). }
  rewrite Ht. clear Ht HI. induction (batches s) as [|k b bs Hk IH] using map_ind.
  - split; [by intros _ k b ?|done].
  - rewrite total_fresh by done. split.
    + intros H k2 b2 [[<- <-]|[Hne H2]]%lookup_insert_Some Hc.
      * unfold holds in H. rewrite decide_True in H by done. apply leibniz_equiv, size_empty_inv. lia.
      * eapply IH; [lia|done|done].
    + intros H. assert (Hb : holds c b = 0).
      { unfold holds. case_decide; [|done]. rewrite (H k b); [done|apply lookup_insert_eq|done]. }
      rewrite Hb. apply IH. intros k2 b2 H2. eapply H. rewrite lookup_insert_ne; [done|]. by intros ->; simplify_eq.
Qed.

(** ** Running a schedule *)
(** The choices of an execution, made executable. *)
Inductive Choice :=
  | choose_open (k context : nat) (calls : list ToolBatchCall)
  | choose_finish (k i : nat) (raced : option Raced)
  | choose_receive (k : nat) (cancelled : bool)
  | choose_cancel (k : nat)
  | choose_drain (k : nat)
  | choose_return (k : nat)
  | choose_grace (k : nat).

Definition exec (o : ToolSchedulerOptions) (s : System) (ch : Choice) : option (Label * System) :=
  let bs := batches s in
  let a := active s in
  match ch with
  | choose_open k context calls =>
      match bs !! k, open_batch o true false context calls a with
      | None, inr (a', b) => Some (batch_opened k calls, mkSystem a' (<[k := b]> bs))
      | _, _ => None
      end
  | choose_finish k i raced =>
      b ← bs !! k; call ← b_calls b !! i;
      if bool_decide (i ∈ b_frames b) then
        let '(a', b') := finish_call a b i (completed_output o call raced) in
        Some (call_ended k i raced, mkSystem a' (<[k := b']> bs))
      else None
  | choose_receive k cancelled =>
      b ← bs !! k;
      match b_phase b, b_completion b with
      | draining, i :: rest =>
          let '(a', b') := on_received a b i rest cancelled in
          Some (call_received k i, mkSystem a' (<[k := b']> bs))
      | _, _ => None
      end
  | choose_cancel k =>
      b ← bs !! k;
      match b_phase b with
      | draining => if b_completed b <? length (b_calls b)
                    then Some (batch_advanced k, mkSystem a (<[k := on_parent_cancelled b]> bs)) else None
      | _ => None
      end
  | choose_drain k =>
      b ← bs !! k;
      match b_phase b, b_completion b with
      | cancelling, i :: rest => if b_completed b <? length (b_calls b)
                                 then Some (call_received k i, mkSystem a (<[k := report b i rest]> bs)) else None
      | _, _ => None
      end
  | choose_return k =>
      b ← bs !! k;
      match b_phase b, ordered b with
      | draining, Some rs => if b_completed b =? length (b_calls b)
                             then Some (batch_advanced k, mkSystem a (<[k := finish_batch b (Ok rs) []]> bs)) else None
      | _, _ => None
      end
  | choose_grace k =>
      b ← bs !! k;
      match b_phase b with
      | cancelling => Some (batch_advanced k, mkSystem a (<[k := on_grace_over b]> bs))
      | _ => None
      end
  end.

Fixpoint exec_all (o : ToolSchedulerOptions) (h : list Label) (s : System) (chs : list Choice)
    : option (list Label * System) :=
  match chs with
  | [] => Some (h, s)
  | ch :: chs => p ← exec o s ch; exec_all o (h ++ [p.1]) p.2 chs
  end.

Lemma exec_step o s ch l s' : exec o s ch = Some (l, s') -> step o s l s'.
Proof.
  destruct s as [a bs], ch as [k c calls|k i raced|k ca|k|k|k|k]; cbn [exec batches active];
    destruct (bs !! k) as [b|] eqn:Hk; cbn [mbind option_bind]; try done.
  - destruct (open_batch _ _ _ _ _ _) as [|[a' b]] eqn:E; [done|]. intros [= <- <-]. by eapply step_open.
  - destruct (b_calls b !! i) as [call|] eqn:Hc; cbn; [|done]. case_bool_decide as Hi; [|done].
    intros [= <- <-]. by eapply (step_finish o a bs k b i call raced).
  - destruct (b_phase b) eqn:Hph; try done. destruct (b_completion b) as [|i rest] eqn:Hc; [done|].
    destruct (on_received a b i rest ca) as [a' b'] eqn:E. intros [= <- <-]. by eapply step_receive.
  - destruct (b_phase b) eqn:Hph; try done. destruct (Nat.ltb_spec (b_completed b) (length (b_calls b))); [|done].
    intros [= <- <-]. by apply step_cancel.
  - destruct (b_phase b) eqn:Hph; try done. destruct (b_completion b) as [|i rest] eqn:Hc; [done|].
    destruct (Nat.ltb_spec (b_completed b) (length (b_calls b))); [|done].
    intros [= <- <-]. by eapply step_drain.
  - destruct (b_phase b) eqn:Hph; try done. destruct (ordered b) as [rs|] eqn:Ho; [|done].
    destruct (Nat.eqb_spec (b_completed b) (length (b_calls b))); [|done].
    intros [= <- <-]. by eapply step_return.
  - destruct (b_phase b) eqn:Hph; try done. intros [= <- <-]. by apply step_grace.
Qed.

Lemma exec_all_runs o chs : forall h s h' s',
  runs o h s -> exec_all o h s chs = Some (h', s') -> runs o h' s'.
Proof.
  induction chs as [|ch chs IH]; intros h s h' s' Hs; simpl; [by intros [= <- <-]|].
  destruct (exec o s ch) as [[l s1]|] eqn:E; [|done]. simpl. apply IH.
  eapply runs_step; [done|]. by eapply exec_step.
Qed.

(** ** A batch of three calls, two at a time *)
Module Demo.
Definition options : ToolSchedulerOptions := mkSchedOptions 2 1000.
Definition calls : list ToolBatchCall :=
  [mkCall "a" "Read" "{}"; mkCall "b" "Write" "{}"; mkCall "c" "Read" "[]"].
Definition answer (t : string) : option Raced := Some (dispatched (Ok (text_only t))).
Definition play (chs : list Choice) : list Label * System :=
  default ([], fresh_system) (exec_all options [] fresh_system chs).
Definition after (chs : list Choice) : System := (play chs).2.
Definition batch_of (s : System) : BatchState := default (fresh_batch 0 []) (batches s !! 0).

Definition running : list Choice := [choose_open 0 7 calls].
(** The dispatches end out of order. *)
Definition succeeded : list Choice :=
  running ++ [choose_finish 0 1 (Some (timer (Ok tt))); choose_receive 0 false;
              choose_finish 0 2 (answer "z"); choose_finish 0 0 (answer "x");
              choose_receive 0 false; choose_receive 0 false; choose_return 0].
(** The parent is cancelled after one report; one call ends in the grace window. *)
Definition aborted : list Choice :=
  [choose_open 0 7 (calls ++ [mkCall "d" "Write" "{}"]); choose_finish 0 1 (answer "y");
   choose_receive 0 false; choose_cancel 0; choose_finish 0 0 None; choose_drain 0; choose_grace 0].
Definition results : list ToolBatchResult :=
  [mkBatchResult "a" "Read" (Ok (text_only "x"));
   mkBatchResult "b" "Write" (Err (timeout_error "Write" 1000));
   mkBatchResult "c" "Read" (Ok (text_only "z"))].

Lemma play_runs chs h s : exec_all options [] fresh_system chs = Some (h, s) -> runs options h s.
Proof. apply exec_all_runs, runs_fresh. Qed.
Lemma after_runs chs :
  is_Some (exec_all options [] fresh_system chs) -> runs options (play chs).1 (after chs).
Proof.
  intros [[h s] Hs]. unfold after, play. rewrite Hs. by apply (play_runs chs).
Qed.
Lemma after_reachable chs : is_Some (exec_all options [] fresh_system chs) -> reachable options (after chs).
Proof. intros H. by eapply runs_reachable, after_runs. Qed.
End Demo.

Ltac scheduler_demo :=
  first [ apply Demo.after_reachable; eexists; vm_compute; reflexivity
        | apply Demo.after_runs; eexists; vm_compute; reflexivity
        | vm_compute; reflexivity ].

Lemma scheduler_bounded_witness :
  size (b_frames (Demo.batch_of (Demo.after Demo.running))) <= 2 /\
  (forall i, i ∈ b_frames (Demo.batch_of (Demo.after Demo.running)) ->
     length (b_completion (Demo.batch_of (Demo.after Demo.running))) <
     length (b_calls (Demo.batch_of (Demo.after Demo.running)))).
Proof.
  apply (scheduler_bounded Demo.options (Demo.after Demo.running) 0
           (Demo.batch_of (Demo.after Demo.running))); scheduler_demo.
Defined.

Lemma batch_results_complete_witness :
  let h := (Demo.play Demo.succeeded).1 in
  b_frames (Demo.batch_of (Demo.after Demo.succeeded)) = ∅ /\
  length Demo.results = length Demo.calls /\
  forall i call, Demo.calls !! i = Some call -> exists raced, ends 0 i h = [raced] /\
    Demo.results !! i = Some (mkBatchResult (tool_use_id call) (call_name call)
      (completed_output Demo.options call raced)).
Proof.
  apply (batch_results_complete Demo.options (Demo.play Demo.succeeded).1 (Demo.after Demo.succeeded) 0
           Demo.calls (Demo.batch_of (Demo.after Demo.succeeded)) Demo.results);
    [scheduler_demo|vm_compute; left|scheduler_demo..].
Defined.

Lemma batch_cancellation_witness :
  let b := Demo.batch_of (Demo.after Demo.aborted) in
  let h := (Demo.play Demo.aborted).1 in
  let calls := Demo.calls ++ [mkCall "d" "Write" "{}"] in
  parent_cancelled_error = parent_cancelled_error /\
  (forall i, i < b_admitted b <-> i ∈ b_frames b \/ exists raced, ends 0 i h = [raced]) /\
  (forall i, i < b_admitted b -> b_signalled b !! i = Some true) /\
  (forall i, b_admitted b <= i < length calls ->
    i ∉ b_frames b /\ ends 0 i h = [] /\ b_results b !! i = Some None) /\
  (forall i, i ∈ b_frames b -> call_received 0 i ∉ h) /\
  names_of calls (fun i => i < b_admitted b /\ call_received 0 i ∉ h) (b_lag b).
Proof.
  apply (batch_cancellation Demo.options (Demo.play Demo.aborted).1 (Demo.after Demo.aborted) 0
           (Demo.calls ++ [mkCall "d" "Write" "{}"]) (Demo.batch_of (Demo.after Demo.aborted))
           parent_cancelled_error); [scheduler_demo|vm_compute; left|scheduler_demo..].
Defined.

(** Calls 1 and 0 were received, call 3 was queued; call 2 is named and still runs. *)
Example aborted_lag : b_lag (Demo.batch_of (Demo.after Demo.aborted)) = ["Read"%string] /\
  b_frames (Demo.batch_of (Demo.after Demo.aborted)) = {[2]}.
Proof. split; vm_compute; reflexivity. Qed.

Lemma batch_progress_witness :
  b_frames (Demo.batch_of (Demo.after Demo.running)) <> ∅ \/
  b_completion (Demo.batch_of (Demo.after Demo.running)) <> [].
Proof.
  apply (batch_progress Demo.options (Demo.after Demo.running) 0
           (Demo.batch_of (Demo.after Demo.running))); scheduler_demo.
Defined.

Lemma wait_idle_sound_witness :
  wait_idle_done (Demo.after Demo.aborted) (Some 7) = true <->
  forall k b, batches (Demo.after Demo.aborted) !! k = Some b -> b_context b = 7 -> b_frames b = ∅.
Proof.
  apply (wait_idle_sound Demo.options (Demo.after Demo.aborted) 7); scheduler_demo.
Defined.
