(* ===== verification/Observer.v ===== *)
(** * oran-agent: the turn observer

    Models the inputs of a turn ([include/oran/agent/loop.hpp]) and
    [src/oran-agent/turn_observer.cpp]: the hook payloads published around a provider
    call and the trace row written when a turn ends.  The trace repository is storage
    code behind a coroutine: how its [append_turn] ends is an argument. *)
From S2P Require Import Prelude Core TurnId Hooks Dispatch Provider Context Prompt.
Import EnumNames.
#[local] Open Scope Z_scope.

(** ** The inputs of a turn *)
Record TraceContext := mkTraceContext {
  tc_enabled : bool; tc_has_repository : bool; tc_has_executor : bool; tc_session_id : TurnId;
  tc_parent_turn_id : option TurnId; tc_agent_key : string; tc_origin : string;
  tc_context_json : string }.

(** [RunTurnInputs]; the readers and services behind its pointers are arguments of the
    loop, their presence is data. *)
Record RunTurnInputs (A : Type) := mkInputs {
  in_system_preamble : string; in_tool_catalog : list ToolDef;
  in_active_tools : option (list string); in_skills_catalog : string;
  in_memory_framing : string; in_per_agent_overlay : string;
  in_conversation_tail : list Message; in_context : ContextOptions;
  in_checkpoint : WorkingContext; in_history_end : Z; in_has_history_loader : bool;
  in_has_inbox_reader : bool; in_tool_choice : option string; in_max_tokens : option Z;
  in_thinking_budget : option Z; in_retry : RetryPolicy; in_stream : bool;
  in_turn_id : option TurnId; in_trace : TraceContext; in_has_bus : bool;
  in_scope_key : string; in_agent_key : string; in_identity : string; in_origin : string;
  in_has_tools : bool; in_dispatch_context : option (DispatchContext A) }.
Arguments mkInputs {A}.
Arguments in_system_preamble {A}.
Arguments in_tool_catalog {A}.
Arguments in_active_tools {A}.
Arguments in_skills_catalog {A}.
Arguments in_memory_framing {A}.
Arguments in_per_agent_overlay {A}.
Arguments in_conversation_tail {A}.
Arguments in_context {A}.
Arguments in_checkpoint {A}.
Arguments in_history_end {A}.
Arguments in_has_history_loader {A}.
Arguments in_has_inbox_reader {A}.
Arguments in_tool_choice {A}.
Arguments in_max_tokens {A}.
Arguments in_thinking_budget {A}.
Arguments in_retry {A}.
Arguments in_stream {A}.
Arguments in_turn_id {A}.
Arguments in_trace {A}.
Arguments in_has_bus {A}.
Arguments in_scope_key {A}.
Arguments in_agent_key {A}.
Arguments in_identity {A}.
Arguments in_origin {A}.
Arguments in_has_tools {A}.
Arguments in_dispatch_context {A}.

Definition set_turn_id {A} (i : RunTurnInputs A) (id : option TurnId) : RunTurnInputs A :=
  mkInputs (in_system_preamble i) (in_tool_catalog i) (in_active_tools i) (in_skills_catalog i)
    (in_memory_framing i) (in_per_agent_overlay i) (in_conversation_tail i) (in_context i)
    (in_checkpoint i) (in_history_end i) (in_has_history_loader i) (in_has_inbox_reader i)
    (in_tool_choice i) (in_max_tokens i) (in_thinking_budget i) (in_retry i) (in_stream i)
    id (in_trace i) (in_has_bus i) (in_scope_key i) (in_agent_key i) (in_identity i)
    (in_origin i) (in_has_tools i) (in_dispatch_context i).

(** [storage::AppendTraceTurnRequest]. *)
Record AppendTraceTurnRequest := mkTraceRow {
  tr_turn_id : TurnId; tr_parent_turn_id : option TurnId; tr_session_id : TurnId;
  tr_agent_key : string; tr_origin : string; tr_route_profile : string; tr_route_model : string;
  tr_started_at_ns : Z; tr_finished_at_ns : Z; tr_stop_reason : string; tr_iteration_count : Z;
  tr_prompt_prefix_hash : Z; tr_prompt_prefix_bytes : Z; tr_active_catalog_hash : Z;
  tr_cache_creation_tokens : Z; tr_cache_read_tokens : Z; tr_input_tokens : Z;
  tr_output_tokens : Z; tr_cost_estimate_usd : double; tr_cancellation_phase : option string;
  tr_context_json : string }.

(** [TurnProgress]. *)
Record TurnProgress := mkProgress {
  pg_usage : Usage; pg_iterations : Z; pg_target : Attribution }.

Section Observer.
Context {A : Type} (inputs : RunTurnInputs A) (route : Route).

(** ** Hook payloads *)
Definition hook_identity : Hooks.Identity :=
  mkIdentity (in_scope_key inputs) (in_agent_key inputs) (in_identity inputs).
Definition hook_usage (u : Usage) : ProviderUsage :=
  mkProviderUsage (us_input_tokens u) (us_output_tokens u) (us_cache_creation_tokens u)
    (us_cache_read_tokens u) (us_cost_estimate u).
Definition duration_between (start finish : Z) : Z := finish - start.

Definition make_provider_request_payload (r : Request) (iteration started_at : Z)
    : ProviderRequestPayload :=
  mkProviderRequest hook_identity (in_origin inputs) (in_turn_id inputs) iteration
    (mt_profile (primary route)) (mt_model (primary route)) (enum_name (mt_protocol (primary route)))
    (Z.of_nat (length (fallbacks route))) (Z.of_nat (length (rq_messages r)))
    (Z.of_nat (length (rq_tools r))) (rq_stream r) (rq_max_tokens r) (rq_thinking_budget r)
    (Z.of_nat (max_attempts (rq_retry r))) (initial_backoff (rq_retry r)) started_at.

Definition make_provider_response_payload (r : Response) (target : Attribution)
    (iteration started_at finished_at : Z) : ProviderResponsePayload :=
  mkProviderResponse hook_identity (in_origin inputs) (in_turn_id inputs) iteration
    (mt_profile (primary route)) (mt_model (primary route)) (enum_name (mt_protocol (primary route)))
    (at_profile target) (at_model target) (enum_name (at_protocol target))
    (enum_name (rs_stop_reason r)) (hook_usage (rs_usage r)) started_at finished_at
    (duration_between started_at finished_at).

Definition make_provider_error_payload (e : Error) (failing_target : Attribution)
    (iteration started_at finished_at : Z) : ProviderErrorPayload :=
  mkProviderError hook_identity (in_origin inputs) (in_turn_id inputs) iteration
    (at_profile failing_target) (at_model failing_target) (enum_name (at_protocol failing_target))
    (enum_name (err_kind e)) (err_message e) (Errors.retryable e) started_at finished_at
    (duration_between started_at finished_at).

(** ** Trace rows *)
Definition trace_writer_configured : bool :=
  tc_enabled (in_trace inputs) && tc_has_repository (in_trace inputs).

Definition checked_i64 (value : Z) (field : string) : Result Z :=
  if 2 ^ 63 - 1 <? value
  then Err (Errors.with_ctx (Errors.invalid_argument "trace counter exceeds storage range") "field" field)
  else Ok value.
Definition checked_size_i64 (value : Z) (field : string) : Result Z :=
  if 2 ^ 63 - 1 <? value
  then Err (Errors.with_ctx (Errors.invalid_argument "trace byte count exceeds storage range") "field" field)
  else Ok value.

Definition make_trace_request (rendered : RenderedPrompt) (p : TurnProgress)
    (started_at_ns finished_at_ns : Z) (stop_reason : StopReason) (phase : option string)
    : Result AppendTraceTurnRequest :=
  fail? negb (tc_has_repository (in_trace inputs)) with
    Errors.invalid_argument "trace repository is not configured";
  fail? negb (tc_enabled (in_trace inputs)) with
    Errors.invalid_argument "trace writer is disabled";
  match in_turn_id inputs with
  | None => Err (Errors.invalid_argument "trace writer requires a turn id")
  | Some turn_id =>
      let served_profile := if bool_decide (at_profile (pg_target p) = "")%string
                            then mt_profile (primary route) else at_profile (pg_target p) in
      let u := pg_usage p in
      let? prefix_bytes := checked_size_i64 (rd_prefix_bytes rendered) "prompt_prefix_bytes" in
      let? input_tokens := checked_i64 (us_input_tokens u) "input_tokens" in
      let? output_tokens := checked_i64 (us_output_tokens u) "output_tokens" in
      let? cache_creation := checked_i64 (us_cache_creation_tokens u) "cache_creation_tokens" in
      let? cache_read := checked_i64 (us_cache_read_tokens u) "cache_read_tokens" in
      let trace := in_trace inputs in
      Ok (mkTraceRow turn_id (tc_parent_turn_id trace) (tc_session_id trace) (tc_agent_key trace)
            (tc_origin trace) served_profile (at_model (pg_target p)) started_at_ns finished_at_ns
            (enum_name stop_reason) (pg_iterations p) (rd_prefix_hash rendered) prefix_bytes
            (rd_tool_catalog_hash rendered) cache_creation cache_read input_tokens output_tokens
            (default (double_of 0) (us_cost_estimate u)) phase (tc_context_json trace))
  end.
End Observer.

(** How [append_turn] on the blocking executor ends. *)
Inductive AppendEnd :=
  | appended (cancelled : bool)
  | append_failed (e : Error)
  | append_aborted
  | append_threw (what : string).

Definition append_result (r : AppendEnd) : Result unit :=
  match r with
  | appended false => Ok tt
  | appended true => Err Errors.cancelled
  | append_failed e => Err e
  | append_aborted => Err Errors.cancelled
  | append_threw what => Err (Errors.with_ctx (Errors.storage "trace write failed") "cause" what)
  end.

Definition attach_trace_write_error (original trace_error : Error) : Error :=
  Errors.with_ctx original "trace_write_failed" (err_message trace_error).

(** The stop reason and phase [fail] records for an error. *)
Definition failure_stop_reason (e : Error) : StopReason :=
  if bool_decide (err_kind e = ek_cancelled) then sr_cancelled else sr_error.
Definition failure_phase (e : Error) (phase : string) : option string :=
  if bool_decide (err_kind e = ek_cancelled) then Some phase else None.
