(* ===== verification/StatementCache.v ===== *)
(** * oran-storage: the prepared-statement cache

    Models [include/oran/storage/statement_cache.hpp] and
    [src/oran-storage/statement_cache.cpp].  A [shared_ptr<CacheEntry>] is a number
    into a heap of entries, so that a lease and the cache share the entry they name.
    SQLite is not modelled: what [prepare], [reset] and [clear_bindings] answer are
    arguments of the operations.  [leases] is the set of live [CachedStatement]s. *)
From S2P Require Import Prelude Core.

(** ** Data *)
Record CacheEntry := mkEntry { ce_sql : string; ce_leased : bool; ce_orphaned : bool }.

Record State := mkState {
  cap : nat; heap : gmap nat CacheEntry; lru : list nat; by_sql : gmap string nat;
  hits : nat; misses : nat; evictions : nat }.

(** A default-constructed or moved-from cache has no state. *)
Definition StatementCache := option State.

Definition conflict (message : string) : Error := Errors.mk ek_conflict message.
Definition cache_not_open_error : Error := conflict "statement cache is not open".
Definition already_leased_error (sql : string) : Error :=
  Errors.with_ctx (conflict "statement is already leased") "sql" sql.
Definition empty_sql_error : Error := Errors.invalid_argument "sql must not be empty".

Definition open (capacity : nat) : Result StatementCache :=
  if capacity =? 0 then Err (Errors.invalid_argument "statement cache capacity must be greater than zero")
  else Ok (Some (mkState capacity ∅ [] ∅ 0 0 0)).

Definition entry_at (s : State) (p : nat) : CacheEntry := default (mkEntry "" false false) (heap s !! p).
Definition set_leased (e : CacheEntry) (b : bool) : CacheEntry := mkEntry (ce_sql e) b (ce_orphaned e).
Definition set_orphaned (e : CacheEntry) : CacheEntry := mkEntry (ce_sql e) (ce_leased e) true.

(** [state.lru.erase(it->second); state.by_sql.erase(it)]. *)
Definition forget (s : State) (p : nat) (sql : string) : State :=
  mkState (cap s) (heap s) (List.filter (fun q => negb (q =? p)) (lru s)) (delete sql (by_sql s))
    (hits s) (misses s) (evictions s).
(** [splice] to the front. *)
Definition to_front (s : State) (p : nat) : State :=
  mkState (cap s) (heap s) (p :: List.filter (fun q => negb (q =? p)) (lru s)) (by_sql s)
    (hits s) (misses s) (evictions s).
Definition put (s : State) (p : nat) (e : CacheEntry) : State :=
  mkState (cap s) (<[p := e]> (heap s)) (lru s) (by_sql s) (hits s) (misses s) (evictions s).
Definition count (s : State) (h m e : nat) : State :=
  mkState (cap s) (heap s) (lru s) (by_sql s) (hits s + h) (misses s + m) (evictions s + e).
(** [push_front] and [emplace]. *)
Definition insert_front (s : State) (p : nat) (sql : string) : State :=
  mkState (cap s) (heap s) (p :: lru s) (<[sql := p]> (by_sql s)) (hits s) (misses s) (evictions s).

(** [std::ranges::find_last_if] of the entries without a lease. *)
Definition victim (s : State) : option nat :=
  last (List.filter (fun q => negb (ce_leased (entry_at s q))) (lru s)).

(** What SQLite answers during an operation. *)
Record Sqlite := mkSqlite {
  sq_prepare : Result unit; sq_reset : Result unit; sq_clear : Result unit }.

(** A cached statement: [it] was found under [sql]. *)
Definition acquire_hit (db : Sqlite) (s : State) (sql : string) (p : nat) : Result nat * State :=
  let e := entry_at s p in
  if ce_leased e then (Err (already_leased_error sql), s)
  else
    let s := to_front s p in
    match sq_reset db with
    | Err error => (Err (Errors.with_ctx error "sql" sql), forget s p sql)
    | Ok _ =>
        match sq_clear db with
        | Err error => (Err (Errors.with_ctx error "sql" sql), forget s p sql)
        | Ok _ => (Ok p, count (put s p (set_leased e true)) 1 0 0)
        end
    end.

(** A new statement. *)
Definition acquire_miss (db : Sqlite) (s : State) (sql : string) : Result nat * State :=
  let s := count s 0 1 0 in
  match sq_prepare db with
  | Err error => (Err error, s)
  | Ok _ =>
      let p := fresh (dom (heap s)) in
      let e := mkEntry sql true false in
      if length (lru s) <? cap s then (Ok p, insert_front (put s p e) p sql)
      else
        match victim s with
        | None => (Ok p, put s p (set_orphaned e))
        | Some v =>
            (Ok p, insert_front (put (count (forget s v (ce_sql (entry_at s v))) 0 0 1) p e) p sql)
        end
  end.

(** [StatementCache::acquire]. *)
Definition acquire (db : Sqlite) (c : StatementCache) (sql : string) : Result nat * StatementCache :=
  match c with
  | None => (Err cache_not_open_error, None)
  | Some s =>
      if bool_decide (sql = "")%string then (Err empty_sql_error, c)
      else
        let '(r, s) := match by_sql s !! sql with
                       | Some p => acquire_hit db s sql p
                       | None => acquire_miss db s sql
                       end in
        (r, Some s)
  end.

(** [StatementCache::clear]. *)
Definition orphan_leased (s : State) (p : nat) (h : gmap nat CacheEntry) : gmap nat CacheEntry :=
  if ce_leased (entry_at s p) then <[p := set_orphaned (entry_at s p)]> h else h.
Definition clear (c : StatementCache) : StatementCache :=
  match c with
  | None => None
  | Some s => Some (mkState (cap s) (foldr (orphan_leased s) (heap s) (lru s)) [] ∅ 0 0 0)
  end.

(** [CachedStatement::release] of a live lease on [p]. *)
Definition release (db : Sqlite) (c : StatementCache) (p : nat) : StatementCache :=
  match c with
  | None => None
  | Some s =>
      let e := entry_at s p in
      if ce_orphaned e then c
      else
        match sq_reset db, sq_clear db with
        | Ok _, Ok _ => Some (put s p (set_leased e false))
        | _, _ => if bool_decide (by_sql s !! ce_sql e = Some p) then Some (forget s p (ce_sql e)) else c
        end
  end.

(** ** The cache and its leases *)
Record System := mkSystem { cache : StatementCache; leases : gset nat }.

Inductive step : System -> System -> Prop :=
  | step_acquire db c c' ls sql p :
      acquire db c sql = (Ok p, c') -> step (mkSystem c ls) (mkSystem c' ({[p]} ∪ ls))
  | step_refused db c c' ls sql e :
      acquire db c sql = (Err e, c') -> step (mkSystem c ls) (mkSystem c' ls)
  | step_release db c ls p :
      p ∈ ls -> step (mkSystem c ls) (mkSystem (release db c p) (ls ∖ {[p]}))
  | step_clear c ls : step (mkSystem c ls) (mkSystem (clear c) ls).

Inductive reachable (capacity : nat) : System -> Prop :=
  | reach_open c : open capacity = Ok c -> reachable capacity (mkSystem c ∅)
  | reach_step s s' : reachable capacity s -> step s s' -> reachable capacity s'.

(** ** The invariant *)
Record Inv (capacity : nat) (s : State) (ls : gset nat) : Prop := {
  iv_cap : cap s = capacity;
  iv_len : length (lru s) <= capacity;
  iv_nodup : NoDup (lru s);
  iv_index : forall sql p, by_sql s !! sql = Some p <->
    p ∈ lru s /\ exists e, heap s !! p = Some e /\ ce_sql e = sql;
  iv_entry : forall p, p ∈ lru s -> exists e, heap s !! p = Some e /\ ce_orphaned e = false /\
    (ce_leased e = true <-> p ∈ ls);
  iv_lease : forall p, p ∈ ls -> exists e, heap s !! p = Some e /\ (p ∈ lru s \/ ce_orphaned e = true) }.

Abbreviation others p := (List.filter (fun q => negb (q =? p))).

Lemma elem_of_others p q l : q ∈ others p l <-> q ∈ l /\ q <> p.
Proof.
  rewrite !list_elem_of_In, filter_In, negb_true_iff, Nat.eqb_neq. done.
Qed.

Lemma others_perm p l : NoDup l -> p ∈ l -> p :: others p l ≡ₚ l.
Proof.
  induction 1 as [|q l Hq Hl IH]; [by intros ?%not_elem_of_nil|].
  intros [->|Hp]%elem_of_cons; simpl.
  - rewrite Nat.eqb_refl. simpl. f_equiv. apply reflexive_eq.
    clear -Hq. induction l as [|r l IH]; simpl; [done|].
    apply not_elem_of_cons in Hq as [Hne Hq]. destruct (Nat.eqb_spec r q); [done|]. simpl. by rewrite IH.
  - destruct (Nat.eqb_spec q p) as [->|]; [done|]. simpl. rewrite Permutation_swap. by rewrite IH.
Qed.

Lemma others_nodup p l : NoDup l -> NoDup (others p l).
Proof. rewrite !NoDup_ListNoDup. apply List.NoDup_filter. Qed.

Section Preservation.
Context (capacity : nat).

Lemma entry_at_eq s p e : heap s !! p = Some e -> entry_at s p = e.
Proof. unfold entry_at. by intros ->. Qed.

Lemma same_sql s ls p q e e' :
  Inv capacity s ls -> p ∈ lru s -> q ∈ lru s -> heap s !! p = Some e -> heap s !! q = Some e' ->
  ce_sql e = ce_sql e' -> p = q.
Proof.
  intros HI Hp Hq He He' Hs. pose proof (iv_index _ _ _ HI) as Hi.
  assert (H1 : by_sql s !! ce_sql e = Some p) by (apply Hi; eauto).
  assert (H2 : by_sql s !! ce_sql e = Some q) by (apply Hi; eauto). congruence.
Qed.

Lemma forget_inv s ls p e :
  Inv capacity s ls -> p ∈ lru s -> heap s !! p = Some e ->
  Inv capacity (forget s p (ce_sql e)) (ls ∖ {[p]}).
Proof.
  intros HI Hp He. pose proof (same_sql s ls) as Hsame. pose proof HI as [].
  split; cbn [forget cap lru heap by_sql]; try done.
  - pose proof (Permutation_length (others_perm p _ iv_nodup0 Hp)) as Hl. simpl in Hl. lia.
  - by apply others_nodup.
  - intros sql q. rewrite lookup_delete_Some, iv_index0, elem_of_others. split.
    + intros (Hne & Hq & e' & He' & <-). split; [split; [done|]|eauto]. intros ->. congruence.
    + intros ((Hq & Hne) & e' & He' & <-). split; [|eauto]. intros Heq. apply Hne. symmetry. by eapply Hsame.
  - intros q (Hq & Hne)%elem_of_others. destruct (iv_entry0 q Hq) as (e' & ? & ? & Hl).
    exists e'. split_and!; [done|done|]. rewrite Hl. set_solver.
  - intros q [Hq Hne]%elem_of_difference. destruct (iv_lease0 q Hq) as (e' & ? & [?|?]); exists e'; split; auto.
    left. apply elem_of_others. set_solver.
Qed.

Lemma front_inv s ls p : Inv capacity s ls -> p ∈ lru s -> Inv capacity (to_front s p) ls.
Proof.
  intros [] Hp. pose proof (others_perm p _ iv_nodup0 Hp) as Hperm.
  assert (Hin : forall q, q ∈ p :: others p (lru s) <-> q ∈ lru s) by (intros q; by rewrite Hperm).
  split; cbn [to_front cap lru heap by_sql]; try done.
  - by rewrite Hperm.
  - by rewrite Hperm.
  - intros sql q. by rewrite Hin.
  - intros q Hq. by apply iv_entry0, Hin.
  - intros q (e & He & Ho)%iv_lease0. exists e. rewrite Hin. done.
Qed.

Lemma set_leased_inv s ls p e b :
  Inv capacity s ls -> p ∈ lru s -> heap s !! p = Some e ->
  Inv capacity (put s p (set_leased e b)) (if b then {[p]} ∪ ls else ls ∖ {[p]}).
Proof.
  intros [] Hp He. split; cbn [put cap lru heap by_sql]; try done.
  - intros sql q. rewrite iv_index0. split; intros (Hq & e' & He' & <-); (split; [done|]).
    + destruct (decide (p = q)) as [<-|Hne].
      * exists (set_leased e b). rewrite lookup_insert_eq. split; [done|]. simpl. congruence.
      * exists e'. by rewrite lookup_insert_ne.
    + apply lookup_insert_Some in He' as [[<- <-]|[_ He']]; [exists e|exists e']; done.
  - intros q Hq. destruct (decide (p = q)) as [<-|Hne].
    + exists (set_leased e b). rewrite lookup_insert_eq. destruct (iv_entry0 p Hp) as (e' & He' & Ho & _).
      assert (e' = e) as -> by congruence. split_and!; [done|done|]. destruct b; simpl; set_solver.
    + destruct (iv_entry0 q Hq) as (e' & ? & ? & Hl). exists e'. rewrite lookup_insert_ne by done.
      split_and!; [done|done|]. rewrite Hl. destruct b; set_solver.
  - intros q Hq. assert (Hq' : q = p \/ q ∈ ls) by (destruct b; set_solver).
    destruct (decide (p = q)) as [<-|Hne].
    + exists (set_leased e b). rewrite lookup_insert_eq. auto.
    + destruct Hq' as [->|Hq']; [done|]. destruct (iv_lease0 q Hq') as (e' & ? & ?). exists e'.
      by rewrite lookup_insert_ne.
Qed.

Lemma count_inv s ls h m e : Inv capacity s ls -> Inv capacity (count s h m e) ls.
Proof. by intros []. Qed.

Lemma fresh_entry s ls p : Inv capacity s ls -> heap s !! p = None -> p ∉ lru s /\ p ∉ ls.
Proof.
  intros [] Hp. split; [intros (e & He & _)%iv_entry0|intros (e & He & _)%iv_lease0]; congruence.
Qed.

Lemma insert_inv s ls p sql :
  Inv capacity s ls -> heap s !! p = None -> by_sql s !! sql = None -> length (lru s) < capacity ->
  Inv capacity (insert_front (put s p (mkEntry sql true false)) p sql) ({[p]} ∪ ls).
Proof.
  intros HI Hp Hs Hlen. destruct (fresh_entry _ _ _ HI Hp) as [Hl Hls]. destruct HI.
  split; cbn [insert_front put cap lru heap by_sql]; try done.
  - by apply NoDup_cons.
  - intros sql' q. rewrite elem_of_cons. split.
    + intros [[<- <-]|[Hne (Hq & e & He & <-)%iv_index0]]%lookup_insert_Some.
      * split; [by left|]. eexists. rewrite lookup_insert_eq. done.
      * split; [by right|]. exists e. rewrite lookup_insert_ne; [done|]. congruence.
    + intros ([->|Hq] & e & He & <-).
      * rewrite lookup_insert_eq in He. injection He as <-. apply lookup_insert_eq.
      * rewrite lookup_insert_ne in He by congruence. rewrite lookup_insert_ne; [apply iv_index0; eauto|].
        intros ->. assert (by_sql s !! ce_sql e = Some q) by (apply iv_index0; eauto). congruence.
  - intros q [->|Hq]%elem_of_cons.
    + eexists. rewrite lookup_insert_eq. split_and!; [done..|]. simpl. set_solver.
    + destruct (iv_entry0 q Hq) as (e & ? & ? & Hle). exists e. rewrite lookup_insert_ne by congruence.
      split_and!; [done|done|]. rewrite Hle. set_solver.
  - intros q [->%elem_of_singleton|Hq]%elem_of_union.
    + eexists. rewrite lookup_insert_eq. split; [done|]. left. by apply elem_of_cons; left.
    + destruct (iv_lease0 q Hq) as (e & ? & Ho). exists e. rewrite lookup_insert_ne by congruence.
      split; [done|]. rewrite elem_of_cons. tauto.
Qed.

Lemma orphan_inv s ls p sql :
  Inv capacity s ls -> heap s !! p = None -> Inv capacity (put s p (mkEntry sql true true)) ({[p]} ∪ ls).
Proof.
  intros HI Hp. destruct (fresh_entry _ _ _ HI Hp) as [Hl Hls]. destruct HI.
  assert (Hkeep : forall q e, q ∈ lru s -> <[p := e]> (heap s) !! q = heap s !! q)
    by (intros q e Hq; apply lookup_insert_ne; congruence).
  split; cbn [put cap lru heap by_sql]; try done.
  - intros sql' q. rewrite iv_index0. split; intros (Hq & e & He & <-); (split; [done|]); exists e;
      by rewrite Hkeep in *.
  - intros q Hq. rewrite Hkeep by done. destruct (iv_entry0 q Hq) as (e & ? & ? & Hle). exists e.
    split_and!; [done|done|]. rewrite Hle. set_solver.
  - intros q [->%elem_of_singleton|Hq]%elem_of_union.
    + eexists. rewrite lookup_insert_eq. auto.
    + destruct (iv_lease0 q Hq) as (e & ? & Ho). exists e. by rewrite lookup_insert_ne by congruence.
Qed.

Lemma victim_spec s ls v :
  Inv capacity s ls -> victim s = Some v ->
  v ∈ lru s /\ v ∉ ls /\ exists e, heap s !! v = Some e /\ ce_leased e = false /\ entry_at s v = e.
Proof.
  intros HI Hv. unfold victim in Hv. apply last_Some_elem_of in Hv.
  rewrite list_elem_of_In, filter_In, negb_true_iff in Hv. destruct Hv as [Hin Hle].
  apply list_elem_of_In in Hin. destruct (iv_entry _ _ _ HI v Hin) as (e & He & _ & Hl).
  rewrite (entry_at_eq _ _ _ He) in Hle. split_and!; [done| |exists e; by rewrite (entry_at_eq _ _ _ He)].
  intros Hls. apply Hl in Hls. congruence.
Qed.

Definition fresh_pointer (s : State) : nat := fresh (dom (heap s)).

Lemma fresh_pointer_spec s : heap s !! fresh_pointer s = None.
Proof. apply not_elem_of_dom. unfold fresh_pointer. apply is_fresh. Qed.

(** A hit leases an entry that no one held. *)
Lemma hit_inv db s ls sql p r s' :
  Inv capacity s ls -> by_sql s !! sql = Some p -> acquire_hit db s sql p = (r, s') ->
  match r with
  | Ok q => q = p /\ p ∉ ls /\ p ∈ lru s' /\ Inv capacity s' ({[p]} ∪ ls)
  | Err _ => Inv capacity s' ls
  end.
Proof.
  intros HI Hs. pose proof (iv_index _ _ _ HI) as Hi. apply Hi in Hs as (Hp & e & He & <-).
  unfold acquire_hit. rewrite (entry_at_eq _ _ _ He).
  destruct (iv_entry _ _ _ HI p Hp) as (e' & He' & _ & Hl). assert (e' = e) as -> by congruence.
  destruct (ce_leased e) eqn:El; [by intros [= <- <-]|].
  assert (Hnot : p ∉ ls) by (intros Hin; apply Hl in Hin; congruence).
  pose proof (front_inv s ls p HI Hp) as Hf.
  assert (Hforget : Inv capacity (forget (to_front s p) p (ce_sql e)) ls).
  { pose proof (forget_inv (to_front s p) ls p e Hf ltac:(by apply elem_of_cons; left) He) as Hx.
    by replace (ls ∖ {[p]}) with ls in Hx by set_solver. }
  destruct (sq_reset db); [|by intros [= <- <-]]. destruct (sq_clear db); [|by intros [= <- <-]].
  intros [= <- <-]. split_and!; [done|done|by apply elem_of_cons; left|].
  apply count_inv. apply (set_leased_inv (to_front s p) ls p e true Hf); [by apply elem_of_cons; left|done].
Qed.

(** A miss leases a new entry; the victim, if any, was not leased. *)
Lemma miss_inv db s ls sql r s' :
  0 < capacity -> Inv capacity s ls -> by_sql s !! sql = None -> acquire_miss db s sql = (r, s') ->
  match r with
  | Ok q => q ∉ ls /\ Inv capacity s' ({[q]} ∪ ls) /\ (forall p, p ∈ lru s -> p ∈ ls -> p ∈ lru s')
  | Err _ => Inv capacity s' ls
  end.
Proof.
  intros Hpos HI Hs. unfold acquire_miss. destruct (sq_prepare db); [|intros [= <- <-]; by apply count_inv].
  assert (HI1 : Inv capacity (count s 0 1 0) ls) by by apply count_inv.
  set (s1 := count s 0 1 0) in *. change (fresh (dom (heap s1))) with (fresh_pointer s1).
  set (p := fresh_pointer s1).
  pose proof (fresh_pointer_spec s1) as Hp. fold p in Hp.
  destruct (fresh_entry _ _ _ HI1 Hp) as [_ Hls].
  destruct (Nat.ltb_spec (length (lru s1)) (cap s1)) as [Hlt|Hge].
  { intros [= <- <-]. rewrite (iv_cap _ _ _ HI1) in Hlt. split_and!; [done|by apply insert_inv|].
    intros q Hq _. by apply elem_of_cons; right. }
  destruct (victim s1) as [v|] eqn:Ev.
  2:{ intros [= <- <-]. split_and!; [done|by apply orphan_inv|done]. }
  intros [= <- <-]. destruct (victim_spec s1 ls v HI1 Ev) as (Hv & Hvls & e & He & _ & ->).
  pose proof (forget_inv s1 ls v e HI1 Hv He) as HF. replace (ls ∖ {[v]}) with ls in HF by set_solver.
  assert (Hlen : length (others v (lru s1)) < capacity).
  { pose proof (Permutation_length (others_perm v _ (iv_nodup _ _ _ HI1) Hv)) as Hl. cbn [length] in Hl.
    pose proof (iv_len _ _ _ HI1). lia. }
  split_and!; [done| |].
  - apply (insert_inv (count (forget s1 v (ce_sql e)) 0 0 1)); [by apply count_inv|done| |done].
    cbn [count forget by_sql]. apply lookup_delete_None. by right.
  - intros q Hq Hin. apply elem_of_cons. right. cbn. apply elem_of_others. split; [done|]. by intros ->.
Qed.

Lemma release_inv db s ls p :
  Inv capacity s ls -> p ∈ ls ->
  match release db (Some s) p with Some s' => Inv capacity s' (ls ∖ {[p]}) | None => False end.
Proof.
  intros HI Hp. destruct (iv_lease _ _ _ HI p Hp) as (e & He & Ho). unfold release.
  rewrite (entry_at_eq _ _ _ He).
  assert (Horphan : p ∉ lru s -> Inv capacity s (ls ∖ {[p]})).
  { intros Hn. destruct HI. split; try done.
    - intros q Hq. destruct (iv_entry0 q Hq) as (e' & ? & ? & Hl). exists e'. split_and!; [done|done|].
      rewrite Hl. set_solver.
    - intros q [Hq _]%elem_of_difference. by apply iv_lease0. }
  destruct (ce_orphaned e) eqn:Eo.
  { apply Horphan. intros Hin. destruct (iv_entry _ _ _ HI p Hin) as (e' & ? & ? & _). congruence. }
  destruct Ho as [Hin|]; [|done].
  assert (Hi : by_sql s !! ce_sql e = Some p) by (apply (iv_index _ _ _ HI); eauto).
  assert (HF : Inv capacity (forget s p (ce_sql e)) (ls ∖ {[p]})) by (by apply forget_inv).
  destruct (sq_reset db), (sq_clear db); rewrite ?bool_decide_eq_true_2 by done; try done.
  by apply (set_leased_inv s ls p e false).
Qed.

Lemma orphan_leased_lookup s l : forall p,
  NoDup l ->
  foldr (orphan_leased s) (heap s) l !! p =
    if decide (p ∈ l) then (if ce_leased (entry_at s p) then Some (set_orphaned (entry_at s p)) else heap s !! p)
    else heap s !! p.
Proof.
  induction l as [|q l IH]; intros p Hnd; cbn [foldr].
  { rewrite decide_False; [done|]. apply not_elem_of_nil. }
  apply NoDup_cons in Hnd as [Hq Hnd]. unfold orphan_leased at 1.
  destruct (decide (p = q)) as [->|Hne].
  - rewrite decide_True by (by apply elem_of_cons; left).
    destruct (ce_leased (entry_at s q)); [apply lookup_insert_eq|]. rewrite IH by done.
    by rewrite decide_False.
  - assert (Hrest : (if ce_leased (entry_at s q) then <[q := set_orphaned (entry_at s q)]>
        (foldr (orphan_leased s) (heap s) l) else foldr (orphan_leased s) (heap s) l) !! p =
        foldr (orphan_leased s) (heap s) l !! p)
      by (destruct (ce_leased (entry_at s q)); [by rewrite lookup_insert_ne|done]).
    rewrite Hrest, IH by done.
    destruct (decide (p ∈ l)) as [Hin|Hin]; [rewrite decide_True; [done|by apply elem_of_cons; right]|].
    rewrite decide_False; [done|]. by intros [?|?]%elem_of_cons.
Qed.

Lemma clear_inv s ls :
  Inv capacity s ls ->
  match clear (Some s) with Some s' => Inv capacity s' ls /\ lru s' = [] | None => False end.
Proof.
  intros HI. cbn [clear]. split; [|done]. pose proof HI as [].
  split; cbn [cap lru heap by_sql]; try done.
  - simpl. lia.
  - constructor.
  - intros sql p. rewrite lookup_empty. split; [done|]. by intros [?%not_elem_of_nil _].
  - by intros p ?%not_elem_of_nil.
  - intros p Hp. rewrite (orphan_leased_lookup s _ p iv_nodup0).
    destruct (iv_lease0 p Hp) as (e & He & Ho). rewrite (entry_at_eq _ _ _ He).
    destruct (decide (p ∈ lru s)) as [Hin|Hin].
    + destruct (iv_entry0 p Hin) as (e' & He' & _ & Hl). assert (e' = e) as -> by congruence.
      apply Hl in Hp as Hle. rewrite Hle. exists (set_orphaned e). split; [done|by right].
    + destruct Ho as [?|Ho]; [done|]. exists e. auto.
Qed.
End Preservation.

Lemma acquire_inv capacity db s ls sql r c' :
  0 < capacity -> Inv capacity s ls -> acquire db (Some s) sql = (r, c') ->
  exists s', c' = Some s' /\
  match r with
  | Ok q => q ∉ ls /\ Inv capacity s' ({[q]} ∪ ls) /\ (forall p, p ∈ lru s -> p ∈ ls -> p ∈ lru s')
  | Err _ => Inv capacity s' ls
  end.
Proof.
  intros Hpos HI. cbn [acquire]. case_bool_decide; [intros [= <- <-]; eauto|].
  destruct (by_sql s !! sql) as [p|] eqn:Es.
  - destruct (acquire_hit db s sql p) as [r0 s0] eqn:Eh. intros [= <- <-]. exists s0. split; [done|].
    pose proof (hit_inv capacity db s ls sql p r0 s0 HI Es Eh) as H1. destruct r0 as [q|]; [|done].
    destruct H1 as (-> & Hn & _ & HI'). split_and!; [done|done|].
    intros q Hq _. unfold acquire_hit in Eh.
    destruct (ce_leased _); [done|]. destruct (sq_reset db); [|done]. destruct (sq_clear db); [|done].
    injection Eh as <-. cbn. apply elem_of_cons. destruct (decide (q = p)) as [->|]; [by left|right].
    by apply elem_of_others.
  - destruct (acquire_miss db s sql) as [r0 s0] eqn:Em. intros [= <- <-]. exists s0. split; [done|].
    by apply (miss_inv capacity db s ls sql r0 s0 Hpos HI Es Em).
Qed.

Lemma cache_step_inv capacity s s' :
  0 < capacity -> (exists st, cache s = Some st /\ Inv capacity st (leases s)) -> step s s' ->
  exists st, cache s' = Some st /\ Inv capacity st (leases s').
Proof.
  intros Hpos (st & Hc & HI) Hs. destruct Hs as [db c c' ls sql p Ha|db c c' ls sql e Ha|db c ls p Hp|c ls];
    cbn [cache leases] in *; subst c.
  - apply (acquire_inv capacity _ _ ls) in Ha as (s' & -> & _ & HI' & _); [by exists s'|done|done].
  - apply (acquire_inv capacity _ _ ls) in Ha as (s' & -> & HI'); [by exists s'|done|done].
  - pose proof (release_inv capacity db st ls p HI Hp) as HI'.
    destruct (release db (Some st) p) as [s'|]; [by exists s'|done].
  - pose proof (clear_inv capacity st ls HI) as HI'. destruct (clear (Some st)) as [s'|]; [|done].
    exists s'. split; [done|apply HI'].
Qed.

Lemma cache_inv capacity s :
  reachable capacity s -> 0 < capacity /\ exists st, cache s = Some st /\ Inv capacity st (leases s).
Proof.
  induction 1 as [c Ho|s s' _ [Hpos IH] Hs]; [|split; [done|by eapply cache_step_inv]].
  unfold open in Ho. destruct (Nat.eqb_spec capacity 0); [done|]. injection Ho as <-.
  split; [lia|]. eexists. split; [done|]. split; cbn; try done.
  - lia.
  - constructor.
  - intros sql p. rewrite lookup_empty. split; [done|]. by intros [?%not_elem_of_nil _].
  - by intros p ?%not_elem_of_nil.
Qed.

(** ** The cache is an LRU cache *)
(** Every operation of SQLite succeeds. *)
Definition sound_db : Sqlite := mkSqlite (Ok tt) (Ok tt) (Ok tt).
(** Take a statement and give it back. *)
Definition use_once (c : StatementCache) (sql : string) : StatementCache :=
  match acquire sound_db c sql with
  | (Ok p, c) => release sound_db c p
  | (Err _, c) => c
  end.
Definition contents (s : State) : list string := map (fun p => ce_sql (entry_at s p)) (lru s).

(** The reference: the statements used, the most recent first, each once. *)
Definition without (sql : string) (l : list string) : list string :=
  List.filter (fun x => negb (bool_decide (x = sql))) l.
Definition recency (used : list string) : list string :=
  fold_left (fun d sql => sql :: without sql d) used [].

Lemma without_id sql l : sql ∉ l -> without sql l = l.
Proof.
  induction l as [|x l IH]; [done|]. intros [Hx Hl]%not_elem_of_cons. cbn.
  rewrite bool_decide_eq_false_2 by congruence. cbn. f_equal. by apply IH.
Qed.

Lemma without_nodup sql l : NoDup l -> NoDup (without sql l).
Proof. rewrite !NoDup_ListNoDup. apply List.NoDup_filter. Qed.

Lemma elem_of_without x sql l : x ∈ without sql l <-> x ∈ l /\ x <> sql.
Proof. unfold without. rewrite !list_elem_of_In, filter_In, negb_true_iff, bool_decide_eq_false. done. Qed.

(** Removing one element of a list shows at most one more of its tail. *)
Lemma take_without sql k : NoDup k -> forall m,
  take m (without sql k) = if decide (sql ∈ take (S m) k) then without sql (take (S m) k) else take m k.
Proof.
  induction 1 as [|x k Hx Hk IH]; intros m.
  { change (without sql []) with (@nil string). rewrite !take_nil. by case_decide. }
  unfold without. cbn [List.filter]. fold (without sql k). case_bool_decide as E.
  - subst x. cbn [negb]. rewrite without_id by done. rewrite decide_True by (cbn; by apply elem_of_cons; left).
    cbn [firstn List.filter]. rewrite bool_decide_eq_true_2 by done. cbn [negb].
    symmetry. apply without_id. intros Hin. apply elem_of_take in Hin as (i & Hi & _). apply Hx.
    by eapply list_elem_of_lookup_2.
  - cbn [negb]. destruct m as [|m].
    { cbn [firstn]. rewrite decide_False; [done|]. rewrite list_elem_of_singleton. congruence. }
    cbn [firstn]. rewrite IH. cbn [firstn]. destruct (decide (sql ∈ take (S m) k)) as [Hin|Hin].
    + rewrite decide_True by (by apply elem_of_cons; right). cbn [List.filter].
      by rewrite bool_decide_eq_false_2.
    + rewrite decide_False; [done|]. by intros [?|?]%elem_of_cons.
Qed.

Lemma take_without_take sql k m :
  NoDup k -> take m (without sql (take (S m) k)) = take m (without sql k).
Proof.
  intros Hk. assert (Hn : NoDup (take (S m) k)) by (rewrite <- (take_drop (S m) k) in Hk; by apply NoDup_app in Hk as [? _]).
  rewrite !take_without by done.
  rewrite take_take, Nat.min_id. case_decide; [done|]. rewrite take_take. f_equal. lia.
Qed.

Lemma recency_nodup used : NoDup (recency used).
Proof.
  unfold recency. induction used as [|sql l IH] using rev_ind; [constructor|]. rewrite fold_left_app. simpl.
  apply NoDup_cons. split; [|by apply without_nodup]. rewrite elem_of_without. tauto.
Qed.

Lemma without_map sql p (f : nat -> string) l :
  (forall q, q ∈ l -> f q = sql <-> q = p) -> without sql (map f l) = map f (others p l).
Proof.
  induction l as [|q l IH]; intros Hf; [done|]. unfold without. cbn [map List.filter]. fold (without sql (map f l)).
  rewrite IH by (intros r Hr; apply Hf; by apply elem_of_cons; right).
  pose proof (Hf q ltac:(by apply elem_of_cons; left)) as Hq.
  case_bool_decide as E; destruct (Nat.eqb_spec q p); cbn [negb map]; tauto || done.
Qed.

Lemma others_last p l : NoDup (l ++ [p]) -> others p (l ++ [p]) = l.
Proof.
  induction l as [|q l IH]; simpl.
  { intros _. by rewrite Nat.eqb_refl. }
  intros [Hq Hl]%NoDup_cons. rewrite IH by done.
  destruct (Nat.eqb_spec q p) as [->|]; [|done]. exfalso. apply Hq. apply elem_of_app. right.
  by apply list_elem_of_singleton.
Qed.

Lemma map_entries s s' l :
  (forall q, q ∈ l -> ce_sql (entry_at s' q) = ce_sql (entry_at s q)) ->
  map (fun q => ce_sql (entry_at s' q)) l = map (fun q => ce_sql (entry_at s q)) l.
Proof. intros H. apply map_ext_in. intros q Hq%list_elem_of_In. by apply H. Qed.

Section Use.
Context (capacity : nat) (s : State) (sql : string) (HI : Inv capacity s ∅).

Lemma idle_unleased p : p ∈ lru s -> ce_leased (entry_at s p) = false.
Proof.
  intros Hp. destruct (iv_entry _ _ _ HI p Hp) as (e & He & _ & Hl). rewrite (entry_at_eq _ _ _ He).
  destruct (ce_leased e); set_solver.
Qed.

Lemma idle_orphaned p : p ∈ lru s -> ce_orphaned (entry_at s p) = false.
Proof. intros Hp. destruct (iv_entry _ _ _ HI p Hp) as (e & He & Ho & _). by rewrite (entry_at_eq _ _ _ He). Qed.

Lemma entry_sql p q :
  by_sql s !! sql = Some p -> q ∈ lru s -> ce_sql (entry_at s q) = sql <-> q = p.
Proof.
  intros (Hp & e & He & <-)%(iv_index _ _ _ HI) Hq. destruct (iv_entry _ _ _ HI q Hq) as (e' & He' & _).
  rewrite (entry_at_eq _ _ _ He'). split; [intros Hs; by eapply same_sql|]. intros ->. congruence.
Qed.

Lemma miss_sql : by_sql s !! sql = None -> sql ∉ contents s.
Proof.
  unfold contents. intros Hs (p & -> & Hp)%list_elem_of_fmap.
  destruct (iv_entry _ _ _ HI p Hp) as (e & He & _). rewrite (entry_at_eq _ _ _ He) in Hs.
  assert (by_sql s !! ce_sql e = Some p) by (apply (iv_index _ _ _ HI); eauto). congruence.
Qed.

(** No entry is leased, so the victim is the oldest. *)
Lemma idle_victim : victim s = last (lru s).
Proof.
  unfold victim. f_equal. rewrite <- (filter_true (lru s)) at 2. apply filter_ext_in.
  intros q Hq%list_elem_of_In. by rewrite idle_unleased.
Qed.

Lemma release_sound s1 p :
  ce_orphaned (entry_at s1 p) = false ->
  release sound_db (Some s1) p = Some (put s1 p (set_leased (entry_at s1 p) false)).
Proof. unfold release. by intros ->. Qed.

Lemma put_contents s1 p b : contents (put s1 p (set_leased (entry_at s1 p) b)) = contents s1.
Proof.
  apply map_entries. intros q _. unfold entry_at. cbn [heap put].
  destruct (decide (p = q)) as [<-|Hne]; [by rewrite lookup_insert_eq|by rewrite lookup_insert_ne].
Qed.

Lemma hit_contents p r s1 :
  by_sql s !! sql = Some p -> acquire_hit sound_db s sql p = (r, s1) ->
  r = Ok p /\ ce_orphaned (entry_at s1 p) = false /\
  contents s1 = take capacity (sql :: without sql (contents s)).
Proof.
  intros Hs. pose proof (proj1 (iv_index _ _ _ HI sql p) Hs) as (Hp & _).
  unfold acquire_hit. rewrite idle_unleased by done. cbn. intros [= <- <-].
  split_and!; [done| |].
  { unfold entry_at at 1. cbn. rewrite lookup_insert_eq. cbn. by apply idle_orphaned. }
  change (contents (count ?x _ _ _)) with (contents x). rewrite (put_contents (to_front s p) p).
  unfold contents. rewrite (without_map sql p) by (intros q Hq; by apply entry_sql).
  rewrite take_ge.
  - cbn [to_front lru map]. change (entry_at (to_front s p)) with (entry_at s).
    f_equal. by apply (entry_sql p p).
  - cbn [length]. rewrite length_map.
    pose proof (Permutation_length (others_perm p _ (iv_nodup _ _ _ HI) Hp)) as Hlen. cbn [length] in Hlen.
    pose proof (iv_len _ _ _ HI). lia.
Qed.

Lemma miss_contents r s1 :
  0 < capacity -> by_sql s !! sql = None -> acquire_miss sound_db s sql = (r, s1) ->
  exists p, r = Ok p /\ ce_orphaned (entry_at s1 p) = false /\
  contents s1 = take capacity (sql :: without sql (contents s)).
Proof.
  intros Hpos Hs. pose proof (miss_sql Hs) as Hn. rewrite without_id by done.
  unfold acquire_miss. cbn [sound_db sq_prepare]. change (fresh (dom (heap (count s 0 1 0)))) with (fresh_pointer s).
  pose proof (fresh_pointer_spec s) as Hp. set (p := fresh_pointer s) in *.
  destruct (fresh_entry capacity _ _ _ HI Hp) as [Hl _]. cbn [count lru cap]. rewrite (iv_cap _ _ _ HI).
  assert (Hnew : forall x l, lru x = p :: l -> heap x = <[p := mkEntry sql true false]> (heap s) ->
    p ∉ l -> ce_orphaned (entry_at x p) = false /\ contents x = sql :: map (fun q => ce_sql (entry_at s q)) l).
  { intros x l Hx Hh Hpl. unfold contents, entry_at. rewrite Hx, Hh. cbn [map]. rewrite lookup_insert_eq.
    split; [done|]. cbn. f_equal. apply map_ext_in. intros q Hq%list_elem_of_In.
    rewrite lookup_insert_ne; [done|]. congruence. }
  pose proof (iv_len _ _ _ HI) as Hlen.
  destruct (Nat.ltb_spec (length (lru s)) capacity).
  { intros [= <- <-]. exists p. split; [done|]. rewrite take_ge by (cbn; unfold contents; rewrite length_map; lia).
    by apply Hnew. }
  change (victim (count s 0 1 0)) with (victim s). rewrite idle_victim.
  destruct (lru s) as [|v l _] eqn:El using rev_ind; [simpl in *; lia|].
  rewrite last_snoc. intros [= <- <-]. exists p. split; [done|].
  pose proof (iv_nodup _ _ _ HI) as Hnd. rewrite El in Hnd.
  destruct (Hnew (insert_front (put (count (forget (count s 0 1 0) v (ce_sql (entry_at s v))) 0 0 1) p
    (mkEntry sql true false)) p sql) l) as [Ho Hc]; cbn.
  - by rewrite El, others_last.
  - done.
  - intros Hpl. apply Hl. apply elem_of_app. by left.
  - split; [exact Ho|]. etransitivity; [exact Hc|]. unfold contents. rewrite El, map_app.
    rewrite length_app in *. cbn [length] in *. destruct capacity as [|m]; [lia|]. cbn [firstn]. f_equal.
    symmetry. apply take_app_length'. rewrite length_map. lia.
Qed.

(** One use moves the statement to the front and drops the oldest beyond the capacity. *)
Lemma use_once_spec :
  0 < capacity -> sql <> ""%string ->
  exists s', use_once (Some s) sql = Some s' /\ Inv capacity s' ∅ /\
    contents s' = take capacity (sql :: without sql (contents s)).
Proof.
  intros Hpos Hsql. unfold use_once. destruct (acquire sound_db (Some s) sql) as [r c'] eqn:Ha.
  pose proof Ha as Hinv. apply (acquire_inv capacity _ _ ∅ _ _ _ Hpos HI) in Hinv as (s1 & -> & Hr).
  cbn [acquire] in Ha. rewrite bool_decide_eq_false_2 in Ha by done.
  assert (Hc : exists p, r = Ok p /\ ce_orphaned (entry_at s1 p) = false /\
    contents s1 = take capacity (sql :: without sql (contents s))).
  { destruct (by_sql s !! sql) as [p|] eqn:Es.
    - destruct (acquire_hit sound_db s sql p) as [r0 s0] eqn:Eh. injection Ha as <- <-.
      exists p. by apply hit_contents.
    - destruct (acquire_miss sound_db s sql) as [r0 s0] eqn:Em. injection Ha as <- <-. by apply miss_contents. }
  destruct Hc as (p & -> & Ho & Hc). destruct Hr as (_ & HI1 & _).
  pose proof (release_inv capacity sound_db _ _ p HI1 ltac:(set_solver)) as HI2.
  rewrite release_sound in * by done. eexists. split; [done|].
  replace (({[p]} ∪ ∅) ∖ {[p]} : gset nat) with (∅ : gset nat) in HI2 by set_solver.
  split; [exact HI2|]. by rewrite put_contents.
Qed.
End Use.

(** ** The theorems *)
Definition use_all (c : StatementCache) (used : list string) : StatementCache := fold_left use_once used c.

(** however statements are acquired, refused, released and the cache cleared, [acquire] never hands out
    an entry that a live lease still holds, never evicts a leased entry, and keeps no more than [capacity]
    entries. *)
Theorem statement_lease_exclusive (capacity : nat) (c : StatementCache) (ls : gset nat) (db : Sqlite)
    (sql : string) (p : nat) (c' : StatementCache) :
  reachable capacity (mkSystem c ls) -> acquire db c sql = (Ok p, c') ->
  p ∉ ls /\ exists s s', c = Some s /\ c' = Some s' /\ length (lru s') <= capacity /\
    forall q, q ∈ ls -> q ∈ lru s -> q ∈ lru s'.
Proof.
  intros [Hpos (s & Hc & HI)]%cache_inv Ha. cbn [cache leases] in *. subst c.
  apply (acquire_inv capacity _ _ ls _ _ _ Hpos HI) in Ha as (s' & -> & Hp & HI' & Hk).
  split; [done|]. exists s, s'. split_and!; [done|done|apply (iv_len _ _ _ HI')|auto].
Qed.

(** a cache of [capacity] statements whose users take one statement at a time holds the [capacity]
    statements used last, the most recent first. *)
Theorem cache_is_lru (capacity : nat) (c : StatementCache) (used : list string) :
  open capacity = Ok c -> ""%string ∉ used ->
  exists s, use_all c used = Some s /\ contents s = take capacity (recency used).
Proof.
  intros Ho Hne. pose proof (cache_inv capacity _ (reach_open _ _ Ho)) as [Hpos (s0 & Hc & HI0)].
  cbn [cache leases] in *. subst c.
  assert (H0 : contents s0 = []).
  { unfold open in Ho. destruct (Nat.eqb_spec capacity 0); [done|]. by injection Ho as <-. }
  enough (exists s, use_all (Some s0) used = Some s /\ Inv capacity s ∅ /\
    contents s = take capacity (recency used)) as (s & ? & _ & ?) by eauto.
  induction used as [|sql used IH] using rev_ind.
  { exists s0. split_and!; [done|done|]. rewrite H0. symmetry. apply take_nil. }
  apply not_elem_of_app in Hne as [Hne Hs]. rewrite not_elem_of_cons in Hs. destruct Hs as [Hs _].
  destruct (IH Hne) as (s & Hu & HI & Hc). unfold use_all, recency in *. rewrite !fold_left_app. cbn [fold_left].
  rewrite Hu. destruct (use_once_spec capacity s sql HI Hpos (not_eq_sym Hs)) as (s' & -> & HI' & Hc').
  exists s'. split_and!; [done|done|]. fold (recency used) in *. rewrite Hc', Hc.
  destruct capacity as [|m]; [lia|]. cbn [firstn]. f_equal. apply take_without_take, recency_nodup.
Qed.

Module Demo.
Definition cache2 : StatementCache := Some (mkState 2 ∅ [] ∅ 0 0 0).
Definition first_entry : nat := fresh (∅ : gset nat).
Definition one_leased : StatementCache := snd (acquire sound_db cache2 "a").

Lemma statement_lease_exclusive_witness :
  exists p c', acquire sound_db one_leased "b" = (Ok p, c') /\ p ∉ ({[first_entry]} ∪ ∅ : gset nat).
Proof.
  assert (Hr : reachable 2 (mkSystem one_leased ({[first_entry]} ∪ ∅))).
  { eapply reach_step; [apply (reach_open 2 cache2); reflexivity|].
    apply (step_acquire sound_db _ _ _ "a"). reflexivity. }
  destruct (acquire sound_db one_leased "b") as [[p|e] c'] eqn:Ha; [|vm_compute in Ha; discriminate].
  exists p, c'. split; [reflexivity|].
  exact (proj1 (statement_lease_exclusive 2 one_leased _ sound_db "b" p c' Hr Ha)).
Defined.

Lemma cache_is_lru_witness :
  exists s, use_all cache2 ["a"; "b"; "a"; "c"] = Some s /\ contents s = ["c"; "a"].
Proof.
  destruct (cache_is_lru 2 cache2 ["a"; "b"; "a"; "c"]) as (s & Hu & Hc); [reflexivity| |].
  - rewrite !not_elem_of_cons. split_and!; [discriminate..|apply not_elem_of_nil].
  - exists s. split; [exact Hu|]. rewrite Hc. vm_compute. reflexivity.
Defined.
End Demo.
