(* ===== verification/Pool.v ===== *)
(** * oran-storage: the connection pool

    Models [include/oran/storage/pool.hpp] and [src/oran-storage/pool.cpp].  The code
    keeps two copies of one lease protocol, one for the writer (a flag) and one for the
    readers (a queue of free slots); [LeaseOps] is their common interface, [WriterSide]
    and [ReaderSide] implement it.  A request is named by a number, which also names
    its waiter.  [posted] holds the actions posted to the executor, which may run them
    in any order; between two mutex sections everything else may happen.  SQLite is not
    modelled: [connect] says what opening a connection answers. *)
From S2P Require Import Prelude Core StatementCache.

(** ** Data *)
Inductive WaiterStatus := pending | cancelled | granted.
#[global] Instance waiter_status_eq_dec : EqDecision WaiterStatus. Proof. solve_decision. Defined.

(** What an acquisition completes with: a lease of a slot, or [Error::cancelled]. *)
Inductive Outcome := leased (slot : nat) | refused.

(** Posted to the executor: a completion, or a hand-over of a reserved slot. *)
Inductive Action := answer (request : nat) (o : Outcome) | grant (request : nat) (slot : nat).

Definition pool_closed_error : Error := Errors.mk ek_conflict "pool is not open".

(** One lease protocol: the state's operations, each with the actions it posts. *)
Class LeaseOps (A : Type) := {
  op_acquire : nat -> bool -> A -> A * list Action;
  op_release : nat -> A -> A * list Action;
  (** [true]: the waiter's completion was called with the lease *)
  op_grant : nat -> nat -> A -> A * list Action * bool;
  op_cancel : nat -> A -> A * list Action }.

(** ** Readers *)
Record ReaderSide := mkReaders {
  free_readers : list nat; reader_waiters : list nat; reader_status : gmap nat WaiterStatus }.

Definition release_reader (slot : nat) (s : ReaderSide) : ReaderSide * list Action :=
  match reader_waiters s with
  | r :: rest => (mkReaders (free_readers s) rest (reader_status s), [grant r slot])
  | [] => (mkReaders (free_readers s ++ [slot]) [] (reader_status s), [])
  end.

Definition grant_reader_waiter (r slot : nat) (s : ReaderSide) : ReaderSide * list Action * bool :=
  if decide (reader_status s !! r = Some pending) then
    (mkReaders (free_readers s) (reader_waiters s) (<[r := granted]> (reader_status s)), [], true)
  else (release_reader slot s, false).

Definition cancel_reader_waiter (r : nat) (s : ReaderSide) : ReaderSide * list Action :=
  if decide (reader_status s !! r = Some pending) then
    (mkReaders (free_readers s) (List.filter (fun q => negb (q =? r)) (reader_waiters s))
       (<[r := cancelled]> (reader_status s)), [answer r refused])
  else (s, []).

(** [is_cancelled]: [cancellation.cancelled() != none] once the waiter is queued. *)
Definition async_acquire_reader (r : nat) (is_cancelled : bool) (s : ReaderSide) : ReaderSide * list Action :=
  match free_readers s with
  | slot :: rest => (mkReaders rest (reader_waiters s) (reader_status s), [answer r (leased slot)])
  | [] =>
      if is_cancelled then
        (mkReaders [] (reader_waiters s) (<[r := cancelled]> (reader_status s)), [answer r refused])
      else (mkReaders [] (reader_waiters s ++ [r]) (<[r := pending]> (reader_status s)), [])
  end.

#[global] Instance reader_ops : LeaseOps ReaderSide := {|
  op_acquire := async_acquire_reader; op_release := release_reader;
  op_grant := grant_reader_waiter; op_cancel := cancel_reader_waiter |}.

(** ** The writer *)
Record WriterSide := mkWriter {
  writer_busy : bool; writer_waiters : list nat; writer_status : gmap nat WaiterStatus }.

Definition release_writer (s : WriterSide) : WriterSide * list Action :=
  match writer_waiters s with
  | r :: rest => (mkWriter (writer_busy s) rest (writer_status s), [grant r 0])
  | [] => (mkWriter false [] (writer_status s), [])
  end.

Definition grant_writer_waiter (r : nat) (s : WriterSide) : WriterSide * list Action * bool :=
  if decide (writer_status s !! r = Some pending) then
    (mkWriter (writer_busy s) (writer_waiters s) (<[r := granted]> (writer_status s)), [], true)
  else (release_writer s, false).

Definition cancel_writer_waiter (r : nat) (s : WriterSide) : WriterSide * list Action :=
  if decide (writer_status s !! r = Some pending) then
    (mkWriter (writer_busy s) (List.filter (fun q => negb (q =? r)) (writer_waiters s))
       (<[r := cancelled]> (writer_status s)), [answer r refused])
  else (s, []).

Definition async_acquire_writer (r : nat) (is_cancelled : bool) (s : WriterSide) : WriterSide * list Action :=
  if negb (writer_busy s) then
    (mkWriter true (writer_waiters s) (writer_status s), [answer r (leased 0)])
  else if is_cancelled then
    (mkWriter true (writer_waiters s) (<[r := cancelled]> (writer_status s)), [answer r refused])
  else (mkWriter true (writer_waiters s ++ [r]) (<[r := pending]> (writer_status s)), []).

#[global] Instance writer_ops : LeaseOps WriterSide := {|
  op_acquire := async_acquire_writer; op_release _ := release_writer;
  op_grant r _ := grant_writer_waiter r; op_cancel := cancel_writer_waiter |}.

(** ** Opening a pool *)
Record PoolOptions := mkPoolOptions {
  po_path : string; po_reader_count : nat; po_statement_cache_capacity : nat;
  po_busy_timeout_ms : Z; po_enable_wal : bool; po_enforce_foreign_keys : bool }.
Inductive OpenMode := read_write_create | read_only.
Record ConnectionOptions := mkConnection {
  co_path : string; co_mode : OpenMode; co_busy_timeout_ms : Z; co_enable_wal : bool;
  co_enforce_foreign_keys : bool }.

(** [Pool::State]: the caches of the connections, and the two sides. *)
Record PoolState := mkPool {
  writer_cache : StatementCache; reader_caches : list StatementCache;
  writers : WriterSide; readers : ReaderSide }.

Definition writer_options (o : PoolOptions) : ConnectionOptions :=
  mkConnection (po_path o) read_write_create (po_busy_timeout_ms o) (po_enable_wal o) (po_enforce_foreign_keys o).
Definition reader_options (o : PoolOptions) : ConnectionOptions :=
  mkConnection (po_path o) read_only (po_busy_timeout_ms o) false (po_enforce_foreign_keys o).

Section Open.
(** [Connection::open] of the connection of a role: [None] is the writer, [Some i] reader [i]. *)
Context (connect : option nat -> ConnectionOptions -> Result unit).

Definition in_role (role : string) (i : nat) (e : Error) : Error :=
  Errors.with_ctx (Errors.with_ctx e "pool_role" role) "pool_slot" (pretty i).

(** Turn [i] of the reader loop, and the turns after it. *)
Fixpoint open_readers (o : PoolOptions) (i turns : nat) : Result (list StatementCache) :=
  match turns with
  | 0 => Ok []
  | S turns =>
      match connect (Some i) (reader_options o) with
      | Err e => Err (in_role "reader" i e)
      | Ok _ =>
          match StatementCache.open (po_statement_cache_capacity o) with
          | Err e => Err (in_role "reader_cache" i e)
          | Ok c => match open_readers o (S i) turns with Ok l => Ok (c :: l) | Err e => Err e end
          end
      end
  end.

(** [Pool::open]. *)
Definition open_pool (o : PoolOptions) : Result PoolState :=
  if bool_decide (po_path o = "")%string then Err (Errors.invalid_argument "pool path must not be empty")
  else if po_reader_count o =? 0 then
    Err (Errors.invalid_argument "pool reader_count must be greater than zero")
  else if po_statement_cache_capacity o =? 0 then
    Err (Errors.invalid_argument "pool statement_cache_capacity must be greater than zero")
  else
    match connect None (writer_options o) with
    | Err e => Err (Errors.with_ctx e "pool_role" "writer")
    | Ok _ =>
        match StatementCache.open (po_statement_cache_capacity o) with
        | Err e => Err (Errors.with_ctx e "pool_role" "writer_cache")
        | Ok wc =>
            match open_readers o 0 (po_reader_count o) with
            | Err e => Err e
            | Ok rcs =>
                Ok (mkPool wc rcs (mkWriter false [] ∅) (mkReaders (seq 0 (po_reader_count o)) [] ∅))
            end
        end
    end.
End Open.

(** [acquire_writer] and [acquire_reader] before the initiation: [Some] ends them. *)
Definition acquire_refused (valid is_cancelled : bool) : option Error :=
  if negb valid then Some pool_closed_error
  else if is_cancelled then Some Errors.cancelled
  else None.

(** ** A pool and its clients *)
Record System (A : Type) := mkSystem {
  side : A; posted : list Action; held : list nat; answers : list (nat * Outcome); asked : list nat }.
Arguments mkSystem {A}. Arguments side {A}. Arguments posted {A}. Arguments held {A}.
Arguments answers {A}. Arguments asked {A}.

Definition lease_of (o : Outcome) : list nat := match o with leased slot => [slot] | refused => [] end.

Inductive step {A} `{LeaseOps A} : System A -> System A -> Prop :=
  | step_acquire r b s s' acts post h ans ask :
      r ∉ ask -> op_acquire r b s = (s', acts) ->
      step (mkSystem s post h ans ask) (mkSystem s' (post ++ acts) h ans (ask ++ [r]))
  | step_answer r o s post rest h ans ask :
      post ≡ₚ answer r o :: rest ->
      step (mkSystem s post h ans ask) (mkSystem s rest (lease_of o ++ h) ((r, o) :: ans) ask)
  | step_grant r slot s s' acts post rest h ans ask :
      post ≡ₚ grant r slot :: rest -> op_grant r slot s = (s', acts, true) ->
      step (mkSystem s post h ans ask) (mkSystem s' (rest ++ acts) (slot :: h) ((r, leased slot) :: ans) ask)
  | step_return r slot s s' acts post rest h ans ask :
      post ≡ₚ grant r slot :: rest -> op_grant r slot s = (s', acts, false) ->
      step (mkSystem s post h ans ask) (mkSystem s' (rest ++ acts) h ans ask)
  | step_cancel r s s' acts post h ans ask :
      op_cancel r s = (s', acts) ->
      step (mkSystem s post h ans ask) (mkSystem s' (post ++ acts) h ans ask)
  | step_release slot s s' acts post h rest ans ask :
      h ≡ₚ slot :: rest -> op_release slot s = (s', acts) ->
      step (mkSystem s post h ans ask) (mkSystem s' (post ++ acts) rest ans ask).

(** The systems reached from a fresh side. *)
Inductive reachable {A} `{LeaseOps A} (s0 : A) : System A -> Prop :=
  | reach_open : reachable s0 (mkSystem s0 [] [] [] [])
  | reach_step x y : reachable s0 x -> step x y -> reachable s0 y.

(** ** The invariant of the reader side *)
Definition slots_of (a : Action) : list nat :=
  match a with answer _ o => lease_of o | grant _ slot => [slot] end.
Definition granted_of (a : Action) : list nat := match a with grant r _ => [r] | answer _ _ => [] end.
Definition answered_of (a : Action) : list nat := match a with answer r _ => [r] | grant _ _ => [] end.

(** [extra] are the slots in the hands of the operation that runs. *)
Record Inv (n : nat) (extra : list nat) (x : System ReaderSide) : Prop := {
  iv_slots : free_readers (side x) ++ (posted x ≫= slots_of) ++ held x ++ extra ≡ₚ seq 0 n;
  iv_queue : forall r, r ∈ reader_waiters (side x) -> reader_status (side x) !! r = Some pending;
  iv_nodup : NoDup (reader_waiters (side x) ++ (posted x ≫= granted_of));
  iv_pending : forall r, reader_status (side x) !! r = Some pending ->
    r ∈ reader_waiters (side x) ++ (posted x ≫= granted_of);
  iv_known : forall r, r ∈ posted x ≫= granted_of -> is_Some (reader_status (side x) !! r);
  iv_full : reader_waiters (side x) <> [] -> free_readers (side x) = [];
  iv_once : NoDup (map fst (answers x) ++ (posted x ≫= answered_of));
  iv_answered : forall r, r ∈ map fst (answers x) ++ (posted x ≫= answered_of) <->
    r ∈ asked x /\ reader_status (side x) !! r <> Some pending;
  iv_asked : forall r, is_Some (reader_status (side x) !! r) -> r ∈ asked x;
  iv_order : sublist (reader_waiters (side x)) (asked x);
  iv_fresh : NoDup (asked x) }.

Lemma others_sublist r (l : list nat) : sublist (List.filter (fun q => negb (q =? r)) l) l.
Proof. induction l as [|q l IH]; cbn; [constructor|]. destruct (negb _); by constructor. Qed.

Lemma others_id r (l : list nat) : r ∉ l -> List.filter (fun q => negb (q =? r)) l = l.
Proof.
  induction l as [|q l IH]; cbn; [done|]. intros [Hne Hl]%not_elem_of_cons.
  destruct (Nat.eqb_spec q r); [congruence|]. cbn. by rewrite IH.
Qed.

(** The order of the posted actions and of the leases does not matter. *)
Lemma inv_perm n ex s post post' h h' ans ask :
  post ≡ₚ post' -> h ≡ₚ h' -> Inv n ex (mkSystem s post h ans ask) -> Inv n ex (mkSystem s post' h' ans ask).
Proof.
  intros Hp Hh []. cbn in *.
  split; cbn; try done.
  - by rewrite <- Hp, <- Hh.
  - by rewrite <- Hp.
  - intros r. rewrite <- Hp. apply iv_pending0.
  - intros r. rewrite <- Hp. apply iv_known0.
  - by rewrite <- Hp.
  - intros r. rewrite <- Hp. apply iv_answered0.
Qed.

Section Preservation.
Context (n : nat).
Implicit Types (s : ReaderSide) (post : list Action).

Ltac side_split := split; cbn [side posted held answers asked free_readers reader_waiters reader_status] in *; try done.

Lemma pool_release_inv ex slot s s' acts post h ans ask :
  Inv n (slot :: ex) (mkSystem s post h ans ask) -> release_reader slot s = (s', acts) ->
  Inv n ex (mkSystem s' (post ++ acts) h ans ask).
Proof.
  intros [] Hr. cbn in *. unfold release_reader in Hr. destruct (reader_waiters s) as [|r rest] eqn:Ew.
  - injection Hr as <- <-. rewrite app_nil_r. side_split. rewrite <- iv_slots0. solve_Permutation.
  - injection Hr as <- <-. assert (Hq : reader_status s !! r = Some pending) by (apply iv_queue0; left).
    assert (Hperm : rest ++ ((post ++ [grant r slot]) ≫= granted_of) ≡ₚ (r :: rest) ++ (post ≫= granted_of))
      by (rewrite bind_app; cbn; solve_Permutation).
    side_split.
    + rewrite <- iv_slots0, bind_app. cbn. solve_Permutation.
    + intros q Hin. apply iv_queue0. by right.
    + by rewrite Hperm.
    + intros q Hin. rewrite Hperm. by apply iv_pending0.
    + intros q. rewrite bind_app. cbn. rewrite elem_of_app, list_elem_of_singleton. intros [?| ->]; eauto.
    + intros _. by apply iv_full0.
    + rewrite bind_app. cbn. by rewrite app_nil_r.
    + intros q. rewrite bind_app. cbn. rewrite app_nil_r. apply iv_answered0.
    + etransitivity; [|exact iv_order0]. by apply sublist_cons.
Qed.

Lemma grant_inv ex r slot s post h ans ask :
  Inv n ex (mkSystem s (grant r slot :: post) h ans ask) -> reader_status s !! r = Some pending ->
  Inv n ex (mkSystem (mkReaders (free_readers s) (reader_waiters s) (<[r := granted]> (reader_status s)))
    post (slot :: h) ((r, leased slot) :: ans) ask).
Proof.
  intros [] Hr. cbn in *. assert (Hnd : NoDup (r :: reader_waiters s ++ (post ≫= granted_of)))
    by (eapply NoDup_Permutation_proper; [|exact iv_nodup0]; solve_Permutation).
  apply NoDup_cons in Hnd as [Hn Hnd]. rewrite not_elem_of_app in Hn. destruct Hn as [Hn Hn'].
  assert (Hna : r ∉ map fst ans ++ (post ≫= answered_of)) by (intros [_ []]%iv_answered0; done).
  side_split.
  - rewrite <- iv_slots0. solve_Permutation.
  - intros q Hq. rewrite lookup_insert_ne; [by apply iv_queue0|]. by intros ->.
  - intros q [[_ ?]|[Hne Hq]]%lookup_insert_Some; [done|]. apply iv_pending0 in Hq.
    rewrite elem_of_app, elem_of_cons in Hq. rewrite elem_of_app. naive_solver.
  - intros q Hq. destruct (decide (r = q)) as [->|Hne]; [by rewrite lookup_insert_eq|].
    rewrite lookup_insert_ne by done. apply iv_known0. by right.
  - by apply NoDup_cons.
  - intros q. cbn [map fst app]. rewrite elem_of_cons, iv_answered0. destruct (decide (q = r)) as [->|Hne].
    + rewrite lookup_insert_eq. split; [intros _|by left]. split; [|done]. by apply iv_asked0.
    + rewrite lookup_insert_ne by done. naive_solver.
  - intros q Hq. apply iv_asked0. destruct (decide (r = q)) as [->|Hne]; [done|].
    by rewrite lookup_insert_ne in Hq.
Qed.

Lemma pool_return_inv ex r slot s post h ans ask :
  Inv n ex (mkSystem s (grant r slot :: post) h ans ask) -> reader_status s !! r <> Some pending ->
  Inv n (slot :: ex) (mkSystem s post h ans ask).
Proof.
  intros [] Hr. cbn in *.
  assert (Hnd : NoDup (r :: reader_waiters s ++ (post ≫= granted_of)))
    by (eapply NoDup_Permutation_proper; [|exact iv_nodup0]; solve_Permutation).
  apply NoDup_cons in Hnd as [Hn Hnd].
  side_split.
  - rewrite <- iv_slots0. solve_Permutation.
  - intros q Hq. pose proof (iv_pending0 q Hq) as Hin. rewrite elem_of_app, elem_of_cons in Hin.
    rewrite elem_of_app. destruct Hin as [?|[->|?]]; [by left|done|by right].
  - intros q Hq. apply iv_known0. by right.
Qed.

Lemma answer_inv ex r o s post h ans ask :
  Inv n ex (mkSystem s (answer r o :: post) h ans ask) ->
  Inv n ex (mkSystem s post (lease_of o ++ h) ((r, o) :: ans) ask).
Proof.
  intros []. cbn in *.
  assert (Hperm : map fst ans ++ r :: (post ≫= answered_of) ≡ₚ r :: map fst ans ++ (post ≫= answered_of))
    by solve_Permutation.
  side_split.
  - rewrite <- iv_slots0. solve_Permutation.
  - by rewrite <- Hperm.
  - intros q. rewrite <- Hperm. apply iv_answered0.
Qed.

Lemma cancel_inv ex r s s' acts post h ans ask :
  Inv n ex (mkSystem s post h ans ask) -> cancel_reader_waiter r s = (s', acts) ->
  Inv n ex (mkSystem s' (post ++ acts) h ans ask).
Proof.
  intros HI Hc. unfold cancel_reader_waiter in Hc. case_decide as Hr; injection Hc as <- <-; [|by rewrite app_nil_r].
  destruct HI. cbn in *.
  assert (Hg : (post ++ [answer r refused]) ≫= granted_of = post ≫= granted_of) by (rewrite bind_app; cbn; by rewrite app_nil_r).
  assert (Ha : (post ++ [answer r refused]) ≫= answered_of = (post ≫= answered_of) ++ [r]) by by rewrite bind_app.
  assert (Hna : r ∉ map fst ans ++ (post ≫= answered_of)) by (intros [_ []]%iv_answered0; done).
  side_split; rewrite ?Hg, ?Ha, ?app_assoc in *.
  - rewrite bind_app. cbn. by rewrite app_nil_r.
  - intros q [Hq Hne]%elem_of_others. rewrite lookup_insert_ne by done. by apply iv_queue0.
  - apply NoDup_app in iv_nodup0 as (Hn1 & Hn2 & Hn3). apply NoDup_app. split_and!; [by apply others_nodup| |done].
    intros q [Hq _]%elem_of_others. by apply Hn2.
  - intros q [[_ ?]|[Hne Hq]]%lookup_insert_Some; [done|]. apply iv_pending0 in Hq.
    rewrite elem_of_app in *. rewrite elem_of_others. naive_solver.
  - intros q Hq. destruct (decide (r = q)) as [->|Hne]; [by rewrite lookup_insert_eq|].
    rewrite lookup_insert_ne by done. by apply iv_known0.
  - intros Hne. apply iv_full0. intros Hnil. apply Hne. by rewrite Hnil.
  - apply NoDup_app. split_and!; [done| |apply NoDup_singleton]. intros q Hq ->%list_elem_of_singleton. done.
  - intros q. rewrite elem_of_app, list_elem_of_singleton, iv_answered0. destruct (decide (q = r)) as [->|Hne].
    + rewrite lookup_insert_eq. split; [intros _|by right]. split; [|done]. by apply iv_asked0.
    + rewrite lookup_insert_ne by done. naive_solver.
  - intros q Hq. apply iv_asked0. destruct (decide (r = q)) as [->|Hne]; [done|].
    by rewrite lookup_insert_ne in Hq.
  - etransitivity; [|exact iv_order0]. apply others_sublist.
Qed.

Lemma fresh_request ex r s post h ans ask :
  Inv n ex (mkSystem s post h ans ask) -> r ∉ ask ->
  reader_status s !! r = None /\ r ∉ map fst ans ++ (post ≫= answered_of) /\
  r ∉ reader_waiters s ++ (post ≫= granted_of) /\ NoDup (ask ++ [r]).
Proof.
  intros [] Hr. cbn in *.
  assert (Hst : reader_status s !! r = None).
  { destruct (reader_status s !! r) eqn:E; [|done]. destruct Hr. apply iv_asked0. eauto. }
  split_and!; [done|by intros [? _]%iv_answered0| |].
  - rewrite elem_of_app. intros [?%iv_queue0|[? ?]%iv_known0]; congruence.
  - apply NoDup_app. split_and!; [done| |apply NoDup_singleton]. by intros q Hq ->%list_elem_of_singleton.
Qed.

(** A free slot is leased. *)
Lemma lease_inv ex r slot rest s post h ans ask :
  Inv n ex (mkSystem s post h ans ask) -> r ∉ ask -> free_readers s = slot :: rest ->
  Inv n ex (mkSystem (mkReaders rest (reader_waiters s) (reader_status s)) (post ++ [answer r (leased slot)])
    h ans (ask ++ [r])).
Proof.
  intros HI Hr Hf. destruct (fresh_request _ _ _ _ _ _ _ HI Hr) as (Hst & Hna & Hng & Hfresh).
  destruct HI. cbn in *.
  assert (Hgr : (post ++ [answer r (leased slot)]) ≫= granted_of = post ≫= granted_of)
    by (rewrite bind_app; cbn; by rewrite app_nil_r).
  side_split; rewrite ?Hgr; try done.
  - rewrite <- iv_slots0, Hf, bind_app. cbn. solve_Permutation.
  - intros Hne%iv_full0. congruence.
  - rewrite bind_app. cbn. rewrite app_assoc. apply NoDup_app.
    split_and!; [done| |apply NoDup_singleton]. by intros q Hq ->%list_elem_of_singleton.
  - intros q. rewrite bind_app. cbn. rewrite app_assoc, !(elem_of_app _ [r]), list_elem_of_singleton, iv_answered0.
    split; [intros [[? ?]| ->]; (split; [auto|congruence])|]. naive_solver.
  - intros q Hq. apply elem_of_app. left. by apply iv_asked0.
  - by apply sublist_inserts_r.
Qed.

(** No slot is free: the request waits. *)
Lemma wait_inv ex r s post h ans ask :
  Inv n ex (mkSystem s post h ans ask) -> r ∉ ask -> free_readers s = [] ->
  Inv n ex (mkSystem (mkReaders [] (reader_waiters s ++ [r]) (<[r := pending]> (reader_status s))) post
    h ans (ask ++ [r])).
Proof.
  intros HI Hr Hf. destruct (fresh_request _ _ _ _ _ _ _ HI Hr) as (Hst & Hna & Hng & Hfresh).
  destruct HI. cbn in *.
  assert (Hperm : (reader_waiters s ++ [r]) ++ (post ≫= granted_of) ≡ₚ r :: reader_waiters s ++ (post ≫= granted_of))
    by solve_Permutation.
  side_split.
  - by rewrite <- iv_slots0, Hf.
  - intros q. rewrite elem_of_app, list_elem_of_singleton. intros [Hq| ->]; [|apply lookup_insert_eq].
    rewrite lookup_insert_ne; [by apply iv_queue0|]. intros ->. apply Hng, elem_of_app. by left.
  - rewrite Hperm. by apply NoDup_cons.
  - intros q Hq. rewrite Hperm, elem_of_cons. apply lookup_insert_Some in Hq as [[<- _]|[_ Hq]]; auto.
  - intros q Hq. rewrite lookup_insert_ne; [by apply iv_known0|]. intros ->. apply Hng, elem_of_app. by right.
  - intros q. rewrite iv_answered0, elem_of_app, list_elem_of_singleton. destruct (decide (q = r)) as [->|Hne].
    + rewrite lookup_insert_eq. naive_solver.
    + rewrite lookup_insert_ne by done. naive_solver.
  - intros q. rewrite elem_of_app, list_elem_of_singleton. destruct (decide (q = r)) as [->|Hne]; [by right|].
    rewrite lookup_insert_ne by done. left. by apply iv_asked0.
  - by apply sublist_app.
Qed.

(** A request cancelled as it waits is taken out of the queue again. *)
Lemma pool_acquire_inv ex r b s s' acts post h ans ask :
  Inv n ex (mkSystem s post h ans ask) -> r ∉ ask -> async_acquire_reader r b s = (s', acts) ->
  Inv n ex (mkSystem s' (post ++ acts) h ans (ask ++ [r])).
Proof.
  intros HI Hr Ha. unfold async_acquire_reader in Ha.
  destruct (free_readers s) as [|slot rest] eqn:Ef; [|injection Ha as <- <-; by apply (lease_inv _ _ _ _ _ _ _ _ _ HI)].
  pose proof (wait_inv _ _ _ _ _ _ _ HI Hr Ef) as Hw.
  destruct b; injection Ha as <- <-; [|by rewrite app_nil_r].
  apply (cancel_inv _ r _ _ _ _ _ _ _ Hw). unfold cancel_reader_waiter. cbn.
  rewrite lookup_insert_eq, decide_True, insert_insert_eq by done. do 2 f_equal.
  destruct (fresh_request _ _ _ _ _ _ _ HI Hr) as (_ & _ & [Hn _]%not_elem_of_app & _).
  rewrite List.filter_app. cbn. rewrite Nat.eqb_refl. cbn. rewrite app_nil_r. by apply others_id.
Qed.

Lemma pool_step_inv x y : Inv n [] x -> step x y -> Inv n [] y.
Proof.
  intros HI Hs.
  destruct Hs as [r b s s' acts post h ans ask Hr Ha|r o s post rest h ans ask Hp|
    r slot s s' acts post rest h ans ask Hp Hg|r slot s s' acts post rest h ans ask Hp Hg|
    r s s' acts post h ans ask Hc|slot s s' acts post h rest ans ask Hh Hr].
  - by eapply pool_acquire_inv.
  - apply answer_inv. by eapply inv_perm.
  - apply (inv_perm _ _ _ _ (grant r slot :: rest) _ h) in HI; [|done..]. cbn in Hg. unfold grant_reader_waiter in Hg.
    case_decide; [|by destruct (release_reader slot s)]. injection Hg as <- <-. rewrite app_nil_r. by apply grant_inv.
  - apply (inv_perm _ _ _ _ (grant r slot :: rest) _ h) in HI; [|done..]. cbn in Hg. unfold grant_reader_waiter in Hg.
    case_decide; [done|]. destruct (release_reader slot s) as [s1 a1] eqn:E. injection Hg as <- <-.
    eapply pool_release_inv; [|exact E]. by eapply pool_return_inv.
  - by eapply cancel_inv.
  - eapply pool_release_inv; [|exact Hr]. apply (inv_perm _ _ _ _ post _ (slot :: rest)) in HI; [|done..].
    destruct HI. split; try done. cbn in *. rewrite <- iv_slots0. solve_Permutation.
Qed.
End Preservation.

(** ** The writer side is a reader side of one slot *)
Definition view (w : WriterSide) : ReaderSide :=
  mkReaders (if writer_busy w then [] else [0]) (writer_waiters w) (writer_status w).
Definition view_system (x : System WriterSide) : System ReaderSide :=
  mkSystem (view (side x)) (posted x) (held x) (answers x) (asked x).

Lemma view_acquire r b w :
  async_acquire_reader r b (view w) = let '(w', acts) := async_acquire_writer r b w in (view w', acts).
Proof. destruct w as [[] ? ?], b; done. Qed.

Lemma view_cancel r w :
  cancel_reader_waiter r (view w) = let '(w', acts) := cancel_writer_waiter r w in (view w', acts).
Proof. unfold cancel_reader_waiter, cancel_writer_waiter. cbn. by case_decide. Qed.

Lemma view_release w :
  writer_busy w = true ->
  release_reader 0 (view w) = let '(w', acts) := release_writer w in (view w', acts).
Proof. destruct w as [[] [|r l] ?]; done. Qed.

Lemma view_grant r w :
  writer_busy w = true ->
  grant_reader_waiter r 0 (view w) = let '(w', acts, given) := grant_writer_waiter r w in (view w', acts, given).
Proof.
  intros Hb. unfold grant_reader_waiter, grant_writer_waiter. cbn. case_decide; [done|].
  rewrite (view_release w Hb). by destruct (release_writer w).
Qed.

(** A slot in use is the writer itself, which is then busy. *)
Lemma slot_in_use (w : WriterSide) l slot :
  free_readers (view w) ++ slot :: l ≡ₚ seq 0 1 -> slot = 0 /\ writer_busy w = true.
Proof.
  intros Hp. assert (Hin : slot ∈ seq 0 1) by (rewrite <- Hp; apply elem_of_app; right; by apply elem_of_cons; left).
  apply Permutation_length in Hp. rewrite length_app in Hp. cbn in *. apply list_elem_of_singleton in Hin.
  split; [done|]. by destruct (writer_busy w).
Qed.

Lemma writer_simulates x y : Inv 1 [] (view_system x) -> step x y -> step (view_system x) (view_system y).
Proof.
  intros HI Hs. pose proof (iv_slots _ _ _ HI) as Hsl.
  destruct Hs as [r b s s' acts post h ans ask Hr Ha|r o s post rest h ans ask Hp|
    r slot s s' acts post rest h ans ask Hp Hg|r slot s s' acts post rest h ans ask Hp Hg|
    r s s' acts post h ans ask Hc|slot s s' acts post h rest ans ask Hh Hr];
    unfold view_system in *; cbn [side posted held answers asked] in *; cbn in *.
  - apply (step_acquire r b); [done|]. cbn. by rewrite view_acquire, Ha.
  - by apply step_answer.
  - rewrite Hp in Hsl. cbn in Hsl. apply slot_in_use in Hsl as [-> Hb].
    apply (step_grant r 0 _ _ _ _ rest); [done|]. cbn. by rewrite view_grant, Hg.
  - rewrite Hp in Hsl. cbn in Hsl. apply slot_in_use in Hsl as [-> Hb].
    apply (step_return r 0 _ _ _ _ rest); [done|]. cbn. by rewrite view_grant, Hg.
  - apply (step_cancel r). cbn. by rewrite view_cancel, Hc.
  - rewrite Hh in Hsl. assert (Hsl' : free_readers (view s) ++ slot :: (post ≫= slots_of) ++ rest ≡ₚ seq 0 1)
      by (rewrite <- Hsl; cbn; solve_Permutation).
    apply slot_in_use in Hsl' as [-> Hb].
    apply (step_release 0 _ _ _ _ _ rest); [done|]. cbn. by rewrite view_release, Hr.
Qed.

(** ** What holds of every reachable system *)
Lemma readers_inv n x : reachable (mkReaders (seq 0 n) [] ∅) x -> Inv n [] x.
Proof.
  induction 1 as [|x y _ IH Hs]; [|by eapply pool_step_inv].
  split; cbn; try done.
  - by rewrite app_nil_r.
  - by intros r ?%not_elem_of_nil.
  - constructor.
  - intros r Hr. by apply not_elem_of_nil in Hr.
  - constructor.
  - intros r. split; [by intros ?%not_elem_of_nil|by intros [?%not_elem_of_nil _]].
  - intros r. rewrite lookup_empty. by intros [].
  - constructor.
Qed.

Lemma writers_view x :
  reachable (mkWriter false [] ∅) x -> reachable (mkReaders (seq 0 1) [] ∅) (view_system x).
Proof.
  induction 1 as [|x y _ IH Hs]; [apply reach_open|]. eapply reach_step; [exact IH|].
  apply writer_simulates; [by apply readers_inv|done].
Qed.

Lemma open_pool_sides connect o p :
  open_pool connect o = Ok p ->
  writers p = mkWriter false [] ∅ /\ readers p = mkReaders (seq 0 (po_reader_count o)) [] ∅ /\
  length (reader_caches p) = po_reader_count o /\ 0 < po_reader_count o.
Proof.
  unfold open_pool. case_bool_decide; [done|]. destruct (Nat.eqb_spec (po_reader_count o) 0); [done|].
  destruct (_ =? _); [done|]. destruct (connect None _); [|done]. destruct (StatementCache.open _); [|done].
  assert (Hl : forall k i l, open_readers connect o i k = Ok l -> length l = k).
  { induction k as [|k IH]; cbn; intros i l; [by intros [= <-]|].
    destruct (connect _ _); [|done]. destruct (StatementCache.open _); [|done].
    destruct (open_readers connect o (S i) k) eqn:E; [|done]. intros [= <-]. cbn. f_equal. by eapply IH. }
  destruct (open_readers connect o 0 (po_reader_count o)) eqn:E; [|done]. intros [= <-]. cbn.
  split_and!; [done|done|by eapply Hl|lia].
Qed.

Lemma inv_exclusive n x :
  Inv n [] x -> NoDup (held x) /\ forall slot, slot ∈ held x -> slot < n /\ slot ∉ free_readers (side x).
Proof.
  intros HI. pose proof (iv_slots _ _ _ HI) as Hs.
  assert (Hnd : NoDup (free_readers (side x) ++ (posted x ≫= slots_of) ++ held x ++ []))
    by (rewrite Hs; apply NoDup_seq).
  rewrite app_nil_r, app_assoc in Hnd. apply NoDup_app in Hnd as (_ & Hd & Hh). split; [done|].
  intros slot Hin. split.
  - assert (Hq : slot ∈ seq 0 n) by (rewrite <- Hs, !elem_of_app; auto). apply elem_of_seq in Hq. lia.
  - intros Hf. apply (Hd slot); [|done]. apply elem_of_app. by left.
Qed.

Lemma inv_answers n x :
  Inv n [] x -> NoDup (map fst (answers x)) /\ (forall r, r ∈ map fst (answers x) -> r ∈ asked x) /\
  (posted x = [] -> (forall r, r ∈ asked x -> r ∈ map fst (answers x)) \/ length (held x) = n).
Proof.
  intros []. split_and!.
  - by apply NoDup_app in iv_once0 as [? _].
  - intros r Hr. apply iv_answered0, elem_of_app. by left.
  - intros Hp. rewrite Hp in *. cbn in *. destruct (reader_waiters (side x)) as [|q l] eqn:Ew.
    + left. intros r Hr. specialize (iv_answered0 r). rewrite app_nil_r in iv_answered0. apply iv_answered0.
      split; [done|]. intros Hq%iv_pending0. by apply not_elem_of_nil in Hq.
    + right. rewrite iv_full0 in iv_slots0 by done. apply Permutation_length in iv_slots0.
      rewrite app_nil_r, length_seq in iv_slots0. done.
Qed.

Lemma sublist_before (r : nat) rest l q :
  sublist (r :: rest) l -> q ∈ rest -> exists l1 l2 l3, l = l1 ++ r :: l2 ++ q :: l3.
Proof.
  intros (l1 & l2 & -> & Hl)%sublist_cons_l Hq. assert (Hin : q ∈ l2) by (apply (elem_of_submseteq rest); [done|by apply sublist_submseteq]).
  apply list_elem_of_split in Hin as (a & b & ->). by exists l1, a, b.
Qed.

(** however requests, cancellations, releases and posted actions interleave, no two live reader leases
    share a connection, a leased connection is never free, and at most one writer lease is alive. *)
Theorem pool_lease_exclusive connect (o : PoolOptions) (p : PoolState) (x : System ReaderSide) (y : System WriterSide) :
  open_pool connect o = Ok p -> reachable (readers p) x -> reachable (writers p) y ->
  NoDup (held x) /\
  (forall slot, slot ∈ held x -> slot < length (reader_caches p) /\ slot ∉ free_readers (side x)) /\
  length (held y) <= 1.
Proof.
  intros (Hw & Hr & -> & _)%open_pool_sides Hx Hy. rewrite Hr in Hx. rewrite Hw in Hy.
  apply readers_inv in Hx. apply writers_view, readers_inv in Hy.
  destruct (inv_exclusive _ _ Hx) as [Hn Hh]. split_and!; [done|done|].
  pose proof (iv_slots _ _ _ Hy) as Hs. apply Permutation_length in Hs. cbn in Hs. rewrite !length_app in Hs. lia.
Qed.

(** each request completes at most once, and only requests made complete; once the executor has run
    everything posted, every reader request has completed or all the readers are leased, and every writer
    request has completed or the writer is leased. *)
Theorem pool_never_stalls connect (o : PoolOptions) (p : PoolState) (x : System ReaderSide) (y : System WriterSide) :
  open_pool connect o = Ok p -> reachable (readers p) x -> reachable (writers p) y ->
  NoDup (map fst (answers x)) /\ NoDup (map fst (answers y)) /\
  (forall r, r ∈ map fst (answers x) -> r ∈ asked x) /\ (forall r, r ∈ map fst (answers y) -> r ∈ asked y) /\
  (posted x = [] ->
    (forall r, r ∈ asked x -> r ∈ map fst (answers x)) \/ length (held x) = length (reader_caches p)) /\
  (posted y = [] -> (forall r, r ∈ asked y -> r ∈ map fst (answers y)) \/ length (held y) = 1).
Proof.
  intros (Hw & Hr & -> & _)%open_pool_sides Hx Hy. rewrite Hr in Hx. rewrite Hw in Hy.
  destruct (inv_answers _ _ (readers_inv _ _ Hx)) as (? & ? & ?).
  destruct (inv_answers _ _ (readers_inv _ _ (writers_view _ Hy))) as (? & ? & ?). auto 10.
Qed.

(** a released reader goes to the request that has waited longest: every request still queued was made
    after the one that gets it. *)
Theorem pool_fifo connect (o : PoolOptions) (p : PoolState) (x : System ReaderSide) (slot q : nat) (s' : ReaderSide)
    (a : Action) :
  open_pool connect o = Ok p -> reachable (readers p) x -> release_reader slot (side x) = (s', [a]) ->
  q ∈ reader_waiters s' ->
  exists r l1 l2 l3, a = grant r slot /\ reader_status (side x) !! r = Some pending /\
    asked x = l1 ++ r :: l2 ++ q :: l3.
Proof.
  intros (_ & Hr & _)%open_pool_sides Hx. rewrite Hr in Hx. apply readers_inv in Hx as [].
  unfold release_reader. destruct (reader_waiters (side x)) as [|r rest]; [done|].
  intros [= <- <-] Hq. cbn in Hq. exists r.
  destruct (sublist_before r rest _ q iv_order0 Hq) as (l1 & l2 & l3 & Hl). exists l1, l2, l3.
  split_and!; [done|apply iv_queue0; by apply elem_of_cons; left|done].
Qed.

(** ** A run *)
Module Demo.
Definition options : PoolOptions := mkPoolOptions "db.sqlite" 1 4 5000 true true.
Definition connect (i : option nat) (o : ConnectionOptions) : Result unit := Ok tt.
Definition pool : PoolState :=
  mkPool (Some (StatementCache.mkState 4 ∅ [] ∅ 0 0 0)) [Some (StatementCache.mkState 4 ∅ [] ∅ 0 0 0)]
    (mkWriter false [] ∅) (mkReaders [0] [] ∅).
Definition waiting : ReaderSide := mkReaders [] [1; 2] (<[2 := pending]> (<[1 := pending]> ∅)).
Definition one_lease : System ReaderSide := mkSystem waiting [] [0] [(0, leased 0)] [0; 1; 2].
Definition writing : System WriterSide := mkSystem (mkWriter true [] ∅) [] [0] [(0, leased 0)] [0].

Lemma one_lease_reachable : reachable (readers pool) one_lease.
Proof.
  eapply reach_step; [|apply (step_acquire 2 false (mkReaders [] [1] (<[1 := pending]> ∅)) _ [] [] [0] [(0, leased 0)] [0; 1]);
    [rewrite !not_elem_of_cons; split_and!; [lia|lia|apply not_elem_of_nil]|reflexivity]].
  eapply reach_step; [|apply (step_acquire 1 false (mkReaders [] [] ∅) _ [] [] [0] [(0, leased 0)] [0]);
    [rewrite !not_elem_of_cons; split_and!; [lia|apply not_elem_of_nil]|reflexivity]].
  eapply reach_step; [|apply (step_answer 0 (leased 0) _ [answer 0 (leased 0)] [] [] [] [0]); reflexivity].
  eapply reach_step; [apply reach_open|].
  apply (step_acquire 0 false _ _ [answer 0 (leased 0)] [] [] [] []); [apply not_elem_of_nil|reflexivity].
Qed.

Lemma writing_reachable : reachable (writers pool) writing.
Proof.
  eapply reach_step; [|apply (step_answer 0 (leased 0) _ [answer 0 (leased 0)] [] [] [] [0]); reflexivity].
  eapply reach_step; [apply reach_open|].
  apply (step_acquire 0 false _ _ [answer 0 (leased 0)] [] [] [] []); [apply not_elem_of_nil|reflexivity].
Qed.

Lemma pool_lease_exclusive_witness : NoDup [0] /\ length (held writing) <= 1.
Proof.
  pose proof (pool_lease_exclusive connect options pool one_lease writing eq_refl one_lease_reachable
    writing_reachable) as (H1 & _ & H2). exact (conj H1 H2).
Defined.

Lemma pool_never_stalls_witness :
  (forall r, r ∈ asked one_lease -> r ∈ map fst (answers one_lease)) \/ length (held one_lease) = 1.
Proof.
  pose proof (pool_never_stalls connect options pool one_lease writing eq_refl one_lease_reachable
    writing_reachable) as (_ & _ & _ & _ & H & _). exact (H eq_refl).
Defined.

Lemma pool_fifo_witness :
  exists r l1 l2 l3, grant 1 0 = grant r 0 /\ reader_status waiting !! r = Some pending /\
    asked one_lease = l1 ++ r :: l2 ++ 2 :: l3.
Proof.
  apply (pool_fifo connect options pool one_lease 0 2 (mkReaders [] [2] (reader_status waiting)) (grant 1 0));
    [reflexivity|exact one_lease_reachable|reflexivity|by apply elem_of_cons; left].
Defined.
End Demo.
