(* ===== verification/AsyncChannel.v ===== *)
(** * oran-async: the bounded channel

    Models [async::Channel] ([include/oran/async/channel.hpp]).  Every operation takes
    the state's mutex once and settles the queues under it, so an operation is one
    step; the handlers it completes run later, on their own executors, in the order of
    the list that the step returns.  Waiters are numbered from one; the counter has 64
    bits and is not modelled as wrapping.  Installing a handler's cancellation slot
    makes [cancel_send] and [cancel_receive] of its number possible steps. *)
From S2P Require Import Prelude Core.

Section Channel.
Context {T : Type}.

Record State := mkState {
  capacity : nat; closed : bool; next_id : nat; values : list T;
  senders : list (nat * T); receivers : list nat }.

(** A completion of a waiter, or a value taken at once by [try_receive]. *)
Inductive Event :=
  | send_complete (id : nat) (result : Result unit)
  | receive_complete (id : nat) (result : Result T)
  | taken (value : T).

Definition create (cap : nat) : State := mkState cap false 1 [] [] [].
Definition set_queues (s : State) (vs : list T) (ss : list (nat * T)) (rs : list nat) : State :=
  mkState (capacity s) (closed s) (next_id s) vs ss rs.

Definition channel_closed_error : Error := Errors.mk ek_cancelled "channel closed".
Definition overflow_error : Error := Errors.mk ek_mailbox_overflowed "channel capacity exceeded".

(** The inner loop of [pump_locked]: the receivers that wait get the values that are there. *)
Fixpoint hand_over (rs : list nat) (vs : list T) : list nat * list T * list Event :=
  match rs, vs with
  | r :: rs', v :: vs' =>
      let '(rs'', vs'', evs) := hand_over rs' vs' in (rs'', vs'', receive_complete r (Ok v) :: evs)
  | _, _ => (rs, vs, [])
  end.

(** [pump_locked]; each turn of the loop takes a sender, so one more than there are senders is enough. *)
Fixpoint pump (fuel : nat) (s : State) : State * list Event :=
  match fuel with
  | O => (s, [])
  | S fuel =>
      let '(rs, vs, evs) := hand_over (receivers s) (values s) in
      if closed s then
        let '(rs', vs', evs') := hand_over rs vs in
        (set_queues s vs' [] [],
         evs ++ map (fun p => send_complete p.1 (Err channel_closed_error)) (senders s) ++ evs' ++
         map (fun r => receive_complete r (Err channel_closed_error)) rs')
      else
        match senders s, rs with
        | [], _ => (set_queues s vs [] rs, evs)
        | (id, v) :: ss, r :: rs =>
            let '(s', evs') := pump fuel (set_queues s vs ss rs) in
            (s', evs ++ [receive_complete r (Ok v); send_complete id (Ok tt)] ++ evs')
        | (id, v) :: ss, [] =>
            if (length vs <? capacity s)%nat then
              let '(s', evs') := pump fuel (set_queues s (vs ++ [v]) ss []) in
              (s', evs ++ [send_complete id (Ok tt)] ++ evs')
            else (set_queues s vs ((id, v) :: ss) [], evs)
        end
  end.
Definition pump_locked (s : State) : State * list Event := pump (S (length (senders s))) s.

(** [async_send] and [async_receive], and the check that [send] and [receive] make first. *)
Definition async_send (s : State) (v : T) : State * list Event :=
  pump_locked (mkState (capacity s) (closed s) (S (next_id s)) (values s) (senders s ++ [(next_id s, v)]) (receivers s)).
Definition async_receive (s : State) : State * list Event :=
  pump_locked (mkState (capacity s) (closed s) (S (next_id s)) (values s) (senders s) (receivers s ++ [next_id s])).
Definition send (s : State) (is_cancelled : bool) (v : T) : option Error * (State * list Event) :=
  if is_cancelled then (Some Errors.cancelled, (s, [])) else (None, async_send s v).
Definition receive (s : State) (is_cancelled : bool) : option Error * (State * list Event) :=
  if is_cancelled then (Some Errors.cancelled, (s, [])) else (None, async_receive s).

Definition try_send (s : State) (v : T) : Result unit * State * list Event :=
  let '(s, evs) := pump_locked s in
  if closed s then (Err channel_closed_error, s, evs)
  else
    match receivers s, values s with
    | r :: rs, [] => (Ok tt, set_queues s [] (senders s) rs, evs ++ [receive_complete r (Ok v)])
    | _, _ =>
        if (length (values s) <? capacity s)%nat then
          let '(s', evs') := pump_locked (set_queues s (values s ++ [v]) (senders s) (receivers s)) in
          (Ok tt, s', evs ++ evs')
        else (Err overflow_error, s, evs)
    end.

Definition try_receive (s : State) : Result (option T) * State * list Event :=
  let '(s, evs) := pump_locked s in
  match values s, senders s with
  | v :: vs, _ =>
      let '(s', evs') := pump_locked (set_queues s vs (senders s) (receivers s)) in
      (Ok (Some v), s', evs ++ [taken v] ++ evs')
  | [], (id, v) :: ss => (Ok (Some v), set_queues s [] ss (receivers s), evs ++ [taken v; send_complete id (Ok tt)])
  | [], [] => (if closed s then Err channel_closed_error else Ok None, s, evs)
  end.

Definition close (s : State) : State * list Event :=
  pump_locked (mkState (capacity s) true (next_id s) (values s) (senders s) (receivers s)).

(** The first waiter of a number is taken out, if it still waits. *)
Fixpoint erase {A} (key : A -> nat) (id : nat) (queue : list A) : option (list A) :=
  match queue with
  | [] => None
  | x :: queue => if (key x =? id)%nat then Some queue else cons x <$> erase key id queue
  end.
Definition cancel_send (s : State) (id : nat) : State * list Event :=
  match erase fst id (senders s) with
  | Some ss => (set_queues s (values s) ss (receivers s), [send_complete id (Err Errors.cancelled)])
  | None => (s, [])
  end.
Definition cancel_receive (s : State) (id : nat) : State * list Event :=
  match erase (fun r => r) id (receivers s) with
  | Some rs => (set_queues s (values s) (senders s) rs, [receive_complete id (Err Errors.cancelled)])
  | None => (s, [])
  end.

(** ** Runs *)
Inductive Op :=
  | op_send (v : T) | op_receive | op_try_send (v : T) | op_try_receive | op_close
  | op_cancel_send (id : nat) | op_cancel_receive (id : nat).
Definition step (s : State) (op : Op) : State * list Event :=
  match op with
  | op_send v => async_send s v
  | op_receive => async_receive s
  | op_try_send v => let '(_, s', evs) := try_send s v in (s', evs)
  | op_try_receive => let '(_, s', evs) := try_receive s in (s', evs)
  | op_close => close s
  | op_cancel_send id => cancel_send s id
  | op_cancel_receive id => cancel_receive s id
  end.

(** The values that enter by a step, with the number of the sender that may wait. *)
Definition entering (s : State) (op : Op) : list (option nat * T) :=
  match op with
  | op_send v => [(Some (next_id s), v)]
  | op_try_send v => match (try_send s v).1.1 with Ok _ => [(None, v)] | Err _ => [] end
  | _ => []
  end.

(** A state with all that entered and all that happened on the way to it. *)
Inductive run (cap : nat) : State -> list (option nat * T) -> list Event -> Prop :=
  | run_create : run cap (create cap) [] []
  | run_step s entered evs op :
      run cap s entered evs -> run cap (step s op).1 (entered ++ entering s op) (evs ++ (step s op).2).

Definition delivered_value (e : Event) : option T :=
  match e with receive_complete _ (Ok v) | taken v => Some v | _ => None end.
Definition refused_id (e : Event) : option nat := match e with send_complete id (Err _) => Some id | _ => None end.
Definition completed_id (e : Event) : option nat :=
  match e with send_complete id _ | receive_complete id _ => Some id | taken _ => None end.
Definition delivered : list Event -> list T := omap delivered_value.
Definition refused : list Event -> list nat := omap refused_id.
Definition completed : list Event -> list nat := omap completed_id.
Definition pending (s : State) : list nat := map fst (senders s) ++ receivers s.

(** Nobody waits for what is there. *)
Record Settled (s : State) : Prop := {
  st_receivers : receivers s <> [] -> values s = [] /\ senders s = [];
  st_senders : senders s <> [] -> (capacity s <= length (values s))%nat;
  st_closed : closed s = true -> senders s = [] /\ receivers s = [];
  st_bounded : (length (values s) <= capacity s)%nat }.

(** ** The pump *)
Lemma completed_app a b : completed (a ++ b) = completed a ++ completed b. Proof. apply omap_app. Qed.
Lemma delivered_app a b : delivered (a ++ b) = delivered a ++ delivered b. Proof. apply omap_app. Qed.
Lemma refused_app a b : refused (a ++ b) = refused a ++ refused b. Proof. apply omap_app. Qed.

Lemma hand_over_spec rs : forall vs rs' vs' evs,
  hand_over rs vs = (rs', vs', evs) ->
  delivered evs ++ vs' = vs /\ completed evs ++ rs' = rs /\ refused evs = [] /\ (rs' = [] \/ vs' = []) /\
  (length vs' <= length vs)%nat.
Proof.
  induction rs as [|r rs IH]; intros vs rs' vs' evs; cbn [hand_over]; [intros [= <- <- <-]; split_and!; auto|].
  destruct vs as [|v vs]; [intros [= <- <- <-]; split_and!; auto|].
  destruct (hand_over rs vs) as [[rs1 vs1] evs1] eqn:E. intros [= <- <- <-].
  destruct (IH _ _ _ _ E) as (H1 & H2 & H3 & H4 & H5). cbn in *. unfold delivered, completed, refused in *. cbn.
  split_and!; [by f_equal|by f_equal|done|done|lia].
Qed.

(** What settling does: the waiting senders that move are a prefix, in order. *)
Record Pumped (s s' : State) (evs : list Event) : Prop := {
  pu_capacity : capacity s' = capacity s;
  pu_closed : closed s' = closed s;
  pu_next : next_id s' = next_id s;
  pu_settled : (length (values s) <= capacity s)%nat -> Settled s';
  pu_pending : completed evs ++ pending s' ≡ₚ pending s;
  pu_flow : closed s = false -> exists moved, senders s = moved ++ senders s' /\
      delivered evs ++ values s' = values s ++ map snd moved /\ refused evs = [];
  pu_drained : closed s = true -> delivered evs ++ values s' = values s /\ refused evs = map fst (senders s) }.

Lemma fail_senders (ss : list (nat * T)) e :
  let evs := map (fun p => send_complete p.1 (Err e)) ss in
  delivered evs = [] /\ refused evs = map fst ss /\ completed evs = map fst ss.
Proof. induction ss as [|[id v] ss (H1 & H2 & H3)]; [done|]. cbn in *. split_and!; [done|by f_equal|by f_equal]. Qed.
Lemma fail_receivers (rs : list nat) e :
  let evs := map (fun r => @receive_complete r (Err e)) rs in
  delivered evs = [] /\ refused evs = [] /\ completed evs = rs.
Proof. induction rs as [|r rs (H1 & H2 & H3)]; [done|]. cbn in *. split_and!; [done|done|by f_equal]. Qed.

Lemma pump_spec fuel : forall s, (length (senders s) < fuel)%nat -> Pumped s (pump fuel s).1 (pump fuel s).2.
Proof.
  induction fuel as [|fuel IH]; intros s Hf; [lia|]. cbn [pump].
  destruct (hand_over (receivers s) (values s)) as [[rs vs] evs] eqn:Eh.
  apply hand_over_spec in Eh as (Hd & Hc & Hr & Hor & Hl).
  destruct (closed s) eqn:Ec.
  { destruct (hand_over rs vs) as [[rs' vs'] evs'] eqn:Eh'. apply hand_over_spec in Eh' as (Hd' & Hc' & Hr' & _ & Hl'). cbn [fst snd].
    destruct (fail_senders (senders s) channel_closed_error) as (F1 & F2 & F3), (fail_receivers rs' channel_closed_error) as (G1 & G2 & G3).
    split; cbn; try done.
    - intros Hb. split; cbn; try done. lia.
    - unfold pending. cbn. rewrite app_nil_r, !completed_app, F3, G3, <- Hc, <- Hc'. solve_Permutation.
    - by rewrite Ec.
    - intros _. rewrite !delivered_app, !refused_app, F1, F2, G1, G2, Hr, Hr', <- Hd, <- Hd'. cbn. by rewrite !app_nil_r, app_assoc. }
  destruct (senders s) as [|[id v] ss] eqn:Es.
  { cbn. split; cbn; try done.
    - intros Hb. split; cbn; try done; [|by rewrite Ec|lia]. intros. split; [by destruct Hor|done].
    - unfold pending. cbn. by rewrite Es, Hc.
    - intros _. exists []. rewrite Es. cbn. by rewrite app_nil_r, Hd.
    - by rewrite Ec. }
  destruct rs as [|r rs].
  - destruct (Nat.ltb_spec (length vs) (capacity s)) as [Hlt|Hge].
    + specialize (IH (set_queues s (vs ++ [v]) ss []) ltac:(cbn in *; lia)).
      destruct (pump fuel _) as [s' evs']. destruct IH as [I1 I2 I3 I4 I5 I6 I7]. cbn in *. split; cbn; try done.
      * intros Hb. apply I4. rewrite length_app. cbn. lia.
      * rewrite !completed_app. cbn. unfold pending in *. cbn in *. rewrite Es. cbn. rewrite app_nil_r in *.
        rewrite <- Hc, <- I5. solve_Permutation.
      * intros Ho. destruct (I6 Ho) as (moved & -> & Hm & Hrr). exists ((id, v) :: moved). rewrite Es. cbn.
        rewrite !delivered_app, !refused_app, Hr. cbn. split_and!; [done| |exact Hrr].
        rewrite <- app_assoc, Hm, <- Hd, <- !app_assoc. done.
      * by rewrite Ec.
    + cbn. split; cbn; try done.
      * intros Hb. split; cbn; try done; [by rewrite Ec|lia].
      * unfold pending. cbn. rewrite Es. cbn. rewrite app_nil_r in *. rewrite <- Hc. solve_Permutation.
      * intros _. exists []. rewrite Es. cbn. by rewrite app_nil_r, Hd.
      * by rewrite Ec.
  - destruct Hor as [?| ->]; [done|].
    specialize (IH (set_queues s [] ss rs) ltac:(cbn in *; lia)).
    destruct (pump fuel _) as [s' evs']. destruct IH as [I1 I2 I3 I4 I5 I6 I7]. cbn in *. split; cbn; try done.
    + intros Hb. apply I4. cbn. lia.
    + rewrite !completed_app. cbn. unfold pending in *. cbn in *. rewrite Es. cbn. rewrite <- Hc.
      transitivity (completed evs ++ r :: id :: (map fst ss ++ rs)); [rewrite <- I5|]; solve_Permutation.
    + intros Ho. destruct (I6 Ho) as (moved & -> & Hm & Hrr). exists ((id, v) :: moved). rewrite Es. cbn.
      rewrite !delivered_app, !refused_app, Hr. cbn. split_and!; [done| |exact Hrr].
      rewrite app_nil_r in Hd. rewrite Hd, <- app_assoc. cbn. by rewrite Hm.
    + by rewrite Ec.
Qed.

Lemma pump_locked_spec s : Pumped s (pump_locked s).1 (pump_locked s).2.
Proof. apply pump_spec. lia. Qed.

(** ** Steps *)
Definition keyed : list (nat * T) -> list (option nat * T) := map (fun p => (Some p.1, p.2)).
Definition keep (ids : list nat) (p : option nat * T) : bool :=
  match p.1 with Some id => negb (bool_decide (id ∈ ids)) | None => true end.
Definition ids : list (option nat * T) -> list nat := omap fst.

Lemma ids_app a b : ids (a ++ b) = ids a ++ ids b. Proof. apply omap_app. Qed.
Lemma ids_keyed ss : ids (keyed ss) = map fst ss.
Proof. induction ss as [|[id v] ss IH]; [done|]. cbn. by f_equal. Qed.
Lemma keyed_app a b : keyed (a ++ b) = keyed a ++ keyed b. Proof. apply map_app. Qed.
Lemma keep_all R l : (forall id, id ∈ ids l -> id ∉ R) -> List.filter (keep R) l = l.
Proof.
  induction l as [|[[id|] v] l IH]; intros H; [done|..]; cbn.
  - rewrite bool_decide_eq_false_2 by (apply H; cbn; by apply elem_of_cons; left). cbn. f_equal. apply IH.
    intros i Hi. apply H. cbn. apply elem_of_cons. by right.
  - f_equal. by apply IH.
Qed.
Lemma keep_none R ss : (forall id, id ∈ map fst ss -> id ∈ R) -> List.filter (keep R) (keyed ss) = [].
Proof.
  induction ss as [|[id v] ss IH]; intros H; [done|]. cbn.
  rewrite bool_decide_eq_true_2 by (apply H; cbn; by apply elem_of_cons; left). cbn. apply IH. intros i Hi. apply H. cbn.
  apply elem_of_cons. by right.
Qed.
Lemma keep_ids R l : ids (List.filter (keep R) l) `sublist_of` ids l.
Proof.
  induction l as [|[[id|] v] l IH]; cbn; [constructor| |done]. destruct (bool_decide _); cbn; by constructor.
Qed.

Lemma erase_spec {A} (key : A -> nat) id l l' :
  erase key id l = Some l' -> exists a x b, l = a ++ x :: b /\ key x = id /\ l' = a ++ b.
Proof.
  revert l'. induction l as [|x l IH]; intros l'; cbn [erase]; [done|]. destruct (Nat.eqb_spec (key x) id) as [H|H].
  - intros [= <-]. by exists [], x, l.
  - destruct (erase key id l) as [l1|]; [|done]. intros [= <-]. destruct (IH l1 eq_refl) as (a & y & b & -> & Hy & ->).
    by exists (x :: a), y, b.
Qed.

Lemma pump_settled s : Settled s -> pump_locked s = (s, []).
Proof.
  intros [H1 H2 H3 H4]. unfold pump_locked. destruct s as [cap cl n vs ss rs].
  cbn [senders receivers values closed capacity next_id] in *.
  cbn [pump senders receivers values closed capacity next_id set_queues]. unfold set_queues.
  cbn [senders receivers values closed capacity next_id].
  assert (Hh : hand_over rs vs = (rs, vs, [])).
  { destruct rs as [|r rs]; [by destruct vs|]. destruct (H1 ltac:(done)) as [-> _]. done. }
  rewrite Hh. destruct cl.
  - destruct (H3 eq_refl) as [-> ->]. by destruct vs.
  - destruct ss as [|[id v] ss]; [done|]. destruct rs as [|r rs]; [|by destruct (H1 ltac:(done))].
    specialize (H2 ltac:(done)). by destruct (Nat.ltb_spec (length vs) cap); [lia|].
Qed.

(** A step: who waits, and how the values move. *)
Record Stepped (s : State) (op : Op) (s' : State) (evs : list Event) : Prop := {
  sp_settled : Settled s';
  sp_capacity : capacity s' = capacity s;
  sp_issued : exists issued, completed evs ++ pending s' ≡ₚ pending s ++ issued /\
    ((issued = [] /\ next_id s' = next_id s) \/ (issued = [next_id s] /\ next_id s' = S (next_id s)));
  sp_flow : exists gone, List.filter (keep (refused evs)) (keyed (senders s) ++ entering s op) = gone ++ keyed (senders s') /\
    delivered evs ++ values s' = values s ++ map snd gone;
  sp_refused : forall id, id ∈ refused evs -> id ∈ map fst (senders s) \/ (id = next_id s /\ id ∈ ids (entering s op)) }.

Lemma keep_nil l : List.filter (keep []) l = l.
Proof. apply keep_all. intros ? _. apply not_elem_of_nil. Qed.
Lemma snd_keyed ss : map snd (keyed ss) = map snd ss.
Proof. unfold keyed. rewrite map_map. by apply map_ext. Qed.

(** The steps that change a queue and settle. *)
Lemma pumped_step s op s1 issued :
  Settled s -> capacity s1 = capacity s -> values s1 = values s ->
  keyed (senders s1) = keyed (senders s) ++ entering s op ->
  pending s1 ≡ₚ pending s ++ issued ->
  ((issued = [] /\ next_id s1 = next_id s) \/ (issued = [next_id s] /\ next_id s1 = S (next_id s))) ->
  (forall id, id ∈ ids (entering s op) -> id = next_id s) ->
  Stepped s op (pump_locked s1).1 (pump_locked s1).2.
Proof.
  intros Hs Hcap Hv Hk Hp Hi Hin. destruct (pump_locked_spec s1) as [P1 P2 P3 P4 P5 P6 P7].
  set (s' := (pump_locked s1).1) in *. set (evs := (pump_locked s1).2) in *.
  assert (Hset : Settled s') by (apply P4; rewrite Hcap, Hv; by destruct Hs). split.
  - done.
  - congruence.
  - exists issued. split; [by rewrite P5|]. by rewrite P3.
  - destruct (closed s1) eqn:Ec.
    + destruct (P7 eq_refl) as [Hd Hr]. exists []. cbn. rewrite app_nil_r, <- Hk.
      destruct (st_closed s' Hset) as [-> _]; [congruence|]. split; [|by rewrite Hd].
      apply keep_none. by rewrite Hr.
    + destruct (P6 eq_refl) as (moved & Hm & Hd & Hr). exists (keyed moved). rewrite Hr, keep_nil, <- Hk, Hm, keyed_app.
      split; [done|]. by rewrite snd_keyed, Hd, Hv.
  - intros id Hid. destruct (closed s1) eqn:Ec.
    + destruct (P7 eq_refl) as [_ Hr]. rewrite Hr, <- ids_keyed, Hk, ids_app, ids_keyed in Hid.
      apply elem_of_app in Hid as [Hid|Hid]; [by left|right]. split; [by apply Hin|done].
    + destruct (P6 eq_refl) as (_ & _ & _ & Hr). rewrite Hr in Hid. by apply not_elem_of_nil in Hid.
Qed.

Lemma not_waiting s op : Settled s -> entering s op = [] -> Stepped s op s [].
Proof.
  intros Hs He. split; [done|done|exists []; split; [by rewrite app_nil_r|by left]| |].
  - exists []. rewrite He, app_nil_r, app_nil_r. cbn. by rewrite keep_nil.
  - intros id Hid. by apply not_elem_of_nil in Hid.
Qed.

Lemma try_send_step s v : Settled s -> Stepped s (op_try_send v) (step s (op_try_send v)).1 (step s (op_try_send v)).2.
Proof.
  intros Hs. pose proof Hs as [H1 H2 H3 H4]. pose proof (pump_settled s Hs) as Hp.
  assert (Hno : forall e, try_send s v = (Err e, s, []) -> Stepped s (op_try_send v) s []).
  { intros e He. apply not_waiting; [done|]. cbn [entering]. by rewrite He. }
  cbn [step]. unfold try_send in *. rewrite Hp in *. destruct (closed s) eqn:Ec; [by apply (Hno channel_closed_error)|].
  destruct (receivers s) as [|r rs] eqn:Er.
  - destruct (Nat.ltb_spec (length (values s)) (capacity s)) as [Hlt|Hge]; [|by destruct (values s); apply (Hno overflow_error)].
    assert (Hss : senders s = []) by (destruct (senders s); [done|]; specialize (H2 ltac:(done)); lia).
    set (s1 := set_queues s (values s ++ [v]) (senders s) []) in *.
    assert (Hs1 : Settled s1).
    { unfold s1. split; cbn; [done|by rewrite Hss|by rewrite Ec|rewrite length_app; cbn; lia]. }
    assert (Hts : try_send s v = (Ok tt, s1, [])).
    { unfold try_send. rewrite Hp, Ec, Er. destruct (Nat.ltb_spec (length (values s)) (capacity s)); [|lia].
      fold s1. rewrite (pump_settled s1 Hs1). by destruct (values s). }
    assert (Hgo : Stepped s (op_try_send v) s1 []).
    { split; [done|done|exists []; split; [unfold pending, s1; cbn; by rewrite Er, !app_nil_r|by left]| |].
      - exists [(None, v)]. cbn [entering]. rewrite Hts. unfold s1. cbn. by rewrite Hss.
      - intros id Hid. by apply not_elem_of_nil in Hid. }
    rewrite (pump_settled s1 Hs1). exact Hgo.
  - destruct (H1 ltac:(done)) as [Hv Hss]. rewrite Hv. cbn [fst snd app]. split.
    + split; cbn; [by rewrite Hss|by rewrite Hss|by rewrite Ec|lia].
    + done.
    + exists []. split; [unfold pending; cbn; by rewrite Er, Hss, !app_nil_r|by left].
    + exists [(None, v)]. cbn [entering]. unfold try_send. rewrite Hp, Ec, Er, Hv. cbn. by rewrite Hss.
    + intros id Hid. by apply not_elem_of_nil in Hid.
Qed.

Lemma try_receive_step s : Settled s -> Stepped s op_try_receive (step s op_try_receive).1 (step s op_try_receive).2.
Proof.
  intros Hs. pose proof Hs as [H1 H2 H3 H4]. cbn [step]. unfold try_receive. rewrite (pump_settled s Hs).
  destruct (values s) as [|v vs] eqn:Ev.
  - destruct (senders s) as [|[id v] ss] eqn:Es; [by apply not_waiting|].
    assert (Hr : receivers s = []) by (destruct (receivers s); [done|]; by destruct H1).
    specialize (H2 ltac:(done)). cbn [fst snd app]. split.
    + split; cbn; [by rewrite Hr|intros _; exact H2|intros Hc; by destruct (H3 Hc)|lia].
    + done.
    + exists []. split; [unfold pending; cbn; by rewrite Hr, Es, !app_nil_r|by left].
    + exists [(Some id, v)]. rewrite Ev, Es. cbn. by rewrite app_nil_r, keep_nil.
    + intros i Hid. by apply not_elem_of_nil in Hid.
  - assert (Hr : receivers s = []) by (destruct (receivers s); [done|]; by destruct H1).
    set (s1 := set_queues s vs (senders s) (receivers s)).
    destruct (pump_locked_spec s1) as [P1 P2 P3 P4 P5 P6 P7].
    destruct (pump_locked s1) as [s' evs]. cbn [fst snd] in *. unfold s1 in *. cbn in P1, P2, P3, P4, P5, P6, P7. cbn in H4.
    split; [apply P4; lia|done|exists []; split; [cbn; rewrite P5; unfold pending; cbn; by rewrite app_nil_r|by left]| |].
    + cbn. rewrite app_nil_r. destruct (closed s) eqn:Ec.
      * destruct (H3 eq_refl) as [Hss _]. destruct (P7 eq_refl) as [Hd Hf]. exists []. rewrite Hss in *. cbn in *.
        assert (Hs' : Settled s') by (apply P4; lia). destruct (st_closed s' Hs' P2) as [-> _].
        unfold delivered, refused in *. cbn. by rewrite Hd, Ev, app_nil_r.
      * destruct (P6 eq_refl) as (moved & Hm & Hd & Hf). exists (keyed moved). unfold delivered, refused in *. cbn.
        rewrite Hf, Hm, Hd, Ev, keep_nil, keyed_app, snd_keyed. done.
    + intros id Hid. left. cbn in Hid. destruct (closed s) eqn:Ec.
      * destruct (P7 eq_refl) as [_ Hf]. unfold refused in *. cbn in Hid. by rewrite Hf in Hid.
      * destruct (P6 eq_refl) as (moved & _ & _ & Hf). unfold refused in *. cbn in Hid. rewrite Hf in Hid.
        by apply not_elem_of_nil in Hid.
Qed.

Lemma keep_one id a x b : NoDup (map fst (a ++ x :: b)) -> fst x = id ->
  List.filter (keep [id]) (keyed (a ++ x :: b)) = keyed (a ++ b).
Proof.
  intros Hn Hx. rewrite map_app in Hn. cbn in Hn. rewrite Hx in Hn. apply NoDup_app in Hn as (_ & Ha & [Hb _]%NoDup_cons).
  assert (Hk : forall l, id ∉ map fst l -> List.filter (keep [id]) (keyed l) = keyed l).
  { intros l Hl. apply keep_all. rewrite ids_keyed. intros i Hi ->%list_elem_of_singleton. by apply Hl. }
  rewrite !keyed_app, List.filter_app, Hk.
  - f_equal. cbn. rewrite Hx, bool_decide_eq_true_2 by (by apply list_elem_of_singleton). cbn. by apply Hk.
  - intros Hi. eapply Ha; [exact Hi|]. by apply elem_of_cons; left.
Qed.

Lemma step_spec s op : Settled s -> NoDup (pending s) -> Stepped s op (step s op).1 (step s op).2.
Proof.
  intros Hs Hn. destruct op as [v| |v| | |id|id].
  - apply (pumped_step s (op_send v) _ [next_id s]); cbn; try done.
    + by rewrite keyed_app.
    + unfold pending. cbn. rewrite map_app. cbn. solve_Permutation.
    + by right.
    + intros id ->%list_elem_of_singleton. done.
  - apply (pumped_step s op_receive _ [next_id s]); cbn; try done.
    + by rewrite app_nil_r.
    + unfold pending. cbn. by rewrite app_assoc.
    + by right.
    + intros id Hid. by apply not_elem_of_nil in Hid.
  - by apply try_send_step.
  - by apply try_receive_step.
  - apply (pumped_step s op_close _ []); cbn; try done.
    + by rewrite app_nil_r.
    + unfold pending. cbn. by rewrite app_nil_r.
    + by left.
    + intros id Hid. by apply not_elem_of_nil in Hid.
  - cbn [step]. unfold cancel_send. destruct (erase fst id (senders s)) as [ss|] eqn:Ee; [|by apply not_waiting].
    apply erase_spec in Ee as (a & x & b & Hss & Hx & ->). destruct Hs as [H1 H2 H3 H4]. cbn [fst snd]. split.
    + split; cbn; try done.
      * intros Hr. destruct (H1 Hr) as [? Hsn]. rewrite Hsn in Hss. by destruct a.
      * intros _. apply H2. rewrite Hss. by destruct a.
      * intros Hc. destruct (H3 Hc) as [Hsn ?]. rewrite Hsn in Hss. by destruct a.
    + done.
    + exists []. split; [|by left]. unfold pending. cbn. rewrite Hss, !map_app. cbn. rewrite Hx. solve_Permutation.
    + exists []. cbn. rewrite !app_nil_r, Hss. split; [|done]. apply keep_one; [|done].
      unfold pending in Hn. rewrite Hss in Hn. by apply NoDup_app in Hn as [? _].
    + intros i. cbn. intros ->%list_elem_of_singleton. left. rewrite Hss, map_app. cbn. rewrite Hx.
      apply elem_of_app. right. by apply elem_of_cons; left.
  - cbn [step]. unfold cancel_receive. destruct (erase _ id (receivers s)) as [rs|] eqn:Ee; [|by apply not_waiting].
    apply erase_spec in Ee as (a & x & b & Hrs & Hx & ->). destruct Hs as [H1 H2 H3 H4]. cbn [fst snd]. split.
    + split; cbn; try done.
      * intros _. apply H1. rewrite Hrs. by destruct a.
      * intros Hc. destruct (H3 Hc) as [? Hr]. rewrite Hr in Hrs. by destruct a.
    + done.
    + exists []. split; [|by left]. unfold pending. cbn. rewrite Hrs. cbn in Hx. subst x. solve_Permutation.
    + exists []. cbn. by rewrite !app_nil_r, keep_nil.
    + intros i Hid. by apply not_elem_of_nil in Hid.
Qed.

(** ** Reachable states *)
Record Inv (cap : nat) (s : State) (entered : list (option nat * T)) (evs : list Event) : Prop := {
  iv_settled : Settled s;
  iv_capacity : capacity s = cap;
  iv_next : (1 <= next_id s)%nat;
  iv_ids : completed evs ++ pending s ≡ₚ seq 1 (next_id s - 1);
  iv_keys : NoDup (ids entered) /\ forall id, id ∈ ids entered -> (id < next_id s)%nat;
  iv_refused : forall id, id ∈ refused evs -> (id < next_id s)%nat;
  iv_flow : exists gone, List.filter (keep (refused evs)) entered = gone ++ keyed (senders s) /\
      map snd gone = delivered evs ++ values s }.

Lemma keep_app a b l : List.filter (keep (a ++ b)) l = List.filter (keep b) (List.filter (keep a) l).
Proof.
  induction l as [|[[id|] v] l IH]; [done|..]; cbn; [|by f_equal].
  destruct (bool_decide (id ∈ a)) eqn:Ea.
  - rewrite bool_decide_eq_true_2; [done|]. apply elem_of_app. left. by apply bool_decide_eq_true in Ea.
  - apply bool_decide_eq_false in Ea. cbn. destruct (bool_decide (id ∈ b)) eqn:Eb.
    + rewrite bool_decide_eq_true_2; [done|]. apply elem_of_app. right. by apply bool_decide_eq_true in Eb.
    + apply bool_decide_eq_false in Eb. rewrite bool_decide_eq_false_2; [by cbn; f_equal|]. rewrite elem_of_app. tauto.
Qed.

Lemma pending_nodup cap s entered evs : Inv cap s entered evs -> NoDup (pending s) /\ forall id, id ∈ pending s -> (id < next_id s)%nat.
Proof.
  intros HI. pose proof (iv_ids _ _ _ _ HI) as Hp. pose proof (NoDup_seq 1 (next_id s - 1)) as Hn. rewrite <- Hp in Hn.
  apply NoDup_app in Hn as (_ & _ & Hn). split; [done|]. intros id Hid.
  assert (id ∈ seq 1 (next_id s - 1)) as Hs by (rewrite <- Hp, elem_of_app; by right).
  apply elem_of_seq in Hs. lia.
Qed.

Lemma entering_ids s op : ids (entering s op) = [] \/ ids (entering s op) = [next_id s] /\ next_id (step s op).1 = S (next_id s).
Proof.
  destruct op as [v| |v| | |id|id]; try (by left).
  - right. split; [done|]. cbn [step]. unfold async_send. by rewrite (pu_next _ _ _ (pump_locked_spec _)).
  - left. cbn. by destruct (try_send s v).1.1.
Qed.

Lemma channel_step_inv cap s entered evs op :
  Inv cap s entered evs -> Inv cap (step s op).1 (entered ++ entering s op) (evs ++ (step s op).2).
Proof.
  intros HI. destruct (pending_nodup _ _ _ _ HI) as [Hnd Hlt]. destruct HI as [I1 I2 I3 I4 [I5 I5'] I6 I7].
  destruct (step_spec s op I1 Hnd) as [S1 S2 S3 S4 S5]. pose proof (entering_ids s op) as He.
  set (s' := (step s op).1) in *. set (ev := (step s op).2) in *.
  assert (Hnext : (next_id s <= next_id s')%nat) by (destruct S3 as (? & _ & [[_ ->]|[_ ->]]); lia).
  assert (Hkeys : NoDup (ids (entered ++ entering s op)) /\ forall id, id ∈ ids (entered ++ entering s op) -> (id < next_id s')%nat).
  { rewrite ids_app. destruct He as [-> |[-> Hn']].
    - rewrite app_nil_r. split; [done|]. intros id Hid. specialize (I5' id Hid). lia.
    - split.
      + apply NoDup_app. split_and!; [done| |apply NoDup_singleton]. intros id Hid ->%list_elem_of_singleton.
        specialize (I5' _ Hid). lia.
      + intros id [Hid| ->%list_elem_of_singleton]%elem_of_app; [specialize (I5' id Hid)|]; lia. }
  split; [done|congruence|lia| |done| |].
  - destruct S3 as (issued & Hp & Hi). rewrite completed_app, <- app_assoc, Hp, app_assoc, I4.
    destruct Hi as [[-> ->]|[-> ->]]; [by rewrite app_nil_r|].
    replace (S (next_id s) - 1)%nat with (next_id s - 1 + 1)%nat by lia. rewrite seq_app. cbn.
    by replace (S (next_id s - 1)) with (next_id s) by lia.
  - intros id. rewrite refused_app. intros [Hid|Hid]%elem_of_app; [specialize (I6 id Hid); lia|].
    destruct (S5 id Hid) as [Hs|[-> Hs]].
    + specialize (Hlt id ltac:(unfold pending; apply elem_of_app; by left)). lia.
    + destruct He as [He|[_ Hn']]; [rewrite He in Hs; by apply not_elem_of_nil in Hs|lia].
  - destruct I7 as (gone & Hg & Hd), S4 as (gone' & Hg' & Hd'). exists (gone ++ gone').
    rewrite refused_app, keep_app, List.filter_app, Hg.
    rewrite (keep_all (refused evs) (entering s op)).
    2:{ intros id Hid Hr. specialize (I6 id Hr). destruct He as [He|[He _]]; rewrite He in Hid;
          [by apply not_elem_of_nil in Hid|apply list_elem_of_singleton in Hid; lia]. }
    rewrite <- app_assoc, List.filter_app, Hg'. rewrite (keep_all (refused ev) gone).
    + rewrite app_assoc. split; [done|]. rewrite delivered_app, map_app, Hd, <- !app_assoc. by rewrite Hd'.
    + intros id Hid Hr.
      assert (Hin : NoDup (ids (gone ++ keyed (senders s)))) by (rewrite <- Hg; eapply sublist_NoDup; [exact I5|apply keep_ids]).
      rewrite ids_app, ids_keyed in Hin. apply NoDup_app in Hin as (_ & Hdis & _).
      destruct (S5 id Hr) as [Hs|[-> Hs]]; [by apply (Hdis id)|].
      assert (Hsub : ids gone ⊆ ids entered).
      { intros i Hi. eapply elem_of_submseteq; [|apply sublist_submseteq, (keep_ids (refused evs))]. rewrite Hg, ids_app, elem_of_app. by left. }
      specialize (I5' _ (Hsub _ Hid)). lia.
Qed.

Lemma channel_run_inv cap s entered evs : run cap s entered evs -> Inv cap s entered evs.
Proof.
  induction 1 as [|s entered evs op Hr IH]; [|by apply channel_step_inv].
  split; try done; cbn.
  - split; cbn; try done. lia.
  - split; [constructor|]. intros id Hid. by apply not_elem_of_nil in Hid.
  - intros id Hid. by apply not_elem_of_nil in Hid.
  - by exists [].
Qed.

(** the channel is a queue that loses, repeats and reorders nothing: the values delivered so far, then those in the buffer,
    then those of the waiting senders, are exactly the values that entered, in order, without the ones whose send
    was refused (cancelled, or the channel closed). *)
Theorem channel_fifo (cap : nat) (s : State) (entered : list (option nat * T)) (evs : list Event) :
  run cap s entered evs ->
  map snd (List.filter (keep (refused evs)) entered) = delivered evs ++ values s ++ map snd (senders s).
Proof.
  intros [_ _ _ _ _ _ (gone & -> & Hd)]%channel_run_inv. by rewrite map_app, snd_keyed, Hd, app_assoc.
Qed.

(** nobody waits who could be served: a receiver waits only when there is no value and no sender, a sender only when
    the buffer is full, nobody once the channel is closed, and the buffer never exceeds the capacity. *)
Theorem channel_no_lost_wakeup (cap : nat) (s : State) (entered : list (option nat * T)) (evs : list Event) :
  run cap s entered evs ->
  (receivers s <> [] -> values s = [] /\ senders s = []) /\
  (senders s <> [] -> length (values s) = cap) /\
  (closed s = true -> senders s = [] /\ receivers s = []) /\ (length (values s) <= cap)%nat.
Proof.
  intros [[H1 H2 H3 H4] Hc _ _ _ _ _]%channel_run_inv. subst cap. split_and!; auto. intros Hs. specialize (H2 Hs). lia.
Qed.

(** every send and every receive that waited is completed exactly once or still waits; no other completion occurs. *)
Theorem channel_completes_once (cap : nat) (s : State) (entered : list (option nat * T)) (evs : list Event) :
  run cap s entered evs -> completed evs ++ pending s ≡ₚ seq 1 (next_id s - 1).
Proof. by intros [_ _ _ Hi _ _ _]%channel_run_inv. Qed.
End Channel.

Module Demo.
(** A full channel of one: the second send waits until a value is taken. *)
Definition ops : list (@Op nat) := [op_send 7; op_send 8; op_try_receive; op_receive; op_close].
Fixpoint execute (s : @State nat) (ops : list (@Op nat)) : @State nat * list (@Event nat) :=
  match ops with
  | [] => (s, [])
  | op :: ops => let '(s', evs) := step s op in let '(s'', evs') := execute s' ops in (s'', evs ++ evs')
  end.
Example execute_ops : delivered (execute (create 1) ops).2 = [7; 8].
Proof. reflexivity. Qed.

Lemma run_two : run 1 (step (step (create 1) (op_send 7)).1 (op_send 8)).1 [(Some 1, 7); (Some 2, 8)] [send_complete 1 (Ok tt)].
Proof. exact (run_step 1 _ _ _ (op_send 8) (run_step 1 _ _ _ (op_send 7) (run_create 1))). Qed.

Lemma channel_fifo_witness : map snd [(Some 1, 7); (Some 2, 8)] = @delivered nat [send_complete 1 (Ok tt)] ++ [7] ++ map snd [(2, 8)].
Proof. exact (channel_fifo 1 _ _ _ run_two). Defined.
Lemma channel_no_lost_wakeup_witness :
  (@nil nat <> [] -> [7] = [] /\ [(2, 8)] = []) /\ ([(2, 8)] <> [] -> length [7] = 1) /\
  (false = true -> [(2, 8)] = [] /\ @nil nat = []) /\ length [7] <= 1.
Proof. exact (channel_no_lost_wakeup 1 _ _ _ run_two). Defined.
Lemma channel_completes_once_witness : @completed nat [send_complete 1 (Ok tt)] ++ [2] ≡ₚ seq 1 2.
Proof. exact (channel_completes_once 1 _ _ _ run_two). Defined.
End Demo.
