(* ===== verification/TaskGroup.v ===== *)
(** * oran-async: task groups

    Models [async::TaskGroup] ([src/oran-async/task_group.cpp]) on top of the channel of
    [AsyncChannel.v], which it uses as its completion signal.  Each method takes the
    group's mutex once and is one step; [finish] gives the mutex back before it signals,
    so it is two.  A child is any task: it ends however and whenever it likes.  The
    spawned coroutine frame and the cancellation signals are asio's: a signal is the
    number of the child it was emitted to. *)
From stdpp Require Import sorting.
From S2P Require Import Prelude Core AsyncChannel.

(** ** Data *)
Inductive TaskOutcomeStatus := succeeded | failed | cancelled | lagging.
#[global] Instance outcome_status_eq_dec : EqDecision TaskOutcomeStatus. Proof. solve_decision. Defined.
Record TaskOutcome := mkOutcome { out_name : string; out_status : TaskOutcomeStatus; out_error : option Error }.
Record TaskGroupOptions := mkGroupOptions { max_tasks : nat; max_completed : nat }.
Record TaskGroupReport := mkReport { tasks : list TaskOutcome; outcomes_dropped : nat }.
Record ChildRecord := mkChild { sequence : nat; child_name : string }.
Record CompletedRecord := mkCompleted { done_sequence : nat; done_outcome : TaskOutcome }.
#[global] Instance child_eq_dec : EqDecision ChildRecord. Proof. solve_decision. Defined.

(** [TaskGroup::Impl]. *)
Record Group := mkGroup {
  options : TaskGroupOptions; completion : @State unit; active : list ChildRecord;
  done : list CompletedRecord; next_sequence : nat; completed_dropped : nat;
  group_closed : bool; stop_requested : bool; join_started : bool }.

Definition failed_outcome (name : string) (e : Error) : TaskOutcome :=
  mkOutcome name (if decide (err_kind e = ek_cancelled) then cancelled else failed) (Some e).

(** How a task ends, and the outcome [run_child] gives it. *)
Inductive TaskEnd :=
  | returned (r : Result unit) | aborted | threw_asio (what message : string) | threw (what : string) | threw_unknown.
Definition child_outcome (name : string) (e : TaskEnd) : TaskOutcome :=
  match e with
  | returned (Ok _) => mkOutcome name succeeded None
  | returned (Err e) => failed_outcome name e
  | aborted => failed_outcome name Errors.cancelled
  | threw_asio what message => failed_outcome name
      (Errors.with_ctx (Errors.with_ctx (Errors.internal "task group child threw asio error") "reason" what) "asio_error" message)
  | threw what => failed_outcome name (Errors.with_ctx (Errors.internal "task group child threw") "reason" what)
  | threw_unknown => failed_outcome name (Errors.with_ctx (Errors.internal "task group child threw") "reason" "unknown")
  end.

(** ** Operations *)
Definition create_group (o : TaskGroupOptions) : Result Group :=
  fail? bool_decide (max_tasks o = 0) with Errors.invalid_argument "task group max_tasks must be positive";
  fail? bool_decide (max_completed o = 0) with Errors.invalid_argument "task group max_completed must be positive";
  Ok (mkGroup o (create 1) [] [] 0 0 false false false).

Definition set_active (g : Group) (a : list ChildRecord) (next : nat) : Group :=
  mkGroup (options g) (completion g) a (done g) next (completed_dropped g) (group_closed g) (stop_requested g) (join_started g).
Definition set_done (g : Group) (a : list ChildRecord) (d : list CompletedRecord) (dropped : nat) : Group :=
  mkGroup (options g) (completion g) a d (next_sequence g) dropped (group_closed g) (stop_requested g) (join_started g).
Definition set_completion (g : Group) (c : @State unit) : Group :=
  mkGroup (options g) c (active g) (done g) (next_sequence g) (completed_dropped g) (group_closed g) (stop_requested g) (join_started g).
Definition set_flags (g : Group) (c s j : bool) : Group :=
  mkGroup (options g) (completion g) (active g) (done g) (next_sequence g) (completed_dropped g) c s j.

(** [Impl::spawn], up to the start of the child's coroutine. *)
Definition spawn (g : Group) (name : string) (has_task : bool) : Result ChildRecord * Group :=
  if decide (name = ""%string) then (Err (Errors.invalid_argument "task group child name must be non-empty"), g)
  else if negb has_task then (Err (Errors.invalid_argument "task group child task is empty"), g)
  else if group_closed g then (Err (Errors.mk ek_conflict "task group is closed"), g)
  else if max_tasks (options g) <=? length (active g) then
    (Err (Errors.with_ctx (Errors.mk ek_mailbox_overflowed "task group capacity reached")
       "max_tasks" (pretty (max_tasks (options g)))), g)
  else
    let child := mkChild (next_sequence g) name in
    (Ok child, set_active g (active g ++ [child]) (S (next_sequence g))).

Definition close_group (g : Group) : Group := set_flags g true (stop_requested g) (join_started g).

(** [request_stop]; the children whose signals it emits. *)
Definition request_stop (g : Group) : Group * list nat :=
  if stop_requested g then (set_flags g true true (join_started g), [])
  else (set_flags g true true (join_started g), map sequence (active g)).

Definition begin_join (g : Group) : Result unit * Group :=
  (if join_started g then Err (Errors.mk ek_conflict "task group join already started") else Ok tt,
   set_flags g true (stop_requested g) true).

(** [finish] under the mutex: the new state, and whether the signal follows. *)
Fixpoint erase_child (c : ChildRecord) (l : list ChildRecord) : option (list ChildRecord) :=
  match l with
  | [] => None
  | x :: l => if decide (x = c) then Some l else cons x <$> erase_child c l
  end.
Definition finish (g : Group) (c : ChildRecord) (o : TaskOutcome) : Group * bool :=
  match erase_child c (active g) with
  | None => (g, false)
  | Some rest =>
      let '(kept, dropped) :=
        if decide (length (done g) = max_completed (options g)) then (List.tl (done g), S (completed_dropped g))
        else (done g, completed_dropped g) in
      (set_done g rest (kept ++ [mkCompleted (sequence c) o]) dropped, true)
  end.
(** [completion.try_send]; the waiter it completes. *)
Definition signal (g : Group) : Group * list (@Event unit) :=
  let '(_, c, evs) := try_send (completion g) tt in (set_completion g c, evs).

(** *** Reports *)
Definition by_sequence (a b : CompletedRecord) : Prop := done_sequence a <= done_sequence b.
#[global] Instance by_sequence_dec a b : Decision (by_sequence a b).
Proof. unfold by_sequence. solve_decision. Defined.
Definition by_child (a b : ChildRecord) : Prop := sequence a <= sequence b.
#[global] Instance by_child_dec a b : Decision (by_child a b).
Proof. unfold by_child. solve_decision. Defined.

Definition drain_completed (g : Group) : TaskGroupReport * Group :=
  (mkReport (map done_outcome (merge_sort by_sequence (done g))) (completed_dropped g), set_done g (active g) [] 0).

(** The merge of [timed_join_report]; [fuel] is the number of rows. *)
Fixpoint merge_rows (fuel : nat) (ds : list CompletedRecord) (as_ : list ChildRecord) : list (nat * TaskOutcome) :=
  match fuel with
  | O => []
  | S fuel =>
      match ds, as_ with
      | [], [] => []
      | d :: ds', [] => (done_sequence d, done_outcome d) :: merge_rows fuel ds' []
      | [], a :: as' => (sequence a, mkOutcome (child_name a) lagging None) :: merge_rows fuel [] as'
      | d :: ds', a :: as' =>
          if done_sequence d <? sequence a then (done_sequence d, done_outcome d) :: merge_rows fuel ds' as_
          else (sequence a, mkOutcome (child_name a) lagging None) :: merge_rows fuel ds as'
      end
  end.
Definition timed_rows (g : Group) : list (nat * TaskOutcome) :=
  merge_rows (length (done g) + length (active g)) (merge_sort by_sequence (done g)) (merge_sort by_child (active g)).
Definition timed_join_report (g : Group) : TaskGroupReport * Group :=
  (mkReport (map snd (timed_rows g)) (completed_dropped g), set_done g (active g) [] 0).

Definition count_status (st : TaskOutcomeStatus) (r : TaskGroupReport) : nat :=
  length (List.filter (fun o => bool_decide (out_status o = st)) (tasks r)).
Definition all_succeeded (r : TaskGroupReport) : bool :=
  (outcomes_dropped r =? 0) && (count_status failed r =? 0) && (count_status cancelled r =? 0) && (count_status lagging r =? 0).

(** ** The group in motion *)
(** Where the one join that was admitted stands. *)
Inductive JoinPhase :=
  | join_idle | join_checking | join_receiving | join_waiting (id : nat) | join_woken (r : Result unit)
  | join_done (r : TaskGroupReport).

(** The group, its join, the [finish] calls that have not signalled yet; and, for the
    statements, the children reported, evicted and signalled so far. *)
Record System := mkSystem {
  group : Group; phase : JoinPhase; timed : bool; cancellable : bool; signalling : nat;
  reported : list nat; evicted : list nat; signalled : list nat }.

(** A completion of the channel resumes the join that waits for it. *)
Fixpoint deliver (evs : list (@Event unit)) (p : JoinPhase) : JoinPhase :=
  match evs, p with
  | receive_complete id r :: evs', join_waiting w => if (id =? w)%nat then join_woken r else deliver evs' p
  | _ :: evs', _ => deliver evs' p
  | [], _ => p
  end.

Definition with_group (s : System) (g : Group) : System :=
  mkSystem g (phase s) (timed s) (cancellable s) (signalling s) (reported s) (evicted s) (signalled s).
Definition with_phase (s : System) (g : Group) (p : JoinPhase) : System :=
  mkSystem g p (timed s) (cancellable s) (signalling s) (reported s) (evicted s) (signalled s).
Definition stop (s : System) : System :=
  let '(g, ids) := request_stop (group s) in
  mkSystem g (phase s) (timed s) (cancellable s) (signalling s) (reported s) (evicted s) (signalled s ++ ids).
Definition report_done (s : System) (g : Group) (p : JoinPhase) : System :=
  mkSystem g p (timed s) (cancellable s) (signalling s) (reported s ++ map done_sequence (done (group s))) (evicted s) (signalled s).

(** A child ends: [run_child] records its outcome, and signals later. *)
Definition end_child (s : System) (c : ChildRecord) (e : TaskEnd) : System :=
  let g := group s in
  let '(g', signals) := finish g c (child_outcome (child_name c) e) in
  if signals then
    mkSystem g' (phase s) (timed s) (cancellable s) (S (signalling s)) (reported s)
      (evicted s ++ if decide (length (done g) = max_completed (options g))
                    then map done_sequence (take 1 (done g)) else []) (signalled s)
  else s.
Definition signal_one (s : System) : System :=
  match signalling s with
  | O => s
  | S n =>
      let '(g, evs) := signal (group s) in
      mkSystem g (deliver evs (phase s)) (timed s) (cancellable s) n (reported s) (evicted s) (signalled s)
  end.

(** The join: [active_tasks], [completion.receive], and what follows each. *)
Definition check_active (s : System) : System :=
  match active (group s) with
  | [] => let '(r, g) := drain_completed (group s) in report_done s g (join_done r)
  | _ => with_phase s (group s) join_receiving
  end.
Definition receive_signal (s : System) : System :=
  let '(c, evs) := async_receive (completion (group s)) in
  with_phase s (set_completion (group s) c) (deliver evs (join_waiting (next_id (completion (group s))))).
(** A failed receive: stop the children, and no longer let the join be cancelled. *)
Definition join_interrupted (s : System) : System :=
  let s := stop s in mkSystem (group s) join_checking (timed s) false (signalling s) (reported s) (evicted s) (signalled s).
(** The operand of the race that lost is cancelled. *)
Definition give_up_receive (s : System) : System :=
  match phase s with
  | join_waiting id => with_group s (set_completion (group s) (cancel_receive (completion (group s)) id).1)
  | _ => s
  end.
(** The deadline: stop and report the rest as lagging, or drain. *)
Definition join_expired (s : System) : System :=
  let s := give_up_receive s in
  match active (group s) with
  | [] => let '(r, g) := drain_completed (group s) in report_done s g (join_done r)
  | _ => let s := stop s in let '(r, g) := timed_join_report (group s) in report_done s g (join_done r)
  end.

Inductive sys_step : System -> System -> Prop :=
  | st_spawn s name has_task : sys_step s (with_group s (spawn (group s) name has_task).2)
  | st_close s : sys_step s (with_group s (close_group (group s)))
  | st_stop s : sys_step s (stop s)
  | st_finish s c e : c ∈ active (group s) -> sys_step s (end_child s c e)
  | st_signal s : sys_step s (signal_one s)
  | st_drain s : sys_step s (report_done s (drain_completed (group s)).2 (phase s))
  | st_join s timed : phase s = join_idle -> (begin_join (group s)).1 = Ok tt ->
      sys_step s (mkSystem (begin_join (group s)).2 join_checking timed true (signalling s) (reported s) (evicted s) (signalled s))
  | st_join_refused s : (begin_join (group s)).1 <> Ok tt -> sys_step s (with_group s (begin_join (group s)).2)
  | st_check s : phase s = join_checking -> sys_step s (check_active s)
  | st_receive s : phase s = join_receiving -> sys_step s (receive_signal s)
  | st_receive_cancelled s : phase s = join_receiving -> cancellable s = true -> sys_step s (join_interrupted s)
  | st_cancelled s id : phase s = join_waiting id -> cancellable s = true -> sys_step s (join_interrupted (give_up_receive s))
  | st_woken s : phase s = join_woken (Ok tt) -> sys_step s (with_phase s (group s) join_checking)
  | st_woken_error s e : phase s = join_woken (Err e) -> sys_step s (join_interrupted s)
  | st_deadline_passed s : phase s = join_checking -> timed s = true -> active (group s) <> [] -> sys_step s (join_expired s)
  | st_deadline s : (exists id, phase s = join_waiting id) \/ (exists r, phase s = join_woken r) -> timed s = true ->
      sys_step s (join_expired s)
  | st_sleep_cancelled s : (exists id, phase s = join_waiting id) \/ (exists r, phase s = join_woken r) -> timed s = true ->
      cancellable s = true -> sys_step s (join_interrupted (give_up_receive s)).

Definition system_of (g : Group) : System := mkSystem g join_idle false true 0 [] [] [].
Inductive reachable (o : TaskGroupOptions) : System -> Prop :=
  | reach_create g : create_group o = Ok g -> reachable o (system_of g)
  | reach_step s s' : reachable o s -> sys_step s s' -> reachable o s'.

(** ** Invariant *)
(** The completion channel holds at most one signal, and only the join receives from it. *)
Record Mailbox (c : @State unit) (rs : list nat) : Prop := {
  mb_capacity : capacity c = 1; mb_closed : closed c = false; mb_senders : senders c = [];
  mb_receivers : receivers c = rs; mb_values : values c = [] \/ (values c = [tt] /\ rs = []) }.
Definition waits (p : JoinPhase) : list nat := match p with join_waiting id => [id] | _ => [] end.

Lemma mailbox_send c rs : Mailbox c rs -> length rs <= 1 ->
  exists r c' evs, try_send c tt = (r, c', evs) /\ Mailbox c' [] /\
    match rs with [] => evs = [] /\ values c' = [tt] | id :: _ => evs = [receive_complete id (Ok tt)] end.
Proof.
  destruct c as [cap cl n vs ss rs']. intros [H1 H2 H3 H4 H5] Hl. cbn in *. subst.
  destruct H5 as [-> |[-> ->]]; [destruct rs as [|id [|]]; [..|cbn in Hl; lia]|]; cbn; eexists _, _, _;
    (split; [done|]); (split; [by split; auto|done]).
Qed.

Lemma mailbox_receive c : Mailbox c [] ->
  (exists c', async_receive c = (c', [receive_complete (next_id c) (Ok tt)]) /\ Mailbox c' []) \/
  (values c = [] /\ exists c', async_receive c = (c', []) /\ Mailbox c' [next_id c]).
Proof.
  destruct c as [cap cl n vs ss rs']. intros [H1 H2 H3 H4 H5]. cbn in *. subst.
  destruct H5 as [-> |[-> _]]; cbn; [right; split; [done|]|left]; eexists; (split; [done|]); by split; auto.
Qed.

Lemma mailbox_cancel c id : Mailbox c [id] -> Mailbox (cancel_receive c id).1 [].
Proof.
  destruct c as [cap cl n vs ss rs']. intros [H1 H2 H3 H4 H5]. cbn in *. subst. unfold cancel_receive. cbn.
  rewrite Nat.eqb_refl. cbn. split; cbn; auto. destruct H5 as [->|[_ ?]]; [by left|done].
Qed.

Record GroupInv (o : TaskGroupOptions) (s : System) : Prop := {
  gi_options : options (group s) = o;
  gi_positive : 0 < max_tasks o /\ 0 < max_completed o;
  gi_active : length (active (group s)) <= max_tasks o;
  gi_done : length (done (group s)) <= max_completed o;
  gi_mailbox : Mailbox (completion (group s)) (waits (phase s));
  gi_children : map sequence (active (group s)) ++ map done_sequence (done (group s)) ++ reported s ++ evicted s ≡ₚ
      seq 0 (next_sequence (group s));
  gi_closed : (stop_requested (group s) = true -> group_closed (group s) = true) /\
      (join_started (group s) = true -> group_closed (group s) = true) /\
      (phase s <> join_idle -> join_started (group s) = true);
  gi_wakes : match phase s with
    | join_waiting _ => active (group s) <> [] \/ 0 < signalling s
    | join_receiving => active (group s) <> [] \/ 0 < signalling s \/ values (completion (group s)) <> []
    | join_done _ => timed s = true \/ active (group s) = []
    | _ => True
    end;
  gi_stopped : stop_requested (group s) = true -> forall c, c ∈ active (group s) -> sequence c ∈ signalled s }.

Lemma erase_child_spec c l :
  match erase_child c l with
  | Some l' => exists a b, l = a ++ c :: b /\ l' = a ++ b
  | None => c ∉ l
  end.
Proof.
  induction l as [|x l IH]; cbn [erase_child]; [apply not_elem_of_nil|]. destruct (decide (x = c)) as [->|Hx].
  - by exists [], l.
  - destruct (erase_child c l) as [l'|]; cbn.
    + destruct IH as (a & b & -> & ->). by exists (x :: a), b.
    + rewrite not_elem_of_cons. split; [congruence|done].
Qed.

Section Preserved.
Context (o : TaskGroupOptions).

Lemma inv_spawn s name has_task : GroupInv o s -> GroupInv o (with_group s (spawn (group s) name has_task).2).
Proof.
  intros HI. pose proof HI as [I1 I2 I3 I4 I5 I6 I7 I8 I9]. unfold spawn. destruct s as [g p t c n rep ev sg]. cbn in *.
  destruct (decide (name = ""%string)); [done|]. destruct has_task; [|done]. cbn. destruct (group_closed g) eqn:Ec; [done|].
  destruct (Nat.leb_spec (max_tasks (options g)) (length (active g))) as [|Hlt]; [done|]. subst o.
  destruct I7 as (J1 & J2 & J3). split; cbn; auto.
  - rewrite length_app. cbn. lia.
  - rewrite map_app. cbn. rewrite <- app_assoc. cbn.
    change (0 :: seq 1 (next_sequence g)) with (seq 0 (S (next_sequence g))). rewrite seq_S, <- I6. solve_Permutation.
  - exact (gi_closed _ _ HI).
  - destruct p; auto.
    + destruct I8 as [?|?]; [left; by destruct (active g)|by right].
    + destruct I8 as [?|?]; [left; by destruct (active g)|by right].
    + specialize (J2 (J3 ltac:(done))). congruence.
  - intros Hs. specialize (J1 Hs). congruence.
Qed.

Lemma inv_close s : GroupInv o s -> GroupInv o (with_group s (close_group (group s))).
Proof. intros [I1 I2 I3 I4 I5 I6 I7 I8 I9]. split; cbn; auto. destruct I7 as (? & ? & ?). by split_and!. Qed.

Lemma inv_stop s : GroupInv o s -> GroupInv o (stop s).
Proof.
  intros [I1 I2 I3 I4 I5 I6 (J1 & J2 & J3) I8 I9]. unfold stop, request_stop. destruct (stop_requested (group s)) eqn:Es; split; cbn; auto.
  - intros _ c Hc. apply elem_of_app. left. by apply I9.
  - intros _ c Hc. apply elem_of_app. right. by apply list_elem_of_fmap_2.
Qed.

Lemma inv_end s c e : GroupInv o s -> GroupInv o (end_child s c e).
Proof.
  intros HI. pose proof HI as [I1 I2 I3 I4 I5 I6 I7 I8 I9]. unfold end_child, finish.
  pose proof (erase_child_spec c (active (group s))) as He. destruct (erase_child c (active (group s))) as [rest|]; [|done].
  destruct He as (a & b & Ha & ->). rewrite I1.
  assert (Hact : length (a ++ b) <= max_tasks o) by (rewrite Ha in I3; rewrite !length_app in *; cbn in *; lia).
  assert (Hst : stop_requested (group s) = true -> forall c0, c0 ∈ a ++ b -> sequence c0 ∈ signalled s).
  { intros Hs c0 Hc. apply (I9 Hs). rewrite Ha. rewrite elem_of_app, elem_of_cons. apply elem_of_app in Hc. tauto. }
  assert (Hw : match phase s with
    | join_waiting _ => a ++ b <> [] \/ 0 < S (signalling s)
    | join_receiving => a ++ b <> [] \/ 0 < S (signalling s) \/ values (completion (group s)) <> []
    | join_done _ => timed s = true \/ a ++ b = []
    | _ => True end).
  { destruct (phase s); auto; try (right; lia); try (right; left; lia).
    destruct I8 as [?|Hn]; [by left|]. rewrite Ha in Hn. by destruct a. }
  destruct (decide (length (done (group s)) = max_completed o)) as [Hfull|Hfull]; split; cbn; auto.
  - rewrite length_app. destruct (done (group s)); cbn in *; lia.
  - rewrite <- I6, Ha, !map_app. destruct (done (group s)) as [|d ds]; [cbn in *; lia|]. cbn. rewrite take_0. cbn. solve_Permutation.
  - rewrite length_app. cbn. lia.
  - rewrite <- I6, Ha, !map_app, app_nil_r. cbn. solve_Permutation.
Qed.

Lemma inv_signal s : GroupInv o s -> GroupInv o (signal_one s).
Proof.
  intros HI. pose proof HI as [I1 I2 I3 I4 I5 I6 I7 I8 I9]. unfold signal_one, signal. destruct (signalling s) as [|n] eqn:En; [done|].
  destruct (mailbox_send _ _ I5) as (r & c' & evs & -> & Hm & Hev); [by destruct (phase s); cbn; lia|].
  destruct (phase s) as [| | |id|r'|r'] eqn:Ep; cbn in *; try (destruct Hev as [-> Hv]; split; cbn; auto; done).
  - destruct Hev as [-> Hv]. split; cbn; auto. right. right. by rewrite Hv.
  - subst evs. cbn. rewrite Nat.eqb_refl. split; cbn; auto. destruct I7 as (? & ? & J3). split_and!; auto.
Qed.

(** A drain, or the report at the end of a join, hands over what is completed. *)
Lemma inv_report s p :
  GroupInv o s -> waits p = waits (phase s) -> (p <> join_idle -> join_started (group s) = true) ->
  match p with
  | join_waiting _ => active (group s) <> [] \/ 0 < signalling s
  | join_receiving => active (group s) <> [] \/ 0 < signalling s \/ values (completion (group s)) <> []
  | join_done _ => timed s = true \/ active (group s) = []
  | _ => True
  end -> GroupInv o (report_done s (set_done (group s) (active (group s)) [] 0) p).
Proof.
  intros [I1 I2 I3 I4 I5 I6 (J1 & J2 & J3) I8 I9] Hw Hp Hk. split; cbn; auto; [lia|by rewrite Hw|].
  rewrite <- I6. solve_Permutation.
Qed.

Lemma inv_begin s b :
  GroupInv o s -> phase s = join_idle ->
  GroupInv o (mkSystem (begin_join (group s)).2 join_checking b true (signalling s) (reported s) (evicted s) (signalled s)).
Proof.
  intros [I1 I2 I3 I4 I5 I6 (J1 & J2 & J3) I8 I9] Hp. split; cbn; auto. by rewrite Hp in I5.
Qed.

Lemma inv_refused s : GroupInv o s -> (begin_join (group s)).1 <> Ok tt -> GroupInv o (with_group s (begin_join (group s)).2).
Proof. intros [I1 I2 I3 I4 I5 I6 (J1 & J2 & J3) I8 I9] _. split; cbn; auto. Qed.

Lemma inv_check s : GroupInv o s -> phase s = join_checking -> GroupInv o (check_active s).
Proof.
  intros HI Hp. unfold check_active. destruct (active (group s)) as [|c cs] eqn:Ea.
  - cbn. apply inv_report; [done|by rewrite Hp| |cbn; auto].
    intros _. apply (gi_closed _ _ HI). by rewrite Hp.
  - destruct HI as [I1 I2 I3 I4 I5 I6 (J1 & J2 & J3) I8 I9]. split; cbn; auto.
    + by rewrite Hp in I5.
    + split_and!; auto. intros _. apply J3. by rewrite Hp.
    + left. by rewrite Ea.
Qed.

Lemma inv_receive s : GroupInv o s -> phase s = join_receiving -> GroupInv o (receive_signal s).
Proof.
  intros [I1 I2 I3 I4 I5 I6 (J1 & J2 & J3) I8 I9] Hp. rewrite Hp in *. cbn in I5.
  assert (Hj : join_started (group s) = true) by (by apply J3). unfold receive_signal.
  destruct (mailbox_receive _ I5) as [(c' & -> & Hm)|(Hv & c' & -> & Hm)]; cbn.
  - rewrite Nat.eqb_refl. split; cbn; auto.
  - split; cbn; auto. destruct I8 as [?|[?|?]]; [by left|by right|done].
Qed.

Lemma inv_give_up s : GroupInv o s -> GroupInv o (with_phase (give_up_receive s) (group (give_up_receive s))
  (match phase s with join_waiting _ => join_checking | p => p end)).
Proof.
  intros [I1 I2 I3 I4 I5 I6 (J1 & J2 & J3) I8 I9]. unfold give_up_receive. destruct (phase s) as [| | |id|r|r] eqn:Ep; cbn in *.
  1,2,3,5,6: split; cbn; auto; by rewrite ?Ep.
  split; cbn; auto. by apply mailbox_cancel.
Qed.

Lemma inv_interrupted s : GroupInv o s -> waits (phase s) = [] -> phase s <> join_idle -> GroupInv o (join_interrupted s).
Proof.
  intros HI Hw Hp. apply inv_stop in HI. assert (Hs : phase (stop s) = phase s) by (unfold stop; by destruct (request_stop _)).
  destruct HI as [I1 I2 I3 I4 I5 I6 (J1 & J2 & J3) I8 I9]. unfold join_interrupted. rewrite Hs in *. split; cbn; auto.
  by rewrite Hw in I5.
Qed.

(** Giving up the receive, seen as a join that is back at its check. *)
Definition at_check (s : System) : System :=
  with_phase (give_up_receive s) (group (give_up_receive s)) (match phase s with join_waiting _ => join_checking | p => p end).

Lemma interrupted_at_check s : join_interrupted (give_up_receive s) = join_interrupted (at_check s).
Proof. unfold at_check, join_interrupted, stop, with_phase. cbn. unfold give_up_receive. by destruct (phase s); cbn; destruct (request_stop _). Qed.

Lemma expired_at_check s : join_expired s = join_expired (at_check s).
Proof.
  unfold join_expired. assert (H : give_up_receive (at_check s) = at_check s).
  { unfold at_check, give_up_receive. destruct s as [g p t c n rep ev sg]. by destruct p. }
  rewrite H. assert (Hg : group (at_check s) = group (give_up_receive s)) by done. rewrite Hg.
  unfold stop, report_done, at_check, with_phase, give_up_receive.
  destruct s as [g p t c n rep ev sg]. destruct p; cbn; destruct (active g); try done; by destruct (request_stop _).
Qed.

Lemma inv_expired s : GroupInv o s -> phase s <> join_idle -> timed s = true -> GroupInv o (join_expired s).
Proof.
  intros HI Hp Ht. rewrite expired_at_check. pose proof (inv_give_up s HI) as HI'. fold (at_check s) in HI'.
  assert (Hw : waits (phase (at_check s)) = []) by (unfold at_check; cbn; by destruct (phase s)).
  assert (Hp' : phase (at_check s) <> join_idle) by (unfold at_check; cbn; by destruct (phase s)).
  assert (Ht' : timed (at_check s) = true).
  { unfold at_check, with_phase, give_up_receive. cbn. by destruct (phase s). }
  assert (Hgu : give_up_receive (at_check s) = at_check s).
  { unfold at_check, give_up_receive. destruct s as [g p t c n rep ev sg]. by destruct p. }
  set (s1 := at_check s) in *. unfold join_expired. rewrite Hgu. destruct (active (group s1)) as [|c cs] eqn:Ea.
  - unfold drain_completed. apply (inv_report s1); [done|by rewrite Hw| |cbn; auto]. intros _. by apply (gi_closed _ _ HI').
  - pose proof (inv_stop s1 HI') as Hs. assert (Hps : phase (stop s1) = phase s1) by (unfold stop; by destruct (request_stop _)).
    assert (Hts : timed (stop s1) = timed s1) by (unfold stop; by destruct (request_stop _)).
    unfold timed_join_report. apply (inv_report (stop s1)); [done|by rewrite Hps, Hw| |cbn; left; by rewrite Hts]. intros _.
    apply (gi_closed _ _ Hs). by rewrite Hps.
Qed.
End Preserved.

Lemma group_reachable_inv o s : reachable o s -> GroupInv o s.
Proof.
  induction 1 as [g Hg|s s' Hr IH Hs].
  - unfold create_group in Hg. ok_inv. subst g. bool_prop. split; cbn; auto; try lia; by split; cbn; auto.
  - destruct Hs as [s name has|s|s|s c e Hc|s|s|s b Hp Hb|s Hb|s Hp|s Hp|s Hp Hc|s id Hp Hc|s Hp|s e Hp|s Hp Ht Ha|s Hp Ht|s Hp Ht Hc].
    + by apply inv_spawn.
    + by apply inv_close.
    + by apply inv_stop.
    + by apply inv_end.
    + by apply inv_signal.
    + cbn. apply inv_report; [done|done|by apply (gi_closed _ _ IH)|apply (gi_wakes _ _ IH)].
    + by apply inv_begin.
    + by apply inv_refused.
    + by apply inv_check.
    + by apply inv_receive.
    + apply inv_interrupted; [done|by rewrite Hp..].
    + rewrite interrupted_at_check. apply inv_interrupted; [by apply inv_give_up|unfold at_check; cbn; by rewrite Hp..].
    + destruct IH as [I1 I2 I3 I4 I5 I6 (J1 & J2 & J3) I8 I9]. rewrite Hp in *. split; cbn; auto.
    + apply inv_interrupted; [done|by rewrite Hp..].
    + apply inv_expired; [done|by rewrite Hp|done].
    + apply inv_expired; [done| |done]. by destruct Hp as [[? ->]|[? ->]].
    + rewrite interrupted_at_check. apply inv_interrupted; [by apply inv_give_up|..]; unfold at_check; cbn;
        by destruct Hp as [[? ->]|[? ->]].
Qed.

(** ** Reports *)
Definition done_row (d : CompletedRecord) : nat * TaskOutcome := (done_sequence d, done_outcome d).
Definition lagging_row (a : ChildRecord) : nat * TaskOutcome := (sequence a, mkOutcome (child_name a) lagging None).
Definition in_order (rows : list (nat * TaskOutcome)) : Prop := StronglySorted le (map fst rows).

#[export] Instance by_sequence_total : Total by_sequence. Proof. intros a b. unfold by_sequence. lia. Qed.
#[export] Instance by_sequence_trans : Transitive by_sequence. Proof. intros a b c. unfold by_sequence. lia. Qed.
#[export] Instance by_child_total : Total by_child. Proof. intros a b. unfold by_child. lia. Qed.
#[export] Instance by_child_trans : Transitive by_child. Proof. intros a b c. unfold by_child. lia. Qed.

Lemma merge_rows_perm fuel : forall ds as_, length ds + length as_ <= fuel ->
  merge_rows fuel ds as_ ≡ₚ map done_row ds ++ map lagging_row as_.
Proof.
  induction fuel as [|fuel IH]; intros ds as_ Hl; cbn [merge_rows]; [by destruct ds, as_; cbn in Hl; try lia|].
  destruct ds as [|d ds], as_ as [|a as_]; cbn in Hl; [done|..].
  - rewrite IH by (cbn; lia). done.
  - rewrite IH by (cbn; lia). done.
  - destruct (done_sequence d <? sequence a); rewrite IH by (cbn; lia); cbn; [done|]. solve_Permutation.
Qed.

Lemma merge_rows_sorted fuel : forall ds as_, length ds + length as_ <= fuel ->
  StronglySorted by_sequence ds -> StronglySorted by_child as_ -> in_order (merge_rows fuel ds as_).
Proof.
  induction fuel as [|fuel IH]; intros ds as_ Hl Hd Ha; cbn [merge_rows]; [constructor|].
  assert (Hle : forall n ds' as', length ds' + length as' <= fuel -> Forall (fun d => n <= done_sequence d) ds' ->
      Forall (fun a => n <= sequence a) as' -> Forall (le n) (map fst (merge_rows fuel ds' as'))).
  { intros n ds' as' Hl' H1 H2. rewrite (merge_rows_perm fuel ds' as' Hl'). rewrite map_app, !map_map.
    apply Forall_app. split; apply Forall_fmap; [exact H1|exact H2]. }
  destruct ds as [|d ds], as_ as [|a as_]; cbn in Hl; [constructor|..].
  - apply StronglySorted_inv in Ha as [Ha Hf]. unfold in_order. cbn. constructor.
    + apply IH; [cbn; lia|constructor|done].
    + apply Hle; [cbn; lia|constructor|done].
  - apply StronglySorted_inv in Hd as [Hd Hf]. unfold in_order. cbn. constructor.
    + apply IH; [cbn; lia|done|constructor].
    + apply Hle; [cbn; lia|done|constructor].
  - apply StronglySorted_inv in Ha as [Ha Hfa], Hd as [Hd Hfd]. destruct (Nat.ltb_spec (done_sequence d) (sequence a)); unfold in_order; cbn; constructor.
    + apply IH; [cbn; lia|done|by constructor].
    + apply Hle; [cbn; lia|done|]. constructor; [lia|]. eapply Forall_impl; [exact Hfa|]. unfold by_child. intros; lia.
    + apply IH; [cbn; lia|by constructor|done].
    + apply Hle; [cbn; lia| |done]. constructor; [lia|]. eapply Forall_impl; [exact Hfd|]. unfold by_sequence. intros; lia.
Qed.

(** ** Theorems *)
(** the report of a join that ran out of time has one row for every child that completed and one, marked lagging, for
    every child that still runs, in the order they were spawned. *)
Theorem timed_join_report_spec (g : Group) :
  exists rows, tasks (timed_join_report g).1 = map snd rows /\ in_order rows /\
    rows ≡ₚ map done_row (done g) ++ map lagging_row (active g) /\ done (timed_join_report g).2 = [] /\
    active (timed_join_report g).2 = active g.
Proof.
  exists (timed_rows g). split; [done|]. unfold timed_rows.
  pose proof (merge_sort_Permutation by_sequence (done g)) as Hd. pose proof (merge_sort_Permutation by_child (active g)) as Ha.
  split_and!; [|..|done|done].
  - apply merge_rows_sorted; [by rewrite Hd, Ha|apply StronglySorted_merge_sort; apply _|apply StronglySorted_merge_sort; apply _].
  - rewrite merge_rows_perm by (by rewrite Hd, Ha). by rewrite Hd, Ha.
Qed.

(** every child that was ever spawned is at all times in exactly one place: running, completed and kept, handed out in a
    report, or evicted from the bounded queue; and neither the children nor the kept outcomes exceed their bound. *)
Theorem group_accounts_for_children (o : TaskGroupOptions) (s : System) :
  reachable o s ->
  map sequence (active (group s)) ++ map done_sequence (done (group s)) ++ reported s ++ evicted s ≡ₚ
    seq 0 (next_sequence (group s)) /\
  length (active (group s)) <= max_tasks o /\ length (done (group s)) <= max_completed o.
Proof. by intros [I1 I2 I3 I4 I5 I6 I7 I8 I9]%group_reachable_inv. Qed.

(** a waiting join is never forgotten: while it waits, a child still runs or a signal is on its way to it, and the next
    signal resumes it; this holds although a child gives up its place before it signals. *)
Theorem group_join_never_stalls (o : TaskGroupOptions) (s : System) (id : nat) :
  reachable o s -> phase s = join_waiting id ->
  (active (group s) <> [] \/ 0 < signalling s) /\
  (0 < signalling s -> phase (signal_one s) = join_woken (Ok tt)).
Proof.
  intros [I1 I2 I3 I4 I5 I6 I7 I8 I9]%group_reachable_inv Hp. rewrite Hp in *. split; [done|].
  intros Hn. unfold signal_one, signal. destruct (signalling s) as [|n]; [lia|].
  destruct (mailbox_send _ _ I5) as (r & c' & evs & -> & Hm & ->); [cbn; lia|]. rewrite Hp. cbn. by rewrite Nat.eqb_refl.
Qed.

(** a join without a deadline returns only when no child runs; from then on the group is closed, so none will. *)
Theorem group_join_complete (o : TaskGroupOptions) (s : System) (r : TaskGroupReport) :
  reachable o s -> phase s = join_done r -> timed s = false ->
  active (group s) = [] /\ forall name has_task, exists e, (spawn (group s) name has_task) = (Err e, group s).
Proof.
  intros [I1 I2 I3 I4 I5 I6 (J1 & J2 & J3) I8 I9]%group_reachable_inv Hp Ht. rewrite Hp in *.
  split; [destruct I8; [congruence|done]|]. intros name has_task. unfold spawn.
  rewrite J2 by (by apply J3). case_decide; [by eexists|]. destruct has_task; by eexists.
Qed.

(** once a stop was requested every child that still runs has been sent its cancellation signal, and no new child joins. *)
Theorem group_stop_reaches_all (o : TaskGroupOptions) (s : System) :
  reachable o s -> stop_requested (group s) = true ->
  group_closed (group s) = true /\ forall c, c ∈ active (group s) -> sequence c ∈ signalled s.
Proof. intros [I1 I2 I3 I4 I5 I6 (J1 & J2 & J3) I8 I9]%group_reachable_inv Hs. split; [by apply J1|by apply I9]. Qed.

Module Demo.
Definition bounds : TaskGroupOptions := mkGroupOptions 2 1.
Definition start : Group := mkGroup bounds (create 1) [] [] 0 0 false false false.
Definition one : System := with_group (system_of start) (spawn start "a" true).2.
Definition child : ChildRecord := mkChild 0 "a".
Definition joining : System := mkSystem (begin_join (group one)).2 join_checking false true 0 [] [] [].
Definition waiting : System := receive_signal (check_active joining).
Definition ended : System := end_child waiting child (returned (Ok tt)).
Definition woken : System := signal_one ended.
Definition rechecking : System := with_phase woken (group woken) join_checking.
Definition joined : System := check_active rechecking.

Example joined_report : phase joined = join_done (mkReport [mkOutcome "a" succeeded None] 0).
Proof. reflexivity. Qed.

Lemma waiting_reachable : reachable bounds waiting.
Proof.
  eapply reach_step; [|apply st_receive; reflexivity]. eapply reach_step; [|apply st_check; reflexivity].
  eapply reach_step; [|apply (st_join one false); reflexivity]. eapply reach_step; [|apply (st_spawn (system_of start) "a" true)].
  by apply reach_create.
Qed.
Lemma joined_reachable : reachable bounds joined.
Proof.
  eapply reach_step; [|apply st_check; reflexivity]. eapply reach_step; [|apply (st_woken woken); reflexivity].
  eapply reach_step; [|apply st_signal]. eapply reach_step; [|apply (st_finish waiting child); apply list_elem_of_singleton; reflexivity].
  apply waiting_reachable.
Qed.

Lemma group_accounts_for_children_witness :
  map sequence (active (group joined)) ++ map done_sequence (done (group joined)) ++ reported joined ++ evicted joined ≡ₚ
    seq 0 (next_sequence (group joined)) /\
  length (active (group joined)) <= max_tasks bounds /\ length (done (group joined)) <= max_completed bounds.
Proof. exact (group_accounts_for_children bounds joined joined_reachable). Defined.
Lemma group_join_never_stalls_witness :
  (active (group waiting) <> [] \/ 0 < signalling waiting) /\
  (0 < signalling waiting -> phase (signal_one waiting) = join_woken (Ok tt)).
Proof. exact (group_join_never_stalls bounds waiting 1 waiting_reachable eq_refl). Defined.
Lemma group_join_complete_witness :
  active (group joined) = [] /\ forall name has_task, exists e, (spawn (group joined) name has_task) = (Err e, group joined).
Proof. exact (group_join_complete bounds joined _ joined_reachable eq_refl eq_refl). Defined.

Definition stopped : System := stop one.
Lemma group_stop_reaches_all_witness :
  group_closed (group stopped) = true /\ forall c, c ∈ active (group stopped) -> sequence c ∈ signalled stopped.
Proof.
  apply (group_stop_reaches_all bounds stopped); [|reflexivity]. eapply reach_step; [|apply st_stop].
  eapply reach_step; [|apply (st_spawn (system_of start) "a" true)]. by apply reach_create.
Defined.
End Demo.
