(* ===== verification/Channel.v ===== *)
(** * oran-channel: the protocol layer

    Models [include/oran/channel/adapter.hpp] and [src/oran-channel/protocol.cpp]:
    conversation keys, text splitting, message validation, path segments and the
    reading of API responses.  [nlohmann::json] is not modelled: its parser is the
    parameter [read]; [None] stands for a thrown [Json::exception]. *)
From S2P Require Import Prelude Core Utf8 Json.

(** ** Data *)
Inductive Platform := telegram | qq | feishu.
Inductive ChatKind := direct | group.
Inductive Activity := no_activity | renewable | reaction | expiring.
#[global] Instance platform_eq_dec : EqDecision Platform. Proof. solve_decision. Defined.
#[global] Instance chat_kind_eq_dec : EqDecision ChatKind. Proof. solve_decision. Defined.
#[global] Instance activity_eq_dec : EqDecision Activity. Proof. solve_decision. Defined.

Record Capabilities := mkCapabilities { activity_kind : Activity; threads : bool; text_bytes : nat }.
Record Conversation := mkConversation {
  platform : Platform; account : string; kind : ChatKind; chat : string; thread : string }.
Record ImageAttachment := mkImage { file_id : string; media_type : string; file_size : Z }.
Record ReplyContext := mkReply {
  rc_message_id : string; rc_sender : string; rc_text : string; rc_quote : string;
  rc_image : option ImageAttachment; rc_reference_key : string }.
Record Message := mkMessage {
  conversation : Conversation; event_id : string; message_id : string; sender : string; text : string;
  image : option ImageAttachment; reply_to : option ReplyContext; reference_key : string }.
Record Account := mkAccount { account_id : string; bot_id : string }.
Record Request := mkRequest { method : string; path : string; body : string }.
Record Response := mkResponse { status : Z; response_body : string; retry_after : option Z }.
Record Receipt := mkReceipt { receipt_id : string; receipt_reference : string }.

#[global] Instance conversation_eq_dec : EqDecision Conversation. Proof. solve_decision. Defined.

Definition platform_number (p : Platform) : nat := match p with telegram => 0 | qq => 1 | feishu => 2 end.
Definition kind_number (k : ChatKind) : nat := match k with direct => 0 | group => 1 end.

(** [s.size()] and [s]. *)
Definition sized (s : string) : string := (pretty (String.length s) +:+ ":" +:+ s)%string.

Definition conversation_key (c : Conversation) : string :=
  (pretty (platform_number (platform c)) +:+ ":" +:+ sized (account c) +:+ ":" +:+
  pretty (kind_number (kind c)) +:+ ":" +:+ sized (chat c) +:+ ":" +:+ sized (thread c))%string.

(** ** Splitting a reply *)
Fixpoint split_loop (fuel : nat) (text : bytes) (limit : nat) : list bytes :=
  match fuel, text with
  | _, [] | 0, _ => []
  | S fuel, _ =>
      let part := truncate_to_code_point text limit in
      part :: split_loop fuel (drop (length part) text) limit
  end.

Definition split_bytes (text : bytes) (limit : nat) : Result (list bytes) :=
  fail? limit <? 4 with Errors.invalid_argument "text limit must be at least four bytes";
  fail? negb (is_valid_utf8 text) with Errors.invalid_argument "invalid UTF-8 text";
  Ok (split_loop (length text) text limit).

(** [split_text]. *)
Definition split_text (text : string) (limit : nat) : Result (list string) :=
  let? parts := split_bytes (lit text) limit in Ok (map str parts).

(** ** Reading JSON *)
(** [Json::exception] at the caller's [catch]. *)
Definition or_parsing {A} (message : string) (r : option (Result A)) : Result A :=
  match r with Some r => r | None => Err (Errors.parsing message) end.

Section Parse.
Context (read : JsonReader).

(** [detail::parse]: no exception leaves [Json::parse(text, nullptr, false)]. *)
Definition parse (text : string) : Result json :=
  fail? (1024 * 1024 <? Z.of_nat (String.length text))%Z with Errors.parsing "channel envelope exceeds byte limit";
  match read text with
  | Parsed v => if is_object v then Ok v else Err (Errors.parsing "invalid channel JSON object")
  | _ => Err (Errors.parsing "invalid channel JSON object")
  end.
End Parse.

(** [detail::id]. *)
Definition id (value : json) : string :=
  match value with JString s => s | JInt z => pretty z | _ => ""%string end.

(** [value.at(key)]; [value.value(key, fallback)] with a JSON fallback. *)
Definition jat (j : json) (key : string) : option json :=
  match j with JObject m => assoc key m | _ => None end.
Definition jvalue (j : json) (key : string) (fallback : json) : option json :=
  match j with JObject m => Some (default fallback (assoc key m)) | _ => None end.

(** [value == z]: a float compares by value; [float_spellings] are the bit patterns of [z]. *)
Definition float_spellings (z : Z) : list Z :=
  if (z =? 0)%Z then [0; 2 ^ 63]%Z else if (z =? 429)%Z then [0x407AD00000000000]%Z else [].
Definition jequals (value : json) (z : Z) : bool :=
  match value with
  | JInt n => (n =? z)%Z
  | JFloat bits => bool_decide (bits ∈ float_spellings z)
  | _ => false
  end.

(** ** Validation *)
Definition valid_image (image : option ImageAttachment) : bool :=
  match image with
  | None => true
  | Some i => negb (bool_decide (file_id i = ""%string)) && (Z.of_nat (String.length (file_id i)) <=? 512)%Z
  end.
Definition too_long (s : string) : bool := (256 <? Z.of_nat (String.length s))%Z.
Definition too_long_text (s : string) : bool := (65536 <? Z.of_nat (String.length s))%Z.
Definition blank (s : string) : bool := bool_decide (s = ""%string).
Definition valid_text (s : string) : bool := is_valid_utf8 (lit s).
Definition no_image (m : Message) : bool := match image m with None => true | Some _ => false end.

(** [detail::validate]. *)
Definition validate (m : Message) (p : Platform) : Result unit :=
  let c := conversation m in
  fail? (negb (bool_decide (platform c = p)) || blank (account c) || blank (chat c) || blank (event_id m) ||
         blank (message_id m) || blank (sender m) || (blank (text m) && no_image m) || too_long (account c) ||
         too_long (chat c) || too_long (thread c) || too_long (reference_key m) || too_long (event_id m) ||
         too_long (message_id m) || too_long (sender m) || too_long_text (text m))
    with Errors.invalid_argument "invalid channel message identity or size";
  fail? negb (valid_text (text m)) with Errors.invalid_argument "invalid UTF-8 text";
  fail? negb (valid_image (image m)) with Errors.invalid_argument "invalid channel image identifier";
  match reply_to m with
  | None => Ok tt
  | Some r =>
      fail? (too_long (rc_reference_key r) || too_long (rc_message_id r) || too_long (rc_sender r) ||
             too_long_text (rc_text r) || too_long_text (rc_quote r) || negb (valid_text (rc_text r)) ||
             negb (valid_text (rc_quote r)) || negb (valid_image (rc_image r)))
        with Errors.invalid_argument "invalid channel reply context";
      Ok tt
  end.

(** [detail::checked]. *)
Definition checked (m : Message) : Result (option Message) :=
  let? _ := validate m (platform (conversation m)) in Ok (Some m).

(** ** Path segments *)
Definition hex_digit (n : Z) : ascii := byte_of (if (n <? 10)%Z then 48 + n else 55 + n)%Z.
Definition unreserved (ch : ascii) : bool :=
  let c := code ch in
  ((97 <=? c) && (c <=? 122) || (65 <=? c) && (c <=? 90) || (48 <=? c) && (c <=? 57) || (c =? 95) || (c =? 45))%Z.
Definition segment_char (ch : ascii) : bytes :=
  if unreserved ch then [ch]
  else ["%"%char; hex_digit (Z.shiftr (code ch) 4); hex_digit (Z.land (code ch) 15)].
Definition segment (text : string) : string := str (concat (map segment_char (lit text))).

(** ** API responses *)
Definition with_optional_retry (e : Error) (d : option Z) : Error :=
  match d with Some d => Errors.with_retry_after e d | None => e end.

(** Telegram's [parameters.retry_after], in seconds, bounded to a day. *)
Definition telegram_retry (body : json) (e : Error) : Error :=
  match jfind body "parameters" with
  | Some params =>
      match jfind params "retry_after" with
      | Some (JInt seconds) =>
          if (0 <=? seconds)%Z then Errors.with_retry_after e (Z.min seconds 86400 * 1000)%Z else e
      | _ => e
      end
  | None => e
  end.

Definition telegram_receipt (body : json) : option (Result Receipt) :=
  match jat body "ok" with
  | Some (JBool false) => Some (Err (Errors.upstream "Telegram API rejected request"))
  | Some (JBool true) =>
      match jat body "result" with
      | None => None
      | Some result =>
          match result with
          | JObject _ =>
              match jvalue result "message_id" JNull with
              | Some v => Some (Ok (mkReceipt (id v) ""))
              | None => None
              end
          | JBool true => Some (Ok (mkReceipt "" ""))
          | _ => Some (Err (Errors.parsing "invalid Telegram success result"))
          end
      end
  | _ => None
  end.

Definition feishu_receipt (body : json) : option (Result Receipt) :=
  match jat body "code" with
  | None => None
  | Some code =>
      if negb (jequals code 0) then Some (Err (Errors.upstream "Feishu API rejected request"))
      else
        match jvalue body "data" (JObject []) with
        | None => None
        | Some data =>
            match jvalue data "message_id" JNull with
            | None => None
            | Some fallback =>
                match jvalue data "reaction_id" fallback with
                | None => None
                | Some v => Some (Ok (mkReceipt (id v) ""))
                end
            end
        end
  end.

Definition qq_reference (body : json) : option string :=
  match jfind body "ext_info" with
  | None => Some ""%string
  | Some ext => match jvalue ext "ref_idx" JNull with Some v => Some (id v) | None => None end
  end.

Definition qq_receipt (body : json) : option (Result Receipt) :=
  let rejected := match jfind body "code" with Some code => negb (jequals code 0) | None => false end in
  if rejected then Some (Err (Errors.upstream "QQ API rejected request"))
  else if jempty body then Some (Ok (mkReceipt "" ""))
  else
    match jat body "id" with
    | None => None
    | Some v =>
        if blank (id v) then Some (Err (Errors.parsing "missing QQ message receipt"))
        else
          match qq_reference body with
          | None => None
          | Some reference =>
              if too_long reference then Some (Err (Errors.parsing "invalid QQ reference index"))
              else Some (Ok (mkReceipt (id v) reference))
          end
    end.

Section Accept.
Context (read : JsonReader).

Definition is_limited (p : Platform) (response : Response) (body : Result json) : bool :=
  (status response =? 429)%Z ||
  match p, body with
  | telegram, Ok body =>
      match jfind body "error_code" with Some v => jequals v 429 | None => false end
  | _, _ => false
  end.

(** [detail::accept]. *)
Definition accept (p : Platform) (response : Response) : Result Receipt :=
  let body := parse read (response_body response) in
  if is_limited p response body then
    let error := with_optional_retry (Errors.rate_limit "channel API rate limit") (retry_after response) in
    Err (match p, body with telegram, Ok body => telegram_retry body error | _, _ => error end)
  else if (status response =? 401)%Z || (status response =? 403)%Z then
    Err (Errors.mk ek_auth "channel API authorization failed")
  else if (status response <? 200)%Z || (300 <=? status response)%Z then
    Err (Errors.with_ctx (Errors.upstream "channel HTTP request failed") "status" (pretty (status response)))
  else
    match body with
    | Err e => Err e
    | Ok body =>
        or_parsing "invalid channel API response"
          match p with
          | telegram => telegram_receipt body
          | feishu => feishu_receipt body
          | qq => qq_receipt body
          end
    end.
End Accept.

(** ** Keys determine what they name *)
Lemma lit_sized s : lit (sized s) = lit (pretty (String.length s)) ++ ":"%char :: lit s.
Proof. unfold sized. by rewrite !lit_app. Qed.

(** A sized string is read back whatever follows it. *)
Lemma sized_inj s t r q : lit (sized s) ++ r = lit (sized t) ++ q -> s = t /\ r = q.
Proof.
  rewrite !lit_sized, <- !app_assoc. cbn. intros [Hn H]%number_colon_inj.
  apply app_inj_1 in H as [H ->]; [|by rewrite !lit_length]. by apply lit_inj in H.
Qed.

Lemma conversation_key_bytes c :
  lit (conversation_key c) =
    lit (pretty (platform_number (platform c))) ++ ":"%char :: lit (sized (account c)) ++
    ":"%char :: lit (pretty (kind_number (kind c))) ++ ":"%char :: lit (sized (chat c)) ++
    ":"%char :: lit (sized (thread c)).
Proof. unfold conversation_key. by rewrite !lit_app. Qed.

(** Whatever follows, a conversation key determines the conversation. *)
Lemma conversation_key_prefix c d r s :
  lit (conversation_key c) ++ r = lit (conversation_key d) ++ s -> c = d /\ r = s.
Proof.
  rewrite !conversation_key_bytes. repeat (rewrite <- app_assoc; cbn [app]).
  intros [Hp H]%number_colon_inj. apply sized_inj in H as [Ha H]. injection H as H.
  apply number_colon_inj in H as [Hk H]. apply sized_inj in H as [Hc H]. injection H as H.
  apply sized_inj in H as [Ht ->].
  destruct c as [p1 a1 k1 c1 t1], d as [p2 a2 k2 c2 t2]. cbn in *. subst.
  assert (p1 = p2) as -> by (destruct p1, p2; done). by assert (k1 = k2) as -> by (destruct k1, k2; done).
Qed.

Lemma conversation_key_inj c d : conversation_key c = conversation_key d -> c = d.
Proof.
  intros H. apply (conversation_key_prefix c d [] []). by rewrite !app_nil_r, H.
Qed.

(** ** Splitting keeps the text *)
Section Split.
Context (limit : nat) (Hlimit : 4 <= limit).

(** The loop ends with the whole text in parts that each fit and are valid. *)
Lemma split_loop_spec fuel cps :
  Forall scalar cps -> length (encode_all cps) <= fuel ->
  concat (split_loop fuel (encode_all cps) limit) = encode_all cps /\
  Forall (fun p => p <> [] /\ length p <= limit /\ is_valid_utf8 p = true) (split_loop fuel (encode_all cps) limit).
Proof.
  revert cps. induction fuel as [|fuel IH]; intros cps Hc Hl.
  - destruct (encode_all cps) eqn:E; [by split|]. cbn in Hl. lia.
  - destruct cps as [|cp cps]; [by split|].
    pose proof (encode_length cp ltac:(by inversion Hc)) as Hlen.
    destruct (encode_all (cp :: cps)) as [|b l] eqn:E.
    { rewrite encode_all_cons in E. destruct (encode cp); [cbn in Hlen; lia|done]. }
    cbn [split_loop]. rewrite <- E in *. clear E b l.
    destruct (truncate_progress limit cp cps) as (k & Hk & Hpart); [done|by inversion Hc..|]. rewrite Hpart.
    assert (Happ : encode_all (cp :: cps) = encode_all (take k (cp :: cps)) ++ encode_all (drop k (cp :: cps)))
      by (by rewrite <- encode_all_app, take_drop).
    assert (Hdrop : drop (length (encode_all (take k (cp :: cps)))) (encode_all (cp :: cps)) =
      encode_all (drop k (cp :: cps))) by (rewrite Happ; by rewrite drop_app_length).
    rewrite Hdrop. assert (Hne : 1 <= length (encode_all (take k (cp :: cps)))).
    { destruct k; [lia|]. cbn [firstn]. rewrite encode_all_cons, length_app. lia. }
    destruct (IH (drop k (cp :: cps))) as [IH1 IH2]; [by apply Forall_drop|rewrite Happ, length_app in Hl; lia|].
    cbn [concat]. rewrite IH1. split; [done|]. constructor; [|done]. split_and!.
    + intros Hnil. rewrite Hnil in Hne. cbn in Hne. lia.
    + rewrite <- Hpart. apply truncate_to_code_point_bound.
    + apply valid_encoded. exists (take k (cp :: cps)). split; [by apply Forall_take|done].
Qed.
End Split.

Lemma split_bytes_spec text limit parts :
  split_bytes text limit = Ok parts ->
  concat parts = text /\ Forall (fun p => p <> [] /\ length p <= limit /\ is_valid_utf8 p = true) parts.
Proof.
  unfold split_bytes. destruct (Nat.ltb_spec limit 4); [done|]. destruct (is_valid_utf8 text) eqn:Hv; [|done].
  intros [= <-]. apply valid_encoded in Hv as (cps & Hc & ->). by apply split_loop_spec.
Qed.

Lemma str_concat l : str (concat l) = String.concat "" (map str l).
Proof.
  induction l as [|x [|y l] IH]; [done|cbn; by rewrite app_nil_r|].
  cbn [concat] in *. rewrite str_app, IH. done.
Qed.

(** ** Segments *)
(** RFC 3986: the text a percent-encoded segment stands for. *)
Definition hex_value (c : ascii) : Z := if (code c <? 58)%Z then code c - 48 else code c - 55.
Fixpoint percent_decode (l : bytes) : bytes :=
  match l with
  | "%"%char :: h :: x :: rest => byte_of (16 * hex_value h + hex_value x) :: percent_decode rest
  | c :: rest => c :: percent_decode rest
  | [] => []
  end.

Lemma unreserved_percent c : unreserved c = true -> c <> "%"%char.
Proof. by intros H ->. Qed.

Lemma hex_digit_unreserved n : (0 <= n < 16)%Z -> unreserved (hex_digit n) = true.
Proof.
  intros Hn. unfold unreserved, hex_digit. rewrite code_byte_of.
  destruct (Z.ltb_spec n 10); rewrite Z.mod_small; lia.
Qed.

Lemma hex_value_digit n : (0 <= n < 16)%Z -> hex_value (hex_digit n) = n.
Proof.
  intros Hn. unfold hex_value, hex_digit. rewrite code_byte_of.
  destruct (Z.ltb_spec n 10); rewrite Z.mod_small by lia; case_match; lia.
Qed.

Lemma nibbles c :
  (0 <= Z.shiftr (code c) 4 < 16)%Z /\ (0 <= Z.land (code c) 15 < 16)%Z /\
  (16 * Z.shiftr (code c) 4 + Z.land (code c) 15 = code c)%Z.
Proof.
  pose proof (code_range c). rewrite Z.shiftr_div_pow2 by lia. change 15%Z with (Z.ones 4).
  rewrite Z.land_ones by lia. change (2 ^ 4)%Z with 16%Z. pose proof (Z.div_mod (code c) 16).
  pose proof (Z.mod_pos_bound (code c) 16). lia.
Qed.

Lemma percent_decode_char c rest : percent_decode (segment_char c ++ rest) = c :: percent_decode rest.
Proof.
  unfold segment_char. destruct (unreserved c) eqn:E.
  - apply unreserved_percent in E. cbn [app percent_decode]. repeat case_match; congruence.
  - destruct (nibbles c) as (Hh & Hl & Hc). cbn [app percent_decode].
    by rewrite !hex_value_digit, Hc, byte_of_code.
Qed.

Lemma segment_char_safe c : Forall (fun x => unreserved x = true \/ x = "%"%char) (segment_char c).
Proof.
  unfold segment_char. destruct (unreserved c) eqn:E; [by constructor; [left|]|].
  destruct (nibbles c) as (Hh & Hl & _). rewrite !Forall_cons.
  split_and!; [by right|left; by apply hex_digit_unreserved..|constructor].
Qed.

(** ** The theorems *)
(** splitting a reply loses nothing: the parts joined are the text, and each part is non-empty, valid UTF-8
    of at most the limit's bytes; it fails exactly on a limit below four bytes or an invalid text. *)
Theorem split_text_parts (text : string) (limit : nat) :
  match split_text text limit with
  | Ok parts =>
      4 <= limit /\ is_valid_utf8 (lit text) = true /\ String.concat "" parts = text /\
      Forall (fun p => p <> ""%string /\ String.length p <= limit /\ is_valid_utf8 (lit p) = true) parts
  | Err e => err_kind e = ek_invalid_argument /\ (limit < 4 \/ is_valid_utf8 (lit text) = false)
  end.
Proof.
  unfold split_text. destruct (split_bytes (lit text) limit) as [l|e] eqn:E; cbn.
  - destruct (split_bytes_spec _ _ _ E) as [Hc Hf]. unfold split_bytes in E.
    destruct (Nat.ltb_spec limit 4); [done|]. destruct (is_valid_utf8 (lit text)); [|done].
    split_and!; [done|done|by rewrite <- str_concat, Hc, str_lit|].
    apply Forall_fmap. eapply Forall_impl; [exact Hf|]. intros p (Hn & Hl & Hv). cbn. rewrite lit_str.
    split_and!; [by destruct p|by rewrite <- lit_length, lit_str|done].
  - unfold split_bytes in E. destruct (Nat.ltb_spec limit 4); [injection E as <-; auto|].
    destruct (is_valid_utf8 (lit text)); [done|]. injection E as <-. auto.
Qed.

(** a path segment holds only unreserved characters and percent signs, so it can neither leave its place in
    the path nor add a query, and it decodes to the identifier it was made from. *)
Theorem segment_roundtrip (text : string) :
  Forall (fun x => unreserved x = true \/ x = "%"%char) (lit (segment text)) /\
  str (percent_decode (lit (segment text))) = text.
Proof.
  unfold segment. rewrite lit_str. split.
  - apply Forall_concat, Forall_fmap, Forall_true. intros c. apply segment_char_safe.
  - rewrite <- (str_lit text) at 2. f_equal. induction (lit text) as [|c l IH]; [done|].
    cbn [map concat]. by rewrite percent_decode_char, IH.
Qed.

(** a response is accepted only with a 2xx status and an object as its body, and a 429 (or Telegram's error
    code 429) is always reported as a rate limit. *)
Theorem accept_spec (read : JsonReader) (p : Platform) (response : Response) (receipt : Receipt) :
  accept read p response = Ok receipt ->
  (200 <= status response < 300)%Z /\ is_limited p response (parse read (response_body response)) = false /\
  exists body, read (response_body response) = Parsed body /\ is_object body = true.
Proof.
  unfold accept. destruct (is_limited _ _ _) eqn:El; [done|].
  destruct (_ || _)%bool eqn:Ea; [done|]. destruct ((status response <? 200) || (300 <=? status response))%Z eqn:Es; [done|].
  intros H. split_and!; [lia|lia|done|]. destruct (parse read (response_body response)) as [body|] eqn:Ep; [|done].
  unfold parse in Ep. destruct (_ <? _)%Z; [done|]. destruct (read (response_body response)) as [v| |]; [|done|done].
  destruct (is_object v) eqn:Eo; [|done]. eauto.
Qed.

Module Demo.
Definition ok_body : json := JObject [("id", JString "m1")].
Definition read_ok : JsonReader := fun _ => Parsed ok_body.
Lemma accept_spec_witness : (200 <= 200 < 300)%Z.
Proof. exact (proj1 (accept_spec read_ok qq (mkResponse 200 "{}" None) (mkReceipt "m1" "") eq_refl)). Defined.
End Demo.
