(* ===== verification/Delivery.v ===== *)
(** * oran-channel: the dispatcher

    Models [include/oran/channel/dispatcher.hpp] and
    [src/oran-channel/dispatcher.cpp].  Everything runs on one strand, so the code
    between two suspensions is one operation here, named after what it follows: a
    [Session] says at which [co_await] a call of [handle] or [resume] stands.  The
    outcome of an awaited call (a hook, the turn, the transport, cancellation) is an
    argument of the operation that follows it.  The activity coroutine is not
    modelled: it only counts failures, which are an argument.  Rendering a part, by the
    adapter or by the [render_reply] of the host, gives a result here; a callback that
    throws instead is not modelled.  [event]s record the effects: turns run, parts handed
    to the transport, evictions. *)
From S2P Require Import Prelude Core Utf8 Json Rules.
From S2P Require Import Channel.

(** ** Data *)
Record Delivery := mkDelivery { parts_sent : nat; duplicate : bool; activity_failures : nat }.
Record PendingReply := mkPending { parts : list string; next_part : nat }.
Record Entry := mkEntry {
  message : Message; e_reply : PendingReply; generated : bool; complete : bool;
  error : option Error; delivery : Delivery }.

(** [Dispatcher::Impl]: the entries by event key, the completed keys in order, the
    conversations in use. *)
Record Impl := mkImpl { entries : gmap string Entry; completed : list string; busy : gset string }.

(** The parts of [Adapter] the dispatcher calls. *)
Record Adapter := mkAdapter {
  a_platform : Platform; a_capabilities : ChatKind -> Capabilities;
  a_reply : Message -> string -> nat -> Result Request; a_accept : Response -> Result Receipt }.

Record DispatcherOptions := mkOptions {
  rules : list Rule; mode : Mode; capacity : nat; max_reply_bytes : nat;
  typing_interval : Z; typing_ttl : Z;
  render_reply : option (Message -> string -> nat -> Result Request);
  split_reply : option (string -> nat -> Result (list string)) }.

(** [Dispatcher::create] on ports that are set. *)
Definition create (o : DispatcherOptions) : Result Impl :=
  if (capacity o =? 0) || (4096 <? Z.of_nat (capacity o))%Z || (max_reply_bytes o =? 0) ||
     (1024 * 1024 <? Z.of_nat (max_reply_bytes o))%Z || (typing_interval o <=? 0)%Z ||
     (4000 <? typing_interval o)%Z || (typing_ttl o <=? 0)%Z || (60000 <? typing_ttl o)%Z
  then Err (Errors.invalid_argument "invalid channel dispatcher options")
  else Ok (mkImpl ∅ [] ∅).

Definition event_key (m : Message) : string := (conversation_key (conversation m) +:+ ":" +:+ event_id m)%string.
Definition conv_of (m : Message) : string := conversation_key (conversation m).
Definition safe_error (e : Error) : Error :=
  with_optional_retry (Errors.mk (err_kind e) "channel operation failed") (err_retry_after e).
Definition busy_error : Error := Errors.mk ek_conflict "channel conversation is busy".
Definition no_pending_error : Error := Errors.not_found "no pending channel reply".

(** Where a call of [handle] or [resume] is suspended. *)
Inductive Session :=
  | receiving (m : Message)
  | running (key : string)
  | sending (key : string) (request : Request) (resumed : bool)
  | recovering (key : string) (next : nat).

Inductive Turn := finished (r : Result Delivery) | awaits (s : Session).

Inductive Event :=
  | admitted (key : string) | ran (key : string) | evicted (key : string) | settled (key : string)
  | sent (key : string) (part : nat) | confirmed (key : string) (part : nat) | rewound (key : string) (part : nat).

(** How the [co_await] of [authorize] ends: cancelled before it, or with an exception. *)
Record Await := mkAwait { aw_cancelled : bool; aw_threw : bool }.

(** How [process] comes back from the turn: with an exception, or with the turn's
    answer ([None]: it threw), the cancellation seen, and the joined activity. *)
Inductive RunOutcome :=
  | run_threw
  | run_done (answer : option (Result string)) (cancelled : bool) (failures : nat) (joined : Result nat).

(** ** Entries *)
Definition set_error (e : Entry) (err : option Error) : Entry :=
  mkEntry (message e) (e_reply e) (generated e) (complete e) err (delivery e).
Definition set_complete (e : Entry) : Entry :=
  mkEntry (message e) (e_reply e) (generated e) true (error e) (delivery e).
Definition set_failures (e : Entry) (n : nat) : Entry :=
  mkEntry (message e) (e_reply e) (generated e) (complete e) (error e)
    (mkDelivery (parts_sent (delivery e)) (duplicate (delivery e)) n).
Definition set_parts (e : Entry) (ps : list string) : Entry :=
  mkEntry (message e) (mkPending ps (next_part (e_reply e))) true (complete e) (error e) (delivery e).
(** The next part to send and the parts counted as sent. *)
Definition set_position (e : Entry) (next sent : nat) : Entry :=
  mkEntry (message e) (mkPending (parts (e_reply e)) next) (generated e) (complete e) (error e)
    (mkDelivery sent (duplicate (delivery e)) (activity_failures (delivery e))).
Definition put (d : Impl) (key : string) (e : Entry) : Impl :=
  mkImpl (<[key := e]> (entries d)) (completed d) (busy d).
(** [~ConversationLease] at the end of the call; the lease lives while the call is suspended. *)
Definition leave (d : Impl) (conv : string) : Impl := mkImpl (entries d) (completed d) (busy d ∖ {[conv]}).
Definition leasing (conv : string) (r : Impl * Turn * list Event) : Impl * Turn * list Event :=
  match r with
  | (d, finished x, ev) => (leave d conv, finished x, ev)
  | (d, awaits s, ev) => (d, awaits s, ev)
  end.

Section Dispatcher.
Context (partial_match : string -> string -> bool) (dump : JsonWriter) (adapter : Adapter) (o : DispatcherOptions).

(** ** Authorization and sending *)
Definition authorize_input (m : Message) (request : option Request) : json :=
  let base := jobject [("conversation", JString (conv_of m)); ("sender", JString (sender m))] in
  match request with
  | None => base
  | Some r => jset (jset (jset base "method" (JString (method r))) "path" (JString (path r))) "body" (JString (body r))
  end.

Definition authorize_verdict (m : Message) (operation : string) (request : option Request) : Verdict :=
  dec_verdict (evaluate partial_match (rules o) operation (dump (authorize_input m request))
    (match request with Some _ => [egress_http] | None => [] end) (mode o)).

(** [authorize]; [None] is an exception of the hook or of the suspension. *)
Definition authorize (m : Message) (operation : string) (request : option Request) (a : Await)
    : option (Result unit) :=
  if aw_cancelled a then Some (Err Errors.cancelled)
  else if aw_threw a then None
  else if decide (authorize_verdict m operation request = v_allow) then Some (Ok tt)
  else Some (Err (Errors.permission_denied "channel operation requires an explicit allow decision")).

(** [send]; [response] is what the transport answers, [None] when it throws. *)
Definition send (m : Message) (request : Request) (operation : string) (a : Await)
    (response : option (Result Response)) (cancelled : bool) : Result Receipt :=
  let thrown := Err (if cancelled then Errors.cancelled else Errors.internal "channel transport failed") in
  match authorize m operation (Some request) a with
  | None => thrown
  | Some (Err e) => Err e
  | Some (Ok _) =>
      match response with
      | None => thrown
      | Some (Err e) => Err (safe_error e)
      | Some (Ok response) =>
          match a_accept adapter response with
          | Ok receipt =>
              if bool_decide (operation = "ChannelSend")%string && blank (receipt_id receipt)
              then Err (Errors.parsing "channel send returned no message receipt")
              else Ok receipt
          | Err e => Err e
          end
      end
  end.

Definition reply (m : Message) (text : string) (part : nat) : Result Request :=
  match render_reply o with Some render => render m text part | None => a_reply adapter m text part end.

(** ** Delivery *)
(** The call ends: its error is recorded in the entry. *)
Definition fail (d : Impl) (key : string) (e : Entry) (err : Error) : Impl * Turn * list Event :=
  (put d key (set_error e (Some err)), finished (Err err), []).

(** The preflight loop: the first error of the parts from [i] on. *)
Fixpoint preflight (m : Message) (i : nat) (ps : list string) : Result unit :=
  match ps with
  | [] => Ok tt
  | p :: ps => match reply m p i with Err e => Err e | Ok _ => preflight m (S i) ps end
  end.

(** The head of the sending loop: the next part, or the end of the delivery.  [resumed] says
    whether [resume] or [handle] delivers. *)
Definition send_head (resumed : bool) (d : Impl) (key : string) (e : Entry) : Impl * Turn * list Event :=
  match parts (e_reply e) !! next_part (e_reply e) with
  | Some p =>
      match reply (message e) p (next_part (e_reply e)) with
      | Err err => fail d key e err
      | Ok request => (put d key e, awaits (sending key request resumed), [])
      end
  | None =>
      let e := set_error (set_complete e) None in
      let d := put d key e in
      (mkImpl (entries d) (completed d ++ [event_key (message e)]) (busy d), finished (Ok (delivery e)),
       [settled key])
  end.

(** [deliver] up to its first suspension. *)
Definition deliver (resumed : bool) (d : Impl) (key : string) (e : Entry) : Impl * Turn * list Event :=
  match preflight (message e) (next_part (e_reply e)) (drop (next_part (e_reply e)) (parts (e_reply e))) with
  | Err err => fail d key e err
  | Ok _ => send_head resumed d key e
  end.

(** After the [co_await send] of the part at the cursor. *)
Definition after_send (d : Impl) (key : string) (e : Entry) (request : Request) (resumed : bool) (a : Await)
    (response : option (Result Response)) (cancelled : bool) : Impl * Turn * list Event :=
  let i := next_part (e_reply e) in
  let out := match authorize (message e) "ChannelSend" (Some request) a with
             | Some (Ok _) => [sent key i] | _ => [] end in
  match send (message e) request "ChannelSend" a response cancelled with
  | Err err =>
      let '(d, t, ev) := fail d key e (Errors.with_ctx err "confirmed_parts" (pretty i)) in (d, t, out ++ ev)
  | Ok _ =>
      let '(d, t, ev) := send_head resumed d key (set_position e (S i) (S (parts_sent (delivery e)))) in
      (d, t, out ++ confirmed key i :: ev)
  end.

(** ** Handling a message *)
(** The [catch] of [handle] and [resume]. *)
Definition boundary (cancelled : bool) (message : string) : Error :=
  if cancelled then Errors.cancelled else Errors.internal message.

(** [handle_impl] up to the suspension in [authorize]. *)
Definition handle (d : Impl) (m : Message) : Impl * Turn * list Event :=
  match validate m (a_platform adapter) with
  | Err e => (d, finished (Err e), [])
  | Ok _ =>
      if bool_decide (conv_of m ∈ busy d) then (d, finished (Err busy_error), [])
      else if capacity o <=? size (busy d) then
        (d, finished (Err (Errors.mk ek_mailbox_overflowed "channel admission is full")), [])
      else (mkImpl (entries d) (completed d) ({[conv_of m]} ∪ busy d), awaits (receiving m), [])
  end.

(** Make room for an entry: the delivery completed first is forgotten. *)
Definition make_room (d : Impl) : option (Impl * list Event) :=
  if size (entries d) <? capacity o then Some (d, [])
  else
    match completed d with
    | [] => None
    | front :: rest => Some (mkImpl (delete front (entries d)) rest (busy d), [evicted front])
    end.

Definition new_entry (m : Message) : Entry :=
  mkEntry m (mkPending [] 0) false false None (mkDelivery 0 false 0).
Definition dispatch_failed : Error := Errors.internal "channel dispatch failed".

(** After [authorize]: admission, up to the suspension in [run].  [started]: the task
    group and the activity are there, or [process] failed ([None]: threw) before the turn. *)
Definition after_receive (d : Impl) (m : Message) (a : Await) (started : option (Result unit)) (cancelled : bool)
    : Impl * Turn * list Event :=
  let stop d r := (d, finished r, []) in
  match authorize m "ChannelReceive" None a with
  | None => stop d (Err (boundary cancelled "channel dispatch failed"))
  | Some (Err e) => stop d (Err e)
  | Some (Ok _) =>
      let key := event_key m in
      match entries d !! key with
      | Some found =>
          match error found with
          | Some e => stop d (Err e)
          | None => stop d (Ok (mkDelivery (parts_sent (delivery found)) true (activity_failures (delivery found))))
          end
      | None =>
          match make_room d with
          | None => stop d (Err (Errors.mk ek_mailbox_overflowed "channel delivery cache is full"))
          | Some (d, ev) =>
              let e := new_entry m in
              let ev := ev ++ [admitted key] in
              match started with
              | Some (Ok _) => (put d key e, awaits (running key), ev ++ [ran key])
              | Some (Err err) => let '(d, t, ev') := fail d key e err in (d, t, ev ++ ev')
              | None => let '(d, t, ev') := fail d key e dispatch_failed in (d, t, ev ++ ev')
              end
          end
      end
  end.

(** The parts of an answer, checked whoever split it. *)
Definition valid_part (limit : nat) (p : string) : bool :=
  negb (blank p) && match split_text p limit with Ok [_] => true | _ => false end.
Definition reply_parts (m : Message) (answer : string) : Result (list string) :=
  let limit := text_bytes (a_capabilities adapter (kind (conversation m))) in
  fail? max_reply_bytes o <? String.length answer with
    Errors.invalid_argument "channel reply exceeds byte limit";
  let? ps := match split_reply o with Some f => f answer limit | None => split_text answer limit end in
  fail? (negb (blank answer) && (length ps =? 0)) || (max_reply_bytes o <? length ps) with
    Errors.invalid_argument "invalid channel reply parts";
  fail? negb (forallb (valid_part limit) ps) with Errors.invalid_argument "invalid channel reply part";
  Ok ps.

(** After [run] and [join]: the rest of [process], up to the first part. *)
Definition after_run (d : Impl) (key : string) (e : Entry) (r : RunOutcome) : Impl * Turn * list Event :=
  match r with
  | run_threw => fail d key e dispatch_failed
  | run_done answer cancelled failures joined =>
      let e := set_failures e failures in
      match joined with
      | Err err => fail d key e err
      | Ok failed =>
          let e := set_failures e (failures + failed) in
          let answer := default (Err (Errors.internal "channel turn failed")) answer in
          match answer with
          | Err err => fail d key e (if cancelled then Errors.cancelled else safe_error err)
          | Ok answer =>
              match reply_parts (message e) answer with
              | Err err => fail d key e err
              | Ok ps =>
                  let e := set_parts e ps in
                  if cancelled then fail d key e Errors.cancelled else deliver false d key e
              end
          end
      end
  end.

(** ** Recovery *)
(** An entry with a reply to deliver. *)
Definition pending_entry (d : Impl) (key : string) : option Entry :=
  match entries d !! key with
  | Some e => if generated e && negb (complete e) then Some e else None
  | None => None
  end.

(** [pending]. *)
Definition pending (d : Impl) (m : Message) : Result PendingReply :=
  if bool_decide (conv_of m ∈ busy d) then Err busy_error
  else match pending_entry d (event_key m) with Some e => Ok (e_reply e) | None => Err no_pending_error end.

(** [resume_impl] up to the suspension in [authorize]. *)
Definition resume (d : Impl) (m : Message) (next : nat) : Impl * Turn * list Event :=
  if bool_decide (conv_of m ∈ busy d) then (d, finished (Err busy_error), [])
  else
    match pending_entry d (event_key m) with
    | None => (d, finished (Err no_pending_error), [])
    | Some e =>
        if (next <? next_part (e_reply e)) || (length (parts (e_reply e)) <? next) then
          (d, finished (Err (Errors.invalid_argument "invalid delivery recovery position")), [])
        else
          (mkImpl (entries d) (completed d) ({[conv_of m]} ∪ busy d), awaits (recovering (event_key m) next), [])
    end.

(** After [authorize]. *)
Definition after_recover (d : Impl) (key : string) (e : Entry) (next : nat) (a : Await) (cancelled : bool)
    : Impl * Turn * list Event :=
  let stop err := (d, finished (Err err), []) in
  match authorize (message e) "ChannelReceive" None a with
  | None => stop (boundary cancelled "channel recovery failed")
  | Some (Err err) => stop err
  | Some (Ok _) =>
      let '(d, t, ev) := deliver true d key (set_position e next next) in (d, t, rewound key next :: ev)
  end.

(** An exception leaves the [deliver] of [resume] before the transport is called. *)
Definition interrupt (d : Impl) (cancelled : bool) : Impl * Turn * list Event :=
  (d, finished (Err (boundary cancelled "channel recovery failed")), []).

(** [acknowledge_failure]. *)
Definition acknowledge_failure (d : Impl) (m : Message) : Impl * Result unit * list Event :=
  if bool_decide (conv_of m ∈ busy d) then (d, Err busy_error, [])
  else
    let key := event_key m in
    match entries d !! key with
    | Some e =>
        match error e with
        | None => (d, Err (Errors.not_found "no failed channel delivery"), [])
        | Some _ =>
            if complete e then (d, Ok tt, [])
            else (mkImpl (<[key := set_complete e]> (entries d)) (completed d ++ [key]) (busy d), Ok tt, [settled key])
        end
    | None => (d, Err (Errors.not_found "no failed channel delivery"), [])
    end.

End Dispatcher.

(** ** The dispatcher and its callers *)
(** The suspended calls, each with the conversation whose lease it holds. *)
Record System := mkSystem { impl : Impl; sessions : list (string * Session); log : list Event }.

Definition suspended (conv : string) (t : Turn) : list (string * Session) :=
  match t with awaits s => [(conv, s)] | finished _ => [] end.

Section Steps.
Context (partial_match : string -> string -> bool) (dump : JsonWriter) (adapter : Adapter) (o : DispatcherOptions).

(** A call suspended in [s] goes on, with what it awaited. *)
Inductive goes_on (d : Impl) : Session -> Impl * Turn * list Event -> Prop :=
  | on_received m a started c :
      goes_on d (receiving m) (after_receive partial_match dump o d m a started c)
  | on_ran key e r :
      entries d !! key = Some e -> goes_on d (running key) (after_run adapter o d key e r)
  | on_sent key e request resumed a response c :
      entries d !! key = Some e ->
      goes_on d (sending key request resumed)
        (after_send partial_match dump adapter o d key e request resumed a response c)
  | on_interrupted key request c : goes_on d (sending key request true) (interrupt d c)
  | on_recovered key e next a c :
      entries d !! key = Some e ->
      goes_on d (recovering key next) (after_recover partial_match dump adapter o d key e next a c).

(** One operation of the strand: a new call, or a suspended one that goes on. *)
Inductive step : System -> System -> Prop :=
  | step_handle m d d' t ev ss l :
      handle adapter o d m = (d', t, ev) ->
      step (mkSystem d ss l) (mkSystem d' (suspended (conv_of m) t ++ ss) (l ++ ev))
  | step_resume m next d d' t ev ss l :
      resume d m next = (d', t, ev) ->
      step (mkSystem d ss l) (mkSystem d' (suspended (conv_of m) t ++ ss) (l ++ ev))
  | step_on conv s r d d' t ev ss rest l :
      ss ≡ₚ (conv, s) :: rest -> goes_on d s r -> leasing conv r = (d', t, ev) ->
      step (mkSystem d ss l) (mkSystem d' (suspended conv t ++ rest) (l ++ ev))
  | step_acknowledge m r d d' ev ss l :
      acknowledge_failure d m = (d', r, ev) -> step (mkSystem d ss l) (mkSystem d' ss (l ++ ev)).

Inductive reachable : System -> Prop :=
  | reach_create d : create o = Ok d -> reachable (mkSystem d [] [])
  | reach_step x y : reachable x -> step x y -> reachable y.
End Steps.

(** ** The delivery protocol *)
(** What the callers may rely on, per event: the turn runs once, the parts go out in
    order from a cursor that only a recovery moves, and only a settled event is forgotten. *)
Record Cell := mkCell { c_ran : bool; c_cursor : nat; c_settled : bool }.
Abbreviation Spec := (gmap string Cell).

Definition cell_step (c : option Cell) (ev : Event) : option (option Cell) :=
  match ev, c with
  | admitted _, None => Some (Some (mkCell false 0 false))
  | ran _, Some (mkCell false 0 false) => Some (Some (mkCell true 0 false))
  | sent _ i, Some (mkCell r n false) => if n =? i then Some c else None
  | confirmed _ i, Some (mkCell r n false) => if n =? i then Some (Some (mkCell r (S i) false)) else None
  | rewound _ i, Some (mkCell r n false) => if n <=? i then Some (Some (mkCell r i false)) else None
  | settled _, Some (mkCell r n false) => Some (Some (mkCell r n true))
  | evicted _, Some (mkCell _ _ true) => Some None
  | _, _ => None
  end.

Definition key_of (ev : Event) : string :=
  match ev with
  | admitted k | ran k | evicted k | settled k | sent k _ | confirmed k _ | rewound k _ => k
  end.

Definition spec_step (σ : Spec) (ev : Event) : option Spec :=
  match cell_step (σ !! key_of ev) ev with
  | Some c => Some (partial_alter (fun _ => c) (key_of ev) σ)
  | None => None
  end.

Fixpoint spec_run (σ : Spec) (l : list Event) : option Spec :=
  match l with
  | [] => Some σ
  | ev :: l => match spec_step σ ev with Some σ => spec_run σ l | None => None end
  end.

(** ** The invariant *)
Fixpoint cell_run (c : option Cell) (l : list Event) : option (option Cell) :=
  match l with
  | [] => Some c
  | ev :: l => match cell_step c ev with Some c => cell_run c l | None => None end
  end.

Lemma spec_run_app σ l1 l2 :
  spec_run σ (l1 ++ l2) = match spec_run σ l1 with Some σ => spec_run σ l2 | None => None end.
Proof. revert σ. induction l1 as [|ev l1 IH]; intros σ; cbn; [done|]. destruct (spec_step σ ev); [apply IH|done]. Qed.

(** Events of one key only touch its cell. *)
Lemma spec_run_key σ k l c :
  Forall (fun ev => key_of ev = k) l -> cell_run (σ !! k) l = Some c ->
  spec_run σ l = Some (partial_alter (fun _ => c) k σ).
Proof.
  intros Hl. revert σ. induction Hl as [|ev l <- _ IH]; intros σ; cbn.
  - intros [= <-]. f_equal. apply map_eq. intros j. destruct (decide (j = k)) as [->|];
      [by rewrite lookup_partial_alter_eq|by rewrite lookup_partial_alter_ne].
  - unfold spec_step. destruct (cell_step _ ev) as [c'|]; [|done]. intros Hr.
    rewrite IH by by rewrite lookup_partial_alter_eq. f_equal. by rewrite partial_alter_partial_alter_eq.
Qed.

Definition session_key (s : Session) : option string :=
  match s with
  | receiving _ => None | running k | sending k _ _ | recovering k _ => Some k
  end.

Definition cell_view (c : Cell) : nat * bool := (c_cursor c, c_settled c).
Definition entry_view (e : Entry) : nat * bool := (next_part (e_reply e), complete e).

Section Invariant.
Context (partial_match : string -> string -> bool) (dump : JsonWriter) (adapter : Adapter) (o : DispatcherOptions).

Definition limit_of (m : Message) : nat := text_bytes (a_capabilities adapter (kind (conversation m))).

Record EntryOk (k : string) (e : Entry) : Prop := {
  eo_key : event_key (message e) = k;
  eo_next : next_part (e_reply e) <= length (parts (e_reply e));
  eo_parts : Forall (fun p => valid_part (limit_of (message e)) p = true) (parts (e_reply e)) }.

(** What a suspended call needs of its entry. *)
Definition session_entry (e : Entry) (s : Session) : Prop :=
  match s with
  | receiving _ => False
  | running _ => generated e = false /\ next_part (e_reply e) = 0
  | sending _ _ resumed =>
      generated e = true /\ next_part (e_reply e) < length (parts (e_reply e)) /\
      (resumed = true -> error e <> None)
  | recovering _ n =>
      generated e = true /\ next_part (e_reply e) <= n <= length (parts (e_reply e)) /\ error e <> None
  end.

Definition session_ok (d : Impl) (c : string) (s : Session) : Prop :=
  match s with
  | receiving m => conv_of m = c
  | _ => exists k e, session_key s = Some k /\ entries d !! k = Some e /\ conv_of (message e) = c /\
           complete e = false /\ session_entry e s
  end.

Record Inv (x : System) : Prop := {
  iv_nodup : NoDup (map fst (sessions x));
  iv_busy : forall c, c ∈ busy (impl x) <-> c ∈ map fst (sessions x);
  iv_size : size (entries (impl x)) <= capacity o;
  iv_entry : forall k e, entries (impl x) !! k = Some e -> EntryOk k e;
  iv_once : NoDup (completed (impl x));
  iv_completed : forall k, k ∈ completed (impl x) <->
    exists e, entries (impl x) !! k = Some e /\ complete e = true;
  iv_session : forall c s, (c, s) ∈ sessions x -> session_ok (impl x) c s;
  iv_settled : forall k e, entries (impl x) !! k = Some e ->
    complete e = true \/ error e <> None \/ exists c s, (c, s) ∈ sessions x /\ session_key s = Some k;
  iv_log : exists σ, spec_run ∅ (log x) = Some σ /\
    forall k, cell_view <$> σ !! k = entry_view <$> entries (impl x) !! k }.

Lemma dispatcher_inv_perm d ss ss' l : ss ≡ₚ ss' -> Inv (mkSystem d ss l) -> Inv (mkSystem d ss' l).
Proof.
  intros Hp []. cbn in *. split; cbn; try done.
  - by rewrite <- Hp.
  - intros c. rewrite <- Hp. apply iv_busy0.
  - intros c s. rewrite <- Hp. apply iv_session0.
  - intros k e He. destruct (iv_settled0 k e He) as [?|[?|(c & s & ? & ?)]]; [auto..|].
    right; right. exists c, s. by rewrite <- Hp.
Qed.

(** An event key determines its conversation. *)
Lemma event_key_conv m m' : event_key m = event_key m' -> conv_of m = conv_of m' /\ event_id m = event_id m'.
Proof.
  unfold event_key, conv_of. intros H. apply (f_equal lit) in H. rewrite !lit_app in H.
  apply conversation_key_prefix in H as [-> H]. injection H as H%lit_inj. done.
Qed.

Lemma session_ok_key d c s k :
  session_ok d c s -> session_key s = Some k ->
  exists e, entries d !! k = Some e /\ conv_of (message e) = c /\ complete e = false /\ session_entry e s.
Proof.
  destruct s; cbn; [done|..]; intros (k' & e & Hk & He & ?) [= ->]; injection Hk as <-; by exists e.
Qed.

Lemma session_ok_make d c s k e :
  session_key s = Some k -> entries d !! k = Some e -> conv_of (message e) = c -> complete e = false ->
  session_entry e s -> session_ok d c s.
Proof. intros Hk He Hc Hn Hs. destruct s; [done|..]; exists k, e; done. Qed.

(** No other call holds the key of a call's conversation. *)
Lemma other_key d c s rest l k e c' s' k' :
  Inv (mkSystem d ((c, s) :: rest) l) -> entries d !! k = Some e -> conv_of (message e) = c ->
  (c', s') ∈ rest -> session_key s' = Some k' -> k' <> k.
Proof.
  intros [] He Hc Hin Hk ->. cbn in *. apply NoDup_cons in iv_nodup0 as [Hn _]. apply Hn.
  assert (Hs : session_ok d c' s') by (apply iv_session0; by apply elem_of_cons; right).
  destruct (session_ok_key _ _ _ _ Hs Hk) as (e' & He' & Hc' & _). assert (e' = e) as -> by congruence.
  apply list_elem_of_fmap. exists (c', s'). split; [cbn; congruence|exact Hin].
Qed.

(** Entries that no suspended call uses can change. *)
Lemma session_frame d d' c s :
  session_ok d c s -> (forall k, session_key s = Some k -> entries d' !! k = entries d !! k) -> session_ok d' c s.
Proof.
  destruct s as [m|k|k r b|k n]; cbn; [done|..]; intros (k' & e & Hk & He & Hrest) Hsame; injection Hk as <-;
    exists k, e; by rewrite Hsame.
Qed.

Lemma log_update (es : gmap string Entry) (l ev : list Event) k c x :
  (exists σ, spec_run ∅ l = Some σ /\ forall q, cell_view <$> σ !! q = entry_view <$> es !! q) ->
  Forall (fun y => key_of y = k) ev ->
  (forall p, cell_view <$> p = entry_view <$> es !! k -> cell_run p ev = Some (c p)) ->
  (forall p, cell_view <$> p = entry_view <$> es !! k -> cell_view <$> c p = entry_view <$> x) ->
  exists σ, spec_run ∅ (l ++ ev) = Some σ /\
    forall q, cell_view <$> σ !! q = entry_view <$> partial_alter (fun _ => x) k es !! q.
Proof.
  intros (σ & Hσ & Hv) Hk Hrun Hx. eexists. split.
  - rewrite spec_run_app, Hσ. apply (spec_run_key _ k); [done|]. by apply Hrun.
  - intros q. destruct (decide (q = k)) as [->|Hne].
    + rewrite !lookup_partial_alter_eq. by apply Hx.
    + by rewrite !lookup_partial_alter_ne.
Qed.

(** Completing an entry adds its key to the completed ones. *)
Lemma completed_update d k e e' :
  NoDup (completed d) ->
  (forall q, q ∈ completed d <-> exists e0, entries d !! q = Some e0 /\ complete e0 = true) ->
  entries d !! k = Some e -> complete e = false ->
  NoDup (completed d ++ (if complete e' then [k] else [])) /\
  forall q, q ∈ completed d ++ (if complete e' then [k] else []) <->
    exists e0, <[k := e']> (entries d) !! q = Some e0 /\ complete e0 = true.
Proof.
  intros Hnd Hc He Hn. assert (Hnk : k ∉ completed d) by (rewrite Hc; intros (e0 & ? & ?); congruence). split.
  - apply NoDup_app. split_and!; [done| |destruct (complete e'); [apply NoDup_singleton|constructor]].
    intros q Hq. destruct (complete e'); [|apply not_elem_of_nil]. by intros ->%list_elem_of_singleton.
  - intros q. rewrite elem_of_app. destruct (decide (q = k)) as [->|Hne].
    + rewrite lookup_insert_eq. destruct (complete e') eqn:Ec.
      * rewrite list_elem_of_singleton. split; [eauto|by right].
      * split; [intros [?|?%not_elem_of_nil]; done|intros (e0 & [= <-] & ?); congruence].
    + rewrite lookup_insert_ne, Hc by done. split; [|by left]. intros [?|Hq]; [done|].
      destruct (complete e'); [by apply list_elem_of_singleton in Hq|by apply not_elem_of_nil in Hq].
Qed.

Section Update.
Context (d : Impl) (c : string) (s : Session) (rest : list (string * Session)) (l : list Event).
Context (HI : Inv (mkSystem d ((c, s) :: rest) l)).

Lemma busy_rest : NoDup (map fst rest) /\ c ∉ map fst rest /\
  (forall x, x ∈ busy d ∖ {[c]} <-> x ∈ map fst rest).
Proof.
  destruct HI. cbn in *. apply NoDup_cons in iv_nodup0 as [Hn Hnd]. split_and!; [done|done|].
  intros x. rewrite elem_of_difference, elem_of_singleton, iv_busy0, elem_of_cons. split; [tauto|].
  intros Hx. split; [by right|]. by intros ->.
Qed.

(** The call's own entry changes: it stays suspended, or ends with the entry settled. *)
Lemma delivery_update_inv k e e' t ev ev' d' t' :
  session_key s = Some k -> entries d !! k = Some e -> conv_of (message e) = c -> complete e = false ->
  message e' = message e -> EntryOk k e' ->
  match t with
  | finished _ => complete e' = true \/ error e' <> None
  | awaits s' => complete e' = false /\ session_key s' = Some k /\ session_entry e' s'
  end ->
  Forall (fun x => key_of x = k) ev ->
  (forall r, exists r', cell_run (Some (mkCell r (next_part (e_reply e)) false)) ev =
    Some (Some (mkCell r' (next_part (e_reply e')) (complete e')))) ->
  leasing c (mkImpl (<[k := e']> (entries d)) (completed d ++ (if complete e' then [k] else [])) (busy d), t, ev)
    = (d', t', ev') ->
  Inv (mkSystem d' (suspended c t' ++ rest) (l ++ ev')).
Proof.
  intros Hkey He Hc Hn Hm Hok Ht Hev Hcell Hl.
  pose proof (other_key d c s rest l k e) as Hother. specialize (Hother) with (1 := HI) (2 := He) (3 := Hc).
  destruct busy_rest as (Hnd & Hnc & Hbr).
  assert (Hsize : size (<[k := e']> (entries d)) = size (entries d)) by (apply map_size_insert_Some; eauto).
  destruct HI as []. cbn in *.
  assert (Hrest : forall c' s' dd, (c', s') ∈ rest -> entries dd = <[k := e']> (entries d) -> session_ok dd c' s').
  { intros c' s' dd Hin Hd. eapply session_frame; [apply iv_session0; by apply elem_of_cons; right|].
    intros k' Hk'. rewrite Hd. apply lookup_insert_ne. intros <-. by eapply Hother. }
  destruct (completed_update d k e e') as [Hcn Hcomp]; [done..|].
  assert (Hlog : exists σ, spec_run ∅ (l ++ ev) = Some σ /\
    forall q, cell_view <$> σ !! q = entry_view <$> <[k := e']> (entries d) !! q).
  { apply (log_update _ _ _ k (fun p => default None (cell_run p ev)) (Some e') iv_log0 Hev); rewrite He;
      (intros [[r n b]|]; [|done]); cbn; intros [= -> ->]; rewrite Hn; destruct (Hcell r) as (r' & ->); done. }
  assert (Hent : forall q e0, <[k := e']> (entries d) !! q = Some e0 -> EntryOk q e0).
  { intros q e0 [[<- <-]|[_ Hq]]%lookup_insert_Some; auto. }
  assert (Hset : forall q e0, <[k := e']> (entries d) !! q = Some e0 -> q <> k ->
    complete e0 = true \/ error e0 <> None \/ exists c0 s0, (c0, s0) ∈ rest /\ session_key s0 = Some q).
  { intros q e0 Hq Hne. rewrite lookup_insert_ne in Hq by done.
    destruct (iv_settled0 q e0 Hq) as [?|[?|(c0 & s0 & [Heq|Hin]%elem_of_cons & Hk0)]]; [auto..| |eauto 7].
    injection Heq as -> ->. congruence. }
  destruct t as [r|s']; injection Hl as <- <- <-; cbn; split; cbn; rewrite ?Hsize; try done.
  - intros c' s' Hin. by eapply Hrest.
  - intros q e0 Hq. destruct (decide (q = k)) as [->|Hne]; [|eauto].
    rewrite lookup_insert_eq in Hq. injection Hq as <-. tauto.
  - intros c' s0 [[= -> ->]|Hin]%elem_of_cons; [|by eapply Hrest].
    destruct Ht as (Hn' & Hk' & Hs'). eapply session_ok_make; [exact Hk'|cbn; apply lookup_insert_eq|congruence|done|done].
  - intros q e0 Hq. destruct (decide (q = k)) as [->|Hne].
    + right; right. exists c, s'. split; [by apply elem_of_cons; left|apply Ht].
    + destruct (Hset q e0 Hq Hne) as [?|[?|(c0 & s0 & ? & ?)]]; [auto..|]. right; right. exists c0, s0.
      split; [by apply elem_of_cons; right|done].
Qed.

(** The call ends and changes nothing. *)
Lemma stop_inv r d' t ev :
  (forall k e, session_key s = Some k -> entries d !! k = Some e -> error e <> None) ->
  leasing c (d, finished r, []) = (d', t, ev) -> Inv (mkSystem d' (suspended c t ++ rest) (l ++ ev)).
Proof.
  intros Hset [= <- <- <-]. cbn. rewrite app_nil_r. destruct busy_rest as (Hnd & Hnc & Hbr).
  destruct HI as []. cbn in *. split; cbn; try done.
  - intros c' s' Hin. eapply session_frame; [apply iv_session0; by apply elem_of_cons; right|done].
  - intros q e0 Hq. destruct (iv_settled0 q e0 Hq) as [?|[?|(c0 & s0 & [Heq|Hin]%elem_of_cons & Hk0)]]; [auto..| |eauto 7].
    injection Heq as -> ->. right; left. by eapply Hset.
Qed.
End Update.

(** ** Every operation on a held entry is such an update *)
Definition Good (d : Impl) (k : string) (e : Entry) (out : Impl * Turn * list Event) : Prop :=
  exists e' t ev,
    out = (mkImpl (<[k := e']> (entries d)) (completed d ++ (if complete e' then [k] else [])) (busy d), t, ev) /\
    message e' = message e /\ EntryOk k e' /\
    match t with
    | finished _ => complete e' = true \/ error e' <> None
    | awaits s' => complete e' = false /\ session_key s' = Some k /\ session_entry e' s'
    end /\
    Forall (fun x => key_of x = k) ev /\
    forall r, exists r', cell_run (Some (mkCell r (next_part (e_reply e)) false)) ev =
      Some (Some (mkCell r' (next_part (e_reply e')) (complete e'))).

Lemma cell_run_app c l1 l2 :
  cell_run c (l1 ++ l2) = match cell_run c l1 with Some c => cell_run c l2 | None => None end.
Proof. revert c. induction l1 as [|ev l1 IH]; intros c; cbn; [done|]. destruct (cell_step c ev); [apply IH|done]. Qed.

(** Events before an operation that starts at another position. *)
Lemma good_after d k e e1 pre d' t ev :
  message e1 = message e -> Forall (fun x => key_of x = k) pre ->
  (forall r, exists r', cell_run (Some (mkCell r (next_part (e_reply e)) false)) pre =
    Some (Some (mkCell r' (next_part (e_reply e1)) false))) ->
  Good d k e1 (d', t, ev) -> Good d k e (d', t, pre ++ ev).
Proof.
  intros Hm Hpre Hrun (e' & t' & ev' & Hout & Hm' & Hok & Ht & Hev & Hcell). injection Hout as -> -> ->.
  exists e', t', (pre ++ ev'). split_and!; [done|congruence|done|done|by apply Forall_app|].
  intros r. destruct (Hrun r) as (r1 & Hr1). destruct (Hcell r1) as (r2 & Hr2). exists r2.
  by rewrite cell_run_app, Hr1.
Qed.

Lemma entry_ok_same k e e' :
  EntryOk k e -> message e' = message e -> e_reply e' = e_reply e -> EntryOk k e'.
Proof. intros [] Hm Hr. split; rewrite ?Hm, ?Hr; done. Qed.

Lemma fail_good d k e err : EntryOk k e -> complete e = false -> Good d k e (fail d k e err).
Proof.
  intros Hok Hc. eexists (set_error e (Some err)), _, _. unfold fail, put. cbn. rewrite Hc, app_nil_r.
  split_and!; [done|done|by eapply entry_ok_same|by right|done|]. intros r. by exists r.
Qed.

Lemma send_head_good resumed d k e :
  EntryOk k e -> complete e = false -> generated e = true -> (resumed = true -> error e <> None) ->
  Good d k e (send_head adapter o resumed d k e).
Proof.
  intros Hok Hc Hg Hr. unfold send_head. destruct (parts (e_reply e) !! _) as [p|] eqn:Ep.
  - destruct (reply _ _ _ _) as [request|]; [|by apply fail_good].
    eexists e, _, _. unfold put. rewrite Hc, app_nil_r. split_and!; try done; [|intros r; by exists r].
    cbn. split_and!; [done..|by apply lookup_lt_Some in Ep|done].
  - eexists (set_error (set_complete e) None), _, _. unfold put. cbn. rewrite (eo_key _ _ Hok).
    split_and!; [done|done|by eapply entry_ok_same|by left|by repeat constructor|]. intros r. by exists r.
Qed.

Lemma deliver_good resumed d k e :
  EntryOk k e -> complete e = false -> generated e = true -> (resumed = true -> error e <> None) ->
  Good d k e (deliver adapter o resumed d k e).
Proof.
  intros. unfold deliver. destruct (preflight _ _ _ _ _); [by apply send_head_good|by apply fail_good].
Qed.

Lemma after_send_good d k e request resumed a response c :
  EntryOk k e -> complete e = false -> session_entry e (sending k request resumed) ->
  Good d k e (after_send partial_match dump adapter o d k e request resumed a response c).
Proof.
  intros Hok Hc (Hg & Hlt & Hr). unfold after_send.
  set (out := match authorize _ _ _ _ _ _ _ with Some (Ok _) => _ | _ => _ end).
  assert (Hout : Forall (fun x => key_of x = k) out /\
    forall r, cell_run (Some (mkCell r (next_part (e_reply e)) false)) out =
      Some (Some (mkCell r (next_part (e_reply e)) false))).
  { subst out. destruct (authorize _ _ _ _ _ _ _) as [[|]|]; [|by split..]. split; [by repeat constructor|].
    intros r. cbn. by rewrite Nat.eqb_refl. }
  destruct Hout as [Hk Hrun]. destruct (send _ _ _ _ _ _ _ _ _ _) as [receipt|err].
  - set (e1 := set_position e _ _).
    assert (Hok1 : EntryOk k e1) by (destruct Hok; split; cbn; [done|lia|done]).
    pose proof (send_head_good resumed d k e1 Hok1 Hc Hg Hr) as HG.
    destruct (send_head _ _ resumed d k e1) as [[d' t] ev]. rewrite cons_middle, app_assoc.
    apply (good_after d k e e1); [done|apply Forall_app; split; [done|by repeat constructor]| |done].
    intros r. exists r. rewrite cell_run_app, Hrun. cbn. by rewrite Nat.eqb_refl.
  - pose proof (fail_good d k e (Errors.with_ctx err "confirmed_parts" (pretty (next_part (e_reply e)))) Hok Hc) as HG.
    destruct (fail _ _ _ _) as [[d' t] ev]. apply (good_after d k e e); [done|done| |done]. eauto.
Qed.

Lemma good_view d k e e1 out :
  message e1 = message e -> next_part (e_reply e1) = next_part (e_reply e) -> Good d k e1 out -> Good d k e out.
Proof.
  intros Hm Hv. destruct out as [[d' t] ev]. apply (good_after d k e e1 []); [done|constructor|].
  intros r. exists r. by rewrite Hv.
Qed.

Lemma reply_parts_valid m answer ps :
  reply_parts adapter o m answer = Ok ps -> Forall (fun p => valid_part (limit_of m) p = true) ps.
Proof.
  unfold reply_parts. destruct (_ <? _); [done|]. intros (l & _ & H)%result_bind_ok. revert H.
  destruct (negb (blank answer) && (length l =? 0) || _)%bool; [done|].
  destruct (forallb _ _) eqn:E; [|done]. intros [= <-].
  apply Forall_forall. intros p Hp. rewrite forallb_forall in E. apply E. by apply list_elem_of_In.
Qed.

Lemma after_run_good d k e r :
  EntryOk k e -> complete e = false -> generated e = false /\ next_part (e_reply e) = 0 ->
  Good d k e (after_run adapter o d k e r).
Proof.
  intros Hok Hc [Hg Hz]. unfold after_run. destruct r as [|answer c n joined]; [by apply fail_good|].
  assert (Hf : forall n, EntryOk k (set_failures e n)) by (intros; by eapply entry_ok_same).
  destruct joined as [failed|err]; [|apply (good_view _ _ _ (set_failures e n)); [done|done|apply fail_good; [apply Hf|done]]].
  apply (good_view _ _ _ (set_failures e (n + failed))); [done|done|].
  destruct (default _ answer) as [text|err]; [|apply fail_good; [apply Hf|done]].
  destruct (reply_parts _ _ _ _) as [ps|err] eqn:Ep; [|apply fail_good; [apply Hf|done]].
  set (e1 := set_parts _ ps). apply (good_view _ _ _ e1); [done|done|].
  assert (Hok1 : EntryOk k e1).
  { destruct Hok. split; cbn; [done|lia|]. by apply reply_parts_valid in Ep. }
  destruct c; [by apply fail_good|]. by apply deliver_good.
Qed.

Lemma after_recover_good d k e next a c :
  EntryOk k e -> complete e = false -> session_entry e (recovering k next) ->
  authorize partial_match dump o (message e) "ChannelReceive" None a = Some (Ok tt) ->
  Good d k e (after_recover partial_match dump adapter o d k e next a c).
Proof.
  intros Hok Hc (Hg & Hn & He) Ha. unfold after_recover. rewrite Ha.
  set (e1 := set_position e next next).
  assert (Hok1 : EntryOk k e1) by (destruct Hok; split; cbn; [done|lia|done]).
  pose proof (deliver_good true d k e1 Hok1 Hc Hg (fun _ => He)) as HG.
  destruct (deliver _ _ true d k e1) as [[d' t] ev].
  apply (good_after d k e e1 [rewound k next]); [done|by repeat constructor| |done].
  intros r. exists r. cbn. destruct (Nat.leb_spec (next_part (e_reply e)) next); [done|lia].
Qed.

(** ** Admission *)
(** The entry completed first makes room. *)
Lemma make_room_inv d ss l d' ev :
  Inv (mkSystem d ss l) -> make_room o d = Some (d', ev) -> 0 < capacity o ->
  Inv (mkSystem d' ss (l ++ ev)) /\ size (entries d') < capacity o /\
  forall k, entries d !! k = None -> entries d' !! k = None.
Proof.
  intros HI Hm Hpos. unfold make_room in Hm. destruct (Nat.ltb_spec (size (entries d)) (capacity o)) as [Hlt|Hge].
  { injection Hm as <- <-. by rewrite app_nil_r. }
  destruct (completed d) as [|front rest] eqn:Ec; [done|]. injection Hm as <- <-. destruct HI. cbn in *.
  rewrite Ec in *. apply NoDup_cons in iv_once0 as [Hf Hr].
  destruct (proj1 (iv_completed0 front) ltac:(by apply elem_of_cons; left)) as (e & He & Hce).
  assert (Hsz : S (size (delete front (entries d))) = size (entries d)).
  { rewrite <- (map_size_insert_None front e) by apply lookup_delete_eq. f_equal. by rewrite insert_delete_id. }
  assert (Hfree : forall c s, session_ok d c s -> session_key s <> Some front).
  { intros c s Hs Hk. destruct (session_ok_key _ _ _ _ Hs Hk) as (e' & ? & _ & ? & _). congruence. }
  split_and!; [split; cbn; try done|cbn; lia|intros k Hk; cbn; by rewrite lookup_delete_None; right].
  - lia.
  - intros k e0 [_ Hk]%lookup_delete_Some. auto.
  - intros k. specialize (iv_completed0 k). rewrite elem_of_cons in iv_completed0. split.
    + intros Hk. destruct (proj1 iv_completed0 (or_intror Hk)) as (e0 & ? & ?). exists e0.
      rewrite lookup_delete_ne; [done|]. by intros ->.
    + intros (e0 & [Hne Hk]%lookup_delete_Some & ?). destruct (proj2 iv_completed0) as [->|?]; [eauto|done|done].
  - intros c s Hin. apply iv_session0 in Hin as Hs. eapply session_frame; [exact Hs|]. intros k Hk. cbn.
    apply lookup_delete_ne. intros <-. by eapply Hfree.
  - intros k e0 [_ Hk]%lookup_delete_Some. eauto.
  - eapply (log_update _ _ _ front (fun _ => None)); [exact iv_log0|by repeat constructor| |done].
    rewrite He. intros [[r n b]|]; [|done]. cbn. intros [= -> ->]. by rewrite Hce.
Qed.

Lemma admit_inv d c m rest l tail :
  Inv (mkSystem d ((c, receiving m) :: rest) l) -> entries d !! event_key m = None ->
  size (entries d) < capacity o -> tail = [] \/ tail = [ran (event_key m)] ->
  Inv (mkSystem (put d (event_key m) (new_entry m)) ((c, running (event_key m)) :: rest)
    (l ++ admitted (event_key m) :: tail)).
Proof.
  intros [] Hk Hlt Htail. cbn in *.
  assert (Hc : conv_of m = c) by (apply (iv_session0 c (receiving m)); by apply elem_of_cons; left).
  split; cbn; try done.
  - rewrite map_size_insert_None by done. lia.
  - intros q e [[<- <-]|[_ Hq]]%lookup_insert_Some; [|auto]. split; cbn; [done|lia|constructor].
  - intros q. rewrite iv_completed0. split; intros (e & He & Hce).
    + exists e. rewrite lookup_insert_ne; [done|]. intros <-. congruence.
    + apply lookup_insert_Some in He as [[<- <-]|[_ He]]; [done|eauto].
  - intros c' s [[= -> ->]|Hin]%elem_of_cons.
    + exists (event_key m), (new_entry m). split_and!; [done|apply lookup_insert_eq|done..].
    + eapply session_frame; [apply iv_session0; by apply elem_of_cons; right|].
      intros q Hq. cbn. apply lookup_insert_ne. intros <-.
      destruct (session_ok_key d c' s (event_key m)) as (e & He & _); [|done|congruence].
      apply iv_session0. by apply elem_of_cons; right.
  - intros q e [[<- <-]|[_ Hq]]%lookup_insert_Some.
    + right; right. exists c, (running (event_key m)). split; [by apply elem_of_cons; left|done].
    + destruct (iv_settled0 q e Hq) as [?|[?|(c0 & s0 & [[= -> ->]|?]%elem_of_cons & ?)]]; [auto..|done|].
      right; right. exists c0, s0. split; [by apply elem_of_cons; right|done].
  - eapply (log_update _ _ _ (event_key m)
      (fun _ => Some (mkCell (match tail with [] => false | _ => true end) 0 false)));
      [exact iv_log0|destruct Htail as [->| ->]; by repeat constructor| |done].
    rewrite Hk. intros [p|]; [done|]. intros _. by destruct Htail as [->| ->].
Qed.

(** ** Every step *)
(** A call enters a conversation that is free. *)
Lemma enter_inv d m s ss l :
  Inv (mkSystem d ss l) -> conv_of m ∉ busy d ->
  session_ok (mkImpl (entries d) (completed d) ({[conv_of m]} ∪ busy d)) (conv_of m) s ->
  Inv (mkSystem (mkImpl (entries d) (completed d) ({[conv_of m]} ∪ busy d)) ((conv_of m, s) :: ss) l).
Proof.
  intros [] Hb Hs. cbn in *. split; cbn; try done.
  - apply NoDup_cons. by rewrite <- iv_busy0.
  - intros c. rewrite elem_of_union, elem_of_singleton, elem_of_cons, iv_busy0. done.
  - intros c s' [[= -> ->]|Hin]%elem_of_cons; [done|]. eapply session_frame; [by apply iv_session0|done].
  - intros k e He. destruct (iv_settled0 k e He) as [?|[?|(c & s' & ? & ?)]]; [auto..|].
    right; right. exists c, s'. split; [by apply elem_of_cons; right|done].
Qed.

Lemma handle_inv d m d' t ev ss l :
  Inv (mkSystem d ss l) -> handle adapter o d m = (d', t, ev) ->
  Inv (mkSystem d' (suspended (conv_of m) t ++ ss) (l ++ ev)).
Proof.
  intros HI. unfold handle. destruct (validate _ _); [|intros [= <- <- <-]; by rewrite app_nil_r].
  case_bool_decide as Hb; [intros [= <- <- <-]; by rewrite app_nil_r|].
  destruct (_ <=? _); intros [= <- <- <-]; rewrite app_nil_r; [done|]. by apply enter_inv.
Qed.

Lemma resume_inv d m next d' t ev ss l :
  Inv (mkSystem d ss l) -> resume d m next = (d', t, ev) ->
  Inv (mkSystem d' (suspended (conv_of m) t ++ ss) (l ++ ev)).
Proof.
  intros HI. unfold resume. case_bool_decide as Hb; [intros [= <- <- <-]; by rewrite app_nil_r|].
  destruct (pending_entry d (event_key m)) as [e|] eqn:Ep; [|intros [= <- <- <-]; by rewrite app_nil_r].
  unfold pending_entry in Ep. destruct (entries d !! event_key m) as [e'|] eqn:He; [|done].
  destruct (generated e' && negb (complete e'))%bool eqn:Eg; [|done]. injection Ep as ->.
  apply andb_prop in Eg as [Hg Hc%negb_true_iff].
  destruct (_ || _)%bool eqn:En; intros [= <- <- <-]; rewrite app_nil_r; [done|].
  apply orb_false_elim in En as [Hn1%Nat.ltb_ge Hn2%Nat.ltb_ge].
  pose proof (iv_entry _ HI _ _ He) as Hok. destruct (event_key_conv _ _ (eo_key _ _ Hok)) as [Hconv _].
  apply enter_inv; [done|done|]. exists (event_key m), e. split_and!; try done. split_and!; [done|lia|lia|].
  destruct (iv_settled _ HI _ _ He) as [?|[?|(c & s & Hin & Hk)]]; [congruence|done|]. exfalso. cbn in Hin.
  destruct (session_ok_key _ _ _ _ (iv_session _ HI _ _ Hin) Hk) as (e0 & He0 & Hc0 & _). cbn in He0.
  apply Hb, (iv_busy _ HI). apply list_elem_of_fmap. exists (c, s). split; [cbn; congruence|done].
Qed.

Lemma acknowledge_inv d m d' r ev ss l :
  Inv (mkSystem d ss l) -> acknowledge_failure d m = (d', r, ev) -> Inv (mkSystem d' ss (l ++ ev)).
Proof.
  intros HI. unfold acknowledge_failure. case_bool_decide as Hb; [intros [= <- <- <-]; by rewrite app_nil_r|].
  destruct (entries d !! event_key m) as [e|] eqn:He; [|intros [= <- <- <-]; by rewrite app_nil_r].
  destruct (error e) as [err|] eqn:Ee; [|intros [= <- <- <-]; by rewrite app_nil_r].
  destruct (complete e) eqn:Ec; intros [= <- <- <-]; [by rewrite app_nil_r|].
  pose proof (iv_entry _ HI _ _ He) as Hok. destruct HI. cbn in *.
  destruct (completed_update d (event_key m) e (set_complete e)) as [Hcn Hcomp]; [done..|].
  split; cbn; try done.
  - rewrite map_size_insert_Some; [done|eauto].
  - intros q e0 [[<- <-]|[_ Hq]]%lookup_insert_Some; [by eapply entry_ok_same|auto].
  - intros c s Hin. eapply session_frame; [by apply iv_session0|]. intros k Hk. cbn. apply lookup_insert_ne.
    intros <-. destruct (session_ok_key _ _ _ _ (iv_session0 _ _ Hin) Hk) as (e0 & He0 & Hc0 & _).
    destruct (event_key_conv _ _ (eo_key _ _ Hok)) as [Hconv _]. apply Hb, iv_busy0, list_elem_of_fmap.
    exists (c, s). split; [cbn; congruence|done].
  - intros q e0 [[<- <-]|[_ Hq]]%lookup_insert_Some; [by left|eauto].
  - apply (log_update _ _ _ (event_key m) (fun p => default None (cell_run p [settled (event_key m)]))
      (Some (set_complete e)) iv_log0); [by repeat constructor|..]; rewrite He;
      (intros [[r n b]|]; [|done]); cbn; intros [= -> ->]; by rewrite Ec.
Qed.

Lemma delivery_received_inv d c m a started cc rest l d' t ev :
  0 < capacity o -> Inv (mkSystem d ((c, receiving m) :: rest) l) ->
  leasing c (after_receive partial_match dump o d m a started cc) = (d', t, ev) ->
  Inv (mkSystem d' (suspended c t ++ rest) (l ++ ev)).
Proof.
  intros Hpos HI. assert (Hstop : forall r, leasing c (d, finished r, []) = (d', t, ev) ->
    Inv (mkSystem d' (suspended c t ++ rest) (l ++ ev))) by (intros r; by eapply stop_inv).
  unfold after_receive. destruct (authorize _ _ _ _ _ _ _) as [[[]|e]|]; [|apply Hstop..].
  destruct (entries d !! event_key m) as [found|] eqn:Hk; [destruct (error found); apply Hstop|].
  destruct (make_room o d) as [[d1 ev1]|] eqn:Em; [|apply Hstop].
  destruct (make_room_inv _ _ _ _ _ HI Em Hpos) as (HI1 & Hlt & Hnone). apply Hnone in Hk. clear Hstop Hnone Em HI.
  assert (Hfail : forall err, (let '(d, t, ev') := fail d1 (event_key m) (new_entry m) err in
      leasing c (d, t, (ev1 ++ [admitted (event_key m)]) ++ ev')) = (d', t, ev) ->
    Inv (mkSystem d' (suspended c t ++ rest) (l ++ ev))).
  { intros err Hf. pose proof (admit_inv d1 c m rest _ [] HI1 Hk Hlt (or_introl eq_refl)) as HI2.
    assert (Hc : conv_of m = c) by (apply (iv_session _ HI1 c (receiving m)); by apply elem_of_cons; left).
    unfold fail in Hf. cbn in Hf. injection Hf as <- <- <-. rewrite app_nil_r, app_assoc.
    assert (Hok : EntryOk (event_key m) (new_entry m)) by (apply (iv_entry _ HI2); apply lookup_insert_eq).
    pose proof (delivery_update_inv _ _ _ _ _ HI2 (event_key m) (new_entry m) (set_error (new_entry m) (Some err))
      (finished (Err err)) [] []) as HU. cbn in HU. rewrite !app_nil_r, insert_insert_eq in HU. eapply HU; try done.
    - apply lookup_insert_eq.
    - by right.
    - intros r. by exists r. }
  destruct started as [[[]|err]|]; [|apply Hfail..].
  intros [= <- <- <-]. pose proof (admit_inv d1 c m rest _ [ran (event_key m)] HI1 Hk Hlt (or_intror eq_refl)) as HI2.
  rewrite <- app_assoc in HI2. by rewrite <- (app_assoc ev1).
Qed.

Lemma good_inv d c s rest l k e out d' t ev :
  Inv (mkSystem d ((c, s) :: rest) l) -> session_key s = Some k -> entries d !! k = Some e ->
  conv_of (message e) = c -> complete e = false -> Good d k e out -> leasing c out = (d', t, ev) ->
  Inv (mkSystem d' (suspended c t ++ rest) (l ++ ev)).
Proof.
  intros HI Hk He Hc Hn (e' & t0 & ev0 & -> & Hm & Hok & Ht & Hev & Hcell) Hl.
  by eapply (delivery_update_inv d c s rest l HI k e e' t0 ev0).
Qed.

Lemma on_inv d c s r rest l d' t ev :
  0 < capacity o -> Inv (mkSystem d ((c, s) :: rest) l) -> goes_on partial_match dump adapter o d s r ->
  leasing c r = (d', t, ev) -> Inv (mkSystem d' (suspended c t ++ rest) (l ++ ev)).
Proof.
  intros Hpos HI Hon Hl. assert (Hs : session_ok d c s) by (apply (iv_session _ HI); by apply elem_of_cons; left).
  destruct Hon as [m a started cc|key e r He|key e request resumed a response cc He|key request cc|key e next a cc He].
  - by eapply delivery_received_inv.
  - destruct (session_ok_key _ _ _ key Hs eq_refl) as (e0 & He0 & Hc & Hn & Hse). assert (e0 = e) as -> by congruence.
    eapply (good_inv d c (running key) rest l key e); [done..| |exact Hl].
    apply after_run_good; [by apply (iv_entry _ HI)|done|done].
  - destruct (session_ok_key _ _ _ key Hs eq_refl) as (e0 & He0 & Hc & Hn & Hse). assert (e0 = e) as -> by congruence.
    eapply (good_inv d c (sending key request resumed) rest l key e); [done..| |exact Hl].
    apply after_send_good; [by apply (iv_entry _ HI)|done|done].
  - destruct (session_ok_key _ _ _ key Hs eq_refl) as (e & He & Hc & Hn & Hse). eapply stop_inv; [exact HI| |exact Hl].
    intros k' e' [= <-] He'. assert (e' = e) as -> by congruence. by apply Hse.
  - destruct (session_ok_key _ _ _ key Hs eq_refl) as (e0 & He0 & Hc & Hn & Hse). assert (e0 = e) as -> by congruence.
    assert (Hstop : forall err, leasing c (d, finished (Err err), []) = (d', t, ev) ->
      Inv (mkSystem d' (suspended c t ++ rest) (l ++ ev))).
    { intros err. eapply stop_inv; [exact HI|]. intros k' e' [= <-] He'. assert (e' = e) as -> by congruence. apply Hse. }
    destruct (authorize partial_match dump o (message e) "ChannelReceive" None a) as [[[]|err]|] eqn:Ea.
    + eapply (good_inv d c (recovering key next) rest l key e); [done..| |exact Hl].
      apply after_recover_good; [by apply (iv_entry _ HI)|done|done|done].
    + unfold after_recover in Hl. rewrite Ea in Hl. by eapply Hstop.
    + unfold after_recover in Hl. rewrite Ea in Hl. by eapply Hstop.
Qed.

Lemma delivery_inv x :
  reachable partial_match dump adapter o x -> 0 < capacity o /\ Inv x.
Proof.
  induction 1 as [d Ho|x y _ [Hpos IH] Hs].
  - unfold create in Ho. destruct (Nat.eqb_spec (capacity o) 0); [done|].
    destruct (_ || _)%bool; [done|]. injection Ho as <-. split; [lia|]. split; cbn; try done.
    + constructor.
    + intros c. split; [by intros ?%elem_of_empty|by intros ?%not_elem_of_nil].
    + rewrite map_size_empty. lia.
    + constructor.
    + intros k. split; [by intros ?%not_elem_of_nil|]. by intros (e & ? & _).
    + by intros c s ?%not_elem_of_nil.
    + by exists ∅.
  - split; [done|]. destruct Hs as [m d d' t ev ss l Hh|m next d d' t ev ss l Hr|conv s r d d' t ev ss rest l Hp Hon Hl|
      m r d d' ev ss l Ha].
    + by eapply handle_inv.
    + by eapply resume_inv.
    + eapply on_inv; [done| |done|done]. by eapply dispatcher_inv_perm.
    + by eapply acknowledge_inv.
Qed.
End Invariant.

(** ** What the protocol promises *)
Definition of_key (k : string) (l : list Event) : list Event :=
  List.filter (fun ev => bool_decide (key_of ev = k)) l.

Lemma spec_run_cell k l : forall σ σ', spec_run σ l = Some σ' -> cell_run (σ !! k) (of_key k l) = Some (σ' !! k).
Proof.
  induction l as [|ev l IH]; cbn; intros σ σ'; [by intros [= <-]|].
  unfold spec_step. destruct (cell_step (σ !! key_of ev) ev) as [c|] eqn:Es; [|done]. intros Hr.
  specialize (IH _ _ Hr). case_bool_decide as Hk.
  - cbn. rewrite <- Hk, Es. rewrite <- Hk, lookup_partial_alter_eq in IH. exact IH.
  - by rewrite lookup_partial_alter_ne in IH.
Qed.

Lemma of_key_app k l1 l2 : of_key k (l1 ++ l2) = of_key k l1 ++ of_key k l2.
Proof. apply List.filter_app. Qed.

Lemma of_key_cons k ev l : key_of ev = k -> of_key k (ev :: l) = ev :: of_key k l.
Proof. intros H. unfold of_key. cbn. by rewrite bool_decide_eq_true_2. Qed.

Lemma of_key_sublist k l : sublist (of_key k l) l.
Proof. induction l as [|ev l IH]; cbn; [constructor|]. case_bool_decide; by constructor. Qed.

Lemma of_key_key k l : Forall (fun ev => key_of ev = k) (of_key k l).
Proof. apply Forall_forall. intros ev. rewrite list_elem_of_In. intros [_ ?%bool_decide_eq_true]%filter_In. done. Qed.

(** A turn runs again only after its event was settled and forgotten. *)
Lemma run_again k l : forall c c',
  Forall (fun ev => key_of ev = k) l -> cell_run (Some c) l = Some c' -> c_ran c = true ->
  cell_step c' (ran k) <> None ->
  if c_settled c then sublist [evicted k] l else sublist [settled k; evicted k] l.
Proof.
  induction l as [|ev l IH]; intros c c' Hk Hr Hran Hag; cbn in Hr.
  - injection Hr as <-. destruct c as [[] [] []]; done.
  - inversion Hk as [|? ? Hkev Hk']; subst. destruct c as [r n b]. cbn in Hran. subst r.
    destruct ev as [q|q|q|q|q i|q i|q i]; cbn in Hr; try done; cbn [c_settled key_of] in *.
    + destruct b; [|done]. constructor. apply sublist_nil_l.
    + destruct b; [done|]. specialize (IH _ _ Hk' Hr eq_refl Hag). by constructor.
    + destruct b; [done|]. destruct (n =? i); [|done]. specialize (IH _ _ Hk' Hr eq_refl Hag). by constructor.
    + destruct b; [done|]. destruct (n =? i); [|done]. specialize (IH _ _ Hk' Hr eq_refl Hag). by constructor.
    + destruct b; [done|]. destruct (n <=? i); [|done]. specialize (IH _ _ Hk' Hr eq_refl Hag). by constructor.
Qed.

(** The cursor of an event that is kept never goes back. *)
Lemma cursor_grows l : forall c c',
  cell_run (Some c) l = Some c' -> (forall k, evicted k ∉ l) ->
  exists c1, c' = Some c1 /\ c_cursor c <= c_cursor c1.
Proof.
  induction l as [|ev l IH]; intros c c' Hr Hne; cbn in Hr; [injection Hr as <-; eauto|].
  assert (Hne' : forall k, evicted k ∉ l) by (intros k Hin; apply (Hne k); by apply elem_of_cons; right).
  assert (Hstep : exists c2, cell_step (Some c) ev = Some (Some c2) /\ c_cursor c <= c_cursor c2).
  { destruct c as [r n b], ev as [q|q|q|q|q i|q i|q i]; cbn in *; try done.
    - destruct r; [done|]. destruct n; [|done]. destruct b; [done|]. eexists. split; [done|]. cbn. lia.
    - exfalso. apply (Hne q). by apply elem_of_cons; left.
    - destruct b; [done|]. eexists. split; [done|]. cbn. lia.
    - destruct b; [done|]. destruct (n =? i); [|done]. eexists. split; [done|]. cbn. lia.
    - destruct b; [done|]. destruct (Nat.eqb_spec n i); [|done]. eexists. split; [done|]. cbn. lia.
    - destruct b; [done|]. destruct (Nat.leb_spec n i); [|done]. eexists. split; [done|]. cbn. lia. }
  destruct Hstep as (c2 & Hs & Hle). rewrite Hs in Hr. destruct (IH _ _ Hr Hne') as (c1 & -> & ?).
  exists c1. split; [done|lia].
Qed.

Lemma spec_runs_once k σ l1 l2 l3 :
  spec_run ∅ (l1 ++ ran k :: l2 ++ ran k :: l3) = Some σ -> sublist [settled k; evicted k] l2.
Proof.
  intros H. apply (spec_run_cell k) in H. rewrite of_key_app, of_key_cons, of_key_app, of_key_cons in H by done.
  rewrite cell_run_app in H. destruct (cell_run (∅ !! k) (of_key k l1)) as [c|]; [|done]. cbn in H.
  destruct c as [[[] [] []]|]; try done. rewrite cell_run_app in H.
  destruct (cell_run _ (of_key k l2)) as [c2|] eqn:E; [|done]. etransitivity; [|apply (of_key_sublist k)].
  apply (run_again k _ _ _ (of_key_key k l2) E eq_refl). intros Hn. cbn [cell_run] in H. by rewrite Hn in H.
Qed.

Lemma spec_parts_once k i j σ l1 l2 l3 :
  spec_run ∅ (l1 ++ confirmed k i :: l2 ++ sent k j :: l3) = Some σ -> evicted k ∉ l2 -> i < j.
Proof.
  intros H Hne. apply (spec_run_cell k) in H. rewrite of_key_app, of_key_cons, of_key_app, of_key_cons in H by done.
  rewrite cell_run_app in H. destruct (cell_run (∅ !! k) (of_key k l1)) as [c|]; [|done]. cbn in H.
  destruct c as [[r n []]|]; try done. destruct (Nat.eqb_spec n i) as [Hni|]; [|done]. rewrite cell_run_app in H.
  destruct (cell_run _ (of_key k l2)) as [c2|] eqn:E; [|done]. apply cursor_grows in E as (c1 & -> & Hle).
  - cbn in H. destruct c1 as [r1 n1 []]; [done|]. destruct (Nat.eqb_spec n1 j); [|done]. cbn in Hle. lia.
  - intros q Hq. pose proof (proj1 (Forall_forall _ _) (of_key_key k l2) _ Hq) as Hkq. cbn in Hkq. subst q.
    apply Hne. eapply (elem_of_submseteq _ l2); [exact Hq|]. apply sublist_submseteq, of_key_sublist.
Qed.

(** ** The theorems *)
Section Theorems.
Context (partial_match : string -> string -> bool) (dump : JsonWriter) (adapter : Adapter) (o : DispatcherOptions).

(** C38: the dispatcher implements the delivery protocol: its effects are a run of it, and the protocol's cells
    are its entries, with their cursor and whether they are settled. *)
Theorem dispatcher_refines_protocol (x : System) :
  reachable partial_match dump adapter o x ->
  exists σ, spec_run ∅ (log x) = Some σ /\
    forall k, cell_view <$> σ !! k = entry_view <$> entries (impl x) !! k.
Proof. intros [_ HI]%delivery_inv. apply (iv_log _ _ _ HI). Qed.

(** the turn of an event is run again only after its delivery was completed or acknowledged, and then
    forgotten to make room; while the event is retained its turn runs once. *)
Theorem dispatcher_runs_once (x : System) (k : string) (l1 l2 l3 : list Event) :
  reachable partial_match dump adapter o x -> log x = l1 ++ ran k :: l2 ++ ran k :: l3 ->
  sublist [settled k; evicted k] l2.
Proof. intros [_ [_ _ _ _ _ _ _ _ (σ & Hσ & _)]]%delivery_inv Hl. rewrite Hl in Hσ. by eapply spec_runs_once. Qed.

(** a part whose send was confirmed is never handed to the transport again while the event is retained,
    recoveries included: every later send is of a later part. *)
Theorem dispatcher_parts_once (x : System) (k : string) (i j : nat) (l1 l2 l3 : list Event) :
  reachable partial_match dump adapter o x -> log x = l1 ++ confirmed k i :: l2 ++ sent k j :: l3 ->
  evicted k ∉ l2 -> i < j.
Proof. intros [_ [_ _ _ _ _ _ _ _ (σ & Hσ & _)]]%delivery_inv Hl. rewrite Hl in Hσ. by eapply spec_parts_once. Qed.

(** at most one call works on a conversation, the entries never exceed the capacity, every suspended call
    still has the entry it refers to, and an entry that no call works on is delivered or keeps its error. *)
Theorem dispatcher_retains (x : System) :
  reachable partial_match dump adapter o x ->
  NoDup (map fst (sessions x)) /\ size (entries (impl x)) <= capacity o /\
  (forall c s k, (c, s) ∈ sessions x -> session_key s = Some k ->
    exists e, entries (impl x) !! k = Some e /\ conv_of (message e) = c /\ complete e = false) /\
  (forall k e, entries (impl x) !! k = Some e -> event_key (message e) = k /\
    (complete e = true \/ error e <> None \/ exists c s, (c, s) ∈ sessions x /\ session_key s = Some k)).
Proof.
  intros [_ HI]%delivery_inv. pose proof HI as []. split_and!; [done|done| |].
  - intros c s k Hin Hk. destruct (session_ok_key _ _ _ _ (iv_session0 c s Hin) Hk) as (e & ? & ? & ? & _). eauto.
  - intros k e He. split; [by apply (iv_entry0 k e He)|eauto].
Qed.
End Theorems.

(** ** Runs *)
Module Demo.
Definition partial_match (pattern input : string) : bool := true.
Definition dump : JsonWriter := fun _ => "{}".
Definition adapter (limit : nat) : Adapter :=
  mkAdapter qq (fun _ => mkCapabilities no_activity false limit)
    (fun m text part => Ok (mkRequest "POST" "/messages" text))
    (fun r => Ok (mkReceipt "m1" "")).
Definition options : DispatcherOptions := mkOptions [] permissive 1 100 1000 1000 None None.
Definition message_of (chat event : string) : Message :=
  mkMessage (mkConversation qq "bot" direct chat "") event "1" "user" "hello" None None "".
Definition calm : Await := mkAwait false false.
Definition answered (text : string) : RunOutcome := run_done (Some (Ok text)) false 0 (Ok 0).
Definition response : option (Result Response) := Some (Ok (mkResponse 200 "{}" None)).

Section Play.
Context (limit : nat).
Abbreviation reached := (reachable partial_match dump (adapter limit) options).

Definition next (conv : string) (rest : list (string * Session)) (l : list Event) (r : Impl * Turn * list Event) : System :=
  let '(d, t, ev) := r in mkSystem d (suspended conv t ++ rest) (l ++ ev).
Definition call (x : System) (m : Message) : System :=
  next (conv_of m) (sessions x) (log x) (handle (adapter limit) options (impl x) m).
(** The first suspended call goes on: everything it awaits succeeds. *)
Definition go (text : string) (x : System) : System :=
  match sessions x with
  | (c, s) :: rest =>
      let d := impl x in
      match s with
      | receiving m =>
          next c rest (log x) (leasing c (after_receive partial_match dump options d m calm (Some (Ok tt)) false))
      | running k =>
          match entries d !! k with
          | Some e => next c rest (log x) (leasing c (after_run (adapter limit) options d k e (answered text)))
          | None => x
          end
      | sending k request b =>
          match entries d !! k with
          | Some e => next c rest (log x)
              (leasing c (after_send partial_match dump (adapter limit) options d k e request b calm response false))
          | None => x
          end
      | recovering _ _ => x
      end
  | [] => x
  end.

Lemma start_reached : reached (mkSystem (mkImpl ∅ [] ∅) [] []).
Proof. by apply reach_create. Qed.

Lemma call_reached x m : reached x -> reached (call x m).
Proof.
  intros H. eapply reach_step; [exact H|]. unfold call, next. destruct x as [d ss l]. cbn.
  destruct (handle _ _ d m) as [[d' t] ev] eqn:E. by apply step_handle.
Qed.

Lemma go_reached text x : reached x -> reached (go text x).
Proof.
  intros H. unfold go. destruct x as [d [|[c s] rest] l]; [done|]. cbn [sessions impl log].
  assert (Hgo : forall r, goes_on partial_match dump (adapter limit) options d s r ->
    reached (next c rest l (leasing c r))).
  { intros r Hr. eapply reach_step; [exact H|]. unfold next. destruct (leasing c r) as [[d' t] ev] eqn:E.
    by eapply step_on. }
  destruct s; [apply Hgo; constructor|destruct (entries d !! key) eqn:E; [apply Hgo; by constructor|done]..|done].
Qed.
End Play.

Definition start : System := mkSystem (mkImpl ∅ [] ∅) [] [].
Definition deliver_short (x : System) (m : Message) : System := go 100 "hi" (go 100 "hi" (go 100 "hi" (call 100 x m))).
Definition first : Message := message_of "alice" "e1".
Definition second : Message := message_of "bob" "e2".
(** One slot: the second event takes the place of the first, which then runs again. *)
Definition three : System := deliver_short (deliver_short (deliver_short start first) second) first.
Definition between : list Event :=
  [sent (event_key first) 0; confirmed (event_key first) 0; settled (event_key first); evicted (event_key first);
   admitted (event_key second); ran (event_key second); sent (event_key second) 0; confirmed (event_key second) 0;
   settled (event_key second); evicted (event_key second); admitted (event_key first)].

Lemma three_reached : reachable partial_match dump (adapter 100) options three.
Proof. unfold three, deliver_short. repeat first [apply go_reached|apply call_reached]. apply start_reached. Qed.

(** A reply of two parts. *)
Definition two_parts : System := go 4 "" (go 4 "" (go 4 "hellohi" (go 4 "" (call 4 start first)))).
Lemma two_parts_reached : reachable partial_match dump (adapter 4) options two_parts.
Proof. unfold two_parts. repeat first [apply go_reached|apply call_reached]. apply start_reached. Qed.

Lemma dispatcher_refines_protocol_witness : exists σ, spec_run ∅ (log three) = Some σ.
Proof.
  destruct (dispatcher_refines_protocol _ _ _ _ three three_reached) as (σ & H & _). exists σ. exact H.
Defined.

Lemma dispatcher_runs_once_witness : sublist [settled (event_key first); evicted (event_key first)] between.
Proof.
  apply (dispatcher_runs_once _ _ _ _ three (event_key first) [admitted (event_key first)] between
    [sent (event_key first) 0; confirmed (event_key first) 0; settled (event_key first)] three_reached).
  vm_compute. reflexivity.
Defined.

Lemma dispatcher_parts_once_witness : 0 < 1.
Proof.
  apply (dispatcher_parts_once _ _ _ _ two_parts (event_key first) 0 1
    [admitted (event_key first); ran (event_key first); sent (event_key first) 0] []
    [confirmed (event_key first) 1; settled (event_key first)] two_parts_reached);
    [vm_compute; reflexivity|apply not_elem_of_nil].
Defined.

Lemma dispatcher_retains_witness : NoDup (map fst (sessions three)) /\ size (entries (impl three)) <= 1.
Proof.
  pose proof (dispatcher_retains _ _ _ _ three three_reached) as (H1 & H2 & _). exact (conj H1 H2).
Defined.
End Demo.
