(* ===== verification/Adapters.v ===== *)
(** * oran-channel: the platform adapters

    Models [src/oran-channel/telegram.cpp], [src/oran-channel/feishu.cpp] and
    [src/oran-channel/qq.cpp]: how an envelope of each platform becomes a message, and the
    requests that answer it.  [Channel] has what the adapters share; each adapter is an
    [Adapter] of [Delivery].  A [Json::exception] is [raise]; the reader and the writer of the
    JSON library are parameters. *)
From S2P Require Import Prelude.
From S2P Require Import Core.
From S2P Require Import Utf8.
From S2P Require Import Json.
From S2P Require Import OrderedJson.
From S2P Require Import Channel.
From S2P Require Import Delivery.

(** ** Reading values

    [at] and [value] raise on a value of another kind. *)
Definition to_exc {A} (o : option A) : Exc A := match o with Some a => Some (Ok a) | None => raise end.
Definition at_ (j : json) (key : string) : Exc json := to_exc (jat j key).
Definition value_or (j : json) (key : string) (fallback : json) : Exc json := to_exc (jvalue j key fallback).
Definition get_string (j : json) : Exc string := match j with JString s => Some (Ok s) | _ => raise end.
Definition value_string (j : json) (key : string) (fallback : string) : Exc string :=
  let% v := value_or j key (JString fallback) in get_string v.
Definition value_bool (j : json) (key : string) (fallback : bool) : Exc bool :=
  let% v := value_or j key (JBool fallback) in
  match v with JBool b => Some (Ok b) | _ => raise end.

(** What a range-based [for] visits: a value that is no container is visited itself. *)
Definition visited (j : json) : list json :=
  match j with JArray l => l | JObject m => map snd m | JNull => [] | _ => [j] end.

Section Numbers.
(** What converting a floating-point number gives when its value does not fit: undefined. *)
Context (unfit : double -> Z).

Definition of_double (fits : Z -> bool) (bits : Z) : Z :=
  let d := double_of_bits bits in
  if is_finite d && fits (truncated d) then truncated d else unfit d.

(** [get<std::uint64_t>()] and [get<int>()]. *)
Definition get_u64 (j : json) : Exc Z :=
  match j with
  | JInt z => Some (Ok (wrap_u 64 z))
  | JFloat bits => Some (Ok (of_double (fun z => (0 <=? z)%Z && (z <? 2 ^ 64)%Z) bits))
  | _ => raise
  end.
Definition get_int (j : json) : Exc Z :=
  match j with
  | JInt z => Some (Ok (wrap_s 32 z))
  | JFloat bits => Some (Ok (of_double (fun z => (- 2 ^ 31 <=? z)%Z && (z <? 2 ^ 31)%Z) bits))
  | JBool b => Some (Ok (Z.b2z b))
  | _ => raise
  end.
Definition value_u64 (j : json) (key : string) : Exc Z := let% v := value_or j key (JInt 0) in get_u64 v.
Definition value_int (j : json) (key : string) (fallback : Z) : Exc Z :=
  let% v := value_or j key (JInt fallback) in get_int v.

End Numbers.

(** ** Texts *)
Definition white (c : ascii) : bool :=
  existsb (Ascii.eqb c) [" "%char; ascii_of_nat 9; ascii_of_nat 13; ascii_of_nat 10].
(** [text.erase(0, text.find_first_not_of(...))]; nothing for a text that is blank. *)
Fixpoint trim_start (text : bytes) : bytes :=
  match text with
  | [] => []
  | c :: rest => if white c then trim_start rest else text
  end.

(** The loop that erases every occurrence of a mention, from the start each time. *)
Fixpoint erase_key (fuel : nat) (key text : bytes) : bytes :=
  match fuel with
  | O => text
  | S fuel =>
      match find_sub key text with
      | None => text
      | Some pos => erase_key fuel key (take pos text ++ drop (pos + length key) text)
      end
  end.
(** Every round shortens the text. *)
Definition erase_all (key text : bytes) : bytes := erase_key (length text) key text.

(** ** Telegram *)
Module Telegram.
(** [number]: [std::from_chars] to the end of the text. *)
Fixpoint decimal (digits : bytes) (value : Z) : option Z :=
  match digits with
  | [] => Some value
  | c :: digits =>
      if (48 <=? code c)%Z && (code c <=? 57)%Z then decimal digits (10 * value + (code c - 48))%Z else None
  end.
Definition from_chars (text : bytes) : option Z :=
  let '(negative, digits) := match text with
    | c :: rest => if Ascii.eqb c "-" then (true, rest) else (false, text)
    | [] => (false, [])
    end in
  match digits with
  | [] => None
  | _ =>
      match decimal digits 0 with
      | Some v =>
          let v := if negative then (- v)%Z else v in
          if (- 2 ^ 63 <=? v)%Z && (v <? 2 ^ 63)%Z then Some v else None
      | None => None
      end
  end.
Definition number (text : string) : Result Z :=
  match from_chars (lit text) with
  | Some z => Ok z
  | None => Err (Errors.invalid_argument "invalid Telegram numeric identifier")
  end.

Definition capabilities (_ : ChatKind) : Capabilities := mkCapabilities renewable true 4000.

Section Decode.
Context (unfit : double -> Z).

Definition photo_area (size : json) : Exc Z :=
  let% w := at_ size "width" in let% w := get_u64 unfit w in
  let% h := at_ size "height" in let% h := get_u64 unfit h in Some (Ok (wrap_u 64 (w * h))).
(** [std::ranges::max_element]: the first of the largest; the areas are compared, never one alone. *)
Fixpoint largest (best : json) (sizes : list json) : Exc json :=
  match sizes with
  | [] => Some (Ok best)
  | size :: sizes =>
      let% a := photo_area best in let% b := photo_area size in
      largest (if (a <? b)%Z then size else best) sizes
  end.

Definition image_attachment (message : json) : Exc (option ImageAttachment) :=
  match jfind message "photo" with
  | Some (JArray []) => Some (Err (Errors.parsing "empty Telegram photo"))
  | Some (JArray (first :: rest)) =>
      let% photo := largest first rest in
      let% file := at_ photo "file_id" in let% file := get_string file in
      let% size := value_u64 unfit photo "file_size" in
      Some (Ok (Some (mkImage file "image/jpeg" size)))
  | Some _ => raise
  | None =>
      match jfind message "document" with
      | None => Some (Ok None)
      | Some document =>
          let% media := value_string document "mime_type" "" in
          if starts_with (lit "image/") (lit media) then
            let% file := at_ document "file_id" in let% file := get_string file in
            let% size := value_u64 unfit document "file_size" in
            Some (Ok (Some (mkImage file media size)))
          else Some (Ok None)
      end
  end.

(** [original.value("text", original.value("caption", ""))]: the inner value is read first. *)
Definition text_or_caption (message : json) : Exc string :=
  let% caption := value_string message "caption" "" in value_string message "text" caption.

Definition reply_original (message : json) : Exc (option ReplyContext) :=
  match jfind message "reply_to_message" with
  | Some original =>
      let% image := image_attachment original in
      let% message_id := at_ original "message_id" in
      let% sender := match jfind original "from" with
        | Some from => let% i := at_ from "id" in Some (Ok (id i))
        | None => Some (Ok ""%string)
        end in
      let% text := text_or_caption original in
      Some (Ok (Some (mkReply (id message_id) sender text "" image "")))
  | None =>
      match jfind message "external_reply" with
      | Some original =>
          let% image := image_attachment original in
          let% message_id := value_or original "message_id" JNull in
          Some (Ok (Some (mkReply (id message_id) "" "" "" image "")))
      | None => Some (Ok None)
      end
  end.

Definition with_quote (reply : option ReplyContext) (quote : string) : ReplyContext :=
  match reply with
  | Some r => mkReply (rc_message_id r) (rc_sender r) (rc_text r) quote (rc_image r) (rc_reference_key r)
  | None => mkReply "" "" "" quote None ""
  end.

Definition reply_context (message : json) : Exc (option ReplyContext) :=
  let% reply := reply_original message in
  match jfind message "quote" with
  | None => Some (Ok reply)
  | Some quote =>
      let% text := at_ quote "text" in let% text := get_string text in
      Some (Ok (Some (with_quote reply text)))
  end.

(** The chat kinds that are taken. *)
Definition chat_kind (type : string) : option ChatKind :=
  if bool_decide (type = "private"%string) then Some direct
  else if bool_decide (type = "group"%string) || bool_decide (type = "supergroup"%string) then Some group
  else None.

Definition decode_message (update msg : json) (account : Account) : Exc (option Message) :=
  let% image := image_attachment msg in
  if negb (jcontains msg "text") && bool_decide (image = None) then Some (Ok None) else
  let% from := at_ msg "from" in
  let% is_bot := value_bool from "is_bot" false in
  if is_bot then Some (Ok None) else
  let% chat := at_ msg "chat" in
  let% type := at_ chat "type" in let% type := get_string type in
  match chat_kind type with
  | None => Some (Ok None)
  | Some kind =>
      let% reply := reply_context msg in
      let% chat_id := at_ chat "id" in
      let% thread := value_or msg "message_thread_id" JNull in
      let% update_id := at_ update "update_id" in
      let% message_id := at_ msg "message_id" in
      let% sender := at_ from "id" in
      let% text := text_or_caption msg in
      Some (checked (mkMessage
        (mkConversation telegram (account_id account) kind (id chat_id) (id thread))
        (id update_id) (id message_id) (id sender) text image reply ""))
  end.

End Decode.

Section Wire.
Context (unfit : double -> Z) (read : JsonReader) (dump : JsonWriter).

Definition decode (envelope : string) (account : Account) : Result (option Message) :=
  let? parsed := parse read envelope in
  or_parsing "invalid Telegram message"
    match jfind parsed "message" with
    | None => Some (Ok None)
    | Some msg => decode_message unfit parsed msg account
    end.

Definition with_thread (m : Message) (body : json) : Result json :=
  if blank (thread (conversation m)) then Ok body
  else let? thread := number (thread (conversation m)) in Ok (jset body "message_thread_id" (JInt thread)).

Definition reply (m : Message) (text : string) (_ : nat) : Result Request :=
  let? _ := validate m telegram in
  match number (chat (conversation m)), number (message_id m) with
  | Ok chat, Ok parent =>
      let? body := with_thread m (jobject
        [("chat_id", JInt chat); ("text", JString text);
         ("reply_parameters", jobject [("message_id", JInt parent)]);
         ("link_preview_options", jobject [("is_disabled", JBool true)])]) in
      Ok (mkRequest "POST" "/sendMessage" (dump body))
  | _, _ => Err (Errors.invalid_argument "invalid Telegram reply route")
  end.

Definition activity (m : Message) (receipt : option Receipt) : Result (option Request) :=
  match receipt with
  | Some _ => Ok None
  | None =>
      let? _ := validate m telegram in
      let? chat := number (chat (conversation m)) in
      let? body := with_thread m (jobject [("chat_id", JInt chat); ("action", JString "typing")]) in
      Ok (Some (mkRequest "POST" "/sendChatAction" (dump body)))
  end.

Definition adapter : Adapter := mkAdapter telegram capabilities reply (accept read telegram).
End Wire.
End Telegram.

(** ** Feishu *)
Module Feishu.
Definition capabilities (_ : ChatKind) : Capabilities := mkCapabilities reaction true 4000.

(** The mentions of the bot are taken out of the text, in the order they are listed. *)
Fixpoint strip_mentions (bot : string) (mentions : list json) (text : bytes) : Exc bytes :=
  match mentions with
  | [] => Some (Ok text)
  | mention :: mentions =>
      let% mentioned := at_ mention "id" in
      let% open_id := value_string mentioned "open_id" "" in
      if negb (bool_decide (open_id = bot)) then strip_mentions bot mentions text else
      let% key := at_ mention "key" in let% key := get_string key in
      if blank key then strip_mentions bot mentions text
      else strip_mentions bot mentions (erase_all (lit key) text)
  end.

Definition chat_kind (type : string) : option ChatKind :=
  if bool_decide (type = "p2p"%string) then Some direct
  else if bool_decide (type = "group"%string) then Some group
  else None.

(** [value == text]. *)
Definition is_text (j : json) (s : string) : bool := match j with JString t => bool_decide (t = s) | _ => false end.

Section Wire.
Context (read : JsonReader) (dump : JsonWriter).

Definition decode_text (header sender msg : json) (account : Account) : Exc (option Message) :=
  let% content := at_ msg "content" in let% content := get_string content in
  let% content := Some (parse read content) in
  let% text := at_ content "text" in let% text := get_string text in
  let% text := match jfind msg "mentions" with
    | Some mentions =>
        if blank (bot_id account) then Some (Ok (lit text))
        else strip_mentions (bot_id account) (visited mentions) (lit text)
    | None => Some (Ok (lit text))
    end in
  match trim_start text with
  | [] => Some (Ok None)
  | text =>
      let% type := at_ msg "chat_type" in let% type := get_string type in
      match chat_kind type with
      | None => Some (Ok None)
      | Some kind =>
          let% chat_id := at_ msg "chat_id" in
          let% root := value_or msg "root_id" JNull in
          let% thread := value_or msg "thread_id" root in
          let% event_id := at_ header "event_id" in
          let% message_id := at_ msg "message_id" in
          let% sender_id := at_ sender "sender_id" in
          let% open_id := at_ sender_id "open_id" in
          Some (checked (mkMessage
            (mkConversation feishu (account_id account) kind (id chat_id) (id thread))
            (id event_id) (id message_id) (id open_id) (str text) None None ""))
      end
  end.

Definition decode (envelope : string) (account : Account) : Result (option Message) :=
  let? parsed := parse read envelope in
  or_parsing "invalid Feishu message"
    match jfind parsed "header" with
    | None => Some (Ok None)
    | Some header =>
        let% type := at_ header "event_type" in
        if negb (is_text type "im.message.receive_v1") then Some (Ok None) else
        let% event := at_ parsed "event" in
        let% sender := at_ event "sender" in
        let% sender_type := at_ sender "sender_type" in
        if negb (is_text sender_type "user") then Some (Ok None) else
        let% msg := at_ event "message" in
        let% message_type := at_ msg "message_type" in
        if negb (is_text message_type "text") then Some (Ok None) else
        decode_text header sender msg account
    end.

Definition reply (m : Message) (text : string) (_ : nat) : Result Request :=
  let? _ := validate m feishu in
  let body := jobject [("msg_type", JString "text"); ("content", JString (dump (jobject [("text", JString text)])))] in
  let body := if blank (thread (conversation m)) then body else jset body "reply_in_thread" (JBool true) in
  Ok (mkRequest "POST" ("/open-apis/im/v1/messages/" +:+ segment (message_id m) +:+ "/reply") (dump body)).

Definition activity (m : Message) (receipt : option Receipt) : Result (option Request) :=
  let? _ := validate m feishu in
  let path := ("/open-apis/im/v1/messages/" +:+ segment (message_id m) +:+ "/reactions")%string in
  match receipt with
  | Some r =>
      if blank (receipt_id r) then Ok None
      else Ok (Some (mkRequest "DELETE" (path +:+ "/" +:+ segment (receipt_id r)) ""))
  | None =>
      Ok (Some (mkRequest "POST" path
        (dump (jobject [("reaction_type", jobject [("emoji_type", JString "Typing")])]))))
  end.

Definition adapter : Adapter := mkAdapter feishu capabilities reply (accept read feishu).
End Wire.
End Feishu.

(** ** QQ *)
Module QQ.
Definition capabilities (kind : ChatKind) : Capabilities :=
  mkCapabilities (if decide (kind = direct) then expiring else no_activity) false 2000.

Section Decode.
Context (unfit : double -> Z).

(** The first image; the kind of every attachment is read. *)
Fixpoint first_image (attachments : list json) (image : option ImageAttachment) : Exc (option ImageAttachment) :=
  match attachments with
  | [] => Some (Ok image)
  | attachment :: attachments =>
      let% media := value_string attachment "content_type" "" in
      if bool_decide (image = None) && starts_with (lit "image/") (lit media) then
        let% url := at_ attachment "url" in let% url := get_string url in
        let url := (if starts_with (lit "//") (lit url) then "https:" +:+ url else url)%string in
        let% size := value_u64 unfit attachment "size" in
        first_image attachments (Some (mkImage url media size))
      else first_image attachments image
  end.

Definition after (prefix text : bytes) : option bytes :=
  if starts_with prefix text then Some (drop (length prefix) text) else None.

(** The references of a message and of what it answers; the last of each counts. *)
Fixpoint scene_references (entries : list json) (key reference : string) : string * string :=
  match entries with
  | [] => (key, reference)
  | JString value :: entries =>
      scene_references entries
        (match after (lit "msg_idx=") (lit value) with Some k => str k | None => key end)
        (match after (lit "ref_msg_idx=") (lit value) with Some r => str r | None => reference end)
  | _ :: entries => scene_references entries key reference
  end.

(** The first element that is quoted. *)
Fixpoint quoted_element (elements : list json) (reference : string) : Exc (string * string) :=
  match elements with
  | [] => Some (Ok (reference, ""%string))
  | element :: elements =>
      match jfind element "msg_idx" with
      | Some idx =>
          let% reference := get_string idx in
          let% text := value_string element "content" "" in
          Some (Ok (reference, text))
      | None => quoted_element elements reference
      end
  end.

Definition reply_to (msg : json) (reference quoted : string) : Exc (option ReplyContext) :=
  if negb (blank reference) then Some (Ok (Some (mkReply "" "" quoted "" None reference)))
  else
    match jfind msg "message_reference" with
    | Some r => let% i := at_ r "message_id" in Some (Ok (Some (mkReply (id i) "" "" "" None "")))
    | None => Some (Ok None)
    end.

Definition elements_of (j : json) (key : string) : list json :=
  match jfind j key with Some l => visited l | None => [] end.

Definition decode_message (msg : json) (is_group : bool) (account : Account) : Exc (option Message) :=
  let% author := at_ msg "author" in
  let% sender := at_ author (if is_group then "member_openid" else "user_openid") in
  let% bot := value_bool author "bot" false in
  if bot then Some (Ok None) else
  let% text := value_string msg "content" "" in
  let% image := first_image (elements_of msg "attachments") None in
  let text := lit text in
  let text := if blank (bot_id account) then text
    else default text (after (lit ("<@!" +:+ bot_id account +:+ ">")) text) in
  let text := trim_start text in
  if bool_decide (text = []) && bool_decide (image = None) then Some (Ok None) else
  let% message_id := at_ msg "id" in
  let% chat := if is_group then let% g := at_ msg "group_openid" in Some (Ok (id g)) else Some (Ok (id sender)) in
  let scene := match jfind msg "message_scene" with Some s => elements_of s "ext" | None => [] end in
  let '(key, reference) := scene_references scene "" "" in
  let% message_type := value_int unfit msg "message_type" 0 in
  let% (reference, quoted) :=
    if (message_type =? 103)%Z then quoted_element (elements_of msg "msg_elements") reference
    else Some (Ok (reference, ""%string)) in
  let% reply := reply_to msg reference quoted in
  Some (checked (mkMessage
    (mkConversation qq (account_id account) (if is_group then group else direct) chat "")
    (id message_id) (id message_id) (id sender) (str text) image reply key)).
End Decode.

Section Wire.
Context (unfit : double -> Z) (read : JsonReader) (dump : JsonWriter).

Definition decode (envelope : string) (account : Account) : Result (option Message) :=
  let? parsed := parse read envelope in
  or_parsing "invalid QQ message"
    (let% op := value_int unfit parsed "op" (-1) in
     if negb (op =? 0)%Z then Some (Ok None) else
     let% type := at_ parsed "t" in let% type := get_string type in
     if negb (bool_decide (type = "C2C_MESSAGE_CREATE"%string)) &&
        negb (bool_decide (type = "GROUP_AT_MESSAGE_CREATE"%string)) then Some (Ok None) else
     let% msg := at_ parsed "d" in
     decode_message unfit msg (bool_decide (type = "GROUP_AT_MESSAGE_CREATE"%string)) account).

Definition messages_path (c : Conversation) : string :=
  ((if decide (kind c = group) then "/v2/groups/" else "/v2/users/") +:+ segment (chat c) +:+ "/messages")%string.
(** Replies come behind the two numbers of the input status. *)
Definition sequence (m : Message) (part : nat) : Z :=
  (Z.of_nat part + if decide (kind (conversation m) = direct) then 3 else 1)%Z.

Definition reply_body (m : Message) (text : string) (part : nat) : json :=
  jobject [("content", JString text); ("msg_type", JInt 0); ("msg_id", JString (message_id m));
           ("msg_seq", JInt (sequence m part))].
Definition reply (m : Message) (text : string) (part : nat) : Result Request :=
  let? _ := validate m qq in
  fail? negb (blank (thread (conversation m))) || (5 <=? part)
    with Errors.invalid_argument "QQ passive replies support at most five parts and no threads";
  Ok (mkRequest "POST" (messages_path (conversation m)) (dump (reply_body m text part))).

Definition activity_body (m : Message) (stop : bool) : json :=
  let step := JInt (if stop then 2 else 1) in
  jobject [("msg_type", JInt 6); ("msg_id", JString (message_id m)); ("msg_seq", step);
           ("input_notify", jobject [("input_type", step); ("input_second", JInt 60)])].
Definition activity (m : Message) (receipt : option Receipt) : Result (option Request) :=
  let? _ := validate m qq in
  if decide (kind (conversation m) = direct) then
    Ok (Some (mkRequest "POST" ("/v2/users/" +:+ segment (chat (conversation m)) +:+ "/messages")
      (dump (activity_body m (match receipt with Some _ => true | None => false end)))))
  else Ok None.

Definition adapter : Adapter := mkAdapter qq capabilities reply (accept read qq).

(** [body.erase(key)]. *)
Definition jerase (j : json) (key : string) : json :=
  match j with JObject m => JObject (filter (fun p => p.1 <> key) m) | _ => j end.

(** [qq_markdown_reply]: the body is read back, changed and written again. *)
Definition qq_markdown_reply (m : Message) (text : string) (part : nat) : Exc Request :=
  let% request := Some (reply m text part) in
  match read (body request) with
  | Parsed b =>
      let b := jset (jset (jerase b "content") "msg_type" (JInt 2)) "markdown" (jobject [("content", JString text)]) in
      Some (Ok (mkRequest (method request) (path request) (dump b)))
  | _ => raise
  end.
End Wire.
End QQ.

(** ** All platforms *)
Section Platforms.
Context (unfit : double -> Z) (read : JsonReader) (dump : JsonWriter).

Definition decode_of (p : Platform) : string -> Account -> Result (option Message) :=
  match p with
  | telegram => Telegram.decode unfit read
  | feishu => Feishu.decode read
  | qq => QQ.decode unfit read
  end.
Definition adapter_of (p : Platform) : Adapter :=
  match p with
  | telegram => Telegram.adapter read dump
  | feishu => Feishu.adapter read dump
  | qq => QQ.adapter read dump
  end.
End Platforms.

(** ** What runs without an exception *)
Lemma to_exc_ok {A} (o : option A) a : to_exc o = Some (Ok a) <-> o = Some a.
Proof. destruct o; cbn; split; naive_solver. Qed.

Lemma at_ok j key v : at_ j key = Some (Ok v) <-> jfind j key = Some v.
Proof. unfold at_. rewrite to_exc_ok. by destruct j. Qed.

Lemma value_bool_ok j key b v :
  value_bool j key b = Some (Ok v) <->
  is_object j = true /\ (jfind j key = Some (JBool v) \/ jfind j key = None /\ v = b).
Proof.
  unfold value_bool, value_or. destruct j as [| | | | | |m]; cbn; try (split; [done|by intros [? _]]).
  destruct (assoc key m) as [w|]; cbn; [destruct w|]; cbn; naive_solver.
Qed.

Lemma or_parsing_ok {A} message (r : option (Result A)) a : or_parsing message r = Ok a <-> r = Some (Ok a).
Proof. destruct r as [r|]; cbn; split; naive_solver. Qed.

Lemma checked_ok m m' : checked m = Ok (Some m') <-> m' = m /\ validate m (platform (conversation m)) = Ok tt.
Proof.
  unfold checked. destruct (validate m _) as [[]|e]; cbn; split; try done; [by intros [= <-]|by intros [-> _]|by intros [_ ?]].
Qed.

Lemma parse_ok read text v : parse read text = Ok v -> read text = Parsed v /\ is_object v = true.
Proof.
  unfold parse. intros H. ok_inv. destruct (read text) as [w| |]; try done. destruct (is_object w) eqn:Eo; [|done].
  by injection H as <-.
Qed.

(** Split a chain of reads that gave a value. *)
Ltac exc_inv := repeat match goal with
  | H : exc_bind _ _ = Some (Ok _) |- _ => apply exc_bind_ok in H as (? & ? & H)
  | H : (if ?c then _ else _) = Some (Ok _) |- _ => let E := fresh "E" in destruct c eqn:E
  | H : Some (Ok None) = Some (Ok (Some _)) |- _ => discriminate H
  | H : at_ _ _ = Some (Ok _) |- _ => apply at_ok in H
  | H : Some (checked _) = Some (Ok (Some _)) |- _ => injection H as H; apply checked_ok in H as [? H]
  end.

(** ** Who a message is from *)
(** The object that describes the sender in an update, by its key in the event. *)
Definition person (p : Platform) (update : json) (sender : string) : Prop :=
  match p with
  | telegram => exists msg from i, jfind update "message" = Some msg /\ jfind msg "from" = Some from /\
      jfind from "is_bot" <> Some (JBool true) /\ jfind from "id" = Some i /\ sender = id i
  | feishu => exists event who ids i, jfind update "event" = Some event /\ jfind event "sender" = Some who /\
      jfind who "sender_type" = Some (JString "user") /\
      jfind who "sender_id" = Some ids /\ jfind ids "open_id" = Some i /\ sender = id i
  | qq => exists msg author i, jfind update "d" = Some msg /\ jfind msg "author" = Some author /\
      jfind author "bot" <> Some (JBool true) /\
      (jfind author "member_openid" = Some i \/ jfind author "user_openid" = Some i) /\ sender = id i
  end.

Section Decoding.
Context (unfit : double -> Z) (read : JsonReader).

Definition sound (p : Platform) (account : Account) (update : json) (m : Message) : Prop :=
  platform (conversation m) = p /\ Channel.account (conversation m) = account_id account /\
  validate m p = Ok tt /\ person p update (sender m).

Lemma telegram_sound update msg account m : jfind update "message" = Some msg ->
  Telegram.decode_message unfit update msg account = Some (Ok (Some m)) -> sound telegram account update m.
Proof.
  intros Hm H. unfold Telegram.decode_message in H. exc_inv. destruct (Telegram.chat_kind _) as [kind|]; [|done].
  exc_inv. subst m. split_and!; [done..|]. exists msg, x0. eexists. split_and!; [done|done| |done|done].
  apply value_bool_ok in H2 as [_ [H2|[H2 _]]]; rewrite H2; congruence.
Qed.

Lemma is_text_ok j t : Feishu.is_text j t = true -> j = JString t.
Proof. destruct j; try done. cbn. intros H. bool_prop. by subst. Qed.

Lemma feishu_sound update header event who msg account m :
  jfind update "event" = Some event -> jfind event "sender" = Some who ->
  jfind who "sender_type" = Some (JString "user") ->
  Feishu.decode_text read header who msg account = Some (Ok (Some m)) -> sound feishu account update m.
Proof.
  intros He Hw Ht H. unfold Feishu.decode_text in H. exc_inv. destruct (trim_start _) as [|c text]; [done|]. exc_inv.
  destruct (Feishu.chat_kind _) as [kind|]; [|done]. exc_inv. subst m. split_and!; [done..|]. cbn. naive_solver.
Qed.

Lemma qq_sound update msg is_group account m : jfind update "d" = Some msg ->
  QQ.decode_message unfit msg is_group account = Some (Ok (Some m)) -> sound qq account update m.
Proof.
  intros Hm H. unfold QQ.decode_message in H.
  exc_inv; destruct (QQ.scene_references _ _ _) as [key reference]; exc_inv;
    match type of H with (let '(_, _) := ?y in _) = _ => destruct y as [r q] end; exc_inv;
    subst m; (split_and!; [done..|]); exists msg, x, x0; (split_and!; [done|done| | |done]); try (by destruct is_group; auto);
    apply value_bool_ok in H2 as [_ [H2|[H2 _]]]; rewrite H2; congruence.
Qed.

(** C33: a decoded message is valid, names the platform and the host's account and not one of the envelope, and was
    sent by a person: an update of a bot never becomes a message. *)
Theorem decode_sound (p : Platform) (envelope : string) (account : Account) (m : Message) :
  decode_of unfit read p envelope account = Ok (Some m) ->
  exists update, read envelope = Parsed update /\ sound p account update m.
Proof.
  intros H. destruct p; cbn in H; unfold Telegram.decode, Feishu.decode, QQ.decode in H;
    apply result_bind_ok in H as (update & [Hr _]%parse_ok & H%or_parsing_ok); exists update; (split; [done|]).
  - destruct (jfind update "message") as [msg|] eqn:Em; [|done]. by eapply telegram_sound.
  - exc_inv. by eapply qq_sound.
  - destruct (jfind update "header") as [header|]; [|done]. exc_inv. bool_prop.
    repeat match goal with H : Feishu.is_text _ _ = true |- _ => apply is_text_ok in H end. subst. by eapply feishu_sound.
Qed.
End Decoding.

(** ** Texts *)
(** A unit of fuel per byte is enough to erase every occurrence. *)
Lemma erase_key_spec key fuel : forall text, key <> [] -> length text <= fuel ->
  find_sub key (erase_key fuel key text) = None /\ length (erase_key fuel key text) <= length text.
Proof.
  induction fuel as [|fuel IH]; intros text Hk Hf; cbn [erase_key].
  - destruct text; [|cbn in Hf; lia]. by destruct key.
  - pose proof (find_sub_spec key text) as H. destruct (find_sub key text) as [pos|] eqn:E; [|done].
    destruct H as (Hm & Hp & _). apply starts_with_spec in Hm as [rest Hr]. apply (f_equal length) in Hr.
    rewrite length_app, length_drop in Hr. assert (1 <= length key) by (destruct key; [done|cbn; lia]).
    assert (Hl : length (take pos text ++ drop (pos + length key) text) < length text)
      by (rewrite length_app, length_take, length_drop; lia).
    destruct (IH (take pos text ++ drop (pos + length key) text) Hk) as [-> Hle]; [lia|]. split; [done|lia].
Qed.

(** erasing a mention ends, with a text that no longer holds it and is not longer than it was, even where erasing
    brings the parts of another occurrence together. *)
Theorem mention_erased (key text : bytes) :
  key <> [] -> (forall i, starts_with key (drop i (erase_all key text)) = false) /\
    length (erase_all key text) <= length text.
Proof.
  intros Hk. destruct (erase_key_spec key (length text) text Hk (Nat.le_refl _)) as [Hn Hl]. split; [|exact Hl].
  pose proof (find_sub_spec key (erase_all key text)) as H. unfold erase_all in *. by rewrite Hn in H.
Qed.

(** ** Where replies go *)
(** [from_chars] reads back what [id] wrote. *)
Lemma digit_code n : (n < 10)%N -> code (pretty_N_char n) = (48 + Z.of_N n)%Z.
Proof.
  assert (forallb (fun i => code (pretty_N_char (N.of_nat i)) =? 48 + Z.of_nat i)%Z (seq 0 10) = true) as Hall by reflexivity.
  rewrite forallb_forall in Hall. intros Hn. specialize (Hall (N.to_nat n)). rewrite in_seq, N2Nat.id, N_nat_Z in Hall.
  apply Z.eqb_eq, Hall. lia.
Qed.
Lemma decimal_digit n s v : (n < 10)%N ->
  Telegram.decimal (lit (String (pretty_N_char n) s)) v = Telegram.decimal (lit s) (10 * v + Z.of_N n)%Z.
Proof.
  intros Hn. change (lit (String (pretty_N_char n) s)) with (pretty_N_char n :: lit s). cbn [Telegram.decimal].
  rewrite (digit_code n Hn).
  destruct (_ && _) eqn:E; [|lia]. f_equal. lia.
Qed.
Lemma decimal_go x : forall s, Telegram.decimal (lit (pretty_N_go x s)) 0 = Telegram.decimal (lit s) (Z.of_N x).
Proof.
  induction (N.lt_wf_0 x) as [x _ IH]. intros s. destruct (decide (x = 0)%N) as [->|]; [by rewrite pretty_N_go_0|].
  rewrite pretty_N_go_step by lia. rewrite IH by (apply N.div_lt; lia). rewrite decimal_digit by (by apply N.mod_lt).
  f_equal. pose proof (N.div_mod x 10). lia.
Qed.
Lemma decimal_pretty x : Telegram.decimal (lit (pretty x)) 0 = Some (Z.of_N x).
Proof. unfold pretty, pretty_N. case_decide; [by subst|]. by rewrite decimal_go. Qed.

Lemma number_pretty z : fits_s 64 z -> Telegram.number (pretty z) = Ok z.
Proof.
  intros Hz. unfold Telegram.number, Telegram.from_chars.
  assert (Hd : forall q, exists c l, lit (pretty (N.pos q)) = c :: l /\ Ascii.eqb c "-" = false).
  { intros q. pose proof (decimal_pretty (N.pos q)) as Hq. pose proof (pretty_digits (Pos.to_nat q)) as Hf.
    unfold pretty, pretty_nat in Hf. rewrite positive_nat_N in Hf.
    destruct (lit (pretty (N.pos q))) as [|c l]; [done|]. exists c, l. split; [done|].
    apply Ascii.eqb_neq. intros ->. inversion Hf as [|? ? [Hc _]]. by vm_compute in Hc. }
  unfold fits_s in Hz. change (2 ^ (64 - 1))%Z with (2 ^ 63)%Z in Hz. destruct z as [|q|q]; [done|..].
  - change (pretty (Z.pos q)) with (pretty (N.pos q)). destruct (Hd q) as (c & l & E & Hc).
    pose proof (decimal_pretty (N.pos q)) as Hq. rewrite E in *. rewrite Hc, Hq. change (Z.of_N (N.pos q)) with (Z.pos q).
    destruct (_ && _) eqn:Eb; [done|lia].
  - change (pretty (Z.neg q)) with ("-" +:+ pretty (N.pos q))%string. rewrite lit_app.
    change (lit "-" ++ lit (pretty (N.pos q))) with ("-"%char :: lit (pretty (N.pos q))). cbv beta iota.
    change (Ascii.eqb "-" "-") with true. cbv beta iota. destruct (Hd q) as (c & l & E & Hc).
    pose proof (decimal_pretty (N.pos q)) as Hq. rewrite E in *. rewrite Hq. change (Z.of_N (N.pos q)) with (Z.pos q).
    cbn [Z.opp]. destruct (_ && _) eqn:Eb; [done|lia].
Qed.

(** What a decoded Telegram message keeps of its update. *)
Lemma telegram_fields unfit update msg account m :
  Telegram.decode_message unfit update msg account = Some (Ok (Some m)) ->
  exists chat_ c i, jfind msg "chat" = Some chat_ /\ jfind chat_ "id" = Some c /\ jfind msg "message_id" = Some i /\
    chat (conversation m) = id c /\ message_id m = id i /\
    thread (conversation m) = id (default JNull (jfind msg "message_thread_id")) /\ validate m telegram = Ok tt.
Proof.
  intros H. unfold Telegram.decode_message in H. exc_inv. destruct (Telegram.chat_kind _) as [kind|]; [|done].
  exc_inv. subst m. do 3 eexists. split_and!; try done. cbn.
  match goal with H : value_or msg _ _ = _ |- _ => unfold value_or in H; apply to_exc_ok in H; rename H into Ht end.
  destruct msg; try done. cbn in *. by injection Ht as <-.
Qed.

Lemma pretty_not_blank z : fits_s 64 z -> blank (pretty z) = false.
Proof.
  intros Hz. unfold blank. apply bool_decide_eq_false. intros E. pose proof (number_pretty z Hz) as H. by rewrite E in H.
Qed.

(** A thread is the one of the update, or none. *)
Definition thread_of (msg : json) (t : option Z) : Prop :=
  match t with
  | Some t => jfind msg "message_thread_id" = Some (JInt t) /\ fits_s 64 t
  | None => jfind msg "message_thread_id" = None
  end.

(** a reply to a Telegram message goes to the chat the update came from, answers the very message, and stays in its
    thread, whatever the numbers are, as long as the platform's identifiers fit 64 bits. *)
Theorem telegram_replies_return (unfit : double -> Z) (read : JsonReader) (dump : JsonWriter) (envelope : string)
    (account : Account) (m : Message) (update msg chat_ : json) (c i : Z) (t : option Z) (text : string) (part : nat) :
  Telegram.decode unfit read envelope account = Ok (Some m) ->
  read envelope = Parsed update -> jfind update "message" = Some msg -> jfind msg "chat" = Some chat_ ->
  jfind chat_ "id" = Some (JInt c) -> jfind msg "message_id" = Some (JInt i) -> fits_s 64 c -> fits_s 64 i ->
  thread_of msg t ->
  exists body, Telegram.reply dump m text part = Ok (mkRequest "POST" "/sendMessage" (dump body)) /\
    jfind body "chat_id" = Some (JInt c) /\ jfind body "text" = Some (JString text) /\
    jfind body "reply_parameters" = Some (JObject [("message_id", JInt i)]) /\
    jfind body "message_thread_id" = (JInt <$> t).
Proof.
  intros Hd Hr Hm Hc Hci Hi Fc Fi Ht. unfold Telegram.decode in Hd.
  apply result_bind_ok in Hd as (u & [Hu _]%parse_ok & Hd%or_parsing_ok). rewrite Hr in Hu. injection Hu as <-.
  rewrite Hm in Hd. apply telegram_fields in Hd as (ch & c' & i' & F1 & F2 & F3 & F4 & F5 & F6 & F7).
  simplify_eq. unfold Telegram.reply. rewrite F7, F4, F5. cbn [result_bind id].
  rewrite !number_pretty by done. unfold Telegram.with_thread. rewrite F6. destruct t as [t|]; cbn [thread_of] in Ht.
  - destruct Ht as [-> Ft]. change (id (default JNull (Some (JInt t)))) with (pretty t). rewrite pretty_not_blank, number_pretty by done. cbn [result_bind].
    eexists. split; [done|]. split_and!; reflexivity.
  - rewrite Ht. eexists. split; [reflexivity|]. split_and!; reflexivity.
Qed.

(** ** Requests tell where they go *)
Lemma segment_inj a b : segment a = segment b -> a = b.
Proof.
  unfold segment. intros H%(f_equal lit). rewrite !lit_str in H. apply (f_equal percent_decode) in H.
  assert (Hd : forall l, percent_decode (concat (map segment_char l)) = l).
  { intros l. induction l as [|c l IH]; [done|]. cbn [map concat]. by rewrite percent_decode_char, IH. }
  rewrite !Hd in H. by apply lit_inj.
Qed.

Lemma append_inj_head (a b c : string) : (a +:+ b = a +:+ c)%string -> b = c.
Proof. intros H%(f_equal lit). rewrite !lit_app in H. by apply lit_inj, (app_inv_head (lit a)). Qed.
Lemma append_inj_tail (a b c : string) : (b +:+ a = c +:+ a)%string -> b = c.
Proof. intros H%(f_equal lit). rewrite !lit_app in H. by apply lit_inj, (app_inv_tail (lit a)). Qed.

Lemma messages_path_inj c d : QQ.messages_path c = QQ.messages_path d -> kind c = kind d /\ chat c = chat d.
Proof.
  unfold QQ.messages_path. intros H.
  assert (Hk : kind c = kind d) by (destruct (kind c), (kind d); [done|discriminate H..|done]). rewrite Hk in H.
  split; [done|]. by apply append_inj_head, append_inj_tail, segment_inj in H.
Qed.

(** Where a reply goes. *)
Definition same_target (p : Platform) (m n : Message) : Prop :=
  match p with
  | telegram => Telegram.number (chat (conversation m)) = Telegram.number (chat (conversation n)) /\
      Telegram.number (message_id m) = Telegram.number (message_id n)
  | feishu => message_id m = message_id n
  | qq => kind (conversation m) = kind (conversation n) /\ chat (conversation m) = chat (conversation n) /\
      message_id m = message_id n
  end.

Section Requests.
Context (read : JsonReader) (dump : JsonWriter).
Hypothesis read_dump : forall v, representable v = true -> read (dump v) = Parsed v.

Lemma dump_inj v w : representable v = true -> representable w = true -> dump v = dump w -> v = w.
Proof. intros Hv Hw H. apply read_dump in Hv, Hw. rewrite H in Hv. rewrite Hv in Hw. by injection Hw. Qed.

Definition in_range (z : Z) : bool := (- 2 ^ 63 <=? z)%Z && (z <? 2 ^ 64)%Z.
Lemma number_fits s z : Telegram.number s = Ok z -> in_range z = true.
Proof.
  unfold Telegram.number, Telegram.from_chars. destruct (match lit s with [] => _ | _ => _ end) as [neg digits].
  destruct digits as [|c l]; [done|]. destruct (Telegram.decimal _ _) as [v|]; [|done].
  destruct (_ && _) eqn:E; [|done]. intros [= <-]. unfold in_range. lia.
Qed.

(** The values of the requests can be read back. *)
#[local] Ltac concrete l := match goal with |- representable ?b = true =>
  replace b with (JObject l) by reflexivity; cbn [representable forallb map fst snd];
  rewrite ?bool_decide_true by (apply (bool_decide_unpack _); vm_compute; exact I) end.

Definition telegram_body (c i : Z) (text : string) (t : option Z) : json :=
  let body := jobject [("chat_id", JInt c); ("text", JString text);
    ("reply_parameters", jobject [("message_id", JInt i)]);
    ("link_preview_options", jobject [("is_disabled", JBool true)])] in
  match t with Some t => jset body "message_thread_id" (JInt t) | None => body end.

Lemma telegram_body_representable c i text t :
  in_range c = true -> in_range i = true -> (forall z, t = Some z -> in_range z = true) ->
  representable (telegram_body c i text t) = true.
Proof.
  intros Hc Hi Ht. destruct t as [z|]; [specialize (Ht z eq_refl)|clear Ht].
  - concrete [("chat_id", JInt c); ("link_preview_options", JObject [("is_disabled", JBool true)]);
      ("message_thread_id", JInt z); ("reply_parameters", JObject [("message_id", JInt i)]); ("text", JString text)]%string.
    unfold in_range in *. by rewrite Hc, Hi, Ht.
  - concrete [("chat_id", JInt c); ("link_preview_options", JObject [("is_disabled", JBool true)]);
      ("reply_parameters", JObject [("message_id", JInt i)]); ("text", JString text)]%string.
    unfold in_range in *. by rewrite Hc, Hi.
Qed.

Lemma telegram_reply_inv m text part r : Telegram.reply dump m text part = Ok r ->
  exists c i t, Telegram.number (chat (conversation m)) = Ok c /\ Telegram.number (message_id m) = Ok i /\
    r = mkRequest "POST" "/sendMessage" (dump (telegram_body c i text t)) /\
    representable (telegram_body c i text t) = true.
Proof.
  unfold Telegram.reply. intros H. apply result_bind_ok in H as ([] & _ & H).
  destruct (Telegram.number (chat _)) as [c|] eqn:Ec; [|done]. destruct (Telegram.number (message_id m)) as [i|] eqn:Ei; [|done].
  apply result_bind_ok in H as (b & Hb & [= <-]). unfold Telegram.with_thread in Hb. destruct (blank _).
  - injection Hb as <-. exists c, i, None. split_and!; [done..|].
    apply telegram_body_representable; [by eapply number_fits..|done].
  - apply result_bind_ok in Hb as (t & Et & [= <-]). exists c, i, (Some t). split_and!; [done..|].
    apply telegram_body_representable; [by eapply number_fits..|]. intros z [= <-]. by eapply number_fits.
Qed.

Lemma qq_reply_inv m text part r : QQ.reply dump m text part = Ok r ->
  part < 5 /\ r = mkRequest "POST" (QQ.messages_path (conversation m)) (dump (QQ.reply_body m text part)) /\
  representable (QQ.reply_body m text part) = true.
Proof.
  unfold QQ.reply. intros H. apply result_bind_ok in H as ([] & _ & H). destruct (_ || _) eqn:E; [done|].
  injection H as <-. bool_prop. apply Nat.leb_gt in H0. split_and!; [done..|].
  concrete [("content", JString text); ("msg_id", JString (message_id m)); ("msg_seq", JInt (QQ.sequence m part));
    ("msg_type", JInt 0)]%string.
  assert (Hs : in_range (QQ.sequence m part) = true) by (unfold QQ.sequence, in_range; case_decide; lia).
  unfold in_range in Hs. by rewrite Hs.
Qed.

Lemma feishu_reply_inv m text part r : Feishu.reply dump m text part = Ok r ->
  exists b, r = mkRequest "POST" ("/open-apis/im/v1/messages/" +:+ segment (message_id m) +:+ "/reply") (dump b) /\
    jfind b "content" = Some (JString (dump (jobject [("text", JString text)]))) /\ representable b = true.
Proof.
  unfold Feishu.reply. intros H. apply result_bind_ok in H as ([] & _ & [= <-]). eexists. split; [done|].
  set (c := dump (jobject [("text", JString text)])). destruct (blank _); (split; [reflexivity|]).
  - by concrete [("content", JString c); ("msg_type", JString "text")]%string.
  - by concrete [("content", JString c); ("msg_type", JString "text"); ("reply_in_thread", JBool true)]%string.
Qed.

(** a request says where it goes and what it carries: replies that send the same request answer the same message of
    the same chat with the same text, so an identifier can neither leave its place in a path nor stand for another. *)
Theorem reply_injective (p : Platform) (m n : Message) (text text' : string) (i j : nat) (r : Request) :
  a_reply (adapter_of read dump p) m text i = Ok r -> a_reply (adapter_of read dump p) n text' j = Ok r ->
  same_target p m n /\ text = text' /\ (p = qq -> i = j).
Proof.
  intros Hm Hn. destruct p; cbn in Hm, Hn.
  - apply telegram_reply_inv in Hm as (c & a & t & Hc & Ha & -> & Hr).
    apply telegram_reply_inv in Hn as (c' & a' & t' & Hc' & Ha' & H & Hr'). injection H as H. apply dump_inj in H; [|done..].
    pose proof (f_equal (fun b => jfind b "chat_id") H) as H1. pose proof (f_equal (fun b => jfind b "text") H) as H2.
    pose proof (f_equal (fun b => jfind b "reply_parameters") H) as H3.
    assert (c = c' /\ text = text' /\ a = a') as (-> & -> & ->) by (destruct t, t'; cbv in H1, H2, H3; naive_solver).
    cbn. rewrite Hc, Hc', Ha, Ha'. done.
  - apply qq_reply_inv in Hm as (_ & -> & Hr). apply qq_reply_inv in Hn as (_ & H & Hr'). injection H as Hp Hb.
    apply messages_path_inj in Hp as [Hk Hc]. apply dump_inj in Hb; [|done..].
    pose proof (f_equal (fun b => jfind b "content") Hb) as H1. pose proof (f_equal (fun b => jfind b "msg_id") Hb) as H2.
    pose proof (f_equal (fun b => jfind b "msg_seq") Hb) as H3.
    change (Some (JString text) = Some (JString text')) in H1.
    change (Some (JString (message_id m)) = Some (JString (message_id n))) in H2.
    change (Some (JInt (QQ.sequence m i)) = Some (JInt (QQ.sequence n j))) in H3.
    unfold QQ.sequence in H3. rewrite Hk in H3. injection H1 as ->. injection H2 as H2. injection H3 as H3.
    cbn. split_and!; [done..|]. intros _. destruct (decide _); lia.
  - apply feishu_reply_inv in Hm as (b & -> & Hc & Hr). apply feishu_reply_inv in Hn as (b' & H & Hc' & Hr').
    injection H as Hp Hb. apply dump_inj in Hb; [|done..]. subst b'. rewrite Hc in Hc'. injection Hc' as Ht.
    cbn. split_and!; [|by apply dump_inj in Ht; [injection Ht|..]|done].
    by apply (append_inj_head ""), append_inj_tail, segment_inj in Hp.
Qed.

(** the sequence numbers of QQ keep the parts of a reply apart from each other and from the input status: a reply has
    at most five parts, and no two requests that answer one message carry the same number. *)
Theorem qq_numbers_distinct (m : Message) (text : string) (part : nat) (r : Request) :
  QQ.reply dump m text part = Ok r ->
  part < 5 /\ body r = dump (QQ.reply_body m text part) /\
  (forall text' j, j <> part ->
    jfind (QQ.reply_body m text' j) "msg_seq" <> jfind (QQ.reply_body m text part) "msg_seq") /\
  (forall stop a, QQ.activity dump m stop = Ok (Some a) ->
    exists s, body a = dump (QQ.activity_body m s) /\
      jfind (QQ.activity_body m s) "msg_seq" <> jfind (QQ.reply_body m text part) "msg_seq").
Proof.
  intros H. apply qq_reply_inv in H as (Hp & -> & _).
  assert (Hs : forall t j, jfind (QQ.reply_body m t j) "msg_seq" = Some (JInt (QQ.sequence m j))) by reflexivity.
  split_and!; [done|done| |].
  - intros t j Hj. rewrite !Hs. unfold QQ.sequence. intros [= E]. lia.
  - intros stop a Ha. unfold QQ.activity in Ha. apply result_bind_ok in Ha as ([] & _ & Ha).
    case_decide as Hd; [|done]. injection Ha as <-. eexists. split; [reflexivity|]. rewrite Hs.
    set (s := match stop with Some _ => true | None => false end).
    change (jfind (QQ.activity_body m s) "msg_seq") with (Some (JInt (if s then 2 else 1))).
    unfold QQ.sequence. rewrite decide_True by done. intros [= E]. destruct s; lia.
Qed.

(** a Markdown reply is the plain reply with its text moved: the same path, number and message, and it fails as the
    plain one does. *)
Theorem markdown_reply_spec (m : Message) (text : string) (part : nat) :
  QQ.qq_markdown_reply read dump m text part =
    Some (let? r := QQ.reply dump m text part in
          Ok (mkRequest "POST" (path r) (dump (JObject
            [("markdown", JObject [("content", JString text)]); ("msg_id", JString (message_id m));
             ("msg_seq", JInt (QQ.sequence m part)); ("msg_type", JInt 2)]%string)))).
Proof.
  unfold QQ.qq_markdown_reply. destruct (QQ.reply dump m text part) as [r|e] eqn:E; [|done].
  apply qq_reply_inv in E as (_ & -> & Hr). cbn [exc_bind result_bind body path method]. rewrite read_dump by done.
  reflexivity.
Qed.
End Requests.

Module Demo.
Local Open Scope string_scope.
Definition unfit (_ : double) : Z := 0.
Definition bot : Account := mkAccount "acct" "b1".
Definition update : json := JObject
  [("message", JObject
     [("chat", JObject [("id", JInt (-1001)); ("type", JString "supergroup")]);
      ("from", JObject [("id", JInt 7); ("is_bot", JBool false)]);
      ("message_id", JInt 12); ("message_thread_id", JInt 5); ("text", JString "hi")]);
   ("update_id", JInt 900)].
Definition read_update : JsonReader := fun _ => Parsed update.
Definition message : Message :=
  mkMessage (mkConversation telegram "acct" group "-1001" "5") "900" "12" "7" "hi" None None "".
Lemma update_decoded : Telegram.decode unfit read_update "{}" bot = Ok (Some message).
Proof. vm_compute. reflexivity. Qed.

Lemma decode_sound_witness : exists u, read_update "{}" = Parsed u /\ sound telegram bot u message.
Proof. exact (decode_sound unfit read_update telegram "{}" bot message update_decoded). Defined.

Definition write_any : JsonWriter := fun _ => "json".
Lemma telegram_replies_return_witness :
  exists b, Telegram.reply write_any message "yes" 0 = Ok (mkRequest "POST" "/sendMessage" (write_any b)) /\
    jfind b "chat_id" = Some (JInt (-1001)) /\ jfind b "text" = Some (JString "yes") /\
    jfind b "reply_parameters" = Some (JObject [("message_id", JInt 12)]) /\ jfind b "message_thread_id" = Some (JInt 5).
Proof.
  assert (F : forall z, (-2000 <= z < 2000)%Z -> fits_s 64 z) by (unfold fits_s; lia).
  exact (telegram_replies_return unfit read_update write_any "{}" bot message update _ _ (-1001) 12 (Some 5%Z) "yes" 0
    update_decoded eq_refl eq_refl eq_refl eq_refl eq_refl (F (-1001)%Z ltac:(lia)) (F 12%Z ltac:(lia))
    (conj eq_refl (F 5%Z ltac:(lia)))).
Defined.

(** The library of [OrderedJson.Sample]. *)
Definition read_sample : JsonReader := fun s =>
  match json_parse (JsonLibrary := Sample.sample_library) s with
  | Doc v => Parsed v | Malformed what => ParseFailed what | DocThrew => ParseThrew "" end.
Lemma sample_read v : representable v = true -> read_sample (Sample.text v) = Parsed v.
Proof.
  intros Hv. unfold read_sample. by rewrite (parse_dump (JsonLibraryLaws := Sample.sample_laws) v (Sample.text v) Hv eq_refl).
Qed.

Definition question : Message := mkMessage (mkConversation qq "acct" direct "u/1" "") "e" "m" "u/1" "hi" None None "".
Definition qq_request : Request :=
  mkRequest "POST" "/v2/users/u%2F1/messages" (Sample.text (QQ.reply_body question "yes" 1)).
Lemma qq_replied : QQ.reply Sample.text question "yes" 1 = Ok qq_request.
Proof. unfold QQ.reply. change (validate question qq) with (Ok tt : Result unit). reflexivity. Qed.

Lemma reply_injective_witness : same_target qq question question /\ "yes" = "yes" /\ (qq = qq -> 1 = 1).
Proof. exact (reply_injective read_sample Sample.text sample_read qq question question "yes" "yes" 1 1 qq_request qq_replied qq_replied). Defined.

Lemma qq_numbers_distinct_witness :
  1 < 5 /\ jfind (QQ.reply_body question "more" 2) "msg_seq" <> jfind (QQ.reply_body question "yes" 1) "msg_seq".
Proof.
  destruct (qq_numbers_distinct Sample.text question "yes" 1 qq_request qq_replied) as (H & _ & Hd & _).
  split; [exact H|]. exact (Hd "more" 2 (fun E => match Nat.neq_succ_diag_l 1 E return False with end)).
Defined.

Lemma markdown_reply_spec_witness :
  is_Some (QQ.qq_markdown_reply read_sample Sample.text question "yes" 1).
Proof. rewrite (markdown_reply_spec read_sample Sample.text sample_read question "yes" 1). eexists. reflexivity. Defined.

Lemma mention_erased_witness :
  erase_all (lit "@b ") (lit "@@b b ok") = lit "ok" /\
  (forall i, starts_with (lit "@b ") (drop i (erase_all (lit "@b ") (lit "@@b b ok"))) = false).
Proof. split; [reflexivity|]. apply (proj1 (mention_erased (lit "@b ") (lit "@@b b ok") ltac:(discriminate))). Defined.
End Demo.
