(* ===== verification/TeamBoard.v ===== *)
(** * oran-bootstrap: team boards

    Models the data of [include/oran/bootstrap/background_tasks.hpp],
    [include/oran/bootstrap/agent-team.hpp] and [include/oran/tool/team.hpp], the
    validation of team commands ([src/oran-tool/team.cpp]), a team's messages
    ([src/oran-bootstrap/team-messages.cpp]) and what the leader is shown
    ([src/oran-bootstrap/team-output.cpp], [src/oran-bootstrap/task_output.cpp]).
    The service that owns the boards and runs their work is in [Background.v].
    The JSON library's writer is the section variable [dump]. *)
From S2P Require Import Prelude.
From S2P Require Import Core.
From S2P Require Import Utf8.
From S2P Require Import TurnId.
From S2P Require Import Json.
From S2P Require Import Approval.
From S2P Require Import Hooks.
From S2P Require Import AuditRows.
From S2P Require Import Dispatch.
Import EnumNames.

(** ** States *)
Inductive TaskState := ts_queued | ts_running | ts_cancelling | ts_succeeded | ts_failed | ts_cancelled.
#[export] Instance TaskState_eq_dec : EqDecision TaskState.
Proof. solve_decision. Defined.
#[export] Instance Enum_TaskState : Enum TaskState := {
  enumerators := [(ts_queued, "queued"); (ts_running, "running"); (ts_cancelling, "cancelling");
    (ts_succeeded, "succeeded"); (ts_failed, "failed"); (ts_cancelled, "cancelled")]%string }.
#[export] Instance EnumLaws_TaskState : EnumLaws TaskState.
Proof. solve_enum_laws. Qed.

Inductive TeamTaskState :=
  | tt_waiting | tt_queued | tt_running | tt_in_review | tt_accepted | tt_failed | tt_cancelling | tt_cancelled.
#[export] Instance TeamTaskState_eq_dec : EqDecision TeamTaskState.
Proof. solve_decision. Defined.
#[export] Instance Enum_TeamTaskState : Enum TeamTaskState := {
  enumerators := [(tt_waiting, "waiting"); (tt_queued, "queued"); (tt_running, "running");
    (tt_in_review, "in_review"); (tt_accepted, "accepted"); (tt_failed, "failed");
    (tt_cancelling, "cancelling"); (tt_cancelled, "cancelled")]%string }.
#[export] Instance EnumLaws_TeamTaskState : EnumLaws TeamTaskState.
Proof. solve_enum_laws. Qed.

Definition task_terminal (s : TaskState) : bool :=
  bool_decide (s = ts_succeeded) || bool_decide (s = ts_failed) || bool_decide (s = ts_cancelled).
Definition team_task_active (s : TeamTaskState) : bool :=
  bool_decide (s = tt_queued) || bool_decide (s = tt_running) || bool_decide (s = tt_cancelling).

(** ** Data *)
Record TaskOwner := mkOwner {
  own_session : TurnId; own_scope : string; own_agent : string; own_identity : string }.
#[export] Instance TaskOwner_eq_dec : EqDecision TaskOwner.
Proof. solve_decision. Defined.

Record TaskSnapshot := mkSnapshot {
  sn_task_id : string; sn_agent_key : string; sn_label : string; sn_state : TaskState;
  sn_created_at : Z; sn_updated_at : Z; sn_automatic : bool; sn_acknowledged : bool;
  sn_result : string; sn_offset : nat; sn_bytes : nat; sn_next : option nat;
  sn_truncated : bool; sn_error : option ErrorKind;
  sn_team_id : string; sn_team_task : string; sn_team_attempt : nat }.

Record TeamMemberSnapshot := mkMemberSnapshot {
  ms_name : string; ms_agent_key : string; ms_session_id : string; ms_tools : list string }.
Record TeamTaskSnapshot := mkTask {
  tk_key : string; tk_member : string; tk_depends : list string; tk_attempt : nat;
  tk_state : TeamTaskState; tk_run : string; tk_report : string; tk_truncated : bool;
  tk_feedback : string; tk_error : option ErrorKind }.
Record InboxMessage := mkInbox { in_id : string; in_sender : string; in_text : string }.

(** [Team::Member], with the session its runs use. *)
Record Member (Sess : Type) := mkMember {
  mb_snapshot : TeamMemberSnapshot; mb_instructions : string; mb_child : Sess; mb_initialized : bool }.
Arguments mkMember {Sess}. Arguments mb_snapshot {Sess}. Arguments mb_instructions {Sess}.
Arguments mb_child {Sess}. Arguments mb_initialized {Sess}.
Record Work := mkWork { wk_snapshot : TeamTaskSnapshot; wk_prompt : string; wk_turn : option TurnId }.
Record TeamMessage := mkTeamMessage { mg_envelope : InboxMessage; mg_recipient : string; mg_acknowledged : bool }.

(** [Impl::Team]; [tm_ref] stands for its address, which jobs and inboxes hold. *)
Record Team (Sess : Type) := mkTeam {
  tm_ref : nat; tm_owner : TaskOwner; tm_id : string; tm_goal : string; tm_stopped : bool;
  tm_members : list (Member Sess); tm_work : list Work; tm_messages : list TeamMessage }.
Arguments mkTeam {Sess}. Arguments tm_ref {Sess}. Arguments tm_owner {Sess}. Arguments tm_id {Sess}.
Arguments tm_goal {Sess}. Arguments tm_stopped {Sess}. Arguments tm_members {Sess}.
Arguments tm_work {Sess}. Arguments tm_messages {Sess}.

Record TeamSnapshot := mkTeamSnapshot {
  tsn_id : string; tsn_goal : string; tsn_stopped : bool; tsn_automatic : bool;
  tsn_sent : nat; tsn_pending : nat; tsn_members : list TeamMemberSnapshot; tsn_tasks : list TeamTaskSnapshot }.

(** ** Commands *)
Record TeamMemberSpec := mkSpec { sp_name : string; sp_instructions : string; sp_tools : list string }.
Record TeamCreateRequest := mkCreate { cr_goal : string; cr_members : list TeamMemberSpec }.
Record TeamTaskCreateRequest := mkTaskCreate {
  tc_key : string; tc_member : string; tc_prompt : string; tc_depends : list string }.
Inductive TeamTaskAction := act_accept | act_revise | act_cancel.
#[export] Instance TeamTaskAction_eq_dec : EqDecision TeamTaskAction.
Proof. solve_decision. Defined.
Record TeamTaskUpdateRequest := mkUpdate {
  up_key : string; up_attempt : nat; up_action : TeamTaskAction; up_feedback : string; up_team : string }.
Record TeamGetRequest := mkGet { gt_key : string; gt_offset : nat; gt_max : nat }.
Definition default_get : TeamGetRequest := mkGet "" 0 2048.
Record TeamMessageRequest := mkMessageRequest { mr_recipient : string; mr_task : string; mr_message : string }.
Inductive TeamCommand :=
  | TeamCreate (r : TeamCreateRequest) | TeamMemberAdd (s : TeamMemberSpec)
  | TeamTaskCreate (r : TeamTaskCreateRequest) | TeamTaskUpdate (r : TeamTaskUpdateRequest)
  | TeamGet (r : TeamGetRequest) | TeamStop | TeamMessageSend (r : TeamMessageRequest).

Definition text_valid (value : string) (maximum : nat) (empty : bool) : bool :=
  (empty || negb (bool_decide (value = ""%string))) && (String.length value <=? maximum) &&
  is_valid_utf8 (lit value).
Definition control (c : ascii) : bool := ((code c <? 0x20) || (code c =? 0x7f))%Z.
Definition key_valid (value : string) : bool :=
  text_valid value 64 false && forallb (fun c => negb (control c)) (lit value).

(** [std::ranges::sort] on strings and [std::ranges::adjacent_find]. *)
Fixpoint insert_key (k : string) (l : list string) : list string :=
  match l with
  | [] => [k]
  | k' :: l' => if bytes_lt (lit k') (lit k) then k' :: insert_key k l' else k :: l
  end.
Definition sort_keys (l : list string) : list string := foldr insert_key [] l.
Fixpoint adjacent_find (l : list string) : bool :=
  match l with
  | a :: (b :: _) as l' => bool_decide (a = b) || adjacent_find l'
  | _ => false
  end.
Definition keys_valid (keys : list string) (maximum : nat) : bool :=
  if (maximum <? length keys) || negb (forallb key_valid keys) then false
  else negb (adjacent_find (sort_keys keys)).

Definition spec_valid (s : TeamMemberSpec) : bool :=
  key_valid (sp_name s) && negb (bool_decide (sp_name s = "leader"%string)) &&
  text_valid (sp_instructions s) 4096 false && keys_valid (sp_tools s) 32.
Definition command_valid (c : TeamCommand) : bool :=
  match c with
  | TeamCreate r =>
      text_valid (cr_goal r) 8192 false && negb (bool_decide (cr_members r = [])) &&
      (length (cr_members r) <=? 4) && forallb spec_valid (cr_members r) &&
      keys_valid (map sp_name (cr_members r)) 4
  | TeamMemberAdd s => spec_valid s
  | TeamTaskCreate r =>
      key_valid (tc_key r) && key_valid (tc_member r) && text_valid (tc_prompt r) 8192 false &&
      keys_valid (tc_depends r) 32 && negb (bool_decide (tc_key r ∈ tc_depends r))
  | TeamTaskUpdate r =>
      match parse_turn_id_hex (lit (up_team r)) with
      | Ok team =>
          negb (is_zero_turn_id team) && key_valid (up_key r) && (1 <=? up_attempt r) &&
          (up_attempt r <=? 3) &&
          text_valid (up_feedback r) 4096 (bool_decide (up_action r = act_cancel))
      | Err _ => false
      end
  | TeamGet r =>
      (bool_decide (gt_key r = ""%string) || key_valid (gt_key r)) && (Z.of_nat (gt_offset r) <=? 65536)%Z &&
      (1 <=? gt_max r) && (gt_max r <=? 8192) &&
      (negb (bool_decide (gt_key r = ""%string)) || (gt_offset r =? 0))
  | TeamMessageSend r =>
      key_valid (mr_recipient r) && key_valid (mr_task r) && text_valid (mr_message r) 4096 false
  | TeamStop => true
  end.
Definition validate_team_command (c : TeamCommand) : Result unit :=
  if command_valid c then Ok tt
  else Err (Errors.invalid_argument "invalid team command, text, keys or bounds").

(** ** A team's members, work and messages *)
(** [truncate_to_code_point] on strings; byte [i] of a string. *)
Definition truncated (s : string) (max : nat) : string := str (truncate_to_code_point (lit s) max).
Definition continuation_at (s : string) (i : nat) : bool :=
  match lit s !! i with Some c => (Z.land (code c) 0xc0 =? 0x80)%Z | None => false end.

Section Board.
Context {Sess : Type}.
Implicit Types t : Team Sess.

Definition set_members t (m : list (Member Sess)) : Team Sess :=
  mkTeam (tm_ref t) (tm_owner t) (tm_id t) (tm_goal t) (tm_stopped t) m (tm_work t) (tm_messages t).
Definition set_work t (w : list Work) : Team Sess :=
  mkTeam (tm_ref t) (tm_owner t) (tm_id t) (tm_goal t) (tm_stopped t) (tm_members t) w (tm_messages t).
Definition set_messages t (m : list TeamMessage) : Team Sess :=
  mkTeam (tm_ref t) (tm_owner t) (tm_id t) (tm_goal t) (tm_stopped t) (tm_members t) (tm_work t) m.
Definition set_stopped t : Team Sess :=
  mkTeam (tm_ref t) (tm_owner t) (tm_id t) (tm_goal t) true (tm_members t) (tm_work t) (tm_messages t).

Definition set_task (w : Work) (s : TeamTaskSnapshot) : Work := mkWork s (wk_prompt w) (wk_turn w).
Definition set_task_state (s : TeamTaskSnapshot) (state : TeamTaskState) : TeamTaskSnapshot :=
  mkTask (tk_key s) (tk_member s) (tk_depends s) (tk_attempt s) state (tk_run s) (tk_report s)
    (tk_truncated s) (tk_feedback s) (tk_error s).
Definition set_feedback (s : TeamTaskSnapshot) (f : string) : TeamTaskSnapshot :=
  mkTask (tk_key s) (tk_member s) (tk_depends s) (tk_attempt s) (tk_state s) (tk_run s) (tk_report s)
    (tk_truncated s) f (tk_error s).
Definition work_state (w : Work) (state : TeamTaskState) : Work := set_task w (set_task_state (wk_snapshot w) state).

Definition member_name (m : Member Sess) : string := ms_name (mb_snapshot m).
Definition work_key (w : Work) : string := tk_key (wk_snapshot w).
Definition find_member t (name : string) : option (Member Sess) :=
  snd <$> list_find (fun m => member_name m = name) (tm_members t).
Definition find_work t (key : string) : option Work :=
  snd <$> list_find (fun w => work_key w = key) (tm_work t).

(** The first entry that meets a condition, through the iterator [find_if] gives. *)
Definition update_first {A} (p : A -> bool) (f : A -> A) (l : list A) : list A :=
  match list_find (fun x => Is_true (p x)) l with
  | Some (i, x) => <[i := f x]> l
  | None => l
  end.

(** [Team::has_active_work]: of one member, or of any for an empty name. *)
Definition has_active_work t (member : string) : bool :=
  existsb (fun w => (bool_decide (member = ""%string) || bool_decide (tk_member (wk_snapshot w) = member)) &&
    team_task_active (tk_state (wk_snapshot w))) (tm_work t).
Definition waiting_work t : nat :=
  length (filter (fun w => tk_state (wk_snapshot w) = tt_waiting) (tm_work t)).

(** [Team::pending_messages], of all recipients and of one. *)
Definition pending_messages t : nat := length (filter (fun m => mg_acknowledged m = false) (tm_messages t)).
Definition pending_for t (recipient : string) : nat :=
  length (filter (fun m => mg_recipient m = recipient /\ mg_acknowledged m = false) (tm_messages t)).

Context (dump : JsonWriter).

(** [send_team_message], given whether the service is closed. *)
Definition send_team_message (closed : bool) t (sender : string) (r : TeamMessageRequest)
    : Result Output * Team Sess :=
  match validate_team_command (TeamMessageSend r) with
  | Err e => (Err e, t)
  | Ok _ =>
    if closed || tm_stopped t then (Err (Errors.mk ek_conflict "team messaging is closed"), t)
    else match find_member t (mr_recipient r), find_work t (mr_task r) with
    | Some _, Some w =>
      if bool_decide (mr_recipient r = sender) then
        (Err (Errors.invalid_argument "send team messages to another member"), t)
      else if negb (bool_decide (sender = "leader"%string)) &&
          (negb (bool_decide (tk_member (wk_snapshot w) = sender)) ||
           negb (bool_decide (tk_state (wk_snapshot w) = tt_running))) then
        (Err (Errors.permission_denied "members can message only about their active task"), t)
      else if (64 <=? length (tm_messages t)) || (16 <=? pending_for t (mr_recipient r)) then
        (Err (Errors.mk ek_mailbox_overflowed "team message limit reached"), t)
      else
        let id := pretty (length (tm_messages t) + 1) in
        let body := dump (jobject [("task", JString (mr_task r));
          ("attempt", JInt (Z.of_nat (tk_attempt (wk_snapshot w)))); ("message", JString (mr_message r))]%string) in
        if 8192 <? String.length body then
          (Err (Errors.invalid_argument "encoded team message exceeds the inbox byte bound"), t)
        else
          let t := set_messages t (tm_messages t ++
            [mkTeamMessage (mkInbox id sender body) (mr_recipient r) false]) in
          let receipt := dump (jobject [("kind", JString "team_message"); ("message_id", JString id);
            ("recipient", JString (mr_recipient r)); ("state", JString "queued");
            ("wakes_idle_member", JBool false)]%string) in
          (Ok (mkOutput (receipt +:+ str [ascii_of_nat 10] +:+
             "Queued for the recipient's next model request; this does not imply it was read.")%string
             (Some receipt) [] no_usage false), t)
    | _, _ => (Err (Errors.not_found "team recipient or task is unavailable"), t)
    end
  end.

(** The closures [bind_team_inbox] gives a member's session, once the weak pointer
    to the team is locked. *)
Definition inbox_read t (member : string) : list InboxMessage :=
  map mg_envelope (filter (fun m => mg_recipient m = member /\ mg_acknowledged m = false) (tm_messages t)).
Definition inbox_acknowledge t (member : string) (ids : list string) : Team Sess :=
  set_messages t (map (fun m =>
    if bool_decide (mg_recipient m = member) && bool_decide (in_id (mg_envelope m) ∈ ids)
    then mkTeamMessage (mg_envelope m) (mg_recipient m) true else m) (tm_messages t)).

(** ** What the leader sees *)
Definition task_value (s : TeamTaskSnapshot) : list (string * json) :=
  [("key", JString (tk_key s)); ("member", JString (tk_member s));
   ("attempt", JInt (Z.of_nat (tk_attempt s))); ("state", JString (enum_name (tk_state s)));
   ("depends_on", JArray (map JString (tk_depends s))); ("run_id", JString (tk_run s));
   ("report_bytes", JInt (Z.of_nat (String.length (tk_report s))));
   ("report_truncated", JBool (tk_truncated s));
   ("error_kind", match tk_error s with Some k => JString (enum_name k) | None => JNull end)]%string.

(** A window of a text: the bytes shown, or why there are none. *)
Definition next_offset (text part : string) (offset : nat) : option nat :=
  if offset + String.length part <? String.length text then Some (offset + String.length part) else None.
Definition rest_of (text : string) (offset : nat) : string := str (drop offset (lit text)).

Definition report_window (s : TeamTaskSnapshot) (r : TeamGetRequest) : Result string :=
  fail? (String.length (tk_report s) <? gt_offset r) ||
        ((gt_offset r <? String.length (tk_report s)) && continuation_at (tk_report s) (gt_offset r))
    with Errors.invalid_argument "invalid team report byte offset";
  let report := truncated (rest_of (tk_report s) (gt_offset r)) (gt_max r) in
  fail? bool_decide (report = ""%string) && (gt_offset r <? String.length (tk_report s))
    with Errors.invalid_argument "team report window cannot fit one UTF-8 character";
  Ok report.

Definition team_output t (automatic : bool) (r : TeamGetRequest) : Result Output :=
  let? parts :=
    if bool_decide (gt_key r = ""%string) then
      Ok [("members", JArray (map (fun m => jobject [("name", JString (member_name m));
            ("tools", JArray (map JString (ms_tools (mb_snapshot m))))]) (tm_members t)));
          ("tasks", JArray (map (fun w => jobject (task_value (wk_snapshot w))) (tm_work t)))]%string
    else match find_work t (gt_key r) with
    | None => Err (Errors.not_found "team task is unavailable")
    | Some w =>
        let s := wk_snapshot w in
        let? report := report_window s r in
        Ok [("tasks", JArray [jobject (task_value s ++
          [("report", JString report); ("feedback", JString (tk_feedback s));
           ("offset", JInt (Z.of_nat (gt_offset r)));
           ("next_offset", match next_offset (tk_report s) report (gt_offset r) with
              Some n => JInt (Z.of_nat n) | None => JNull end)])])]%string
    end in
  let encoded := dump (jobject ([("kind", JString "agent_team"); ("team_id", JString (tm_id t));
    ("stopped", JBool (tm_stopped t));
    ("completion_delivery", JString (if automatic then "automatic" else "query_only"));
    ("survives_restart", JBool false); ("sent_messages", JInt (Z.of_nat (length (tm_messages t))));
    ("pending_messages", JInt (Z.of_nat (pending_messages t)))]%string ++ parts)) in
  Ok (mkOutput (encoded +:+ str [ascii_of_nat 10] +:+
    "A reported task awaits your review. Only accepting its current attempt unlocks dependents. " +:+
    "Waiting can mean unaccepted dependencies, a busy member, or shared task capacity. " +:+
    "Use TeamGet with a task key for evidence; capped reports are incomplete." +:+
    (if automatic then " Completion arrives automatically; do not poll just to wait."
     else " This host does not send automatic completion; inspect when needed."))%string
    (Some encoded) [] no_usage false).
End Board.

(** [task_output]: the text and data of one background task. *)
Definition newline : string := str [ascii_of_nat 10].
Definition task_data (s : TaskSnapshot) : list (string * json) :=
  ([("kind", JString "background_task"); ("task_id", JString (sn_task_id s));
   ("agent_key", JString (sn_agent_key s)); ("label", JString (sn_label s));
   ("state", JString (enum_name (sn_state s)));
   ("completion_delivery", JString (if sn_automatic s then "automatic" else "query_only"));
   ("survives_turn", JBool true); ("survives_restart", JBool false);
   ("acknowledged", JBool (sn_acknowledged s)); ("result", JString (sn_result s));
   ("result_offset", JInt (Z.of_nat (sn_offset s))); ("result_bytes", JInt (Z.of_nat (sn_bytes s)));
   ("next_offset", match sn_next s with Some n => JInt (Z.of_nat n) | None => JNull end);
   ("result_truncated", JBool (sn_truncated s));
   ("error_kind", match sn_error s with Some k => JString (enum_name k) | None => JNull end)]%string ++
  (if bool_decide (sn_team_id s = ""%string) then [] else
   [("team_id", JString (sn_team_id s)); ("team_task_key", JString (sn_team_task s));
    ("team_attempt", JInt (Z.of_nat (sn_team_attempt s)))]%string)).
Definition task_text (s : TaskSnapshot) : string :=
  ("Task " +:+ sn_task_id s +:+ " (" +:+ sn_label s +:+ ") is " +:+ enum_name (sn_state s) +:+
   ". Completion delivery: " +:+ (if sn_automatic s then "automatic" else "query_only") +:+ "." +:+ newline +:+
   (if bool_decide (sn_team_id s = "") then "" else
    "Team task " +:+ sn_team_task s +:+ " attempt " +:+ pretty (sn_team_attempt s) +:+
    ": review with TeamGet, then TeamTaskUpdate. " +:+
    "Successful execution alone does not accept a team task; check its current state." +:+ newline) +:+
   (if bool_decide (sn_state s = ts_queued) || bool_decide (sn_state s = ts_running) then
    "Accepted, not completed. Continues across turns, but not across process restarts." +:+ newline +:+
    (if sn_automatic s
     then "Continue independent work; the host will deliver completion. Do not poll just to wait." +:+ newline
     else "Inspect later with TaskGet; this host does not arrange an automatic follow-up." +:+ newline)
    else "") +:+
   match sn_error s with Some k => "Task ended with " +:+ enum_name k +:+ "." +:+ newline | None => "" end +:+
   sn_result s +:+
   match sn_next s with Some n => newline +:+ "More result text: TaskGet offset=" +:+ pretty n +:+ "." | None => "" end +:+
   (if sn_truncated s then newline +:+ "[Retained result was truncated.]" else ""))%string.
Definition task_output (dump : JsonWriter) (s : TaskSnapshot) : Output :=
  mkOutput (task_text s) (Some (dump (jobject (task_data s)))) [] no_usage false.

Section Reports.
Context {Sess : Type}.
Implicit Types t : Team Sess.

(** [BackgroundTasks::get_team] on the team found. *)
Definition team_snapshot t (automatic : bool) : TeamSnapshot :=
  mkTeamSnapshot (tm_id t) (tm_goal t) (tm_stopped t) automatic (length (tm_messages t)) (pending_messages t)
    (map mb_snapshot (tm_members t)) (map wk_snapshot (tm_work t)).

(** [update_team_job]: the board entry of a job's attempt follows the job. *)
Definition of_job (s : TaskSnapshot) (w : Work) : bool :=
  bool_decide (work_key w = sn_team_task s) && bool_decide (tk_run (wk_snapshot w) = sn_task_id s) &&
  (tk_attempt (wk_snapshot w) =? sn_team_attempt s).
Definition report_limit : nat := 65536.
Definition reported (s : TaskSnapshot) (result : string) (state : TeamTaskState) (k : TeamTaskSnapshot)
    : TeamTaskSnapshot :=
  let report := truncated result report_limit in
  mkTask (tk_key k) (tk_member k) (tk_depends k) (tk_attempt k) state (tk_run k) report
    (sn_truncated s || (String.length report <? String.length result)) (tk_feedback k) (sn_error s).
Definition follow (s : TaskSnapshot) (result : string) (w : Work) : Work :=
  match sn_state s with
  | ts_queued => work_state w tt_queued
  | ts_running => work_state w tt_running
  | ts_cancelling => work_state w tt_cancelling
  | ts_succeeded => set_task w (reported s result tt_in_review (wk_snapshot w))
  | ts_failed => set_task w (reported s result tt_failed (wk_snapshot w))
  | ts_cancelled => set_task w (reported s result tt_cancelled (wk_snapshot w))
  end.
Definition initialize (success : bool) (m : Member Sess) : Member Sess :=
  mkMember (mb_snapshot m) (mb_instructions m) (mb_child m) (mb_initialized m || success).
Definition update_team_job t (s : TaskSnapshot) (result : string) : Team Sess :=
  match list_find (fun w => Is_true (of_job s w)) (tm_work t) with
  | None => t
  | Some (_, w) =>
      let t := set_work t (update_first (of_job s) (follow s result) (tm_work t)) in
      if task_terminal (sn_state s) then
        set_members t (update_first (fun m => bool_decide (member_name m = tk_member (wk_snapshot w)))
          (initialize (bool_decide (sn_state s = ts_succeeded))) (tm_members t))
      else t
  end.
End Reports.
