(* ===== verification/BackgroundInvariant.v ===== *)
(** * oran-bootstrap: the invariant of background tasks and teams

    What holds of the service of [Background.v] between its actions, the [micro] steps
    every action is made of, each a change of a few components, and that each keeps the
    invariant. *)
From S2P Require Import Prelude.
From S2P Require Import Core.
From S2P Require Import Utf8.
From S2P Require Import TurnId.
From S2P Require Import Json.
From S2P Require Import Rules.
From S2P Require Import Approval.
From S2P Require Import TaskGroup.
From S2P Require Import Dispatch.
From S2P Require Import TeamBoard.
From S2P Require Import Background.

(** ** Lists *)
Section Lists.
Context {B : Type}.
Implicit Types l : list B.

Lemma find_some {P : B -> Prop} `{forall x, Decision (P x)} l x :
  snd <$> list_find P l = Some x -> x ∈ l /\ P x.
Proof.
  intros H0. destruct (list_find P l) as [[i y]|] eqn:E; [|done]. injection H0 as ->.
  apply list_find_Some in E as (Hi & Hp & _). split; [by eapply list_elem_of_lookup_2|done].
Qed.
Lemma find_none {P : B -> Prop} `{forall x, Decision (P x)} l :
  snd <$> list_find P l = None -> forall x, x ∈ l -> ~ P x.
Proof.
  intros H0 x Hx. destruct (list_find P l) as [[i y]|] eqn:E; [done|].
  apply list_find_None in E. rewrite Forall_forall in E. by apply E.
Qed.
(** A key that occurs once finds its entry. *)
Lemma key_unique {K} (key : B -> K) l x y :
  NoDup (map key l) -> x ∈ l -> y ∈ l -> key x = key y -> x = y.
Proof.
  induction l as [|a l IH]; intros Hn Hx Hy He; [by apply not_elem_of_nil in Hx|].
  apply NoDup_cons in Hn as [Ha Hn].
  apply elem_of_cons in Hx as [->|Hx]; apply elem_of_cons in Hy as [->|Hy]; try done.
  - destruct Ha. rewrite He. by apply list_elem_of_fmap_2.
  - destruct Ha. rewrite <- He. by apply list_elem_of_fmap_2.
  - by apply IH.
Qed.
Lemma find_key {K} `{EqDecision K} (key : B -> K) l x k :
  NoDup (map key l) -> x ∈ l -> key x = k -> snd <$> list_find (fun y => key y = k) l = Some x.
Proof.
  intros Hn Hx Hk. destruct (list_find _ l) as [[i y]|] eqn:E.
  - apply list_find_Some in E as (Hi & Hy & _). simpl. f_equal. apply (key_unique key l); try done.
    + by eapply list_elem_of_lookup_2. + congruence.
  - apply list_find_None in E. rewrite Forall_forall in E. by apply E in Hx.
Qed.
(** With at most one match, the first update is an update of every match. *)
Lemma update_first_map (p : B -> bool) f l :
  (forall i j x y, l !! i = Some x -> l !! j = Some y -> p x -> p y -> i = j) ->
  update_first p f l = map (fun x => if p x then f x else x) l.
Proof.
  unfold update_first. intros Hu. apply list_eq. intros j.
  rewrite (list_lookup_fmap (fun x => if p x then f x else x)).
  destruct (list_find _ l) as [[i x]|] eqn:E.
  - apply list_find_Some in E as (Hi & Hx & _). destruct (decide (i = j)) as [<-|Hne].
    + rewrite list_lookup_insert_eq by (by eapply lookup_lt_Some). rewrite Hi. simpl. by destruct (p x).
    + rewrite list_lookup_insert_ne by done. destruct (l !! j) as [y|] eqn:Hj; [|done]. simpl.
      destruct (p y) eqn:Hp; [|done]. destruct Hne. eapply Hu; [done..| |]; [done|by rewrite Hp].
  - apply list_find_None in E. rewrite Forall_forall in E.
    destruct (l !! j) as [y|] eqn:Hj; [|done]. simpl. destruct (p y) eqn:Hp; [|done].
    exfalso. apply (E y); [by eapply list_elem_of_lookup_2|by rewrite Hp].
Qed.
Lemma update_first_rel (R : B -> B -> Prop) (p : B -> bool) f l :
  (forall x, R x x) -> (forall x, snd <$> list_find (fun y => Is_true (p y)) l = Some x -> R x (f x)) ->
  Forall2 R l (update_first p f l).
Proof.
  intros Hr Hf. unfold update_first. destruct (list_find _ l) as [[i x]|] eqn:E.
  - pose proof E as E'. apply list_find_Some in E as (Hi & _ & _). apply Forall2_same_length_lookup. split; [by rewrite length_insert|].
    intros j a b Ha Hb. apply list_lookup_insert_Some in Hb as [(<- & <- & _)|(_ & Hb)].
    + rewrite Hi in Ha. injection Ha as <-. by apply Hf.
    + rewrite Ha in Hb. by injection Hb as <-.
  - by apply Forall_Forall2_diag, Forall_true.
Qed.
Lemma nodup_keys_lookup {K} (key : B -> K) l i j x y :
  NoDup (map key l) -> l !! i = Some x -> l !! j = Some y -> key x = key y -> i = j.
Proof.
  intros Hn Hi Hj He. eapply (NoDup_lookup (map key l)); [done| |].
  - rewrite (list_lookup_fmap key), Hi. done. - rewrite (list_lookup_fmap key), Hj. simpl. by rewrite He.
Qed.
Lemma count_map (f : B -> B) (p : B -> Prop) `{forall x, Decision (p x)} l :
  (forall x, x ∈ l -> p (f x) <-> p x) -> length (filter p (map f l)) = length (filter p l).
Proof.
  induction l as [|x l IH]; intros Hf; [done|]. cbn [map]. rewrite !filter_cons.
  assert (E : p (f x) <-> p x) by (apply Hf; left). assert (IH' : length (filter p (map f l)) = length (filter p l)).
  { apply IH. intros y Hy. apply Hf. by right. }
  destruct (decide (p (f x))), (decide (p x)); try tauto; simpl; lia.
Qed.
Lemma forallb_ext (f g : B -> bool) l : (forall x, f x = g x) -> forallb f l = forallb g l.
Proof. intros H. induction l as [|x l IH]; [done|]. cbn. by rewrite H, IH. Qed.
End Lists.

(** ** The invariant *)
Definition busy (s : TaskState) : bool := bool_decide (s = ts_running) || bool_decide (s = ts_cancelling).
(** The board entry of a job's attempt shows the state of the job. *)
Definition board_state (s : TaskState) : TeamTaskState :=
  match s with
  | ts_queued => tt_queued | ts_running => tt_running | ts_cancelling => tt_cancelling
  | ts_succeeded => tt_in_review | ts_failed => tt_failed | ts_cancelled => tt_cancelled
  end.
(** The states a task reaches only by being scheduled. *)
Definition admitted (s : TeamTaskState) : bool :=
  team_task_active s || bool_decide (s = tt_in_review) || bool_decide (s = tt_accepted).

(** The life cycles. *)
Inductive job_step : TaskState -> TaskState -> Prop :=
  | js_launch : job_step ts_queued ts_running
  | js_drop s : s = ts_failed \/ s = ts_cancelled -> job_step ts_queued s
  | js_stop : job_step ts_running ts_cancelling
  | js_end s : task_terminal s = true -> job_step ts_running s
  | js_stopped s : s = ts_failed \/ s = ts_cancelled -> job_step ts_cancelling s.

Section Invariant.
Context {Sess : Type}.
Implicit Types im : Impl Sess.
Implicit Types j : Job Sess.
Implicit Types t : Team Sess.

Definition count_busy im : nat := length (filter (fun j => busy (job_state j) = true) (im_jobs im)).

(** One job: its group exists while it runs, its timer while it is unfinished; what it
    retains is bounded, and an error is recorded exactly for failure and cancellation. *)
Record job_ok (o : BackgroundTaskOptions) j : Prop := {
  jo_group : is_Some (jb_group j) <-> busy (job_state j) = true;
  jo_over : task_terminal (job_state j) = true -> jb_team j = None;
  jo_timer : task_terminal (job_state j) = false <-> is_Some (jb_deadline j);
  jo_child : task_terminal (job_state j) = false <-> is_Some (jb_child j);
  jo_bytes : sn_bytes (jb_snapshot j) = String.length (jb_result j) /\ String.length (jb_result j) <= max_result_bytes o;
  jo_result : jb_result j <> ""%string -> job_state j = ts_succeeded;
  jo_error : is_Some (sn_error (jb_snapshot j)) <-> job_state j = ts_failed \/ job_state j = ts_cancelled;
  jo_claimed : jb_claimed j = true -> task_terminal (job_state j) = true;
  jo_lone : forall g, jb_group j = Some g -> length (active g) <= 1 }.

(** One board: its bounds, its names and keys, and the order of its dependencies. *)
Record team_ok t : Prop := {
  to_members : length (tm_members t) <= 4;
  to_names : NoDup (map member_name (tm_members t));
  to_work : length (tm_work t) <= 32;
  to_keys : NoDup (map work_key (tm_work t));
  to_attempts : forall w, w ∈ tm_work t -> 1 <= tk_attempt (wk_snapshot w) <= 3;
  to_assigned : forall w, w ∈ tm_work t -> tk_member (wk_snapshot w) ∈ map member_name (tm_members t);
  to_depends : forall i w d, tm_work t !! i = Some w -> d ∈ tk_depends (wk_snapshot w) ->
    d ∈ map work_key (take i (tm_work t));
  to_gate : forall w d, w ∈ tm_work t -> admitted (tk_state (wk_snapshot w)) = true ->
    d ∈ tk_depends (wk_snapshot w) ->
    exists w', w' ∈ tm_work t /\ work_key w' = d /\ tk_state (wk_snapshot w') = tt_accepted;
  to_single : forall w w', w ∈ tm_work t -> w' ∈ tm_work t ->
    team_task_active (tk_state (wk_snapshot w)) = true -> team_task_active (tk_state (wk_snapshot w')) = true ->
    tk_member (wk_snapshot w) = tk_member (wk_snapshot w') -> work_key w = work_key w';
  to_sent : length (tm_messages t) <= 64;
  to_pending : forall recipient, pending_for t recipient <= 16 }.

(** A job runs an attempt of a task of a board. *)
Record serves j t (w : Work) : Prop := {
  sv_team : jb_team j = Some (tm_ref t);
  sv_owner : jb_owner j = tm_owner t;
  sv_id : sn_team_id (jb_snapshot j) = tm_id t;
  sv_work : of_job (jb_snapshot j) w = true;
  sv_state : tk_state (wk_snapshot w) = board_state (job_state j) }.

Record Inv (o : BackgroundTaskOptions) im : Prop := {
  iv_options : im_options im = o;
  iv_jrefs : NoDup (map jb_ref (im_jobs im));
  iv_jnew : forall j, j ∈ im_jobs im -> jb_ref j < im_refs im;
  iv_ids : NoDup (map job_id (im_jobs im));
  iv_trefs : NoDup (map tm_ref (im_teams im));
  iv_tnew : forall t, t ∈ im_teams im -> tm_ref t < im_refs im;
  iv_owners : NoDup (map tm_owner (im_teams im));
  iv_boards : length (im_teams im) <= 16;
  iv_jobs : forall j, j ∈ im_jobs im -> job_ok o j;
  iv_teams : forall t, t ∈ im_teams im -> team_ok t;
  iv_records : length (im_jobs im) + waiting im <= max_records o;
  iv_unfinished : unfinished im <= max_running o + max_queued o;
  iv_active : im_active im = count_busy im;
  iv_running : im_active im <= max_running o;
  iv_up : forall j r, j ∈ im_jobs im -> jb_team j = Some r ->
    exists t w, t ∈ im_teams im /\ w ∈ tm_work t /\ tm_ref t = r /\ serves j t w;
  iv_down : forall t w, t ∈ im_teams im -> w ∈ tm_work t -> team_task_active (tk_state (wk_snapshot w)) = true ->
    exists j, j ∈ im_jobs im /\ serves j t w }.

(** ** Micro steps *)
(** What the leader, or an admission that fails, does to an entry of a board. *)
Inductive leader_step (acc : bool) (w w' : Work) : Prop :=
  | ls_same : tk_attempt (wk_snapshot w') = tk_attempt (wk_snapshot w) ->
      tk_state (wk_snapshot w') = tk_state (wk_snapshot w) -> tk_run (wk_snapshot w') = tk_run (wk_snapshot w) ->
      leader_step acc w w'
  | ls_close : team_task_active (tk_state (wk_snapshot w)) = false -> tk_state (wk_snapshot w) <> tt_accepted ->
      tk_attempt (wk_snapshot w') = tk_attempt (wk_snapshot w) -> tk_state (wk_snapshot w') = tt_cancelled ->
      leader_step acc w w'
  | ls_refuse : tk_state (wk_snapshot w) = tt_waiting ->
      tk_attempt (wk_snapshot w') = tk_attempt (wk_snapshot w) -> tk_state (wk_snapshot w') = tt_failed ->
      leader_step acc w w'
  | ls_revise : tk_state (wk_snapshot w) = tt_in_review \/ tk_state (wk_snapshot w) = tt_failed ->
      tk_attempt (wk_snapshot w) < 3 -> tk_attempt (wk_snapshot w') = S (tk_attempt (wk_snapshot w)) ->
      tk_state (wk_snapshot w') = tt_waiting -> leader_step acc w w'
  | ls_accept : acc = true -> tk_state (wk_snapshot w) = tt_in_review ->
      tk_attempt (wk_snapshot w') = tk_attempt (wk_snapshot w) -> tk_state (wk_snapshot w') = tt_accepted ->
      leader_step acc w w'.
Record same_entry (w w' : Work) : Prop := {
  se_key : work_key w' = work_key w;
  se_member : tk_member (wk_snapshot w') = tk_member (wk_snapshot w);
  se_depends : tk_depends (wk_snapshot w') = tk_depends (wk_snapshot w) }.
Definition led (acc : bool) (w w' : Work) : Prop := same_entry w w' /\ leader_step acc w w'.

(** Two versions of a job that differ in nothing the boards or the bounds see. *)
Record same_job j j' : Prop := {
  sj_ref : jb_ref j' = jb_ref j; sj_owner : jb_owner j' = jb_owner j; sj_turn : jb_turn j' = jb_turn j;
  sj_id : job_id j' = job_id j; sj_team : sn_team_id (jb_snapshot j') = sn_team_id (jb_snapshot j);
  sj_task : sn_team_task (jb_snapshot j') = sn_team_task (jb_snapshot j);
  sj_attempt : sn_team_attempt (jb_snapshot j') = sn_team_attempt (jb_snapshot j) }.
Definition moved_team j' (team : option nat) : option nat :=
  if task_terminal (job_state j') then None else team.

Inductive micro (o : BackgroundTaskOptions) (acc : bool) im im' : Prop :=
  | mu_quiet : im_options im' = im_options im -> im_jobs im' = im_jobs im -> im_teams im' = im_teams im ->
      im_active im' = im_active im -> im_refs im <= im_refs im' -> micro o acc im im'
  | mu_drop (P : Job Sess -> Prop) `{forall j, Decision (P j)} :
      im_options im' = im_options im -> im_jobs im' = filter P (im_jobs im) -> im_teams im' = im_teams im ->
      im_active im' = im_active im -> im_refs im' = im_refs im ->
      (forall j, j ∈ im_jobs im -> ~ P j -> task_terminal (job_state j) = true) -> micro o acc im im'
  | mu_keep r f :
      im' = upd_job im r f ->
      (forall j, jb_ref j = r -> j ∈ im_jobs im -> job_ok o j ->
         same_job j (f j) /\ (job_state (f j) = job_state j /\ jb_result (f j) = jb_result j) /\
           jb_team (f j) = jb_team j /\ job_ok o (f j)) ->
      micro o acc im im'
  | mu_move r f j result :
      job_at im r = Some j ->
      im_options im' = im_options im -> im_jobs im' = im_jobs (upd_job im r f) ->
      im_teams im' = im_teams (publish (jb_team j) (jb_snapshot (f j)) result im) -> im_refs im' = im_refs im ->
      im_active im' + (if busy (job_state j) then 1 else 0) = im_active im + (if busy (job_state (f j)) then 1 else 0) ->
      im_active im' <= max_running o ->
      same_job j (f j) -> job_step (job_state j) (job_state (f j)) -> jb_team (f j) = moved_team (f j) (jb_team j) ->
      (job_ok o j -> job_ok o (f j)) -> micro o acc im im'
  | mu_admit j :
      im_options im' = im_options im -> im_jobs im' = im_jobs im ++ [j] -> im_teams im' = im_teams im ->
      im_active im' = im_active im -> jb_ref j = im_refs im -> im_refs im < im_refs im' ->
      job_id j ∉ map job_id (im_jobs im) -> job_state j = ts_queued -> jb_team j = None -> job_ok o j ->
      length (im_jobs im) + waiting im < max_records o -> unfinished im < max_running o + max_queued o ->
      micro o acc im im'
  | mu_assign j t i w :
      im_options im' = im_options im -> im_jobs im' = im_jobs im ++ [j] ->
      im_teams im' = im_teams (upd_work im (tm_ref t) i (fun k => queue_task k (job_id j))) ->
      im_active im' = im_active im -> jb_ref j = im_refs im -> im_refs im < im_refs im' ->
      job_id j ∉ map job_id (im_jobs im) -> job_state j = ts_queued -> jb_team j = Some (tm_ref t) -> job_ok o j ->
      t ∈ im_teams im -> tm_work t !! i = Some w -> tk_state (wk_snapshot w) = tt_waiting ->
      ready t (wk_snapshot w) = true -> has_active_work t (tk_member (wk_snapshot w)) = false ->
      jb_owner j = tm_owner t -> sn_team_id (jb_snapshot j) = tm_id t ->
      sn_team_task (jb_snapshot j) = work_key w -> sn_team_attempt (jb_snapshot j) = tk_attempt (wk_snapshot w) ->
      unfinished im < max_running o + max_queued o -> micro o acc im im'
  | mu_work r (F : Team Sess -> list Work) :
      im' = upd_team im r (fun t => set_work t (F t)) ->
      (forall t, t ∈ im_teams im -> tm_ref t = r -> Forall2 (led acc) (tm_work t) (F t)) ->
      length (im_jobs im') + waiting im' <= max_records o \/ waiting im' <= waiting im -> micro o acc im im'
  | mu_submit t w :
      t ∈ im_teams im -> im' = upd_team im (tm_ref t) (fun t => set_work t (tm_work t ++ [w])) ->
      length (tm_work t) < 32 -> work_key w ∉ map work_key (tm_work t) ->
      tk_member (wk_snapshot w) ∈ map member_name (tm_members t) -> tk_attempt (wk_snapshot w) = 1 ->
      tk_state (wk_snapshot w) = tt_waiting ->
      (forall d, d ∈ tk_depends (wk_snapshot w) -> d ∈ map work_key (tm_work t)) ->
      length (im_jobs im) + waiting im < max_records o -> micro o acc im im'
  | mu_found t :
      im_options im' = im_options im -> im_jobs im' = im_jobs im -> im_active im' = im_active im ->
      im_teams im' = im_teams im ++ [t] -> tm_ref t = im_refs im -> im_refs im < im_refs im' ->
      tm_owner t ∉ map tm_owner (im_teams im) ->
      length (im_teams im) < 16 -> tm_work t = [] -> tm_messages t = [] -> length (tm_members t) <= 4 ->
      NoDup (map member_name (tm_members t)) -> micro o acc im im'
  | mu_retire t : t ∈ im_teams im -> retirable t = true -> im' = erase_team (Some t) im -> micro o acc im im'
  | mu_enroll t m : t ∈ im_teams im -> im' = put_team im (set_members t (tm_members t ++ [m])) ->
      length (tm_members t) < 4 -> member_name m ∉ map member_name (tm_members t) -> micro o acc im im'
  | mu_mail t ms :
      t ∈ im_teams im -> im' = put_team im (set_messages t ms) -> length ms <= 64 ->
      (forall recipient, pending_for (set_messages t ms) recipient <= 16) -> micro o acc im im'
  | mu_stop r : im' = upd_team im r set_stopped -> micro o acc im im'.
End Invariant.

(** ** Boards under an update *)
Section Boards.
Context {Sess : Type}.
Implicit Types im : Impl Sess.
Implicit Types j : Job Sess.
Implicit Types t : Team Sess.

Lemma of_job_spec s w :
  of_job s w = true <->
  work_key w = sn_team_task s /\ tk_run (wk_snapshot w) = sn_task_id s /\ tk_attempt (wk_snapshot w) = sn_team_attempt s.
Proof. unfold of_job. rewrite !andb_true_iff, !bool_decide_eq_true, Nat.eqb_eq. tauto. Qed.

Lemma follow_entry s result w :
  same_entry w (follow s result w) /\ tk_run (wk_snapshot (follow s result w)) = tk_run (wk_snapshot w) /\
  tk_attempt (wk_snapshot (follow s result w)) = tk_attempt (wk_snapshot w) /\
  tk_state (wk_snapshot (follow s result w)) = board_state (sn_state s).
Proof. unfold follow, work_state, set_task, reported. destruct (sn_state s); by repeat split. Qed.

Lemma active_board s : team_task_active (board_state s) = negb (task_terminal s).
Proof. by destruct s. Qed.
Lemma active_admitted s : team_task_active s = true -> admitted s = true.
Proof. by destruct s. Qed.

(** With distinct keys, [update_team_job] changes the entry of the attempt and nothing else. *)
Lemma update_team_job_work t s result :
  NoDup (map work_key (tm_work t)) ->
  tm_work (update_team_job t s result) = map (fun w => if of_job s w then follow s result w else w) (tm_work t).
Proof.
  intros Hn. unfold update_team_job.
  assert (Hu : forall a b x y, tm_work t !! a = Some x -> tm_work t !! b = Some y -> of_job s x -> of_job s y -> a = b).
  { intros a b x y Hi Hj Hx%Is_true_true Hy%Is_true_true. apply of_job_spec in Hx as (Hx & _), Hy as (Hy & _).
    apply (nodup_keys_lookup work_key (tm_work t) a b x y); congruence. }
  destruct (list_find _ (tm_work t)) as [[i w]|] eqn:E.
  - rewrite <- update_first_map by done. by destruct (task_terminal (sn_state s)).
  - apply list_find_None in E. rewrite Forall_forall in E. rewrite <- (map_id (tm_work t)) at 1.
    apply map_ext_in. intros w Hw. destruct (of_job s w) eqn:Eo; [|done].
    exfalso. apply (E w); [by apply list_elem_of_In|by rewrite Eo].
Qed.

Lemma initialize_names (p : Member Sess -> bool) b ms :
  map member_name (update_first p (initialize b) ms) = map member_name ms.
Proof.
  unfold update_first. destruct (list_find _ ms) as [[i m]|] eqn:E; [|done].
  apply list_find_Some in E as (Hi & _ & _). apply list_eq. intros k. rewrite !(list_lookup_fmap member_name).
  destruct (decide (i = k)) as [<-|]; [|by rewrite list_lookup_insert_ne].
  rewrite list_lookup_insert_eq by (by eapply lookup_lt_Some). by rewrite Hi.
Qed.
Lemma update_team_job_frame t s result :
  tm_ref (update_team_job t s result) = tm_ref t /\ tm_owner (update_team_job t s result) = tm_owner t /\
  tm_id (update_team_job t s result) = tm_id t /\ tm_messages (update_team_job t s result) = tm_messages t /\
  tm_stopped (update_team_job t s result) = tm_stopped t /\
  map member_name (tm_members (update_team_job t s result)) = map member_name (tm_members t).
Proof.
  unfold update_team_job. destruct (list_find _ _) as [[i w]|]; [|by repeat split].
  destruct (task_terminal _); [|by repeat split]. repeat split. apply initialize_names.
Qed.

(** A board stays well formed when its entries change this way, position by position. *)
Lemma team_ok_entries t t' :
  team_ok t -> map member_name (tm_members t') = map member_name (tm_members t) -> tm_messages t' = tm_messages t ->
  Forall2 (fun w w' => same_entry w w' /\ 1 <= tk_attempt (wk_snapshot w') <= 3) (tm_work t) (tm_work t') ->
  (forall i w w', tm_work t !! i = Some w -> tm_work t' !! i = Some w' ->
     (tk_state (wk_snapshot w) = tt_accepted -> tk_state (wk_snapshot w') = tt_accepted) /\
     (admitted (tk_state (wk_snapshot w')) = true -> admitted (tk_state (wk_snapshot w)) = true \/
        ready t (wk_snapshot w) = true) /\
     (team_task_active (tk_state (wk_snapshot w')) = true -> team_task_active (tk_state (wk_snapshot w)) = true \/
        has_active_work t (tk_member (wk_snapshot w)) = false /\
        (forall k v, tm_work t !! k = Some v -> k <> i -> tm_work t' !! k = Some v))) ->
  team_ok t'.
Proof.
  intros [T1 T2 T3 T4 T5 T6 T7 T8 T9 T10 T11] Hm Hmsg HF Hst.
  assert (Hl : length (tm_members t') = length (tm_members t))
    by (rewrite <- (length_map member_name), Hm; apply length_map).
  assert (Hk : map work_key (tm_work t') = map work_key (tm_work t)).
  { clear -HF. induction HF as [|w w' ws ws' [[H1 _ _] _] _ IH]; [done|]. cbn. by rewrite H1, IH. }
  assert (Hback : forall i w', tm_work t' !! i = Some w' -> exists w, tm_work t !! i = Some w /\ same_entry w w' /\
    1 <= tk_attempt (wk_snapshot w') <= 3).
  { intros i w' Hi. destruct (Forall2_lookup_r _ _ _ _ _ HF Hi) as (w & Hw & [H1 H2]). by exists w. }
  assert (Hacc : forall w, w ∈ tm_work t -> tk_state (wk_snapshot w) = tt_accepted ->
    exists w', w' ∈ tm_work t' /\ work_key w' = work_key w /\ tk_state (wk_snapshot w') = tt_accepted).
  { intros w Hw Ha. apply list_elem_of_lookup in Hw as [i Hi].
    destruct (Forall2_lookup_l _ _ _ _ _ HF Hi) as (w' & Hi' & [[H1 _ _] _]).
    exists w'. split; [by eapply list_elem_of_lookup_2|]. split; [done|]. by apply (Hst i w w'). }
  split.
  - by rewrite Hl.
  - by rewrite Hm.
  - by rewrite <- (Forall2_length _ _ _ HF).
  - by rewrite Hk.
  - intros w' [i Hi]%list_elem_of_lookup. by destruct (Hback i w' Hi) as (w & _ & _ & ?).
  - intros w' [i Hi]%list_elem_of_lookup. destruct (Hback i w' Hi) as (w & Hw & [_ H2 _] & _).
    rewrite Hm, H2. apply T6. by eapply list_elem_of_lookup_2.
  - intros i w' d Hi Hd. destruct (Hback i w' Hi) as (w & Hw & [_ _ H3] & _). rewrite H3 in Hd.
    pose proof (T7 i w d Hw Hd) as Hin. rewrite <- !firstn_map in *. by rewrite Hk.
  - intros w' d [i Hi]%list_elem_of_lookup Ha Hd. destruct (Hback i w' Hi) as (w & Hw & [_ _ H3] & _).
    rewrite H3 in Hd. destruct (proj1 (proj2 (Hst i w w' Hw Hi)) Ha) as [Hold|Hready].
    + destruct (T8 w d) as (v & Hv & <- & Hs); [by eapply list_elem_of_lookup_2|done..|]. by apply Hacc.
    + unfold ready in Hready. rewrite forallb_forall in Hready. specialize (Hready d ltac:(by apply list_elem_of_In)).
      apply existsb_exists in Hready as (v & Hv%list_elem_of_In & [Hv1 Hv2]%andb_true_iff).
      apply bool_decide_eq_true in Hv1 as <-, Hv2. by apply Hacc.
  - intros w1 w2 [i Hi]%list_elem_of_lookup [k Hk2]%list_elem_of_lookup Ha1 Ha2 Hmem.
    destruct (Hback i w1 Hi) as (v1 & Hv1 & [E1 E2 _] & _), (Hback k w2 Hk2) as (v2 & Hv2 & [E3 E4 _] & _).
    rewrite E1, E3. rewrite E2, E4 in Hmem.
    assert (Hidle : forall x, has_active_work t (tk_member (wk_snapshot x)) = false -> forall y, y ∈ tm_work t ->
      tk_member (wk_snapshot y) = tk_member (wk_snapshot x) -> team_task_active (tk_state (wk_snapshot y)) = true -> False).
    { intros x Hx y Hy Hxy Hact. unfold has_active_work in Hx. apply not_true_iff_false in Hx. apply Hx, existsb_exists.
      exists y. split; [by apply list_elem_of_In|]. rewrite Hact, andb_true_r. apply orb_true_iff. right. by apply bool_decide_eq_true. }
    destruct (decide (i = k)) as [->|Hne]; [rewrite Hv1 in Hv2; by injection Hv2 as <-|].
    destruct (proj2 (proj2 (Hst i v1 w1 Hv1 Hi)) Ha1) as [Hb1|[Hb1 Hrest]].
    + destruct (proj2 (proj2 (Hst k v2 w2 Hv2 Hk2)) Ha2) as [Hb2|[Hb2 Hrest]].
      * apply T9; try done; by eapply list_elem_of_lookup_2.
      * exfalso. eapply (Hidle v2 Hb2 v1); [by eapply list_elem_of_lookup_2|done|].
        assert (w1 = v1) as -> by (rewrite (Hrest i v1 Hv1 Hne) in Hi; by injection Hi). done.
    + exfalso. eapply (Hidle v1 Hb1 v2); [by eapply list_elem_of_lookup_2|done|].
      assert (w2 = v2) as -> by (rewrite (Hrest k v2 Hv2 (not_eq_sym Hne)) in Hk2; by injection Hk2). done.
  - by rewrite Hmsg.
  - intros x. unfold pending_for. rewrite Hmsg. apply T11.
Qed.

(** Pointers to boards are unique, so an update through one is an update of that board. *)
Lemma upd_team_elem im r f t' :
  t' ∈ im_teams (upd_team im r f) <->
  exists t, t ∈ im_teams im /\ t' = if decide (tm_ref t = r) then f t else t.
Proof. simpl. rewrite list_elem_of_fmap. naive_solver. Qed.
Lemma upd_job_elem im r f j' :
  j' ∈ im_jobs (upd_job im r f) <->
  exists j, j ∈ im_jobs im /\ j' = if decide (jb_ref j = r) then f j else j.
Proof. simpl. rewrite list_elem_of_fmap. naive_solver. Qed.
Lemma upd_team_ext im r f g :
  (forall t, t ∈ im_teams im -> tm_ref t = r -> f t = g t) -> upd_team im r f = upd_team im r g.
Proof.
  intros H. unfold upd_team. f_equal. apply map_ext_in. intros t Ht%list_elem_of_In.
  destruct (decide _); [by apply H|done].
Qed.
Lemma put_team_upd o im t f :
  Inv o im -> t ∈ im_teams im -> tm_ref (f t) = tm_ref t -> upd_team im (tm_ref t) f = put_team im (f t).
Proof.
  intros Hi Ht Hf. unfold put_team. rewrite Hf. apply upd_team_ext. intros t' Ht' He. f_equal. by eapply (key_unique tm_ref); [apply Hi|..].
Qed.
Lemma upd_team_none im r f : team_at im r = None -> im_teams (upd_team im r f) = im_teams im.
Proof.
  intros Hn. cbn. rewrite <- (map_id (im_teams im)) at 2. apply map_ext_in. intros t Ht%list_elem_of_In.
  rewrite decide_False; [done|]. by apply (find_none (P := fun t => tm_ref t = r) _ Hn).
Qed.
Lemma team_at_in im r t : team_at im r = Some t -> t ∈ im_teams im /\ tm_ref t = r.
Proof. apply (find_some (P := fun t => tm_ref t = r)). Qed.
Lemma job_at_in im r j : job_at im r = Some j -> j ∈ im_jobs im /\ jb_ref j = r.
Proof. apply (find_some (P := fun j => jb_ref j = r)). Qed.
Lemma team_at_ref o im t : Inv o im -> t ∈ im_teams im -> team_at im (tm_ref t) = Some t.
Proof. intros Hi Ht. unfold team_at. apply (find_key tm_ref); [apply Hi|done|done]. Qed.
Lemma job_at_ref o im j : Inv o im -> j ∈ im_jobs im -> job_at im (jb_ref j) = Some j.
Proof. intros Hi Hj. unfold job_at. apply (find_key jb_ref); [apply Hi|done|done]. Qed.

Lemma map_refs {K} (key : Team Sess -> K) im r f :
  (forall t, key (f t) = key t) -> map key (im_teams (upd_team im r f)) = map key (im_teams im).
Proof. intros H. cbn. rewrite map_map. apply map_ext. intros t. destruct (decide _); [apply H|done]. Qed.
Lemma map_job_keys {K} (key : Job Sess -> K) im r f :
  (forall j, j ∈ im_jobs im -> jb_ref j = r -> key (f j) = key j) ->
  map key (im_jobs (upd_job im r f)) = map key (im_jobs im).
Proof.
  intros H. cbn. rewrite map_map. apply map_ext_in. intros j Hj%list_elem_of_In.
  destruct (decide _); [by apply H|done].
Qed.

(** A board changes while the jobs stand still. *)
Lemma inv_board o im r f :
  Inv o im ->
  (forall t, tm_ref (f t) = tm_ref t /\ tm_owner (f t) = tm_owner t /\ tm_id (f t) = tm_id t) ->
  length (im_jobs im) + waiting (upd_team im r f) <= max_records o ->
  (forall t, t ∈ im_teams im -> tm_ref t = r -> team_ok (f t) /\
     (forall w, w ∈ tm_work t -> team_task_active (tk_state (wk_snapshot w)) = true ->
        exists w', w' ∈ tm_work (f t) /\ same_entry w w' /\ tk_run (wk_snapshot w') = tk_run (wk_snapshot w) /\
          tk_attempt (wk_snapshot w') = tk_attempt (wk_snapshot w) /\ tk_state (wk_snapshot w') = tk_state (wk_snapshot w)) /\
     (forall w', w' ∈ tm_work (f t) -> team_task_active (tk_state (wk_snapshot w')) = true ->
        exists w, w ∈ tm_work t /\ same_entry w w' /\ tk_run (wk_snapshot w') = tk_run (wk_snapshot w) /\
          tk_attempt (wk_snapshot w') = tk_attempt (wk_snapshot w) /\ tk_state (wk_snapshot w') = tk_state (wk_snapshot w))) ->
  Inv o (upd_team im r f).
Proof.
  intros Hi Hf Hw Ht. destruct Hi as [I1 I2 I3 I4 I5 I6 I7 I8 I9 I10 I11 I12 I13 I14 I15 I16].
  assert (Hserve : forall j t w w', serves j t w -> same_entry w w' -> tk_run (wk_snapshot w') = tk_run (wk_snapshot w) ->
    tk_attempt (wk_snapshot w') = tk_attempt (wk_snapshot w) -> tk_state (wk_snapshot w') = tk_state (wk_snapshot w) ->
    serves j (f t) w').
  { intros j t w w' [S1 S2 S3 S4 S5] [E1 E2 E3] Hr Ha Hs. destruct (Hf t) as (F1 & F2 & F3).
    split; [congruence..| |congruence]. apply of_job_spec in S4. apply of_job_spec. rewrite E1, Hr, Ha. done. }
  split; try done.
  - rewrite map_refs; [done|]. intros t. apply Hf.
  - intros t' (t & Hin & ->)%upd_team_elem. specialize (I6 t Hin). destruct (decide _); [|done]. by rewrite (proj1 (Hf t)).
  - rewrite map_refs; [done|]. intros t. apply Hf.
  - cbn. by rewrite length_map.
  - intros t' (t & Hin & ->)%upd_team_elem. destruct (decide _); [by apply Ht|by apply I10].
  - intros j k Hj Hk. destruct (I15 j k Hj Hk) as (t & w & Hin & Hwin & Hr & Hs).
    destruct (decide (tm_ref t = r)) as [Hd|Hd].
    + destruct (proj1 (proj2 (Ht t Hin Hd)) w Hwin) as (w' & H1 & H2 & H3 & H4 & H5).
      { rewrite (sv_state _ _ _ Hs), active_board. destruct (task_terminal (job_state j)) eqn:E; [|done].
        by rewrite (jo_over o j (I9 j Hj) E) in Hk. }
      exists (f t), w'. split; [apply upd_team_elem; exists t; by rewrite decide_True|].
      split; [done|]. split; [by rewrite (proj1 (Hf t))|by eapply Hserve].
    + exists t, w. split; [apply upd_team_elem; exists t; by rewrite decide_False|done].
  - intros t' w' (t & Hin & ->)%upd_team_elem Hw' Ha. destruct (decide (tm_ref t = r)) as [Hd|Hd].
    + destruct (proj2 (proj2 (Ht t Hin Hd)) w' Hw' Ha) as (w & H1 & H2 & H3 & H4 & H5).
      destruct (I16 t w Hin H1) as (j & Hj & Hs); [by rewrite <- H5|]. exists j. split; [done|by eapply Hserve].
    + by apply (I16 t w').
Qed.

Lemma led_frame acc w w' :
  led acc w w' -> 1 <= tk_attempt (wk_snapshot w) <= 3 ->
  1 <= tk_attempt (wk_snapshot w') <= 3 /\
  (tk_state (wk_snapshot w) = tt_accepted -> tk_state (wk_snapshot w') = tt_accepted) /\
  (admitted (tk_state (wk_snapshot w')) = true -> admitted (tk_state (wk_snapshot w)) = true) /\
  (team_task_active (tk_state (wk_snapshot w)) = true \/ team_task_active (tk_state (wk_snapshot w')) = true ->
     tk_run (wk_snapshot w') = tk_run (wk_snapshot w) /\
     tk_attempt (wk_snapshot w') = tk_attempt (wk_snapshot w) /\ tk_state (wk_snapshot w') = tk_state (wk_snapshot w)).
Proof.
  intros [_ [Ha Hs Hr|Hx Hn Ha Hs|Hx Ha Hs|Hx Hlt Ha Hs|_ Hx Ha Hs]] Hb; rewrite Hs, ?Ha.
  - by rewrite Hr.
  - split; [done|]. split; [done|]. split; [done|]. intros [?|?]; [congruence|discriminate].
  - rewrite Hx. split; [done|]. split; [done|]. split; [done|]. intros [?|?]; discriminate.
  - split; [lia|]. destruct Hx as [Hx|Hx]; rewrite Hx; (split; [done|]; split; [done|]; intros [?|?]; discriminate).
  - rewrite Hx. split; [done|]. split; [done|]. split; [done|]. intros [?|?]; discriminate.
Qed.

Lemma inv_work o acc im r F :
  Inv o im ->
  (forall t, t ∈ im_teams im -> tm_ref t = r -> Forall2 (led acc) (tm_work t) (F t)) ->
  length (im_jobs im) + waiting (upd_team im r (fun t => set_work t (F t))) <= max_records o \/
    waiting (upd_team im r (fun t => set_work t (F t))) <= waiting im ->
  Inv o (upd_team im r (fun t => set_work t (F t))).
Proof.
  intros Hi HF Hw. apply inv_board; [done|done| |].
  { pose proof (iv_records _ _ Hi). destruct Hw; lia. }
  intros t Ht Hr. specialize (HF t Ht Hr). pose proof (iv_teams _ _ Hi t Ht) as Hok.
  assert (Hatt : forall w, w ∈ tm_work t -> 1 <= tk_attempt (wk_snapshot w) <= 3) by apply Hok.
  split; [|split].
  - apply (team_ok_entries t); [done..| |].
    + cbn. revert Hatt. clear -HF. induction HF as [|w w' ws ws' Hl _ IH]; intros Hatt; constructor.
      * split; [apply Hl|]. eapply led_frame; [exact Hl|]. apply Hatt. left.
      * apply IH. intros x Hx. apply Hatt. by right.
    + intros i w w' Hwi Hwi'. destruct (Forall2_lookup_l _ _ _ _ _ HF Hwi) as (w'' & Hw'' & Hl).
      cbn in Hwi'. rewrite Hw'' in Hwi'. injection Hwi' as ->.
      destruct (led_frame acc w w' Hl) as (_ & H1 & H2 & H3); [apply Hatt; by eapply list_elem_of_lookup_2|].
      split; [done|]. split; [by left; auto|]. intros Ha. left. destruct (H3 (or_intror Ha)) as (_ & _ & <-). done.
  - intros w [i Hwi]%list_elem_of_lookup Ha. destruct (Forall2_lookup_l _ _ _ _ _ HF Hwi) as (w' & Hw' & Hl).
    exists w'. split; [by eapply list_elem_of_lookup_2|]. split; [apply Hl|].
    eapply led_frame; [exact Hl|apply Hatt; by eapply list_elem_of_lookup_2|by left].
  - intros w' [i Hwi]%list_elem_of_lookup Ha. destruct (Forall2_lookup_r _ _ _ _ _ HF Hwi) as (w & Hw' & Hl).
    exists w. split; [by eapply list_elem_of_lookup_2|]. split; [apply Hl|].
    eapply led_frame; [exact Hl|apply Hatt; by eapply list_elem_of_lookup_2|by right].
Qed.

(** A board changes and its entries stand still. *)
Lemma inv_entries o im t f :
  Inv o im -> t ∈ im_teams im -> tm_ref (f t) = tm_ref t -> tm_owner (f t) = tm_owner t -> tm_id (f t) = tm_id t ->
  tm_work (f t) = tm_work t -> team_ok (f t) -> Inv o (upd_team im (tm_ref t) f).
Proof.
  intros Hi Ht F1 F2 F3 F4 Hok.
  set (g := fun x : Team Sess => mkTeam (tm_ref x) (tm_owner x) (tm_id x) (tm_goal (f t)) (tm_stopped (f t)) (tm_members (f t))
    (tm_work x) (tm_messages (f t))).
  assert (Hg : upd_team im (tm_ref t) f = upd_team im (tm_ref t) g).
  { apply upd_team_ext. intros x Hx He. assert (x = t) as -> by (eapply (key_unique tm_ref); [apply Hi|done..]).
    unfold g. rewrite <- F1, <- F2, <- F3, <- F4. by destruct (f t). }
  rewrite Hg. apply inv_board; [done|done| |].
  - assert (Hw : waiting (upd_team im (tm_ref t) g) = waiting im); [|rewrite Hw; apply Hi].
    unfold waiting, upd_team. cbn. f_equal. rewrite map_map. apply map_ext. intros x. by destruct (decide _).
  - intros x Hx He. assert (x = t) as -> by (eapply (key_unique tm_ref); [apply Hi|done..]).
    assert (Hgt : g t = f t) by (unfold g; rewrite <- F1, <- F2, <- F3, <- F4; by destruct (f t)).
    rewrite Hgt, F4. split; [done|]. split; intros w Hw _; exists w; by repeat split.
Qed.

Lemma sum_list_cons a l : sum_list (a :: l) = a + sum_list l. Proof. done. Qed.
Lemma waiting_grow im t (f : Team Sess -> Team Sess) :
  NoDup (map tm_ref (im_teams im)) -> t ∈ im_teams im -> waiting_work (f t) <= S (waiting_work t) ->
  waiting (upd_team im (tm_ref t) f) <= S (waiting im).
Proof.
  unfold waiting, upd_team. cbn [im_teams set_teams]. generalize (im_teams im) as l. intros l Hn Ht Hf.
  induction l as [|x l IH]; [by apply not_elem_of_nil in Ht|].
  cbn [map] in *. apply NoDup_cons in Hn as [Hx Hn]. rewrite !sum_list_cons.
  apply elem_of_cons in Ht as [<-|Ht].
  - rewrite decide_True by done.
    assert (E : map waiting_work (map (fun x => if decide (tm_ref x = tm_ref t) then f x else x) l) = map waiting_work l).
    { rewrite map_map. apply map_ext_in. intros y Hy%list_elem_of_In. rewrite decide_False; [done|].
      intros He'. apply Hx. rewrite <- He'. by apply list_elem_of_fmap_2. }
    rewrite E. lia.
  - rewrite decide_False; [specialize (IH Hn Ht); lia|]. intros He. apply Hx. rewrite He. by apply list_elem_of_fmap_2.
Qed.
Lemma waiting_append t w : waiting_work (set_work t (tm_work t ++ [w])) <= S (waiting_work t).
Proof.
  unfold waiting_work. cbn [tm_work set_work]. rewrite filter_app, length_app, filter_cons, filter_nil.
  destruct (decide _); simpl; lia.
Qed.
Lemma waiting_first t (p : Work -> bool) (f : Work -> Work) :
  waiting_work (set_work t (update_first p f (tm_work t))) <= S (waiting_work t).
Proof.
  unfold waiting_work. cbn [tm_work set_work]. unfold update_first.
  destruct (list_find _ (tm_work t)) as [[i w]|]; [|lia]. revert i. generalize (tm_work t) as ws.
  induction ws as [|v ws IH]; intros [|i]; cbn [insert list_insert]; [simpl; lia..| |]; rewrite !filter_cons.
  - do 2 destruct (decide _); simpl; lia.
  - specialize (IH i). destruct (decide _); [apply le_n_S|]; exact IH.
Qed.

Lemma inv_submit o im t w :
  Inv o im -> t ∈ im_teams im -> length (tm_work t) < 32 -> work_key w ∉ map work_key (tm_work t) ->
  tk_member (wk_snapshot w) ∈ map member_name (tm_members t) -> tk_attempt (wk_snapshot w) = 1 ->
  tk_state (wk_snapshot w) = tt_waiting ->
  (forall d, d ∈ tk_depends (wk_snapshot w) -> d ∈ map work_key (tm_work t)) ->
  length (im_jobs im) + waiting im < max_records o ->
  Inv o (upd_team im (tm_ref t) (fun t => set_work t (tm_work t ++ [w]))).
Proof.
  intros Hi Ht Hl Hk Hm Ha Hs Hd Hr. apply inv_board; [done|done| |].
  { pose proof (waiting_grow im t (fun t => set_work t (tm_work t ++ [w])) (iv_trefs _ _ Hi) Ht (waiting_append t w)). lia. }
  intros x Hx He. assert (x = t) as -> by (eapply (key_unique tm_ref); [apply Hi|done..]).
  destruct (iv_teams _ _ Hi t Ht) as [T1 T2 T3 T4 T5 T6 T7 T8 T9 T10 T11].
  assert (Hin : forall v, v ∈ tm_work t ++ [w] -> v ∈ tm_work t \/ v = w).
  { intros v. rewrite elem_of_app, list_elem_of_singleton. done. }
  assert (Hold : forall v, v ∈ tm_work t -> v ∈ tm_work t ++ [w]) by (intros v; rewrite elem_of_app; tauto).
  split; [split; cbn|split].
  - done. - done. - rewrite length_app. simpl. lia.
  - rewrite map_app. cbn. apply NoDup_app. split; [done|]. split; [|apply NoDup_singleton].
    intros k Hk1 ->%list_elem_of_singleton. done.
  - intros v [?| ->]%Hin; [by apply T5|]. lia.
  - intros v [?| ->]%Hin; [by apply T6|done].
  - intros i v d [Hv|(Hge & Hv)]%lookup_app_Some Hdv.
    + rewrite take_app_le by (apply lookup_lt_Some in Hv; lia). by eapply T7.
    + apply list_lookup_singleton_Some in Hv as [Hv <-]. rewrite take_app_ge by lia. rewrite map_app.
      apply elem_of_app. left. by apply Hd.
  - intros v d [Hv| ->]%Hin Hadm Hdv; [|by rewrite Hs in Hadm].
    destruct (T8 v d Hv Hadm Hdv) as (v' & Hv' & ? & ?). exists v'. auto.
  - intros v v' [Hv| ->]%Hin [Hv'| ->]%Hin Hav Hav'; try (rewrite Hs in Hav'; discriminate); try (rewrite Hs in Hav; discriminate).
    by apply T9.
  - done.
  - apply T11.
  - intros v Hv _. exists v. repeat split; auto.
  - cbn. intros v [Hv| ->]%Hin Hav; [|by rewrite Hs in Hav]. exists v. by repeat split.
Qed.

Lemma inv_team_field o im t t' :
  Inv o im -> t ∈ im_teams im -> tm_ref t' = tm_ref t -> tm_owner t' = tm_owner t -> tm_id t' = tm_id t ->
  tm_work t' = tm_work t -> team_ok t' -> Inv o (put_team im t').
Proof. intros Hi Ht F1 F2 F3 F4 Hok. unfold put_team. rewrite F1. by apply inv_entries. Qed.

Lemma team_ok_members t ms :
  team_ok t -> (forall n, n ∈ map member_name (tm_members t) -> n ∈ map member_name ms) ->
  length ms <= 4 -> NoDup (map member_name ms) -> team_ok (set_members t ms).
Proof.
  intros [T1 T2 T3 T4 T5 T6 T7 T8 T9 T10 T11] Hm Hl Hn. split; try done.
  intros w Hw. cbn. by apply Hm, T6.
Qed.
Lemma team_ok_messages t ms :
  team_ok t -> length ms <= 64 -> (forall r, pending_for (set_messages t ms) r <= 16) -> team_ok (set_messages t ms).
Proof. by intros [T1 T2 T3 T4 T5 T6 T7 T8 T9 T10 T11] Hm Hp; split. Qed.
Lemma team_ok_stopped t : team_ok t -> team_ok (set_stopped t).
Proof. by intros [T1 T2 T3 T4 T5 T6 T7 T8 T9 T10 T11]; split. Qed.

(** ** Jobs under an update *)
Lemma serves_same j j' t w :
  serves j t w -> same_job j j' -> jb_team j' = jb_team j -> job_state j' = job_state j -> serves j' t w.
Proof.
  intros [S1 S2 S3 S4 S5] [K1 K2 K3 K4 K5 K6 K7] Ht Hs. split; try congruence.
  apply of_job_spec in S4 as (S4 & S6 & S7). apply of_job_spec. unfold job_id in K4. repeat split; congruence.
Qed.
Lemma count_jobs (p : TaskState -> bool) (f : Job Sess -> Job Sess) (l : list (Job Sess)) :
  (forall j, j ∈ l -> job_state (f j) = job_state j) ->
  length (filter (fun j => p (job_state j) = true) (map f l)) = length (filter (fun j => p (job_state j) = true) l).
Proof. intros H. apply count_map. intros j Hj. by rewrite (H j Hj). Qed.

Lemma inv_quiet o im im' :
  Inv o im -> im_options im' = im_options im -> im_jobs im' = im_jobs im -> im_teams im' = im_teams im ->
  im_active im' = im_active im -> im_refs im <= im_refs im' -> Inv o im'.
Proof.
  intros [I1 I2 I3 I4 I5 I6 I7 I8 I9 I10 I11 I12 I13 I14 I15 I16] E1 E2 E3 E4 E5.
  split; unfold waiting, unfinished, count_busy in *; rewrite ?E1, ?E2, ?E3, ?E4; try done.
  - intros j Hj. specialize (I3 j Hj). lia.
  - intros t Ht. specialize (I6 t Ht). lia.
Qed.

Lemma inv_keep o im r f :
  Inv o im ->
  (forall j, jb_ref j = r -> j ∈ im_jobs im -> job_ok o j ->
     same_job j (f j) /\ job_state (f j) = job_state j /\ jb_team (f j) = jb_team j /\ job_ok o (f j)) ->
  Inv o (upd_job im r f).
Proof.
  intros [I1 I2 I3 I4 I5 I6 I7 I8 I9 I10 I11 I12 I13 I14 I15 I16] Hf.
  assert (Hk : forall j, j ∈ im_jobs im -> let j' := if decide (jb_ref j = r) then f j else j in
    same_job j j' /\ job_state j' = job_state j /\ jb_team j' = jb_team j /\ job_ok o j').
  { intros j Hj. cbn. destruct (decide _); [by apply Hf; auto|]. split; [by split|]. auto. }
  assert (Hc : forall p, length (filter (fun j => p (job_state j) = true) (im_jobs (upd_job im r f))) =
    length (filter (fun j => p (job_state j) = true) (im_jobs im))).
  { intros p. apply (count_jobs p). intros j Hj. apply Hk, Hj. }
  split; try done.
  - rewrite map_job_keys; [done|]. intros j Hj Hr. apply (Hf j); auto.
  - intros j' (j & Hj & ->)%upd_job_elem. specialize (I3 j Hj). rewrite (sj_ref _ _ (proj1 (Hk j Hj))). done.
  - rewrite map_job_keys; [done|]. intros j Hj Hr. apply (Hf j); auto.
  - intros j' (j & Hj & ->)%upd_job_elem. apply (Hk j Hj).
  - cbn. rewrite length_map. apply I11.
  - unfold unfinished in *. cbn [upd_job set_jobs im_jobs]. rewrite count_map; [done|].
    intros j Hj. by rewrite (proj1 (proj2 (Hk j Hj))).
  - unfold count_busy. rewrite Hc. apply I13.
  - intros j' k (j & Hj & ->)%upd_job_elem Ht. destruct (Hk j Hj) as (H1 & H2 & H3 & _). rewrite H3 in Ht.
    destruct (I15 j k Hj Ht) as (t & w & ? & ? & ? & Hs). exists t, w. split; [done|]. split; [done|]. split; [done|].
    by eapply serves_same.
  - intros t w Ht Hw Ha. destruct (I16 t w Ht Hw Ha) as (j & Hj & Hs). destruct (Hk j Hj) as (H1 & H2 & H3 & _).
    eexists. split; [apply upd_job_elem; exists j; by split|]. by eapply serves_same.
Qed.

Lemma nodup_map_filter {K} (key : Job Sess -> K) P `{forall j, Decision (P j)} l :
  NoDup (map key l) -> NoDup (map key (filter P l)).
Proof.
  induction l as [|j l IH]; [done|]. cbn [map]. intros [Hj Hn]%NoDup_cons. rewrite filter_cons.
  destruct (decide (P j)); [|by apply IH]. cbn [map]. apply NoDup_cons. split; [|by apply IH].
  intros (x & Hx & [_ Hin]%list_elem_of_filter)%list_elem_of_fmap. apply Hj. rewrite Hx. by apply list_elem_of_fmap_2.
Qed.
Lemma count_filter_le (P Q : Job Sess -> Prop) `{forall j, Decision (P j)} `{forall j, Decision (Q j)} l :
  length (filter Q (filter P l)) <= length (filter Q l).
Proof.
  induction l as [|j l IH]; [done|]. rewrite !filter_cons. destruct (decide (P j)), (decide (Q j)); try rewrite filter_cons;
    rewrite ?decide_True by done; rewrite ?decide_False by done; simpl; lia.
Qed.
Lemma count_filter_eq (P Q : Job Sess -> Prop) `{forall j, Decision (P j)} `{forall j, Decision (Q j)} l :
  (forall j, j ∈ l -> ~ P j -> ~ Q j) -> length (filter Q (filter P l)) = length (filter Q l).
Proof.
  induction l as [|j l IH]; intros Hq; [done|].
  assert (IH' : length (filter Q (filter P l)) = length (filter Q l)) by (apply IH; intros x Hx; apply Hq; by right).
  rewrite !filter_cons. destruct (decide (P j)) as [|Hp].
  - rewrite filter_cons. destruct (decide (Q j)); simpl; lia.
  - rewrite (decide_False (P := Q j)); [done|]. apply Hq; [left|done].
Qed.

Lemma inv_drop o im im' (P : Job Sess -> Prop) `{forall j, Decision (P j)} :
  Inv o im -> im_options im' = im_options im -> im_jobs im' = filter P (im_jobs im) -> im_teams im' = im_teams im ->
  im_active im' = im_active im -> im_refs im' = im_refs im ->
  (forall j, j ∈ im_jobs im -> ~ P j -> task_terminal (job_state j) = true) -> Inv o im'.
Proof.
  intros [I1 I2 I3 I4 I5 I6 I7 I8 I9 I10 I11 I12 I13 I14 I15 I16] E1 E2 E3 E4 E5 Hp.
  assert (Hsub : forall j, j ∈ filter P (im_jobs im) -> j ∈ im_jobs im) by (intros j; rewrite list_elem_of_filter; tauto).
  split; unfold waiting, unfinished, count_busy in *; rewrite ?E1, ?E2, ?E3, ?E4, ?E5; try done.
  - by apply nodup_map_filter.
  - intros j Hj. apply I3, Hsub, Hj.
  - by apply nodup_map_filter.
  - intros j Hj. apply I9, Hsub, Hj.
  - pose proof (length_filter P (im_jobs im)). lia.
  - etransitivity; [apply count_filter_le|done].
  - rewrite count_filter_eq; [done|]. intros j Hj Hn Hb. specialize (Hp j Hj Hn). by destruct (job_state j).
  - intros j r Hj Hr. apply I15; auto.
  - intros t w Ht Hw Ha. destruct (I16 t w Ht Hw Ha) as (j & Hj & Hs). exists j. split; [|done].
    apply list_elem_of_filter. split; [|done]. destruct (decide (P j)); [done|].
    specialize (Hp j Hj n). rewrite (sv_state _ _ _ Hs), active_board, Hp in Ha. done.
Qed.

Lemma inv_admit o im im' j :
  Inv o im -> im_options im' = im_options im -> im_jobs im' = im_jobs im ++ [j] -> im_teams im' = im_teams im ->
  im_active im' = im_active im -> jb_ref j = im_refs im -> im_refs im < im_refs im' ->
  job_id j ∉ map job_id (im_jobs im) -> job_state j = ts_queued -> jb_team j = None -> job_ok o j ->
  length (im_jobs im) + waiting im < max_records o -> unfinished im < max_running o + max_queued o -> Inv o im'.
Proof.
  intros [I1 I2 I3 I4 I5 I6 I7 I8 I9 I10 I11 I12 I13 I14 I15 I16] E1 E2 E3 E4 E5 E6 Hid Hs Ht Hok Hr Hu.
  assert (Hin : forall x, x ∈ im_jobs im ++ [j] -> x ∈ im_jobs im \/ x = j).
  { intros x. rewrite elem_of_app, list_elem_of_singleton. done. }
  split; unfold waiting, unfinished, count_busy in *; rewrite ?E1, ?E2, ?E3, ?E4; try done.
  - rewrite map_app. apply NoDup_app. split; [done|]. split; [|apply NoDup_singleton].
    intros k (x & -> & Hx)%list_elem_of_fmap Hk%list_elem_of_singleton. specialize (I3 x Hx). lia.
  - intros x [Hx| ->]%Hin; [specialize (I3 x Hx); lia|lia].
  - rewrite map_app. apply NoDup_app. split; [done|]. split; [|apply NoDup_singleton].
    by intros k Hk ->%list_elem_of_singleton.
  - intros t Hx. specialize (I6 t Hx). lia.
  - intros x [Hx| ->]%Hin; auto.
  - rewrite length_app. simpl. lia.
  - rewrite filter_app, length_app, filter_cons, filter_nil. destruct (decide _); simpl; lia.
  - rewrite filter_app, length_app, filter_cons, filter_nil, Hs. simpl. lia.
  - intros x r [Hx| ->]%Hin Hr'; [by apply I15|congruence].
  - intros t w Hin1 Hw Ha. destruct (I16 t w Hin1 Hw Ha) as (x & Hx & ?). exists x. split; [apply elem_of_app; by left|done].
Qed.

Lemma move_elem o im r f j x :
  Inv o im -> job_at im r = Some j -> x ∈ im_jobs (upd_job im r f) <-> x = f j \/ (x ∈ im_jobs im /\ jb_ref x <> r).
Proof.
  intros Hi [Hj Hr]%job_at_in. rewrite upd_job_elem. split.
  - intros (y & Hy & ->). destruct (decide (jb_ref y = r)) as [He|He]; [left|by right].
    f_equal. by apply (key_unique jb_ref (im_jobs im)); [apply Hi|..|congruence].
  - intros [->|[Hx Hn]]; [exists j; by rewrite decide_True|exists x; by rewrite decide_False].
Qed.
Lemma count_move (P : Job Sess -> Prop) `{forall j, Decision (P j)} (l : list (Job Sess)) r f j :
  NoDup (map jb_ref l) -> j ∈ l -> jb_ref j = r ->
  length (filter P (map (fun j => if decide (jb_ref j = r) then f j else j) l)) + (if decide (P j) then 1 else 0) =
  length (filter P l) + (if decide (P (f j)) then 1 else 0).
Proof.
  intros Hn Hj Hr. induction l as [|x l IH]; [by apply not_elem_of_nil in Hj|].
  cbn [map] in *. apply NoDup_cons in Hn as [Hx Hn]. destruct (decide (jb_ref x = r)) as [He|He].
  - assert (x = j) as ->.
    { apply elem_of_cons in Hj as [->|Hj]; [done|]. destruct Hx. rewrite He, <- Hr. by apply list_elem_of_fmap_2. }
    assert (E : map (fun x => if decide (jb_ref x = r) then f x else x) l = l).
    { rewrite <- (map_id l) at 2. apply map_ext_in. intros y Hy%list_elem_of_In. rewrite decide_False; [done|].
      intros Hy'. apply Hx. rewrite Hr, <- Hy'. by apply list_elem_of_fmap_2. }
    rewrite E, !filter_cons. destruct (decide (P (f j))), (decide (P j)); simpl; lia.
  - apply elem_of_cons in Hj as [->|Hj]; [done|]. specialize (IH Hn Hj). rewrite !filter_cons.
    destruct (decide (P x)); simpl; lia.
Qed.

Lemma publish_jobs team s result im : im_jobs (publish team s result im) = im_jobs im.
Proof. by destruct team. Qed.
Lemma publish_teams team s result im t' :
  t' ∈ im_teams (publish team s result im) <->
  exists t, t ∈ im_teams im /\ t' = if decide (Some (tm_ref t) = team) then update_team_job t s result else t.
Proof.
  destruct team as [r|]; cbn [publish].
  - rewrite upd_team_elem. split; intros (t & Ht & ->); exists t; (split; [done|]);
      destruct (decide (tm_ref t = r)), (decide (Some (tm_ref t) = Some r)); congruence.
  - split; [intros Ht; exists t'; by rewrite decide_False|intros (t & Ht & ->); by rewrite decide_False].
Qed.
Lemma publish_keys {K} (key : Team Sess -> K) team s result im :
  (forall t, key (update_team_job t s result) = key t) ->
  map key (im_teams (publish team s result im)) = map key (im_teams im).
Proof. intros H. destruct team; [by apply map_refs|done]. Qed.

(** The entry a job serves is the only one its reports change. *)
Lemma serves_unique o im j t w t' w' :
  Inv o im -> t ∈ im_teams im -> t' ∈ im_teams im -> w ∈ tm_work t -> w' ∈ tm_work t' ->
  serves j t w -> jb_team j = Some (tm_ref t') -> of_job (jb_snapshot j) w' = true -> t = t' /\ w = w'.
Proof.
  intros Hi Ht Ht' Hw Hw' Hs Hj Ho. assert (t = t') as <-.
  { apply (key_unique tm_ref (im_teams im)); [apply Hi|done..|]. pose proof (sv_team _ _ _ Hs). congruence. }
  split; [done|]. apply (key_unique work_key (tm_work t)); [by apply (iv_teams _ _ Hi)|done..|].
  pose proof (sv_work _ _ _ Hs) as H1. apply of_job_spec in H1 as (-> & _), Ho as (-> & _). done.
Qed.
Lemma job_step_open s s' : job_step s s' -> task_terminal s = false.
Proof. by destruct 1. Qed.

Lemma sum_list_le (f g : Team Sess -> nat) (l : list (Team Sess)) :
  (forall t, t ∈ l -> f t <= g t) -> sum_list (map f l) <= sum_list (map g l).
Proof.
  induction l as [|t l IH]; intros H; [done|]. cbn [map]. rewrite !sum_list_cons.
  specialize (H t) as Ht. assert (sum_list (map f l) <= sum_list (map g l)) by (apply IH; intros x Hx; apply H; by right).
  specialize (Ht ltac:(left)). lia.
Qed.
Lemma waiting_teams_le im (g : Team Sess -> Team Sess) (ts : list (Team Sess)) :
  ts = map g (im_teams im) -> (forall t, t ∈ im_teams im -> waiting_work (g t) <= waiting_work t) ->
  sum_list (map waiting_work ts) <= waiting im.
Proof. intros -> H. unfold waiting. rewrite map_map. by apply sum_list_le. Qed.
Lemma waiting_update t s result :
  NoDup (map work_key (tm_work t)) -> waiting_work (update_team_job t s result) <= waiting_work t.
Proof.
  intros Hn. unfold waiting_work. rewrite update_team_job_work by done. clear Hn.
  induction (tm_work t) as [|w ws IH]; [done|]. cbn [map]. rewrite !filter_cons.
  assert (H : tk_state (wk_snapshot (if of_job s w then follow s result w else w)) = tt_waiting ->
    tk_state (wk_snapshot w) = tt_waiting).
  { destruct (of_job s w); [|done]. rewrite (proj2 (proj2 (proj2 (follow_entry s result w)))). by destruct (sn_state s). }
  do 2 destruct (decide _); simpl; [lia|tauto|lia|lia].
Qed.

Section Move.
Context (o : BackgroundTaskOptions) (im im' : Impl Sess) (r : nat) (f : Job Sess -> Job Sess) (j : Job Sess) (result : string).
Hypothesis Hi : Inv o im.
Hypothesis Hat : job_at im r = Some j.
Hypothesis Hopt : im_options im' = im_options im.
Hypothesis Hjobs : im_jobs im' = im_jobs (upd_job im r f).
Hypothesis Hteams : im_teams im' = im_teams (publish (jb_team j) (jb_snapshot (f j)) result im).
Hypothesis Hsame : same_job j (f j).
Hypothesis Hstep : job_step (job_state j) (job_state (f j)).
Hypothesis Hteam : jb_team (f j) = moved_team (f j) (jb_team j).

Let Hj : j ∈ im_jobs im := proj1 (job_at_in im r j Hat).
Let Hr : jb_ref j = r := proj2 (job_at_in im r j Hat).

Lemma moved_of_job w : of_job (jb_snapshot (f j)) w = of_job (jb_snapshot j) w.
Proof.
  destruct Hsame as [_ _ _ K4 K5 K6 K7]. unfold job_id in K4. unfold of_job. by rewrite K4, K6, K7.
Qed.
(** The entry of the moved job, and every other entry. *)
Lemma moved_entry t w :
  t ∈ im_teams im -> w ∈ tm_work t -> jb_team j = Some (tm_ref t) -> of_job (jb_snapshot j) w = true ->
  serves j t w.
Proof.
  intros Ht Hw Hjt Ho. destruct (iv_up _ _ Hi j (tm_ref t) Hj Hjt) as (t1 & w1 & H1 & H2 & H3 & Hs).
  destruct (serves_unique o im j t1 w1 t w) as [-> ->]; done.
Qed.
Lemma moved_other x t w :
  x ∈ im_jobs im -> jb_ref x <> r -> serves x t w -> jb_team j = Some (tm_ref t) -> of_job (jb_snapshot j) w = false.
Proof.
  intros Hx Hn Hs _. destruct (of_job (jb_snapshot j) w) eqn:E; [|done]. destruct Hn. rewrite <- Hr. f_equal.
  apply (key_unique job_id (im_jobs im)); [apply Hi|done..|]. pose proof (sv_work _ _ _ Hs) as Hw.
  apply of_job_spec in Hw as (_ & Hw & _), E as (_ & E & _). unfold job_id. congruence.
Qed.

Lemma move_team_ok t :
  t ∈ im_teams im -> jb_team j = Some (tm_ref t) -> team_ok (update_team_job t (jb_snapshot (f j)) result).
Proof.
  intros Ht Hjt. pose proof (iv_teams _ _ Hi t Ht) as Hok.
  destruct (update_team_job_frame t (jb_snapshot (f j)) result) as (_ & _ & _ & Hmsg & _ & Hm).
  assert (Hfe : forall w, w ∈ tm_work t -> let w' := if of_job (jb_snapshot (f j)) w then follow (jb_snapshot (f j)) result w else w in
    same_entry w w' /\ tk_attempt (wk_snapshot w') = tk_attempt (wk_snapshot w) /\
    (tk_state (wk_snapshot w') = tk_state (wk_snapshot w) \/ team_task_active (tk_state (wk_snapshot w)) = true)).
  { intros w Hw. cbn. rewrite moved_of_job. destruct (of_job (jb_snapshot j) w) eqn:E; [|repeat split; by left].
    destruct (follow_entry (jb_snapshot (f j)) result w) as (H1 & H2 & H3 & H4). split; [done|]. split; [done|]. right.
    by rewrite (sv_state _ _ _ (moved_entry t w Ht Hw Hjt E)), active_board, (job_step_open _ _ Hstep). }
  apply (team_ok_entries t); [done..| |]; rewrite update_team_job_work by apply Hok.
  - apply Forall2_fmap_r, Forall_Forall2_diag, Forall_forall. intros w Hw. destruct (Hfe w Hw) as (H1 & H2 & _).
    split; [done|]. rewrite H2. by apply Hok.
  - intros i w w' Hwi Hwi'. rewrite (list_lookup_fmap (fun w => if of_job (jb_snapshot (f j)) w then follow (jb_snapshot (f j)) result w else w)), Hwi in Hwi'.
    injection Hwi' as <-. destruct (Hfe w) as (_ & _ & H3); [by eapply list_elem_of_lookup_2|]. cbn in H3.
    destruct H3 as [H3|H3].
    + rewrite H3. split; [done|]. split; auto.
    + split; [by intros E; rewrite E in H3|]. split; intros _; left; [by apply active_admitted|done].
Qed.
Lemma move_up x k :
  x ∈ im_jobs im' -> jb_team x = Some k ->
  exists t w, t ∈ im_teams im' /\ w ∈ tm_work t /\ tm_ref t = k /\ serves x t w.
Proof.
  rewrite Hjobs, Hteams. intros Hx Hk. apply (move_elem o im r f j x Hi Hat) in Hx as [->|[Hx Hn]].
  - rewrite Hteam in Hk. unfold moved_team in Hk. destruct (task_terminal (job_state (f j))) eqn:Eterm; [done|].
    destruct (iv_up _ _ Hi j k Hj Hk) as (t & w & Ht & Hw & Htk & Hs).
    exists (update_team_job t (jb_snapshot (f j)) result), (follow (jb_snapshot (f j)) result w).
    destruct (update_team_job_frame t (jb_snapshot (f j)) result) as (F1 & F2 & F3 & _).
    destruct (follow_entry (jb_snapshot (f j)) result w) as (H1 & H2 & H3 & H4).
    pose proof Hs as [S1 S2 S3 S4 S5]. split_and!.
    + apply publish_teams. exists t. rewrite decide_True; [done|congruence].
    + rewrite update_team_job_work by (by apply (iv_teams _ _ Hi)). apply list_elem_of_fmap. exists w.
      by rewrite moved_of_job, S4.
    + congruence.
    + destruct Hsame as [K1 K2 K3 K4 K5 K6 K7]. split; try congruence.
      * rewrite Hteam. unfold moved_team. rewrite Eterm. congruence.
      * rewrite moved_of_job. apply of_job_spec in S4. apply of_job_spec. by rewrite (se_key _ _ H1), H2, H3.
      * exact H4.
  - destruct (iv_up _ _ Hi x k Hx Hk) as (t & w & Ht & Hw & Htk & Hs). pose proof Hs as [S1 S2 S3 S4 S5].
    destruct (decide (Some (tm_ref t) = jb_team j)) as [He|He].
    + exists (update_team_job t (jb_snapshot (f j)) result), w.
      destruct (update_team_job_frame t (jb_snapshot (f j)) result) as (F1 & F2 & F3 & _). split_and!.
      * apply publish_teams. exists t. by rewrite decide_True.
      * rewrite update_team_job_work by (by apply (iv_teams _ _ Hi)). apply list_elem_of_fmap. exists w.
        by rewrite moved_of_job, (moved_other x t w).
      * congruence.
      * split; congruence.
    + exists t, w. split; [|done]. apply publish_teams. exists t. by rewrite decide_False.
Qed.
Lemma move_down t' w' :
  t' ∈ im_teams im' -> w' ∈ tm_work t' -> team_task_active (tk_state (wk_snapshot w')) = true ->
  exists x, x ∈ im_jobs im' /\ serves x t' w'.
Proof.
  rewrite Hjobs, Hteams. intros (t & Ht & ->)%publish_teams Hw' Ha.
  destruct (decide (Some (tm_ref t) = jb_team j)) as [He|He].
  - rewrite update_team_job_work in Hw' by (by apply (iv_teams _ _ Hi)).
    apply list_elem_of_fmap in Hw' as (w & -> & Hw). rewrite moved_of_job in *.
    destruct (update_team_job_frame t (jb_snapshot (f j)) result) as (F1 & F2 & F3 & _).
    destruct (of_job (jb_snapshot j) w) eqn:E.
    + destruct (follow_entry (jb_snapshot (f j)) result w) as (H1 & H2 & H3 & H4).
      pose proof (moved_entry t w Ht Hw (eq_sym He) E) as [S1 S2 S3 S4 S5].
      exists (f j). split; [apply (move_elem o im r f j); auto|]. destruct Hsame as [K1 K2 K3 K4 K5 K6 K7].
      split; try congruence.
      * rewrite Hteam. unfold moved_team. rewrite H4, active_board in Ha. apply negb_true_iff in Ha.
        unfold job_state. rewrite Ha. congruence.
      * rewrite moved_of_job. apply of_job_spec in E. apply of_job_spec. by rewrite (se_key _ _ H1), H2, H3.
      * exact H4.
    + destruct (iv_down _ _ Hi t w Ht Hw Ha) as (x & Hx & Hs). exists x. split.
      * apply (move_elem o im r f j); auto. right. split; [done|]. intros Hxr.
        assert (x = j) as -> by (apply (key_unique jb_ref (im_jobs im)); [apply Hi|done..|congruence]).
        by rewrite (sv_work _ _ _ Hs) in E.
      * destruct Hs as [S1 S2 S3 S4 S5]. split; congruence.
  - destruct (iv_down _ _ Hi t w' Ht Hw' Ha) as (x & Hx & Hs). exists x. split; [|done].
    apply (move_elem o im r f j); auto. right. split; [done|]. intros Hxr.
    assert (x = j) as -> by (apply (key_unique jb_ref (im_jobs im)); [apply Hi|done..|congruence]).
    destruct He. by rewrite (sv_team _ _ _ Hs).
Qed.
End Move.

Lemma inv_move o im im' r f j result :
  Inv o im -> job_at im r = Some j -> im_options im' = im_options im -> im_jobs im' = im_jobs (upd_job im r f) ->
  im_teams im' = im_teams (publish (jb_team j) (jb_snapshot (f j)) result im) -> im_refs im' = im_refs im ->
  im_active im' + (if busy (job_state j) then 1 else 0) = im_active im + (if busy (job_state (f j)) then 1 else 0) ->
  im_active im' <= max_running o -> same_job j (f j) -> job_step (job_state j) (job_state (f j)) ->
  jb_team (f j) = moved_team (f j) (jb_team j) -> (job_ok o j -> job_ok o (f j)) -> Inv o im'.
Proof.
  intros Hi Hat E1 Hjobs Hteams E5 Hact Hle Hsame Hstep Hteam Hok. destruct (job_at_in im r j Hat) as [Hj Hr].
  pose proof (move_elem o im r f j) as Hel.
  assert (Hin : forall x, x ∈ im_jobs im' -> x = f j \/ (x ∈ im_jobs im /\ jb_ref x <> r)).
  { intros x. rewrite Hjobs. intros Hx. by apply Hel. }
  assert (Hwait : waiting im' <= waiting im).
  { unfold waiting at 1. rewrite Hteams. destruct (jb_team j) as [k|]; [|done]. eapply waiting_teams_le; [done|].
    intros t Ht. cbn. destruct (decide _); [|done]. apply waiting_update, (iv_teams _ _ Hi t Ht). }
  assert (Hfr : forall t : Team Sess, let t' := update_team_job t (jb_snapshot (f j)) result in
    tm_ref t' = tm_ref t /\ tm_owner t' = tm_owner t).
  { intros t. by destruct (update_team_job_frame t (jb_snapshot (f j)) result) as (? & ? & _). }
  assert (Hjk : forall x, x ∈ im_jobs im -> jb_ref x = r -> x = j).
  { intros x Hx He. apply (key_unique jb_ref (im_jobs im)); [apply Hi|done..|congruence]. }
  pose proof Hi as [I1 I2 I3 I4 I5 I6 I7 I8 I9 I10 I11 I12 I13 I14 I15 I16]. split; rewrite ?E1; try done.
  - rewrite Hjobs, map_job_keys; [done|]. intros x Hx He. rewrite (Hjk x Hx He). apply Hsame.
  - rewrite E5. intros x [->|[Hx _]]%Hin; [|by apply I3]. rewrite (sj_ref _ _ Hsame). by apply I3.
  - rewrite Hjobs, map_job_keys; [done|]. intros x Hx He. rewrite (Hjk x Hx He). apply Hsame.
  - rewrite Hteams, publish_keys; [done|]. intros t. apply Hfr.
  - rewrite E5, Hteams. intros t' (t & Ht & ->)%publish_teams. destruct (decide _); [|by apply I6].
    rewrite (proj1 (Hfr t)). by apply I6.
  - rewrite Hteams, publish_keys; [done|]. intros t. apply Hfr.
  - rewrite Hteams. destruct (jb_team j); cbn; [by rewrite length_map|done].
  - intros x [->|[Hx _]]%Hin; [by apply Hok, I9|by apply I9].
  - rewrite Hteams. intros t' (t & Ht & ->)%publish_teams. destruct (decide _) as [He|]; [|by apply I10].
    eapply move_team_ok; eauto.
  - rewrite Hjobs. cbn. rewrite length_map. lia.
  - unfold unfinished in *. rewrite Hjobs.
    pose proof (count_move (fun x => task_terminal (job_state x) = false) (im_jobs im) r f j I2 Hj Hr) as Hc.
    rewrite (decide_True (P := task_terminal (job_state j) = false)) in Hc by (by eapply job_step_open).
    cbn in *. destruct (decide _) in Hc; lia.
  - unfold count_busy in *. rewrite Hjobs.
    pose proof (count_move (fun x => busy (job_state x) = true) (im_jobs im) r f j I2 Hj Hr) as Hc. cbn in *.
    destruct (busy (job_state j)), (busy (job_state (f j))); repeat destruct (decide _) in Hc; try done; lia.
  - intros x k Hx Hk. eapply move_up; eauto.
  - intros t w Ht Hw Ha. eapply move_down; eauto.
Qed.

Lemma alter_forall2 (g : Work -> Work) i (l : list Work) (R : Work -> Work -> Prop) :
  (forall x, R x x) -> (forall x, l !! i = Some x -> R x (g x)) -> Forall2 R l (alter g i l).
Proof.
  intros Hr Hg. apply Forall2_same_length_lookup. split; [by rewrite length_alter|].
  intros k x y Hx Hy. destruct (decide (i = k)) as [->|Hn].
  - rewrite list_lookup_alter_eq, Hx in Hy. injection Hy as <-. by apply Hg.
  - rewrite list_lookup_alter_ne, Hx in Hy by done. by injection Hy as <-.
Qed.

(** A waiting entry is handed to the queue. *)
Lemma waiting_assign im t i w id :
  NoDup (map tm_ref (im_teams im)) -> t ∈ im_teams im -> tm_work t !! i = Some w ->
  tk_state (wk_snapshot w) = tt_waiting ->
  S (waiting (upd_work im (tm_ref t) i (fun k => queue_task k id))) <= waiting im.
Proof.
  intros Hn Ht Hw Hs. unfold waiting, upd_work, upd_team. cbn [im_teams set_teams].
  revert Hn Ht. generalize (im_teams im) as l. intros l Hn Ht.
  set (g := fun x : Team Sess => set_work x (alter (fun w => set_task w (queue_task (wk_snapshot w) id)) i (tm_work x))).
  assert (Hle : forall ws, length (filter (fun w => tk_state (wk_snapshot w) = tt_waiting)
     (alter (fun w => set_task w (queue_task (wk_snapshot w) id)) i ws)) +
     match ws !! i with Some w => if decide (tk_state (wk_snapshot w) = tt_waiting) then 1 else 0 | None => 0 end <=
     length (filter (fun w => tk_state (wk_snapshot w) = tt_waiting) ws)).
  { intros ws. generalize i. induction ws as [|v ws IH]; intros k.
    - by destruct k.
    - destruct k as [|k]; cbn [alter list_alter lookup list_lookup].
      + rewrite !filter_cons. rewrite (decide_False (P := tk_state (wk_snapshot (set_task v _)) = _)) by done.
        destruct (decide (tk_state (wk_snapshot v) = tt_waiting)); simpl; lia.
      + specialize (IH k). cbn [alter list_alter lookup list_lookup] in IH. rewrite !filter_cons.
        destruct (decide (tk_state (wk_snapshot v) = tt_waiting)); [exact (le_n_S _ _ IH)|exact IH]. }
  assert (Hother : forall x, waiting_work (g x) <= waiting_work x).
  { intros x. unfold waiting_work. cbn [tm_work set_work g]. specialize (Hle (tm_work x)). lia. }
  assert (Hthis : S (waiting_work (g t)) <= waiting_work t).
  { unfold waiting_work. cbn [tm_work set_work g]. specialize (Hle (tm_work t)). rewrite Hw, decide_True in Hle by done. lia. }
  induction l as [|x l IH]; [by apply not_elem_of_nil in Ht|]. cbn [map] in *. rewrite !sum_list_cons.
  apply NoDup_cons in Hn as [Hx Hn]. apply elem_of_cons in Ht as [->|Ht].
  - rewrite decide_True by done. fold (g x). rewrite map_map.
    assert (sum_list (map (fun y => waiting_work (if decide (tm_ref y = tm_ref x) then g y else y)) l) <= sum_list (map waiting_work l)).
    { apply sum_list_le. intros y _. destruct (decide _); [apply Hother|done]. }
    unfold g in *. lia.
  - specialize (IH Hn Ht). assert (waiting_work (if decide (tm_ref x = tm_ref t) then g x else x) <= waiting_work x).
    { destruct (decide _); [apply Hother|done]. }
    unfold g in *. lia.
Qed.

Lemma assign_team_ok t i w id :
  team_ok t -> tm_work t !! i = Some w -> tk_state (wk_snapshot w) = tt_waiting -> ready t (wk_snapshot w) = true ->
  has_active_work t (tk_member (wk_snapshot w)) = false ->
  team_ok (set_work t (alter (fun w => set_task w (queue_task (wk_snapshot w) id)) i (tm_work t))).
Proof.
  intros Hok Hw Hs Hready Hidle. apply (team_ok_entries t); [done..| |]; cbn [tm_work set_work].
  - apply Forall2_same_length_lookup. split; [by rewrite length_alter|]. intros k x y Hx Hy.
    pose proof (to_attempts t Hok x ltac:(by eapply list_elem_of_lookup_2)) as Ha.
    destruct (decide (i = k)) as [->|Hn].
    + rewrite list_lookup_alter_eq, Hx in Hy. injection Hy as <-. split; [by split|done].
    + rewrite list_lookup_alter_ne, Hx in Hy by done. injection Hy as <-. split; [by split|done].
  - intros k x y Hx Hy. destruct (decide (i = k)) as [->|Hn].
    + rewrite list_lookup_alter_eq, Hx in Hy. injection Hy as <-. rewrite Hw in Hx. injection Hx as <-. cbn.
      rewrite Hs. split; [done|]. split; intros _; right; [done|]. split; [done|]. intros a v Hv Ha.
      by rewrite list_lookup_alter_ne.
    + rewrite list_lookup_alter_ne, Hx in Hy by done. injection Hy as <-. split; [done|]. split; auto.
Qed.

Lemma inv_assign o im im' j t i w :
  Inv o im -> im_options im' = im_options im -> im_jobs im' = im_jobs im ++ [j] ->
  im_teams im' = im_teams (upd_work im (tm_ref t) i (fun k => queue_task k (job_id j))) ->
  im_active im' = im_active im -> jb_ref j = im_refs im -> im_refs im < im_refs im' ->
  job_id j ∉ map job_id (im_jobs im) -> job_state j = ts_queued -> jb_team j = Some (tm_ref t) -> job_ok o j ->
  t ∈ im_teams im -> tm_work t !! i = Some w -> tk_state (wk_snapshot w) = tt_waiting ->
  ready t (wk_snapshot w) = true -> has_active_work t (tk_member (wk_snapshot w)) = false ->
  jb_owner j = tm_owner t -> sn_team_id (jb_snapshot j) = tm_id t ->
  sn_team_task (jb_snapshot j) = work_key w -> sn_team_attempt (jb_snapshot j) = tk_attempt (wk_snapshot w) ->
  unfinished im < max_running o + max_queued o -> Inv o im'.
Proof.
  intros Hi E1 E2 E3 E4 E5 E6 Hid Hs Hjt Hok Ht Hw Hws Hready Hidle Hown Htid Hkey Hatt Hu.
  pose proof (waiting_assign im t i w (job_id j) (iv_trefs _ _ Hi) Ht Hw Hws) as Hwait.
  pose proof Hi as [I1 I2 I3 I4 I5 I6 I7 I8 I9 I10 I11 I12 I13 I14 I15 I16].
  assert (Hin : forall x, x ∈ im_jobs im ++ [j] -> x ∈ im_jobs im \/ x = j).
  { intros x. rewrite elem_of_app, list_elem_of_singleton. done. }
  set (t2 := set_work t (alter (fun w => set_task w (queue_task (wk_snapshot w) (job_id j))) i (tm_work t))).
  set (w2 := set_task w (queue_task (wk_snapshot w) (job_id j))).
  assert (Hel : forall t', t' ∈ im_teams im' <-> t' = t2 \/ (t' ∈ im_teams im /\ tm_ref t' <> tm_ref t)).
  { intros t'. rewrite E3. unfold upd_work. rewrite upd_team_elem. split.
    - intros (x & Hx & ->). destruct (decide _) as [He|He]; [left|by right].
      unfold t2. assert (x = t) as -> by (by apply (key_unique tm_ref (im_teams im))). done.
    - intros [->|[Hx Hn]]; [exists t; by rewrite decide_True|exists t'; by rewrite decide_False]. }
  assert (Hw2 : tm_work t2 !! i = Some w2) by (cbn; by rewrite list_lookup_alter_eq, Hw).
  assert (Hother : forall k v, k <> i -> tm_work t2 !! k = Some v <-> tm_work t !! k = Some v).
  { intros k v Hn. cbn. by rewrite list_lookup_alter_ne by done. }
  assert (Hserve : serves j t2 w2).
  { split; try done; [by apply of_job_spec; rewrite Hkey, Hatt|by rewrite Hs]. }
  split; unfold unfinished, count_busy in *; rewrite ?E1, ?E2, ?E4; try done.
  - rewrite map_app. apply NoDup_app. split; [done|]. split; [|apply NoDup_singleton].
    intros k (x & -> & Hx)%list_elem_of_fmap Hk%list_elem_of_singleton. specialize (I3 x Hx). lia.
  - intros x [Hx| ->]%Hin; [specialize (I3 x Hx); lia|lia].
  - rewrite map_app. apply NoDup_app. split; [done|]. split; [|apply NoDup_singleton].
    by intros k Hk ->%list_elem_of_singleton.
  - rewrite E3. unfold upd_work. by rewrite map_refs.
  - intros t' [->|[Hx _]]%Hel; [specialize (I6 t Ht); cbn; lia|specialize (I6 t' Hx); lia].
  - rewrite E3. unfold upd_work. by rewrite map_refs.
  - rewrite E3. cbn. by rewrite length_map.
  - intros x [Hx| ->]%Hin; auto.
  - intros t' [->|[Hx _]]%Hel; [apply (assign_team_ok t i w); auto|auto].
  - rewrite length_app. cbn [length]. unfold waiting at 1. rewrite E3. unfold waiting in Hwait at 1. lia.
  - rewrite filter_app, length_app, filter_cons, filter_nil. destruct (decide _); simpl; lia.
  - rewrite filter_app, length_app, filter_cons, filter_nil, Hs. simpl. lia.
  - intros x k [Hx| ->]%Hin Hk.
    + destruct (I15 x k Hx Hk) as (t1 & w1 & H1 & H2 & H3 & Hsv). destruct (decide (tm_ref t1 = tm_ref t)) as [He|He].
      * assert (t1 = t) as -> by (by apply (key_unique tm_ref (im_teams im))). exists t2, w1.
        split; [apply Hel; by left|]. split; [|split; [done|by destruct Hsv]].
        apply list_elem_of_lookup in H2 as [n Hn]. eapply list_elem_of_lookup_2. apply Hother; [|exact Hn].
        intros ->. rewrite Hw in Hn. injection Hn as <-. pose proof (sv_state _ _ _ Hsv) as Hst. rewrite Hws in Hst.
        by destruct (job_state x).
      * exists t1, w1. split; [apply Hel; by right|done].
    + exists t2, w2. split; [apply Hel; by left|]. split; [by eapply list_elem_of_lookup_2|].
      split; [cbn; congruence|done].
  - intros t' w' [->|[Hx Hn]]%Hel Hw' Ha.
    + apply list_elem_of_lookup in Hw' as [n Hn]. destruct (decide (n = i)) as [->|Hne].
      * rewrite Hw2 in Hn. injection Hn as <-. exists j. split; [apply elem_of_app; right; by apply list_elem_of_singleton|done].
      * apply Hother in Hn; [|done]. destruct (I16 t w' Ht) as (x & Hxin & Hsv); [by eapply list_elem_of_lookup_2|done|].
        exists x. split; [apply elem_of_app; by left|by destruct Hsv].
    + destruct (I16 t' w' Hx Hw' Ha) as (x & Hxin & Hsv). exists x. split; [apply elem_of_app; by left|done].
Qed.

Lemma inv_found o im im' t :
  Inv o im -> im_options im' = im_options im -> im_jobs im' = im_jobs im -> im_active im' = im_active im ->
  im_teams im' = im_teams im ++ [t] -> tm_ref t = im_refs im -> im_refs im < im_refs im' ->
  tm_owner t ∉ map tm_owner (im_teams im) ->
  length (im_teams im) < 16 -> tm_work t = [] -> tm_messages t = [] -> length (tm_members t) <= 4 ->
  NoDup (map member_name (tm_members t)) -> Inv o im'.
Proof.
  intros [I1 I2 I3 I4 I5 I6 I7 I8 I9 I10 I11 I12 I13 I14 I15 I16] E1 E2 E3 E4 E5 E6 Ho Hl Hw Hm Hml Hn.
  assert (Hr : tm_ref t ∉ map tm_ref (im_teams im)).
  { intros (x & Hx & Hin)%list_elem_of_fmap. specialize (I6 x Hin). lia. }
  assert (Hin : forall x, x ∈ im_teams im ++ [t] -> x ∈ im_teams im \/ x = t).
  { intros x. rewrite elem_of_app, list_elem_of_singleton. done. }
  assert (Hnil : forall w, w ∈ tm_work t -> False) by (rewrite Hw; intros w Hx; by apply not_elem_of_nil in Hx).
  split; unfold unfinished, count_busy in *; rewrite ?E1, ?E2, ?E3, ?E4; try done.
  - intros j Hj. specialize (I3 j Hj). lia.
  - rewrite map_app. apply NoDup_app. split; [done|]. split; [|apply NoDup_singleton].
    by intros k Hk ->%list_elem_of_singleton.
  - intros x [Hx| ->]%Hin; [specialize (I6 x Hx); lia|lia].
  - rewrite map_app. apply NoDup_app. split; [done|]. split; [|apply NoDup_singleton].
    by intros k Hk ->%list_elem_of_singleton.
  - rewrite length_app. simpl. lia.
  - intros x [Hx| ->]%Hin; [by apply I10|]. split; try done; try (by intros w; intros; exfalso; eauto).
    + rewrite Hw. simpl. lia.
    + rewrite Hw. constructor.
    + intros i w d Hi. by rewrite Hw, lookup_nil in Hi.
    + rewrite Hm. simpl. lia.
    + intros r. unfold pending_for. rewrite Hm, filter_nil. simpl. lia.
  - unfold waiting in *. rewrite E4, map_app, sum_list_with_app. cbn. unfold waiting_work at 2. rewrite Hw, filter_nil. cbn. unfold sum_list in *. lia.
  - intros j k Hj Hk. destruct (I15 j k Hj Hk) as (x & w & Hx & H). exists x, w. split; [apply elem_of_app; by left|done].
  - intros x w [Hx| ->]%Hin Hx'; [by apply I16|by apply Hnil in Hx'].
Qed.

Lemma nodup_map_filter_team {K} (key : Team Sess -> K) P `{forall t, Decision (P t)} l :
  NoDup (map key l) -> NoDup (map key (filter P l)).
Proof.
  induction l as [|t l IH]; [done|]. cbn [map]. intros [Hj Hn]%NoDup_cons. rewrite filter_cons.
  destruct (decide (P t)); [|by apply IH]. cbn [map]. apply NoDup_cons. split; [|by apply IH].
  intros (x & Hx & [_ Hin]%list_elem_of_filter)%list_elem_of_fmap. apply Hj. rewrite Hx. by apply list_elem_of_fmap_2.
Qed.
Lemma retirable_idle t w :
  retirable t = true -> w ∈ tm_work t -> team_task_active (tk_state (wk_snapshot w)) = false.
Proof.
  intros [_ H]%andb_true_iff Hw. apply negb_true_iff, not_true_iff_false in H. apply not_true_iff_false. intros Ha.
  apply H, existsb_exists. exists w. split; [by apply list_elem_of_In|]. by rewrite Ha.
Qed.

Lemma inv_retire o im t :
  Inv o im -> t ∈ im_teams im -> retirable t = true -> Inv o (erase_team (Some t) im).
Proof.
  intros Hi Ht Hret. pose proof Hi as [I1 I2 I3 I4 I5 I6 I7 I8 I9 I10 I11 I12 I13 I14 I15 I16].
  assert (Hel : forall x, x ∈ im_teams (erase_team (Some t) im) <-> x ∈ im_teams im /\ tm_ref x <> tm_ref t).
  { intros x. cbn. rewrite list_elem_of_filter. tauto. }
  split; unfold unfinished, count_busy in *; try done.
  - by apply nodup_map_filter_team.
  - intros x [Hx _]%Hel. by apply I6.
  - by apply nodup_map_filter_team.
  - cbn. etransitivity; [apply length_filter|done].
  - intros x [Hx _]%Hel. by apply I10.
  - cbn [im_jobs erase_team set_teams]. etransitivity; [|exact I11]. apply Nat.add_le_mono_l.
    unfold waiting. cbn [im_teams erase_team set_teams]. clear. induction (im_teams im) as [|x l IH]; [done|].
    rewrite filter_cons. cbn [map]. rewrite sum_list_cons. destruct (decide _); cbn [map]; rewrite ?sum_list_cons; lia.
  - intros j k Hj Hk. destruct (I15 j k Hj Hk) as (x & w & Hx & Hw & Hxk & Hs). exists x, w.
    split; [|done]. apply Hel. split; [done|]. intros He.
    assert (x = t) as -> by (by apply (key_unique tm_ref (im_teams im))).
    pose proof (retirable_idle t w Hret Hw) as Hidle. rewrite (sv_state _ _ _ Hs), active_board in Hidle.
    apply negb_false_iff in Hidle. by rewrite (jo_over o j (I9 j Hj) Hidle) in Hk.
  - intros x w [Hx _]%Hel Hw Ha. by apply (I16 x w).
Qed.

Lemma inv_micro o acc im im' : Inv o im -> micro o acc im im' -> Inv o im'.
Proof.
  intros Hi Hm. destruct Hm.
  - by eapply inv_quiet.
  - by eapply inv_drop.
  - subst im'. apply inv_keep; [done|]. intros j Hr Hj Hok. by destruct (H0 j Hr Hj Hok) as (? & [? ?] & ? & ?).
  - by eapply (inv_move o im im' r f j result).
  - by eapply (inv_admit o im im' j).
  - by eapply (inv_assign o im im' j t i w).
  - subst im'. eapply inv_work; done.
  - subst im'. by apply inv_submit.
  - by eapply (inv_found o im im' t).
  - subst im'. by apply inv_retire.
  - subst im'. pose proof (iv_teams _ _ Hi t H) as Hok. eapply (inv_team_field o im t); try done.
    apply team_ok_members; [done|..].
    + intros n Hn. rewrite map_app. apply elem_of_app. by left.
    + rewrite length_app. simpl. lia.
    + rewrite map_app. apply NoDup_app. split; [apply Hok|]. split; [|apply NoDup_singleton].
      by intros k Hk ->%list_elem_of_singleton.
  - subst im'. eapply (inv_team_field o im t); try done. apply team_ok_messages; [|done..]. by apply (iv_teams _ _ Hi).
  - subst im'. destruct (team_at im r) as [t|] eqn:E.
    + apply team_at_in in E as [Ht <-]. apply inv_entries; try done. by apply team_ok_stopped, (iv_teams _ _ Hi).
    + eapply inv_quiet; try done. by apply upd_team_none.
Qed.
End Boards.
