(* ===== verification/BackgroundSteps.v ===== *)
(** * oran-bootstrap: the operations of background tasks and teams as micro steps

    Every action of the service of [Background.v] is a sequence of the steps of
    [BackgroundInvariant.v]; from this follow the invariant, the life cycles of jobs and
    board entries, who accepts an entry, and that work which can start does. *)
From S2P Require Import Prelude.
From S2P Require Import Core.
From S2P Require Import Utf8.
From S2P Require Import TurnId.
From S2P Require Import Json.
From S2P Require Import Rules.
From S2P Require Import Approval.
From S2P Require Import TaskGroup.
From S2P Require Import Dispatch.
From S2P Require Import TeamBoard.
From S2P Require Import Background.
From S2P Require Import BackgroundInvariant.

(** ** Operations as micro steps *)
Section Evolution.
Context {Sess Common A : Type}.
Context (random_id : nat -> Result TurnId) (compile_error : string -> option string) (dump : JsonWriter).
Context (create_session : SessionOptions Common -> Result Sess) (o : BackgroundTaskOptions).
Implicit Types im : Impl Sess.
Implicit Types j : Job Sess.
Implicit Types t : Team Sess.

Notation evolves acc := (rtc (micro (Sess := Sess) o acc)).

Lemma evolves_inv acc im im' : Inv o im -> evolves acc im im' -> Inv o im'.
Proof. intros Hi H. induction H as [|x y z Hm _ IH]; [done|]. by eapply IH, inv_micro. Qed.
Lemma evolves_quiet acc im im' :
  im_options im' = im_options im -> im_jobs im' = im_jobs im -> im_teams im' = im_teams im ->
  im_active im' = im_active im -> im_refs im <= im_refs im' -> evolves acc im im'.
Proof. intros. by apply rtc_once, mu_quiet. Qed.
(** One operation after another. *)
Lemma evolves_then acc im (f g : Impl Sess -> Impl Sess) :
  Inv o im -> evolves acc im (f im) -> (forall im, Inv o im -> evolves acc im (g im)) -> evolves acc im (g (f im)).
Proof. intros Hi Hf Hg. etransitivity; [exact Hf|]. by eapply Hg, evolves_inv. Qed.

Lemma prune_evolves acc im : evolves acc im (prune im).
Proof.
  apply rtc_once. apply (mu_drop o acc im (prune im) (fun j => prunable im j = false)); try done.
  intros j _ H. apply not_false_iff_true in H. unfold prunable in H. bool_prop. by destruct (task_terminal (job_state j)).
Qed.
Lemma publish_upd team s result im r f :
  im_teams (publish team s result (upd_job im r f)) = im_teams (publish team s result im).
Proof. by destruct team. Qed.
Lemma publish_frame team s result im :
  im_options (publish team s result im) = im_options im /\ im_active (publish team s result im) = im_active im /\
  im_refs (publish team s result im) = im_refs im /\ im_host (publish team s result im) = im_host im /\
  im_pumps (publish team s result im) = im_pumps im /\ im_closed (publish team s result im) = im_closed im /\
  im_shutdown (publish team s result im) = im_shutdown im /\ im_joining (publish team s result im) = im_joining im.
Proof. by destruct team. Qed.

Lemma request_stop_active g : active (fst (request_stop g)) = active g.
Proof. unfold request_stop. by destruct (stop_requested g). Qed.
Lemma spawn_lone name started g :
  spawn (mkGroup one_task (AsyncChannel.create 1) [] [] 0 0 false false false) name true = (started, g) ->
  length (active g) <= 1.
Proof. unfold spawn. destruct (decide _); intros [= _ <-]; cbn; lia. Qed.
Lemma end_child_shrinks g e : length (active (end_child_of g e)) = length (active g) - 1.
Proof.
  unfold end_child_of. destruct (active g) as [|c l] eqn:E; [by rewrite E|]. unfold finish. rewrite E. cbn [erase_child].
  destruct (decide (c = c)); [|done]. destruct (if decide _ then _ else _). cbn. lia.
Qed.

Lemma job_ok_ack j ack : job_ok o j -> job_ok o (acknowledge j ack).
Proof. by intros [H1 H2 H3 H4 H5 H6 H7 H8 H9]; split. Qed.
Lemma job_ok_dropped j s late now :
  job_ok o j -> job_state j = ts_queued -> jb_claimed j = false -> 
  (sn_state s = ts_failed \/ sn_state s = ts_cancelled) -> is_Some (sn_error s) ->
  sn_bytes s = sn_bytes (jb_snapshot j) -> job_ok o (end_queued j s late now).
Proof.
  intros [H1 H2 H3 H4 H5 H6 H7 H8 H9] Hs Hc Hst He Hb.
  assert (Hterm : task_terminal (sn_state s) = true) by (by destruct Hst as [-> | ->]).
  split; unfold job_state; cbn in *; rewrite ?Hterm, ?Hb; try done.
  - rewrite H1, Hs. by destruct Hst as [-> | ->].
  - intros Hr. apply H6 in Hr. congruence.
Qed.
Lemma job_ok_cancelling j s late :
  job_ok o j -> job_state j = ts_running -> sn_state s = ts_cancelling -> sn_error s = sn_error (jb_snapshot j) ->
  sn_bytes s = sn_bytes (jb_snapshot j) -> job_ok o (begin_cancelling j s late).
Proof.
  intros [H1 H2 H3 H4 H5 H6 H7 H8 H9] Hs Hst He Hb. unfold job_state in *. rewrite Hs in *.
  split; unfold job_state; cbn; rewrite ?Hst, ?Hb, ?He; try done.
  - rewrite fmap_is_Some. done.
  - intros Hr. apply H6 in Hr. congruence.
  - rewrite H7. split; intros [?|?]; discriminate.
  - intros g' (g & Hg & ->)%fmap_Some. cbn. rewrite request_stop_active. by apply H9.
Qed.

Lemma cancel_job_evolves r timeout im : Inv o im -> evolves false im (cancel_job r timeout im).
Proof.
  intros Hi. unfold cancel_job. destruct (job_at im r) as [j|] eqn:E; [|done].
  destruct (job_at_in im r j E) as [Hj Hr].
  destruct (task_terminal (job_state j) || bool_decide (job_state j = ts_cancelling)) eqn:Ed.
  - destruct timeout; [done|]. apply rtc_once. apply (mu_keep o false im _ r (fun j => acknowledge j true)); [done|].
    intros x _ _ Hok. split; [by split|]. split; [done|]. split; [done|]. by apply job_ok_ack.
  - apply orb_false_iff in Ed as [Et Ec]. apply bool_decide_eq_false in Ec.
    assert (Hcl : jb_claimed j = false).
    { apply not_true_iff_false. intros Hc. by rewrite (jo_claimed _ _ (iv_jobs _ _ Hi j Hj) Hc) in Et. }
    destruct (bool_decide (job_state j = ts_queued)) eqn:Eq; bool_prop.
    + set (s := sn_move _ _ _ _).
      pose proof (publish_frame (jb_team j) s (jb_result j) (upd_job im r (fun x => end_queued x s (jb_timed_out j || timeout) (im_steady im)))) as (F1 & F2 & F3 & _).
      apply rtc_once. eapply (mu_move o false im _ r _ j (jb_result j)); [exact E|..].
      * exact F1.
      * cbn. rewrite publish_jobs. reflexivity.
      * cbn. by rewrite publish_upd.
      * exact F3.
      * cbn. rewrite F2, Eq. unfold job_state. cbn. by destruct timeout.
      * cbn. rewrite F2. apply (iv_running _ _ Hi).
      * by split.
      * rewrite Eq. unfold job_state, s. cbn. apply js_drop. destruct timeout; auto.
      * unfold moved_team, job_state, s. cbn. by destruct timeout.
      * intros Hok. apply job_ok_dropped; try done. unfold s. cbn. destruct timeout; auto.
    + assert (Hrun : job_state j = ts_running) by (by destruct (job_state j)).
      set (s := sn_move _ _ _ _).
      pose proof (publish_frame (jb_team j) s (jb_result j) (upd_job im r (fun x => begin_cancelling x s (jb_timed_out j || timeout)))) as (F1 & F2 & F3 & _).
      apply rtc_once. eapply (mu_move o false im _ r _ j (jb_result j)); [exact E|..].
      * exact F1.
      * cbn. rewrite publish_jobs. reflexivity.
      * cbn. by rewrite publish_upd.
      * exact F3.
      * cbn. by rewrite F2, Hrun.
      * cbn. rewrite F2. apply (iv_running _ _ Hi).
      * by split.
      * rewrite Hrun. apply js_stop.
      * done.
      * intros Hok. by apply job_ok_cancelling.
Qed.
Lemma cancel_all_evolves p im : Inv o im -> evolves false im (cancel_all p im).
Proof.
  unfold cancel_all. generalize (im_jobs im) as l. intros l. revert im. induction l as [|j l IH]; intros im Hi; [done|].
  cbn [fold_left]. etransitivity; [|apply IH].
  - destruct (p j); [by apply cancel_job_evolves|done].
  - destruct (p j); [|done]. by eapply evolves_inv, cancel_job_evolves.
Qed.

Lemma work_evolves acc im r (F : Team Sess -> list Work) :
  (forall t, t ∈ im_teams im -> tm_ref t = r -> Forall2 (led acc) (tm_work t) (F t) /\
     waiting_work (set_work t (F t)) <= waiting_work t) ->
  evolves acc im (upd_team im r (fun t => set_work t (F t))).
Proof.
  intros HF. apply rtc_once. apply (mu_work o acc im _ r F); [done| |].
  - intros t Ht Hr. by apply HF.
  - right. eapply waiting_teams_le; [done|]. intros t Ht. cbn. destruct (decide (tm_ref t = r)); [by apply HF|done].
Qed.
Lemma map_led acc (g : Work -> Work) (ws : list Work) :
  (forall w, led acc w (g w)) -> Forall2 (led acc) ws (map g ws).
Proof. intros Hg. by apply Forall2_fmap_r, Forall_Forall2_diag, Forall_true. Qed.
Lemma map_waiting t (g : Work -> Work) :
  (forall w, tk_state (wk_snapshot (g w)) = tt_waiting -> tk_state (wk_snapshot w) = tt_waiting) ->
  waiting_work (set_work t (map g (tm_work t))) <= waiting_work t.
Proof.
  intros Hg. unfold waiting_work. cbn [tm_work set_work]. induction (tm_work t) as [|w ws IH]; [done|].
  cbn [map]. rewrite !filter_cons. specialize (Hg w). do 2 destruct (decide _); simpl; [lia|tauto|lia|lia].
Qed.
Lemma led_refl acc w : led acc w w.
Proof. split; [done|by apply ls_same]. Qed.
Lemma stop_work_led w : led false w (stop_work w).
Proof.
  unfold stop_work. destruct (negb _ && negb _) eqn:E; [|apply led_refl]. bool_prop. split; [done|].
  by apply ls_close.
Qed.
Lemma drop_waiting_led x w : led false w (drop_waiting x w).
Proof.
  unfold drop_waiting. destruct (_ && _) eqn:E; [|apply led_refl]. bool_prop. split; [done|].
  apply ls_close; try done; by rewrite H0.
Qed.

Lemma stop_team_evolves t im : Inv o im -> evolves false im (stop_team t im).
Proof.
  intros Hi. unfold stop_team.
  assert (H1 : evolves false im (upd_team im (tm_ref t) set_stopped)) by (by apply rtc_once, (mu_stop o false im _ (tm_ref t))).
  assert (Hi1 := evolves_inv _ _ _ Hi H1). set (im1 := upd_team im (tm_ref t) set_stopped) in *.
  etransitivity; [exact H1|]. etransitivity; [by apply (cancel_all_evolves (team_jobs t))|].
  apply (work_evolves false _ (tm_ref t) (fun t => map stop_work (tm_work t))). intros x _ _. split.
  - apply map_led, stop_work_led.
  - apply map_waiting. intros w. unfold stop_work. by destruct (_ && _).
Qed.

Lemma job_ok_launched j s g outcome :
  length (active g) <= 1 -> job_ok o j -> job_state j = ts_queued -> sn_state s = ts_running -> sn_error s = sn_error (jb_snapshot j) ->
  sn_bytes s = sn_bytes (jb_snapshot j) -> job_ok o (start_running j s g outcome).
Proof.
  intros Hg [H1 H2 H3 H4 H5 H6 H7 H8 H9] Hs Hst He Hb. unfold job_state in *. rewrite Hs in *.
  split; unfold job_state; cbn; rewrite ?Hst, ?Hb, ?He; try done.
  - intros Hr. apply H6 in Hr. congruence.
  - rewrite H7. split; intros [?|?]; discriminate.
  - by intros g' [= <-].
Qed.
Lemma launch_evolves r im : Inv o im -> im_active im < max_running o -> evolves false im (launch r im).
Proof.
  intros Hi Hlt. unfold launch. destruct (job_at im r) as [j|] eqn:E; [|done].
  destruct (negb (bool_decide (job_state j = ts_queued))) eqn:Eq; [done|]. bool_prop.
  cbn [create_group]. change (create_group one_task) with
    (Ok (mkGroup one_task (AsyncChannel.create 1) [] [] 0 0 false false false)). cbv iota.
  destruct (spawn _ (job_id j) true) as [started g] eqn:Espawn. cbv iota zeta. apply spawn_lone in Espawn.
  set (s := sn_move _ _ _ _). set (outcome := match started with Ok _ => _ | Err _ => _ end).
  pose proof (publish_frame (jb_team j) s (jb_result j)
    (upd_job im r (fun x => start_running x s (begin_join g).2 outcome))) as (F1 & F2 & F3 & _).
  apply rtc_once. eapply (mu_move o false im _ r (fun x => start_running x s (begin_join g).2 outcome) j (jb_result j)); [exact E|..].
  - exact F1.
  - cbn [im_jobs set_counts]. by rewrite publish_jobs.
  - cbn [im_teams set_counts]. by rewrite publish_upd.
  - exact F3.
  - cbn [im_active set_counts]. rewrite F2, Eq. unfold job_state. cbn [jb_snapshot start_running sn_state sn_move s busy]. change (im_active (upd_job im r (fun x => start_running x s (begin_join g).2 outcome))) with (im_active im). simpl. lia.
  - cbn [im_active set_counts]. rewrite F2. change (im_active (upd_job im r (fun x => start_running x s (begin_join g).2 outcome))) with (im_active im). lia.
  - by split.
  - rewrite Eq. apply js_launch.
  - done.
  - intros Hok. apply job_ok_launched; try done.
Qed.
Lemma launch_loop_evolves rs im : Inv o im -> evolves false im (launch_loop rs im).
Proof.
  revert im. induction rs as [|r rs IH]; intros im Hi; [done|]. cbn [launch_loop].
  destruct (max_running (im_options im) <=? im_active im) eqn:E; [done|]. apply Nat.leb_gt in E.
  rewrite (iv_options _ _ Hi) in E. pose proof (launch_evolves r im Hi E) as H1.
  etransitivity; [exact H1|]. by eapply IH, evolves_inv.
Qed.

Lemma truncated_length text max : String.length (truncated text max) <= max.
Proof.
  unfold truncated. rewrite <- lit_length, lit_str. apply truncate_to_code_point_bound.
Qed.
(** Every way a run ends leaves a well-formed job. *)
Lemma ended_ok opts j success now fin s result :
  job_ok opts j -> busy (job_state j) = true -> ended opts j success now = (s, result) ->
  job_ok opts (close_job j s result fin) /\ job_step (job_state j) (sn_state s) /\ task_terminal (sn_state s) = true /\
  same_job j (close_job j s result fin).
Proof.
  intros [H1 H2 H3 H4 [H5a H5b] H6 H7 H8 H9] Hb Hend.
  assert (Hclose : forall s result, task_terminal (sn_state s) = true -> sn_bytes s = String.length result ->
    String.length result <= max_result_bytes opts -> (result <> ""%string -> sn_state s = ts_succeeded) ->
    (is_Some (sn_error s) <-> sn_state s = ts_failed \/ sn_state s = ts_cancelled) -> job_ok opts (close_job j s result fin)).
  { intros s' result' C1 C2 C3 C4 C5. split; unfold job_state; cbn; rewrite ?C1; try done.
    split; [by intros [? ?]|]. by destruct (sn_state s'). }
  assert (Hempty : jb_result j = ""%string).
  { destruct (decide (jb_result j = ""%string)) as [|Hn]; [done|]. apply H6 in Hn. by rewrite Hn in Hb. }
  assert (Herr : sn_error (jb_snapshot j) = None).
  { destruct (sn_error (jb_snapshot j)) eqn:E; [|done]. destruct (proj1 H7 ltac:(by eexists)) as [Hx|Hx]; by rewrite Hx in Hb. }
  assert (Hsame : forall state error bytes cut, same_job j (close_job j (sn_retain (sn_move (jb_snapshot j) state now error) bytes cut) result fin)) by done.
  unfold ended in Hend. change (sn_state (jb_snapshot j)) with (job_state j) in Hend.
  destruct (bool_decide (job_state j = ts_cancelling)) eqn:Ec; bool_prop.
  { injection Hend as <- <-. rewrite Hempty in *. rewrite Ec. split_and!; [|by constructor; destruct (jb_timed_out j); auto|by destruct (jb_timed_out j)|done].
    apply Hclose; try done; cbn; [by destruct (jb_timed_out j)|]. split; [by destruct (jb_timed_out j); auto|by eexists]. }
  assert (Hrun : job_state j = ts_running) by (by destruct (job_state j)). rewrite Hrun.
  assert (Hfail : forall kind, (s, result) = (sn_retain (sn_move (jb_snapshot j)
      (if bool_decide (kind = ek_cancelled) then ts_cancelled else ts_failed) now (Some kind)) (String.length (jb_result j))
      (sn_truncated (jb_snapshot j)), jb_result j) ->
    job_ok opts (close_job j s result fin) /\ job_step ts_running (sn_state s) /\ task_terminal (sn_state s) = true /\
    same_job j (close_job j s result fin)).
  { intros kind [= -> ->]. rewrite Hempty in *.
    assert (Hst : (if bool_decide (kind = ek_cancelled) then ts_cancelled else ts_failed) = ts_failed \/
      (if bool_decide (kind = ek_cancelled) then ts_cancelled else ts_failed) = ts_cancelled) by (destruct (bool_decide (kind = ek_cancelled)); [by right|by left]).
    revert Hst. generalize (if bool_decide (kind = ek_cancelled) then ts_cancelled else ts_failed). intros st Hst.
    assert (Ht : task_terminal st = true) by (by destruct Hst as [-> | ->]).
    split_and!; [|by apply js_end|done|done]. by apply Hclose. }
  destruct success; [|by eapply Hfail].
  destruct (jb_outcome j) as [[text|e]|]; [|by eapply Hfail|by eapply Hfail].
  injection Hend as <- <-. split_and!; [|by apply js_end|done|done].
  apply Hclose; try done; cbn; [apply truncated_length|]. rewrite Herr. split; [by intros [? ?]|intros [?|?]; discriminate].
Qed.

Lemma count_busy_pos im j : Inv o im -> j ∈ im_jobs im -> busy (job_state j) = true -> 0 < im_active im.
Proof.
  intros Hi Hj Hb. rewrite (iv_active _ _ Hi). unfold count_busy.
  assert (Hin : j ∈ filter (fun j => busy (job_state j) = true) (im_jobs im)) by (by apply list_elem_of_filter).
  destruct (filter _ _); [by apply not_elem_of_nil in Hin|simpl; lia].
Qed.
Lemma monitor_ends_evolves r im : Inv o im -> evolves false im (monitor_ends r im).
Proof.
  intros Hi. unfold monitor_ends. destruct (job_at im r) as [j|] eqn:E; [|done].
  destruct (jb_group j) as [g|] eqn:Eg; [|done]. destruct (drain_completed g) as [report g'].
  destruct (ended (im_options im) j (all_succeeded report) (im_utc im)) as [s result] eqn:Eend.
  destruct (job_at_in im r j E) as [Hj Hr]. rewrite (iv_options _ _ Hi) in Eend.
  assert (Hb : busy (job_state j) = true) by (by apply (jo_group o j (iv_jobs _ _ Hi j Hj)); rewrite Eg).
  destruct (ended_ok o j _ _ (im_steady im) s result (iv_jobs _ _ Hi j Hj) Hb Eend) as (Hok & Hstep & Hterm & Hsame).
  pose proof (count_busy_pos im j Hi Hj Hb) as Hpos. pose proof (iv_running _ _ Hi) as Hrun.
  set (f := fun x : Job Sess => close_job x s result (im_steady im)) in *.
  pose proof (publish_frame (jb_team j) s result (upd_job im r f)) as (F1 & F2 & F3 & _).
  assert (Ha : im_active (upd_job im r f) = im_active im) by done. rewrite Ha in F2.
  apply rtc_once. eapply (mu_move o false im _ r f j result); [exact E|..].
  - exact F1.
  - cbn. by rewrite publish_jobs.
  - cbn. by rewrite publish_upd.
  - exact F3.
  - cbn. rewrite F2, Hb. unfold f, job_state. cbn. assert (Hnb : busy (sn_state s) = false) by (by destruct (sn_state s)).
    rewrite Hnb. lia.
  - cbn. rewrite F2. lia.
  - done.
  - exact Hstep.
  - unfold moved_team, f, job_state. cbn. by rewrite Hterm.
  - intros Hok1. unfold f. by eapply ended_ok.
Qed.

Lemma has_capacity_spec reserved im :
  (has_capacity reserved im).2 = prune im /\
  ((has_capacity reserved im).1 = true -> im_closed im = false /\
     length (im_jobs (prune im)) + (if reserved then waiting im - 1 else waiting im) < max_records (im_options im) /\
     unfinished (prune im) < max_running (im_options im) + max_queued (im_options im)).
Proof.
  unfold has_capacity, has_record_capacity. cbn [fst snd]. change (waiting (prune im)) with (waiting im).
  split; [done|]. intros ([H1 H2]%andb_true_iff & H3)%andb_true_iff.
  apply negb_true_iff in H1. apply Nat.ltb_lt in H2, H3. split; [done|]. split; [|done].
  change (im_options (prune im)) with (im_options im) in H2. change (waiting (prune im)) with (waiting im) in H2.
  destruct reserved; cbn [andb] in H2; [|lia]. destruct (0 <? waiting im) eqn:E; [lia|]. apply Nat.ltb_ge in E. lia.
Qed.
Lemma enqueue_spec j im :
  match enqueue j im with
  | (Err _, im') => im' = prune im
  | (Ok _, im') =>
      im' = post_pump (set_jobs (prune im) (im_jobs (prune im) ++ [arm j (im_steady im + bg_timeout (im_options im))%Z])) /\
      job_id j ∉ map job_id (im_jobs (prune im)) /\ im_closed im = false /\
      length (im_jobs (prune im)) + (if bool_decide (is_Some (jb_team j)) then waiting im - 1 else waiting im) <
        max_records (im_options im) /\
      unfinished (prune im) < max_running (im_options im) + max_queued (im_options im)
  end.
Proof.
  unfold enqueue. pose proof (has_capacity_spec (bool_decide (is_Some (jb_team j))) im) as [H1 H2].
  destruct (has_capacity _ im) as [capacity im1]. cbn in H1, H2. subst im1. destruct capacity; cbn [negb]; [|done].
  destruct (existsb _ (im_jobs (prune im))) eqn:E; [done|]. split; [done|]. split; [|by apply H2].
  intros (x & Hx & Hin)%list_elem_of_fmap. apply not_true_iff_false in E. apply E, existsb_exists. exists x.
  split; [by apply list_elem_of_In|]. by apply bool_decide_eq_true.
Qed.
Lemma job_ok_arm j d :
  jb_group j = None -> job_state j = ts_queued -> is_Some (jb_child j) -> jb_result j = ""%string ->
  sn_bytes (jb_snapshot j) = 0 -> sn_error (jb_snapshot j) = None -> jb_claimed j = false -> job_ok o (arm j d).
Proof.
  intros Hg Hs Hc Hr Hb He Hcl. unfold job_state in *. split; unfold job_state; cbn; rewrite ?Hs, ?Hg, ?Hr, ?Hb, ?He, ?Hcl; try done.
  - split; [done|simpl; lia].
  - split; [by intros [? ?]|intros [?|?]; discriminate].
Qed.

Lemma upd_work_evolves im team i (g : TeamTaskSnapshot -> TeamTaskSnapshot) :
  (forall t w, t ∈ im_teams im -> tm_ref t = team -> tm_work t !! i = Some w ->
     led false w (set_task w (g (wk_snapshot w))) /\ tk_state (g (wk_snapshot w)) <> tt_waiting) ->
  evolves false im (upd_work im team i g).
Proof.
  intros Hg. apply (work_evolves false im team (fun t => alter (fun w => set_task w (g (wk_snapshot w))) i (tm_work t))).
  intros t Ht Hr. split.
  - apply alter_forall2; [apply led_refl|]. intros w Hw. by apply (Hg t w).
  - unfold waiting_work. cbn [tm_work set_work]. specialize (Hg t). revert Hg. generalize (tm_work t) as ws. intros ws Hg.
    assert (Hgi : forall w, ws !! i = Some w -> tk_state (g (wk_snapshot w)) <> tt_waiting) by (intros w Hw; by eapply Hg).
    clear Hg. revert i Hgi. induction ws as [|w ws IH]; intros [|i] Hgi; cbn [alter list_alter]; [done|done|..]; rewrite !filter_cons.
    + rewrite decide_False by (by apply (Hgi w)). destruct (decide _); simpl; lia.
    + specialize (IH i Hgi). destruct (decide _); [apply le_n_S|]; exact IH.
Qed.
Lemma fail_task_evolves im team i t w e :
  Inv o im -> t ∈ im_teams im -> tm_ref t = team -> tm_work t !! i = Some w -> tk_state (wk_snapshot w) = tt_waiting ->
  evolves false im (upd_work im team i (fun k => fail_task k e)).
Proof.
  intros Hi Ht Hr Hw Hs. apply upd_work_evolves. intros x v Hx Hxr Hv.
  assert (x = t) as -> by (apply (key_unique tm_ref (im_teams im)); [apply Hi|done..|congruence]).
  rewrite Hw in Hv. injection Hv as <-. split; [|done]. split; [done|]. by apply ls_refuse.
Qed.

Lemma schedule_work_evolves team i im :
  Inv o im -> evolves false im (schedule_work random_id dump team i im).2.
Proof.
  intros Hi. unfold schedule_work. destruct (team_at im team) as [t|] eqn:Et; [|done].
  apply team_at_in in Et as [Ht Hr]. destruct (tm_work t !! i) as [w|] eqn:Ew; [|done].
  destruct (negb (bool_decide _) || negb (ready t _)) eqn:E; [done|]. bool_prop.
  destruct (find_member t _) as [m|] eqn:Em; [|done].
  destruct (has_active_work t _) eqn:Ea; [done|].
  pose proof (has_capacity_spec true im) as [Hc _]. destruct (has_capacity true im) as [capacity im1]. cbn in Hc. subst im1.
  pose proof (prune_evolves false im) as Hp. assert (Hi1 := evolves_inv _ _ _ Hi Hp).
  destruct (negb capacity); [exact Hp|]. cbn [generate].
  set (im2 := set_counts (prune im) _ _ _ _ _).
  assert (Hq : evolves false im im2) by (etransitivity; [exact Hp|by apply evolves_quiet]).
  assert (Hi2 := evolves_inv _ _ _ Hi Hq).
  destruct (random_id (im_draws (prune im))) as [id|e].
  - cbn [allocate]. set (im3 := set_counts im2 _ _ _ _ _). set (j := team_job _ _ _ _ _ _ _).
    pose proof (enqueue_spec j im3) as He. destruct (enqueue j im3) as [[[]|e] im'].
    + destruct He as (-> & Hid & _ & _ & Hu). cbn [snd].
      etransitivity; [exact Hq|]. etransitivity; [exact (prune_evolves false im2)|].
      assert (Hi4 := evolves_inv _ _ _ Hi2 (prune_evolves false im2)).
      apply rtc_once. eapply (mu_assign o false (prune im2) _ (arm j _) t i w); try done.
      * cbn. by rewrite Hr.
      * cbn. lia.
      * by apply job_ok_arm.
      * by rewrite <- (iv_options _ _ Hi).
    + subst im'. cbn [snd]. etransitivity; [exact Hq|]. etransitivity; [|apply (fail_task_evolves _ team i t w); try done].
      * etransitivity; [apply (evolves_quiet false im2 im3); try done; cbn; lia|apply prune_evolves].
      * eapply (evolves_inv false); [|apply prune_evolves]. eapply (evolves_inv false); [exact Hi2|].
        apply (evolves_quiet false im2 im3); try done; cbn; lia.
  - cbn [snd]. etransitivity; [exact Hq|]. by apply (fail_task_evolves _ team i t w).
Qed.

Lemma schedule_team_evolves team ixs im :
  Inv o im -> evolves false im (schedule_team random_id dump team ixs im).2.
Proof.
  revert im. induction ixs as [|i ixs IH]; intros im Hi; [done|]. cbn [schedule_team].
  pose proof (schedule_work_evolves team i im Hi) as H. destruct (schedule_work random_id dump team i im) as [[] im'].
  - etransitivity; [exact H|]. by eapply IH, evolves_inv.
  - exact H.
Qed.
Lemma pump_teams_loop_evolves ts im : Inv o im -> evolves false im (pump_teams_loop random_id dump ts im).
Proof.
  revert im. induction ts as [|t ts IH]; intros im Hi; [done|]. cbn [pump_teams_loop].
  destruct (tm_stopped t); [by apply IH|].
  pose proof (schedule_team_evolves (tm_ref t) (seq 0 (length (tm_work t))) im Hi) as H.
  destruct (schedule_team _ _ _ _ im) as [[] im']; [|exact H].
  etransitivity; [exact H|]. by eapply IH, evolves_inv.
Qed.
Lemma pump_evolves im : Inv o im -> evolves false im (pump random_id dump im).
Proof.
  intros Hi. unfold pump, pump_teams. destruct (im_closed im); [done|].
  pose proof (pump_teams_loop_evolves (im_teams im) im Hi) as H. etransitivity; [exact H|].
  by eapply launch_loop_evolves, evolves_inv.
Qed.

(** ** Calls *)
Lemma start_evolves parent req (cx : DispatchContext A) im :
  Inv o im -> evolves false im (start random_id compile_error create_session parent req cx im).2.
Proof.
  intros Hi. unfold start. destruct (negb (delegates im parent)); [done|]. destruct (request_invalid req); [done|].
  pose proof (prune_evolves false im) as Hp. assert (Hi1 := evolves_inv _ _ _ Hi Hp).
  destruct (im_closed (prune im) || _ || _); [exact Hp|]. cbn [generate].
  set (im2 := set_counts (prune im) _ _ _ _ _).
  assert (Hq : evolves false im im2) by (etransitivity; [exact Hp|by apply evolves_quiet]).
  assert (Hi2 := evolves_inv _ _ _ Hi Hq).
  destruct (random_id _) as [id|e]; [|exact Hq]. destruct (existsb _ _); [exact Hq|].
  destruct (copy_child_rules _ _) as [rules|e]; [|exact Hq]. destruct (create_session _) as [child|e]; [|exact Hq].
  cbn [allocate]. set (im3 := set_counts im2 _ _ _ _ _). set (j := run_job _ _ _ _ _ _ _).
  pose proof (enqueue_spec j im3) as He. destruct (enqueue j im3) as [[[]|e] im']; cbn [snd].
  - destruct He as (-> & Hid & _ & Hr & Hu). etransitivity; [exact Hq|]. etransitivity; [exact (prune_evolves false im2)|].
    assert (Hi4 := evolves_inv _ _ _ Hi2 (prune_evolves false im2)).
    apply rtc_once. eapply (mu_admit o false (prune im2) _ (arm j _)); try done.
    + cbn. lia.
    + by apply job_ok_arm.
    + by rewrite <- (iv_options _ _ Hi).
    + by rewrite <- (iv_options _ _ Hi).
  - subst im'. etransitivity; [exact Hq|]. etransitivity; [apply (evolves_quiet false im2 im3); try done; cbn; lia|].
    apply prune_evolves.
Qed.

Lemma add_team_member_steps parent spec (cx : DispatchContext A) t im :
  match add_team_member random_id compile_error dump create_session parent spec cx t im with
  | (res, im') =>
      evolves false im im' /\ im_jobs im' = im_jobs im /\ im_teams im' = im_teams im /\ im_refs im' = im_refs im /\
      im_closed im' = im_closed im /\ im_options im' = im_options im /\ im_active im' = im_active im /\
      match res with
      | Ok t' => exists m, t' = set_members t (tm_members t ++ [m]) /\ length (tm_members t) < 4 /\
          member_name m ∉ map member_name (tm_members t)
      | Err _ => True
      end
  end.
Proof.
  unfold add_team_member. destruct (tm_stopped t); [done|]. destruct (_ || _) eqn:El; [done|].
  apply orb_false_iff in El as [El _]. apply Nat.leb_gt in El.
  destruct (existsb _ _) eqn:Ee; [done|]. destruct (list_find _ _) as [[i name]|]; [done|]. cbn [generate].
  set (im2 := set_counts im _ _ _ _ _). assert (Hq : evolves false im im2) by (by apply evolves_quiet).
  destruct (random_id _) as [id|e]; [|done]. destruct (copy_child_rules _ _); [|done].
  destruct (create_session _) as [session|e]; [|done]. repeat split; try done. eexists. split; [done|]. split; [done|].
  intros (x & Hx & Hin)%list_elem_of_fmap. apply not_true_iff_false in Ee. apply Ee, existsb_exists. exists x.
  split; [by apply list_elem_of_In|]. by apply bool_decide_eq_true.
Qed.
Lemma add_members_steps parent specs (cx : DispatchContext A) t im :
  length (tm_members t) <= 4 -> NoDup (map member_name (tm_members t)) ->
  match add_members random_id compile_error dump create_session parent specs cx t im with
  | (res, im') =>
      evolves false im im' /\ im_jobs im' = im_jobs im /\ im_teams im' = im_teams im /\ im_refs im' = im_refs im /\
      im_closed im' = im_closed im /\ im_options im' = im_options im /\ im_active im' = im_active im /\
      match res with
      | Ok t' => exists ms, t' = set_members t ms /\ length ms <= 4 /\ NoDup (map member_name ms)
      | Err _ => True
      end
  end.
Proof.
  revert t im. induction specs as [|spec specs IH]; intros t im Hl Hn; cbn [add_members].
  { repeat split; try done. exists (tm_members t). by destruct t. }
  pose proof (add_team_member_steps parent spec cx t im) as H.
  destruct (add_team_member _ _ _ _ parent spec cx t im) as [[t'|e] im1]; destruct H as (H1 & H2 & H3 & H4 & H5 & H6 & H7 & H8); [|done].
  destruct H8 as (m & -> & Hlt & Hm).
  specialize (IH (set_members t (tm_members t ++ [m])) im1). cbn [tm_members set_members] in IH.
  rewrite length_app in IH. specialize (IH ltac:(simpl; lia)).
  specialize (IH ltac:(rewrite map_app; apply NoDup_app; split; [done|split; [by intros k Hk ->%list_elem_of_singleton|apply NoDup_singleton]])).
  destruct (add_members _ _ _ _ parent specs cx _ im1) as [res im']. destruct IH as (G1 & G2 & G3 & G4 & G5 & G6 & G7 & G8).
  repeat split; try congruence; [by etransitivity|]. by destruct res.
Qed.

Lemma find_team_in owner im t : find_team owner im = Some t -> t ∈ im_teams im /\ tm_owner t = owner.
Proof. apply (find_some (P := fun t => tm_owner t = owner)). Qed.
Lemma erase_evolves im t : t ∈ im_teams im -> retirable t = true -> evolves false im (erase_team (Some t) im).
Proof. intros Ht Hr. apply rtc_once. by apply (mu_retire o false im _ t). Qed.

Lemma roster_steps parent specs (cx : DispatchContext A) owner id goal im :
  match add_members random_id compile_error dump create_session parent specs cx
          (mkTeam (im_refs im) owner id goal false [] [] []) (allocate (generate random_id im).2).2 with
  | (res, im') =>
      evolves false im im' /\
      (im_options im' = im_options im /\ im_jobs im' = im_jobs im /\ im_active im' = im_active im) /\
      im_teams im' = im_teams im /\ im_refs im' = S (im_refs im) /\
      match res with
      | Ok t' => exists ms, t' = mkTeam (im_refs im) owner id goal false ms [] [] /\ length ms <= 4 /\
          NoDup (map member_name ms)
      | Err _ => True
      end
  end.
Proof.
  set (t0 := mkTeam _ _ _ _ _ _ _ _). set (im2 := (allocate _).2).
  assert (Hq : evolves false im im2) by (apply evolves_quiet; try done; cbn; lia).
  pose proof (add_members_steps parent specs cx t0 im2 ltac:(simpl; lia) ltac:(constructor)) as H.
  destruct (add_members _ _ _ _ parent specs cx t0 im2) as [[t|e] im']; destruct H as (H1 & H2 & H3 & H4 & _ & H6 & H7 & H8);
    (split; [by etransitivity|]); done.
Qed.
(** The new board takes the place of at most one that has stopped. *)
Lemma found_evolves im im' gone t :
  Inv o im -> im_options im' = im_options im /\ im_jobs im' = im_jobs im /\ im_active im' = im_active im ->
  im_teams im' = im_teams im -> im_refs im' = S (im_refs im) -> tm_ref t = im_refs im ->
  tm_work t = [] -> tm_messages t = [] -> length (tm_members t) <= 4 -> NoDup (map member_name (tm_members t)) ->
  match gone with
  | Some p => p ∈ im_teams im /\ retirable p = true
  | None => length (im_teams im) < 16
  end ->
  (forall x, x ∈ im_teams im -> tm_owner x = tm_owner t -> gone = Some x) ->
  evolves false im (set_teams (erase_team gone im') (im_teams (erase_team gone im') ++ [t])).
Proof.
  intros Hi (E1 & E2 & E3) Ht Hr H1 H2 H3 H4 H5 Hg Ho.
  assert (Hsub : forall x, x ∈ im_teams (erase_team gone im) -> x ∈ im_teams im /\ gone <> Some x).
  { intros x. destruct gone as [p|]; cbn; [|intros Hx; by split].
    rewrite list_elem_of_filter. intros [Hn Hx]. split; [done|]. congruence. }
  assert (Hlen : length (im_teams (erase_team gone im)) < 16).
  { destruct gone as [p|]; cbn; [|done]. pose proof (iv_boards _ _ Hi).
    eapply Nat.lt_le_trans; [|exact H]. apply (length_filter_lt _ _ p); [apply Hg|]. intros Hx. by apply Hx. }
  transitivity (erase_team gone im).
  { destruct gone as [p|]; [|done]. apply (erase_evolves im p); apply Hg. }
  apply rtc_once. eapply (mu_found o false _ _ t); try done.
  - by destruct gone.
  - by destruct gone.
  - by destruct gone.
  - cbn. destruct gone; cbn; by rewrite Ht.
  - by destruct gone.
  - destruct gone; cbn; rewrite Hr; lia.
  - intros (x & Hx & [Hin Hn]%Hsub)%list_elem_of_fmap. by apply Hn, Ho.
Qed.

Lemma create_team_evolves parent req (cx : DispatchContext A) im :
  Inv o im -> evolves false im (create_team random_id compile_error dump create_session parent req cx im).2.
Proof.
  intros Hi. unfold create_team. set (previous := find_team _ im).
  destruct (match previous with Some t => negb (retirable t) | None => false end) eqn:Er; [done|].
  set (retired := match previous with Some _ => None | None => _ end). destruct (_ || _) eqn:Eb; [done|].
  apply orb_false_iff in Eb as [Eb _].
  assert (Hgone : let gone := match previous with Some p => Some p | None => retired end in
    match gone with Some p => p ∈ im_teams im /\ retirable p = true | None => length (im_teams im) < 16 end /\
    (forall x, x ∈ im_teams im -> tm_owner x = task_owner parent -> gone = Some x) /\
    forall im', erase_team gone im' = erase_team retired (erase_team previous im')).
  { unfold retired, previous in *. destruct (find_team (task_owner parent) im) as [p|] eqn:Ep; cbv beta iota zeta.
    - apply find_team_in in Ep as [Hp Hown]. apply negb_false_iff in Er. split; [done|]. split; [|done]. intros x Hx Hxo.
      f_equal. apply (key_unique tm_owner (im_teams im)); [apply Hi|done..|congruence].
    - assert (Hno : forall x, x ∈ im_teams im -> tm_owner x <> task_owner parent)
        by (apply (find_none (P := fun t => tm_owner t = task_owner parent) _ Ep)).
      split; [|split; [intros x Hx Hxo; by destruct (Hno x Hx)|done]].
      destruct (16 <=? length (im_teams im)) eqn:E; [|by apply Nat.leb_gt].
      destruct (snd <$> list_find (fun t => Is_true (retirable t)) (im_teams im)) as [v|] eqn:Ev; [|done].
      apply (find_some (P := fun t => Is_true (retirable t))) in Ev as [Hv Hvr]. by apply Is_true_true in Hvr. }
  destruct Hgone as (G1 & G2 & G3).
  destruct (generate random_id im) as [[id|e] im1] eqn:Eg; [|cbn; injection Eg as _ <-; by apply evolves_quiet].
  destruct (allocate im1) as [r im2] eqn:Ea.
  assert (Hr : r = im_refs im) by (injection Eg as _ <-; by injection Ea as <- <-).
  assert (H2 : im2 = (allocate (generate random_id im).2).2) by (rewrite Eg; cbn [snd]; by rewrite Ea).
  pose proof (roster_steps parent (cr_members req) cx (task_owner parent) (str (format_turn_id_hex id)) (cr_goal req) im) as H.
  rewrite <- H2, <- Hr in H. destruct (add_members _ _ _ _ parent _ cx _ im2) as [[t|e] im3]; cbn [snd];
    destruct H as (H3 & H7 & H4 & H5 & H6); [|done]. destruct H6 as (ms & -> & Hl & Hn). rewrite <- G3.
  eapply found_evolves; try done. by rewrite H5, Hr.
Qed.

Lemma find_work_some t key w : find_work t key = Some w -> w ∈ tm_work t /\ work_key w = key.
Proof. apply (find_some (P := fun w => work_key w = key)). Qed.
Lemma existsb_member {B} (key : B -> string) (l : list B) k :
  existsb (fun x => bool_decide (key x = k)) l = bool_decide (k ∈ map key l).
Proof.
  apply eq_true_iff_eq. rewrite existsb_exists, bool_decide_eq_true, list_elem_of_fmap. split.
  - intros (x & Hx%list_elem_of_In & He%bool_decide_eq_true). by exists x.
  - intros (x & -> & Hx). exists x. split; [by apply list_elem_of_In|by apply bool_decide_eq_true].
Qed.

Lemma submit_evolves t req turn im :
  Inv o im -> t ∈ im_teams im -> evolves false im (submit_team_task t req turn im).2.
Proof.
  intros Hi Ht. unfold submit_team_task. destruct (tm_stopped t); [done|].
  destruct (32 <=? length (tm_work t)) eqn:El; [done|]. apply Nat.leb_gt in El.
  rewrite (existsb_member work_key). destruct (bool_decide (tc_key req ∈ _)) eqn:Ek; [done|]. apply bool_decide_eq_false in Ek.
  rewrite (existsb_member member_name). destruct (bool_decide (tc_member req ∈ _)) eqn:Em; [|done]. apply bool_decide_eq_true in Em.
  cbn [negb]. destruct (list_find _ (tc_depends req)) as [[i d]|] eqn:Ed; [done|].
  apply list_find_None in Ed. rewrite Forall_forall in Ed.
  destruct (has_record_capacity false im) as [capacity im1] eqn:Ec.
  unfold has_record_capacity in Ec. cbn [andb] in Ec. injection Ec as Hc <-.
  pose proof (prune_evolves false im) as Hp. destruct capacity; cbn [negb snd]; [|exact Hp].
  apply andb_true_iff in Hc as [_ Hc]. apply Nat.ltb_lt in Hc. change (im_options (prune im)) with (im_options im) in Hc.
  rewrite (iv_options _ _ Hi) in Hc. etransitivity; [exact Hp|]. apply rtc_once.
  eapply (mu_submit o false (prune im) _ t _); [done|reflexivity|done..| |done].
  intros d Hd. specialize (Ed d Hd). destruct (find_work t d) as [w|] eqn:Ew; [|done].
  apply find_work_some in Ew as [Hw <-]. by apply list_elem_of_fmap_2.
Qed.

(** An update of one entry, found by its key. *)
Lemma upd_task_evolves acc im t key (f : Work -> Work) :
  Inv o im -> t ∈ im_teams im -> (forall w, find_work t key = Some w -> led acc w (f w)) ->
  (length (im_jobs im) + waiting (upd_task im (tm_ref t) key f) <= max_records o \/
     forall w, find_work t key = Some w -> tk_state (wk_snapshot (f w)) <> tt_waiting) ->
  evolves acc im (upd_task im (tm_ref t) key f).
Proof.
  intros Hi Ht Hf Hw. apply rtc_once.
  apply (mu_work o acc im _ (tm_ref t) (fun t => update_first (fun w => bool_decide (work_key w = key)) f (tm_work t))); [done| |].
  - intros x Hx Hr. assert (x = t) as -> by (by apply (key_unique tm_ref (im_teams im)); [apply Hi|..]).
    apply update_first_rel; [apply led_refl|]. intros w Hfw. apply Hf. unfold find_work.
    erewrite list_find_ext; [exact Hfw|]. intros v. by rewrite bool_decide_spec.
  - destruct Hw as [Hw|Hw]; [by left|right]. eapply waiting_teams_le; [reflexivity|]. intros x Hx. cbn.
    destruct (decide (tm_ref x = tm_ref t)) as [Hr|]; [|done].
    assert (x = t) as -> by (by apply (key_unique tm_ref (im_teams im)); [apply Hi|..]).
    unfold waiting_work. cbn [tm_work set_work]. unfold update_first. unfold find_work in Hw.
    assert (Hfe : list_find (fun w => Is_true (bool_decide (work_key w = key))) (tm_work t) =
      list_find (fun w => work_key w = key) (tm_work t)) by (apply list_find_ext; intros v; apply bool_decide_spec).
    rewrite Hfe. destruct (list_find (fun w => work_key w = key) (tm_work t)) as [[i w]|] eqn:E; [|done].
    specialize (Hw w eq_refl).
    apply list_find_Some in E as (Hi2 & _ & _). clear -Hi2 Hw. revert i Hi2. generalize (tm_work t) as ws.
    induction ws as [|v ws IH]; intros [|i] Hl; try done; cbn [insert list_insert]; rewrite !filter_cons.
    + injection Hl as ->. rewrite (decide_False (P := tk_state (wk_snapshot (f w)) = tt_waiting)) by done. destruct (decide _); simpl; lia.
    + specialize (IH i Hl). destruct (decide _); [apply le_n_S|]; exact IH.
Qed.
(** Only an explicit acceptance makes an entry accepted. *)
Lemma accepted_micro im im' t' w' :
  Inv o im -> micro o false im im' -> t' ∈ im_teams im' -> w' ∈ tm_work t' -> tk_state (wk_snapshot w') = tt_accepted ->
  exists t w, t ∈ im_teams im /\ w ∈ tm_work t /\ tm_ref t = tm_ref t' /\ work_key w = work_key w' /\
    tk_state (wk_snapshot w) = tt_accepted.
Proof.
  intros Hi Hm Ht' Hw' Hs.
  assert (Hsame : im_teams im' = im_teams im -> exists t w, t ∈ im_teams im /\ w ∈ tm_work t /\ tm_ref t = tm_ref t' /\
    work_key w = work_key w' /\ tk_state (wk_snapshot w) = tt_accepted).
  { intros E. rewrite E in Ht'. by exists t', w'. }
  destruct Hm; try (by apply Hsame); try (subst im'; by apply Hsame).
  - rewrite H2 in Ht'. apply publish_teams in Ht' as (t & Ht & ->).
    destruct (decide _) as [|]; [|by exists t, w'].
    rewrite update_team_job_work in Hw' by (by apply (iv_teams _ _ Hi)).
    apply list_elem_of_fmap in Hw' as (w & -> & Hw). exists t, w. split; [done|]. split; [done|].
    split; [symmetry; apply update_team_job_frame|]. destruct (of_job _ w); [|done].
    destruct (follow_entry (jb_snapshot (f j)) result w) as (_ & _ & _ & E). rewrite E in Hs. by destruct (sn_state _).
  - rewrite H1 in Ht'. unfold upd_work in Ht'. apply upd_team_elem in Ht' as (x & Hx & ->).
    destruct (decide _); [|by exists x, w']. cbn in Hw'. apply list_elem_of_lookup in Hw' as [k Hk].
    exists x. cbn. destruct (decide (i = k)) as [->|Hn].
    + rewrite list_lookup_alter_eq in Hk. destruct (tm_work x !! k); [|done]. by injection Hk as <-.
    + rewrite list_lookup_alter_ne in Hk by done. exists w'. split; [done|]. split; [by eapply list_elem_of_lookup_2|done].
  - subst im'. apply upd_team_elem in Ht' as (t & Ht & ->). destruct (decide (tm_ref t = r)) as [Hr|]; [|by exists t, w'].
    cbn in Hw'. apply list_elem_of_lookup in Hw' as [k Hk].
    destruct (Forall2_lookup_r _ _ _ _ _ (H0 t Ht Hr) Hk) as (w & Hw & [[E1 _ _] Hl]). exists t, w.
    split; [done|]. split; [by eapply list_elem_of_lookup_2|]. split; [done|]. split; [done|].
    destruct Hl; congruence.
  - subst im'. apply upd_team_elem in Ht' as (x & Hx & ->). destruct (decide _); [|by exists x, w'].
    cbn in Hw'. apply elem_of_app in Hw' as [Hw'|Hw'%list_elem_of_singleton]; [by exists x, w'|]. subst w'. congruence.
  - rewrite H2 in Ht'. apply elem_of_app in Ht' as [Ht'|Ht'%list_elem_of_singleton]; [by exists t', w'|].
    subst t'. rewrite H7 in Hw'. by apply not_elem_of_nil in Hw'.
  - subst im'. cbn in Ht'. apply list_elem_of_filter in Ht' as [_ Ht']. by exists t', w'.
  - subst im'. unfold put_team in Ht'. apply upd_team_elem in Ht' as (x & Hx & ->). destruct (decide _) as [He|]; [|by exists x, w'].
    by exists t, w'.
  - subst im'. unfold put_team in Ht'. apply upd_team_elem in Ht' as (x & Hx & ->). destruct (decide _) as [He|]; [|by exists x, w'].
    by exists t, w'.
  - subst im'. apply upd_team_elem in Ht' as (x & Hx & ->). destruct (decide _) as [He|]; [|by exists x, w'].
    by exists x, w'.
Qed.
Lemma accepted_origin im im' t' w' :
  Inv o im -> evolves false im im' -> t' ∈ im_teams im' -> w' ∈ tm_work t' -> tk_state (wk_snapshot w') = tt_accepted ->
  exists t w, t ∈ im_teams im /\ w ∈ tm_work t /\ tm_ref t = tm_ref t' /\ work_key w = work_key w' /\
    tk_state (wk_snapshot w) = tt_accepted.
Proof.
  intros Hi H. revert t' w'. induction H as [x|x y z Hm _ IH]; intros t' w' Ht Hw Hs; [by exists t', w'|].
  destruct (IH ltac:(by eapply inv_micro) t' w' Ht Hw Hs) as (t1 & w1 & H1 & H2 & H3 & H4 & H5).
  destruct (accepted_micro x y t1 w1 Hi Hm H1 H2 H5) as (t2 & w2 & G1 & G2 & G3 & G4 & G5). exists t2, w2.
  split; [done|]. split; [done|]. split; [congruence|]. split; [congruence|done].
Qed.
Lemma cancel_job_teams r timeout im t :
  t ∈ im_teams im -> exists t', t' ∈ im_teams (cancel_job r timeout im) /\ tm_ref t' = tm_ref t.
Proof.
  intros Ht. unfold cancel_job. destruct (job_at im r) as [j|]; [|by exists t].
  assert (H : forall s res im', im_teams im' = im_teams im ->
    exists t', t' ∈ im_teams (notify (publish (jb_team j) s res im')) /\ tm_ref t' = tm_ref t).
  { intros s res im' He. eexists. split; [apply publish_teams; exists t; split; [by rewrite He|reflexivity]|].
    destruct (decide _); [apply update_team_job_frame|done]. }
  destruct (task_terminal _ || _); [destruct timeout; by exists t|]. destruct (bool_decide _); by apply H.
Qed.

Lemma update_evolves t req turn im :
  Inv o im -> t ∈ im_teams im ->
  evolves (bool_decide (up_action req = act_accept)) im (update_team_task t req turn im).2.
Proof.
  intros Hi Ht. unfold update_team_task. destruct (negb (bool_decide (up_team req = tm_id t))); [done|].
  destruct (find_work t (up_key req)) as [w|] eqn:Ew; [|done].
  destruct (negb _) eqn:Eatt; [done|]. destruct (bool_decide (tk_state (wk_snapshot w) = tt_accepted)) eqn:Eacc.
  { by destruct (up_action req). }
  apply bool_decide_eq_false in Eacc. destruct (up_action req) eqn:Eact.
  - change (bool_decide (act_accept = act_accept)) with true. destruct (tm_stopped t); [done|]. destruct (negb (bool_decide _)) eqn:Er; [done|]. bool_prop. cbn [snd].
    apply upd_task_evolves; [done|done|..]; rewrite Ew.
    + intros v [= <-]. split; [done|]. by apply ls_accept.
    + right. by intros v [= <-].
  - change (bool_decide (act_revise = act_accept)) with false.
    destruct (tm_stopped t); [done|]. destruct (_ && _) eqn:Er; [done|].
    destruct (tk_attempt (wk_snapshot w) =? 3) eqn:E3; [done|]. apply Nat.eqb_neq in E3.
    destruct (has_record_capacity false im) as [capacity im1] eqn:Ec.
    unfold has_record_capacity in Ec. cbn [andb] in Ec. injection Ec as Hc <-.
    pose proof (prune_evolves false im) as Hp. destruct capacity; cbn [negb snd]; [|exact Hp].
    apply andb_true_iff in Hc as [_ Hc]. apply Nat.ltb_lt in Hc. change (im_options (prune im)) with (im_options im) in Hc.
    assert (Hi1 := evolves_inv _ _ _ Hi Hp). rewrite (iv_options _ _ Hi) in Hc. etransitivity; [exact Hp|].
    assert (Hst : tk_state (wk_snapshot w) = tt_in_review \/ tk_state (wk_snapshot w) = tt_failed).
    { apply andb_false_iff in Er as [Er|Er]; apply negb_false_iff, bool_decide_eq_true in Er; auto. }
    apply upd_task_evolves; [done|done|..]; rewrite ?Ew.
    + intros v [= <-]. split; [done|]. apply ls_revise; try done.
      pose proof (to_attempts t (iv_teams _ _ Hi t Ht) w (proj1 (find_work_some _ _ _ Ew))). lia.
    + left. etransitivity; [|exact Hc]. rewrite <- Nat.add_succ_r. apply Nat.add_le_mono_l.
      apply (waiting_grow (prune im) t); [apply Hi1|done|apply waiting_first].
  - change (bool_decide (act_cancel = act_accept)) with false. cbn [snd].
    pose proof (prune_evolves false im) as Hp. assert (Hi1 := evolves_inv _ _ _ Hi Hp).
    set (im1 := match find_owned _ _ _ with Some j => _ | None => _ end).
    assert (Hq : evolves false (prune im) im1).
    { unfold im1. destruct (find_owned _ _ _); [by apply cancel_job_evolves|done]. }
    assert (Hi2 := evolves_inv _ _ _ Hi1 Hq).
    assert (Ht1 : exists t1, t1 ∈ im_teams im1 /\ tm_ref t1 = tm_ref t).
    { unfold im1. destruct (find_owned _ _ _); [by apply cancel_job_teams|by exists t]. }
    destruct Ht1 as (t1 & Ht1 & Hr). etransitivity; [exact Hp|]. etransitivity; [exact Hq|].
    rewrite <- Hr. apply upd_task_evolves; [done|done|..].
    + intros v Hv. apply find_work_some in Hv as [Hv Hk]. unfold cancel_task.
      destruct (team_task_active (tk_state (wk_snapshot v))) eqn:Ea; [split; [done|by apply ls_same]|].
      split; [done|]. apply ls_close; try done. intros Hacc.
      destruct (accepted_origin im im1 t1 v Hi ltac:(by etransitivity) Ht1 Hv Hacc) as (t0 & v0 & G1 & G2 & G3 & G4 & G5).
      assert (t0 = t) as -> by (apply (key_unique tm_ref (im_teams im)); [apply Hi|done..|congruence]).
      assert (v0 = w) as ->; [|done]. destruct (find_work_some _ _ _ Ew) as [Hw1 Hw2].
      apply (key_unique work_key (tm_work t)); [by apply (iv_teams _ _ Hi)|done..|congruence].
    + right. intros v _. unfold cancel_task. cbn.
      destruct (team_task_active (tk_state (wk_snapshot v))) eqn:Ea; [|done]. intros Hx. by rewrite Hx in Ea.
Qed.

Lemma send_message_steps closed t sender req :
  (forall recipient, pending_for t recipient <= 16) ->
  let t' := (send_team_message dump closed t sender req).2 in
  t' = t \/ exists ms, t' = set_messages t ms /\ length ms <= 64 /\ forall r, pending_for t' r <= 16.
Proof.
  intros Hp. unfold send_team_message. destruct (validate_team_command _); [|by left].
  destruct (closed || tm_stopped t); [by left|]. destruct (find_member _ _); [|by left]. destruct (find_work _ _); [|by left].
  destruct (bool_decide _); [by left|]. destruct (_ && _); [by left|].
  destruct ((64 <=? _) || _) eqn:E; [by left|]. apply orb_false_iff in E as [E1 E2]. apply Nat.leb_gt in E1, E2.
  destruct (_ <? _); [by left|]. right. cbn [snd]. eexists. split; [done|]. split; [rewrite length_app; simpl; lia|].
  intros r. unfold pending_for. cbn [tm_messages set_messages]. rewrite filter_app, length_app, filter_cons, filter_nil.
  specialize (Hp r). unfold pending_for in *. destruct (decide _) as [[<- _]|]; simpl in *; lia.
Qed.
Lemma send_evolves closed t sender req im :
  Inv o im -> t ∈ im_teams im -> evolves false im (put_team im (send_team_message dump closed t sender req).2).
Proof.
  intros Hi Ht. pose proof (iv_teams _ _ Hi t Ht) as Hok.
  destruct (send_message_steps closed t sender req (to_pending t Hok)) as [->|(ms & E & Hl & Hp)].
  - apply evolves_quiet; try done. unfold put_team, upd_team. cbn. rewrite <- (map_id (im_teams im)) at 2.
    apply map_ext_in. intros x Hx%list_elem_of_In. destruct (decide _) as [He|]; [|done].
    symmetry. by apply (key_unique tm_ref (im_teams im)); [apply Hi|..].
  - rewrite E in *. apply rtc_once. by apply (mu_mail o false im _ t ms).
Qed.
Lemma acknowledge_evolves r member ids im : Inv o im -> evolves false im (member_acknowledge r member ids im).
Proof.
  intros Hi. unfold member_acknowledge. destruct (team_at im r) as [t|] eqn:E.
  - apply team_at_in in E as [Ht <-]. pose proof (iv_teams _ _ Hi t Ht) as Hok.
    rewrite (put_team_upd o im t (fun t => inbox_acknowledge t member ids)) by done.
    apply rtc_once. eapply (mu_mail o false im _ t); [done|reflexivity|rewrite length_map; apply Hok|].
    intros x. etransitivity; [|apply (to_pending t Hok x)]. unfold pending_for. cbn [tm_messages set_messages].
    clear. induction (tm_messages t) as [|m ms IH]; [done|]. cbn [map]. rewrite !filter_cons.
    destruct (_ && _); cbn; repeat destruct (decide _); cbn [length]; try lia; tauto.
  - apply evolves_quiet; try done. by apply upd_team_none.
Qed.

Lemma apply_command_evolves parent c (cx : DispatchContext A) im :
  Inv o im ->
  evolves (match c with TeamTaskUpdate req => bool_decide (up_action req = act_accept) | _ => false end) im
    (apply_command random_id compile_error dump create_session parent c cx im).2.
Proof.
  intros Hi. unfold apply_command. pose proof (create_team_evolves parent) as Hcreate.
  destruct (find_team (task_owner parent) im) as [t|] eqn:Ef.
  - apply find_team_in in Ef as [Ht _]. destruct c as [req|spec|req|req|req| |req]; try done.
    + specialize (Hcreate req cx im Hi). by destruct (create_team _ _ _ _ _ _ _ _) as [? ?].
    + pose proof (add_team_member_steps parent spec cx t im) as H.
      destruct (add_team_member _ _ _ _ _ _ _ _ _) as [[t'|e] im']; cbn [snd]; destruct H as (H1 & H2 & H3 & H4 & H5 & H6 & H7 & H8); [|done].
      destruct H8 as (m & -> & Hl & Hm). etransitivity; [exact H1|]. apply rtc_once.
      apply (mu_enroll o false im' _ t m); try done. by rewrite H3.
    + pose proof (submit_evolves t req (cx_parent_turn_id cx) im Hi Ht) as H. by destruct (submit_team_task _ _ _ _).
    + pose proof (update_evolves t req (cx_parent_turn_id cx) im Hi Ht) as H. by destruct (update_team_task _ _ _ _).
    + by apply stop_team_evolves.
    + by apply stop_team_evolves.
  - destruct c as [req|spec|req|req|req| |req]; try done.
    specialize (Hcreate req cx im Hi). by destruct (create_team _ _ _ _ _ _ _ _) as [? ?].
Qed.
Lemma micro_any acc im im' : micro o false im im' -> micro o acc im im'.
Proof.
  destruct 1; [by eapply mu_quiet|by eapply mu_drop|by eapply mu_keep|by eapply mu_move|by eapply mu_admit|by eapply mu_assign
    | |by eapply mu_submit|by eapply mu_found|by eapply mu_retire|by eapply mu_enroll|by eapply mu_mail|by eapply mu_stop].
  eapply mu_work; [done| |done]. intros t Ht Hr. eapply Forall2_impl; [by apply H0|].
  intros w w' [He Hl]. split; [done|]. destruct Hl; [by apply ls_same|by apply ls_close|by apply ls_refuse|by apply ls_revise|done].
Qed.
Lemma evolves_any acc im im' : evolves false im im' -> evolves acc im im'.
Proof. induction 1 as [|x y z Hm _ IH]; [done|]. econstructor; [by apply micro_any|done]. Qed.

(** The actions that may accept a task. *)
Definition accepting (a : Action (Common := Common) (A := A)) : bool :=
  match a with do_command _ (TeamTaskUpdate req) _ => bool_decide (up_action req = act_accept) | _ => false end.

Lemma team_command_evolves parent c (cx : DispatchContext A) im :
  Inv o im -> evolves (accepting (do_command parent c cx)) im
    (team_command random_id compile_error dump create_session parent c cx im).2.
Proof.
  intros Hi. unfold team_command. destruct (negb (team_caller im parent cx)); [done|].
  destruct (validate_team_command c); [|done]. destruct (_ && _ && _); [done|].
  assert (Hsend : forall req, evolves false im (match find_team (task_owner parent) im with
      | None => (Err no_team, im)
      | Some t => let '(r, t) := send_team_message dump (im_closed im) t "leader" req in (r, put_team im t)
      end).2).
  { intros req. destruct (find_team _ im) as [t|] eqn:Ef; [|done]. apply find_team_in in Ef as [Ht _].
    pose proof (send_evolves (im_closed im) t "leader" req im Hi Ht) as Hs. by destruct (send_team_message _ _ _ _ _). }
  pose proof (apply_command_evolves parent c cx im Hi) as H.
  assert (Hrest : evolves (accepting (do_command parent c cx)) im (match apply_command random_id compile_error dump create_session parent c cx im with
      | (Err e, _, im) => (Err e, im)
      | (Ok _, w, im) =>
          let im := if is_read c then im else pump random_id dump im in
          (match find_team (task_owner parent) im with
           | Some t => team_output dump t (bg_automatic (im_options im)) w | None => Err no_team end, im)
      end).2).
  { destruct (apply_command _ _ _ _ parent c cx im) as [[[[]|e] w] im'] eqn:Ea; cbn [snd] in *; [|by destruct c].
    assert (Hi' := evolves_inv _ _ _ Hi H). pose proof (pump_evolves im' Hi') as Hpump.
    etransitivity; [by destruct c; exact H|]. destruct (is_read c); [done|by apply evolves_any]. }
  by destruct c.
Qed.

Lemma find_owned_in owner id im j : find_owned owner id im = Some j -> j ∈ im_jobs im /\ jb_owner j = owner /\ job_id j = id.
Proof. intros H. apply (find_some (P := owned owner id)) in H as [H1 H2]. by split. Qed.
Lemma cancel_evolves owner id im : Inv o im -> evolves false im (cancel owner id im).2.
Proof.
  intros Hi. unfold cancel. pose proof (prune_evolves false im) as Hp. destruct (find_owned _ _ _); [|exact Hp].
  cbn [snd]. etransitivity; [exact Hp|]. by eapply cancel_job_evolves, evolves_inv.
Qed.
Lemma claim_evolves owner id im : Inv o im -> evolves false im (claim_completion owner id im).2.
Proof.
  intros Hi. unfold claim_completion. pose proof (prune_evolves false im) as Hp. assert (Hi1 := evolves_inv _ _ _ Hi Hp).
  destruct (find_owned _ _ _) as [j|] eqn:E; [|exact Hp].
  destruct (sn_acknowledged _); [exact Hp|]. destruct (negb _ || _) eqn:Ed; [exact Hp|]. cbn [snd].
  etransitivity; [exact Hp|]. apply rtc_once. apply (mu_keep o false _ _ (jb_ref j) (fun j => with_claim j true)); [done|].
  apply orb_false_iff in Ed as [Ed _]. apply negb_false_iff in Ed. apply find_owned_in in E as [Hin _].
  intros x Hx Hxin [H1 H2 H3 H4 H5 H6 H7 H8 H9]. split; [by split|]. split; [done|]. split; [done|]. split; try done. intros _.
  assert (x = j) as -> by (apply (key_unique jb_ref (im_jobs (prune im))); [apply Hi1|done..]). done.
Qed.
Lemma finish_evolves owner id committed im : evolves false im (finish_completion owner id committed im).
Proof.
  unfold finish_completion. pose proof (prune_evolves false im) as Hp. destruct (find_owned _ _ _) as [j|]; [|exact Hp].
  etransitivity; [exact Hp|]. apply rtc_once.
  apply (mu_keep o false _ _ (jb_ref j) (fun j => acknowledge (with_claim j false) committed)); [done|].
  intros x _ _ [H1 H2 H3 H4 H5 H6 H7 H8 H9]. split; [by split|]. split; [done|]. split; [done|]. by split.
Qed.
Lemma cancel_owner_evolves owner turn im : Inv o im -> evolves false im (cancel_owner owner turn im).
Proof.
  intros Hi. unfold cancel_owner. set (im1 := match find_team owner im with Some t => _ | None => im end).
  assert (H : evolves false im im1).
  { unfold im1. destruct (find_team owner im) as [t|]; [|done]. destruct turn as [x|]; [|by apply stop_team_evolves].
    apply (work_evolves false im (tm_ref t) (fun t => map (drop_waiting x) (tm_work t))). intros y _ _. split.
    - apply map_led, drop_waiting_led.
    - apply map_waiting. intros w. unfold drop_waiting. by destruct (_ && _). }
  etransitivity; [exact H|]. by eapply cancel_all_evolves, evolves_inv.
Qed.
Lemma close_all_evolves im : Inv o im -> evolves false im (close_all im).
Proof.
  intros Hi. unfold close_all.
  assert (H : evolves false im (fold_left (fun im t => stop_team t im) (im_teams im) im)).
  { revert Hi. generalize (im_teams im) as l. intros l. revert im. induction l as [|t l IH]; intros im Hi; [done|].
    cbn [fold_left]. pose proof (stop_team_evolves t im Hi) as H. etransitivity; [exact H|]. by eapply IH, evolves_inv. }
  etransitivity; [exact H|]. by eapply cancel_all_evolves, evolves_inv.
Qed.
Lemma run_end_evolves r e im : evolves false im (upd_job im r (fun j => run_ended j e)).
Proof.
  apply rtc_once. apply (mu_keep o false _ _ r (fun j => run_ended j e)); [done|].
  intros x _ _ [H1 H2 H3 H4 H5 H6 H7 H8 H9]. split; [by split|]. split; [done|]. split; [done|]. split; try done.
  - unfold run_ended, job_state. cbn. by rewrite fmap_is_Some.
  - intros g' (g & Hg & ->)%fmap_Some. rewrite end_child_shrinks. apply H9 in Hg. lia.
Qed.

(** Every action is a sequence of micro steps, none of which accepts a task unless the
    action is the leader's acceptance. *)
Lemma act_evolves a im im' :
  Inv o im -> act random_id compile_error dump create_session a im = Some im' -> evolves (accepting a) im im'.
Proof.
  intros Hi Ha. pose proof (prune_evolves false im) as Hp.
  destruct a as [parent req cx|owner id offset max|owner id|owner|owner id|owner id committed|owner turn|parent c cx
    |r member req|r member ids| | | |r e|r|r|utc elapsed| |]; cbn [act] in Ha.
  - injection Ha as <-. by apply start_evolves.
  - injection Ha as <-. unfold get. by destruct (find_owned _ _ _).
  - injection Ha as <-. by apply cancel_evolves.
  - by injection Ha as <-.
  - injection Ha as <-. by apply claim_evolves.
  - injection Ha as <-. apply finish_evolves.
  - injection Ha as <-. by apply cancel_owner_evolves.
  - injection Ha as <-. by apply team_command_evolves.
  - injection Ha as <-. unfold member_send. destruct (team_at im r) as [t|] eqn:E; [|done].
    apply team_at_in in E as [Ht _]. pose proof (send_evolves (im_closed im) t member req im Hi Ht).
    by destruct (send_team_message _ _ _ _ _).
  - injection Ha as <-. by apply acknowledge_evolves.
  - injection Ha as <-. unfold shutdown. destruct (im_joining im); [done|]. cbn [snd].
    assert (Hq : evolves false im (set_closing im true true sd_checking)) by (by apply evolves_quiet).
    etransitivity; [exact Hq|]. by eapply close_all_evolves, evolves_inv.
  - injection Ha as <-. unfold destroy.
    assert (Hq : evolves false im (set_closing im true (im_joining im) (im_shutdown im))) by (by apply evolves_quiet).
    etransitivity; [exact Hq|]. by eapply close_all_evolves, evolves_inv.
  - destruct (im_pumps im) as [|n]; [done|]. injection Ha as <-. set (im1 := set_counts _ _ _ _ _ _).
    assert (Hq : evolves false im im1) by (by apply evolves_quiet). etransitivity; [exact Hq|].
    by eapply pump_evolves, evolves_inv.
  - destruct (job_at im r) as [j|]; [|done]. destruct (jb_group j) as [g|]; [|done]. destruct (active g); [done|].
    injection Ha as <-. apply run_end_evolves.
  - destruct (job_at im r) as [j|]; [|done]. destruct (jb_group j) as [g|]; [|done]. destruct (active g); [|done].
    injection Ha as <-. by apply monitor_ends_evolves.
  - destruct (job_at im r) as [j|]; [|done]. destruct (jb_deadline j) as [d|]; [|done]. destruct (_ <=? _)%Z; [|done].
    injection Ha as <-. pose proof (cancel_job_evolves r true im Hi) as H. etransitivity; [exact H|].
    by eapply pump_evolves, evolves_inv.
  - injection Ha as <-. by apply evolves_quiet.
  - destruct (decide _); [|done]. injection Ha as <-. unfold shutdown_check. by destruct (_ =? _); apply evolves_quiet.
  - destruct (decide _); [|done]. destruct (im_changed im); [|done]. injection Ha as <-. by apply evolves_quiet.
Qed.
Lemma created_inv h utc steady im : create_service (Sess := Sess) o h utc steady = Ok im -> Inv o im.
Proof.
  unfold create_service. destruct (options_invalid o); [done|]. intros [= <-].
  assert (Hnil : forall (B : Type) (x : B), x ∈ [] -> False) by (intros B x; apply not_elem_of_nil).
  split; cbn; try done; try lia; try apply NoDup_nil_2; intros x; intros; exfalso; by eapply Hnil.
Qed.
Lemma service_inv h im : reachable (A := A) random_id compile_error dump create_session o h im -> Inv o im.
Proof.
  induction 1 as [utc steady im H|a im im' _ IH H]; [by eapply created_inv|]. by eapply evolves_inv, act_evolves.
Qed.

(** ** Life cycles *)
(** What becomes of a job: it only moves forward, and once over it stays as it ended. *)
Record carried j j' : Prop := {
  ca_same : same_job j j';
  ca_steps : rtc job_step (job_state j) (job_state j');
  ca_final : task_terminal (job_state j) = true -> jb_result j' = jb_result j }.
(** The life cycle of a board entry: its attempt and its state. *)
Inductive work_step : nat * TeamTaskState -> nat * TeamTaskState -> Prop :=
  | ws_queue n : work_step (n, tt_waiting) (n, tt_queued)
  | ws_refuse n : work_step (n, tt_waiting) (n, tt_failed)
  | ws_run s s' n : job_step s s' -> work_step (n, board_state s) (n, board_state s')
  | ws_close n s : s = tt_waiting \/ s = tt_in_review \/ s = tt_failed \/ s = tt_cancelled ->
      work_step (n, s) (n, tt_cancelled)
  | ws_revise n s : s = tt_in_review \/ s = tt_failed -> n < 3 -> work_step (n, s) (S n, tt_waiting)
  | ws_accept n : work_step (n, tt_in_review) (n, tt_accepted).
Definition progress (w : Work) : nat * TeamTaskState := (tk_attempt (wk_snapshot w), tk_state (wk_snapshot w)).

Lemma carried_refl j : carried j j.
Proof. split; [by split|done|done]. Qed.
Lemma terminal_stuck s s' : rtc job_step s s' -> task_terminal s = true -> s' = s.
Proof. intros [|x y z Hs _] Ht; [done|]. by rewrite (job_step_open _ _ Hs) in Ht. Qed.
Lemma same_job_trans j1 j2 j3 : same_job j1 j2 -> same_job j2 j3 -> same_job j1 j3.
Proof. intros [A1 A2 A3 A4 A5 A6 A7] [B1 B2 B3 B4 B5 B6 B7]. split; congruence. Qed.
Lemma carried_trans j1 j2 j3 : carried j1 j2 -> carried j2 j3 -> carried j1 j3.
Proof.
  intros [A1 A2 A3] [B1 B2 B3]. split; [by eapply same_job_trans|by etransitivity|].
  intros Ht. rewrite B3, A3; [done..|]. by rewrite (terminal_stuck _ _ A2 Ht).
Qed.

Lemma refs_micro acc im im' : micro o acc im im' -> im_refs im <= im_refs im'.
Proof. destruct 1; subst; simpl; lia. Qed.
Lemma refs_evolves acc im im' : evolves acc im im' -> im_refs im <= im_refs im'.
Proof. induction 1 as [|x y z H _ IH]; [done|]. apply refs_micro in H. lia. Qed.

Lemma job_micro acc im im' j' :
  Inv o im -> micro o acc im im' -> j' ∈ im_jobs im' ->
  (exists j, j ∈ im_jobs im /\ carried j j') \/ (im_refs im <= jb_ref j' /\ job_state j' = ts_queued).
Proof.
  intros Hi Hm Hj'.
  assert (Hsame : im_jobs im' = im_jobs im -> exists j, j ∈ im_jobs im /\ carried j j').
  { intros E. rewrite E in Hj'. exists j'. split; [done|apply carried_refl]. }
  destruct Hm; try (left; by apply Hsame); try (subst im'; left; by apply Hsame).
  - left. rewrite H1 in Hj'. apply list_elem_of_filter in Hj' as [_ Hj']. exists j'. split; [done|apply carried_refl].
  - left. subst im'. apply upd_job_elem in Hj' as (j & Hj & ->). exists j. split; [done|].
    destruct (decide (jb_ref j = r)) as [Hr|]; [|apply carried_refl].
    destruct (H0 j Hr Hj (iv_jobs _ _ Hi j Hj)) as (H1 & [H2 H3] & _). split; [done|by rewrite H2|done].
  - left. rewrite H1 in Hj'. apply (move_elem o im r f j j' Hi H) in Hj' as [->|[Hj' _]].
    + exists j. split; [by apply (job_at_in im r)|]. split; [done|by apply rtc_once|].
      intros Ht. by rewrite (job_step_open _ _ H7) in Ht.
    + exists j'. split; [done|apply carried_refl].
  - rewrite H0 in Hj'. apply elem_of_app in Hj' as [Hj'|Hj'%list_elem_of_singleton].
    + left. exists j'. split; [done|apply carried_refl].
    + right. subst j'. split; [lia|done].
  - rewrite H0 in Hj'. apply elem_of_app in Hj' as [Hj'|Hj'%list_elem_of_singleton].
    + left. exists j'. split; [done|apply carried_refl].
    + right. subst j'. split; [lia|done].
Qed.
Lemma job_origin acc im im' j' :
  Inv o im -> evolves acc im im' -> j' ∈ im_jobs im' ->
  (exists j, j ∈ im_jobs im /\ carried j j') \/ im_refs im <= jb_ref j'.
Proof.
  intros Hi H. revert j'. induction H as [x|x y z Hm H IH]; intros j' Hj'.
  - left. exists j'. split; [done|apply carried_refl].
  - pose proof (refs_micro _ _ _ Hm) as Hr. destruct (IH ltac:(by eapply inv_micro) j' Hj') as [(j & Hj & Hc)|Hn]; [|right; lia].
    destruct (job_micro acc x y j Hi Hm Hj) as [(k & Hk & Hkc)|[Hn _]].
    + left. exists k. split; [done|by eapply carried_trans].
    + right. by rewrite (sj_ref _ _ (ca_same _ _ Hc)).
Qed.

(** A board entry keeps its key and moves along its life cycle while its board is there. *)
Definition kept im' t w : Prop :=
  exists t' w', t' ∈ im_teams im' /\ w' ∈ tm_work t' /\ tm_ref t' = tm_ref t /\ same_entry w w' /\
    rtc work_step (progress w) (progress w').
Lemma kept_same im' t t' w : t' ∈ im_teams im' -> tm_ref t' = tm_ref t -> w ∈ tm_work t' -> kept im' t w.
Proof. intros H1 H2 H3. by exists t', w. Qed.
Lemma kept_upd im im' r g t w :
  im_teams im' = im_teams (upd_team im r g) -> t ∈ im_teams im -> w ∈ tm_work t ->
  (tm_ref t = r -> tm_ref (g t) = tm_ref t /\
     exists w', w' ∈ tm_work (g t) /\ same_entry w w' /\ rtc work_step (progress w) (progress w')) ->
  kept im' t w.
Proof.
  intros E Ht Hw Hg. destruct (decide (tm_ref t = r)) as [Hr|Hr].
  - destruct (Hg Hr) as (H1 & w' & H2 & H3 & H4). exists (g t), w'. split; [|done].
    rewrite E. apply upd_team_elem. exists t. by rewrite decide_True.
  - apply (kept_same im' t t); [|done|done]. rewrite E. apply upd_team_elem. exists t. by rewrite decide_False.
Qed.
Lemma leader_progress acc w w' : leader_step acc w w' -> rtc work_step (progress w) (progress w').
Proof.
  unfold progress. intros [A1 A2 _|A1 A2 A3 A4|A1 A2 A3|A1 A2 A3 A4|_ A1 A2 A3]; rewrite ?A2.
  - by rewrite A1.
  - rewrite A3, A4. apply rtc_once, ws_close. destruct (tk_state (wk_snapshot w)); auto; done.
  - rewrite A1, A3. apply rtc_once, ws_refuse.
  - rewrite A3, A4. by apply rtc_once, ws_revise.
  - rewrite A1, A3. apply rtc_once, ws_accept.
Qed.
Lemma move_progress im r f j t w result :
  Inv o im -> job_at im r = Some j -> same_job j (f j) -> job_step (job_state j) (job_state (f j)) ->
  t ∈ im_teams im -> w ∈ tm_work t -> jb_team j = Some (tm_ref t) ->
  exists w', w' ∈ tm_work (update_team_job t (jb_snapshot (f j)) result) /\ same_entry w w' /\
    rtc work_step (progress w) (progress w').
Proof.
  intros Hi Hat Hs Hst Ht Hw Hj. exists (if of_job (jb_snapshot (f j)) w then follow (jb_snapshot (f j)) result w else w).
  destruct (follow_entry (jb_snapshot (f j)) result w) as (G1 & _ & G3 & G4).
  split; [rewrite update_team_job_work by (by apply (iv_teams _ _ Hi)); by apply list_elem_of_fmap; exists w|].
  destruct (of_job (jb_snapshot (f j)) w) eqn:E; [|by split]. split; [done|]. apply rtc_once.
  rewrite (moved_of_job f j Hs) in E. unfold progress.
  rewrite G3, G4, (sv_state _ _ _ (moved_entry o im r j Hi Hat t w Ht Hw Hj E)). by apply ws_run.
Qed.
Lemma work_micro acc im im' t w :
  Inv o im -> micro o acc im im' -> t ∈ im_teams im -> w ∈ tm_work t ->
  kept im' t w \/ (forall t', t' ∈ im_teams im' -> tm_ref t' <> tm_ref t).
Proof.
  intros Hi Hm Ht Hw.
  assert (Hu : forall x, x ∈ im_teams im -> tm_ref t = tm_ref x -> x = t)
    by (intros x Hx He; by apply (key_unique tm_ref (im_teams im)); [apply Hi|..]).
  assert (Hsame : im_teams im' = im_teams im -> kept im' t w) by (intros E; apply (kept_same im' t t); by rewrite ?E).
  destruct Hm; try (left; by apply Hsame); try (subst im'; left; by apply Hsame).
  - left. destruct (jb_team j) as [k|] eqn:Ek; [|by apply Hsame].
    eapply (kept_upd im im' k); [exact H2|done|done|]. intros Hk. split; [apply update_team_job_frame|].
    eapply (move_progress im r f j); eauto. congruence.
  - left. eapply kept_upd; [exact H1|done|done|]. intros Hr. pose proof (Hu t0 H9 Hr) as ->. split; [done|].
    apply list_elem_of_lookup in Hw as [k Hk]. destruct (decide (k = i)) as [->|Hn].
    + rewrite Hk in H10. injection H10 as ->. exists (set_task w0 (queue_task (wk_snapshot w0) (job_id j))).
      split; [apply list_elem_of_lookup; exists i; cbn; by rewrite list_lookup_alter_eq, Hk|]. split; [done|].
      unfold progress. cbn. rewrite H11. apply rtc_once, ws_queue.
    + exists w. split; [apply list_elem_of_lookup; exists k; cbn; by rewrite list_lookup_alter_ne|done].
  - subst im'. left. eapply kept_upd; [reflexivity|done|done|]. intros Hr. split; [done|].
    apply list_elem_of_lookup in Hw as [k Hk]. destruct (Forall2_lookup_l _ _ _ _ _ (H0 t Ht Hr) Hk) as (w' & Hk' & He & Hl).
    exists w'. split; [by eapply list_elem_of_lookup_2|]. split; [done|by eapply leader_progress].
  - subst im'. left. eapply kept_upd; [reflexivity|done|done|]. intros Hr. split; [done|]. exists w.
    split; [cbn; apply elem_of_app; by left|done].
  - left. apply (kept_same im' t t); [rewrite H2; apply elem_of_app; by left|done|done].
  - subst im'. destruct (decide (tm_ref t = tm_ref t0)) as [Hr|Hr].
    + right. cbn. intros t' [Hn _]%list_elem_of_filter. congruence.
    + left. apply (kept_same _ t t); [cbn; by apply list_elem_of_filter|done|done].
  - subst im'. left. eapply kept_upd; [reflexivity|done|done|]. intros Hr. pose proof (Hu t0 H Hr) as ->.
    split; [done|]. by exists w.
  - subst im'. left. eapply kept_upd; [reflexivity|done|done|]. intros Hr. pose proof (Hu t0 H Hr) as ->.
    split; [done|]. by exists w.
  - subst im'. left. eapply kept_upd; [reflexivity|done|done|]. intros Hr. split; [done|]. by exists w.
Qed.
Lemma teams_micro acc im im' t' :
  micro o acc im im' -> t' ∈ im_teams im' ->
  (exists t, t ∈ im_teams im /\ tm_ref t = tm_ref t') \/ im_refs im <= tm_ref t'.
Proof.
  intros Hm Ht'. assert (Hmap : forall r g, im_teams im' = im_teams (upd_team im r g) ->
    (forall t, tm_ref (g t) = tm_ref t \/ tm_ref (g t) = r) -> exists t, t ∈ im_teams im /\ tm_ref t = tm_ref t').
  { intros r g E Hg. rewrite E in Ht'. apply upd_team_elem in Ht' as (t & Ht & ->). exists t. split; [done|].
    destruct (decide _) as [Hr|]; [|done]. destruct (Hg t); congruence. }
  assert (Hsame : im_teams im' = im_teams im -> exists t, t ∈ im_teams im /\ tm_ref t = tm_ref t')
    by (intros E; rewrite E in Ht'; by exists t').
  destruct Hm; try (left; by apply Hsame); try (subst im'; left; by apply Hsame);
    try (subst im'; left; eapply Hmap; [reflexivity|intros; cbn; by auto]).
  - left. destruct (jb_team j) as [k|]; [|by apply Hsame]. eapply Hmap; [exact H2|]. intros t. left. apply update_team_job_frame.
  - left. eapply Hmap; [exact H1|]. by left.
  - rewrite H2 in Ht'. apply elem_of_app in Ht' as [Ht'|Ht'%list_elem_of_singleton]; [left; by exists t'|]. right. subst t'. lia.
  - subst im'. left. cbn in Ht'. apply list_elem_of_filter in Ht' as [_ Ht']. by exists t'.
Qed.
Lemma kept_trans im1 im2 t t1 w w1 :
  tm_ref t1 = tm_ref t -> same_entry w w1 -> rtc work_step (progress w) (progress w1) -> kept im2 t1 w1 -> kept im2 t w.
Proof.
  intros H1 [S1 S2 S3] H3 (t2 & w2 & G1 & G2 & G3 & [K1 K2 K3] & G5). exists t2, w2. split; [done|]. split; [done|].
  split; [congruence|]. split; [split; congruence|]. by etransitivity.
Qed.
Lemma gone_evolves acc im im' r :
  r < im_refs im -> evolves acc im im' -> (forall t, t ∈ im_teams im -> tm_ref t <> r) ->
  forall t, t ∈ im_teams im' -> tm_ref t <> r.
Proof.
  intros Hlt H. induction H as [x|x y z Hm H IH]; intros Hg; [done|].
  pose proof (refs_micro _ _ _ Hm). apply IH; [lia|]. intros t Ht.
  destruct (teams_micro acc x y t Hm Ht) as [(t1 & Ht1 & <-)|]; [by apply Hg|lia].
Qed.
Lemma work_evolution acc im im' t w :
  Inv o im -> evolves acc im im' -> t ∈ im_teams im -> w ∈ tm_work t ->
  kept im' t w \/ (forall t', t' ∈ im_teams im' -> tm_ref t' <> tm_ref t).
Proof.
  intros Hi H. revert t w. induction H as [x|x y z Hm H IH]; intros t w Ht Hw.
  - left. by apply (kept_same x t t).
  - assert (Hi1 : Inv o y) by (by eapply inv_micro).
    destruct (work_micro acc x y t w Hi Hm Ht Hw) as [(t1 & w1 & H1 & H2 & H3 & H4 & H5)|Hn].
    + destruct (IH Hi1 t1 w1 H1 H2) as [Hk|Hn]; [|right; by rewrite <- H3].
      left. by eapply (kept_trans y).
    + right. eapply gone_evolves; [|exact H|exact Hn]. pose proof (iv_tnew _ _ Hi t Ht). pose proof (refs_micro _ _ _ Hm). lia.
Qed.

(** ** Progress *)
(** An entry that no pump would hand to the queue. *)
Definition blocked t w : Prop := tk_state (wk_snapshot w) <> tt_waiting \/ ready t (wk_snapshot w) = false.
Definition blocked_at im r i : Prop :=
  forall t w, t ∈ im_teams im -> tm_ref t = r -> tm_work t !! i = Some w -> blocked t w.

Lemma unfinished_zero im : unfinished im = 0 <-> forall j, j ∈ im_jobs im -> task_terminal (job_state j) = true.
Proof.
  unfold unfinished. split.
  - intros H j Hj. apply length_zero_iff_nil in H. destruct (task_terminal (job_state j)) eqn:E; [done|].
    assert (Hin : j ∈ filter (fun j => task_terminal (job_state j) = false) (im_jobs im)) by (by apply list_elem_of_filter).
    rewrite H in Hin. by apply not_elem_of_nil in Hin.
  - intros H. apply length_zero_iff_nil. destruct (filter _ _) as [|j l] eqn:E; [done|].
    assert (Hin : j ∈ filter (fun j => task_terminal (job_state j) = false) (im_jobs im)) by (rewrite E; left).
    apply list_elem_of_filter in Hin as [H1 H2]. rewrite (H j H2) in H1. done.
Qed.
Lemma idle_boards im t member : Inv o im -> unfinished im = 0 -> t ∈ im_teams im -> has_active_work t member = false.
Proof.
  intros Hi Hu Ht. apply not_true_iff_false. intros (w & Hw%list_elem_of_In & [_ Ha]%andb_true_iff)%existsb_exists.
  destruct (iv_down _ _ Hi t w Ht Hw Ha) as (j & Hj & Hs). rewrite unfinished_zero in Hu.
  by rewrite (sv_state _ _ _ Hs), active_board, (Hu j Hj) in Ha.
Qed.
Lemma find_member_some t name : name ∈ map member_name (tm_members t) -> is_Some (find_member t name).
Proof.
  intros (m & -> & Hm)%list_elem_of_fmap. unfold find_member. destruct (list_find _ _) as [[i x]|] eqn:E; [by eexists|].
  apply list_find_None in E. rewrite Forall_forall in E. by apply E in Hm.
Qed.
Lemma unfinished_prune im : unfinished (prune im) = unfinished im.
Proof.
  unfold unfinished, prune. cbn [im_jobs set_jobs]. apply count_filter_eq. intros j _ H1 H2.
  apply not_false_iff_true in H1. unfold prunable in H1. by rewrite H2 in H1.
Qed.

(** A failed entry leaves every other one as blocked as it was. *)
Lemma ready_fail t i e k :
  (forall w, tm_work t !! i = Some w -> tk_state (wk_snapshot w) = tt_waiting) ->
  ready (set_work t (alter (fun w => set_task w (fail_task (wk_snapshot w) e)) i (tm_work t))) k = ready t k.
Proof.
  intros Hw. unfold ready. apply eq_true_iff_eq. rewrite !forallb_forall.
  assert (H : forall key, existsb (fun w => bool_decide (work_key w = key) && bool_decide (tk_state (wk_snapshot w) = tt_accepted))
      (alter (fun w => set_task w (fail_task (wk_snapshot w) e)) i (tm_work t)) =
    existsb (fun w => bool_decide (work_key w = key) && bool_decide (tk_state (wk_snapshot w) = tt_accepted)) (tm_work t)).
  { intros key. revert Hw. generalize (tm_work t) as ws. revert i. intros i ws. revert i. induction ws as [|w ws IH]; intros [|i] Hw; try done; cbn.
    - rewrite (Hw w eq_refl). cbn. by rewrite !andb_false_r.
    - f_equal. by apply IH. }
  cbn [tm_work set_work]. split; intros Hk d Hd; specialize (Hk d Hd); [by rewrite <- H|by rewrite H].
Qed.

Lemma waiting_pos t (l : list (Team Sess)) : t ∈ l -> waiting_work t <= sum_list (map waiting_work l).
Proof.
  induction l as [|x l IH]; intros Ht; [by apply not_elem_of_nil in Ht|]. cbn [map]. rewrite sum_list_cons.
  apply elem_of_cons in Ht as [->|Ht]; [lia|]. specialize (IH Ht). lia.
Qed.
(** With nothing to run, the reserved record of a waiting entry is there for it. *)
Lemma idle_capacity im t w :
  Inv o im -> 0 < max_running o -> im_closed im = false -> unfinished im = 0 -> t ∈ im_teams im -> w ∈ tm_work t ->
  tk_state (wk_snapshot w) = tt_waiting -> (has_capacity true im).1 = true.
Proof.
  intros Hi Hmax Hcl Hu Ht Hw Hs. unfold has_capacity, has_record_capacity. cbn [fst].
  change (im_closed (prune im)) with (im_closed im). change (waiting (prune im)) with (waiting im).
  change (im_options (prune im)) with (im_options im). rewrite unfinished_prune, Hu, Hcl, (iv_options _ _ Hi).
  assert (Hpos : 0 < waiting im).
  { pose proof (waiting_pos t _ Ht) as H. unfold waiting. assert (0 < waiting_work t); [|lia]. unfold waiting_work.
    assert (Hin : w ∈ filter (fun w => tk_state (wk_snapshot w) = tt_waiting) (tm_work t)) by (by apply list_elem_of_filter).
    destruct (filter _ _); [by apply not_elem_of_nil in Hin|simpl; lia]. }
  rewrite (proj2 (Nat.ltb_lt 0 (waiting im)) Hpos). cbn [negb andb]. apply andb_true_iff.
  pose proof (iv_records _ _ Hi). pose proof (length_filter (fun j => prunable im j = false) (im_jobs im)) as Hl.
  split; apply Nat.ltb_lt; [unfold prune; cbn [im_jobs set_jobs]; lia|lia].
Qed.

(** The outcome of one round while no job is unfinished afterwards: nothing, or a failed entry. *)
Lemma schedule_work_idle team i im :
  Inv o im -> 0 < max_running o -> im_closed im = false -> unfinished (schedule_work random_id dump team i im).2 = 0 ->
  let '(more, im') := schedule_work random_id dump team i im in
  more = true /\ unfinished im = 0 /\ im_closed im' = false /\ blocked_at im' team i /\
  (forall r k, blocked_at im r k -> blocked_at im' r k).
Proof.
  intros Hi Hmax Hcl. unfold schedule_work. destruct (team_at im team) as [t|] eqn:Et; cbn [fst snd].
  2: { intros Hu. repeat split; try done. intros t w Ht Hr. exfalso.
       by apply (find_none (P := fun t => tm_ref t = team) _ Et t Ht). }
  pose proof (team_at_in _ _ _ Et) as [Ht Hr].
  assert (Hone : forall x, x ∈ im_teams im -> tm_ref x = team -> x = t)
    by (intros x Hx Hxr; apply (key_unique tm_ref (im_teams im)); [apply Hi|done..|congruence]).
  destruct (tm_work t !! i) as [w|] eqn:Ew; cbn [fst snd].
  2: { intros Hu. repeat split; try done. intros x w Hx Hxr Hw. rewrite (Hone x Hx Hxr) in Hw. congruence. }
  assert (Hw : w ∈ tm_work t) by (by eapply list_elem_of_lookup_2).
  assert (Hself : blocked t w -> blocked_at im team i).
  { intros Hb x v Hx Hxr Hv. rewrite (Hone x Hx Hxr) in *. rewrite Ew in Hv. by injection Hv as <-. }
  destruct (negb (bool_decide _) || negb (ready t _)) eqn:Eb; cbn [fst snd].
  { intros Hu. repeat split; try done. apply Hself. apply orb_true_iff in Eb as [E|E]; apply negb_true_iff in E;
      [left; by apply bool_decide_eq_false in E|by right]. }
  apply orb_false_iff in Eb as [Ewt Erd]. apply negb_false_iff in Ewt, Erd. apply bool_decide_eq_true in Ewt.
  destruct (find_member_some t _ (to_assigned t (iv_teams _ _ Hi t Ht) w Hw)) as [m ->].
  destruct (has_active_work t (tk_member (wk_snapshot w))) eqn:Ea; cbn [fst snd].
  { intros Hu. by rewrite (idle_boards im t _ Hi Hu Ht) in Ea. }
  pose proof (idle_capacity im t w Hi Hmax Hcl) as Hcap.
  pose proof (has_capacity_spec true im) as [Hc _]. destruct (has_capacity true im) as [capacity im1]. cbn in Hc, Hcap. subst im1.
  destruct capacity; cbn [negb].
  2: { cbn [fst snd]. rewrite unfinished_prune. intros Hu. by specialize (Hcap Hu Ht Hw Ewt). }
  assert (Hfail : forall im' e, im_teams im' = im_teams im -> im_closed im' = false -> unfinished im' = unfinished im ->
    unfinished (upd_work im' team i (fun k => fail_task k e)) = 0 ->
    true = true /\ unfinished im = 0 /\ im_closed (upd_work im' team i (fun k => fail_task k e)) = false /\
    blocked_at (upd_work im' team i (fun k => fail_task k e)) team i /\
    (forall r k, blocked_at im r k -> blocked_at (upd_work im' team i (fun k => fail_task k e)) r k)).
  { intros im' e E1 E2 E3 Hu. split; [done|]. split; [by rewrite <- E3|]. split; [done|].
    assert (Hel : forall x, x ∈ im_teams (upd_work im' team i (fun k => fail_task k e)) ->
      (x ∈ im_teams im /\ tm_ref x <> team) \/
      x = set_work t (alter (fun w => set_task w (fail_task (wk_snapshot w) e)) i (tm_work t))).
    { intros x Hx. apply upd_team_elem in Hx as (y & Hy & ->). rewrite E1 in Hy. destruct (decide (tm_ref y = team)) as [Hyr|];
        [right; by rewrite (Hone y Hy Hyr)|by left]. }
    split.
    - intros x v Hx Hxr Hv. destruct (Hel x Hx) as [[_ Hn]| ->]; [done|]. cbn in Hv. rewrite list_lookup_alter_eq, Ew in Hv.
      injection Hv as <-. by left.
    - intros r k Hb x v Hx Hxr Hv. destruct (Hel x Hx) as [[Hin Hn]| ->]; [by apply (Hb x v)|]. cbn in Hv.
      destruct (decide (i = k)) as [->|Hn].
      + rewrite list_lookup_alter_eq, Ew in Hv. injection Hv as <-. by left.
      + rewrite list_lookup_alter_ne in Hv by done. destruct (Hb t v Ht Hxr Hv) as [?|Hrd]; [by left|]. right.
        rewrite ready_fail; [done|]. intros y Hy. rewrite Ew in Hy. by injection Hy as <-. }
  cbn [generate]. destruct (random_id (im_draws (prune im))) as [id|e]; cbn [allocate].
  - set (im3 := set_counts (set_counts (prune im) _ _ _ _ _) _ _ _ _ _). set (j := team_job _ _ _ _ _ _ _).
    pose proof (enqueue_spec j im3) as He. destruct (enqueue j im3) as [[[]|e] im'].
    + destruct He as (-> & _). cbn [fst snd]. rewrite unfinished_zero. intros Hu.
      specialize (Hu (arm j (im_steady im3 + bg_timeout (im_options im3)))). exfalso.
      assert (task_terminal (job_state j) = true); [|done]. apply Hu. cbn. apply elem_of_app. right. by apply list_elem_of_singleton.
    + subst im'. apply Hfail; [done|done|]. rewrite unfinished_prune. apply unfinished_prune.
  - apply Hfail; [done|done|]. apply unfinished_prune.
Qed.

(** What scheduling leaves alone. *)
Definition outline t : nat * bool * nat := (tm_ref t, tm_stopped t, length (tm_work t)).
Definition framed im im' : Prop :=
  im_closed im' = im_closed im /\ map outline (im_teams im') = map outline (im_teams im).
Lemma enqueue_frame j im : framed im (enqueue j im).2.
Proof. pose proof (enqueue_spec j im) as H. destruct (enqueue j im) as [[[]|e] im']; [by destruct H as [-> _]|by subst]. Qed.
Lemma upd_work_frame im team i g : framed im (upd_work im team i g).
Proof.
  split; [done|]. unfold upd_work. apply map_refs. intros t. unfold outline. cbn. by rewrite length_alter.
Qed.
Lemma framed_trans im1 im2 im3 : framed im1 im2 -> framed im2 im3 -> framed im1 im3.
Proof. intros [H1 H2] [H3 H4]. split; congruence. Qed.
Lemma schedule_work_frame team i im : framed im (schedule_work random_id dump team i im).2.
Proof.
  unfold schedule_work. destruct (team_at im team) as [t|]; [|done]. destruct (tm_work t !! i) as [w|]; [|done].
  destruct (_ || _); [done|]. destruct (find_member _ _) as [m|]; [|done]. destruct (has_active_work _ _); [done|].
  pose proof (has_capacity_spec true im) as [Hc _]. destruct (has_capacity true im) as [capacity im1]. cbn in Hc. subst im1.
  destruct (negb capacity); [done|]. cbn [generate]. destruct (random_id _) as [id|e].
  - cbn [allocate]. set (im3 := set_counts (set_counts (prune im) _ _ _ _ _) _ _ _ _ _). set (j := team_job _ _ _ _ _ _ _).
    pose proof (enqueue_frame j im3) as H. change (framed im3) with (framed im) in H.
    destruct (enqueue j im3) as [[[]|e] im']; (eapply framed_trans; [exact H|apply upd_work_frame]).
  - cbn [snd]. apply (upd_work_frame (set_counts (prune im) _ _ _ _ _)).
Qed.
Lemma schedule_team_frame team ixs im : framed im (schedule_team random_id dump team ixs im).2.
Proof.
  revert im. induction ixs as [|i ixs IH]; intros im; [done|]. cbn [schedule_team].
  pose proof (schedule_work_frame team i im) as H. destruct (schedule_work _ _ _ _ im) as [[] im1]; [|done].
  eapply framed_trans; [exact H|apply IH].
Qed.
Lemma pump_teams_loop_frame ts im : framed im (pump_teams_loop random_id dump ts im).
Proof.
  revert im. induction ts as [|t ts IH]; intros im; [done|]. cbn [pump_teams_loop]. destruct (tm_stopped t); [apply IH|].
  pose proof (schedule_team_frame (tm_ref t) (seq 0 (length (tm_work t))) im) as H.
  destruct (schedule_team _ _ _ _ im) as [[] im1]; [|done]. eapply framed_trans; [exact H|apply IH].
Qed.

Lemma schedule_team_idle team ixs im :
  Inv o im -> 0 < max_running o -> im_closed im = false -> unfinished (schedule_team random_id dump team ixs im).2 = 0 ->
  let '(more, im') := schedule_team random_id dump team ixs im in
  more = true /\ unfinished im = 0 /\ (forall i, i ∈ ixs -> blocked_at im' team i) /\
  (forall r k, blocked_at im r k -> blocked_at im' r k).
Proof.
  intros Hi Hmax. revert im Hi. induction ixs as [|i ixs IH]; intros im Hi Hcl; cbn [schedule_team].
  { intros Hu. repeat split; try done. intros i Hi'. by apply not_elem_of_nil in Hi'. }
  pose proof (schedule_work_idle team i im Hi Hmax Hcl) as Hw. pose proof (schedule_work_evolves team i im Hi) as Hev.
  pose proof (schedule_work_frame team i im) as [Hcl1 _].
  destruct (schedule_work random_id dump team i im) as [more im1]. cbn [snd] in *.
  assert (Hi1 := evolves_inv _ _ _ Hi Hev). rewrite Hcl in Hcl1.
  destruct more; [|intros Hu; by destruct (Hw Hu) as [? _]].
  intros Hu. specialize (IH im1 Hi1 Hcl1 Hu). destruct (schedule_team random_id dump team ixs im1) as [more im2].
  destruct IH as (H1 & H2 & H3 & H4). destruct (Hw H2) as (_ & G1 & _ & G2 & G3). repeat split; try done.
  - intros k [->|Hk]%elem_of_cons; [by apply H4|by apply H3].
  - intros r k Hb. by apply H4, G3.
Qed.
Lemma pump_teams_idle ts im :
  Inv o im -> 0 < max_running o -> im_closed im = false -> unfinished (pump_teams_loop random_id dump ts im) = 0 ->
  unfinished im = 0 /\
  (forall t i, t ∈ ts -> tm_stopped t = false -> i < length (tm_work t) ->
     blocked_at (pump_teams_loop random_id dump ts im) (tm_ref t) i) /\
  (forall r k, blocked_at im r k -> blocked_at (pump_teams_loop random_id dump ts im) r k).
Proof.
  intros Hi Hmax. revert im Hi. induction ts as [|t ts IH]; intros im Hi Hcl; cbn [pump_teams_loop].
  { intros Hu. repeat split; try done. intros t i Ht. by apply not_elem_of_nil in Ht. }
  destruct (tm_stopped t) eqn:Es.
  { intros Hu. destruct (IH im Hi Hcl Hu) as (H1 & H2 & H3). repeat split; try done.
    intros x i [->|Hx]%elem_of_cons Hxs; [congruence|by apply H2]. }
  pose proof (schedule_team_idle (tm_ref t) (seq 0 (length (tm_work t))) im Hi Hmax Hcl) as Hw.
  pose proof (schedule_team_evolves (tm_ref t) (seq 0 (length (tm_work t))) im Hi) as Hev.
  pose proof (schedule_team_frame (tm_ref t) (seq 0 (length (tm_work t))) im) as [Hcl1 _].
  destruct (schedule_team random_id dump (tm_ref t) _ im) as [more im1]. cbn [snd] in *.
  assert (Hi1 := evolves_inv _ _ _ Hi Hev). rewrite Hcl in Hcl1.
  destruct more; [|intros Hu; by destruct (Hw Hu) as [? _]].
  intros Hu. destruct (IH im1 Hi1 Hcl1 Hu) as (H1 & H2 & H3). destruct (Hw H1) as (_ & G1 & G2 & G3). repeat split; try done.
  - intros x i [->|Hx]%elem_of_cons Hxs Hlt; [|by apply H2]. apply H3, G2, elem_of_seq. lia.
  - intros r k Hb. by apply H3, G3.
Qed.

(** After the launches, a job that is not over means a job that runs. *)
Lemma never_queued_again s s' : rtc job_step s s' -> s <> ts_queued -> s' <> ts_queued.
Proof.
  induction 1 as [|x y z Hs _ IH]; [done|]. intros _. apply IH. intros ->. inversion Hs; subst; try discriminate; naive_solver.
Qed.
Lemma launch_refs r im : map jb_ref (im_jobs (launch r im)) = map jb_ref (im_jobs im) /\ im_closed (launch r im) = im_closed im.
Proof.
  unfold launch. destruct (job_at im r) as [j|]; [|done]. destruct (negb _); [done|].
  change (create_group one_task) with (Ok (mkGroup one_task (AsyncChannel.create 1) [] [] 0 0 false false false)).
  cbv iota. destruct (spawn _ _ _) as [started g]. cbn [im_jobs im_closed set_counts]. rewrite publish_jobs.
  split; [by apply map_job_keys|by destruct (jb_team j)].
Qed.
Lemma launch_runs r im j' :
  Inv o im -> im_active im < max_running o -> j' ∈ im_jobs (launch r im) -> jb_ref j' = r -> job_state j' <> ts_queued.
Proof.
  intros Hi Hlt. unfold launch. destruct (job_at im r) as [j|] eqn:E.
  2: { intros Hj Hr. by destruct (find_none (P := fun j => jb_ref j = r) _ E j' Hj). }
  destruct (negb _) eqn:Eq.
  { intros Hj Hr. bool_prop. destruct (job_at_in _ _ _ E) as [Hin Hjr].
    assert (j' = j) as ->; [|done]. apply (key_unique jb_ref (im_jobs im)); [apply Hi|done..|congruence]. }
  change (create_group one_task) with (Ok (mkGroup one_task (AsyncChannel.create 1) [] [] 0 0 false false false)).
  cbv iota. destruct (spawn _ _ _) as [started g]. cbn [im_jobs set_counts]. rewrite publish_jobs.
  intros Hj Hr. apply (move_elem o im r _ j j' Hi E) in Hj as [->|[_ Hn]]; done.
Qed.
Lemma launch_loop_refs rs im :
  map jb_ref (im_jobs (launch_loop rs im)) = map jb_ref (im_jobs im) /\ im_closed (launch_loop rs im) = im_closed im.
Proof.
  revert im. induction rs as [|r rs IH]; intros im; [done|]. cbn [launch_loop]. destruct (_ <=? _); [done|].
  destruct (IH (launch r im)) as [-> ->]. apply launch_refs.
Qed.
Lemma launch_loop_runs rs im :
  Inv o im -> max_running o <= im_active (launch_loop rs im) \/
  forall j, j ∈ im_jobs (launch_loop rs im) -> jb_ref j ∈ rs -> job_state j <> ts_queued.
Proof.
  revert im. induction rs as [|r rs IH]; intros im Hi; [right; intros j _ Hj; by apply not_elem_of_nil in Hj|].
  cbn [launch_loop]. rewrite (iv_options _ _ Hi). destruct (max_running o <=? im_active im) eqn:E.
  { left. by apply Nat.leb_le. }
  apply Nat.leb_gt in E. pose proof (launch_evolves r im Hi E) as Hev. assert (Hi1 := evolves_inv _ _ _ Hi Hev).
  destruct (IH _ Hi1) as [H|H]; [by left|right]. intros j Hj [Hr|Hr]%elem_of_cons; [|by apply H].
  destruct (job_origin false _ _ j Hi1 (launch_loop_evolves rs _ Hi1) Hj) as [(k & Hk & Hc)|Hn].
  - apply (never_queued_again _ _ (ca_steps _ _ Hc)). apply (launch_runs r im); try done.
    by rewrite <- (sj_ref _ _ (ca_same _ _ Hc)).
  - exfalso. pose proof (refs_evolves false _ _ Hev). assert (Hex : jb_ref j ∈ map jb_ref (im_jobs (launch_loop rs (launch r im)))) by (by apply list_elem_of_fmap_2).
    rewrite (proj1 (launch_loop_refs _ _)) in Hex. apply list_elem_of_fmap in Hex as (x & Hx & Hxin). pose proof (iv_jnew _ _ Hi1 x Hxin). lia.
Qed.
Lemma busy_active im j : Inv o im -> j ∈ im_jobs im -> task_terminal (job_state j) = false -> job_state j <> ts_queued ->
  0 < im_active im.
Proof. intros Hi Hj Ht Hq. apply (count_busy_pos im j Hi Hj). by destruct (job_state j). Qed.
Lemma launches_busy im :
  Inv o im -> 0 < max_running o -> let im' := launch_loop (map jb_ref (im_jobs im)) im in
  unfinished im' = 0 \/ 0 < im_active im'.
Proof.
  intros Hi Hmax im'. assert (Hi' := evolves_inv _ _ _ Hi (launch_loop_evolves (map jb_ref (im_jobs im)) im Hi)).
  destruct (launch_loop_runs (map jb_ref (im_jobs im)) im Hi) as [H|H]; [right; unfold im'; lia|].
  destruct (decide (unfinished im' = 0)) as [|Hn]; [by left|right].
  destruct (filter (fun j => task_terminal (job_state j) = false) (im_jobs im')) as [|j l] eqn:E.
  { destruct Hn. unfold unfinished. by rewrite E. }
  assert (Hin : j ∈ filter (fun j => task_terminal (job_state j) = false) (im_jobs im')) by (rewrite E; left).
  apply list_elem_of_filter in Hin as [Ht Hin]. apply (busy_active im' j); [done..|]. apply H; [done|].
  rewrite <- (proj1 (launch_loop_refs (map jb_ref (im_jobs im)) im)). by apply list_elem_of_fmap_2.
Qed.
(** When nothing is unfinished afterwards, nothing was launched. *)
Lemma launch_idle r im : Inv o im -> unfinished (launch r im) = 0 -> launch r im = im.
Proof.
  intros Hi. unfold launch. destruct (job_at im r) as [j|] eqn:E; [|done]. destruct (negb _); [done|].
  change (create_group one_task) with (Ok (mkGroup one_task (AsyncChannel.create 1) [] [] 0 0 false false false)).
  cbv iota. destruct (spawn _ _ _) as [started g]. set (f := fun x : Job Sess => start_running x _ _ _).
  rewrite unfinished_zero. intros Hu. specialize (Hu (f j)). exfalso. assert (task_terminal (job_state (f j)) = true); [|done].
  apply Hu. cbn [im_jobs set_counts]. rewrite publish_jobs. apply (move_elem o im r f j); auto.
Qed.
Lemma launch_loop_idle rs im : Inv o im -> unfinished (launch_loop rs im) = 0 -> launch_loop rs im = im.
Proof.
  revert im. induction rs as [|r rs IH]; intros im Hi; [done|]. cbn [launch_loop].
  destruct (max_running (im_options im) <=? im_active im) eqn:E; [done|]. apply Nat.leb_gt in E.
  rewrite (iv_options _ _ Hi) in E. assert (Hi1 := evolves_inv _ _ _ Hi (launch_evolves r im Hi E)).
  intros Hu. pose proof (IH _ Hi1 Hu) as E'. rewrite E' in Hu. rewrite E'. by apply launch_idle.
Qed.

(** Work the service could start now. *)
Definition pending im : Prop :=
  (exists j, j ∈ im_jobs im /\ job_state j = ts_queued) \/
  (exists t w, t ∈ im_teams im /\ w ∈ tm_work t /\ tm_stopped t = false /\ tk_state (wk_snapshot w) = tt_waiting /\
     ready t (wk_snapshot w) = true /\ has_active_work t (tk_member (wk_snapshot w)) = false).
Definition stirring im : Prop := 0 < im_pumps im \/ 0 < im_active im.
Definition live im : Prop := im_closed im = false -> pending im -> stirring im.

Lemma pump_runs im :
  Inv o im -> 0 < max_running o -> im_closed (pump random_id dump im) = false -> pending (pump random_id dump im) ->
  0 < im_active (pump random_id dump im).
Proof.
  intros Hi Hmax. unfold pump, pump_teams. destruct (im_closed im) eqn:Hcl; [intros H; by rewrite Hcl in H|].
  set (im1 := pump_teams_loop random_id dump (im_teams im) im).
  assert (Hi1 : Inv o im1) by (by eapply evolves_inv, pump_teams_loop_evolves).
  set (im2 := launch_loop (map jb_ref (im_jobs im1)) im1).
  assert (Hi2 : Inv o im2) by (by eapply evolves_inv, launch_loop_evolves).
  intros _ Hp. destruct (launches_busy im1 Hi1 Hmax) as [Hz|]; [|done]. exfalso. fold im2 in Hz.
  assert (E : im2 = im1) by (by apply launch_loop_idle). rewrite E in *.
  destruct (pump_teams_idle (im_teams im) im Hi Hmax Hcl Hz) as (_ & Hb & _). fold im1 in Hb.
  destruct Hp as [(j & Hj & Hq)|(t & w & Ht & Hw & Hns & Hs & Hrd & _)].
  - rewrite unfinished_zero in Hz. specialize (Hz j Hj). by rewrite Hq in Hz.
  - destruct (pump_teams_loop_frame (im_teams im) im) as [_ Hf]. fold im1 in Hf.
    assert (Hin : outline t ∈ map outline (im_teams im)) by (rewrite <- Hf; by apply list_elem_of_fmap_2).
    apply list_elem_of_fmap in Hin as (x & Hx & Hxin). injection Hx as Hx1 Hx2 Hx3.
    apply list_elem_of_lookup in Hw as [i Hw]. pose proof (lookup_lt_Some _ _ _ Hw).
    destruct (Hb x i Hxin ltac:(congruence) ltac:(lia) t w Ht Hx1 Hw) as [?|?]; congruence.
Qed.
Lemma pump_live im : Inv o im -> 0 < max_running o -> live (pump random_id dump im).
Proof. intros Hi Hm Hc Hp. right. by apply pump_runs. Qed.
Lemma live_stirring im im' : live im -> pending im -> im_closed im = false -> im_pumps im <= im_pumps im' -> im_active im <= im_active im' -> stirring im'.
Proof. intros Hl Hp Hc H1 H2. destruct (Hl Hc Hp); [left|right]; lia. Qed.

Lemma cancel_job_frame r timeout im :
  im_closed (cancel_job r timeout im) = im_closed im /\ im_pumps (cancel_job r timeout im) = im_pumps im /\
  im_active (cancel_job r timeout im) = im_active im /\ im_shutdown (cancel_job r timeout im) = im_shutdown im /\
  im_joining (cancel_job r timeout im) = im_joining im.
Proof.
  unfold cancel_job. destruct (job_at im r) as [j|]; [|done]. destruct (_ || _); [by destruct timeout|].
  destruct (bool_decide _); cbn; match goal with |- context [publish ?a ?b ?c ?d] =>
    destruct (publish_frame a b c d) as (_ & H1 & _ & _ & H2 & H3 & H4 & H5) end; by rewrite H1, H2, H3, H4, H5.
Qed.
Lemma cancel_job_live r timeout im : Inv o im -> live im -> live (cancel_job r timeout im).
Proof.
  intros Hi Hl Hc Hp. destruct (cancel_job_frame r timeout im) as (F1 & F2 & F3 & _). rewrite F1 in Hc.
  unfold cancel_job in *. destruct (job_at im r) as [j|] eqn:E; [|by apply Hl]. destruct (job_at_in _ _ _ E) as [Hj _].
  destruct (task_terminal (job_state j) || bool_decide (job_state j = ts_cancelling)) eqn:Ed.
  - destruct timeout; [by apply Hl|]. eapply (live_stirring im); [done| |done|done|done].
    destruct Hp as [(j' & Hj' & Hq)|Hp]; [left|by right]. apply upd_job_elem in Hj' as (x & Hx & ->). exists x.
    split; [done|]. by destruct (decide _).
  - apply orb_false_iff in Ed as [Et Ec]. bool_prop. destruct (decide (job_state j = ts_queued)) as [Hq|Hq].
    + eapply (live_stirring im); [done| |done|lia|lia]. left. by exists j.
    + right. rewrite F3. by apply (busy_active im j).
Qed.
Lemma cancel_all_live p im : Inv o im -> live im -> live (cancel_all p im) /\ im_closed (cancel_all p im) = im_closed im.
Proof.
  unfold cancel_all. generalize (im_jobs im) as l. intros l. revert im. induction l as [|j l IH]; intros im Hi Hl; [done|].
  cbn [fold_left]. destruct (p j); [|by apply IH].
  assert (Hi1 := evolves_inv _ _ _ Hi (cancel_job_evolves (jb_ref j) false im Hi)).
  destruct (IH _ Hi1 (cancel_job_live _ _ _ Hi Hl)) as [H1 H2]. split; [done|]. rewrite H2. apply cancel_job_frame.
Qed.

Definition startable t w : Prop :=
  tm_stopped t = false /\ tk_state (wk_snapshot w) = tt_waiting /\ ready t (wk_snapshot w) = true /\
  has_active_work t (tk_member (wk_snapshot w)) = false.
(** A change that gives the service nothing new to start. *)
Record calm im im' : Prop := {
  cm_closed : im_closed im' = im_closed im;
  cm_pumps : im_pumps im' = im_pumps im;
  cm_active : im_active im' = im_active im;
  cm_jobs : forall j', j' ∈ im_jobs im' -> job_state j' = ts_queued ->
    exists j, j ∈ im_jobs im /\ job_state j = ts_queued;
  cm_teams : forall t' w', t' ∈ im_teams im' -> w' ∈ tm_work t' -> startable t' w' ->
    exists t w, t ∈ im_teams im /\ w ∈ tm_work t /\ startable t w }.
Lemma calm_live im im' : calm im im' -> live im -> live im'.
Proof.
  intros [C1 C2 C3 C4 C5] Hl Hc Hp. rewrite C1 in Hc. unfold stirring. rewrite C2, C3. apply Hl; [done|].
  destruct Hp as [(j & Hj & Hq)|(t & w & Ht & Hw & Hs)]; [left; by apply (C4 j)|right].
  destruct (C5 t w Ht Hw Hs) as (x & v & Hx & Hv & Hsv). by exists x, v.
Qed.
Lemma calm_refl im : calm im im.
Proof. split; try done; [intros j ? ?; by exists j|intros t w ? ? ?; by exists t, w]. Qed.
Lemma calm_trans im1 im2 im3 : calm im1 im2 -> calm im2 im3 -> calm im1 im3.
Proof.
  intros [A1 A2 A3 A4 A5] [B1 B2 B3 B4 B5]. split; try congruence.
  - intros j Hj Hq. destruct (B4 j Hj Hq) as (x & Hx & Hxq). by apply (A4 x).
  - intros t w Ht Hw Hs. destruct (B5 t w Ht Hw Hs) as (x & v & Hx & Hv & Hsv). by apply (A5 x v).
Qed.
(** Only counters that no pump reads have changed. *)
Lemma calm_counts im im' :
  im_closed im' = im_closed im -> im_pumps im' = im_pumps im -> im_active im' = im_active im ->
  im_jobs im' = im_jobs im -> im_teams im' = im_teams im -> calm im im'.
Proof.
  intros H1 H2 H3 H4 H5. split; try done; rewrite ?H4, ?H5; [intros j ? ?; by exists j|intros t w ? ? ?; by exists t, w].
Qed.
Lemma calm_prune im : calm im (prune im).
Proof.
  split; try done.
  - intros j [_ Hj]%list_elem_of_filter Hq. by exists j.
  - intros t w Ht Hw Hs. by exists t, w.
Qed.
Lemma calm_job im r f : (forall j, job_state (f j) = job_state j) -> calm im (upd_job im r f).
Proof.
  intros Hf. split; try done.
  - intros j' (j & Hj & ->)%upd_job_elem Hq. exists j. split; [done|]. destruct (decide _); [by rewrite Hf in Hq|done].
  - intros t w Ht Hw Hs. by exists t, w.
Qed.
Lemma calm_team im r f :
  (forall t w, w ∈ tm_work (f t) -> startable (f t) w -> w ∈ tm_work t /\ startable t w) -> calm im (upd_team im r f).
Proof.
  intros Hf. split; try done.
  - intros j Hj Hq. by exists j.
  - intros t' w (t & Ht & ->)%upd_team_elem Hw Hs. destruct (decide _); [|by exists t, w]. exists t, w.
    destruct (Hf t w Hw Hs). done.
Qed.
Lemma calm_put im t' t : t ∈ im_teams im -> tm_work t' = tm_work t -> tm_stopped t' = tm_stopped t -> calm im (put_team im t').
Proof.
  intros Ht Hw Hs. split; try done; [intros j ? ?; by exists j|].
  intros x w Hx Hxw Hst. unfold put_team in Hx. apply upd_team_elem in Hx as (y & Hy & ->). destruct (decide _); [|by exists y, w].
  exists t, w. split; [done|]. split; [by rewrite <- Hw|]. unfold startable, ready, has_active_work in *. by rewrite <- Hw, <- Hs.
Qed.
Lemma drop_waiting_calm im r x : calm im (upd_team im r (fun t => set_work t (map (drop_waiting x) (tm_work t)))).
Proof.
  apply calm_team. intros t w' Hw' (S1 & S2 & S3 & S4). cbn in *. apply list_elem_of_fmap in Hw' as (w & -> & Hw).
  assert (E : drop_waiting x w = w).
  { unfold drop_waiting in *. destruct (_ && _); [done|done]. }
  rewrite E in *. split; [done|]. split; [done|]. split; [done|].
  assert (Hmap : forall v, work_key (drop_waiting x v) = work_key v /\
    tk_member (wk_snapshot (drop_waiting x v)) = tk_member (wk_snapshot v) /\
    bool_decide (tk_state (wk_snapshot (drop_waiting x v)) = tt_accepted) = bool_decide (tk_state (wk_snapshot v) = tt_accepted) /\
    team_task_active (tk_state (wk_snapshot (drop_waiting x v))) = team_task_active (tk_state (wk_snapshot v))).
  { intros v. unfold drop_waiting. destruct (_ && _) eqn:Ed; [|done]. bool_prop. cbn. rewrite H0. done. }
  split.
  - rewrite <- S3. unfold ready. cbn [tm_work set_work]. apply forallb_ext. intros d. clear -Hmap.
    induction (tm_work t) as [|v l IH]; [done|]. cbn. destruct (Hmap v) as (-> & _ & -> & _). by rewrite IH.
  - rewrite <- S4. unfold has_active_work. cbn [tm_work set_work]. clear -Hmap.
    induction (tm_work t) as [|v l IH]; [done|]. cbn. destruct (Hmap v) as (_ & -> & _ & ->). by rewrite IH.
Qed.
Lemma stop_team_live t im : Inv o im -> live im -> live (stop_team t im) /\ im_closed (stop_team t im) = im_closed im.
Proof.
  intros Hi Hl. unfold stop_team. set (im1 := upd_team im (tm_ref t) set_stopped).
  assert (H1 : Inv o im1).
  { eapply (evolves_inv false); [exact Hi|]. by apply rtc_once, (mu_stop o false im _ (tm_ref t)). }
  assert (Hl1 : live im1) by (apply (calm_live im); [by apply calm_team; intros x w Hw (? & _)|done]).
  destruct (cancel_all_live (team_jobs t) im1 H1 Hl1) as [H2 H3]. split; [|by rewrite <- (eq_refl : im_closed im1 = im_closed im), <- H3].
  eapply calm_live; [|exact H2]. apply calm_team. intros x w' Hw' (_ & S2 & _). cbn in Hw'.
  apply list_elem_of_fmap in Hw' as (w & -> & Hw). unfold stop_work in S2.
  destruct (negb (team_task_active (tk_state (wk_snapshot w))) && _) eqn:E; [done|].
  rewrite S2 in E. done.
Qed.

(** Calls that fail leave nothing new to start; calls that succeed pump. *)
Lemma add_team_member_calm parent spec (cx : DispatchContext A) t im :
  calm im (add_team_member random_id compile_error dump create_session parent spec cx t im).2.
Proof.
  unfold add_team_member. destruct (tm_stopped t); [apply calm_refl|]. destruct (_ || _); [apply calm_refl|].
  destruct (existsb _ _); [apply calm_refl|]. destruct (list_find _ _) as [[i name]|]; [apply calm_refl|]. cbn [generate].
  destruct (random_id _); [|by apply calm_counts]. destruct (copy_child_rules _ _); [|by apply calm_counts].
  by destruct (create_session _); apply calm_counts.
Qed.
Lemma add_members_calm parent specs (cx : DispatchContext A) t im :
  calm im (add_members random_id compile_error dump create_session parent specs cx t im).2.
Proof.
  revert t im. induction specs as [|spec specs IH]; intros t im; cbn [add_members]; [apply calm_refl|].
  pose proof (add_team_member_calm parent spec cx t im) as H.
  destruct (add_team_member _ _ _ _ parent spec cx t im) as [[t'|e] im1]; [|done]. eapply calm_trans; [exact H|apply IH].
Qed.
Lemma create_team_calm parent req (cx : DispatchContext A) im e :
  (create_team random_id compile_error dump create_session parent req cx im).1 = Err e ->
  calm im (create_team random_id compile_error dump create_session parent req cx im).2.
Proof.
  unfold create_team. destruct (match find_team _ im with Some t => negb (retirable t) | None => false end); [intros _; apply calm_refl|].
  destruct (_ || _); [intros _; apply calm_refl|]. cbn [generate]. destruct (random_id _); [|intros _; by apply calm_counts].
  cbn [allocate]. set (im2 := set_counts im _ _ _ _ _). set (im3 := set_counts im2 _ _ _ _ _).
  set (t0 := mkTeam _ _ _ _ _ _ _ _). pose proof (add_members_calm parent (cr_members req) cx t0 im3) as H.
  destruct (add_members _ _ _ _ parent _ cx t0 im3) as [[t|e'] im4]; [done|]. intros _.
  eapply calm_trans; [|exact H]. by apply calm_counts.
Qed.
Lemma submit_calm t req turn im e : (submit_team_task t req turn im).1 = Err e -> calm im (submit_team_task t req turn im).2.
Proof.
  unfold submit_team_task. destruct (tm_stopped t); [intros _; apply calm_refl|]. destruct (_ <=? _); [intros _; apply calm_refl|].
  destruct (existsb _ _); [intros _; apply calm_refl|]. destruct (negb _); [intros _; apply calm_refl|].
  destruct (list_find _ _) as [[i d]|]; [intros _; apply calm_refl|]. cbn. destruct (_ && _); [done|]. intros _. apply calm_prune.
Qed.
Lemma update_calm t req turn im e : (update_team_task t req turn im).1 = Err e -> calm im (update_team_task t req turn im).2.
Proof.
  unfold update_team_task. destruct (negb _); [intros _; apply calm_refl|]. destruct (find_work _ _) as [w|]; [|intros _; apply calm_refl].
  destruct (negb _); [intros _; apply calm_refl|]. destruct (bool_decide (tk_state _ = tt_accepted)).
  { destruct (bool_decide _); intros _; apply calm_refl. }
  destruct (up_action req).
  - destruct (tm_stopped t); [intros _; apply calm_refl|]. destruct (negb _); [intros _; apply calm_refl|done].
  - destruct (tm_stopped t); [intros _; apply calm_refl|]. destruct (_ && _); [intros _; apply calm_refl|].
    destruct (_ =? 3); [intros _; apply calm_refl|]. cbn. destruct (_ && _); [done|]. intros _. apply calm_prune.
  - done.
Qed.
Lemma apply_command_calm parent c (cx : DispatchContext A) im e :
  (apply_command random_id compile_error dump create_session parent c cx im).1.1 = Err e ->
  calm im (apply_command random_id compile_error dump create_session parent c cx im).2.
Proof.
  unfold apply_command. destruct (find_team (task_owner parent) im) as [t|].
  - destruct c as [req|spec|req|req|req| |req]; try done.
    + pose proof (create_team_calm parent req cx im e) as H. by destruct (create_team _ _ _ _ _ _ _ _).
    + pose proof (add_team_member_calm parent spec cx t im) as H. by destruct (add_team_member _ _ _ _ _ _ _ _ _) as [[?|?] ?].
    + pose proof (submit_calm t req (cx_parent_turn_id cx) im e) as H. by destruct (submit_team_task _ _ _ _).
    + pose proof (update_calm t req (cx_parent_turn_id cx) im e) as H. by destruct (update_team_task _ _ _ _).
  - destruct c as [req|spec|req|req|req| |req]; try (intros _; apply calm_refl).
    pose proof (create_team_calm parent req cx im e) as H. by destruct (create_team _ _ _ _ _ _ _ _).
Qed.
Lemma send_calm closed t sender req im :
  t ∈ im_teams im -> calm im (put_team im (send_team_message dump closed t sender req).2).
Proof.
  intros Ht. apply (calm_put im _ t); [done|..]; unfold send_team_message; repeat case_match; try done; by simplify_eq.
Qed.
Lemma team_command_live parent c (cx : DispatchContext A) im :
  Inv o im -> 0 < max_running o -> live im ->
  live (team_command random_id compile_error dump create_session parent c cx im).2.
Proof.
  intros Hi Hmax Hl. unfold team_command. destruct (negb (team_caller im parent cx)); [done|].
  destruct (validate_team_command c); [|done]. destruct (_ && _ && _); [done|].
  assert (Hsend : forall req, live (match find_team (task_owner parent) im with
      | None => (Err no_team, im)
      | Some t => let '(r, t) := send_team_message dump (im_closed im) t "leader" req in (r, put_team im t)
      end).2).
  { intros req. destruct (find_team _ im) as [t|] eqn:Ef; [|done]. apply find_team_in in Ef as [Ht _].
    pose proof (send_calm (im_closed im) t "leader" req im Ht) as Hs. destruct (send_team_message _ _ _ _ _).
    by apply (calm_live im). }
  pose proof (apply_command_evolves parent c cx im Hi) as Hev. pose proof (apply_command_calm parent c cx im) as Hcalm.
  assert (Hrest : live (match apply_command random_id compile_error dump create_session parent c cx im with
      | (Err e, _, im) => (Err e, im)
      | (Ok _, w, im) =>
          let im := if is_read c then im else pump random_id dump im in
          (match find_team (task_owner parent) im with
           | Some t => team_output dump t (bg_automatic (im_options im)) w | None => Err no_team end, im)
      end).2).
  { destruct (is_read c) eqn:Er.
    - destruct c; try done. unfold apply_command. by destruct (find_team _ im).
    - destruct (apply_command _ _ _ _ parent c cx im) as [[[[]|e] w] im']; cbn [fst snd] in *.
      + eapply pump_live; [by eapply evolves_inv|done].
      + by apply (calm_live im); [eapply Hcalm|]. }
  by destruct c.
Qed.
Lemma start_live parent req (cx : DispatchContext A) im :
  live im -> live (start random_id compile_error create_session parent req cx im).2.
Proof.
  intros Hl. unfold start. destruct (negb (delegates im parent)); [done|]. destruct (request_invalid req); [done|].
  assert (Hp := calm_live _ _ (calm_prune im) Hl). destruct (im_closed (prune im) || _ || _); [done|]. cbn [generate].
  set (im2 := set_counts (prune im) _ _ _ _ _). assert (H2 : live im2) by (by apply (calm_live (prune im)); [apply calm_counts|]).
  destruct (random_id _) as [id|e]; [|done]. destruct (existsb _ _); [done|]. destruct (copy_child_rules _ _); [|done].
  destruct (create_session _) as [child|e]; [|done]. cbn [allocate]. set (im3 := set_counts im2 _ _ _ _ _).
  set (j := run_job _ _ _ _ _ _ _). pose proof (enqueue_spec j im3) as He. destruct (enqueue j im3) as [[[]|e] im']; cbn [snd].
  - destruct He as [-> _]. intros _ _. left. cbn. lia.
  - subst im'. apply (calm_live im3); [apply calm_prune|]. by apply (calm_live im2); [apply calm_counts|].
Qed.
Lemma stop_teams_live ts im : Inv o im -> live im -> live (fold_left (fun im t => stop_team t im) ts im).
Proof.
  revert im. induction ts as [|t ts IH]; intros im Hi Hl; [done|]. cbn [fold_left].
  apply IH; [|by apply stop_team_live]. by eapply evolves_inv, stop_team_evolves.
Qed.
Lemma stop_teams_closed ts im : Inv o im -> im_closed (fold_left (fun im t => stop_team t im) ts im) = im_closed im.
Proof.
  revert im. induction ts as [|t ts IH]; intros im Hi; [done|]. cbn [fold_left].
  rewrite IH; [|by eapply evolves_inv, stop_team_evolves]. unfold stop_team. cbn [upd_team set_teams im_closed].
  unfold cancel_all. generalize (im_jobs (upd_team im (tm_ref t) set_stopped)) as l. intros l.
  change (im_closed im) with (im_closed (upd_team im (tm_ref t) set_stopped)). generalize (upd_team im (tm_ref t) set_stopped).
  induction l as [|j l IHl]; intros i; [done|]. cbn [fold_left]. destruct (team_jobs t j); [|by apply IHl].
  rewrite IHl. apply cancel_job_frame.
Qed.
Lemma cancel_all_closed p im : im_closed (cancel_all p im) = im_closed im.
Proof.
  unfold cancel_all. generalize (im_jobs im) as l. intros l. revert im.
  induction l as [|j l IH]; intros im; [done|]. cbn [fold_left]. destruct (p j); [|by apply IH].
  rewrite IH. apply cancel_job_frame.
Qed.
Lemma close_all_closed im : Inv o im -> im_closed (close_all im) = im_closed im.
Proof. intros Hi. unfold close_all. by rewrite cancel_all_closed, stop_teams_closed. Qed.
Lemma cancel_owner_live owner turn im : Inv o im -> live im -> live (cancel_owner owner turn im).
Proof.
  intros Hi Hl. unfold cancel_owner.
  assert (H : Inv o (match find_team owner im with
      | Some t => match turn with None => stop_team t im
                  | Some x => upd_team im (tm_ref t) (fun t => set_work t (map (drop_waiting x) (tm_work t))) end
      | None => im end) /\ live (match find_team owner im with
      | Some t => match turn with None => stop_team t im
                  | Some x => upd_team im (tm_ref t) (fun t => set_work t (map (drop_waiting x) (tm_work t))) end
      | None => im end)).
  { destruct (find_team owner im) as [t|]; [|done]. destruct turn as [x|].
    - split; [|by eapply calm_live; [apply drop_waiting_calm|]]. eapply evolves_inv; [done|].
      apply (work_evolves false im (tm_ref t) (fun t => map (drop_waiting x) (tm_work t))). intros y _ _. split.
      + apply map_led, drop_waiting_led.
      + apply map_waiting. intros w. unfold drop_waiting. by destruct (_ && _).
    - split; [by eapply evolves_inv, stop_team_evolves|by apply stop_team_live]. }
  destruct H. by apply cancel_all_live.
Qed.

(** Whatever the service could start now has a pump posted, or a child running whose end
    posts one. *)
Lemma act_live a im im' :
  Inv o im -> 0 < max_running o -> live im ->
  act (A := A) random_id compile_error dump create_session a im = Some im' -> live im'.
Proof.
  intros Hi Hmax Hl Ha. assert (Hp := calm_live _ _ (calm_prune im) Hl).
  assert (Hip := evolves_inv _ _ _ Hi (prune_evolves false im)).
  destruct a as [parent req cx|owner id offset max|owner id|owner|owner id|owner id committed|owner turn|parent c cx
    |r member req|r member ids| | | |r e|r|r|utc elapsed| |]; cbn [act] in Ha.
  - injection Ha as <-. by apply start_live.
  - injection Ha as <-. unfold get. by destruct (find_owned _ _ _).
  - injection Ha as <-. unfold cancel. destruct (find_owned _ _ _); [|done]. by apply cancel_job_live.
  - by injection Ha as <-.
  - injection Ha as <-. unfold claim_completion. destruct (find_owned _ _ _) as [j|]; [|done].
    destruct (sn_acknowledged _); [done|]. destruct (_ || _); [done|]. eapply calm_live; [|exact Hp]. by apply calm_job.
  - injection Ha as <-. unfold finish_completion. destruct (find_owned _ _ _) as [j|]; [|done].
    eapply calm_live; [|exact Hp]. by apply calm_job.
  - injection Ha as <-. by apply cancel_owner_live.
  - injection Ha as <-. by apply team_command_live.
  - injection Ha as <-. unfold member_send. destruct (team_at im r) as [t|] eqn:E; [|done].
    apply team_at_in in E as [Ht _]. pose proof (send_calm (im_closed im) t member req im Ht) as Hs.
    destruct (send_team_message _ _ _ _ _). by apply (calm_live im).
  - injection Ha as <-. eapply calm_live; [|exact Hl]. by apply calm_team.
  - injection Ha as <-. unfold shutdown. destruct (im_joining im); [done|]. cbn [snd]. intros Hc. exfalso.
    rewrite close_all_closed in Hc; [done|]. by eapply (evolves_inv false); [exact Hi|apply evolves_quiet].
  - injection Ha as <-. unfold destroy. intros Hc. exfalso.
    rewrite close_all_closed in Hc; [done|]. by eapply (evolves_inv false); [exact Hi|apply evolves_quiet].
  - destruct (im_pumps im) as [|n]; [done|]. injection Ha as <-. apply pump_live; [|done].
    by eapply (evolves_inv false); [exact Hi|apply evolves_quiet].
  - destruct (job_at im r) as [j|]; [|done]. destruct (jb_group j) as [g|]; [|done]. destruct (active g); [done|].
    injection Ha as <-. eapply calm_live; [|exact Hl]. by apply calm_job.
  - destruct (job_at im r) as [j|] eqn:Ej; [|done]. destruct (jb_group j) as [g|] eqn:Eg; [|done]. destruct (active g); [|done].
    injection Ha as <-. intros _ _. left. unfold monitor_ends. rewrite Ej, Eg.
    destruct (drain_completed g). destruct (ended _ _ _ _). cbn. lia.
  - destruct (job_at im r) as [j|]; [|done]. destruct (jb_deadline j) as [d|]; [|done]. destruct (_ <=? _)%Z; [|done].
    injection Ha as <-. apply pump_live; [|done]. by eapply evolves_inv, cancel_job_evolves.
  - injection Ha as <-. eapply calm_live; [|exact Hl]. by apply calm_counts.
  - destruct (decide _); [|done]. injection Ha as <-. unfold shutdown_check.
    destruct (_ =? _); (eapply calm_live; [|exact Hl]; by apply calm_counts).
  - destruct (decide _); [|done]. destruct (im_changed im); [|done]. injection Ha as <-.
    eapply calm_live; [|exact Hl]; by apply calm_counts.
Qed.
Lemma reachable_bounds h im :
  reachable (A := A) random_id compile_error dump create_session o h im -> options_invalid o = false.
Proof.
  induction 1 as [utc steady im H|]; [|done]. unfold create_service in H. by destruct (options_invalid o).
Qed.
Lemma valid_running : options_invalid o = false -> 0 < max_running o.
Proof. unfold options_invalid. intros H. repeat (apply orb_false_iff in H as [H _]). apply Nat.eqb_neq in H. lia. Qed.
Lemma reachable_live h im : reachable (A := A) random_id compile_error dump create_session o h im -> live im.
Proof.
  intros Hr. pose proof (valid_running (reachable_bounds _ _ Hr)) as Hm. induction Hr as [utc steady im H|a im im' Hr IH H].
  - unfold create_service in H. destruct (options_invalid o); [done|]. injection H as <-. intros _ [(j & Hj & _)|(t & w & Ht & _)]; cbn in *;
      [by apply not_elem_of_nil in Hj|by apply not_elem_of_nil in Ht].
  - eapply act_live; [by eapply service_inv|done|done|done].
Qed.
End Evolution.
