(* ===== verification/BackgroundShutdown.v ===== *)
(** * oran-bootstrap: the end of the background task service

    Once the service is closed nothing starts: [shutdown] and the destructor stop every
    board and cancel every job, no later action brings one back, and the loop of
    [shutdown] never misses the end of the last child. *)
From S2P Require Import Prelude.
From S2P Require Import Core.
From S2P Require Import Utf8.
From S2P Require Import TurnId.
From S2P Require Import Json.
From S2P Require Import Rules.
From S2P Require Import TaskGroup.
From S2P Require Import Dispatch.
From S2P Require Import TeamBoard.
From S2P Require Import Background.
From S2P Require Import BackgroundInvariant.
From S2P Require Import BackgroundSteps.

Section Shutdown.
Context {Sess Common A : Type}.
Context (random_id : nat -> Result TurnId) (compile_error : string -> option string) (dump : JsonWriter).
Context (create_session : SessionOptions Common -> Result Sess) (o : BackgroundTaskOptions).
Implicit Types im : Impl Sess.
Implicit Types j : Job Sess.
Implicit Types t : Team Sess.
Implicit Types parent : SessionOptions Common.

(** A job that is over or on its way out, a board that starts nothing more. *)
Definition leaving (s : TaskState) : Prop := s <> ts_queued /\ s <> ts_running.
Definition idle_board t : Prop :=
  tm_stopped t = true /\ forall w, w ∈ tm_work t -> tk_state (wk_snapshot w) <> tt_waiting.
Definition settled im : Prop :=
  (forall j, j ∈ im_jobs im -> leaving (job_state j)) /\ (forall t, t ∈ im_teams im -> idle_board t).

Lemma leaving_final s s' : rtc job_step s s' -> leaving s -> leaving s'.
Proof.
  induction 1 as [|x y z Hs _ IH]; [done|]. intros [H1 H2]. apply IH.
  inversion Hs as [| |  |? H|? H]; subst; try done. by destruct H as [-> | ->].
Qed.

(** A change that starts nothing: every job comes from a job, every board from a board. *)
Definition fainter t t' : Prop :=
  tm_ref t' = tm_ref t /\ (tm_stopped t = true -> tm_stopped t' = true) /\
  forall w', w' ∈ tm_work t' -> tk_state (wk_snapshot w') = tt_waiting ->
    exists w, w ∈ tm_work t /\ tk_state (wk_snapshot w) = tt_waiting.
Record fades im im' : Prop := {
  fd_flags : im_closed im' = im_closed im /\ im_joining im' = im_joining im /\ im_shutdown im' = im_shutdown im;
  fd_active : im_active im' <= im_active im;
  fd_wake : im_changed im = true \/ im_active im' <> im_active im -> im_changed im' = true;
  fd_jobs : forall j', j' ∈ im_jobs im' ->
    exists j, j ∈ im_jobs im /\ jb_ref j = jb_ref j' /\ rtc job_step (job_state j) (job_state j');
  fd_teams : forall t', t' ∈ im_teams im' -> exists t, t ∈ im_teams im /\ fainter t t' }.

Lemma fainter_refl t : fainter t t.
Proof. split_and!; [done..|]. intros w ? ?. by exists w. Qed.
Lemma fainter_trans t1 t2 t3 : fainter t1 t2 -> fainter t2 t3 -> fainter t1 t3.
Proof.
  intros (A0 & A1 & A2) (B0 & B1 & B2). split_and!; [congruence|auto|].
  intros w Hw Hs. destruct (B2 w Hw Hs) as (v & Hv & Hvs). by apply (A2 v).
Qed.
Lemma fainter_idle t t' : fainter t t' -> idle_board t -> idle_board t'.
Proof. intros (_ & H1 & H2) [I1 I2]. split; [auto|]. intros w Hw Hs. destruct (H2 w Hw Hs) as (v & Hv & Hvs). by apply (I2 v). Qed.
#[export] Instance fades_preorder : PreOrder fades.
Proof.
  split.
  - intros im. split; [done|lia|by intros [|]|intros j Hj; by exists j|intros t Ht; exists t; split; [done|apply fainter_refl]].
  - intros im1 im2 im3 [(A1 & A2 & A3) A4 A5 A6 A7] [(B1 & B2 & B3) B4 B5 B6 B7]. split; [|lia|..].
    + split_and!; congruence.
    + intros [H|H]; apply B5; [left; auto|].
      destruct (decide (im_active im2 = im_active im1)); [right; lia|left; apply A5; by right].
    + intros j Hj. destruct (B6 j Hj) as (k & Hk & Hr & Hs). destruct (A6 k Hk) as (x & Hx & Hxr & Hxs). exists x.
      split; [done|]. split; [congruence|by etransitivity].
    + intros t Ht. destruct (B7 t Ht) as (k & Hk & Hs). destruct (A7 k Hk) as (x & Hx & Hxs). exists x.
      split; [done|by eapply fainter_trans].
Qed.
Lemma fades_settled im im' : fades im im' -> settled im -> settled im'.
Proof.
  intros [_ _ _ H1 H2] [S1 S2]. split.
  - intros j Hj. destruct (H1 j Hj) as (k & Hk & _ & Hs). by eapply leaving_final, S1.
  - intros t Ht. destruct (H2 t Ht) as (k & Hk & Hs). by eapply fainter_idle, S2.
Qed.

(** ** The changes that fade *)
Lemma fades_same im im' :
  im_closed im' = im_closed im -> im_joining im' = im_joining im -> im_shutdown im' = im_shutdown im ->
  im_active im' = im_active im -> (im_changed im = true -> im_changed im' = true) ->
  im_jobs im' = im_jobs im -> im_teams im' = im_teams im -> fades im im'.
Proof.
  intros H1 H2 H3 H4 H5 H6 H7. split; [done|lia|intros [|]; [auto|done]|rewrite H6; intros j Hj; by exists j|].
  rewrite H7. intros t Ht. exists t. split; [done|apply fainter_refl].
Qed.
Lemma fades_notify im : fades im (notify im).
Proof. by apply fades_same. Qed.
Lemma fades_prune im : fades im (prune im).
Proof.
  split; [done|done|by intros [|]|intros j [_ Hj]%list_elem_of_filter; by exists j|].
  intros t Ht. exists t. split; [done|apply fainter_refl].
Qed.
Lemma fades_job im r f :
  (forall j, j ∈ im_jobs im -> jb_ref j = r -> jb_ref (f j) = jb_ref j /\ rtc job_step (job_state j) (job_state (f j))) ->
  fades im (upd_job im r f).
Proof.
  intros Hf. split; [done|done|by intros [|]| |intros t Ht; exists t; split; [done|apply fainter_refl]].
  intros j' (j & Hj & ->)%upd_job_elem. exists j. split; [done|]. destruct (decide _) as [Hr|]; [|done].
  by destruct (Hf j Hj Hr) as [-> ?].
Qed.
Lemma fades_team im r f : (forall t, t ∈ im_teams im -> fainter t (f t)) -> fades im (upd_team im r f).
Proof.
  intros Hf. split; [done|done|by intros [|]|intros j Hj; by exists j|].
  intros t' (t & Ht & ->)%upd_team_elem. exists t. split; [done|]. destruct (decide _); [by apply Hf|apply fainter_refl].
Qed.
Lemma fainter_map t (g : Work -> Work) :
  (forall w, tk_state (wk_snapshot (g w)) = tt_waiting -> tk_state (wk_snapshot w) = tt_waiting) ->
  fainter t (set_work t (map g (tm_work t))).
Proof.
  intros Hg. split_and!; [done..|]. cbn. intros w' (w & -> & Hw)%list_elem_of_fmap Hs. exists w. split; [done|by apply Hg].
Qed.
Lemma fainter_job s result t : NoDup (map work_key (tm_work t)) -> fainter t (update_team_job t s result).
Proof.
  intros Hn. destruct (update_team_job_frame t s result) as (F1 & _ & _ & _ & F2 & _). split_and!; [done|by rewrite F2|].
  rewrite update_team_job_work by done. intros w' (w & -> & Hw)%list_elem_of_fmap Hs. exists w. split; [done|].
  destruct (of_job s w); [|done]. destruct (follow_entry s result w) as (_ & _ & _ & E). rewrite E in Hs.
  by destruct (sn_state s).
Qed.
Lemma fades_publish team s result im :
  (forall t, t ∈ im_teams im -> NoDup (map work_key (tm_work t))) -> fades im (publish team s result im).
Proof. intros Hn. destruct team as [r|]; [|reflexivity]. apply fades_team. intros t Ht. by apply fainter_job, Hn. Qed.

Lemma keys_nodup im t : Inv o im -> t ∈ im_teams im -> NoDup (map work_key (tm_work t)).
Proof. intros Hi Ht. apply (iv_teams _ _ Hi t Ht). Qed.
Lemma fades_cancel_job r timeout im : Inv o im -> fades im (cancel_job r timeout im).
Proof.
  intros Hi. unfold cancel_job. destruct (job_at im r) as [j|] eqn:E; [|reflexivity].
  destruct (job_at_in _ _ _ E) as [Hj Hr].
  assert (Hx : forall x, x ∈ im_jobs im -> jb_ref x = r -> x = j)
    by (intros x Hx Hxr; apply (key_unique jb_ref (im_jobs im)); [apply Hi|congruence..]).
  destruct (_ || _) eqn:Ed.
  - destruct timeout; [reflexivity|]. by apply fades_job.
  - apply orb_false_iff in Ed as [Et Ec]. bool_prop.
    assert (Hn : forall r f t, t ∈ im_teams (upd_job im r f) -> NoDup (map work_key (tm_work t)))
      by (intros ? ? t Ht; by eapply keys_nodup).
    destruct (bool_decide (job_state j = ts_queued)) eqn:Eq; bool_prop;
      (etransitivity; [|apply fades_notify]; etransitivity; [|apply fades_publish, Hn]; apply fades_job;
       intros x Hxin Hxr; rewrite (Hx x Hxin Hxr); split; [done|]; apply rtc_once).
    + rewrite Eq. unfold job_state. cbn. apply js_drop. destruct timeout; auto.
    + assert (job_state j = ts_running) as -> by (by destruct (job_state j)). apply js_stop.
Qed.
Lemma fades_cancel_all p im : Inv o im -> fades im (cancel_all p im).
Proof.
  unfold cancel_all. generalize (im_jobs im) as l. intros l. revert im.
  induction l as [|j l IH]; intros im Hi; [reflexivity|]. cbn [fold_left]. destruct (p j); [|by apply IH].
  etransitivity; [by apply fades_cancel_job|]. apply IH. by eapply evolves_inv, cancel_job_evolves.
Qed.
Lemma fades_stop_team t im : Inv o im -> fades im (stop_team t im).
Proof.
  intros Hi. unfold stop_team. etransitivity; [apply (fades_team im (tm_ref t) set_stopped)|].
  { intros x _. split_and!; [done..|]. intros w Hw Hs. by exists w. }
  etransitivity; [apply fades_cancel_all; eapply evolves_inv; [exact Hi|]; apply rtc_once, (mu_stop o false im _ (tm_ref t)); done|].
  apply fades_team. intros x _. apply fainter_map. intros w. unfold stop_work.
  by destruct (negb (team_task_active (tk_state (wk_snapshot w))) && _).
Qed.
Lemma fades_stop_teams ts im : Inv o im -> fades im (fold_left (fun im t => stop_team t im) ts im).
Proof.
  revert im. induction ts as [|t ts IH]; intros im Hi; [reflexivity|]. cbn [fold_left].
  etransitivity; [by apply fades_stop_team|]. apply IH. by eapply evolves_inv, stop_team_evolves.
Qed.

(** ** Closing settles the service *)
Lemma stop_team_idle t im x : x ∈ im_teams (stop_team t im) -> tm_ref x = tm_ref t -> Inv o im -> idle_board x.
Proof.
  intros Hx Hr Hi. unfold stop_team in Hx. set (im1 := upd_team im (tm_ref t) set_stopped) in *.
  assert (Hi1 : Inv o im1) by (eapply (evolves_inv o false); [exact Hi|]; by apply rtc_once, (mu_stop o false im _ (tm_ref t))).
  apply upd_team_elem in Hx as (y & Hy & ->). destruct (fd_teams _ _ (fades_cancel_all (team_jobs t) im1 Hi1) y Hy) as (z & Hz & F1 & F2 & _).
  destruct (decide (tm_ref y = tm_ref t)) as [Hyt|]; [|done]. split.
  - cbn. apply F2. apply upd_team_elem in Hz as (v & Hv & ->). destruct (decide (tm_ref v = tm_ref t)); [done|congruence].
  - cbn. intros w' (w & -> & Hw)%list_elem_of_fmap. unfold stop_work.
    destruct (negb (team_task_active (tk_state (wk_snapshot w))) && _) eqn:E; [done|]. intros Hs. by rewrite Hs in E.
Qed.
Lemma stop_teams_idle ts im :
  Inv o im -> (forall t, t ∈ im_teams im -> idle_board t \/ tm_ref t ∈ map tm_ref ts) ->
  forall t, t ∈ im_teams (fold_left (fun im t => stop_team t im) ts im) -> idle_board t.
Proof.
  revert im. induction ts as [|t ts IH]; intros im Hi H; cbn [fold_left].
  - intros x Hx. by destruct (H x Hx) as [|Hn]; [|apply not_elem_of_nil in Hn].
  - apply IH; [by eapply evolves_inv, stop_team_evolves|]. intros x Hx.
    destruct (decide (tm_ref x = tm_ref t)) as [Hr|Hr]; [left; by eapply stop_team_idle|].
    destruct (fd_teams _ _ (fades_stop_team t im Hi) x Hx) as (y & Hy & Hyx).
    destruct (H y Hy) as [Hyi|Hin]; [left; by eapply fainter_idle|right].
    destruct Hyx as [E _]. rewrite <- E in Hin. apply elem_of_cons in Hin as [|]; [done|done].
Qed.
Lemma cancel_job_leaving r im j : Inv o im -> j ∈ im_jobs (cancel_job r false im) -> jb_ref j = r -> leaving (job_state j).
Proof.
  intros Hi Hj Hr. unfold cancel_job in Hj. destruct (job_at im r) as [x|] eqn:E.
  2: { by destruct (find_none (P := fun j => jb_ref j = r) _ E j Hj). }
  destruct (job_at_in _ _ _ E) as [Hx Hxr]. assert (Hu : forall y, y ∈ im_jobs im -> jb_ref y = r -> y = x)
    by (intros y Hy Hyr; apply (key_unique jb_ref (im_jobs im)); [apply Hi|congruence..]).
  destruct (task_terminal (job_state x) || bool_decide (job_state x = ts_cancelling)) eqn:Ed.
  - apply upd_job_elem in Hj as (y & Hy & ->). destruct (decide (jb_ref y = r)) as [Hyr|]; [|done].
    rewrite (Hu y Hy Hyr). unfold leaving, job_state in *. cbn. by destruct (sn_state (jb_snapshot x)).
  - destruct (bool_decide (job_state x = ts_queued));
      cbn [notify set_counts im_jobs] in Hj; rewrite publish_jobs in Hj; apply upd_job_elem in Hj as (y & Hy & ->);
      destruct (decide (jb_ref y = r)) as [Hyr|]; done.
Qed.
Lemma cancel_all_leaving im : Inv o im -> forall j, j ∈ im_jobs (cancel_all (fun _ => true) im) -> leaving (job_state j).
Proof.
  unfold cancel_all. intros Hi. assert (H : forall j, j ∈ im_jobs im -> leaving (job_state j) \/ jb_ref j ∈ map jb_ref (im_jobs im))
    by (intros j Hj; right; by apply list_elem_of_fmap_2). revert Hi H. generalize (im_jobs im) at 2 3 as l. intros l. revert im.
  induction l as [|x l IH]; intros im Hi H; cbn [fold_left].
  - intros j Hj. by destruct (H j Hj) as [|Hn]; [|apply not_elem_of_nil in Hn].
  - apply IH; [by eapply evolves_inv, cancel_job_evolves|]. intros j Hj.
    destruct (decide (jb_ref j = jb_ref x)) as [Hr|Hr]; [left; by eapply cancel_job_leaving|].
    destruct (fd_jobs _ _ (fades_cancel_job (jb_ref x) false im Hi) j Hj) as (y & Hy & Hyr & Hs).
    destruct (H y Hy) as [Hl|Hin]; [left; by eapply leaving_final|right]. rewrite <- Hyr in *.
    by apply elem_of_cons in Hin as [|].
Qed.
Lemma stop_teams_inv ts im : Inv o im -> Inv o (fold_left (fun im t => stop_team t im) ts im).
Proof.
  revert im. induction ts as [|t ts IH]; intros im Hi; [done|]. cbn [fold_left]. apply IH.
  by eapply evolves_inv, stop_team_evolves.
Qed.
Lemma close_all_settled im : Inv o im -> settled (close_all im).
Proof.
  intros Hi. unfold close_all. set (im1 := fold_left _ _ im). assert (Hi1 : Inv o im1) by (by apply stop_teams_inv). split.
  - by apply cancel_all_leaving.
  - intros t Ht. destruct (fd_teams _ _ (fades_cancel_all (fun _ => true) im1 Hi1) t Ht) as (x & Hx & Hf).
    eapply fainter_idle; [done|]. eapply stop_teams_idle; [exact Hi| |exact Hx].
    intros y Hy. right. by apply list_elem_of_fmap_2.
Qed.
Lemma fades_close_all im : Inv o im -> fades im (close_all im).
Proof.
  intros Hi. unfold close_all. etransitivity; [by apply fades_stop_teams|]. apply fades_cancel_all. by apply stop_teams_inv.
Qed.

(** ** Actions on a closed service *)
Notation act := (act (A := A) random_id compile_error dump create_session).
Lemma fades_monitor r im : Inv o im -> fades im (monitor_ends r im).
Proof.
  intros Hi. unfold monitor_ends. destruct (job_at im r) as [j|] eqn:E; [|reflexivity].
  destruct (jb_group j) as [g|] eqn:Eg; [|reflexivity]. destruct (drain_completed g) as [report g'].
  destruct (ended (im_options im) j (all_succeeded report) (im_utc im)) as [s result] eqn:Eend.
  destruct (job_at_in im r j E) as [Hj Hr]. rewrite (iv_options _ _ Hi) in Eend.
  assert (Hb : busy (job_state j) = true) by (by apply (jo_group o j (iv_jobs _ _ Hi j Hj)); rewrite Eg).
  destruct (ended_ok o j _ _ (im_steady im) s result (iv_jobs _ _ Hi j Hj) Hb Eend) as (_ & Hstep & _).
  set (im1 := upd_job im r _). etransitivity; [|].
  - apply (fades_job im r (fun j => close_job j s result (im_steady im))). intros x Hx Hxr.
    assert (x = j) as -> by (apply (key_unique jb_ref (im_jobs im)); [apply Hi|congruence..]).
    split; [done|]. by apply rtc_once.
  - etransitivity; [apply (fades_publish (jb_team j) s result); intros t Ht; by eapply keys_nodup|].
    subst im1. match goal with |- fades ?x _ => generalize x end. intros y.
    split; cbn; [done|lia|done|intros x Hx; by exists x|intros t Ht; exists t; split; [done|apply fainter_refl]].
Qed.
Lemma fades_send closed t sender req im : t ∈ im_teams im -> fades im (put_team im (send_team_message dump closed t sender req).2).
Proof.
  intros Ht. set (t' := (send_team_message dump closed t sender req).2).
  assert (H : tm_ref t' = tm_ref t /\ tm_stopped t' = tm_stopped t /\ tm_work t' = tm_work t)
    by (unfold t', send_team_message; repeat case_match; by simplify_eq).
  destruct H as (H1 & H2 & H3). split; [done|done|by intros [|]|intros j Hj; by exists j|].
  intros x (y & Hy & ->)%upd_team_elem. destruct (decide _); [|exists y; split; [done|apply fainter_refl]].
  exists t. split; [done|]. split_and!; [done|by rewrite H2|rewrite H3; intros w ? ?; by exists w].
Qed.
Lemma fades_command parent c (cx : DispatchContext A) im :
  Inv o im -> im_closed im = true -> fades im (team_command random_id compile_error dump create_session parent c cx im).2.
Proof.
  intros Hi Hc. unfold team_command. destruct (negb (team_caller im parent cx)); [reflexivity|].
  destruct (validate_team_command c); [|reflexivity]. rewrite Hc.
  destruct c as [req|spec|req|req|req| |req]; cbn [negb andb is_read is_stop]; try reflexivity.
  - unfold apply_command. by destruct (find_team (task_owner parent) im).
  - unfold apply_command. destruct (find_team (task_owner parent) im) as [t|]; [|reflexivity]. cbn [snd].
    pose proof (fades_stop_team t im Hi) as H. unfold pump. by rewrite (proj1 (fd_flags _ _ H)), Hc.
Qed.
Lemma act_fades a im im' : Inv o im -> im_closed im = true -> act a im = Some im' ->
  match a with do_shutdown | on_shutdown_check | on_shutdown_receive => True | _ => fades im im' end.
Proof.
  intros Hi Hc Ha. assert (Hip := evolves_inv o _ _ _ Hi (prune_evolves o false im)). pose proof (fades_prune im) as Hp.
  destruct a as [parent req cx|owner id offset max|owner id|owner|owner id|owner id committed|owner turn|parent c cx
    |r member req|r member ids| | | |r e|r|r|utc elapsed| |]; cbn [Background.act] in Ha; try done.
  - injection Ha as <-. unfold start. destruct (negb _); [reflexivity|]. destruct (request_invalid req); [reflexivity|].
    cbn [prune im_closed set_jobs]. by rewrite Hc.
  - injection Ha as <-. unfold get. by destruct (find_owned _ _ _).
  - injection Ha as <-. unfold cancel. destruct (find_owned _ _ _); [|done]. cbn [snd]. etransitivity; [exact Hp|].
    by apply fades_cancel_job.
  - by injection Ha as <-.
  - injection Ha as <-. unfold claim_completion. destruct (find_owned _ _ _) as [j|]; [|done].
    destruct (sn_acknowledged _); [done|]. destruct (_ || _); [done|]. etransitivity; [exact Hp|]. by apply fades_job.
  - injection Ha as <-. unfold finish_completion. destruct (find_owned _ _ _) as [j|]; [|done].
    etransitivity; [exact Hp|]. by apply fades_job.
  - injection Ha as <-. unfold cancel_owner. destruct (find_team owner im) as [t|]; [|by apply fades_cancel_all].
    destruct turn as [x|].
    + assert (Hw : forall t w, tk_state (wk_snapshot (drop_waiting x w)) = tt_waiting -> tk_state (wk_snapshot w) = tt_waiting)
        by (intros _ w; unfold drop_waiting; by destruct (_ && _)).
      etransitivity; [apply (fades_team im (tm_ref t)); intros y _; by apply fainter_map, Hw|].
      apply fades_cancel_all. eapply (evolves_inv o false); [exact Hi|].
      apply (work_evolves o false im (tm_ref t) (fun t => map (drop_waiting x) (tm_work t))). intros y _ _. split.
      * apply map_led, drop_waiting_led.
      * apply map_waiting. intros w. unfold drop_waiting. by destruct (_ && _).
    + etransitivity; [by apply fades_stop_team|]. apply fades_cancel_all. by eapply evolves_inv, stop_team_evolves.
  - injection Ha as <-. by apply fades_command.
  - injection Ha as <-. unfold member_send. destruct (team_at im r) as [t|] eqn:E; [|reflexivity].
    apply team_at_in in E as [Ht _]. pose proof (fades_send (im_closed im) t member req im Ht) as Hs.
    by destruct (send_team_message _ _ _ _ _).
  - injection Ha as <-. apply fades_team. intros t _. split_and!; [done..|]. intros w ? ?. by exists w.
  - injection Ha as <-. unfold destroy. etransitivity; [apply (fades_same im (set_closing im true (im_joining im) (im_shutdown im))); done|].
    apply fades_close_all. by eapply (evolves_inv o false); [exact Hi|apply evolves_quiet].
  - destruct (im_pumps im) as [|n]; [done|]. injection Ha as <-. unfold pump. cbn [im_closed set_counts]. rewrite Hc. by apply fades_same.
  - destruct (job_at im r) as [j|]; [|done]. destruct (jb_group j) as [g|]; [|done]. destruct (active g); [done|].
    injection Ha as <-. by apply fades_job.
  - destruct (job_at im r) as [j|] eqn:Ej; [|done]. destruct (jb_group j) as [g|] eqn:Eg; [|done]. destruct (active g); [|done].
    injection Ha as <-. by apply fades_monitor.
  - destruct (job_at im r) as [j|]; [|done]. destruct (jb_deadline j) as [d|]; [|done]. destruct (_ <=? _)%Z; [|done].
    injection Ha as <-. pose proof (fades_cancel_job r true im Hi) as H. unfold pump. by rewrite (proj1 (fd_flags _ _ H)), Hc.
  - injection Ha as <-. by apply fades_same.
Qed.

(** ** Only [shutdown] and the destructor close the service *)
Definition flags im : bool * bool * ShutdownPhase := (im_closed im, im_joining im, im_shutdown im).
Lemma fades_flags im im' : fades im im' -> flags im' = flags im.
Proof. intros [(H1 & H2 & H3) _ _ _ _]. unfold flags. by rewrite H1, H2, H3. Qed.
Lemma publish_flags team s result im : flags (publish team s result im) = flags im.
Proof. by destruct team. Qed.
Lemma enqueue_flags j im : flags (enqueue j im).2 = flags im.
Proof. pose proof (enqueue_spec j im) as H. destruct (enqueue j im) as [[[]|e] im']; [by destruct H as [-> _]|by subst]. Qed.
Lemma schedule_work_flags team i im : flags (schedule_work random_id dump team i im).2 = flags im.
Proof.
  unfold schedule_work. destruct (team_at im team) as [t|]; [|done]. destruct (tm_work t !! i) as [w|]; [|done].
  destruct (_ || _); [done|]. destruct (find_member _ _) as [m|]; [|done]. destruct (has_active_work _ _); [done|].
  pose proof (has_capacity_spec true im) as [Hc _]. destruct (has_capacity true im) as [capacity im1]. cbn in Hc. subst im1.
  destruct (negb capacity); [done|]. cbn [generate]. destruct (random_id _) as [id|e]; [|done].
  cbn [allocate]. set (im3 := set_counts (set_counts (prune im) _ _ _ _ _) _ _ _ _ _). set (j := team_job _ _ _ _ _ _ _).
  pose proof (enqueue_flags j im3) as H. by destruct (enqueue j im3) as [[[]|e] im'].
Qed.
Lemma schedule_team_flags team ixs im : flags (schedule_team random_id dump team ixs im).2 = flags im.
Proof.
  revert im. induction ixs as [|i ixs IH]; intros im; [done|]. cbn [schedule_team].
  pose proof (schedule_work_flags team i im) as H. destruct (schedule_work _ _ _ _ im) as [[] im1]; [by rewrite IH|done].
Qed.
Lemma pump_teams_loop_flags ts im : flags (pump_teams_loop random_id dump ts im) = flags im.
Proof.
  revert im. induction ts as [|t ts IH]; intros im; [done|]. cbn [pump_teams_loop]. destruct (tm_stopped t); [apply IH|].
  pose proof (schedule_team_flags (tm_ref t) (seq 0 (length (tm_work t))) im) as H.
  destruct (schedule_team _ _ _ _ im) as [[] im1]; [by rewrite IH|done].
Qed.
Lemma launch_flags r im : flags (launch r im) = flags im.
Proof.
  unfold launch. destruct (job_at im r) as [j|]; [|done]. destruct (negb _); [done|].
  change (create_group one_task) with (Ok (mkGroup one_task (AsyncChannel.create 1) [] [] 0 0 false false false)).
  cbv iota. destruct (spawn _ _ _) as [started g]. by destruct (jb_team j).
Qed.
Lemma launch_loop_flags rs im : flags (launch_loop rs im) = flags im.
Proof.
  revert im. induction rs as [|r rs IH]; intros im; [done|]. cbn [launch_loop]. destruct (_ <=? _); [done|].
  by rewrite IH, launch_flags.
Qed.
Lemma pump_flags im : flags (pump random_id dump im) = flags im.
Proof.
  unfold pump, pump_teams. destruct (im_closed im); [done|]. by rewrite launch_loop_flags, pump_teams_loop_flags.
Qed.
Lemma start_flags parent req (cx : DispatchContext A) im :
  flags (start random_id compile_error create_session parent req cx im).2 = flags im.
Proof.
  unfold start. destruct (negb _); [done|]. destruct (request_invalid req); [done|].
  destruct (im_closed (prune im) || _ || _); [done|]. cbn [generate]. destruct (random_id _) as [id|e]; [|done].
  destruct (existsb _ _); [done|]. destruct (copy_child_rules _); [|done]. destruct (create_session _) as [child|e]; [|done].
  cbn [allocate]. match goal with |- context [enqueue ?j ?x] => pose proof (enqueue_flags j x) as H; by destruct (enqueue j x) as [[[]|e] im'] end.
Qed.
Lemma add_team_member_flags parent spec (cx : DispatchContext A) t im :
  flags (add_team_member random_id compile_error dump create_session parent spec cx t im).2 = flags im.
Proof.
  unfold add_team_member. destruct (tm_stopped t); [done|]. destruct (_ || _); [done|].
  destruct (existsb _ _); [done|]. destruct (list_find _ _) as [[i name]|]; [done|]. cbn [generate].
  destruct (random_id _); [|done]. destruct (copy_child_rules _); [|done]. by destruct (create_session _).
Qed.
Lemma add_members_flags parent specs (cx : DispatchContext A) t im :
  flags (add_members random_id compile_error dump create_session parent specs cx t im).2 = flags im.
Proof.
  revert t im. induction specs as [|spec specs IH]; intros t im; cbn [add_members]; [done|].
  pose proof (add_team_member_flags parent spec cx t im) as H.
  destruct (add_team_member _ _ _ _ parent spec cx t im) as [[t'|e] im1]; [by rewrite IH|done].
Qed.
Lemma create_team_flags parent req (cx : DispatchContext A) im :
  flags (create_team random_id compile_error dump create_session parent req cx im).2 = flags im.
Proof.
  unfold create_team. destruct (match find_team _ im with Some t => negb (retirable t) | None => false end); [done|].
  destruct (_ || _); [done|]. cbn [generate]. destruct (random_id _); [|done].
  cbn [allocate]. match goal with |- context [add_members _ _ _ _ parent ?l cx ?t ?x] =>
    pose proof (add_members_flags parent l cx t x) as H; destruct (add_members _ _ _ _ parent l cx t x) as [[t'|e'] im4] end; [|done].
  etransitivity; [|exact H]. cbn [snd]. assert (He : forall x y, flags (erase_team x y) = flags y) by (by intros [x|] y).
  etransitivity; [apply He|apply He].
Qed.
Lemma submit_flags t req turn im : flags (submit_team_task t req turn im).2 = flags im.
Proof.
  unfold submit_team_task. destruct (tm_stopped t); [done|]. destruct (_ <=? _); [done|]. destruct (existsb _ _); [done|].
  destruct (negb _); [done|]. destruct (list_find _ _) as [[i d]|]; [done|]. cbn. by destruct (_ && _).
Qed.
Lemma update_flags t req turn im : flags (update_team_task t req turn im).2 = flags im.
Proof.
  unfold update_team_task. destruct (negb _); [done|]. destruct (find_work _ _) as [w|]; [|done].
  destruct (negb _); [done|]. destruct (bool_decide (tk_state _ = tt_accepted)); [by destruct (bool_decide _)|].
  destruct (up_action req).
  - destruct (tm_stopped t); [done|]. by destruct (negb _).
  - destruct (tm_stopped t); [done|]. destruct (_ && _); [done|]. destruct (_ =? 3); [done|]. cbn. by destruct (_ && _).
  - cbn [snd]. unfold upd_task. cbn [flags upd_team set_teams]. destruct (find_owned _ _ _) as [j|]; [|done].
    destruct (cancel_job_frame (jb_ref j) false (prune im)) as (F1 & _ & _ & F2 & F3). unfold flags. cbn. by rewrite F1, F2, F3.
Qed.
Lemma command_flags parent c (cx : DispatchContext A) im :
  Inv o im -> flags (team_command random_id compile_error dump create_session parent c cx im).2 = flags im.
Proof.
  intros Hi. unfold team_command. destruct (negb (team_caller im parent cx)); [done|].
  destruct (validate_team_command c); [|done]. destruct (_ && _ && _); [done|].
  assert (Hs : forall t, t ∈ im_teams im -> flags (stop_team t im) = flags im)
    by (intros t _; by apply fades_flags, fades_stop_team).
  assert (H : flags (apply_command random_id compile_error dump create_session parent c cx im).2 = flags im).
  { unfold apply_command. destruct (find_team (task_owner parent) im) as [t|] eqn:Ef.
    - apply find_team_in in Ef as [Ht _]. destruct c as [req|spec|req|req|req| |req]; cbn [snd]; try done; try by apply Hs.
      + pose proof (create_team_flags parent req cx im). by destruct (create_team _ _ _ _ _ _ _ _).
      + pose proof (add_team_member_flags parent spec cx t im). by destruct (add_team_member _ _ _ _ _ _ _ _ _) as [[?|?] ?].
      + pose proof (submit_flags t req (cx_parent_turn_id cx) im). by destruct (submit_team_task _ _ _ _).
      + pose proof (update_flags t req (cx_parent_turn_id cx) im). by destruct (update_team_task _ _ _ _).
    - destruct c as [req|spec|req|req|req| |req]; try done.
      pose proof (create_team_flags parent req cx im). by destruct (create_team _ _ _ _ _ _ _ _). }
  destruct c as [req|spec|req|req|req| |req]; cbn [is_read].
  all: try (destruct (apply_command _ _ _ _ _ _ _ _) as [[[[]|?] ?] ?]; cbn [snd fst] in *; by rewrite ?pump_flags).
  destruct (find_team (task_owner parent) im) as [t|] eqn:Ef; [|done]. apply find_team_in in Ef as [Ht _].
  pose proof (fades_flags _ _ (fades_send (im_closed im) t "leader" req im Ht)). by destruct (send_team_message _ _ _ _ _).
Qed.
Definition closes (a : Action (Common := Common) (A := A)) : bool :=
  match a with do_shutdown | do_destroy | on_shutdown_check | on_shutdown_receive => true | _ => false end.
Lemma act_flags a im im' : Inv o im -> act a im = Some im' -> closes a = false -> flags im' = flags im.
Proof.
  intros Hi Ha Hn. assert (Hip := evolves_inv o _ _ _ Hi (prune_evolves o false im)).
  destruct a as [parent req cx|owner id offset max|owner id|owner|owner id|owner id committed|owner turn|parent c cx
    |r member req|r member ids| | | |r e|r|r|utc elapsed| |]; cbn [Background.act] in Ha; try done.
  - injection Ha as <-. apply start_flags.
  - injection Ha as <-. unfold get. by destruct (find_owned _ _ _).
  - injection Ha as <-. unfold cancel. destruct (find_owned _ _ _); [|done]. cbn [snd].
    by rewrite (fades_flags _ _ (fades_cancel_job _ _ _ Hip)).
  - by injection Ha as <-.
  - injection Ha as <-. unfold claim_completion. destruct (find_owned _ _ _) as [j|]; [|done].
    destruct (sn_acknowledged _); [done|]. by destruct (_ || _).
  - injection Ha as <-. unfold finish_completion. by destruct (find_owned _ _ _) as [j|].
  - injection Ha as <-. unfold cancel_owner. destruct (find_team owner im) as [t|]; [|by apply fades_flags, fades_cancel_all].
    destruct turn as [x|].
    + etransitivity; [apply fades_flags, fades_cancel_all|done]. eapply (evolves_inv o false); [exact Hi|].
      apply (work_evolves o false im (tm_ref t) (fun t => map (drop_waiting x) (tm_work t))). intros y _ _. split.
      * apply map_led, drop_waiting_led.
      * apply map_waiting. intros w. unfold drop_waiting. by destruct (_ && _).
    + etransitivity; [apply fades_flags, fades_cancel_all; by eapply evolves_inv, stop_team_evolves|].
      by apply fades_flags, fades_stop_team.
  - injection Ha as <-. by apply command_flags.
  - injection Ha as <-. unfold member_send. destruct (team_at im r) as [t|] eqn:E; [|done].
    apply team_at_in in E as [Ht _]. pose proof (fades_flags _ _ (fades_send (im_closed im) t member req im Ht)) as Hs.
    by destruct (send_team_message _ _ _ _ _).
  - by injection Ha as <-.
  - destruct (im_pumps im) as [|n]; [done|]. injection Ha as <-. by rewrite pump_flags.
  - destruct (job_at im r) as [j|]; [|done]. destruct (jb_group j) as [g|]; [|done]. destruct (active g); [done|].
    by injection Ha as <-.
  - destruct (job_at im r) as [j|]; [|done]. destruct (jb_group j) as [g|]; [|done]. destruct (active g); [|done].
    injection Ha as <-. by apply fades_flags, fades_monitor.
  - destruct (job_at im r) as [j|]; [|done]. destruct (jb_deadline j) as [d|]; [|done]. destruct (_ <=? _)%Z; [|done].
    injection Ha as <-. rewrite pump_flags. by apply fades_flags, fades_cancel_job.
  - by injection Ha as <-.
Qed.

(** ** What holds of a service that closes *)
Record closing im : Prop := {
  cl_settled : im_closed im = true -> settled im;
  cl_phase : im_joining im = true <-> im_shutdown im <> sd_none;
  cl_joining : im_joining im = true -> im_closed im = true;
  cl_wake : im_shutdown im = sd_receiving -> im_changed im = true \/ 0 < im_active im }.

Lemma act_closing a im im' : Inv o im -> closing im -> act a im = Some im' -> closing im'.
Proof.
  intros Hi [C1 C2 C3 C4] Ha. destruct (closes a) eqn:Ecl.
  - destruct a; try done; cbn [Background.act] in Ha.
    + injection Ha as <-. unfold shutdown. destruct (im_joining im) eqn:Ej; cbn [snd]; [split; rewrite ?Ej; done|].
      set (im1 := set_closing im true true sd_checking).
      assert (Hi1 : Inv o im1) by (by eapply (evolves_inv o false); [exact Hi|apply evolves_quiet]).
      pose proof (fades_flags _ _ (fades_close_all im1 Hi1)) as [= F1 F2 F3].
      split; rewrite ?F1, ?F2, ?F3; try done. intros _. by apply close_all_settled.
    + injection Ha as <-. unfold destroy. set (im1 := set_closing im true (im_joining im) (im_shutdown im)).
      assert (Hi1 : Inv o im1) by (by eapply (evolves_inv o false); [exact Hi|apply evolves_quiet]).
      pose proof (fades_close_all im1 Hi1) as Hf. pose proof (fades_flags _ _ Hf) as [= F1 F2 F3].
      split; rewrite ?F1, ?F2, ?F3; try done; [intros _; by apply close_all_settled|].
      intros Hs. destruct (decide (im_active (close_all im1) = im_active im1)) as [E|E].
      * rewrite E. destruct (C4 Hs) as [Hc|]; [left; apply (fd_wake _ _ Hf); by left|by right].
      * left. apply (fd_wake _ _ Hf). by right.
    + destruct (decide (im_shutdown im = sd_checking)) as [Hs|]; [|done]. injection Ha as <-.
      assert (Hj : im_joining im = true) by (apply C2; by rewrite Hs).
      unfold shutdown_check. destruct (im_active im =? 0) eqn:Ea; (split; cbn; [done|rewrite ?Hj; done|auto|]); [done|].
      intros _. right. apply Nat.eqb_neq in Ea. lia.
    + destruct (decide (im_shutdown im = sd_receiving)) as [Hs|]; [|done]. destruct (im_changed im); [|done]. injection Ha as <-.
      assert (Hj : im_joining im = true) by (apply C2; by rewrite Hs).
      split; cbn; rewrite ?Hj; [done|done|auto|done].
  - pose proof (act_flags a im im' Hi Ha Ecl) as [= F1 F2 F3]. destruct (im_closed im) eqn:Ec.
    + assert (Hf : fades im im') by (pose proof (act_fades a im im' Hi Ec Ha); by destruct a).
      split; rewrite ?F1, ?F2, ?F3; auto; [intros _; eapply fades_settled; [exact Hf|auto]|].
      intros Hs. destruct (decide (im_active im' = im_active im)) as [E|E].
      * rewrite E. destruct (C4 Hs) as [Hc|]; [left; apply (fd_wake _ _ Hf); by left|by right].
      * left. apply (fd_wake _ _ Hf). by right.
    + split; rewrite ?F1, ?F2, ?F3; auto; [done|]. intros Hs.
      assert (H : im_joining im = true) by (apply C2; by rewrite Hs). by apply C3 in H.
Qed.
Lemma reachable_closing h im : reachable (A := A) random_id compile_error dump create_session o h im -> closing im.
Proof.
  induction 1 as [utc steady im H|a im im' Hr IH H].
  - unfold create_service in H. destruct (options_invalid o); [done|]. injection H as <-. by split.
  - eapply act_closing; [by eapply service_inv|done..].
Qed.
End Shutdown.
