(* ===== verification/BackgroundService.v ===== *)
(** * oran-bootstrap: what background tasks and teams promise

    The properties of the service of [Background.v], whatever its hosts, its leaders and
    its members call and in whatever order its pumps, children and timers run: its bounds,
    boards that follow their jobs, dependencies that are accepted before work starts,
    acceptance by the leader alone, life cycles, scheduling that never stalls, shutdown
    that returns, and results that are handed over once and read in whole pages. *)
From S2P Require Import Prelude.
From S2P Require Import Core.
From S2P Require Import Utf8.
From S2P Require Import TurnId.
From S2P Require Import Json.
From S2P Require Import Rules.
From S2P Require Import AuditRows.
From S2P Require Import TaskGroup.
From S2P Require Import Dispatch.
From S2P Require Import TeamBoard.
From S2P Require Import Background.
From S2P Require Import BackgroundInvariant.
From S2P Require Import BackgroundSteps.
From S2P Require Import BackgroundShutdown.

Section Service.
Context {Sess Common A : Type}.
Context (random_id : nat -> Result TurnId) (compile_error : string -> option string) (dump : JsonWriter).
Context (create_session : SessionOptions Common -> Result Sess).
Implicit Types im : Impl Sess.
Implicit Types j : Job Sess.
Implicit Types t : Team Sess.
Implicit Types parent : SessionOptions Common.
Notation act := (act (A := A) random_id compile_error dump create_session).
Notation acts := (acts (A := A) random_id compile_error dump create_session).
Notation reachable := (reachable (A := A) random_id compile_error dump create_session).

Lemma acts_reachable o h l im im' : reachable o h im -> acts l im = Some im' -> reachable o h im'.
Proof.
  revert im. induction l as [|a l IH]; intros im Hr; cbn [Background.acts]; [by intros [= <-]|].
  destruct (act a im) as [im1|] eqn:E; [|done]. apply IH. by eapply reachable_act.
Qed.
Lemma acts_evolves o h l im im' : reachable o h im -> acts l im = Some im' -> rtc (micro o true) im im'.
Proof.
  revert im. induction l as [|a l IH]; intros im Hr; cbn [Background.acts]; [by intros [= <-]|].
  destruct (act a im) as [im1|] eqn:E; [|done]. intros H. assert (Hi := service_inv _ _ _ _ _ _ _ Hr).
  pose proof (act_evolves _ _ _ _ _ _ _ _ Hi E) as H1. etransitivity; [|apply IH; [by eapply reachable_act|done]].
  destruct (accepting a); [done|by apply evolves_any].
Qed.

Lemma accepted_stuck n p : rtc work_step (n, tt_accepted) p -> p.2 = tt_accepted.
Proof.
  intros H. remember (n, tt_accepted) as q eqn:E. assert (Hq : q.2 = tt_accepted) by (by subst).
  clear E. induction H as [|x y z Hs _ IH]; [done|]. exfalso.
  inversion Hs as [| |s s' m Hst| | |]; subst; cbn in *; try done; try naive_solver.
  inversion Hst; subst; try done.
Qed.

(** ** Bounds *)
(** Whatever is called, the jobs kept and the board entries waiting for one together
    never exceed the configured records, no more jobs are unfinished than may run and
    queue, the count of running children is exact and within its limit, every result and
    every board is within its bounds. *)
Theorem background_bounds o h im :
  reachable o h im ->
  length (im_jobs im) + waiting im <= max_records o /\
  unfinished im <= max_running o + max_queued o /\
  im_active im = length (filter (fun j => busy (job_state j) = true) (im_jobs im)) /\ im_active im <= max_running o /\
  (forall j, j ∈ im_jobs im -> String.length (jb_result j) <= max_result_bytes o) /\
  length (im_teams im) <= 16 /\
  (forall t, t ∈ im_teams im ->
     length (tm_members t) <= 4 /\ length (tm_work t) <= 32 /\ length (tm_messages t) <= 64 /\
     (forall recipient, pending_for t recipient <= 16) /\
     (forall w, w ∈ tm_work t -> 1 <= tk_attempt (wk_snapshot w) <= 3)).
Proof.
  intros Hr. pose proof (service_inv _ _ _ _ _ _ _ Hr) as Hi. split_and!; try apply Hi.
  intros t Ht. pose proof (iv_teams _ _ Hi t Ht) as Hok. split_and!; apply Hok.
Qed.

(** ** Boards and jobs *)
(** C18: The boards follow the jobs. A board entry is queued, running or cancelling
    exactly when a job of the service runs its present attempt, in that very state; every
    job that belongs to a board serves one of its entries; and no member works on two
    entries at once. *)
Theorem board_follows_jobs o h im :
  reachable o h im ->
  (forall t w, t ∈ im_teams im -> w ∈ tm_work t ->
     team_task_active (tk_state (wk_snapshot w)) = true <-> exists j, j ∈ im_jobs im /\ serves j t w) /\
  (forall j r, j ∈ im_jobs im -> jb_team j = Some r ->
     exists t w, t ∈ im_teams im /\ w ∈ tm_work t /\ tm_ref t = r /\ serves j t w) /\
  (forall t w w', t ∈ im_teams im -> w ∈ tm_work t -> w' ∈ tm_work t ->
     team_task_active (tk_state (wk_snapshot w)) = true -> team_task_active (tk_state (wk_snapshot w')) = true ->
     tk_member (wk_snapshot w) = tk_member (wk_snapshot w') -> w = w').
Proof.
  intros Hr. pose proof (service_inv _ _ _ _ _ _ _ Hr) as Hi. split_and!.
  - intros t w Ht Hw. split; [by apply (iv_down _ _ Hi)|]. intros (j & Hj & Hs). rewrite (sv_state _ _ _ Hs), active_board.
    apply negb_true_iff, not_true_iff_false. intros Hterm. pose proof (jo_over _ _ (iv_jobs _ _ Hi j Hj) Hterm) as Hn.
    by rewrite (sv_team _ _ _ Hs) in Hn.
  - apply (iv_up _ _ Hi).
  - intros t w w' Ht Hw Hw' Ha Ha' Hm. pose proof (iv_teams _ _ Hi t Ht) as Hok.
    apply (key_unique work_key (tm_work t)); [apply Hok|done..|]. by apply (to_single _ Hok).
Qed.

(** An entry of a board is queued, runs, is reported or is accepted only when every
    task it depends on has been accepted, and these stand before it on the board: work
    never starts on unreviewed results and dependencies have no cycle. *)
Theorem dependencies_accepted o h im t i w d :
  reachable o h im -> t ∈ im_teams im -> tm_work t !! i = Some w ->
  d ∈ tk_depends (wk_snapshot w) ->
  exists k w', k < i /\ tm_work t !! k = Some w' /\ work_key w' = d /\
    (admitted (tk_state (wk_snapshot w)) = true -> tk_state (wk_snapshot w') = tt_accepted).
Proof.
  intros Hr Ht Hw Hd. pose proof (service_inv _ _ _ _ _ _ _ Hr) as Hi. pose proof (iv_teams _ _ Hi t Ht) as Hok.
  pose proof (to_depends _ Hok i w d Hw Hd) as Hin. apply list_elem_of_fmap in Hin as (w' & -> & Hin).
  apply list_elem_of_lookup in Hin as [k Hk]. apply lookup_take_Some in Hk as [Hk Hlt].
  exists k, w'. split_and!; [done..|]. intros Ha.
  destruct (to_gate _ Hok w (work_key w')) as (v & Hv & Hvk & Hacc); [by eapply list_elem_of_lookup_2|done|done|].
  assert (v = w') as <-; [|done].
  apply (key_unique work_key (tm_work t)); [apply Hok|done|by eapply list_elem_of_lookup_2|done].
Qed.

(** ** Review *)
(** What [update_team_task] does when it accepts an entry. *)
Lemma accept_origin o t (req : TeamTaskUpdateRequest) turn im t' w' :
  Inv o im -> t ∈ im_teams im -> up_action req = act_accept ->
  t' ∈ im_teams (update_team_task t req turn im).2 -> w' ∈ tm_work t' -> tk_state (wk_snapshot w') = tt_accepted ->
  exists x w, x ∈ im_teams im /\ w ∈ tm_work x /\ tm_ref x = tm_ref t' /\ work_key w = work_key w' /\
    (tk_state (wk_snapshot w) = tt_accepted \/
     x = t /\ tm_stopped t = false /\ tm_id t = up_team req /\ work_key w = up_key req /\
     tk_attempt (wk_snapshot w) = up_attempt req /\ tk_state (wk_snapshot w) = tt_in_review).
Proof.
  intros Hi Ht Hreq Ht' Hw' Hs. assert (Hsame : t' ∈ im_teams im -> exists x w, x ∈ im_teams im /\ w ∈ tm_work x /\
      tm_ref x = tm_ref t' /\ work_key w = work_key w' /\ (tk_state (wk_snapshot w) = tt_accepted \/
      x = t /\ tm_stopped t = false /\ tm_id t = up_team req /\ work_key w = up_key req /\
      tk_attempt (wk_snapshot w) = up_attempt req /\ tk_state (wk_snapshot w) = tt_in_review)).
  { intros H. exists t', w'. split_and!; [done..|by left]. }
  unfold update_team_task in Ht'. rewrite Hreq in Ht'. destruct (negb (bool_decide (up_team req = tm_id t))) eqn:Eid; [auto|].
  destruct (find_work t (up_key req)) as [w|] eqn:Ew; [|auto]. destruct (find_work_some _ _ _ Ew) as [Hw Hk].
  destruct (negb (tk_attempt (wk_snapshot w) =? up_attempt req)) eqn:Eatt; [auto|].
  destruct (bool_decide (tk_state (wk_snapshot w) = tt_accepted)); [auto|]. destruct (tm_stopped t) eqn:Est; [auto|].
  destruct (negb (bool_decide (tk_state (wk_snapshot w) = tt_in_review))) eqn:Er; [auto|]. bool_prop.
  apply Nat.eqb_eq in Eatt.
  cbn [snd] in Ht'. apply upd_team_elem in Ht' as (x & Hx & ->). destruct (decide (tm_ref x = tm_ref t)) as [Hxr|]; [|auto].
  assert (x = t) as -> by (apply (key_unique tm_ref (im_teams im)); [apply Hi|done..]). cbn in Hw'.
  rewrite (update_first_map (fun w => bool_decide (work_key w = up_key req))) in Hw'.
  - apply list_elem_of_fmap in Hw' as (v & -> & Hv). exists t, v. destruct (bool_decide (work_key v = up_key req)) eqn:Ek.
    + bool_prop. assert (v = w) as ->.
      { apply (key_unique work_key (tm_work t)); [by apply (iv_teams _ _ Hi)|done..|congruence]. }
      split_and!; [done..|]. right. done.
    + split_and!; [done..|by left].
  - intros a b x y Ha Hb Hx1%Is_true_true%bool_decide_eq_true Hy1%Is_true_true%bool_decide_eq_true.
    apply (nodup_keys_lookup work_key (tm_work t) a b x y); [by apply (iv_teams _ _ Hi)|done|done|congruence].
Qed.
(** C19: Only the leader accepts. If an entry is accepted after an action and was not
    before, that action is an acceptance commanded by a permitted caller with the board's
    own owner, which named the board's current identity, the entry's key and its present
    attempt, while the entry was in review and the board open. *)
Theorem acceptance_is_explicit o h a im im' t' w' :
  reachable o h im -> act a im = Some im' -> t' ∈ im_teams im' -> w' ∈ tm_work t' ->
  tk_state (wk_snapshot w') = tt_accepted ->
  exists t w, t ∈ im_teams im /\ w ∈ tm_work t /\ tm_ref t = tm_ref t' /\ work_key w = work_key w' /\
    (tk_state (wk_snapshot w) = tt_accepted \/
     exists parent req cx,
       a = do_command parent (TeamTaskUpdate req) cx /\ up_action req = act_accept /\
       team_caller im parent cx = true /\ tm_owner t = task_owner parent /\ tm_stopped t = false /\
       tm_id t = up_team req /\ work_key w = up_key req /\ tk_attempt (wk_snapshot w) = up_attempt req /\
       tk_state (wk_snapshot w) = tt_in_review).
Proof.
  intros Hr Ha Ht' Hw' Hs. pose proof (service_inv _ _ _ _ _ _ _ Hr) as Hi. destruct (accepting a) eqn:Eacc.
  2: { pose proof (act_evolves _ _ _ _ _ _ _ _ Hi Ha) as He. rewrite Eacc in He.
       destruct (accepted_origin _ _ _ _ _ Hi He Ht' Hw' Hs) as (t & w & H1 & H2 & H3 & H4 & H5).
       exists t, w. split_and!; [done..|by left]. }
  assert (Hsame : im' = im -> exists t w, t ∈ im_teams im /\ w ∈ tm_work t /\ tm_ref t = tm_ref t' /\ work_key w = work_key w' /\
      tk_state (wk_snapshot w) = tt_accepted) by (intros ->; by exists t', w').
  destruct a as [| | | | | | |parent [] cx| | | | | | | | | | |]; try done. cbn in Eacc. bool_prop.
  cbn [Background.act] in Ha. injection Ha as Ha. unfold team_command in Ha.
  assert (Hleft : im' = im -> exists t w, t ∈ im_teams im /\ w ∈ tm_work t /\ tm_ref t = tm_ref t' /\ work_key w = work_key w' /\
      (tk_state (wk_snapshot w) = tt_accepted \/ exists parent0 req cx0,
         do_command parent (TeamTaskUpdate r) cx = do_command parent0 (TeamTaskUpdate req) cx0 /\ up_action req = act_accept /\
         team_caller im parent0 cx0 = true /\ tm_owner t = task_owner parent0 /\ tm_stopped t = false /\ tm_id t = up_team req /\
         work_key w = up_key req /\ tk_attempt (wk_snapshot w) = up_attempt req /\ tk_state (wk_snapshot w) = tt_in_review)).
  { intros E. destruct (Hsame E) as (t & w & H). exists t, w. naive_solver. }
  destruct (team_caller im parent cx) eqn:Ecall; [|by apply Hleft]. cbn [negb] in Ha.
  destruct (validate_team_command _); [|by apply Hleft]. destruct (_ && _ && _); [by apply Hleft|].
  unfold apply_command in Ha. cbn [is_read] in Ha. destruct (find_team (task_owner parent) im) as [t|] eqn:Ef; [|by apply Hleft].
  apply find_team_in in Ef as [Ht Hown]. pose proof (accept_origin o t r (cx_parent_turn_id cx) im) as Hor.
  pose proof (update_evolves o t r (cx_parent_turn_id cx) im Hi Ht) as Hev.
  destruct (update_team_task t r (cx_parent_turn_id cx) im) as [[[]|e] im1]; cbn [snd] in *.
  - assert (Hi1 := evolves_inv _ _ _ _ Hi Hev). subst im'.
    destruct (accepted_origin _ _ _ _ _ Hi1 (pump_evolves random_id dump o im1 Hi1) Ht' Hw' Hs) as (t1 & w1 & H1 & H2 & H3 & H4 & H5).
    destruct (Hor t1 w1 Hi Ht Eacc H1 H2 H5) as (x & w & G1 & G2 & G3 & G4 & G5). exists x, w.
    split_and!; [done|done|congruence|congruence|]. destruct G5 as [G5|(-> & G5 & G6 & G7 & G8 & G9)]; [by left|right].
    by exists parent, r, cx.
  - subst im1. destruct (Hor t' w' Hi Ht Eacc Ht' Hw' Hs) as (x & w & G1 & G2 & G3 & G4 & G5). exists x, w.
    split_and!; [done..|]. destruct G5 as [G5|(-> & G5 & G6 & G7 & G8 & G9)]; [by left|right]. by exists parent, r, cx.
Qed.

(** ** Life cycles *)
(** C20: Along any sequence of actions every job the service still holds has moved only
    forward (queued, running, cancelling, over) and keeps its owner and identity; a job
    that was over keeps its state and its result; jobs of the new state are those of the
    old or were created since; and every entry of a board that still exists has kept its
    key, member and dependencies and followed the life cycle of tasks: one attempt at a
    time, at most three, and nothing after acceptance. *)
Theorem task_lifecycle o h l im im' :
  reachable o h im -> acts l im = Some im' ->
  (forall j j', j ∈ im_jobs im -> j' ∈ im_jobs im' -> jb_ref j' = jb_ref j ->
     same_job j j' /\ rtc job_step (job_state j) (job_state j') /\
     (task_terminal (job_state j) = true -> job_state j' = job_state j /\ jb_result j' = jb_result j)) /\
  (forall j', j' ∈ im_jobs im' -> (exists j, j ∈ im_jobs im /\ jb_ref j = jb_ref j') \/ im_refs im <= jb_ref j') /\
  (forall t t' w, t ∈ im_teams im -> t' ∈ im_teams im' -> tm_ref t' = tm_ref t -> w ∈ tm_work t ->
     exists w', w' ∈ tm_work t' /\ same_entry w w' /\ rtc work_step (progress w) (progress w') /\
       (tk_state (wk_snapshot w) = tt_accepted -> tk_state (wk_snapshot w') = tt_accepted)).
Proof.
  intros Hr Ha. pose proof (service_inv _ _ _ _ _ _ _ Hr) as Hi. pose proof (acts_evolves _ _ _ _ _ Hr Ha) as He.
  assert (Hi' := evolves_inv _ _ _ _ Hi He). split_and!.
  - intros j j' Hj Hj' E. destruct (job_origin _ _ _ _ _ Hi He Hj') as [(k & Hk & Hc)|Hn].
    + assert (k = j) as ->.
      { apply (key_unique jb_ref (im_jobs im)); [apply Hi|done..|]. by rewrite <- E, (sj_ref _ _ (ca_same _ _ Hc)). }
      destruct Hc as [C1 C2 C3]. split_and!; [done..|]. intros Ht. split; [by apply terminal_stuck|auto].
    + exfalso. pose proof (iv_jnew _ _ Hi j Hj). lia.
  - intros j' Hj'. destruct (job_origin _ _ _ _ _ Hi He Hj') as [(k & Hk & Hc)|Hn]; [left|by right].
    exists k. split; [done|]. symmetry. apply (sj_ref _ _ (ca_same _ _ Hc)).
  - intros t t' w Ht Ht' E Hw. destruct (work_evolution _ _ _ _ _ _ Hi He Ht Hw) as [(x & w' & H1 & H2 & H3 & H4 & H5)|Hn].
    + assert (x = t') as -> by (apply (key_unique tm_ref (im_teams im')); [apply Hi'|done..|congruence]).
      exists w'. split_and!; [done..|]. intros Hacc. unfold progress in H5. rewrite Hacc in H5.
      by apply accepted_stuck in H5.
    + by destruct (Hn t' Ht').
Qed.

(** ** Progress *)
(** The end of a child, of its task group and of its monitor. *)
Definition winds_up im j (e : RunEnd) im' : Prop :=
  exists l, (l = [on_joined (jb_ref j)] \/ l = [on_run_end (jb_ref j) e; on_joined (jb_ref j)]) /\ acts l im = Some im'.
Lemma monitor_posts r im j g :
  job_at im r = Some j -> jb_group j = Some g ->
  im_pumps (monitor_ends r im) = S (im_pumps im) /\ im_active (monitor_ends r im) = im_active im - 1 /\
  im_changed (monitor_ends r im) = true.
Proof.
  intros E Eg. unfold monitor_ends. rewrite E, Eg. destruct (drain_completed g). destruct (ended _ _ _ _) as [s result].
  destruct (publish_frame (jb_team j) s result (upd_job im r (fun x => close_job x s result (im_steady im)))) as (_ & F1 & _ & _ & F2 & _).
  cbn [im_pumps im_active im_changed post_pump notify set_counts]. by rewrite F1, F2.
Qed.
Lemma busy_winds_up o im j e :
  Inv o im -> j ∈ im_jobs im -> busy (job_state j) = true ->
  exists im', winds_up im j e im' /\ im_pumps im' = S (im_pumps im) /\ S (im_active im') = im_active im /\ im_changed im' = true.
Proof.
  intros Hi Hj Hb. pose proof (count_busy_pos o im j Hi Hj Hb) as Hpos. pose proof (job_at_ref o im j Hi Hj) as Hat.
  destruct (proj2 (jo_group o j (iv_jobs _ _ Hi j Hj)) Hb) as [g Hg].
  pose proof (jo_lone o j (iv_jobs _ _ Hi j Hj) g Hg) as Hl. destruct (active g) as [|c cs] eqn:Eg.
  - destruct (monitor_posts _ _ _ _ Hat Hg) as (P1 & P2 & P3). exists (monitor_ends (jb_ref j) im). split.
    + exists [on_joined (jb_ref j)]. split; [by left|]. cbn [Background.acts Background.act]. by rewrite Hat, Hg, Eg.
    + rewrite P1, P2. split; [done|]. split; [lia|done].
  - set (im1 := upd_job im (jb_ref j) (fun j => run_ended j e)). pose proof (run_end_evolves o (jb_ref j) e im) as Hev.
    fold im1 in Hev. assert (Hi1 := evolves_inv _ _ _ _ Hi Hev).
    assert (Hin : run_ended j e ∈ im_jobs im1).
    { apply upd_job_elem. exists j. split; [done|]. by rewrite decide_True. }
    assert (Hat1 : job_at im1 (jb_ref j) = Some (run_ended j e)) by (by apply (job_at_ref o im1 (run_ended j e))).
    assert (Hg1 : jb_group (run_ended j e) = Some (end_child_of g e)) by (unfold run_ended; cbn [jb_group]; by rewrite Hg).
    assert (Ha : active (end_child_of g e) = []).
    { pose proof (end_child_shrinks g e) as Hs. rewrite Eg in Hs. cbn in Hl, Hs. destruct (active (end_child_of g e)); [done|cbn in Hs; lia]. }
    destruct (monitor_posts _ _ _ _ Hat1 Hg1) as (P1 & P2 & P3). exists (monitor_ends (jb_ref j) im1). split.
    + exists [on_run_end (jb_ref j) e; on_joined (jb_ref j)]. split; [by right|]. cbn [Background.acts Background.act].
      rewrite Hat, Hg, Eg. fold im1. by rewrite Hat1, Hg1, Ha.
    + rewrite P1, P2. cbn [im1 upd_job set_jobs im_pumps im_active]. split; [done|]. split; [lia|done].
Qed.
Lemma running_job o im : Inv o im -> 0 < im_active im -> exists j, j ∈ im_jobs im /\ busy (job_state j) = true.
Proof.
  intros Hi Ha. rewrite (iv_active _ _ Hi) in Ha. unfold count_busy in Ha.
  destruct (filter (fun j => busy (job_state j) = true) (im_jobs im)) as [|j l] eqn:E; [cbn in Ha; lia|].
  exists j. assert (Hin : j ∈ filter (fun j => busy (job_state j) = true) (im_jobs im)) by (rewrite E; by left).
  apply list_elem_of_filter in Hin. tauto.
Qed.
(** C21: Scheduling never stalls. While the service is open and a queued job or a ready
    board entry with an idle member waits, a pump is posted, or a child runs, and however
    that child ends its monitor ends and posts a pump; every pump leaves such work waiting
    only behind a running child; and every unfinished job has its timer armed. *)
Theorem scheduling_never_stalls o h im :
  reachable o h im -> im_closed im = false ->
  (pending im -> 0 < im_pumps im \/ exists j, j ∈ im_jobs im /\ busy (job_state j) = true /\
     forall e, exists im', winds_up im j e im' /\ 0 < im_pumps im') /\
  (forall im', act on_pump im = Some im' -> pending im' -> 0 < im_active im') /\
  (forall j, j ∈ im_jobs im -> task_terminal (job_state j) = false -> is_Some (jb_deadline j)).
Proof.
  intros Hr Hc. pose proof (service_inv _ _ _ _ _ _ _ Hr) as Hi. split_and!.
  - intros Hp. destruct (reachable_live _ _ _ _ _ _ _ Hr Hc Hp) as [|Ha]; [by left|right].
    destruct (running_job o im Hi Ha) as (j & Hj & Hb). exists j. split_and!; [done..|]. intros e.
    destruct (busy_winds_up o im j e Hi Hj Hb) as (im' & H & P & _). exists im'. split; [done|lia].
  - intros im' Ha. cbn [Background.act] in Ha. destruct (im_pumps im) as [|n]; [done|]. injection Ha as <-.
    set (im1 := set_counts _ _ _ _ _ _). assert (Hi1 : Inv o im1) by (by eapply (evolves_inv o false); [exact Hi|apply evolves_quiet]).
    apply (pump_runs random_id dump o); [done|eapply valid_running, reachable_bounds, Hr|].
    pose proof (pump_flags random_id dump im1) as Hf. injection Hf as -> _ _. done.
  - intros j Hj. apply (jo_timer _ _ (iv_jobs _ _ Hi j Hj)).
Qed.

(** C22: Shutdown ends everything and returns. A closed service has no queued or running
    job and no board that could start one; the loop of [shutdown] waits only while a
    child still runs or its end has been signalled, and each such child, however it ends,
    lowers the count and signals the loop; and when the loop ends, every job is over and
    no board entry waits or is active. *)
Theorem shutdown_ends_everything o h im :
  reachable o h im ->
  (im_closed im = true ->
     (forall j, j ∈ im_jobs im -> job_state j <> ts_queued /\ job_state j <> ts_running) /\
     (forall t w, t ∈ im_teams im -> w ∈ tm_work t -> tm_stopped t = true /\ tk_state (wk_snapshot w) <> tt_waiting)) /\
  (im_shutdown im = sd_receiving ->
     (exists im', act on_shutdown_receive im = Some im') \/
     exists j, j ∈ im_jobs im /\ busy (job_state j) = true /\ forall e, exists im', winds_up im j e im' /\
       S (im_active im') = im_active im /\ im_changed im' = true) /\
  (forall im', act on_shutdown_check im = Some im' -> im_shutdown im' = sd_none ->
     (forall j, j ∈ im_jobs im' -> task_terminal (job_state j) = true) /\
     (forall t w, t ∈ im_teams im' -> w ∈ tm_work t ->
        team_task_active (tk_state (wk_snapshot w)) = false /\ tk_state (wk_snapshot w) <> tt_waiting)).
Proof.
  intros Hr. pose proof (service_inv _ _ _ _ _ _ _ Hr) as Hi. destruct (reachable_closing _ _ _ _ _ _ _ Hr) as [C1 C2 C3 C4].
  split_and!.
  - intros Hc. destruct (C1 Hc) as [S1 S2]. split; [exact S1|]. intros t w Ht Hw. destruct (S2 t Ht) as [I1 I2]. auto.
  - intros Hs. destruct (C4 Hs) as [Hc|Ha].
    + left. cbn [Background.act]. rewrite decide_True by done. rewrite Hc. by eexists.
    + right. destruct (running_job o im Hi Ha) as (j & Hj & Hb). exists j. split_and!; [done..|]. intros e.
      destruct (busy_winds_up o im j e Hi Hj Hb) as (im' & H & _ & P). by exists im'.
  - cbn [Background.act]. intros im' Ha Hn. destruct (decide (im_shutdown im = sd_checking)) as [Hs|]; [|done].
    injection Ha as <-. unfold shutdown_check in *. destruct (im_active im =? 0) eqn:Ez; [|done]. apply Nat.eqb_eq in Ez.
    assert (Hcl : im_closed im = true) by (apply C3, C2; by rewrite Hs). destruct (C1 Hcl) as [S1 S2].
    cbn [im_jobs im_teams set_closing].
    assert (Hover : forall j, j ∈ im_jobs im -> task_terminal (job_state j) = true).
    { intros j Hj. destruct (S1 j Hj) as [N1 N2]. destruct (busy (job_state j)) eqn:Eb.
      - pose proof (count_busy_pos o im j Hi Hj Eb). lia.
      - by destruct (job_state j). }
    split; [exact Hover|]. intros t w Ht Hw. destruct (S2 t Ht) as [I1 I2]. split; [|by apply I2].
    apply not_true_iff_false. intros Hact. destruct (iv_down _ _ Hi t w Ht Hw Hact) as (j & Hj & Hsv).
    pose proof (jo_over _ _ (iv_jobs _ _ Hi j Hj) (Hover j Hj)) as Hno. by rewrite (sv_team _ _ _ Hsv) in Hno.
Qed.

(** ** Results *)
Lemma find_owned_unique o owner id im j :
  Inv o im -> j ∈ im_jobs im -> jb_owner j = owner -> job_id j = id -> find_owned owner id im = Some j.
Proof.
  intros Hi Hj Ho Hid. destruct (find_owned owner id im) as [k|] eqn:E.
  - apply find_owned_in in E as (Hk & _ & Hkid). f_equal.
    apply (key_unique job_id (im_jobs im)); [apply Hi|done..|congruence].
  - exfalso. by apply (find_none (P := owned owner id) _ E j Hj).
Qed.
Lemma upd_job_found o im j f :
  Inv o im -> j ∈ im_jobs im -> f j ∈ im_jobs (upd_job im (jb_ref j) f).
Proof. intros Hi Hj. apply upd_job_elem. exists j. split; [done|]. by rewrite decide_True. Qed.

(** A result is handed over once. Claiming a finished job's completion succeeds only
    once: until the claim is finished another is a conflict and no host is offered it
    again; a claim finished without being committed can be made again, a committed one
    never; and pruning never drops a job that is claimed, nor a result that is still owed
    to its owner. *)
Theorem completion_handed_over o h im im1 owner id :
  reachable o h im -> claim_completion owner id im = (Ok true, im1) ->
  fst (claim_completion owner id im1) = Err (Errors.mk ek_conflict "task completion is not ready") /\
  (forall o', next_completion o' im1 = Some id -> o' <> owner) /\
  fst (claim_completion owner id (finish_completion owner id false im1)) = Ok true /\
  (forall r im2, claim_completion owner id (finish_completion owner id true im1) = (r, im2) ->
     r = Ok false \/ r = Err (Errors.not_found "task completion is unavailable")) /\
  (forall j, j ∈ im_jobs im -> jb_claimed j = true \/ bg_automatic o = true /\ sn_acknowledged (jb_snapshot j) = false ->
     j ∈ im_jobs (prune im)).
Proof.
  intros Hr Hc. pose proof (service_inv _ _ _ _ _ _ _ Hr) as Hi.
  assert (Hi1 : Inv o im1).
  { pose proof (claim_evolves o owner id im Hi) as He. rewrite Hc in He. by eapply evolves_inv. }
  unfold claim_completion in Hc. destruct (find_owned owner id (prune im)) as [j|] eqn:Ef; [|done].
  destruct (sn_acknowledged (jb_snapshot j)) eqn:Eack; [done|].
  destruct (negb (task_terminal (job_state j)) || jb_claimed j) eqn:Et; [done|]. injection Hc as <-.
  apply orb_false_iff in Et as [Et Ecl]. apply negb_false_iff in Et.
  apply find_owned_in in Ef as (Hj & Ho & Hid). set (im1 := upd_job (prune im) (jb_ref j) (fun j => with_claim j true)) in *.
  assert (Hip : Inv o (prune im)) by (eapply (evolves_inv o false); [exact Hi|apply prune_evolves]).
  assert (Hin : with_claim j true ∈ im_jobs im1) by (by apply (upd_job_found o (prune im) j (fun j => with_claim j true))).
  assert (Hkeep : with_claim j true ∈ im_jobs (prune im1)).
  { apply list_elem_of_filter. split; [|done]. unfold prunable. cbn [jb_claimed with_claim negb]. by rewrite !andb_false_r. }
  assert (Hip1 : Inv o (prune im1)) by (eapply (evolves_inv o false); [exact Hi1|apply prune_evolves]).
  assert (Hf1 : find_owned owner id (prune im1) = Some (with_claim j true)) by (by apply (find_owned_unique o)).
  assert (Hfin : forall c, finish_completion owner id c im1 =
    upd_job (prune im1) (jb_ref j) (fun j => acknowledge (with_claim j false) c)).
  { intros c. unfold finish_completion. by rewrite Hf1. }
  split_and!.
  - unfold claim_completion. rewrite Hf1. cbn [with_claim jb_snapshot jb_claimed]. rewrite Eack, orb_true_r. done.
  - intros o' Hn ->. unfold next_completion in Hn. apply fmap_Some in Hn as ([i k] & Hk & Hkid).
    apply list_find_Some in Hk as (Hk & Hp%Is_true_true & _). cbn [snd] in *. apply list_elem_of_lookup_2 in Hk.
    assert (k = with_claim j true) as ->.
    { apply (key_unique job_id (im_jobs im1)); [apply Hi1|done|done|]. rewrite <- Hkid. by cbn. }
    unfold completion_pending in Hp. cbn [with_claim jb_claimed negb] in Hp. by rewrite andb_false_r in Hp.
  - rewrite Hfin. set (im2 := upd_job _ _ _). set (j2 := acknowledge (with_claim (with_claim j true) false) false).
    assert (Hi2 : Inv o im2).
    { pose proof (finish_evolves o owner id false im1) as He. rewrite Hfin in He. exact (evolves_inv _ _ _ _ Hi1 He). }
    assert (Hin2 : j2 ∈ im_jobs im2) by (by apply (upd_job_found o (prune im1) (with_claim j true) (fun j => acknowledge (with_claim j false) false))).
    unfold claim_completion. destruct (prunable im2 j2) eqn:Epr.
    { exfalso. apply list_elem_of_filter in Hj as [Hpj _]. unfold prunable in *. cbn in Epr, Hpj. unfold job_state in *.
      rewrite Et, Ecl, Eack in *. cbn in *. congruence. }
    assert (Hf2 : find_owned owner id (prune im2) = Some j2).
    { apply (find_owned_unique o); [eapply (evolves_inv o false); [exact Hi2|apply prune_evolves]|by apply list_elem_of_filter|done|done]. }
    rewrite Hf2. unfold j2, job_state in *. cbn [acknowledge with_snapshot with_claim jb_snapshot sn_ack sn_acknowledged jb_claimed sn_state].
    by rewrite Eack, Et.
  - intros r im2. rewrite Hfin. set (im3 := upd_job _ _ _). set (j2 := acknowledge (with_claim (with_claim j true) false) true).
    assert (Hi2 : Inv o im3).
    { pose proof (finish_evolves o owner id true im1) as He. rewrite Hfin in He. exact (evolves_inv _ _ _ _ Hi1 He). }
    assert (Hin2 : j2 ∈ im_jobs im3) by (by apply (upd_job_found o (prune im1) (with_claim j true) (fun j => acknowledge (with_claim j false) true))).
    unfold claim_completion. destruct (find_owned owner id (prune im3)) as [k|] eqn:Ek; [|intros [= <- _]; by right].
    apply find_owned_in in Ek as (Hk & _ & Hkid). assert (k = j2) as ->.
    { apply (key_unique job_id (im_jobs im3)); [apply Hi2|by apply list_elem_of_filter in Hk as [_ Hk]|done|]. by rewrite Hkid. }
    unfold j2. cbn [acknowledge with_snapshot with_claim jb_snapshot sn_ack sn_acknowledged]. rewrite orb_true_r.
    intros [= <- _]. by left.
  - intros k Hk Hheld. apply list_elem_of_filter. split; [|done]. unfold prunable. rewrite (iv_options _ _ Hi).
    destruct Hheld as [-> |[-> ->]]; cbn; by rewrite ?andb_false_r.
Qed.

(** A host that reads a result page by page, from the offset each page names. *)
Fixpoint read_pages (fuel max : nat) j (offset : nat) : Result string :=
  match fuel with
  | O => Ok ""%string
  | S fuel =>
      let? s := result_window j offset max in
      match sn_next s with
      | None => Ok (sn_result s)
      | Some next => let? rest := read_pages fuel max j next in Ok (sn_result s +:+ rest)%string
      end
  end.
Lemma lead_not_continuation c : lead_length (code c) <> 0 -> (Z.land (code c) 0xc0 =? 0x80)%Z = false.
Proof. destruct c as [[] [] [] [] [] [] [] []]; vm_compute; congruence. Qed.
Lemma encode_head cp cps : scalar cp -> exists c rest, encode_all (cp :: cps) = c :: rest /\ (Z.land (code c) 0xc0 =? 0x80)%Z = false.
Proof.
  intros Hcp. destruct (encode_lead cp Hcp) as (lead & conts & He & Hl). rewrite encode_all_cons, He. cbn [app].
  eexists _, _. split; [done|]. apply lead_not_continuation. pose proof (encode_length cp Hcp). lia.
Qed.
(** One page: whole code points, at least one where any is left. *)
Lemma page_step j max pre cps :
  Forall scalar (pre ++ cps) -> lit (jb_result j) = encode_all (pre ++ cps) ->
  4 <= max -> (Z.of_nat max <= 16384)%Z ->
  exists k s, result_window j (length (encode_all pre)) max = Ok s /\ sn_result s = str (encode_all (take k cps)) /\
    (cps <> [] -> 0 < k) /\
    (sn_next s = None /\ drop k cps = [] \/
     cps <> [] /\ sn_next s = Some (length (encode_all (pre ++ take k cps)))).
Proof.
  intros Hs Hlit Hmin Hmax. apply Forall_app in Hs as [_ Hcps].
  assert (Hlen : String.length (jb_result j) = length (encode_all pre) + length (encode_all cps))
    by (by rewrite <- lit_length, Hlit, encode_all_app, length_app).
  assert (Hrest : lit (rest_of (jb_result j) (length (encode_all pre))) = encode_all cps)
    by (unfold rest_of; by rewrite lit_str, Hlit, encode_all_app, drop_app_length).
  assert (Hk : exists k, truncated (rest_of (jb_result j) (length (encode_all pre))) max = str (encode_all (take k cps)) /\
    (cps <> [] -> 0 < k)).
  { unfold truncated. rewrite Hrest. destruct cps as [|cp cps]; [by exists 0|].
    apply Forall_cons in Hcps as [Hcp Hcps]. destruct (truncate_progress max cp cps) as (k & Hk & ->); [done..|].
    by exists k. }
  destruct Hk as (k & Hpart & Hk). exists k. unfold result_window. rewrite Hpart, Hlen.
  replace (max =? 0) with false by (symmetry; apply Nat.eqb_neq; lia).
  replace (16384 <? Z.of_nat max)%Z with false by (symmetry; apply Z.ltb_ge; lia).
  replace (_ + _ <? length (encode_all pre)) with false by (symmetry; apply Nat.ltb_ge; lia). cbn [orb].
  replace (_ && continuation_at _ _) with false.
  2: { symmetry. destruct (Nat.ltb_spec (length (encode_all pre)) (length (encode_all pre) + length (encode_all cps))); [|done].
       cbn [andb]. unfold continuation_at. rewrite Hlit, encode_all_app, lookup_app_r, Nat.sub_diag by lia.
       destruct cps as [|cp cps]; [done|]. apply Forall_cons in Hcps as [Hcp _].
       destruct (encode_head cp cps Hcp) as (c & rest & -> & Hc). exact Hc. }
  assert (Htake : length (encode_all (take k cps)) + length (encode_all (drop k cps)) = length (encode_all cps))
    by (by rewrite <- length_app, <- encode_all_app, take_drop).
  assert (Hne : take k cps <> [] -> str (encode_all (take k cps)) <> ""%string).
  { intros Hne He. apply (f_equal lit) in He. rewrite lit_str in He. destruct (take k cps) as [|cp l] eqn:E; [done|].
    assert (scalar cp) as Hcp by (apply (Forall_take _ k) in Hcps; rewrite E in Hcps; by inversion Hcps).
    destruct (encode_head cp l Hcp) as (c & r & Hr & _). by rewrite Hr in He. }
  replace (bool_decide _ && _) with false.
  2: { symmetry. destruct cps as [|cp cps]; [change (length (encode_all [])) with 0; rewrite Nat.add_0_r, Nat.ltb_irrefl; apply andb_false_r|].
       rewrite bool_decide_eq_false_2; [done|]. apply Hne. specialize (Hk ltac:(done)). by destruct k; [lia|]. }
  eexists. split; [done|]. cbn [window sn_result sn_next]. split; [done|]. split; [done|].
  unfold next_offset. rewrite Hlen, <- (lit_length (str _)), lit_str.
  destruct (Nat.ltb_spec (length (encode_all pre) + length (encode_all (take k cps))) (length (encode_all pre) + length (encode_all cps))).
  - right. rewrite encode_all_app, length_app. split; [|done]. intros ->. cbn in *. lia.
  - left. split; [done|]. destruct (drop k cps) as [|cp l] eqn:E; [done|]. exfalso.
    assert (scalar cp) as Hcp by (apply (Forall_drop _ k) in Hcps; rewrite E in Hcps; by inversion Hcps).
    destruct (encode_head cp l Hcp) as (c & r & Hr & _). rewrite Hr in Htake. cbn in Htake. lia.
Qed.
Lemma read_pages_from fuel max j pre cps :
  Forall scalar (pre ++ cps) -> lit (jb_result j) = encode_all (pre ++ cps) ->
  4 <= max -> (Z.of_nat max <= 16384)%Z -> length cps < fuel ->
  read_pages fuel max j (length (encode_all pre)) = Ok (str (encode_all cps)).
Proof.
  revert pre cps. induction fuel as [|fuel IH]; intros pre cps Hs Hlit Hmin Hmax Hf; [lia|]. cbn [read_pages].
  destruct (page_step j max pre cps Hs Hlit Hmin Hmax) as (k & s & -> & Hpart & Hk & [[Hn Hd]|[Hne Hn]]); cbn [result_bind]; rewrite Hn, Hpart.
  - f_equal. f_equal. f_equal. rewrite <- (take_drop k cps) at 2. by rewrite Hd, app_nil_r.
  - specialize (Hk Hne). rewrite (IH (pre ++ take k cps) (drop k cps)); rewrite <- ?app_assoc, ?take_drop; try done.
    + cbn [result_bind]. by rewrite <- str_app, <- encode_all_app, take_drop.
    + rewrite length_drop. destruct cps; [done|]. cbn [length] in *. lia.
Qed.
(** A result is read whole, page by page. For a result that is valid UTF-8 and a
    window with room for one code point, reading from offset 0 and then from the offset
    each page names ends with exactly the result: no page is refused, cuts a code point,
    repeats or skips a byte. *)
Theorem result_pages_exact j max fuel :
  is_valid_utf8 (lit (jb_result j)) = true -> 4 <= max -> (Z.of_nat max <= 16384)%Z ->
  String.length (jb_result j) < fuel -> read_pages fuel max j 0 = Ok (jb_result j).
Proof.
  intros (cps & Hs & Hlit)%is_valid_utf8_spec Hmin Hmax Hf.
  pose proof (read_pages_from fuel max j [] cps Hs Hlit Hmin Hmax) as H. change (length (encode_all [])) with 0 in H.
  rewrite H; [by rewrite <- Hlit, str_lit|]. pose proof (encode_all_length cps Hs).
  rewrite <- lit_length, Hlit in Hf. lia.
Qed.

(** ** Confinement *)
Lemma copied_rules rules rules' : copy_child_rules compile_error rules = Ok rules' -> rules' = rules.
Proof.
  revert rules'. induction rules as [|r rules IH]; intros rules'; cbn [copy_child_rules]; [by intros [= <-]|].
  destruct (copy_rule compile_error r) as [r'|] eqn:Er; [|done]. cbn [result_bind].
  destruct (copy_child_rules compile_error rules) as [l|]; [|done]. cbn [result_bind]. intros [= <-]. f_equal; [|by apply IH].
  unfold copy_rule in Er. destruct r as [v tp c [p|] a b]; cbn in Er; [|congruence]. unfold compile in Er.
  destruct (compile_error p); [done|]. cbn [result_bind] in Er. congruence.
Qed.
(** A session that the service creates for a caller. *)
Record confined im parent (cx : DispatchContext A) (opts : SessionOptions Common) : Prop := {
  cf_policy : so_policy opts = Some (cx_rules cx, cx_mode cx);
  cf_no_children : delegates im opts = false /\ so_background opts = false /\ so_max_child_runs opts = 0;
  cf_scope : so_scope_key opts = so_scope_key parent }.
(** Delegation never widens what is permitted. The session of a specialist or of a
    background run carries the caller's rules and mode unchanged and cannot delegate
    further; a specialist's tools are registered, are granted to the leader by its active
    tools, its allowlist and the catalogue, and include neither the background task tools
    nor a team tool other than [TeamMessage]; a background run keeps its parent's
    allowlist. *)
Theorem delegation_confined im parent (cx : DispatchContext A) :
  (forall spec t t' im', add_team_member random_id compile_error dump create_session parent spec cx t im = (Ok t', im') ->
     exists opts child m, create_session opts = Ok child /\ mb_child m = child /\ tm_members t' = tm_members t ++ [m] /\
       confined im parent cx opts /\ so_allowlist opts = Some (sp_tools spec) /\
       forall name, name ∈ sp_tools spec ->
         name ∈ ho_registry (im_host im) /\
         (forall l, cx_active_tools cx = Some l -> name ∈ l) /\ (forall l, so_allowlist parent = Some l -> name ∈ l) /\
         (ho_use_defaults (im_host im) = true \/ name ∈ ho_tool_names (im_host im)) /\
         name ∉ ["AgentRun"; "TaskGet"; "TaskCancel"]%string /\ (is_team_tool name = true -> name = "TeamMessage"%string)) /\
  (forall req s im', start random_id compile_error create_session parent req cx im = (Ok s, im') ->
     exists opts child j, create_session opts = Ok child /\ j ∈ im_jobs im' /\ jb_child j = Some child /\ jb_snapshot j = s /\
       confined im parent cx opts /\ so_allowlist opts = so_allowlist parent).
Proof.
  split.
  - intros spec t t' im'. unfold add_team_member. destruct (tm_stopped t); [done|]. destruct (_ || _); [done|].
    destruct (existsb _ _); [done|]. destruct (list_find _ _) as [[i name]|] eqn:Ef; [done|]. cbn [generate].
    destruct (random_id _) as [id|]; [|done]. destruct (copy_child_rules _ _) as [rules|] eqn:Er; [|done].
    destruct (create_session _) as [child|] eqn:Ec; [|done]. intros [= <- _]. eexists _, child, (mkMember _ _ child false).
    split; [exact Ec|]. split; [done|]. split; [reflexivity|]. apply copied_rules in Er as ->.
    split; [by split; [|split; [by unfold delegates; rewrite andb_false_r|]|]|]. split; [done|]. intros name Hname.
    apply list_find_None in Ef. rewrite Forall_forall in Ef. pose proof (Ef name Hname) as Hn.
    assert (Hr : tool_refused im parent cx name = false) by (by destruct (tool_refused im parent cx name); [destruct Hn|]).
    unfold tool_refused in Hr. repeat (apply orb_false_iff in Hr as [Hr ?]). bool_prop.
    split_and!; try done.
    + intros l Hl. rewrite Hl in *. by bool_prop.
    + intros l Hl. rewrite Hl in *. by bool_prop.
    + destruct (ho_use_defaults _); [by left|right]. cbn in *. by bool_prop.
    + intros Ht. match goal with H : is_team_tool name && _ = false |- _ => rewrite Ht in H; cbn in H end. by bool_prop.
  - intros req s im'. unfold start. destruct (negb _); [done|]. destruct (request_invalid req); [done|].
    destruct (im_closed (prune im) || _ || _); [done|]. cbn [generate]. destruct (random_id _) as [id|e]; [|done].
    destruct (existsb _ _); [done|]. destruct (copy_child_rules _ _) as [rules|] eqn:Er; [|done].
    destruct (create_session _) as [child|e] eqn:Ec; [|done]. cbn [allocate]. set (im3 := set_counts (set_counts (prune im) _ _ _ _ _) _ _ _ _ _). set (j := run_job _ _ _ _ _ _ _).
    pose proof (enqueue_spec j im3) as He. destruct (enqueue j im3) as [[[]|e] im4]; [|done]. intros [= <- <-].
    destruct He as [-> _]. eexists _, child, _. split; [exact Ec|]. split; [|split; [|split]].
    + cbn [post_pump set_counts set_jobs im_jobs]. apply elem_of_app. right. by left.
    + done.
    + done.
    + apply copied_rules in Er as ->. split; [|done]. by split; [|split; [by unfold delegates; rewrite andb_false_r|]|].
Qed.
End Service.

(** ** A team at work *)
Module Demo.
Definition draw (n : nat) : Result TurnId := Ok (write_u64_be zero_turn_id 8 (Z.of_nat (S n))).
Definition no_error (s : string) : option string := None.
Definition dump : JsonWriter := fun _ => "{}"%string.
Definition session (s : SessionOptions unit) : Result string := Ok (so_agent_key s).
Definition options : BackgroundTaskOptions := mkBgOptions 1 2 8 64 1000 1000 true true.
Definition host : Host := mkHost 7 8 9 ["file_read"; "TeamMessage"]%string true [].
Definition leader : SessionOptions unit :=
  mkSession tt 7 8 9 (write_u64_be zero_turn_id 0 1) "scope" "agent" "alice" "chat" None None 4 None "" "{}"
    true true true None None.
Definition context : DispatchContext unit :=
  mkContext default_ [] None true None true 5 None None None true None (mkCaps 0 0) None
    "scope" "agent" "alice".
Notation act := (act (A := unit) draw no_error dump session).
Notation acts := (acts (A := unit) draw no_error dump session).
Notation reachable := (reachable (A := unit) draw no_error dump session options host).
Definition empty : Impl string := mkImpl options host [] [] 0 false false false 0 sd_none 0 0 0 0.
Definition after (l : list (Action (Common := unit) (A := unit))) : Impl string :=
  match acts l empty with Some im => im | None => empty end.
Definition command (c : TeamCommand) : Action (Common := unit) (A := unit) := do_command leader c context.
Definition found : Action := command (TeamCreate (mkCreate "ship it" [mkSpec "ann" "write code" ["file_read"]])).
Definition first_task : Action := command (TeamTaskCreate (mkTaskCreate "build" "ann" "build it" [])).
Definition second_task : Action := command (TeamTaskCreate (mkTaskCreate "test" "ann" "test it" ["build"])).
Definition accept : Action := command (TeamTaskUpdate
  (mkUpdate "build" 1 act_accept "good" (match im_teams (after [found]) with t :: _ => tm_id t | [] => "" end))).
Definition begun : list Action := [found; first_task; second_task; on_pump].
Definition reported : list Action := begun ++ [on_run_end 1 (run_returned (Ok "built"%string)); on_joined 1; on_pump].
Lemma reached l : is_Some (acts l empty) -> reachable (after l).
Proof.
  intros [im H]. unfold after. rewrite H. eapply acts_reachable; [|exact H]. by eapply (reachable_created _ _ _ _ _ _ 0 0).
Qed.
Lemma begun_reached : reachable (after begun).
Proof. apply reached. vm_compute. by eexists. Qed.
Lemma reported_reached : reachable (after reported).
Proof. apply reached. vm_compute. by eexists. Qed.
Definition later : list Action := reported ++ [accept].
Lemma later_reached : reachable (after later).
Proof. apply reached. vm_compute. by eexists. Qed.
Definition board (im : Impl string) : Team string :=
  match im_teams im with t :: _ => t | [] => mkTeam 0 (task_owner leader) "" "" true [] [] [] end.
Definition entry (im : Impl string) (i : nat) : Work :=
  nth i (tm_work (board im)) (mkWork (mkTask "" "" [] 0 tt_cancelled "" "" false "" None) "" None).
Definition state_of (im : Impl string) (i : nat) : TeamTaskState := tk_state (wk_snapshot (entry im i)).
Lemma board_in im : im_teams im = [board im] -> board im ∈ im_teams im.
Proof. intros ->. by left. Qed.
Lemma closed_reached : reachable (after (begun ++ [do_shutdown; on_shutdown_check])).
Proof. apply reached. vm_compute. by eexists. Qed.

Lemma background_bounds_witness :
  im_active (after begun) = 1 /\ waiting (after begun) = 1 /\ length (im_jobs (after begun)) + waiting (after begun) <= 8.
Proof.
  split; [by vm_compute|]. split; [by vm_compute|].
  exact (proj1 (background_bounds (A := unit) draw no_error dump session options host (after begun) begun_reached)).
Defined.
Lemma board_follows_jobs_witness :
  state_of (after begun) 0 = tt_running /\
  forall t w, t ∈ im_teams (after begun) -> w ∈ tm_work t ->
    team_task_active (tk_state (wk_snapshot w)) = true <-> exists j, j ∈ im_jobs (after begun) /\ serves j t w.
Proof.
  split; [by vm_compute|].
  exact (proj1 (board_follows_jobs (A := unit) draw no_error dump session options host (after begun) begun_reached)).
Defined.
Lemma dependencies_accepted_witness :
  state_of (after later) 1 = tt_running /\
  exists k w', k < 1 /\ tm_work (board (after later)) !! k = Some w' /\ work_key w' = "build"%string /\
    (admitted (state_of (after later) 1) = true -> tk_state (wk_snapshot w') = tt_accepted).
Proof.
  split; [by vm_compute|].
  apply (dependencies_accepted (A := unit) draw no_error dump session options host (after later) (board (after later)) 1 (entry (after later) 1) "build"%string).
  - exact later_reached.
  - apply board_in. by vm_compute.
  - by vm_compute.
  - replace (tk_depends (wk_snapshot (entry (after later) 1))) with ["build"%string] by (by vm_compute). by left.
Defined.
Lemma acceptance_is_explicit_witness :
  act accept (after reported) = Some (after later) /\ state_of (after reported) 0 = tt_in_review /\
  state_of (after later) 0 = tt_accepted /\
  exists t w, t ∈ im_teams (after reported) /\ w ∈ tm_work t /\ work_key w = work_key (entry (after later) 0).
Proof.
  assert (Ha : act accept (after reported) = Some (after later)) by (by vm_compute).
  split; [exact Ha|]. split; [by vm_compute|]. split; [by vm_compute|].
  assert (Hb : board (after later) ∈ im_teams (after later)) by (apply board_in; by vm_compute).
  assert (Hw : entry (after later) 0 ∈ tm_work (board (after later))) by (apply (list_elem_of_lookup_2 _ 0); by vm_compute).
  assert (Hs : tk_state (wk_snapshot (entry (after later) 0)) = tt_accepted) by (by vm_compute).
  destruct (acceptance_is_explicit (A := unit) draw no_error dump session options host accept (after reported) (after later)
    (board (after later)) (entry (after later) 0) reported_reached Ha Hb Hw Hs) as (t & w & H1 & H2 & _ & H4 & _).
  exists t, w. split; [exact H1|]. split; [exact H2|exact H4].
Defined.
Lemma task_lifecycle_witness :
  acts (skipn 4 reported) (after begun) = Some (after reported) /\
  forall j', j' ∈ im_jobs (after reported) ->
    (exists j, j ∈ im_jobs (after begun) /\ jb_ref j = jb_ref j') \/ im_refs (after begun) <= jb_ref j'.
Proof.
  assert (H : acts (skipn 4 reported) (after begun) = Some (after reported)) by (by vm_compute). split; [exact H|].
  exact (proj1 (proj2 (task_lifecycle (A := unit) draw no_error dump session options host (skipn 4 reported) (after begun) (after reported) begun_reached H))).
Defined.
Lemma scheduling_never_stalls_witness :
  im_closed (after later) = false /\ forall im', act on_pump (after later) = Some im' -> pending im' -> 0 < im_active im'.
Proof.
  pose proof later_reached as Hr.
  assert (Hc : im_closed (after later) = false) by (by vm_compute). split; [done|].
  exact (proj1 (proj2 (scheduling_never_stalls (A := unit) draw no_error dump session options host (after later) Hr Hc))).
Defined.
Lemma shutdown_ends_everything_witness :
  im_shutdown (after (begun ++ [do_shutdown; on_shutdown_check])) = sd_receiving /\
  forall j, j ∈ im_jobs (after (begun ++ [do_shutdown; on_shutdown_check])) ->
    job_state j <> ts_queued /\ job_state j <> ts_running.
Proof.
  split; [by vm_compute|].
  refine (proj1 (proj1 (shutdown_ends_everything (A := unit) draw no_error dump session options host
    (after (begun ++ [do_shutdown; on_shutdown_check])) closed_reached) _)).
  by vm_compute.
Defined.
Definition alice : TaskOwner := task_owner leader.
Definition run_id : string := match im_jobs (after reported) with j :: _ => job_id j | [] => "" end.
Lemma completion_handed_over_witness :
  fst (claim_completion alice run_id (after reported)) = Ok true /\
  fst (claim_completion alice run_id (snd (claim_completion alice run_id (after reported)))) =
    Err (Errors.mk ek_conflict "task completion is not ready").
Proof.
  split; [by vm_compute|].
  refine (proj1 (completion_handed_over (A := unit) draw no_error dump session options host (after reported)
    (snd (claim_completion alice run_id (after reported))) alice run_id reported_reached _)).
  by vm_compute.
Defined.
Definition finished : Job string := match im_jobs (after reported) with j :: _ => j | [] => mkJob 0 alice None
  (mkSnapshot "" "" "" ts_queued 0 0 true false "" 0 0 None false None "" "" 0) None None None "" None "" false false 0 None end.
Lemma result_pages_exact_witness : read_pages 6 4 finished 0 = Ok "built"%string.
Proof. apply (result_pages_exact finished 4 6); [by vm_compute|lia|lia|vm_compute; lia]. Defined.
Definition bob : TeamMemberSpec := mkSpec "bob" "review code" ["file_read"; "TeamMessage"]%string.
Definition with_bob : Team string :=
  match fst (add_team_member draw no_error dump session leader bob context (board (after [found])) (after [found])) with
  | Ok t => t | Err _ => board (after [found]) end.
Lemma delegation_confined_witness :
  length (tm_members with_bob) = 2 /\
  exists opts child m, session opts = Ok child /\ mb_child m = child /\
    tm_members with_bob = tm_members (board (after [found])) ++ [m] /\ so_max_child_runs opts = 0.
Proof.
  split; [by vm_compute|].
  destruct (proj1 (delegation_confined (A := unit) draw no_error dump session (after [found]) leader context)
    bob (board (after [found])) with_bob
    (snd (add_team_member draw no_error dump session leader bob context (board (after [found])) (after [found]))))
    as (opts & child & m & H1 & H2 & H3 & H4 & _); [by vm_compute|].
  exists opts, child, m. split; [exact H1|]. split; [exact H2|]. split; [exact H3|].
  exact (proj2 (proj2 (cf_no_children _ _ _ _ H4))).
Defined.
End Demo.
