(* ===== verification/Sqlite.v ===== *)
(** * oran-storage: SQLite connections and transactions

    Models the use the repositories make of [src/oran-storage/sqlite.cpp].  A connection
    carries the contents of the database, of any type [T]; every call into SQLite can fail
    ([faults n] is the error of the [n]-th call, if it fails) and then changes nothing.  An
    open transaction remembers the contents it would restore: [Transaction::begin], [commit]
    and the destructor.  [BEGIN IMMEDIATE] keeps other writers out, so between two
    transactions the contents are the committed ones.  A rollback is taken to succeed: its
    result is discarded by the code, and SQLite drops an open transaction with its connection.

    The rest is the program logic of the repositories: [does] (what a success means),
    [atomic] (all or nothing), [reads] (readers) and [succeeds] (absence of faults). *)
From S2P Require Import Prelude.
From S2P Require Import Core.

(** ** A connection *)
Record Conn (T : Type) := mkConn { cn_tables : T; cn_saved : option T; cn_calls : nat }.
Arguments mkConn {T} _ _ _.
Arguments cn_tables {T} _.
Arguments cn_saved {T} _.
Arguments cn_calls {T} _.
Definition Db (T A : Type) := Conn T -> Result A * Conn T.

Section Monad.
Context {T : Type}.
Definition retD {A} (a : A) : Db T A := fun c => (Ok a, c).
Definition failD {A} (e : Error) : Db T A := fun c => (Err e, c).
Definition bindD {A B} (x : Db T A) (f : A -> Db T B) : Db T B :=
  fun c => match x c with (Ok a, c) => f a c | (Err e, c) => (Err e, c) end.
End Monad.
Notation "'db!' x := r 'in' k" := (bindD r (fun x => k)) (at level 10, x pattern, r at level 100, k at level 200) : oran_scope.
Definition lift {T A} (r : Result A) : Db T A := match r with Ok a => retD a | Err e => failD e end.

Section Calls.
Context {T : Type} (faults : nat -> option Error).

(** A call into SQLite: it fails and changes nothing, or takes effect. *)
Definition call {A} (f : nat -> T -> Result A * T) : Db T A :=
  fun c => match faults (cn_calls c) with
  | Some e => (Err e, mkConn (cn_tables c) (cn_saved c) (S (cn_calls c)))
  | None => let '(r, t) := f (cn_calls c) (cn_tables c) in (r, mkConn t (cn_saved c) (S (cn_calls c)))
  end.
(** Acquiring a lease or a cached statement, preparing, binding, resetting. *)
Definition step_only : Db T unit := call (fun _ t => (Ok tt, t)).
Definition select {A} (f : T -> Result A) : Db T A := call (fun _ t => (f t, t)).

(** [Transaction]: begin, commit, and the destructor of one that was not committed. *)
Definition begin : Db T unit :=
  fun c => match step_only c with
  | (Ok _, c) => (Ok tt, mkConn (cn_tables c) (Some (cn_tables c)) (cn_calls c))
  | r => r
  end.
Definition commit : Db T unit :=
  fun c => match step_only c with
  | (Ok _, c) => (Ok tt, mkConn (cn_tables c) None (cn_calls c))
  | r => r
  end.
Definition rollback (c : Conn T) : Conn T :=
  mkConn (default (cn_tables c) (cn_saved c)) None (S (cn_calls c)).
Definition transaction {A} (body : Db T A) : Db T A :=
  db! _ := begin in
  fun c => match (db! a := body in db! _ := commit in retD a) c with
  | (Ok a, c) => (Ok a, c)
  | (Err e, c) => (Err e, rollback c)
  end.
(** Stepping through the rows of a statement; the last step finds no row. *)
Fixpoint read_rows {R A} (read : R -> Result A) (rows : list R) : Db T (list A) :=
  db! _ := step_only in
  match rows with
  | [] => retD []
  | r :: rows => db! m := lift (read r) in db! ms := read_rows read rows in retD (m :: ms)
  end.
(** The lease, the cached statement and its bindings. *)
Definition open_reader : Db T unit := db! _ := step_only in db! _ := step_only in step_only.
End Calls.

Section Logic.
Context {T : Type}.

(** ** What an operation does when it succeeds *)
(** [does x P]: a successful [x] relates the tables before and after by [P], and no
    outcome of [x] closes or replaces the open transaction. *)
Definition does {A} (x : Db T A) (P : T -> A -> T -> Prop) : Prop :=
  forall c, match x c with
  | (Ok a, c') => P (cn_tables c) a (cn_tables c') /\ cn_saved c' = cn_saved c
  | (Err _, c') => cn_saved c' = cn_saved c
  end.
Definition stays {A} (t : T) (_ : A) (t' : T) : Prop := t' = t.

Lemma does_weaken {A} (x : Db T A) (P Q : T -> A -> T -> Prop) :
  does x P -> (forall t a t', P t a t' -> Q t a t') -> does x Q.
Proof. intros Hx HPQ c. specialize (Hx c). destruct (x c) as [[a|e] c']; naive_solver. Qed.
Lemma does_retD {A} (a : A) : does (retD a) (fun t b t' => b = a /\ t' = t).
Proof. intros c. split; [split|]; reflexivity. Qed.
Lemma does_fail {A} e (P : T -> A -> T -> Prop) : does (failD e) P.
Proof. intros c. reflexivity. Qed.
Lemma does_bindD {A B} (x : Db T A) (f : A -> Db T B) P Q :
  does x P -> (forall a, does (f a) (Q a)) ->
  does (bindD x f) (fun t b t' => exists a t1, P t a t1 /\ Q a t1 b t').
Proof.
  intros Hx Hf c. unfold bindD. specialize (Hx c). destruct (x c) as [[a|e] c1]; [|done].
  destruct Hx as [HP Hs]. specialize (Hf a c1). destruct (f a c1) as [[b|e] c2].
  - destruct Hf as [HQ Hs2]. split; [by exists a, (cn_tables c1)|congruence].
  - congruence.
Qed.
Context (faults : nat -> option Error).

Lemma does_call {A} (f : nat -> T -> Result A * T) :
  does (call faults f) (fun t a t' => exists n, f n t = (Ok a, t')).
Proof.
  intros c. unfold call. destruct (faults (cn_calls c)); [reflexivity|].
  destruct (f (cn_calls c) (cn_tables c)) as [[a|e] t] eqn:Hf; [|reflexivity].
  split; [by exists (cn_calls c)|reflexivity].
Qed.
Lemma does_step : does (step_only faults) stays.
Proof. eapply does_weaken; [apply does_call|]. intros t a t' [n Hn]. by injection Hn. Qed.
Lemma does_select {A} (f : T -> Result A) :
  does (select faults f) (fun t a t' => f t = Ok a /\ t' = t).
Proof. eapply does_weaken; [apply does_call|]. intros t a t' [n Hn]. by injection Hn. Qed.

(** A step that leaves the tables alone can be left out. *)
Lemma does_after {A B} (x : Db T A) (f : A -> Db T B) Q :
  does x stays -> (forall a, does (f a) Q) -> does (bindD x f) Q.
Proof.
  intros Hx Hf. eapply does_weaken; [by apply (does_bindD _ _ stays (fun _ => Q))|].
  intros t b t' (a & t1 & -> & HQ). exact HQ.
Qed.
Lemma does_before {A B} (x : Db T A) (f : A -> B) (g : Db T unit) (P : T -> B -> T -> Prop) :
  does x (fun t a t' => P t (f a) t') -> does g stays ->
  does (bindD x (fun a => bindD g (fun _ => retD (f a)))) P.
Proof.
  intros Hx Hg. eapply does_weaken.
  - apply does_bindD; [exact Hx|]. intros a. apply does_after; [exact Hg|]. intros _. apply does_retD.
  - by intros t b t' (a & t1 & HP & -> & ->).
Qed.

(** [atomic x P]: outside a transaction, [x] either relates the tables by [P] or fails and
    leaves them alone; it leaves no transaction open. *)
Definition atomic {A} (x : Db T A) (P : T -> A -> T -> Prop) : Prop :=
  forall c, cn_saved c = None ->
  match x c with
  | (Ok a, c') => P (cn_tables c) a (cn_tables c') /\ cn_saved c' = None
  | (Err _, c') => cn_tables c' = cn_tables c /\ cn_saved c' = None
  end.
(** What does not touch the tables at all, whether it succeeds or fails. *)
Definition quiet {A} (x : Db T A) : Prop :=
  forall c, cn_tables (snd (x c)) = cn_tables c /\ cn_saved (snd (x c)) = cn_saved c.

Lemma quiet_select {A} (f : T -> Result A) : quiet (select faults f).
Proof. intros c. unfold select, call. by destruct (faults (cn_calls c)). Qed.
Lemma quiet_step : quiet (step_only faults).
Proof. intros c. unfold step_only, call. by destruct (faults (cn_calls c)). Qed.
Lemma atomic_fail {A} e (P : T -> A -> T -> Prop) : atomic (failD e) P.
Proof. by intros c. Qed.
Lemma atomic_after {A B} (x : Db T A) (f : A -> Db T B) P :
  quiet x -> (forall a, atomic (f a) P) -> atomic (bindD x f) P.
Proof.
  intros Hx Hf c Hc. unfold bindD. destruct (Hx c) as [Ht Hs].
  destruct (x c) as [[a|e] c1]; simpl in *; [|by rewrite Ht, Hs].
  rewrite <- Ht. apply Hf. by rewrite Hs.
Qed.
Lemma quiet_ret {A} (a : A) : quiet (retD a).
Proof. by intros c. Qed.
Lemma quiet_fail {A} e : quiet (failD (A := A) e).
Proof. by intros c. Qed.
Lemma quiet_lift {A} (r : Result A) : quiet (lift r).
Proof. by destruct r. Qed.
Lemma quiet_bind {A B} (x : Db T A) (f : A -> Db T B) : quiet x -> (forall a, quiet (f a)) -> quiet (bindD x f).
Proof.
  intros Hx Hf c. unfold bindD. destruct (Hx c) as [Ht Hs]. destruct (x c) as [[a|e] c1]; simpl in *; [|done].
  destruct (Hf a c1) as [Ht1 Hs1]. by rewrite Ht1, Hs1.
Qed.
Lemma quiet_open : quiet (open_reader faults).
Proof. unfold open_reader. do 2 (apply quiet_bind; [apply quiet_step|intros _]). apply quiet_step. Qed.
Lemma quiet_rows {R A} (read : R -> Result A) rows : quiet (read_rows faults read rows).
Proof.
  induction rows as [|r rows IH]; simpl; (apply quiet_bind; [apply quiet_step|intros _]); [apply quiet_ret|].
  apply quiet_bind; [apply quiet_lift|]. intros a. apply quiet_bind; [exact IH|]. intros. apply quiet_ret.
Qed.
(** What a quiet operation gives holds of the tables it leaves alone. *)
Lemma atomic_quiet {A} (x : Db T A) P : quiet x -> does x P -> atomic x P.
Proof.
  intros Hq Hd c Hc. specialize (Hd c). destruct (Hq c) as [Ht Hs].
  destruct (x c) as [[a|e] c']; simpl in *; [|by rewrite Ht, Hs]. destruct Hd as [HP Hs']. by rewrite Hs, Hc.
Qed.
Lemma does_lift {A} (r : Result A) : does (lift r) (fun t a t' => r = Ok a /\ t' = t).
Proof. by destruct r. Qed.
Lemma does_open : does (open_reader faults) stays.
Proof. unfold open_reader. do 2 (apply does_after; [apply does_step|intros _]). apply does_step. Qed.
Lemma does_rows {R A} (read : R -> Result A) rows :
  does (read_rows faults read rows) (fun t ms t' => Forall2 (fun r m => read r = Ok m) rows ms /\ t' = t).
Proof.
  induction rows as [|r rows IH]; simpl; (apply does_after; [apply does_step|intros _]).
  - eapply does_weaken; [apply does_retD|]. by intros t ms t' [-> ->].
  - eapply does_weaken; [apply does_bindD; [apply does_lift|]; intros a; apply does_bindD; [exact IH|]; intros ms; apply does_retD|].
    intros t ms t' (a & t1 & [Hr ->] & ms' & t2 & [Hms ->] & -> & ->). split; [by constructor|done].
Qed.
(** An operation that depends on the tables it starts from. *)
Lemma does_tables {A} (x : T -> Db T A) P :
  (forall t0, does (x t0) (fun t a t' => t = t0 -> P t a t')) -> does (fun c => x (cn_tables c) c) P.
Proof.
  intros Hx c. specialize (Hx (cn_tables c) c). destruct (x _ c) as [[a|e] c']; [|exact Hx].
  destruct Hx as [HP Hs]. by split; [apply HP|].
Qed.
(** A transaction takes effect as a whole or not at all. *)
Lemma atomic_transaction {A} (body : Db T A) P : does body P -> atomic (transaction faults body) P.
Proof.
  intros Hbody c Hc. unfold transaction, bindD, begin, commit. destruct (quiet_step c) as [Ht Hs].
  destruct (step_only faults c) as [[u|e] c1]; simpl in Ht, Hs |- *; [|by rewrite Ht, Hs].
  specialize (Hbody (mkConn (cn_tables c1) (Some (cn_tables c1)) (cn_calls c1))).
  destruct (body _) as [[a|e] c2]; [|by simpl in Hbody |- *; rewrite Hbody, <- Ht].
  destruct Hbody as [HP Hs2]. simpl in HP, Hs2. rewrite Ht in HP. destruct (quiet_step c2) as [Ht2 Hs3].
  destruct (step_only faults c2) as [[u'|e] c3]; simpl in Ht2, Hs3 |- *; [by rewrite Ht2|].
  by rewrite Hs3, Hs2, <- Ht.
Qed.

(** ** Readers *)
(** A reader leaves the tables alone and fails for a fault of SQLite or for a reason of its own. *)
Definition reads {A} (x : Db T A) (Q : A -> Prop) (E : Error -> Prop) (t : T) : Prop :=
  forall c, cn_tables c = t -> cn_tables (snd (x c)) = t /\
  match fst (x c) with Ok a => Q a | Err e => E e \/ exists n, faults n = Some e end.
Lemma reads_ret {A} (a : A) (Q : A -> Prop) E t : Q a -> reads (retD a) Q E t.
Proof. by intros HQ c Hc. Qed.
Lemma reads_fail {A} e (Q : A -> Prop) (E : Error -> Prop) t : E e -> reads (failD e) Q E t.
Proof. intros He c Hc. split; [exact Hc|by left]. Qed.
Lemma reads_weaken {A} (x : Db T A) (Q Q' : A -> Prop) (E E' : Error -> Prop) t :
  reads x Q E t -> (forall a, Q a -> Q' a) -> (forall e, E e -> E' e) -> reads x Q' E' t.
Proof. intros Hx HQ HE c Hc. destruct (Hx c Hc) as [Ht Hr]. split; [exact Ht|]. destruct (fst (x c)); naive_solver. Qed.
Lemma reads_bind {A B} (x : Db T A) (f : A -> Db T B) (P : A -> Prop) (Q : B -> Prop) E t :
  reads x P E t -> (forall a, P a -> reads (f a) Q E t) -> reads (bindD x f) Q E t.
Proof.
  intros Hx Hf c Hc. destruct (Hx c Hc) as [Ht Hr]. unfold bindD.
  destruct (x c) as [[a|e] c1]; simpl in *; [by apply Hf|done].
Qed.
Lemma reads_step E t : reads (step_only faults) (fun _ => True) E t.
Proof. intros c <-. unfold step_only, call. destruct (faults (cn_calls c)) eqn:Hf; simpl; [|done]. split; [done|]. right. by exists (cn_calls c). Qed.
Lemma reads_after {A} (f : unit -> Db T A) Q E t : reads (f tt) Q E t -> reads (bindD (step_only faults) f) Q E t.
Proof. intros Hf. eapply reads_bind; [apply reads_step|]. by intros [] _. Qed.

Lemma reads_open {A} (f : unit -> Db T A) Q E t : reads (f tt) Q E t -> reads (bindD (open_reader faults) f) Q E t.
Proof. intros Hf. eapply (reads_bind _ _ (fun _ => True)); [by do 2 apply reads_after; apply reads_step|]. by intros [] _. Qed.
Lemma reads_lift {A B} (r : Result A) (f : A -> Db T B) Q E t a :
  r = Ok a -> reads (f a) Q E t -> reads (bindD (lift r) f) Q E t.
Proof. intros -> Hf. eapply (reads_bind _ _ (fun a' => a' = a)); [by apply reads_ret|]. by intros a' ->. Qed.
Lemma reads_rows {R A} (read : R -> Result A) rows ms E t :
  Forall2 (fun r m => read r = Ok m) rows ms -> reads (read_rows faults read rows) (fun ms' => ms' = ms) E t.
Proof.
  induction 1 as [|r m rows ms Hr _ IH]; simpl; apply reads_after; [by apply reads_ret|].
  eapply reads_lift; [exact Hr|]. eapply reads_bind; [exact IH|]. intros ms' ->. by apply reads_ret.
Qed.

(** ** Success *)
Context (calm : forall n, faults n = None).
Definition succeeds {A} (x : Db T A) (t : T) : Prop :=
  forall c, cn_tables c = t -> exists a c', x c = (Ok a, c').
Lemma succeeds_ret {A} (a : A) t : succeeds (retD a) t.
Proof. intros c _. by exists a, c. Qed.
Lemma succeeds_bind {A B} (x : Db T A) (f : A -> Db T B) P t :
  succeeds x t -> does x P -> (forall a t', P t a t' -> succeeds (f a) t') -> succeeds (bindD x f) t.
Proof.
  intros Hx HP Hf c Hc. destruct (Hx c Hc) as (a & c1 & He). specialize (HP c). unfold bindD. rewrite He in *.
  destruct HP as [HP _]. rewrite Hc in HP. by apply (Hf a (cn_tables c1) HP).
Qed.
Lemma succeeds_call {A} (f : nat -> T -> Result A * T) t :
  (forall n, exists a t', f n t = (Ok a, t')) -> succeeds (call faults f) t.
Proof.
  intros Hf c Hc. unfold call. rewrite calm, Hc. destruct (Hf (cn_calls c)) as (a & t' & ->). eauto.
Qed.
Lemma succeeds_step t : succeeds (step_only faults) t.
Proof. apply succeeds_call. eauto. Qed.
Lemma succeeds_after {A} (f : unit -> Db T A) t : succeeds (f tt) t -> succeeds (bindD (step_only faults) f) t.
Proof. intros Hf. eapply succeeds_bind; [apply succeeds_step|apply does_step|]. by intros [] t' ->. Qed.
Lemma succeeds_transaction {A} (body : Db T A) P t :
  does body P -> succeeds body t -> succeeds (transaction faults body) t.
Proof.
  intros Hd Hb c <-. unfold transaction, bindD, begin, commit, step_only, call. rewrite calm. cbn.
  destruct (Hb (mkConn (cn_tables c) (Some (cn_tables c)) (S (cn_calls c))) eq_refl) as (a & c1 & ->).
  rewrite calm. cbn. eauto.
Qed.
End Logic.
