(* ===== verification/SessionRepository.v ===== *)
(** * oran-storage: the session repository

    Models [src/oran-storage/session_repository.cpp], [src/oran-storage/session_import.cpp]
    and the migrations [migrations/sessions/0001] and [0002] they work on, over the
    connections of [Sqlite].  The tables are lists of rows, and a SQL statement is the
    function on tables its text denotes.

    Parameters: the faults, the clock of [strftime], SQLite's JSON reader and writer, and
    how it converts a JSON value that is no integer to one. *)
From stdpp Require Import sorting.
From S2P Require Import Prelude.
From S2P Require Import Core.
From S2P Require Import Utf8.
From S2P Require Import Json.
From S2P Require Import OrderedJson.
From S2P Require Import Sqlite.
Import EnumNames.
#[local] Open Scope Z_scope.

(** ** Rows and requests *)
Record SessionKey := mkSessionKey { key_session : string; key_agent : string }.
#[export] Instance SessionKey_eq_dec : EqDecision SessionKey.
Proof. solve_decision. Defined.

Record MessageRow := mkMessageRow {
  row_key : SessionKey; row_sequence : Z; row_role : string; row_content : string;
  row_metadata : string; row_created : string }.
Record SessionRow := mkSessionRow {
  ses_key : SessionKey; ses_title : option string; ses_metadata : string; ses_created : string; ses_updated : string }.
Record SkillRow := mkSkillRow {
  skl_key : SessionKey; skl_name : string; skl_active : Z; skl_created : string; skl_updated : string }.
Record Tables := mkTables {
  tb_messages : list MessageRow; tb_sessions : list SessionRow; tb_skills : list SkillRow }.

Record SessionMessageInput := mkMessageInput { mi_role : Role; mi_content_json : string; mi_metadata_json : string }.
Record SessionMessageRecord := mkMessageRecord {
  mr_key : SessionKey; mr_sequence : Z; mr_role : Role; mr_content_json : string;
  mr_metadata_json : string; mr_created_at : string }.
Record SessionRecord := mkSessionRecord {
  sr_key : SessionKey; sr_title : option string; sr_metadata_json : string; sr_created_at : string;
  sr_updated_at : string; sr_message_count : Z }.
Record SessionCommit := mkSessionCommit {
  cm_expected_messages : Z; cm_expected_revision : Z; cm_checkpoint_json : string }.

(** ** Statements *)
(** The rows of a session, [WHERE session_id = ? AND agent_key = ?]. *)
Definition rows_of (key : SessionKey) (t : Tables) : list MessageRow :=
  filter (fun r => row_key r = key) (tb_messages t).
Definition by_sequence (a b : MessageRow) : Prop := row_sequence a <= row_sequence b.
#[export] Instance by_sequence_dec a b : Decision (by_sequence a b).
Proof. unfold by_sequence. apply _. Defined.
(** [ORDER BY sequence]. *)
Definition ordered_rows (key : SessionKey) (t : Tables) : list MessageRow := merge_sort by_sequence (rows_of key t).
(** [COALESCE(MAX(sequence), 0)]. *)
Definition max_sequence (key : SessionKey) (t : Tables) : Z :=
  match rows_of key t with
  | [] => 0
  | r :: rs => fold_left (fun m r => Z.max m (row_sequence r)) rs (row_sequence r)
  end.
Definition session_at (key : SessionKey) (t : Tables) : option SessionRow :=
  snd <$> list_find (fun s => ses_key s = key) (tb_sessions t).
Definition upd_session (key : SessionKey) (f : SessionRow -> SessionRow) (t : Tables) : Tables :=
  mkTables (tb_messages t) (map (fun s => if decide (ses_key s = key) then f s else s) (tb_sessions t)) (tb_skills t).

(** The trigger [trg_session_messages_touch_session]. *)
Definition touch_session (key : SessionKey) (now : string) (t : Tables) : Tables :=
  match session_at key t with
  | Some _ => upd_session key (fun s => mkSessionRow (ses_key s) (ses_title s) (ses_metadata s) (ses_created s) now) t
  | None => mkTables (tb_messages t) (tb_sessions t ++ [mkSessionRow key None "{}" now now]) (tb_skills t)
  end.
Definition insert_row (r : MessageRow) (t : Tables) : Tables :=
  touch_session (row_key r) (row_created r) (mkTables (tb_messages t ++ [r]) (tb_sessions t) (tb_skills t)).
(** [kAppendMessageSql]. *)
Definition append_row (key : SessionKey) (m : SessionMessageInput) (now : string) (t : Tables) : MessageRow :=
  mkMessageRow key (max_sequence key t + 1) (enum_name (mi_role m)) (mi_content_json m) (mi_metadata_json m) now.

(** SQLite's JSON functions: the reader, the writer, and [sqlite3_column_int64] of a value,
    where a number out of range becomes the nearest one in range. *)
Class SqlJson := { sql_parse : string -> option json; sql_dump : json -> string; sql_int : json -> Z }.
Class SqlJsonLaws `{SqlJson} := {
  sql_parse_dump : forall j, representable j = true -> sql_parse (sql_dump j) = Some j;
  sql_parse_representable : forall s j, sql_parse s = Some j -> representable j = true;
  sql_parse_empty : sql_parse "{}" = Some (JObject []);
  sql_int_range : forall j, - 2 ^ 63 <= sql_int j < 2 ^ 63;
  sql_int_saturates : forall z, sql_int (JInt z) = Z.max (- 2 ^ 63) (Z.min z (2 ^ 63 - 1)) }.

(** A connection to the session database. *)
Notation Conn := (Sqlite.Conn Tables).
Notation Db := (Sqlite.Db Tables).

Section Repository.
Context `{SqlJson} (faults : nat -> option Error) (clock : nat -> string).
#[local] Notation call := (Sqlite.call faults).
#[local] Notation step_only := (Sqlite.step_only faults).
#[local] Notation select := (Sqlite.select faults).
#[local] Notation transaction := (Sqlite.transaction faults).
#[local] Notation open_reader := (Sqlite.open_reader faults).

(** ** Appending *)
Definition invalid_field (field : string) : Error :=
  Errors.with_ctx (Errors.invalid_argument "session repository field must not be empty") "field" field.
Definition validate_key (key : SessionKey) : Result unit :=
  fail? bool_decide (key_session key = ""%string) with invalid_field "session_id";
  fail? bool_decide (key_agent key = ""%string) with invalid_field "agent_key";
  Ok tt.
Fixpoint validate_messages (i : nat) (ms : list SessionMessageInput) : Result unit :=
  match ms with
  | [] => Ok tt
  | m :: ms =>
      fail? bool_decide (mi_content_json m = ""%string) with
        Errors.with_ctx (invalid_field "content_json") "index" (pretty i);
      fail? bool_decide (mi_metadata_json m = ""%string) with
        Errors.with_ctx (invalid_field "metadata_json") "index" (pretty i);
      validate_messages (S i) ms
  end.
Definition commit_invalid (c : SessionCommit) : bool :=
  (cm_expected_messages c <? 0) || (cm_expected_revision c <? 0) ||
  (512 * 1024 <? Z.of_nat (String.length (cm_checkpoint_json c))) || negb (is_valid_utf8 (lit (cm_checkpoint_json c))).

(** [insert_message]: bind, step, and the step that finds no further row. *)
Definition insert_message (key : SessionKey) (m : SessionMessageInput) : Db SessionMessageRecord :=
  db! _ := step_only in
  db! r := call (fun n t => let r := append_row key m (clock n) t in (Ok r, insert_row r t)) in
  db! _ := step_only in
  retD (mkMessageRecord key (row_sequence r) (mi_role m) (mi_content_json m) (mi_metadata_json m) (row_created r)).
Fixpoint insert_messages (key : SessionKey) (ms : list SessionMessageInput) : Db (list SessionMessageRecord) :=
  match ms with
  | [] => retD []
  | m :: ms =>
      db! r := insert_message key m in
      db! _ := step_only in
      db! rs := insert_messages key ms in
      retD (r :: rs)
  end.

(** [json_extract(metadata_json, '$.oran_working_context.k')]: an SQL null is [None]. *)
Definition context_field (metadata : json) (k : string) : option json :=
  match jfind metadata "oran_working_context" with
  | Some context => match jfind context k with Some JNull | None => None | v => v end
  | None => None
  end.
Definition malformed : Error := Errors.storage "sqlite statement step failed".
Definition no_metadata : json := JObject [].
(** The two columns of the statement that checks the snapshot. *)
Definition check_snapshot (key : SessionKey) (t : Tables) : Result (Z * Z) :=
  match session_at key t with
  | None => Ok (max_sequence key t, 0)
  | Some s =>
      match sql_parse (ses_metadata s) with
      | None => Err malformed
      | Some metadata =>
          Ok (max_sequence key t, match context_field metadata "revision" with Some v => sql_int v | None => 0 end)
      end
  end.

(** [length] of a text ends at its first NUL. *)
Definition text_nonempty (s : string) : bool :=
  match lit s with [] => false | c :: _ => negb (code c =? 0) end.
(** What the [UPDATE] of the checkpoint requires of the stored values; the present
    ones are integers and a text, or absent. *)
Definition stored_int (v : option json) : option Z :=
  match v with None => Some 0 | Some (JInt z) => Some z | Some _ => None end.
Definition stored_text (v : option json) : option string :=
  match v with None => Some ""%string | Some (JString s) => Some s | Some _ => None end.
Definition checkpoint_accepted (metadata checkpoint : json) (max expected : Z) : bool :=
  is_object metadata &&
  match jfind checkpoint "covered_sequence", jfind checkpoint "revision", jfind checkpoint "summary" with
  | Some (JInt covered), Some (JInt revision), Some (JString summary) =>
      (Z.of_nat (String.length summary) <=? 65536) && ((covered =? 0) || text_nonempty summary) &&
      match stored_int (context_field metadata "covered_sequence") with
      | None => false
      | Some old =>
          (old <=? covered) && (covered <=? max) &&
          ((expected <? revision) ||
           ((revision =? expected) && (covered =? old) &&
            bool_decide (Some summary = stored_text (context_field metadata "summary"))))
      end
  | _, _, _ => false
  end.
(** The [UPDATE]: whether it returned a row. *)
Definition update_checkpoint (key : SessionKey) (checkpoint_json : string) (expected : Z) (t : Tables)
    : Result bool * Tables :=
  match session_at key t with
  | None => (Ok false, t)
  | Some s =>
      match sql_parse (ses_metadata s), sql_parse checkpoint_json with
      | Some metadata, Some checkpoint =>
          if checkpoint_accepted metadata checkpoint (max_sequence key t) expected then
            let updated := sql_dump (oset metadata "oran_working_context" checkpoint) in
            (Ok true, upd_session key (fun s => mkSessionRow (ses_key s) (ses_title s) updated (ses_created s) (ses_updated s)) t)
          else (Ok false, t)
      | _, _ => (Err malformed, t)
      end
  end.

Definition conflict_error : Error := Errors.mk ek_conflict "session changed during turn".
Definition check_commit (key : SessionKey) (c : SessionCommit) : Db unit :=
  db! _ := step_only in
  db! _ := step_only in
  db! found := select (check_snapshot key) in
  if negb (fst found =? cm_expected_messages c) || negb (snd found =? cm_expected_revision c)
  then failD conflict_error else retD tt.
Definition write_checkpoint (key : SessionKey) (c : SessionCommit) : Db unit :=
  db! _ := step_only in
  db! _ := step_only in
  db! found := call (fun _ => update_checkpoint key (cm_checkpoint_json c) (cm_expected_revision c)) in
  if negb found then failD (Errors.storage "invalid session checkpoint") else step_only.
Definition when_commit (c : option SessionCommit) (f : SessionCommit -> Db unit) : Db unit :=
  match c with Some c => f c | None => retD tt end.
Definition append_body (key : SessionKey) (ms : list SessionMessageInput) (c : option SessionCommit)
    : Db (list SessionMessageRecord) :=
  db! _ := when_commit c (check_commit key) in
  db! _ := step_only in
  db! records := insert_messages key ms in
  db! _ := when_commit c (write_checkpoint key) in
  retD records.
Definition append_messages (key : SessionKey) (ms : list SessionMessageInput) (c : option SessionCommit)
    : Db (list SessionMessageRecord) :=
  match validate_key key with
  | Err e => failD e
  | Ok _ =>
    match validate_messages 0 ms with
    | Err e => failD e
    | Ok _ =>
      if match c with Some c => commit_invalid c | None => false end then
        failD (Errors.invalid_argument "invalid checkpoint commit")
      else if bool_decide (ms = []) && negb (bool_decide (is_Some c)) then retD []
      else db! _ := step_only in transaction (append_body key ms c)
    end
  end.
Definition append_message (key : SessionKey) (m : SessionMessageInput) : Db SessionMessageRecord :=
  db! records := append_messages key [m] None in
  match records with r :: _ => retD r | [] => failD (Errors.internal "unreachable") end.

(** ** Reading *)
(** [read_message_row]: the columns are there and not null. *)
Definition read_message_row (r : MessageRow) : Result SessionMessageRecord :=
  match parse_enum (E := Role) (row_role r) with
  | None => Err (Errors.with_ctx (Errors.storage "session repository row has unknown role") "role" (row_role r))
  | Some role =>
      Ok (mkMessageRecord (row_key r) (row_sequence r) role (row_content r) (row_metadata r) (row_created r))
  end.
(** [length(CAST(content_json AS BLOB)) + length(CAST(metadata_json AS BLOB))]. *)
Definition row_bytes (r : MessageRow) : nat := String.length (row_content r) + String.length (row_metadata r).

Definition read_all : list MessageRow -> Db (list SessionMessageRecord) := read_rows faults read_message_row.
Definition load_messages (key : SessionKey) : Db (list SessionMessageRecord) :=
  match validate_key key with
  | Err e => failD e
  | Ok _ => db! _ := open_reader in fun c => read_all (ordered_rows key (cn_tables c)) c
  end.

Definition limits_invalid (max_messages max_bytes : nat) : bool :=
  ((max_messages =? 0)%nat || (4096 <? Z.of_nat max_messages) || (max_bytes =? 0)%nat ||
   (16 * 1024 * 1024 <? Z.of_nat max_bytes)).
Definition invalid_limit : Error := Errors.invalid_argument "invalid conversation tail limit".
(** The loop of [load_tail], on the rows from the last one back. *)
Fixpoint tail_loop (rows : list MessageRow) (remaining : nat) : Db (list SessionMessageRecord) :=
  db! _ := step_only in
  match rows with
  | [] => retD []
  | r :: rows =>
      if (remaining <? row_bytes r)%nat then retD []
      else db! m := lift (read_message_row r) in
           db! ms := tail_loop rows (remaining - row_bytes r) in
           retD (m :: ms)
  end.
Definition load_tail (key : SessionKey) (max_messages max_bytes : nat) : Db (list SessionMessageRecord) :=
  match validate_key key with
  | Err e => failD e
  | Ok _ =>
    if limits_invalid max_messages max_bytes then failD invalid_limit
    else db! _ := open_reader in
         fun c => (db! rows := tail_loop (take max_messages (rev (ordered_rows key (cn_tables c)))) max_bytes in
                   retD (rev rows)) c
  end.

(** The loop of [load_after]; [read] is [rows.size()]. *)
Fixpoint page_loop (rows : list MessageRow) (after : Z) (read : nat) (remaining : nat) : Db (list SessionMessageRecord) :=
  db! _ := step_only in
  match rows with
  | [] => retD []
  | r :: rows =>
      if (remaining <? row_bytes r)%nat then
        if (read =? 0)%nat then failD (Errors.invalid_argument "session row exceeds context page budget") else retD []
      else db! m := lift (read_message_row r) in
           if negb (mr_sequence m =? after + Z.of_nat read + 1) then
             failD (Errors.storage "session history has a sequence gap")
           else db! ms := page_loop rows after (S read) (remaining - row_bytes r) in retD (m :: ms)
  end.
Definition page_rows (key : SessionKey) (after through : Z) (max_messages : nat) (t : Tables) : list MessageRow :=
  take max_messages (filter (fun r => after < row_sequence r /\ row_sequence r <= through) (ordered_rows key t)).
Definition load_after (key : SessionKey) (after through : Z) (max_messages max_bytes : nat) : Db (list SessionMessageRecord) :=
  match validate_key key with
  | Err e => failD e
  | Ok _ =>
    if (after <? 0) || (through <? after) || limits_invalid max_messages max_bytes then failD invalid_limit
    else db! _ := open_reader in
         fun c => page_loop (page_rows key after through max_messages (cn_tables c)) after 0 max_bytes c
  end.

Definition get_session (key : SessionKey) : Db (option SessionRecord) :=
  match validate_key key with
  | Err e => failD e
  | Ok _ =>
    db! _ := open_reader in
    db! found := select (fun t => Ok ((fun s => mkSessionRecord (ses_key s) (ses_title s) (ses_metadata s) (ses_created s)
      (ses_updated s) (Z.of_nat (length (rows_of key t)))) <$> session_at key t)) in
    match found with
    | None => retD None
    | Some s => db! _ := step_only in retD (Some s)
    end
  end.

(** ** Import *)
(** The source snapshot: its schema version and its tables. *)
Record Source := mkSource { src_versions : list (option string); src_tables : Tables }.
Definition identity_taken (key : SessionKey) (t : Tables) : bool :=
  bool_decide (is_Some (session_at key t)) || negb (bool_decide (rows_of key t = [])) ||
  negb (bool_decide (filter (fun s => skl_key s = key) (tb_skills t) = [])).
Definition under_message (key : SessionKey) (r : MessageRow) : MessageRow :=
  mkMessageRow key (row_sequence r) (row_role r) (row_content r) (row_metadata r) (row_created r).
Definition under_skill (key : SessionKey) (s : SkillRow) : SkillRow :=
  mkSkillRow key (skl_name s) (skl_active s) (skl_created s) (skl_updated s).
(** [ON CONFLICT ... DO UPDATE]: a row of the destination takes over the four columns. *)
Definition put_session (key : SessionKey) (s : SessionRow) (t : Tables) : Tables :=
  let put := mkSessionRow key (ses_title s) (ses_metadata s) (ses_created s) (ses_updated s) in
  match session_at key t with
  | Some _ => upd_session key (fun _ => put) t
  | None => mkTables (tb_messages t) (tb_sessions t ++ [put]) (tb_skills t)
  end.
Definition put_skill (s : SkillRow) (t : Tables) : Tables := mkTables (tb_messages t) (tb_sessions t) (tb_skills t ++ [s]).
(** One table of [CopyTable]: a step of the source, the bindings, the insert and the
    reset for each row; [cancelled n] is whether the coroutine was cancelled before call [n]. *)
Context (cancelled : nat -> bool).
Definition check_cancelled : Db unit :=
  fun c => if cancelled (cn_calls c) then (Err Errors.cancelled, c) else (Ok tt, c).
Fixpoint copy_rows {R} (put : R -> Tables -> Tables) (rows : list R) : Db unit :=
  db! _ := check_cancelled in
  db! _ := step_only in
  match rows with
  | [] => retD tt
  | r :: rows =>
      db! _ := step_only in
      db! _ := call (fun _ t => (Ok tt, put r t)) in
      db! _ := step_only in
      copy_rows put rows
  end.
Definition copy_table {R} (put : R -> Tables -> Tables) (rows : list R) : Db unit :=
  db! _ := step_only in db! _ := step_only in db! _ := step_only in copy_rows put rows.
Definition import_body (source : Tables) (from to : SessionKey) : Db unit :=
  db! _ := step_only in
  db! _ := step_only in
  db! taken := select (fun t => Ok (identity_taken to t)) in
  if taken then failD (Errors.mk ek_conflict "session import destination already exists")
  else
    db! _ := copy_table (fun r => insert_row (under_message to r)) (ordered_rows from source) in
    db! _ := copy_table (fun s => put_skill (under_skill to s)) (filter (fun s => skl_key s = from) (tb_skills source)) in
    db! _ := copy_table (put_session to) (filter (fun s => ses_key s = from) (tb_sessions source)) in
    if bool_decide (filter (fun s => ses_key s = from) (tb_sessions source) = [])
    then failD (Errors.invalid_argument "session import source not found") else retD tt.
Definition import_session (source_path : string) (source : Source) (from to : SessionKey) : Db unit :=
  if bool_decide (source_path = ""%string) || bool_decide (key_session from = ""%string) ||
     bool_decide (key_agent from = ""%string) || bool_decide (key_session to = ""%string) ||
     bool_decide (key_agent to = ""%string) then
    failD (Errors.invalid_argument "import requires explicit source and destination identities")
  else
    db! _ := step_only in
    db! _ := step_only in
    db! _ := step_only in
    if negb (bool_decide (src_versions source = [Some "2"%string])) then
      failD (Errors.invalid_argument "unsupported session import schema")
    else db! _ := step_only in transaction (import_body (src_tables source) from to).
End Repository.

(** ** Facts about the statements *)
Lemma session_at_cons k s ss ms sk :
  session_at k (mkTables ms (s :: ss) sk) =
  if decide (ses_key s = k) then Some s else session_at k (mkTables ms ss sk).
Proof.
  unfold session_at. cbn. case_decide; [done|].
  destruct (list_find _ ss) as [[i x]|]; reflexivity.
Qed.
Lemma session_at_sessions k t t' : tb_sessions t = tb_sessions t' -> session_at k t = session_at k t'.
Proof. unfold session_at. by intros ->. Qed.
Lemma session_at_key k t s : session_at k t = Some s -> ses_key s = k /\ s ∈ tb_sessions t.
Proof.
  unfold session_at. intros (x & Hx & ->)%fmap_Some. destruct x as [i s].
  apply list_find_Some in Hx as (Hi & Hk & _). split; [exact Hk|]. by eapply list_elem_of_lookup_2.
Qed.
Lemma session_at_snoc k s ss ms sk :
  session_at k (mkTables ms (ss ++ [s]) sk) =
  match session_at k (mkTables ms ss sk) with
  | Some x => Some x
  | None => if decide (ses_key s = k) then Some s else None
  end.
Proof.
  induction ss as [|x ss IH]; simpl; rewrite !session_at_cons; [reflexivity|].
  destruct (decide (ses_key x = k)); [reflexivity|exact IH].
Qed.
Lemma session_at_upd k key f t : (forall s, ses_key (f s) = ses_key s) ->
  session_at k (upd_session key f t) = if decide (k = key) then f <$> session_at k t else session_at k t.
Proof.
  intros Hf. destruct t as [ms ss sk]. unfold upd_session. simpl.
  induction ss as [|s ss IH]; simpl; [by case_decide|]. rewrite !session_at_cons.
  unfold upd_session in IH. simpl in IH. rewrite IH.
  destruct (decide (ses_key s = key)); rewrite ?Hf; repeat case_decide; congruence || done.
Qed.

Lemma touch_messages key now t : tb_messages (touch_session key now t) = tb_messages t.
Proof. unfold touch_session. by destruct (session_at key t). Qed.
Lemma touch_skills key now t : tb_skills (touch_session key now t) = tb_skills t.
Proof. unfold touch_session. by destruct (session_at key t). Qed.
Definition touched (now : string) (key : SessionKey) (s : option SessionRow) : SessionRow :=
  match s with
  | Some s => mkSessionRow (ses_key s) (ses_title s) (ses_metadata s) (ses_created s) now
  | None => mkSessionRow key None "{}" now now
  end.
Lemma session_at_touch k key now t :
  session_at k (touch_session key now t) =
  if decide (k = key) then Some (touched now key (session_at key t)) else session_at k t.
Proof.
  unfold touch_session. destruct (session_at key t) as [s|] eqn:Hs.
  - rewrite session_at_upd by done. case_decide as Hk; [subst; by rewrite Hs|done].
  - rewrite session_at_snoc. cbn [ses_key].
    replace (session_at k _) with (session_at k t) by (by apply session_at_sessions).
    case_decide; case_decide; subst; rewrite ?Hs; try done. by destruct (session_at k t).
Qed.
Lemma touch_keys key now t :
  map ses_key (tb_sessions (touch_session key now t)) =
  map ses_key (tb_sessions t) ++ (if session_at key t then [] else [key]).
Proof.
  unfold touch_session. destruct (session_at key t) as [s|]; simpl.
  - rewrite app_nil_r, map_map. apply map_ext. intros x. by case_decide.
  - apply map_app.
Qed.
Lemma session_at_none k t : session_at k t = None <-> k ∉ map ses_key (tb_sessions t).
Proof.
  destruct t as [ms ss sk]. simpl. induction ss as [|s ss IH]; simpl; [set_solver|].
  rewrite session_at_cons, not_elem_of_cons. simpl in IH. rewrite <- IH. case_decide; naive_solver.
Qed.

Lemma touch_distinct key now t :
  NoDup (map ses_key (tb_sessions t)) -> NoDup (map ses_key (tb_sessions (touch_session key now t))).
Proof.
  intros Hd. rewrite touch_keys. destruct (session_at key t) eqn:Hs; [by rewrite app_nil_r|].
  apply session_at_none in Hs. apply NoDup_app. split; [done|]. split; [set_solver|]. apply NoDup_singleton.
Qed.

Lemma rows_of_insert key r t :
  rows_of key (insert_row r t) = rows_of key t ++ (if decide (row_key r = key) then [r] else []).
Proof.
  unfold rows_of, insert_row. rewrite touch_messages. simpl. by rewrite filter_app.
Qed.
Lemma rows_of_messages key t t' : tb_messages t = tb_messages t' -> rows_of key t = rows_of key t'.
Proof. unfold rows_of. by intros ->. Qed.
Lemma max_sequence_rows key t t' : rows_of key t = rows_of key t' -> max_sequence key t = max_sequence key t'.
Proof. unfold max_sequence. by intros ->. Qed.
Lemma max_sequence_next key r t :
  row_key r = key -> row_sequence r = max_sequence key t + 1 ->
  max_sequence key (insert_row r t) = max_sequence key t + 1.
Proof.
  intros Hk Hr. unfold max_sequence in *. rewrite rows_of_insert. rewrite (decide_True _ _ Hk).
  destruct (rows_of key t) as [|x xs]; simpl in *; [done|].
  rewrite fold_left_app. simpl. rewrite Hr. lia.
Qed.
Lemma max_sequence_other key r t : row_key r <> key -> max_sequence key (insert_row r t) = max_sequence key t.
Proof.
  intros Hk. apply max_sequence_rows. rewrite rows_of_insert, decide_False by done. apply app_nil_r.
Qed.

(** Numbered rows are the ones from 1 on, in order. *)
Definition numbered (rows : list MessageRow) : Prop := map row_sequence rows = seqZ 1 (Z.of_nat (length rows)).
Lemma numbered_snoc rows r :
  numbered rows -> row_sequence r = Z.of_nat (length rows) + 1 -> numbered (rows ++ [r]).
Proof.
  unfold numbered. intros Hn Hr. rewrite map_app, Hn, length_app. simpl.
  rewrite Nat2Z.inj_add, seqZ_app by lia. f_equal. rewrite Hr.
  rewrite seqZ_cons by lia. simpl. f_equal. lia.
Qed.
Lemma numbered_lookup rows i r : numbered rows -> rows !! i = Some r -> row_sequence r = Z.of_nat i + 1.
Proof.
  intros Hn Hi. assert (map row_sequence rows !! i = Some (row_sequence r)) as Hs.
  { change (map row_sequence rows) with (row_sequence <$> rows). by rewrite list_lookup_fmap, Hi. }
  rewrite Hn in Hs. apply lookup_seqZ in Hs as [-> _]. lia.
Qed.
Lemma fold_max_bound rows b m0 :
  m0 <= b -> Forall (fun r => row_sequence r <= b) rows ->
  fold_left (fun m r => Z.max m (row_sequence r)) rows m0 <= b.
Proof. intros Hm Hall. revert m0 Hm. induction Hall as [|r rows Hr _ IH]; simpl; intros m0 Hm; [done|]. apply IH. lia. Qed.
Lemma numbered_max key t : numbered (rows_of key t) -> max_sequence key t = Z.of_nat (length (rows_of key t)).
Proof.
  intros Hn. unfold max_sequence. destruct (rows_of key t) as [|x xs] eqn:He using rev_ind; [done|].
  assert (Hlast : row_sequence x = Z.of_nat (length xs) + 1).
  { apply (numbered_lookup _ _ _ Hn). by rewrite lookup_app_r, Nat.sub_diag by lia. }
  assert (Hall : Forall (fun r => row_sequence r <= Z.of_nat (length xs) + 1) (xs ++ [x])).
  { apply Forall_lookup. intros i r Hi. rewrite (numbered_lookup _ _ _ Hn Hi).
    apply lookup_lt_Some in Hi. rewrite length_app in Hi. simpl in Hi. lia. }
  rewrite length_app. simpl.
  destruct xs as [|y ys]; simpl in *; [lia|]. rewrite fold_left_app. simpl.
  assert (fold_left (fun m r => Z.max m (row_sequence r)) ys (row_sequence y) <= Z.of_nat (S (length ys)) + 1).
  { apply Forall_cons in Hall as [Hy Hys]. apply fold_max_bound; [exact Hy|]. by apply Forall_app in Hys as [Hys _]. }
  lia.
Qed.
#[export] Instance by_sequence_trans : Transitive by_sequence.
Proof. intros a b c. unfold by_sequence. lia. Qed.
#[export] Instance by_sequence_total : Total by_sequence.
Proof. intros a b. unfold by_sequence. lia. Qed.
(** Rows that are numbered in their order of insertion are read in that order. *)
Lemma ordered_numbered key t : numbered (rows_of key t) -> ordered_rows key t = rows_of key t.
Proof.
  intros Hn. unfold ordered_rows. set (rows := rows_of key t) in *.
  pose proof (merge_sort_Permutation by_sequence rows) as Hp.
  apply (StronglySorted_unique_strong by_sequence).
  - intros x y Hx Hy Hxy Hyx. rewrite Hp in Hx.
    apply list_elem_of_lookup in Hx as [i Hi], Hy as [j Hj].
    pose proof (numbered_lookup _ _ _ Hn Hi). pose proof (numbered_lookup _ _ _ Hn Hj).
    unfold by_sequence in *. assert (i = j) by lia. congruence.
  - apply StronglySorted_merge_sort; apply _.
  - clear Hp. induction rows as [|r rows IH] using rev_ind; [constructor|].
    assert (Hi : numbered rows).
    { unfold numbered in *. rewrite map_app, length_app in Hn. simpl in Hn.
      rewrite Nat2Z.inj_add, seqZ_app in Hn by lia. apply app_inj_1 in Hn as [Hn _]; [exact Hn|].
      rewrite length_map, length_seqZ. lia. }
    apply StronglySorted_app_2; [|exact (IH Hi)|repeat constructor].
    intros x y Hx Hy%list_elem_of_singleton. subst y. apply list_elem_of_lookup in Hx as [i Hx].
    pose proof (lookup_lt_Some _ _ _ Hx).
    pose proof (numbered_lookup _ _ _ Hi Hx).
    assert (Hr : (rows ++ [r]) !! length rows = Some r) by (by rewrite lookup_app_r, Nat.sub_diag by lia).
    pose proof (numbered_lookup _ _ _ Hn Hr). unfold by_sequence. lia.
  - exact Hp.
Qed.

(** ** Appending as a whole *)
(** The row that a record returned to the caller describes, and the input it came from. *)
Definition record_row (r : SessionMessageRecord) : MessageRow :=
  mkMessageRow (mr_key r) (mr_sequence r) (enum_name (mr_role r)) (mr_content_json r) (mr_metadata_json r) (mr_created_at r).
Definition record_input (r : SessionMessageRecord) : SessionMessageInput :=
  mkMessageInput (mr_role r) (mr_content_json r) (mr_metadata_json r).
Definition metadata_at (key : SessionKey) (t : Tables) : string :=
  match session_at key t with Some s => ses_metadata s | None => "{}"%string end.
Definition title_at (key : SessionKey) (t : Tables) : option string :=
  match session_at key t with Some s => ses_title s | None => None end.

(** The messages [ms] were appended to the session: they have the numbers after the
    largest one, in order, and nothing else of the tables changed but [updated_at]. *)
Record appended (key : SessionKey) (ms : list SessionMessageInput) (t : Tables)
    (rs : list SessionMessageRecord) (t' : Tables) : Prop := {
  ap_rows : tb_messages t' = tb_messages t ++ map record_row rs;
  ap_inputs : map record_input rs = ms;
  ap_keys : Forall (fun r => mr_key r = key) rs;
  ap_sequences : map mr_sequence rs = seqZ (max_sequence key t + 1) (Z.of_nat (length ms));
  ap_max : max_sequence key t' = max_sequence key t + Z.of_nat (length ms);
  ap_skills : tb_skills t' = tb_skills t;
  ap_others : forall k, k <> key -> session_at k t' = session_at k t;
  ap_title : title_at key t' = title_at key t;
  ap_metadata : metadata_at key t' = metadata_at key t;
  ap_session : is_Some (session_at key t) \/ ms <> [] -> is_Some (session_at key t');
  ap_distinct : NoDup (map ses_key (tb_sessions t)) -> NoDup (map ses_key (tb_sessions t'));
  ap_none : ms = [] -> t' = t }.
Arguments ap_rows {_ _ _ _ _} _.
Arguments ap_inputs {_ _ _ _ _} _.
Arguments ap_keys {_ _ _ _ _} _.
Arguments ap_sequences {_ _ _ _ _} _.
Arguments ap_max {_ _ _ _ _} _.
Arguments ap_skills {_ _ _ _ _} _.
Arguments ap_others {_ _ _ _ _} _.
Arguments ap_title {_ _ _ _ _} _.
Arguments ap_metadata {_ _ _ _ _} _.
Arguments ap_session {_ _ _ _ _} _.
Arguments ap_distinct {_ _ _ _ _} _.
Arguments ap_none {_ _ _ _ _} _.

Lemma appended_nil key t : appended key [] t [] t.
Proof. split; naive_solver (rewrite ?app_nil_r; eauto with lia). Qed.
Lemma appended_cons key m ms t now rs t' :
  appended key ms (insert_row (append_row key m now t) t) rs t' ->
  appended key (m :: ms) t
    (mkMessageRecord key (max_sequence key t + 1) (mi_role m) (mi_content_json m) (mi_metadata_json m) now :: rs) t'.
Proof.
  set (t1 := insert_row _ t). intros H.
  assert (Hat : forall k, session_at k t1 = if decide (k = key) then Some (touched now key (session_at key t)) else session_at k t).
  { intros k. unfold t1, insert_row. rewrite session_at_touch. cbn [row_key row_created append_row].
    rewrite !(session_at_sessions _ (mkTables _ _ _) t) by reflexivity. reflexivity. }
  assert (Hkey : session_at key t1 = Some (touched now key (session_at key t))) by (by rewrite Hat, decide_True).
  split.
  - rewrite (ap_rows H). unfold t1, insert_row. rewrite touch_messages. cbn. by rewrite <- app_assoc.
  - cbn. rewrite (ap_inputs H). by destruct m.
  - constructor; [reflexivity|apply (ap_keys H)].
  - cbn [map length mr_sequence]. rewrite (ap_sequences H). unfold t1.
    rewrite (max_sequence_next key (append_row key m now t) t) by reflexivity. rewrite Nat2Z.inj_succ, (seqZ_cons _ (Z.succ _)) by lia.
    f_equal. f_equal; lia.
  - rewrite (ap_max H). unfold t1. rewrite (max_sequence_next key (append_row key m now t) t) by reflexivity.
    cbn [length]. lia.
  - rewrite (ap_skills H). unfold t1, insert_row. by rewrite touch_skills.
  - intros k Hk. rewrite (ap_others H k Hk), Hat. by case_decide.
  - rewrite (ap_title H). unfold title_at. rewrite Hkey. by destruct (session_at key t).
  - rewrite (ap_metadata H). unfold metadata_at. rewrite Hkey. by destruct (session_at key t).
  - intros _. apply (ap_session H). left. by rewrite Hkey.
  - intros Hd. apply (ap_distinct H). by apply touch_distinct.
  - done.
Qed.

(** The number a commit expects, the revision it expects, and the checkpoint it writes. *)
Definition commit_checked `{SqlJson} (key : SessionKey) (c : option SessionCommit) (t : Tables) : Prop :=
  match c with
  | None => True
  | Some c => check_snapshot key t = Ok (cm_expected_messages c, cm_expected_revision c)
  end.
Definition commit_written `{SqlJson} (key : SessionKey) (c : option SessionCommit) (t t' : Tables) : Prop :=
  match c with
  | None => t' = t
  | Some c => update_checkpoint key (cm_checkpoint_json c) (cm_expected_revision c) t = (Ok true, t')
  end.
Definition commit_appended `{SqlJson} key ms c t (rs : list SessionMessageRecord) t' : Prop :=
  commit_checked key c t /\ exists t1, appended key ms t rs t1 /\ commit_written key c t1 t'.

Section Appending.
Context `{SqlJson} (faults : nat -> option Error) (clock : nat -> string).

Lemma does_insert key m :
  does (insert_message faults clock key m) (fun t r t' => exists now,
    (exists n, now = clock n /\ r = mkMessageRecord key (max_sequence key t + 1) (mi_role m) (mi_content_json m) (mi_metadata_json m) now) /\
    t' = insert_row (append_row key m now t) t).
Proof.
  apply does_after; [apply does_step|]. intros _.
  apply (does_before _ (fun r => mkMessageRecord key (row_sequence r) (mi_role m) (mi_content_json m) (mi_metadata_json m) (row_created r)));
    [|apply does_step].
  eapply does_weaken; [apply does_call|]. intros t r t' [n [= <- <-]]. exists (clock n). split; [by exists n|done].
Qed.
Lemma does_insert_all key ms :
  does (insert_messages faults clock key ms) (fun t rs t' => appended key ms t rs t').
Proof.
  induction ms as [|m ms IH]; simpl.
  - eapply does_weaken; [apply does_retD|]. intros t rs t' [-> ->]. apply appended_nil.
  - eapply does_weaken.
    + apply does_bindD; [apply does_insert|]. intros r. apply does_after; [apply does_step|]. intros _.
      apply does_bindD; [exact IH|]. intros rs. apply does_retD.
    + intros t rs t' (r & t1 & (now & (n & _ & ->) & ->) & rs1 & t2 & Ha & -> & ->). by apply appended_cons.
Qed.
Lemma does_check key c :
  does (when_commit c (check_commit faults key)) (fun t _ t' => commit_checked key c t /\ t' = t).
Proof.
  destruct c as [c|]; [|by eapply does_weaken; [apply does_retD|]; intros t a t' [_ ->]].
  do 2 (apply does_after; [apply does_step|]; intros _).
  eapply does_weaken.
  - eapply (does_bindD _ _ _ (fun found t _ t' => found = (cm_expected_messages c, cm_expected_revision c) /\ t' = t));
      [apply does_select|]. intros found. destruct (negb _ || negb _) eqn:Hn; [apply does_fail|].
    eapply does_weaken; [apply does_retD|]. intros t a t' [_ ->]. destruct found; simpl in *.
    split; [f_equal|reflexivity]; lia.
  - intros t a t' (found & t1 & (Hf & ->) & -> & ->). by split.
Qed.
Lemma does_write key c :
  does (when_commit c (write_checkpoint faults key)) (fun t _ t' => commit_written key c t t').
Proof.
  destruct c as [c|]; [|by eapply does_weaken; [apply does_retD|]; intros t a t' [_ ->]].
  do 2 (apply does_after; [apply does_step|]; intros _).
  eapply does_weaken.
  - eapply (does_bindD _ _ _ (fun found t _ t' => found = true /\ t' = t)); [apply does_call|]. intros found.
    destruct found; [|apply does_fail]. eapply does_weaken; [apply does_step|]. by intros t a t' ->.
  - intros t a t' (found & t1 & (n & Hn) & -> & ->). exact Hn.
Qed.
Definition times_from (clock : nat -> string) (rs : list SessionMessageRecord) : Prop :=
  Forall (fun r => exists n, mr_created_at r = clock n) rs.
Lemma does_insert_times key ms :
  does (insert_messages faults clock key ms) (fun _ rs _ => times_from clock rs).
Proof.
  induction ms as [|m ms IH]; simpl.
  - eapply does_weaken; [apply does_retD|]. intros t rs t' [-> _]. constructor.
  - eapply does_weaken.
    + apply does_bindD; [apply does_insert|]. intros r. apply does_after; [apply does_step|]. intros _.
      apply does_bindD; [exact IH|]. intros rs. apply does_retD.
    + intros t rs t' (r & t1 & (now & Hnow & _) & rs1 & t2 & Ha & -> & _).
      constructor; [|exact Ha]. destruct Hnow as (n & -> & ->). by exists n.
Qed.
Lemma does_append_times key ms c :
  does (append_body faults clock key ms c) (fun _ rs _ => times_from clock rs).
Proof.
  eapply does_weaken.
  - apply does_bindD; [apply does_check|]. intros u. apply does_after; [apply does_step|]. intros _.
    apply does_bindD; [apply does_insert_times|]. intros rs. apply does_bindD; [apply does_write|].
    intros u'. apply does_retD.
  - intros t rs t' (u & t1 & _ & rs1 & t2 & Ha & u' & t3 & _ & -> & _). exact Ha.
Qed.
Lemma does_append key ms c : does (append_body faults clock key ms c) (commit_appended key ms c).
Proof.
  eapply does_weaken.
  - apply does_bindD; [apply does_check|]. intros u. apply does_after; [apply does_step|]. intros _.
    apply does_bindD; [apply does_insert_all|]. intros rs. apply does_bindD; [apply does_write|].
    intros u'. apply does_retD.
  - intros t rs t' ([] & t1 & (Hc & ->) & rs1 & t2 & Ha & [] & t3 & Hw & -> & ->). split; [exact Hc|]. by exists t2.
Qed.
End Appending.

(** ** Well-formed tables *)
(** The summary a session carries covers messages that are stored. *)
Definition covered_at `{SqlJson} (metadata : string) : Z :=
  match sql_parse metadata with
  | Some m => match context_field m "covered_sequence" with Some (JInt z) => z | _ => 0 end
  | None => 0
  end.
Record tables_ok `{SqlJson} (t : Tables) : Prop := {
  ok_numbered : forall key, numbered (rows_of key t);
  ok_roles : Forall (fun r => is_Some (parse_enum (E := Role) (row_role r))) (tb_messages t);
  ok_owned : Forall (fun r => is_Some (session_at (row_key r) t)) (tb_messages t);
  ok_distinct : NoDup (map ses_key (tb_sessions t));
  ok_snapshot : forall key, exists revision, 0 <= revision /\ check_snapshot key t = Ok (max_sequence key t, revision);
  ok_covered : forall key, 0 <= covered_at (metadata_at key t) <= Z.of_nat (length (rows_of key t)) }.
Arguments ok_numbered {_ _} _.
Arguments ok_roles {_ _} _.
Arguments ok_owned {_ _} _.
Arguments ok_distinct {_ _} _.
Arguments ok_snapshot {_ _} _.
Arguments ok_covered {_ _} _.

Lemma insert_row_session r t k :
  session_at k (insert_row r t) =
  if decide (k = row_key r) then Some (touched (row_created r) (row_key r) (session_at (row_key r) t)) else session_at k t.
Proof.
  unfold insert_row. rewrite session_at_touch.
  rewrite !(session_at_sessions _ (mkTables _ _ _) t) by reflexivity. reflexivity.
Qed.
Lemma insert_row_metadata r t k : metadata_at k (insert_row r t) = metadata_at k t.
Proof.
  unfold metadata_at. rewrite insert_row_session. case_decide; [subst|done].
  by destruct (session_at (row_key r) t).
Qed.

Section WellFormed.
Context `{SqlJsonLaws}.

(** The revision depends on the metadata only. *)
Definition revision_in (metadata : string) : Result Z :=
  match sql_parse metadata with
  | None => Err malformed
  | Some m => Ok (match context_field m "revision" with Some v => sql_int v | None => 0 end)
  end.
Lemma check_snapshot_eq key t :
  check_snapshot key t = (let? r := revision_in (metadata_at key t) in Ok (max_sequence key t, r)).
Proof.
  unfold check_snapshot, revision_in, metadata_at. destruct (session_at key t) as [s|].
  - by destruct (sql_parse (ses_metadata s)).
  - by rewrite sql_parse_empty.
Qed.
Lemma snapshot_ok_iff key t :
  (exists r, 0 <= r /\ check_snapshot key t = Ok (max_sequence key t, r)) <->
  exists r, 0 <= r /\ revision_in (metadata_at key t) = Ok r.
Proof.
  rewrite check_snapshot_eq. destruct (revision_in _) as [r|e]; simpl; split; intros (r' & Hr & He); try discriminate;
    exists r'; (split; [exact Hr|]); congruence.
Qed.

(** A row with the next number and a role keeps the tables well formed. *)
Lemma insert_row_ok r t :
  tables_ok t -> row_sequence r = Z.of_nat (length (rows_of (row_key r) t)) + 1 ->
  is_Some (parse_enum (E := Role) (row_role r)) -> tables_ok (insert_row r t).
Proof.
  intros [Hn Hr Ho Hd Hs Hc] Hseq Hrole. split.
  - intros key. rewrite rows_of_insert. case_decide; [|by rewrite app_nil_r].
    subst key. by apply numbered_snoc.
  - unfold insert_row. rewrite touch_messages. apply Forall_app. by repeat constructor.
  - unfold insert_row at 2. rewrite touch_messages. simpl.
    apply Forall_app; split; [eapply Forall_impl; [exact Ho|]; intros x Hx|constructor; [|constructor]];
      rewrite insert_row_session; case_decide; done.
  - by apply touch_distinct.
  - intros key. rewrite snapshot_ok_iff, insert_row_metadata. by apply snapshot_ok_iff.
  - intros key. rewrite insert_row_metadata, rows_of_insert, length_app. specialize (Hc key). lia.
Qed.

Lemma appended_rows_of key ms t rs t' :
  appended key ms t rs t' -> rows_of key t' = rows_of key t ++ map record_row rs.
Proof.
  intros Ha. unfold rows_of. rewrite (ap_rows Ha), filter_app. f_equal.
  pose proof (ap_keys Ha) as Hk. clear Ha.
  induction Hk as [|r rs Hr _ IH]; simpl; [done|]. rewrite filter_cons, decide_True by done. by rewrite IH.
Qed.
Lemma appended_others key ms t rs t' k :
  appended key ms t rs t' -> k <> key -> rows_of k t' = rows_of k t.
Proof.
  intros Ha Hk. unfold rows_of. rewrite (ap_rows Ha), filter_app.
  pose proof (ap_keys Ha) as Hks. clear Ha. rewrite <- (app_nil_r (filter _ (tb_messages t))) at 2. f_equal.
  induction Hks as [|r rs Hr _ IH]; simpl; [done|]. rewrite filter_cons, decide_False by (cbn; congruence). exact IH.
Qed.
Lemma appended_metadata key ms t rs t' k : appended key ms t rs t' -> metadata_at k t' = metadata_at k t.
Proof.
  intros Ha. destruct (decide (k = key)) as [->|Hk]; [apply (ap_metadata Ha)|].
  unfold metadata_at. by rewrite (ap_others Ha _ Hk).
Qed.
Lemma record_role r : is_Some (parse_enum (E := Role) (row_role (record_row r))).
Proof. destruct r as [? ? [] ? ? ?]; cbn; eauto. Qed.

Lemma appended_ok key ms t rs t' : tables_ok t -> appended key ms t rs t' -> tables_ok t'.
Proof.
  intros [Hn Hr Ho Hd Hs Hc] Ha.
  assert (Hlen : forall k, (length (rows_of k t) <= length (rows_of k t'))%nat).
  { intros k. destruct (decide (k = key)) as [->|Hk]; [|by rewrite (appended_others _ _ _ _ _ _ Ha Hk)].
    rewrite (appended_rows_of _ _ _ _ _ Ha), length_app. lia. }
  split.
  - intros k. destruct (decide (k = key)) as [->|Hk]; [|by rewrite (appended_others _ _ _ _ _ _ Ha Hk)].
    rewrite (appended_rows_of _ _ _ _ _ Ha). unfold numbered.
    rewrite map_app, length_app, Nat2Z.inj_add, seqZ_app, Hn, map_map by lia. f_equal.
    pose proof (ap_sequences Ha) as Hq. rewrite (numbered_max _ _ (Hn key)) in Hq.
    rewrite length_map. replace (length rs) with (length ms) by (by rewrite <- (ap_inputs Ha), length_map).
    rewrite <- Z.add_comm in Hq. exact Hq.
  - rewrite (ap_rows Ha). apply Forall_app. split; [exact Hr|]. apply Forall_map, Forall_true. intros r. apply record_role.
  - rewrite (ap_rows Ha). apply Forall_app. split.
    + eapply Forall_impl; [exact Ho|]. intros r Hat. cbv beta in Hat |- *. destruct (decide (row_key r = key)) as [He|He].
      * rewrite He in *. exact (ap_session Ha (or_introl Hat)).
      * by rewrite (ap_others Ha _ He).
    + destruct (nil_or_length_pos rs) as [->|Hrs]; [constructor|].
      apply Forall_map. eapply Forall_impl; [exact (ap_keys Ha)|]. intros r He. cbn. rewrite He.
      apply (ap_session Ha). right. intros Hms. apply Hrs. pose proof (ap_inputs Ha) as Hi. rewrite Hms in Hi. by destruct rs.
  - by apply (ap_distinct Ha).
  - intros k. rewrite snapshot_ok_iff, (appended_metadata _ _ _ _ _ k Ha). by apply snapshot_ok_iff.
  - intros k. rewrite (appended_metadata _ _ _ _ _ k Ha). specialize (Hc k). specialize (Hlen k). lia.
Qed.

(** The values an accepted checkpoint carries. *)
Lemma accepted_covers metadata checkpoint max expected :
  checkpoint_accepted metadata checkpoint max expected = true ->
  exists m covered revision, metadata = JObject m /\ jfind checkpoint "covered_sequence" = Some (JInt covered) /\
    jfind checkpoint "revision" = Some (JInt revision) /\
    match stored_int (context_field metadata "covered_sequence") with Some old => (old <= covered <= max)%Z | None => False end /\
    expected <= revision.
Proof.
  unfold checkpoint_accepted. rewrite andb_true_iff. intros [Ho H1].
  destruct metadata as [| | | | | |m]; try discriminate Ho. exists m.
  destruct (jfind checkpoint "covered_sequence") as [[| |covered| | | |]|]; try discriminate.
  destruct (jfind checkpoint "revision") as [[| |revision| | | |]|]; try discriminate.
  destruct (jfind checkpoint "summary") as [[| | | |summary| |]|]; try discriminate.
  exists covered, revision. do 3 (split; [reflexivity|]).
  destruct (stored_int _) as [old|]; [|by rewrite andb_false_r in H1].
  repeat (rewrite andb_true_iff in H1 || rewrite orb_true_iff in H1). lia.
Qed.
Lemma oset_context m v k :
  context_field (oset (JObject m) "oran_working_context" v) k = match jfind v k with Some JNull | None => None | x => x end.
Proof.
  unfold context_field. change (jfind (oset (JObject m) "oran_working_context" v) "oran_working_context")
    with (member (oset (JObject m) "oran_working_context" v) "oran_working_context").
  by rewrite oset_member, decide_True.
Qed.
Lemma representable_oset m k v :
  representable (JObject m) = true -> representable v = true -> representable (oset (JObject m) k v) = true.
Proof.
  simpl. rewrite !andb_true_iff, !bool_decide_eq_true. intros [Hd Hall] Hv. split.
  - rewrite ordered_set_keys. case_decide as Hk; [|exact Hd]. apply NoDup_app. split; [exact Hd|].
    split; [|apply NoDup_singleton]. intros x Hx Hk'%list_elem_of_singleton. subst x.
    apply list_elem_of_In, in_map_iff in Hx as ([k' v'] & Hk' & Hin). cbn in Hk'. subst k'.
    by apply (proj1 (assoc_none _ _) Hk v').
  - induction m as [|[k0 v0] m IH]; simpl in *; [by rewrite Hv|].
    apply andb_true_iff in Hall as [Hv0 Hm]. case_decide; simpl; rewrite ?Hv, ?Hv0; [done|].
    apply IH; [|done]. by apply NoDup_cons in Hd as [_ Hd].
Qed.

(** What the [UPDATE] of an accepted checkpoint does. *)
Lemma update_checkpoint_spec key cj expected t t' :
  update_checkpoint key cj expected t = (Ok true, t') ->
  exists s m checkpoint covered revision,
    session_at key t = Some s /\ sql_parse (ses_metadata s) = Some (JObject m) /\ sql_parse cj = Some checkpoint /\
    checkpoint_accepted (JObject m) checkpoint (max_sequence key t) expected = true /\
    jfind checkpoint "covered_sequence" = Some (JInt covered) /\ jfind checkpoint "revision" = Some (JInt revision) /\
    match stored_int (context_field (JObject m) "covered_sequence") with
    | Some old => (old <= covered <= max_sequence key t)%Z | None => False end /\
    expected <= revision /\
    t' = upd_session key (fun s => mkSessionRow (ses_key s) (ses_title s)
      (sql_dump (oset (JObject m) "oran_working_context" checkpoint)) (ses_created s) (ses_updated s)) t.
Proof.
  unfold update_checkpoint. destruct (session_at key t) as [s|]; [|discriminate].
  destruct (sql_parse (ses_metadata s)) as [metadata|] eqn:Hm; [|discriminate].
  destruct (sql_parse cj) as [checkpoint|] eqn:Hcj; [|discriminate].
  destruct (checkpoint_accepted _ _ _ _) eqn:Hacc; [|discriminate]. intros [= <-].
  pose proof Hacc as (m & covered & revision & -> & Hcov & Hrev & Hold & Hexp)%accepted_covers.
  exists s, m, checkpoint, covered, revision. by repeat split.
Qed.

(** The stored context is the checkpoint; the rest of the tables is as before. *)
Lemma update_checkpoint_effect key cj expected t t' :
  update_checkpoint key cj expected t = (Ok true, t') ->
  exists checkpoint covered revision,
    sql_parse cj = Some checkpoint /\ jfind checkpoint "covered_sequence" = Some (JInt covered) /\
    jfind checkpoint "revision" = Some (JInt revision) /\ expected <= revision /\
    (tables_ok t -> 0 <= covered) /\ covered <= max_sequence key t /\
    covered_at (metadata_at key t') = covered /\ revision_in (metadata_at key t') = Ok (sql_int (JInt revision)) /\
    tb_messages t' = tb_messages t /\ tb_skills t' = tb_skills t /\
    map ses_key (tb_sessions t') = map ses_key (tb_sessions t) /\
    (forall k, k <> key -> session_at k t' = session_at k t) /\
    (forall k, is_Some (session_at k t) -> is_Some (session_at k t')).
Proof.
  intros (s & m & checkpoint & covered & revision & Hs & Hm & Hcj & _ & Hcov & Hrev & Hold & Hexp & ->)%update_checkpoint_spec.
  set (f := fun s : SessionRow => mkSessionRow _ _ _ _ _). assert (Hf : forall s, ses_key (f s) = ses_key s) by done.
  assert (Hat : metadata_at key (upd_session key f t) = sql_dump (oset (JObject m) "oran_working_context" checkpoint)).
  { unfold metadata_at. by rewrite (session_at_upd _ _ _ _ Hf), decide_True, Hs by done. }
  assert (Hparse : sql_parse (sql_dump (oset (JObject m) "oran_working_context" checkpoint)) =
    Some (oset (JObject m) "oran_working_context" checkpoint)).
  { apply sql_parse_dump, representable_oset; by eapply sql_parse_representable. }
  exists checkpoint, covered, revision. do 4 (split; [done|]). split; [|split; [|split; [|split]]].
  - intros Hok. pose proof (ok_covered Hok key) as Hc. unfold covered_at, metadata_at in Hc. rewrite Hs, Hm in Hc.
    destruct (context_field (JObject m) "covered_sequence") as [[| |z| | | |]|]; simpl in Hold; lia || done.
  - destruct (stored_int _); lia || done.
  - unfold covered_at. by rewrite Hat, Hparse, oset_context, Hcov.
  - unfold revision_in. by rewrite Hat, Hparse, oset_context, Hrev.
  - do 2 (split; [done|]). split; [|split].
    + simpl. rewrite map_map. apply map_ext. intros x. by case_decide.
    + intros k Hk. by rewrite (session_at_upd _ _ _ _ Hf), decide_False.
    + intros k [x Hx]. rewrite (session_at_upd _ _ _ _ Hf), Hx. case_decide; eauto.
Qed.
Lemma update_ok key cj expected t t' :
  0 <= expected -> tables_ok t -> update_checkpoint key cj expected t = (Ok true, t') -> tables_ok t'.
Proof.
  intros Hexp Hok Hu. pose proof Hok as [Hn Hr Ho Hd Hs Hc].
  apply update_checkpoint_effect in Hu as
    (checkpoint & covered & revision & _ & _ & _ & Hle & Hpos & Hmax & Hcov & Hrev & Hms & _ & Hkeys & Hother & Hsome).
  assert (Hrows : forall k, rows_of k t' = rows_of k t) by (intros k; by apply rows_of_messages).
  split.
  - intros k. rewrite Hrows. apply Hn.
  - by rewrite Hms.
  - rewrite Hms. eapply Forall_impl; [exact Ho|]. intros r. apply Hsome.
  - by rewrite Hkeys.
  - intros k. apply snapshot_ok_iff. destruct (decide (k = key)) as [->|Hk].
    + rewrite Hrev. eexists. split; [|reflexivity]. rewrite sql_int_saturates. lia.
    + unfold metadata_at. rewrite (Hother _ Hk). by apply snapshot_ok_iff.
  - intros k. rewrite Hrows. destruct (decide (k = key)) as [->|Hk].
    + rewrite Hcov, <- (numbered_max _ _ (Hn key)). split; [by apply Hpos|exact Hmax].
    + unfold metadata_at. rewrite (Hother _ Hk). apply Hc.
Qed.
End WellFormed.

(** ** Importing as a whole *)
(** What an import that succeeds did: the destination was unused, and it is now the
    source session under its new name, with the source's session row. *)
Record imported (source : Tables) (from to : SessionKey) (t t' : Tables) : Prop := {
  im_free : identity_taken to t = false;
  im_session : exists s, session_at from source = Some s /\
    session_at to t' = Some (mkSessionRow to (ses_title s) (ses_metadata s) (ses_created s) (ses_updated s));
  im_rows : tb_messages t' = tb_messages t ++ map (under_message to) (ordered_rows from source);
  im_skills : tb_skills t' = tb_skills t ++ map (under_skill to) (filter (fun s => skl_key s = from) (tb_skills source));
  im_others : forall k, k <> to -> session_at k t' = session_at k t;
  im_distinct : NoDup (map ses_key (tb_sessions t)) -> NoDup (map ses_key (tb_sessions t')) }.
Arguments im_free {_ _ _ _ _} _.
Arguments im_session {_ _ _ _ _} _.
Arguments im_rows {_ _ _ _ _} _.
Arguments im_skills {_ _ _ _ _} _.
Arguments im_others {_ _ _ _ _} _.
Arguments im_distinct {_ _ _ _ _} _.

Section Importing.
Context `{SqlJson} (faults : nat -> option Error) (cancelled : nat -> bool).

Lemma does_cancel : does (check_cancelled cancelled) stays.
Proof. intros c. unfold check_cancelled. by destruct (cancelled (cn_calls c)). Qed.
Lemma does_copy {R} (put : R -> Tables -> Tables) (rows : list R) :
  does (copy_table faults cancelled put rows) (fun t _ t' => t' = fold_left (fun t r => put r t) rows t).
Proof.
  do 3 (apply does_after; [apply does_step|]; intros _).
  induction rows as [|r rows IH]; simpl; apply does_after; try apply does_cancel; intros _;
    (apply does_after; [apply does_step|]; intros _).
  - eapply does_weaken; [apply does_retD|]. by intros t a t' [_ ->].
  - apply does_after; [apply does_step|]; intros _. eapply does_weaken.
    + apply does_bindD; [apply does_call|]. intros u. apply does_after; [apply does_step|]; intros _. exact IH.
    + by intros t a t' (u & t1 & (n & [= _ <-]) & ->).
Qed.
Definition imported_tables (source : Tables) (from to : SessionKey) (t : Tables) : Tables :=
  fold_left (fun t s => put_session to s t) (filter (fun s => ses_key s = from) (tb_sessions source))
    (fold_left (fun t s => put_skill (under_skill to s) t) (filter (fun s => skl_key s = from) (tb_skills source))
      (fold_left (fun t r => insert_row (under_message to r) t) (ordered_rows from source) t)).
Lemma does_import source from to :
  does (import_body faults cancelled source from to) (fun t _ t' =>
    identity_taken to t = false /\ filter (fun s => ses_key s = from) (tb_sessions source) <> [] /\
    t' = imported_tables source from to t).
Proof.
  do 2 (apply does_after; [apply does_step|]; intros _).
  eapply does_weaken.
  - eapply (does_bindD _ _ _ (fun taken t _ t' => taken = false /\
      filter (fun s => ses_key s = from) (tb_sessions source) <> [] /\ t' = imported_tables source from to t));
      [apply does_select|].
    intros [|]; [apply does_fail|]. eapply does_weaken.
    + apply does_bindD; [apply does_copy|]. intros u. apply does_bindD; [apply does_copy|]. intros u'.
      eapply (does_bindD _ _ _ (fun _ t _ t' => filter (fun s => ses_key s = from) (tb_sessions source) <> [] /\ t' = t));
        [apply does_copy|].
      intros u''. case_bool_decide; [apply does_fail|]. eapply does_weaken; [apply does_retD|]. by intros t a t' [_ ->].
    + by intros t a t' (u & t1 & -> & u' & t2 & -> & u'' & t3 & -> & Hne & ->).
  - intros t a t' (taken & t1 & ([= <-] & ->) & Ht & Hne & ->). by split.
Qed.
End Importing.

Lemma filter_single {A} (f : A -> SessionKey) k (l : list A) x :
  NoDup (map f l) -> x ∈ l -> f x = k -> filter (fun y => f y = k) l = [x].
Proof.
  induction l as [|y l IH]; simpl; [set_solver|]. intros [Hy Hl]%NoDup_cons Hx Hk. rewrite filter_cons.
  destruct (decide (f y = k)) as [He|He].
  - assert (y = x) as ->.
    { apply elem_of_cons in Hx as [|Hx]; [done|]. destruct Hy. rewrite He, <- Hk. by apply list_elem_of_fmap_2. }
    f_equal.
    clear IH Hx. induction l as [|z l IH]; [done|]. rewrite filter_cons, decide_False; [|set_solver].
    apply IH; [set_solver|]. by apply NoDup_cons in Hl as [_ Hl].
  - apply elem_of_cons in Hx as [->|Hx]; [done|]. by apply IH.
Qed.
Lemma session_at_put to s t k :
  session_at k (put_session to s t) =
  if decide (k = to) then Some (mkSessionRow to (ses_title s) (ses_metadata s) (ses_created s) (ses_updated s))
  else session_at k t.
Proof.
  unfold put_session. set (put := mkSessionRow _ _ _ _ _).
  destruct (session_at to t) as [x|] eqn:Hx.
  - destruct t as [ms ss sk]. unfold upd_session. simpl.
    induction ss as [|y ss IH]; [discriminate|]. simpl. rewrite !session_at_cons in *.
    destruct (decide (ses_key y = to)) as [Hy|Hy].
    + cbn [ses_key put]. destruct (decide (k = to)) as [->|Hk]; [by rewrite decide_True|].
      rewrite decide_False by congruence. rewrite decide_False by congruence. clear IH Hx.
      induction ss as [|z ss IH]; [done|]. simpl. rewrite !session_at_cons.
      destruct (decide (ses_key z = to)) as [Hz|Hz]; [|by case_decide].
      rewrite decide_False by (cbn; congruence). by rewrite decide_False by congruence.
    + destruct (decide (ses_key y = k)) as [Hyk|Hyk]; [by rewrite decide_False by congruence|]. by apply IH.
  - rewrite session_at_snoc.
    rewrite !(session_at_sessions k (mkTables _ _ _) t) by reflexivity. cbn [ses_key put].
    destruct (decide (k = to)) as [->|Hk]; [by rewrite Hx, decide_True|].
    rewrite decide_False by congruence. by destruct (session_at k t).
Qed.
Lemma put_distinct to s t :
  NoDup (map ses_key (tb_sessions t)) -> NoDup (map ses_key (tb_sessions (put_session to s t))).
Proof.
  intros Hd. unfold put_session. destruct (session_at to t) as [x|] eqn:Hx; simpl.
  - rewrite map_map. erewrite map_ext; [exact Hd|]. intros y. by case_decide.
  - apply session_at_none in Hx. rewrite map_app. apply NoDup_app. split; [done|]. split; [set_solver|]. apply NoDup_singleton.
Qed.
Lemma put_session_parts to s t :
  tb_messages (put_session to s t) = tb_messages t /\ tb_skills (put_session to s t) = tb_skills t.
Proof. unfold put_session. by destruct (session_at to t). Qed.

Lemma fold_insert_parts to rs t :
  let t' := fold_left (fun t r => insert_row (under_message to r) t) rs t in
  tb_messages t' = tb_messages t ++ map (under_message to) rs /\ tb_skills t' = tb_skills t /\
  (NoDup (map ses_key (tb_sessions t)) -> NoDup (map ses_key (tb_sessions t'))) /\
  (forall k, k <> to -> session_at k t' = session_at k t).
Proof.
  revert t. induction rs as [|r rs IH]; intros t; simpl; [by rewrite app_nil_r|].
  destruct (IH (insert_row (under_message to r) t)) as (Hm & Hs & Hd & Ho). split; [|split; [|split]].
  - rewrite Hm. unfold insert_row at 1. rewrite touch_messages. simpl. by rewrite <- app_assoc.
  - rewrite Hs. unfold insert_row. by rewrite touch_skills.
  - intros Hd0. apply Hd. by apply touch_distinct.
  - intros k Hk. rewrite (Ho k Hk), insert_row_session. by rewrite decide_False.
Qed.
Lemma fold_skill_parts to ss t :
  fold_left (fun t s => put_skill (under_skill to s) t) ss t =
  mkTables (tb_messages t) (tb_sessions t) (tb_skills t ++ map (under_skill to) ss).
Proof.
  revert t. induction ss as [|s ss IH]; intros t; simpl; [by destruct t; rewrite app_nil_r|].
  rewrite IH. simpl. by rewrite <- app_assoc.
Qed.

Lemma imported_spec source from to t :
  NoDup (map ses_key (tb_sessions source)) -> identity_taken to t = false ->
  filter (fun s => ses_key s = from) (tb_sessions source) <> [] ->
  imported source from to t (imported_tables source from to t).
Proof.
  intros Hd Hfree Hne.
  destruct (session_at from source) as [s|] eqn:Hs.
  2: { destruct (filter _ _) as [|x l] eqn:Hf; [done|].
       assert (Hx : x ∈ filter (fun s => ses_key s = from) (tb_sessions source)) by (rewrite Hf; left).
       apply list_elem_of_filter in Hx as [He Hx]. apply session_at_none in Hs. destruct Hs. rewrite <- He. by apply list_elem_of_fmap_2. }
  destruct (session_at_key _ _ _ Hs) as [Hkey Hin].
  unfold imported_tables. rewrite (filter_single ses_key from _ s Hd Hin Hkey). simpl.
  rewrite fold_skill_parts.
  pose proof (fold_insert_parts to (ordered_rows from source) t) as Hparts. simpl in Hparts.
  set (t1 := fold_left _ _ t) in *. destruct Hparts as (Hm & Hsk & Hdd & Ho).
  set (t2 := mkTables _ _ _). destruct (put_session_parts to s t2) as [Hm2 Hsk2]. split.
  - exact Hfree.
  - exists s. split; [exact Hs|]. by rewrite session_at_put, decide_True.
  - by rewrite Hm2.
  - rewrite Hsk2. simpl. by rewrite Hsk.
  - intros k Hk. rewrite session_at_put, decide_False by done.
    rewrite (session_at_sessions k t2 t1) by reflexivity. by apply Ho.
  - intros Hd0. apply put_distinct. by apply Hdd.
Qed.

(** ** Every operation keeps the tables well formed *)
Lemma under_rows key to rows : filter (fun r => row_key r = key) (map (under_message to) rows) =
  if decide (key = to) then map (under_message to) rows else [].
Proof.
  induction rows as [|r rows IH]; simpl; [by case_decide|]. rewrite filter_cons. cbn [row_key under_message].
  rewrite IH. repeat case_decide; congruence.
Qed.
Lemma ordered_in key t r : r ∈ ordered_rows key t -> r ∈ tb_messages t.
Proof.
  unfold ordered_rows. rewrite (merge_sort_Permutation by_sequence (rows_of key t)). unfold rows_of.
  by intros [_ Hr]%list_elem_of_filter.
Qed.
Lemma identity_free key t : identity_taken key t = false -> session_at key t = None /\ rows_of key t = [].
Proof.
  unfold identity_taken. intros [[H1 H2]%orb_false_iff _]%orb_false_iff.
  apply bool_decide_eq_false in H1. apply negb_false_iff, bool_decide_eq_true in H2.
  split; [|exact H2]. destruct (session_at key t); [by destruct H1|done].
Qed.

Section Invariant.
Context `{SqlJsonLaws}.

Lemma imported_rows source from to t t' k :
  tables_ok source -> imported source from to t t' ->
  rows_of k t' = if decide (k = to) then map (under_message to) (rows_of from source) else rows_of k t.
Proof.
  intros Hok Him. unfold rows_of at 1. rewrite (im_rows Him), filter_app, under_rows.
  fold (rows_of k t). rewrite ordered_numbered by apply (ok_numbered Hok).
  destruct (identity_free _ _ (im_free Him)) as [_ Hrows].
  case_decide; [subst; by rewrite Hrows|]. apply app_nil_r.
Qed.
Lemma imported_metadata source from to t t' k :
  imported source from to t t' -> metadata_at k t' = if decide (k = to) then metadata_at from source else metadata_at k t.
Proof.
  intros Him. unfold metadata_at. destruct (im_session Him) as (s & Hs & Ht).
  case_decide; [subst; by rewrite Hs, Ht|]. by rewrite (im_others Him).
Qed.
Lemma imported_ok source from to t t' :
  tables_ok source -> tables_ok t -> imported source from to t t' -> tables_ok t'.
Proof.
  intros Hsrc [Hn Hr Ho Hd Hs Hc] Him. pose proof (im_session Him) as (s & Hat & Hto). split.
  - intros k. rewrite (imported_rows _ _ _ _ _ _ Hsrc Him). case_decide; [|apply Hn].
    unfold numbered. rewrite map_map, length_map. apply (ok_numbered Hsrc).
  - rewrite (im_rows Him). apply Forall_app. split; [exact Hr|]. apply Forall_map, Forall_forall.
    intros r Hin%ordered_in. exact (proj1 (Forall_forall _ _) (ok_roles Hsrc) r Hin).
  - rewrite (im_rows Him). apply Forall_app. split.
    + eapply Forall_impl; [exact Ho|]. intros r Hin. cbv beta in Hin |- *.
      destruct (decide (row_key r = to)) as [->|Hk]; [by rewrite Hto|]. by rewrite (im_others Him).
    + apply Forall_map, Forall_true. intros r. cbn. by rewrite Hto.
  - by apply (im_distinct Him).
  - intros k. rewrite snapshot_ok_iff, (imported_metadata _ _ _ _ _ k Him). case_decide; apply snapshot_ok_iff.
    + apply (ok_snapshot Hsrc).
    + apply Hs.
  - intros k. rewrite (imported_metadata _ _ _ _ _ k Him), (imported_rows _ _ _ _ _ _ Hsrc Him).
    case_decide; [|apply Hc]. rewrite length_map. apply (ok_covered Hsrc).
Qed.

(** The numbers of messages and of revisions that a session is at only grow. *)
Definition grows (t t' : Tables) : Prop :=
  forall key n r, check_snapshot key t = Ok (n, r) ->
  exists n' r', check_snapshot key t' = Ok (n', r') /\ n <= n' /\ r <= r'.
Lemma grows_refl t : grows t t.
Proof. intros key n r Hs. by exists n, r. Qed.
Lemma grows_trans t1 t2 t3 : grows t1 t2 -> grows t2 t3 -> grows t1 t3.
Proof.
  intros H12 H23 key n r Hs. apply H12 in Hs as (n2 & r2 & Hs2 & Hn & Hr).
  apply H23 in Hs2 as (n3 & r3 & Hs3 & Hn2 & Hr2). exists n3, r3. split; [exact Hs3|lia].
Qed.
Lemma snapshot_max key t n r : check_snapshot key t = Ok (n, r) ->
  n = max_sequence key t /\ revision_in (metadata_at key t) = Ok r.
Proof. rewrite check_snapshot_eq. destruct (revision_in _); simpl; [|done]. by intros [= <- <-]. Qed.

Lemma revision_range metadata r : revision_in metadata = Ok r -> - 2 ^ 63 <= r < 2 ^ 63.
Proof.
  unfold revision_in. destruct (sql_parse metadata) as [m|]; [|discriminate]. intros [= <-].
  destruct (context_field m "revision") as [v|]; [apply sql_int_range|lia].
Qed.
Lemma commit_appended_ok key ms cm t rs t' :
  match cm with Some c => commit_invalid c = false | None => True end ->
  tables_ok t -> commit_appended key ms cm t rs t' -> tables_ok t' /\ grows t t'.
Proof.
  intros Hval Hok (Hc & t1 & Ha & Hw). pose proof (appended_ok _ _ _ _ _ Hok Ha) as Hok1.
  assert (Hg : grows t t1).
  { intros k n r [-> Hrev]%snapshot_max. exists (max_sequence k t1), r.
    rewrite check_snapshot_eq, (appended_metadata _ _ _ _ _ _ Ha), Hrev. split; [done|]. split; [|lia].
    rewrite !numbered_max by (apply (ok_numbered Hok) || apply (ok_numbered Hok1)).
    destruct (decide (k = key)) as [->|Hk]; [rewrite (appended_rows_of _ _ _ _ _ Ha), length_app; lia|].
    by rewrite (appended_others _ _ _ _ _ _ Ha Hk). }
  destruct cm as [c|]; simpl in Hw; [|by subst].
  unfold commit_invalid in Hval. rewrite !orb_false_iff in Hval. destruct Hval as [[[_ Hexp] _] _].
  split; [by eapply update_ok; [|exact Hok1|exact Hw]; lia|].
  apply update_checkpoint_effect in Hw as
    (checkpoint & covered & revision & _ & _ & _ & Hle & _ & _ & _ & Hrev & Hms & _ & _ & Hother & _).
  intros k n r Hs. pose proof Hs as [Hn Hr]%snapshot_max. subst n.
  destruct (decide (k = key)) as [->|Hk].
  - simpl in Hc. rewrite Hc in Hs. injection Hs as Hn Hr'.
    exists (max_sequence key t1), (sql_int (JInt revision)).
    rewrite check_snapshot_eq, Hrev. simpl.
    rewrite (max_sequence_rows key t' t1) by (by apply rows_of_messages). split; [done|].
    destruct (ok_snapshot Hok key) as (r0 & Hr0 & Hs0). rewrite Hc in Hs0. injection Hs0 as Hn0 Hr1.
    destruct (Hg key (max_sequence key t) r) as (n' & r' & Hs' & Hn' & _); [by rewrite Hc, Hn, Hr'|].
    apply snapshot_max in Hs' as [-> _]. split; [exact Hn'|]. rewrite sql_int_saturates.
    pose proof (revision_range _ _ Hr). lia.
  - destruct (Hg k _ r Hs) as (n' & r' & Hs' & Hn' & Hr'). exists n', r'. split; [|lia].
    rewrite <- Hs', !check_snapshot_eq. unfold metadata_at. rewrite (Hother _ Hk).
    by rewrite (max_sequence_rows k t' t1) by (by apply rows_of_messages).
Qed.
Lemma imported_grows source from to t t' :
  tables_ok source -> tables_ok t -> imported source from to t t' -> grows t t'.
Proof.
  intros Hsrc Hok Him k n r Hs. pose proof Hs as [-> Hr]%snapshot_max.
  destruct (decide (k = to)) as [->|Hk].
  - destruct (identity_free _ _ (im_free Him)) as [Hnone Hrows].
    destruct (ok_snapshot (imported_ok _ _ _ _ _ Hsrc Hok Him) to) as (r' & Hr' & Hs').
    exists (max_sequence to t'), r'. split; [exact Hs'|].
    rewrite (numbered_max to t) by apply (ok_numbered Hok). rewrite Hrows.
    rewrite (numbered_max to t') by apply (ok_numbered (imported_ok _ _ _ _ _ Hsrc Hok Him)). simpl.
    unfold revision_in, metadata_at in Hr. rewrite Hnone, sql_parse_empty in Hr. cbn in Hr. injection Hr as <-. lia.
  - exists (max_sequence k t), r. split; [|lia]. rewrite <- Hs, !check_snapshot_eq.
    rewrite (imported_metadata _ _ _ _ _ _ Him), decide_False by done.
    rewrite (max_sequence_rows k t' t); [done|]. by rewrite (imported_rows _ _ _ _ _ _ Hsrc Him), decide_False.
Qed.
End Invariant.

(** The operations that change a database, with whatever faults and cancellation. *)
Inductive repo_step `{SqlJson} : Conn -> Conn -> Prop :=
  | step_append faults clock key ms cm c r c' :
      append_messages faults clock key ms cm c = (r, c') -> repo_step c c'
  | step_import faults cancelled path source from to c r c' :
      tables_ok (src_tables source) ->
      import_session faults cancelled path source from to c = (r, c') -> repo_step c c'.


Section Outcomes.
Context `{SqlJson} (faults : nat -> option Error).

Definition request_valid (key : SessionKey) (ms : list SessionMessageInput) (cm : option SessionCommit) : Prop :=
  validate_key key = Ok tt /\ validate_messages 0 ms = Ok tt /\
  match cm with Some cm => commit_invalid cm = false | None => True end.
(** What holds of every body that succeeds holds of every append that does. *)
Lemma append_outcome_of clock key ms cm P :
  does (append_body faults clock key ms cm) P -> (ms = [] -> cm = None -> forall t, P t [] t) ->
  atomic (append_messages faults clock key ms cm) (fun t rs t' => request_valid key ms cm /\ P t rs t').
Proof.
  intros Hdoes Hnil. unfold append_messages, request_valid.
  destruct (validate_key key) as [[]|e]; [|apply atomic_fail].
  destruct (validate_messages 0 ms) as [[]|e]; [|apply atomic_fail].
  assert (Hbody : atomic (db! _ := step_only faults in transaction faults (append_body faults clock key ms cm)) P).
  { apply atomic_after; [apply quiet_step|]. intros _. by apply atomic_transaction. }
  destruct cm as [cm|].
  - destruct (commit_invalid cm) eqn:Hcm; [apply atomic_fail|].
    rewrite (bool_decide_eq_true_2 (is_Some _)), andb_false_r by (by eexists).
    intros c Hc. specialize (Hbody c Hc). destruct (bindD _ _ c) as [[rs|e] c']; naive_solver.
  - case_bool_decide as Hms; intros c Hc.
    + simpl. split; [|done]. split; [done|]. by apply Hnil.
    + specialize (Hbody c Hc). simpl. destruct (bindD _ _ c) as [[rs|e] c']; naive_solver.
Qed.
Lemma append_outcome clock key ms cm :
  atomic (append_messages faults clock key ms cm) (fun t rs t' =>
    request_valid key ms cm /\ commit_appended key ms cm t rs t').
Proof.
  apply append_outcome_of; [apply does_append|]. intros -> -> t. split; [done|]. exists t. by split; [apply appended_nil|].
Qed.
Lemma append_times clock key ms cm :
  atomic (append_messages faults clock key ms cm) (fun t rs t' => request_valid key ms cm /\ times_from clock rs).
Proof. apply append_outcome_of; [apply does_append_times|]. intros _ _ t. constructor. Qed.
Lemma import_outcome cancelled path source from to :
  NoDup (map ses_key (tb_sessions (src_tables source))) ->
  atomic (import_session faults cancelled path source from to) (fun t _ t' =>
    src_versions source = [Some "2"%string] /\ imported (src_tables source) from to t t').
Proof.
  intros Hd. unfold import_session. destruct (_ || _); [apply atomic_fail|].
  do 3 (apply atomic_after; [apply quiet_step|]; intros _).
  destruct (negb _) eqn:Hv; [apply atomic_fail|].
  apply atomic_after; [apply quiet_step|]. intros _. apply atomic_transaction.
  eapply does_weaken; [apply does_import|]. intros t u t' (Hfree & Hne & ->).
  apply negb_false_iff, bool_decide_eq_true in Hv. split; [exact Hv|]. by apply imported_spec.
Qed.
End Outcomes.

(** ** Properties *)
(** C23: Appending to a session happens as a whole or not at all, whatever SQLite call fails:
    on an error the tables are the ones before and no transaction is left open; on success
    the request was valid, a commit's snapshot was the current one, the messages are there
    under the numbers that follow the largest one and are the records returned, no other
    session changed, and the stored checkpoint changed only by a commit. *)
Theorem append_atomic `{SqlJson} faults clock key ms cm c :
  cn_saved c = None ->
  match append_messages faults clock key ms cm c with
  | (Ok rs, c') => cn_saved c' = None /\ request_valid key ms cm /\
      commit_appended key ms cm (cn_tables c) rs (cn_tables c')
  | (Err _, c') => cn_saved c' = None /\ cn_tables c' = cn_tables c
  end.
Proof.
  intros Hc. pose proof (append_outcome faults clock key ms cm c Hc) as Ho.
  destruct (append_messages _ _ _ _ _ c) as [[rs|e] c']; naive_solver.
Qed.

Lemma step_grows `{SqlJsonLaws} c c' :
  repo_step c c' -> cn_saved c = None -> tables_ok (cn_tables c) ->
  cn_saved c' = None /\ tables_ok (cn_tables c') /\ grows (cn_tables c) (cn_tables c').
Proof.
  intros [faults clock key ms cm c0 r c1 He|faults cancelled path source from to c0 r c1 Hsrc He] Hc Hok.
  - pose proof (append_outcome faults clock key ms cm c0 Hc) as Ho. rewrite He in Ho.
    destruct r as [rs|e]; [|destruct Ho as [-> ->]; auto using grows_refl].
    destruct Ho as [[(_ & _ & Hv) Ha] Hs]. split; [exact Hs|]. by eapply commit_appended_ok.
  - pose proof (import_outcome faults cancelled path source from to (ok_distinct Hsrc) c0 Hc) as Ho. rewrite He in Ho.
    destruct r as [rs|e]; [|destruct Ho as [-> ->]; auto using grows_refl].
    destruct Ho as [[_ Him] Hs]. split; [exact Hs|]. split; [exact (imported_ok _ _ _ _ _ Hsrc Hok Him)|exact (imported_grows _ _ _ _ _ Hsrc Hok Him)].
Qed.
Lemma steps_grow `{SqlJsonLaws} c c' :
  rtc repo_step c c' -> cn_saved c = None -> tables_ok (cn_tables c) ->
  cn_saved c' = None /\ tables_ok (cn_tables c') /\ grows (cn_tables c) (cn_tables c').
Proof.
  induction 1 as [c|c1 c2 c3 Hs _ IH]; intros Hc Hok; [auto using grows_refl|].
  destruct (step_grows _ _ Hs Hc Hok) as (Hc2 & Hok2 & Hg). destruct (IH Hc2 Hok2) as (Hc3 & Hok3 & Hg3).
  eauto using grows_trans.
Qed.

(** A database never leaves the well-formed states: from well-formed tables (an empty
    database has them), any sequence of appends, commits and imports, with any faults,
    leads to tables where each session's messages are numbered 1, 2, ... without gaps and
    have a role and an owning session, session keys are unique, the metadata is an object
    text with a revision, and a summary covers no more messages than there are; and no
    transaction is ever left open. *)
Theorem repository_invariant `{SqlJsonLaws} c c' :
  rtc repo_step c c' -> cn_saved c = None -> tables_ok (cn_tables c) ->
  tables_ok (cn_tables c') /\ cn_saved c' = None.
Proof. intros Hs Hc Hok. by destruct (steps_grow _ _ Hs Hc Hok) as (? & ? & _). Qed.

(** C24: No lost update: once a session has moved on from the snapshot that a turn started
    from, whatever happens afterwards, a commit that expects that snapshot is refused and
    changes nothing. *)
Theorem no_lost_update `{SqlJsonLaws} c c1 c2 key n r faults clock ms cm :
  cn_saved c = None -> tables_ok (cn_tables c) ->
  check_snapshot key (cn_tables c) = Ok (n, r) ->
  rtc repo_step c c1 -> check_snapshot key (cn_tables c1) <> Ok (n, r) ->
  rtc repo_step c1 c2 -> cm_expected_messages cm = n -> cm_expected_revision cm = r ->
  exists e, fst (append_messages faults clock key ms (Some cm) c2) = Err e /\
    cn_tables (snd (append_messages faults clock key ms (Some cm) c2)) = cn_tables c2.
Proof.
  intros Hc Hok Hs H1 Hne H2 <- <-.
  destruct (steps_grow _ _ H1 Hc Hok) as (Hc1 & Hok1 & Hg1). destruct (steps_grow _ _ H2 Hc1 Hok1) as (Hc2 & Hok2 & Hg2).
  pose proof (append_outcome faults clock key ms (Some cm) c2 Hc2) as Ho.
  destruct (append_messages _ _ _ _ _ c2) as [[rs|e] c3]; [|exists e; by destruct Ho].
  destruct Ho as [[_ [Hcheck _]] _]. simpl in Hcheck.
  destruct (Hg1 _ _ _ Hs) as (n1 & r1 & Hs1 & Hn1 & Hr1).
  destruct (Hg2 _ _ _ Hs1) as (n2 & r2 & Hs2 & Hn2 & Hr2).
  rewrite Hs2 in Hcheck. injection Hcheck as -> ->. destruct Hne. rewrite Hs1. repeat f_equal; lia.
Qed.

(** An import copies the whole conversation or nothing: on success the destination was
    unused and now holds the source's messages with their numbers, its session row and its
    skill activations, and every other session is as before; on an error, a cancellation
    included, the tables are the ones before. *)
Theorem import_exact `{SqlJsonLaws} faults cancelled path source from to c :
  cn_saved c = None -> tables_ok (src_tables source) ->
  match import_session faults cancelled path source from to c with
  | (Ok _, c') => imported (src_tables source) from to (cn_tables c) (cn_tables c') /\
      rows_of to (cn_tables c) = [] /\
      (forall key, rows_of key (cn_tables c') =
        if decide (key = to) then map (under_message to) (rows_of from (src_tables source)) else rows_of key (cn_tables c))
  | (Err _, c') => cn_tables c' = cn_tables c
  end.
Proof.
  intros Hc Hsrc. pose proof (import_outcome faults cancelled path source from to (ok_distinct Hsrc) c Hc) as Ho.
  destruct (import_session _ _ _ _ _ _ c) as [[u|e] c']; [|by destruct Ho].
  destruct Ho as [[_ Him] _]. split; [exact Him|]. split; [apply (identity_free _ _ (im_free Him))|].
  intros key. by apply imported_rows.
Qed.

(** ** Reading *)
Definition total_bytes (rows : list MessageRow) : nat := list_sum (map row_bytes rows).
Definition roles_ok (rows : list MessageRow) : Prop :=
  Forall (fun r => is_Some (parse_enum (E := Role) (row_role r))) rows.
(** [k] of the rows were read: as many as fit the budget. *)
Definition prefix_read (rows : list MessageRow) (budget k : nat) : Prop :=
  (k <= length rows)%nat /\ (total_bytes (take k rows) <= budget)%nat /\
  ((k < length rows)%nat -> (budget < total_bytes (take (S k) rows))%nat).

Lemma prefix_read_cons r rows budget k : (row_bytes r <= budget)%nat ->
  prefix_read rows (budget - row_bytes r) k -> prefix_read (r :: rows) budget (S k).
Proof.
  unfold prefix_read, total_bytes. intros Hr (Hk & Hb & Hm). simpl in *. split; [lia|]. split; [lia|].
  intros Hlt. specialize (Hm ltac:(lia)). lia.
Qed.
Lemma read_row r : is_Some (parse_enum (E := Role) (row_role r)) ->
  exists m, read_message_row r = Ok m /\ record_row m = r /\ mr_sequence m = row_sequence r.
Proof.
  intros [role Hrole]. unfold read_message_row. rewrite Hrole. eexists. split; [reflexivity|].
  split; [|reflexivity]. destruct r. unfold record_row. simpl. by rewrite (parse_enum_sound _ _ Hrole).
Qed.

Lemma read_records rows : roles_ok rows ->
  exists ms, Forall2 (fun r m => read_message_row r = Ok m) rows ms /\ map record_row ms = rows.
Proof.
  induction 1 as [|r rows Hr _ (ms & Hms & Hrows)]; [by exists []|].
  destruct (read_row r Hr) as (m & Hm & Hrow & _). exists (m :: ms). split; [by constructor|]. simpl. by rewrite Hrow, Hrows.
Qed.
Section Reading.
Context `{SqlJson} (faults : nat -> option Error).
#[local] Notation reads := (Sqlite.reads faults).

Lemma reads_row {A} r (f : SessionMessageRecord -> Db A) Q E t :
  is_Some (parse_enum (E := Role) (row_role r)) ->
  (forall m, record_row m = r -> mr_sequence m = row_sequence r -> reads (f m) Q E t) ->
  reads (bindD (lift (read_message_row r)) f) Q E t.
Proof.
  intros Hr Hf. destruct (read_row r Hr) as (m & Hm & Hrow & Hseq). rewrite Hm.
  eapply (reads_bind _ _ _ (fun m' => m' = m)); [by apply reads_ret|]. intros m' ->. by apply Hf.
Qed.

Lemma reads_all rows t : roles_ok rows -> reads (read_all faults rows) (fun ms => map record_row ms = rows) (fun _ => False) t.
Proof.
  intros Hr. destruct (read_records rows Hr) as (ms & Hms & Hrows). apply (reads_weaken _ _ (fun ms' => ms' = ms) _ (fun _ => False)); [by apply reads_rows|intros ms' ->; exact Hrows|done].
Qed.
Lemma reads_tail rows budget t : roles_ok rows ->
  reads (tail_loop faults rows budget) (fun ms => exists k, map record_row ms = take k rows /\ prefix_read rows budget k)
    (fun _ => False) t.
Proof.
  intros Hr. revert budget. induction Hr as [|r rows Hr _ IH]; intros budget; simpl; apply reads_after.
  - apply reads_ret. exists 0%nat. split; [done|]. unfold prefix_read, total_bytes. simpl. lia.
  - destruct (Nat.ltb_spec budget (row_bytes r)) as [Hlt|Hle].
    + apply reads_ret. exists 0%nat. split; [done|]. unfold prefix_read, total_bytes. simpl. lia.
    + apply reads_row; [exact Hr|]. intros m Hm _. eapply reads_bind; [apply IH|]. intros ms (k & Hms & Hk).
      apply reads_ret. exists (S k). split; [by simpl; rewrite Hm, Hms|by apply prefix_read_cons].
Qed.
Lemma reads_page rows after read budget t :
  roles_ok rows -> (forall i r, rows !! i = Some r -> row_sequence r = after + Z.of_nat read + Z.of_nat i + 1) ->
  reads (page_loop faults rows after read budget)
    (fun ms => exists k, map record_row ms = take k rows /\ prefix_read rows budget k /\ (read = 0 -> rows <> [] -> 0 < k)%nat)
    (fun e => read = 0%nat /\ e = Errors.invalid_argument "session row exceeds context page budget" /\
      exists r rest, rows = r :: rest /\ (budget < row_bytes r)%nat) t.
Proof.
  intros Hr. revert read budget. induction Hr as [|r rows Hr _ IH]; intros read budget Hseq; simpl; apply reads_after.
  - apply reads_ret. exists 0%nat. split; [done|]. unfold prefix_read, total_bytes. simpl. split; [lia|done].
  - destruct (Nat.ltb_spec budget (row_bytes r)) as [Hlt|Hle].
    + destruct (Nat.eqb_spec read 0) as [Hz|Hz].
      * apply reads_fail. split; [done|]. split; [done|]. by exists r, rows.
      * apply reads_ret. exists 0%nat. split; [done|]. unfold prefix_read, total_bytes. simpl. lia.
    + apply reads_row; [exact Hr|]. intros m Hm Hs.
      rewrite Hs, (Hseq 0%nat r eq_refl), Z.add_0_r, Z.eqb_refl. simpl.
      eapply reads_bind.
      * eapply (reads_weaken _ _ _ _ _ _ _ (IH (S read) (budget - row_bytes r)%nat _)); [intros ms Hms; exact Hms|by intros e [? _]].
        Unshelve. intros i x Hi. rewrite (Hseq (S i) x Hi). lia.
      * intros ms (k & Hms & Hk & _). apply reads_ret. exists (S k).
        split; [by simpl; rewrite Hm, Hms|]. split; [by apply prefix_read_cons|lia].
Qed.
End Reading.

Lemma roles_of `{SqlJson} key t : tables_ok t -> roles_ok (rows_of key t).
Proof.
  intros Hok. apply Forall_forall. intros r [_ Hr]%list_elem_of_filter. exact (proj1 (Forall_forall _ _) (ok_roles Hok) r Hr).
Qed.
(** The numbered rows after [after] and up to [through]. *)
Lemma filter_numbered rows lo after through :
  map row_sequence rows = seqZ lo (Z.of_nat (length rows)) ->
  filter (fun r => after < row_sequence r /\ row_sequence r <= through) rows =
  take (Z.to_nat (through - Z.max after (lo - 1))) (drop (Z.to_nat (after - (lo - 1))) rows).
Proof.
  revert lo. induction rows as [|r rows IH]; intros lo Hseq; [by rewrite drop_nil, take_nil|].
  cbn [map length] in Hseq. rewrite seqZ_cons in Hseq by lia. injection Hseq as Hr Hseq.
  replace (Z.pred (Z.of_nat (S (length rows)))) with (Z.of_nat (length rows)) in Hseq by lia.
  specialize (IH (Z.succ lo) Hseq). rewrite filter_cons, IH.
  destruct (decide (after < row_sequence r /\ row_sequence r <= through)) as [Hin|Hout].
  - replace (Z.to_nat (after - (lo - 1))) with 0%nat by lia. replace (Z.to_nat (after - (Z.succ lo - 1))) with 0%nat by lia.
    replace (Z.to_nat (through - Z.max after (lo - 1))) with (S (Z.to_nat (through - Z.max after (Z.succ lo - 1)))) by lia.
    done.
  - destruct (decide (after < lo)) as [Hlo|Hlo].
    + replace (Z.to_nat (through - Z.max after (lo - 1))) with 0%nat by lia.
      by replace (Z.to_nat (through - Z.max after (Z.succ lo - 1))) with 0%nat by lia.
    + replace (Z.to_nat (after - (lo - 1))) with (S (Z.to_nat (after - (Z.succ lo - 1)))) by lia.
      replace (Z.max after (lo - 1)) with (Z.max after (Z.succ lo - 1)) by lia. done.
Qed.

Lemma total_bytes_rev rows : total_bytes (rev rows) = total_bytes rows.
Proof.
  unfold total_bytes. rewrite map_rev. induction (map row_bytes rows) as [|n l IH]; [done|]. simpl.
  rewrite list_sum_app. simpl. lia.
Qed.
Lemma take_rev_drop {A} (l : list A) j : take j (rev l) = rev (drop (length l - j) l).
Proof. by rewrite <- firstn_rev. Qed.

(** A context page is exactly the stored conversation after a position: from well-formed
    tables, [load_after] leaves the tables alone and returns, in order and without a gap, the
    messages after [after], as many as the two limits and [through] allow and at least one
    if there is one; it fails only for a fault of SQLite, or when the first message alone
    exceeds the byte budget.  Paging from the end of each page therefore visits every message once. *)
Theorem load_after_exact `{SqlJson} faults key after through max_messages max_bytes c :
  tables_ok (cn_tables c) -> validate_key key = Ok tt -> 0 <= after <= through ->
  limits_invalid max_messages max_bytes = false ->
  let rows := take max_messages (take (Z.to_nat (through - after)) (drop (Z.to_nat after) (rows_of key (cn_tables c)))) in
  let '(r, c') := load_after faults key after through max_messages max_bytes c in
  cn_tables c' = cn_tables c /\
  match r with
  | Ok ms => exists k, map record_row ms = take k rows /\ prefix_read rows max_bytes k /\ (rows <> [] -> 0 < k)%nat
  | Err e => (exists n, faults n = Some e) \/
      (e = Errors.invalid_argument "session row exceeds context page budget" /\
       exists r rest, rows = r :: rest /\ (max_bytes < row_bytes r)%nat)
  end.
Proof.
  intros Hok Hkey Hpos Hlim rows. set (t := cn_tables c) in *.
  assert (Hrows : page_rows key after through max_messages t = rows).
  { unfold page_rows, rows. rewrite ordered_numbered by apply (ok_numbered Hok).
    rewrite (filter_numbered _ 1) by apply (ok_numbered Hok). do 3 f_equal; lia. }
  assert (Hr : reads faults (load_after faults key after through max_messages max_bytes)
    (fun ms => exists k, map record_row ms = take k rows /\ prefix_read rows max_bytes k /\ (0%nat = 0%nat -> rows <> [] -> 0 < k)%nat)
    (fun e => 0%nat = 0%nat /\ e = Errors.invalid_argument "session row exceeds context page budget" /\
      exists r rest, rows = r :: rest /\ (max_bytes < row_bytes r)%nat) t).
  { unfold load_after. rewrite Hkey, Hlim. replace (after <? 0) with false by lia. replace (through <? after) with false by lia.
    simpl. apply reads_open. intros c1 Hc1. rewrite Hc1, Hrows. revert c1 Hc1. apply reads_page.
    - unfold rows. do 2 apply Forall_take. by apply Forall_drop, roles_of.
    - intros i r Hi. unfold rows in Hi. apply lookup_take_Some in Hi as [Hi _]. apply lookup_take_Some in Hi as [Hi _].
      rewrite lookup_drop in Hi. rewrite (numbered_lookup _ _ _ (ok_numbered Hok key) Hi). lia. }
  destruct (Hr c eq_refl) as [Ht Hres]. destruct (load_after _ _ _ _ _ _ c) as [[ms|e] c']; simpl in *; (split; [exact Ht|]).
  - destruct Hres as (k & ? & ? & ?). exists k. auto.
  - destruct Hres as [(_ & ? & ?)|?]; [right; by split|by left].
Qed.

(** The tail of a conversation is its longest end within the limits: [load_tail] returns,
    in order, the last messages, as many as fit the message limit and the byte budget, and
    fails only for a fault of SQLite. *)
Theorem load_tail_longest `{SqlJson} faults key max_messages max_bytes c :
  tables_ok (cn_tables c) -> validate_key key = Ok tt -> limits_invalid max_messages max_bytes = false ->
  let rows := rows_of key (cn_tables c) in
  let '(r, c') := load_tail faults key max_messages max_bytes c in
  cn_tables c' = cn_tables c /\
  match r with
  | Ok ms => exists k, map record_row ms = drop (length rows - k) rows /\ (k <= max_messages)%nat /\ (k <= length rows)%nat /\
      (total_bytes (drop (length rows - k) rows) <= max_bytes)%nat /\
      ((k < max_messages)%nat -> (k < length rows)%nat -> (max_bytes < total_bytes (drop (length rows - S k) rows))%nat)
  | Err e => exists n, faults n = Some e
  end.
Proof.
  intros Hok Hkey Hlim rows. set (t := cn_tables c) in *. set (back := take max_messages (rev rows)).
  assert (Hr : reads faults (load_tail faults key max_messages max_bytes)
    (fun ms => exists k, map record_row (rev ms) = take k back /\ prefix_read back max_bytes k) (fun _ => False) t).
  { unfold load_tail. rewrite Hkey, Hlim. apply reads_open. intros c1 Hc1. rewrite Hc1.
    rewrite ordered_numbered by apply (ok_numbered Hok). fold rows back. revert c1 Hc1.
    eapply reads_bind.
    - apply reads_tail. apply Forall_take, Forall_rev. by apply roles_of.
    - intros ms Hms. apply reads_ret. by rewrite rev_involutive. }
  destruct (Hr c eq_refl) as [Ht Hres]. destruct (load_tail _ _ _ _ c) as [[ms|e] c']; simpl in *; (split; [exact Ht|]).
  - destruct Hres as (k & Hms & Hk & Hb & Hmax). unfold back in *. rewrite length_take, length_rev in Hk, Hmax.
    assert (Hback : forall j, (j <= max_messages)%nat -> take j (take max_messages (rev rows)) = rev (drop (length rows - j) rows)).
    { intros j Hj. rewrite take_take, Nat.min_l by exact Hj. apply take_rev_drop. }
    exists k. rewrite Hback in Hms, Hb by lia. rewrite map_rev in Hms.
    split; [by apply (f_equal (@rev _)) in Hms; rewrite !rev_involutive in Hms|].
    rewrite total_bytes_rev in Hb. do 3 (split; [lia|]).
    intros Hlt Hlen. specialize (Hmax ltac:(lia)). by rewrite Hback, total_bytes_rev in Hmax by lia.
  - by destruct Hres.
Qed.

(** ** Success *)
Section Success.
Context `{SqlJson} (faults : nat -> option Error) (calm : forall n, faults n = None).

Lemma succeeds_insert clock key ms t : succeeds (insert_messages faults clock key ms) t.
Proof.
  revert t. induction ms as [|m ms IH]; intros t; simpl; [apply succeeds_ret|].
  eapply succeeds_bind; [|apply does_insert|].
  - apply (succeeds_after _ calm). eapply succeeds_bind; [by apply (succeeds_call _ calm); eauto|apply does_call|].
    intros r t' _. apply (succeeds_after _ calm), succeeds_ret.
  - intros r t' _. apply (succeeds_after _ calm). eapply succeeds_bind; [apply IH|apply does_insert_all|].
    intros rs t'' _. apply succeeds_ret.
Qed.

(** What a commit has to be for the tables it meets. *)
Definition commit_acceptable (key : SessionKey) (ms : list SessionMessageInput) (cm : option SessionCommit) (t : Tables) : Prop :=
  match cm with
  | None => True
  | Some c =>
      check_snapshot key t = Ok (cm_expected_messages c, cm_expected_revision c) /\
      (is_Some (session_at key t) \/ ms <> []) /\
      exists metadata checkpoint, sql_parse (metadata_at key t) = Some metadata /\
        sql_parse (cm_checkpoint_json c) = Some checkpoint /\
        checkpoint_accepted metadata checkpoint (max_sequence key t + Z.of_nat (length ms)) (cm_expected_revision c) = true
  end.

Lemma succeeds_body clock key ms cm t :
  commit_acceptable key ms cm t -> succeeds (append_body faults clock key ms cm) t.
Proof.
  intros Hcm. unfold append_body.
  eapply succeeds_bind; [|apply does_check|].
  - destruct cm as [c|]; [|apply succeeds_ret]. simpl. do 2 apply (succeeds_after _ calm).
    destruct Hcm as [Hs _]. eapply succeeds_bind; [by apply (succeeds_call _ calm); rewrite Hs; eauto|apply does_select|].
    intros found t' [He _]. rewrite Hs in He. injection He as <-. simpl. rewrite !Z.eqb_refl. apply succeeds_ret.
  - intros u t' [_ ->]. apply (succeeds_after _ calm). eapply succeeds_bind; [apply succeeds_insert|apply does_insert_all|].
    intros rs t1 Ha. eapply succeeds_bind; [|apply does_write|by intros; apply succeeds_ret].
    destruct cm as [c|]; [|apply succeeds_ret]. simpl. do 2 apply (succeeds_after _ calm).
    destruct Hcm as (_ & Hsome & metadata & checkpoint & Hm & Hcj & Hacc).
    assert (Hu : exists t2, update_checkpoint key (cm_checkpoint_json c) (cm_expected_revision c) t1 = (Ok true, t2)).
    { destruct (ap_session Ha Hsome) as [s Hat]. pose proof (ap_metadata Ha) as Hmeta.
      unfold metadata_at at 1 in Hmeta. rewrite Hat in Hmeta.
      unfold update_checkpoint. rewrite Hat, Hmeta, Hm, Hcj, (ap_max Ha), Hacc. eauto. }
    destruct Hu as [t2 Hu]. eapply succeeds_bind; [by apply (succeeds_call _ calm); eauto|apply does_call|].
    intros found t3 [n Hn]. rewrite Hu in Hn. injection Hn as <- <-. apply (succeeds_step _ calm).
Qed.
End Success.

(** Without a fault of SQLite an append goes through whenever it should: a valid request
    without a commit always succeeds, and one with a commit succeeds if the snapshot it
    expects is the current one and its checkpoint covers only messages that will be there,
    does not go back, and has a later revision or repeats the stored context. *)
Theorem append_accepted `{SqlJson} faults clock key ms cm c :
  (forall n, faults n = None) -> request_valid key ms cm -> commit_acceptable key ms cm (cn_tables c) ->
  exists rs c', append_messages faults clock key ms cm c = (Ok rs, c').
Proof.
  intros Hcalm (Hkey & Hms & Hval) Hcm. unfold append_messages. rewrite Hkey, Hms.
  assert (Hbody : succeeds (db! _ := step_only faults in transaction faults (append_body faults clock key ms cm)) (cn_tables c)).
  { apply succeeds_after; [exact Hcalm|]. eapply succeeds_transaction; [exact Hcalm|apply does_append|by apply succeeds_body]. }
  destruct cm as [cm|].
  - rewrite Hval. rewrite (bool_decide_eq_true_2 (is_Some _)), andb_false_r by (by eexists). by apply Hbody.
  - case_bool_decide; [by exists [], c|]. by apply Hbody.
Qed.

Lemma append_step `{SqlJson} faults clock key ms cm c : repo_step c (snd (append_messages faults clock key ms cm c)).
Proof. eapply step_append, surjective_pairing. Qed.

(** ** Examples *)
Module Demo.
Import OrderedJson.Sample.

#[export] Instance sample_sql : SqlJson := {
  sql_parse s := match json_parse s with Doc j => Some j | _ => None end;
  sql_dump j := text j;
  sql_int j := match j with JInt z => Z.max (- 2 ^ 63) (Z.min z (2 ^ 63 - 1)) | _ => 0 end }.
#[export] Instance sample_sql_laws : SqlJsonLaws.
Proof.
  split.
  - intros j Hj. assert (Hd : json_dump j = Some (text j)) by reflexivity.
    pose proof (parse_dump j (text j) Hj Hd) as Hp. unfold sql_parse, sql_dump, sample_sql. by rewrite Hp.
  - intros s j. unfold sql_parse, sample_sql. destruct (json_parse s) as [j'| |] eqn:Hs; try discriminate. intros [= <-]. by apply (parse_representable (JsonLibraryLaws := sample_laws) s).
  - done.
  - intros [| |z| | | |]; simpl; lia.
  - done.
Qed.

Definition key : SessionKey := mkSessionKey "s" "a".
Definition other : SessionKey := mkSessionKey "t" "a".
Definition hello : SessionMessageInput := mkMessageInput role_user "hello" "{}".
Definition reply : SessionMessageInput := mkMessageInput role_assistant "hi" "{}".
Notation quietly := (fun _ : nat => @None Error).
Definition clock (n : nat) : string := "now".
Definition checkpoint : string := text (JObject [("covered_sequence", JInt 1); ("revision", JInt 1); ("summary", JString "x")]).
Definition turn : SessionCommit := mkSessionCommit 0 0 checkpoint.
Definition empty : Conn := mkConn (mkTables [] [] []) None 0.
Definition first : Result (list SessionMessageRecord) * Conn := append_messages quietly clock key [hello; reply] (Some turn) empty.
Definition stored : Conn := snd first.
Definition record1 : SessionMessageRecord := mkMessageRecord key 1 role_user "hello" "{}" "now".
Definition record2 : SessionMessageRecord := mkMessageRecord key 2 role_assistant "hi" "{}" "now".

Example first_ok : fst first = Ok [record1; record2].
Proof. vm_compute. reflexivity. Qed.
(** The same snapshot is refused afterwards, and a failure at the checkpoint undoes the inserts. *)
Example second_conflicts : fst (append_messages quietly clock key [hello] (Some turn) stored) = Err conflict_error.
Proof. vm_compute. reflexivity. Qed.
Definition late (n : nat) : option Error := if (n =? 12)%nat then Some malformed else None.
Example late_failure :
  append_messages late clock key [hello; reply] (Some turn) empty = (Err malformed, mkConn (mkTables [] [] []) None 14).
Proof. vm_compute. reflexivity. Qed.
Example page_two : fst (load_after quietly key 1 2 64 10 stored) = Ok [record2].
Proof. vm_compute. reflexivity. Qed.
Example tail_one : fst (load_tail quietly key 5 5 stored) = Ok [record2].
Proof. vm_compute. reflexivity. Qed.

Lemma empty_ok : tables_ok (cn_tables empty).
Proof.
  split; simpl; try constructor; try done; intros k; try (split; vm_compute; discriminate).
  exists 0. split; [lia|]. reflexivity.
Qed.

Lemma stored_reached : rtc repo_step empty stored.
Proof. unfold stored, first. apply rtc_once, append_step. Qed.
Lemma stored_ok : tables_ok (cn_tables stored) /\ cn_saved stored = None.
Proof. destruct (steps_grow _ _ stored_reached eq_refl empty_ok) as (? & ? & _). by split. Qed.
Lemma turn_acceptable : request_valid key [hello; reply] (Some turn) /\
  commit_acceptable key [hello; reply] (Some turn) (cn_tables empty).
Proof.
  split; [by vm_compute|]. split; [reflexivity|]. split; [by right|].
  exists (JObject []), (JObject [("covered_sequence", JInt 1); ("revision", JInt 1); ("summary", JString "x")]).
  split; [reflexivity|]. split; vm_compute; reflexivity.
Qed.

Lemma append_atomic_witness : let '(r, c') := append_messages late clock key [hello; reply] (Some turn) empty in
  r = Err malformed /\ cn_saved c' = None /\ cn_tables c' = cn_tables empty.
Proof.
  pose proof (append_atomic late clock key [hello; reply] (Some turn) empty eq_refl) as H.
  destruct (append_messages _ _ _ _ _ empty) as [r c'] eqn:He.
  assert (Hr : r = Err malformed).
  { change r with (fst (r, c')). rewrite <- He. vm_compute. reflexivity. }
  subst r. split; [reflexivity|exact H].
Defined.
Lemma append_accepted_witness :
  exists rs c', append_messages quietly clock key [hello; reply] (Some turn) empty = (Ok rs, c').
Proof. apply append_accepted; [reflexivity|exact (proj1 turn_acceptable)|exact (proj2 turn_acceptable)]. Defined.
Lemma repository_invariant_witness : tables_ok (cn_tables stored) /\ cn_saved stored = None.
Proof. exact (repository_invariant empty stored stored_reached eq_refl empty_ok). Defined.
Lemma no_lost_update_witness : exists e, fst (append_messages quietly clock key [hello] (Some turn) stored) = Err e /\
  cn_tables (snd (append_messages quietly clock key [hello] (Some turn) stored)) = cn_tables stored.
Proof.
  apply (no_lost_update empty stored stored key 0 0);
    [reflexivity|exact empty_ok|reflexivity|exact stored_reached| |constructor|reflexivity|reflexivity].
  vm_compute. discriminate.
Defined.
Definition snapshot : Source := mkSource [Some "2"%string] (cn_tables stored).
Lemma import_exact_witness :
  let '(r, c') := import_session quietly (fun _ => false) "old.db" snapshot key other stored in
  r = Ok tt /\ rows_of other (cn_tables c') = map (under_message other) (rows_of key (cn_tables stored)).
Proof.
  pose proof (import_exact quietly (fun _ => false) "old.db" snapshot key other stored
    (proj2 stored_ok) (proj1 stored_ok)) as H.
  destruct (import_session _ _ _ _ _ _ _) as [r c'] eqn:He.
  assert (Hr : r = Ok tt).
  { change r with (fst (r, c')). rewrite <- He. vm_compute. reflexivity. }
  subst r. split; [reflexivity|]. destruct H as (_ & _ & H). rewrite H. reflexivity.
Defined.
Lemma load_after_exact_witness : exists k, map record_row [record2] = take k [record_row record2] /\ (0 < k)%nat.
Proof.
  pose proof (load_after_exact quietly key 1 2 64 10 stored (proj1 stored_ok) eq_refl ltac:(lia) eq_refl) as H.
  cbv zeta in H. destruct (load_after _ _ _ _ _ _ stored) as [r c'] eqn:He.
  assert (Hr : r = Ok [record2]).
  { change r with (fst (r, c')). rewrite <- He. exact page_two. }
  subst r. destruct H as (_ & k & Hk & _ & Hpos). exists k. split; [exact Hk|]. apply Hpos. vm_compute. discriminate.
Defined.
Lemma load_tail_longest_witness : exists k, map record_row [record2] = drop (2 - k) [record_row record1; record_row record2] /\ (k <= 5)%nat.
Proof.
  pose proof (load_tail_longest quietly key 5 5 stored (proj1 stored_ok) eq_refl eq_refl) as H.
  cbv zeta in H. destruct (load_tail _ _ _ _ stored) as [r c'] eqn:He.
  assert (Hr : r = Ok [record2]).
  { change r with (fst (r, c')). rewrite <- He. exact tail_one. }
  subst r. destruct H as (_ & k & Hk & Hle & _). exists k. split; [exact Hk|exact Hle].
Defined.
End Demo.
