(* ===== verification/SessionStore.v ===== *)
(** * oran-memory: the session store

    Models [src/oran-memory/session.cpp] on top of the session repository: how a message
    is written as a JSON document and read back, the commit of a turn with its working
    context, and the loading of a context snapshot and of conversations.  [nlohmann::json]
    is the [JsonLibrary]; [SharedJson] states that it and SQLite read each other's texts.
    A document that makes the parser raise something other than a [parse_error] leaves a
    loader as an exception ([Exc]); everything else is an error value. *)
From S2P Require Import Prelude.
From S2P Require Import Core.
From S2P Require Import IsoTime.
From S2P Require Import Json.
From S2P Require Import OrderedJson.
From S2P Require Import Context.
From S2P Require Import Sqlite.
From S2P Require Import SessionRepository.
Import EnumNames.
#[local] Open Scope Z_scope.

(** ** Values *)
Record ContextSnapshot := mkSnapshot { snap_checkpoint : WorkingContext; snap_messages : Z }.
Definition no_context : WorkingContext := mkWorking 0 0 "".

Definition field_error (field : string) : Error :=
  Errors.with_ctx (Errors.invalid_argument "memory session field must not be empty") "field" field.
Definition store_key_valid (key : SessionKey) : Result unit :=
  fail? bool_decide (key_session key = ""%string) with field_error "session_id";
  fail? bool_decide (key_agent key = ""%string) with field_error "agent_key";
  Ok tt.
Definition message_parse_error (reason : string) : Error :=
  Errors.with_ctx (Errors.parsing "memory session message JSON is malformed") "reason" reason.

(** ** Writing a message *)
Definition put_if_present (object : json) (key : string) (value : option string) : json :=
  match value with Some s => oset object key (JString s) | None => object end.
Definition content_to_json (c : Content) : json :=
  match c with
  | TextContent t => JObject [("type", JString "text"); ("text", JString t)]
  | ImageContent media data => JObject [("type", JString "image"); ("media_type", JString media); ("data_base64", JString data)]
  | ThinkingContent t signature =>
      put_if_present (JObject [("type", JString "thinking"); ("thinking", JString t)]) "signature" signature
  | ToolUseContent id name input =>
      JObject [("type", JString "tool_use"); ("id", JString id); ("name", JString name); ("input_json", JString input)]
  | ToolResultContent id output data err =>
      put_if_present (JObject [("type", JString "tool_result"); ("tool_use_id", JString id); ("output", JString output);
                               ("is_error", JBool err)]) "data_json" data
  end%string.
Definition message_document (m : Message) : json :=
  let out := JObject [("version", JInt 1); ("blocks", JArray (map content_to_json (msg_blocks m)))]%string in
  match msg_created_at m with
  | Some t => oset out "created_at" (JString (str (format_iso8601_utc t)))
  | None => out
  end.

(** ** Reading a message *)
Definition expected_string (context key : string) : Error :=
  message_parse_error (context +:+ ": expected string " +:+ key).
Definition store_string (object : json) (key context : string) : Result string :=
  match jfind object key with
  | Some (JString s) => Ok s
  | _ => Err (expected_string context key)
  end.
Definition store_optional (object : json) (key context : string) : Result (option string) :=
  match jfind object key with
  | None => Ok None
  | Some (JString s) => Ok (Some s)
  | Some _ => Err (expected_string context key)
  end.
Definition store_bool (object : json) (key context : string) : Result bool :=
  match jfind object key with
  | Some (JBool b) => Ok b
  | _ => Err (message_parse_error (context +:+ ": expected boolean " +:+ key))
  end.
Definition content_from_json (value : json) (index : nat) : Result Content :=
  fail? negb (is_object value) with
    Errors.with_ctx (message_parse_error "content block is not an object") "index" (pretty index);
  let context := "content[" +:+ pretty index +:+ "]" in
  let? type := store_string value "type" context in
  if bool_decide (type = "text"%string) then
    let? t := store_string value "text" context in Ok (TextContent t)
  else if bool_decide (type = "thinking"%string) then
    let? t := store_string value "thinking" context in
    let? signature := store_optional value "signature" context in Ok (ThinkingContent t signature)
  else if bool_decide (type = "image"%string) then
    let? media := store_string value "media_type" context in
    let? data := store_string value "data_base64" context in Ok (ImageContent media data)
  else if bool_decide (type = "tool_use"%string) then
    let? id := store_string value "id" context in
    let? name := store_string value "name" context in
    let? input := store_string value "input_json" context in Ok (ToolUseContent id name input)
  else if bool_decide (type = "tool_result"%string) then
    let? id := store_string value "tool_use_id" context in
    let? output := store_string value "output" context in
    let? data := store_optional value "data_json" context in
    let? err := store_bool value "is_error" context in Ok (ToolResultContent id output data err)
  else Err (Errors.with_ctx (message_parse_error "unknown content block type") "type" type).

(** [with("sequence", ...)] on the error of a result. *)
Definition at_sequence {A} (sequence : Z) (x : Result A) : Result A :=
  match x with Err e => Err (Errors.with_ctx e "sequence" (pretty sequence)) | Ok a => Ok a end.
Fixpoint blocks_from (i : nat) (values : list json) : Result (list Content) :=
  match values with
  | [] => Ok []
  | v :: values =>
      let? b := content_from_json v i in
      let? bs := blocks_from (S i) values in Ok (b :: bs)
  end.
(** [get<int>()] of an integer keeps its low 32 bits. *)
Definition version_supported (document : json) : bool :=
  match jfind document "version" with Some (JInt z) => wrap_s 32 z =? 1 | _ => false end.
Definition read_document (parsed : json) (record : SessionMessageRecord) : Result Message :=
  let sequence := mr_sequence record in
  fail? negb (is_object parsed) with
    Errors.with_ctx (message_parse_error "root is not an object") "sequence" (pretty sequence);
  fail? negb (version_supported parsed) with
    Errors.with_ctx (message_parse_error "unsupported message JSON version") "sequence" (pretty sequence);
  match jfind parsed "blocks" with
  | Some (JArray values) =>
      let? blocks := at_sequence sequence (blocks_from 0 values) in
      if bool_decide (mr_created_at record = ""%string) then Ok (mkMessage (mr_role record) blocks None)
      else let? created := at_sequence sequence (parse_iso8601_utc (lit (mr_created_at record))) in
           Ok (mkMessage (mr_role record) blocks (Some created))
  | _ => Err (Errors.with_ctx (message_parse_error "blocks is not an array") "sequence" (pretty sequence))
  end.

Section Store.
Context `{JsonLibrary} `{SqlJson} (faults : nat -> option Error) (clock : nat -> string).

Definition message_to_json (m : Message) : option string := json_dump (message_document m).
Definition message_from_json (record : SessionMessageRecord) : Exc Message :=
  match json_parse (mr_content_json record) with
  | DocThrew => raise
  | Malformed what => Some (Err (Errors.with_ctx (message_parse_error "invalid JSON") "detail" what))
  | Doc parsed => Some (read_document parsed record)
  end.

(** ** Appending *)
Fixpoint encode_all (i : nat) (ms : list Message) : Result (list SessionMessageInput) :=
  match ms with
  | [] => Ok []
  | m :: ms =>
      match message_to_json m with
      | None => Err (Errors.with_ctx (Errors.parsing "memory session message cannot be serialized") "index" (pretty i))
      | Some s => let? rest := encode_all (S i) ms in Ok (mkMessageInput (msg_role m) s "{}" :: rest)
      end
  end.
Definition context_document (c : WorkingContext) : json :=
  JObject [("covered_sequence", JInt (covered_sequence c)); ("revision", JInt (revision c)); ("summary", JString (summary c))]%string.
Definition make_commit (expected : ContextSnapshot) (checkpoint : WorkingContext) : Result SessionCommit :=
  match json_dump (context_document checkpoint) with
  | None => Err (Errors.parsing "checkpoint cannot be serialized")
  | Some s => Ok (mkSessionCommit (snap_messages expected) (revision (snap_checkpoint expected)) s)
  end.
Definition append_all (key : SessionKey) (ms : list Message) (expected : option ContextSnapshot)
    (checkpoint : WorkingContext) : Db unit :=
  match (let? _ := store_key_valid key in
         let? encoded := encode_all 0 ms in
         match expected with
         | None => Ok (encoded, None)
         | Some e => let? c := make_commit e checkpoint in Ok (encoded, Some c)
         end) with
  | Err e => failD e
  | Ok (encoded, commit) => db! _ := append_messages faults clock key encoded commit in retD tt
  end.
Definition append (key : SessionKey) (m : Message) : Db unit := append_all key [m] None no_context.

(** ** The context of a session *)
Definition context_invalid (c : WorkingContext) (count : Z) : bool :=
  (covered_sequence c <? 0) || (count <? covered_sequence c) || (revision c <? 0) ||
  (65536 <? slen (summary c)) || ((0 <? covered_sequence c) && bool_decide (summary c = ""%string)).
Definition metadata_error : Error := Errors.storage "invalid session checkpoint metadata".
(** [context.at(key)], which raises when [context] is no object or has no such key. *)
Definition context_at (context : json) (key : string) : Result json :=
  match jfind context key with Some v => Ok v | None => Err metadata_error end.
Definition is_integer (j : json) : bool := match j with JInt _ => true | _ => false end.
Definition int64_of (j : json) : Z := match j with JInt z => wrap_s 64 z | _ => 0 end.
Definition stored_context (context : json) (count : Z) : Result WorkingContext :=
  let? covered := context_at context "covered_sequence" in
  fail? negb (is_integer covered) with Errors.storage "invalid checkpoint sequence or revision";
  let? rev := context_at context "revision" in
  fail? negb (is_integer rev) with Errors.storage "invalid checkpoint sequence or revision";
  let? text := context_at context "summary" in
  match text with
  | JString s =>
      let c := mkWorking (int64_of covered) (int64_of rev) s in
      fail? context_invalid c count with Errors.storage "invalid session checkpoint";
      Ok c
  | _ => Err metadata_error
  end.
Definition read_context (record : SessionRecord) : Result ContextSnapshot :=
  match json_parse (sr_metadata_json record) with
  | Malformed _ | DocThrew => Err metadata_error
  | Doc metadata =>
      fail? negb (is_object metadata) with Errors.storage "session metadata must be an object";
      match jfind metadata "oran_working_context" with
      | None => Ok (mkSnapshot no_context (sr_message_count record))
      | Some context =>
          let? c := stored_context context (sr_message_count record) in
          Ok (mkSnapshot c (sr_message_count record))
      end
  end.
Definition load_context (key : SessionKey) : Db ContextSnapshot :=
  db! record := get_session faults key in
  match record with
  | None => retD (mkSnapshot no_context 0)
  | Some record => lift (read_context record)
  end.

(** ** Conversations *)
(** Rows become messages; the first failure ends the loop, an exception the coroutine. *)
Definition decode_rows (rows : Db (list SessionMessageRecord)) (c : Conn) : Exc (list Message) * Conn :=
  match rows c with
  | (Ok rs, c) => (exc_map message_from_json rs, c)
  | (Err e, c) => (Some (Err e), c)
  end.
Definition load_after (key : SessionKey) (after through : Z) (max_bytes : nat) : Conn -> Exc (list Message) * Conn :=
  decode_rows (SessionRepository.load_after faults key after through 64 max_bytes).
Definition load (key : SessionKey) : Conn -> Exc (list Message) * Conn :=
  decode_rows (match store_key_valid key with Err e => failD e | Ok _ => load_messages faults key end).
Definition load_tail (key : SessionKey) (max_messages max_bytes : nat) : Conn -> Exc (list Message) * Conn :=
  decode_rows (SessionRepository.load_tail faults key max_messages max_bytes).
End Store.

(** ** Facts *)
(** Every content block is read back from what is written for it. *)
Lemma content_roundtrip c i : content_from_json (content_to_json c) i = Ok c.
Proof. by destruct c as [|? [|]| |? ? [|] []|]. Qed.
Lemma blocks_roundtrip cs i : blocks_from i (map content_to_json cs) = Ok cs.
Proof.
  revert i. induction cs as [|c cs IH]; intros i; simpl; [done|]. by rewrite content_roundtrip, IH.
Qed.
Lemma content_representable c : representable (content_to_json c) = true.
Proof. by destruct c as [|? [|]| |? ? [|] []|]. Qed.
Lemma document_representable m : representable (message_document m) = true.
Proof.
  assert (Hb : forallb representable (map content_to_json (msg_blocks m)) = true).
  { apply forallb_forall. intros j (c & <- & _)%in_map_iff. apply content_representable. }
  unfold message_document. destruct (msg_created_at m); simpl; by rewrite Hb.
Qed.

Definition same_content (m m' : Message) : Prop := msg_role m = msg_role m' /\ msg_blocks m = msg_blocks m'.
(** A timestamp that the database writes. *)
Definition timestamp (s : string) : Prop := s = ""%string \/ exists t, parse_iso8601_utc (lit s) = Ok t.

Lemma read_document_own m record :
  timestamp (mr_created_at record) ->
  exists created, read_document (message_document m) record = Ok (mkMessage (mr_role record) (msg_blocks m) created) /\
    (forall t, parse_iso8601_utc (lit (mr_created_at record)) = Ok t -> mr_created_at record <> ""%string -> created = Some t).
Proof.
  intros Ht. unfold read_document.
  assert (Hdoc : is_object (message_document m) = true /\ version_supported (message_document m) = true /\
    jfind (message_document m) "blocks" = Some (JArray (map content_to_json (msg_blocks m)))).
  { unfold message_document. by destruct (msg_created_at m). }
  destruct Hdoc as (-> & -> & ->). cbn [negb]. rewrite blocks_roundtrip. cbn.
  case_bool_decide as He; [by eexists|]. destruct Ht as [|[t Ht]]; [done|]. rewrite Ht. cbn.
  eexists. split; [reflexivity|]. intros t' [= <-] _. reflexivity.
Qed.

(** SQLite and the JSON library read what the other writes. *)
Class SharedJson `{JsonLibrary} `{SqlJson} := {
  sql_reads_dump : forall j s, representable j = true -> json_dump j = Some s -> sql_parse s = Some j;
  parses_sql_dump : forall j, representable j = true -> json_parse (sql_dump j) = Doc j }.

Section Facts.
Context `{JsonLibraryLaws} `{SqlJson}.

Lemma message_reads m s record :
  message_to_json m = Some s -> mr_content_json record = s -> timestamp (mr_created_at record) ->
  exists created, message_from_json record = Some (Ok (mkMessage (mr_role record) (msg_blocks m) created)) /\
    (forall t, parse_iso8601_utc (lit (mr_created_at record)) = Ok t -> mr_created_at record <> ""%string -> created = Some t).
Proof.
  intros Hs Hr Ht. destruct (read_document_own m record Ht) as (created & Hd & Hc). exists created. split; [|exact Hc].
  unfold message_from_json. rewrite Hr, (parse_dump _ _ (document_representable m) Hs). by rewrite Hd.
Qed.

Lemma encode_all_ok i ms inputs : encode_all i ms = Ok inputs ->
  Forall2 (fun m input => message_to_json m = Some (mi_content_json input) /\ mi_role input = msg_role m) ms inputs.
Proof.
  revert i inputs. induction ms as [|m ms IH]; intros i inputs; simpl; [by intros [= <-]|].
  destruct (message_to_json m) as [s|] eqn:Hm; [|discriminate].
  destruct (encode_all (S i) ms) as [rest|] eqn:Hrest; simpl; [|discriminate]. intros [= <-].
  constructor; [by split|]. by eapply IH.
Qed.
Lemma decode_inputs ms rs :
  Forall2 (fun m input => message_to_json m = Some (mi_content_json input) /\ mi_role input = msg_role m) ms (map record_input rs) ->
  Forall (fun r => timestamp (mr_created_at r)) rs ->
  exists ms', exc_map message_from_json rs = Some (Ok ms') /\ Forall2 same_content ms ms'.
Proof.
  intros Hms Ht. revert ms Hms. induction Ht as [|r rs Hr _ IH]; intros ms Hms; simpl in Hms.
  - apply Forall2_nil_inv_r in Hms as ->. exists []. by split.
  - apply Forall2_cons_inv_r in Hms as (m & ms0 & [Hm Hrole] & Hms & ->).
    destruct (IH _ Hms) as (ms' & He & Hsame). destruct (message_reads m _ r Hm eq_refl Hr) as (created & Hd & _).
    eexists (_ :: ms'). split; [simpl; by rewrite Hd; simpl; rewrite He|].
    constructor; [|exact Hsame]. split; [by rewrite <- Hrole|done].
Qed.
End Facts.

Lemma record_row_inj r r' : record_row r = record_row r' -> r = r'.
Proof.
  intros He. assert (Hro : parse_enum (E := Role) (enum_name (mr_role r)) = parse_enum (enum_name (mr_role r')))
    by exact (f_equal (fun x => parse_enum (E := Role) (row_role x)) He).
  rewrite !parse_enum_name in Hro.
  injection Hro as Hro. destruct r, r'. unfold record_row in He. simpl in Hro. subst.
  by injection He as -> -> -> -> ->.
Qed.
#[export] Instance record_row_Inj : Inj (=) (=) record_row.
Proof. exact record_row_inj. Qed.
Lemma record_rows_inj rs rs' : map record_row rs = map record_row rs' -> rs = rs'.
Proof. apply (inj (fmap record_row)). Qed.

Section Loading.
Context `{JsonLibraryLaws} `{SqlJson}.

(** What [load] gives is what the stored rows decode to. *)
Lemma load_rows faults key c r c' :
  tables_ok (cn_tables c) -> load faults key c = (r, c') ->
  match r with
  | Some (Err _) | None => True
  | Some (Ok ms) => exists rs, map record_row rs = rows_of key (cn_tables c) /\ exc_map message_from_json rs = Some (Ok ms)
  end.
Proof.
  intros Hok Hl. unfold load, decode_rows in Hl.
  assert (Hr : forall rs c', (match store_key_valid key with Err e => failD e | Ok _ => load_messages faults key end) c = (Ok rs, c') ->
    map record_row rs = rows_of key (cn_tables c)).
  { intros rs c1. destruct (store_key_valid key) as [[]|e]; [|discriminate]. unfold load_messages.
    destruct (SessionRepository.validate_key key) as [[]|e]; [|discriminate]. intros Hrs.
    assert (Hread : reads faults (db! _ := open_reader faults in fun c => read_all faults (ordered_rows key (cn_tables c)) c)
      (fun ms => map record_row ms = rows_of key (cn_tables c)) (fun _ => False) (cn_tables c)).
    { apply reads_open. intros c2 Hc2. rewrite Hc2, ordered_numbered by apply (ok_numbered Hok). revert c2 Hc2.
      apply reads_all. by apply roles_of. }
    destruct (Hread c eq_refl) as [_ Hres]. by rewrite Hrs in Hres. }
  destruct (_ c) as [[rs|e] c1] eqn:Hrun in Hl; injection Hl as <- <-; [|done].
  destruct (exc_map message_from_json rs) as [[ms|e]|] eqn:Hms; [|done|done].
  exists rs. split; [by eapply Hr|exact Hms].
Qed.

Lemma append_all_inv faults clock key ms expected checkpoint c c' :
  append_all faults clock key ms expected checkpoint c = (Ok tt, c') ->
  exists inputs cm rs, encode_all 0 ms = Ok inputs /\
    (match expected with None => cm = None | Some e => exists k, make_commit e checkpoint = Ok k /\ cm = Some k end) /\
    append_messages faults clock key inputs cm c = (Ok rs, c').
Proof.
  unfold append_all. destruct (store_key_valid key) as [[]|e]; simpl; [|discriminate].
  destruct (encode_all 0 ms) as [inputs|e]; simpl; [|discriminate].
  destruct expected as [x|]; simpl.
  - destruct (make_commit x checkpoint) as [k|e]; simpl; [|discriminate]. unfold bindD.
    destruct (append_messages _ _ _ _ _ c) as [[rs|e] c1] eqn:Ha; [|discriminate]. intros [= <-].
    exists inputs, (Some k), rs. eauto.
  - unfold bindD. destruct (append_messages _ _ _ _ _ c) as [[rs|e] c1] eqn:Ha; [|discriminate]. intros [= <-].
    exists inputs, None, rs. eauto.
Qed.
Lemma written_rows key cm t t' : commit_written key cm t t' -> rows_of key t' = rows_of key t.
Proof.
  destruct cm as [cm|]; simpl; [|by intros ->]. intros (s & m & ck & cov & rev & _ & _ & _ & _ & _ & _ & _ & _ & ->)%update_checkpoint_spec.
  by apply rows_of_messages.
Qed.
End Loading.

(** The committed context is valid and is what the metadata now holds. *)
Lemma accepted_context_valid metadata checkpoint max expected :
  checkpoint_accepted metadata (context_document checkpoint) max expected = true ->
  0 <= covered_sequence checkpoint -> 0 <= expected -> context_invalid checkpoint max = false.
Proof.
  intros Hacc Hpos Hexp. unfold checkpoint_accepted in Hacc. apply andb_true_iff in Hacc as [_ Hacc].
  change (jfind (context_document checkpoint) "covered_sequence") with (Some (JInt (covered_sequence checkpoint))) in Hacc.
  change (jfind (context_document checkpoint) "revision") with (Some (JInt (revision checkpoint))) in Hacc.
  change (jfind (context_document checkpoint) "summary") with (Some (JString (summary checkpoint))) in Hacc.
  cbv beta iota in Hacc. apply andb_true_iff in Hacc as [[Hsize Htext]%andb_true_iff Hacc].
  destruct (stored_int _) as [old|]; [|discriminate]. apply andb_true_iff in Hacc as [[Ho Hm]%andb_true_iff Hrev].
  assert (Hr : expected <= revision checkpoint) by (apply orb_true_iff in Hrev as [Hr|Hr]; [lia|]; rewrite !andb_true_iff in Hr; lia).
  clear Hrev. unfold context_invalid, slen. destruct (decide (summary checkpoint = ""%string)) as [He|He].
  - rewrite He in Htext |- *. change (text_nonempty "") with false in Htext. rewrite orb_false_r in Htext.
    rewrite bool_decide_eq_true_2 by done. rewrite andb_true_r, !orb_false_iff. simpl in *. repeat split; lia.
  - rewrite (bool_decide_eq_false_2 (summary checkpoint = ""%string)) by done. rewrite andb_false_r, !orb_false_iff. repeat split; lia.
Qed.
Lemma context_representable c :
  - 2 ^ 63 <= covered_sequence c < 2 ^ 63 -> - 2 ^ 63 <= revision c < 2 ^ 63 -> representable (context_document c) = true.
Proof. intros H1 H2. unfold context_document. cbn -[Z.pow]. rewrite !andb_true_iff. repeat split; lia. Qed.
Lemma context_document_read c count :
  - 2 ^ 63 <= covered_sequence c < 2 ^ 63 -> - 2 ^ 63 <= revision c < 2 ^ 63 ->
  context_invalid c count = false -> stored_context (context_document c) count = Ok c.
Proof.
  intros Hcov Hrev Hval. unfold stored_context.
  change (context_at (context_document c) "covered_sequence") with (Ok (A := json) (JInt (covered_sequence c))).
  change (context_at (context_document c) "revision") with (Ok (A := json) (JInt (revision c))).
  change (context_at (context_document c) "summary") with (Ok (A := json) (JString (summary c))).
  cbn [result_bind is_integer negb int64_of]. rewrite !wrap_s_id by (unfold fits_s; lia).
  destruct c as [cov rev text]. cbn in *. by rewrite Hval.
Qed.

(** ** Properties *)
(** A message that could be written is read back: whatever document the store wrote for
    it, the row that carries the document gives a message with the same role and the very
    same blocks — texts, images, thinking with or without signature, tool calls, results
    with or without data — and the time of the row. *)
Theorem message_roundtrip `{JsonLibraryLaws} m s record t :
  message_to_json m = Some s -> mr_content_json record = s -> mr_role record = msg_role m ->
  mr_created_at record <> ""%string -> parse_iso8601_utc (lit (mr_created_at record)) = Ok t ->
  message_from_json record = Some (Ok (mkMessage (msg_role m) (msg_blocks m) (Some t))).
Proof.
  intros Hs Hr Hrole Hne Ht.
  destruct (message_reads m s record Hs Hr) as (created & -> & Hc); [right; by exists t|].
  by rewrite Hrole, (Hc t Ht Hne).
Qed.

(** C25: What a turn stores is what the next one loads: after a successful [append_all] on a
    database whose timestamps can be read, loading the conversation gives the messages it
    gave before, unchanged, followed by the appended ones with the same roles and blocks. *)
Theorem conversation_survives `{JsonLibraryLaws} `{SqlJsonLaws} faults clock reader key ms expected checkpoint c c' old after_ c1 c2 :
  tables_ok (cn_tables c) -> cn_saved c = None -> (forall n, timestamp (clock n)) ->
  append_all faults clock key ms expected checkpoint c = (Ok tt, c') ->
  load reader key c = (Some (Ok old), c1) -> load reader key c' = (Some (Ok after_), c2) ->
  exists new, after_ = old ++ new /\ Forall2 same_content ms new.
Proof.
  intros Hok Hc Hclock Ha Hold Hafter.
  apply append_all_inv in Ha as (inputs & cm & rs & Henc & _ & Ha).
  pose proof (append_outcome faults clock key inputs cm c Hc) as Ho.
  pose proof (append_times faults clock key inputs cm c Hc) as Ht. rewrite Ha in Ho, Ht.
  destruct Ht as [[_ Htimes] _]. destruct Ho as [[(_ & _ & Hval) Happ] _].
  destruct (commit_appended_ok _ _ _ _ _ _ Hval Hok Happ) as [Hok' _].
  destruct Happ as (_ & t1 & Happ & Hw).
  destruct (load_rows _ _ _ _ _ Hok Hold) as (rs0 & Hrs0 & Hms0).
  destruct (load_rows _ _ _ _ _ Hok' Hafter) as (rs1 & Hrs1 & Hms1).
  rewrite (written_rows _ _ _ _ Hw), (appended_rows_of _ _ _ _ _ Happ), <- Hrs0, <- map_app in Hrs1.
  apply record_rows_inj in Hrs1 as ->.
  destruct (decode_inputs ms rs) as (new & Hnew & Hsame).
  - rewrite (ap_inputs Happ). by eapply encode_all_ok.
  - eapply Forall_impl; [exact Htimes|]. intros r [n ->]. apply Hclock.
  - exists new. split; [|exact Hsame]. apply exc_map_ok in Hms0, Hms1, Hnew.
    pose proof (Forall2_app Hms0 Hnew) as Happ2.
    clear -Hms1 Happ2. remember (rs0 ++ rs) as l. clear Heql. revert Happ2. generalize (old ++ new).
    induction Hms1 as [|x y l ys Hx _ IH]; intros zs Hz; [by apply Forall2_nil_inv_l in Hz|].
    apply Forall2_cons_inv_l in Hz as (z & zs' & Hz & Hzs & ->). f_equal; [congruence|by apply IH].
Qed.

(** The working context of a turn is what the next turn starts from: after a successful
    commit, loading the context of the session without a fault gives the committed
    checkpoint, and the number of messages there are now. *)
Theorem checkpoint_roundtrip `{JsonLibraryLaws} `{SqlJsonLaws} `{!SharedJson} faults clock key ms expected checkpoint c c' :
  tables_ok (cn_tables c) -> cn_saved c = None ->
  - 2 ^ 63 <= covered_sequence checkpoint < 2 ^ 63 -> - 2 ^ 63 <= revision checkpoint < 2 ^ 63 ->
  append_all faults clock key ms (Some expected) checkpoint c = (Ok tt, c') ->
  exists c1, load_context (fun _ => None) key c' =
    (Ok (mkSnapshot checkpoint (snap_messages expected + Z.of_nat (length ms))), c1).
Proof.
  intros Hok Hc Hcov Hrev Ha. apply append_all_inv in Ha as (inputs & cm & rs & Henc & (k & Hk & ->) & Ha).
  unfold make_commit in Hk. destruct (json_dump (context_document checkpoint)) as [s|] eqn:Hdump; [|discriminate].
  injection Hk as <-.
  pose proof (append_outcome faults clock key inputs (Some (mkSessionCommit (snap_messages expected) (revision (snap_checkpoint expected)) s)) c Hc) as Ho.
  rewrite Ha in Ho. destruct Ho as [[(Hkey & _ & Hval) (Hcheck & t1 & Happ & Hw)] _].
  pose proof (appended_ok _ _ _ _ _ Hok Happ) as Hok1.
  simpl in Hcheck, Hw. pose proof (snapshot_max _ _ _ _ Hcheck) as [Hn _].
  assert (Hexp : 0 <= revision (snap_checkpoint expected)).
  { unfold commit_invalid in Hval. simpl in Hval. rewrite !orb_false_iff in Hval. lia. }
  assert (Hpos : exists cov, jfind (context_document checkpoint) "covered_sequence" = Some (JInt cov) /\ 0 <= cov).
  { pose proof Hw as Hw'. apply update_checkpoint_effect in Hw' as (ck & cov & rev & Hp & Hf & _ & _ & Hp0 & _).
    rewrite (sql_reads_dump _ _ (context_representable checkpoint Hcov Hrev) Hdump) in Hp. injection Hp as <-. exists cov. split; [exact Hf|by apply Hp0]. }
  destruct Hpos as (cov & [= <-] & Hpos).
  apply update_checkpoint_spec in Hw as (row & m & ck & cov & rev & Hrow & Hm & Hck & Hacc & _ & _ & _ & _ & Ht').
  rewrite (sql_reads_dump _ _ (context_representable checkpoint Hcov Hrev) Hdump) in Hck. injection Hck as <-.
  pose proof (accepted_context_valid _ _ _ _ Hacc Hpos Hexp) as Hvalid.
  set (doc := oset (JObject m) "oran_working_context" (context_document checkpoint)) in *.
  assert (Hdoc : representable doc = true).
  { apply representable_oset; [by eapply sql_parse_representable|by apply context_representable]. }
  assert (Hat : session_at key (cn_tables c') = Some (mkSessionRow (ses_key row) (ses_title row) (sql_dump doc) (ses_created row) (ses_updated row))).
  { rewrite Ht', session_at_upd, decide_True, Hrow by done. reflexivity. }
  assert (Hcount : Z.of_nat (length (rows_of key (cn_tables c'))) = max_sequence key t1).
  { rewrite (rows_of_messages key (cn_tables c') t1) by (by rewrite Ht'). by rewrite numbered_max by apply (ok_numbered Hok1). }
  assert (Hlen : length inputs = length ms) by (symmetry; exact (Forall2_length _ _ _ (encode_all_ok _ _ _ Henc))).
  rewrite <- Hlen, Hn, <- (ap_max Happ).
  eexists. unfold load_context, get_session. rewrite Hkey. unfold bindD, open_reader, step_only, select, call, bindD. simpl.
  rewrite Hat. simpl. unfold read_context. simpl. rewrite (parses_sql_dump _ Hdoc). unfold doc at 1. simpl.
  rewrite ordered_set_spec, decide_True, Hcount, (context_document_read checkpoint) by (try done; by apply Hvalid).
  reflexivity.
Qed.

(** ** Examples *)
Module Demo.
Import OrderedJson.Sample.
Import SessionRepository.Demo.

#[export] Instance sample_shared : SharedJson.
Proof.
  split.
  - intros j s Hj Hs. unfold sql_parse, sample_sql. by rewrite (parse_dump j s Hj Hs).
  - intros j Hj. unfold sql_dump, sample_sql. assert (Hd : json_dump j = Some (text j)) by reflexivity.
    exact (parse_dump j (text j) Hj Hd).
Qed.

Definition instant : string := "2025-07-19T10:03:04.123Z".
Definition ticking (n : nat) : string := instant.
Definition question : Message := user_text "how?".
Definition answer : Message := mkMessage role_assistant [ThinkingContent "hm" (Some "sig"); ToolUseContent "t1" "read" "{}"] None.
Definition context1 : WorkingContext := mkWorking 1 1 "asked".
Definition row : SessionMessageRecord := mkMessageRecord key 2 role_assistant (text (message_document answer)) "{}" instant.
Lemma instant_read : exists t, parse_iso8601_utc (lit instant) = Ok t.
Proof. vm_compute. eauto. Qed.
Notation stored_turn := (append_all quietly ticking key [question; answer] (Some (mkSnapshot no_context 0)) context1 empty).
Lemma turn_ok : stored_turn = (Ok tt, snd stored_turn).
Proof. vm_compute. reflexivity. Qed.
Definition loaded (x : Exc (list Message)) : list Message := match x with Some (Ok ms) => ms | _ => [] end.

Lemma message_roundtrip_witness :
  message_from_json row = Some (Ok (mkMessage role_assistant (msg_blocks answer) (Some 1752919384123000000))).
Proof.
  apply (message_roundtrip answer (text (message_document answer)) row 1752919384123000000);
    [reflexivity|reflexivity|reflexivity|discriminate|vm_compute; reflexivity].
Defined.
Lemma checkpoint_roundtrip_witness : exists c1, load_context quietly key (snd stored_turn) = (Ok (mkSnapshot context1 2), c1).
Proof.
  apply (checkpoint_roundtrip quietly ticking key [question; answer] (mkSnapshot no_context 0) context1 empty);
    [exact empty_ok|reflexivity|simpl; lia|simpl; lia|exact turn_ok].
Defined.
Lemma conversation_survives_witness : exists new,
  loaded (fst (load quietly key (snd stored_turn))) = [] ++ new /\ Forall2 same_content [question; answer] new.
Proof.
  apply (conversation_survives quietly ticking quietly key [question; answer] (Some (mkSnapshot no_context 0)) context1
    empty (snd stored_turn) [] (loaded (fst (load quietly key (snd stored_turn))))
    (snd (load quietly key empty)) (snd (load quietly key (snd stored_turn))));
    [exact empty_ok|reflexivity|intros n; right; exact instant_read|exact turn_ok|vm_compute; reflexivity|vm_compute; reflexivity].
Defined.
End Demo.
