(* ===== verification/AuditStore.v ===== *)
(** * oran-storage: audit events and trace turns

    Models [src/oran-storage/audit_repository.cpp], [src/oran-storage/trace_repository.cpp],
    the tables of [migrations/audit] and [src/oran-permission/storage_audit_sink.cpp], over
    the connections of [Sqlite].  An insert runs outside a transaction: SQLite applies it at
    the first step, so a failure of a later call leaves the row in place.  Rows of events are
    kept in the order of their ids: [AUTOINCREMENT] gives a row an id above every id the
    table ever held, by any distance ([gaps]), and fails when there is none left. *)
From stdpp Require Import sorting.
From S2P Require Import Prelude.
From S2P Require Import Core.
From S2P Require Import TurnId.
From S2P Require Import Json.
From S2P Require Import Rules.
From S2P Require Import AuditRows.
From S2P Require Import Provider.
From S2P Require Import Observer.
From S2P Require Import Sqlite.
Import EnumNames.
#[local] Open Scope Z_scope.

(** ** Rows and requests *)
Record AppendAuditEventRequest := mkAuditRequest {
  aq_event_kind : string; aq_scope_key : string; aq_agent_key : string; aq_tool_name : string;
  aq_identity : string; aq_verdict : string; aq_outcome : string; aq_reason : string;
  aq_input_hash_hex : string; aq_parent_turn_id : option TurnId; aq_metadata_json : string }.
Record AuditEventRecord := mkAuditRecord {
  ar_id : Z; ar_event_kind : string; ar_scope_key : string; ar_agent_key : string; ar_tool_name : string;
  ar_identity : string; ar_verdict : string; ar_outcome : string; ar_reason : string;
  ar_input_hash_hex : option string; ar_parent_turn_id : option TurnId; ar_metadata_json : string; ar_created_at : string }.
Record ListAuditEventsOptions := mkListEvents {
  le_scope_key : string; le_agent_key : string; le_tool_name : string; le_event_kind : string; le_outcome : string; le_limit : Z }.

(** A turn: the request and its schema version.  In the table the two hashes are the signed
    integers with the same bits. *)
Record TraceTurn := mkTraceTurn { tu_turn : AppendTraceTurnRequest; tu_schema_version : Z }.
Record ListTraceTurnsOptions := mkListTurns { lt_session_id : option TurnId; lt_agent_key : string; lt_limit : Z }.

Record AuditTables := mkAuditTables { at_events : list AuditEventRecord; at_last_id : Z; at_turns : list TraceTurn }.
Notation AuditDb := (Sqlite.Db AuditTables).

Definition int64_max : Z := 2 ^ 63 - 1.
Definition empty_field (field : string) : Error :=
  Errors.with_ctx (Errors.invalid_argument "audit repository field must not be empty") "field" field.
(** The first field that is empty. *)
Fixpoint first_empty (fields : list (string * string)) : Result unit :=
  match fields with
  | [] => Ok tt
  | (name, value) :: fields =>
      fail? bool_decide (value = ""%string) with empty_field name;
      first_empty fields
  end.
Definition validate_append_event (r : AppendAuditEventRequest) : Result unit :=
  let? _ := first_empty
    [("event_kind", aq_event_kind r); ("scope_key", aq_scope_key r); ("agent_key", aq_agent_key r);
     ("tool_name", aq_tool_name r); ("identity", aq_identity r); ("verdict", aq_verdict r);
     ("outcome", aq_outcome r); ("reason", aq_reason r); ("metadata_json", aq_metadata_json r)]%string in
  fail? match aq_parent_turn_id r with Some id => is_zero_turn_id id | None => false end with empty_field "parent_turn_id";
  Ok tt.
Definition validate_list_options (o : ListAuditEventsOptions) : Result unit :=
  fail? bool_decide (le_scope_key o = ""%string) with empty_field "scope_key";
  fail? le_limit o =? 0 with Errors.invalid_argument "audit list limit must be greater than zero";
  fail? int64_max <? le_limit o with Errors.invalid_argument "audit list limit is too large";
  Ok tt.

(** [build_list_sql]: an empty filter matches every value. *)
Definition matches_filter (filter value : string) : bool := bool_decide (filter = ""%string) || bool_decide (value = filter).
Definition event_matches (o : ListAuditEventsOptions) (e : AuditEventRecord) : bool :=
  bool_decide (ar_scope_key e = le_scope_key o) && matches_filter (le_agent_key o) (ar_agent_key e) &&
  matches_filter (le_tool_name o) (ar_tool_name e) && matches_filter (le_event_kind o) (ar_event_kind e) &&
  matches_filter (le_outcome o) (ar_outcome e).
Definition newer_event (a b : AuditEventRecord) : Prop := ar_id b <= ar_id a.
#[export] Instance newer_event_dec a b : Decision (newer_event a b).
Proof. unfold newer_event. apply _. Defined.

Definition id_length_error (message field : string) (id : TurnId) : Error :=
  Errors.with_ctx (Errors.with_ctx (Errors.storage message) "field" field) "size" (pretty (length id)).
(** [read_event_row]: the columns are there and not null. *)
Definition read_event_row (e : AuditEventRecord) : Result AuditEventRecord :=
  match ar_parent_turn_id e with
  | Some id => fail? negb (length id =? turn_id_size)%nat with
      id_length_error "audit repository row has invalid turn id length" "parent_turn_id" id; Ok e
  | None => Ok e
  end.

Section AuditRepository.
Context (faults : nat -> option Error) (gaps : nat -> nat) (clock : nat -> string).
#[local] Notation call := (Sqlite.call faults).
#[local] Notation step_only := (Sqlite.step_only faults).

Definition database_full : Error := Errors.storage "sqlite statement step failed".
Definition event_row (r : AppendAuditEventRequest) (id : Z) (now : string) : AuditEventRecord :=
  mkAuditRecord id (aq_event_kind r) (aq_scope_key r) (aq_agent_key r) (aq_tool_name r) (aq_identity r) (aq_verdict r)
    (aq_outcome r) (aq_reason r) (if bool_decide (aq_input_hash_hex r = ""%string) then None else Some (aq_input_hash_hex r))
    (aq_parent_turn_id r) (aq_metadata_json r) now.
(** The id of a new row: above the last one, [gap] ids skipped. *)
Definition next_id (gap : nat) (last : Z) : Z := Z.min int64_max (last + 1 + Z.of_nat gap).
Definition insert_event (r : AppendAuditEventRequest) (gap : nat) (now : string) (t : AuditTables)
    : Result AuditEventRecord * AuditTables :=
  if int64_max <=? at_last_id t then (Err database_full, t)
  else let id := next_id gap (at_last_id t) in
       let e := event_row r id now in
       (Ok e, mkAuditTables (at_events t ++ [e]) id (at_turns t)).
Definition append_event (r : AppendAuditEventRequest) : AuditDb AuditEventRecord :=
  db! _ := lift (validate_append_event r) in
  db! _ := open_reader faults in
  db! e := call (fun n => insert_event r (gaps n) (clock n)) in
  db! _ := step_only in
  retD e.
Definition events_of (o : ListAuditEventsOptions) (t : AuditTables) : list AuditEventRecord :=
  take (Z.to_nat (le_limit o)) (merge_sort newer_event (filter (fun e => event_matches o e = true) (at_events t))).
Definition list_events (o : ListAuditEventsOptions) : AuditDb (list AuditEventRecord) :=
  db! _ := lift (validate_list_options o) in
  db! _ := open_reader faults in
  fun c => read_rows faults read_event_row (events_of o (cn_tables c)) c.

(** ** The audit sink *)
(** How the write on the blocking executor ends: it runs, and the sink may find itself
    cancelled then; or the wait for it is aborted or throws, having run or not. *)
Inductive WriteEnd :=
  | write_ran (cancelled : bool)
  | write_aborted (ran : bool)
  | write_threw (ran : bool) (what : string).
Definition event_request (e : AuditEvent) : AppendAuditEventRequest :=
  mkAuditRequest (ev_event_kind e) (ev_scope_key e) (ev_agent_key e) (ev_tool_name e) (ev_identity e)
    (enum_name (ev_verdict e)) (enum_name (ev_outcome e)) (ev_reason e)
    (match ev_input_hash e with Some h => str (TurnId.to_hex h) | None => ""%string end)
    (ev_parent_turn_id e) (ev_metadata_json e).
Definition write_audit {A} (executor : bool) (w : WriteEnd) (operation : AuditDb A) : AuditDb unit :=
  if negb executor then failD (Errors.invalid_argument "audit blocking executor is not configured")
  else match w with
  | write_ran cancelled => db! _ := operation in if cancelled then failD Errors.cancelled else retD tt
  | write_aborted ran => fun c => (Err Errors.cancelled, if ran then snd (operation c) else c)
  | write_threw ran what => fun c =>
      (Err (Errors.with_ctx (Errors.storage "audit write failed") "cause" what), if ran then snd (operation c) else c)
  end.
Definition record (executor : bool) (w : WriteEnd) (e : AuditEvent) : AuditDb unit :=
  write_audit executor w (append_event (event_request e)).
End AuditRepository.

(** ** Trace turns *)
Definition invalid_trace (field reason : string) : Error :=
  Errors.with_ctx (Errors.with_ctx (Errors.invalid_argument "trace repository field is invalid") "field" field) "reason" reason.
(** The first check that fails. *)
Fixpoint first_failing (checks : list (bool * (string * string))) : Result unit :=
  match checks with
  | [] => Ok tt
  | (failed, (field, reason)) :: checks =>
      fail? failed with invalid_trace field reason;
      first_failing checks
  end.
Definition empty_text (s : string) : bool := bool_decide (s = ""%string).
Definition validate_append_turn (t : TraceTurn) : Result unit :=
  let r := tu_turn t in
  first_failing
    [(is_zero_turn_id (tr_turn_id r), ("turn_id", "zero_id")%string);
     (is_zero_turn_id (tr_session_id r), ("session_id", "zero_id")%string);
     (match tr_parent_turn_id r with Some id => is_zero_turn_id id | None => false end, ("parent_turn_id", "zero_id")%string);
     (empty_text (tr_agent_key r), ("agent_key", "empty")%string);
     (empty_text (tr_origin r), ("origin", "empty")%string);
     (empty_text (tr_route_profile r), ("route_profile", "empty")%string);
     (empty_text (tr_route_model r), ("route_model", "empty")%string);
     (empty_text (tr_stop_reason r), ("stop_reason", "empty")%string);
     (empty_text (tr_context_json r), ("context_json", "empty")%string);
     (tr_iteration_count r <=? 0, ("iteration_count", "not_positive")%string);
     (tu_schema_version t <=? 0, ("schema_version", "not_positive")%string);
     (tr_started_at_ns r <? 0, ("started_at_ns", "negative")%string);
     (tr_finished_at_ns r <? 0, ("finished_at_ns", "negative")%string);
     (tr_finished_at_ns r <? tr_started_at_ns r, ("finished_at_ns", "before_started_at")%string);
     (tr_prompt_prefix_bytes r <? 0, ("prompt_prefix_bytes", "negative")%string);
     (tr_cache_creation_tokens r <? 0, ("cache_creation_tokens", "negative")%string);
     (tr_cache_read_tokens r <? 0, ("cache_read_tokens", "negative")%string);
     (tr_input_tokens r <? 0, ("input_tokens", "negative")%string);
     (tr_output_tokens r <? 0, ("output_tokens", "negative")%string)].
Definition checked_limit (limit : Z) : Result Z :=
  fail? limit =? 0 with Errors.invalid_argument "trace list limit must be greater than zero";
  fail? int64_max <? limit with Errors.invalid_argument "trace list limit is too large";
  Ok limit.

(** [to_sql_hash] and [from_sql_hash]. *)
Definition to_sql_hash (value : Z) : Z := wrap_s 64 value.
Definition from_sql_hash (value : Z) : Z := wrap_u 64 value.
Definition with_hashes (f : Z -> Z) (t : TraceTurn) : TraceTurn :=
  let r := tu_turn t in
  mkTraceTurn (mkTraceRow (tr_turn_id r) (tr_parent_turn_id r) (tr_session_id r) (tr_agent_key r) (tr_origin r)
    (tr_route_profile r) (tr_route_model r) (tr_started_at_ns r) (tr_finished_at_ns r) (tr_stop_reason r)
    (tr_iteration_count r) (f (tr_prompt_prefix_hash r)) (tr_prompt_prefix_bytes r) (f (tr_active_catalog_hash r))
    (tr_cache_creation_tokens r) (tr_cache_read_tokens r) (tr_input_tokens r) (tr_output_tokens r)
    (tr_cost_estimate_usd r) (tr_cancellation_phase r) (tr_context_json r)) (tu_schema_version t).

Definition required_trace_id (id : TurnId) (field : string) : Result TurnId :=
  fail? negb (length id =? turn_id_size)%nat with id_length_error "trace repository row has invalid id length" field id;
  Ok id.
Definition optional_trace_id (id : option TurnId) : Result (option TurnId) :=
  match id with
  | None => Ok None
  | Some id =>
      fail? negb (length id =? turn_id_size)%nat with
        Errors.with_ctx (Errors.storage "trace repository row has invalid optional id length") "size" (pretty (length id));
      Ok (Some id)
  end.
Definition read_turn_row (row : TraceTurn) : Result TraceTurn :=
  let? _ := required_trace_id (tr_turn_id (tu_turn row)) "turn_id" in
  let? _ := optional_trace_id (tr_parent_turn_id (tu_turn row)) in
  let? _ := required_trace_id (tr_session_id (tu_turn row)) "session_id" in
  Ok (with_hashes from_sql_hash row).

(** What the table accepts: the [CHECK]s of the ids, and no NaN where a REAL is required. *)
Definition is_nan (d : double) : bool := match d with SpecFloat.S754_nan => true | _ => false end.
Definition row_allowed (row : TraceTurn) : bool :=
  let r := tu_turn row in
  (length (tr_turn_id r) =? turn_id_size)%nat && (length (tr_session_id r) =? turn_id_size)%nat &&
  match tr_parent_turn_id r with Some id => (length id =? turn_id_size)%nat | None => true end &&
  negb (is_nan (tr_cost_estimate_usd r)).
Definition turn_at (id : TurnId) (t : AuditTables) : option TraceTurn :=
  find (fun x => bool_decide (tr_turn_id (tu_turn x) = id)) (at_turns t).

Definition turn_matches (o : ListTraceTurnsOptions) (x : TraceTurn) : bool :=
  match lt_session_id o with Some id => bool_decide (tr_session_id (tu_turn x) = id) | None => true end &&
  matches_filter (lt_agent_key o) (tr_agent_key (tu_turn x)).
(** [ORDER BY started_at_ns DESC, turn_id ASC]; blobs compare as [memcmp] does. *)
Definition turn_before (a b : TraceTurn) : Prop :=
  tr_started_at_ns (tu_turn b) < tr_started_at_ns (tu_turn a) \/
  (tr_started_at_ns (tu_turn b) = tr_started_at_ns (tu_turn a) /\
   bytes_lt (tr_turn_id (tu_turn b)) (tr_turn_id (tu_turn a)) = false).
#[export] Instance turn_before_dec a b : Decision (turn_before a b).
Proof. unfold turn_before. apply _. Defined.

Section TraceRepository.
Context (faults : nat -> option Error).
#[local] Notation call := (Sqlite.call faults).
#[local] Notation step_only := (Sqlite.step_only faults).

Definition insert_turn (turn : TraceTurn) (t : AuditTables) : Result TraceTurn * AuditTables :=
  let row := with_hashes to_sql_hash turn in
  if negb (row_allowed row) || bool_decide (is_Some (turn_at (tr_turn_id (tu_turn row)) t)) then (Err database_full, t)
  else (Ok row, mkAuditTables (at_events t) (at_last_id t) (at_turns t ++ [row])).
Definition append_turn (turn : TraceTurn) : AuditDb TraceTurn :=
  db! _ := lift (validate_append_turn turn) in
  db! _ := open_reader faults in
  db! row := call (fun _ => insert_turn turn) in
  db! found := lift (read_turn_row row) in
  db! _ := step_only in
  retD found.
Definition get_turn (id : TurnId) : AuditDb (option TraceTurn) :=
  if is_zero_turn_id id then failD (invalid_trace "turn_id" "zero_id")
  else
    db! _ := open_reader faults in
    db! found := Sqlite.select faults (fun t => Ok (turn_at id t)) in
    match found with
    | None => retD None
    | Some row => db! turn := lift (read_turn_row row) in db! _ := step_only in retD (Some turn)
    end.
Definition turns_of (o : ListTraceTurnsOptions) (t : AuditTables) : list TraceTurn :=
  take (Z.to_nat (lt_limit o)) (merge_sort turn_before (filter (fun x => turn_matches o x = true) (at_turns t))).
Definition list_turns (o : ListTraceTurnsOptions) : AuditDb (list TraceTurn) :=
  db! _ := lift (checked_limit (lt_limit o)) in
  if match lt_session_id o with Some id => is_zero_turn_id id | None => false end
  then failD (invalid_trace "session_id" "zero_id")
  else
    db! _ := open_reader faults in
    fun c => read_rows faults read_turn_row (turns_of o (cn_tables c)) c.
End TraceRepository.

(** ** Well-formed tables *)
Definition id_ok (id : TurnId) : Prop := length id = turn_id_size.
Definition parent_ok (id : option TurnId) : Prop := match id with Some id => id_ok id | None => True end.
Record audit_ok (t : AuditTables) : Prop := {
  au_ids : StronglySorted (fun a b => ar_id a < ar_id b) (at_events t);
  au_range : Forall (fun e => 1 <= ar_id e <= at_last_id t) (at_events t);
  au_last : 0 <= at_last_id t <= int64_max;
  au_parents : Forall (fun e => parent_ok (ar_parent_turn_id e)) (at_events t);
  au_turns : Forall (fun x => row_allowed x = true) (at_turns t);
  au_distinct : NoDup (map (fun x => tr_turn_id (tu_turn x)) (at_turns t)) }.
(** The log only ever grows at its end. *)
Definition extends (t t' : AuditTables) : Prop :=
  at_events t `prefix_of` at_events t' /\ at_turns t `prefix_of` at_turns t'.
Lemma extends_refl t : extends t t.
Proof. by split. Qed.
Lemma extends_trans t1 t2 t3 : extends t1 t2 -> extends t2 t3 -> extends t1 t3.
Proof. intros [] []. split; by etrans. Qed.

Lemma turn_at_none id t : turn_at id t = None <-> id ∉ map (fun x => tr_turn_id (tu_turn x)) (at_turns t).
Proof.
  unfold turn_at. induction (at_turns t) as [|x xs IH]; simpl; [set_solver|].
  rewrite not_elem_of_cons. case_bool_decide; naive_solver.
Qed.

(** An event was appended, or nothing happened. *)
Definition event_appended (r : AppendAuditEventRequest) (t : AuditTables) (e : AuditEventRecord) (t' : AuditTables) : Prop :=
  (exists now, e = event_row r (ar_id e) now) /\ at_last_id t < ar_id e <= int64_max /\
  t' = mkAuditTables (at_events t ++ [e]) (ar_id e) (at_turns t).
Definition turn_appended (turn : TraceTurn) (t : AuditTables) (t' : AuditTables) : Prop :=
  let row := with_hashes to_sql_hash turn in
  row_allowed row = true /\ turn_at (tr_turn_id (tu_turn row)) t = None /\
  t' = mkAuditTables (at_events t) (at_last_id t) (at_turns t ++ [row]).

Lemma event_appended_ok r t e t' :
  parent_ok (aq_parent_turn_id r) -> audit_ok t -> event_appended r t e t' -> audit_ok t' /\ extends t t'.
Proof.
  intros Hp [Hi Hr Hl Hps Ht Hd] ((now & He) & Hid & ->). split; [|by split; [eexists|]].
  split; cbn [at_events at_last_id at_turns]; [| |lia| |exact Ht|exact Hd].
  - apply StronglySorted_app_2; [|exact Hi|by repeat constructor].
    intros x y Hx ->%list_elem_of_singleton. rewrite Forall_forall in Hr. specialize (Hr _ Hx). lia.
  - apply Forall_app. split; [|apply Forall_singleton; lia].
    eapply Forall_impl; [exact Hr|]. intros x Hx. cbn beta in Hx. lia.
  - apply Forall_app. split; [exact Hps|]. apply Forall_singleton. by rewrite He.
Qed.
Lemma turn_appended_ok turn t t' : audit_ok t -> turn_appended turn t t' -> audit_ok t' /\ extends t t'.
Proof.
  intros [Hi Hb Hl Hps Ht Hd] (Hr & Hn & ->). split; [|by split; [|eexists]]. split; simpl; try done.
  - apply Forall_app. split; [exact Ht|]. by repeat constructor.
  - rewrite map_app. apply turn_at_none in Hn. apply NoDup_app. split; [exact Hd|]. split; [set_solver|]. apply NoDup_singleton.
Qed.

Section Appends.
Context (faults : nat -> option Error).

(** After the insert, what follows only reads. *)
Lemma insert_at_most_once {A B} (f : nat -> AuditTables -> Result A * AuditTables) (g : A -> AuditDb B) P :
  (forall n t a t', f n t = (Ok a, t') -> P t a t') -> (forall n t e t', f n t = (Err e, t') -> t' = t) ->
  (forall a, quiet (g a)) ->
  forall c, cn_saved c = None ->
  let x := bindD (Sqlite.call faults f) g c in
  cn_saved (snd x) = None /\
  ((cn_tables (snd x) = cn_tables c /\ forall b, fst x <> Ok b) \/
   exists a, P (cn_tables c) a (cn_tables (snd x)) /\ exists c1, fst (g a c1) = fst x).
Proof.
  intros HP Herr Hg c Hc. cbv zeta. unfold bindD, Sqlite.call. destruct (faults (cn_calls c)) as [e|]; [by split; [|left]|].
  destruct (f (cn_calls c) (cn_tables c)) as [[a|e] t] eqn:Hf.
  - destruct (Hg a (mkConn t (cn_saved c) (S (cn_calls c)))) as [Ht Hs].
    rewrite Ht, Hs. split; [exact Hc|]. right. exists a. split; [by eapply HP|]. by eexists.
  - apply Herr in Hf as ->. by split; [|left].
Qed.

Lemma append_event_outcome gaps clock r c : cn_saved c = None ->
  match append_event faults gaps clock r c with
  | (Ok e, c') => validate_append_event r = Ok tt /\ event_appended r (cn_tables c) e (cn_tables c') /\ cn_saved c' = None
  | (Err _, c') => (cn_tables c' = cn_tables c \/ exists e, event_appended r (cn_tables c) e (cn_tables c')) /\ cn_saved c' = None
  end.
Proof.
  intros Hc. unfold append_event. destruct (validate_append_event r) as [[]|e] eqn:Hv; [|by split; [left|]].
  change (bindD (lift (Ok ())) ?f) with (f tt). unfold bindD at 1. destruct (quiet_open faults c) as [Ht Hs].
  destruct (open_reader faults c) as [[u|e] c1]; simpl in Ht, Hs; [|by rewrite Ht, Hs; split; [left|]].
  destruct (insert_at_most_once (fun n => insert_event r (gaps n) (clock n)) (fun e => db! _ := step_only faults in retD e)
    (event_appended r)) with (c := c1) as [Hs' Hcase]; [| | |by rewrite Hs|].
  - intros n t e t'. unfold insert_event. destruct (Z.leb_spec int64_max (at_last_id t)); [discriminate|].
    intros [= <- <-]. split; [by eexists|]. split; [|done]. cbn. unfold next_id. lia.
  - intros n t e t'. unfold insert_event. destruct (int64_max <=? at_last_id t); [by intros [= _ <-]|discriminate].
  - intros a c2. unfold bindD. destruct (quiet_step faults c2) as [Ht2 Hs2].
    by destruct (step_only faults c2) as [[u2|e2] c3].
  - destruct (bindD _ _ c1) as [[e|e] c2]; simpl in Hs', Hcase; rewrite <- Ht.
    + split; [done|]. destruct Hcase as [[_ Hno]|(a & Ha & c3 & Hgo)]; [by destruct (Hno e)|].
      unfold bindD in Hgo. destruct (step_only faults c3) as [[u3|e3] c4]; simpl in Hgo; [|discriminate].
      injection Hgo as ->. by split.
    + split; [|exact Hs']. destruct Hcase as [[? _]|(a & Ha & _)]; [by left|right; by exists a].
Qed.

Lemma append_turn_outcome turn c : cn_saved c = None ->
  match append_turn faults turn c with
  | (Ok found, c') => validate_append_turn turn = Ok tt /\ turn_appended turn (cn_tables c) (cn_tables c') /\
      found = with_hashes from_sql_hash (with_hashes to_sql_hash turn) /\ cn_saved c' = None
  | (Err _, c') => (cn_tables c' = cn_tables c \/ turn_appended turn (cn_tables c) (cn_tables c')) /\ cn_saved c' = None
  end.
Proof.
  intros Hc. unfold append_turn. destruct (validate_append_turn turn) as [[]|e] eqn:Hv; [|by split; [left|]].
  change (bindD (lift (Ok ())) ?f) with (f tt). unfold bindD at 1. destruct (quiet_open faults c) as [Ht Hs].
  destruct (open_reader faults c) as [[u|e] c1]; simpl in Ht, Hs; [|by rewrite Ht, Hs; split; [left|]].
  destruct (insert_at_most_once (fun _ => insert_turn turn)
    (fun row => db! found := lift (read_turn_row row) in db! _ := step_only faults in retD found)
    (fun t row t' => row = with_hashes to_sql_hash turn /\ turn_appended turn t t')) with (c := c1) as [Hs' Hcase]; [| | |by rewrite Hs|].
  - intros n t row t'. unfold insert_turn. destruct (negb _ || _) eqn:Hn; [discriminate|]. intros [= <- <-].
    apply orb_false_iff in Hn as [Hr Hn]. apply negb_false_iff in Hr. apply bool_decide_eq_false in Hn.
    split; [done|]. split; [exact Hr|]. split; [|done]. destruct (turn_at _ t); [by destruct Hn|done].
  - intros n t e t'. unfold insert_turn. destruct (negb _ || _); [by intros [= _ <-]|discriminate].
  - intros row c2. unfold bindD, lift. destruct (read_turn_row row); [|done]. simpl. destruct (quiet_step faults c2) as [Ht2 Hs2].
    by destruct (step_only faults c2) as [[u2|e2] c3].
  - destruct (bindD _ _ c1) as [[found|e] c2]; simpl in Hs', Hcase; rewrite <- Ht.
    + split; [done|]. destruct Hcase as [[_ Hno]|(row & [-> Ha] & c3 & Hgo)]; [by destruct (Hno found)|].
      split; [exact Ha|]. split; [|exact Hs'].
      unfold bindD, lift in Hgo. destruct (read_turn_row _) as [x|] eqn:Hread; simpl in Hgo; [|discriminate].
      destruct (step_only faults c3) as [[u3|e3] c4]; simpl in Hgo; [|discriminate]. injection Hgo as <-.
      unfold read_turn_row in Hread. apply result_bind_ok in Hread as (? & _ & (? & _ & (? & _ & [= <-])%result_bind_ok)%result_bind_ok).
      reflexivity.
    + split; [|exact Hs']. destruct Hcase as [[? _]|(row & [_ Ha] & _)]; [by left|by right].
Qed.
End Appends.

(** A turn read back is the turn written. *)
Definition hashes_ok (t : TraceTurn) : Prop :=
  fits_u 64 (tr_prompt_prefix_hash (tu_turn t)) /\ fits_u 64 (tr_active_catalog_hash (tu_turn t)).
Lemma sql_hash_roundtrip h : fits_u 64 h -> from_sql_hash (to_sql_hash h) = h.
Proof.
  unfold from_sql_hash, to_sql_hash, wrap_u, wrap_s, fits_u. intros Hh.
  Z.to_euclidean_division_equations; lia.
Qed.
Lemma hashes_roundtrip t : hashes_ok t -> with_hashes from_sql_hash (with_hashes to_sql_hash t) = t.
Proof.
  destruct t as [[] sv]. unfold with_hashes, hashes_ok. cbn. intros [H1 H2]. by rewrite !sql_hash_roundtrip.
Qed.
Lemma read_allowed row : row_allowed row = true -> read_turn_row row = Ok (with_hashes from_sql_hash row).
Proof.
  unfold row_allowed, read_turn_row, required_trace_id, optional_trace_id. rewrite !andb_true_iff. intros [[[-> ->] Hp] _]. simpl.
  destruct (tr_parent_turn_id (tu_turn row)); [by rewrite Hp|done].
Qed.
Lemma read_event e : parent_ok (ar_parent_turn_id e) -> read_event_row e = Ok e.
Proof.
  unfold read_event_row. destruct (ar_parent_turn_id e) as [id|]; [|done]. simpl. unfold id_ok. intros ->. done.
Qed.

(** ** Steps *)
(** Whatever the processes of the program do with the log; the ids they pass are [TurnId]s. *)
Inductive audit_step : Conn AuditTables -> Conn AuditTables -> Prop :=
  | step_event faults gaps clock r c x c' :
      parent_ok (aq_parent_turn_id r) -> append_event faults gaps clock r c = (x, c') -> audit_step c c'
  | step_record faults gaps clock executor w e c x c' :
      parent_ok (ev_parent_turn_id e) -> record faults gaps clock executor w e c = (x, c') -> audit_step c c'
  | step_turn faults turn c x c' : append_turn faults turn c = (x, c') -> audit_step c c'
  | step_list_events faults o c x c' : list_events faults o c = (x, c') -> audit_step c c'
  | step_get_turn faults id c x c' : get_turn faults id c = (x, c') -> audit_step c c'
  | step_list_turns faults o c x c' : list_turns faults o c = (x, c') -> audit_step c c'.

(** A record is an append, once or not at all. *)
Lemma record_outcome faults gaps clock executor w e c : cn_saved c = None ->
  match record faults gaps clock executor w e c with
  | (Ok _, c') => (validate_append_event (event_request e) = Ok tt /\
      exists row, event_appended (event_request e) (cn_tables c) row (cn_tables c')) /\ cn_saved c' = None
  | (Err _, c') => (cn_tables c' = cn_tables c \/
      exists row, event_appended (event_request e) (cn_tables c) row (cn_tables c')) /\ cn_saved c' = None
  end.
Proof.
  intros Hc. pose proof (append_event_outcome faults gaps clock (event_request e) c Hc) as Ho. unfold record, write_audit, bindD.
  destruct executor; simpl; [|by split; [left|]].
  destruct w as [cancelled|ran|ran what]; [|destruct ran; [|by split; [left|]]..];
    destruct (append_event _ _ _ _ c) as [[row|err] c1]; simpl; try exact Ho; destruct Ho as (Hv & Ha & Hs).
  - destruct cancelled; simpl; (split; [|exact Hs]); [right|split; [done|]]; by exists row.
  - split; [|exact Hs]. right. by exists row.
  - split; [|exact Hs]. right. by exists row.
Qed.

Lemma quiet_list_events faults o : quiet (list_events faults o).
Proof.
  unfold list_events. apply quiet_bind; [apply quiet_lift|intros _]. apply quiet_bind; [apply quiet_open|intros _].
  intros c. apply quiet_rows.
Qed.
Lemma quiet_list_turns faults o : quiet (list_turns faults o).
Proof.
  unfold list_turns. apply quiet_bind; [apply quiet_lift|intros _]. destruct (match lt_session_id o with Some _ => _ | None => _ end);
    [apply quiet_fail|]. apply quiet_bind; [apply quiet_open|intros _]. intros c. apply quiet_rows.
Qed.
Lemma quiet_get_turn faults id : quiet (get_turn faults id).
Proof.
  unfold get_turn. destruct (is_zero_turn_id id); [apply quiet_fail|]. apply quiet_bind; [apply quiet_open|intros _].
  apply quiet_bind; [apply quiet_select|]. intros [row|]; [|apply quiet_ret].
  apply quiet_bind; [apply quiet_lift|]. intros turn. apply quiet_bind; [apply quiet_step|]. intros _. apply quiet_ret.
Qed.

(** What an operation may do to the log: nothing, or one append. *)
Definition grown (c c' : Conn AuditTables) : Prop :=
  cn_saved c' = None /\ audit_ok (cn_tables c') /\ extends (cn_tables c) (cn_tables c').
Lemma quiet_grown {A} (x : AuditDb A) c r c' :
  quiet x -> x c = (r, c') -> cn_saved c = None -> audit_ok (cn_tables c) -> grown c c'.
Proof.
  intros Hq Hx Hc Hok. destruct (Hq c) as [Ht Hs]. rewrite Hx in Ht, Hs. simpl in Ht, Hs. unfold grown.
  rewrite Ht, Hs. auto using extends_refl.
Qed.

Lemma audit_step_grows c c' :
  audit_step c c' -> cn_saved c = None -> audit_ok (cn_tables c) -> grown c c'.
Proof.
  intros Hstep Hc Hok. unfold grown. destruct Hstep as [faults gaps clock r c x c' Hp He|faults gaps clock ex w e c x c' Hp He
    |faults turn c x c' He|faults o c x c' He|faults id c x c' He|faults o c x c' He].
  - pose proof (append_event_outcome faults gaps clock r c Hc) as Ho. rewrite He in Ho. destruct x as [e|e].
    + destruct Ho as (_ & Ha & Hs). split; [exact Hs|]. by eapply event_appended_ok.
    + destruct Ho as [[->|[e' Ha]] Hs]; (split; [exact Hs|]); [by split; [|apply extends_refl]|by eapply event_appended_ok].
  - pose proof (record_outcome faults gaps clock ex w e c Hc) as Ho. rewrite He in Ho. destruct x as [u|err].
    + destruct Ho as [(_ & row & Ha) Hs]. split; [exact Hs|]. by apply (event_appended_ok (event_request e) _ row).
    + destruct Ho as [[->|[row Ha]] Hs]; (split; [exact Hs|]); [by split; [|apply extends_refl]|by apply (event_appended_ok (event_request e) _ row)].
  - pose proof (append_turn_outcome faults turn c Hc) as Ho. rewrite He in Ho. destruct x as [t|e].
    + destruct Ho as (_ & Ha & _ & Hs). split; [exact Hs|]. by eapply turn_appended_ok.
    + destruct Ho as [[->|Ha] Hs]; (split; [exact Hs|]); [by split; [|apply extends_refl]|by eapply turn_appended_ok].
  - by eapply quiet_grown, Hok; [apply quiet_list_events|exact He|].
  - by eapply quiet_grown, Hok; [apply quiet_get_turn|exact He|].
  - by eapply quiet_grown, Hok; [apply quiet_list_turns|exact He|].
Qed.
Lemma audit_steps_grow c c' :
  rtc audit_step c c' -> cn_saved c = None -> audit_ok (cn_tables c) -> grown c c'.
Proof.
  induction 1 as [c|c1 c2 c3 Hs _ IH]; intros Hc Hok; [split; auto using extends_refl|].
  destruct (audit_step_grows _ _ Hs Hc Hok) as (Hc2 & Hok2 & Hg). destruct (IH Hc2 Hok2) as (Hc3 & Hok3 & Hg3).
  split; eauto using extends_trans.
Qed.

(** ** The orders of the lists *)
Lemma bytes_lt_total a b : bytes_lt a b = false \/ bytes_lt b a = false.
Proof.
  revert b. induction a as [|x a IH]; intros [|y b]; simpl; try by auto.
  destruct (Z.ltb_spec (code x) (code y)), (Z.ltb_spec (code y) (code x)); auto; lia.
Qed.
Lemma bytes_le_trans a b c : bytes_lt b a = false -> bytes_lt c b = false -> bytes_lt c a = false.
Proof.
  revert b c. induction a as [|x a IH]; intros [|y b] [|z c]; simpl; try done.
  destruct (Z.ltb_spec (code y) (code x)), (Z.ltb_spec (code x) (code y)), (Z.ltb_spec (code z) (code y)),
    (Z.ltb_spec (code y) (code z)), (Z.ltb_spec (code z) (code x)), (Z.ltb_spec (code x) (code z)); try done; try lia.
  apply IH.
Qed.
#[export] Instance turn_before_total : Total turn_before.
Proof.
  intros a b. unfold turn_before.
  destruct (Z.lt_trichotomy (tr_started_at_ns (tu_turn a)) (tr_started_at_ns (tu_turn b))) as [H|[H|H]]; [auto| |auto].
  destruct (bytes_lt_total (tr_turn_id (tu_turn a)) (tr_turn_id (tu_turn b))); auto.
Qed.
#[export] Instance turn_before_trans : Transitive turn_before.
Proof.
  intros a b c. unfold turn_before. intros [H1|[H1 H1']] [H2|[H2 H2']]; try (left; lia).
  right. split; [lia|]. by eapply bytes_le_trans.
Qed.
#[export] Instance newer_event_total : Total newer_event.
Proof. intros a b. unfold newer_event. lia. Qed.
#[export] Instance newer_event_trans : Transitive newer_event.
Proof. intros a b c. unfold newer_event. lia. Qed.

Lemma elem_of_rev {A} (x : A) l : x ∈ rev l <-> x ∈ l.
Proof. by rewrite !list_elem_of_In, <- in_rev. Qed.
(** Events with growing ids are sorted by reversing them. *)
Lemma newest_first es :
  StronglySorted (fun a b => ar_id a < ar_id b) es -> merge_sort newer_event es = rev es.
Proof.
  intros Hs. pose proof (merge_sort_Permutation newer_event es) as Hp.
  apply (StronglySorted_unique_strong newer_event).
  - intros x y Hx Hy Hxy Hyx. rewrite Hp in Hx. rewrite elem_of_rev in Hy.
    assert (He : ar_id x = ar_id y) by (unfold newer_event in *; lia).
    clear Hp Hxy Hyx. induction Hs as [|z es _ IH Hz]; [set_solver|]. rewrite Forall_forall in Hz.
    apply elem_of_cons in Hx as [->|Hx], Hy as [->|Hy]; try done.
    + specialize (Hz _ Hy). lia.
    + specialize (Hz _ Hx). lia.
    + by apply IH.
  - apply StronglySorted_merge_sort; apply _.
  - clear Hp. induction Hs as [|z es _ IH Hz]; simpl; [constructor|].
    apply StronglySorted_app_2; [|exact IH|repeat constructor].
    intros x y Hx Hy%list_elem_of_singleton. subst y. rewrite elem_of_rev in Hx.
    rewrite Forall_forall in Hz. specialize (Hz _ Hx). unfold newer_event. lia.
  - rewrite Hp. apply Permutation_rev.
Qed.
Lemma sorted_filter {A} (R : A -> A -> Prop) (P : A -> Prop) `{forall x, Decision (P x)} l :
  StronglySorted R l -> StronglySorted R (filter P l).
Proof.
  induction 1 as [|x l _ IH Hx]; [constructor|]. rewrite filter_cons. case_decide; [|exact IH].
  constructor; [exact IH|]. apply Forall_forall. intros y [_ Hy]%list_elem_of_filter.
  by apply (proj1 (Forall_forall _ _) Hx).
Qed.
Lemma Forall_filter_sub {A} (P Q : A -> Prop) `{forall x, Decision (P x)} l : Forall Q l -> Forall Q (filter P l).
Proof. intros Hq. apply Forall_forall. intros x [_ Hx]%list_elem_of_filter. by apply (proj1 (Forall_forall _ _) Hq). Qed.

(** ** Properties *)
(** C26: The audit log is append-only: along every sequence of decisions recorded by the sink,
    events and turns appended and lists and turns read by whatever processes, with any faults,
    cancellations and gaps between ids, the rows there were stay where they were; the ids of
    the events grow with their place, are positive and fit in 64 bits; turn ids are distinct
    and of sixteen bytes, and every row is read back as it was written. *)
Theorem audit_log_append_only c c' :
  rtc audit_step c c' -> cn_saved c = None -> audit_ok (cn_tables c) ->
  audit_ok (cn_tables c') /\ extends (cn_tables c) (cn_tables c') /\
  Forall (fun e => read_event_row e = Ok e) (at_events (cn_tables c')) /\
  Forall (fun row => read_turn_row row = Ok (with_hashes from_sql_hash row)) (at_turns (cn_tables c')).
Proof.
  intros Hs Hc Hok. destruct (audit_steps_grow _ _ Hs Hc Hok) as (_ & Hok' & Hx).
  split_and!; [done|done|eapply Forall_impl; [exact (au_parents _ Hok')|apply read_event]|].
  eapply Forall_impl; [exact (au_turns _ Hok')|apply read_allowed].
Qed.

(** The sink records a decision at most once, and exactly once when it says so: on
    success one row with an id above all others holds the event, its verdict and outcome as their names
    and its input hash in hexadecimal; on a failure, a cancellation or an exception of the
    executor the log is unchanged or has that one row. *)
Theorem audit_record_at_most_once faults gaps clock executor w e c :
  cn_saved c = None ->
  match record faults gaps clock executor w e c with
  | (Ok _, c') => validate_append_event (event_request e) = Ok tt /\
      exists row, event_appended (event_request e) (cn_tables c) row (cn_tables c')
  | (Err _, c') => cn_tables c' = cn_tables c \/
      exists row, event_appended (event_request e) (cn_tables c) row (cn_tables c')
  end.
Proof.
  intros Hc. pose proof (record_outcome faults gaps clock executor w e c Hc) as Ho.
  by destruct (record _ _ _ _ _ _ c) as [[]]; destruct Ho.
Qed.

(** Listing events gives the newest matching ones first: exactly the last [limit] events of
    the scope that match every given filter, from the newest back; it changes nothing and
    fails only for a fault of SQLite. *)
Theorem events_newest_first faults o c :
  audit_ok (cn_tables c) -> validate_list_options o = Ok tt ->
  let '(r, c') := list_events faults o c in
  cn_tables c' = cn_tables c /\
  match r with
  | Ok es => es = take (Z.to_nat (le_limit o)) (rev (filter (fun e => event_matches o e = true) (at_events (cn_tables c))))
  | Err e => exists n, faults n = Some e
  end.
Proof.
  intros Hok Ho. set (t := cn_tables c) in *.
  assert (He : events_of o t = take (Z.to_nat (le_limit o)) (rev (filter (fun e => event_matches o e = true) (at_events t)))).
  { unfold events_of. f_equal. apply newest_first, sorted_filter. by apply au_ids. }
  assert (Hr : reads faults (list_events faults o) (fun es => es = events_of o t) (fun _ => False) t).
  { unfold list_events. eapply reads_lift; [exact Ho|]. apply reads_open. intros c1 Hc1. rewrite Hc1.
    revert c1 Hc1. apply reads_rows. apply Forall2_same_length_lookup_2; [done|].
    intros i x y Hx Hy. rewrite Hx in Hy. injection Hy as <-. apply read_event.
    apply list_elem_of_lookup_2 in Hx. rewrite He in Hx.
    assert (Hin : x ∈ at_events t).
    { apply elem_of_take in Hx as (j & Hj & _). apply list_elem_of_lookup_2 in Hj.
      rewrite elem_of_rev in Hj. by apply list_elem_of_filter in Hj as [_ Hj]. }
    exact (proj1 (Forall_forall _ _) (au_parents _ Hok) x Hin). }
  destruct (Hr c eq_refl) as [Ht Hres]. destruct (list_events _ _ c) as [[es|e] c']; simpl in *; (split; [exact Ht|]).
  - by rewrite Hres, He.
  - by destruct Hres.
Qed.

Lemma turn_at_app id xs ys :
  find (fun x => bool_decide (tr_turn_id (tu_turn x) = id)) (xs ++ ys) =
  match find (fun x => bool_decide (tr_turn_id (tu_turn x) = id)) xs with
  | Some x => Some x
  | None => find (fun x => bool_decide (tr_turn_id (tu_turn x) = id)) ys
  end.
Proof. induction xs as [|x xs IH]; simpl; [done|]. by case_bool_decide. Qed.
Lemma appended_turn_found turn t t' t2 :
  turn_appended turn t t' -> extends t' t2 ->
  turn_at (tr_turn_id (tu_turn turn)) t2 = Some (with_hashes to_sql_hash turn).
Proof.
  intros (_ & Hn & ->) [_ [more Hmore]]. unfold turn_at in *. simpl in Hmore. rewrite Hmore.
  rewrite <- app_assoc, turn_at_app. change (tr_turn_id (tu_turn (with_hashes to_sql_hash turn))) with (tr_turn_id (tu_turn turn)) in Hn.
  rewrite Hn. simpl. by rewrite bool_decide_eq_true_2.
Qed.

(** A trace row survives: the record [append_turn] returns is the turn it was given, 64-bit
    hashes included, and however the log grows afterwards, [get_turn] returns that very turn,
    unless SQLite fails. *)
Theorem trace_turn_roundtrip faults turn c found c' c2 reader :
  cn_saved c = None -> audit_ok (cn_tables c) -> hashes_ok turn ->
  append_turn faults turn c = (Ok found, c') -> rtc audit_step c' c2 ->
  found = turn /\
  match fst (get_turn reader (tr_turn_id (tu_turn turn)) c2) with
  | Ok r => r = Some turn
  | Err e => exists n, reader n = Some e
  end.
Proof.
  intros Hc Hok Hh Ha Hs. pose proof (append_turn_outcome faults turn c Hc) as Ho. rewrite Ha in Ho.
  destruct Ho as (Hv & Happ & -> & Hc'). rewrite hashes_roundtrip by done. split; [done|].
  destruct (turn_appended_ok _ _ _ Hok Happ) as [Hok' _].
  destruct (audit_steps_grow _ _ Hs Hc' Hok') as (_ & _ & Hext).
  pose proof (appended_turn_found _ _ _ _ Happ Hext) as Hat.
  assert (Hr : reads reader (get_turn reader (tr_turn_id (tu_turn turn))) (fun r => r = Some turn) (fun _ => False) (cn_tables c2)).
  { unfold get_turn. unfold validate_append_turn in Hv. cbn [first_failing] in Hv.
    destruct (is_zero_turn_id (tr_turn_id (tu_turn turn))); [discriminate|].
    apply reads_open. eapply (reads_bind _ _ _ (fun x => x = Some (with_hashes to_sql_hash turn))).
    - intros c3 Hc3. unfold Sqlite.select, Sqlite.call. destruct (reader (cn_calls c3)) eqn:Hf; simpl.
      + split; [exact Hc3|]. right. by eexists.
      + split; [exact Hc3|]. by rewrite Hc3.
    - intros x ->. eapply reads_lift; [apply read_allowed; by destruct Happ|].
      rewrite hashes_roundtrip by done. apply reads_after. by apply reads_ret. }
  destruct (Hr c2 eq_refl) as [_ Hres]. destruct (fst _); [exact Hres|by destruct Hres].
Qed.

(** Listing turns gives the most recent ones first: the turns of the session and agent asked
    for, sorted by their start from the latest back and by id among equals, cut at [limit];
    it changes nothing and fails only for a fault of SQLite. *)
Theorem turns_latest_first faults o c :
  audit_ok (cn_tables c) -> checked_limit (lt_limit o) = Ok (lt_limit o) ->
  match lt_session_id o with Some id => is_zero_turn_id id = false | None => True end ->
  let '(r, c') := list_turns faults o c in
  cn_tables c' = cn_tables c /\
  match r with
  | Ok ts => exists sorted, sorted ≡ₚ filter (fun x => turn_matches o x = true) (at_turns (cn_tables c)) /\
      StronglySorted turn_before sorted /\ ts = map (with_hashes from_sql_hash) (take (Z.to_nat (lt_limit o)) sorted)
  | Err e => exists n, faults n = Some e
  end.
Proof.
  intros Hok Hl Hs. set (t := cn_tables c) in *.
  assert (Hr : reads faults (list_turns faults o) (fun ts => ts = map (with_hashes from_sql_hash) (turns_of o t)) (fun _ => False) t).
  { unfold list_turns. eapply reads_lift; [exact Hl|].
    replace (match lt_session_id o with Some id => is_zero_turn_id id | None => false end) with false by (by destruct (lt_session_id o)).
    apply reads_open. intros c1 Hc1. rewrite Hc1. revert c1 Hc1. apply reads_rows. apply Forall2_fmap_r, Forall_Forall2_diag.
    unfold turns_of. apply Forall_take. rewrite (merge_sort_Permutation turn_before _).
    apply Forall_filter_sub. eapply Forall_impl; [exact (au_turns _ Hok)|]. apply read_allowed. }
  destruct (Hr c eq_refl) as [Ht Hres]. destruct (list_turns _ _ c) as [[ts|e] c']; simpl in *; (split; [exact Ht|]).
  - exists (merge_sort turn_before (filter (fun x => turn_matches o x = true) (at_turns t))).
    split; [apply merge_sort_Permutation|]. split; [apply StronglySorted_merge_sort; apply _|exact Hres].
  - by destruct Hres.
Qed.

(** ** Examples *)
Module Demo.
Notation quietly := (fun _ : nat => @None Error).
Definition clock (n : nat) : string := "now".
Definition tid (n : Z) : TurnId := write_u64_be (replicate 16 (byte_of 0)) 8 n.
Definition empty : Conn AuditTables := mkConn (mkAuditTables [] 0 []) None 0.
Definition decision : AuditEvent :=
  mkEvent "permission_decision" "scope" "agent" "FileRead" "id" v_allow ao_allow "rule" None (Some (tid 7)) "{}".
Definition turn : TraceTurn := mkTraceTurn
  (mkTraceRow (tid 1) None (tid 2) "agent" "cli" "p" "m" 5 9 "end_turn" 1 (2 ^ 64 - 1) 10 (2 ^ 63) 0 0 3 4 (double_of 0) None "{}") 1.
Definition later : TraceTurn := mkTraceTurn
  (mkTraceRow (tid 3) (Some (tid 1)) (tid 2) "agent" "cli" "p" "m" 8 9 "end_turn" 1 0 10 0 0 0 3 4 (double_of 0) None "{}") 1.
Definition skip (n : nat) : nat := 3.
Definition after1 : Conn AuditTables := snd (record quietly skip clock true (write_ran false) decision empty).
Definition after2 : Conn AuditTables := snd (append_turn quietly turn after1).
Definition after3 : Conn AuditTables := snd (append_turn quietly later after2).
Definition everything : ListAuditEventsOptions := mkListEvents "scope" "" "" "" "" 5.
Definition of_session : ListTraceTurnsOptions := mkListTurns (Some (tid 2)) "" 1.

Example recorded : fst (list_events quietly everything after3) =
  Ok [mkAuditRecord 4 "permission_decision" "scope" "agent" "FileRead" "id" "allow" "allow" "rule" None (Some (tid 7)) "{}" "now"].
Proof. vm_compute. reflexivity. Qed.
Example latest : fst (list_turns quietly of_session after3) = Ok [later].
Proof. vm_compute. reflexivity. Qed.
Example duplicate_refused : fst (append_turn quietly turn after3) = Err database_full.
Proof. vm_compute. reflexivity. Qed.
Lemma empty_log_ok : audit_ok (cn_tables empty).
Proof. by split; simpl; try constructor. Qed.
Lemma append_event_step faults gaps clk r c : parent_ok (aq_parent_turn_id r) -> audit_step c (snd (append_event faults gaps clk r c)).
Proof. intros Hp. eapply step_event; [exact Hp|apply surjective_pairing]. Qed.
Lemma record_step faults gaps clk ex w e c : parent_ok (ev_parent_turn_id e) -> audit_step c (snd (record faults gaps clk ex w e c)).
Proof. intros Hp. eapply step_record; [exact Hp|apply surjective_pairing]. Qed.
Lemma append_turn_step faults x c : audit_step c (snd (append_turn faults x c)).
Proof. eapply step_turn, surjective_pairing. Qed.
(** The sink records a decision whose caller is cancelled, another one while the executor
    aborts the wait, a turn is appended and the events are listed. *)
Definition cancelled1 : Conn AuditTables := snd (record quietly skip clock true (write_ran true) decision after1).
Definition aborted : Conn AuditTables := snd (record quietly skip clock true (write_aborted false) decision cancelled1).
Definition with_turn : Conn AuditTables := snd (append_turn quietly turn aborted).
Definition after_list : Conn AuditTables := snd (list_events quietly everything with_turn).
Lemma log_reached : rtc audit_step empty after_list.
Proof.
  eapply rtc_l; [by apply (record_step quietly skip clock true (write_ran false) decision)|].
  eapply rtc_l; [by apply (record_step quietly skip clock true (write_ran true) decision)|].
  eapply rtc_l; [by apply (record_step quietly skip clock true (write_aborted false) decision)|].
  eapply rtc_l; [apply (append_turn_step quietly turn)|].
  apply rtc_once. eapply (step_list_events quietly everything), surjective_pairing.
Qed.
Lemma reached_ok : audit_ok (cn_tables after_list).
Proof. exact (proj1 (proj2 (audit_steps_grow _ _ log_reached eq_refl empty_log_ok))). Qed.

Lemma audit_log_append_only_witness :
  map ar_id (at_events (cn_tables after_list)) = [4; 8] /\ length (at_turns (cn_tables after_list)) = 1%nat /\
  audit_ok (cn_tables after_list) /\ extends (cn_tables empty) (cn_tables after_list) /\
  Forall (fun e => read_event_row e = Ok e) (at_events (cn_tables after_list)) /\
  Forall (fun row => read_turn_row row = Ok (with_hashes from_sql_hash row)) (at_turns (cn_tables after_list)).
Proof.
  split; [vm_compute; reflexivity|]. split; [vm_compute; reflexivity|].
  exact (audit_log_append_only _ _ log_reached eq_refl empty_log_ok).
Defined.
Lemma audit_record_at_most_once_witness :
  let '(r, c') := record quietly skip clock true (write_ran false) decision empty in
  r = Ok tt /\ exists row, event_appended (event_request decision) (cn_tables empty) row (cn_tables c').
Proof.
  pose proof (audit_record_at_most_once quietly skip clock true (write_ran false) decision empty eq_refl) as H.
  destruct (record _ _ _ _ _ _ _) as [r c'] eqn:He.
  assert (Hr : r = Ok tt).
  { change r with (fst (r, c')). rewrite <- He. vm_compute. reflexivity. }
  subst r. split; [reflexivity|]. exact (proj2 H).
Defined.
Lemma events_newest_first_witness : exists es,
  fst (list_events quietly everything after_list) = Ok es /\ length es = 2%nat.
Proof.
  pose proof (events_newest_first quietly everything _ reached_ok eq_refl) as H. cbv zeta in H.
  destruct (list_events _ _ _) as [[es|e] c'].
  - exists es. split; [reflexivity|]. rewrite (proj2 H). vm_compute. reflexivity.
  - destruct (proj2 H) as [n Hn]. discriminate Hn.
Defined.
Lemma trace_turn_roundtrip_witness :
  exists c', fst (append_turn quietly turn empty) = Ok turn /\ fst (get_turn quietly (tid 1) c') = Ok (Some turn).
Proof.
  assert (Ha : append_turn quietly turn empty = (Ok turn, snd (append_turn quietly turn empty))) by (vm_compute; reflexivity).
  exists (snd (append_turn quietly turn empty)).
  assert (Hh : hashes_ok turn) by (vm_compute; repeat split; discriminate).
  pose proof (trace_turn_roundtrip quietly turn empty turn _ _ quietly eq_refl empty_log_ok Hh Ha (rtc_refl _ _)) as [_ H].
  split; [by rewrite Ha|]. change (tr_turn_id (tu_turn turn)) with (tid 1) in H.
  destruct (fst (get_turn _ _ _)) as [r|e]; [by rewrite H|]. destruct H as [n Hn]. discriminate Hn.
Defined.
Lemma turns_latest_first_witness : exists ts,
  fst (list_turns quietly of_session (snd (append_turn quietly turn empty))) = Ok ts /\ length ts = 1%nat.
Proof.
  assert (Hok : audit_ok (cn_tables (snd (append_turn quietly turn empty)))).
  { exact (proj1 (proj2 (audit_step_grows _ _ (append_turn_step quietly turn empty) eq_refl empty_log_ok))). }
  pose proof (turns_latest_first quietly of_session _ Hok eq_refl eq_refl) as H.
  destruct (list_turns _ _ _) as [[ts|e] c'].
  - exists ts. split; [reflexivity|]. destruct H as (_ & sorted & Hp & _ & ->). apply Permutation_length in Hp.
    change (length (filter _ _)) with 1%nat in Hp. rewrite length_map, length_take, Hp. reflexivity.
  - destruct H as [_ [n Hn]]. discriminate Hn.
Defined.
End Demo.
