(* ===== verification/Migrations.v ===== *)
(** * oran-storage: the migration runner

    Models [src/oran-storage/migrations.cpp].  The database is its [schema_versions] table,
    if it has one, and the rest of its schema, of a type [S] of which nothing is known but
    how the text of a migration runs on it ([run]).  Several processes may migrate the same
    database: [others n] is what they commit before the [n]-th transaction of this one. *)
From stdpp Require Import sorting.
From S2P Require Import Prelude.
From S2P Require Import Core.
From S2P Require Import Sqlite.
#[local] Open Scope Z_scope.

Record Migration := mkMigration { mg_version : Z; mg_name : string; mg_sql : string }.
Record MigrationReport := mkReport { rp_previous : Z; rp_current : Z; rp_applied : list Z }.
Record MigState (S : Type) := mkMigState { mg_versions : option (list (Z * string)); mg_schema : S }.
Arguments mkMigState {S} _ _.
Arguments mg_versions {S} _.
Arguments mg_schema {S} _.

Definition attach_migration_context (e : Error) (m : Migration) : Error :=
  Errors.with_ctx (Errors.with_ctx e "migration_version" (pretty (mg_version m))) "migration_name" (mg_name m).
Definition invalid_version (message : string) (m : Migration) : Error :=
  Errors.with_ctx (Errors.invalid_argument message) "migration_version" (pretty (mg_version m)).

Fixpoint validate_from (expected : Z) (ms : list Migration) : Result unit :=
  match ms with
  | [] => Ok tt
  | m :: ms =>
      fail? mg_version m <=? 0 with invalid_version "migration version must be positive" m;
      fail? negb (mg_version m =? expected) with
        Errors.with_ctx (Errors.with_ctx (Errors.invalid_argument "migration versions must be contiguous from 1")
          "expected_version" (pretty expected)) "actual_version" (pretty (mg_version m));
      fail? bool_decide (mg_name m = ""%string) with invalid_version "migration name must not be empty" m;
      fail? bool_decide (mg_sql m = ""%string) with
        Errors.with_ctx (invalid_version "migration sql must not be empty" m) "migration_name" (mg_name m);
      validate_from (expected + 1) ms
  end.
Definition validate_migration_list (ms : list Migration) : Result unit := validate_from 1 ms.

(** [ORDER BY version]. *)
Definition applied_versions (rows : list (Z * string)) : list Z := merge_sort Z.le (map fst rows).
Fixpoint contiguous_from (expected : Z) (versions : list Z) : Result unit :=
  match versions with
  | [] => Ok tt
  | v :: versions =>
      fail? negb (v =? expected) with
        Errors.with_ctx (Errors.with_ctx (Errors.mk ek_conflict "schema_versions is not contiguous")
          "expected_version" (pretty expected)) "actual_version" (pretty v);
      contiguous_from (expected + 1) versions
  end.
Definition validate_applied_versions (versions : list Z) (count : Z) : Result Z :=
  let? _ := contiguous_from 1 versions in
  let current := default 0 (last versions) in
  fail? count <? current with
    Errors.with_ctx (Errors.with_ctx (Errors.mk ek_conflict "database schema is newer than migration set")
      "current_version" (pretty current)) "migration_count" (pretty count);
  Ok current.

Section Runner.
Context {S : Type} (run : string -> S -> Result unit * S) (faults : nat -> option Error).
Context (others : nat -> MigState S -> MigState S).
Notation MigDb := (Sqlite.Db (MigState S)).
#[local] Notation call := (Sqlite.call faults).
#[local] Notation step_only := (Sqlite.step_only faults).

Definition no_table : Error := Errors.storage "no such table: schema_versions".
Definition read_applied_versions : MigDb (list Z) :=
  Sqlite.select faults (fun t => match mg_versions t with Some rows => Ok (applied_versions rows) | None => Err no_table end).
(** [recorded_migration_name]: prepare, bind, step. *)
Definition recorded_migration_name (version : Z) : MigDb (option string) :=
  db! _ := step_only in
  db! _ := step_only in
  Sqlite.select faults (fun t => match mg_versions t with
    | Some rows => Ok (snd <$> find (fun r => fst r =? version) rows)
    | None => Err no_table end).
Definition run_sql (sql : string) : MigDb unit :=
  call (fun _ t => let '(r, s) := run sql (mg_schema t) in (r, mkMigState (mg_versions t) s)).
Definition create_versions : MigDb unit :=
  call (fun _ t => (Ok tt, mkMigState (Some (default [] (mg_versions t))) (mg_schema t))).
Definition duplicate_version : Error := Errors.storage "sqlite statement step failed".
Definition insert_version (m : Migration) (t : MigState S) : Result unit * MigState S :=
  match mg_versions t with
  | None => (Err no_table, t)
  | Some rows =>
      if bool_decide (mg_version m ∈ map fst rows) then (Err duplicate_version, t)
      else (Ok tt, mkMigState (Some (rows ++ [(mg_version m, mg_name m)])) (mg_schema t))
  end.
Definition record_migration (m : Migration) : MigDb unit :=
  db! _ := step_only in
  db! _ := step_only in
  call (fun _ => insert_version m).

Definition apply_body (m : Migration) (count : Z) : MigDb bool :=
  db! versions := read_applied_versions in
  db! _ := lift (validate_applied_versions versions count) in
  db! name := recorded_migration_name (mg_version m) in
  match name with
  | Some recorded =>
      if bool_decide (recorded <> mg_name m)
      then failD (Errors.with_ctx (Errors.mk ek_conflict "migration version was applied with a different name")
                    "recorded_name" recorded)
      else retD false
  | None =>
      db! _ := run_sql (mg_sql m) in
      db! _ := record_migration m in
      retD true
  end.
Definition apply_migration (m : Migration) (count : Z) : MigDb bool := fun c =>
  match transaction faults (apply_body m count) c with
  | (Err e, c) => (Err (attach_migration_context e m), c)
  | r => r
  end.

(** What other processes have committed by now. *)
Definition interfere : MigDb unit :=
  fun c => (Ok tt, mkConn (others (cn_calls c) (cn_tables c)) (cn_saved c) (cn_calls c)).
Fixpoint apply_all (ms : list Migration) (count : Z) (report : MigrationReport) : MigDb MigrationReport :=
  match ms with
  | [] => retD report
  | m :: ms =>
      if mg_version m <=? rp_current report then apply_all ms count report
      else
        db! _ := interfere in
        db! applied := apply_migration m count in
        apply_all ms count (mkReport (rp_previous report) (mg_version m)
          (if applied then rp_applied report ++ [mg_version m] else rp_applied report))
  end.
Definition run_migrations (ms : list Migration) : MigDb MigrationReport :=
  db! _ := lift (validate_migration_list ms) in
  db! _ := create_versions in
  db! _ := interfere in
  db! versions := read_applied_versions in
  db! current := lift (validate_applied_versions versions (Z.of_nat (length ms))) in
  apply_all ms (Z.of_nat (length ms)) (mkReport current current []).
End Runner.

(** ** Migration files *)
Definition kMigrationFileVersionWidth : nat := 4.
Definition kMaxMigrationFileBytes : Z := 8 * 1024 * 1024.
Definition invalid_migration_file (message path : string) : Error :=
  Errors.with_ctx (Errors.invalid_argument message) "path" path.
Definition is_digit (c : ascii) : bool := (48 <=? code c) && (code c <=? 57).
Definition digits_value (s : bytes) : Z := fold_left (fun v c => v * 10 + (code c - 48)) s 0.
Definition parse_migration_file_version (text : bytes) (path : string) : Result Z :=
  fail? negb ((length text =? kMigrationFileVersionWidth)%nat && forallb is_digit text) with
    invalid_migration_file "migration filename version must be four digits" path;
  fail? digits_value text <=? 0 with invalid_migration_file "migration filename version must be positive" path;
  Ok (digits_value text).
(** The version and the name in a file name [0001-name.sql]. *)
Fixpoint position (c : ascii) (s : bytes) : option nat :=
  match s with [] => None | d :: s => if decide (d = c) then Some 0%nat else S <$> position c s end.
Definition ends_with (s suffix : bytes) : bool :=
  (length suffix <=? length s)%nat && bool_decide (drop (length s - length suffix) s = suffix).
Definition parse_migration_file_name (filename : bytes) (path : string) : Result (Z * string) :=
  fail? negb (ends_with filename (lit ".sql")) with invalid_migration_file "migration file must use the .sql extension" path;
  let stem := take (length filename - 4) filename in
  match position (byte_of 45) stem with
  | Some separator =>
      fail? negb (separator =? kMigrationFileVersionWidth)%nat || (separator + 1 =? length stem)%nat with
        invalid_migration_file "migration filename must match 0001-name.sql" path;
      let? version := parse_migration_file_version (take separator stem) path in
      Ok (version, str (drop (separator + 1) stem))
  | None => Err (invalid_migration_file "migration filename must match 0001-name.sql" path)
  end.

(** A regular file of the directory, with what [file_size] and reading it give. *)
Record MigrationFile := mkMigrationFile {
  mf_path : string; mf_name : bytes; mf_regular : bool; mf_size : Result Z; mf_content : Result string }.
Definition load_migration_file (f : MigrationFile) : Result Migration :=
  let? (version, name) := parse_migration_file_name (mf_name f) (mf_path f) in
  let? size := mf_size f in
  fail? kMaxMigrationFileBytes <? size with
    Errors.with_ctx (Errors.with_ctx (Errors.with_ctx (Errors.invalid_argument "migration file exceeds size limit")
      "path" (mf_path f)) "size" (pretty size)) "max_bytes" (pretty kMaxMigrationFileBytes);
  let? sql := mf_content f in
  Ok (mkMigration version name sql).
(** The entries of the directory, in the order it is read in; an error is one of inspecting
    an entry or of moving on to it. *)
Fixpoint load_files (entries : list (Result MigrationFile)) : Result (list Migration) :=
  match entries with
  | [] => Ok []
  | Err e :: _ => Err e
  | Ok f :: entries =>
      if mf_regular f then
        let? m := load_migration_file f in
        let? ms := load_files entries in Ok (m :: ms)
      else load_files entries
  end.
Definition older (a b : Migration) : Prop := mg_version a <= mg_version b.
#[export] Instance older_dec a b : Decision (older a b).
Proof. unfold older. apply _. Defined.
(** [opened] is what inspecting and opening the directory gives. *)
Definition load_migrations_from_directory (directory : string) (opened : Result (list (Result MigrationFile))) : Result (list Migration) :=
  fail? bool_decide (directory = ""%string) with Errors.invalid_argument "migration directory must not be empty";
  let? entries := opened in
  let? migrations := load_files entries in
  fail? bool_decide (migrations = []) with
    Errors.with_ctx (Errors.invalid_argument "migration directory contains no migration files") "path" directory;
  let migrations := merge_sort older migrations in
  let? _ := validate_migration_list migrations in
  Ok migrations.

Definition run_migrations_from_directory {S : Type} (run : string -> S -> Result unit * S) (faults : nat -> option Error)
  (others : nat -> MigState S -> MigState S) (directory : string) (opened : Result (list (Result MigrationFile))) :
  Sqlite.Db (MigState S) MigrationReport :=
  db! migrations := lift (load_migrations_from_directory directory opened) in
  run_migrations run faults others migrations.

(** ** Facts *)
Lemma validate_from_spec lo ms : validate_from lo ms = Ok tt -> map mg_version ms = seqZ lo (Z.of_nat (length ms)).
Proof.
  revert lo. induction ms as [|m ms IH]; intros lo; simpl; [done|].
  destruct (mg_version m <=? 0); [discriminate|]. destruct (negb (mg_version m =? lo)) eqn:Hv; [discriminate|].
  repeat case_bool_decide; try discriminate. intros Hms. rewrite (IH _ Hms).
  rewrite Nat2Z.inj_succ, (seqZ_cons lo (Z.succ _)) by lia. f_equal; [lia|]. f_equal; lia.
Qed.
Lemma contiguous_ok lo vs : contiguous_from lo vs = Ok tt <-> vs = seqZ lo (Z.of_nat (length vs)).
Proof.
  revert lo. induction vs as [|v vs IH]; intros lo; cbn [contiguous_from length]; [done|].
  rewrite Nat2Z.inj_succ, (seqZ_cons lo (Z.succ _)) by lia. rewrite Z.pred_succ.
  destruct (Z.eqb_spec v lo) as [->|Hv]; simpl.
  - rewrite IH. replace (lo + 1) with (Z.succ lo) by lia. split; [by intros <-|]. by intros [= <-].
  - split; [discriminate|]. intros [= ? _]. done.
Qed.
Lemma seqZ_last lo n : 0 < n -> last (seqZ lo n) = Some (lo + n - 1).
Proof.
  intros Hn. rewrite <- (Z2Nat.id n) by lia. destruct (Z.to_nat n) as [|k] eqn:Hk; [lia|].
  rewrite Nat2Z.inj_succ, <- Z.add_1_r, seqZ_app by lia. rewrite last_app. cbn. f_equal. lia.
Qed.

Section Progress.
Context {S : Type} (run : string -> S -> Result unit * S) (base : S) (ms : list Migration).

(** Running migrations in order; [None] when one fails. *)
Fixpoint run_list (ms : list Migration) (s : S) : option S :=
  match ms with
  | [] => Some s
  | m :: ms => match run (mg_sql m) s with (Ok _, s) => run_list ms s | (Err _, _) => None end
  end.
Definition version_row (m : Migration) : Z * string := (mg_version m, mg_name m).
(** The first [k] migrations were applied, each once and in order, and recorded. *)
Record migrated (k : nat) (t : MigState S) : Prop := {
  mi_bound : (k <= length ms)%nat;
  mi_rows : mg_versions t = Some (map version_row (take k ms)) \/ (k = 0%nat /\ mg_versions t = None);
  mi_schema : run_list (take k ms) base = Some (mg_schema t) }.

Lemma run_list_snoc l m s : run_list (l ++ [m]) s =
  match run_list l s with Some s => match run (mg_sql m) s with (Ok _, s) => Some s | _ => None end | None => None end.
Proof.
  revert s. induction l as [|x l IH]; intros s; simpl.
  - destruct (run (mg_sql m) s) as [[]]; done.
  - destruct (run (mg_sql x) s) as [[]]; [apply IH|done].
Qed.
Lemma migrated_next k t m s u :
  ms !! k = Some m -> migrated k t -> is_Some (mg_versions t) -> run (mg_sql m) (mg_schema t) = (Ok u, s) ->
  migrated (Datatypes.S k) (mkMigState (Some (default [] (mg_versions t) ++ [version_row m])) s).
Proof.
  intros Hm [Hb Hr Hs] Hsome Hrun. assert (Htake : take (Datatypes.S k) ms = take k ms ++ [m]) by (by apply take_S_r).
  split.
  - apply lookup_lt_Some in Hm. lia.
  - left. cbn [mg_versions]. destruct Hr as [->|[_ Hr]]; [|by rewrite Hr in Hsome; destruct Hsome].
    rewrite Htake, map_app. done.
  - rewrite Htake, run_list_snoc, Hs, Hrun. done.
Qed.

Context (Hvalid : validate_migration_list ms = Ok tt).
Lemma migration_version i m : ms !! i = Some m -> mg_version m = Z.of_nat i + 1.
Proof.
  intros Hi. assert (Hv : map mg_version ms !! i = Some (mg_version m)).
  { change (map mg_version ms) with (mg_version <$> ms). by rewrite list_lookup_fmap, Hi. }
  rewrite (validate_from_spec _ _ Hvalid) in Hv. apply lookup_seqZ in Hv as [-> _]. lia.
Qed.
Lemma recorded_versions k : (k <= length ms)%nat -> map fst (map version_row (take k ms)) = seqZ 1 (Z.of_nat k).
Proof.
  intros Hk. rewrite map_map. change (map (fun x => fst (version_row x)) (take k ms)) with (map mg_version (take k ms)).
  change (map mg_version (take k ms)) with (mg_version <$> take k ms). rewrite fmap_take.
  change (mg_version <$> ms) with (map mg_version ms). rewrite (validate_from_spec _ _ Hvalid).
  replace (Z.of_nat (length ms)) with (Z.of_nat k + Z.of_nat (length ms - k)) by lia.
  rewrite seqZ_app by lia. rewrite take_app_le, take_ge; rewrite ?length_seqZ; try lia. done.
Qed.
Lemma applied_sorted k : (k <= length ms)%nat ->
  applied_versions (map version_row (take k ms)) = seqZ 1 (Z.of_nat k).
Proof.
  intros Hk. unfold applied_versions. rewrite recorded_versions by done.
  apply (StronglySorted_unique Z.le).
  - apply StronglySorted_merge_sort; apply _.
  - generalize 1. induction k as [|k IH]; intros lo; [constructor|]. rewrite Nat2Z.inj_succ, seqZ_cons by lia.
    rewrite Z.pred_succ. constructor; [apply IH; lia|]. apply Forall_forall. intros x Hx%elem_of_seqZ. lia.
  - apply merge_sort_Permutation.
Qed.
Lemma applied_valid k count : (k <= length ms)%nat -> Z.of_nat k <= count ->
  validate_applied_versions (applied_versions (map version_row (take k ms))) count = Ok (Z.of_nat k).
Proof.
  intros Hk Hc. unfold validate_applied_versions. rewrite applied_sorted by done.
  rewrite (proj2 (contiguous_ok 1 _)) by (rewrite length_seqZ; f_equal; lia). cbn [result_bind].
  destruct k as [|k]; [simpl; by replace (count <? 0) with false by lia|].
  rewrite seqZ_last by lia. cbv [default from_option id]. rewrite (proj2 (Z.ltb_ge _ _)) by lia. f_equal. lia.
Qed.
Lemma find_recorded k i m : (k <= length ms)%nat -> ms !! i = Some m ->
  snd <$> find (fun r => fst r =? mg_version m) (map version_row (take k ms)) = if decide (i < k)%nat then Some (mg_name m) else None.
Proof.
  intros Hk Hi. case_decide as Hlt.
  - destruct (find _ _) as [r|] eqn:Hf.
    + apply find_some in Hf as [Hin Heq]. apply in_map_iff in Hin as (x & <- & Hx). simpl in *.
      apply list_elem_of_In, list_elem_of_lookup in Hx as [j Hj]. apply lookup_take_Some in Hj as [Hj Hjk].
      pose proof (migration_version _ _ Hi). pose proof (migration_version _ _ Hj).
      assert (i = j) by lia. subst. rewrite Hi in Hj. by injection Hj as ->.
    + exfalso. apply (find_none _ _) with (x := version_row m) in Hf; [simpl in Hf; by rewrite Z.eqb_refl in Hf|].
      apply in_map, list_elem_of_In, (list_elem_of_lookup_2 _ i). by apply lookup_take_Some.
  - destruct (find _ _) as [r|] eqn:Hf; [|done]. exfalso.
    apply find_some in Hf as [Hin Heq]. apply in_map_iff in Hin as (x & <- & Hx). simpl in *.
    apply list_elem_of_In, list_elem_of_lookup in Hx as [j Hj]. apply lookup_take_Some in Hj as [Hj Hjk].
    pose proof (migration_version _ _ Hi). pose proof (migration_version _ _ Hj). lia.
Qed.
Lemma unrecorded k m : (k <= length ms)%nat -> ms !! k = Some m -> mg_version m ∉ map fst (map version_row (take k ms)).
Proof.
  intros Hk Hm. rewrite recorded_versions by done. rewrite elem_of_seqZ, (migration_version _ _ Hm). lia.
Qed.

Context (faults : nat -> option Error) (others : nat -> MigState S -> MigState S).

(** What the body of [apply_migration] does when it succeeds. *)
Definition applied (m : Migration) (t : MigState S) (b : bool) (t' : MigState S) : Prop :=
  exists rows, mg_versions t = Some rows /\
  match snd <$> find (fun r => fst r =? mg_version m) rows with
  | Some name => name = mg_name m /\ b = false /\ t' = t
  | None => b = true /\ mg_version m ∉ map fst rows /\ exists u s, run (mg_sql m) (mg_schema t) = (Ok u, s) /\
      t' = mkMigState (Some (rows ++ [version_row m])) s
  end.
Lemma does_apply m count : does (apply_body run faults m count) (applied m).
Proof.
  eapply does_weaken.
  - apply does_bindD; [apply does_select|]. intros versions.
    apply does_after; [destruct (validate_applied_versions versions count); [by eapply does_weaken; [apply does_retD|]; intros ??? [_ ->]|apply does_fail]|].
    intros current. apply does_bindD.
    + apply does_after; [apply does_step|]. intros _. apply does_after; [apply does_step|]. intros _. apply does_select.
    + intros name. instantiate (1 := fun name t b t' => match name with
        | Some r => r = mg_name m /\ b = false /\ t' = t
        | None => b = true /\ exists u s, run (mg_sql m) (mg_schema t) = (Ok u, s) /\
            exists rows, mg_versions t = Some rows /\ mg_version m ∉ map fst rows /\ t' = mkMigState (Some (rows ++ [version_row m])) s
        end). cbv beta. destruct name as [r|].
      * case_bool_decide as Hr; [apply does_fail|].
        eapply does_weaken; [apply does_retD|]. by intros t b t' [-> ->].
      * eapply does_weaken.
        -- apply does_bindD; [apply does_call|]. intros u. apply does_bindD.
           ++ do 2 (apply does_after; [apply does_step|]; intros _). apply does_call.
           ++ intros u'. apply does_retD.
        -- intros t b t' (u & t1 & (n & Hrun) & u' & t2 & (n' & Hins) & -> & ->). split; [done|].
           destruct (run (mg_sql m) (mg_schema t)) as [r s]. injection Hrun as -> <-.
           exists u, s. split; [done|]. unfold insert_version in Hins. cbn [mg_versions mg_schema] in Hins.
           destruct (mg_versions t) as [rows|]; [|discriminate]. case_bool_decide as Hin; [discriminate|].
           injection Hins as _ <-. by exists rows.
  - intros t b t' (versions & t1 & [Hv ->] & name & t2 & [Hname ->] & Hbody).
    unfold applied. destruct (mg_versions t) as [rows|]; [|discriminate]. exists rows. split; [done|].
    injection Hname as <-. destruct (snd <$> find _ rows); [exact Hbody|].
    destruct Hbody as (-> & u & s & Hrun & rows' & [= <-] & Hin & ->). split; [done|]. split; [done|]. by exists u, s.
Qed.

Lemma applied_migrated k i m t b t' :
  ms !! i = Some m -> (i <= k)%nat -> migrated k t -> applied m t b t' ->
  migrated (max k (Datatypes.S i)) t' /\ b = bool_decide (i = k).
Proof.
  intros Hi Hik Hmig (rows & Hrows & Happ). pose proof Hmig as [Hb Hr _].
  destruct Hr as [Hr|[_ Hr]]; [|congruence]. rewrite Hr in Hrows. injection Hrows as <-.
  rewrite (find_recorded k i m Hb Hi) in Happ. case_decide as Hlt.
  - destruct Happ as (_ & -> & ->). rewrite Nat.max_l, bool_decide_eq_false_2 by lia. done.
  - assert (i = k) as -> by lia. destruct Happ as (-> & _ & u & s & Hrun & ->).
    rewrite Nat.max_r, bool_decide_eq_true_2 by lia. split; [|done].
    pose proof (migrated_next k t m s u Hi Hmig) as Hnext. rewrite Hr in Hnext. apply Hnext; [done|exact Hrun].
Qed.

Lemma atomic_apply m count : atomic (apply_migration run faults m count) (applied m).
Proof.
  intros c Hc. pose proof (atomic_transaction faults _ _ (does_apply m count) c Hc) as Hat. unfold apply_migration.
  by destruct (transaction _ _ c) as [[b|e] c2].
Qed.
Definition interfered (c : Conn (MigState S)) : Conn (MigState S) :=
  mkConn (others (cn_calls c) (cn_tables c)) (cn_saved c) (cn_calls c).
Lemma apply_all_cons m rest count report c : rp_current report < mg_version m ->
  apply_all run faults others (m :: rest) count report c =
  let '(r, c2) := apply_migration run faults m count (interfered c) in
  match r with
  | Ok b => apply_all run faults others rest count (mkReport (rp_previous report) (mg_version m)
      (if b then rp_applied report ++ [mg_version m] else rp_applied report)) c2
  | Err e => (Err e, c2)
  end.
Proof.
  intros Hlt. cbn [apply_all]. rewrite (proj2 (Z.leb_gt _ _)) by exact Hlt. unfold bindD, interfere, interfered.
  by destruct (apply_migration _ _ _ _ _) as [[b|e] c2].
Qed.

(** The other processes run these migrations too: they never undo any. *)
Definition cooperative : Prop := forall n t k, migrated k t -> exists k', (k <= k')%nat /\ migrated k' (others n t).

Lemma apply_all_progress rest i k report c :
  cooperative -> rest = drop i ms -> rp_current report = Z.of_nat i -> (i <= k)%nat ->
  cn_saved c = None -> migrated k (cn_tables c) ->
  exists k', (k <= k')%nat /\ migrated k' (cn_tables (snd (apply_all run faults others rest (Z.of_nat (length ms)) report c))) /\
    cn_saved (snd (apply_all run faults others rest (Z.of_nat (length ms)) report c)) = None /\
    match fst (apply_all run faults others rest (Z.of_nat (length ms)) report c) with
    | Ok report' => rp_previous report' = rp_previous report /\ rp_current report' = Z.of_nat (length ms) /\ k' = length ms /\
        exists more, rp_applied report' = rp_applied report ++ more /\ Forall (fun v => Z.of_nat k < v) more
    | Err _ => True
    end.
Proof.
  intros Hco. revert i k report c. induction rest as [|m rest IH]; intros i k report c Hrest Hcur Hik Hc Hmig.
  - exists k. simpl. split; [lia|]. split; [exact Hmig|]. split; [exact Hc|].
    assert (Hi : (length ms <= i)%nat).
    { apply (f_equal length) in Hrest. rewrite length_drop in Hrest. simpl in Hrest. lia. }
    pose proof (mi_bound _ _ Hmig). split; [done|]. split; [lia|]. split; [lia|]. exists []. by rewrite app_nil_r.
  - assert (Hi : ms !! i = Some m).
    { rewrite <- (Nat.add_0_r i), <- lookup_drop, <- Hrest. done. }
    assert (Hdrop : rest = drop (Datatypes.S i) ms).
    { rewrite <- Nat.add_1_r, <- drop_drop, <- Hrest. done. }
    pose proof (migration_version _ _ Hi) as Hv. rewrite apply_all_cons by lia.
    destruct (Hco (cn_calls c) _ _ Hmig) as (k1 & Hk1 & Hmig1).
    pose proof (atomic_apply m (Z.of_nat (length ms)) (interfered c) Hc) as Hat.
    destruct (apply_migration _ _ _ _ (interfered c)) as [[b|e] c2].
    + destruct Hat as [Happ Hs]. destruct (applied_migrated k1 i m _ _ _ Hi ltac:(lia) Hmig1 Happ) as [Hmig2 Hb].
      destruct (IH (Datatypes.S i) (max k1 (Datatypes.S i))
        (mkReport (rp_previous report) (mg_version m) (if b then rp_applied report ++ [mg_version m] else rp_applied report)) c2)
        as (k' & Hk' & Hm' & Hs' & Hres); [exact Hdrop|simpl; lia|lia|exact Hs|exact Hmig2|].
      exists k'. split; [lia|]. split; [exact Hm'|]. split; [exact Hs'|].
      destruct (fst (apply_all _ _ _ _ _ _ c2)) as [report'|e]; [|exact I]. destruct Hres as (Hp & Hcur' & Hk'' & more & Hmore & Hgt).
      split; [exact Hp|]. split; [exact Hcur'|]. split; [exact Hk''|]. simpl in Hmore.
      assert (Hgt' : Forall (fun v => Z.of_nat k < v) more).
      { eapply Forall_impl; [exact Hgt|]. simpl. intros v Hv'. lia. }
      destruct b.
      * exists (mg_version m :: more). rewrite Hmore, <- app_assoc. split; [done|]. constructor; [|exact Hgt'].
        symmetry in Hb. apply bool_decide_eq_true in Hb. lia.
      * by exists more.
    + destruct Hat as [Ht Hs]. exists k1. simpl. rewrite Ht. split; [lia|]. split; [exact Hmig1|]. by split.
Qed.

(** What was applied before is skipped. *)
Lemma apply_all_skip k report c : (k <= length ms)%nat -> rp_current report = Z.of_nat k ->
  apply_all run faults others ms (Z.of_nat (length ms)) report c =
  apply_all run faults others (drop k ms) (Z.of_nat (length ms)) report c.
Proof.
  intros Hk Hcur. generalize (Z.of_nat (length ms)). intros count.
  assert (Hskip : forall l rest, (forall m, In m l -> mg_version m <= rp_current report) ->
    apply_all run faults others (l ++ rest) count report c = apply_all run faults others rest count report c).
  { induction l as [|m l IH]; intros rest Hl; [done|]. simpl. rewrite (proj2 (Z.leb_le _ _)) by (apply Hl; by left).
    apply IH. intros x Hx. apply Hl. by right. }
  rewrite <- (take_drop k ms) at 1. apply Hskip. intros m Hm.
  apply list_elem_of_In, list_elem_of_lookup in Hm as [j Hj]. apply lookup_take_Some in Hj as [Hj Hjk].
  rewrite (migration_version _ _ Hj). lia.
Qed.
End Progress.


Section Completion.
Context {S : Type} (run : string -> S -> Result unit * S) (base : S) (ms : list Migration).
Context (Hvalid : validate_migration_list ms = Ok tt) (Hruns : is_Some (run_list run ms base)).
Context (faults : nat -> option Error) (calm : forall n, faults n = None).
Notation alone := (fun (_ : nat) (t : MigState S) => t).

Lemma next_runs k m t : ms !! k = Some m -> migrated run base ms k t ->
  exists u s, run (mg_sql m) (mg_schema t) = (Ok u, s).
Proof.
  intros Hm [_ _ Hs]. destruct Hruns as [s' Hall].
  assert (Hsplit : ms = (take k ms ++ [m]) ++ drop (Datatypes.S k) ms).
  { rewrite <- take_S_r by exact Hm. by rewrite take_drop. }
  assert (Hpre : is_Some (run_list run (take k ms ++ [m]) base)).
  { rewrite Hsplit in Hall. revert Hall. generalize (drop (Datatypes.S k) ms) (take k ms ++ [m]) base. clear.
    intros l2 l1. induction l1 as [|x l1 IH]; intros s; simpl; [by eexists|]. destruct (run (mg_sql x) s) as [[]]; [apply IH|done]. }
  rewrite run_list_snoc, Hs in Hpre. destruct (run (mg_sql m) (mg_schema t)) as [[u|e] s]; [by eexists _, _|by destruct Hpre].
Qed.
Lemma apply_succeeds k m t : ms !! k = Some m -> migrated run base ms k t -> is_Some (mg_versions t) ->
  succeeds (apply_body run faults m (Z.of_nat (length ms))) t.
Proof.
  intros Hm Hmig [rows Hrows]. destruct (next_runs k m t Hm Hmig) as (u & s & Hrun).
  pose proof Hmig as [Hb Hr _]. destruct Hr as [Hr|[_ Hr]]; [|congruence]. rewrite Hr in Hrows. injection Hrows as <-.
  unfold apply_body, read_applied_versions.
  eapply succeeds_bind; [by apply (succeeds_call _ calm); intros n; rewrite Hr; eauto|apply does_select|].
  intros versions t1 [Hv ->]. rewrite Hr in Hv. injection Hv as <-.
  rewrite (applied_valid ms Hvalid k) by (done || lia). cbn [lift].
  eapply succeeds_bind; [apply succeeds_ret|apply does_retD|]. intros current t1 [_ ->].
  eapply succeeds_bind; [|do 2 (apply does_after; [apply does_step|]; intros _); apply does_select|].
  - do 2 apply (succeeds_after _ calm). apply (succeeds_call _ calm). intros n. rewrite Hr. eauto.
  - intros name t1 [Hname ->]. rewrite Hr, (find_recorded ms Hvalid k k m Hb Hm), decide_False in Hname by lia.
    injection Hname as <-. eapply succeeds_bind; [by apply (succeeds_call _ calm); intros n; rewrite Hrun; eauto|apply does_call|].
    intros u' t1 [n Hn]. rewrite Hrun in Hn. injection Hn as _ <-.
    eapply succeeds_bind; [|do 2 (apply does_after; [apply does_step|]; intros _); apply does_call|intros; apply succeeds_ret].
    do 2 apply (succeeds_after _ calm). apply (succeeds_call _ calm). intros n'. unfold insert_version. cbn [mg_versions].
    rewrite Hr, bool_decide_eq_false_2; [by eexists _, _|]. by apply unrecorded.
Qed.
Lemma apply_all_succeeds rest k report c :
  rest = drop k ms -> rp_current report = Z.of_nat k -> cn_saved c = None -> migrated run base ms k (cn_tables c) ->
  is_Some (mg_versions (cn_tables c)) ->
  exists c', apply_all run faults alone rest (Z.of_nat (length ms)) report c =
    (Ok (mkReport (rp_previous report) (Z.of_nat (length ms))
      (rp_applied report ++ seqZ (Z.of_nat k + 1) (Z.of_nat (length ms - k)))), c').
Proof.
  revert k report c. induction rest as [|m rest IH]; intros k report c Hrest Hcur Hc Hmig Hsome.
  - assert (Hk : (length ms <= k)%nat).
    { apply (f_equal length) in Hrest. rewrite length_drop in Hrest. simpl in Hrest. lia. }
    pose proof (mi_bound _ _ _ _ _ Hmig). exists c. simpl. replace (length ms - k)%nat with 0%nat by lia.
    change (seqZ _ (Z.of_nat 0)) with (@nil Z). rewrite app_nil_r. destruct report. simpl in *. unfold retD.
    assert (Hlen : k = length ms) by (by apply Nat.le_antisymm). subst k. rewrite Hcur. done.
  - assert (Hm : ms !! k = Some m) by (rewrite <- (Nat.add_0_r k), <- lookup_drop, <- Hrest; done).
    assert (Hdrop : rest = drop (Datatypes.S k) ms) by (rewrite <- Nat.add_1_r, <- drop_drop, <- Hrest; done).
    pose proof (migration_version ms Hvalid _ _ Hm) as Hv. rewrite apply_all_cons by lia.
    change (interfered alone c) with (mkConn (cn_tables c) (cn_saved c) (cn_calls c)).
    set (c1 := mkConn _ _ _).
    destruct (succeeds_transaction faults calm _ _ (cn_tables c) (does_apply run faults m (Z.of_nat (length ms)))
      (apply_succeeds k m _ Hm Hmig Hsome) c1 eq_refl) as (b & c2 & Htx).
    pose proof (atomic_transaction faults _ _ (does_apply run faults m (Z.of_nat (length ms))) c1 Hc) as Hat.
    unfold apply_migration. rewrite Htx in Hat |- *. destruct Hat as [Happ Hs].
    destruct (applied_migrated run base ms Hvalid k k m _ _ _ Hm (le_n k) Hmig Happ) as [Hmig2 Hb].
    rewrite bool_decide_eq_true_2 in Hb by done. subst b. rewrite Nat.max_r in Hmig2 by lia.
    destruct (IH (Datatypes.S k) (mkReport (rp_previous report) (mg_version m) (rp_applied report ++ [mg_version m])) c2) as [c' Hc'];
      [exact Hdrop|simpl; lia|exact Hs|exact Hmig2| |].
    + destruct Hmig2 as [_ [Hr|[? _]] _]; [by rewrite Hr|lia].
    + exists c'. rewrite Hc'. cbn [rp_previous rp_applied]. apply lookup_lt_Some in Hm. do 3 f_equal. rewrite <- app_assoc. f_equal.
      replace (Z.of_nat (length ms - k)) with (Z.succ (Z.of_nat (length ms - Datatypes.S k))) by lia.
      rewrite (seqZ_cons (Z.of_nat k + 1)), Z.pred_succ, Hv by lia. cbn [app]. f_equal. f_equal. rewrite Nat2Z.inj_succ. lia.
Qed.
End Completion.


Lemma position_spec c s i : position c s = Some i <->
  exists rest, s = take i s ++ c :: rest /\ length (take i s) = i /\ c ∉ take i s.
Proof.
  revert i. induction s as [|d s IH]; intros i; simpl.
  - split; [discriminate|]. intros (rest & H & _). by rewrite take_nil in H.
  - case_decide as Hd.
    + subst d. split.
      * intros [= <-]. exists s. split_and!; [done|done|apply not_elem_of_nil].
      * intros (rest & H & _ & Hn). destruct i as [|i]; [done|]. simpl in Hn. set_solver.
    + split.
      * intros H. destruct (position c s) as [j|] eqn:Hj; [|discriminate]. injection H as <-.
        destruct (proj1 (IH j) eq_refl) as (rest & Hs & Hl & Hn). exists rest. simpl.
        split_and!; [by rewrite <- Hs|by rewrite Hl|set_solver].
      * intros (rest & H & Hl & Hn). destruct i as [|i]; [injection H as Hd' _; by subst|]. simpl in *.
        rewrite (proj2 (IH i)); [done|]. exists rest. injection H as H. injection Hl as Hl.
        split_and!; [exact H|exact Hl|set_solver].
Qed.

(** ** Properties *)
(** C27: However often the migrations are run, by however many processes, with whatever
    failures in between, the database is always the base schema with the first [k]
    migrations applied, each exactly once and in order, and exactly these recorded with
    their names; a run never goes back, and one that reports success has applied them all. *)
Theorem migrations_exactly_once {S} (run : string -> S -> Result unit * S) base ms faults others k c :
  validate_migration_list ms = Ok tt -> cooperative run base ms others ->
  cn_saved c = None -> migrated run base ms k (cn_tables c) ->
  let '(r, c') := run_migrations run faults others ms c in
  exists k', (k <= k')%nat /\ migrated run base ms k' (cn_tables c') /\ cn_saved c' = None /\
  match r with
  | Ok report => k' = length ms /\ rp_current report = Z.of_nat (length ms) /\
      Forall (fun v => rp_previous report < v) (rp_applied report)
  | Err _ => True
  end.
Proof.
  intros Hvalid Hco Hc Hmig. unfold run_migrations. rewrite Hvalid. cbn [lift]. unfold bindD at 1, retD.
  unfold bindD at 1, create_versions, Sqlite.call. destruct (faults (cn_calls c)) as [e|]; [by exists k|].
  set (t0 := mkMigState (Some (default [] (mg_versions (cn_tables c)))) (mg_schema (cn_tables c))).
  assert (Hmig0 : migrated run base ms k t0).
  { destruct Hmig as [Hb Hr Hs]. split; [exact Hb| |exact Hs]. left. unfold t0. simpl. by destruct Hr as [->|[-> ->]]. }
  unfold bindD at 1, interfere. cbn [cn_tables cn_saved cn_calls].
  destruct (Hco (Datatypes.S (cn_calls c)) _ _ Hmig0) as (k1 & Hk1 & Hmig1).
  assert (Hstop : forall e n, exists k', (k <= k')%nat /\ migrated run base ms k' (cn_tables (mkConn (others (Datatypes.S (cn_calls c)) t0) (cn_saved c) n)) /\
    cn_saved c = None /\ match Err (A := MigrationReport) e with Ok _ => k' = length ms | Err _ => True end) by (intros; exists k1; by split).
  unfold bindD at 1, read_applied_versions, Sqlite.select, Sqlite.call. cbn [cn_tables cn_saved cn_calls].
  destruct (faults (Datatypes.S (cn_calls c))) as [e|]; [exact (Hstop e _)|].
  pose proof Hmig1 as [Hb1 Hr1 _]. destruct (mg_versions (others _ t0)) as [rows|]; [|exact (Hstop no_table _)].
  destruct Hr1 as [[= ->]|[_ ?]]; [|done].
  rewrite (applied_valid _ Hvalid k1) by (done || lia). cbn [lift]. unfold bindD at 1, retD.
  set (c2 := mkConn _ _ _). set (report := mkReport _ _ []).
  destruct (apply_all_progress run base ms Hvalid faults others (drop k1 ms) k1 k1 report c2) as (k' & Hk' & Hm & Hs & Hres);
    [exact Hco|done|done|done|exact Hc|exact Hmig1|].
  assert (Hskip : apply_all run faults others ms (Z.of_nat (length ms)) report c2 =
    apply_all run faults others (drop k1 ms) (Z.of_nat (length ms)) report c2).
  { by apply apply_all_skip. }
  rewrite Hskip. destruct (apply_all _ _ _ (drop k1 ms) _ _ _) as [r c3]. simpl in *.
  exists k'. split; [lia|]. split; [exact Hm|]. split; [exact Hs|]. destruct r as [report'|e]; [|done].
  destruct Hres as (Hp & Hcur & Hlen & more & Happ & Hgt). split; [exact Hlen|]. split; [exact Hcur|].
  rewrite Hp, Happ. simpl. exact Hgt.
Qed.

(** Migrating terminates with success whenever it can: without a fault and without another
    process, if the migrations run one after the other on the base schema, the runner
    applies exactly the missing ones, in order, and reports them; run again, it applies none. *)
Theorem migrations_complete {S} (run : string -> S -> Result unit * S) base ms faults k c :
  validate_migration_list ms = Ok tt -> is_Some (run_list run ms base) -> (forall n, faults n = None) ->
  cn_saved c = None -> migrated run base ms k (cn_tables c) ->
  exists c', run_migrations run faults (fun _ t => t) ms c =
    (Ok (mkReport (Z.of_nat k) (Z.of_nat (length ms)) (seqZ (Z.of_nat k + 1) (Z.of_nat (length ms - k)))), c').
Proof.
  intros Hvalid Hruns Hcalm Hc Hmig. unfold run_migrations. rewrite Hvalid. cbn [lift]. unfold bindD at 1, retD.
  unfold bindD at 1, create_versions, Sqlite.call. rewrite Hcalm.
  set (t0 := mkMigState (Some (default [] (mg_versions (cn_tables c)))) (mg_schema (cn_tables c))).
  assert (Hr0 : mg_versions t0 = Some (map version_row (take k ms))).
  { destruct Hmig as [_ Hr _]. unfold t0. simpl. by destruct Hr as [->|[-> ->]]. }
  assert (Hmig0 : migrated run base ms k t0).
  { destruct Hmig as [Hb Hr Hs]. split; [exact Hb|by left|exact Hs]. }
  unfold bindD at 1, interfere. cbn [cn_tables cn_saved cn_calls].
  unfold bindD at 1, read_applied_versions, Sqlite.select, Sqlite.call. cbn [cn_tables cn_saved cn_calls].
  rewrite Hcalm, Hr0. pose proof (mi_bound _ _ _ _ _ Hmig) as Hb.
  rewrite (applied_valid ms Hvalid k) by (done || lia). cbn [lift]. unfold bindD at 1, retD.
  assert (Hskip : forall report c0, rp_current report = Z.of_nat k ->
    apply_all run faults (fun _ t => t) ms (Z.of_nat (length ms)) report c0 =
    apply_all run faults (fun _ t => t) (drop k ms) (Z.of_nat (length ms)) report c0) by (intros; by apply apply_all_skip).
  rewrite Hskip by done.
  destruct (apply_all_succeeds run base ms Hvalid Hruns faults Hcalm (drop k ms) k (mkReport (Z.of_nat k) (Z.of_nat k) [])
    (mkConn t0 (cn_saved c) (Datatypes.S (Datatypes.S (cn_calls c))))) as [c' Hc']; [done|done|exact Hc|exact Hmig0|unfold t0; by eexists|].
  exists c'. rewrite Hc'. done.
Qed.

(** A migration file is taken exactly when its name is four decimal digits, a hyphen, a
    name and [.sql]; its version is the digits' value, which is positive, and its name is
    everything between the hyphen and the extension. *)
Theorem migration_file_name_exact filename path version name :
  parse_migration_file_name filename path = Ok (version, name) <->
  exists digits, filename = digits ++ lit "-" ++ lit name ++ lit ".sql" /\ length digits = 4%nat /\
    forallb is_digit digits = true /\ version = digits_value digits /\ 0 < version /\ name <> ""%string.
Proof.
  assert (Hhyphen : lit "-" = [byte_of 45]) by reflexivity.
  assert (Hdigit : forall ds, forallb is_digit ds = true -> byte_of 45 ∉ ds).
  { intros ds Hd Hin. apply list_elem_of_In in Hin. by apply (proj1 (forallb_forall _ _) Hd) in Hin. }
  unfold parse_migration_file_name, ends_with. split.
  - destruct (negb _) eqn:Hext; [discriminate|]. apply negb_false_iff, andb_true_iff in Hext as [Hlen Hext].
    apply bool_decide_eq_true in Hext. apply Nat.leb_le in Hlen. change (length (lit ".sql")) with 4%nat in *.
    set (stem := take _ filename). assert (Hf : filename = stem ++ lit ".sql") by (unfold stem; rewrite <- Hext; symmetry; apply take_drop).
    destruct (position _ stem) as [i|] eqn:Hp; [|discriminate]. apply position_spec in Hp as (rest & Hs & Hl & Hn).
    destruct (negb _ || _) eqn:Hg; [discriminate|]. apply orb_false_iff in Hg as [Hi Hg].
    apply negb_false_iff, Nat.eqb_eq in Hi. apply Nat.eqb_neq in Hg. unfold kMigrationFileVersionWidth in Hi. subst i.
    unfold parse_migration_file_version. destruct (negb _) eqn:Hd; [discriminate|].
    apply negb_false_iff, andb_true_iff in Hd as [_ Hd]. destruct (digits_value _ <=? 0) eqn:Hv; [discriminate|].
    intros [= <- <-]. exists (take 4 stem). apply Z.leb_gt in Hv.
    assert (Hrest : drop 5 stem = rest) by (rewrite Hs, drop_app_ge by lia; by rewrite Hl).
    split_and!; [|exact Hl|exact Hd|reflexivity|exact Hv|].
    + change (4 + 1)%nat with 5%nat. rewrite lit_str, Hrest, Hhyphen. rewrite Hf at 1. rewrite Hs at 1. by rewrite <- app_assoc.
    + change (4 + 1)%nat with 5%nat. rewrite Hrest. intros He. apply (f_equal lit) in He. rewrite lit_str in He. simpl in He.
      subst rest. apply Hg. rewrite Hs, length_app, Hl, He. done.
  - intros (digits & -> & Hl & Hd & -> & Hv & Hname).
    assert (Hne : lit name <> []) by (intros H; apply (f_equal str) in H; rewrite str_lit in H; done).
    set (stem := digits ++ lit "-" ++ lit name).
    replace (digits ++ lit "-" ++ lit name ++ lit ".sql") with (stem ++ lit ".sql") by (unfold stem; by rewrite <- !app_assoc).
    change (length (lit ".sql")) with 4%nat. rewrite length_app. change (length (lit ".sql")) with 4%nat.
    replace (length stem + 4 - 4)%nat with (length stem) by lia. rewrite drop_app_length, take_app_length, bool_decide_eq_true_2 by done.
    rewrite (proj2 (Nat.leb_le _ _)) by lia. cbn [andb negb].
    assert (Hp : position (byte_of 45) stem = Some 4%nat).
    { apply position_spec. exists (lit name). unfold stem. rewrite <- Hl, take_app_length. by split_and!; [|done|apply Hdigit]. }
    rewrite Hp. unfold kMigrationFileVersionWidth. cbn [Nat.eqb negb orb].
    assert (Hls : (length stem = 5 + length (lit name))%nat) by (unfold stem; rewrite Hhyphen, !length_app, Hl; done).
    assert (Hlen : (0 < length (lit name))%nat) by (by destruct (lit name); [|simpl; lia]). rewrite Hls, (proj2 (Nat.eqb_neq _ _)) by lia.
    unfold parse_migration_file_version, kMigrationFileVersionWidth.
    assert (Ht : take 4 stem = digits) by (unfold stem; by rewrite <- Hl, take_app_length).
    assert (Hdr : drop (4 + 1) stem = lit name) by (unfold stem; rewrite Hhyphen, drop_app_ge by lia; by rewrite Hl).
    rewrite Ht, Hdr, Hl, Hd, (proj2 (Z.leb_gt _ _)) by done. cbn. by rewrite str_lit.
Qed.

Module Demo.
Definition texts := list string.
Definition run (sql : string) (s : texts) : Result unit * texts :=
  if bool_decide (sql = "bad"%string) then (Err (Errors.storage "syntax error"), s) else (Ok tt, s ++ [sql]).
Definition ms : list Migration := [mkMigration 1 "init" "CREATE A"; mkMigration 2 "next" "CREATE B"; mkMigration 3 "last" "CREATE C"].
(** Another process, too, applies the second migration when only the first is there. *)
Definition others (n : nat) (t : MigState texts) : MigState texts :=
  if bool_decide (mg_versions t = Some [(1, "init"%string)]) then
    mkMigState (Some [(1, "init"%string); (2, "next"%string)]) (mg_schema t ++ ["CREATE B"%string])
  else t.
Definition fresh : Conn (MigState texts) := mkConn (mkMigState None []) None 0.
Definition calm (n : nat) : option Error := None.
Definition late (n : nat) : option Error := if decide (n = 12)%nat then Some (Errors.storage "disk I/O error") else None.
Example report_others : fst (run_migrations run calm others ms fresh) = Ok (mkReport 0 3 [1; 3]).
Proof. vm_compute. reflexivity. Qed.
Example report_late : mg_versions (cn_tables (snd (run_migrations run late (fun _ t => t) ms fresh))) = Some [(1, "init"%string)].
Proof. vm_compute. reflexivity. Qed.
Lemma others_cooperative : cooperative run [] ms others.
Proof.
  intros n t k Hmig. pose proof Hmig as [Hb Hr Hs]. unfold others. case_bool_decide as Hv; [|by exists k].
  destruct Hr as [Hr|[_ Hr]]; [|congruence]. rewrite Hv in Hr. simpl in Hb.
  destruct k as [|[|[|[|k]]]]; try discriminate. exists 2%nat. split; [lia|].
  injection Hs as Hs. rewrite <- Hs. split; [simpl; lia|by left|reflexivity].
Qed.
Lemma fresh_migrated : migrated run [] ms 0 (cn_tables fresh).
Proof. constructor; [simpl; lia|by right|reflexivity]. Qed.
Lemma migrations_exactly_once_witness :
  fst (run_migrations run calm others ms fresh) = Ok (mkReport 0 3 [1; 3]) /\
  exists k, migrated run [] ms k (cn_tables (snd (run_migrations run late others ms fresh))).
Proof.
  split; [vm_compute; reflexivity|].
  pose proof (migrations_exactly_once run [] ms late others 0 fresh eq_refl others_cooperative eq_refl fresh_migrated) as H.
  destruct (run_migrations run late others ms fresh) as [r c]. destruct H as (k & _ & H & _). exists k. exact H.
Defined.
Lemma migrations_complete_witness :
  exists c, run_migrations run calm (fun _ t => t) ms fresh = (Ok (mkReport 0 3 [1; 2; 3]), c).
Proof.
  apply (migrations_complete run [] ms calm 0 fresh); [reflexivity|by eexists|reflexivity|reflexivity|exact fresh_migrated].
Defined.
Lemma migration_file_name_exact_witness :
  parse_migration_file_name (lit "0012-add-turns.sql") "p" = Ok (12, "add-turns"%string).
Proof.
  apply (proj2 (migration_file_name_exact (lit "0012-add-turns.sql") "p" 12 "add-turns")).
  exists (lit "0012"). split_and!; vm_compute; reflexivity || discriminate.
Defined.
End Demo.
