(* ===== verification/TimeOrder.v ===== *)
(** * oran-core: timestamps compare as the instants they spell

    SQLite compares timestamps as texts.  The spelling of [IsoTime] has fixed width and
    puts the most significant field first, so the order of two texts is the order of the
    two instants, to the millisecond. *)
From S2P Require Import Prelude Core.
From S2P Require Import Json.
From S2P Require Import IsoTime.
#[local] Open Scope Z_scope.

(** ** Bytes in lexicographic order *)
Lemma bytes_lt_irrefl a : bytes_lt a a = false.
Proof. induction a as [|x a IH]; simpl; [done|]. by rewrite Z.ltb_irrefl. Qed.
Lemma bytes_lt_prefix p a b : bytes_lt (p ++ a) (p ++ b) = bytes_lt a b.
Proof. induction p as [|x p IH]; simpl; [done|]. by rewrite Z.ltb_irrefl. Qed.
(** The first difference decides. *)
Lemma bytes_lt_app a b x y : length a = length b ->
  bytes_lt (a ++ x) (b ++ y) = bytes_lt a b || (bool_decide (a = b) && bytes_lt x y).
Proof.
  revert b. induction a as [|c a IH]; intros [|d b] Hl; try discriminate; simpl; [done|].
  injection Hl as Hl. destruct (Z.ltb_spec (code c) (code d)) as [|Hcd]; [done|].
  destruct (Z.ltb_spec (code d) (code c)) as [Hdc|Hdc].
  - rewrite bool_decide_eq_false_2; [done|]. intros [= -> _]. lia.
  - assert (c = d) as ->.
    { apply code_inj. lia. }
    rewrite IH by done. f_equal. f_equal. apply bool_decide_ext. split; [by intros ->|by intros [=]].
Qed.

Lemma pad_lt w n m : 0 <= n < 10 ^ Z.of_nat w -> 0 <= m < 10 ^ Z.of_nat w -> bytes_lt (pad w n) (pad w m) = (n <? m).
Proof.
  revert n m. induction w as [|w IH]; intros n m Hn Hm.
  { change (10 ^ Z.of_nat 0) with 1 in *. simpl. symmetry. apply Z.ltb_ge. lia. }
  rewrite Nat2Z.inj_succ, Z.pow_succ_r in Hn, Hm by lia. cbn [pad].
  rewrite bytes_lt_app by by rewrite !pad_length. set (p := 10 ^ Z.of_nat w) in *.
  assert (Hn' : 0 <= n / 10 < p) by (Z.to_euclidean_division_equations; lia).
  assert (Hm' : 0 <= m / 10 < p) by (Z.to_euclidean_division_equations; lia).
  rewrite IH by done. pose proof (Z.mod_pos_bound n 10 ltac:(lia)). pose proof (Z.mod_pos_bound m 10 ltac:(lia)).
  cbn [bytes_lt]. rewrite !code_digit by lia.
  assert (Heq : bool_decide (pad w (n / 10) = pad w (m / 10)) = (n / 10 =? m / 10)).
  { apply eq_true_iff_eq. rewrite bool_decide_eq_true, Z.eqb_eq. split; [|by intros ->].
    intros He. by rewrite <- (parse_pad w (n / 10)), <- (parse_pad w (m / 10)), He. }
  rewrite Heq. pose proof (Z.div_mod n 10 ltac:(lia)). pose proof (Z.div_mod m 10 ltac:(lia)).
  destruct (Z.ltb_spec (n / 10) (m / 10)), (Z.eqb_spec (n / 10) (m / 10)), (Z.ltb_spec n m),
    (Z.ltb_spec (48 + n mod 10) (48 + m mod 10)); simpl; try done; try lia.
  by destruct (_ <? _).
Qed.

(** A field of [w] digits in front of the rest. *)
Lemma pad_app_lt w n m x y : 0 <= n < 10 ^ Z.of_nat w -> 0 <= m < 10 ^ Z.of_nat w ->
  bytes_lt (pad w n ++ x) (pad w m ++ y) = (n <? m) || ((n =? m) && bytes_lt x y).
Proof.
  intros Hn Hm. rewrite bytes_lt_app by by rewrite !pad_length. rewrite pad_lt by done. f_equal. f_equal.
  apply eq_true_iff_eq. rewrite bool_decide_eq_true, Z.eqb_eq. split; [|by intros ->].
  intros He. by rewrite <- (parse_pad w n), <- (parse_pad w m), He.
Qed.

(** ** The calendar in order *)
Lemma era_year_mono a b : 0 <= a -> a <= b -> b < 146097 -> era_year a <= era_year b.
Proof.
  intros Ha Hab Hb. pose proof (era_year_spec a ltac:(lia)) as Hsa. pose proof (era_year_spec b ltac:(lia)) as Hsb.
  cbv zeta in *. set (p := era_year a) in *. set (q := era_year b) in *. clearbody p q.
  destruct (Z.le_gt_cases p q) as [|Hlt]; [done|]. exfalso. destruct Hsa as (? & ? & _), Hsb as (? & ? & ?).
  Z.to_euclidean_division_equations. lia.
Qed.
Definition date_lt (a b : Z * Z * Z) : Prop :=
  let '(y, m, d) := a in let '(y', m', d') := b in
  y < y' \/ (y = y' /\ (m < m' \/ (m = m' /\ d < d'))).
Lemma civil_mono a b : a < b -> date_lt (civil_from_days a) (civil_from_days b).
Proof.
  intros Hab. unfold civil_from_days.
  set (era := (a + 719468) / 146097). set (era' := (b + 719468) / 146097).
  set (doe := a + 719468 - era * 146097). set (doe' := b + 719468 - era' * 146097).
  assert (Hd : 0 <= doe < 146097) by (subst doe era; Z.to_euclidean_division_equations; lia).
  assert (Hd' : 0 <= doe' < 146097) by (subst doe' era'; Z.to_euclidean_division_equations; lia).
  assert (He : era < era' \/ (era = era' /\ doe < doe')) by (subst doe doe'; lia).
  fold (era_year doe) (era_year doe').
  pose proof (era_year_spec doe Hd) as (Hy & Hdoy & _). pose proof (era_year_spec doe' Hd') as (Hy' & Hdoy' & _).
  assert (Hm : era = era' -> era_year doe <= era_year doe') by (intros; apply era_year_mono; lia).
  clearbody era era'. set (yoe := era_year doe) in *. set (yoe' := era_year doe') in *. clearbody yoe yoe'.
  set (doy := doe - _) in *. set (doy' := doe' - _) in *.
  assert (Hyear : yoe + era * 400 < yoe' + era' * 400 \/ (yoe + era * 400 = yoe' + era' * 400 /\ doy < doy')).
  { destruct He as [He|[-> He]]; [left; lia|]. specialize (Hm eq_refl).
    destruct (Z.eq_dec yoe yoe') as [->|]; [right; subst doy doy'; lia|left; lia]. }
  clearbody doy doy'. set (y := yoe + era * 400) in *. set (y' := yoe' + era' * 400) in *. clearbody y y'.
  pose proof (march_month doy Hdoy) as [Hmp Hday]. pose proof (march_month doy' Hdoy') as [Hmp' Hday'].
  assert (Hmono : doy < doy' -> (5 * doy + 2) / 153 <= (5 * doy' + 2) / 153) by (intros; apply Z.div_le_mono; lia).
  set (mp := (5 * doy + 2) / 153) in *. set (mp' := (5 * doy' + 2) / 153) in *. clearbody mp mp'.
  unfold date_lt. destruct (Z.ltb_spec mp 10), (Z.ltb_spec mp' 10);
    repeat match goal with |- context [?x <=? 2] => destruct (Z.leb_spec x 2) end; try lia;
    destruct Hyear as [|[-> Hlt]]; try lia; specialize (Hmono Hlt);
    destruct (Z.eq_dec mp mp') as [->|]; lia.
Qed.

(** ** Timestamps *)
Lemma time_fields tod : 0 <= tod < 86400000 ->
  0 <= tod / 3600000 < 100 /\ 0 <= tod / 60000 mod 60 < 100 /\ 0 <= tod / 1000 mod 60 < 100 /\ 0 <= tod mod 1000 < 1000.
Proof. intros H. Z.to_euclidean_division_equations. lia. Qed.
Lemma time_lt a b : 0 <= a < 86400000 -> 0 <= b < 86400000 ->
  (a <? b) = (a / 3600000 <? b / 3600000) || ((a / 3600000 =? b / 3600000) &&
    ((a / 60000 mod 60 <? b / 60000 mod 60) || ((a / 60000 mod 60 =? b / 60000 mod 60) &&
      ((a / 1000 mod 60 <? b / 1000 mod 60) || ((a / 1000 mod 60 =? b / 1000 mod 60) && (a mod 1000 <? b mod 1000)))))).
Proof.
  intros Ha Hb.
  assert (Hf : forall t, t = t / 3600000 * 3600000 + t / 60000 mod 60 * 60000 + t / 1000 mod 60 * 1000 + t mod 1000 /\
    0 <= t / 60000 mod 60 < 60 /\ 0 <= t / 1000 mod 60 < 60 /\ 0 <= t mod 1000 < 1000).
  { intros t. Z.to_euclidean_division_equations. lia. }
  pose proof (Hf a) as (Ea & Ma & Sa & Fa). pose proof (Hf b) as (Eb & Mb & Sb & Fb). clear Hf.
  revert Ea Eb Ma Sa Fa Mb Sb Fb. generalize (a / 3600000) (a / 60000 mod 60) (a / 1000 mod 60) (a mod 1000)
    (b / 3600000) (b / 60000 mod 60) (b / 1000 mod 60) (b mod 1000). intros.
  apply eq_true_iff_eq. rewrite !orb_true_iff, !andb_true_iff, !orb_true_iff, !andb_true_iff, !orb_true_iff, !andb_true_iff,
    !Z.ltb_lt, !Z.eqb_eq. lia.
Qed.

Lemma format_order a b : fits_s 64 a -> fits_s 64 b ->
  bytes_lt (format_iso8601_utc a) (format_iso8601_utc b) = (a / ns_per_ms <? b / ns_per_ms).
Proof.
  intros Ha Hb.
  destruct (format_canonical a Ha) as (y & m & d & tod & Hc & Hy & Htod & Hr & ->).
  destruct (format_canonical b Hb) as (y' & m' & d' & tod' & Hc' & Hy' & Htod' & Hr' & ->).
  set (day := a / ns_per_ms / ms_per_day) in *. set (day' := b / ns_per_ms / ms_per_day) in *.
  pose proof (civil_from_days_ok day) as Hok. rewrite Hc in Hok. destruct Hok as [Hok _].
  pose proof (civil_from_days_ok day') as Hok'. rewrite Hc' in Hok'. destruct Hok' as [Hok' _].
  assert (Hb1 : forall y m d, ymd_ok y m d = true -> 0 <= m < 100 /\ 0 <= d < 100).
  { intros y0 m0 d0 H0. unfold ymd_ok in H0. bool_prop.
    assert (last_day y0 m0 <= 31) by (unfold last_day; repeat case_match; lia). lia. }
  pose proof (Hb1 _ _ _ Hok) as [Hm Hd]. pose proof (Hb1 _ _ _ Hok') as [Hm' Hd'].
  unfold ms_per_day in Hr, Hr'. destruct (time_fields _ Hr) as (F1 & F2 & F3 & F4). destruct (time_fields _ Hr') as (G1 & G2 & G3 & G4).
  unfold canonical. repeat (rewrite pad_app_lt by (simpl; lia); rewrite ?bytes_lt_prefix). rewrite bytes_lt_irrefl.
  rewrite !andb_false_r, orb_false_r, <- (time_lt tod tod') by done.
  apply eq_true_iff_eq. rewrite !orb_true_iff, !andb_true_iff, !orb_true_iff, !andb_true_iff, !orb_true_iff, !andb_true_iff,
    !Z.ltb_lt, !Z.eqb_eq.
  assert (Hday : a / ns_per_ms = day * 86400000 + tod /\ b / ns_per_ms = day' * 86400000 + tod') by (unfold ms_per_day in *; lia).
  destruct Hday as [-> ->].
  destruct (Z.lt_trichotomy day day') as [Hlt|[Heq|Hlt]].
  - pose proof (civil_mono _ _ Hlt) as H. rewrite Hc, Hc' in H. simpl in H. lia.
  - rewrite Heq, Hc' in Hc. injection Hc as -> -> ->. rewrite Heq. lia.
  - pose proof (civil_mono _ _ Hlt) as H. rewrite Hc, Hc' in H. simpl in H. lia.
Qed.
