(* ===== verification/Longterm.v ===== *)
(** * oran-memory: long-term memory

    Models [include/oran/memory/longterm.hpp], [src/oran-memory/longterm.cpp],
    [recall.cpp], [recall_index.cpp], the text of [recall_render.cpp] and [_impl/text.hpp]:
    what a note, a query and an index request must be, how notes are recalled through a
    [Backend], and how the index of notes is cut into pages that fit their budget.  The
    backend is an interface: [BackendLaws] states what [recall] relies on, and the store of
    [LongtermStore] implements it.
    [recall_amid] is the recall with what other calls do to the store between the selection
    of the hits and the writing of their read times.  The JSON writer raises on text that is
    not UTF-8. *)
From S2P Require Import Prelude.
From S2P Require Import Core.
From S2P Require Import Utf8.
From S2P Require Import IsoTime.
From S2P Require Import Json.
From S2P Require Import OrderedJson.
Import EnumNames.
#[local] Open Scope Z_scope.

(** ** Data *)
Inductive RecordKind := rk_user | rk_feedback | rk_project | rk_reference | rk_team.
#[export] Instance RecordKind_eq_dec : EqDecision RecordKind.
Proof. solve_decision. Defined.
#[export] Instance Enum_RecordKind : Enum RecordKind := {
  enumerators := [(rk_user, "user"); (rk_feedback, "feedback"); (rk_project, "project");
                  (rk_reference, "reference"); (rk_team, "team")]%string }.
#[export] Instance EnumLaws_RecordKind : EnumLaws RecordKind.
Proof. solve_enum_laws. Qed.

Record RecordKey := mkRecordKey { key_id : string; key_scope : string }.
#[export] Instance RecordKey_eq_dec : EqDecision RecordKey.
Proof. solve_decision. Defined.
(** [Record]; times are nanoseconds since the epoch. *)
Record MemoryRecord := mkMemory {
  mr_key : RecordKey; mr_kind : RecordKind; mr_title : string; mr_body : string;
  mr_created : Z; mr_updated : Z; mr_read : Z; mr_importance : double;
  mr_tags : list string; mr_linked : list string; mr_shadow : bool }.
Record Query := mkQuery { qy_scope : string; qy_text : string; qy_kinds : list RecordKind }.
Record SearchHit := mkHit { hit_record : MemoryRecord; hit_score : double }.
Record RecallRequest := mkRecall { rq_query : Query; rq_limit : Z; rq_record_id : string }.
Record RecallResult := mkRecallResult { rr_hits : list SearchHit; rr_text : string }.
Definition kMaxIndexBytes : Z := 8192.
Record IndexRequest := mkIndexRequest {
  ir_scope : string; ir_kinds : list RecordKind; ir_limit : Z; ir_offset : Z; ir_max_bytes : Z }.
Record IndexEntry := mkEntry { ie_key : RecordKey; ie_kind : RecordKind; ie_title : string; ie_summary : string }.
Record IndexResult := mkIndexResult {
  ix_entries : list IndexEntry; ix_text : string; ix_next_offset : option Z; ix_omitted : Z }.

(** ** Validation *)
Definition is_space (ch : ascii) : bool := (code ch =? 32) || (code ch =? 9) || (code ch =? 10) || (code ch =? 13).
Definition contains_control_char (value : bytes) (allow_multiline : bool) : bool :=
  existsb (fun ch => if allow_multiline && ((code ch =? 9) || (code ch =? 10) || (code ch =? 13)) then false
    else code ch <? 0x20) value.
Definition invalid_memory (field message : string) : Error :=
  Errors.with_ctx (Errors.invalid_argument message) "field" field.
Definition validate_required (value field : string) (allow_multiline : bool) : Result unit :=
  fail? forallb is_space (lit value) with invalid_memory field "long-term memory field must not be blank";
  fail? negb (is_valid_utf8 (lit value)) || contains_control_char (lit value) allow_multiline with
    invalid_memory field "long-term memory field must be UTF-8 without control characters";
  Ok tt.
Definition has_duplicates {A} `{EqDecision A} (values : list A) : bool := negb (bool_decide (NoDup values)).
Definition validate_kinds (kinds : list RecordKind) : Result unit :=
  fail? has_duplicates kinds with invalid_memory "kinds" "long-term memory query kind filters must be unique";
  Ok tt.
Fixpoint validate_values (values : list string) (field : string) : Result unit :=
  match values with
  | [] => Ok tt
  | value :: values => let? _ := validate_required value field false in validate_values values field
  end.
Definition validate_string_list (values : list string) (field : string) : Result unit :=
  let? _ := validate_values values field in
  fail? has_duplicates values with invalid_memory field "long-term memory string list values must be unique";
  Ok tt.
Definition validate_limit (limit : Z) : Result unit :=
  fail? (limit =? 0) || (100 <? limit) with invalid_memory "limit" "long-term memory search limit must be between 1 and 100";
  Ok tt.
Definition validate_key (key : RecordKey) : Result unit :=
  let? _ := validate_required (key_id key) "record_id" false in
  validate_required (key_scope key) "scope_key" false.
Definition importance_invalid (d : double) : bool :=
  negb (is_finite d) || SpecFloat.SFltb d double_zero || SpecFloat.SFltb double_one d.
Definition validate_record (r : MemoryRecord) : Result unit :=
  let? _ := validate_key (mr_key r) in
  let? _ := validate_required (mr_title r) "title" false in
  let? _ := validate_required (mr_body r) "body" true in
  fail? importance_invalid (mr_importance r) with
    invalid_memory "importance" "long-term memory importance must be a finite value in the range [0, 1]";
  fail? mr_updated r <? mr_created r with
    invalid_memory "updated_at" "long-term memory updated_at must not be earlier than created_at";
  fail? mr_read r <? mr_created r with
    invalid_memory "last_read_at" "long-term memory last_read_at must not be earlier than created_at";
  let? _ := validate_string_list (mr_tags r) "tag" in
  validate_string_list (mr_linked r) "linked_record_id".
Definition validate_query (q : Query) (limit : Z) : Result unit :=
  let? _ := validate_required (qy_scope q) "scope_key" false in
  let? _ := validate_required (qy_text q) "query_text" true in
  fail? (4096 <? String.length (qy_text q))%nat with
    invalid_memory "query_text" "long-term memory query must not exceed 4096 bytes";
  let? _ := validate_kinds (qy_kinds q) in
  validate_limit limit.
Definition validate_recall_request (r : RecallRequest) : Result unit :=
  if bool_decide (rq_record_id r = ""%string) then validate_query (rq_query r) (rq_limit r)
  else
    fail? negb (bool_decide (qy_text (rq_query r) = ""%string)) with
      invalid_memory "record_id" "memory recall accepts an ID or search text, not both";
    let? _ := validate_key (mkRecordKey (rq_record_id r) (qy_scope (rq_query r))) in
    let? _ := validate_kinds (qy_kinds (rq_query r)) in
    validate_limit (rq_limit r).
Definition validate_index_request (r : IndexRequest) : Result unit :=
  let? _ := validate_required (ir_scope r) "scope_key" false in
  let? _ := validate_kinds (ir_kinds r) in
  fail? (ir_limit r =? 0) || (20 <? ir_limit r) with invalid_memory "limit" "memory index limit must be between 1 and 20";
  fail? 2 ^ 63 - 1 - 100 <? ir_offset r with invalid_memory "offset" "memory index offset is too large";
  fail? (ir_max_bytes r <? 512) || (kMaxIndexBytes <? ir_max_bytes r) with
    invalid_memory "max_bytes" "memory index budget must be between 512 and 8192 bytes";
  Ok tt.

(** ** Text *)
Fixpoint flatten_loop (text out : bytes) (pending_space : bool) : bytes :=
  match text with
  | [] => out
  | ch :: text =>
      if is_space ch then flatten_loop text out (negb (bool_decide (out = [])))
      else flatten_loop text ((if pending_space then out ++ [byte_of 32] else out) ++ [ch]) false
  end.
Definition flatten (text : bytes) : bytes := flatten_loop text [] false.
Definition ellipsis : bytes := [byte_of 0xE2; byte_of 0x80; byte_of 0xA6].
Definition cue (text : string) (max_bytes : nat) : string :=
  let prefix := truncate_to_code_point (lit text) max_bytes in
  str (flatten prefix ++ (if (length prefix =? String.length text)%nat then [] else ellipsis)).
Definition newline : string := str [byte_of 10].
Definition quote : string := str [byte_of 34].

Definition append_string_list (label : string) (values : list string) : string :=
  match values with
  | [] => ""
  | _ => "  " +:+ label +:+ ": " +:+ String.concat ", " values +:+ newline
  end.
Definition recall_lines (r : MemoryRecord) : string :=
  "- [" +:+ enum_name (mr_kind r) +:+ "] " +:+ mr_title r +:+ " (id: " +:+ key_id (mr_key r) +:+ ")" +:+ newline +:+
  "  " +:+ str (flatten (lit (mr_body r))) +:+ newline +:+
  append_string_list "tags" (mr_tags r) +:+ append_string_list "linked" (mr_linked r).
Definition render_recall_text (hits : list SearchHit) : string :=
  match hits with
  | [] => ""
  | _ => "Long-term memory:" +:+ newline +:+ String.concat "" (map (fun h => recall_lines (hit_record h)) hits)
  end.

(** ** Recall *)
Record Backend (W : Type) := mkBackend {
  be_get : RecordKey -> W -> Result MemoryRecord * W;
  be_search : Query -> Z -> W -> Result (list SearchHit) * W;
  be_list : IndexRequest -> W -> Result (list IndexEntry) * W;
  be_touch : list RecordKey -> Z -> W -> Result unit * W }.
Arguments be_get {W} _.
Arguments be_search {W} _.
Arguments be_list {W} _.
Arguments be_touch {W} _.

Definition kind_selected (kinds : list RecordKind) (k : RecordKind) : bool :=
  bool_decide (kinds = []) || bool_decide (k ∈ kinds).
Definition with_read (t : Z) (r : MemoryRecord) : MemoryRecord :=
  mkMemory (mr_key r) (mr_kind r) (mr_title r) (mr_body r) (mr_created r) (mr_updated r) (Z.max (mr_read r) t)
    (mr_importance r) (mr_tags r) (mr_linked r) (mr_shadow r).
Definition read_at (now : Z) : Z := now / ns_per_ms * ns_per_ms.
Definition no_record : Error := Errors.not_found "long-term memory record not found".
Definition select_hits {W} (B : Backend W) (r : RecallRequest) (w : W) : Result (list SearchHit) * W :=
  let q := rq_query r in
  if negb (bool_decide (rq_record_id r = ""%string)) then
    match be_get B (mkRecordKey (rq_record_id r) (qy_scope q)) w with
    | (Err e, w) => (Err e, w)
    | (Ok x, w) =>
        if mr_shadow x || negb (kind_selected (qy_kinds q) (mr_kind x)) then (Err no_record, w)
        else (Ok [mkHit x double_zero], w)
    end
  else be_search B q (rq_limit r) w.
(** [now] is what [now_utc] gives after the hits were found. While the coroutine waits for
    the writer other operations may run: [meanwhile] is all they do to the store between the
    selection and the write of the read times. *)
Definition recall_amid {W} (B : Backend W) (meanwhile : W -> W) (now : Z) (r : RecallRequest) (w : W)
    : Result RecallResult * W :=
  match validate_recall_request r with
  | Err e => (Err e, w)
  | Ok _ =>
    match select_hits B r w with
    | (Err e, w) => (Err e, w)
    | (Ok hits, w) =>
        let t := read_at now in
        let '(touched, w) := if bool_decide (hits = []) then (Ok tt, w)
                             else be_touch B (map (fun h => mr_key (hit_record h)) hits) t (meanwhile w) in
        match touched with
        | Err e => (Err e, w)
        | Ok _ =>
            let hits := map (fun h => mkHit (with_read t (hit_record h)) (hit_score h)) hits in
            (Ok (mkRecallResult hits (render_recall_text hits)), w)
        end
    end
  end.
(** A recall during which nobody else uses the store. *)
Definition recall {W} (B : Backend W) : Z -> RecallRequest -> W -> Result RecallResult * W :=
  recall_amid B (fun w => w).

(** ** The index *)
Definition kIndexHeader : string :=
  "Memory index:" +:+ newline +:+
  "Background context, not a user message. Use relevant notes quietly. " +:+
  "Read with MemoryRecall {" +:+ quote +:+ "id" +:+ quote +:+ ":" +:+ quote +:+ "..." +:+ quote +:+
  "} before relying on a cue; search topic words if needed." +:+ newline.
Definition kFooterReserve : Z := 192.
Definition slength (s : string) : Z := Z.of_nat (String.length s).
Definition cue_of (c : IndexEntry) : IndexEntry :=
  mkEntry (ie_key c) (ie_kind c) (cue (ie_title c) 120) (cue (ie_summary c) 240).

Section Index.
Context `{JsonLibrary}.
Definition index_line (e : IndexEntry) : option string :=
  id ← json_dump (JString (key_id (ie_key e)));
  Some ("- [" +:+ enum_name (ie_kind e) +:+ "] " +:+ ie_title e +:+ " (id: " +:+ id +:+ ")" +:+ newline +:+
        "  " +:+ ie_summary e +:+ newline).
(** The locals of the loop. *)
Record Page := mkPage { pg_text : string; pg_entries : list IndexEntry; pg_omitted : Z; pg_consumed : nat }.
Fixpoint index_loop (max_bytes : Z) (candidates : list IndexEntry) (p : Page) : option Page :=
  match candidates with
  | [] => Some p
  | c :: candidates =>
      let e := cue_of c in
      line ← index_line e;
      if max_bytes - slength kIndexHeader - kFooterReserve <? slength line then
        index_loop max_bytes candidates (mkPage (pg_text p) (pg_entries p) (pg_omitted p + 1) (S (pg_consumed p)))
      else if max_bytes <? slength (pg_text p) + slength line + kFooterReserve then Some p
      else index_loop max_bytes candidates
             (mkPage (pg_text p +:+ line) (pg_entries p ++ [e]) (pg_omitted p) (S (pg_consumed p)))
  end.
Definition more_line (offset : Z) : string :=
  "More notes: call MemoryRecall with offset " +:+ pretty offset +:+ " and the same kind filters." +:+ newline.
Definition omitted_line (count : Z) : string :=
  pretty count +:+ " oversized entries omitted; search their topics." +:+ newline.
Definition empty_line (offset : Z) : string :=
  if offset =? 0 then "No saved notes match this index." +:+ newline else "No more notes on this page." +:+ newline.
Definition make_index (candidates : list IndexEntry) (r : IndexRequest) : Exc IndexResult :=
  match validate_index_request r with
  | Err e => Some (Err e)
  | Ok _ =>
    match index_loop (ir_max_bytes r) (take (Z.to_nat (ir_limit r)) candidates) (mkPage kIndexHeader [] 0 0) with
    | None => raise
    | Some p =>
        let next := if (pg_consumed p <? length candidates)%nat then Some (ir_offset r + Z.of_nat (pg_consumed p)) else None in
        let text := pg_text p +:+ match next with Some n => more_line n | None => "" end +:+
                    (if negb (pg_omitted p =? 0) then omitted_line (pg_omitted p) else "") +:+
                    (if bool_decide (candidates = []) then empty_line (ir_offset r) else "") in
        Some (Ok (mkIndexResult (pg_entries p) text next (pg_omitted p)))
    end
  end.
Definition index {W} (B : Backend W) (r : IndexRequest) (w : W) : Exc IndexResult * W :=
  match validate_index_request r with
  | Err e => (Some (Err e), w)
  | Ok _ =>
    match be_list B r w with
    | (Err e, w) => (Some (Err e), w)
    | (Ok entries, w) => (make_index entries r, w)
    end
  end.
End Index.

(** ** Facts about text *)
(** The maximal runs of bytes that satisfy [p]. *)
Fixpoint runs (p : ascii -> bool) (text : bytes) : list bytes :=
  match text with
  | [] => []
  | c :: text' =>
      if p c then
        match text' with
        | d :: _ => if p d then match runs p text' with w :: ws => (c :: w) :: ws | [] => [[c]] end else [c] :: runs p text'
        | [] => [[c]]
        end
      else runs p text'
  end.
Definition joined (separator : bytes) (ws : list bytes) : bytes :=
  match ws with [] => [] | w :: ws => w ++ concat (map (app separator) ws) end.

Lemma runs_head p c text : p c = true -> exists w ws, runs p (c :: text) = (c :: w) :: ws /\
  match text with d :: _ => if p d then runs p text = w :: ws else w = [] /\ ws = runs p text | [] => w = [] /\ ws = [] end.
Proof.
  intros Hc. cbn [runs]. rewrite Hc. destruct text as [|d text]; [by exists [], []|]. destruct (p d) eqn:Hd; [|by eexists [], _].
  assert (Hr : exists w ws, runs p (d :: text) = w :: ws).
  { cbn [runs]. rewrite Hd. destruct text as [|e text]; [by eexists _, _|]. destruct (p e); [|by eexists _, _].
    destruct (runs p (e :: text)); by eexists _, _. }
  destruct Hr as (w & ws & ->). by exists w, ws.
Qed.
Definition not_space (c : ascii) : bool := negb (is_space c).
Definition space : bytes := [byte_of 32].
(** What is appended to a text that ends in the run that continues. *)
Definition continued (text : bytes) : bytes :=
  match text with
  | c :: _ => if not_space c then joined space (runs not_space text) else concat (map (app space) (runs not_space text))
  | [] => []
  end.
Lemma continued_cons c text : not_space c = true -> joined space (runs not_space (c :: text)) = c :: continued text.
Proof.
  intros Hc. destruct (runs_head not_space c text Hc) as (w & ws & -> & Ht). simpl. f_equal. unfold continued.
  destruct text as [|d text]; [by destruct Ht as [-> ->]|]. destruct (not_space d); [by rewrite Ht|by destruct Ht as [-> ->]].
Qed.
Lemma flatten_loop_spec text out pending : out <> [] ->
  flatten_loop text out pending =
  out ++ (if pending then concat (map (app space) (runs not_space text)) else continued text).
Proof.
  revert out pending. induction text as [|c text IH]; intros out pending Hout; cbn [flatten_loop].
  - destruct pending; simpl; by rewrite app_nil_r.
  - assert (Hc : is_space c = negb (not_space c)) by (unfold not_space; by rewrite negb_involutive). rewrite Hc.
    destruct (not_space c) eqn:Hn; cbn [negb].
    + rewrite IH by (intros He; apply app_eq_nil in He as [_ He]; discriminate). pose proof (continued_cons c text Hn) as Hj.
      destruct (runs_head not_space c text Hn) as (w & ws & Hr & _). rewrite Hr in *. simpl in Hj. injection Hj as Hj.
      unfold continued at 2. rewrite Hn, Hr. simpl. rewrite Hj. destruct pending; unfold space; simpl; by rewrite <- !app_assoc.
    + rewrite bool_decide_eq_false_2 by done. rewrite IH by done. unfold continued. cbn [runs]. rewrite Hn.
      by destruct pending.
Qed.

(** ** Facts about pages *)
Lemma slength_app a b : slength (a +:+ b) = slength a + slength b.
Proof. unfold slength. rewrite <- !lit_length. rewrite lit_app, length_app. lia. Qed.
Lemma pretty_length k z : 0 <= z < 10 ^ Z.of_nat k -> (0 < k)%nat -> slength (pretty z) <= Z.of_nat k.
Proof.
  assert (Hgo : forall k (n : N) s, (n < 10 ^ N.of_nat k)%N -> slength (pretty_N_go n s) <= slength s + Z.of_nat k).
  { clear. induction k as [|k IH]; intros n s Hn.
    - change (10 ^ N.of_nat 0)%N with 1%N in Hn. assert (n = 0%N) as -> by lia. rewrite pretty_N_go_0. lia.
    - destruct (decide (n = 0%N)) as [->|Hz]; [rewrite pretty_N_go_0; lia|].
      rewrite pretty_N_go_step by lia. rewrite Nat2N.inj_succ, N.pow_succ_r' in Hn.
      etransitivity; [apply IH|].
      + apply N.Div0.div_lt_upper_bound. lia.
      + unfold slength. simpl String.length. lia. }
  intros Hz Hk. unfold pretty, pretty_Z. destruct z as [|p|p]; [|..|lia].
  - vm_compute (slength _). lia.
  - unfold pretty, pretty_N. etransitivity; [apply (Hgo k)|unfold slength; simpl; lia].
    apply N2Z.inj_lt. rewrite N2Z.inj_pow, nat_N_Z. simpl. lia.
Qed.
Section PageFacts.
Context `{JsonLibrary}.
(** A note whose line fits a page at all. *)
Definition shown (max_bytes : Z) (c : IndexEntry) : bool :=
  match index_line (cue_of c) with
  | Some line => slength line <=? max_bytes - slength kIndexHeader - kFooterReserve
  | None => false
  end.
Definition shown_of (max_bytes : Z) (cs : list IndexEntry) : list IndexEntry := List.filter (shown max_bytes) cs.
Definition omitted_of (max_bytes : Z) (cs : list IndexEntry) : Z :=
  Z.of_nat (length (List.filter (fun c => negb (shown max_bytes c)) cs)).
Definition room (max_bytes : Z) (p : Page) : Prop := slength (pg_text p) + kFooterReserve <= max_bytes.

Lemma index_loop_spec max_bytes cs p p' :
  index_loop max_bytes cs p = Some p' -> room max_bytes p ->
  exists n, (n <= length cs)%nat /\ room max_bytes p' /\ pg_consumed p' = (pg_consumed p + n)%nat /\
    pg_entries p' = pg_entries p ++ map cue_of (shown_of max_bytes (take n cs)) /\
    pg_omitted p' = pg_omitted p + omitted_of max_bytes (take n cs) /\
    (pg_text p = kIndexHeader -> cs <> [] -> (0 < n)%nat).
Proof.
  revert p. induction cs as [|c cs IH]; intros p Hp Hroom; cbn [index_loop] in Hp.
  - injection Hp as <-. exists 0%nat. unfold omitted_of, shown_of. simpl. rewrite app_nil_r. split_and!; done || lia.
  - destruct (index_line (cue_of c)) as [line|] eqn:Hline; [|discriminate]. simpl in Hp.
    destruct (Z.ltb_spec (max_bytes - slength kIndexHeader - kFooterReserve) (slength line)) as [Hlong|Hfits].
    + assert (Hs : shown max_bytes c = false) by (unfold shown; rewrite Hline; apply Z.leb_gt; lia).
      apply IH in Hp as (n & Hn & Hr & Hc & He & Ho & _); [|exact Hroom]. exists (S n). simpl in *. unfold shown_of, omitted_of in *. simpl. rewrite Hs. simpl.
      split_and!; try done; lia.
    + assert (Hs : shown max_bytes c = true) by (unfold shown; rewrite Hline; apply Z.leb_le; lia).
      destruct (Z.ltb_spec max_bytes (slength (pg_text p) + slength line + kFooterReserve)) as [Hfull|Hroom'].
      * injection Hp as <-. exists 0%nat. unfold omitted_of, shown_of. simpl. rewrite app_nil_r. split_and!; try done; try lia. intros Ht _. rewrite Ht in Hfull. lia.
      * apply IH in Hp as (n & Hn & Hr & Hc & He & Ho & _); [|unfold room; simpl; rewrite slength_app; lia].
        exists (S n). simpl in *. unfold shown_of, omitted_of in *. simpl. rewrite Hs. simpl.
        rewrite He, <- app_assoc. split_and!; try done; lia.
Qed.
Lemma footer_fits n count offset : 0 <= n < 2 ^ 64 -> 0 <= count <= 20 ->
  slength (more_line n) + slength (omitted_line count) <= kFooterReserve /\ slength (empty_line offset) <= kFooterReserve.
Proof.
  intros Hn Hc. unfold more_line, omitted_line, empty_line. rewrite !slength_app.
  pose proof (pretty_length 20 n ltac:(simpl; lia) ltac:(lia)). pose proof (pretty_length 2 count ltac:(simpl; lia) ltac:(lia)).
  unfold kFooterReserve. split; [|destruct (offset =? 0)];
    repeat match goal with |- context [slength ?s] => progress (let v := eval vm_compute in (slength s) in
      match v with Z.pos _ => change (slength s) with v | Z0 => change (slength s) with v end) end; lia.
Qed.
End PageFacts.

(** ** What a backend promises *)
Definition touched (keys : list RecordKey) (t : Z) (r : MemoryRecord) : MemoryRecord :=
  if bool_decide (mr_key r ∈ keys) then with_read t r else r.
(** What a query may see. *)
Definition visible (q : Query) (r : MemoryRecord) : Prop :=
  key_scope (mr_key r) = qy_scope q /\ mr_shadow r = false /\ kind_selected (qy_kinds q) (mr_kind r) = true.
(** A time that the store keeps exactly. *)
Definition stored_time (t : Z) : Prop := fits_s 64 t /\ t mod ns_per_ms = 0.
Class BackendLaws {W} (B : Backend W) (ok : W -> Prop) (records : W -> list MemoryRecord) := {
  get_law : forall k w, ok w ->
    let '(r, w') := be_get B k w in
    ok w' /\ records w' = records w /\ match r with Ok x => x ∈ records w /\ mr_key x = k | Err _ => True end;
  search_law : forall q limit w, ok w -> 0 <= limit ->
    let '(r, w') := be_search B q limit w in
    ok w' /\ records w' = records w /\
    match r with
    | Ok hits => Forall (fun h => hit_record h ∈ records w /\ visible q (hit_record h)) hits /\ Z.of_nat (length hits) <= limit
    | Err _ => True
    end;
  touch_law : forall keys t w, ok w -> stored_time t ->
    let '(r, w') := be_touch B keys t w in
    ok w' /\ records w' = match r with Ok _ => map (touched keys t) (records w) | Err _ => records w end }.

Lemma read_at_stored now : 0 <= now < 2 ^ 63 -> stored_time (read_at now).
Proof.
  intros Hn. unfold stored_time, read_at, fits_s, ns_per_ms. split; [|by rewrite Z.mod_mul].
  Z.to_euclidean_division_equations. lia.
Qed.
Section RecallFacts.
Context {W : Type} (B : Backend W) (ok : W -> Prop) (records : W -> list MemoryRecord) `{!BackendLaws B ok records}.
Lemma select_hits_spec r w : ok w -> 1 <= rq_limit r ->
  let '(x, w') := select_hits B r w in
  ok w' /\ records w' = records w /\
  match x with
  | Ok hits => Forall (fun h => hit_record h ∈ records w /\ visible (rq_query r) (hit_record h)) hits /\
      Z.of_nat (length hits) <= rq_limit r
  | Err _ => True
  end.
Proof.
  intros Hok Hl. unfold select_hits. destruct (negb _).
  - pose proof (get_law (mkRecordKey (rq_record_id r) (qy_scope (rq_query r))) w Hok) as Hg.
    destruct (be_get B _ w) as [[x|e] w']; [|exact Hg]. destruct Hg as (Hok' & Hr & Hx & Hk).
    destruct (mr_shadow x) eqn:Hs; [by split_and!|]. destruct (kind_selected _ _) eqn:Hkind; simpl; [|by split_and!].
    split_and!; [done|done| |simpl; lia]. repeat constructor; try done. simpl. by rewrite Hk.
  - apply search_law; [done|lia].
Qed.
End RecallFacts.

Lemma recall_request_limit r u : validate_recall_request r = Ok u -> validate_limit (rq_limit r) = Ok tt.
Proof.
  unfold validate_recall_request, validate_query. destruct u. intros H. case_bool_decide; ok_inv; assumption.
Qed.
Lemma index_request_bounds r : 0 <= ir_limit r -> 0 <= ir_offset r -> forall u, validate_index_request r = Ok u ->
  1 <= ir_limit r <= 20 /\ 0 <= ir_offset r <= 2 ^ 63 - 101 /\ 512 <= ir_max_bytes r <= kMaxIndexBytes.
Proof.
  intros Hl Ho u Hv. unfold validate_index_request in Hv. ok_inv. bool_prop. lia.
Qed.

(** ** Walking the index *)
Section Walk.
Context `{JsonLibrary} {W : Type} (B : Backend W).
Definition at_offset (r : IndexRequest) (offset : Z) : IndexRequest :=
  mkIndexRequest (ir_scope r) (ir_kinds r) (ir_limit r) offset (ir_max_bytes r).
(** Reading page after page, as the tool is told to. *)
Fixpoint walk (fuel : nat) (r : IndexRequest) (w : W) : option (list IndexResult) * W :=
  match fuel with
  | O => (None, w)
  | S fuel =>
      match index B r w with
      | (Some (Ok page), w) =>
          match ix_next_offset page with
          | None => (Some [page], w)
          | Some offset => let '(pages, w) := walk fuel (at_offset r offset) w in (cons page <$> pages, w)
          end
      | (_, w) => (None, w)
      end
  end.
Definition writable (c : IndexEntry) : Prop := is_Some (json_dump (JString (key_id (ie_key c)))).
Lemma index_loop_total max_bytes cs p : Forall writable cs -> is_Some (index_loop max_bytes cs p).
Proof.
  intros Hcs. revert p. induction Hcs as [|c cs [id Hid] _ IH]; intros p; cbn [index_loop]; [by eexists|].
  unfold index_line. cbn [cue_of ie_key]. rewrite Hid. simpl.
  destruct (_ <? _); [apply IH|]. destruct (_ <? _); [by eexists|apply IH].
Qed.
Lemma shown_of_app max_bytes a b : shown_of max_bytes (a ++ b) = shown_of max_bytes a ++ shown_of max_bytes b.
Proof. apply List.filter_app. Qed.
Lemma omitted_of_app max_bytes a b : omitted_of max_bytes (a ++ b) = omitted_of max_bytes a + omitted_of max_bytes b.
Proof. unfold omitted_of. rewrite List.filter_app, length_app. lia. Qed.
Lemma make_index_total candidates r u : validate_index_request r = Ok u -> Forall writable candidates ->
  exists page, make_index candidates r = Some (Ok page).
Proof.
  intros Hv Hc. unfold make_index. rewrite Hv.
  destruct (index_loop_total (ir_max_bytes r) (take (Z.to_nat (ir_limit r)) candidates) (mkPage kIndexHeader [] 0 0)) as [p ->]; [by apply Forall_take|].
  by eexists.
Qed.
End Walk.

(** A page of the index never exceeds the budget of the request, footer included: it
    shows, in order, the notes among the first ones that fit a page at all and counts the
    others, and its offset leads on to what it has not reached.  Every page gets further. *)
Lemma index_page `{JsonLibrary} candidates r result :
  0 <= ir_limit r -> 0 <= ir_offset r -> make_index candidates r = Some (Ok result) ->
  slength (ix_text result) <= ir_max_bytes r /\
  exists n, (n <= Nat.min (Z.to_nat (ir_limit r)) (length candidates))%nat /\ (candidates <> [] -> (0 < n)%nat) /\
    ix_entries result = map cue_of (shown_of (ir_max_bytes r) (take n candidates)) /\
    ix_omitted result = omitted_of (ir_max_bytes r) (take n candidates) /\
    ix_next_offset result = if (n <? length candidates)%nat then Some (ir_offset r + Z.of_nat n) else None.
Proof.
  intros Hl0 Ho0. unfold make_index. destruct (validate_index_request r) as [u|e] eqn:Hv; [|discriminate].
  destruct (index_request_bounds r Hl0 Ho0 u Hv) as (Hl & Ho & Hm).
  destruct (index_loop _ _ _) as [p|] eqn:Hp; [|discriminate]. intros [= <-]. cbn [ix_text ix_entries ix_omitted ix_next_offset].
  assert (Hh : slength kIndexHeader <= 320) by (vm_compute; discriminate).
  apply index_loop_spec in Hp as (n & Hn & Hr & Hc & He & Hom & Hpos); [|unfold room, kFooterReserve; simpl; lia].
  rewrite length_take in Hn. simpl in Hc, He, Hom. rewrite take_take in He, Hom.
  replace (n `min` Z.to_nat (ir_limit r))%nat with n in He, Hom by lia. rewrite Hc. split.
  - rewrite !slength_app. unfold room in Hr.
    assert (Hcount : 0 <= pg_omitted p <= 20).
    { rewrite Hom. unfold omitted_of. pose proof (filter_length_le (fun c => negb (shown (ir_max_bytes r) c)) (take n candidates)) as Hf.
      rewrite length_take in Hf. lia. }
    destruct (footer_fits (ir_offset r + Z.of_nat n) (pg_omitted p) (ir_offset r)) as [Hf1 Hf2]; [lia|exact Hcount|].
    assert (Hnn : forall s, 0 <= slength s) by (intros; unfold slength; lia).
    assert (He0 : slength "" = 0) by reflexivity.
    pose proof (Hnn (more_line (ir_offset r + Z.of_nat n))). pose proof (Hnn (omitted_line (pg_omitted p))).
    case_bool_decide as Hcand.
    + subst candidates. simpl in Hn. assert (n = 0)%nat as -> by lia. unfold omitted_of in Hom. simpl in Hom.
      rewrite Hom. simpl. rewrite He0. lia.
    + rewrite He0. destruct (n <? length candidates)%nat, (negb (pg_omitted p =? 0)); rewrite ?He0; lia.
  - exists n. split_and!; [lia| |done|exact Hom|reflexivity].
    intros Hne. apply Hpos; [done|]. destruct candidates; [done|]. destruct (Z.to_nat (ir_limit r)) eqn:E; [lia|done].
Qed.

(** Following the offsets from the first page on reads the whole index. *)
Lemma index_walk `{JsonLibrary} {W} (B : Backend W) (quiet : W -> Prop) all r fuel w :
  0 <= ir_limit r -> validate_index_request (at_offset r 0) = Ok tt ->
  Forall writable all -> Z.of_nat (length all) < 2 ^ 63 - 101 ->
  (forall offset w, quiet w -> 0 <= offset -> validate_index_request (at_offset r offset) = Ok tt -> exists w', quiet w' /\
    be_list B (at_offset r offset) w = (Ok (take (Z.to_nat (ir_limit r) + 1) (drop (Z.to_nat offset) all)), w')) ->
  quiet w -> (length all < fuel)%nat ->
  exists pages w', walk B fuel (at_offset r 0) w = (Some pages, w') /\
    Forall (fun p => slength (ix_text p) <= ir_max_bytes r) pages /\
    concat (map ix_entries pages) = map cue_of (shown_of (ir_max_bytes r) all) /\
    fold_right Z.add 0 (map ix_omitted pages) = omitted_of (ir_max_bytes r) all.
Proof.
  intros Hl0 Hv0 Hwr Hsize Hlist. set (limit := Z.to_nat (ir_limit r)) in *.
  assert (Hv : forall o, 0 <= o -> o <= Z.of_nat (length all) -> validate_index_request (at_offset r o) = Ok tt).
  { intros o Ho Hle. revert Hv0. unfold validate_index_request, at_offset. cbn.
    destruct (validate_required _ _ _); [|done]. destruct (validate_kinds _); [|done]. cbn [result_bind].
    destruct (_ || _); [done|]. change (2 ^ 63 - 1 - 100 <? 0) with false. cbv iota. by replace (2 ^ 63 - 1 - 100 <? o) with false by lia. }
  assert (Hfrom : forall fuel i w, (i <= length all)%nat -> quiet w -> (length (drop i all) < fuel)%nat ->
    exists pages w', walk B fuel (at_offset r (Z.of_nat i)) w = (Some pages, w') /\
      Forall (fun p => slength (ix_text p) <= ir_max_bytes r) pages /\
      concat (map ix_entries pages) = map cue_of (shown_of (ir_max_bytes r) (drop i all)) /\
      fold_right Z.add 0 (map ix_omitted pages) = omitted_of (ir_max_bytes r) (drop i all));
    [|intros Hw Hfuel; apply (Hfrom fuel 0%nat w); [lia|done|done]].
  clear fuel w. induction fuel as [|fuel IH]; intros i w Hi Hw Hf; [lia|]. cbn [walk]. unfold index.
  pose proof (Hv (Z.of_nat i) ltac:(lia) ltac:(lia)) as Hvi. rewrite Hvi.
  destruct (Hlist (Z.of_nat i) w Hw ltac:(lia) Hvi) as (w1 & Hw1 & ->). rewrite Nat2Z.id. set (cs := take (limit + 1) (drop i all)).
  destruct (make_index_total cs (at_offset r (Z.of_nat i)) tt Hvi) as [page Hpage]; [by apply Forall_take, Forall_drop|].
  rewrite Hpage. destruct (index_page cs (at_offset r (Z.of_nat i)) page Hl0 (Nat2Z.is_nonneg i) Hpage) as (Hb & n & Hn & Hpos & He & Ho & Hnext).
  destruct (index_request_bounds (at_offset r 0) Hl0 (Z.le_refl 0) tt Hv0) as (Hlim & _ & _).
  cbn [at_offset ir_limit ir_max_bytes ir_offset] in *. fold limit in Hn.
  assert (Htake : take n cs = take n (drop i all)) by (unfold cs; rewrite take_take; f_equal; lia).
  assert (Hlen : length cs = Nat.min (limit + 1) (length (drop i all))) by (unfold cs; by rewrite length_take).
  rewrite Htake in He, Ho. rewrite Hnext. destruct (Nat.ltb_spec n (length cs)) as [Hmore|Hall].
  - assert (Hn0 : (0 < n)%nat) by (apply Hpos; intros ->; simpl in Hmore; lia). rewrite length_drop in Hlen, Hf.
    replace (Z.of_nat i + Z.of_nat n) with (Z.of_nat (i + n)) by lia. change (at_offset (at_offset r _) ?o) with (at_offset r o).
    destruct (IH (i + n)%nat w1 ltac:(lia) Hw1 ltac:(rewrite length_drop; lia)) as (pages & w2 & -> & Hbs & Hes & Hos).
    exists (page :: pages), w2. split; [done|]. split; [by constructor|]. simpl. rewrite Hes, Hos, He, Ho.
    rewrite <- drop_drop. rewrite <- (take_drop n (drop i all)) at 3 6.
    rewrite shown_of_app, omitted_of_app, map_app. split; [done|lia].
  - rewrite take_ge in He, Ho by lia. exists [page], w1. split; [done|]. split; [by repeat constructor|]. simpl.
    rewrite app_nil_r, Z.add_0_r. by split.
Qed.

Lemma limit_positive n : validate_limit n = Ok tt -> 0 <= n -> 1 <= n.
Proof. unfold validate_limit. destruct (Z.eqb_spec n 0); [discriminate|lia]. Qed.
Lemma returned_keys t hits :
  map (fun h => mr_key (hit_record h)) (map (fun h => mkHit (with_read t (hit_record h)) (hit_score h)) hits) =
  map (fun h => mr_key (hit_record h)) hits.
Proof. rewrite map_map. by apply map_ext. Qed.
(** Where the snapshots stand once the read times were written over [stored]. *)
Lemma returned_snapshots stored (seen : MemoryRecord -> Prop) (known : list MemoryRecord) t hits :
  Forall (fun h => hit_record h ∈ known /\ seen (hit_record h)) hits ->
  let after := map (touched (map (fun h => mr_key (hit_record h)) hits) t) stored in
  Forall (fun h => exists selected, selected ∈ known /\ seen selected /\
    with_read t (hit_record h) = with_read t selected /\
    (selected ∈ stored -> with_read t (hit_record h) ∈ after) /\
    (Forall (fun x => mr_key x <> mr_key selected) stored -> Forall (fun x => mr_key x <> mr_key (hit_record h)) after)) hits.
Proof.
  intros Hvis after. apply Forall_forall. intros h Hh. destruct (proj1 (Forall_forall _ _) Hvis h Hh) as [Hin Hseen].
  exists (hit_record h). split_and!; [done..| |].
  - intros Hst. apply list_elem_of_In, in_map_iff. exists (hit_record h). split; [|by apply list_elem_of_In].
    unfold touched. rewrite bool_decide_eq_true_2; [done|]. apply list_elem_of_In, (in_map (fun h => mr_key (hit_record h))).
    by apply list_elem_of_In.
  - intros Hgone. apply Forall_map. eapply Forall_impl; [exact Hgone|]. intros x Hx. unfold touched. by case_bool_decide.
Qed.

(** ** Properties *)
(** What the prompt shows of a note on one line is its words, in order, separated by
    single spaces: no line break or tabulator of a note reaches it, and nothing else is lost. *)
Theorem flatten_words text : flatten text = joined space (runs not_space text).
Proof.
  induction text as [|c text IH]; [done|]. unfold flatten in *. cbn [flatten_loop].
  assert (Hc : is_space c = negb (not_space c)) by (unfold not_space; by rewrite negb_involutive). rewrite Hc.
  destruct (not_space c) eqn:Hn; cbn [negb].
  - rewrite flatten_loop_spec by done. by rewrite continued_cons.
  - cbn [runs]. by rewrite Hn.
Qed.

(** C29: Recall returns what was stored when it was selected: each hit is the snapshot of a
    note that was stored and visible to the query at the selection, with its read time
    advanced. Whatever other operations do to the store between the selection and the write
    of the read times, recall itself changes only the read times of the selected notes that
    are still there, all of them or none: a note still stored as it was selected is then
    stored exactly as it is returned, a note removed in between keeps its returned snapshot
    and stays removed. When recall fails, only the others' changes are seen. *)
Theorem recall_returns_stored {W} (B : Backend W) ok records `{!BackendLaws B ok records} meanwhile now r w :
  ok w -> (forall w1, ok w1 -> ok (meanwhile w1)) -> 0 <= now < 2 ^ 63 -> 0 <= rq_limit r ->
  let '(x, w') := recall_amid B meanwhile now r w in
  ok w' /\
  exists w1, ok w1 /\ records w1 = records w /\
  match x with
  | Ok result =>
      let w2 := if decide (rr_hits result = []) then w1 else meanwhile w1 in
      let keys := map (fun h => mr_key (hit_record h)) (rr_hits result) in
      records w' = map (touched keys (read_at now)) (records w2) /\
      Z.of_nat (length (rr_hits result)) <= rq_limit r /\
      rr_text result = render_recall_text (rr_hits result) /\
      Forall (fun h => exists selected, selected ∈ records w /\ visible (rq_query r) selected /\
        hit_record h = with_read (read_at now) selected /\
        (selected ∈ records w2 -> hit_record h ∈ records w') /\
        (Forall (fun x => mr_key x <> mr_key selected) (records w2) ->
         Forall (fun x => mr_key x <> mr_key (hit_record h)) (records w'))) (rr_hits result)
  | Err _ => records w' = records w1 \/ records w' = records (meanwhile w1)
  end.
Proof.
  intros Hok Hmean Hn Hl0. unfold recall_amid. destruct (validate_recall_request r) as [u|e] eqn:Hv; [|eauto 6].
  assert (Hl : 1 <= rq_limit r) by (apply recall_request_limit, limit_positive in Hv; lia).
  pose proof (select_hits_spec B ok records r w Hok Hl) as Hs.
  destruct (select_hits B r w) as [[hits|e] w1]; [|destruct Hs as (Hok1 & Hr1 & _); split; eauto 6].
  destruct Hs as (Hok1 & Hr1 & Hvis & Hlen). set (t := read_at now).
  set (keys := map (fun h => mr_key (hit_record h)) hits).
  rewrite <- Hr1 in Hvis. case_bool_decide as He.
  - subst hits. cbv zeta. split; [done|]. exists w1. cbn [rr_hits rr_text map]. rewrite decide_True by done.
    split_and!; try done. rewrite (map_ext _ id) by done. by rewrite map_id.
  - pose proof (touch_law keys t (meanwhile w1) (Hmean _ Hok1) (read_at_stored now Hn)) as Ht.
    destruct (be_touch B keys t (meanwhile w1)) as [[[]|e] w2]; destruct Ht as [Hok2 Hr2]; (split; [done|]); exists w1;
      (split; [done|split; [done|]]); [|by right].
    cbv zeta. cbn [rr_hits rr_text]. rewrite decide_False by (by destruct hits). rewrite returned_keys, length_map. fold keys.
    split_and!; [done..|]. apply Forall_map. eapply Forall_impl; [apply (returned_snapshots (records (meanwhile w1))); exact Hvis|].
    intros h (selected & Hin & Hx). exists selected. rewrite <- Hr1, Hr2. by split.
Qed.
