(* ===== verification/LongtermStore.v ===== *)
(** * oran-memory: the SQLite store of long-term memory

    Models [src/oran-memory/longterm_fts5.cpp], [longterm_index.cpp] and
    [longterm-import.cpp] over the connections of [Sqlite]: the notes and the full-text
    index kept beside them, which every write changes together.  It implements the backend
    of [Longterm].

    Parameters: the faults, the JSON library, and of SQLite what a full-text query matches
    and scores, and the tags it reads in a JSON text.  An exception of the JSON library
    unwinds through a coroutine as an error does, transactions included: the error
    [thrown] stands for it. *)
From stdpp Require Import sorting.
From S2P Require Import Prelude.
From S2P Require Import Core.
From S2P Require Import Utf8.
From S2P Require Import IsoTime.
From S2P Require Import TimeOrder.
From S2P Require Import Json.
From S2P Require Import OrderedJson.
From S2P Require Import Sqlite.
From S2P Require Import Longterm.
Import EnumNames.
#[local] Open Scope Z_scope.

(** ** Tables *)
Record LongtermRow := mkLongtermRow {
  lw_scope : string; lw_id : string; lw_kind : string; lw_title : string; lw_body : string;
  lw_created : string; lw_updated : string; lw_read : string; lw_importance : double;
  lw_tags : string; lw_linked : string; lw_shadow : Z }.
Record FtsRow := mkFtsRow {
  fw_scope : string; fw_id : string; fw_kind : string; fw_shadow : Z; fw_title : string; fw_body : string; fw_tags : string }.
Record LongtermTables := mkLongtermTables { lg_rows : list LongtermRow; lg_fts : list FtsRow }.
Notation MemoryDb := (Sqlite.Db LongtermTables).
Notation MemoryConn := (Sqlite.Conn LongtermTables).

Definition row_key (r : LongtermRow) : RecordKey := mkRecordKey (lw_id r) (lw_scope r).
Definition fts_key (f : FtsRow) : RecordKey := mkRecordKey (fw_id f) (fw_scope f).
(** What SQLite computes: whether a query matches an indexed row, its score among all of
    them, and, at its n-th call, [COALESCE((SELECT group_concat(value, ' ') ...), '')] over
    the elements of a JSON text, in the order it happens to visit them. *)
Class FtsEngine := {
  fts_match : string -> FtsRow -> bool;
  fts_score : string -> list FtsRow -> FtsRow -> double;
  sql_tags : nat -> string -> option string }.

(** ** Rows and records *)
Definition thrown : Error := Errors.internal "exception".
Section Rows.
Context `{JsonLibrary}.
Fixpoint strings_of (i : nat) (values : list json) (field : string) : Result (list string) :=
  match values with
  | [] => Ok []
  | JString s :: values => let? rest := strings_of (S i) values field in Ok (s :: rest)
  | _ :: _ => Err (Errors.with_ctx (Errors.with_ctx (Errors.storage "long-term memory string-list JSON has a non-string value")
                "field" field) "index" (pretty i))
  end.
Definition string_list_from_json (text field : string) : Result (list string) :=
  match json_parse text with
  | DocThrew => Err thrown
  | Malformed what => Err (Errors.with_ctx (Errors.with_ctx (Errors.storage "long-term memory string-list JSON is malformed")
      "field" field) "detail" what)
  | Doc (JArray values) => strings_of 0 values field
  | Doc _ => Err (Errors.with_ctx (Errors.storage "long-term memory string-list JSON is not an array") "field" field)
  end.
Definition string_list_to_json (values : list string) : Result string :=
  match json_dump (JArray (map JString values)) with Some s => Ok s | None => Err thrown end.
Fixpoint joined_tags_loop (tags : list string) (out : string) : string :=
  match tags with
  | [] => out
  | tag :: tags => joined_tags_loop tags ((if bool_decide (out = ""%string) then out else out +:+ " ") +:+ tag)
  end.
Definition joined_tags (tags : list string) : string := joined_tags_loop tags "".
Definition record_kind_from_text (text : string) : Result RecordKind :=
  match parse_enum text with
  | Some k => Ok k
  | None => Err (Errors.with_ctx (Errors.storage "long-term memory row has unknown kind") "kind" text)
  end.
Definition read_time (text field : string) : Result Z :=
  match parse_iso8601_utc (lit text) with Ok t => Ok t | Err e => Err (Errors.with_ctx e "field" field) end.
(** [read_record_row]: the columns are there and not null. *)
Definition read_record_row (r : LongtermRow) : Result MemoryRecord :=
  let? kind := record_kind_from_text (lw_kind r) in
  let? created := read_time (lw_created r) "created_at" in
  let? updated := read_time (lw_updated r) "updated_at" in
  let? read := read_time (lw_read r) "last_read_at" in
  let? tags := string_list_from_json (lw_tags r) "tags_json" in
  let? linked := string_list_from_json (lw_linked r) "linked_record_ids_json" in
  fail? negb (lw_shadow r =? 0) && negb (lw_shadow r =? 1) with
    Errors.with_ctx (Errors.storage "long-term memory row has invalid shadow value") "shadow" (pretty (lw_shadow r));
  Ok (mkMemory (mkRecordKey (lw_id r) (lw_scope r)) kind (lw_title r) (lw_body r) created updated read
        (lw_importance r) tags linked (lw_shadow r =? 1)).
Definition time_text (t : Z) : string := str (format_iso8601_utc t).
Definition shadow_flag (b : bool) : Z := if b then 1 else 0.
Definition record_row (r : MemoryRecord) (tags linked : string) : LongtermRow :=
  mkLongtermRow (key_scope (mr_key r)) (key_id (mr_key r)) (enum_name (mr_kind r)) (mr_title r) (mr_body r)
    (time_text (mr_created r)) (time_text (mr_updated r)) (time_text (mr_read r)) (mr_importance r) tags linked
    (shadow_flag (mr_shadow r)).
End Rows.

(** ** Statements *)
Definition constraint_failed : Error := Errors.storage "sqlite statement step failed".
(** The [CHECK]s and [NOT NULL]s of the table; a NaN is stored as NULL. *)
Definition row_allowed (r : LongtermRow) : bool :=
  negb (importance_invalid (lw_importance r)) && ((lw_shadow r =? 0) || (lw_shadow r =? 1)).
Definition row_at (k : RecordKey) (t : LongtermTables) : option LongtermRow :=
  find (fun r => bool_decide (row_key r = k)) (lg_rows t).
Definition text_max (a b : string) : string := if bytes_lt (lit a) (lit b) then b else a.
(** [ON CONFLICT(scope_key, id) DO UPDATE]. *)
Definition conflict_update (old new : LongtermRow) : LongtermRow :=
  mkLongtermRow (lw_scope old) (lw_id old) (lw_kind new) (lw_title new) (lw_body new) (lw_created old)
    (text_max (lw_updated old) (lw_updated new)) (lw_read old) (lw_importance new) (lw_tags new) (lw_linked new) (lw_shadow new).
Definition upd_row (k : RecordKey) (f : LongtermRow -> LongtermRow) (t : LongtermTables) : LongtermTables :=
  mkLongtermTables (map (fun r => if bool_decide (row_key r = k) then f r else r) (lg_rows t)) (lg_fts t).
Definition upsert_row (r : LongtermRow) (t : LongtermTables) : Result LongtermRow * LongtermTables :=
  if negb (row_allowed r) then (Err constraint_failed, t)
  else match row_at (row_key r) t with
  | Some old => (Ok (conflict_update old r), upd_row (row_key r) (fun old => conflict_update old r) t)
  | None => (Ok r, mkLongtermTables (lg_rows t ++ [r]) (lg_fts t))
  end.
Definition delete_fts (k : RecordKey) (t : LongtermTables) : LongtermTables :=
  mkLongtermTables (lg_rows t) (filter (fun f => fts_key f <> k) (lg_fts t)).
Definition insert_fts (f : FtsRow) (t : LongtermTables) : LongtermTables :=
  mkLongtermTables (lg_rows t) (lg_fts t ++ [f]).
Definition delete_row (k : RecordKey) (t : LongtermTables) : LongtermTables :=
  mkLongtermTables (filter (fun r => row_key r <> k) (lg_rows t)) (lg_fts t).
Definition touch_row (now : string) (k : RecordKey) (t : LongtermTables) : LongtermTables :=
  upd_row k (fun r => if bytes_lt (lit (lw_read r)) (lit now)
    then mkLongtermRow (lw_scope r) (lw_id r) (lw_kind r) (lw_title r) (lw_body r) (lw_created r) (lw_updated r) now
           (lw_importance r) (lw_tags r) (lw_linked r) (lw_shadow r)
    else r) t.
Definition record_fts (r : MemoryRecord) : FtsRow :=
  mkFtsRow (key_scope (mr_key r)) (key_id (mr_key r)) (enum_name (mr_kind r)) (shadow_flag (mr_shadow r))
    (mr_title r) (mr_body r) (joined_tags (mr_tags r)).

(** ** Full-text queries *)
Definition word_byte (ch : ascii) : bool :=
  (0x80 <=? code ch) || ((97 <=? code ch) && (code ch <=? 122)) || ((65 <=? code ch) && (code ch <=? 90)) ||
  ((48 <=? code ch) && (code ch <=? 57)).
Definition dquote : ascii := byte_of 34.
Definition quote_fts_token (token : bytes) : bytes :=
  [dquote] ++ concat (map (fun ch => if decide (ch = dquote) then [dquote; dquote] else [ch]) token) ++ [dquote].
Fixpoint skip_while (p : ascii -> bool) (text : bytes) : bytes :=
  match text with ch :: text' => if p ch then skip_while p text' else text | [] => [] end.
Fixpoint take_while (p : ascii -> bool) (text : bytes) : bytes :=
  match text with ch :: text' => if p ch then ch :: take_while p text' else [] | [] => [] end.
(** The loop of [make_fts_query]; every turn but the last takes a word. *)
Fixpoint query_loop (fuel : nat) (text out : bytes) (terms : nat) : bytes :=
  match fuel with
  | O => out
  | S fuel =>
      if bool_decide (text = []) || (32 <=? terms)%nat then out
      else
        let text := skip_while (fun ch => negb (word_byte ch)) text in
        match take_while word_byte text with
        | [] => query_loop fuel text out terms
        | word =>
            query_loop fuel (skip_while word_byte text)
              ((if bool_decide (out = []) then out else out ++ lit " OR ") ++ quote_fts_token word) (S terms)
        end
  end.
Definition make_fts_query (text : string) : string := str (query_loop (S (String.length text)) (lit text) [] 0).

(** ** Reading *)
Section Engine.
Context `{JsonLibrary} `{FtsEngine}.
(** [ORDER BY lexical_score DESC, updated_at DESC, id ASC]. *)
Definition hit_before (a b : LongtermRow * double) : Prop :=
  match SpecFloat.SFcompare (snd a) (snd b) with
  | Some Gt => True
  | Some Lt => False
  | _ => bytes_lt (lit (lw_updated (fst b))) (lit (lw_updated (fst a))) = true \/
         (lw_updated (fst a) = lw_updated (fst b) /\ bytes_lt (lit (lw_id (fst b))) (lit (lw_id (fst a))) = false)
  end.
#[export] Instance hit_before_dec a b : Decision (hit_before a b).
Proof. unfold hit_before. destruct (SpecFloat.SFcompare _ _) as [[]|]; apply _. Defined.
Definition kind_in (kinds : list RecordKind) (text : string) : bool :=
  bool_decide (kinds = []) || bool_decide (text ∈ map enum_name kinds).
(** The join of [kSearchSelectSql]. *)
Definition hits_of (q : Query) (t : LongtermTables) : list (LongtermRow * double) :=
  let m := make_fts_query (qy_text q) in
  flat_map (fun f =>
    if fts_match m f && bool_decide (fw_scope f = qy_scope q) then
      map (fun r => (r, fts_score m (lg_fts t) f))
        (filter (fun r => row_key r = fts_key f /\ lw_shadow r = 0 /\ kind_in (qy_kinds q) (lw_kind r) = true) (lg_rows t))
    else []) (lg_fts t).
Definition read_hit (h : LongtermRow * double) : Result SearchHit :=
  let? record := read_record_row (fst h) in Ok (mkHit record (snd h)).

(** [ORDER BY CASE kind ... END, importance DESC, updated_at DESC, id ASC]. *)
Definition kind_rank (kind : string) : Z :=
  if bool_decide (kind = "feedback"%string) then 0 else if bool_decide (kind = "user"%string) then 1 else 2.
Definition note_before (a b : LongtermRow) : Prop :=
  kind_rank (lw_kind a) < kind_rank (lw_kind b) \/
  (kind_rank (lw_kind a) = kind_rank (lw_kind b) /\ hit_before (a, lw_importance a) (b, lw_importance b)).
#[export] Instance note_before_dec a b : Decision (note_before a b).
Proof. unfold note_before. apply _. Defined.
(** [substr(text, 1, n)] of a text: a character is a byte with the continuation bytes after it. *)
Fixpoint sql_prefix (n : nat) (text : bytes) : bytes :=
  match text with
  | [] => []
  | ch :: rest =>
      if (0x80 <=? code ch) && (code ch <=? 0xBF) then ch :: sql_prefix n rest
      else match n with O => [] | S n => ch :: sql_prefix n rest end
  end.
Definition entry_row (r : LongtermRow) : string * string * string * string :=
  (str (sql_prefix 8193 (lit (lw_id r))), lw_kind r, str (sql_prefix 121 (lit (lw_title r))), str (sql_prefix 241 (lit (lw_body r)))).
Definition listed (scope : string) (kinds : list RecordKind) (t : LongtermTables) : list LongtermRow :=
  merge_sort note_before
    (filter (fun r => lw_scope r = scope /\ lw_shadow r = 0 /\ kind_in kinds (lw_kind r) = true) (lg_rows t)).
Definition index_rows (r : IndexRequest) (t : LongtermTables) : list LongtermRow :=
  take (Z.to_nat (ir_limit r) + 1) (drop (Z.to_nat (ir_offset r)) (listed (ir_scope r) (ir_kinds r) t)).
Definition read_entry (scope : string) (r : LongtermRow) : Result IndexEntry :=
  let '(id, kind, title, summary) := entry_row r in
  match parse_enum kind with
  | None => Err (Errors.storage "memory index has an unknown record kind")
  | Some k => Ok (mkEntry (mkRecordKey id scope) k title summary)
  end.

(** ** The backend *)
Context (faults : nat -> option Error).
#[local] Notation call := (Sqlite.call faults).
#[local] Notation step_only := (Sqlite.step_only faults).
#[local] Notation transaction := (Sqlite.transaction faults).

Definition get (k : RecordKey) : MemoryDb MemoryRecord :=
  db! _ := lift (validate_key k) in
  db! _ := open_reader faults in
  db! found := Sqlite.select faults (fun t => Ok (row_at k t)) in
  match found with
  | None => failD (Errors.with_ctx (Errors.with_ctx no_record "scope_key" (key_scope k)) "id" (key_id k))
  | Some row => db! record := lift (read_record_row row) in db! _ := step_only in retD record
  end.
Definition search (q : Query) (limit : Z) : MemoryDb (list SearchHit) :=
  db! _ := lift (validate_query q limit) in
  if bool_decide (make_fts_query (qy_text q) = ""%string) then retD []
  else
    db! _ := open_reader faults in
    fun c => read_rows faults read_hit (take (Z.to_nat limit) (merge_sort hit_before (hits_of q (cn_tables c)))) c.
Definition list_notes (r : IndexRequest) : MemoryDb (list IndexEntry) :=
  db! _ := lift (validate_index_request r) in
  db! _ := open_reader faults in
  fun c => read_rows faults (read_entry (ir_scope r)) (index_rows r (cn_tables c)) c.

(** A statement of the cache: acquired, bound and stepped. *)
Definition run_cached_at {A} (f : nat -> LongtermTables -> Result A * LongtermTables) : MemoryDb A :=
  db! _ := step_only in db! _ := step_only in call f.
Definition run_cached {A} (f : LongtermTables -> Result A * LongtermTables) : MemoryDb A := run_cached_at (fun _ => f).
Definition upsert_body (r : MemoryRecord) : MemoryDb MemoryRecord :=
  db! tags := lift (string_list_to_json (mr_tags r)) in
  db! linked := lift (string_list_to_json (mr_linked r)) in
  db! row := run_cached (upsert_row (record_row r tags linked)) in
  db! stored := lift (read_record_row row) in
  db! _ := step_only in
  db! _ := run_cached (fun t => (Ok tt, delete_fts (mr_key stored) t)) in
  db! _ := run_cached (fun t => (Ok tt, insert_fts (record_fts stored) t)) in
  retD stored.
Definition upsert (r : MemoryRecord) : MemoryDb MemoryRecord :=
  db! _ := lift (validate_record r) in
  db! _ := step_only in
  transaction (upsert_body r).
Fixpoint touch_loop (keys : list RecordKey) (now : string) : MemoryDb unit :=
  match keys with
  | [] => retD tt
  | k :: keys => db! _ := run_cached (fun t => (Ok tt, touch_row now k t)) in touch_loop keys now
  end.
Fixpoint validate_keys (keys : list RecordKey) : Result unit :=
  match keys with [] => Ok tt | k :: keys => let? _ := validate_key k in validate_keys keys end.
Definition touch (keys : list RecordKey) (now : Z) : MemoryDb unit :=
  db! _ := lift (validate_keys keys) in
  if bool_decide (keys = []) then retD tt
  else
    db! _ := step_only in
    transaction (db! _ := step_only in touch_loop keys (time_text now)).
Definition remove (k : RecordKey) : MemoryDb unit :=
  db! _ := lift (validate_key k) in
  db! _ := step_only in
  transaction (
    db! _ := run_cached (fun t => (Ok tt, delete_fts k t)) in
    run_cached (fun t => (Ok tt, delete_row k t))).
Definition fts5 : Backend MemoryConn := mkBackend _ get search list_notes touch.

(** ** Import *)
Record MemorySource := mkMemorySource { ms_version : list (option string); ms_tables : LongtermTables }.
Context (cancelled : nat -> bool).
Definition check_cancelled : MemoryDb unit :=
  fun c => if cancelled (cn_calls c) then (Err Errors.cancelled, c) else (Ok tt, c).
Definition under_scope (scope : string) (r : LongtermRow) : LongtermRow :=
  mkLongtermRow scope (lw_id r) (lw_kind r) (lw_title r) (lw_body r) (lw_created r) (lw_updated r) (lw_read r)
    (lw_importance r) (lw_tags r) (lw_linked r) (lw_shadow r).
Definition insert_note (r : LongtermRow) (t : LongtermTables) : Result unit * LongtermTables :=
  if negb (row_allowed r) || bool_decide (is_Some (row_at (row_key r) t)) then (Err constraint_failed, t)
  else (Ok tt, mkLongtermTables (lg_rows t ++ [r]) (lg_fts t)).
Definition fts_of (n : nat) (r : LongtermRow) : option FtsRow :=
  tags ← sql_tags n (lw_tags r);
  Some (mkFtsRow (lw_scope r) (lw_id r) (lw_kind r) (lw_shadow r) (lw_title r) (lw_body r) tags).
(** [INSERT ... SELECT] of the note that was just written. *)
Definition index_note (k : RecordKey) (n : nat) (t : LongtermTables) : Result unit * LongtermTables :=
  match row_at k t with
  | None => (Ok tt, t)
  | Some r => match fts_of n r with Some f => (Ok tt, insert_fts f t) | None => (Err (Errors.storage "malformed JSON"), t) end
  end.
Fixpoint copy_notes (scope : string) (rows : list LongtermRow) : MemoryDb unit :=
  db! _ := check_cancelled in
  db! _ := step_only in
  match rows with
  | [] => retD tt
  | r :: rows =>
      db! _ := run_cached (insert_note (under_scope scope r)) in
      db! _ := step_only in
      db! _ := run_cached_at (index_note (row_key (under_scope scope r))) in
      db! _ := step_only in
      copy_notes scope rows
  end.
Definition scope_taken (scope : string) (t : LongtermTables) : bool :=
  negb (bool_decide (filter (fun r => lw_scope r = scope) (lg_rows t) = [])) ||
  negb (bool_decide (filter (fun f => fw_scope f = scope) (lg_fts t) = [])).
Definition id_before (a b : LongtermRow) : Prop := bytes_lt (lit (lw_id b)) (lit (lw_id a)) = false.
#[export] Instance id_before_dec a b : Decision (id_before a b).
Proof. unfold id_before. apply _. Defined.
Definition source_rows (scope : string) (t : LongtermTables) : list LongtermRow :=
  merge_sort id_before (filter (fun r => lw_scope r = scope) (lg_rows t)).
Definition import_notes (source : LongtermTables) (from to : string) : MemoryDb unit :=
  db! _ := step_only in
  db! _ := step_only in
  db! taken := Sqlite.select faults (fun t => Ok (scope_taken to t)) in
  if taken then failD (Errors.mk ek_conflict "memory import destination scope already exists")
  else
    db! _ := open_reader faults in
    db! _ := step_only in
    db! _ := copy_notes to (source_rows from source) in
    if bool_decide (source_rows from source = []) then failD (Errors.not_found "memory import source scope not found")
    else retD tt.
Definition scope_request (scope : string) : IndexRequest := mkIndexRequest scope [] 20 0 kMaxIndexBytes.
Definition import_scope (source_path : string) (source : MemorySource) (from to : string) : MemoryDb unit :=
  if bool_decide (source_path = ""%string) || bool_decide (byte_of 0 ∈ lit source_path) then
    failD (Errors.invalid_argument "memory import requires a source snapshot path")
  else
    db! _ := lift (validate_index_request (scope_request from)) in
    db! _ := lift (validate_index_request (scope_request to)) in
    db! _ := check_cancelled in
    db! _ := step_only in
    db! _ := step_only in
    db! _ := step_only in
    if negb (bool_decide (ms_version source = [Some "1"%string])) then
      failD (Errors.invalid_argument "unsupported memory import schema")
    else db! _ := step_only in transaction (import_notes (ms_tables source) from to).
End Engine.

(** ** Facts about the tables *)
Lemma find_row_some k (rows : list LongtermRow) r :
  find (fun r => bool_decide (row_key r = k)) rows = Some r -> r ∈ rows /\ row_key r = k.
Proof. intros [Hin Hk]%find_some. split; [by apply list_elem_of_In|by apply bool_decide_eq_true in Hk]. Qed.
Lemma find_row_none k (rows : list LongtermRow) :
  find (fun r => bool_decide (row_key r = k)) rows = None <-> k ∉ map row_key rows.
Proof.
  split.
  - intros Hf Hin. apply list_elem_of_In, in_map_iff in Hin as (r & Hk & Hin).
    apply (find_none _ _ Hf) in Hin. by apply bool_decide_eq_false in Hin.
  - intros Hk. destruct (find _ rows) as [r|] eqn:Hf; [|done]. apply find_row_some in Hf as [Hin <-].
    exfalso. apply Hk. apply list_elem_of_In, in_map_iff. exists r. split; [done|by apply list_elem_of_In].
Qed.
Lemma row_at_elem r t : NoDup (map row_key (lg_rows t)) -> r ∈ lg_rows t -> row_at (row_key r) t = Some r.
Proof.
  unfold row_at. induction (lg_rows t) as [|x rows IH]; simpl; [by intros _ ?%not_elem_of_nil|].
  intros [Hx Hd]%NoDup_cons Hin. case_bool_decide as Hk.
  - apply elem_of_cons in Hin as [->|Hin]; [done|]. exfalso. apply Hx. rewrite Hk.
    apply list_elem_of_In, in_map_iff. exists r. split; [done|by apply list_elem_of_In].
  - apply elem_of_cons in Hin as [->|Hin]; [done|]. by apply IH.
Qed.
(** With distinct keys, changing the row of a key is replacing it. *)
Lemma upd_rows_permutation k f (rows : list LongtermRow) old :
  NoDup (map row_key rows) -> old ∈ rows -> row_key old = k ->
  map (fun r => if bool_decide (row_key r = k) then f r else r) rows ≡ₚ f old :: filter (fun r => row_key r <> k) rows.
Proof.
  induction rows as [|x rows IH]; simpl; [by intros _ ?%not_elem_of_nil|].
  intros [Hx Hd]%NoDup_cons Hin Hk. rewrite filter_cons. case_bool_decide as Hxk.
  - rewrite decide_False by (by intros H). apply elem_of_cons in Hin as [->|Hin].
    + f_equiv. assert (Hnone : Forall (fun r => row_key r <> k) rows).
      { apply Forall_forall. intros r Hr He. apply Hx. rewrite Hxk, <- He. apply list_elem_of_In, in_map. by apply list_elem_of_In. }
      clear IH Hx Hd. induction Hnone as [|r rows Hr _ IHn]; simpl; [done|].
      rewrite bool_decide_eq_false_2, filter_cons, decide_True by done. by rewrite IHn.
    + exfalso. apply Hx. rewrite Hxk, <- Hk. apply list_elem_of_In, in_map. by apply list_elem_of_In.
  - rewrite decide_True by done. apply elem_of_cons in Hin as [->|Hin]; [done|]. rewrite IH by done. apply Permutation_swap.
Qed.
Lemma filter_other k (rows : list LongtermRow) : k ∉ map row_key rows -> filter (fun r => row_key r <> k) rows = rows.
Proof.
  induction rows as [|x rows IH]; simpl; [done|]. intros Hk. rewrite filter_cons, decide_True, IH; [done|set_solver|set_solver].
Qed.
Lemma map_key_upd k f (rows : list LongtermRow) : (forall r, row_key (f r) = row_key r) ->
  map row_key (map (fun r => if bool_decide (row_key r = k) then f r else r) rows) = map row_key rows.
Proof. intros Hf. rewrite map_map. apply map_ext. intros r. by case_bool_decide. Qed.

Section Consistency.
Context `{JsonLibrary} `{FtsEngine}.
(** The text is free of NULs, whose treatment SQLite leaves open. *)
Definition nul_free (text : string) : Prop := Ascii.zero ∉ lit text.
(** The index row of a note: its key, kind, flag, title and body, and its tags one after
    the other, in some order. *)
Definition indexes (row : LongtermRow) (f : FtsRow) : Prop :=
  fts_key f = row_key row /\ fw_kind f = lw_kind row /\ fw_shadow f = lw_shadow row /\
  fw_title f = lw_title row /\ fw_body f = lw_body row /\
  forall tags, string_list_to_json tags = Ok (lw_tags row) -> Forall nul_free tags ->
    exists tags', tags' ≡ₚ tags /\ fw_tags f = String.concat " " tags'.
(** One index row for each note, and no other. *)
Definition indexed (rows : list LongtermRow) (fts : list FtsRow) : Prop :=
  exists fs, fs ≡ₚ fts /\ Forall2 indexes rows fs.
Record index_ok (t : LongtermTables) : Prop := {
  ik_keys : NoDup (map row_key (lg_rows t));
  ik_fts : indexed (lg_rows t) (lg_fts t) }.

Lemma indexes_replaced row row' f : indexes row f -> row_key row' = row_key row -> lw_kind row' = lw_kind row ->
  lw_shadow row' = lw_shadow row -> lw_title row' = lw_title row -> lw_body row' = lw_body row -> lw_tags row' = lw_tags row ->
  indexes row' f.
Proof. unfold indexes. by intros (? & ? & ? & ? & ? & ?) -> -> -> -> -> ->. Qed.
Lemma Forall2_permuted {A B} (R : A -> B -> Prop) l l' k : l ≡ₚ l' -> Forall2 R l k -> exists k', k' ≡ₚ k /\ Forall2 R l' k'.
Proof.
  intros Hp. revert k. induction Hp as [|x l l' _ IH|x y l|l1 l2 l3 _ IH1 _ IH2]; intros k Hk.
  - by exists k.
  - inversion Hk as [|? z ? k0 Hx Hl]; subst. destruct (IH _ Hl) as (k' & Hp' & Hk'). exists (z :: k'). split; [by rewrite Hp'|by constructor].
  - inversion Hk as [|? z ? k0 Hx Hl]; subst. inversion Hl as [|? z' ? k1 Hy Hl']; subst.
    exists (z' :: z :: k1). split; [apply Permutation_swap|by repeat constructor].
  - destruct (IH1 _ Hk) as (k1 & Hp1 & Hk1). destruct (IH2 _ Hk1) as (k2 & Hp2 & Hk2). exists k2. split; [by rewrite Hp2, Hp1|done].
Qed.
Lemma indexed_permuted rows rows' fts fts' : rows ≡ₚ rows' -> fts ≡ₚ fts' -> indexed rows fts -> indexed rows' fts'.
Proof.
  intros Hr Hf (fs & Hp & Hi). destruct (Forall2_permuted _ _ _ _ Hr Hi) as (fs' & Hp' & Hi'). exists fs'. split; [by rewrite Hp', Hp|done].
Qed.
Lemma indexed_app rows rows' fts fts' : indexed rows fts -> indexed rows' fts' -> indexed (rows ++ rows') (fts ++ fts').
Proof. intros (fs & Hp & Hi) (fs' & Hp' & Hi'). exists (fs ++ fs'). split; [by rewrite Hp, Hp'|by apply Forall2_app]. Qed.
Lemma filter_index k fts (rows : list LongtermRow) :
  indexed rows fts -> indexed (filter (fun r => row_key r <> k) rows) (filter (fun f => fts_key f <> k) fts).
Proof.
  intros (fs & Hp & Hi). exists (filter (fun f => fts_key f <> k) fs). split; [by rewrite Hp|]. clear Hp.
  induction Hi as [|r f rows fs Hr _ IH]; [done|]. pose proof (proj1 Hr) as Hkey. rewrite !filter_cons.
  destruct (decide (row_key r <> k)), (decide (fts_key f <> k)); [by constructor|exfalso; naive_solver..|exact IH].
Qed.
(** A note and its index row that replace those of their key. *)
Lemma index_replace row f t rows' :
  index_ok t -> indexes row f -> rows' ≡ₚ row :: filter (fun r => row_key r <> row_key row) (lg_rows t) ->
  index_ok (mkLongtermTables rows' (filter (fun f' => fts_key f' <> row_key row) (lg_fts t) ++ [f])).
Proof.
  intros [Hk Hf] Hfts Hrows. split; simpl.
  - rewrite Hrows. simpl. apply NoDup_cons. split.
    + intros Hin. apply list_elem_of_In, in_map_iff in Hin as (r & He & Hin).
      apply list_elem_of_In, list_elem_of_filter in Hin as [Hne _]. done.
    + assert (Hsub : sublist (filter (fun r => row_key r <> row_key row) (lg_rows t)) (lg_rows t)) by apply sublist_filter.
      eapply sublist_NoDup; [exact Hk|apply (fmap_sublist row_key), Hsub].
  - eapply indexed_permuted; [rewrite Hrows; symmetry; apply Permutation_cons_append|reflexivity|].
    apply indexed_app; [by apply filter_index|]. exists [f]. split; [done|by constructor].
Qed.
Lemma index_remove k t : index_ok t -> index_ok (delete_row k (delete_fts k t)).
Proof.
  intros [Hk Hf]. split; simpl; [|by apply filter_index].
  eapply sublist_NoDup; [exact Hk|apply (fmap_sublist row_key), sublist_filter].
Qed.
(** What keeps every row's key and indexed columns keeps the index. *)
Lemma index_upd k f t : index_ok t -> (forall r, row_key (f r) = row_key r) -> (forall r x, indexes r x -> indexes (f r) x) ->
  index_ok (upd_row k f t).
Proof.
  intros [Hk (fs & Hp & Hi)] Hkey Hfts. split; simpl; [by rewrite map_key_upd|]. exists fs. split; [done|].
  clear Hp Hk. induction Hi as [|r x rows fs Hr _ IH]; simpl; constructor; [|exact IH]. case_bool_decide; auto.
Qed.
End Consistency.

(** ** What the operations do *)
(** [json_each] of an array of strings visits each of them once; [group_concat] without an
    [ORDER BY] puts them one after the other in an order of its own. *)
Class FtsLaws `{JsonLibrary} `{FtsEngine} := {
  tags_of_dump : forall n l s, Forall nul_free l -> json_dump (JArray (map JString l)) = Some s ->
    exists l', l' ≡ₚ l /\ sql_tags n s = Some (String.concat " " l') }.

Lemma joined_loop_concat tags out : out <> ""%string -> joined_tags_loop tags out = String.concat " " (out :: tags).
Proof.
  revert out. induction tags as [|tag tags IH]; intros out Hout; cbn [joined_tags_loop]; [done|].
  rewrite bool_decide_eq_false_2 by done. rewrite IH by (by destruct out).
  destruct tags as [|tag' tags]; cbn [String.concat]; by rewrite ?append_assoc.
Qed.
Lemma joined_tags_concat tags : Forall (fun tag => tag <> ""%string) tags -> joined_tags tags = String.concat " " tags.
Proof.
  unfold joined_tags. destruct 1 as [|tag tags Ht _]; [done|]. cbn [joined_tags_loop].
  rewrite bool_decide_eq_true_2 by done. by apply joined_loop_concat.
Qed.
Lemma strings_of_strings i l field : strings_of i (map JString l) field = Ok l.
Proof. revert i. induction l as [|s l IH]; intros i; simpl; [done|]. by rewrite IH. Qed.
Lemma validated_nonempty tags field u : validate_string_list tags field = Ok u -> Forall (fun tag => tag <> ""%string) tags.
Proof.
  intros H. unfold validate_string_list in H. ok_inv.
  match goal with H : validate_values _ _ = Ok _ |- _ => revert H end. clear.
  induction tags as [|tag tags IH]; [constructor|]. intros Hv. cbn [validate_values] in Hv. ok_inv.
  constructor; [|by eauto]. intros ->. match goal with H : validate_required _ _ _ = Ok _ |- _ => discriminate H end.
Qed.

Section Operations.
Context `{JsonLibraryLaws} `{FtsEngine} `{!FtsLaws}.
Lemma string_list_roundtrip l s field : string_list_to_json l = Ok s -> string_list_from_json s field = Ok l.
Proof.
  unfold string_list_to_json, string_list_from_json. destruct (json_dump _) as [s'|] eqn:Hd; [|discriminate]. intros [= ->].
  rewrite (parse_dump _ _) with (2 := Hd); [apply strings_of_strings|].
  simpl. apply forallb_forall. by intros x (v & <- & _)%in_map_iff.
Qed.
Lemma string_list_tags n l s : Forall nul_free l -> string_list_to_json l = Ok s ->
  exists l', l' ≡ₚ l /\ sql_tags n s = Some (String.concat " " l').
Proof.
  unfold string_list_to_json. destruct (json_dump _) as [s'|] eqn:Hd; [|done]. intros Hl [= ->]. by apply tags_of_dump.
Qed.
Lemma fts_of_indexes n r f : fts_of n r = Some f -> indexes r f.
Proof.
  unfold fts_of. destruct (sql_tags n (lw_tags r)) as [text|] eqn:Ht; simpl; [|discriminate]. intros [= <-].
  split_and!; [done..|]. intros tags Hd Hl. destruct (string_list_tags n _ _ Hl Hd) as (tags' & Hp & Hs).
  exists tags'. rewrite Ht in Hs. injection Hs as ->. by split.
Qed.

(** What a row that is read gives. *)
Lemma read_row_fields row r : read_record_row row = Ok r ->
  mr_key r = row_key row /\ string_list_from_json (lw_tags row) "tags_json" = Ok (mr_tags r) /\
  record_fts r = mkFtsRow (lw_scope row) (lw_id row) (lw_kind row) (lw_shadow row) (lw_title row) (lw_body row) (joined_tags (mr_tags r)).
Proof.
  unfold read_record_row. intros H3. ok_inv. subst r. split; [done|]. split; [done|]. unfold record_fts. simpl. f_equal.
  - unfold record_kind_from_text in *. destruct (parse_enum (lw_kind row)) eqn:Hk; simplify_eq.
    by apply parse_enum_sound.
  - apply andb_false_iff in E as [E|E]; bool_prop; by rewrite E.
Qed.
(** The row of a note and its index row belong together. *)
Lemma read_row_fts row r tags : read_record_row row = Ok r -> string_list_to_json tags = Ok (lw_tags row) ->
  Forall (fun tag => tag <> ""%string) tags -> indexes row (record_fts r).
Proof.
  intros Hr Hd Ht. destruct (read_row_fields row r Hr) as (_ & Htags & ->).
  rewrite (string_list_roundtrip _ _ _ Hd) in Htags. injection Htags as <-.
  split_and!; [done..|]. intros tags' Hd' _. exists tags. simpl. rewrite joined_tags_concat by done. split; [|done].
  pose proof (string_list_roundtrip _ _ "tags_json" Hd) as Hl.
  rewrite (string_list_roundtrip _ _ _ Hd') in Hl. by injection Hl as ->.
Qed.

Definition upserted (r : MemoryRecord) (t : LongtermTables) (stored : MemoryRecord) (t' : LongtermTables) : Prop :=
  exists tags linked row t1, string_list_to_json (mr_tags r) = Ok tags /\ string_list_to_json (mr_linked r) = Ok linked /\
    upsert_row (record_row r tags linked) t = (Ok row, t1) /\ read_record_row row = Ok stored /\
    t' = insert_fts (record_fts stored) (delete_fts (mr_key stored) t1).
Definition copied (l : list LongtermRow) (t t' : LongtermTables) : Prop :=
  exists fs, Forall2 (fun r f => exists n, fts_of n r = Some f) l fs /\ t' = mkLongtermTables (lg_rows t ++ l) (lg_fts t ++ fs) /\
    Forall (fun r => row_allowed r = true) l /\ NoDup (map row_key l) /\ (forall r, r ∈ l -> row_at (row_key r) t = None).

Lemma upsert_rows row t row' t1 : NoDup (map row_key (lg_rows t)) -> upsert_row row t = (Ok row', t1) ->
  lg_fts t1 = lg_fts t /\ row_key row' = row_key row /\ lw_tags row' = lw_tags row /\
  lg_rows t1 ≡ₚ row' :: filter (fun r => row_key r <> row_key row) (lg_rows t) /\
  row' = match row_at (row_key row) t with Some old => conflict_update old row | None => row end.
Proof.
  intros Hd. unfold upsert_row. destruct (negb _); [discriminate|]. destruct (row_at (row_key row) t) as [old|] eqn:Hat; intros [= <- <-].
  - apply find_row_some in Hat as [Hin Hk]. split_and!; try done.
    simpl. by rewrite (upd_rows_permutation (row_key row) (fun old => conflict_update old row) _ old).
  - apply find_row_none in Hat. split_and!; try done. simpl. rewrite filter_other by done. symmetry. apply Permutation_cons_append.
Qed.
Lemma upserted_index r t stored t' :
  validate_record r = Ok tt -> index_ok t -> upserted r t stored t' -> index_ok t'.
Proof.
  intros Hv Hok (tags & linked & row & t1 & Htags & _ & Hup & Hread & ->).
  destruct (upsert_rows _ _ _ _ (ik_keys _ Hok) Hup) as (Hfts & Hkey & Htg & Hrows & _).
  destruct (read_row_fields _ _ Hread) as (Hmk & _). unfold insert_fts, delete_fts. simpl. rewrite Hfts, Hmk.
  apply (index_replace row); [done| |by rewrite Hkey].
  apply (read_row_fts _ _ (mr_tags r) Hread); [by rewrite Htg|].
  unfold validate_record in Hv. ok_inv. by eapply validated_nonempty.
Qed.
Lemma copied_index l t t' : index_ok t -> copied l t t' -> index_ok t'.
Proof.
  intros [Hk Hf] (fs & Hfs & -> & _ & Hl & Hnew). split; simpl.
  - rewrite map_app. apply NoDup_app. split; [done|]. split; [|done]. intros k Hin Hin'.
    apply list_elem_of_In, in_map_iff in Hin' as (r & <- & Hr). apply list_elem_of_In, Hnew, find_row_none in Hr. done.
  - apply indexed_app; [done|]. exists fs. split; [done|]. eapply Forall2_impl; [exact Hfs|].
    intros r f [n Hn]. by eapply fts_of_indexes.
Qed.
Lemma touched_row_index now k t : index_ok t -> index_ok (touch_row now k t).
Proof.
  intros Hok. apply index_upd; [done|intros r; by destruct (bytes_lt _ _)|].
  intros r x Hx. destruct (bytes_lt _ _); [|done]. by apply (indexes_replaced r).
Qed.
End Operations.

Section Outcomes.
Context `{JsonLibrary} `{FtsEngine} (faults : nat -> option Error) (cancelled : nat -> bool).
Lemma does_cached_at {A} (f : nat -> LongtermTables -> Result A * LongtermTables) :
  does (run_cached_at faults f) (fun t a t' => exists n, f n t = (Ok a, t')).
Proof. unfold run_cached_at. do 2 (apply does_after; [apply does_step|intros _]). apply does_call. Qed.
Lemma does_cached {A} (f : LongtermTables -> Result A * LongtermTables) :
  does (run_cached faults f) (fun t a t' => f t = (Ok a, t')).
Proof. eapply does_weaken; [apply does_cached_at|]. by intros t a t' [_ Hf]. Qed.
Lemma does_upsert_body r : does (upsert_body faults r) (upserted r).
Proof.
  eapply does_weaken.
  - apply does_bindD; [apply does_lift|]. intros tags. apply does_bindD; [apply does_lift|]. intros linked.
    apply does_bindD; [apply does_cached|]. intros row. apply does_bindD; [apply does_lift|]. intros stored.
    apply does_after; [apply does_step|intros _]. apply does_bindD; [apply does_cached|]. intros ?.
    apply does_bindD; [apply does_cached|]. intros ?. apply does_retD.
  - intros t b t' (tags & ta & [Htags ->] & linked & tb & [Hlinked ->] & row & t1 & Hup & stored & tc & [Hread ->] &
      u1 & t2 & [= _ <-] & u2 & t3 & [= _ <-] & -> & ->).
    by exists tags, linked, row, t1.
Qed.
Definition touch_all (now : string) (keys : list RecordKey) (t : LongtermTables) : LongtermTables :=
  fold_left (fun t k => touch_row now k t) keys t.
Lemma does_touch_loop keys now : does (touch_loop faults keys now) (fun t _ t' => t' = touch_all now keys t).
Proof.
  induction keys as [|k keys IH]; simpl.
  - eapply does_weaken; [apply does_retD|]. by intros t a t' [_ ->].
  - eapply does_weaken; [apply does_bindD; [apply does_cached|intros ?; apply IH]|].
    by intros t a t' (u & t1 & [= _ <-] & ->).
Qed.
Lemma row_at_snoc k r t : row_at k t = None ->
  row_at k (mkLongtermTables (lg_rows t ++ [r]) (lg_fts t)) = if bool_decide (row_key r = k) then Some r else None.
Proof.
  unfold row_at. simpl. induction (lg_rows t) as [|x rows IH]; simpl; [done|].
  destruct (bool_decide (row_key x = k)); [done|exact IH].
Qed.
Lemma does_copy_notes scope rows :
  does (copy_notes faults cancelled scope rows) (fun t _ t' => copied (map (under_scope scope) rows) t t').
Proof.
  assert (Hcheck : does (check_cancelled cancelled) stays).
  { intros c. unfold check_cancelled. by destruct (cancelled _). }
  induction rows as [|r rows IH]; simpl; (apply does_after; [exact Hcheck|intros _]); (apply does_after; [apply does_step|intros _]).
  - eapply does_weaken; [apply does_retD|]. intros t a t' [_ ->]. exists []. simpl. rewrite !app_nil_r.
    split_and!; [done|by destruct t|done|by constructor|by intros r ?%not_elem_of_nil].
  - set (r' := under_scope scope r) in *. eapply does_weaken.
    + apply does_bindD; [apply does_cached|]. intros ?. apply does_after; [apply does_step|intros _].
      apply does_bindD; [apply does_cached_at|]. intros ?. apply does_after; [apply does_step|intros _]. apply IH.
    + intros t a t' (u1 & t1 & Hins & u2 & t2 & [n Hidx] & (fs & Hfs & -> & Hall & Hnd & Hnew)).
      unfold insert_note in Hins. destruct (negb (row_allowed r')) eqn:Hal; [discriminate|]. rewrite orb_false_l in Hins.
      destruct (bool_decide (is_Some (row_at (row_key r') t))) eqn:Hat; [discriminate|]. apply bool_decide_eq_false in Hat. injection Hins as _ <-.
      assert (Hnone : row_at (row_key r') t = None) by (destruct (row_at (row_key r') t); [by destruct Hat|done]).
      unfold index_note in Hidx. rewrite row_at_snoc, bool_decide_eq_true_2 in Hidx by done.
      destruct (fts_of n r') as [f|] eqn:Hf; [|discriminate]. injection Hidx as _ <-. unfold insert_fts in *. simpl in *.
      assert (Hkeys : forall x, x ∈ map (under_scope scope) rows -> row_key x <> row_key r' /\ row_at (row_key x) t = None).
      { intros x Hx. specialize (Hnew x Hx). apply find_row_none in Hnew. simpl in Hnew.
        rewrite map_app, not_elem_of_app in Hnew. destruct Hnew as [Hn1 Hn2]. split; [|by apply find_row_none].
        intros He. apply Hn2. rewrite He. apply list_elem_of_here. }
      exists (f :: fs). simpl. rewrite <- !app_assoc. split_and!; [constructor; [by exists n|done]|done| | |].
      * constructor; [by apply negb_false_iff in Hal|exact Hall].
      * apply NoDup_cons. split; [|exact Hnd]. intros Hin. apply list_elem_of_In, in_map_iff in Hin as (x & He & Hx).
        apply list_elem_of_In in Hx. by destruct (Hkeys x Hx).
      * intros x [->|Hx]%elem_of_cons; [exact Hnone|by apply Hkeys].
Qed.
Definition imported (source : LongtermTables) (from to : string) (t : LongtermTables) (_ : unit) (t' : LongtermTables) : Prop :=
  scope_taken to t = false /\ source_rows from source <> [] /\
  copied (map (under_scope to) (source_rows from source)) t t'.
Lemma does_import_notes source from to : does (import_notes faults cancelled source from to) (imported source from to).
Proof.
  unfold import_notes. do 2 (apply does_after; [apply does_step|intros _]).
  eapply does_weaken; [apply does_bindD; [apply does_select|]|].
  - intros taken. instantiate (1 := fun taken t _ t' => taken = false /\ source_rows from source <> [] /\
      copied (map (under_scope to) (source_rows from source)) t t'). cbv beta. destruct taken; [apply does_fail|].
    apply does_after; [apply does_open|intros _]. apply does_after; [apply does_step|intros _].
    eapply does_weaken; [apply does_bindD; [apply does_copy_notes|]|].
    + intros u0. instantiate (1 := fun _ t _ t' => source_rows from source <> [] /\ t' = t). cbv beta.
      case_bool_decide; [apply does_fail|]. eapply does_weaken; [apply does_retD|]. by intros t a t' [_ ->].
    + by intros t a t' (u & t1 & Hc & Hne & ->).
  - intros t a t' (taken & t1 & [[= Ht] ->] & -> & Hrest). by split.
Qed.

(** *** Outcomes *)
Lemma atomic_lift {A} (r : Result unit) (x : MemoryDb A) P :
  atomic x P -> atomic (db! _ := lift r in x) (fun t a t' => r = Ok tt /\ P t a t').
Proof.
  intros Hx. destruct r as [[]|e]; [|apply atomic_fail]. intros c Hc. specialize (Hx c Hc). simpl. unfold bindD, retD.
  destruct (x c) as [[a|e] c']; [|exact Hx]. destruct Hx as [HP Hs]. by split.
Qed.
Lemma atomic_step {A} (x : MemoryDb A) P : atomic x P -> atomic (db! _ := Sqlite.step_only faults in x) P.
Proof. intros Hx. apply atomic_after; [apply quiet_step|]. by intros _. Qed.
Lemma upsert_outcome r : atomic (upsert faults r) (fun t s t' => validate_record r = Ok tt /\ upserted r t s t').
Proof. unfold upsert. apply atomic_lift, atomic_step, atomic_transaction, does_upsert_body. Qed.
Lemma remove_outcome k : atomic (remove faults k) (fun t _ t' => validate_key k = Ok tt /\ t' = delete_row k (delete_fts k t)).
Proof.
  unfold remove. apply atomic_lift, atomic_step, atomic_transaction.
  eapply does_weaken; [apply does_bindD; [apply does_cached|intros ?; apply does_cached]|].
  by intros t a t' (u & t1 & [= _ <-] & [= _ <-]).
Qed.
Lemma touch_outcome keys now : atomic (touch faults keys now)
  (fun t _ t' => validate_keys keys = Ok tt /\ t' = touch_all (time_text now) keys t).
Proof.
  unfold touch. apply atomic_lift. case_bool_decide as Hk.
  - rewrite Hk. by intros c Hc.
  - apply atomic_step, atomic_transaction. apply does_after; [apply does_step|intros _]. apply does_touch_loop.
Qed.
Lemma memory_import_outcome path source from to : atomic (import_scope faults cancelled path source from to)
  (imported (ms_tables source) from to).
Proof.
  unfold import_scope. destruct (_ || _); [apply atomic_fail|].
  apply atomic_after; [apply quiet_lift|intros _]. apply atomic_after; [apply quiet_lift|intros _].
  apply atomic_after; [intros c; unfold check_cancelled; by destruct (cancelled _)|intros _].
  do 3 apply atomic_step. destruct (negb _); [apply atomic_fail|]. apply atomic_step, atomic_transaction, does_import_notes.
Qed.
(** Readers leave the tables alone. *)
Lemma get_outcome k : atomic (get faults k)
  (fun t r t' => t' = t /\ exists row, row_at k t = Some row /\ read_record_row row = Ok r).
Proof.
  apply atomic_quiet.
  - unfold get. apply quiet_bind; [apply quiet_lift|intros _]. apply quiet_bind; [apply quiet_open|intros _].
    apply quiet_bind; [apply quiet_select|]. intros [row|]; [|apply quiet_fail].
    apply quiet_bind; [apply quiet_lift|intros r]. apply quiet_bind; [apply quiet_step|intros _]. apply quiet_ret.
  - unfold get. eapply does_weaken.
    + apply does_bindD; [apply does_lift|]. intros ?. apply does_after; [apply does_open|intros _].
      apply does_bindD; [apply does_select|]. intros found.
      instantiate (1 := fun found t r t' => t' = t /\ exists row, found = Some row /\ read_record_row row = Ok r). cbv beta.
      destruct found as [row|]; [|apply does_fail].
      eapply does_weaken; [apply does_bindD; [apply does_lift|intros r; apply does_after; [apply does_step|intros _; apply does_retD]]|].
      intros t r t' (r' & t1 & [Hr ->] & -> & ->). split; [done|]. by exists row.
    + intros t r t' (u & t1 & [_ ->] & found & t2 & [[= Hf] ->] & -> & row & -> & Hr). split; [done|]. by exists row.
Qed.
Lemma search_outcome q limit : atomic (search faults q limit)
  (fun t hits t' => t' = t /\ validate_query q limit = Ok tt /\
    ((make_fts_query (qy_text q) = ""%string /\ hits = []) \/
     Forall2 (fun h x => read_hit h = Ok x) (take (Z.to_nat limit) (merge_sort hit_before (hits_of q t))) hits)).
Proof.
  apply atomic_quiet.
  - unfold search. apply quiet_bind; [apply quiet_lift|intros _]. case_bool_decide; [apply quiet_ret|].
    apply quiet_bind; [apply quiet_open|intros _]. intros c. apply quiet_rows.
  - unfold search. eapply does_weaken; [apply does_bindD; [apply does_lift|]|].
    + intros u0. instantiate (1 := fun _ t hits t' => t' = t /\
        ((make_fts_query (qy_text q) = ""%string /\ hits = []) \/
         Forall2 (fun h x => read_hit h = Ok x) (take (Z.to_nat limit) (merge_sort hit_before (hits_of q t))) hits)). cbv beta.
      case_bool_decide as He.
      * eapply does_weaken; [apply does_retD|]. intros t a t' [-> ->]. split; [done|by left].
      * apply does_after; [apply does_open|intros _]. apply (does_tables (fun t => read_rows faults read_hit (take (Z.to_nat limit) (merge_sort hit_before (hits_of q t))))).
        intros t0. eapply does_weaken; [apply does_rows|]. intros t hits t' [Hr ->] ->. split; [done|by right].
    + intros t hits t' (u & t1 & [Hv ->] & -> & Hh). destruct u. by split_and!.
Qed.
Lemma list_outcome r : atomic (list_notes faults r)
  (fun t es t' => t' = t /\ Forall2 (fun row e => read_entry (ir_scope r) row = Ok e) (index_rows r t) es).
Proof.
  apply atomic_quiet.
  - unfold list_notes. apply quiet_bind; [apply quiet_lift|intros _].
    apply quiet_bind; [apply quiet_open|intros _]. intros c. apply quiet_rows.
  - unfold list_notes. apply does_after; [eapply does_weaken; [apply does_lift|]; by intros t a t' [_ ->]|intros _].
    apply does_after; [apply does_open|intros _].
    apply (does_tables (fun t => read_rows faults (read_entry (ir_scope r)) (index_rows r t))).
    intros t0. eapply does_weaken; [apply does_rows|]. by intros t es t' [Hr ->] ->.
Qed.
End Outcomes.

(** ** The notes a database holds *)
Lemma time_text_ms t : time_text (read_at t) = time_text t.
Proof. unfold time_text, read_at, format_iso8601_utc. by rewrite Z.div_mul. Qed.
Lemma read_time_text t field : stored_time t -> read_time (time_text t) field = Ok t.
Proof.
  intros [Hf Hm]. unfold read_time, time_text, parse_iso8601_utc. rewrite lit_str, parse_format by done. cbn.
  unfold time_of_ms, ns_per_ms in *. f_equal. rewrite Z.mul_comm. replace (1000000 * (t / 1000000)) with t by (Z.to_euclidean_division_equations; lia).
  unfold wrap_s, fits_s in *. Z.to_euclidean_division_equations; lia.
Qed.
Lemma time_text_order a b : stored_time a -> stored_time b -> bytes_lt (lit (time_text a)) (lit (time_text b)) = (a <? b).
Proof.
  intros [Ha Hma] [Hb Hmb]. unfold time_text. rewrite !lit_str, format_order by done. unfold ns_per_ms in *.
  apply eq_true_iff_eq. rewrite !Z.ltb_lt. Z.to_euclidean_division_equations; lia.
Qed.
Lemma text_max_time a b : stored_time a -> stored_time b -> text_max (time_text a) (time_text b) = time_text (Z.max a b).
Proof.
  intros Ha Hb. unfold text_max. rewrite time_text_order by done.
  destruct (Z.ltb_spec a b); [by rewrite Z.max_r by lia|by rewrite Z.max_l by lia].
Qed.

Section Notes.
Context `{JsonLibraryLaws}.
(** A row that this program has written, and the record it stands for. *)
Definition row_for (row : LongtermRow) (r : MemoryRecord) : Prop :=
  exists tags linked, string_list_to_json (mr_tags r) = Ok tags /\ string_list_to_json (mr_linked r) = Ok linked /\
    row = record_row r tags linked /\ stored_time (mr_created r) /\ stored_time (mr_updated r) /\ stored_time (mr_read r).
Lemma row_for_read row r : row_for row r -> read_record_row row = Ok r.
Proof.
  intros (tags & linked & Ht & Hl & -> & Hc & Hu & Hr). unfold read_record_row, record_row.
  cbn [lw_scope lw_id lw_kind lw_title lw_body lw_created lw_updated lw_read lw_importance lw_tags lw_linked lw_shadow].
  assert (Hk : record_kind_from_text (enum_name (mr_kind r)) = Ok (mr_kind r)) by (unfold record_kind_from_text; by rewrite parse_enum_name).
  rewrite Hk, !read_time_text by done. cbn [result_bind].
  rewrite (string_list_roundtrip _ _ _ Ht), (string_list_roundtrip _ _ _ Hl). by destruct r as [[] ? ? ? ? ? ? ? ? ? []].
Qed.
Lemma row_for_key row r : row_for row r -> row_key row = mr_key r.
Proof. intros (tags & linked & _ & _ & -> & _). unfold row_key. simpl. by destruct (mr_key r). Qed.

Definition decoded (row : LongtermRow) : option MemoryRecord :=
  match read_record_row row with Ok r => Some r | Err _ => None end.
Definition records (c : MemoryConn) : list MemoryRecord := omap decoded (lg_rows (cn_tables c)).
Definition notes_ok (t : LongtermTables) : Prop := Forall (fun row => exists r, row_for row r) (lg_rows t).
Lemma omap_decoded rows rs : Forall2 row_for rows rs -> omap decoded rows = rs.
Proof.
  induction 1 as [|row r rows rs Hr _ IH]; [done|]. cbn. unfold decoded at 1. by rewrite (row_for_read _ _ Hr), IH.
Qed.

(** A record as the store keeps it, alone or over an earlier one. *)
Definition at_ms (r : MemoryRecord) : MemoryRecord :=
  mkMemory (mr_key r) (mr_kind r) (mr_title r) (mr_body r) (read_at (mr_created r)) (read_at (mr_updated r)) (read_at (mr_read r))
    (mr_importance r) (mr_tags r) (mr_linked r) (mr_shadow r).
Definition merged (old : option MemoryRecord) (r : MemoryRecord) : MemoryRecord :=
  match old with
  | None => at_ms r
  | Some o =>
      mkMemory (mr_key r) (mr_kind r) (mr_title r) (mr_body r) (mr_created o) (Z.max (mr_updated o) (read_at (mr_updated r)))
        (mr_read o) (mr_importance r) (mr_tags r) (mr_linked r) (mr_shadow r)
  end.
Definition times_ok (r : MemoryRecord) : Prop :=
  stored_time (read_at (mr_created r)) /\ stored_time (read_at (mr_updated r)) /\ stored_time (read_at (mr_read r)).
Definition record_at (k : RecordKey) (rs : list MemoryRecord) : option MemoryRecord :=
  find (fun r => bool_decide (mr_key r = k)) rs.

Lemma max_stored a b : stored_time a -> stored_time b -> stored_time (Z.max a b).
Proof. intros Ha Hb. destruct (Z.max_spec a b) as [[_ ->]|[_ ->]]; done. Qed.
Lemma merged_row old oldr r tags linked :
  string_list_to_json (mr_tags r) = Ok tags -> string_list_to_json (mr_linked r) = Ok linked -> times_ok r ->
  match old, oldr with Some row, Some o => row_for row o /\ mr_key o = mr_key r | None, None => True | _, _ => False end ->
  row_for (match old with Some row => conflict_update row (record_row r tags linked) | None => record_row r tags linked end) (merged oldr r).
Proof.
  intros Ht Hl (Hc & Hu & Hr) Hold. exists tags, linked. destruct old as [row|], oldr as [o|]; try done; cbn [merged].
  - destruct Hold as [(tags' & linked' & _ & _ & -> & Hc' & Hu' & Hr') Hk]. split_and!; try done; [|by apply max_stored].
    unfold conflict_update, record_row. cbn [lw_scope lw_id lw_kind lw_title lw_body lw_created lw_updated lw_read lw_importance lw_tags lw_linked lw_shadow
      mr_key mr_kind mr_title mr_body mr_created mr_updated mr_read mr_importance mr_tags mr_linked mr_shadow].
    by rewrite <- (time_text_ms (mr_updated r)), text_max_time, Hk.
  - split_and!; try done. unfold record_row, at_ms. cbn [lw_scope lw_id lw_kind lw_title lw_body lw_created lw_updated lw_read lw_importance lw_tags lw_linked lw_shadow
      mr_key mr_kind mr_title mr_body mr_created mr_updated mr_read mr_importance mr_tags mr_linked mr_shadow].
    by rewrite !time_text_ms.
Qed.
Lemma find_notes k rows rs : Forall2 row_for rows rs ->
  match find (fun r => bool_decide (row_key r = k)) rows, record_at k rs with
  | Some row, Some r => row_for row r /\ mr_key r = k
  | None, None => True
  | _, _ => False
  end.
Proof.
  unfold record_at. induction 1 as [|row r rows rs Hr _ IH]; simpl; [done|]. rewrite (row_for_key _ _ Hr).
  destruct (bool_decide (mr_key r = k)) eqn:Hk; [|exact IH]. apply bool_decide_eq_true in Hk. by split.
Qed.

(** Writing a note replaces the record of its key. *)
Definition upd_record (k : RecordKey) (new : MemoryRecord) (rs : list MemoryRecord) : list MemoryRecord :=
  match record_at k rs with
  | Some _ => map (fun r => if bool_decide (mr_key r = k) then new else r) rs
  | None => rs ++ [new]
  end.
Lemma find_map_upd k (rows : list LongtermRow) (rs : list MemoryRecord) f new :
  Forall2 row_for rows rs -> NoDup (map row_key rows) ->
  (forall row, find (fun r => bool_decide (row_key r = k)) rows = Some row -> row_for (f row) new) ->
  Forall2 row_for (map (fun r => if bool_decide (row_key r = k) then f r else r) rows)
    (map (fun r => if bool_decide (mr_key r = k) then new else r) rs).
Proof.
  intros H2 Hnd Hf. assert (Hall : Forall2 (fun row r => row_for row r /\ (row_key row = k -> row_for (f row) new)) rows rs).
  { apply Forall2_same_length_lookup_2; [by eapply Forall2_length|]. intros i row r Hi Hj. split; [by eapply Forall2_lookup_lr|].
    intros Hk. apply Hf. subst k. assert (Hr := row_at_elem row (mkLongtermTables rows []) Hnd (list_elem_of_lookup_2 _ _ _ Hi)). exact Hr. }
  induction Hall as [|row r rows rs [Hr Hk] _ IH]; simpl; [constructor|].
  apply Forall2_cons in H2 as [_ H2]. apply NoDup_cons in Hnd as [Hnin Hnd]. constructor.
  - rewrite (row_for_key _ _ Hr) in *. case_bool_decide as He; [by apply Hk|exact Hr].
  - apply IH; [done|done|]. intros row' Hrow'. apply Hf. simpl. case_bool_decide as He; [|exact Hrow'].
    apply find_row_some in Hrow' as [Hin Hk']. exfalso. apply Hnin. rewrite He, <- Hk'. apply list_elem_of_In, in_map. by apply list_elem_of_In.
Qed.
End Notes.

Section Store.
Context `{JsonLibraryLaws} `{FtsEngine} `{!FtsLaws}.
Record memory_ok (c : MemoryConn) : Prop := {
  mo_saved : cn_saved c = None; mo_index : index_ok (cn_tables c); mo_notes : notes_ok (cn_tables c) }.
Definition notes (t : LongtermTables) : list MemoryRecord := omap decoded (lg_rows t).

Lemma notes_rows t : notes_ok t -> Forall2 row_for (lg_rows t) (notes t).
Proof.
  unfold notes_ok, notes. induction 1 as [|row rows [r Hr] _ IH]; simpl; [constructor|].
  unfold decoded at 1. rewrite (row_for_read _ _ Hr). by constructor.
Qed.
Lemma rows_notes t rs : Forall2 row_for (lg_rows t) rs -> notes_ok t /\ notes t = rs.
Proof.
  intros Hf. split; [|by apply omap_decoded]. unfold notes_ok. induction Hf as [|row r rows rs Hr _ IH]; constructor; [by exists r|done].
Qed.
Lemma upserted_notes r t stored t' : NoDup (map row_key (lg_rows t)) -> notes_ok t -> times_ok r -> upserted r t stored t' ->
  notes_ok t' /\ stored = merged (record_at (mr_key r) (notes t)) r /\ notes t' = upd_record (mr_key r) stored (notes t).
Proof.
  intros Hnd Hok Htimes (tags & linked & row & t1 & Ht & Hl & Hup & Hread & ->).
  pose proof (notes_rows t Hok) as Hf. set (new := record_row r tags linked) in *.
  assert (Hkey : row_key new = mr_key r) by (unfold new, row_key, record_row; by destruct r as [[]]).
  pose proof (find_notes (mr_key r) _ _ Hf) as Hfind.
  pose proof (merged_row (row_at (mr_key r) t) (record_at (mr_key r) (notes t)) r tags linked Ht Hl Htimes Hfind) as Hrow.
  destruct (upsert_rows _ _ _ _ Hnd Hup) as (_ & _ & _ & _ & Hr). rewrite Hkey in Hr. fold new in Hrow. rewrite <- Hr in Hrow.
  assert (Hst : stored = merged (record_at (mr_key r) (notes t)) r).
  { rewrite (row_for_read _ _ Hrow) in Hread. by injection Hread. }
  assert (Hrows : Forall2 row_for (lg_rows t1) (upd_record (mr_key r) stored (notes t))).
  { rewrite <- Hst in Hrow. clear Hread. unfold upsert_row in Hup. destruct (negb (row_allowed new)); [discriminate|].
    rewrite Hkey in Hup. unfold upd_record. unfold row_at in *.
    destruct (find _ (lg_rows t)) as [old|] eqn:Hold, (record_at _ _) as [o|]; try done; injection Hup as Hrow' <-; simpl.
    - apply find_map_upd; [done..|]. intros row' Hrow''. rewrite Hold in Hrow''. injection Hrow'' as <-. by rewrite Hrow'.
    - apply Forall2_app; [exact Hf|]. rewrite Hrow' . by repeat constructor. }
  change (lg_rows (insert_fts _ _)) with (lg_rows t1) in *. destruct (rows_notes (insert_fts (record_fts stored) (delete_fts (mr_key stored) t1)) _ Hrows) as [Hn1 Hn2]. by split_and!.
Qed.

Lemma touch_row_notes t k tb rs : stored_time t -> Forall2 row_for (lg_rows tb) rs ->
  Forall2 row_for (lg_rows (touch_row (time_text t) k tb)) (map (touched [k] t) rs).
Proof.
  intros Ht. unfold touch_row, upd_row. cbn [lg_rows]. induction 1 as [|row r rows rs Hr _ IH]; cbn [map]; [constructor|].
  constructor; [|exact IH]. unfold touched. rewrite (row_for_key _ _ Hr).
  rewrite (bool_decide_ext (mr_key r ∈ [k]) (mr_key r = k)) by apply list_elem_of_singleton.
  destruct (bool_decide (mr_key r = k)); [|exact Hr].
  destruct Hr as (tags & linked & Htags & Hl & -> & Hc & Hu & Hrd). change (lw_read (record_row r tags linked)) with (time_text (mr_read r)).
  rewrite time_text_order by done. exists tags, linked. split_and!; try done; [|by apply max_stored]. unfold with_read, record_row.
  destruct (Z.ltb_spec (mr_read r) t); [rewrite (Z.max_r (mr_read r) t) by lia|rewrite (Z.max_l (mr_read r) t) by lia]; done.
Qed.
Lemma touched_twice k keys t r : touched keys t (touched [k] t r) = touched (k :: keys) t r.
Proof.
  unfold touched. rewrite (bool_decide_ext (mr_key r ∈ [k]) (mr_key r = k)) by apply list_elem_of_singleton.
  destruct (decide (mr_key r = k)) as [Hk|Hk].
  - rewrite (bool_decide_eq_true_2 (mr_key r = k)), (bool_decide_eq_true_2 (mr_key r ∈ k :: keys)) by (rewrite ?Hk; done || apply list_elem_of_here).
    cbn [with_read mr_key]. destruct (bool_decide _); [|done]. unfold with_read. cbn. by rewrite <- Z.max_assoc, Z.max_id.
  - rewrite (bool_decide_eq_false_2 (mr_key r = k)) by done.
    rewrite (bool_decide_ext (mr_key r ∈ k :: keys) (mr_key r ∈ keys)); [done|]. rewrite elem_of_cons. naive_solver.
Qed.
Lemma touch_all_notes keys t tb rs : stored_time t -> Forall2 row_for (lg_rows tb) rs ->
  Forall2 row_for (lg_rows (touch_all (time_text t) keys tb)) (map (touched keys t) rs).
Proof.
  intros Ht. revert tb rs. induction keys as [|k keys IH]; intros tb rs Hf; simpl.
  - unfold touched. simpl. rewrite map_ext with (g := id), map_id by done. exact Hf.
  - specialize (IH _ _ (touch_row_notes t k tb rs Ht Hf)). rewrite map_map in IH.
    rewrite (map_ext _ (touched (k :: keys) t)) in IH by (intros r; apply touched_twice). exact IH.
Qed.
Lemma touch_all_index now keys t : index_ok t -> index_ok (touch_all now keys t).
Proof. revert t. induction keys as [|k keys IH]; intros t Hok; simpl; [done|]. by apply IH, touched_row_index. Qed.
End Store.

(** ** Queries are plain words *)
Definition quoted (w : bytes) : bytes := [dquote] ++ w ++ [dquote].
Lemma runs_skip p text : runs p (skip_while (fun ch => negb (p ch)) text) = runs p text.
Proof. induction text as [|c text IH]; simpl; [done|]. destruct (p c) eqn:Hc; simpl; rewrite ?Hc; done. Qed.
Lemma skip_head p text : match skip_while (fun ch => negb (p ch)) text with [] => True | c :: _ => p c = true end.
Proof. induction text as [|c text IH]; simpl; [done|]. by destruct (p c) eqn:Hc. Qed.
Lemma runs_word p c text : p c = true ->
  runs p (c :: text) = take_while p (c :: text) :: runs p (skip_while p (c :: text)).
Proof.
  revert c. induction text as [|d text IH]; intros c Hc; [by cbn; rewrite Hc|].
  cbn [runs take_while skip_while]. rewrite Hc. destruct (p d) eqn:Hd; [|cbn [runs]; by rewrite Hd].
  specialize (IH d Hd). cbn [runs take_while skip_while] in IH. rewrite Hd in IH. by rewrite IH.
Qed.
Lemma take_while_all p text : forallb p (take_while p text) = true.
Proof. induction text as [|c text IH]; simpl; [done|]. destruct (p c) eqn:Hc; simpl; by rewrite ?Hc. Qed.
Lemma skip_while_length p text : (length (skip_while p text) <= length text)%nat.
Proof. induction text as [|c text IH]; simpl; [done|]. destruct (p c); simpl; lia. Qed.
Lemma quote_word w : forallb word_byte w = true -> quote_fts_token w = quoted w.
Proof.
  intros Hw. unfold quote_fts_token, quoted. do 2 f_equal. induction w as [|c w IH]; simpl in *; [done|].
  apply andb_true_iff in Hw as [Hc Hw]. rewrite decide_False by (by intros ->). simpl. by rewrite IH.
Qed.
Definition query_of (out : bytes) (ws : list bytes) : bytes :=
  match out with
  | [] => joined (lit " OR ") (map quoted ws)
  | _ => out ++ concat (map (app (lit " OR ")) (map quoted ws))
  end.
Lemma query_loop_spec fuel text out terms : (length text < fuel)%nat ->
  query_loop fuel text out terms = query_of out (take (32 - terms) (runs word_byte text)).
Proof.
  assert (Hnil : forall out, query_of out [] = out) by (by intros [|]; simpl; rewrite ?app_nil_r).
  revert text out terms. induction fuel as [|fuel IH]; intros text out terms Hf; [lia|]. cbn [query_loop].
  case_bool_decide as Ht; [subst text; cbn [runs]; by rewrite take_nil, Hnil|]. cbn [orb].
  destruct (Nat.leb_spec 32 terms); [by replace (32 - terms)%nat with 0%nat by lia; rewrite take_0, Hnil|].
  rewrite <- (runs_skip word_byte text). pose proof (skip_head word_byte text) as Hh.
  pose proof (skip_while_length (fun ch => negb (word_byte ch)) text) as Hl. destruct (skip_while _ text) as [|c rest].
  - simpl. rewrite take_nil, Hnil. by destruct fuel.
  - rewrite (runs_word _ _ _ Hh). pose proof (take_while_all word_byte (c :: rest)) as Hw.
    assert (Hshort : (length (skip_while word_byte (c :: rest)) < fuel)%nat).
    { cbn [skip_while]. rewrite Hh. pose proof (skip_while_length word_byte rest). simpl in Hl. lia. }
    destruct (take_while word_byte (c :: rest)) as [|d word] eqn:Htw; [cbn in Htw; by rewrite Hh in Htw|].
    rewrite IH by exact Hshort. rewrite (quote_word _ Hw). replace (32 - terms)%nat with (S (32 - S terms)) by lia. cbn [take].
    destruct out as [|o out]; [done|]. rewrite bool_decide_eq_false_2 by done. unfold query_of.
    set (sep := lit " OR "). clearbody sep. cbn [app map concat]. by rewrite <- !app_assoc.
Qed.

(** ** The store keeps the promises of a backend *)
Section Promises.
Context `{JsonLibraryLaws} `{FtsEngine} `{!FtsLaws}.
Lemma kind_in_selected kinds k : kind_in kinds (enum_name k) = kind_selected kinds k.
Proof.
  unfold kind_in, kind_selected. f_equal. apply bool_decide_ext. split.
  - intros Hin. apply list_elem_of_In, in_map_iff in Hin as (k' & He & Hin). apply list_elem_of_In in Hin.
    assert (k' = k) as ->; [|done]. apply (f_equal (parse_enum (E := RecordKind))) in He. rewrite !parse_enum_name in He. congruence.
  - intros Hin. apply list_elem_of_In, in_map. by apply list_elem_of_In.
Qed.
Lemma note_of_row t row r : notes_ok t -> row ∈ lg_rows t -> read_record_row row = Ok r -> r ∈ notes t /\ row_for row r.
Proof.
  intros Hok Hin Hr. pose proof (proj1 (Forall_forall _ _) Hok row Hin) as [r' Hr']. pose proof (row_for_read _ _ Hr') as Hr''.
  rewrite Hr in Hr''. injection Hr'' as <-. split; [|done]. apply list_elem_of_omap. exists row. split; [done|].
  unfold decoded. by rewrite Hr.
Qed.
Lemma hit_visible q t row score x : notes_ok t -> (row, score) ∈ hits_of q t -> read_hit (row, score) = Ok x ->
  hit_record x ∈ notes t /\ visible q (hit_record x).
Proof.
  intros Hok Hin Hx. unfold hits_of in Hin. apply list_elem_of_In, in_flat_map in Hin as (f & Hf & Hin).
  destruct (_ && _) eqn:Hm; [|done]. apply andb_true_iff in Hm as [_ Hs]. apply bool_decide_eq_true in Hs.
  apply in_map_iff in Hin as (row' & [= -> _] & Hin). apply list_elem_of_In, list_elem_of_filter in Hin as [(Hk & Hsh & Hkind) Hin].
  unfold read_hit in Hx. apply result_bind_ok in Hx as (r & Hr & [= <-]). simpl.
  destruct (note_of_row t row r Hok Hin Hr) as [Hn (tags & linked & _ & _ & -> & _)]. split; [done|].
  unfold row_key, fts_key, record_row in Hk. simpl in Hk, Hsh, Hkind. split_and!.
  - injection Hk as _ ->. exact Hs.
  - by destruct (mr_shadow r).
  - by rewrite <- kind_in_selected.
Qed.
#[export] Instance fts5_laws faults : BackendLaws (fts5 faults) memory_ok (fun c => notes (cn_tables c)).
Proof.
  split.
  - intros k c [Hs Hi Hn]. pose proof (get_outcome faults k c Hs) as Ho. cbn [fts5 be_get].
    destruct (get faults k c) as [[r|e] c']; destruct Ho as [Ho Hs']; [|by rewrite Ho; split_and!; [split; rewrite ?Ho|..]].
    destruct Ho as (Ht & row & Hat & Hr). rewrite Ht. split; [by split; rewrite ?Ht|]. split; [done|].
    unfold row_at in Hat. apply find_row_some in Hat as [Hin <-]. destruct (note_of_row _ _ _ Hn Hin Hr) as [Hnote Hrow].
    split; [done|]. symmetry. by apply row_for_key.
  - intros q limit c [Hs Hi Hn] Hlim. pose proof (search_outcome faults q limit c Hs) as Ho. cbn [fts5 be_search].
    destruct (search faults q limit c) as [[hits|e] c']; destruct Ho as [Ho Hs']; [|by rewrite Ho; split_and!; [split; rewrite ?Ho|..]].
    destruct Ho as (Ht & _ & Hh). rewrite Ht. split; [by split; rewrite ?Ht|]. split; [done|].
    destruct Hh as [[_ ->]|Hh]; [split; [constructor|simpl; lia]|]. split.
    + apply Forall_forall. intros x Hx. apply list_elem_of_lookup in Hx as [i Hx].
      destruct (Forall2_lookup_r _ _ _ _ _ Hh Hx) as ([row score] & Hi' & Hread). apply list_elem_of_lookup_2, elem_of_take in Hi' as (j & Hj & _).
      apply (hit_visible q _ row score); [done| |done]. rewrite <- (merge_sort_Permutation hit_before (hits_of q _)).
      by eapply list_elem_of_lookup_2.
    + apply Forall2_length in Hh. rewrite length_take in Hh. lia.
  - intros keys t c [Hs Hi Hn] Ht. pose proof (touch_outcome faults keys t c Hs) as Ho. cbn [fts5 be_touch].
    destruct (touch faults keys t c) as [[u|e] c']; destruct Ho as [Ho Hs']; [|by rewrite Ho; split_and!; [split; rewrite ?Ho|..]].
    destruct Ho as [_ Htab]. destruct (rows_notes (cn_tables c') (map (touched keys t) (notes (cn_tables c)))) as [Hn' Hnotes].
    { rewrite Htab. apply touch_all_notes; [done|by apply notes_rows]. }
    split; [|done]. split; [done| |done]. rewrite Htab. by apply touch_all_index.
Qed.
End Promises.

(** ** Steps of a store *)
(** Whatever the processes of the program do with it; times are representable. *)
Inductive memory_step `{JsonLibrary} `{FtsEngine} : MemoryConn -> MemoryConn -> Prop :=
  | step_upsert faults r x c c' : times_ok r -> upsert faults r c = (x, c') -> memory_step c c'
  | step_touch faults keys t x c c' : stored_time t -> touch faults keys t c = (x, c') -> memory_step c c'
  | step_remove faults k x c c' : remove faults k c = (x, c') -> memory_step c c'
  | step_import faults cancelled path source from to x c c' :
      notes_ok (ms_tables source) -> import_scope faults cancelled path source from to c = (x, c') -> memory_step c c'
  | step_get faults k x c c' : get faults k c = (x, c') -> memory_step c c'
  | step_search faults q limit x c c' : search faults q limit c = (x, c') -> memory_step c c'
  | step_list faults r x c c' : list_notes faults r c = (x, c') -> memory_step c c'.

Definition rescoped (scope : string) (r : MemoryRecord) : MemoryRecord :=
  mkMemory (mkRecordKey (key_id (mr_key r)) scope) (mr_kind r) (mr_title r) (mr_body r) (mr_created r) (mr_updated r) (mr_read r)
    (mr_importance r) (mr_tags r) (mr_linked r) (mr_shadow r).
Section Steps.
Context `{JsonLibraryLaws} `{FtsEngine} `{!FtsLaws}.
Lemma rescoped_row scope row r : row_for row r -> row_for (under_scope scope row) (rescoped scope r).
Proof. intros (tags & linked & Ht & Hl & -> & Hc). by exists tags, linked. Qed.
Lemma source_notes source from : notes_ok source -> Forall2 row_for (source_rows from source) (omap decoded (source_rows from source)).
Proof.
  intros Hok. apply (notes_rows (mkLongtermTables (source_rows from source) [])). unfold notes_ok. simpl.
  apply Forall_forall. intros row Hin. unfold source_rows in Hin. rewrite merge_sort_Permutation in Hin.
  apply list_elem_of_filter in Hin as [_ Hin]. exact (proj1 (Forall_forall _ _) Hok row Hin).
Qed.
Lemma decoded_cons row rows r : row_for row r -> omap decoded (row :: rows) = r :: omap decoded rows.
Proof. intros Hr. cbn. unfold decoded at 1. by rewrite (row_for_read _ _ Hr). Qed.
Lemma filter_decoded from (rows : list LongtermRow) : Forall (fun row => exists r, row_for row r) rows ->
  omap decoded (filter (fun r => lw_scope r = from) rows) = filter (fun r => key_scope (mr_key r) = from) (omap decoded rows).
Proof.
  induction 1 as [|row rows [r Hr] _ IH]; [done|]. rewrite (decoded_cons _ _ _ Hr), !filter_cons.
  rewrite <- (row_for_key _ _ Hr). change (key_scope (row_key row)) with (lw_scope row).
  destruct (decide (lw_scope row = from)); [|exact IH]. by rewrite (decoded_cons _ _ _ Hr), IH.
Qed.
Lemma imported_notes source from to t u t' : notes_ok source -> notes_ok t -> imported source from to t u t' ->
  notes_ok t' /\ notes t' = notes t ++ map (rescoped to) (omap decoded (source_rows from source)).
Proof.
  intros Hsrc Hok (_ & _ & fs & _ & -> & _). apply rows_notes. simpl. apply Forall2_app; [by apply notes_rows|].
  pose proof (source_notes source from Hsrc) as Hf. induction Hf as [|row r rows rs Hr _ IH]; simpl; constructor; [by apply rescoped_row|done].
Qed.
Lemma removed_notes k t : notes_ok t -> notes_ok (delete_row k (delete_fts k t)).
Proof. intros Hok. unfold notes_ok. simpl. apply Forall_forall. intros row Hin. apply list_elem_of_filter in Hin as [_ Hin].
  exact (proj1 (Forall_forall _ _) Hok row Hin).
Qed.
Lemma memory_step_ok c c' : memory_step c c' -> memory_ok c -> memory_ok c'.
Proof.
  intros Hstep [Hs Hi Hn]. destruct Hstep as [faults r x c c' Htimes He|faults keys t x c c' Ht He|faults k x c c' He|
    faults cancelled path source from to x c c' Hsrc He|faults k x c c' He|faults q limit x c c' He|faults r x c c' He].
  - pose proof (upsert_outcome faults r c Hs) as Ho. rewrite He in Ho. destruct x as [stored|e]; destruct Ho as [Ho Hs']; [|by split; rewrite ?Ho].
    destruct Ho as [Hv Hup]. destruct (upserted_notes r _ _ _ (ik_keys _ Hi) Hn Htimes Hup) as [Hn' _].
    split; [done|by eapply upserted_index|done].
  - pose proof (touch_law (BackendLaws := fts5_laws faults) keys t c (Build_memory_ok c Hs Hi Hn) Ht) as Ho. cbn [fts5 be_touch] in Ho. rewrite He in Ho. exact (proj1 Ho).
  - pose proof (remove_outcome faults k c Hs) as Ho. rewrite He in Ho. destruct x as [u|e]; destruct Ho as [Ho Hs']; [|by split; rewrite ?Ho].
    destruct Ho as [_ Ht]. split; rewrite ?Ht; [done|by apply index_remove|by apply removed_notes].
  - pose proof (memory_import_outcome faults cancelled path source from to c Hs) as Ho. rewrite He in Ho. destruct x as [u|e]; destruct Ho as [Ho Hs']; [|by split; rewrite ?Ho].
    destruct (imported_notes _ _ _ _ _ _ Hsrc Hn Ho) as [Hn' _]. destruct Ho as (_ & _ & Hc). split; [done|by eapply copied_index|done].
  - pose proof (get_outcome faults k c Hs) as Ho. rewrite He in Ho. destruct x as [r|e]; destruct Ho as [Ho Hs']; [destruct Ho as [Ho _]|]; by split; rewrite ?Ho.
  - pose proof (search_outcome faults q limit c Hs) as Ho. rewrite He in Ho. destruct x as [r|e]; destruct Ho as [Ho Hs']; [destruct Ho as [Ho _]|]; by split; rewrite ?Ho.
  - pose proof (list_outcome faults r c Hs) as Ho. rewrite He in Ho. destruct x as [es|e]; destruct Ho as [Ho Hs']; [destruct Ho as [Ho _]|]; by split; rewrite ?Ho.
Qed.
Lemma memory_steps_ok c c' : rtc memory_step c c' -> memory_ok c -> memory_ok c'.
Proof. induction 1; eauto using memory_step_ok. Qed.

(** *** Reading what is there *)
Context (faults : nat -> option Error) (calm : forall n, faults n = None).
Lemma record_upd k new rs : mr_key new = k -> record_at k (upd_record k new rs) = Some new.
Proof.
  intros Hk. unfold upd_record, record_at. destruct (find _ rs) as [o|] eqn:Hf.
  - revert Hf. induction rs as [|r rs IH]; simpl; [done|]. destruct (bool_decide (mr_key r = k)) eqn:Hr; simpl.
    + intros _. by rewrite bool_decide_eq_true_2.
    + rewrite Hr. exact IH.
  - induction rs as [|r rs IH]; simpl in *; [by rewrite bool_decide_eq_true_2|].
    destruct (bool_decide (mr_key r = k)); [discriminate|]. by apply IH.
Qed.
Lemma get_found k r c : notes_ok (cn_tables c) -> validate_key k = Ok tt -> record_at k (notes (cn_tables c)) = Some r ->
  cn_saved c = None -> exists c', get faults k c = (Ok r, c').
Proof.
  intros Hok Hv Hr Hs. pose proof (find_notes k _ _ (notes_rows _ Hok)) as Hf. rewrite Hr in Hf.
  destruct (find _ (lg_rows (cn_tables c))) as [row|] eqn:Hat; [|done]. destruct Hf as [Hrow _].
  assert (Hok' : succeeds (get faults k) (cn_tables c)).
  { unfold get. rewrite Hv. eapply succeeds_bind; [apply succeeds_ret|apply does_retD|]. intros u t1 [_ ->].
    eapply succeeds_bind; [|apply does_open|].
    - unfold open_reader. do 2 (apply (succeeds_after _ calm)). apply (succeeds_step _ calm).
    - intros u' t1 ->. eapply succeeds_bind; [by apply (succeeds_call _ calm); eauto|apply does_select|].
      intros found t1 [[= Hfound] ->]. unfold row_at in Hfound. rewrite Hat in Hfound. subst found.
      rewrite (row_for_read _ _ Hrow). eapply succeeds_bind; [apply succeeds_ret|apply does_retD|]. intros x t1 [-> ->].
      apply (succeeds_after _ calm). apply succeeds_ret. }
  destruct (Hok' c eq_refl) as (x & c' & He). pose proof (get_outcome faults k c Hs) as Ho. rewrite He in Ho.
  destruct Ho as [(_ & row' & Hat' & Hx) _]. unfold row_at in Hat'. rewrite Hat in Hat'. injection Hat' as <-.
  rewrite (row_for_read _ _ Hrow) in Hx. injection Hx as <-. by exists c'.
Qed.
End Steps.

(** ** Properties *)
(** C28: However notes are written, read, removed and imported, and whatever call of SQLite
    fails in between, the full-text index holds exactly one row for each note and no other,
    with its present key, kind, flag, title and body and with its tags, each as often as the
    note has it (in the order of the note, or for imported notes in any order SQLite chose);
    no two notes share a key, every note can be read back, and no transaction is left open. *)
Theorem index_follows_notes `{JsonLibraryLaws} `{FtsEngine} `{!FtsLaws} c c' :
  memory_ok c -> rtc memory_step c c' ->
  cn_saved c' = None /\ NoDup (map row_key (lg_rows (cn_tables c'))) /\
  (exists fs, fs ≡ₚ lg_fts (cn_tables c') /\ Forall2 indexes (lg_rows (cn_tables c')) fs) /\
  Forall (fun row => exists r, read_record_row row = Ok r) (lg_rows (cn_tables c')).
Proof.
  intros Hok Hsteps. destruct (memory_steps_ok _ _ Hsteps Hok) as [Hs [Hk Hf] Hn]. split_and!; try done.
  eapply Forall_impl; [exact Hn|]. intros row [r Hr]. exists r. by apply row_for_read.
Qed.

(** Remembering a note stores it as a whole or not at all: a note of the same key keeps
    its creation and read times and never goes back in its update time, no other note
    changes, and what is returned is what reading the key gives from then on. *)
Theorem remember_roundtrip `{JsonLibraryLaws} `{FtsEngine} `{!FtsLaws} faults quietly r c :
  memory_ok c -> times_ok r -> (forall n, quietly n = None) ->
  match upsert faults r c with
  | (Ok stored, c') =>
      stored = merged (record_at (mr_key r) (notes (cn_tables c))) r /\
      notes (cn_tables c') = upd_record (mr_key r) stored (notes (cn_tables c)) /\
      exists c1, get quietly (mr_key r) c' = (Ok stored, c1)
  | (Err _, c') => cn_tables c' = cn_tables c
  end.
Proof.
  intros [Hs Hi Hn] Htimes Hcalm. pose proof (upsert_outcome faults r c Hs) as Ho.
  destruct (upsert faults r c) as [[stored|e] c']; destruct Ho as [Ho Hs']; [|exact Ho]. destruct Ho as [Hv Hup].
  destruct (upserted_notes r _ _ _ (ik_keys _ Hi) Hn Htimes Hup) as (Hn' & Hst & Hnotes). split_and!; [done|done|].
  apply get_found; [done|done| | |done].
  - unfold validate_record in Hv. ok_inv. by destruct x.
  - rewrite Hnotes. apply record_upd. rewrite Hst. unfold merged. by destruct (record_at _ _).
Qed.

(** Importing a scope copies exactly its notes under the new scope, which held nothing
    before, with their texts, times and tags, and indexes them; when it fails or is
    cancelled, the database is as it was. *)
Theorem import_copies_scope `{JsonLibraryLaws} `{FtsEngine} `{!FtsLaws} faults cancelled path source from to c :
  memory_ok c -> notes_ok (ms_tables source) ->
  match import_scope faults cancelled path source from to c with
  | (Ok _, c') =>
      (forall r, r ∈ notes (cn_tables c) -> key_scope (mr_key r) <> to) /\
      exists copies, copies ≡ₚ filter (fun r => key_scope (mr_key r) = from) (notes (ms_tables source)) /\ copies <> [] /\
        notes (cn_tables c') = notes (cn_tables c) ++ map (rescoped to) copies /\ index_ok (cn_tables c')
  | (Err _, c') => cn_tables c' = cn_tables c
  end.
Proof.
  intros [Hs Hi Hn] Hsrc. pose proof (memory_import_outcome faults cancelled path source from to c Hs) as Ho.
  destruct (import_scope _ _ _ _ _ _ c) as [[u|e] c']; destruct Ho as [Ho Hs']; [|exact Ho].
  destruct (imported_notes _ _ _ _ _ _ Hsrc Hn Ho) as [_ Hnotes]. destruct Ho as (Htaken & Hne & Hc). split.
  - intros r Hr He. unfold scope_taken in Htaken. apply orb_false_iff in Htaken as [Hfree _].
    apply negb_false_iff, bool_decide_eq_true in Hfree.
    unfold notes in Hr. apply list_elem_of_omap in Hr as (row & Hin & Hd).
    destruct (proj1 (Forall_forall _ _) Hn row Hin) as [r' Hr']. unfold decoded in Hd. rewrite (row_for_read _ _ Hr') in Hd. injection Hd as ->.
    assert (Hrow : row ∈ filter (fun r => lw_scope r = to) (lg_rows (cn_tables c))).
    { apply list_elem_of_filter. split; [|done]. pose proof (row_for_key _ _ Hr') as Hk. apply (f_equal key_scope) in Hk. simpl in Hk. congruence. }
    rewrite Hfree in Hrow. by apply not_elem_of_nil in Hrow.
  - exists (omap decoded (source_rows from (ms_tables source))). split_and!; [|..|exact Hnotes|by eapply copied_index].
    + unfold source_rows. rewrite merge_sort_Permutation. apply Permutation_refl', filter_decoded, Hsrc.
    + pose proof (source_notes _ from Hsrc) as Hf. intros He. rewrite He in Hf. inversion Hf as [Hnil|]. by rewrite <- Hnil in Hne.
Qed.

(** No text of a user reaches the full-text engine as syntax: a query is the first
    thirty-two words of the text, each of letters, digits and bytes beyond ASCII only, each
    in quotation marks, and all joined by [OR]. *)
Theorem fts_query_plain text :
  lit (make_fts_query text) = joined (lit " OR ") (map quoted (take 32 (runs word_byte (lit text)))) /\
  Forall (fun w => w <> [] /\ forallb word_byte w = true) (runs word_byte (lit text)).
Proof.
  split; [unfold make_fts_query; rewrite lit_str, query_loop_spec by (rewrite lit_length; lia); done|].
  generalize (lit text). clear text. intros text. induction text as [|c text IH]; simpl; [constructor|].
  assert (Hone : forall w ws, forallb word_byte w = true -> word_byte c = true ->
    Forall (fun w => w <> [] /\ forallb word_byte w = true) ws -> Forall (fun w => w <> [] /\ forallb word_byte w = true) ((c :: w) :: ws)).
  { intros w ws Hw Hc Hws. constructor; [|exact Hws]. split; [done|]. simpl. by rewrite Hc. }
  destruct (word_byte c) eqn:Hc; [|exact IH]. destruct text as [|d text]; [by apply Hone|].
  destruct (word_byte d); [|by apply Hone]. destruct (runs word_byte (d :: text)) as [|w ws]; [by apply Hone|].
  apply Forall_cons in IH as [[_ Hw] IH]. by apply Hone.
Qed.

(** ** The index of a scope *)
#[export] Instance visible_dec q r : Decision (visible q r).
Proof. unfold visible. apply _. Defined.
Definition entry_of (r : MemoryRecord) : IndexEntry :=
  mkEntry (mkRecordKey (str (sql_prefix 8193 (lit (key_id (mr_key r))))) (key_scope (mr_key r))) (mr_kind r)
    (str (sql_prefix 121 (lit (mr_title r)))) (str (sql_prefix 241 (lit (mr_body r)))).
Section Listing.
Context `{JsonLibraryLaws} `{FtsEngine}.
(** The notes of a listing, in its order. *)
Definition listed_notes (r : IndexRequest) (t : LongtermTables) : list MemoryRecord :=
  omap decoded (listed (ir_scope r) (ir_kinds r) t).
Definition request_query (r : IndexRequest) : Query := mkQuery (ir_scope r) "" (ir_kinds r).
Lemma listed_rows r t : notes_ok t -> Forall2 (fun row x => row_for row x /\ key_scope (mr_key x) = ir_scope r)
  (listed (ir_scope r) (ir_kinds r) t) (listed_notes r t).
Proof.
  intros Hok. unfold listed_notes. assert (Hall : Forall (fun row => (exists x, row_for row x) /\ lw_scope row = ir_scope r) (listed (ir_scope r) (ir_kinds r) t)).
  { apply Forall_forall. intros row Hin. unfold listed in Hin. rewrite merge_sort_Permutation in Hin.
    apply list_elem_of_filter in Hin as [(Hs & _) Hin]. split; [exact (proj1 (Forall_forall _ _) Hok row Hin)|done]. }
  induction Hall as [|row rows [[x Hx] Hs] _ IH]; [constructor|]. rewrite (decoded_cons _ _ _ Hx). constructor; [|exact IH].
  split; [done|]. pose proof (row_for_key _ _ Hx) as Hk. apply (f_equal key_scope) in Hk. simpl in Hk. congruence.
Qed.
Lemma row_visible r row x : row_for row x ->
  (lw_scope row = ir_scope r /\ lw_shadow row = 0 /\ kind_in (ir_kinds r) (lw_kind row) = true) <-> visible (request_query r) x.
Proof.
  intros (tags & linked & _ & _ & -> & _). unfold visible, record_row. cbn [lw_scope lw_shadow lw_kind request_query qy_scope qy_kinds].
  rewrite kind_in_selected. destruct (mr_shadow x); cbn; intuition discriminate.
Qed.
Lemma filter_listed r (rows : list LongtermRow) : Forall (fun row => exists x, row_for row x) rows ->
  omap decoded (filter (fun row => lw_scope row = ir_scope r /\ lw_shadow row = 0 /\ kind_in (ir_kinds r) (lw_kind row) = true) rows) =
  filter (visible (request_query r)) (omap decoded rows).
Proof.
  induction 1 as [|row rows [x Hx] _ IH]; [done|]. rewrite (decoded_cons _ _ _ Hx), !filter_cons.
  pose proof (row_visible r row x Hx) as Hiff.
  destruct (decide (visible (request_query r) x)) as [Hv|Hv].
  - rewrite decide_True by (by apply Hiff). by rewrite (decoded_cons _ _ _ Hx), IH.
  - rewrite decide_False by (intros Hn; by apply Hv, Hiff). exact IH.
Qed.
Lemma listed_visible r t : notes_ok t -> listed_notes r t ≡ₚ filter (visible (request_query r)) (notes t).
Proof.
  intros Hok. unfold listed_notes, listed. rewrite merge_sort_Permutation. by apply Permutation_refl', filter_listed.
Qed.
Lemma read_entry_of scope row x : row_for row x -> key_scope (mr_key x) = scope -> read_entry scope row = Ok (entry_of x).
Proof.
  intros (tags & linked & _ & _ & -> & _) <-. unfold read_entry, entry_row, record_row. cbn [lw_id lw_kind lw_title lw_body].
  by rewrite parse_enum_name.
Qed.
Lemma list_calm faults r c : (forall n, faults n = None) -> notes_ok (cn_tables c) -> validate_index_request r = Ok tt ->
  exists c', cn_tables c' = cn_tables c /\
    list_notes faults r c = (Ok (take (Z.to_nat (ir_limit r) + 1) (drop (Z.to_nat (ir_offset r)) (map entry_of (listed_notes r (cn_tables c))))), c').
Proof.
  intros Hcalm Hok Hv. set (t := cn_tables c).
  assert (Hr : reads faults (list_notes faults r) (fun es => es = take (Z.to_nat (ir_limit r) + 1) (drop (Z.to_nat (ir_offset r)) (map entry_of (listed_notes r t))))
    (fun _ => False) t).
  { unfold list_notes. eapply reads_lift; [exact Hv|]. apply reads_open. intros c1 Hc1. rewrite Hc1.
    refine (reads_rows faults (read_entry (ir_scope r)) (index_rows r t) _ _ t _ c1 Hc1). unfold index_rows.
    apply Forall2_take, Forall2_drop. pose proof (listed_rows r t Hok) as Hf.
    induction Hf as [|row x rows xs [Hx Hs] _ IH]; simpl; constructor; [by apply read_entry_of|done]. }
  destruct (Hr c eq_refl) as [Ht Hres]. destruct (list_notes faults r c) as [[es|e] c']; simpl in *.
  - exists c'. by rewrite Hres.
  - destruct Hres as [[]|[n Hn]]. by rewrite Hcalm in Hn.
Qed.
End Listing.

(** Browsing the index from its first page on shows every note of the scope that the
    filter selects, shadows excepted: the walk ends, no page exceeds its budget, and the
    pages together hold each note once, in the order of the listing, except those whose
    identifier alone does not fit a page, which they count. *)
Theorem index_covers_scope `{JsonLibraryLaws} `{FtsEngine} faults r c :
  (forall n, faults n = None) -> notes_ok (cn_tables c) -> 0 <= ir_limit r ->
  validate_index_request (at_offset r 0) = Ok tt -> Z.of_nat (length (lg_rows (cn_tables c))) < 2 ^ 63 - 101 ->
  Forall writable (map entry_of (listed_notes r (cn_tables c))) ->
  listed_notes r (cn_tables c) ≡ₚ filter (visible (request_query r)) (notes (cn_tables c)) /\
  exists pages c', walk (fts5 faults) (S (length (lg_rows (cn_tables c)))) (at_offset r 0) c = (Some pages, c') /\
    Forall (fun p => slength (ix_text p) <= ir_max_bytes r) pages /\
    concat (map ix_entries pages) = map cue_of (shown_of (ir_max_bytes r) (map entry_of (listed_notes r (cn_tables c)))) /\
    fold_right Z.add 0 (map ix_omitted pages) = omitted_of (ir_max_bytes r) (map entry_of (listed_notes r (cn_tables c))).
Proof.
  intros Hcalm Hok Hl Hv Hsize Hw. split; [by apply listed_visible|]. set (t := cn_tables c) in *.
  assert (Hlen : (length (map entry_of (listed_notes r t)) <= length (lg_rows t))%nat).
  { rewrite length_map, <- (Forall2_length _ _ _ (listed_rows r t Hok)). unfold listed. rewrite merge_sort_Permutation. apply length_filter. }
  apply (index_walk (fts5 faults) (fun c => cn_tables c = t)); try done; try lia.
  intros offset c1 Hc1 Ho Hle.
  destruct (list_calm faults (at_offset r offset) c1 Hcalm) as (c2 & Hc2 & Hlist); [by rewrite Hc1|by apply Hle|].
  exists c2. split; [congruence|]. rewrite Hc1 in Hlist. exact Hlist.
Qed.

(** ** A store in use *)
Module Demo.
Import OrderedJson.Sample.
#[export] Instance sample_engine : FtsEngine := {
  fts_match m f := bool_decide (m = str (quoted (lit (fw_title f))));
  fts_score _ _ _ := double_one;
  sql_tags n s := match json_parse s with
    | Doc (JArray l) => match strings_of 0 l "" with
        | Ok tags => Some (String.concat " " (if Nat.even n then tags else rev tags)) | Err _ => None end
    | _ => None
    end }.
#[export] Instance sample_fts_laws : FtsLaws.
Proof.
  split. intros n l s _ Hd. exists (if Nat.even n then l else rev l). split; [destruct (Nat.even n); [done|symmetry; apply Permutation_rev]|].
  unfold sql_tags, sample_engine. rewrite (parse_dump _ _) with (2 := Hd); [by rewrite strings_of_strings|].
  simpl. apply forallb_forall. by intros x (v & <- & _)%in_map_iff.
Qed.
Definition quietly (n : nat) : option Error := None.
Definition instant : Z := 1752919384123456789.
Definition half : double := SpecFloat.S754_finite false 4503599627370496 (-53).
Definition plan : MemoryRecord :=
  mkMemory (mkRecordKey "k1" "s") rk_project "plan" "walk the dog" instant instant instant half ["pets"; "daily"] [] false.
Definition fresh : MemoryConn := mkConn (mkLongtermTables [] []) None 0.
Definition after1 : MemoryConn := snd (upsert quietly plan fresh).
Definition kept : MemoryRecord := at_ms plan.
Definition late (n : nat) : option Error := if decide (n = 10)%nat then Some constraint_failed else None.
Example kept_now : fst (upsert quietly plan fresh) = Ok kept.
Proof. vm_compute. reflexivity. Qed.
(** A fault at the index undoes the note. *)
Example late_upsert : cn_tables (snd (upsert late plan fresh)) = cn_tables fresh.
Proof. vm_compute. reflexivity. Qed.
Example found_plan : fst (search quietly (mkQuery "s" "plan" []) 5 after1) = Ok [mkHit kept double_one].
Proof. vm_compute. reflexivity. Qed.

Lemma fresh_ok : memory_ok fresh.
Proof. split; [done| |by constructor]. split; simpl; [by apply NoDup_nil|]. exists []. split; [done|constructor]. Qed.
Lemma plan_times : times_ok plan.
Proof. unfold times_ok, stored_time, fits_s. split_and!; vm_compute; done || discriminate. Qed.
Lemma upserted_step : memory_step fresh after1.
Proof. apply (step_upsert quietly plan (fst (upsert quietly plan fresh))); [exact plan_times|apply surjective_pairing]. Qed.
Lemma after1_ok : memory_ok after1.
Proof. exact (memory_step_ok _ _ upserted_step fresh_ok). Qed.
Definition request : RecallRequest := mkRecall (mkQuery "s" "plan" []) 5 "".
Definition browse : IndexRequest := mkIndexRequest "s" [] 20 0 1024.
Definition snapshot : MemorySource := mkMemorySource [Some "1"%string] (cn_tables after1).

(** The note is remembered, then its scope is imported under another one. *)
Definition imported1 : MemoryConn := snd (import_scope quietly (fun _ => false) "backup.db" snapshot "s" "t" after1).
Lemma imported_reached : rtc memory_step fresh imported1.
Proof.
  eapply rtc_l; [exact upserted_step|]. apply rtc_once.
  apply (step_import quietly (fun _ => false) "backup.db" snapshot "s" "t"
    (fst (import_scope quietly (fun _ => false) "backup.db" snapshot "s" "t" after1))); [exact (mo_notes _ after1_ok)|apply surjective_pairing].
Qed.
Lemma index_follows_notes_witness : length (lg_rows (cn_tables imported1)) = 2%nat /\
  exists fs, fs ≡ₚ lg_fts (cn_tables imported1) /\ Forall2 indexes (lg_rows (cn_tables imported1)) fs.
Proof.
  split; [vm_compute; reflexivity|].
  exact (proj1 (proj2 (proj2 (index_follows_notes fresh imported1 fresh_ok imported_reached)))).
Defined.
Lemma remember_roundtrip_witness : exists c1, get quietly (mr_key plan) after1 = (Ok kept, c1).
Proof.
  pose proof (remember_roundtrip quietly quietly plan fresh fresh_ok plan_times (fun n => eq_refl)) as H.
  unfold after1. destruct (upsert quietly plan fresh) as [x c] eqn:He.
  assert (Hx : x = Ok kept) by (change x with (fst (x, c)); rewrite <- He; vm_compute; reflexivity).
  rewrite Hx in H. exact (proj2 (proj2 H)).
Defined.
(** The note is removed between its selection and the write of its read time. *)
Definition remove_plan (c : MemoryConn) : MemoryConn := snd (remove quietly (mr_key plan) c).
Lemma remove_plan_ok c : memory_ok c -> memory_ok (remove_plan c).
Proof. apply memory_step_ok, (step_remove quietly (mr_key plan) (fst (remove quietly (mr_key plan) c))), surjective_pairing. Qed.
Lemma recall_returns_stored_witness :
  let '(x, c) := recall_amid (fts5 quietly) remove_plan (instant + 5000000) request after1 in
  match x with
  | Ok result => map hit_record (rr_hits result) = [with_read (read_at (instant + 5000000)) kept] /\ notes (cn_tables c) = [] /\
      Forall (fun h => exists selected, selected ∈ notes (cn_tables after1) /\ hit_record h = with_read (read_at (instant + 5000000)) selected)
        (rr_hits result)
  | Err _ => False
  end.
Proof.
  pose proof (recall_returns_stored (fts5 quietly) memory_ok (fun c => notes (cn_tables c)) remove_plan (instant + 5000000)
    request after1 after1_ok remove_plan_ok) as H.
  assert (Hx : match fst (recall_amid (fts5 quietly) remove_plan (instant + 5000000) request after1) with
    | Ok result => map hit_record (rr_hits result) = [with_read (read_at (instant + 5000000)) kept] | Err _ => False end) by (vm_compute; reflexivity).
  assert (Hc : notes (cn_tables (snd (recall_amid (fts5 quietly) remove_plan (instant + 5000000) request after1))) = []) by (vm_compute; reflexivity).
  destruct (recall_amid (fts5 quietly) remove_plan (instant + 5000000) request after1) as [x c]. cbn [fst snd] in Hx, Hc.
  destruct x as [result|e]; [|by destruct Hx]. split; [exact Hx|]. split; [exact Hc|].
  destruct H as (_ & w1 & _ & _ & _ & _ & _ & Hf); [unfold instant; lia|simpl; lia|].
  eapply Forall_impl; [exact Hf|]. intros h (selected & Hin & _ & Hs & _). by exists selected.
Defined.
Lemma import_copies_scope_witness :
  match fst (import_scope quietly (fun _ => false) "backup.db" snapshot "s" "t" fresh) with
  | Ok _ => exists copies, copies ≡ₚ filter (fun r => key_scope (mr_key r) = "s"%string) (notes (cn_tables after1)) /\
      notes (cn_tables (snd (import_scope quietly (fun _ => false) "backup.db" snapshot "s" "t" fresh))) = map (rescoped "t") copies
  | Err _ => False
  end.
Proof.
  pose proof (import_copies_scope quietly (fun _ => false) "backup.db" snapshot "s" "t" fresh fresh_ok (mo_notes _ after1_ok)) as H.
  destruct (import_scope quietly (fun _ => false) "backup.db" snapshot "s" "t" fresh) as [x c] eqn:He.
  assert (Hx : x = Ok tt) by (change x with (fst (x, c)); rewrite <- He; vm_compute; reflexivity).
  rewrite Hx in H |- *. destruct H as (_ & copies & Hp & _ & Hn & _). exists copies. by split.
Defined.
Lemma index_covers_scope_witness : exists pages c',
  walk (fts5 quietly) (S (length (lg_rows (cn_tables after1)))) (at_offset browse 0) after1 = (Some pages, c') /\
  concat (map ix_entries pages) = map cue_of (shown_of 1024 (map entry_of (listed_notes browse (cn_tables after1)))).
Proof.
  destruct (index_covers_scope quietly browse after1 (fun n => eq_refl) (mo_notes _ after1_ok)) as (_ & pages & c' & Hw & _ & He & _);
    [simpl; lia|vm_compute; reflexivity|vm_compute; reflexivity| |exists pages, c'; exact (conj Hw He)].
  apply Forall_forall. intros e _. unfold writable. by eexists.
Defined.
End Demo.
