(* ===== verification/MemoryTools.v ===== *)
(** * The tools of long-term memory

    Models [src/oran-tool/memory_remember.cpp], [memory_recall.cpp], [memory_forget.cpp]
    and [_impl/memory_input.hpp] (what the three tools accept), the services behind them in
    [src/oran-bootstrap/memory_tools.cpp] (hooks, store, texts and data of their answers),
    the JSON renderings of [src/oran-memory/recall_render.cpp] and [recall_index.cpp], and
    the automatic recall of [src/oran-bootstrap/prompt_recall.cpp].

    The services are written against the interface [NoteStore], a backend of [Longterm] that
    can also write; [LongtermStore] implements it.  A service returns its answer, which may be
    an exception of the JSON writer, and the state it leaves: the store, and the hooks that
    were called with what each sink was shown. *)
From S2P Require Import Prelude.
From S2P Require Import Core.
From S2P Require Import Utf8.
From S2P Require Import IsoTime.
From S2P Require Import Json.
From S2P Require Import OrderedJson.
From S2P Require Rules.
From S2P Require Config.
From S2P Require Import Hooks.
From S2P Require Import Admission.
From S2P Require Import AuditRows.
From S2P Require Import Dispatch.
From S2P Require Import Sqlite.
From S2P Require Import Longterm.
From S2P Require Import LongtermStore.
Import EnumNames.
#[local] Open Scope Z_scope.

(** ** Requests *)
Record MemoryRecallRequest := mkRecallInput {
  mq_query : string; mq_limit : Z; mq_kinds : list string; mq_id : string; mq_offset : Z }.
Record MemoryRememberRequest := mkRememberInput {
  mm_id : string; mm_kind : string; mm_title : string; mm_body : string; mm_importance : double;
  mm_tags : list string; mm_linked : list string }.
Record MemoryForgetRequest := mkForgetInput { mf_input_id : string }.

Definition kMemoryRecallName : string := "MemoryRecall".
Definition kMemoryForgetName : string := "MemoryForget".

(** ** Input *)
Definition kMemoryKinds : list string := ["user"; "feedback"; "project"; "reference"; "team"]%string.
Definition validate_memory_text (text field : string) (multiline : bool) : Result unit :=
  fail? forallb is_space (lit text) || negb (is_valid_utf8 (lit text)) ||
        existsb (fun ch => (code ch <? 0x20) && negb (multiline && is_space ch)) (lit text) with
    Errors.with_ctx (Errors.invalid_argument
      "memory field must contain nonblank UTF-8 text without control characters") "field" field;
  Ok tt.

Definition kDefaultMemoryImportance : double := SpecFloat.S754_finite false 4503599627370496 (-53).
Definition kMemoryRememberFields : list string :=
  ["id"; "kind"; "title"; "body"; "importance"; "tags"; "linked_record_ids"]%string.
Definition require_non_empty_string (parsed : json) (field : string) : Result string :=
  let? value := require_string_field parsed kMemoryRememberName field in
  let? _ := validate_memory_text value field (bool_decide (field = "body"%string)) in
  fail? bool_decide (field = "kind"%string) && negb (bool_decide (value ∈ kMemoryKinds)) with
    Errors.with_ctx (Errors.with_ctx (Errors.invalid_argument "MemoryRemember: unknown kind") "field" "kind")
      "kind" value;
  Ok value.
Definition parse_importance (parsed : json) : Result double :=
  match jfind parsed "importance" with
  | None => Ok kDefaultMemoryImportance
  | Some raw =>
      match Config.number_of raw with
      | None => Err (Errors.with_ctx (Errors.invalid_argument "MemoryRemember: `importance` must be a number")
                       "field" "importance")
      | Some value =>
          fail? negb (is_finite value) || SpecFloat.SFltb value double_zero || SpecFloat.SFltb double_one value with
            Errors.with_ctx (Errors.invalid_argument "MemoryRemember: `importance` must be in the range [0, 1]")
              "field" "importance";
          Ok value
      end
  end.
Fixpoint string_array_loop (items : list json) (i : nat) (key : string) (values : list string)
    : Result (list string) :=
  match items with
  | [] => Ok values
  | JString value :: items =>
      let? _ := validate_memory_text value key false in
      fail? bool_decide (value ∈ values) with
        Errors.with_ctx (Errors.with_ctx (Errors.invalid_argument "MemoryRemember: array values must be unique")
          "field" key) "value" value;
      string_array_loop items (S i) key (values ++ [value])
  | _ :: _ =>
      Err (Errors.with_ctx (Errors.with_ctx (Errors.invalid_argument "MemoryRemember: array item must be a string")
        "field" key) "index" (pretty i))
  end.
Definition parse_string_array (parsed : json) (key : string) : Result (list string) :=
  match jfind parsed key with
  | None => Ok []
  | Some (JArray items) => string_array_loop items 0 key []
  | Some _ => Err (Errors.with_ctx (Errors.invalid_argument "MemoryRemember: field must be an array") "field" key)
  end.

Definition kDefaultMemoryRecallLimit : Z := 5.
Definition kMaxMemoryRecallLimit : Z := 20.
Definition kMemoryRecallFields : list string := ["query"; "limit"; "kinds"; "id"; "offset"]%string.
Definition parse_limit (parsed : json) (default_limit : Z) : Result Z :=
  match jfind parsed "limit" with
  | None => Ok default_limit
  | Some (JInt value) =>
      fail? value <? 0 with
        Errors.with_ctx (Errors.invalid_argument "MemoryRecall: `limit` must be a positive integer") "field" "limit";
      fail? (value =? 0) || (kMaxMemoryRecallLimit <? value) with
        Errors.with_ctx (Errors.invalid_argument "MemoryRecall: `limit` must be between 1 and 20") "field" "limit";
      Ok value
  | Some _ =>
      Err (Errors.with_ctx (Errors.invalid_argument "MemoryRecall: `limit` must be a positive integer") "field" "limit")
  end.
Fixpoint kinds_loop (items : list json) (i : nat) (kinds : list string) : Result (list string) :=
  let at_kinds message := Errors.with_ctx (Errors.invalid_argument message) "field" "kinds" in
  match items with
  | [] => Ok kinds
  | JString kind :: items =>
      fail? bool_decide (kind = ""%string) with
        Errors.with_ctx (at_kinds "MemoryRecall: kind must be non-empty") "index" (pretty i);
      fail? negb (bool_decide (kind ∈ kMemoryKinds)) with
        Errors.with_ctx (at_kinds "MemoryRecall: unknown kind") "kind" kind;
      fail? bool_decide (kind ∈ kinds) with
        Errors.with_ctx (at_kinds "MemoryRecall: kind filters must be unique") "kind" kind;
      kinds_loop items (S i) (kinds ++ [kind])
  | _ :: _ => Err (Errors.with_ctx (at_kinds "MemoryRecall: kind must be a string") "index" (pretty i))
  end.
Definition parse_kinds (parsed : json) : Result (list string) :=
  match jfind parsed "kinds" with
  | None => Ok []
  | Some (JArray items) => kinds_loop items 0 []
  | Some _ => Err (Errors.with_ctx (Errors.invalid_argument "MemoryRecall: `kinds` must be an array") "field" "kinds")
  end.
Definition parse_query (parsed : json) : Result string :=
  if jcontains parsed "query" then
    let? value := require_string_field parsed kMemoryRecallName "query" in
    let? _ := validate_memory_text value "query" true in
    fail? (4096 <? String.length value)%nat with
      Errors.invalid_argument "MemoryRecall: query must not exceed 4096 bytes";
    Ok value
  else Ok ""%string.
Definition parse_record_id (parsed : json) : Result string :=
  if jcontains parsed "id" then
    let? value := require_string_field parsed kMemoryRecallName "id" in
    let? _ := validate_memory_text value "id" false in
    Ok value
  else Ok ""%string.
Definition parse_offset (parsed : json) : Result Z :=
  let bounded := Errors.invalid_argument "MemoryRecall: offset must be a nonnegative bounded integer" in
  match jfind parsed "offset" with
  | None => Ok 0
  | Some (JInt value) => fail? (value <? 0) || (2 ^ 63 - 1 - 100 <? value) with bounded; Ok value
  | Some _ => Err bounded
  end.

Section Parsing.
Context (parse : JsonReader).
Definition parse_remember (input_json : string) : Result MemoryRememberRequest :=
  let? parsed := parse_input_object parse input_json kMemoryRememberName kMemoryRememberFields in
  let? id := require_non_empty_string parsed "id" in
  let? kind := require_non_empty_string parsed "kind" in
  let? title := require_non_empty_string parsed "title" in
  let? body := require_non_empty_string parsed "body" in
  let? importance := parse_importance parsed in
  let? tags := parse_string_array parsed "tags" in
  let? linked := parse_string_array parsed "linked_record_ids" in
  Ok (mkRememberInput id kind title body importance tags linked).
Definition parse_recall (input_json : string) : Result MemoryRecallRequest :=
  let? parsed := parse_input_object parse input_json kMemoryRecallName kMemoryRecallFields in
  let has := jcontains parsed in
  fail? (has "query"%string && has "id"%string) || (has "offset"%string && (has "query"%string || has "id"%string)) with
    Errors.invalid_argument "MemoryRecall: choose index browsing, query, or id";
  let? query := parse_query parsed in
  let? id := parse_record_id parsed in
  let? offset := parse_offset parsed in
  let default_limit := if negb (bool_decide (id = ""%string)) then 1
    else if bool_decide (query = ""%string) then kMaxMemoryRecallLimit else kDefaultMemoryRecallLimit in
  let? limit := parse_limit parsed default_limit in
  let? kinds := parse_kinds parsed in
  Ok (mkRecallInput query limit kinds id offset).
Definition kMemoryForgetFields : list string := ["id"%string].
Definition require_non_empty_id (parsed : json) : Result string :=
  let? id := require_string_field parsed kMemoryForgetName "id" in
  let? _ := validate_memory_text id "id" false in
  Ok id.
Definition parse_forget (input_json : string) : Result MemoryForgetRequest :=
  let? parsed := parse_input_object parse input_json kMemoryForgetName kMemoryForgetFields in
  let? id := require_non_empty_id parsed in
  Ok (mkForgetInput id).
End Parsing.

(** ** Renderings *)
(** The bit pattern of a [double]; the inverse of [double_of_bits]. *)
Definition bits_of_double (d : double) : Z :=
  let sign (s : bool) := if s then 2 ^ 63 else 0 in
  match d with
  | SpecFloat.S754_zero s => sign s
  | SpecFloat.S754_infinity s => sign s + 2047 * 2 ^ 52
  | SpecFloat.S754_nan => 4095 * 2 ^ 51
  | SpecFloat.S754_finite s m e =>
      sign s + (if Z.pos m <? 2 ^ 52 then Z.pos m else (e + 1075) * 2 ^ 52 + (Z.pos m - 2 ^ 52))
  end.
Definition json_time (t : Z) : json := JString (str (format_iso8601_utc t)).
Definition string_list_json (values : list string) : json := JArray (map JString values).
Definition record_json (r : MemoryRecord) : json :=
  jobject [("id", JString (key_id (mr_key r))); ("scope_key", JString (key_scope (mr_key r)));
    ("kind", JString (enum_name (mr_kind r))); ("title", JString (mr_title r)); ("body", JString (mr_body r));
    ("created_at", json_time (mr_created r)); ("updated_at", json_time (mr_updated r)); ("last_read_at", json_time (mr_read r));
    ("importance", JFloat (bits_of_double (mr_importance r))); ("tags", string_list_json (mr_tags r));
    ("linked_record_ids", string_list_json (mr_linked r)); ("shadow", JBool (mr_shadow r))]%string.
Definition hit_json (h : SearchHit) : json :=
  jset (record_json (hit_record h)) "score" (JFloat (bits_of_double (hit_score h))).
Definition recall_data (hits : list SearchHit) : json :=
  jobject [("kind", JString "memory_recall"); ("match_count", JInt (Z.of_nat (length hits)));
    ("records", JArray (map hit_json hits))]%string.
Definition remember_data (r : MemoryRecord) : json :=
  jobject [("kind", JString "memory_remember"); ("record", record_json r)]%string.
Definition forget_data (k : RecordKey) : json :=
  jobject [("kind", JString "memory_forget");
    ("record", jobject [("id", JString (key_id k)); ("scope_key", JString (key_scope k))])]%string.
Definition entry_json (e : IndexEntry) : json :=
  jobject [("id", JString (key_id (ie_key e))); ("scope_key", JString (key_scope (ie_key e)));
    ("kind", JString (enum_name (ie_kind e))); ("title", JString (ie_title e)); ("summary", JString (ie_summary e))]%string.
Definition index_data (x : IndexResult) : json :=
  jobject [("kind", JString "memory_index"); ("match_count", JInt (Z.of_nat (length (ix_entries x))));
    ("entries", JArray (map entry_json (ix_entries x)));
    ("next_offset", match ix_next_offset x with Some n => JInt n | None => JNull end);
    ("omitted_count", JInt (ix_omitted x))]%string.

Definition render_memory_recall_tool_text (r : RecallResult) : string :=
  match rr_hits r with
  | [] => "MemoryRecall: no matches"
  | hits => "MemoryRecall: " +:+ pretty (length hits) +:+ " match" +:+
      (if (length hits =? 1)%nat then "" else "es") +:+ newline +:+ rr_text r
  end.
Definition render_memory_remember_tool_text (r : MemoryRecord) : string :=
  "MemoryRemember: saved " +:+ enum_name (mr_kind r) +:+ " record " +:+ key_id (mr_key r) +:+ newline +:+
  "title: " +:+ mr_title r.
Definition render_memory_forget_tool_text (k : RecordKey) : string :=
  "MemoryForget: removed record " +:+ key_id k.

(** ** The store that the services use *)
Record NoteStore (W : Type) := mkStore {
  ns_backend : Backend W;
  ns_upsert : MemoryRecord -> W -> Result MemoryRecord * W;
  ns_remove : RecordKey -> W -> Result unit * W }.
Arguments mkStore {W}.
Arguments ns_backend {W}.
Arguments ns_upsert {W}.
Arguments ns_remove {W}.

(** The store, and the hooks called so far. *)
Record MemoryState (W : Type) := mkState { mem_store : W; mem_calls : list (Event * Shown) }.
Arguments mkState {W}.
Arguments mem_store {W}.
Arguments mem_calls {W}.

(** The readings of the clock during a call. *)
Record Readings := mkReadings { rd_started : Z; rd_recalled : Z; rd_finished : Z }.

(** ** Payloads of hooks *)
Definition duration_between (started_at finished_at : Z) : Z := finished_at - started_at.
Definition hook_identity {A} (cx : DispatchContext A) : Identity :=
  mkIdentity (cx_scope_key cx) (cx_agent_key cx) (cx_identity cx).
Definition hook_memory_record (r : MemoryRecord) : MemoryRecordPayload :=
  mkMemRecord (key_id (mr_key r)) (key_scope (mr_key r)) (enum_name (mr_kind r)) (mr_title r) (mr_body r)
    (mr_created r) (mr_updated r) (mr_read r) (mr_importance r) (mr_tags r) (mr_linked r) (mr_shadow r).
Definition size_of (s : string) : Z := Z.of_nat (String.length s).
Definition redacted_hook_memory_record (r : MemoryRecord) : RedactedMemoryRecordPayload :=
  mkRedactedRecord (key_id (mr_key r)) (key_scope (mr_key r)) (enum_name (mr_kind r)) (size_of (mr_title r))
    (size_of (mr_body r)) (Z.of_nat (length (mr_tags r))) (Z.of_nat (length (mr_linked r))) (mr_shadow r).
Definition hook_memory_read_hit (h : SearchHit) : MemoryReadHitPayload :=
  mkMemHit (hook_memory_record (hit_record h)) (hit_score h) (Some (redacted_hook_memory_record (hit_record h))).
(** An entry of the index shows its cue and nothing else of the note. *)
Definition hook_memory_index_hit (e : IndexEntry) : MemoryReadHitPayload :=
  let kind := enum_name (ie_kind e) in
  mkMemHit
    (mkMemRecord (key_id (ie_key e)) (key_scope (ie_key e)) kind (ie_title e) (ie_summary e) 0 0 0 double_zero [] [] false)
    double_zero
    (Some (mkRedactedRecord (key_id (ie_key e)) (key_scope (ie_key e)) kind (size_of (ie_title e)) (size_of (ie_summary e)) 0 0 false)).
Section Payloads.
Context {A : Type}.
Definition make_memory_write_payload (r : MemoryRecord) (cx : DispatchContext A) (started_at finished_at : Z) : Payload :=
  P_memory_write (mkMemWrite (hook_identity cx) (hook_memory_record r) (Some (redacted_hook_memory_record r))
    started_at finished_at (duration_between started_at finished_at)).
Definition make_memory_read_payload (cx : DispatchContext A) (q : MemoryRecallRequest) (source : string)
    (hits : list MemoryReadHitPayload) (started_at finished_at : Z) : Payload :=
  P_memory_read (mkMemRead (hook_identity cx) source (mq_query q) (Some (size_of (mq_query q))) (mq_limit q) (mq_kinds q)
    (Z.of_nat (length hits)) hits started_at finished_at (duration_between started_at finished_at)).
Definition make_memory_forget_payload (k : RecordKey) (cx : DispatchContext A) (started_at finished_at : Z) : Payload :=
  P_memory_forget (mkMemForget (hook_identity cx) (key_id k) (key_scope k) started_at finished_at
    (duration_between started_at finished_at)).
End Payloads.

Definition memory_write_hook_blocked_error (d : HookDecision) (fallback : string) : Error :=
  Errors.with_ctx (Errors.with_ctx (Errors.with_ctx (Errors.with_ctx
    (Errors.permission_denied "memory write blocked by hook") "event" "memory_write_before")
    "reason" "blocked_by_hook") "decision_kind" (enum_name (hd_kind d)))
    "hook_reason" (Dispatch.hook_decision_reason d fallback).
Definition with_usage (text : string) (data : string) (u : ToolUsage) : Output := mkOutput text (Some data) [] u false.
Definition matches_usage (n : nat) : ToolUsage := mkUsage None None None (Some (Z.of_nat n)) None None false false.
Definition written_usage (n : Z) : ToolUsage := mkUsage None (Some n) None None None None false false.
(** The sum wraps at the width of [uintmax_t]. *)
Definition memory_record_payload_bytes (r : MemoryRecord) : Z :=
  let add bytes s := wrap_u 64 (bytes + size_of s) in
  fold_left add (mr_linked r) (fold_left add (mr_tags r)
    (wrap_u 64 (size_of (key_id (mr_key r)) + size_of (mr_title r) + size_of (mr_body r)))).

Fixpoint tool_kinds_loop (names : list string) (kinds : list RecordKind) : Result (list RecordKind) :=
  match names with
  | [] => Ok kinds
  | name :: names =>
      match parse_enum (E := RecordKind) name with
      | None => Err (Errors.with_ctx (Errors.invalid_argument "MemoryRecall: unknown kind") "kind" name)
      | Some k =>
          fail? bool_decide (k ∈ kinds) with
            Errors.with_ctx (Errors.invalid_argument "MemoryRecall: kind filters must be unique") "kind" name;
          tool_kinds_loop names (kinds ++ [k])
      end
  end.
Definition parse_memory_tool_recall_kinds (names : list string) : Result (list RecordKind) := tool_kinds_loop names [].
Definition parse_memory_tool_remember_kind (name : string) : Result RecordKind :=
  match parse_enum (E := RecordKind) name with
  | None => Err (Errors.with_ctx (Errors.invalid_argument "MemoryRemember: unknown kind") "kind" name)
  | Some k => Ok k
  end.

(** ** The services *)
Section Services.
Context `{JsonLibrary} {W A : Type} (S : NoteStore W) (rd : Readings).
(** Whether the task group of an advisory publication could be created. *)
Context (created : bool).
Definition Service (R : Type) := R -> DispatchContext A -> MemoryState W -> Exc Output * MemoryState W.

Definition publish (bus : option Bus) (event : Event) (p : Payload) (m : MemoryState W) : MemoryState W :=
  match bus with
  | None => m
  | Some b => mkState (mem_store m) (mem_calls m ++ [(event, publish_advisory b event p created)])
  end.
Definition with_store (m : MemoryState W) (w : W) : MemoryState W := mkState w (mem_calls m).
Definition answer (text : string) (data : json) (u : ToolUsage) : Exc Output :=
  match json_dump data with Some d => Some (Ok (with_usage text d u)) | None => raise end.

Definition index_request (scope_key : string) (q : MemoryRecallRequest) (kinds : list RecordKind) (cx : DispatchContext A)
    : IndexRequest :=
  let text_cap := Z.of_nat (max_text_bytes (cx_output_caps cx)) in
  mkIndexRequest scope_key kinds (mq_limit q) (mq_offset q) (if text_cap =? 0 then kMaxIndexBytes else Z.min text_cap kMaxIndexBytes).
Definition recall_request (scope_key : string) (q : MemoryRecallRequest) (kinds : list RecordKind) : RecallRequest :=
  mkRecall (mkQuery scope_key (mq_query q) kinds) (mq_limit q) (mq_id q).
Definition browses (q : MemoryRecallRequest) : bool :=
  bool_decide (mq_query q = ""%string) && bool_decide (mq_id q = ""%string).

Definition recall_memory (scope_key : string) : Service MemoryRecallRequest := fun q cx m =>
  match parse_memory_tool_recall_kinds (mq_kinds q) with
  | Err e => (Some (Err e), m)
  | Ok kinds =>
      if browses q then
        match index (ns_backend S) (index_request scope_key q kinds cx) (mem_store m) with
        | (None, w) => (raise, with_store m w)
        | (Some (Err e), w) => (Some (Err e), with_store m w)
        | (Some (Ok indexed), w) =>
            let cues := map hook_memory_index_hit (ix_entries indexed) in
            let m := publish (cx_bus cx) memory_read_after
              (make_memory_read_payload cx q "MemoryRecall:index" cues (rd_started rd) (rd_finished rd)) (with_store m w) in
            (answer (ix_text indexed) (index_data indexed) (matches_usage (length (ix_entries indexed))), m)
        end
      else
        match recall (ns_backend S) (rd_recalled rd) (recall_request scope_key q kinds) (mem_store m) with
        | (Err e, w) => (Some (Err e), with_store m w)
        | (Ok recalled, w) =>
            let hits := map hook_memory_read_hit (rr_hits recalled) in
            let m := publish (cx_bus cx) memory_read_after
              (make_memory_read_payload cx q "MemoryRecall" hits (rd_started rd) (rd_finished rd)) (with_store m w) in
            (answer (render_memory_recall_tool_text recalled) (recall_data (rr_hits recalled))
               (matches_usage (length (rr_hits recalled))), m)
        end
  end.

Definition note_of (scope_key : string) (k : RecordKind) (q : MemoryRememberRequest) (now : Z) : MemoryRecord :=
  mkMemory (mkRecordKey (mm_id q) scope_key) k (mm_title q) (mm_body q) now now now (mm_importance q)
    (mm_tags q) (mm_linked q) false.
(** The gate before a write: what it decides, and the call it makes. *)
Definition write_gate (r : MemoryRecord) (cx : DispatchContext A) (m : MemoryState W) : Result unit * MemoryState W :=
  match cx_bus cx with
  | None => (Ok tt, m)
  | Some bus =>
      let '(before, shown) := publish_blocking bus memory_write_before
        (make_memory_write_payload r cx (rd_started rd) (rd_started rd)) in
      (match before with
       | Err e => Err (Errors.with_ctx e "event" "memory_write_before")
       | Ok d =>
           match hd_kind d with
           | proceed => Ok tt
           | veto => Err (memory_write_hook_blocked_error d "hook veto")
           | rewrite => Err (memory_write_hook_blocked_error d "memory write rewrite unsupported")
           | require_approval => Err (memory_write_hook_blocked_error d "memory write require_approval unsupported")
           end
       end, mkState (mem_store m) (mem_calls m ++ [(memory_write_before, shown)]))
  end.
Definition remember_memory (scope_key : string) : Service MemoryRememberRequest := fun q cx m =>
  match parse_memory_tool_remember_kind (mm_kind q) with
  | Err e => (Some (Err e), m)
  | Ok kind =>
      let r := note_of scope_key kind q (cx_now cx) in
      match write_gate r cx m with
      | (Err e, m) => (Some (Err e), m)
      | (Ok _, m) =>
          match ns_upsert S r (mem_store m) with
          | (Err e, w) => (Some (Err e), with_store m w)
          | (Ok stored, w) =>
              let m := publish (cx_bus cx) memory_write_after
                (make_memory_write_payload stored cx (rd_started rd) (rd_finished rd)) (with_store m w) in
              (answer (render_memory_remember_tool_text stored) (remember_data stored)
                 (written_usage (memory_record_payload_bytes stored)), m)
          end
      end
  end.
Definition forget_memory (scope_key : string) : Service MemoryForgetRequest := fun q cx m =>
  let k := mkRecordKey (mf_input_id q) scope_key in
  match ns_remove S k (mem_store m) with
  | (Err e, w) => (Some (Err e), with_store m w)
  | (Ok _, w) =>
      let m := publish (cx_bus cx) memory_forget (make_memory_forget_payload k cx (rd_started rd) (rd_finished rd)) (with_store m w) in
      (answer (render_memory_forget_tool_text k) (forget_data k) (written_usage 0), m)
  end.

(** ** The tools *)
(** The services of a context; [bind_memory_tools] sets all three. *)
Record MemoryServices := mkServices3 {
  memory_recall : option (Service MemoryRecallRequest);
  memory_remember : option (Service MemoryRememberRequest);
  memory_forget_ : option (Service MemoryForgetRequest) }.
Definition bind_memory_tools (scope_key : string) : MemoryServices :=
  mkServices3 (Some (recall_memory scope_key)) (Some (remember_memory scope_key)) (Some (forget_memory scope_key)).
Definition unavailable (tool : string) : Error :=
  Errors.with_ctx (Errors.invalid_argument (tool +:+ ": runtime service is not available"))
    "reason" "memory_runtime_unavailable".
Definition memory_remember_handler (svc : MemoryServices) : Service MemoryRememberRequest := fun q cx m =>
  match memory_remember svc with
  | None => (Some (Err (Errors.with_ctx (unavailable kMemoryRememberName) "id" (mm_id q))), m)
  | Some f => f q cx m
  end.
Definition memory_recall_handler (svc : MemoryServices) : Service MemoryRecallRequest := fun q cx m =>
  match memory_recall svc with
  | None => (Some (Err (unavailable kMemoryRecallName)), m)
  | Some f => f q cx m
  end.
Definition memory_forget_handler (svc : MemoryServices) : Service MemoryForgetRequest := fun q cx m =>
  match memory_forget_ svc with
  | None => (Some (Err (Errors.with_ctx (unavailable kMemoryForgetName) "id" (mf_input_id q))), m)
  | Some f => f q cx m
  end.

(** The preparers: a call is the parsed input, to be run in the context of its dispatch. *)
Context (parse : JsonReader).
Definition MemoryCall := DispatchContext A -> MemoryState W -> Exc Output * MemoryState W.
Definition prepare_remember (svc : MemoryServices) (input_json : string) : Result MemoryCall :=
  let? q := parse_remember parse input_json in Ok (memory_remember_handler svc q).
Definition prepare_recall (svc : MemoryServices) (input_json : string) : Result MemoryCall :=
  let? q := parse_recall parse input_json in Ok (memory_recall_handler svc q).
Definition prepare_forget (svc : MemoryServices) (input_json : string) : Result MemoryCall :=
  let? q := parse_forget parse input_json in Ok (memory_forget_handler svc q).
(** The three tools, and what running one on an input does. *)
Inductive MemoryTool := MemoryRemember | MemoryRecall | MemoryForget.
Definition prepare_memory (t : MemoryTool) (svc : MemoryServices) (input_json : string) : Result MemoryCall :=
  match t with
  | MemoryRemember => prepare_remember svc input_json
  | MemoryRecall => prepare_recall svc input_json
  | MemoryForget => prepare_forget svc input_json
  end.
Definition run_memory (t : MemoryTool) (svc : MemoryServices) (input_json : string) (cx : DispatchContext A) (m : MemoryState W)
    : Exc Output * MemoryState W :=
  match prepare_memory t svc input_json with
  | Err e => (Some (Err e), m)
  | Ok call => call cx m
  end.
End Services.

(** ** The automatic recall *)
Section PromptRecall.
Context `{JsonLibrary} {St : Type} (dispatch : string -> string -> St -> Result Output * St).
Definition prompt_recall_input (q : MemoryRecallRequest) : json :=
  let input := jobject [("limit"%string, JInt (mq_limit q))] in
  match mq_kinds q with
  | [] => input
  | kinds => jset input "kinds" (string_list_json kinds)
  end.
(** The data of an answer, [None] when it does not parse. *)
Definition answered_data (o : Output) : option json :=
  match out_data_json o with
  | None => Some JNull
  | Some d => match json_parse d with Doc v => Some v | Malformed _ | DocThrew => None end
  end.
Definition is_index (data : option json) : bool :=
  match data with
  | Some (JObject m) =>
      match jfind (JObject m) "kind" with
      | Some (JString kind) => bool_decide (kind = "memory_index"%string)
      | _ => false
      end
  | _ => false
  end.
Definition index_unavailable (e : Error) : string :=
  "Memory index unavailable (" +:+ enum_name (err_kind e) +:+ "). Do not assume there are no saved notes. " +:+
  "Continue within the available context and permissions.".
Definition no_complete_index : string :=
  "Memory index unavailable: no complete index was returned. Do not assume memory is empty.".
Definition recall_prompt_memory (q : MemoryRecallRequest) (s : St) : Exc string * St :=
  match json_dump (prompt_recall_input q) with
  | None => (raise, s)
  | Some input_json =>
      match dispatch kMemoryRecallName input_json s with
      | (Err e, s) =>
          (Some (if bool_decide (err_kind e = ek_cancelled) then Err e else Ok (index_unavailable e)), s)
      | (Ok o, s) =>
          (Some (Ok (if out_is_error o || u_truncated (out_usage o) || negb (is_index (answered_data o))
                     then no_complete_index else out_text o)), s)
      end
  end.
End PromptRecall.

(** ** What the tools accept *)
Lemma memory_text_required text field field' multiline u :
  validate_memory_text text field multiline = Ok u -> validate_required text field' multiline = Ok tt.
Proof.
  unfold validate_memory_text, validate_required. intros Hv. ok_inv.
  apply orb_false_iff in E as [E Hc]. apply orb_false_iff in E as [Hb Hu]. rewrite Hb, Hu. cbn [orb].
  assert (Hctl : contains_control_char (lit text) multiline = false); [|by rewrite Hctl].
  unfold contains_control_char. apply not_true_iff_false. intros Hx. apply existsb_exists in Hx as (ch & Hin & Hch).
  assert (Hn : existsb (fun ch => (code ch <? 0x20) && negb (multiline && is_space ch)) (lit text) = true); [|congruence].
  apply existsb_exists. exists ch. split; [done|]. unfold is_space. destruct multiline; cbn in *; [|by rewrite Hch].
  destruct ((code ch =? 9) || (code ch =? 10) || (code ch =? 13)) eqn:E; [done|].
  apply orb_false_iff in E as [E E3]. apply orb_false_iff in E as [E1 E2]. rewrite E1, E2, E3, Hch. cbn.
  apply Z.ltb_lt in Hch. by replace (code ch =? 32) with false by lia.
Qed.

Lemma memory_text_nonblank text field multiline u : validate_memory_text text field multiline = Ok u -> text <> ""%string.
Proof. unfold validate_memory_text. intros Hv ->. ok_inv. discriminate. Qed.

Definition plain_text (field s : string) : Prop := validate_required s field false = Ok tt.
Lemma values_valid field l : Forall (plain_text field) l -> NoDup l -> validate_string_list l field = Ok tt.
Proof.
  intros Hl Hnd. unfold validate_string_list, has_duplicates. rewrite bool_decide_eq_true_2 by done. cbn [negb].
  assert (Hv : validate_values l field = Ok tt); [|by rewrite Hv]. clear Hnd.
  induction Hl as [|s l Hs _ IH]; simpl; [done|]. unfold plain_text in Hs. by rewrite Hs.
Qed.
Lemma nodup_snoc {T} (x : T) l : x ∉ l -> NoDup l -> NoDup (l ++ [x]).
Proof. intros Hx Hl. apply NoDup_app. split_and!; [done| |apply NoDup_singleton]. intros y Hy ->%list_elem_of_singleton. done. Qed.
Lemma string_array_loop_ok field items : forall i key values r,
  string_array_loop items i key values = Ok r -> Forall (plain_text field) values -> NoDup values ->
  Forall (plain_text field) r /\ NoDup r.
Proof.
  induction items as [|item items IH]; intros i key values r Hr Hf Hnd; cbn [string_array_loop] in Hr; [ok_inv; by subst|].
  destruct item as [| | | |s| |]; try discriminate. ok_inv. bool_prop. apply IH in Hr as [? ?]; [done| |by apply nodup_snoc].
  apply Forall_app. split; [done|]. repeat constructor. unfold plain_text. by eapply memory_text_required.
Qed.
Lemma parse_string_array_ok parsed key field r : parse_string_array parsed key = Ok r -> validate_string_list r field = Ok tt.
Proof.
  unfold parse_string_array. destruct (jfind parsed key) as [[| | | | |items|]|]; try discriminate; intros Hr.
  - apply (string_array_loop_ok field) in Hr as [? ?]; [by apply values_valid|constructor|constructor].
  - ok_inv. subst. apply values_valid; constructor.
Qed.
Lemma require_ok parsed field field' value : require_non_empty_string parsed field = Ok value ->
  validate_required value field' (bool_decide (field = "body"%string)) = Ok tt /\ (field = "kind"%string -> value ∈ kMemoryKinds).
Proof.
  unfold require_non_empty_string. intros Hr. ok_inv. subst. split; [by eapply memory_text_required|].
  intros ->. change (bool_decide ("kind" = "kind")%string) with true in E. cbn [andb] in E. by bool_prop.
Qed.
Lemma memory_kind_parses name : name ∈ kMemoryKinds -> exists k : RecordKind, parse_enum name = Some k /\ enum_name k = name.
Proof.
  unfold kMemoryKinds. rewrite !elem_of_cons, elem_of_nil. intros [->|[->|[->|[->|[->|[]]]]]]; by eexists.
Qed.
Lemma parse_importance_ok parsed d : parse_importance parsed = Ok d -> importance_invalid d = false.
Proof.
  unfold parse_importance. destruct (jfind parsed "importance") as [raw|]; [|intros [= <-]; vm_compute; done].
  destruct (Config.number_of raw) as [v|]; [|done]. intros Hr. ok_inv. by subst.
Qed.
Lemma remember_input_valid parse input q : parse_remember parse input = Ok q ->
  exists k, parse_enum (mm_kind q) = Some k /\ forall scope now, validate_required scope "scope_key" false = Ok tt ->
    validate_record (note_of scope k q now) = Ok tt.
Proof.
  unfold parse_remember. intros Hr. ok_inv. subst q. cbn [mm_kind].
  destruct (require_ok _ _ "kind" _ H1) as [_ Hk]. destruct (memory_kind_parses _ (Hk eq_refl)) as (k & Hp & _). exists k. split; [done|].
  intros scope now Hs. unfold validate_record, validate_key, note_of.
  cbn [mr_key mr_title mr_body mr_importance mr_updated mr_created mr_read mr_tags mr_linked key_id key_scope mm_id mm_title mm_body mm_importance mm_tags mm_linked].
  rewrite (proj1 (require_ok _ "id" "record_id" _ H0) : validate_required _ _ false = _). cbn [result_bind].
  rewrite Hs. cbn [result_bind].
  rewrite (proj1 (require_ok _ "title" "title" _ H2) : validate_required _ _ false = _). cbn [result_bind].
  rewrite (proj1 (require_ok _ "body" "body" _ H3) : validate_required _ _ true = _). cbn [result_bind].
  rewrite (parse_importance_ok _ _ H4), Z.ltb_irrefl, (parse_string_array_ok _ _ "tag" _ H5). cbn [result_bind].
  by apply (parse_string_array_ok _ _ "linked_record_id" _ H6).
Qed.

(** *** Recalls *)
Lemma kinds_loop_ok items : forall i kinds r, kinds_loop items i kinds = Ok r ->
  Forall (fun k => k ∈ kMemoryKinds) kinds -> NoDup kinds -> Forall (fun k => k ∈ kMemoryKinds) r /\ NoDup r.
Proof.
  induction items as [|item items IH]; intros i kinds r Hr Hf Hnd; cbn [kinds_loop] in Hr; [ok_inv; by subst|].
  destruct item as [| | | |s| |]; try discriminate. ok_inv. bool_prop. apply IH in Hr as [? ?]; [done| |by apply nodup_snoc].
  apply Forall_app. split; [done|]. apply Forall_cons. split; [done|constructor].
Qed.
Lemma tool_kinds_loop_ok names : forall kinds, Forall (fun k => k ∈ kMemoryKinds) names -> NoDup names -> NoDup kinds ->
  Forall (fun n => n ∉ map enum_name kinds) names ->
  exists ks, tool_kinds_loop names kinds = Ok (kinds ++ ks) /\ map enum_name ks = names /\ NoDup (kinds ++ ks).
Proof.
  induction names as [|n names IH]; intros kinds Hf Hnd Hk Hnin; cbn [tool_kinds_loop].
  - exists []. by rewrite app_nil_r.
  - apply Forall_cons in Hf as [Hn Hf]. apply Forall_cons in Hnin as [Hnk Hnin]. apply NoDup_cons in Hnd as [Hnn Hnd].
    destruct (memory_kind_parses n Hn) as (k & Hp & He). rewrite Hp.
    assert (Hkk : k ∉ kinds). { intros Hin. apply Hnk. rewrite <- He. apply list_elem_of_fmap. by exists k. }
    rewrite bool_decide_eq_false_2 by done. destruct (IH (kinds ++ [k])) as (ks & Hr & Hm & Hd); [done|done|by apply nodup_snoc| |].
    + apply Forall_forall. intros n' Hn'. rewrite map_app, elem_of_app. intros [Hin|Hin].
      * exact (proj1 (Forall_forall _ _) Hnin n' Hn' Hin).
      * apply list_elem_of_singleton in Hin. simpl in Hin. by subst.
    + exists (k :: ks). rewrite <- app_assoc in Hr, Hd. split_and!; [exact Hr| |exact Hd]. simpl. by rewrite He, Hm.
Qed.
(** What the parser promises of a recall. *)
Record recall_input_ok (q : MemoryRecallRequest) : Prop := {
  ro_limit : 1 <= mq_limit q <= kMaxMemoryRecallLimit;
  ro_offset : 0 <= mq_offset q <= 2 ^ 63 - 101;
  ro_kinds : exists ks, parse_memory_tool_recall_kinds (mq_kinds q) = Ok ks /\ map enum_name ks = mq_kinds q /\ NoDup ks;
  ro_query : mq_query q = ""%string \/ (validate_required (mq_query q) "query_text" true = Ok tt /\ (String.length (mq_query q) <= 4096)%nat);
  ro_id : mq_id q = ""%string \/ (validate_required (mq_id q) "record_id" false = Ok tt /\ mq_query q = ""%string) }.
Lemma parse_query_ok parsed r : parse_query parsed = Ok r ->
  if jcontains parsed "query" then validate_required r "query_text" true = Ok tt /\ (String.length r <= 4096)%nat /\ r <> ""%string
  else r = ""%string.
Proof.
  unfold parse_query. destruct (jcontains _ _); intros Hr; ok_inv; [|done]. subst. split_and!; [by eapply memory_text_required| |by eapply memory_text_nonblank].
  apply Nat.ltb_ge in E. lia.
Qed.
Lemma parse_record_id_ok parsed r : parse_record_id parsed = Ok r ->
  if jcontains parsed "id" then validate_required r "record_id" false = Ok tt /\ r <> ""%string else r = ""%string.
Proof.
  unfold parse_record_id. destruct (jcontains _ _); intros Hr; ok_inv; [|done]. subst. split; [by eapply memory_text_required|by eapply memory_text_nonblank].
Qed.
Lemma recall_input_valid parse input q : parse_recall parse input = Ok q -> recall_input_ok q.
Proof.
  unfold parse_recall. intros Hr. ok_inv. subst q. apply parse_query_ok in H0. apply parse_record_id_ok in H1.
  split; cbn [mq_query mq_limit mq_kinds mq_id mq_offset].
  - unfold parse_limit, kMaxMemoryRecallLimit, kDefaultMemoryRecallLimit in *. destruct (jfind _ _) as [[]|]; try discriminate; ok_inv; bool_prop; subst; [lia|].
    destruct (negb _); [lia|]. destruct (bool_decide _); lia.
  - unfold parse_offset in H2. destruct (jfind _ _) as [[]|]; try discriminate; ok_inv; bool_prop; lia.
  - unfold parse_kinds in H4.
    assert (Hk : Forall (fun k => k ∈ kMemoryKinds) x4 /\ NoDup x4).
    { destruct (jfind _ _) as [[]|]; try discriminate; [|ok_inv; subst; split; constructor]. eapply kinds_loop_ok; [exact H4|constructor|constructor]. }
    destruct Hk as [Hf Hnd]. destruct (tool_kinds_loop_ok x4 [] Hf Hnd ltac:(constructor)) as (ks & Hr' & Hm & Hd); [by apply Forall_true; intros ? ?%elem_of_nil|].
    by exists ks.
  - destruct (jcontains _ "query"); [right|left]; tauto.
  - destruct (jcontains _ "id") eqn:Hi; [right|by left]. split; [tauto|].
    destruct (jcontains _ "query") eqn:Hq; [|done]. discriminate E.
Qed.

(** ** What a store promises *)
(** The notes a request for the index selects, as entries. *)
Definition entry_for (r : IndexRequest) (rs : list MemoryRecord) (e : IndexEntry) : Prop :=
  exists x, x ∈ rs /\ visible (request_query r) x /\ e = entry_of x.
Class StoreLaws {W} (S : NoteStore W) (ok : W -> Prop) (records : W -> list MemoryRecord) := {
  store_backend :: BackendLaws (ns_backend S) ok records;
  list_law : forall r w, ok w ->
    let '(x, w') := be_list (ns_backend S) r w in
    ok w' /\ records w' = records w /\
    match x with Ok es => Forall (entry_for r (records w)) es | Err _ => True end;
  upsert_law : forall r w, ok w -> times_ok r ->
    let '(x, w') := ns_upsert S r w in
    ok w' /\ match x with
             | Ok stored => stored = merged (record_at (mr_key r) (records w)) r /\
                 records w' = upd_record (mr_key r) stored (records w)
             | Err _ => records w' = records w
             end;
  remove_law : forall k w, ok w ->
    let '(x, w') := ns_remove S k w in
    ok w' /\ records w' = match x with Ok _ => filter (fun r => mr_key r <> k) (records w) | Err _ => records w end }.

(** *** The store on SQLite *)
Definition fts5_store `{JsonLibrary} `{FtsEngine} (faults : nat -> option Error) : NoteStore MemoryConn :=
  mkStore (fts5 faults) (upsert faults) (remove faults).
Section Implementation.
Context `{JsonLibraryLaws} `{FtsEngine} `{!FtsLaws}.
Lemma filter_removed k t : notes_ok t ->
  notes (delete_row k (delete_fts k t)) = filter (fun r => mr_key r <> k) (notes t).
Proof.
  unfold notes, notes_ok. simpl. induction 1 as [|row rows [r Hr] _ IH]; [done|].
  rewrite (decoded_cons _ _ _ Hr), !filter_cons, (row_for_key _ _ Hr). destruct (decide (mr_key r <> k)); [|exact IH].
  by rewrite (decoded_cons _ _ _ Hr), IH.
Qed.
#[export] Instance fts5_store_laws faults : StoreLaws (fts5_store faults) memory_ok (fun c => notes (cn_tables c)).
Proof.
  split; [apply fts5_laws|..].
  - intros r c [Hs Hi Hn]. pose proof (list_outcome faults r c Hs) as Ho. cbn [fts5_store ns_backend fts5 be_list].
    destruct (list_notes faults r c) as [[es|e] c']; destruct Ho as [Ho Hs']; [|by rewrite Ho; split_and!; [split; rewrite ?Ho|..]].
    destruct Ho as [Ht He]. rewrite Ht. split; [by split; rewrite ?Ht|]. split; [done|].
    apply Forall_forall. intros e Hin. apply list_elem_of_lookup in Hin as [i Hin].
    destruct (Forall2_lookup_r _ _ _ _ _ He Hin) as (row & Hrow & Hread). unfold index_rows in Hrow.
    apply list_elem_of_lookup_2, elem_of_take in Hrow as (j & Hj & _). rewrite lookup_drop in Hj.
    destruct (Forall2_lookup_l _ _ _ _ _ (listed_rows r _ Hn) Hj) as (x & Hx & Hfor & Hscope).
    rewrite (read_entry_of _ _ _ Hfor Hscope) in Hread. injection Hread as <-. exists x.
    assert (Hv : x ∈ filter (visible (request_query r)) (notes (cn_tables c))).
    { rewrite <- (listed_visible r _ Hn). by eapply list_elem_of_lookup_2. }
    by apply list_elem_of_filter in Hv as [? ?].
  - intros r c Hok Ht. pose proof (memory_step_ok c (snd (upsert faults r c))) as Hstep.
    cbn [fts5_store ns_upsert]. destruct Hok as [Hs Hi Hn]. pose proof (upsert_outcome faults r c Hs) as Ho.
    destruct (upsert faults r c) as [x c'] eqn:E. split.
    { apply Hstep; [by eapply step_upsert|done]. }
    destruct x as [stored|e]; destruct Ho as [Ho _]; [|by rewrite Ho]. destruct Ho as [_ Hu].
    destruct (upserted_notes r _ _ _ (ik_keys _ Hi) Hn Ht Hu) as (_ & Hst & Hnotes). done.
  - intros k c Hok. pose proof (memory_step_ok c (snd (remove faults k c))) as Hstep.
    cbn [fts5_store ns_remove]. destruct Hok as [Hs Hi Hn]. pose proof (remove_outcome faults k c Hs) as Ho.
    destruct (remove faults k c) as [x c'] eqn:E. split.
    { apply Hstep; [by eapply step_remove|done]. }
    destruct x as [u|e]; destruct Ho as [Ho _]; [|by rewrite Ho]. destruct Ho as [_ ->]. by apply filter_removed.
Qed.
End Implementation.

(** ** What the services do to the store, and what they show *)
(** The scopes a payload names. *)
Definition payload_within (scope : string) (p : Payload) : Prop :=
  match p with
  | P_memory_write w => Hooks.mr_scope_key (mw_record w) = scope
  | P_memory_read r => Forall (fun h => Hooks.mr_scope_key (mh_record h) = scope) (md_hits r)
  | P_memory_forget f => mf_scope_key f = scope
  | _ => False
  end.
(** A payload without the text of any note and without the words of a query. *)
Definition textless (r : MemoryRecordPayload) : Prop :=
  Hooks.mr_title r = ""%string /\ Hooks.mr_body r = ""%string /\ Hooks.mr_tags r = [] /\ mr_linked_record_ids r = [].
Definition discreet (p : Payload) : Prop :=
  match p with
  | P_memory_write w => textless (mw_record w)
  | P_memory_read r => md_query r = ""%string /\ Forall (fun h => textless (mh_record h)) (md_hits r)
  | P_memory_forget _ => True
  | _ => False
  end.
(** What one call of a service may have done: the notes of other scopes are as they were,
    and each hook it called was shown this scope only, without text unless it is trusted. *)
Definition shown_well (scope : string) (shown : Shown) : Prop :=
  Forall (fun sp => payload_within scope sp.2 /\ (sink_trusted_local sp.1 = false -> discreet sp.2)) shown.
Definition others (scope : string) (rs : list MemoryRecord) : list MemoryRecord :=
  filter (fun r => key_scope (mr_key r) <> scope) rs.

(** What the services publish of a scope: [redact_payload] leaves no text in it. *)
Definition published_well (scope : string) (p : Payload) : Prop :=
  payload_within scope p /\ payload_within scope (redact_payload p) /\ discreet (redact_payload p).
Lemma shown_payload scope p s : published_well scope p ->
  payload_within scope (for_sink p s) /\ (sink_trusted_local s = false -> discreet (for_sink p s)).
Proof. intros (H1 & H2 & H3). unfold for_sink. by destruct (sink_trusted_local s). Qed.
Lemma shown_map scope p (sinks : list Sink) : published_well scope p ->
  shown_well scope (map (fun s => (s, for_sink p s)) sinks).
Proof.
  intros Hp. unfold shown_well. apply Forall_forall. intros sp Hin. apply list_elem_of_fmap in Hin as (s & -> & _). by apply shown_payload.
Qed.
Lemma advisory_shown scope b event p created : published_well scope p -> shown_well scope (publish_advisory b event p created).
Proof.
  intros Hp. unfold publish_advisory. destruct (bindings b !! event); [|constructor]. destruct created; [|constructor]. by apply shown_map.
Qed.
Lemma blocking_shown scope b event p : published_well scope p -> shown_well scope (publish_blocking b event p).2.
Proof.
  intros Hp. unfold publish_blocking. destruct (bindings b !! event) as [sinks|]; [|constructor].
  pose proof (blocking_loop_spec event p (if decide (event = permission_ask_rendered) then 0 else blocking_timeout (bus_options b)) sinks []) as Hs.
  destruct (blocking_loop _ _ _ _ _) as [d shown]. destruct Hs as (before & _ & _ & [(_ & -> & _)|(s & rest & _ & -> & _)]); by apply shown_map.
Qed.
Lemma write_payload_well {A} r (cx : DispatchContext A) a b : published_well (key_scope (mr_key r)) (make_memory_write_payload r cx a b).
Proof. done. Qed.
Lemma read_payload_well {A} scope (cx : DispatchContext A) q source hits a b :
  Forall (fun h => Hooks.mr_scope_key (mh_record h) = scope /\ is_Some (mh_redacted_record h)) hits ->
  published_well scope (make_memory_read_payload cx q source hits a b).
Proof.
  intros Hh. unfold published_well, make_memory_read_payload. cbn. split_and!; [|..|done|].
  - eapply Forall_impl; [exact Hh|]. by intros h [? _].
  - apply Forall_fmap. eapply Forall_impl; [exact Hh|]. intros h [He [x Hx]]. unfold compose, redact_hit. by rewrite Hx.
  - apply Forall_fmap. eapply Forall_impl; [exact Hh|]. intros h [He [x Hx]]. unfold compose, redact_hit. by rewrite Hx.
Qed.
Lemma forget_payload_well {A} k (cx : DispatchContext A) a b : published_well (key_scope k) (make_memory_forget_payload k cx a b).
Proof. done. Qed.

Lemma others_map scope f rs : (forall r, key_scope (mr_key r) <> scope -> f r = r) ->
  (forall r, mr_key (f r) = mr_key r) -> others scope (map f rs) = others scope rs.
Proof.
  intros Hf Hk. induction rs as [|r rs IH]; [done|]. unfold others in *. cbn [map]. rewrite !filter_cons, Hk.
  destruct (decide _) as [Hs|]; [|exact IH]. by rewrite IH, Hf.
Qed.
Lemma others_touched scope keys t rs : Forall (fun k => key_scope k = scope) keys ->
  others scope (map (touched keys t) rs) = others scope rs.
Proof.
  intros Hk. apply others_map; intros r; unfold touched; case_bool_decide as Hin; try done.
  intros Hs. destruct Hs. exact (proj1 (Forall_forall _ _) Hk _ Hin).
Qed.
Lemma others_upd scope k new rs : key_scope k = scope -> mr_key new = k -> others scope (upd_record k new rs) = others scope rs.
Proof.
  intros Hs Hk. unfold upd_record. destruct (record_at k rs).
  - apply others_map; intros r; case_bool_decide as Hr; try done; congruence.
  - unfold others. rewrite filter_app, filter_cons, filter_nil. rewrite decide_False by (rewrite Hk; naive_solver). apply app_nil_r.
Qed.
Lemma others_removed scope k rs : key_scope k = scope -> others scope (filter (fun r => mr_key r <> k) rs) = others scope rs.
Proof.
  intros Hs. unfold others. rewrite list_filter_filter. apply list_filter_iff. intros r. split; [tauto|]. intros Hr. split; [done|]. congruence.
Qed.
Lemma merged_key old r : (forall o, old = Some o -> mr_key o = mr_key r) -> mr_key (merged old r) = mr_key r.
Proof. by destruct old. Qed.

Section Confinement.
Context `{JsonLibrary} {W A : Type} (S : NoteStore W) (ok : W -> Prop) (records : W -> list MemoryRecord) `{!StoreLaws S ok records}.
Context (rd : Readings) (created : bool) (scope : string).
Definition confined (m m' : MemoryState W) : Prop :=
  ok (mem_store m') /\ others scope (records (mem_store m')) = others scope (records (mem_store m)) /\
  exists calls, mem_calls m' = mem_calls m ++ calls /\ Forall (fun c => shown_well scope c.2) calls.
Lemma confined_refl m : ok (mem_store m) -> confined m m.
Proof. intros Hok. split_and!; [done|done|]. exists []. by rewrite app_nil_r. Qed.
Lemma confined_store m w : ok w -> others scope (records w) = others scope (records (mem_store m)) -> confined m (with_store m w).
Proof. intros Hok Ho. split_and!; [done|done|]. exists []. by rewrite app_nil_r. Qed.
Lemma confined_call m m' event shown : confined m m' -> shown_well scope shown ->
  confined m (mkState (mem_store m') (mem_calls m' ++ [(event, shown)])).
Proof.
  intros (Hok & Ho & calls & Hc & Hf) Hs. split_and!; [done|done|]. exists (calls ++ [(event, shown)]). cbn.
  rewrite Hc, app_assoc. split; [done|]. apply Forall_app. split; [done|by repeat constructor].
Qed.
Lemma confined_publish m m' bus event p : confined m m' -> published_well scope p -> confined m (publish created bus event p m').
Proof. intros Hc Hp. unfold publish. destruct bus; [|done]. apply confined_call; [done|by apply advisory_shown]. Qed.

Lemma recall_confined r w : ok w -> 1 <= rq_limit r -> 0 <= rd_recalled rd < 2 ^ 63 -> qy_scope (rq_query r) = scope ->
  let '(x, w') := recall (ns_backend S) (rd_recalled rd) r w in
  ok w' /\ others scope (records w') = others scope (records w) /\
  match x with Ok res => Forall (fun h => key_scope (mr_key (hit_record h)) = scope) (rr_hits res) | Err _ => True end.
Proof.
  intros Hok Hl Hn Hs. unfold recall, recall_amid. destruct (validate_recall_request r); [|done].
  pose proof (select_hits_spec (ns_backend S) ok records r w Hok Hl) as Hsel.
  destruct (select_hits _ _ _) as [[hits|e] w1]; [|destruct Hsel as (? & -> & _); done]. destruct Hsel as (Hok1 & Hr1 & Hh & _).
  assert (Hscope : Forall (fun h => key_scope (mr_key (hit_record h)) = scope) hits).
  { eapply Forall_impl; [exact Hh|]. intros h [_ [He _]]. congruence. }
  assert (Hscope' : Forall (fun h => key_scope (mr_key (hit_record h)) = scope)
            (map (fun h => mkHit (with_read (read_at (rd_recalled rd)) (hit_record h)) (hit_score h)) hits)).
  { apply Forall_fmap. exact Hscope. }
  case_bool_decide; [rewrite Hr1; by split_and!|].
  pose proof (touch_law (BackendLaws := store_backend) (map (fun h => mr_key (hit_record h)) hits) (read_at (rd_recalled rd)) w1 Hok1 (read_at_stored _ Hn)) as Ht.
  destruct (be_touch _ _ _ _) as [[u|e] w2]; destruct Ht as [Hok2 Hr2]; rewrite Hr2, Hr1; [|by split_and!].
  split_and!; [done| |exact Hscope']. apply others_touched. by apply Forall_fmap.
Qed.
Lemma index_confined r w : ok w -> 0 <= ir_limit r -> 0 <= ir_offset r -> ir_scope r = scope ->
  let '(x, w') := index (ns_backend S) r w in
  ok w' /\ records w' = records w /\
  match x with Some (Ok res) => Forall (fun e => key_scope (ie_key e) = scope) (ix_entries res) | _ => True end.
Proof.
  intros Hok Hl Ho Hs. unfold index. destruct (validate_index_request r); [|done].
  pose proof (list_law r w Hok) as Hlist. destruct (be_list _ _ _) as [[es|e] w1]; [|done]. destruct Hlist as (Hok1 & Hr1 & He).
  split_and!; [done|done|]. destruct (make_index es r) as [[res|e]|] eqn:Hm; try done.
  destruct (index_page es r res Hl Ho Hm) as (_ & n & _ & _ & -> & _). apply Forall_fmap, Forall_forall. intros e Hin.
  assert (Hin' : e ∈ es). { unfold shown_of in Hin. apply list_elem_of_In, filter_In in Hin as [Hin _]. apply list_elem_of_In in Hin. apply elem_of_take in Hin as (i & Hi & _). by eapply list_elem_of_lookup_2. }
  destruct (proj1 (Forall_forall _ _) He e Hin') as (x & _ & [Hx _] & ->). unfold compose. cbn. by rewrite Hx.
Qed.
End Confinement.

Section Tools.
Context `{JsonLibrary} {W A : Type} (S : NoteStore W) (ok : W -> Prop) (records : W -> list MemoryRecord) `{!StoreLaws S ok records}.
Context (rd : Readings) (created : bool) (scope : string) (cx : DispatchContext A) (m : MemoryState W).
Hypothesis mem_ok : ok (mem_store m).
Hypothesis recalled_in_range : 0 <= rd_recalled rd < 2 ^ 63.
Hypothesis now_in_range : 0 <= cx_now cx < 2 ^ 63.
#[local] Notation confined := (confined ok records scope m).

Lemma recall_memory_confined q : recall_input_ok q -> confined (recall_memory S rd created scope q cx m).2.
Proof using All.
  intros [Hl Ho _ _ _]. unfold recall_memory. pose proof (confined_refl ok records scope m mem_ok) as Hrefl.
  destruct (parse_memory_tool_recall_kinds _) as [kinds|e]; [|exact Hrefl]. destruct (browses q).
  - pose proof (index_confined S ok records scope (index_request scope q kinds cx) (mem_store m) mem_ok ltac:(cbn; lia) ltac:(cbn; lia) eq_refl) as Hi.
    destruct (index _ _ _) as [[[res|e]|] w]; destruct Hi as (Hok & Hr & Hs); cbn [snd]; try (apply confined_store; [done|by rewrite Hr]).
    apply confined_publish; [apply confined_store; [done|by rewrite Hr]|]. apply read_payload_well, Forall_fmap.
    eapply Forall_impl; [exact Hs|]. intros e He. unfold compose. cbn. split; [done|by eexists].
  - pose proof (recall_confined S ok records rd scope (recall_request scope q kinds) (mem_store m) mem_ok ltac:(cbn; lia) recalled_in_range eq_refl) as Hi.
    destruct (recall _ _ _ _) as [[res|e] w]; destruct Hi as (Hok & Hr & Hs); cbn [snd]; [|by apply confined_store].
    apply confined_publish; [by apply confined_store|]. apply read_payload_well, Forall_fmap.
    eapply Forall_impl; [exact Hs|]. intros e He. unfold compose. cbn. split; [done|by eexists].
Qed.
Lemma write_gate_confined r r' m' : key_scope (mr_key r) = scope -> write_gate rd r cx m = (r', m') ->
  confined m' /\ mem_store m' = mem_store m.
Proof using All.
  intros Hs. unfold write_gate. destruct (cx_bus cx) as [bus|]; [|intros [= <- <-]; split; [by apply confined_refl|done]].
  pose proof (blocking_shown scope bus memory_write_before (make_memory_write_payload r cx (rd_started rd) (rd_started rd))) as Hb.
  destruct (publish_blocking _ _ _) as [d shown]. intros [= _ <-]. split; [|done]. apply confined_call; [by apply confined_refl|].
  apply Hb. rewrite <- Hs. apply write_payload_well.
Qed.
Lemma note_times k q : times_ok (note_of scope k q (cx_now cx)).
Proof using now_in_range. unfold times_ok. cbn. by repeat split; apply read_at_stored. Qed.
Lemma confined_after m1 w : confined m1 -> ok w -> others scope (records w) = others scope (records (mem_store m)) -> confined (with_store m1 w).
Proof. intros (_ & _ & calls & Hc & Hf) Hok Ho. split_and!; [done|done|]. by exists calls. Qed.
Lemma remember_memory_confined q : confined (remember_memory S rd created scope q cx m).2.
Proof using All.
  unfold remember_memory. destruct (parse_memory_tool_remember_kind _) as [k|e]; [|by apply confined_refl].
  set (r := note_of scope k q (cx_now cx)). destruct (write_gate rd r cx m) as [g m1] eqn:Hg.
  destruct (write_gate_confined r g m1 eq_refl Hg) as [Hc Hst]. destruct g as [u|e]; [|exact Hc].
  pose proof (upsert_law r (mem_store m1) ltac:(rewrite Hst; exact mem_ok) (note_times k q)) as Hup.
  destruct (ns_upsert S r (mem_store m1)) as [[stored|e] w]; destruct Hup as [Hok Hup]; cbn [snd].
  - destruct Hup as [-> Hrec]. set (stored := merged (record_at (mr_key r) (records (mem_store m1))) r) in *.
    assert (Hk : mr_key stored = mr_key r) by (apply merged_key; intros o Ho; unfold record_at in Ho; by apply find_some in Ho as [_ ?%bool_decide_eq_true]).
    apply confined_publish.
    + apply confined_after; [done|done|]. rewrite Hrec, Hst. by rewrite others_upd.
    + replace scope with (key_scope (mr_key stored)) by (by rewrite Hk). apply write_payload_well.
  - apply confined_after; [done|done|]. by rewrite Hup, Hst.
Qed.
Lemma forget_memory_confined q : confined (forget_memory S rd created scope q cx m).2.
Proof using All.
  unfold forget_memory. pose proof (remove_law (mkRecordKey (mf_input_id q) scope) (mem_store m) mem_ok) as Hrm.
  destruct (ns_remove S _ (mem_store m)) as [[u|e] w]; destruct Hrm as [Hok Hr]; cbn [snd].
  - apply confined_publish; [|apply (forget_payload_well (mkRecordKey (mf_input_id q) scope))]. apply confined_store; [done|]. rewrite Hr. by apply others_removed.
  - apply confined_store; [done|]. by rewrite Hr.
Qed.
Lemma run_memory_confined parse t input : confined (run_memory parse t (bind_memory_tools S rd created scope) input cx m).2.
Proof using All.
  unfold run_memory, prepare_memory, prepare_remember, prepare_recall, prepare_forget. destruct t.
  - destruct (parse_remember parse input) as [q|e]; [apply remember_memory_confined|by apply confined_refl].
  - destruct (parse_recall parse input) as [q|e] eqn:Hp; [|by apply confined_refl]. apply recall_memory_confined. by eapply recall_input_valid.
  - destruct (parse_forget parse input) as [q|e]; [apply forget_memory_confined|by apply confined_refl].
Qed.
End Tools.

(** ** Writing notes as JSON never raises *)
Fixpoint text_ok (j : json) : bool :=
  match j with
  | JString s => is_valid_utf8 (lit s)
  | JArray l => forallb text_ok l
  | JObject m => forallb (fun p => is_valid_utf8 (lit (fst p)) && text_ok (snd p)) m
  | _ => true
  end.
(** The documentation of [dump]: it raises on text that is not UTF-8 and on nothing else. *)
Class JsonWritesText `{JsonLibrary} := dump_text : forall j, text_ok j = true -> is_Some (json_dump j).

Lemma assoc_set_text k v m : is_valid_utf8 (lit k) = true -> text_ok v = true -> text_ok (JObject m) = true ->
  text_ok (JObject (assoc_set k v m)) = true.
Proof.
  intros Hk Hv. cbn [text_ok]. induction m as [|[k' v'] m IH]; cbn [assoc_set forallb fst snd]; [by rewrite Hk, Hv|].
  intros Hm. apply andb_true_iff in Hm as [Hh Hm]. case_decide; cbn [forallb fst snd]; [by rewrite Hk, Hv, Hm|].
  destruct (bytes_lt _ _); cbn [forallb fst snd]; [by rewrite Hk, Hv, Hh, Hm|by rewrite Hh, IH].
Qed.
Lemma jobject_text l : Forall (fun p => is_valid_utf8 (lit (fst p)) = true /\ text_ok (snd p) = true) l -> text_ok (jobject l) = true.
Proof.
  unfold jobject. assert (Hgo : forall l m, text_ok (JObject m) = true ->
    Forall (fun p => is_valid_utf8 (lit (fst p)) = true /\ text_ok (snd p) = true) l ->
    text_ok (fold_left (fun j p => jset j (fst p) (snd p)) l (JObject m)) = true).
  { clear. intros l. induction l as [|[k v] l IH]; intros m Hm Hl; [done|]. apply Forall_cons in Hl as [[Hk Hv] Hl].
    apply IH; [|done]. by apply assoc_set_text. }
  by apply Hgo.
Qed.
Lemma ascii_valid s : Forall (fun c => code c < 128) s -> is_valid_utf8 s = true.
Proof.
  intros Hs. apply valid_encoded. exists (map code s). split.
  - apply Forall_fmap. eapply Forall_impl; [exact Hs|]. intros c Hc. unfold compose, scalar. pose proof (code_range c). lia.
  - induction Hs as [|c s Hc _ IH]; [done|]. cbn [map]. rewrite encode_all_cons, <- IH. unfold encode.
    replace (code c <? 0x80) with true by (symmetry; apply Z.ltb_lt; lia). cbn. by rewrite byte_of_code.
Qed.
Lemma digits_ascii s : all_digits s = true -> Forall (fun c => code c < 128) s.
Proof.
  unfold all_digits. rewrite forallb_forall. intros Hs. apply Forall_forall. intros c Hc%list_elem_of_In. specialize (Hs c Hc). lia.
Qed.
Lemma time_valid t : is_valid_utf8 (format_iso8601_utc t) = true.
Proof.
  apply ascii_valid. unfold format_iso8601_utc. destruct (civil_from_days _) as [[y mo] d].
  rewrite !Forall_app. split_and!; try (apply digits_ascii, all_digits_pad); by apply Forall_cons.
Qed.
Lemma kind_valid (k : RecordKind) : is_valid_utf8 (lit (enum_name k)) = true.
Proof. by destruct k. Qed.
Lemma required_utf8 s field multiline : validate_required s field multiline = Ok tt -> is_valid_utf8 (lit s) = true.
Proof. unfold validate_required. intros Hv. ok_inv. apply orb_false_iff in E0 as [E0 _]. by apply negb_false_iff in E0. Qed.
Lemma list_utf8 l field : validate_string_list l field = Ok tt -> text_ok (string_list_json l) = true.
Proof.
  unfold validate_string_list. intros Hv. ok_inv. clear - H. cbn. apply forallb_forall. intros j Hj. apply in_map_iff in Hj as (s & <- & Hs). cbn.
  revert H. induction l as [|s' l IH]; [by destruct Hs|]. cbn [validate_values]. intros H. ok_inv. destruct x0, Hs as [->|Hs]; [by eapply required_utf8|by apply IH].
Qed.
(** The texts that the JSON of a note holds are those of a valid note. *)
Lemma record_text r r0 : validate_record r0 = Ok tt ->
  mr_key r = mr_key r0 -> mr_title r = mr_title r0 -> mr_body r = mr_body r0 -> mr_tags r = mr_tags r0 -> mr_linked r = mr_linked r0 ->
  text_ok (record_json r) = true.
Proof.
  unfold validate_record, validate_key. intros Hv Hk Ht Hb Htg Hl. ok_inv. destruct x, x0, x1, x2, x3. apply jobject_text. rewrite Hk, Ht, Hb, Htg, Hl.
  repeat (apply Forall_cons; split; [split; [reflexivity|cbn [snd text_ok json_time]]|]); try apply Forall_nil_2;
    try reflexivity; try (eapply required_utf8; eassumption); try apply kind_valid; try (rewrite lit_str; apply time_valid);
    try (eapply list_utf8; eassumption).
Qed.
Lemma record_lists r : validate_record r = Ok tt -> importance_invalid (mr_importance r) = false /\
  validate_string_list (mr_tags r) "tag" = Ok tt /\ validate_string_list (mr_linked r) "linked_record_id" = Ok tt.
Proof.
  unfold validate_record. intros Hv. ok_inv. split_and!; try done.
  match goal with H : validate_string_list (mr_tags r) _ = Ok ?u |- _ => by destruct u end.
Qed.
(** ** A store without faults answers *)
Section Calm.
Context `{JsonLibraryLaws} `{!JsonWritesText} `{FtsEngine} `{!FtsLaws} (faults : nat -> option Error) (calm : forall n, faults n = None).
Lemma list_written l field : validate_string_list l field = Ok tt -> exists s, string_list_to_json l = Ok s.
Proof.
  intros Hl. unfold string_list_to_json. destruct (dump_text (string_list_json l)) as [s Hs]; [by eapply list_utf8|].
  unfold string_list_json in Hs. rewrite Hs. by exists s.
Qed.
Lemma succeeds_cached {A} (f : LongtermTables -> Result A * LongtermTables) t :
  (exists a t', f t = (Ok a, t')) -> succeeds (run_cached faults f) t.
Proof.
  intros Hf. unfold run_cached. do 2 (apply (succeeds_after _ calm)). by apply (succeeds_call _ calm).
Qed.
Lemma upsert_calm r c : memory_ok c -> times_ok r -> validate_record r = Ok tt -> exists c', upsert faults r c = (Ok (merged (record_at (mr_key r) (notes (cn_tables c))) r), c').
Proof.
  intros [Hs Hi Hn] Ht Hv. set (t := cn_tables c).
  destruct (record_lists r Hv) as (E & Ht1 & Ht2).
  destruct (list_written _ _ Ht1) as [tags Htags]. destruct (list_written _ _ Ht2) as [linked Hlinked].
  assert (Hall : row_allowed (record_row r tags linked) = true) by (unfold row_allowed, record_row; cbn; rewrite E; by destruct (mr_shadow r)).
  assert (Hrow : exists row t1, upsert_row (record_row r tags linked) t = (Ok row, t1)).
  { unfold upsert_row. rewrite Hall. cbn [negb]. destruct (row_at _ _); by eexists _, _. }
  assert (Hread : forall row t1, upsert_row (record_row r tags linked) t = (Ok row, t1) ->
    read_record_row row = Ok (merged (record_at (mr_key r) (notes t)) r)).
  { intros row t1 Hup. destruct (upsert_rows _ _ _ _ (ik_keys _ Hi) Hup) as (_ & _ & _ & _ & ->).
    replace (row_key (record_row r tags linked)) with (mr_key r) by (by destruct r as [[]]).
    apply row_for_read, merged_row; [done|done|done|]. apply (find_notes (mr_key r) _ _ (notes_rows t Hn)). }
  assert (Hok : succeeds (upsert faults r) t).
  { unfold upsert. rewrite Hv. eapply succeeds_bind; [apply succeeds_ret|apply does_retD|]. intros u t0 [_ ->].
    apply (succeeds_after _ calm). apply (succeeds_transaction faults calm _ (upserted r)); [apply does_upsert_body|].
    unfold upsert_body. rewrite Htags, Hlinked. cbn [lift].
    eapply succeeds_bind; [apply succeeds_ret|apply does_retD|]. intros ? t0 [-> ->].
    eapply succeeds_bind; [apply succeeds_ret|apply does_retD|]. intros ? t0 [-> ->].
    eapply succeeds_bind; [apply succeeds_cached; destruct Hrow as (row & t1 & Hup); by exists row, t1|apply does_cached|]. intros row t1 Hup. rewrite (Hread _ _ Hup). cbn [lift].
    eapply succeeds_bind; [apply succeeds_ret|apply does_retD|]. intros ? t2 [-> ->].
    apply (succeeds_after _ calm).
    eapply succeeds_bind; [apply succeeds_cached; by eexists _, _|apply does_cached|]. intros ? t3 _.
    eapply succeeds_bind; [apply succeeds_cached; by eexists _, _|apply does_cached|]. intros ? t4 _. apply succeeds_ret. }
  destruct (Hok c eq_refl) as (stored & c' & He). pose proof (upsert_outcome faults r c Hs) as Ho. rewrite He in Ho.
  destruct Ho as [[_ Hu] _]. destruct (upserted_notes r _ _ _ (ik_keys _ Hi) Hn Ht Hu) as (_ & -> & _). by exists c'.
Qed.
Lemma touch_calm k now c : validate_key k = Ok tt -> exists c', touch faults [k] now c = (Ok tt, c').
Proof.
  intros Hk. assert (Hok : succeeds (touch faults [k] now) (cn_tables c)).
  { unfold touch. cbn [validate_keys]. rewrite Hk. cbn [result_bind lift]. eapply succeeds_bind; [apply succeeds_ret|apply does_retD|]. intros u t0 [_ ->].
    rewrite bool_decide_eq_false_2 by done. apply (succeeds_after _ calm).
    apply (succeeds_transaction faults calm _ (fun t _ t' => t' = touch_all (time_text now) [k] t)).
    - apply does_after; [apply does_step|intros _]. apply does_touch_loop.
    - apply (succeeds_after _ calm). cbn [touch_loop]. eapply succeeds_bind; [apply succeeds_cached; by eexists _, _|apply does_cached|].
      intros ? t1 _. apply succeeds_ret. }
  destruct (Hok c eq_refl) as ([] & c' & He). by exists c'.
Qed.
End Calm.

(** ** Properties *)
(** Whatever a model asks of a memory tool, its call stays in the scope that the host bound:
    the notes of every other scope are as they were, every payload shown to a hook names
    this scope only, and a sink that is not trusted sees no title, body, tag, link or query. *)
Theorem memory_scope_confined `{JsonLibrary} {W A} (S : NoteStore W) ok records `{!StoreLaws S ok records}
    parse t input scope rd created (cx : DispatchContext A) m o m' :
  ok (mem_store m) -> 0 <= rd_recalled rd < 2 ^ 63 -> 0 <= cx_now cx < 2 ^ 63 ->
  run_memory parse t (bind_memory_tools S rd created scope) input cx m = (o, m') ->
  ok (mem_store m') /\
  filter (fun r => key_scope (mr_key r) <> scope) (records (mem_store m')) =
    filter (fun r => key_scope (mr_key r) <> scope) (records (mem_store m)) /\
  exists calls, mem_calls m' = mem_calls m ++ calls /\
    Forall (fun call => Forall (fun sp => payload_within scope sp.2 /\ (sink_trusted_local sp.1 = false -> discreet sp.2)) call.2) calls.
Proof.
  intros Hok Hr Hn Hrun. pose proof (run_memory_confined S ok records rd created scope cx m Hok Hr Hn parse t input) as Hc.
  rewrite Hrun in Hc. exact Hc.
Qed.

Lemma proceed_gate bus event p d :
  (publish_blocking bus event p).1 = Ok d -> hd_kind d = proceed -> event <> permission_ask_rendered ->
  Forall (proceeds event p (blocking_timeout (bus_options bus))) (deciders (default [] (bindings bus !! event))).
Proof.
  unfold publish_blocking. intros Hd Hk Hne. destruct (bindings bus !! event) as [sinks|]; [|constructor]. cbn [default].
  rewrite decide_False in Hd by done.
  pose proof (blocking_loop_spec event p (blocking_timeout (bus_options bus)) sinks []) as Hs.
  destruct (blocking_loop _ _ _ _ _) as [r shown]. cbn in Hd. destruct Hs as (before & _ & Hf & [(-> & _)|(s & rest & _ & _ & Hstop)]); [done|].
  destruct (consult _ _ _ s) as [x|e]; [|congruence]. destruct Hstop as [Hx ->]. injection Hd as <-. done.
Qed.

(** C31: MemoryRemember changes the store only by writing the note of its request, and only
    after every deciding sink of memory_write_before proceeded, each on exactly that note;
    a veto, a rewrite, a request for approval, an error or a timeout leaves the store
    untouched. *)
Theorem writes_are_gated `{JsonLibrary} {W A} (S : NoteStore W) parse input scope rd created (cx : DispatchContext A) m o m' :
  run_memory parse MemoryRemember (bind_memory_tools S rd created scope) input cx m = (o, m') ->
  mem_store m' = mem_store m \/
  exists q k, parse_remember parse input = Ok q /\ parse_enum (mm_kind q) = Some k /\
    let note := note_of scope k q (cx_now cx) in
    mem_store m' = (ns_upsert S note (mem_store m)).2 /\
    match cx_bus cx with
    | None => True
    | Some bus =>
        Forall (proceeds memory_write_before (make_memory_write_payload note cx (rd_started rd) (rd_started rd))
                  (blocking_timeout (bus_options bus)))
          (deciders (default [] (bindings bus !! memory_write_before)))
    end.
Proof.
  unfold run_memory, prepare_memory, prepare_remember. destruct (parse_remember parse input) as [q|e]; [|intros [= _ <-]; by left].
  cbn [result_bind memory_remember_handler memory_remember bind_memory_tools]. unfold remember_memory, parse_memory_tool_remember_kind.
  unfold memory_remember_handler, bind_memory_tools. cbn [memory_remember]. unfold remember_memory, parse_memory_tool_remember_kind.
  destruct (parse_enum (mm_kind q)) as [k|] eqn:Hk; [|intros [= _ <-]; by left]. set (note := note_of scope k q (cx_now cx)).
  unfold write_gate. destruct (cx_bus cx) as [bus|] eqn:Hb.
  - destruct (publish_blocking bus memory_write_before _) as [d shown] eqn:Hp.
    destruct d as [d|e]; [|intros [= _ <-]; by left].
    destruct (hd_kind d) eqn:Hd; try (intros [= _ <-]; by left). cbn [mem_store mem_calls].
    intros Hrun. right. exists q, k. split_and!; [done|done|..].
    + fold note. destruct (ns_upsert S note (mem_store m)) as [[stored|e] w]; injection Hrun as _ <-; done.
    + apply (proceed_gate _ _ _ d); [exact (f_equal fst Hp)|done|done].
  - intros Hrun. right. exists q, k. split_and!; [done|done| |done].
    fold note. destruct (ns_upsert S note (mem_store m)) as [[stored|e] w]; injection Hrun as _ <-; done.
Qed.

Section RoundTrip.
Context `{JsonLibraryLaws} `{!JsonWritesText} `{FtsEngine} `{!FtsLaws} {A : Type}.
Context (faults : nat -> option Error) (calm : forall n, faults n = None) (scope : string) (created : bool).
#[local] Notation store := (fts5_store faults).
#[local] Notation Store := (MemoryState MemoryConn).
Lemma answers text data u : text_ok data = true -> exists d, answer text data u = Some (Ok (with_usage text d u)).
Proof. intros Hd. unfold answer. destruct (dump_text data Hd) as [d ->]. by exists d. Qed.
Lemma remember_data_text r : text_ok (record_json r) = true -> text_ok (remember_data r) = true.
Proof. intros Hr. apply jobject_text. by repeat (apply Forall_cons; split; [split; [reflexivity|done]|]). Qed.
Lemma hit_data_text r score : text_ok (record_json r) = true -> text_ok (recall_data [mkHit r score]) = true.
Proof.
  intros Hr. apply jobject_text. repeat (apply Forall_cons; split; [split; [reflexivity|try reflexivity]|]); [|apply Forall_nil_2].
  cbn [snd map text_ok forallb]. rewrite andb_true_r. unfold hit_json. cbn [hit_record hit_score].
  assert (Ho : exists o, record_json r = JObject o) by (unfold record_json, jobject; eexists; reflexivity).
  destruct Ho as [o Ho]. rewrite Ho in *. by apply assoc_set_text.
Qed.
Lemma remember_calm rd (cx : DispatchContext A) (m : Store) q k :
  memory_ok (mem_store m) -> 0 <= cx_now cx < 2 ^ 63 -> parse_enum (mm_kind q) = Some k ->
  validate_record (note_of scope k q (cx_now cx)) = Ok tt -> (write_gate rd (note_of scope k q (cx_now cx)) cx m).1 = Ok tt ->
  let note := note_of scope k q (cx_now cx) in
  let stored := merged (record_at (mr_key note) (notes (cn_tables (mem_store m)))) note in
  exists out m', remember_memory store rd created scope q cx m = (Some (Ok out), m') /\
    out_text out = render_memory_remember_tool_text stored /\ memory_ok (mem_store m') /\
    record_at (mr_key note) (notes (cn_tables (mem_store m'))) = Some stored.
Proof using All.
  intros Hok Hn Hk Hv Hg note stored. unfold remember_memory, parse_memory_tool_remember_kind. rewrite Hk. fold note.
  assert (Ht : times_ok note) by (unfold times_ok; cbn; by repeat split; apply read_at_stored).
  assert (Hst : (write_gate rd note cx m).2 = mkState (mem_store m) (mem_calls (write_gate rd note cx m).2)).
  { unfold write_gate. destruct (cx_bus cx); [|by destruct m]. by destruct (publish_blocking _ _ _). }
  unfold note in Hg, Hst |- *. fold note in Hg, Hst |- *. destruct (write_gate rd note cx m) as [g m1]. cbn in Hg, Hst. subst g. rewrite Hst. cbn [mem_store].
  destruct (upsert_calm faults calm note (mem_store m) Hok Ht Hv) as [c' Hup]. fold stored in Hup.
  pose proof (upsert_law (S := store) note (mem_store m) Hok Ht) as Hlaw. cbn [fts5_store ns_upsert] in *. rewrite Hup in *. destruct Hlaw as (Hok' & _ & Hrec).
  assert (Hkey : mr_key stored = mr_key note) by (apply merged_key; intros o Ho; unfold record_at in Ho; by apply find_some in Ho as [_ ?%bool_decide_eq_true]).
  destruct (answers (render_memory_remember_tool_text stored) (remember_data stored) (written_usage (memory_record_payload_bytes stored))) as [d ->].
  { apply remember_data_text, (record_text _ note Hv); [done|unfold stored, merged; by destruct (record_at _ _)..]. }
  eexists _, _. split_and!; [reflexivity|reflexivity|..].
  - unfold publish. by destruct (cx_bus cx).
  - replace (mem_store _) with c' by (unfold publish; by destruct (cx_bus cx)). rewrite Hrec. by apply record_upd.
Qed.
Lemma recall_calm rd (cx : DispatchContext A) (m : Store) q note r :
  memory_ok (mem_store m) -> recall_input_ok q -> mq_kinds q = [] -> mq_id q = key_id (mr_key note) -> mq_id q <> ""%string ->
  key_scope (mr_key note) = scope -> validate_record note = Ok tt ->
  record_at (mr_key note) (notes (cn_tables (mem_store m))) = Some r -> mr_shadow r = false -> mr_key r = mr_key note ->
  mr_title r = mr_title note -> mr_body r = mr_body note -> mr_tags r = mr_tags note -> mr_linked r = mr_linked note ->
  exists out m', recall_memory store rd created scope q cx m = (Some (Ok out), m') /\
    out_text out = render_memory_recall_tool_text
      (mkRecallResult [mkHit (with_read (read_at (rd_recalled rd)) r) double_zero]
         (render_recall_text [mkHit (with_read (read_at (rd_recalled rd)) r) double_zero])).
Proof using All.
  intros [Hs Hi Hn] [Hl _ _ _ Hid] Hkinds Heq Hne Hscope Hv Hat Hsh Hk Ht Hb Htg Hln.
  destruct Hid as [Hid|[Hid Hq]]; [congruence|]. unfold recall_memory. rewrite Hkinds. cbn [parse_memory_tool_recall_kinds tool_kinds_loop].
  replace (parse_memory_tool_recall_kinds []) with (Ok (A := list RecordKind) []) by done.
  unfold browses. rewrite (bool_decide_eq_false_2 (mq_id q = ""%string)) by done. rewrite andb_false_r.
  assert (Hkey : validate_key (mr_key note) = Ok tt) by (unfold validate_record in Hv; ok_inv; by destruct x).
  assert (Hkn : mkRecordKey (mq_id q) scope = mr_key note) by (rewrite Heq, <- Hscope; by destruct (mr_key note)).
  unfold recall, recall_amid, validate_recall_request, recall_request. cbn [rq_record_id rq_query rq_limit qy_text qy_scope qy_kinds].
  rewrite bool_decide_eq_false_2 by done. rewrite (bool_decide_eq_true_2 (mq_query q = ""%string)) by done. cbn [negb].
  rewrite Hkn, Hkey. cbn [result_bind]. change (validate_kinds []) with (Ok tt). cbn [result_bind].
  replace (validate_limit (mq_limit q)) with (Ok tt).
  2:{ unfold validate_limit, kMaxMemoryRecallLimit in *. replace (mq_limit q =? 0) with false by lia. by replace (100 <? mq_limit q) with false by lia. }
  unfold select_hits. cbn [rq_record_id rq_query rq_limit qy_text qy_scope qy_kinds]. rewrite bool_decide_eq_false_2 by done. cbn [negb].
  rewrite Hkn. cbn [fts5_store ns_backend fts5 be_get].
  destruct (get_found faults calm (mr_key note) r (mem_store m) Hn Hkey Hat Hs) as [c1 ->]. rewrite Hsh. unfold kind_selected.
  rewrite bool_decide_eq_true_2 by done. cbn [orb negb]. rewrite bool_decide_eq_false_2 by done. cbn [map hit_record be_touch fts5].
  rewrite Hk. destruct (touch_calm faults calm (mr_key note) (read_at (rd_recalled rd)) c1 Hkey) as [c2 ->]. cbn [rr_hits map hit_score hit_record].
  destruct (answers (render_memory_recall_tool_text (mkRecallResult [mkHit (with_read (read_at (rd_recalled rd)) r) double_zero]
         (render_recall_text [mkHit (with_read (read_at (rd_recalled rd)) r) double_zero])))
    (recall_data [mkHit (with_read (read_at (rd_recalled rd)) r) double_zero]) (matches_usage 1)) as [d Hd].
  { apply hit_data_text, (record_text _ note Hv); done. }
  cbn [length]. rewrite Hd. by eexists _, _.
Qed.
End RoundTrip.

(** C30: A note is never lost between the tools: when SQLite works and the gate lets it through,
    every input that MemoryRemember accepts is stored, and MemoryRecall with its identifier,
    in any later context of the scope, answers its kind, title, body, tags and links. *)
Theorem remembered_is_recalled `{JsonLibraryLaws} `{!JsonWritesText} `{FtsEngine} `{!FtsLaws} {A} faults parse
    in1 in2 scope created rd1 rd2 (cx1 cx2 : DispatchContext A) m q1 k q2 :
  (forall n, faults n = None) -> memory_ok (mem_store m) -> validate_required scope "scope_key" false = Ok tt ->
  0 <= cx_now cx1 < 2 ^ 63 ->
  parse_remember parse in1 = Ok q1 -> parse_enum (mm_kind q1) = Some k ->
  (write_gate rd1 (note_of scope k q1 (cx_now cx1)) cx1 m).1 = Ok tt ->
  parse_recall parse in2 = Ok q2 -> mq_id q2 = mm_id q1 -> mq_kinds q2 = [] ->
  exists out1 m1 out2 m2,
    run_memory parse MemoryRemember (bind_memory_tools (fts5_store faults) rd1 created scope) in1 cx1 m = (Some (Ok out1), m1) /\
    run_memory parse MemoryRecall (bind_memory_tools (fts5_store faults) rd2 created scope) in2 cx2 m1 = (Some (Ok out2), m2) /\
    out_text out1 = "MemoryRemember: saved " +:+ mm_kind q1 +:+ " record " +:+ mm_id q1 +:+ newline +:+ "title: " +:+ mm_title q1 /\
    out_text out2 = "MemoryRecall: 1 match" +:+ newline +:+ "Long-term memory:" +:+ newline +:+
      recall_lines (note_of scope k q1 (cx_now cx1)).
Proof.
  intros Hcalm Hok Hscope Hnow Hp1 Hk Hgate Hp2 Hid Hkinds.
  destruct (remember_input_valid _ _ _ Hp1) as (k' & Hk' & Hvalid). rewrite Hk in Hk'. injection Hk' as <-.
  set (note := note_of scope k q1 (cx_now cx1)) in *. specialize (Hvalid scope (cx_now cx1) Hscope). fold note in Hvalid.
  destruct (remember_calm faults Hcalm scope created rd1 cx1 m q1 k Hok Hnow Hk Hvalid Hgate) as (out1 & m1 & Hr1 & Ht1 & Hok1 & Hat).
  fold note in Ht1, Hat. set (stored := merged (record_at (mr_key note) (notes (cn_tables (mem_store m)))) note) in *.
  assert (Hf : mr_shadow stored = false /\ mr_title stored = mr_title note /\ mr_body stored = mr_body note /\
    mr_tags stored = mr_tags note /\ mr_linked stored = mr_linked note /\ mr_kind stored = k /\ mr_key stored = mr_key note).
  { split_and!; unfold stored, merged; try (by destruct (record_at _ _)). }
  destruct Hf as (Hsh & Htl & Hb & Htg & Hln & Hkd & Hky).
  assert (Hne : mq_id q2 <> ""%string).
  { rewrite Hid. intros He. unfold note, validate_record, validate_key, note_of in Hvalid. cbn [mr_key key_id] in Hvalid. by rewrite He in Hvalid. }
  destruct (recall_calm faults Hcalm scope created rd2 cx2 m1 q2 note stored) as (out2 & m2 & Hr2 & Ht2); try done.
  { by eapply recall_input_valid. }
  exists out1, m1, out2, m2. split_and!.
  - unfold run_memory, prepare_memory, prepare_remember. by rewrite Hp1.
  - unfold run_memory, prepare_memory, prepare_recall. by rewrite Hp2.
  - rewrite Ht1. unfold render_memory_remember_tool_text. rewrite Hkd, Hky, Htl. cbn [note note_of mr_key mr_title key_id].
    assert (He : enum_name k = mm_kind q1) by (by apply parse_enum_sound). by rewrite He.
  - rewrite Ht2. unfold render_memory_recall_tool_text, render_recall_text, recall_lines. cbn [rr_hits rr_text hit_record map String.concat with_read mr_kind mr_title mr_key mr_body mr_tags mr_linked].
    rewrite Hkd, Hky, Htl, Hb, Htg, Hln. reflexivity.
Qed.

(** ** The memory of a prompt *)
Lemma kinds_loop_accepts names : forall i kinds, Forall (fun k => k ∈ kMemoryKinds) names -> NoDup (kinds ++ names) ->
  kinds_loop (map JString names) i kinds = Ok (kinds ++ names).
Proof.
  induction names as [|n names IH]; intros i kinds Hf Hnd; cbn [map kinds_loop]; [by rewrite app_nil_r|].
  apply Forall_cons in Hf as [Hn Hf]. rewrite bool_decide_eq_false_2 by (intros ->; revert Hn; unfold kMemoryKinds; set_solver).
  rewrite bool_decide_eq_true_2 by done. cbn [negb].
  assert (Hk : n ∉ kinds) by (apply NoDup_app in Hnd as (_ & Hd & _); intros Hin; apply (Hd n Hin); by left).
  rewrite bool_decide_eq_false_2 by done. rewrite IH; [by rewrite <- app_assoc|done|by rewrite <- app_assoc].
Qed.
(** A request that only browses, as the host makes it from its configuration. *)
Record prompt_request (q : MemoryRecallRequest) : Prop := {
  pq_browse : mq_query q = ""%string /\ mq_id q = ""%string /\ mq_offset q = 0;
  pq_limit : 1 <= mq_limit q <= kMaxMemoryRecallLimit;
  pq_kinds : NoDup (mq_kinds q) /\ Forall (fun k => k ∈ kMemoryKinds) (mq_kinds q) }.
Lemma prompt_input_accepted `{JsonLibraryLaws} parse q s : (forall s v, json_parse s = Doc v -> parse s = Parsed v) ->
  prompt_request q -> json_dump (prompt_recall_input q) = Some s -> parse_recall parse s = Ok q.
Proof.
  intros Hparse [(Hq & Hid & Ho) Hl [Hnd Hk]] Hd.
  assert (Hrep : representable (prompt_recall_input q) = true).
  { unfold prompt_recall_input, kMaxMemoryRecallLimit in *. assert (Hi : (- 2 ^ 63 <=? mq_limit q) && (mq_limit q <? 2 ^ 64) = true) by lia.
    assert (Hlist : forall names, representable (string_list_json names) = true).
    { intros names. apply forallb_forall. intros j Hj. by apply in_map_iff in Hj as (x & <- & _). }
    destruct (mq_kinds q) as [|n names];
      [change (((- 2 ^ 63 <=? mq_limit q) && (mq_limit q <? 2 ^ 64)) && true = true)
      |change (representable (string_list_json (n :: names)) && (((- 2 ^ 63 <=? mq_limit q) && (mq_limit q <? 2 ^ 64)) && true) = true)];
      rewrite Hi; [done|]. by rewrite Hlist. }
  pose proof (Hparse _ _ (parse_dump _ _ Hrep Hd)) as Hp. set (obj := prompt_recall_input q) in *.
  assert (Hobj : parse_input_object parse s kMemoryRecallName kMemoryRecallFields = Ok obj /\
    jcontains obj "query" = false /\ jcontains obj "id" = false /\ jcontains obj "offset" = false /\ jfind obj "offset" = None /\
    jfind obj "limit" = Some (JInt (mq_limit q)) /\
    jfind obj "kinds" = match mq_kinds q with [] => None | _ => Some (string_list_json (mq_kinds q)) end).
  { unfold parse_input_object. rewrite Hp. unfold obj, prompt_recall_input. by destruct (mq_kinds q). }
  destruct Hobj as (Hobj & Fq & Fi & Fo & Fo' & Fl & Fk).
  assert (Hkinds : parse_kinds obj = Ok (mq_kinds q)).
  { unfold parse_kinds. rewrite Fk. destruct (mq_kinds q) as [|n names] eqn:En; [done|].
    unfold string_list_json. by rewrite (kinds_loop_accepts (n :: names) 0 []). }
  unfold parse_recall. rewrite Hobj. cbn [result_bind]. rewrite Fq, Fi, Fo. cbn [andb orb].
  unfold parse_query, parse_record_id, parse_offset. rewrite Fq, Fi, Fo'. cbn [result_bind].
  rewrite bool_decide_eq_true_2 by done. cbn [negb]. unfold parse_limit, kMaxMemoryRecallLimit in *. rewrite Fl.
  replace (mq_limit q <? 0) with false by lia. replace (mq_limit q =? 0) with false by lia. replace (20 <? mq_limit q) with false by lia.
  cbn [orb result_bind]. rewrite Hkinds. cbn [result_bind]. destruct q. cbn in *. by subst.
Qed.
Lemma capped_index `{JsonLibrary} o caps : u_truncated (out_usage (apply_output_caps o caps)) = false ->
  is_index (answered_data (apply_output_caps o caps)) = true ->
  out_text (apply_output_caps o caps) = out_text o /\ out_data_json (apply_output_caps o caps) = out_data_json o.
Proof.
  unfold apply_output_caps, cap_data, cap_text.
  repeat (case_match; cbn; try done).
Qed.

(** What the host puts before a prompt is a page of the index of its scope, never longer than
    the index budget, or a notice that says that there is none: a tool answer that a hook
    turned into reading notes, a truncated one and a failed one never get there, and only
    cancellation ends the turn.  The request is one that the tool accepts. *)
Theorem prompt_memory_is_index `{JsonLibraryLaws} {W A St} (S : NoteStore W) ok records `{!StoreLaws S ok records}
    parse scope (dispatch : string -> string -> St -> Result Output * St) q s o s' :
  (forall text v, json_parse text = Doc v -> parse text = Parsed v) ->
  (forall hits o, out_data_json o = json_dump (recall_data hits) -> is_index (answered_data o) = false) ->
  prompt_request q ->
  (forall input s o s', dispatch kMemoryRecallName input s = (Ok o, s') ->
     exists input' rd created (cx : DispatchContext A) m o' m' caps, ok (mem_store m) /\ 0 <= rd_recalled rd < 2 ^ 63 /\
       run_memory parse MemoryRecall (bind_memory_tools S rd created scope) input' cx m = (Some (Ok o'), m') /\
       o = apply_output_caps o' caps) ->
  recall_prompt_memory dispatch q s = (o, s') ->
  (forall input, json_dump (prompt_recall_input q) = Some input -> parse_recall parse input = Ok q) /\
  match o with
  | None => json_dump (prompt_recall_input q) = None
  | Some (Err e) => err_kind e = ek_cancelled
  | Some (Ok text) =>
      text = no_complete_index \/ (exists e, err_kind e <> ek_cancelled /\ text = index_unavailable e) \/
      exists page, text = ix_text page /\ slength text <= kMaxIndexBytes /\
        Forall (fun e => key_scope (ie_key e) = scope) (ix_entries page)
  end.
Proof.
  intros Hparse Hcontent Hq Hdispatch Hrun. split; [by intros input Hin; eapply prompt_input_accepted|].
  unfold recall_prompt_memory in Hrun. destruct (json_dump (prompt_recall_input q)) as [input|]; [|by injection Hrun as <- <-].
  destruct (dispatch kMemoryRecallName input s) as [[out|e] s1] eqn:Hd; injection Hrun as <- <-.
  2:{ case_bool_decide; [done|]. right. left. by exists e. }
  destruct (out_is_error out || u_truncated (out_usage out) || negb (is_index (answered_data out))) eqn:Hbad; [by left|].
  apply orb_false_iff in Hbad as [Hbad Hidx]. apply orb_false_iff in Hbad as [_ Htr]. apply negb_false_iff in Hidx.
  destruct (Hdispatch _ _ _ _ Hd) as (input' & rd & created & cx & m & o' & m' & caps & Hok & Hrd & Hcall & ->).
  destruct (capped_index o' caps Htr Hidx) as [-> Hdata].
  assert (Hidx' : is_index (answered_data o') = true) by (unfold answered_data in *; by rewrite Hdata in Hidx). right. right.
  unfold run_memory, prepare_memory, prepare_recall in Hcall. destruct (parse_recall parse input') as [q'|e] eqn:Hp; [|done]. cbn [result_bind] in Hcall.
  destruct (recall_input_valid _ _ _ Hp) as [Hl Ho _ _ _]. change (recall_memory S rd created scope q' cx m = (Some (Ok o'), m')) in Hcall.
  unfold recall_memory in Hcall. destruct (parse_memory_tool_recall_kinds (mq_kinds q')) as [kinds|e]; [|done].
  assert (Hans : forall text data u, answer text data u = Some (Ok o') -> out_text o' = text /\ out_data_json o' = json_dump data).
  { unfold answer. intros text data u. destruct (json_dump data); [|done]. by intros [= <-]. }
  destruct (browses q').
  - pose proof (index_confined S ok records scope (index_request scope q' kinds cx) (mem_store m) Hok ltac:(cbn; lia) ltac:(cbn; lia) eq_refl) as Hi.
    destruct (index _ _ _) as [[[page|e]|] w] eqn:Hindex; try done. destruct Hi as (_ & _ & Hscope).
    injection Hcall as Hcall _. apply Hans in Hcall as [Ht _]. exists page. split_and!; [done| |done]. rewrite Ht.
    unfold index in Hindex. destruct (validate_index_request _) as [u|e] eqn:Hv; [|done].
    destruct (index_request_bounds (index_request scope q' kinds cx) ltac:(cbn; lia) ltac:(cbn; lia) u Hv) as (_ & _ & Hmax).
    destruct (be_list _ _ _) as [[es|e] w1]; [|done]. injection Hindex as Hindex _.
    destruct (index_page es (index_request scope q' kinds cx) page ltac:(cbn; lia) ltac:(cbn; lia) Hindex) as [Hlen _]. lia.
  - destruct (recall _ _ _ _) as [[res|e] w]; [|done]. injection Hcall as Hcall _. apply Hans in Hcall as [_ Hdj].
    by rewrite (Hcontent (rr_hits res)) in Hidx'.
Qed.

(** ** The tools in use *)
Module Demo.
Import OrderedJson.Sample LongtermStore.Demo.
#[export] Instance sample_writes : JsonWritesText.
Proof. intros j _. by eexists. Qed.
Definition reader : JsonReader := fun s =>
  match json_parse s with Doc v => Parsed v | Malformed what => ParseFailed what | DocThrew => ParseThrew "" end.
Definition input_of (j : json) : string := default ""%string (json_dump j).
Definition remember_input : string := input_of (jobject
  [("id", JString "k1"); ("kind", JString "project"); ("title", JString "plan"); ("body", JString "walk the dog");
   ("tags", JArray [JString "pets"])]%string).
Definition recall_input : string := input_of (jobject [("id", JString "k1")]%string).
(** A gate that lets everything pass, and an observer that is not trusted. *)
Definition gate : Sink := mkSink "gate" true (Some (fun _ _ => (decided (mkHookDecision proceed "" None []), None))) false.
Definition refusing : Sink := mkSink "refuse" false (Some (fun _ _ => (decided (mkHookDecision veto "no" None []), None))) true.
Definition bus_of (s : Sink) : Bus := subscribe (mkBus ∅ default_bus_options) s [memory_write_before; memory_write_after; memory_read_after].
Definition context_of (s : Sink) : DispatchContext string :=
  mkContext Rules.default_ [] None false None false instant (Some (bus_of s)) None None false None (mkCaps 0 0) None "host" "agent" "alice".
Definition readings : Readings := mkReadings instant (instant + 1000000) (instant + 2000000).
Definition store : NoteStore MemoryConn := fts5_store quietly.
Definition start : MemoryState MemoryConn := mkState fresh [].
Definition bound := bind_memory_tools (A := string) store readings true "s".
Definition remembered := run_memory reader MemoryRemember bound remember_input (context_of gate) start.
Definition recalled := run_memory reader MemoryRecall bound recall_input (context_of gate) remembered.2.

Example remembered_text : match remembered.1 with Some (Ok out) => out_text out | _ => "" end =
  ("MemoryRemember: saved project record k1" +:+ newline +:+ "title: plan")%string.
Proof. vm_compute. reflexivity. Qed.
Example vetoed : mem_store (run_memory reader MemoryRemember bound remember_input (context_of refusing) start).2 = fresh.
Proof. vm_compute. reflexivity. Qed.
Definition request1 : MemoryRememberRequest :=
  mkRememberInput "k1" "project" "plan" "walk the dog" kDefaultMemoryImportance ["pets"%string] [].
Definition request2 : MemoryRecallRequest := mkRecallInput "" 1 [] "k1" 0.
Lemma parsed1 : parse_remember reader remember_input = Ok request1.
Proof. vm_compute. reflexivity. Qed.
Lemma parsed2 : parse_recall reader recall_input = Ok request2.
Proof. vm_compute. reflexivity. Qed.
Lemma instant_range : 0 <= instant < 2 ^ 63.
Proof. vm_compute. split; congruence. Qed.
Lemma recall_range : 0 <= rd_recalled readings < 2 ^ 63.
Proof. vm_compute. split; congruence. Qed.

Lemma memory_scope_confined_witness : memory_ok (mem_store remembered.2) /\
  exists calls, mem_calls remembered.2 = [] ++ calls /\
    Forall (fun call => Forall (fun sp => payload_within "s" sp.2 /\ (sink_trusted_local sp.1 = false -> discreet sp.2)) call.2) calls.
Proof.
  destruct (memory_scope_confined store memory_ok (fun c => notes (cn_tables c)) reader MemoryRemember remember_input "s" readings true
    (context_of gate) start remembered.1 remembered.2 fresh_ok recall_range instant_range (surjective_pairing _)) as (H1 & _ & H2).
  exact (conj H1 H2).
Defined.
Lemma writes_are_gated_witness : mem_store remembered.2 = (upsert quietly (note_of "s" rk_project request1 instant) fresh).2.
Proof.
  destruct (writes_are_gated store reader remember_input "s" readings true (context_of gate) start remembered.1 remembered.2
    (surjective_pairing _)) as [H|(q & k & Hq & Hk & Hw & _)].
  - vm_compute in H. discriminate H.
  - rewrite parsed1 in Hq. injection Hq as <-. injection Hk as <-. exact Hw.
Defined.
Lemma remembered_is_recalled_witness : exists out1 m1 out2 m2,
  run_memory reader MemoryRemember bound remember_input (context_of gate) start = (Some (Ok out1), m1) /\
  run_memory reader MemoryRecall bound recall_input (context_of gate) m1 = (Some (Ok out2), m2) /\
  out_text out2 = ("MemoryRecall: 1 match" +:+ newline +:+ "Long-term memory:" +:+ newline +:+
    "- [project] plan (id: k1)" +:+ newline +:+ "  walk the dog" +:+ newline +:+ "  tags: pets" +:+ newline)%string.
Proof.
  destruct (remembered_is_recalled quietly reader remember_input recall_input "s" true readings readings (context_of gate) (context_of gate)
    start request1 rk_project request2 (fun n => eq_refl) fresh_ok eq_refl instant_range parsed1 eq_refl eq_refl parsed2 eq_refl eq_refl)
    as (out1 & m1 & out2 & m2 & H1 & H2 & _ & H4).
  exists out1, m1, out2, m2. split; [exact H1|]. split; [exact H2|]. rewrite H4. vm_compute. reflexivity.
Defined.

(** A dispatcher that runs the recall tool on what the store holds. *)
Definition held : MemoryState MemoryConn := mkState after1 [].
Definition recall_dispatch (name input : string) (s : unit) : Result Output * unit :=
  match (run_memory reader MemoryRecall bound input (context_of gate) held).1 with
  | Some (Ok o) => (Ok (apply_output_caps o (mkCaps 0 0)), tt)
  | Some (Err e) => (Err e, tt)
  | None => (Err (Errors.internal "exception"), tt)
  end.
Lemma sample_reads j : json_parse (digits_of (countable.encode j)) = if representable j then Doc j else DocThrew.
Proof. simpl. rewrite decide_False by (by destruct (countable.encode j)). by rewrite number_of_digits, decode_encode. Qed.
Lemma recall_content hits o : out_data_json o = json_dump (recall_data hits) -> is_index (answered_data o) = false.
Proof.
  intros Ho. unfold answered_data. rewrite Ho. change (json_dump (recall_data hits)) with (Some (digits_of (countable.encode (recall_data hits)))).
  cbv beta iota. rewrite sample_reads. by destruct (representable (recall_data hits)).
Qed.
Lemma answers_held input s o s' : recall_dispatch kMemoryRecallName input s = (Ok o, s') ->
  exists input' rd created (cx : DispatchContext string) m o' m' caps, memory_ok (mem_store m) /\ 0 <= rd_recalled rd < 2 ^ 63 /\
    run_memory reader MemoryRecall (bind_memory_tools store rd created "s") input' cx m = (Some (Ok o'), m') /\ o = apply_output_caps o' caps.
Proof.
  unfold recall_dispatch. fold bound. destruct (run_memory reader MemoryRecall bound input (context_of gate) held) as [[[o'|e]|] m'] eqn:E;
    cbn [fst]; intros [= <- <-]. exists input, readings, true, (context_of gate), held, o', m', (mkCaps 0 0).
  split_and!; [exact after1_ok|exact (proj1 recall_range)|exact (proj2 recall_range)|exact E|done].
Qed.
Definition prompt_query : MemoryRecallRequest := mkRecallInput "" 20 ["project"%string] "" 0.
Lemma prompt_query_ok : prompt_request prompt_query.
Proof.
  split; [done|vm_compute; split; congruence|]. cbn. split; [apply NoDup_singleton|]. apply Forall_singleton. unfold kMemoryKinds. set_solver.
Qed.
Lemma reader_agrees text v : json_parse text = Doc v -> reader text = Parsed v.
Proof. unfold reader. by intros ->. Qed.
Lemma prompt_memory_is_index_witness : exists text, (recall_prompt_memory recall_dispatch prompt_query tt).1 = Some (Ok text) /\
  text <> no_complete_index /\ slength text <= kMaxIndexBytes.
Proof.
  destruct (prompt_memory_is_index store memory_ok (fun c => notes (cn_tables c)) reader "s" recall_dispatch prompt_query tt
    (recall_prompt_memory recall_dispatch prompt_query tt).1 (recall_prompt_memory recall_dispatch prompt_query tt).2
    reader_agrees recall_content prompt_query_ok answers_held (surjective_pairing _)) as [_ H].
  destruct (recall_prompt_memory recall_dispatch prompt_query tt).1 as [[text|e]|] eqn:E; [|vm_compute in E; discriminate E..].
  exists text. split; [reflexivity|]. vm_compute in E. injection E as E.
  destruct H as [H|[(e & _ & H)|(page & _ & H & _)]].
  - exfalso. rewrite H in E. vm_compute in E. discriminate E.
  - exfalso. rewrite H in E. vm_compute in E. discriminate E.
  - split; [|exact H]. intros Hn. rewrite Hn in E. vm_compute in E. discriminate E.
Defined.
End Demo.
